(* ===== verification/_CoqProject ===== *)
-Q . S2P
Prelude.v
Vocabulary.v
Objects.v
Canonical.v
CanonicalLaws.v
Store.v
StoreLaws.v
Reducer.v
Graph.v
Validation.v
Propagate.v
Create.v
Commands.v
Admission.v
Core.v
Simulation.v
Hoare.v
Refinement.v
Pending.v
Steps.v
Invariants.v
OperationSteps.v
CreateSteps.v
CommandSteps.v
Evolution.v
Termination.v
GraphLaws.v
PropagateLaws.v
Sessions.v
Scenario.v
EngineProperties.v
LedgerProperties.v
AlgorithmProperties.v
Fallible.v
Budget.v
BudgetLaws.v
BudgetAccounts.v
BudgetRuns.v
BudgetProperties.v
Stream.v
Registry.v
RegistryLaws.v
RegistryRuns.v
History.v
Subscription.v
SubscriptionLaws.v
CursorSession.v
SessionSource.v
SessionCursors.v
RetentionLaws.v
StreamScenario.v
StreamProperties.v
RangeMap.v
RangeTypes.v
RangePins.v
RangeTransfer.v
RangeCoordinator.v
RangeMovement.v
RangeInvariants.v
RangeRuns.v
RangeProperties.v
Pages.v
PagesLaws.v
PageDirectory.v
PageTree.v
PageEdits.v
PageEditing.v
PageStore.v
PageRows.v
PageBuilds.v
PagePlans.v
PageStoreLaws.v
PageRefusals.v
PageProperties.v
Snapshots.v
SnapshotLaws.v
SnapshotProperties.v
Replica.v
ReplicaLaws.v
ReplicaProperties.v
