(* ===== verification/Prelude.v ===== *)
(** * Focal: a verification of the claim ledger, its stream, its ranges and their rows

    Focal is a ledger of claims of work. A participant authors a _claim_ about a
    subject, who acquires a _receipt_ for it, collects _artifacts_ in an
    evidence set, and closes it with a _testament_; _validations_ pinned to the
    claim schedule runs whose verdicts decide whether the claim is satisfied or
    fails. Claims cause, depend on, await and supersede each other, and monitors
    park a claim until others settle. Every request is a command of an
    authenticated principal; an accepted command becomes one entry of a totally
    ordered log, and applying the log to an empty ledger gives its state.

    Every entry emits _deltas_, and consumers follow a ledger by its stream of
    deltas: a consumer registers a durable _cursor_ with the ledger, resumes a
    connection from it, acknowledges what it has applied, and so allows the
    ledger to retire the history no cursor needs any more.

    The rows of a large ledger are cut into key _ranges_, each held by the voters
    of the log or by a replica. A _transfer_ moves, splits or merges ranges while
    writes go on: its records are entries of the same log, and a map takes effect
    only behind a barrier that the old holders have sealed at and the new ones
    have reached. The rows of one range are a _store_ of byte-bounded pages under
    a persistent directory: a batch of changes is planned and charged, built into
    a candidate beside the published root, and published by one swap. Readers
    lease a published root for a bounded time, and scan or traverse it in pages.
    A _replica_ of a range applies the committed batches to such a store, is seeded
    block by block, sealed at a transfer's barrier, and written out and restored.

    This development models the engine that admits, executes and applies those
    commands (crates/focal-model/src and crates/focal-core/src), the stream its
    consumers follow (crates/focal-stream/src) with the memory budget that
    charges it (crates/focal-memory/src), the session that retains the
    deltas, replays them and applies cursor commands (crates/focal-ledger/src),
    the coordination of ranges (crates/focal-ranges/src and the session's
    movement of crates/focal-ledger/src), the paged store of a range's rows with
    the leases on it (crates/focal-memory/src) and the replicas over it
    (crates/focal-ranges/src), and proves what they promise.

    ** The parts and how they interact

    - The vocabulary and the data ([vocabulary.rs], [semantics_v1.rs],
      [ids.rs], [objects.rs], [command.rs]): [Vocabulary], [Objects].
    - Canonical identities ([canonical.rs]): [Canonical]; that the bytes
      identify the content: [CanonicalLaws].
    - Row storage ([overlay.rs], the tables and workspace recorder of
      [access.rs]): [Store]. A table is a plain map (the serial oracle) or an
      overlay of this entry's rows over earlier pending versions over a
      committed base. [Backend] is the interface the reducer uses,
      [BackendLaws] of [StoreLaws] what it promises; both storages discharge
      it. [StoreLaws] has the laws of the ten tables too.
    - The reducer ([reduce.rs], [validation.rs], [graph.rs]): [Reducer] is the
      state and error monad with the helpers every command uses, [Graph] the
      satisfaction fixpoint, the lineage check and the wait graph,
      [Validation] scheduling, aggregation and verdicts, [Propagate]
      cancellation and propagation, [Create] claims, artifacts and testaments,
      [Commands] the arms of [Reducer::command] and [execute_domain_on].
    - Admission policy for new proposals ([admission.rs]): [Admission].
    - The core ([lib.rs], [execution.rs], [pending.rs]): [Core] prepares,
      applies and stages entries and keeps the queue of pending row versions.
    - The memory budget ([budget.rs], [budget_elastic.rs]): [Budget], the tree
      of levels with their lanes, kinds and funding, and the reservations and
      allocations that the components below hold. [Fallible] has the monads of
      code that fails and of code that fails while keeping its state.
    - The stream ([cursor.rs], [registry.rs], [subscription.rs],
      [consumer.rs]): [Stream] has positions, tokens and filters; [Registry]
      the cursors of a ledger, prepared and published one command at a time;
      [Subscription] the bounded connection of one consumer and the consumer's
      own checkpoint. A connection replays from any [DeltaSource].
    - The session's stream ([cursor_session.rs], [native_deltas.rs], the delta
      ring of [session.rs] and [apply_epoch.rs]): [CursorSession] has the
      stream line and the session as a [DeltaSource]; [SessionCursors] cursor
      commands, from the envelope of a proposal to its receipt, the retention
      forecast and the publication of an epoch's deltas. The session reads
      requests and epochs from the engine's [Core].
    - Range maps ([range_map.rs] of focal-memory): [RangeMap], for any ordered
      key and metadata: validation, routing, replacement.
    - Range coordination ([types.rs], [map.rs], [pins.rs], [coordinator.rs] of
      focal-ranges): [RangeTypes] instantiates the map with storage keys and
      placements; [RangePins] has the readers' pins and read plans;
      [RangeTransfer] the records of a transfer and its certificate;
      [RangeCoordinator] prepares and publishes records, observes progress and
      checks checkpoints. It asks an embedder's [RangeVerifier] about proofs.
    - The session's movement ([native_session_movement.rs]): [RangeMovement]
      frames records, is the verifier by attestation, and drives the coordinator
      by the committed entries and the layout's splits and merges.
    - The range store ([range_key.rs], [range_layout.rs], [range_directory.rs],
      [range_groups.rs], [range_preflight.rs], [range.rs] of focal-memory):
      [Pages] has the keys, rows, changes and charges, the merge of a page with
      its changes, the greedy rule that quotes its pages and the rule that cuts
      them; [PageDirectory] the tree over the pages, its reads, edits and
      iteration; [PageStore] roots, the plan of a batch with its quote, its build
      into a candidate, publication and restoring. What a build reserves is asked
      of [Funding], which the small store of [PageProperties] instantiates with
      the budget of [Budget].
    - Leases and reads ([snapshot.rs], [traversal.rs] and the leases of [range.rs]):
      [Snapshots] has the registry of a store's leases, the weak reference a lease
      reads through, reads by key, pages of a scan and of a breadth-first
      traversal with their continuations, and frozen images.
    - Replicas ([replica.rs] of focal-ranges): [Replica] has the stager that
      collects a seed and installs it, and the replica: batches prepared and
      published on its [PageStore], the certificates of [RangeTransfer] that arm,
      seal and activate it, its leases of [Snapshots], and its checkpoint.

    A state component of the source is a record of the same fields: [State] has
    the ledger, the sequence and the ten [Tables]; [Reducer] has the rows, the
    recorder and the outputs; [Core], [PendingState], [StagedMutation] and
    [CoreView] are those of the source. A method of the source is a definition
    of the same name (or of its command), a fallible one in the monad [M],
    whose error is the [DomainOutcome] the source returns. A reducer that fails
    leaves its partial writes in the discarded overlay, as the source does. A
    method of the stream is in [Fallible S], whose state is the object and the
    budget levels [Levels]; one that fails keeps what it changed before, and
    what Rust drops on the way out is returned to the budget.

    ** What the theorems show

    [EngineProperties]: the overlay engine equals the serial oracle
    (apply_refines_serial), staging over pending rows prepares and computes what
    the oracle does on the effective core (staging_refines_serial,
    staged_request_accepted), pending entries commit with the results that were
    answered for them (commit_keeps_effective_core), entries refine an
    inductive transition system (entry_refines_transitions) and leave the ledger
    settled (entry_settles), applying ends (apply_terminates), failures change
    nothing (apply_outcome), and the request protocol is idempotent and fenced
    (prepared_entry_applies, retry_returns_receipt, known_key_reply,
    prepared_request_is_fenced, failure_testament_reported).

    [LedgerProperties]: invariants of every reachable ledger and of its
    evolution: lawful histories, frozen terminal claims, exclusive receipts with
    increasing epochs, the exact identity index and canonical content hashes,
    sound and final verdicts,
    immutable evidence, contiguous request generations, and that a satisfied
    claim was validated.

    [AlgorithmProperties]: what the algorithms compute: the least satisfaction
    set, the exact cancellation closure, the strongly connected component of the
    wait graph, lineage acyclicity, the worst aggregate verdict, receipt
    acquisition, the overlay as one ordered map, codes that round-trip and bytes
    that identify content.

    [BudgetProperties]: in every state the budget's operations reach, each level
    counts exactly the permits and backings under it, within its limits
    (budget_accounts_exact); a reservation succeeds exactly when the headroom
    covers it and a refused one leaves every counter and category as it was, but for
    its own refusal diagnostics (reservation_decided); once every handle and permit
    is dropped every level has ended (budget_released).

    [StreamProperties]: every reached registry is a valid checkpoint charged for
    exactly its rows (registry_state_sound), cursors are durable obligations
    (cursor_obligations_kept) and preparations announce what is published
    (publication_as_projected); a connection delivers exactly the matching
    history, in order, within its limits and without a stuck head
    (subscription_delivers_history, subscription_within_bounds,
    full_window_delivers) and the consumer applies it exactly once, up to the first
    resync or delta of another schema (consumer_applies_once); the session is such a source
    (session_replays_history), its ring is the history above its floor
    (delta_ring_exact), the floor never passes a cursor's needs, for sessions of
    version 1 ledgers (retained_for_cursors) and the forecast that moves it decides
    (retention_forecast_decides). Two theorems state where the code refuses what
    it should accept (filtered_head_refused, floor_past_prefix_refused).

    [RangeProperties]: a valid map routes every key to one range
    (map_routes_exactly) and a replacement moves exactly the keys of its sources
    (replace_moves_sources); in every state a session's movement reaches the
    checkpoint restores (movement_checkpoint_valid), every activated map was
    fenced (activation_fenced), a published prefix is held by every replica
    (published_prefix_held), records apply in order, once
    (record_applied_in_order), and a read plan serves each remaining key once
    (read_plan_exact); framed records decode (movement_record_roundtrip). One
    theorem states an activation whose certificate every replica refuses
    (same_prefix_activation_refused).

    [PageProperties]: a sound root reads as one ordered map (reads_one_map); a
    batch updates that map or leaves the store as it was, and is refused only for
    a reason of the batch or for room (batch_applied); the cut into pages is
    within the limits and makes as many pages as were quoted
    (cut_pages_as_quoted); a run of directory edits within its byte bound does
    what the edits say (directory_edits_exact) and an edit that does not apply is
    refused and charges nothing (directory_edit_refused); of the candidates of a
    root one is published (publication_fenced), and a chain of them publishes in
    order (chain_publishes); a store restored from rows holds exactly those rows
    (store_restored).

    [SnapshotProperties]: whatever happens to the store, a lease reads the rows of
    the root it pinned until it expires, is released or its clock has passed
    (lease_reads_pinned_rows); the pages of a scan, put together, are the rows of
    the query, each once and in order (scan_pages_exact); every page of a traversal
    ends, and the pages of one that completes list exactly the rows that can be
    reached from its root, each once (traversal_reads_reachable).

    [ReplicaProperties]: a replica reads as the committed log replayed
    (replica_replays_log), each batch once, however much later it is tried again
    (batch_applied_once); once sealed it is
    never written again and serves only its old epoch up to the cut
    (sealed_replica_fenced); its checkpoint restores (replica_checkpoint_restores);
    and a seed staged in any order installs as exactly the rows its manifest lists
    (staged_seed_installs).

    ** How they are proved

    [Simulation] relates two runs of one program over two storages, and
    [Refinement] instantiates it with the overlay and the plain maps; [Pending]
    carries it through staging. [Hoare] is a weakest-precondition calculus of
    the serial run. [Steps] is the transition system of the rows; [Invariants]
    its inductive invariant, preserved by every transition; [OperationSteps],
    [CreateSteps] and [CommandSteps] show that every operation is a sequence of
    transitions (hint database steps); [Evolution] what transitions never undo,
    and lifts both to ledgers. [Termination] shows that no loop exhausts
    its bound (hint database always). [GraphLaws], [PropagateLaws], the end of
    [Validation] and [Sessions] have the laws of the algorithms and of request
    sessions.
    [Scenario] is a concrete session on which the theorems' hypotheses hold.
    [Stream] has the order of positions and [History] the histories ordered
    by it; [RegistryLaws] shows what each registry operation does and
    [RegistryRuns] what runs of them preserve; [SubscriptionLaws] does so for
    connections and consumers against the interface
    [VisitingSource], which [SessionSource] discharges for the session;
    [RetentionLaws] has the invariant of the delta ring. [StreamScenario] is the
    concrete stream of the witnesses.
    [BudgetLaws] shows what each walk over the levels does to what is observed of
    them, [BudgetAccounts] the accounts that handles, permits and backings must
    add up to, and [BudgetRuns] that every operation keeps them.
    [RangeMap] ends with the laws of maps; [RangeInvariants] has what each record
    and its publication keep true of a checkpoint, [RangeRuns] the runs of a
    session's movement and their invariant, read plans and frames; the module
    [Moving] of [RangeProperties] is a concrete transfer.
    [PagesLaws] shows that the cut rule takes the number of pages the greedy rule
    takes, [PageTree] what a sound directory is and that its reads are those of
    the list of its pages, [PageEdits] and [PageEditing] that its edits are those
    of the list and what they cost; [PageRows] that rows are a map, [PageBuilds]
    that a merge makes the pages its plan counted, [PagePlans] that the plan and
    the build of a batch take the same groups of changes, [PageStoreLaws] that a
    planned batch builds, applies and restores, [PageRefusals] what a plan or a
    restore fails with. [SnapshotLaws] has the steps of a store with its readers and
    what they keep of a lease, and the invariants of the loops of a scan and of a
    traversal; [ReplicaLaws] what a sound replica is, the steps of a replica with
    the batches prepared on it and what a run of them keeps, checkpoints that
    restore, and staged seeds. The modules [Leased] and [Replicating] are the
    concrete leases and replicas of the witnesses.

    ** Bounds, fuel and parameters

    Machine integers are [N]; every checked operation of the source is checked
    here, at 32 or 64 bits ([usize] is 64 bits). A loop that is not structural is
    [mloop] with a bound computed from the tables; running out of it is the
    error [OutOfFuel], which no source error is, and [Termination] proves that no
    bound is ever reached, so apply_terminates is about every entry. The
    hypothesis [fits] says that the tables hold fewer than 2^64 rows, which the
    [usize] row counters of the source presuppose.

    [External] stands for the code outside the repository: the hash [blake3],
    and the sizes and bytes of the serialization library; [ViewCodec] for the
    bytes of a serialized view. Nothing is assumed of them. [Layout] stands for
    the compiler's type sizes, [WireSizes] and [SessionSizes] for serialized
    sizes and charges, [StreamedDelta] and [NativeDelta] for the deltas and the
    native engine that derives some of them; the one law used is that a native
    delta carries the identity it was derived for. Budget levels nest at most
    [MAX_DEPTH] deep, as the source checks, so walks to the root are structural
    on a fuel of that depth; the replay of native records and the forecast run
    on bounds that session_replays_history and retention_forecast_decides show
    to suffice. [RangeWire] stands for the digests and serialized sizes of range
    records, [RangeLayout] for the sizes of their rows, [MovementWire] for the
    codec of operations and checkpoints and for the keyed digest; what
    movement_record_roundtrip needs of the last two is in its hypotheses. The
    [RangeVerifier] of a movement is the ledger's own, any other is a parameter.
    [PageSizes] stands for the compiler's sizes of rows, pages and nodes; a store
    is a function of them, of the key's order prefix ([RangeKey], with the
    contract [RangeKeyLaws] its documentation states) and of [Funding]: the
    budget's answer to every reservation, and whether another handle holds a node.
    Where credit comes back when a page or a permit is dropped is part of those
    answers. The loops over a batch's groups and over a restore's batches take a
    change or a row each turn, so their fuel is the length of what is left; a
    directory is at most [MAX_LEVELS] high, which edit_bound_fails proves of as
    many pages as there are addresses. [SnapshotSizes] and [ReplicaLayout] stand
    for the compiler's sizes of leases, continuations, blocks and replicas,
    [ReplicaWire] for the bytes, sizes and checksums of what a replica writes, of
    which [ReplicaWireLaws] says that what was written reads back. The room of a
    row's vector, which a charge counts, is an argument by the row's key. A page of
    a traversal makes a probe each turn, so one turn more than its edge budget is
    its fuel, which traversal_reads_reachable shows to suffice.

    ** Not modelled

    The access footprint of [access.rs] and the tracked variants of prepare and
    apply (they report reads and writes beside the same result); version
    watermarks; the checkpoint codec and the frozen durable codec; managed
    requests and parallel epochs; the native engine; the gates of
    propose_cursor that look at the other pending work of a session, its
    consensus, checkpoints and snapshots; the interleavings of the budget's
    atomics (its operations run one at a time here) and the arenas, key sets and
    disk accounting of focal-memory; of its range store
    publication in place, hydration, splitting and the caller's hooks for copied
    and replaced rows; and the crates around the engine: consensus, log, node,
    client, transport, evidence store, user interfaces. Allocation failure of a
    [Vec] is not modelled: the encoder's Capacity error and [try_reserve_exact] never fail here,
    and a [Vec] has the capacity that was asked for. The native engine's
    schema-2 values (peer policies, native deltas) are not part of V1. *)
From stdpp Require Import prelude gmap sorting strings pretty.
From Stdlib Require Import NArith.

#[global] Set Default Proof Using "Type".

(** ** Machine-width integers

    [u32], [u64] and [usize] values are [N]; every checked operation of the
    source is one of the functions below, which answer [None] on overflow. *)
Definition u32_max : N := (2 ^ 32 - 1)%N.
Definition u64_max : N := (2 ^ 64 - 1)%N.

Definition checked_add (a b : N) : option N :=
  if (a + b <=? u64_max)%N then Some (a + b)%N else None.
Definition checked_mul (a b : N) : option N :=
  if (a * b <=? u64_max)%N then Some (a * b)%N else None.
Definition checked_sub (a b : N) : option N :=
  if (b <=? a)%N then Some (a - b)%N else None.
(** [u32::try_from] on a [usize]. *)
Definition try_u32 (a : N) : option N :=
  if (a <=? u32_max)%N then Some a else None.

Lemma checked_add_Some a b c : checked_add a b = Some c ↔ c = (a + b)%N ∧ (c <= u64_max)%N.
Proof. unfold checked_add. destruct (N.leb_spec (a + b) u64_max); naive_solver lia. Qed.
Lemma checked_sub_Some a b c : checked_sub a b = Some c ↔ (b <= a)%N ∧ c = (a - b)%N.
Proof. unfold checked_sub. destruct (N.leb_spec b a); naive_solver lia. Qed.

(** ** Ordered tables

    The source keeps every table in a [BTreeMap] and every set in a
    [BTreeSet], whose iteration order is the derived [Ord] of the key. A key
    type names its order by a code: [derive(Ord)] compares the fields of a
    struct, and the discriminant and then the fields of an enum, in
    declaration order, which is the lexicographic order of the codes. *)
Class TableKey (K : Type) `{Countable K} := {
  key_code : K → list N;
  key_code_inj :: Inj (=) (=) key_code;
}.

Fixpoint lex_leb (a b : list N) : bool :=
  match a, b with
  | [], _ => true
  | _ :: _, [] => false
  | x :: a, y :: b => (x <? y)%N || ((x =? y)%N && lex_leb a b)
  end.

Definition key_le {K} `{TableKey K} (x y : K) : Prop :=
  Is_true (lex_leb (key_code x) (key_code y)).
#[global] Instance key_le_dec {K} `{TableKey K} (x y : K) : Decision (key_le x y).
Proof. unfold key_le. apply _. Defined.
Definition key_lt {K} `{TableKey K} (x y : K) : Prop := key_le x y ∧ x ≠ y.
#[global] Instance key_lt_dec {K} `{TableKey K} (x y : K) : Decision (key_lt x y).
Proof. unfold key_lt. apply _. Defined.

Lemma lex_leb_refl a : lex_leb a a = true.
Proof. induction a as [|x a IH]; simpl; [done|]. by rewrite N.eqb_refl, IH, orb_true_r. Qed.
Lemma lex_leb_cons x a y b :
  lex_leb (x :: a) (y :: b) = true ↔ (x < y)%N ∨ (x = y ∧ lex_leb a b = true).
Proof. simpl. rewrite orb_true_iff, andb_true_iff, N.ltb_lt, N.eqb_eq. done. Qed.
Lemma lex_leb_trans a b c : lex_leb a b = true → lex_leb b c = true → lex_leb a c = true.
Proof.
  revert b c. induction a as [|x a IH]; [done|]; intros [|y b] [|z c]; try done.
  rewrite !lex_leb_cons. intros [?|[-> ?]] [?|[-> ?]]; [left; lia|left; lia|by left|].
  right. split; [done|]. by eapply IH.
Qed.
Lemma lex_leb_antisym a b : lex_leb a b = true → lex_leb b a = true → a = b.
Proof.
  revert b. induction a as [|x a IH]; intros [|y b]; try done.
  rewrite !lex_leb_cons. intros [?|[-> ?]] [?|[? ?]]; try lia. f_equal. by apply IH.
Qed.
Lemma lex_leb_total a b : lex_leb a b = true ∨ lex_leb b a = true.
Proof.
  revert b. induction a as [|x a IH]; intros [|y b]; [by left|by left|by right|].
  rewrite !lex_leb_cons. destruct (N.lt_trichotomy x y) as [?|[->|?]]; [by left; left| |by right; left].
  destruct (IH b); [left|right]; by right.
Qed.

Section key_order.
Context {K} `{TableKey K}.
#[export] Instance key_le_po : PartialOrder (@key_le K _ _ _).
Proof.
  split; [split|]; unfold key_le.
  - intros x. by rewrite lex_leb_refl.
  - intros x y z. rewrite !Is_true_true. apply lex_leb_trans.
  - intros x y. rewrite !Is_true_true. intros. apply (inj key_code). by apply lex_leb_antisym.
Qed.
#[export] Instance key_le_total : Total (@key_le K _ _ _).
Proof. intros x y. unfold key_le. rewrite !Is_true_true. apply lex_leb_total. Qed.
Lemma key_lt_irrefl (x : K) : ¬ key_lt x x.
Proof. unfold key_lt. naive_solver. Qed.
Lemma key_lt_trans (x y z : K) : key_lt x y → key_lt y z → key_lt x z.
Proof.
  intros [? ?] [? Hn]. split; [by etrans|]. intros ->. apply Hn. by apply (anti_symm key_le).
Qed.
Lemma key_nlt (x y : K) : ¬ key_lt x y → key_le y x.
Proof.
  intros Hn. destruct (total key_le x y); [|done].
  destruct (decide (x = y)) as [->|]; [done|]. exfalso. by apply Hn.
Qed.
Lemma key_lt_le_trans (x y z : K) : key_lt x y → key_le y z → key_lt x z.
Proof.
  intros Hlt Hle. destruct (decide (y = z)) as [->|]; [done|]. by eapply key_lt_trans.
Qed.
End key_order.

(** The rows of a table in iteration order. *)
Definition pair_le {K} `{TableKey K} {V} (x y : K * V) : Prop := key_le x.1 y.1.
#[global] Instance pair_le_dec {K} `{TableKey K} {V} (x y : K * V) : Decision (pair_le x y).
Proof. unfold pair_le. apply _. Defined.
Definition entries {K} `{TableKey K} {V} (m : gmap K V) : list (K * V) :=
  merge_sort pair_le (map_to_list m).
(** The elements of a set in iteration order. *)
Definition set_iter {K} `{TableKey K} (X : gset K) : list K := merge_sort key_le (elements X).

Section entries.
Context {K} `{TableKey K} {V : Type}.
Implicit Types (m : gmap K V) (l : list (K * V)).
#[export] Instance pair_le_total : Total (@pair_le K _ _ _ V).
Proof. intros x y. apply key_le_total. Qed.
#[export] Instance pair_le_trans : Transitive (@pair_le K _ _ _ V).
Proof. intros x y z. unfold pair_le. apply (key_le_po (K:=K)). Qed.

Lemma entries_perm m : entries m ≡ₚ map_to_list m.
Proof. apply merge_sort_Permutation. Qed.
Lemma elem_of_entries m k v : (k, v) ∈ entries m ↔ m !! k = Some v.
Proof. by rewrite entries_perm, elem_of_map_to_list. Qed.
Lemma entries_sorted m : StronglySorted pair_le (entries m).
Proof. apply StronglySorted_merge_sort; apply _. Qed.
Lemma entries_fst_nodup m : NoDup (entries m).*1.
Proof. rewrite entries_perm. apply NoDup_fst_map_to_list. Qed.
Lemma entries_nodup m : NoDup (entries m).
Proof. rewrite entries_perm. apply NoDup_map_to_list. Qed.
Lemma length_entries m : length (entries m) = size m.
Proof. by rewrite entries_perm, length_map_to_list. Qed.
End entries.

(** A list of pairs with strictly increasing keys is determined by the map it
    denotes. *)
Definition pair_lt {K} `{TableKey K} {V} (x y : K * V) : Prop := key_lt x.1 y.1.

Section sorted_unique.
Context {K} `{TableKey K} {V : Type}.
Implicit Types (l : list (K * V)).
Lemma sorted_pairs_unique l1 l2 :
  StronglySorted pair_lt l1 → StronglySorted pair_lt l2 →
  (∀ x, x ∈ l1 ↔ x ∈ l2) → l1 = l2.
Proof.
  revert l2. induction l1 as [|x l1 IH]; intros l2 H1 H2 Hel.
  { destruct l2 as [|y l2]; [done|]. specialize (Hel y). set_solver. }
  destruct l2 as [|y l2]; [specialize (Hel x); set_solver|].
  apply StronglySorted_cons in H1 as [Hx H1]. apply StronglySorted_cons in H2 as [Hy H2].
  rewrite Forall_forall in Hx, Hy.
  assert (x = y) as <-.
  { assert (Hxin : x ∈ y :: l2) by (apply Hel; left).
    assert (Hyin : y ∈ x :: l1) by (apply Hel; left).
    apply elem_of_cons in Hxin as [|Hxin]; [done|].
    apply elem_of_cons in Hyin as [|Hyin]; [done|].
    exfalso. eapply key_lt_irrefl, key_lt_trans; [by apply Hx|by apply Hy]. }
  f_equal. apply IH; [done..|]. intros z. specialize (Hel z).
  rewrite !elem_of_cons in Hel. split; intros Hz.
  - destruct (proj1 Hel) as [->|?]; [by right| |done]. exfalso. by eapply key_lt_irrefl, Hx.
  - destruct (proj2 Hel) as [->|?]; [by right| |done]. exfalso. by eapply key_lt_irrefl, Hy.
Qed.
End sorted_unique.

(** ** Fallible results *)
Inductive Result (A E : Type) := Ok (value : A) | Err (error : E).
Arguments Ok {_ _} _.
Arguments Err {_ _} _.
Definition is_ok {A E} (x : Result A E) : Prop := match x with Ok _ => True | Err _ => False end.

Section entries_strict.
Context {K} `{TableKey K} {V : Type}.
Implicit Types (m : gmap K V).
Lemma sorted_le_lt (l : list (K * V)) :
  StronglySorted pair_le l → NoDup l.*1 → StronglySorted pair_lt l.
Proof.
  induction l as [|[k v] l IH]; simpl; intros Hs Hn; [constructor|].
  apply StronglySorted_cons in Hs as [Hk Hs]. apply NoDup_cons in Hn as [Hnin Hn].
  apply StronglySorted_cons; split; [|by apply IH].
  rewrite Forall_forall in Hk |- *. intros [k' v'] Hin. split; [by apply (Hk (k', v'))|].
  simpl. intros ->. apply Hnin. by apply list_elem_of_fmap_2' with (k', v').
Qed.
Lemma entries_strict m : StronglySorted pair_lt (entries m).
Proof. apply sorted_le_lt; [apply entries_sorted|apply entries_fst_nodup]. Qed.
(** Iteration in key order is the only strictly increasing listing of a map. *)
Lemma entries_unique m l :
  StronglySorted pair_lt l → (∀ k v, (k, v) ∈ l ↔ m !! k = Some v) → l = entries m.
Proof.
  intros Hs Hel. apply sorted_pairs_unique; [done|apply entries_strict|].
  intros [k v]. by rewrite Hel, elem_of_entries.
Qed.
Lemma elem_of_entries_fst m k : k ∈ (entries m).*1 ↔ k ∈ dom m.
Proof.
  rewrite elem_of_dom, list_elem_of_fmap. split.
  - intros [[? v] [-> Hin%elem_of_entries]]. by exists v.
  - intros [v Hv%elem_of_entries]. by exists (k, v).
Qed.
End entries_strict.

Lemma elem_of_set_iter {K} `{TableKey K} (X : gset K) k : k ∈ set_iter X ↔ k ∈ X.
Proof. unfold set_iter. by rewrite merge_sort_Permutation, elem_of_elements. Qed.
Lemma set_iter_nodup {K} `{TableKey K} (X : gset K) : NoDup (set_iter X).
Proof. unfold set_iter. rewrite merge_sort_Permutation. apply NoDup_elements. Qed.
Lemma length_set_iter {K} `{TableKey K} (X : gset K) : length (set_iter X) = size X.
Proof. unfold set_iter. by rewrite merge_sort_Permutation. Qed.
(** The last element in iteration order is the greatest. *)
Lemma sorted_last {A} (R : A → A → Prop) `{!Reflexive R} (l : list A) x y :
  StronglySorted R l → last l = Some x → y ∈ l → R y x.
Proof.
  induction l as [|z l IH]; [done|]. intros [Hz Hs]%StronglySorted_cons Hl Hy.
  destruct l as [|z' l]; [simpl in Hl; simplify_eq; apply list_elem_of_singleton in Hy as ->; done|].
  change (last (z' :: l) = Some x) in Hl.
  apply elem_of_cons in Hy as [->|Hy]; [|by apply IH].
  rewrite Forall_forall in Hz. apply Hz. by apply last_Some_elem_of.
Qed.
Lemma last_set_iter {K} `{TableKey K} (X : gset K) x :
  last (set_iter X) = Some x → x ∈ X ∧ ∀ y, y ∈ X → key_le y x.
Proof.
  intros Hl. split.
  - apply elem_of_set_iter. by apply last_Some_elem_of.
  - intros y Hy. apply (sorted_last key_le (set_iter X)); [|done|by apply elem_of_set_iter].
    apply StronglySorted_merge_sort; apply _.
Qed.
(** ** Searches *)
(** [slice::partition_point] on a slice that the predicate splits in two: how
    many elements come first. *)
Fixpoint partition_point {A} (f : A → bool) (l : list A) : nat :=
  match l with [] => 0 | x :: l => if f x then S (partition_point f l) else 0 end.
Lemma existsb_false {A} (f : A → bool) (l : list A) : existsb f l = false ↔ ∀ x, x ∈ l → f x = false.
Proof.
  induction l as [|y l IH]; simpl; [set_solver|]. rewrite orb_false_iff, IH. set_solver.
Qed.
Lemma forallb_true {A} (f : A → bool) (l : list A) : forallb f l = true ↔ ∀ x, x ∈ l → f x = true.
Proof.
  induction l as [|y l IH]; simpl; [set_solver|]. rewrite andb_true_iff, IH. set_solver.
Qed.
Lemma elem_of_entries_snd {K} `{TableKey K} {V} (m : gmap K V) v : v ∈ (entries m).*2 ↔ ∃ k, m !! k = Some v.
Proof.
  rewrite list_elem_of_fmap. split.
  - intros [[k v'] [-> Hin%elem_of_entries]]. by exists k.
  - intros [k Hk%elem_of_entries]. by exists (k, v).
Qed.
(** ** Filtered lists *)
Lemma filter_none {A} (P : A → Prop) `{∀ x, Decision (P x)} (l : list A) :
  (∀ x, x ∈ l → ¬ P x) → filter P l = [].
Proof.
  induction l as [|x l IH]; intros Hn; [done|]. rewrite filter_cons, decide_False by (apply Hn; left).
  apply IH. intros. apply Hn. by right.
Qed.
Lemma filter_every {A} (P : A → Prop) `{∀ x, Decision (P x)} (l : list A) :
  (∀ x, x ∈ l → P x) → filter P l = l.
Proof.
  induction l as [|x l IH]; intros Hn; [done|]. rewrite filter_cons, decide_True by (apply Hn; left).
  f_equal. apply IH. intros. apply Hn. by right.
Qed.
Lemma filter_agree {A} (P Q : A → Prop) `{∀ x, Decision (P x), ∀ x, Decision (Q x)} (l : list A) :
  (∀ x, x ∈ l → P x ↔ Q x) → filter P l = filter Q l.
Proof.
  induction l as [|x l IH]; intros Hn; [done|]. rewrite !filter_cons, IH by (intros; apply Hn; by right).
  assert (P x ↔ Q x) as Hx by (apply Hn; left). by rewrite (decide_ext _ _ _ _ Hx).
Qed.
Lemma filter_sorted {A} (R : A → A → Prop) (P : A → Prop) `{∀ x, Decision (P x)} (l : list A) :
  StronglySorted R l → StronglySorted R (filter P l).
Proof.
  induction 1 as [|x l Hs IH Hx]; [constructor|]. rewrite filter_cons. case_decide; [|done].
  constructor; [done|]. rewrite Forall_forall in Hx |- *. intros y [_ ?]%list_elem_of_filter. by apply Hx.
Qed.
Lemma filter_length_0 {A} (P : A → Prop) `{∀ x, Decision (P x)} (l : list A) x :
  length (filter P l) = 0%nat → x ∈ l → ¬ P x.
Proof.
  intros Hlen Hx HP. apply nil_length_inv in Hlen. assert (x ∈ filter P l) as Hin by (by apply list_elem_of_filter).
  rewrite Hlen in Hin. by apply not_elem_of_nil in Hin.
Qed.
