(* ===== verification/Vocabulary.v ===== *)
(** * Stable vocabulary

    The enumerations of [crates/focal-model/src/vocabulary.rs], one module per
    enumeration with the constructors and the persisted [u16] codes of the
    source, and the status rules of
    [crates/focal-model/src/semantics_v1.rs]. A value is serialized by its
    code and decoded by [from_code]; the derived order is the order of the
    codes. *)
From stdpp Require Import prelude countable.
From Stdlib Require Import NArith.
From S2P Require Import Prelude.

Module ObjectKind.
Inductive t :=
  | Claim | Testament | Validation | Artifact.
Definition code (x : t) : N :=
  match x with
  | Claim => 1 | Testament => 2 | Validation => 3 | Artifact => 4
  end%N.
Definition from_code (n : N) : option t :=
  match n with
  | 1 => Some Claim | 2 => Some Testament | 3 => Some Validation | 4 => Some Artifact
  | _ => None
  end%N.
Definition ALL : list t :=
  [Claim; Testament; Validation; Artifact].
Lemma object_kind_code_roundtrip x : from_code (code x) = Some x.
Proof. by destruct x. Qed.
#[export] Instance object_kind_eq_dec : EqDecision t.
Proof. solve_decision. Defined.
#[export] Instance object_kind_countable : Countable t :=
  inj_countable code from_code object_kind_code_roundtrip.
End ObjectKind.
Notation ObjectKind := ObjectKind.t.
Export (hints) ObjectKind.

Module ClaimStatus.
Inductive t :=
  | Generated | Posted | Received | Progressed | TestamentGenerated
  | TestamentAcknowledged | Validating | Satisfied | PostFailed | ReceiptFailed
  | TestamentGenerationFailed | ValidationIncomplete | ValidationFailed
  | ValidationErrored | Cancelled | Expired | Revoked | Superseded | DependencyFailed
  | Deadlocked.
Definition code (x : t) : N :=
  match x with
  | Generated => 1 | Posted => 2 | Received => 3 | Progressed => 4 | TestamentGenerated => 5
  | TestamentAcknowledged => 6 | Validating => 7 | Satisfied => 8 | PostFailed => 9
  | ReceiptFailed => 10 | TestamentGenerationFailed => 11 | ValidationIncomplete => 12
  | ValidationFailed => 13 | ValidationErrored => 14 | Cancelled => 15 | Expired => 16
  | Revoked => 17 | Superseded => 18 | DependencyFailed => 19 | Deadlocked => 20
  end%N.
Definition from_code (n : N) : option t :=
  match n with
  | 1 => Some Generated | 2 => Some Posted | 3 => Some Received | 4 => Some Progressed
  | 5 => Some TestamentGenerated | 6 => Some TestamentAcknowledged | 7 => Some Validating
  | 8 => Some Satisfied | 9 => Some PostFailed | 10 => Some ReceiptFailed
  | 11 => Some TestamentGenerationFailed | 12 => Some ValidationIncomplete
  | 13 => Some ValidationFailed | 14 => Some ValidationErrored | 15 => Some Cancelled
  | 16 => Some Expired | 17 => Some Revoked | 18 => Some Superseded
  | 19 => Some DependencyFailed | 20 => Some Deadlocked | _ => None
  end%N.
Definition ALL : list t :=
  [Generated; Posted; Received; Progressed; TestamentGenerated; TestamentAcknowledged;
  Validating; Satisfied; PostFailed; ReceiptFailed; TestamentGenerationFailed; ValidationIncomplete;
  ValidationFailed; ValidationErrored; Cancelled; Expired; Revoked; Superseded;
  DependencyFailed; Deadlocked].
Lemma claim_status_code_roundtrip x : from_code (code x) = Some x.
Proof. by destruct x. Qed.
#[export] Instance claim_status_eq_dec : EqDecision t.
Proof. solve_decision. Defined.
#[export] Instance claim_status_countable : Countable t :=
  inj_countable code from_code claim_status_code_roundtrip.
End ClaimStatus.
Notation ClaimStatus := ClaimStatus.t.
Export (hints) ClaimStatus.

Module ActionType.
Inductive t :=
  | Work | Consultation | Challenge | Feedback | Approval | Summon | Handoff
  | Evaluation | Correction | Teardown.
Definition code (x : t) : N :=
  match x with
  | Work => 1 | Consultation => 2 | Challenge => 3 | Feedback => 4 | Approval => 5
  | Summon => 6 | Handoff => 7 | Evaluation => 8 | Correction => 9 | Teardown => 10
  end%N.
Definition from_code (n : N) : option t :=
  match n with
  | 1 => Some Work | 2 => Some Consultation | 3 => Some Challenge | 4 => Some Feedback
  | 5 => Some Approval | 6 => Some Summon | 7 => Some Handoff | 8 => Some Evaluation
  | 9 => Some Correction | 10 => Some Teardown | _ => None
  end%N.
Definition ALL : list t :=
  [Work; Consultation; Challenge; Feedback; Approval; Summon;
  Handoff; Evaluation; Correction; Teardown].
Lemma action_type_code_roundtrip x : from_code (code x) = Some x.
Proof. by destruct x. Qed.
#[export] Instance action_type_eq_dec : EqDecision t.
Proof. solve_decision. Defined.
#[export] Instance action_type_countable : Countable t :=
  inj_countable code from_code action_type_code_roundtrip.
End ActionType.
Notation ActionType := ActionType.t.
Export (hints) ActionType.

Module ScopeKind.
Inductive t :=
  | File | Symbol | Api | TestSurface | Component | UxSurface.
Definition code (x : t) : N :=
  match x with
  | File => 1 | Symbol => 2 | Api => 3 | TestSurface => 4 | Component => 5 | UxSurface => 6
  end%N.
Definition from_code (n : N) : option t :=
  match n with
  | 1 => Some File | 2 => Some Symbol | 3 => Some Api | 4 => Some TestSurface
  | 5 => Some Component | 6 => Some UxSurface | _ => None
  end%N.
Definition ALL : list t :=
  [File; Symbol; Api; TestSurface; Component; UxSurface].
Lemma scope_kind_code_roundtrip x : from_code (code x) = Some x.
Proof. by destruct x. Qed.
#[export] Instance scope_kind_eq_dec : EqDecision t.
Proof. solve_decision. Defined.
#[export] Instance scope_kind_countable : Countable t :=
  inj_countable code from_code scope_kind_code_roundtrip.
End ScopeKind.
Notation ScopeKind := ScopeKind.t.
Export (hints) ScopeKind.

Module RelationKind.
Inductive t :=
  | Issuer | Subject | Evaluator | ClaimAction | Supersedes | DependsOn | Awaits
  | CausedBy | Refines | ConflictsWith | DerivedFrom | Reviews | Amends | ContributedBy
  | Invalidates.
Definition code (x : t) : N :=
  match x with
  | Issuer => 1 | Subject => 2 | Evaluator => 3 | ClaimAction => 4 | Supersedes => 5
  | DependsOn => 6 | Awaits => 7 | CausedBy => 8 | Refines => 9 | ConflictsWith => 10
  | DerivedFrom => 11 | Reviews => 12 | Amends => 13 | ContributedBy => 14
  | Invalidates => 15
  end%N.
Definition from_code (n : N) : option t :=
  match n with
  | 1 => Some Issuer | 2 => Some Subject | 3 => Some Evaluator | 4 => Some ClaimAction
  | 5 => Some Supersedes | 6 => Some DependsOn | 7 => Some Awaits | 8 => Some CausedBy
  | 9 => Some Refines | 10 => Some ConflictsWith | 11 => Some DerivedFrom
  | 12 => Some Reviews | 13 => Some Amends | 14 => Some ContributedBy
  | 15 => Some Invalidates | _ => None
  end%N.
Definition ALL : list t :=
  [Issuer; Subject; Evaluator; ClaimAction; Supersedes; DependsOn;
  Awaits; CausedBy; Refines; ConflictsWith; DerivedFrom; Reviews;
  Amends; ContributedBy; Invalidates].
Lemma relation_kind_code_roundtrip x : from_code (code x) = Some x.
Proof. by destruct x. Qed.
#[export] Instance relation_kind_eq_dec : EqDecision t.
Proof. solve_decision. Defined.
#[export] Instance relation_kind_countable : Countable t :=
  inj_countable code from_code relation_kind_code_roundtrip.
End RelationKind.
Notation RelationKind := RelationKind.t.
Export (hints) RelationKind.

Module ValidationKind.
Inductive t :=
  | Receipt | Test | Inspection | Integration | Contract | Design | Regression.
Definition code (x : t) : N :=
  match x with
  | Receipt => 1 | Test => 2 | Inspection => 3 | Integration => 4 | Contract => 5
  | Design => 6 | Regression => 7
  end%N.
Definition from_code (n : N) : option t :=
  match n with
  | 1 => Some Receipt | 2 => Some Test | 3 => Some Inspection | 4 => Some Integration
  | 5 => Some Contract | 6 => Some Design | 7 => Some Regression | _ => None
  end%N.
Definition ALL : list t :=
  [Receipt; Test; Inspection; Integration; Contract; Design; Regression].
Lemma validation_kind_code_roundtrip x : from_code (code x) = Some x.
Proof. by destruct x. Qed.
#[export] Instance validation_kind_eq_dec : EqDecision t.
Proof. solve_decision. Defined.
#[export] Instance validation_kind_countable : Countable t :=
  inj_countable code from_code validation_kind_code_roundtrip.
End ValidationKind.
Notation ValidationKind := ValidationKind.t.
Export (hints) ValidationKind.

Module ValidationPhase.
Inductive t :=
  | Admission | Increment | WholeWork.
Definition code (x : t) : N :=
  match x with
  | Admission => 1 | Increment => 2 | WholeWork => 3
  end%N.
Definition from_code (n : N) : option t :=
  match n with
  | 1 => Some Admission | 2 => Some Increment | 3 => Some WholeWork | _ => None
  end%N.
Definition ALL : list t :=
  [Admission; Increment; WholeWork].
Lemma validation_phase_code_roundtrip x : from_code (code x) = Some x.
Proof. by destruct x. Qed.
#[export] Instance validation_phase_eq_dec : EqDecision t.
Proof. solve_decision. Defined.
#[export] Instance validation_phase_countable : Countable t :=
  inj_countable code from_code validation_phase_code_roundtrip.
End ValidationPhase.
Notation ValidationPhase := ValidationPhase.t.
Export (hints) ValidationPhase.

Module ValidationMode.
Inductive t :=
  | Observe | Required.
Definition code (x : t) : N :=
  match x with
  | Observe => 1 | Required => 2
  end%N.
Definition from_code (n : N) : option t :=
  match n with
  | 1 => Some Observe | 2 => Some Required | _ => None
  end%N.
Definition ALL : list t :=
  [Observe; Required].
Lemma validation_mode_code_roundtrip x : from_code (code x) = Some x.
Proof. by destruct x. Qed.
#[export] Instance validation_mode_eq_dec : EqDecision t.
Proof. solve_decision. Defined.
#[export] Instance validation_mode_countable : Countable t :=
  inj_countable code from_code validation_mode_code_roundtrip.
End ValidationMode.
Notation ValidationMode := ValidationMode.t.
Export (hints) ValidationMode.

Module VerdictValue.
Inductive t :=
  | Pass | Fail | Incomplete | Error.
Definition code (x : t) : N :=
  match x with
  | Pass => 1 | Fail => 2 | Incomplete => 3 | Error => 4
  end%N.
Definition from_code (n : N) : option t :=
  match n with
  | 1 => Some Pass | 2 => Some Fail | 3 => Some Incomplete | 4 => Some Error | _ => None
  end%N.
Definition ALL : list t :=
  [Pass; Fail; Incomplete; Error].
Lemma verdict_value_code_roundtrip x : from_code (code x) = Some x.
Proof. by destruct x. Qed.
#[export] Instance verdict_value_eq_dec : EqDecision t.
Proof. solve_decision. Defined.
#[export] Instance verdict_value_countable : Countable t :=
  inj_countable code from_code verdict_value_code_roundtrip.
End VerdictValue.
Notation VerdictValue := VerdictValue.t.
Export (hints) VerdictValue.

Module Confidence.
Inductive t :=
  | Hint | Tentative | Committed | Consensus.
Definition code (x : t) : N :=
  match x with
  | Hint => 1 | Tentative => 2 | Committed => 3 | Consensus => 4
  end%N.
Definition from_code (n : N) : option t :=
  match n with
  | 1 => Some Hint | 2 => Some Tentative | 3 => Some Committed | 4 => Some Consensus
  | _ => None
  end%N.
Definition ALL : list t :=
  [Hint; Tentative; Committed; Consensus].
Lemma confidence_code_roundtrip x : from_code (code x) = Some x.
Proof. by destruct x. Qed.
#[export] Instance confidence_eq_dec : EqDecision t.
Proof. solve_decision. Defined.
#[export] Instance confidence_countable : Countable t :=
  inj_countable code from_code confidence_code_roundtrip.
End Confidence.
Notation Confidence := Confidence.t.
Export (hints) Confidence.

Module OutcomeKind.
Inductive t :=
  | Complete | Partial | Refused | Impossible | Interrupted | Failed.
Definition code (x : t) : N :=
  match x with
  | Complete => 1 | Partial => 2 | Refused => 3 | Impossible => 4 | Interrupted => 5
  | Failed => 6
  end%N.
Definition from_code (n : N) : option t :=
  match n with
  | 1 => Some Complete | 2 => Some Partial | 3 => Some Refused | 4 => Some Impossible
  | 5 => Some Interrupted | 6 => Some Failed | _ => None
  end%N.
Definition ALL : list t :=
  [Complete; Partial; Refused; Impossible; Interrupted; Failed].
Lemma outcome_kind_code_roundtrip x : from_code (code x) = Some x.
Proof. by destruct x. Qed.
#[export] Instance outcome_kind_eq_dec : EqDecision t.
Proof. solve_decision. Defined.
#[export] Instance outcome_kind_countable : Countable t :=
  inj_countable code from_code outcome_kind_code_roundtrip.
End OutcomeKind.
Notation OutcomeKind := OutcomeKind.t.
Export (hints) OutcomeKind.

Module ContentClass.
Inductive t :=
  | Document | Evidence | Checkpoint.
Definition code (x : t) : N :=
  match x with
  | Document => 1 | Evidence => 2 | Checkpoint => 3
  end%N.
Definition from_code (n : N) : option t :=
  match n with
  | 1 => Some Document | 2 => Some Evidence | 3 => Some Checkpoint | _ => None
  end%N.
Definition ALL : list t :=
  [Document; Evidence; Checkpoint].
Lemma content_class_code_roundtrip x : from_code (code x) = Some x.
Proof. by destruct x. Qed.
#[export] Instance content_class_eq_dec : EqDecision t.
Proof. solve_decision. Defined.
#[export] Instance content_class_countable : Countable t :=
  inj_countable code from_code content_class_code_roundtrip.
End ContentClass.
Notation ContentClass := ContentClass.t.
Export (hints) ContentClass.

Module Disposition.
Inductive t :=
  | Retryable | Terminal.
Definition code (x : t) : N :=
  match x with
  | Retryable => 1 | Terminal => 2
  end%N.
Definition from_code (n : N) : option t :=
  match n with
  | 1 => Some Retryable | 2 => Some Terminal | _ => None
  end%N.
Definition ALL : list t :=
  [Retryable; Terminal].
Lemma disposition_code_roundtrip x : from_code (code x) = Some x.
Proof. by destruct x. Qed.
#[export] Instance disposition_eq_dec : EqDecision t.
Proof. solve_decision. Defined.
#[export] Instance disposition_countable : Countable t :=
  inj_countable code from_code disposition_code_roundtrip.
End Disposition.
Notation Disposition := Disposition.t.
Export (hints) Disposition.

Module ErrorCode.
Inductive t :=
  | InvalidSchema | InvalidNamespace | InvalidRelation | InvalidCause | WrongActor
  | StaleReceipt | StaleEvaluator | IdempotencyConflict | RequestHistoryExpired
  | RequestEpochNotAdmitted | UnknownObject | ObjectIdConflict | Capacity
  | EvidenceNotDurable | ConflictingVerdict | DeadlineNotDue | RevisionConflict
  | InvalidManifest | InvalidTransition | UnsupportedSchema | EmptyRequiredSet
  | InvalidEpoch | PartialDuplicateBatch | MissingDeadline | InvalidHandler
  | StandingDenied.
Definition code (x : t) : N :=
  match x with
  | InvalidSchema => 1 | InvalidNamespace => 2 | InvalidRelation => 3 | InvalidCause => 4
  | WrongActor => 5 | StaleReceipt => 6 | StaleEvaluator => 7 | IdempotencyConflict => 8
  | RequestHistoryExpired => 9 | RequestEpochNotAdmitted => 10 | UnknownObject => 11
  | ObjectIdConflict => 12 | Capacity => 13 | EvidenceNotDurable => 14
  | ConflictingVerdict => 15 | DeadlineNotDue => 16 | RevisionConflict => 17
  | InvalidManifest => 18 | InvalidTransition => 19 | UnsupportedSchema => 20
  | EmptyRequiredSet => 21 | InvalidEpoch => 22 | PartialDuplicateBatch => 23
  | MissingDeadline => 24 | InvalidHandler => 25 | StandingDenied => 26
  end%N.
Definition from_code (n : N) : option t :=
  match n with
  | 1 => Some InvalidSchema | 2 => Some InvalidNamespace | 3 => Some InvalidRelation
  | 4 => Some InvalidCause | 5 => Some WrongActor | 6 => Some StaleReceipt
  | 7 => Some StaleEvaluator | 8 => Some IdempotencyConflict
  | 9 => Some RequestHistoryExpired | 10 => Some RequestEpochNotAdmitted
  | 11 => Some UnknownObject | 12 => Some ObjectIdConflict | 13 => Some Capacity
  | 14 => Some EvidenceNotDurable | 15 => Some ConflictingVerdict | 16 => Some DeadlineNotDue
  | 17 => Some RevisionConflict | 18 => Some InvalidManifest | 19 => Some InvalidTransition
  | 20 => Some UnsupportedSchema | 21 => Some EmptyRequiredSet | 22 => Some InvalidEpoch
  | 23 => Some PartialDuplicateBatch | 24 => Some MissingDeadline | 25 => Some InvalidHandler
  | 26 => Some StandingDenied | _ => None
  end%N.
Definition ALL : list t :=
  [InvalidSchema; InvalidNamespace; InvalidRelation; InvalidCause; WrongActor; StaleReceipt;
  StaleEvaluator; IdempotencyConflict; RequestHistoryExpired; RequestEpochNotAdmitted; UnknownObject; ObjectIdConflict;
  Capacity; EvidenceNotDurable; ConflictingVerdict; DeadlineNotDue; RevisionConflict; InvalidManifest;
  InvalidTransition; UnsupportedSchema; EmptyRequiredSet; InvalidEpoch; PartialDuplicateBatch; MissingDeadline;
  InvalidHandler; StandingDenied].
Lemma error_code_code_roundtrip x : from_code (code x) = Some x.
Proof. by destruct x. Qed.
#[export] Instance error_code_eq_dec : EqDecision t.
Proof. solve_decision. Defined.
#[export] Instance error_code_countable : Countable t :=
  inj_countable code from_code error_code_code_roundtrip.
End ErrorCode.
Notation ErrorCode := ErrorCode.t.
Export (hints) ErrorCode.

Module LifecycleAction.
Inductive t :=
  | Generated | Posted | Received | Progressed | TestamentGenerated
  | TestamentAcknowledged | Validating | Satisfied | PostFailed | ReceiptFailed
  | TestamentGenerationFailed | ValidationIncomplete | ValidationFailed
  | ValidationErrored | Cancelled | Expired | Revoked | Superseded | DependencyFailed
  | Deadlocked | EvidenceOpened | ArtifactAttached | ValidationScheduled
  | ValidationVerdict | ReceiptAdopted | ScopeRegistered | ScopeReleased | ScopeRebound
  | EpochAdmitted | EpochFloorAdvanced | LocalCompleted.
Definition code (x : t) : N :=
  match x with
  | Generated => 1 | Posted => 2 | Received => 3 | Progressed => 4 | TestamentGenerated => 5
  | TestamentAcknowledged => 6 | Validating => 7 | Satisfied => 8 | PostFailed => 9
  | ReceiptFailed => 10 | TestamentGenerationFailed => 11 | ValidationIncomplete => 12
  | ValidationFailed => 13 | ValidationErrored => 14 | Cancelled => 15 | Expired => 16
  | Revoked => 17 | Superseded => 18 | DependencyFailed => 19 | Deadlocked => 20
  | EvidenceOpened => 21 | ArtifactAttached => 22 | ValidationScheduled => 23
  | ValidationVerdict => 24 | ReceiptAdopted => 25 | ScopeRegistered => 26
  | ScopeReleased => 27 | ScopeRebound => 28 | EpochAdmitted => 29 | EpochFloorAdvanced => 30
  | LocalCompleted => 31
  end%N.
Definition from_code (n : N) : option t :=
  match n with
  | 1 => Some Generated | 2 => Some Posted | 3 => Some Received | 4 => Some Progressed
  | 5 => Some TestamentGenerated | 6 => Some TestamentAcknowledged | 7 => Some Validating
  | 8 => Some Satisfied | 9 => Some PostFailed | 10 => Some ReceiptFailed
  | 11 => Some TestamentGenerationFailed | 12 => Some ValidationIncomplete
  | 13 => Some ValidationFailed | 14 => Some ValidationErrored | 15 => Some Cancelled
  | 16 => Some Expired | 17 => Some Revoked | 18 => Some Superseded
  | 19 => Some DependencyFailed | 20 => Some Deadlocked | 21 => Some EvidenceOpened
  | 22 => Some ArtifactAttached | 23 => Some ValidationScheduled
  | 24 => Some ValidationVerdict | 25 => Some ReceiptAdopted | 26 => Some ScopeRegistered
  | 27 => Some ScopeReleased | 28 => Some ScopeRebound | 29 => Some EpochAdmitted
  | 30 => Some EpochFloorAdvanced | 31 => Some LocalCompleted | _ => None
  end%N.
Definition ALL : list t :=
  [Generated; Posted; Received; Progressed; TestamentGenerated; TestamentAcknowledged;
  Validating; Satisfied; PostFailed; ReceiptFailed; TestamentGenerationFailed; ValidationIncomplete;
  ValidationFailed; ValidationErrored; Cancelled; Expired; Revoked; Superseded;
  DependencyFailed; Deadlocked; EvidenceOpened; ArtifactAttached; ValidationScheduled; ValidationVerdict;
  ReceiptAdopted; ScopeRegistered; ScopeReleased; ScopeRebound; EpochAdmitted; EpochFloorAdvanced;
  LocalCompleted].
Lemma lifecycle_action_code_roundtrip x : from_code (code x) = Some x.
Proof. by destruct x. Qed.
#[export] Instance lifecycle_action_eq_dec : EqDecision t.
Proof. solve_decision. Defined.
#[export] Instance lifecycle_action_countable : Countable t :=
  inj_countable code from_code lifecycle_action_code_roundtrip.
End LifecycleAction.
Notation LifecycleAction := LifecycleAction.t.
Export (hints) LifecycleAction.

(** ** Status rules ([semantics_v1.rs]) *)
Definition is_terminal (status : ClaimStatus) : bool :=
  match status with
  | ClaimStatus.Generated | ClaimStatus.Posted | ClaimStatus.Received
  | ClaimStatus.Progressed | ClaimStatus.TestamentGenerated
  | ClaimStatus.TestamentAcknowledged | ClaimStatus.Validating => false
  | ClaimStatus.Satisfied | ClaimStatus.PostFailed | ClaimStatus.ReceiptFailed
  | ClaimStatus.TestamentGenerationFailed | ClaimStatus.ValidationIncomplete
  | ClaimStatus.ValidationFailed | ClaimStatus.ValidationErrored
  | ClaimStatus.Cancelled | ClaimStatus.Expired | ClaimStatus.Revoked
  | ClaimStatus.Superseded | ClaimStatus.DependencyFailed
  | ClaimStatus.Deadlocked => true
  end.
Definition is_active (status : ClaimStatus) : bool := negb (is_terminal status).
Definition severity (value : VerdictValue) : N :=
  match value with
  | VerdictValue.Pass => 0
  | VerdictValue.Incomplete => 1
  | VerdictValue.Error => 2
  | VerdictValue.Fail => 3
  end.
Definition lifecycle_action (status : ClaimStatus) : LifecycleAction :=
  match status with
  | ClaimStatus.Generated => LifecycleAction.Generated
  | ClaimStatus.Posted => LifecycleAction.Posted
  | ClaimStatus.Received => LifecycleAction.Received
  | ClaimStatus.Progressed => LifecycleAction.Progressed
  | ClaimStatus.TestamentGenerated => LifecycleAction.TestamentGenerated
  | ClaimStatus.TestamentAcknowledged => LifecycleAction.TestamentAcknowledged
  | ClaimStatus.Validating => LifecycleAction.Validating
  | ClaimStatus.Satisfied => LifecycleAction.Satisfied
  | ClaimStatus.PostFailed => LifecycleAction.PostFailed
  | ClaimStatus.ReceiptFailed => LifecycleAction.ReceiptFailed
  | ClaimStatus.TestamentGenerationFailed => LifecycleAction.TestamentGenerationFailed
  | ClaimStatus.ValidationIncomplete => LifecycleAction.ValidationIncomplete
  | ClaimStatus.ValidationFailed => LifecycleAction.ValidationFailed
  | ClaimStatus.ValidationErrored => LifecycleAction.ValidationErrored
  | ClaimStatus.Cancelled => LifecycleAction.Cancelled
  | ClaimStatus.Expired => LifecycleAction.Expired
  | ClaimStatus.Revoked => LifecycleAction.Revoked
  | ClaimStatus.Superseded => LifecycleAction.Superseded
  | ClaimStatus.DependencyFailed => LifecycleAction.DependencyFailed
  | ClaimStatus.Deadlocked => LifecycleAction.Deadlocked
  end.

(** The severity of a verdict determines it. *)
#[export] Instance severity_inj : Inj (=) (=) severity.
Proof. by intros [] [] ?. Qed.
