(* ===== verification/Objects.v ===== *)
(** * Objects, commands and outputs

    The data of [crates/focal-model/src/ids.rs], [objects.rs] and
    [command.rs], and the relation lookups of [semantics_v1.rs].

    A 128-bit identifier ([[u8; 16]], compared bytewise, which is the numeric
    order of its big-endian value) and a 256-bit content hash are an [N]; so
    are the [u16], [u32] and [u64] counters. A [String] is the [string] of its
    UTF-8 bytes. An authored [BTreeSet] that the engine only reads is the list
    of its elements in iteration order. *)
From stdpp Require Import prelude gmap strings.
From Stdlib Require Import NArith.
From S2P Require Import Prelude Vocabulary.

Notation ParticipantId := N (only parsing).
Notation ObjectId := N (only parsing).
Notation ClaimId := N (only parsing).
Notation TestamentId := N (only parsing).
Notation ValidationId := N (only parsing).
Notation ArtifactId := N (only parsing).
Notation RequestId := N (only parsing).
Notation ReceiptId := N (only parsing).
Notation EvidenceSetId := N (only parsing).
Notation OccurrenceId := N (only parsing).
Notation RootCommandId := N (only parsing).
Notation MonitorId := N (only parsing).
Notation ValidatorId := N (only parsing).
Notation TimerId := N (only parsing).
Notation ContentDomainId := N (only parsing).
Notation ContentHash := N (only parsing).
Notation SessionSeq := N (only parsing).
Notation RequestEpoch := N (only parsing).
Notation ObjectRevision := N (only parsing).

Definition is_zero (id : N) : bool := (id =? 0)%N.

#[export] Instance id_key : TableKey N := {| key_code x := [x] |}.
Lemma key_le_N (x y : N) : key_le x y ↔ (x <= y)%N.
Proof.
  unfold key_le. simpl. rewrite Is_true_true, orb_true_iff, andb_true_r, N.ltb_lt, N.eqb_eq. lia.
Qed.

(** ** Identifiers and references *)
Record LedgerId := { tenant : N; session : N }.
Record DeltaId := { d_ledger : LedgerId; d_sequence : SessionSeq; d_ordinal : N }.
Record ObjectRef := { or_ledger : LedgerId; or_kind : ObjectKind; or_id : ObjectId }.
Record ArtifactRef := { ar_id : ArtifactId; ar_hash : ContentHash }.
Record ReceiptFence := { f_receipt : ReceiptId; f_epoch : N }.
Record RequestKey := { rk_principal : ParticipantId; rk_epoch : RequestEpoch; rk_id : RequestId }.
Record ValidationRunId := {
  vr_validation : ValidationId; vr_target_hash : ContentHash;
  vr_phase : ValidationPhase; vr_epoch : N
}.

Inductive Cause := CauseRoot (root : RootCommandId) | CauseClaim (claim : ClaimId).
Inductive RelationTarget :=
  | TargetParticipant (participant : ParticipantId)
  | TargetObject (object : ObjectRef)
  | TargetAction (action : ActionType)
  | TargetRoot (root : RootCommandId)
  | TargetEvidence (evidence : ArtifactRef).
Record Relation := { rel_kind : RelationKind; rel_target : RelationTarget }.
Record Scope := { sc_kind : ScopeKind; sc_key : string }.
Record RequirementRef := { rq_id : ValidationId; rq_specification : ContentHash }.
Record Deadline := { dl_timer : TimerId; dl_generation : N; dl_at : N }.

(** ** Authored content *)
Record ClaimContent := {
  cc_ledger : LedgerId;
  cc_schema : N;
  cc_occurrence : OccurrenceId;
  cc_description : string;
  cc_relations : list Relation;
  cc_scopes : list Scope;
  cc_requirements : list RequirementRef;
  cc_deadline : option Deadline
}.
Record HandlerRef := { h_id : ValidatorId; h_version : ContentHash; h_agentic : bool }.
Record ValidationContent := {
  vc_ledger : LedgerId;
  vc_schema : N;
  vc_claim : ClaimId;
  vc_kind : ValidationKind;
  vc_phase : ValidationPhase;
  vc_mode : ValidationMode;
  vc_description : string;
  vc_quality_bar : option string;
  vc_evaluator : ParticipantId;
  vc_handlers : list HandlerRef;
  vc_evidence_schemas : list ContentHash;
  vc_contributed_by : list ParticipantId;
  vc_policy_revision : N
}.
Record NewValidation := { nv_id : ValidationId; nv_content : ValidationContent }.
Record NewClaim := {
  nc_id : ClaimId; nc_content : ClaimContent; nc_validations : list NewValidation
}.
Record ContentRef := {
  cr_domain : ContentDomainId; cr_root : ContentHash; cr_length : N; cr_class : ContentClass
}.
Inductive ArtifactPayload := Inline (bytes : list N) | Content (content : ContentRef).
Record ArtifactContent := {
  ac_ledger : LedgerId;
  ac_schema : N;
  ac_kind : string;
  ac_schema_hash : ContentHash;
  ac_metadata : list N;
  ac_payload : ArtifactPayload;
  ac_producer : ParticipantId;
  ac_receipt : option ReceiptFence;
  ac_inputs : list ObjectRef;
  ac_visibility : list string
}.
Record NewArtifact := { na_id : ArtifactId; na_content : ArtifactContent }.
Record EvidenceAttestation := {
  ea_descriptor_hash : ContentHash; ea_custody_revision : N;
  ea_durable : bool; ea_schema_valid : bool
}.
Record TestamentContent := {
  tc_ledger : LedgerId;
  tc_schema : N;
  tc_claim : ClaimId;
  tc_receipt : ReceiptFence;
  tc_evidence_set : EvidenceSetId;
  tc_artifacts : list ArtifactRef;
  tc_summary : string;
  tc_confidence : Confidence;
  tc_outcome : OutcomeKind
}.

(** ** Lifecycles and stored objects *)
Record Receipt := { r_fence : ReceiptFence; r_holder : ParticipantId; r_acquired : SessionSeq }.
Record StatusFact := { sf_status : ClaimStatus; sf_sequence : SessionSeq }.
Record ClaimLifecycle := {
  cl_status : ClaimStatus;
  cl_revision : ObjectRevision;
  cl_created : SessionSeq;
  cl_history : list StatusFact;
  cl_receipt : option Receipt;
  cl_evidence_set : option EvidenceSetId;
  cl_testament : option TestamentId;
  cl_local_complete : bool;
  cl_released : bool;
  cl_terminal_witness : option ClaimId
}.
Record TestamentLifecycle := { tl_created : SessionSeq; tl_acknowledged : option SessionSeq }.
Record ArtifactLifecycle := { al_created : SessionSeq; al_custody_revision : N }.
Record ValidationLifecycle := { vl_created : SessionSeq; vl_latest_epoch : N }.
Record StoredObject (C L : Type) := StoredObject_new {
  content : C; content_hash_of : ContentHash; lifecycle : L
}.
Arguments StoredObject_new {_ _} _ _ _.
Arguments content {_ _} _.
Arguments content_hash_of {_ _} _.
Arguments lifecycle {_ _} _.
Definition with_lifecycle {C L} (o : StoredObject C L) (l : L) : StoredObject C L :=
  StoredObject_new (content o) (content_hash_of o) l.
Notation Claim := (StoredObject ClaimContent ClaimLifecycle).
Notation Testament := (StoredObject TestamentContent TestamentLifecycle).
Notation Validation := (StoredObject ValidationContent ValidationLifecycle).
Notation Artifact := (StoredObject ArtifactContent ArtifactLifecycle).

Record VerdictRecord := {
  ve_run : ValidationRunId;
  ve_evaluator : ParticipantId;
  ve_handler : HandlerRef;
  ve_attempt : N;
  ve_manifest : ContentHash;
  ve_value : VerdictValue;
  ve_evidence : list ArtifactRef
}.
Record ValidationRun := {
  run_id : ValidationRunId;
  run_claim : ClaimId;
  run_evaluator : ParticipantId;
  run_manifest : ContentHash;
  run_handler_index : N;
  run_quality_phase : bool;
  run_attempts : list VerdictRecord;
  run_final_verdict : option VerdictValue
}.
Record EvidenceSet := {
  es_id : EvidenceSetId; es_claim : ClaimId; es_receipt : ReceiptFence;
  es_artifacts : list ArtifactRef; es_closed : bool
}.
Inductive WaitPredicate :=
  | WaitSatisfied (claim : ClaimId) | WaitTerminal (claim : ClaimId) | WaitReleased (claim : ClaimId).
Definition wait_target (p : WaitPredicate) : ClaimId :=
  match p with WaitSatisfied id | WaitTerminal id | WaitReleased id => id end.

(** ** Decidable equality and key orders *)
#[export] Instance ledger_id_eq_dec : EqDecision LedgerId.
Proof. solve_decision. Defined.
#[export] Instance object_ref_eq_dec : EqDecision ObjectRef.
Proof. solve_decision. Defined.
#[export] Instance artifact_ref_eq_dec : EqDecision ArtifactRef.
Proof. solve_decision. Defined.
#[export] Instance receipt_fence_eq_dec : EqDecision ReceiptFence.
Proof. solve_decision. Defined.
#[export] Instance request_key_eq_dec : EqDecision RequestKey.
Proof. solve_decision. Defined.
#[export] Instance run_id_eq_dec : EqDecision ValidationRunId.
Proof. solve_decision. Defined.
#[export] Instance cause_eq_dec : EqDecision Cause.
Proof. solve_decision. Defined.
#[export] Instance handler_ref_eq_dec : EqDecision HandlerRef.
Proof. solve_decision. Defined.
#[export] Instance verdict_record_eq_dec : EqDecision VerdictRecord.
Proof. solve_decision. Defined.
#[export] Instance wait_predicate_eq_dec : EqDecision WaitPredicate.
Proof. solve_decision. Defined.
#[export] Instance request_key_countable : Countable RequestKey.
Proof.
  apply (inj_countable' (λ k, (rk_principal k, rk_epoch k, rk_id k))
           (λ '(p, e, i), {| rk_principal := p; rk_epoch := e; rk_id := i |})).
  by intros [].
Defined.
#[export] Instance run_id_countable : Countable ValidationRunId.
Proof.
  apply (inj_countable' (λ k, (vr_validation k, vr_target_hash k, vr_phase k, vr_epoch k))
           (λ '(v, t, p, e), {| vr_validation := v; vr_target_hash := t; vr_phase := p; vr_epoch := e |})).
  by intros [].
Defined.
#[export] Instance wait_predicate_countable : Countable WaitPredicate.
Proof.
  apply (inj_countable'
    (λ p, match p with WaitSatisfied i => (0%N, i) | WaitTerminal i => (1%N, i) | WaitReleased i => (2%N, i) end)
    (λ '(t, i), match t with 0%N => WaitSatisfied i | 1%N => WaitTerminal i | _ => WaitReleased i end)).
  by intros [].
Defined.
#[export] Instance request_key_key : TableKey RequestKey.
Proof.
  refine {| key_code k := [rk_principal k; rk_epoch k; rk_id k] |}.
  by intros [] [] [= -> -> ->].
Defined.
#[export] Instance run_id_key : TableKey ValidationRunId.
Proof.
  refine {| key_code k := [vr_validation k; vr_target_hash k; ValidationPhase.code (vr_phase k); vr_epoch k] |}.
  by intros [??[]?] [??[]?] [= -> -> ->].
Defined.
#[export] Instance identity_key : TableKey (ObjectKind * ContentHash).
Proof.
  refine {| key_code k := [ObjectKind.code k.1; k.2] |}.
  by intros [[]?] [[]?] [= ->].
Defined.
#[export] Instance wait_predicate_key : TableKey WaitPredicate.
Proof.
  refine {| key_code p := match p with
                   | WaitSatisfied i => [0; i] | WaitTerminal i => [1; i] | WaitReleased i => [2; i]
                   end%N |}.
  by intros [] [] [= ->].
Defined.

Record Monitor := {
  m_id : MonitorId; m_owner : ClaimId; m_roots : gset WaitPredicate; m_deadline : Deadline;
  m_registered : SessionSeq; m_released : option SessionSeq
}.

(** ** Commands ([command.rs]) *)
Record AuthorityContext := {
  au_runtime : bool;
  au_cause : Cause;
  au_policy_revision : N;
  au_logical_time : N;
  au_evidence : list EvidenceAttestation
}.
Module Command.
Inductive t :=
  | NegotiateEpoch (epoch : RequestEpoch)
  | AdvanceEpochFloor (minimum : RequestEpoch)
  | GenerateClaim (claim : NewClaim)
  | GenerateClaimBatch (claims : list NewClaim)
  | PostClaim (claim : ClaimId)
  | AcquireReceipt (claim : ClaimId) (receipt : ReceiptId) (epoch : N)
  | AdoptReceipt (claim : ClaimId) (previous : ReceiptFence) (receipt : ReceiptId)
      (holder : ParticipantId) (epoch : N)
  | RecordProgress (claim : ClaimId) (receipt : ReceiptFence) (message : string)
  | BeginEvidenceSet (claim : ClaimId) (receipt : ReceiptFence) (evidence_set : EvidenceSetId)
  | AttachArtifact (claim : ClaimId) (receipt : ReceiptFence) (evidence_set : EvidenceSetId)
      (artifact : NewArtifact)
  | CloseTestament (claim : ClaimId) (receipt : ReceiptFence) (testament : TestamentId)
      (evidence_set : EvidenceSetId) (manifest : list ArtifactRef) (summary : string)
      (confidence : Confidence) (outcome : OutcomeKind)
  | AcknowledgeTestament (claim : ClaimId) (testament : TestamentId)
  | BeginWholeWorkValidation (claim : ClaimId)
  | BeginIncrementValidation (claim : ClaimId) (validation : ValidationId)
      (target manifest : ContentHash)
  | RecordValidationVerdict (verdict : VerdictRecord)
  | CompleteWholeWork (claim : ClaimId)
  | FailPost (claim : ClaimId) (evidence : ArtifactRef)
  | FailReceipt (claim : ClaimId) (evidence : ArtifactRef)
  | FailTestamentGeneration (claim : ClaimId) (testament : TestamentId)
      (evidence_set : EvidenceSetId) (error : NewArtifact) (summary : string)
  | CancelClaim (claim : ClaimId) (reason : string)
  | RevokeClaim (claim : ClaimId) (reason : string)
  | ExpireClaim (claim : ClaimId) (timer : TimerId) (generation fired_at : N)
  | SupersedeClaim (predecessor : ClaimId) (successor : NewClaim)
  | RegisterMonitor (monitor : MonitorId) (owner : ClaimId) (roots : gset WaitPredicate)
      (deadline : Deadline)
  | RebindMonitor (monitor : MonitorId) (predecessor successor : ClaimId)
  | ReleaseScope (claim : ClaimId)
  | RegisterArtifact (artifact : NewArtifact)
  | ExpireMonitor (monitor : MonitorId) (timer : TimerId) (generation fired_at : N)
  | RecordFencedValidationVerdict (verdict : VerdictRecord) (receipt : option ReceiptFence).

(** Frozen append-only tags of the request identity. *)
Definition code (c : t) : N :=
  match c with
  | NegotiateEpoch _ => 1 | AdvanceEpochFloor _ => 2 | GenerateClaim _ => 3
  | GenerateClaimBatch _ => 4 | PostClaim _ => 5 | AcquireReceipt _ _ _ => 6
  | AdoptReceipt _ _ _ _ _ => 7 | RecordProgress _ _ _ => 8 | BeginEvidenceSet _ _ _ => 9
  | AttachArtifact _ _ _ _ => 10 | CloseTestament _ _ _ _ _ _ _ _ => 11
  | AcknowledgeTestament _ _ => 12 | BeginWholeWorkValidation _ => 13
  | BeginIncrementValidation _ _ _ _ => 14 | RecordValidationVerdict _ => 15
  | CompleteWholeWork _ => 16 | FailPost _ _ => 17 | FailReceipt _ _ => 18
  | FailTestamentGeneration _ _ _ _ _ => 19 | CancelClaim _ _ => 20 | RevokeClaim _ _ => 21
  | ExpireClaim _ _ _ _ => 22 | SupersedeClaim _ _ => 23 | RegisterMonitor _ _ _ _ => 24
  | RebindMonitor _ _ _ => 25 | ReleaseScope _ => 26 | RegisterArtifact _ => 27
  | ExpireMonitor _ _ _ _ => 28 | RecordFencedValidationVerdict _ _ => 29
  end%N.

(** The claim whose revision a request may expect ([semantics_v1::claim_id]). *)
Definition claim_id (c : t) : option ClaimId :=
  match c with
  | GenerateClaim claim => Some (nc_id claim)
  | SupersedeClaim predecessor _ => Some predecessor
  | PostClaim claim | AcquireReceipt claim _ _ | AdoptReceipt claim _ _ _ _
  | RecordProgress claim _ _ | BeginEvidenceSet claim _ _ | AttachArtifact claim _ _ _
  | CloseTestament claim _ _ _ _ _ _ _ | AcknowledgeTestament claim _
  | BeginWholeWorkValidation claim | BeginIncrementValidation claim _ _ _
  | CompleteWholeWork claim | FailPost claim _ | FailReceipt claim _
  | FailTestamentGeneration claim _ _ _ _ | CancelClaim claim _ | RevokeClaim claim _
  | ExpireClaim claim _ _ _ | ReleaseScope claim => Some claim
  | RegisterMonitor _ owner _ _ => Some owner
  | NegotiateEpoch _ | AdvanceEpochFloor _ | GenerateClaimBatch _
  | RecordValidationVerdict _ | RebindMonitor _ _ _ | RegisterArtifact _
  | ExpireMonitor _ _ _ _ | RecordFencedValidationVerdict _ _ => None
  end.
End Command.
Notation Command := Command.t.

Record AuthenticatedInput := {
  in_ledger : LedgerId;
  in_principal : ParticipantId;
  in_request_epoch : RequestEpoch;
  in_request_id : RequestId;
  in_expected_revision : option ObjectRevision;
  in_authority : AuthorityContext;
  in_command : Command
}.

(** ** Results and outputs *)
Module CommandResult.
Inductive t :=
  | EpochAdmitted (epoch : RequestEpoch)
  | EpochFloorAdvanced (minimum : RequestEpoch)
  | Generated (claims : list ClaimId)
  | Existing (claims : list ClaimId)
  | Claim (claim : ClaimId) (status : ClaimStatus)
  | Receipt (claim : ClaimId) (fence : ReceiptFence)
  | EvidenceSet (set : EvidenceSetId)
  | Artifact (artifact : ArtifactRef)
  | Testament (testament : TestamentId)
  | Validation (run : ValidationRunId)
  | Monitor (monitor : MonitorId)
  | Noop.
End CommandResult.
Notation CommandResult := CommandResult.t.

Record MutationReceipt := {
  mr_ledger : LedgerId; mr_key : RequestKey; mr_sequence : SessionSeq;
  mr_command_hash : ContentHash; mr_outcome : CommandResult
}.
Module InformReason.
Inductive t :=
  | Terminal (status : ClaimStatus) | Status (status : ClaimStatus)
  | DependencyPending (claim : ClaimId) | ValidationPending | AlreadyApplied | StandingDenied.
End InformReason.
Notation InformReason := InformReason.t.
Module DomainOutcome.
Inductive t :=
  | Refuse (code : ErrorCode) (detail : string)
  | Inform (claim : option ClaimId) (reason : InformReason)
  | Duplicate (receipt : MutationReceipt).
End DomainOutcome.
Notation DomainOutcome := DomainOutcome.t.

Module DeltaFact.
Inductive t :=
  | Status (previous : option ClaimStatus) (current : ClaimStatus) (witness : option ClaimId)
  | Progress (message : string)
  | Receipt (receipt : Objects.Receipt)
  | EvidenceSet (set : EvidenceSetId)
  | Artifact (artifact : ArtifactRef)
  | Testament (id : TestamentId) (hash : ContentHash)
  | ValidationScheduled (run : ValidationRunId)
  | Verdict (verdict : VerdictRecord)
  | Scope (monitor : MonitorId)
  | Epoch (epoch : RequestEpoch)
  | LocalCompletion.
End DeltaFact.
Notation DeltaFact := DeltaFact.t.
Record Delta := {
  de_schema : N; de_id : DeltaId; de_action : LifecycleAction; de_actor : ParticipantId;
  de_claim : option ClaimId; de_fact : DeltaFact
}.
Module EffectIntent.
Inductive t :=
  | DispatchClaim (claim : ClaimId)
  | ExecuteValidation (run : ValidationRunId) (handler : HandlerRef) (evaluator : ParticipantId)
      (attempt : N) (manifest : ContentHash) (quality_phase : bool)
  | CancelExecution (claim : ClaimId) (receipt : option ReceiptFence)
  | MonitorReleased (monitor : MonitorId)
  | ScheduleDeadline (claim : ClaimId) (deadline : Deadline).
End EffectIntent.
Notation EffectIntent := EffectIntent.t.

Record Limits := {
  max_objects : N; max_command_bytes : N; max_text_bytes : N; max_relations : N;
  max_requirements : N; max_batch : N; max_artifacts_per_set : N; max_inline_bytes : N;
  max_requests : N; max_monitors : N; max_graph_visits : N
}.
Definition default_limits : Limits := {|
  max_objects := 100000; max_command_bytes := 1024 * 1024; max_text_bytes := 16 * 1024;
  max_relations := 256; max_requirements := 64; max_batch := 256;
  max_artifacts_per_set := 1024; max_inline_bytes := 16 * 1024;
  max_requests := 100000; max_monitors := 10000; max_graph_visits := 1000000
|}%N.

(** ** Relation lookups ([semantics_v1.rs]) *)
Definition SCHEMA : N := 1.

Definition party (kind : RelationKind) (c : ClaimContent) : option ParticipantId :=
  head (omap (λ relation,
    match bool_decide (rel_kind relation = kind), rel_target relation with
    | true, TargetParticipant participant => Some participant
    | _, _ => None
    end) (cc_relations c)).
Definition issuer : ClaimContent → option ParticipantId := party RelationKind.Issuer.
Definition subject : ClaimContent → option ParticipantId := party RelationKind.Subject.
Definition action (c : ClaimContent) : option ActionType :=
  head (omap (λ relation,
    match rel_kind relation, rel_target relation with
    | RelationKind.ClaimAction, TargetAction action => Some action
    | _, _ => None
    end) (cc_relations c)).
Definition cause (c : ClaimContent) : option Cause :=
  head (omap (λ relation,
    match rel_kind relation, rel_target relation with
    | RelationKind.CausedBy, TargetRoot root => Some (CauseRoot root)
    | RelationKind.CausedBy, TargetObject object =>
        if bool_decide (or_kind object = ObjectKind.Claim)
        then Some (CauseClaim (or_id object)) else None
    | _, _ => None
    end) (cc_relations c)).
Definition dependencies (c : ClaimContent) (kind : RelationKind) : list ClaimId :=
  omap (λ relation,
    match rel_target relation with
    | TargetObject object =>
        if bool_decide (or_kind object = ObjectKind.Claim) then Some (or_id object) else None
    | _ => None
    end) (filter (λ relation, rel_kind relation = kind) (cc_relations c)).
