(* ===== verification/Canonical.v ===== *)
(** * Canonical identities

    The identity encoder of [crates/focal-model/src/canonical.rs]: fixed-width
    big-endian integers and [u32] lengths, the four content encoders, and the
    content, specification, manifest and command hashes built on them.

    The hash function and the serialization library are other projects; they
    are the methods of [External]. The encoder's allocation failure
    ([CanonicalCapacity]) is never raised here: a [Vec] grows. *)
From stdpp Require Import prelude gmap strings.
From Stdlib Require Import NArith.
From S2P Require Import Prelude Vocabulary Objects.

(** What the engine hands to the serialization library to be measured. *)
Inductive Serialized :=
  | SerClaim (x : Claim) | SerValidation (x : Validation) | SerArtifact (x : Artifact)
  | SerTestament (x : Testament) | SerEvidenceSet (x : EvidenceSet) | SerRun (x : ValidationRun)
  | SerMonitor (x : Monitor) | SerObjectId (x : ObjectId)
  | SerEpochWindow (minimum : RequestEpoch) (admitted : gset RequestEpoch)
  | SerReceipt (x : MutationReceipt) | SerDelta (x : Delta) | SerEffect (x : EffectIntent)
  | SerInput (x : AuthenticatedInput) | SerDurableInput (x : AuthenticatedInput).

(** The code outside the repository the engine calls: the [blake3] hash, and
    [postcard]'s size and encoding of a value, [None] when it fails. *)
Class External := {
  blake3 : list N → ContentHash;
  serialized_size : Serialized → option N;
  command_body_bytes : option ObjectRevision → Command → option (list N);
}.

(** ** The encoder *)
Inductive CanonicalError := CanonicalLength | CanonicalCapacity | CanonicalCodec.
Record CanonicalEncoder := { e_bytes : list N; e_error : option CanonicalError }.

Definition encoder_new : CanonicalEncoder := {| e_bytes := []; e_error := None |}.

Fixpoint le_bytes (n : nat) (x : N) : list N :=
  match n with
  | O => []
  | S n => N.modulo x 256 :: le_bytes n (N.div x 256)
  end.
(** [to_be_bytes] of an [n]-byte integer. *)
Definition be_bytes (n : nat) (x : N) : list N := reverse (le_bytes n x).
Definition string_bytes (s : string) : list N := Ascii.N_of_ascii <$> String.list_ascii_of_string s.

Definition fixed (x : list N) (e : CanonicalEncoder) : CanonicalEncoder :=
  match e_error e with
  | Some _ => e
  | None => {| e_bytes := e_bytes e ++ x; e_error := None |}
  end.
Definition enc_u16 (x : N) : CanonicalEncoder → CanonicalEncoder := fixed (be_bytes 2 x).
Definition enc_u32 (x : N) : CanonicalEncoder → CanonicalEncoder := fixed (be_bytes 4 x).
Definition enc_u64 (x : N) : CanonicalEncoder → CanonicalEncoder := fixed (be_bytes 8 x).
(** A 16-byte identifier and a 32-byte hash. *)
Definition enc_id (x : N) : CanonicalEncoder → CanonicalEncoder := fixed (be_bytes 16 x).
Definition enc_hash (x : N) : CanonicalEncoder → CanonicalEncoder := fixed (be_bytes 32 x).
Definition enc_length (n : nat) (e : CanonicalEncoder) : CanonicalEncoder :=
  match try_u32 (N.of_nat n), e_error e with
  | Some n, _ => enc_u32 n e
  | None, None => {| e_bytes := e_bytes e; e_error := Some CanonicalLength |}
  | None, Some _ => e
  end.
Definition enc_bytes (x : list N) (e : CanonicalEncoder) : CanonicalEncoder :=
  fixed x (enc_length (length x) e).
Definition enc_string (x : string) : CanonicalEncoder → CanonicalEncoder :=
  enc_bytes (string_bytes x).
Definition finish (e : CanonicalEncoder) : Result (list N) CanonicalError :=
  match e_error e with Some error => Err error | None => Ok (e_bytes e) end.
Definition enc_ledger (x : LedgerId) (e : CanonicalEncoder) : CanonicalEncoder :=
  enc_id (session x) (enc_id (tenant x) e).
Definition enc_object_ref (x : ObjectRef) (e : CanonicalEncoder) : CanonicalEncoder :=
  enc_id (or_id x) (enc_u16 (ObjectKind.code (or_kind x)) (enc_ledger (or_ledger x) e)).
Definition enc_receipt (x : ReceiptFence) (e : CanonicalEncoder) : CanonicalEncoder :=
  enc_u64 (f_epoch x) (enc_id (f_receipt x) e).
(** [length] of a collection and then each element. *)
Definition enc_each {A} (f : A → CanonicalEncoder → CanonicalEncoder) (l : list A)
    (e : CanonicalEncoder) : CanonicalEncoder :=
  foldl (λ e x, f x e) (enc_length (length l) e) l.
Definition enc_artifact_ref (a : ArtifactRef) (e : CanonicalEncoder) : CanonicalEncoder :=
  enc_hash (ar_hash a) (enc_id (ar_id a) e).
Definition enc_artifacts (x : list ArtifactRef) : CanonicalEncoder → CanonicalEncoder :=
  enc_each enc_artifact_ref x.

(** ** Content encoders *)
Class CanonicalContent (C : Type) := {
  cn_ledger : C → LedgerId;
  cn_schema : C → N;
  cn_kind : ObjectKind;
  encode_body : C → CanonicalEncoder → CanonicalEncoder;
}.

Definition enc_target (t : RelationTarget) (e : CanonicalEncoder) : CanonicalEncoder :=
  match t with
  | TargetParticipant p => enc_id p (enc_u16 1 e)
  | TargetObject o => enc_object_ref o (enc_u16 2 e)
  | TargetAction a => enc_u16 (ActionType.code a) (enc_u16 3 e)
  | TargetRoot r => enc_id r (enc_u16 4 e)
  | TargetEvidence a => enc_hash (ar_hash a) (enc_id (ar_id a) (enc_u16 5 e))
  end.
Definition enc_relation (r : Relation) (e : CanonicalEncoder) : CanonicalEncoder :=
  enc_target (rel_target r) (enc_u16 (RelationKind.code (rel_kind r)) e).
Definition enc_scope (s : Scope) (e : CanonicalEncoder) : CanonicalEncoder :=
  enc_string (sc_key s) (enc_u16 (ScopeKind.code (sc_kind s)) e).
Definition enc_option {A} (f : A → CanonicalEncoder → CanonicalEncoder) (x : option A)
    (e : CanonicalEncoder) : CanonicalEncoder :=
  match x with None => enc_u16 0 e | Some x => f x (enc_u16 1 e) end.
Definition enc_deadline (d : Deadline) (e : CanonicalEncoder) : CanonicalEncoder :=
  enc_u64 (dl_at d) (enc_u64 (dl_generation d) (enc_id (dl_timer d) e)).
Definition encode_claim_body (c : ClaimContent) (e : CanonicalEncoder) : CanonicalEncoder :=
  let e := enc_id (cc_occurrence c) e in
  let e := enc_string (cc_description c) e in
  let e := enc_each enc_relation (cc_relations c) e in
  let e := enc_each enc_scope (cc_scopes c) e in
  let e := enc_each (λ r, enc_hash (rq_specification r)) (cc_requirements c) e in
  enc_option enc_deadline (cc_deadline c) e.
#[export] Instance claim_canonical : CanonicalContent ClaimContent := {|
  cn_ledger := cc_ledger; cn_schema := cc_schema; cn_kind := ObjectKind.Claim;
  encode_body := encode_claim_body
|}.

Definition enc_handler (h : HandlerRef) (e : CanonicalEncoder) : CanonicalEncoder :=
  enc_u16 (if h_agentic h then 1 else 0) (enc_hash (h_version h) (enc_id (h_id h) e)).
Definition encode_specification (v : ValidationContent) (e : CanonicalEncoder) : CanonicalEncoder :=
  let e := enc_u16 (ValidationKind.code (vc_kind v)) e in
  let e := enc_u16 (ValidationPhase.code (vc_phase v)) e in
  let e := enc_u16 (ValidationMode.code (vc_mode v)) e in
  let e := enc_string (vc_description v) e in
  let e := enc_option enc_string (vc_quality_bar v) e in
  let e := enc_id (vc_evaluator v) e in
  let e := enc_each enc_handler (vc_handlers v) e in
  let e := enc_each enc_hash (vc_evidence_schemas v) e in
  let e := enc_each enc_id (vc_contributed_by v) e in
  enc_u64 (vc_policy_revision v) e.
Definition encode_validation_body (v : ValidationContent) (e : CanonicalEncoder) : CanonicalEncoder :=
  encode_specification v (enc_id (vc_claim v) e).
#[export] Instance validation_canonical : CanonicalContent ValidationContent := {|
  cn_ledger := vc_ledger; cn_schema := vc_schema; cn_kind := ObjectKind.Validation;
  encode_body := encode_validation_body
|}.

Definition enc_payload (p : ArtifactPayload) (e : CanonicalEncoder) : CanonicalEncoder :=
  match p with
  | Inline v => enc_bytes v (enc_u16 1 e)
  | Content c =>
      enc_u16 (ContentClass.code (cr_class c))
        (enc_u64 (cr_length c) (enc_hash (cr_root c) (enc_id (cr_domain c) (enc_u16 2 e))))
  end.
Definition encode_artifact_body (a : ArtifactContent) (e : CanonicalEncoder) : CanonicalEncoder :=
  let e := enc_string (ac_kind a) e in
  let e := enc_hash (ac_schema_hash a) e in
  let e := enc_bytes (ac_metadata a) e in
  let e := enc_payload (ac_payload a) e in
  let e := enc_id (ac_producer a) e in
  let e := enc_option enc_receipt (ac_receipt a) e in
  let e := enc_each enc_object_ref (ac_inputs a) e in
  enc_each enc_string (ac_visibility a) e.
#[export] Instance artifact_canonical : CanonicalContent ArtifactContent := {|
  cn_ledger := ac_ledger; cn_schema := ac_schema; cn_kind := ObjectKind.Artifact;
  encode_body := encode_artifact_body
|}.

Definition encode_testament_body (t : TestamentContent) (e : CanonicalEncoder) : CanonicalEncoder :=
  let e := enc_id (tc_claim t) e in
  let e := enc_receipt (tc_receipt t) e in
  let e := enc_id (tc_evidence_set t) e in
  let e := enc_artifacts (tc_artifacts t) e in
  let e := enc_string (tc_summary t) e in
  let e := enc_u16 (Confidence.code (tc_confidence t)) e in
  enc_u16 (OutcomeKind.code (tc_outcome t)) e.
#[export] Instance testament_canonical : CanonicalContent TestamentContent := {|
  cn_ledger := tc_ledger; cn_schema := tc_schema; cn_kind := ObjectKind.Testament;
  encode_body := encode_testament_body
|}.

(** ** Hashes *)
(** A domain tag, with its terminating zero byte. *)
Definition domain_tag (s : string) : list N := string_bytes s ++ [0%N].

Definition canonical_bytes {C} `{CanonicalContent C} (c : C) : Result (list N) CanonicalError :=
  let e := fixed (domain_tag "focal.authored") encoder_new in
  let e := enc_u16 (cn_schema c) e in
  let e := enc_ledger (cn_ledger c) e in
  let e := enc_u16 (ObjectKind.code cn_kind) e in
  finish (encode_body c e).

Section hashes.
Context `{External}.

Definition hash_of (r : Result (list N) CanonicalError) : Result ContentHash CanonicalError :=
  match r with Ok bytes => Ok (blake3 bytes) | Err error => Err error end.
Definition content_hash {C} `{CanonicalContent C} (c : C) : Result ContentHash CanonicalError :=
  hash_of (canonical_bytes c).
Definition specification_hash (v : ValidationContent) : Result ContentHash CanonicalError :=
  let e := fixed (domain_tag "focal.requirement-specification") encoder_new in
  let e := enc_u16 (vc_schema v) e in
  let e := enc_ledger (vc_ledger v) e in
  hash_of (finish (encode_specification v e)).
Definition manifest_hash (artifacts : list ArtifactRef) : Result ContentHash CanonicalError :=
  let e := fixed (domain_tag "focal.evidence-manifest") encoder_new in
  let e := enc_u16 SCHEMA e in
  hash_of (finish (enc_artifacts artifacts e)).

(** The header of [command_digest], before the encoded body. *)
Definition command_digest (input : AuthenticatedInput) (len : N) : list N :=
  domain_tag "focal.command" ++ be_bytes 2 1 ++ be_bytes 16 (tenant (in_ledger input))
  ++ be_bytes 16 (session (in_ledger input)) ++ be_bytes 16 (in_principal input)
  ++ be_bytes 2 (Command.code (in_command input)) ++ be_bytes 4 len.
(** [command_hash]: the length of the body must fit a [u32]. *)
Definition command_hash (input : AuthenticatedInput) : Result ContentHash CanonicalError :=
  match command_body_bytes (in_expected_revision input) (in_command input) with
  | None => Err CanonicalCodec
  | Some body =>
      match try_u32 (N.of_nat (length body)) with
      | None => Err CanonicalLength
      | Some len => Ok (blake3 (command_digest input len ++ body))
      end
  end.
End hashes.

(** [From<CanonicalError> for DomainOutcome]. *)
Definition outcome_of_canonical (error : CanonicalError) : DomainOutcome :=
  match error with
  | CanonicalLength | CanonicalCapacity =>
      DomainOutcome.Refuse ErrorCode.Capacity "canonical identity exceeds representable capacity"
  | CanonicalCodec => DomainOutcome.Refuse ErrorCode.InvalidSchema "canonical command codec"
  end.
