(* ===== verification/CanonicalLaws.v ===== *)
(** * Canonical bytes identify content

    The encoder writes every value with a fixed width or behind a length or a
    tag, so the bytes of a value are never a proper prefix of the bytes of
    another one. [codes] states that of one writer; it is closed under
    sequencing, optional values and collections, and each content encoder is
    assembled from those rules. *)
From stdpp Require Import prelude gmap strings list.
From Stdlib Require Import NArith.
From S2P Require Import Prelude Vocabulary Objects Canonical.

(** ** Words *)
Definition word (n : nat) (x : N) : Prop := (x < 256 ^ N.of_nat n)%N.

Lemma length_le_bytes n x : length (le_bytes n x) = n.
Proof. revert x. induction n; intros x; simpl; auto. Qed.
Lemma word_div n x : word (S n) x → word n (x / 256).
Proof.
  unfold word. rewrite Nat2N.inj_succ, N.pow_succ_r' by lia. intros ?. apply N.Div0.div_lt_upper_bound; lia.
Qed.
Lemma le_bytes_inj n x y : word n x → word n y → le_bytes n x = le_bytes n y → x = y.
Proof.
  revert x y. induction n as [|n IH]; intros x y Hx Hy; [unfold word in *; simpl in *; lia|].
  intros [= Hmod Hdiv]. apply IH in Hdiv; [|by apply word_div..].
  rewrite (N.div_mod x 256), (N.div_mod y 256) by lia. congruence.
Qed.
Lemma length_be_bytes n x : length (be_bytes n x) = n.
Proof. unfold be_bytes. by rewrite length_reverse, length_le_bytes. Qed.
Lemma be_bytes_inj n x y : word n x → word n y → be_bytes n x = be_bytes n y → x = y.
Proof. intros ?? ?%(inj reverse). by eapply le_bytes_inj. Qed.
Lemma string_bytes_inj : Inj (=) (=) string_bytes.
Proof.
  assert (Inj (=) (=) Ascii.N_of_ascii) by
    (intros a b Hab; by rewrite <-(Ascii.ascii_N_embedding a), <-(Ascii.ascii_N_embedding b), Hab).
  intros s t E. apply (inj (fmap (M:=list) Ascii.N_of_ascii)) in E.
  by rewrite <-(String.string_of_list_ascii_of_string s), <-(String.string_of_list_ascii_of_string t), E.
Qed.

(** ** Writers *)
Definition emits (m : CanonicalEncoder → CanonicalEncoder) (s : list N) : Prop := ∀ e, m e = fixed s e.
Definition rejects (m : CanonicalEncoder → CanonicalEncoder) : Prop := ∀ e, e_error (m e) ≠ None.

Lemma fixed_fixed s t e : fixed t (fixed s e) = fixed (s ++ t) e.
Proof. destruct e as [b [err|]]; unfold fixed; simpl; [done|]. by rewrite <-app_assoc. Qed.
Lemma emits_unique m s t : emits m s → emits m t → s = t.
Proof. intros Hs Ht. specialize (Hs encoder_new). rewrite (Ht encoder_new) in Hs. by injection Hs. Qed.
Lemma emits_not_rejects m s : emits m s → ¬ rejects m.
Proof. intros Hs Hr. apply (Hr encoder_new). by rewrite Hs. Qed.
Lemma emits_seq f g s t : emits f s → emits g t → emits (λ e, g (f e)) (s ++ t).
Proof. intros Hf Hg e. by rewrite Hf, Hg, fixed_fixed. Qed.

(** An operation of the encoder: it appends the same bytes to every encoder, or
    it fails; a failed encoder stays failed. *)
Record writer (m : CanonicalEncoder → CanonicalEncoder) : Prop := {
  wr_writes : (∃ s, emits m s) ∨ rejects m;
  wr_sticky e : e_error e ≠ None → e_error (m e) ≠ None;
}.
Lemma writer_skip : emits id [].
Proof. intros [b [err|]]; unfold fixed; simpl; [done|]. by rewrite app_nil_r. Qed.
Lemma writer_seq f g : writer f → writer g → writer (λ e, g (f e)).
Proof.
  intros [Hw Hs] [Hw' Hs']. split; [|auto].
  destruct Hw as [[s H]|H]; [|by right; intros e; apply Hs'].
  destruct Hw' as [[t H']|H']; [|by right; intros e; apply H'].
  left. exists (s ++ t). by apply emits_seq.
Qed.
Lemma emits_seq_inv f g w : writer f → writer g → emits (λ e, g (f e)) w →
  ∃ s t, emits f s ∧ emits g t ∧ w = s ++ t.
Proof.
  intros [Hw Hs] [Hw' Hs'] Hz. destruct Hw as [[s H]|H].
  - destruct Hw' as [[t H']|H'].
    + exists s, t. split_and!; [done..|]. eapply emits_unique; [done|by apply emits_seq].
    + destruct (emits_not_rejects _ _ Hz). intros e. apply H'.
  - destruct (emits_not_rejects _ _ Hz). intros e. apply Hs', H.
Qed.

(** [f] is a writer for every value and, of two values related by [V], bytes
    that agree as far as they go are the bytes of values related by [R]. *)
Record codes {A} (V : A → A → Prop) (f : A → CanonicalEncoder → CanonicalEncoder) (R : A → A → Prop) : Prop := {
  co_writer x : writer (f x);
  co_reads x y s t u v : V x y → emits (f x) s → emits (f y) t → s ++ u = t ++ v → R x y ∧ s = t;
}.

Lemma codes_weaken {A} (V V' : A → A → Prop) f (R R' : A → A → Prop) :
  codes V f R → (∀ x y, V' x y → V x y) → (∀ x y, V' x y → R x y → R' x y) → codes V' f R'.
Proof. intros [Hw Hr] HV HR. split; [done..|]. intros x y s t u v ????. naive_solver. Qed.
Lemma codes_ext {A} (V R : A → A → Prop) f g : (∀ x e, f x e = g x e) → codes V f R → codes V g R.
Proof.
  intros E [Hw Hr]. assert (Hem : ∀ x s, emits (g x) s → emits (f x) s) by (intros x s H e; by rewrite E).
  split.
  - intros x. destruct (Hw x) as [[[s H]|H] Hs]; split; [left; exists s|..|right| ]; intros e; rewrite <-?E; eauto.
  - intros x y s t u v HV ?%Hem ?%Hem. by eapply Hr.
Qed.
Lemma codes_of {A B} (p : A → B) (V R : B → B → Prop) f :
  codes V f R → codes (λ x y, V (p x) (p y)) (λ x, f (p x)) (λ x y, R (p x) (p y)).
Proof. intros [Hw Hr]. split; [intros x; apply Hw|intros x y; apply Hr]. Qed.

(** A writer after another, which may read the second value knowing the
    first. *)
Lemma codes_then {A} (V R S : A → A → Prop) f g :
  codes V f R → codes (λ x y, V x y ∧ R x y) g S →
  codes V (λ x e, g x (f x e)) (λ x y, R x y ∧ S x y).
Proof.
  intros [Hw Hr] [Hw' Hr']. split; [intros x; by apply writer_seq|].
  intros x y s t u v HV Hx Hy E.
  apply emits_seq_inv in Hx as (a & b & Ha & Hb & ->); [|done..].
  apply emits_seq_inv in Hy as (a' & b' & Ha' & Hb' & ->); [|done..].
  rewrite <-!app_assoc in E. destruct (Hr x y a a' _ _ HV Ha Ha' E) as [HR ->].
  apply app_inv_head in E. by destruct (Hr' x y b b' _ _ (conj HV HR) Hb Hb' E) as [? ->].
Qed.
Lemma codes_seq {A} (V V' R S : A → A → Prop) f g :
  codes V f R → codes V' g S →
  codes (λ x y, V x y ∧ V' x y) (λ x e, g x (f x e)) (λ x y, R x y ∧ S x y).
Proof.
  intros Hf Hg. apply codes_then; (eapply codes_weaken; [eassumption|naive_solver..]).
Qed.

(** ** Values of a known length *)
Lemma codes_fixed {A} (w : A → list N) (V R : A → A → Prop) :
  (∀ x y, V x y → length (w x) = length (w y)) → (∀ x y, V x y → w x = w y → R x y) →
  codes V (λ x, fixed (w x)) R.
Proof.
  intros Hlen Hinj. split; [intros x; split|].
  - left. by exists (w x).
  - intros e ?. unfold fixed. by destruct (e_error e) eqn:E; rewrite ?E.
  - intros x y s t u v HV Hs Ht E.
    apply (emits_unique _ (w x)) in Hs; [|done]. apply (emits_unique _ (w y)) in Ht; [|done]. subst.
    apply app_inj_1 in E as [E _]; [|by apply Hlen]. eauto.
Qed.
Definition both {A} (P : A → Prop) (x y : A) : Prop := P x ∧ P y.
Notation words n := (both (word n)) (only parsing).
Definition anything {A} (x y : A) : Prop := True.
Lemma codes_word n : codes (words n) (λ x, fixed (be_bytes n x)) eq.
Proof.
  apply codes_fixed; [by intros; rewrite !length_be_bytes|]. intros x y [] ?. by eapply be_bytes_inj.
Qed.
Lemma codes_tag {A} (code : A → N) `{!Inj (=) (=) code} : (∀ x, word 2 (code x)) →
  codes anything (λ x, enc_u16 (code x)) eq.
Proof.
  intros Hc. eapply codes_weaken; [apply (codes_of code), (codes_word 2)|by split|].
  by intros x y _ ?%(inj code).
Qed.
Lemma codes_length {A} : codes (@anything (list A)) (λ l, enc_length (length l)) (λ x y, length x = length y).
Proof.
  assert (Hcase : ∀ l : list A, (word 4 (N.of_nat (length l))
      ∧ emits (enc_length (length l)) (be_bytes 4 (N.of_nat (length l)))) ∨ rejects (enc_length (length l))).
  { intros l. unfold enc_length, try_u32, rejects.
    destruct (N.leb_spec (N.of_nat (length l)) u32_max) as [Hle|?]; [left|right].
    - split; [unfold word, u32_max in *; simpl; lia|]. intros e. by destruct (e_error e).
    - intros e. by destruct (e_error e) eqn:E; rewrite ?E. }
  split; [intros l; split|].
  - destruct (Hcase l) as [[_ ?]|?]; eauto.
  - intros e He. unfold enc_length, enc_u32, fixed.
    destruct (e_error e) eqn:E; [|done]. by destruct (try_u32 _); rewrite ?E.
  - intros x y s t u v _ Hs Ht E.
    destruct (Hcase x) as [[Hwx Hx]|Hx]; [|by destruct (emits_not_rejects _ _ Hs)].
    destruct (Hcase y) as [[Hwy Hy]|Hy]; [|by destruct (emits_not_rejects _ _ Ht)].
    rewrite (emits_unique _ _ _ Hs Hx), (emits_unique _ _ _ Ht Hy) in E |- *.
    apply app_inj_1 in E as [E _]; [|by rewrite !length_be_bytes]. split; [|done].
    apply be_bytes_inj in E; [lia|done..].
Qed.

(** ** Strings, collections and optional values *)
Lemma codes_bytes : codes anything enc_bytes eq.
Proof.
  assert (Hf : codes (λ x y, anything x y ∧ length x = length y) (λ l, fixed l) eq)
    by (apply (codes_fixed (λ l, l)); naive_solver).
  eapply codes_weaken; [exact (codes_then _ _ _ _ _ codes_length Hf)|done|by intros x y _ [_ ?]].
Qed.
Lemma codes_string : codes anything enc_string eq.
Proof.
  eapply codes_weaken; [apply (codes_of string_bytes), codes_bytes|done|].
  by intros x y _ ?%string_bytes_inj.
Qed.
Definition pairs {A} (V : A → A → Prop) (x y : list A) : Prop := ∀ a b, a ∈ x → b ∈ y → V a b.
Lemma codes_elements {A} (V R : A → A → Prop) f : codes V f R →
  codes (λ x y, pairs V x y ∧ length x = length y) (λ l e, foldl (λ e x, f x e) e l) (Forall2 R).
Proof.
  intros Hf. assert (Hw : ∀ l, writer (λ e, foldl (λ e x, f x e) e l)).
  { induction l as [|a l IH]; simpl.
    - split; [left; exists []; apply writer_skip|done].
    - exact (writer_seq _ _ (co_writer _ _ _ Hf a) IH). }
  split; [done|]. intros x. induction x as [|a x IH]; intros [|b y] s t u v [HV Hlen] Hs Ht E; try done.
  - by rewrite (emits_unique _ _ _ Hs Ht).
  - apply (emits_seq_inv (f a) (λ e, foldl (λ e x, f x e) e x)) in Hs as (s1 & s2 & Hs1 & Hs2 & ->); [|apply Hf|apply Hw].
    apply (emits_seq_inv (f b) (λ e, foldl (λ e x, f x e) e y)) in Ht as (t1 & t2 & Ht1 & Ht2 & ->); [|apply Hf|apply Hw].
    rewrite <-!app_assoc in E.
    destruct (co_reads _ _ _ Hf a b s1 t1 _ _ (HV _ _ ltac:(left) ltac:(left)) Hs1 Ht1 E) as [HR ->].
    apply app_inv_head in E. destruct (IH y s2 t2 u v) as [? ->]; [|done..|by split; [constructor|]].
    split; [|by injection Hlen]. intros ????. apply HV; by right.
Qed.
Lemma codes_each {A} (V R : A → A → Prop) f : codes V f R → codes (pairs V) (enc_each f) (Forall2 R).
Proof.
  intros Hf%codes_elements. assert (Hl : codes (pairs V) (λ l, enc_length (length l)) (λ x y, length x = length y))
    by (eapply codes_weaken; [apply codes_length|done..]).
  eapply codes_weaken; [exact (codes_then _ _ _ _ _ Hl Hf)|done|by intros x y _ [_ ?]].
Qed.
Lemma codes_each_eq {A} (V : A → A → Prop) f : codes V f eq → codes (pairs V) (enc_each f) eq.
Proof.
  intros Hf. eapply codes_weaken; [by apply codes_each|done|]. intros x y _. by rewrite list_eq_Forall2.
Qed.
Definition options {A} (V : A → A → Prop) (x y : option A) : Prop :=
  match x, y with Some x, Some y => V x y | _, _ => True end.
(** A value behind the [u16] tag of its variant. *)
Lemma codes_tagged {A} (V : A → A → Prop) (tag : A → N) f : (∀ x, word 2 (tag x)) →
  codes (λ x y, V x y ∧ tag x = tag y) f eq → codes V (λ x e, f x (enc_u16 (tag x) e)) eq.
Proof.
  intros Htag Hf. assert (Ht : codes V (λ x, enc_u16 (tag x)) (λ x y, tag x = tag y)).
  { eapply codes_weaken; [apply (codes_of tag), (codes_word 2)|by split|done]. }
  eapply codes_weaken; [exact (codes_then _ _ _ _ _ Ht Hf)|done|by intros x y _ [_ ?]].
Qed.
(** The bytes of two values of one variant, read by the variant's writer. *)
Lemma codes_variant {A B} (V : A → A → Prop) f (c : A → B) x y s t u v :
  codes V f eq → V x y → emits (f x) s → emits (f y) t → s ++ u = t ++ v → c x = c y ∧ s = t.
Proof. intros Hf HV Hs Ht E. by destruct (co_reads _ _ _ Hf x y s t u v HV Hs Ht E) as [-> ->]. Qed.
Lemma codes_option {A} (V : A → A → Prop) f : codes V f eq → codes (options V) (enc_option f) eq.
Proof.
  intros Hf. set (tag := λ x : option A, if x is Some _ then 1%N else 0%N).
  set (rest := λ (x : option A) e, if x is Some a then f a e else e).
  apply (codes_ext _ _ (λ x e, rest x (enc_u16 (tag x) e))); [by intros []|].
  apply codes_tagged; [by intros []|]. split.
  - intros [a|]; [apply Hf|]. split; [left; exists []; apply writer_skip|done].
  - intros [a|] [b|] s t u v [HV Htag] Hs Ht E; try done.
    + by apply (codes_variant V f Some a b s t u v).
    + by rewrite (emits_unique _ _ _ Hs Ht).
Qed.

(** ** Representable content

    The widths of the source's types: 16-byte identifiers, 32-byte hashes, and
    [u16], [u64] integers. *)
Definition wf_ledger (x : LedgerId) : Prop := word 16 (tenant x) ∧ word 16 (session x).
Definition wf_object (x : ObjectRef) : Prop := wf_ledger (or_ledger x) ∧ word 16 (or_id x).
Definition wf_artifact_ref (x : ArtifactRef) : Prop := word 16 (ar_id x) ∧ word 32 (ar_hash x).
Definition wf_fence (x : ReceiptFence) : Prop := word 16 (f_receipt x) ∧ word 8 (f_epoch x).
Definition wf_target (x : RelationTarget) : Prop :=
  match x with
  | TargetParticipant p => word 16 p
  | TargetObject o => wf_object o
  | TargetAction _ => True
  | TargetRoot r => word 16 r
  | TargetEvidence a => wf_artifact_ref a
  end.
Definition wf_deadline (x : Deadline) : Prop := word 16 (dl_timer x) ∧ word 8 (dl_generation x) ∧ word 8 (dl_at x).
Definition wf_handler (x : HandlerRef) : Prop := word 16 (h_id x) ∧ word 32 (h_version x).
Definition wf_payload (x : ArtifactPayload) : Prop :=
  match x with
  | Inline _ => True
  | Content c => word 16 (cr_domain c) ∧ word 32 (cr_root c) ∧ word 8 (cr_length c)
  end.
Definition wf_claim (c : ClaimContent) : Prop :=
  word 16 (cc_occurrence c) ∧ Forall (λ r, wf_target (rel_target r)) (cc_relations c)
  ∧ Forall (λ r, word 32 (rq_specification r)) (cc_requirements c) ∧ from_option wf_deadline True (cc_deadline c).
Definition wf_validation (v : ValidationContent) : Prop :=
  word 16 (vc_claim v) ∧ word 16 (vc_evaluator v) ∧ Forall wf_handler (vc_handlers v)
  ∧ Forall (word 32) (vc_evidence_schemas v) ∧ Forall (word 16) (vc_contributed_by v)
  ∧ word 8 (vc_policy_revision v).
Definition wf_artifact (a : ArtifactContent) : Prop :=
  word 32 (ac_schema_hash a) ∧ wf_payload (ac_payload a) ∧ word 16 (ac_producer a)
  ∧ from_option wf_fence True (ac_receipt a) ∧ Forall wf_object (ac_inputs a).
Definition wf_testament (t : TestamentContent) : Prop :=
  word 16 (tc_claim t) ∧ wf_fence (tc_receipt t) ∧ word 16 (tc_evidence_set t)
  ∧ Forall wf_artifact_ref (tc_artifacts t).

Lemma both_Forall {A} (P : A → Prop) x y : Forall P x → Forall P y → pairs (both P) x y.
Proof. rewrite !Forall_forall. intros Hx Hy a b Ha Hb. split; auto. Qed.
Lemma both_option {A} (P : A → Prop) x y :
  from_option P True x → from_option P True y → options (both P) x y.
Proof. by destruct x, y. Qed.

(** [record] proves a record's writer from the writers of its fields, in
    order: the side conditions are the widths of the fields, the conclusion
    that equal fields make equal records. *)
Ltac width := first [exact I | by split | by apply both_Forall | by apply both_option].
Ltac widths :=
  let Hx := fresh in let Hy := fresh in
  intros ?? [Hx Hy]; red in Hx, Hy; destruct_and?; cbv beta;
  repeat match goal with |- _ ∧ _ => split end; width.
Ltac fields :=
  let H := fresh in intros [] [] _ H; simpl in H; destruct_and?; subst; first [reflexivity | intros ??; simpl in *; by subst].
Ltac assembled H := eapply codes_weaken; [exact H|widths|fields].

(** A chain of field writers. *)
Declare Scope codes_scope.
Delimit Scope codes_scope with codes.
Notation "f &> g" := (codes_seq _ _ _ _ _ _ f g) (at level 60, right associativity, only parsing) : codes_scope.
Notation "p @@ f" := (codes_of p _ _ _ f) (at level 58, no associativity, only parsing) : codes_scope.
Open Scope codes_scope.

#[export] Instance object_kind_inj : Inj (=) (=) ObjectKind.code. Proof. by intros [] []. Qed.
#[export] Instance action_type_inj : Inj (=) (=) ActionType.code. Proof. by intros [] []. Qed.
#[export] Instance relation_kind_inj : Inj (=) (=) RelationKind.code. Proof. by intros [] []. Qed.
#[export] Instance scope_kind_inj : Inj (=) (=) ScopeKind.code. Proof. by intros [] []. Qed.
#[export] Instance validation_kind_inj : Inj (=) (=) ValidationKind.code. Proof. by intros [] []. Qed.
#[export] Instance validation_phase_inj : Inj (=) (=) ValidationPhase.code. Proof. by intros [] []. Qed.
#[export] Instance validation_mode_inj : Inj (=) (=) ValidationMode.code. Proof. by intros [] []. Qed.
#[export] Instance content_class_inj : Inj (=) (=) ContentClass.code. Proof. by intros [] []. Qed.
#[export] Instance confidence_inj : Inj (=) (=) Confidence.code. Proof. by intros [] []. Qed.
#[export] Instance outcome_kind_inj : Inj (=) (=) OutcomeKind.code. Proof. by intros [] []. Qed.
Ltac tag_code := apply codes_tag; [apply _|by intros []].

Lemma codes_ledger : codes (both wf_ledger) enc_ledger eq.
Proof. assembled (tenant @@ codes_word 16 &> session @@ codes_word 16). Qed.
Lemma codes_kind : codes anything (λ k, enc_u16 (ObjectKind.code k)) eq.
Proof. tag_code. Qed.
Lemma codes_object : codes (both wf_object) enc_object_ref eq.
Proof. assembled (or_ledger @@ codes_ledger &> or_kind @@ codes_kind &> or_id @@ codes_word 16). Qed.
Lemma codes_fence : codes (both wf_fence) enc_receipt eq.
Proof. assembled (f_receipt @@ codes_word 16 &> f_epoch @@ codes_word 8). Qed.
Lemma codes_artifact_ref : codes (both wf_artifact_ref) enc_artifact_ref eq.
Proof. assembled (ar_id @@ codes_word 16 &> ar_hash @@ codes_word 32). Qed.
Lemma codes_action : codes anything (λ k, enc_u16 (ActionType.code k)) eq.
Proof. tag_code. Qed.
Lemma codes_target : codes (both wf_target) enc_target eq.
Proof.
  set (tag := λ x : RelationTarget, match x with
    | TargetParticipant _ => 1%N | TargetObject _ => 2%N | TargetAction _ => 3%N
    | TargetRoot _ => 4%N | TargetEvidence _ => 5%N end).
  set (rest := λ x e, match x with
    | TargetParticipant p => enc_id p e | TargetObject o => enc_object_ref o e
    | TargetAction a => enc_u16 (ActionType.code a) e | TargetRoot r => enc_id r e
    | TargetEvidence a => enc_artifact_ref a e end).
  apply (codes_ext _ _ (λ x e, rest x (enc_u16 (tag x) e))); [by intros []|].
  apply codes_tagged; [by intros []|]. split.
  - intros []; [apply (codes_word 16)|apply codes_object|apply codes_action|apply (codes_word 16)|apply codes_artifact_ref].
  - intros [] [] s t u v [HV Htag] Hs Ht E; try done.
    + by eapply (codes_variant _ _ TargetParticipant); [apply (codes_word 16)|..].
    + by eapply (codes_variant _ _ TargetObject); [apply codes_object|..].
    + by eapply (codes_variant _ _ TargetAction); [apply codes_action|..].
    + by eapply (codes_variant _ _ TargetRoot); [apply (codes_word 16)|..].
    + by eapply (codes_variant _ _ TargetEvidence); [apply codes_artifact_ref|..].
Qed.
Lemma codes_payload : codes (both wf_payload) enc_payload eq.
Proof.
  assert (Hc : codes (λ x y, wf_payload (Content x) ∧ wf_payload (Content y)) (λ c e,
      enc_u16 (ContentClass.code (cr_class c)) (enc_u64 (cr_length c) (enc_hash (cr_root c) (enc_id (cr_domain c) e)))) eq).
  { assert (codes anything (λ k, enc_u16 (ContentClass.code k)) eq) by tag_code.
    assembled (cr_domain @@ codes_word 16 &> cr_root @@ codes_word 32 &> cr_length @@ codes_word 8
      &> cr_class @@ H). }
  set (tag := λ x : ArtifactPayload, if x is Inline _ then 1%N else 2%N).
  set (rest := λ x e, match x with
    | Inline v => enc_bytes v e
    | Content c => enc_u16 (ContentClass.code (cr_class c))
        (enc_u64 (cr_length c) (enc_hash (cr_root c) (enc_id (cr_domain c) e)))
    end).
  apply (codes_ext _ _ (λ x e, rest x (enc_u16 (tag x) e))); [by intros []|].
  apply codes_tagged; [by intros []|]. split.
  - intros [v|c]; [apply codes_bytes|apply Hc].
  - intros [] [] s t u v [HV Htag] Hs Ht E; try done.
    + by eapply (codes_variant _ _ Inline); [apply codes_bytes|..].
    + by eapply (codes_variant _ _ Content); [apply Hc|..].
Qed.
Lemma codes_relation : codes (both (λ r, wf_target (rel_target r))) enc_relation eq.
Proof.
  assert (Hk : codes anything (λ k, enc_u16 (RelationKind.code k)) eq) by tag_code.
  assembled (rel_kind @@ Hk &> rel_target @@ codes_target).
Qed.
Lemma codes_scope_key : codes anything enc_scope eq.
Proof.
  assert (Hk : codes anything (λ k, enc_u16 (ScopeKind.code k)) eq) by tag_code.
  eapply codes_weaken; [exact (sc_kind @@ Hk &> sc_key @@ codes_string)|done|fields].
Qed.
Lemma codes_deadline : codes (both wf_deadline) enc_deadline eq.
Proof. assembled (dl_timer @@ codes_word 16 &> dl_generation @@ codes_word 8 &> dl_at @@ codes_word 8). Qed.
Lemma codes_handler : codes (both wf_handler) enc_handler eq.
Proof.
  assert (Ha : codes anything (λ b : bool, enc_u16 (if b then 1 else 0)) eq).
  { apply codes_tag; [by intros [] []|by intros []]. }
  assembled (h_id @@ codes_word 16 &> h_version @@ codes_word 32 &> h_agentic @@ Ha).
Qed.

(** A claim's requirements enter its identity by their specifications only. *)
Definition same_claim_body (x y : ClaimContent) : Prop :=
  cc_occurrence x = cc_occurrence y ∧ cc_description x = cc_description y
  ∧ cc_relations x = cc_relations y ∧ cc_scopes x = cc_scopes y
  ∧ rq_specification <$> cc_requirements x = rq_specification <$> cc_requirements y
  ∧ cc_deadline x = cc_deadline y.
Lemma codes_requirements : codes (pairs (both (λ r, word 32 (rq_specification r))))
  (enc_each (λ r, enc_hash (rq_specification r)))
  (λ x y, rq_specification <$> x = rq_specification <$> y).
Proof.
  eapply codes_weaken; [exact (codes_each _ _ _ (rq_specification @@ codes_word 32))|done|].
  intros x y _. rewrite list_eq_Forall2, Forall2_fmap. done.
Qed.
Lemma pairs_anything {A} (x y : list A) : pairs anything x y.
Proof. done. Qed.
Lemma options_anything {A} (x y : option A) : options anything x y.
Proof. by destruct x, y. Qed.
Ltac width ::=
  first [exact I | by split | by apply both_Forall | by apply both_option
        |apply pairs_anything | apply options_anything].
Lemma codes_claim : codes (both wf_claim) encode_claim_body same_claim_body.
Proof.
  eapply codes_weaken; [exact (cc_occurrence @@ codes_word 16 &> cc_description @@ codes_string
    &> cc_relations @@ codes_each_eq _ _ codes_relation &> cc_scopes @@ codes_each_eq _ _ codes_scope_key
    &> cc_requirements @@ codes_requirements &> cc_deadline @@ codes_option _ _ codes_deadline)|widths|done].
Qed.
Definition same_validation_body (x y : ValidationContent) : Prop :=
  vc_ledger x = vc_ledger y → vc_schema x = vc_schema y → x = y.
Lemma codes_validation : codes (both wf_validation) encode_validation_body same_validation_body.
Proof.
  assert (Hk : codes anything (λ k, enc_u16 (ValidationKind.code k)) eq) by tag_code.
  assert (Hp : codes anything (λ k, enc_u16 (ValidationPhase.code k)) eq) by tag_code.
  assert (Hm : codes anything (λ k, enc_u16 (ValidationMode.code k)) eq) by tag_code.
  assembled (vc_claim @@ codes_word 16 &> vc_kind @@ Hk &> vc_phase @@ Hp &> vc_mode @@ Hm
    &> vc_description @@ codes_string &> vc_quality_bar @@ codes_option _ _ codes_string
    &> vc_evaluator @@ codes_word 16 &> vc_handlers @@ codes_each_eq _ _ codes_handler
    &> vc_evidence_schemas @@ codes_each_eq _ _ (codes_word 32)
    &> vc_contributed_by @@ codes_each_eq _ _ (codes_word 16)
    &> vc_policy_revision @@ codes_word 8).
Qed.
Definition same_artifact_body (x y : ArtifactContent) : Prop :=
  ac_ledger x = ac_ledger y → ac_schema x = ac_schema y → x = y.
Lemma codes_artifact : codes (both wf_artifact) encode_artifact_body same_artifact_body.
Proof.
  assembled (ac_kind @@ codes_string &> ac_schema_hash @@ codes_word 32 &> ac_metadata @@ codes_bytes
    &> ac_payload @@ codes_payload &> ac_producer @@ codes_word 16
    &> ac_receipt @@ codes_option _ _ codes_fence &> ac_inputs @@ codes_each_eq _ _ codes_object
    &> ac_visibility @@ codes_each_eq _ _ codes_string).
Qed.
Definition same_testament_body (x y : TestamentContent) : Prop :=
  tc_ledger x = tc_ledger y → tc_schema x = tc_schema y → x = y.
Lemma codes_testament : codes (both wf_testament) encode_testament_body same_testament_body.
Proof.
  assert (Hc : codes anything (λ k, enc_u16 (Confidence.code k)) eq) by tag_code.
  assert (Ho : codes anything (λ k, enc_u16 (OutcomeKind.code k)) eq) by tag_code.
  assembled (tc_claim @@ codes_word 16 &> tc_receipt @@ codes_fence &> tc_evidence_set @@ codes_word 16
    &> tc_artifacts @@ codes_each_eq _ _ codes_artifact_ref &> tc_summary @@ codes_string
    &> tc_confidence @@ Hc &> tc_outcome @@ Ho).
Qed.

(** ** The identity of authored content *)
Inductive Authored :=
  | AuthoredClaim (c : ClaimContent) | AuthoredValidation (v : ValidationContent)
  | AuthoredArtifact (a : ArtifactContent) | AuthoredTestament (t : TestamentContent).
Definition authored_ledger (x : Authored) : LedgerId :=
  match x with
  | AuthoredClaim c => cn_ledger c | AuthoredValidation c => cn_ledger c
  | AuthoredArtifact c => cn_ledger c | AuthoredTestament c => cn_ledger c
  end.
Definition authored_schema (x : Authored) : N :=
  match x with
  | AuthoredClaim c => cn_schema c | AuthoredValidation c => cn_schema c
  | AuthoredArtifact c => cn_schema c | AuthoredTestament c => cn_schema c
  end.
Definition authored_kind (x : Authored) : ObjectKind :=
  match x with
  | AuthoredClaim _ => cn_kind (C:=ClaimContent) | AuthoredValidation _ => cn_kind (C:=ValidationContent)
  | AuthoredArtifact _ => cn_kind (C:=ArtifactContent) | AuthoredTestament _ => cn_kind (C:=TestamentContent)
  end.
Definition authored_body (x : Authored) (e : CanonicalEncoder) : CanonicalEncoder :=
  match x with
  | AuthoredClaim c => encode_body c e | AuthoredValidation c => encode_body c e
  | AuthoredArtifact c => encode_body c e | AuthoredTestament c => encode_body c e
  end.
Definition authored_bytes (x : Authored) : Result (list N) CanonicalError :=
  match x with
  | AuthoredClaim c => canonical_bytes c | AuthoredValidation c => canonical_bytes c
  | AuthoredArtifact c => canonical_bytes c | AuthoredTestament c => canonical_bytes c
  end.
(** Every field is within the width of its type. *)
Definition representable (x : Authored) : Prop :=
  wf_ledger (authored_ledger x) ∧ word 2 (authored_schema x) ∧
  match x with
  | AuthoredClaim c => wf_claim c | AuthoredValidation c => wf_validation c
  | AuthoredArtifact c => wf_artifact c | AuthoredTestament c => wf_testament c
  end.
(** The same kind with the same content, a claim's requirement identifiers
    apart. *)
Definition same_content (x y : Authored) : Prop :=
  match x, y with
  | AuthoredClaim a, AuthoredClaim b =>
      cc_ledger a = cc_ledger b ∧ cc_schema a = cc_schema b ∧ same_claim_body a b
  | AuthoredClaim _, _ | _, AuthoredClaim _ => False
  | x, y => x = y
  end.
Definition same_body (x y : Authored) : Prop :=
  match x, y with
  | AuthoredClaim a, AuthoredClaim b => same_claim_body a b
  | AuthoredValidation a, AuthoredValidation b => same_validation_body a b
  | AuthoredArtifact a, AuthoredArtifact b => same_artifact_body a b
  | AuthoredTestament a, AuthoredTestament b => same_testament_body a b
  | _, _ => False
  end.

Lemma codes_body : codes (λ x y, both representable x y ∧ authored_kind x = authored_kind y) authored_body same_body.
Proof.
  split; [intros []; [apply codes_claim|apply codes_validation|apply codes_artifact|apply codes_testament]|].
  intros [] [] b1 b2 rest1 rest2 [[(_ & _ & Hx) (_ & _ & Hy)] Hk]; try done.
  - apply codes_claim; by split.
  - apply codes_validation; by split.
  - apply codes_artifact; by split.
  - apply codes_testament; by split.
Qed.
Definition authored_content (x : Authored) (e : CanonicalEncoder) : CanonicalEncoder :=
  authored_body x (enc_u16 (ObjectKind.code (authored_kind x))
    (enc_ledger (authored_ledger x) (enc_u16 (authored_schema x)
      (fixed (domain_tag "focal.authored") e)))).
Lemma codes_content : codes (both representable) authored_content same_content.
Proof.
  assert (Htag : codes (@anything Authored) (λ _, fixed (domain_tag "focal.authored")) anything)
    by (by apply (codes_fixed (λ _, domain_tag "focal.authored"))).
  assert (Hhead : codes (both representable)
      (λ x e, enc_u16 (ObjectKind.code (authored_kind x)) (enc_ledger (authored_ledger x)
        (enc_u16 (authored_schema x) (fixed (domain_tag "focal.authored") e))))
      (λ x y, authored_schema x = authored_schema y ∧ authored_ledger x = authored_ledger y
        ∧ authored_kind x = authored_kind y)).
  { eapply codes_weaken; [exact (Htag &> authored_schema @@ codes_word 2 &> authored_ledger @@ codes_ledger
      &> authored_kind @@ codes_kind)|widths|]. intros x y _ (_ & ? & ? & ?). done. }
  assert (Hbody : codes (λ x y, both representable x y ∧ (authored_schema x = authored_schema y
      ∧ authored_ledger x = authored_ledger y ∧ authored_kind x = authored_kind y)) authored_body same_body)
    by (eapply codes_weaken; [apply codes_body|naive_solver..]).
  eapply codes_weaken; [exact (codes_then _ _ _ _ _ Hhead Hbody)|done|].
  intros [] [] _ [(Hs & Hl & Hk) Hb]; try done; simpl in *; by rewrite (Hb Hl Hs).
Qed.
Lemma authored_bytes_finish x : authored_bytes x = finish (authored_content x encoder_new).
Proof. by destruct x. Qed.
Lemma authored_bytes_emits x b : authored_bytes x = Ok b → emits (authored_content x) b.
Proof.
  rewrite authored_bytes_finish. unfold finish. destruct (wr_writes _ (co_writer _ _ _ codes_content x)) as [[s Hs]|Hr].
  - rewrite (Hs encoder_new). simpl. by intros [= <-].
  - intros Hb. specialize (Hr encoder_new). by destruct (e_error _).
Qed.
Lemma authored_bytes_inj x y b : representable x → representable y →
  authored_bytes x = Ok b → authored_bytes y = Ok b → same_content x y.
Proof.
  intros Hx Hy Hbx%authored_bytes_emits Hby%authored_bytes_emits.
  by destruct (co_reads _ _ _ codes_content x y b b [] [] (conj Hx Hy) Hbx Hby eq_refl).
Qed.
