(* ===== verification/Store.v ===== *)
(** * Row storage

    The tables of the session state ([crates/focal-core/src/lib.rs]), the
    workspace recorder ([access.rs]) and the two storages a reducer runs on
    ([overlay.rs]): the plain maps of the serial oracle ([Backing::Write]) and
    the owned row overlay over a committed base and earlier pending versions
    ([Backing::Overlay]). [Backend] is what a storage offers to the reducer,
    [BackendLaws] what it promises; both storages are proved lawful. *)
From stdpp Require Import prelude gmap strings sorting.
From Stdlib Require Import NArith.
From S2P Require Import Prelude Vocabulary Objects Canonical.

(** ** Session state *)
Record EpochWindow := { ew_minimum : RequestEpoch; ew_admitted : gset RequestEpoch }.

(** How a table of keys [K] and rows [V] is stored. *)
Notation TableImpl := (∀ K : Type, ∀ E : EqDecision K, Countable K → Type → Type).

Record Tables (T : TableImpl) := {
  claims : T ClaimId _ _ Claim;
  validations : T ValidationId _ _ Validation;
  artifacts : T ArtifactId _ _ Artifact;
  testaments : T TestamentId _ _ Testament;
  evidence_sets : T EvidenceSetId _ _ EvidenceSet;
  runs : T ValidationRunId _ _ ValidationRun;
  monitors : T MonitorId _ _ Monitor;
  identities : T (ObjectKind * ContentHash)%type _ _ ObjectId;
  epochs : T ParticipantId _ _ EpochWindow;
  receipts : T RequestKey _ _ MutationReceipt;
}.
Arguments claims {_} _.
Arguments validations {_} _.
Arguments artifacts {_} _.
Arguments testaments {_} _.
Arguments evidence_sets {_} _.
Arguments runs {_} _.
Arguments monitors {_} _.
Arguments identities {_} _.
Arguments epochs {_} _.
Arguments receipts {_} _.

(** [State]: the ledger it belongs to, the sequence it has reached, its rows. *)
Record State := { st_ledger : LedgerId; st_sequence : SessionSeq; st_rows : Tables (@gmap) }.

Definition empty_tables : Tables (@gmap) :=
  {| claims := ∅; validations := ∅; artifacts := ∅; testaments := ∅; evidence_sets := ∅;
     runs := ∅; monitors := ∅; identities := ∅; epochs := ∅; receipts := ∅ |}.

Module StateTable.
Inductive t :=
  | Claims | Validations | Artifacts | Testaments | EvidenceSets | Runs | Monitors
  | Identities | Epochs | Receipts.
Definition code (x : t) : N :=
  match x with
  | Claims => 0 | Validations => 1 | Artifacts => 2 | Testaments => 3 | EvidenceSets => 4
  | Runs => 5 | Monitors => 6 | Identities => 7 | Epochs => 8 | Receipts => 9
  end%N.
Definition ALL : list t :=
  [Claims; Validations; Artifacts; Testaments; EvidenceSets; Runs; Monitors; Identities; Epochs;
   Receipts].
#[export] Instance state_table_eq_dec : EqDecision t.
Proof. solve_decision. Defined.
#[export] Instance state_table_countable : Countable t.
Proof.
  apply (inj_countable code (λ n, ALL !! N.to_nat n)). by intros [].
Defined.
End StateTable.
Notation StateTable := StateTable.t.
Export (hints) StateTable.

(** One of the ten tables: which it is, how to read and replace it in a set
    of tables, and how its rows are serialized. *)
Record Sel (K V : Type) `{TableKey K} := {
  sel_table : StateTable;
  sel : ∀ T : TableImpl, Tables T → T K _ _ V;
  upd : ∀ T : TableImpl, T K _ _ V → Tables T → Tables T;
  ser : V → Serialized;
}.
Arguments sel_table {_ _ _ _ _} _.
Arguments sel {_ _ _ _ _} _ {_} _.
Arguments upd {_ _ _ _ _} _ {_} _ _.
Arguments ser {_ _ _ _ _} _ _.

Definition Claims : Sel ClaimId Claim := {|
  sel_table := StateTable.Claims; sel T := @claims T;
  upd T x t := {| claims := x; validations := validations t; artifacts := artifacts t;
    testaments := testaments t; evidence_sets := evidence_sets t; runs := runs t;
    monitors := monitors t; identities := identities t; epochs := epochs t; receipts := receipts t |};
  ser := SerClaim |}.
Definition Validations : Sel ValidationId Validation := {|
  sel_table := StateTable.Validations; sel T := @validations T;
  upd T x t := {| claims := claims t; validations := x; artifacts := artifacts t;
    testaments := testaments t; evidence_sets := evidence_sets t; runs := runs t;
    monitors := monitors t; identities := identities t; epochs := epochs t; receipts := receipts t |};
  ser := SerValidation |}.
Definition Artifacts : Sel ArtifactId Artifact := {|
  sel_table := StateTable.Artifacts; sel T := @artifacts T;
  upd T x t := {| claims := claims t; validations := validations t; artifacts := x;
    testaments := testaments t; evidence_sets := evidence_sets t; runs := runs t;
    monitors := monitors t; identities := identities t; epochs := epochs t; receipts := receipts t |};
  ser := SerArtifact |}.
Definition Testaments : Sel TestamentId Testament := {|
  sel_table := StateTable.Testaments; sel T := @testaments T;
  upd T x t := {| claims := claims t; validations := validations t; artifacts := artifacts t;
    testaments := x; evidence_sets := evidence_sets t; runs := runs t;
    monitors := monitors t; identities := identities t; epochs := epochs t; receipts := receipts t |};
  ser := SerTestament |}.
Definition EvidenceSets : Sel EvidenceSetId EvidenceSet := {|
  sel_table := StateTable.EvidenceSets; sel T := @evidence_sets T;
  upd T x t := {| claims := claims t; validations := validations t; artifacts := artifacts t;
    testaments := testaments t; evidence_sets := x; runs := runs t;
    monitors := monitors t; identities := identities t; epochs := epochs t; receipts := receipts t |};
  ser := SerEvidenceSet |}.
Definition Runs : Sel ValidationRunId ValidationRun := {|
  sel_table := StateTable.Runs; sel T := @runs T;
  upd T x t := {| claims := claims t; validations := validations t; artifacts := artifacts t;
    testaments := testaments t; evidence_sets := evidence_sets t; runs := x;
    monitors := monitors t; identities := identities t; epochs := epochs t; receipts := receipts t |};
  ser := SerRun |}.
Definition Monitors : Sel MonitorId Monitor := {|
  sel_table := StateTable.Monitors; sel T := @monitors T;
  upd T x t := {| claims := claims t; validations := validations t; artifacts := artifacts t;
    testaments := testaments t; evidence_sets := evidence_sets t; runs := runs t;
    monitors := x; identities := identities t; epochs := epochs t; receipts := receipts t |};
  ser := SerMonitor |}.
Definition Identities : Sel (ObjectKind * ContentHash) ObjectId := {|
  sel_table := StateTable.Identities; sel T := @identities T;
  upd T x t := {| claims := claims t; validations := validations t; artifacts := artifacts t;
    testaments := testaments t; evidence_sets := evidence_sets t; runs := runs t;
    monitors := monitors t; identities := x; epochs := epochs t; receipts := receipts t |};
  ser := SerObjectId |}.
Definition Epochs : Sel ParticipantId EpochWindow := {|
  sel_table := StateTable.Epochs; sel T := @epochs T;
  upd T x t := {| claims := claims t; validations := validations t; artifacts := artifacts t;
    testaments := testaments t; evidence_sets := evidence_sets t; runs := runs t;
    monitors := monitors t; identities := identities t; epochs := x; receipts := receipts t |};
  ser w := SerEpochWindow (ew_minimum w) (ew_admitted w) |}.
Definition Receipts : Sel RequestKey MutationReceipt := {|
  sel_table := StateTable.Receipts; sel T := @receipts T;
  upd T x t := {| claims := claims t; validations := validations t; artifacts := artifacts t;
    testaments := testaments t; evidence_sets := evidence_sets t; runs := runs t;
    monitors := monitors t; identities := identities t; epochs := epochs t; receipts := x |};
  ser := SerReceipt |}.

(** ** The workspace recorder

    The part of [Recorder] that decides whether an operation may continue: the
    byte allowance, the bytes reserved so far and the sticky failure flag. *)
Record Recorder := { byte_limit : option N; used_bytes : N; failed : bool }.
(** [Recorder::disabled] and [Recorder::bounded]. *)
Definition recorder_disabled : Recorder := {| byte_limit := None; used_bytes := 0; failed := false |}.
Definition recorder_bounded (max_bytes : N) : Recorder :=
  {| byte_limit := Some max_bytes; used_bytes := 0; failed := false |}.
Definition invalidate (rec : Recorder) : Recorder :=
  {| byte_limit := byte_limit rec; used_bytes := used_bytes rec; failed := true |}.
Definition reserve_bytes (bytes : N) (rec : Recorder) : bool * Recorder :=
  match byte_limit rec with
  | None => (true, rec)
  | Some limit =>
      match checked_add (used_bytes rec) bytes with
      | Some size =>
          if (size <=? limit)%N
          then (true, {| byte_limit := byte_limit rec; used_bytes := size; failed := failed rec |})
          else (false, invalidate rec)
      | None => (false, invalidate rec)
      end
  end.
Definition reserve_value `{External} (value : Serialized) (rec : Recorder) : bool * Recorder :=
  match byte_limit rec with
  | None => (true, rec)
  | Some _ =>
      match serialized_size value ≫= λ size, checked_mul size 32 ≫= λ size, checked_add size 512 with
      | Some size => reserve_bytes size rec
      | None => (false, invalidate rec)
      end
  end.

(** ** Storage interface *)
Notation Reserve V := (V → Recorder → bool * Recorder).
Class Backend (T : TableImpl) := {
  b_get : ∀ {K} `{TableKey K} {V}, T K _ _ V → K → option V;
  b_iter : ∀ {K} `{TableKey K} {V}, T K _ _ V → list (K * V);
  b_len : ∀ {K} `{TableKey K} {V}, T K _ _ V → option N;
  b_insert : ∀ {K} `{TableKey K} {V},
    Reserve V → K → V → T K _ _ V → Recorder → T K _ _ V * Recorder;
  b_get_mut : ∀ {K} `{TableKey K} {V},
    Reserve V → K → T K _ _ V → Recorder → option V * T K _ _ V * Recorder;
  b_put : ∀ {K} `{TableKey K} {V}, K → V → T K _ _ V → T K _ _ V;
}.

(** [Backing::Write]: the map itself. [b_put] is the store through the
    reference that [b_get_mut] returned. *)
#[export] Instance serial : Backend (@gmap) := {|
  b_get _ _ _ _ _ t k := t !! k;
  b_iter _ _ _ _ _ t := entries t;
  b_len _ _ _ _ _ t := Some (N.of_nat (size t));
  b_insert _ _ _ _ _ _ k v t rec := (<[k:=v]> t, rec);
  b_get_mut _ _ _ _ _ _ k t rec := (t !! k, t, rec);
  b_put _ _ _ _ _ k v t := match t !! k with Some _ => <[k:=v]> t | None => t end
|}.

(** [Backing::Overlay]: a committed base, the selected rows and added counts
    of the earlier versions, oldest first, and this entry's own rows. *)
Record OverlayTable (K : Type) `{Countable K} (V : Type) := {
  ov_base : gmap K V;
  ov_prior : list (gmap K V * N);
  ov_own : gmap K V;
  ov_added : N;
}.
Arguments ov_base {_ _ _ _} _.
Arguments ov_prior {_ _ _ _} _.
Arguments ov_own {_ _ _ _} _.
Arguments ov_added {_ _ _ _} _.

Section overlay_ops.
Context {K : Type} `{TableKey K} {V : Type}.
Implicit Types (t : OverlayTable K V).

Definition ov_set_own (own : gmap K V) (added : N) t : OverlayTable K V :=
  {| ov_base := ov_base t; ov_prior := ov_prior t; ov_own := own; ov_added := added |}.

(** The own row, else the newest earlier version's, else the base's. *)
Fixpoint newest (prior : list (gmap K V)) (k : K) : option V :=
  match prior with
  | [] => None
  | m :: older => match m !! k with Some v => Some v | None => newest older k end
  end.
Definition ov_get t (k : K) : option V :=
  match ov_own t !! k with
  | Some v => Some v
  | None =>
      match newest (reverse (ov_prior t).*1) k with
      | Some v => Some v
      | None => ov_base t !! k
      end
  end.

(** The first key of a map strictly after a position. *)
Definition beyond (after : option K) (k : K) : Prop :=
  match after with None => True | Some a => key_lt a k end.
#[export] Instance beyond_dec after k : Decision (beyond after k).
Proof. destruct after; apply _. Defined.
Definition first_after (after : option K) (m : gmap K V) : option K :=
  head (filter (beyond after) (entries m).*1).
Definition min_key (a b : option K) : option K :=
  match a, b with
  | Some x, Some y => if decide (key_le x y) then Some x else Some y
  | Some x, None => Some x
  | None, b => b
  end.
Definition ov_layers t : list (gmap K V) := ov_base t :: (ov_prior t).*1 ++ [ov_own t].
(** [next]: the least key after [after] over all layers, with its row. *)
Definition ov_next (after : option K) t : option (K * V) :=
  match foldr (λ m acc, min_key (first_after after m) acc) None (ov_layers t) with
  | None => None
  | Some k => match ov_get t k with Some v => Some (k, v) | None => None end
  end.
(** [Rows::next] until it answers nothing. *)
Fixpoint ov_rows (fuel : nat) (after : option K) t : list (K * V) :=
  match fuel with
  | O => []
  | S fuel =>
      match ov_next after t with
      | None => []
      | Some (k, v) => (k, v) :: ov_rows fuel (Some k) t
      end
  end.
Definition ov_iter t : list (K * V) :=
  ov_rows (S (sum_list (size <$> ov_layers t))) None t.
Definition ov_len t : option N :=
  foldl (λ acc version, acc ≫= λ sum, checked_add sum version.2)
    (Some (N.of_nat (size (ov_base t)))) (ov_prior t) ≫= λ sum, checked_add sum (ov_added t).
Definition ov_insert (reserve : Reserve V) (k : K) (v : V) t (rec : Recorder) :
    OverlayTable K V * Recorder :=
  let existed := bool_decide (is_Some (ov_get t k)) in
  let '(ok, rec) := reserve v rec in
  if ok then
    if existed then (ov_set_own (<[k:=v]> (ov_own t)) (ov_added t) t, rec)
    else match checked_add (ov_added t) 1 with
         | None => (t, invalidate rec)
         | Some next => (ov_set_own (<[k:=v]> (ov_own t)) next t, rec)
         end
  else (t, rec).
Definition ov_get_mut (reserve : Reserve V) (k : K) t (rec : Recorder) :
    option V * OverlayTable K V * Recorder :=
  match ov_own t !! k with
  | Some v => (Some v, t, rec)
  | None =>
      match ov_get t k with
      | None => (None, t, rec)
      | Some v =>
          let '(ok, rec) := reserve v rec in
          if ok then (Some v, ov_set_own (<[k:=v]> (ov_own t)) (ov_added t) t, rec)
          else (None, t, rec)
      end
  end.
Definition ov_put (k : K) (v : V) t : OverlayTable K V :=
  match ov_get t k with
  | Some _ => ov_set_own (<[k:=v]> (ov_own t)) (ov_added t) t
  | None => t
  end.
End overlay_ops.

#[export] Instance overlay : Backend (@OverlayTable) := {|
  b_get _ _ _ _ _ t k := ov_get t k;
  b_iter _ _ _ _ _ t := ov_iter t;
  b_len _ _ _ _ _ t := ov_len t;
  b_insert _ _ _ _ _ reserve k v t rec := ov_insert reserve k v t rec;
  b_get_mut _ _ _ _ _ reserve k t rec := ov_get_mut reserve k t rec;
  b_put _ _ _ _ _ k v t := ov_put k v t
|}.
