(* ===== verification/StoreLaws.v ===== *)
(** * What the storages promise

    The laws a storage owes the reducer, stated over the map a table denotes,
    and their proofs for the plain maps and for the row overlay of
    [crates/focal-core/src/overlay.rs]: lookups, ordered iteration by repeated
    [next] over the layers, checked row counts, and writes that either take
    effect or mark the workspace exhausted. *)
From stdpp Require Import prelude gmap strings sorting.
From Stdlib Require Import NArith.
From S2P Require Import Prelude Vocabulary Objects Canonical Store.

(** The allowance is fixed and a failure is never taken back. *)
Definition rec_le (rec rec' : Recorder) : Prop :=
  byte_limit rec' = byte_limit rec ∧ (failed rec = true → failed rec' = true).
#[export] Instance rec_le_po : PreOrder rec_le.
Proof. split; [intros ?; done|]. intros x y z [? ?] [? ?]. split; [congruence|auto]. Qed.

(** A reservation succeeds and keeps the failure flag, or raises it, which
    takes an allowance to exceed. *)
Definition honest {V} (reserve : Reserve V) : Prop :=
  ∀ v rec, rec_le rec (reserve v rec).2
    ∧ ((reserve v rec).1 = true ∧ failed (reserve v rec).2 = failed rec
       ∨ (reserve v rec).1 = false ∧ failed (reserve v rec).2 = true ∧ byte_limit rec ≠ None).
(** More rows than a [usize] counts. *)
Definition huge {A} `{Size A} (x : A) : Prop := (u64_max < N.of_nat (size x))%N.

Class BackendLaws (T : TableImpl) `{Backend T} := {
  b_view : ∀ {K} `{TableKey K} {V}, T K _ _ V → gmap K V;
  b_ok : ∀ {K} `{TableKey K} {V}, T K _ _ V → Prop;
  law_get : ∀ {K} `{TableKey K} {V} (t : T K _ _ V) k, b_ok t → b_get t k = b_view t !! k;
  law_iter : ∀ {K} `{TableKey K} {V} (t : T K _ _ V), b_ok t → b_iter t = entries (b_view t);
  law_len : ∀ {K} `{TableKey K} {V} (t : T K _ _ V), b_ok t →
    b_len t = Some (N.of_nat (size (b_view t))) ∨ b_len t = None ∧ huge (b_view t);
  law_insert_rec : ∀ {K} `{TableKey K} {V} (reserve : Reserve V) k v (t : T K _ _ V) rec,
    honest reserve → rec_le rec (b_insert reserve k v t rec).2;
  law_get_mut_rec : ∀ {K} `{TableKey K} {V} (reserve : Reserve V) k (t : T K _ _ V) rec,
    honest reserve → rec_le rec (b_get_mut reserve k t rec).2;
  law_insert : ∀ {K} `{TableKey K} {V} (reserve : Reserve V) k v (t : T K _ _ V) rec,
    honest reserve → b_ok t →
    let '(t', rec') := b_insert reserve k v t rec in
    failed rec' = true ∧ (byte_limit rec ≠ None ∨ huge (<[k:=v]> (b_view t)))
    ∨ failed rec' = failed rec ∧ b_ok t' ∧ b_view t' = <[k:=v]> (b_view t);
  law_get_mut : ∀ {K} `{TableKey K} {V} (reserve : Reserve V) k (t : T K _ _ V) rec,
    honest reserve → b_ok t →
    let '(x, t', rec') := b_get_mut reserve k t rec in
    failed rec' = true ∧ byte_limit rec ≠ None
    ∨ failed rec' = failed rec ∧ x = b_view t !! k ∧ b_ok t' ∧ b_view t' = b_view t;
  law_put : ∀ {K} `{TableKey K} {V} k v (t : T K _ _ V), b_ok t →
    b_ok (b_put k v t)
    ∧ b_view (b_put k v t) = match b_view t !! k with
                             | Some _ => <[k:=v]> (b_view t) | None => b_view t end;
  (* what a storage keeps fixed while it is written *)
  b_frame : ∀ {K} `{TableKey K} {V}, T K _ _ V → T K _ _ V → Prop;
  frame_po : ∀ {K} `{TableKey K} {V}, PreOrder (b_frame (K:=K) (V:=V));
  frame_insert : ∀ {K} `{TableKey K} {V} (reserve : Reserve V) k v (t : T K _ _ V) rec,
    b_frame t (b_insert reserve k v t rec).1;
  frame_get_mut : ∀ {K} `{TableKey K} {V} (reserve : Reserve V) k (t : T K _ _ V) rec,
    b_frame t (b_get_mut reserve k t rec).1.2;
  frame_put : ∀ {K} `{TableKey K} {V} k v (t : T K _ _ V), b_frame t (b_put k v t);
}.

#[export] Instance serial_laws : BackendLaws (@gmap).
Proof.
  refine {| b_view K _ _ _ V t := t; b_ok K _ _ _ V t := True; b_frame K _ _ _ V _ _ := True |};
    intros; simpl; try reflexivity; auto. by split.
Defined.

(** ** The overlay *)
Section overlay_laws.
Context {K : Type} `{TableKey K} {V : Type}.
Implicit Types (t : OverlayTable K V) (k : K) (v : V).

(** The rows below this entry's own, and the map the overlay denotes. *)
Definition ov_lower t : gmap K V := foldr (∪) (ov_base t) (reverse (ov_prior t).*1).
Definition ov_view t : gmap K V := ov_own t ∪ ov_lower t.
(** The added counts account exactly for the rows of the view. *)
Definition ov_ok t : Prop :=
  N.of_nat (size (ov_view t))
  = (N.of_nat (size (ov_base t)) + foldr N.add 0 (ov_prior t).*2 + ov_added t)%N.

Lemma newest_lookup (prior : list (gmap K V)) (base : gmap K V) k :
  foldr (∪) base prior !! k
  = match newest prior k with Some v => Some v | None => base !! k end.
Proof.
  induction prior as [|m prior IH]; simpl; [done|].
  rewrite lookup_union, IH. destruct (m !! k); simpl; [|by rewrite (left_id _ _)].
  by destruct (newest prior k), (base !! k).
Qed.
Lemma ov_get_view t k : ov_get t k = ov_view t !! k.
Proof.
  unfold ov_get, ov_view, ov_lower. rewrite lookup_union, newest_lookup.
  destruct (ov_own t !! k); simpl.
  - by destruct (newest _ k), (ov_base t !! k).
  - by rewrite (left_id _ _).
Qed.

Lemma dom_foldr_union (base : gmap K V) (prior : list (gmap K V)) k :
  k ∈ dom (foldr (∪) base prior) ↔ k ∈ dom base ∨ ∃ m, m ∈ prior ∧ k ∈ dom m.
Proof.
  induction prior as [|m prior IH]; simpl; [set_solver|].
  rewrite dom_union, elem_of_union, IH. set_solver.
Qed.
Lemma dom_view_layers t k : k ∈ dom (ov_view t) ↔ ∃ m, m ∈ ov_layers t ∧ k ∈ dom m.
Proof.
  unfold ov_view, ov_lower, ov_layers. rewrite dom_union, elem_of_union, dom_foldr_union.
  split.
  - intros [?|[?|[m [Hm%elem_of_reverse ?]]]]; [exists (ov_own t)|exists (ov_base t)|exists m];
      set_solver.
  - intros [m [[-> | [? | ->%list_elem_of_singleton]%elem_of_app]%elem_of_cons ?]]; [by right; left| |by left].
    right; right. exists m. by rewrite elem_of_reverse.
Qed.

Lemma head_filter_sorted (P : K → Prop) `{∀ k, Decision (P k)} (l : list (K * V)) :
  StronglySorted pair_lt l →
  match head (filter P l.*1) with
  | Some k => k ∈ l.*1 ∧ P k ∧ ∀ k', k' ∈ l.*1 → P k' → key_le k k'
  | None => ∀ k', k' ∈ l.*1 → ¬ P k'
  end.
Proof.
  induction l as [|[k v] l IH]; intros Hs; simpl; [set_solver|].
  apply StronglySorted_cons in Hs as [Hk Hs]. specialize (IH Hs).
  rewrite Forall_forall in Hk. rewrite filter_cons. case_decide; simpl.
  - split; [left|split; [done|]].
    intros k' [->|[[? v'] [-> Hin]]%list_elem_of_fmap]%elem_of_cons _; [done|].
    apply (Hk _ Hin).
  - destruct (head _) as [k'|] eqn:Hh; rewrite ?Hh in IH; set_solver.
Qed.
Lemma first_after_spec after (m : gmap K V) :
  match first_after after m with
  | Some k => k ∈ dom m ∧ beyond after k ∧ ∀ k', k' ∈ dom m → beyond after k' → key_le k k'
  | None => ∀ k', k' ∈ dom m → ¬ beyond after k'
  end.
Proof.
  pose proof (head_filter_sorted (beyond after) (entries m) (entries_strict m)) as Hh.
  unfold first_after. destruct (head _) as [k|]; setoid_rewrite elem_of_entries_fst in Hh; done.
Qed.

Lemma fold_min_spec after (layers : list (gmap K V)) :
  match foldr (λ m acc, min_key (first_after after m) acc) None layers with
  | Some k => (∃ m, m ∈ layers ∧ k ∈ dom m) ∧ beyond after k
              ∧ ∀ m k', m ∈ layers → k' ∈ dom m → beyond after k' → key_le k k'
  | None => ∀ m k', m ∈ layers → k' ∈ dom m → ¬ beyond after k'
  end.
Proof.
  induction layers as [|m layers IH]; simpl; [set_solver|].
  pose proof (first_after_spec after m) as Hm.
  destruct (first_after after m) as [x|], (foldr _ _ _) as [y|]; simpl; [|set_solver..].
  destruct Hm as (? & ? & Hx), IH as (? & ? & Hy).
  case_decide as Hxy; (split; [set_solver|split; [done|]]);
    intros m' k' [->|Hin]%elem_of_cons Hd Hb; eauto.
  - etrans; eauto.
  - etrans; [|by apply Hx]. apply key_nlt. intros [? _]. done.
Qed.
Lemma ov_next_spec after t :
  match ov_next after t with
  | Some (k, v) => ov_view t !! k = Some v ∧ beyond after k
                   ∧ ∀ k', k' ∈ dom (ov_view t) → beyond after k' → key_le k k'
  | None => ∀ k', k' ∈ dom (ov_view t) → ¬ beyond after k'
  end.
Proof.
  unfold ov_next. pose proof (fold_min_spec after (ov_layers t)) as Hf.
  destruct (foldr _ _ _) as [k|].
  - destruct Hf as (Hin & ? & Hmin). apply dom_view_layers, elem_of_dom in Hin as [v Hv].
    rewrite ov_get_view, Hv. split; [done|split; [done|]].
    intros k' [m [? ?]]%dom_view_layers ?. eauto.
  - intros k' [m [? ?]]%dom_view_layers. eauto.
Qed.

Definition rest (after : option K) t : gset K := filter (beyond after) (dom (ov_view t)).

Lemma beyond_after after k k' : beyond after k → beyond (Some k) k' → beyond after k'.
Proof. destruct after; simpl; [apply key_lt_trans|done]. Qed.
Lemma rest_next after k t :
  k ∈ dom (ov_view t) → beyond after k →
  (∀ k', k' ∈ dom (ov_view t) → beyond after k' → key_le k k') →
  rest after t = {[k]} ∪ rest (Some k) t ∧ k ∉ rest (Some k) t.
Proof.
  intros Hk Hb Hmin. unfold rest. split.
  - apply set_eq. intros k'. rewrite elem_of_union, !elem_of_filter, elem_of_singleton. split.
    + intros [Hb' Hd]. destruct (decide (k' = k)) as [->|]; [by left|right].
      split; [|done]. split; [by apply Hmin|done].
    + intros [->|[? ?]]; [done|]. split; [by eapply beyond_after|done].
  - rewrite elem_of_filter. intros [[_ ?] _]. done.
Qed.
Lemma ov_rows_spec fuel after t :
  size (rest after t) < fuel →
  StronglySorted pair_lt (ov_rows fuel after t)
  ∧ ∀ k v, (k, v) ∈ ov_rows fuel after t ↔ ov_view t !! k = Some v ∧ beyond after k.
Proof.
  revert after. induction fuel as [|fuel IH]; intros after Hf; [lia|].
  simpl. pose proof (ov_next_spec after t) as Hn. destruct (ov_next after t) as [[k v]|].
  - destruct Hn as (Hv & Hb & Hmin).
    destruct (rest_next after k t) as [Hr Hnin]; [by apply elem_of_dom_2 in Hv|done..|].
    rewrite Hr, size_union, size_singleton in Hf by set_solver.
    destruct (IH (Some k)) as [Hs Hel]; [lia|]. split.
    + apply StronglySorted_cons. split; [|done]. rewrite Forall_forall.
      intros [k' v'] [_ Hb']%Hel. done.
    + intros k' v'. rewrite elem_of_cons, Hel. split.
      * intros [[= -> ->]|[? ?]]; [done|]. split; [done|]. by eapply beyond_after.
      * intros [Hv' Hb']. destruct (decide (k' = k)) as [->|]; [left; congruence|].
        right. split; [done|]. split; [|done]. apply Hmin; [by apply elem_of_dom_2 in Hv'|done].
  - split; [constructor|]. intros k v. split; [by intros ?%not_elem_of_nil|].
    intros [Hv Hb]. exfalso. eapply Hn; [|done]. by apply elem_of_dom_2 in Hv.
Qed.
Lemma size_dom_foldr (prior : list (gmap K V)) (base : gmap K V) :
  size (dom (foldr (∪) base prior)) ≤ size base + sum_list (size <$> prior).
Proof.
  induction prior as [|m prior IH]; csimpl; [rewrite size_dom; lia|].
  rewrite dom_union_L.
  pose proof (size_union_alt (dom m) (dom (foldr (∪) base prior))) as Hu.
  pose proof (subseteq_size (dom (foldr (∪) base prior) ∖ dom m) (dom (foldr (∪) base prior))) as Hs.
  rewrite Hu, size_dom. specialize (Hs ltac:(set_solver)). lia.
Qed.
Lemma size_view_layers t : size (rest None t) ≤ sum_list (size <$> ov_layers t).
Proof.
  transitivity (size (dom (ov_view t))); [apply subseteq_size; unfold rest; set_solver|].
  pose proof (size_dom_foldr (ov_own t :: reverse (ov_prior t).*1) (ov_base t)) as Hs.
  csimpl in Hs. rewrite fmap_reverse, sum_list_with_reverse in Hs.
  unfold ov_view, ov_lower, ov_layers. csimpl.
  rewrite fmap_app, sum_list_with_app. csimpl. lia.
Qed.
Lemma ov_iter_view t : ov_iter t = entries (ov_view t).
Proof.
  unfold ov_iter. pose proof (size_view_layers t).
  destruct (ov_rows_spec (S (sum_list (size <$> ov_layers t))) None t) as [Hs Hel]; [lia|].
  apply entries_unique; [done|]. intros k v. rewrite Hel. naive_solver.
Qed.

(** Checked row counts. *)
Lemma checked_add_None a b : checked_add a b = None → (u64_max < a + b)%N.
Proof. unfold checked_add. case_match eqn:Hc; [done|]. intros _. by apply N.leb_gt. Qed.
Lemma ov_len_fold (prior : list (gmap K V * N)) (acc : N) :
  let sum := foldl (λ acc version, acc ≫= λ sum, checked_add sum version.2) (Some acc) prior in
  sum = Some (acc + foldr N.add 0 prior.*2)%N
  ∨ sum = None ∧ (u64_max < acc + foldr N.add 0 prior.*2)%N.
Proof.
  simpl. revert acc. induction prior as [|[m n] prior IH]; intros acc; simpl.
  { left. f_equal. lia. }
  destruct (checked_add acc n) as [c|] eqn:Hc.
  - apply checked_add_Some in Hc as [-> _]. rewrite N.add_assoc. apply IH.
  - right. apply checked_add_None in Hc. split; [clear; by induction prior|lia].
Qed.
Lemma ov_len_view t : ov_ok t →
  ov_len t = Some (N.of_nat (size (ov_view t))) ∨ ov_len t = None ∧ huge (ov_view t).
Proof.
  intros Hok. unfold ov_len, huge. rewrite Hok.
  destruct (ov_len_fold (ov_prior t) (N.of_nat (size (ov_base t)))) as [-> | [-> ?]]; simpl.
  - destruct (checked_add _ _) as [c|] eqn:Hc.
    + apply checked_add_Some in Hc as [-> _]. by left.
    + apply checked_add_None in Hc. by right.
  - right. split; [done|lia].
Qed.

(** Writing an own row: the view takes the row, and the count follows when the
    row is new. *)
Lemma ov_view_own own added t : ov_view (ov_set_own own added t) = own ∪ ov_lower t.
Proof. done. Qed.
Lemma ov_insert_ok k v added t :
  ov_ok t → added = (if decide (is_Some (ov_view t !! k)) then ov_added t else ov_added t + 1)%N →
  let t' := ov_set_own (<[k:=v]> (ov_own t)) added t in
  ov_ok t' ∧ ov_view t' = <[k:=v]> (ov_view t).
Proof.
  intros Hok Hadd t'. assert (Hv : ov_view t' = <[k:=v]> (ov_view t)).
  { unfold t'. rewrite ov_view_own. unfold ov_view. by rewrite insert_union_l. }
  split; [|done]. unfold ov_ok in *. rewrite Hv. unfold t'. simpl. rewrite Hadd. case_decide as Hs.
  - destruct Hs as [x Hx]. rewrite map_size_insert_Some by eauto. lia.
  - rewrite map_size_insert_None by (by apply eq_None_not_Some). lia.
Qed.
Lemma ov_insert_rec (reserve : Reserve V) k v t rec :
  honest reserve → rec_le rec (ov_insert reserve k v t rec).2.
Proof.
  intros Hh. unfold ov_insert. destruct (Hh v rec) as [[? ?] _].
  destruct (reserve v rec) as [[] rec']; [|done]. case_bool_decide; [done|]. by case_match.
Qed.
Lemma ov_insert_law (reserve : Reserve V) k v t rec :
  honest reserve → ov_ok t →
  let '(t', rec') := ov_insert reserve k v t rec in
  failed rec' = true ∧ (byte_limit rec ≠ None ∨ huge (<[k:=v]> (ov_view t)))
  ∨ failed rec' = failed rec ∧ ov_ok t' ∧ ov_view t' = <[k:=v]> (ov_view t).
Proof.
  intros Hh Hok. unfold ov_insert. destruct (Hh v rec) as [_ Hr].
  destruct (reserve v rec) as [ok rec']; simpl in Hr. rewrite ov_get_view.
  destruct Hr as [[-> ?]|[-> ?]]; [|left; naive_solver]. case_bool_decide as Hs.
  - right. split; [done|]. apply ov_insert_ok; [done|]. by rewrite decide_True.
  - destruct (checked_add (ov_added t) 1) as [c|] eqn:Hc.
    + apply checked_add_Some in Hc as [-> _]. right. split; [done|].
      apply ov_insert_ok; [done|]. by rewrite decide_False.
    + left. split; [done|]. right. apply checked_add_None in Hc. unfold huge, ov_ok in *.
      rewrite map_size_insert_None by (by apply eq_None_not_Some). lia.
Qed.
Lemma ov_rewrite_ok k v t :
  ov_ok t → ov_view t !! k = Some v →
  let t' := ov_set_own (<[k:=v]> (ov_own t)) (ov_added t) t in ov_ok t' ∧ ov_view t' = ov_view t.
Proof.
  intros Hok Hv t'. destruct (ov_insert_ok k v (ov_added t) t) as [? Hv']; [done| |].
  - rewrite decide_True; [done|eauto].
  - split; [done|]. unfold t'. rewrite Hv'. by apply insert_id.
Qed.
Lemma ov_get_mut_rec (reserve : Reserve V) k t rec :
  honest reserve → rec_le rec (ov_get_mut reserve k t rec).2.
Proof.
  intros Hh. unfold ov_get_mut. destruct (ov_own t !! k); [done|].
  destruct (ov_get t k) as [v|]; [|done]. destruct (Hh v rec) as [? _].
  by destruct (reserve v rec) as [[] rec'].
Qed.
Lemma ov_get_mut_law (reserve : Reserve V) k t rec :
  honest reserve → ov_ok t →
  let '(x, t', rec') := ov_get_mut reserve k t rec in
  failed rec' = true ∧ byte_limit rec ≠ None
  ∨ failed rec' = failed rec ∧ x = ov_view t !! k ∧ ov_ok t' ∧ ov_view t' = ov_view t.
Proof.
  intros Hh Hok. unfold ov_get_mut. destruct (ov_own t !! k) as [v|] eqn:Hown.
  { right. split_and!; [done| |done..]. rewrite <-ov_get_view. unfold ov_get. by rewrite Hown. }
  rewrite ov_get_view. destruct (ov_view t !! k) as [v|] eqn:Hv; [|by right].
  destruct (Hh v rec) as [_ Hr]. destruct (reserve v rec) as [ok rec']; simpl in Hr.
  destruct Hr as [[-> ?]|[-> ?]]; [|by left]. right. split_and!; [done..| |]; by apply ov_rewrite_ok.
Qed.
Lemma ov_put_law k v t :
  ov_ok t →
  ov_ok (ov_put k v t)
  ∧ ov_view (ov_put k v t) = match ov_view t !! k with
                             | Some _ => <[k:=v]> (ov_view t) | None => ov_view t end.
Proof.
  intros Hok. unfold ov_put. rewrite ov_get_view. destruct (ov_view t !! k) eqn:Hk; [|done].
  apply ov_insert_ok; [done|]. rewrite decide_True; [done|eauto].
Qed.
(** The base and the earlier versions are only read. *)
Definition ov_frame t t' : Prop := ov_base t' = ov_base t ∧ ov_prior t' = ov_prior t.
#[export] Instance ov_frame_po : PreOrder ov_frame.
Proof. split; [done|]. intros ??? [? ?] [? ?]. split; congruence. Qed.
Lemma ov_insert_frame (reserve : Reserve V) k v t rec : ov_frame t (ov_insert reserve k v t rec).1.
Proof. unfold ov_insert. by repeat case_match. Qed.
Lemma ov_get_mut_frame (reserve : Reserve V) k t rec : ov_frame t (ov_get_mut reserve k t rec).1.2.
Proof. unfold ov_get_mut. by repeat case_match. Qed.
Lemma ov_put_frame k v t : ov_frame t (ov_put k v t).
Proof. unfold ov_put. by repeat case_match. Qed.
End overlay_laws.

#[export] Instance overlay_laws : BackendLaws (@OverlayTable) := {|
  b_view K _ _ _ V t := ov_view t;
  b_ok K _ _ _ V t := ov_ok t;
  law_get K _ _ _ V t k _ := ov_get_view t k;
  law_iter K _ _ _ V t _ := ov_iter_view t;
  law_len K _ _ _ V t := ov_len_view t;
  law_insert_rec K _ _ _ V := ov_insert_rec;
  law_get_mut_rec K _ _ _ V := ov_get_mut_rec;
  law_insert K _ _ _ V := ov_insert_law;
  law_get_mut K _ _ _ V := ov_get_mut_law;
  law_put K _ _ _ V := ov_put_law;
  b_frame K _ _ _ V := ov_frame;
  frame_po K _ _ _ V := ov_frame_po;
  frame_insert K _ _ _ V := ov_insert_frame;
  frame_get_mut K _ _ _ V := ov_get_mut_frame;
  frame_put K _ _ _ V := ov_put_frame;
|}.

(** The engine's own reservation is honest. *)
Lemma reserve_bytes_honest n rec :
  rec_le rec (reserve_bytes n rec).2
  ∧ ((reserve_bytes n rec).1 = true ∧ failed (reserve_bytes n rec).2 = failed rec
     ∨ (reserve_bytes n rec).1 = false ∧ failed (reserve_bytes n rec).2 = true ∧ byte_limit rec ≠ None).
Proof. unfold reserve_bytes, rec_le. repeat case_match; simpl; split_and!; auto. Qed.
Lemma reserve_value_honest `{External} {V} (f : V → Serialized) : honest (λ v, reserve_value (f v)).
Proof.
  intros v rec. unfold reserve_value. destruct (byte_limit rec) eqn:Hl; [|by split; [|left]].
  rewrite <-Hl. case_match; [apply reserve_bytes_honest|].
  split; [done|right]. split_and!; [done..|congruence].
Qed.

(** * The ten tables as one family

    Relations between two sets of tables, pointwise, and what each table
    selector promises about them. *)
Notation TableRel T T' :=
  (∀ (K : Type) (E : EqDecision K) (C : Countable K) (k : TableKey K) (V : Type),
     T K E C V → T' K E C V → Prop).

Definition tall2 {T T' : TableImpl} (R : TableRel T T') (t : Tables T) (t' : Tables T') : Prop :=
  R _ _ _ _ _ (claims t) (claims t') ∧ R _ _ _ _ _ (validations t) (validations t')
  ∧ R _ _ _ _ _ (artifacts t) (artifacts t') ∧ R _ _ _ _ _ (testaments t) (testaments t')
  ∧ R _ _ _ _ _ (evidence_sets t) (evidence_sets t') ∧ R _ _ _ _ _ (runs t) (runs t')
  ∧ R _ _ _ _ _ (monitors t) (monitors t') ∧ R _ _ _ _ _ (identities t) (identities t')
  ∧ R _ _ _ _ _ (epochs t) (epochs t') ∧ R _ _ _ _ _ (receipts t) (receipts t').

(** A selector reads one component of the family and replaces only it. *)
Class SelOk {K V} `{TableKey K} (s : Sel K V) := {
  sel_upd : ∀ (T : TableImpl) (x : T K _ _ V) t, sel s (upd s x t) = x;
  upd_sel : ∀ (T : TableImpl) (t : Tables T), upd s (sel s t) t = t;
  tall2_sel : ∀ (T T' : TableImpl) (R : TableRel T T') t t',
    tall2 R t t' → R _ _ _ _ _ (sel s t) (sel s t');
  tall2_upd : ∀ (T T' : TableImpl) (R : TableRel T T') t t' x x',
    tall2 R t t' → R _ _ _ _ _ x x' → tall2 R (upd s x t) (upd s x' t');
}.
#[export] Instance Claims_ok : SelOk Claims.
Proof. split; unfold tall2; simpl; [done|by intros ? []|tauto..]. Qed.
#[export] Instance Validations_ok : SelOk Validations.
Proof. split; unfold tall2; simpl; [done|by intros ? []|tauto..]. Qed.
#[export] Instance Artifacts_ok : SelOk Artifacts.
Proof. split; unfold tall2; simpl; [done|by intros ? []|tauto..]. Qed.
#[export] Instance Testaments_ok : SelOk Testaments.
Proof. split; unfold tall2; simpl; [done|by intros ? []|tauto..]. Qed.
#[export] Instance EvidenceSets_ok : SelOk EvidenceSets.
Proof. split; unfold tall2; simpl; [done|by intros ? []|tauto..]. Qed.
#[export] Instance Runs_ok : SelOk Runs.
Proof. split; unfold tall2; simpl; [done|by intros ? []|tauto..]. Qed.
#[export] Instance Monitors_ok : SelOk Monitors.
Proof. split; unfold tall2; simpl; [done|by intros ? []|tauto..]. Qed.
#[export] Instance Identities_ok : SelOk Identities.
Proof. split; unfold tall2; simpl; [done|by intros ? []|tauto..]. Qed.
#[export] Instance Epochs_ok : SelOk Epochs.
Proof. split; unfold tall2; simpl; [done|by intros ? []|tauto..]. Qed.
#[export] Instance Receipts_ok : SelOk Receipts.
Proof. split; unfold tall2; simpl; [done|by intros ? []|tauto..]. Qed.

Section family.
Context {T : TableImpl}.
Implicit Types (R : TableRel T T).

Lemma tall2_refl R t : (∀ K E C k V x, R K E C k V x x) → tall2 R t t.
Proof. intros HR. split_and!; apply HR. Qed.
Lemma tall2_trans R t1 t2 t3 :
  (∀ K E C k V x y z, R K E C k V x y → R K E C k V y z → R K E C k V x z) →
  tall2 R t1 t2 → tall2 R t2 t3 → tall2 R t1 t3.
Proof.
  intros HR (?&?&?&?&?&?&?&?&?&?) (?&?&?&?&?&?&?&?&?&?). split_and!; eapply HR; eassumption.
Qed.
Lemma tall2_upd_r {K V} `{TableKey K} (s : Sel K V) `{!SelOk s} R t x :
  (∀ K E C k V x, R K E C k V x x) → R _ _ _ _ _ (sel s t) x → tall2 R t (upd s x t).
Proof.
  intros HR Hx. rewrite <-(upd_sel (s:=s) T t) at 1. apply tall2_upd; [by apply tall2_refl|done].
Qed.
End family.

(** ** Plain tables *)
(** A table only grows: rows are never removed. *)
Definition grows_rel : TableRel (@gmap) (@gmap) := λ K _ _ _ V m m', dom m ⊆ dom m'.
Definition grows : Tables (@gmap) → Tables (@gmap) → Prop := tall2 grows_rel.
Definition fits_rel : TableRel (@gmap) (@gmap) := λ K _ _ _ V m _, ¬ huge m.
(** Every table's row count is a [usize]. *)
Definition fits (t : Tables (@gmap)) : Prop := tall2 fits_rel t t.

#[export] Instance fits_dec t : Decision (fits t).
Proof. unfold fits, tall2, fits_rel, huge. apply _. Defined.

#[export] Instance grows_po : PreOrder grows.
Proof.
  split.
  - intros t. apply tall2_refl. unfold grows_rel. set_solver.
  - intros t1 t2 t3. apply tall2_trans. unfold grows_rel. set_solver.
Qed.
Lemma grows_huge `{Countable K} {V} (m m' : gmap K V) : dom m ⊆ dom m' → huge m → huge m'.
Proof. unfold huge. rewrite <-!size_dom. intros ?%subseteq_size. lia. Qed.
Lemma grows_fits t t' : grows t t' → fits t' → fits t.
Proof.
  intros (?&?&?&?&?&?&?&?&?&?) (?&?&?&?&?&?&?&?&?&?).
  split_and!; unfold fits_rel, grows_rel in *; eauto using grows_huge.
Qed.
Lemma huge_not_fits {K V} `{TableKey K} (s : Sel K V) `{!SelOk s} t : huge (sel s t) → ¬ fits t.
Proof. intros Hh Hf. apply (tall2_sel (s:=s)) in Hf. by apply Hf. Qed.
Lemma grows_insert {K V} `{TableKey K} (s : Sel K V) `{!SelOk s} t k v :
  grows t (upd s (<[k:=v]> (sel s t)) t).
Proof.
  apply (tall2_upd_r s grows_rel); unfold grows_rel; [done|]. rewrite dom_insert. set_solver.
Qed.

(** ** The tables a storage denotes *)
Section views.
Context {T : TableImpl} `{BackendLaws T}.
Definition views_rel : TableRel T (@gmap) := λ K _ _ _ V t m, b_ok t ∧ b_view t = m.
Definition views : Tables T → Tables (@gmap) → Prop := tall2 views_rel.
Definition frame_rel : TableRel T T := λ K _ _ _ V, b_frame.
Definition frame : Tables T → Tables T → Prop := tall2 frame_rel.
#[export] Instance tables_frame_po : PreOrder frame.
Proof.
  split.
  - intros t. apply tall2_refl. intros. unfold frame_rel. by apply frame_po.
  - intros t1 t2 t3. apply tall2_trans. intros K E C k V x y z. unfold frame_rel.
    by apply frame_po.
Qed.
Lemma frame_upd {K V} `{TableKey K} (s : Sel K V) `{!SelOk s} t x :
  b_frame (sel s t) x → frame t (upd s x t).
Proof.
  intros Hx. apply (tall2_upd_r s frame_rel); [|done]. intros. unfold frame_rel. by apply frame_po.
Qed.
End views.
