(* ===== verification/Reducer.v ===== *)
(** * The reducer's machine

    [Reducer] of [crates/focal-core/src/reduce.rs] as a state and error monad
    over any storage, the table accesses of [access.rs] it performs, and the
    small operations every command shares (output, lookup, authority, status
    transition).

    A domain refusal is a value of [Stop]; the state it leaves behind is
    dropped by every caller except for the recorder. [OutOfFuel] marks a loop
    that used up its bound; [Termination.v] proves that no command ends with
    it. *)
From stdpp Require Import prelude gmap strings pretty.
From Stdlib Require Import NArith.
From S2P Require Import Prelude Vocabulary Objects Canonical Store.

(** ** The monad *)
Inductive Stop := Domain (outcome : DomainOutcome) | OutOfFuel.

Record Reducer (T : TableImpl) := {
  rd_rows : Tables T;
  rd_rec : Recorder;
  rd_deltas : list Delta;
  rd_effects : list EffectIntent;
}.
Arguments rd_rows {_} _.
Arguments rd_rec {_} _.
Arguments rd_deltas {_} _.
Arguments rd_effects {_} _.

(** The fields of [Reducer] that an execution never changes: the ledger of its
    state, the limits, the domain input without its command, the sequence. *)
Class Ctx := {
  cx_ledger : LedgerId;
  cx_limits : Limits;
  cx_principal : ParticipantId;
  cx_authority : AuthorityContext;
  cx_legacy_epoch : option RequestEpoch;
  cx_sequence : SessionSeq;
}.

Definition M (T : TableImpl) (A : Type) : Type := Reducer T → Result A Stop * Reducer T.
#[export] Instance M_ret {T} : MRet (M T) := λ A a r, (Ok a, r).
#[export] Instance M_bind {T} : MBind (M T) := λ A B f m r,
  match m r with
  | (Ok a, r) => f a r
  | (Err e, r) => (Err e, r)
  end.

Section machine.
Context `{External} {T : TableImpl} `{Backend T}.
Implicit Types (r : Reducer T).

Definition stop {A} (o : DomainOutcome) : M T A := λ r, (Err (Domain o), r).
Definition out_of_fuel {A} : M T A := λ r, (Err OutOfFuel, r).
Definition refuse {A} (code : ErrorCode) (detail : string) : M T A :=
  stop (DomainOutcome.Refuse code detail).
Definition inform {A} (claim : ClaimId) (reason : InformReason) : M T A :=
  stop (DomainOutcome.Inform (Some claim) reason).
Definition refuse_if (b : bool) (code : ErrorCode) (detail : string) : M T unit :=
  if b then refuse code detail else mret tt.
Definition inform_if (b : bool) (claim : ClaimId) (reason : InformReason) : M T unit :=
  if b then inform claim reason else mret tt.
(** [ok_or_else(|| refuse(..))?]. *)
Definition ok_or {A} (x : option A) (code : ErrorCode) (detail : string) : M T A :=
  match x with Some a => mret a | None => refuse code detail end.
Definition lift_hash {A} (x : Result A CanonicalError) : M T A :=
  match x with Ok a => mret a | Err e => stop (outcome_of_canonical e) end.

(** [for x in l { f(x)?; }] and the fold of a [for] loop with an accumulator. *)
Fixpoint mfor {A} (l : list A) (f : A → M T unit) : M T unit :=
  match l with
  | [] => mret tt
  | x :: l => f x;; mfor l f
  end.
Fixpoint mfold {A S} (f : S → A → M T S) (l : list A) (s : S) : M T S :=
  match l with
  | [] => mret s
  | x :: l => s ← f s x; mfold f l s
  end.
(** [iter().all(..)], stopping at the first failure. *)
Fixpoint mall {A} (f : A → M T bool) (l : list A) : M T bool :=
  match l with
  | [] => mret true
  | x :: l => b ← f x; if b : bool then mall f l else mret false
  end.
(** [loop]: run [body] from [s] until it yields a result. The body runs at
    least [fuel] times before the bound is used up. *)
Fixpoint loop_pow {S A} (n : nat) (body : S → M T (S + A)) (s : S) : M T (S + A) :=
  match n with
  | O => body s
  | S n =>
      x ← loop_pow n body s;
      match x with
      | inl s => loop_pow n body s
      | inr a => mret (inr a)
      end
  end.
Definition mloop {S A} (fuel : N) (body : S → M T (S + A)) (s : S) : M T A :=
  x ← loop_pow (N.size_nat fuel) body s;
  match x with inl _ => out_of_fuel | inr a => mret a end.

(** ** Workspace and tables *)
Definition with_rec {A} (f : Recorder → A * Recorder) : M T A := λ r,
  let '(a, rec) := f (rd_rec r) in
  (Ok a, {| rd_rows := rd_rows r; rd_rec := rec; rd_deltas := rd_deltas r; rd_effects := rd_effects r |}).

Definition scratch (items : N) : M T unit :=
  match checked_mul items 128 with
  | Some bytes =>
      ok ← with_rec (reserve_bytes bytes);
      if ok : bool then mret tt else
        with_rec (λ rec, (tt, invalidate rec));;
        refuse ErrorCode.Capacity "reducer scratch workspace exhausted"
  | None =>
      with_rec (λ rec, (tt, invalidate rec));;
      refuse ErrorCode.Capacity "reducer scratch workspace exhausted"
  end.
(** [scratch(..).is_err()], which keeps the recorder's failure. *)
Definition scratch_ok (items : N) : M T bool := λ r,
  match scratch items r with
  | (Ok _, r) => (Ok true, r)
  | (Err _, r) => (Ok false, r)
  end.
Definition check_capacity : M T unit :=
  failed ← with_rec (λ rec, (failed rec, rec));
  refuse_if failed ErrorCode.Capacity "reducer workspace exhausted".
Definition charge (value : Serialized) : M T unit :=
  ok ← with_rec (reserve_value value);
  refuse_if (negb ok) ErrorCode.Capacity "owned row/output workspace exhausted".

Section tables.
Context {K V : Type} `{TableKey K} (s : Sel K V).

Definition reserve_row (v : V) (rec : Recorder) : bool * Recorder := reserve_value (ser s v) rec.
Definition set_table (t : T K _ _ V) (rec : Recorder) (r : Reducer T) : Reducer T :=
  {| rd_rows := upd s t (rd_rows r); rd_rec := rec;
     rd_deltas := rd_deltas r; rd_effects := rd_effects r |}.

Definition tget (k : K) : M T (option V) := λ r, (Ok (b_get (sel s (rd_rows r)) k), r).
Definition contains_key (k : K) : M T bool :=
  x ← tget k; mret (bool_decide (is_Some x)).
Definition get_owned (k : K) : M T (option V) :=
  x ← tget k;
  match x with
  | None => mret None
  | Some value =>
      ok ← with_rec (reserve_row value);
      if ok : bool then mret (Some value)
      else refuse ErrorCode.Capacity "owned row workspace exhausted"
  end.
Definition titer : M T (list (K * V)) := λ r, (Ok (b_iter (sel s (rd_rows r))), r).
Definition tlen : M T N := λ r,
  match b_len (sel s (rd_rows r)) with
  | Some n => (Ok n, r)
  | None =>
      (Ok u64_max, {| rd_rows := rd_rows r; rd_rec := invalidate (rd_rec r);
                      rd_deltas := rd_deltas r; rd_effects := rd_effects r |})
  end.
Definition tinsert (k : K) (v : V) : M T unit := λ r,
  let '(t, rec) := b_insert reserve_row k v (sel s (rd_rows r)) (rd_rec r) in
  (Ok tt, set_table t rec r).
Definition tget_mut (k : K) : M T (option V) := λ r,
  let '(x, t, rec) := b_get_mut reserve_row k (sel s (rd_rows r)) (rd_rec r) in
  (Ok x, set_table t rec r).
(** The assignment through the reference [tget_mut] returned. *)
Definition tput (k : K) (v : V) : M T unit := λ r,
  (Ok tt, set_table (b_put k v (sel s (rd_rows r))) (rd_rec r) r).
End tables.

(** ** Shared operations *)
Context {cx : Ctx}.

Definition push_effect (effect : EffectIntent) : M T unit := λ r,
  (Ok tt, {| rd_rows := rd_rows r; rd_rec := rd_rec r; rd_deltas := rd_deltas r;
             rd_effects := rd_effects r ++ [effect] |}).
Definition push_delta (delta : Delta) : M T unit := λ r,
  (Ok tt, {| rd_rows := rd_rows r; rd_rec := rd_rec r; rd_deltas := rd_deltas r ++ [delta];
             rd_effects := rd_effects r |}).
Definition delta_count : M T N := λ r, (Ok (N.of_nat (length (rd_deltas r))), r).
Definition effect (effect : EffectIntent) : M T unit :=
  charge (SerEffect effect);;
  push_effect effect.
Definition emit (claim : option ClaimId) (action : LifecycleAction) (fact : DeltaFact) : M T unit :=
  len ← delta_count;
  ordinal ← ok_or (try_u32 len) ErrorCode.Capacity "delta ordinal exhausted";
  let delta := {|
    de_schema := SCHEMA;
    de_id := {| d_ledger := cx_ledger; d_sequence := cx_sequence; d_ordinal := ordinal |};
    de_action := action; de_actor := cx_principal; de_claim := claim; de_fact := fact |} in
  charge (SerDelta delta);;
  push_delta delta.
(** [Reducer::claim]: a charged copy of the row. *)
Definition get_claim (id : ClaimId) : M T Claim :=
  x ← tget Claims id;
  claim ← ok_or x ErrorCode.UnknownObject "unknown claim";
  charge (SerClaim claim);;
  mret claim.
Definition runtime : M T unit :=
  refuse_if (negb (au_runtime cx_authority)) ErrorCode.WrongActor "runtime authority required".
Definition allowed (id : ClaimId) (statuses : list ClaimStatus) : M T Claim :=
  claim ← get_claim id;
  let status := cl_status (lifecycle claim) in
  inform_if (is_terminal status) id (InformReason.Terminal status);;
  inform_if (bool_decide (status ∉ statuses)) id (InformReason.Status status);;
  mret claim.
Definition active_statuses : list ClaimStatus :=
  [ClaimStatus.Generated; ClaimStatus.Posted; ClaimStatus.Received; ClaimStatus.Progressed;
   ClaimStatus.TestamentGenerated; ClaimStatus.TestamentAcknowledged; ClaimStatus.Validating].
Definition active (id : ClaimId) : M T Claim := allowed id active_statuses.
Definition holder (claim : Claim) (fence : ReceiptFence) : M T unit :=
  receipt ← ok_or (cl_receipt (lifecycle claim)) ErrorCode.StaleReceipt "no active receipt";
  refuse_if (bool_decide (r_fence receipt ≠ fence)) ErrorCode.StaleReceipt
    ("current receipt epoch " +:+ pretty (f_epoch (r_fence receipt)));;
  refuse_if (bool_decide (r_holder receipt ≠ cx_principal)) ErrorCode.WrongActor
    "receipt holder required".
Definition issuer_authority (claim : Claim) : M T unit :=
  refuse_if (negb (au_runtime cx_authority || bool_decide (issuer (content claim) = Some cx_principal)))
    ErrorCode.WrongActor "issuer authority required".
Definition text (s : string) : M T unit :=
  refuse_if (max_text_bytes cx_limits <? N.of_nat (String.length s))%N
    ErrorCode.Capacity "text length".

(** Lifecycle updates. *)
Definition lc_status (status : ClaimStatus) (revision : N) (fact : StatusFact)
    (witness : option ClaimId) (l : ClaimLifecycle) : ClaimLifecycle :=
  {| cl_status := status; cl_revision := revision; cl_created := cl_created l;
     cl_history := cl_history l ++ [fact]; cl_receipt := cl_receipt l;
     cl_evidence_set := cl_evidence_set l; cl_testament := cl_testament l;
     cl_local_complete := cl_local_complete l; cl_released := cl_released l;
     cl_terminal_witness := witness |}.
Definition lc_receipt (receipt : Receipt) (l : ClaimLifecycle) : ClaimLifecycle :=
  {| cl_status := cl_status l; cl_revision := cl_revision l; cl_created := cl_created l;
     cl_history := cl_history l; cl_receipt := Some receipt;
     cl_evidence_set := cl_evidence_set l; cl_testament := cl_testament l;
     cl_local_complete := cl_local_complete l; cl_released := cl_released l;
     cl_terminal_witness := cl_terminal_witness l |}.
Definition lc_evidence (set : EvidenceSetId) (testament : option TestamentId) (l : ClaimLifecycle) :
    ClaimLifecycle :=
  {| cl_status := cl_status l; cl_revision := cl_revision l; cl_created := cl_created l;
     cl_history := cl_history l; cl_receipt := cl_receipt l;
     cl_evidence_set := Some set;
     cl_testament := match testament with Some t => Some t | None => cl_testament l end;
     cl_local_complete := cl_local_complete l; cl_released := cl_released l;
     cl_terminal_witness := cl_terminal_witness l |}.
Definition lc_local_complete (l : ClaimLifecycle) : ClaimLifecycle :=
  {| cl_status := cl_status l; cl_revision := cl_revision l; cl_created := cl_created l;
     cl_history := cl_history l; cl_receipt := cl_receipt l;
     cl_evidence_set := cl_evidence_set l; cl_testament := cl_testament l;
     cl_local_complete := true; cl_released := cl_released l;
     cl_terminal_witness := cl_terminal_witness l |}.
Definition lc_released (l : ClaimLifecycle) : ClaimLifecycle :=
  {| cl_status := cl_status l; cl_revision := cl_revision l; cl_created := cl_created l;
     cl_history := cl_history l; cl_receipt := cl_receipt l;
     cl_evidence_set := cl_evidence_set l; cl_testament := cl_testament l;
     cl_local_complete := cl_local_complete l; cl_released := true;
     cl_terminal_witness := cl_terminal_witness l |}.

(** [Reducer::status]: the only place a status changes. *)
Definition set_status (id : ClaimId) (status : ClaimStatus) (witness : option ClaimId) : M T unit :=
  c ← get_claim id;
  let l := lifecycle c in
  inform_if (is_terminal (cl_status l)) id (InformReason.Terminal (cl_status l));;
  revision ← ok_or (checked_add (cl_revision l) 1) ErrorCode.Capacity "object revision exhausted";
  tinsert Claims id (with_lifecycle c
    (lc_status status revision {| sf_status := status; sf_sequence := cx_sequence |} witness l));;
  emit (Some id) (lifecycle_action status) (DeltaFact.Status (Some (cl_status l)) status witness);;
  if is_terminal status && bool_decide (status ≠ ClaimStatus.Satisfied)
  then effect (EffectIntent.CancelExecution id (r_fence <$> cl_receipt l))
  else mret tt.
Definition result (id : ClaimId) : M T CommandResult :=
  c ← get_claim id;
  mret (CommandResult.Claim id (cl_status (lifecycle c))).
End machine.
