(* ===== verification/Graph.v ===== *)
(** * Claim graph

    [crates/focal-core/src/graph.rs]: the least fixed point of satisfaction,
    wait predicates, the lineage acyclicity check, and the deadlock component
    of a claim. Each loop carries the bound under which it is run; the bounds
    are proved sufficient in [Termination.v]. *)
From stdpp Require Import prelude gmap strings.
From Stdlib Require Import NArith.
From S2P Require Import Prelude Vocabulary Objects Canonical Store Reducer.

Section graph.
Context `{External} {T : TableImpl} `{Backend T}.

Definition predicate (p : WaitPredicate) : M T bool :=
  c ← tget Claims (wait_target p);
  mret match c with
       | None => false
       | Some c =>
           match p with
           | WaitSatisfied _ => bool_decide (cl_status (lifecycle c) = ClaimStatus.Satisfied)
           | WaitTerminal _ => is_terminal (cl_status (lifecycle c))
           | WaitReleased _ => cl_released (lifecycle c)
           end
       end.

(** ** Satisfaction *)
(** [inl] the set so far; [inr] a set returned early because the workspace ran
    out. *)
Definition fix_seed (acc : gset ClaimId + gset ClaimId) (row : ClaimId * Claim) :
    M T (gset ClaimId + gset ClaimId) :=
  match acc with
  | inr satisfied => mret (inr satisfied)
  | inl satisfied =>
      if bool_decide (cl_status (lifecycle row.2) = ClaimStatus.Satisfied) then
        ok ← scratch_ok 1;
        mret (if ok : bool then inl ({[row.1]} ∪ satisfied) else inr satisfied)
      else mret (inl satisfied)
  end.
Definition await_holds (satisfied : gset ClaimId) (d : ClaimId) : M T bool :=
  if bool_decide (d ∈ satisfied) then mret true else
  x ← tget Claims d;
  mret (match x with None => false | Some x => is_terminal (cl_status (lifecycle x)) end).
Definition root_holds (satisfied : gset ClaimId) (p : WaitPredicate) : M T bool :=
  match p with
  | WaitSatisfied c => mret (bool_decide (c ∈ satisfied))
  | WaitTerminal c => if bool_decide (c ∈ satisfied) then mret true else predicate p
  | WaitReleased _ => predicate p
  end.
(** The monitors of [id] that are not released. *)
Definition open_monitors (id : ClaimId) : M T (list Monitor) :=
  ms ← titer Monitors;
  mret (filter (λ m, m_owner m = id ∧ m_released m = None) ms.*2).
(** The condition under which a locally complete claim joins the set. *)
Definition joins (satisfied : gset ClaimId) (id : ClaimId) (c : Claim) : M T bool :=
  if bool_decide (Forall (.∈ satisfied) (dependencies (content c) RelationKind.DependsOn)) then
    b ← mall (await_holds satisfied) (dependencies (content c) RelationKind.Awaits);
    if b : bool then
      ms ← open_monitors id;
      mall (λ m, mall (root_holds satisfied) (set_iter (m_roots m))) ms
    else mret false
  else mret false.
Definition fix_pass (acc : (gset ClaimId * bool) + gset ClaimId) (row : ClaimId * Claim) :
    M T ((gset ClaimId * bool) + gset ClaimId) :=
  match acc with
  | inr satisfied => mret (inr satisfied)
  | inl (satisfied, changed) =>
      let '(id, c) := row in
      if bool_decide (id ∈ satisfied) || is_terminal (cl_status (lifecycle c))
         || negb (cl_local_complete (lifecycle c))
      then mret (inl (satisfied, changed))
      else
        b ← joins satisfied id c;
        if b : bool then
          ok ← scratch_ok 1;
          mret (if ok : bool then inl ({[id]} ∪ satisfied, true) else inr satisfied)
        else mret (inl (satisfied, changed))
  end.
Definition fix_body (satisfied : gset ClaimId) : M T (gset ClaimId + gset ClaimId) :=
  rows ← titer Claims;
  x ← mfold fix_pass rows (inl (satisfied, false));
  mret match x with
       | inr satisfied => inr satisfied
       | inl (satisfied, changed) => if changed : bool then inl satisfied else inr satisfied
       end.
Definition tracked_fixpoint : M T (gset ClaimId) :=
  rows ← titer Claims;
  seed ← mfold fix_seed rows (inl ∅);
  match seed with
  | inr satisfied => mret satisfied
  | inl satisfied => mloop (N.of_nat (length rows) + 1) fix_body satisfied
  end.

(** ** Lineage *)
Record Walk := {
  w_stack : list (ClaimId * bool); w_path : gset ClaimId; w_done : gset ClaimId; w_visits : N
}.
Definition push_edges (kinds : list RelationKind) (c : Claim) (stack : list (ClaimId * bool)) :
    M T (list (ClaimId * bool)) :=
  mfold (λ stack kind,
    mfold (λ stack d, scratch 1;; mret ((d, false) :: stack)) (dependencies (content c) kind) stack)
    kinds stack.
Definition walk_body (kinds : list RelationKind) (limit : N) (w : Walk) :
    M T (Walk + gset ClaimId * N) :=
  match w_stack w with
  | [] => mret (inr (w_done w, w_visits w))
  | (id, exit) :: stack =>
      visits ← ok_or (checked_add (w_visits w) 1) ErrorCode.Capacity "lineage traversal counter";
      refuse_if (limit <? visits)%N ErrorCode.Capacity "lineage traversal budget";;
      if exit : bool then
        scratch 1;;
        mret (inl {| w_stack := stack; w_path := w_path w ∖ {[id]}; w_done := {[id]} ∪ w_done w;
                     w_visits := visits |})
      else
        refuse_if (bool_decide (id ∈ w_path w)) ErrorCode.InvalidRelation
          "causation or correction lineage cycle";;
        if bool_decide (id ∈ w_done w) then
          mret (inl {| w_stack := stack; w_path := w_path w; w_done := w_done w; w_visits := visits |})
        else
          scratch 2;;
          x ← tget Claims id;
          c ← ok_or x ErrorCode.InvalidRelation "graph endpoint is missing";
          stack ← push_edges kinds c ((id, true) :: stack);
          mret (inl {| w_stack := stack; w_path := {[id]} ∪ w_path w; w_done := w_done w;
                       w_visits := visits |})
  end.
Definition walk_from (kinds : list RelationKind) (limit : N) (acc : gset ClaimId * N)
    (row : ClaimId * Claim) : M T (gset ClaimId * N) :=
  let '(done, visits) := acc in
  if bool_decide (row.1 ∈ done) then mret (done, visits) else
  scratch 1;;
  mloop (limit + 1) (walk_body kinds limit)
    {| w_stack := [(row.1, false)]; w_path := ∅; w_done := done; w_visits := visits |}.
Definition check_acyclic (kinds : list RelationKind) (limit : N) : M T unit :=
  rows ← titer Claims;
  mfold (walk_from kinds limit) rows (∅, 0%N);;
  mret tt.

(** ** Waiting cycles *)
Definition claim_active (id : ClaimId) : M T bool :=
  x ← tget Claims id;
  mret (match x with None => false | Some c => is_active (cl_status (lifecycle c)) end).
Definition neighbors (id : ClaimId) : M T (list ClaimId) :=
  x ← tget Claims id;
  c ← ok_or x ErrorCode.InvalidRelation "graph endpoint is missing";
  deps ← mfold (λ result dependency,
    b ← claim_active dependency;
    if b : bool then scratch 1;; mret (result ++ [dependency]) else mret result)
    (dependencies (content c) RelationKind.DependsOn ++ dependencies (content c) RelationKind.Awaits) [];
  ms ← open_monitors id;
  result ← mfold (λ result m,
    mfold (λ result root,
      b ← predicate root;
      if b : bool then mret result
      else scratch 1;; mret (result ++ [wait_target root])) (set_iter (m_roots m)) result) ms deps;
  mret (set_iter (list_to_set result)).
(** A bound on the pops of [reachable]: every expansion is of a stored claim
    and pushes at most as many endpoints as there are relations and roots. *)
Definition graph_fuel : M T N :=
  rows ← titer Claims;
  ms ← titer Monitors;
  mret (let n := N.of_nat (length rows) in
        let edges := (sum_list ((λ row, length (cc_relations (content row.2)) * 2) <$> rows)
                      + sum_list ((λ row, size (m_roots row.2)) <$> ms))%nat in
        (n + 1) * (N.of_nat edges + 1) + 1)%N.
Definition reach_body (s : list ClaimId * gset ClaimId * N) :
    M T (list ClaimId * gset ClaimId * N + gset ClaimId * N) :=
  let '(stack, seen, limit) := s in
  match stack with
  | [] => mret (inr (seen, limit))
  | id :: stack =>
      if bool_decide (id ∈ seen) then mret (inl (stack, seen, limit)) else
      scratch 1;;
      refuse_if (limit =? 0)%N ErrorCode.Capacity "SCC traversal budget";;
      limit ← ok_or (checked_sub limit 1) ErrorCode.Capacity "SCC traversal budget";
      ns ← neighbors id;
      scratch (N.of_nat (length ns));;
      mret (inl (reverse ns ++ stack, {[id]} ∪ seen, limit))
  end.
Definition reachable (start : ClaimId) (limit : N) : M T (gset ClaimId * N) :=
  scratch 1;;
  fuel ← graph_fuel;
  mloop fuel reach_body ([start], ∅, limit).
Definition cycle_containing (start : ClaimId) (limit : N) : M T (option (gset ClaimId)) :=
  '(reachable_from, limit) ← reachable start limit;
  '(component, _) ← mfold (λ '(component, limit) node,
    '(back, limit) ← reachable node limit;
    if bool_decide (start ∈ back)
    then scratch 1;; mret ({[node]} ∪ component, limit)
    else mret (component, limit)) (set_iter reachable_from) (∅, limit);
  if (1 <? N.of_nat (size component))%N then mret (Some component) else
  ns ← neighbors start;
  mret (if bool_decide (start ∈ ns) then Some component else None).
End graph.
