(* ===== verification/Validation.v ===== *)
(** * Validation scheduling and verdicts

    [crates/focal-core/src/validation.rs]: pinned runs, error-only fallback to
    the next handler, the quality phase after a programmatic pass, and the
    aggregate of a claim's required validations. *)
From stdpp Require Import prelude gmap strings list.
From Stdlib Require Import NArith.
From S2P Require Import Prelude Vocabulary Objects Canonical Store Reducer.

Definition set_latest_epoch (v : Validation) (epoch : N) : Validation :=
  with_lifecycle v {| vl_created := vl_created (lifecycle v); vl_latest_epoch := epoch |}.
(** The runs of one validation. *)
Definition runs_of (id : ValidationId) (rs : list (ValidationRunId * ValidationRun)) :
    list ValidationRun :=
  filter (λ r, vr_validation (run_id r) = id) rs.*2.
(** The validations of a claim that [phase] requires. *)
Definition required_in (claim : ClaimId) (phase : ValidationPhase) (v : Validation) : bool :=
  bool_decide (vc_claim (content v) = claim) && bool_decide (vc_phase (content v) = phase)
  && bool_decide (vc_mode (content v) = ValidationMode.Required).
Definition is_nil {A} (l : list A) : bool := match l with [] => true | _ => false end.

(** [aggregate]: the worst verdict of the required validations after
    admission, if every one of them has runs and all runs are final. *)
Definition aggregate_runs (acc : option VerdictValue) (rs : list ValidationRun) : option VerdictValue :=
  foldl (λ acc r,
    worst ← acc;
    result ← run_final_verdict r;
    Some (if (severity worst <? severity result)%N then result else worst)) acc rs.
Definition aggregate_step (claim : ClaimId) (rs : list (ValidationRunId * ValidationRun))
    (acc : option (VerdictValue * bool)) (row : ValidationId * Validation) :
    option (VerdictValue * bool) :=
  '(worst, any) ← acc;
  let '(id, v) := row in
  if bool_decide (vc_claim (content v) ≠ claim)
     || bool_decide (vc_mode (content v) ≠ ValidationMode.Required)
     || bool_decide (vc_phase (content v) = ValidationPhase.Admission)
  then Some (worst, any)
  else if is_nil (runs_of id rs) then None
  else worst ← aggregate_runs (Some worst) (runs_of id rs); Some (worst, true).
Definition aggregate_of (claim : ClaimId) (vs : list (ValidationId * Validation))
    (rs : list (ValidationRunId * ValidationRun)) : option VerdictValue :=
  '(worst, any) ← foldl (aggregate_step claim rs) (Some (VerdictValue.Pass, false)) vs;
  if any : bool then Some worst else None.

(** The first handler at or after [start] that satisfies [p], by index. *)
Definition find_handler (p : HandlerRef → bool) (start : N) (handlers : list HandlerRef) : option N :=
  '(i, _) ← list_find (λ h, Is_true (p h)) (drop (N.to_nat start) handlers);
  Some (start + N.of_nat i)%N.
(** The handler that runs after [value], if any. *)
Definition next_handler (v : ValidationContent) (run : ValidationRun) (value : VerdictValue)
    (following : N) : option N :=
  match value with
  | VerdictValue.Error =>
      if run_quality_phase run then None
      else find_handler (λ h, bool_decide (vc_quality_bar v = None) || negb (h_agentic h))
             following (vc_handlers v)
  | VerdictValue.Pass =>
      if negb (run_quality_phase run) && bool_decide (is_Some (vc_quality_bar v))
      then find_handler h_agentic following (vc_handlers v)
      else None
  | _ => None
  end.
Definition run_with (run : ValidationRun) (index : N) (quality : bool)
    (attempts : list VerdictRecord) (final : option VerdictValue) : ValidationRun :=
  {| run_id := run_id run; run_claim := run_claim run; run_evaluator := run_evaluator run;
     run_manifest := run_manifest run; run_handler_index := index; run_quality_phase := quality;
     run_attempts := attempts; run_final_verdict := final |}.

Section validation.
Context `{External} {T : TableImpl} `{Backend T} {cx : Ctx}.

Definition schedule (id : ValidationId) (target manifest : ContentHash) : M T ValidationRunId :=
  x ← get_owned Validations id;
  v ← ok_or x ErrorCode.UnknownObject "unknown validation";
  rs ← titer Runs;
  refuse_if (existsb (λ r, bool_decide (vr_validation (run_id r) = id)
                           && bool_decide (vr_target_hash (run_id r) = target)) rs.*2)
    ErrorCode.ConflictingVerdict "target already scheduled";;
  epoch ← ok_or (checked_add (vl_latest_epoch (lifecycle v)) 1) ErrorCode.Capacity
    "validation epoch exhausted";
  let run := {| vr_validation := id; vr_target_hash := target; vr_phase := vc_phase (content v);
                vr_epoch := epoch |} in
  first ← ok_or (head (vc_handlers (content v))) ErrorCode.InvalidHandler "validation handler absent";
  let quality := h_agentic first && bool_decide (is_Some (vc_quality_bar (content v))) in
  tinsert Runs run {| run_id := run; run_claim := vc_claim (content v);
    run_evaluator := vc_evaluator (content v); run_manifest := manifest; run_handler_index := 0;
    run_quality_phase := quality; run_attempts := []; run_final_verdict := None |};;
  tinsert Validations id (set_latest_epoch v epoch);;
  emit (Some (vc_claim (content v))) LifecycleAction.ValidationScheduled
    (DeltaFact.ValidationScheduled run);;
  effect (EffectIntent.ExecuteValidation run first (vc_evaluator (content v)) 0 manifest quality);;
  mret run.
Definition schedule_phase (claim : ClaimId) (phase : ValidationPhase)
    (target manifest : ContentHash) : M T unit :=
  vs ← titer Validations;
  let ids := (filter (λ row, vc_claim (content row.2) = claim ∧ vc_phase (content row.2) = phase
                             ∧ vc_kind (content row.2) ≠ ValidationKind.Receipt) vs).*1 in
  mfor ids (λ _, scratch 1);;
  mfor ids (λ id, schedule id target manifest;; mret tt).

(** The built-in receipt handler. *)
Definition receipt_handler : HandlerRef :=
  {| h_id := 1; h_version := blake3 (string_bytes "focal.builtin.receipt.v1"); h_agentic := false |}.
Definition receipt_pass (claim : ClaimId) (target manifest : ContentHash) (id : ValidationId) : M T unit :=
  x ← get_owned Validations id;
  v ← ok_or x ErrorCode.InvalidManifest "scheduled validation missing";
  rs ← titer Runs;
  if existsb (λ k, bool_decide (vr_validation k = id) && bool_decide (vr_target_hash k = target)) rs.*1
  then mret tt else
  epoch ← ok_or (checked_add (vl_latest_epoch (lifecycle v)) 1) ErrorCode.Capacity
    "validation epoch exhausted";
  let run := {| vr_validation := id; vr_target_hash := target;
                vr_phase := ValidationPhase.WholeWork; vr_epoch := epoch |} in
  let verdict := {| ve_run := run; ve_evaluator := vc_evaluator (content v);
    ve_handler := receipt_handler; ve_attempt := 0; ve_manifest := manifest;
    ve_value := VerdictValue.Pass; ve_evidence := [] |} in
  tinsert Runs run {| run_id := run; run_claim := claim; run_evaluator := vc_evaluator (content v);
    run_manifest := manifest; run_handler_index := 0; run_quality_phase := false;
    run_attempts := [verdict]; run_final_verdict := Some VerdictValue.Pass |};;
  tinsert Validations id (set_latest_epoch v epoch);;
  emit (Some claim) LifecycleAction.ValidationVerdict (DeltaFact.Verdict verdict).
Definition receipt_passes (claim : ClaimId) (target manifest : ContentHash) : M T unit :=
  vs ← titer Validations;
  let ids := (filter (λ row, vc_claim (content row.2) = claim
                             ∧ vc_kind (content row.2) = ValidationKind.Receipt) vs).*1 in
  mfor ids (λ _, scratch 1);;
  mfor ids (receipt_pass claim target manifest).

(** Every required validation of the phase has runs, all of which satisfy [p]. *)
Definition phase_runs (p : ValidationRun → bool) (claim : ClaimId) (phase : ValidationPhase) : M T bool :=
  vs ← titer Validations;
  rs ← titer Runs;
  mret (forallb (λ row, if required_in claim phase row.2
                        then negb (is_nil (runs_of row.1 rs)) && forallb p (runs_of row.1 rs)
                        else true) vs).
Definition phase_complete : ClaimId → ValidationPhase → M T bool :=
  phase_runs (λ r, bool_decide (is_Some (run_final_verdict r))).
Definition phase_passed : ClaimId → ValidationPhase → M T bool :=
  phase_runs (λ r, bool_decide (run_final_verdict r = Some VerdictValue.Pass)).
Definition aggregate (claim : ClaimId) : M T (option VerdictValue) :=
  vs ← titer Validations;
  rs ← titer Runs;
  mret (aggregate_of claim vs rs).

Definition verify_artifacts (refs : list ArtifactRef) : M T unit :=
  mfor refs (λ reference,
    x ← tget Artifacts (ar_id reference);
    refuse_if match x with None => true | Some a => bool_decide (content_hash_of a ≠ ar_hash reference) end
      ErrorCode.InvalidManifest "unknown artifact or hash mismatch").

(** The schemas the verdict's evidence carries, and whether one is an error
    diagnostic. *)
Definition evidence_schemas (evidence : list ArtifactRef) : M T (gset ContentHash * bool) :=
  mfold (λ '(actual, diagnostic) reference,
    x ← tget Artifacts (ar_id reference);
    artifact ← ok_or x ErrorCode.InvalidManifest "verdict artifact missing";
    scratch 1;;
    mret ({[ac_schema_hash (content artifact)]} ∪ actual,
          diagnostic || bool_decide (ac_kind (content artifact) = "error"%string)))
    evidence (∅, false).
Definition check_evidence (v : ValidationContent) (verdict : VerdictRecord) : M T unit :=
  if is_nil (vc_evidence_schemas v) then mret tt else
  '(actual, diagnostic) ← evidence_schemas (ve_evidence verdict);
  let unavailable :=
    match ve_value verdict with
    | VerdictValue.Incomplete | VerdictValue.Error => diagnostic
    | _ => false
    end in
  refuse_if (negb (bool_decide (Forall (.∈ actual) (vc_evidence_schemas v))) && negb unavailable)
    ErrorCode.InvalidManifest "verdict evidence lacks required schema".

(** Statuses that fence an evaluator out for good. *)
Definition fenced (status : ClaimStatus) : bool :=
  match status with
  | ClaimStatus.Cancelled | ClaimStatus.Revoked | ClaimStatus.Superseded | ClaimStatus.Expired
  | ClaimStatus.Deadlocked | ClaimStatus.DependencyFailed => true
  | _ => false
  end.
Definition phase_active (phase : ValidationPhase) (status : ClaimStatus) : bool :=
  match phase with
  | ValidationPhase.Admission => bool_decide (status = ClaimStatus.Posted)
  | ValidationPhase.Increment =>
      match status with
      | ClaimStatus.Received | ClaimStatus.Progressed | ClaimStatus.TestamentGenerated
      | ClaimStatus.TestamentAcknowledged | ClaimStatus.Validating => true
      | _ => false
      end
  | ValidationPhase.WholeWork => bool_decide (status = ClaimStatus.Validating)
  end.

(** What [verdict] writes once the record is accepted: the attempt, and the
    next handler or the final verdict. *)
Definition advance_run (v : ValidationContent) (run : ValidationRun) (verdict : VerdictRecord) :
    M T ValidationRun :=
  let attempts := run_attempts run ++ [verdict] in
  following ← ok_or (checked_add (run_handler_index run) 1) ErrorCode.InvalidHandler
    "handler index exhausted";
  match next_handler v run (ve_value verdict) following with
  | Some next =>
      handler ← ok_or (vc_handlers v !! N.to_nat next) ErrorCode.InvalidHandler "next handler missing";
      index ← ok_or (try_u32 next) ErrorCode.InvalidHandler "handler index exhausted";
      let quality := h_agentic handler && bool_decide (is_Some (vc_quality_bar v)) in
      attempt ← ok_or (try_u32 (N.of_nat (length attempts))) ErrorCode.Capacity
        "validation attempt exhausted";
      effect (EffectIntent.ExecuteValidation (run_id run) handler (run_evaluator run) attempt
        (run_manifest run) quality);;
      mret (run_with run index quality attempts (run_final_verdict run))
  | None =>
      mret (run_with run (run_handler_index run) (run_quality_phase run) attempts
        (Some (ve_value verdict)))
  end.
(** The part of [verdict] after the attempt was found to be new. *)
Definition new_verdict (run : ValidationRun) (v : Validation) (c : Claim) (verdict : VerdictRecord) :
    M T CommandResult :=
  let status := cl_status (lifecycle c) in
  refuse_if (bool_decide (is_Some (run_final_verdict run))) ErrorCode.ConflictingVerdict
    "run already has terminal verdict";;
  inform_if (is_terminal status && bool_decide (vc_mode (content v) = ValidationMode.Required))
    (run_claim run) (InformReason.Terminal status);;
  refuse_if (negb (phase_active (vr_phase (run_id run)) status
                   || is_terminal status && bool_decide (vc_mode (content v) = ValidationMode.Observe)))
    ErrorCode.InvalidTransition "verdict phase is not active";;
  current ← ok_or (vc_handlers (content v) !! N.to_nat (run_handler_index run))
    ErrorCode.InvalidHandler "handler index";
  (if bool_decide (ve_handler verdict ≠ current)
   then refuse ErrorCode.StaleEvaluator "handler, attempt or evidence fence mismatch"
   else
     attempt ← ok_or (try_u32 (N.of_nat (length (run_attempts run)))) ErrorCode.Capacity
       "validation attempt exhausted";
     refuse_if (bool_decide (ve_attempt verdict ≠ attempt)
                || bool_decide (ve_manifest verdict ≠ run_manifest run))
       ErrorCode.StaleEvaluator "handler, attempt or evidence fence mismatch");;
  verify_artifacts (ve_evidence verdict);;
  check_evidence (content v) verdict;;
  run ← advance_run (content v) run verdict;
  tinsert Runs (run_id run) run;;
  emit (Some (run_claim run)) LifecycleAction.ValidationVerdict (DeltaFact.Verdict verdict);;
  (if bool_decide (vr_phase (run_id run) = ValidationPhase.Admission)
      && bool_decide (vc_mode (content v) = ValidationMode.Required) then
     complete ← phase_complete (run_claim run) ValidationPhase.Admission;
     if complete : bool then
       passed ← phase_passed (run_claim run) ValidationPhase.Admission;
       if passed : bool then mret tt else set_status (run_claim run) ClaimStatus.PostFailed None
     else mret tt
   else mret tt);;
  mret (CommandResult.Validation (run_id run)).
Definition record_verdict (verdict : VerdictRecord) : M T CommandResult :=
  x ← get_owned Runs (ve_run verdict);
  run ← ok_or x ErrorCode.StaleEvaluator "unknown validation run epoch";
  x ← get_owned Validations (vr_validation (run_id run));
  v ← ok_or x ErrorCode.UnknownObject "validation requirement";
  c ← get_claim (run_claim run);
  refuse_if (bool_decide (ve_evaluator verdict ≠ cx_principal)
             || bool_decide (run_evaluator run ≠ cx_principal))
    ErrorCode.WrongActor "only designated evaluator may submit verdict";;
  refuse_if (fenced (cl_status (lifecycle c))) ErrorCode.StaleEvaluator
    "execution fenced by terminal control";;
  match list_find (λ old, ve_attempt old = ve_attempt verdict) (run_attempts run) with
  | Some (_, old) =>
      if bool_decide (old = verdict) then mret (CommandResult.Validation (run_id run))
      else refuse ErrorCode.ConflictingVerdict "attempt already has a different immutable verdict"
  | None => new_verdict run v c verdict
  end.
End validation.

(** ** The aggregate verdict

    [Reducer::aggregate] of [crates/focal-core/src/validation.rs] computes, in
    one pass over the validations, the worst final verdict of the required
    validations after admission, and nothing while one of them has no run or
    an open run. *)
(** The validations whose verdicts decide the claim. *)
Definition decides (claim : ClaimId) (v : Validation) : Prop :=
  vc_claim (content v) = claim ∧ vc_mode (content v) = ValidationMode.Required
  ∧ vc_phase (content v) ≠ ValidationPhase.Admission.
Definition final_within (w : VerdictValue) (r : ValidationRun) : Prop :=
  ∃ x, run_final_verdict r = Some x ∧ (severity x <= severity w)%N.

Lemma aggregate_runs_None rs : aggregate_runs None rs = None.
Proof. by induction rs. Qed.
Lemma aggregate_runs_Some rs a w :
  aggregate_runs (Some a) rs = Some w →
  (severity a <= severity w)%N ∧ (∀ r, r ∈ rs → final_within w r)
  ∧ (w = a ∨ ∃ r, r ∈ rs ∧ run_final_verdict r = Some w).
Proof.
  revert a. induction rs as [|r rs IH]; intros a; simpl.
  { intros [= ->]. split_and!; [lia|set_solver|by left]. }
  destruct (run_final_verdict r) as [x|] eqn:Hx; simpl; [|by rewrite aggregate_runs_None].
  intros Hagg. set (b := if (severity a <? severity x)%N then x else a) in *.
  destruct (IH b Hagg) as (Hb & Hall & Hw). unfold b in *. clear b.
  destruct (N.ltb_spec (severity a) (severity x)); split_and!; try lia.
  - intros r' [->|Hin]%elem_of_cons; [by exists x|by apply Hall].
  - destruct Hw as [->|(r' & ? & ?)]; right; [exists r|exists r']; set_solver.
  - intros r' [->|Hin]%elem_of_cons; [exists x; split; [done|lia]|by apply Hall].
  - destruct Hw as [->|(r' & ? & ?)]; [by left|right; exists r'; set_solver].
Qed.
Lemma aggregate_runs_total rs a :
  (∀ r, r ∈ rs → is_Some (run_final_verdict r)) → is_Some (aggregate_runs (Some a) rs).
Proof.
  revert a. induction rs as [|r rs IH]; intros a Hall; simpl; [by eexists|].
  destruct (Hall r) as [x Hx]; [set_solver|]. rewrite Hx. simpl. apply IH. set_solver.
Qed.

Lemma foldl_cons_step {A B} (f : A → B → A) a x l : foldl f a (x :: l) = foldl f (f a x) l.
Proof. done. Qed.

Section fold.
Context (claim : ClaimId) (rs : list (ValidationRunId * ValidationRun)).
Notation step := (aggregate_step claim rs).

Lemma aggregate_step_skip acc id v : ¬ decides claim v → step (Some acc) (id, v) = Some acc.
Proof.
  intros Hd. destruct acc as [w any]. unfold aggregate_step. simpl.
  destruct (_ || _ || _) eqn:Hb; [done|]. exfalso. apply Hd.
  apply orb_false_iff in Hb as [[H1 H2]%orb_false_iff H3].
  apply bool_decide_eq_false in H1, H2, H3. split_and!; [by apply dec_stable..|done].
Qed.
Lemma aggregate_step_decides w any id v :
  decides claim v →
  step (Some (w, any)) (id, v)
  = if is_nil (runs_of id rs) then None
    else worst ← aggregate_runs (Some w) (runs_of id rs); Some (worst, true).
Proof.
  intros (H1 & H2 & H3). unfold aggregate_step. simpl.
  rewrite !bool_decide_eq_false_2 by (rewrite ?H1, ?H2; auto). done.
Qed.
Lemma aggregate_fold_None vs : foldl step None vs = None.
Proof. by induction vs. Qed.
Lemma decides_dec v : Decision (decides claim v).
Proof. unfold decides. apply _. Defined.
Lemma aggregate_fold vs a b w any :
  foldl step (Some (a, b)) vs = Some (w, any) →
  (severity a <= severity w)%N
  ∧ (∀ id v, (id, v) ∈ vs → decides claim v →
       runs_of id rs ≠ [] ∧ ∀ r, r ∈ runs_of id rs → final_within w r)
  ∧ (w = a ∨ ∃ id v r, (id, v) ∈ vs ∧ decides claim v ∧ r ∈ runs_of id rs ∧ run_final_verdict r = Some w)
  ∧ (any = true ↔ b = true ∨ ∃ id v, (id, v) ∈ vs ∧ decides claim v).
Proof.
  revert a b. induction vs as [|[id v] vs IH]; intros a b.
  { intros [= -> ->]. split_and!; [lia|set_solver|by left|]. set_solver. }
  rewrite foldl_cons_step. destruct (decides_dec v) as [Hd|Hd].
  - rewrite aggregate_step_decides by done. destruct (runs_of id rs) as [|r0 l] eqn:Hruns; simpl is_nil.
    { by rewrite aggregate_fold_None. }
    cbv iota. rewrite <-Hruns in *.
    destruct (aggregate_runs (Some a) (runs_of id rs)) as [a'|] eqn:Ha; simpl; [|by rewrite aggregate_fold_None].
    intros (Hw & Hall & Hex & Hany)%IH. apply aggregate_runs_Some in Ha as (Haa & Hin & Hwit).
    split_and!; [lia| | |].
    + intros id' v' [[= -> ->]|?]%elem_of_cons Hd'; [|by eapply Hall].
      split; [congruence|]. intros r (x & ? & ?)%Hin. exists x. split; [done|lia].
    + destruct Hex as [->|(id' & v' & r & ? & ? & ? & ?)].
      * destruct Hwit as [->|(r & ? & ?)]; [by left|]. right. exists id, v, r. set_solver.
      * right. exists id', v', r. set_solver.
    + rewrite Hany. split; [|by left]. intros _. right. exists id, v. set_solver.
  - rewrite aggregate_step_skip by done. intros (Hw & Hall & Hex & Hany)%IH. split_and!; [done| | |].
    + intros id' v' [[= -> ->]|?]%elem_of_cons Hd'; [done|by eapply Hall].
    + destruct Hex as [->|(id' & v' & r & ? & ? & ? & ?)]; [by left|]. right. exists id', v', r. set_solver.
    + rewrite Hany. set_solver.
Qed.
Lemma aggregate_fold_total vs a b :
  (∀ id v, (id, v) ∈ vs → decides claim v →
     runs_of id rs ≠ [] ∧ ∀ r, r ∈ runs_of id rs → is_Some (run_final_verdict r)) →
  is_Some (foldl step (Some (a, b)) vs).
Proof.
  revert a b. induction vs as [|[id v] vs IH]; intros a b Hall; [by eexists|].
  rewrite foldl_cons_step.
  destruct (decides_dec v) as [Hd|Hd].
  - rewrite aggregate_step_decides by done. destruct (Hall id v) as [Hn Hf]; [set_solver|done|].
    destruct (aggregate_runs_total (runs_of id rs) a Hf) as [a' ->].
    destruct (runs_of id rs); [done|]. apply IH. set_solver.
  - rewrite aggregate_step_skip by done. apply IH. set_solver.
Qed.
(** The aggregate is the worst final verdict, and exists exactly when every
    deciding validation has runs, all of which are final. *)
Lemma aggregate_of_Some vs w :
  aggregate_of claim vs rs = Some w →
  (∃ id v, (id, v) ∈ vs ∧ decides claim v)
  ∧ (∀ id v, (id, v) ∈ vs → decides claim v →
       runs_of id rs ≠ [] ∧ ∀ r, r ∈ runs_of id rs → final_within w r)
  ∧ ∃ id v r, (id, v) ∈ vs ∧ decides claim v ∧ r ∈ runs_of id rs ∧ run_final_verdict r = Some w.
Proof.
  unfold aggregate_of. destruct (foldl _ _ _) as [[w' any]|] eqn:Hf; simpl; [|done].
  destruct any; [|done]. intros [= ->]. apply aggregate_fold in Hf as (_ & Hall & Hex & Hany).
  destruct (proj1 Hany eq_refl) as [?|(id & v & Hin & Hd)]; [done|].
  split_and!; [by exists id, v|done|]. destruct Hex as [->|?]; [|done].
  destruct (Hall _ _ Hin Hd) as [Hn Hr]. destruct (runs_of id rs) as [|r l] eqn:Hruns; [done|].
  exists id, v, r. split_and!; [done..|rewrite Hruns; set_solver|].
  destruct (Hr r) as (x & Hx & Hs); [set_solver|]. rewrite Hx. f_equal. by destruct x.
Qed.
Lemma aggregate_of_total vs :
  (∃ id v, (id, v) ∈ vs ∧ decides claim v) →
  (∀ id v, (id, v) ∈ vs → decides claim v →
     runs_of id rs ≠ [] ∧ ∀ r, r ∈ runs_of id rs → is_Some (run_final_verdict r)) →
  is_Some (aggregate_of claim vs rs).
Proof.
  intros Hex Hall. unfold aggregate_of.
  destruct (aggregate_fold_total vs VerdictValue.Pass false Hall) as [[w any] Hf]. rewrite Hf. simpl.
  apply aggregate_fold in Hf as (_ & _ & _ & Hany).
  destruct any; [by eexists|]. assert (false = true) by (apply Hany; by right). done.
Qed.
End fold.
