(* ===== verification/Propagate.v ===== *)
(** * Propagation and cancellation

    The graph-wide operations of [crates/focal-core/src/reduce.rs]:
    [cycle_victim], [cancel_tree] and [propagate]. *)
From stdpp Require Import prelude gmap strings.
From Stdlib Require Import NArith.
From S2P Require Import Prelude Vocabulary Objects Canonical Store Reducer Graph.

(** The order of [(created, id)] pairs. *)
Definition key2_lt (a b : N * N) : bool :=
  (a.1 <? b.1)%N || ((a.1 =? b.1)%N && (a.2 <? b.2)%N).
(** Whether [c] was caused by the claim [id]. *)
Definition caused_by (id : ClaimId) (c : Claim) : bool :=
  bool_decide (cause (content c) = Some (CauseClaim id)).

Section propagate.
Context `{External} {T : TableImpl} `{Backend T} {cx : Ctx}.

Definition cycle_victim (component : gset ClaimId) : M T ClaimId :=
  oldest ← mfold (λ oldest id,
    claim ← get_claim id;
    let key := (cl_created (lifecycle claim), id) in
    mret (match oldest with
          | None => Some key
          | Some current => if key2_lt key current then Some key else Some current
          end)) (set_iter component) None;
  ok_or (snd <$> oldest) ErrorCode.InvalidRelation "empty cycle component".

(** ** Cancellation closure *)
Definition cancel_body (root : ClaimId) (status : ClaimStatus) (s : list ClaimId * gset ClaimId) :
    M T (list ClaimId * gset ClaimId + unit) :=
  let '(queue, seen) := s in
  match queue with
  | [] => mret (inr tt)
  | id :: queue =>
      if bool_decide (id ∈ seen) then mret (inl (queue, seen)) else
      scratch 1;;
      let seen := {[id]} ∪ seen in
      refuse_if (max_graph_visits cx_limits <? N.of_nat (size seen))%N ErrorCode.Capacity
        "cancellation closure budget";;
      rows ← titer Claims;
      queue ← mfold (λ queue child, scratch 1;; mret (child :: queue))
        (filter (λ row, Is_true (caused_by id row.2)) rows).*1 queue;
      c ← get_claim id;
      (if is_active (cl_status (lifecycle c))
       then set_status id (if bool_decide (id = root) then status else ClaimStatus.Cancelled) (Some root)
       else mret tt);;
      mret (inl (queue, seen))
  end.
Definition cancel_tree (root : ClaimId) (status : ClaimStatus) : M T unit :=
  scratch 1;;
  rows ← titer Claims;
  let n := N.of_nat (length rows) in
  mloop ((n + 1) * (n + 1) + 1)%N (cancel_body root status) ([root], ∅).

(** ** Dependency failure *)
(** The oldest failed dependency of [c], if it has one. *)
Definition failed_dependency (c : Claim) : M T (option (N * N)) :=
  mfold (λ best d,
    x ← tget Claims d;
    mret match x with
         | Some t =>
             if is_terminal (cl_status (lifecycle t))
                && bool_decide (cl_status (lifecycle t) ≠ ClaimStatus.Satisfied)
             then let key := (cl_created (lifecycle t), d) in
                  match best with
                  | None => Some key
                  | Some current => if key2_lt key current then Some key else Some current
                  end
             else best
         | None => best
         end) (dependencies (content c) RelationKind.DependsOn) None.
Definition fail_scan (acc : N * list (ClaimId * ClaimId)) (row : ClaimId * Claim) :
    M T (N * list (ClaimId * ClaimId)) :=
  let '(visits, changes) := acc in
  visits ← ok_or (checked_add visits 1) ErrorCode.Capacity "graph propagation count";
  refuse_if (max_graph_visits cx_limits <? visits)%N ErrorCode.Capacity "graph propagation budget";;
  if is_terminal (cl_status (lifecycle row.2)) then mret (visits, changes) else
  cause ← failed_dependency row.2;
  match cause with
  | Some (_, witness) => scratch 1;; mret (visits, changes ++ [(row.1, witness)])
  | None => mret (visits, changes)
  end.
Definition fail_body (visits : N) : M T (N + N) :=
  rows ← titer Claims;
  '(visits, changes) ← mfold fail_scan rows (visits, []);
  match changes with
  | [] => mret (inr visits)
  | _ =>
      mfor changes (λ change, set_status change.1 ClaimStatus.DependencyFailed (Some change.2));;
      mret (inl visits)
  end.

(** ** Satisfaction, scope release and monitor release *)
Definition satisfy (changed : bool) (id : ClaimId) : M T bool :=
  x ← tget Claims id;
  match x with
  | Some claim =>
      if bool_decide (cl_status (lifecycle claim) ≠ ClaimStatus.Satisfied)
      then set_status id ClaimStatus.Satisfied None;; mret true
      else mret changed
  | None => mret changed
  end.
(** A terminal, unreleased claim with no unreleased child. *)
Definition releasable (rows : list (ClaimId * Claim)) (row : ClaimId * Claim) : bool :=
  is_terminal (cl_status (lifecycle row.2)) && negb (cl_released (lifecycle row.2))
  && negb (existsb (λ child, caused_by row.1 child && negb (cl_released (lifecycle child))) rows.*2).
Definition release_claim (id : ClaimId) : M T unit :=
  c ← get_claim id;
  tinsert Claims id (with_lifecycle c (lc_released (lifecycle c))).
Definition monitor_due (row : MonitorId * Monitor) : M T (option (MonitorId * ClaimId)) :=
  let '(id, monitor) := row in
  match m_released monitor with
  | Some _ => mret None
  | None =>
      x ← tget Claims (m_owner monitor);
      owner ← ok_or x ErrorCode.InvalidRelation "monitor owner is missing";
      due ← (if cl_released (lifecycle owner) then mret true
             else mall predicate (set_iter (m_roots monitor)));
      if due : bool then scratch 1;; mret (Some (id, m_owner monitor)) else mret None
  end.
Definition release_monitor (entry : MonitorId * ClaimId) : M T unit :=
  let '(id, owner) := entry in
  x ← tget_mut Monitors id;
  m ← ok_or x ErrorCode.InvalidManifest "monitor missing";
  tput Monitors id {| m_id := m_id m; m_owner := m_owner m; m_roots := m_roots m;
    m_deadline := m_deadline m; m_registered := m_registered m; m_released := Some cx_sequence |};;
  emit (Some owner) LifecycleAction.ScopeReleased (DeltaFact.Scope id);;
  effect (EffectIntent.MonitorReleased id).
Definition settle_body (visits : N) : M T (N + unit) :=
  n ← tlen Claims;
  m ← tlen Monitors;
  visits ← ok_or (checked_add visits n ≫= λ v, checked_add v m) ErrorCode.Capacity
    "graph accounting overflow";
  refuse_if (max_graph_visits cx_limits <? visits)%N ErrorCode.Capacity "release propagation budget";;
  satisfied ← tracked_fixpoint;
  check_capacity;;
  changed ← mfold satisfy (set_iter satisfied) false;
  rows ← titer Claims;
  let ids := (filter (λ row, Is_true (releasable rows row)) rows).*1 in
  mfor ids (λ _, scratch 1);;
  mfor ids release_claim;;
  ms ← titer Monitors;
  due ← mfold (λ due row, x ← monitor_due row; mret (due ++ option_list x)) ms [];
  mfor due release_monitor;;
  mret (if changed || negb (bool_decide (ids = [])) || negb (bool_decide (due = []))
        then inl visits else inr tt).
Definition propagate : M T unit :=
  rows ← titer Claims;
  ms ← titer Monitors;
  visits ← mloop (N.of_nat (length rows) + 1) fail_body 0%N;
  mloop (2 * N.of_nat (length rows) + N.of_nat (length ms) + 1)%N settle_body visits.
End propagate.
