(* ===== verification/Create.v ===== *)
(** * Creating objects

    [free_id], [generate], [create_artifact], [object_exists], [verify_error]
    and [create_testament] of [crates/focal-core/src/reduce.rs]. The body of
    [generate]'s loop is one definition per group of checks, in the order of
    the source. *)
From stdpp Require Import prelude gmap strings list.
From Stdlib Require Import NArith.
From S2P Require Import Prelude Vocabulary Objects Canonical Store Reducer Graph Validation.

(** ** Text *)
(** The UTF-8 encodings of the characters of Unicode's [White_Space]. *)
Definition white_space : list (list N) :=
  [[9]; [10]; [11]; [12]; [13]; [32]; [194; 133]; [194; 160]; [225; 154; 128];
   [226; 128; 128]; [226; 128; 129]; [226; 128; 130]; [226; 128; 131]; [226; 128; 132];
   [226; 128; 133]; [226; 128; 134]; [226; 128; 135]; [226; 128; 136]; [226; 128; 137];
   [226; 128; 138]; [226; 128; 168]; [226; 128; 169]; [226; 128; 175]; [226; 129; 159];
   [227; 128; 128]]%N.
(** [s.trim() == s]: no white space character at either end. *)
Definition trimmed (s : string) : bool :=
  let bytes := string_bytes s in
  negb (existsb (λ w, bool_decide (w `prefix_of` bytes) || bool_decide (w `suffix_of` bytes)) white_space).
(** A normalized scope key. *)
Definition normalized_key (s : string) : bool :=
  negb (bool_decide (s = ""%string)) && trimmed s && negb (bool_decide (0%N ∈ string_bytes s)).
(** The alphabet of an artifact kind. *)
Definition kind_byte (b : N) : bool :=
  (97 <=? b)%N && (b <=? 122)%N || (48 <=? b)%N && (b <=? 57)%N
  || bool_decide (b ∈ string_bytes "_./-").
Definition valid_kind (kind : string) : bool :=
  negb (bool_decide (kind = ""%string)) && (N.of_nat (String.length kind) <=? 128)%N
  && forallb kind_byte (string_bytes kind).

(** The positions of the agentic handlers. *)
Definition agentic_positions (handlers : list HandlerRef) : list N :=
  (filter (λ entry, Is_true (h_agentic entry.2)) (imap (λ i h, (N.of_nat i, h)) handlers)).*1.
(** At most one agentic handler, and it is the last. *)
Definition agentic_last (handlers : list HandlerRef) : bool :=
  match agentic_positions handlers with
  | [] => true
  | [index] => bool_decide (checked_add index 1 = Some (N.of_nat (length handlers)))
  | _ => false
  end.
Definition count_kind (kind : RelationKind) (relations : list Relation) : nat :=
  length (filter (λ r, rel_kind r = kind) relations).

(** What [generate] has collected from the claims before the current one. *)
Record Batch := { ba_ids : gset ObjectId; ba_hashes : gset ContentHash; ba_existing : list ClaimId }.
Definition empty_batch : Batch := {| ba_ids := ∅; ba_hashes := ∅; ba_existing := [] |}.

Section create.
Context `{External} {T : TableImpl} `{Backend T} {cx : Ctx}.

Definition free_id (id : ObjectId) : M T bool :=
  if is_zero id then mret false else
  c ← contains_key Claims id;
  if c : bool then mret false else
  v ← contains_key Validations id;
  if v : bool then mret false else
  a ← contains_key Artifacts id;
  if a : bool then mret false else
  t ← contains_key Testaments id;
  mret (negb t).

(** ** Claims *)
Definition check_header (c : ClaimContent) : M T unit :=
  refuse_if (bool_decide (cc_ledger c ≠ cx_ledger)) ErrorCode.InvalidNamespace "claim namespace";;
  refuse_if (bool_decide (cc_schema c ≠ SCHEMA)) ErrorCode.UnsupportedSchema "claim schema";;
  text (cc_description c);;
  refuse_if (is_zero (cc_occurrence c)
             || (max_relations cx_limits <? N.of_nat (length (cc_relations c)))%N
             || (max_relations cx_limits <? N.of_nat (length (cc_scopes c)))%N
             || (max_requirements cx_limits <? N.of_nat (length (cc_requirements c)))%N)
    ErrorCode.Capacity "claim fields exceed budget".
Definition check_parties (c : ClaimContent) : M T unit :=
  mfor [RelationKind.Issuer; RelationKind.Subject; RelationKind.ClaimAction; RelationKind.CausedBy]
    (λ kind, refuse_if (negb (count_kind kind (cc_relations c) =? 1)) ErrorCode.InvalidRelation
      "claim needs exactly one issuer, subject, action and cause");;
  refuse_if (bool_decide (issuer c = None) || bool_decide (subject c = None)
             || bool_decide (action c = None) || bool_decide (cause c = None))
    ErrorCode.InvalidRelation "party/action/cause endpoint type";;
  refuse_if (bool_decide (issuer c ≠ Some cx_principal) && negb (au_runtime cx_authority))
    ErrorCode.WrongActor "only issuer may author claim";;
  refuse_if (bool_decide (cause c ≠ Some (au_cause cx_authority)))
    ErrorCode.InvalidCause "cause differs from authenticated turn";;
  refuse_if (bool_decide (issuer c = subject c) && bool_decide (action c ≠ Some ActionType.Handoff))
    ErrorCode.InvalidRelation "self targeting requires handoff action".
Definition check_scope (s : Scope) : M T unit :=
  text (sc_key s);;
  refuse_if (negb (normalized_key (sc_key s))) ErrorCode.InvalidSchema "scope key is not normalized".
(** The identity of the claim and the identifiers it allocates. *)
Definition collect_ids (batch : Batch) (new : NewClaim) : M T Batch :=
  hash ← lift_hash (content_hash (nc_content new));
  refuse_if (bool_decide (hash ∈ ba_hashes batch)) ErrorCode.PartialDuplicateBatch
    "duplicate canonical content inside batch";;
  known ← tget Identities (ObjectKind.Claim, hash);
  let existing := ba_existing batch ++ option_list known in
  refuse_if (bool_decide (nc_id new ∈ ba_ids batch)) ErrorCode.ObjectIdConflict "duplicate allocated ID";;
  ids ← mfold (λ ids v,
    refuse_if (bool_decide (nv_id v ∈ ids)) ErrorCode.ObjectIdConflict "duplicate validation allocation";;
    mret ({[nv_id v]} ∪ ids)) (nc_validations new) ({[nc_id new]} ∪ ba_ids batch);
  mret {| ba_ids := ids; ba_hashes := {[hash]} ∪ ba_hashes batch; ba_existing := existing |}.
(** The validation a requirement binds, checked against its specification. *)
Definition check_specification (new : NewClaim) (reference : RequirementRef) (v : ValidationContent) :
    M T unit :=
  let mismatch : M T unit :=
    refuse ErrorCode.InvalidSchema "validation specification mismatch" in
  if bool_decide (vc_ledger v ≠ cx_ledger) || bool_decide (vc_claim v ≠ nc_id new)
     || bool_decide (vc_schema v ≠ SCHEMA)
  then mismatch
  else
    hash ← lift_hash (specification_hash v);
    if bool_decide (hash ≠ rq_specification reference) then mismatch else mret tt.
Definition check_validation_fields (v : ValidationContent) : M T unit :=
  text (vc_description v);;
  refuse_if (is_zero (vc_evaluator v)
             || (max_requirements cx_limits <? N.of_nat (length (vc_handlers v)))%N
             || (max_relations cx_limits <? N.of_nat (length (vc_evidence_schemas v)))%N
             || (max_relations cx_limits <? N.of_nat (length (vc_contributed_by v)))%N)
    ErrorCode.Capacity "validation fields".
Definition check_handlers (v : ValidationContent) : M T unit :=
  match vc_quality_bar v with
  | Some q =>
      text q;;
      refuse_if (negb (existsb h_agentic (vc_handlers v))
                 || match head (vc_handlers v) with None => true | Some h => h_agentic h end)
        ErrorCode.InvalidHandler
        "quality bar requires a programmatic phase before a pinned agentic evaluator"
  | None => mret tt
  end;;
  refuse_if (negb (agentic_last (vc_handlers v))) ErrorCode.InvalidHandler
    "the optional agentic evaluator must be the last pinned handler";;
  refuse_if (bool_decide (vc_kind v ≠ ValidationKind.Receipt) && is_nil (vc_handlers v))
    ErrorCode.InvalidHandler "non-receipt validation needs a pinned handler";;
  refuse_if (bool_decide (vc_kind v = ValidationKind.Receipt)
             && bool_decide (vc_phase v ≠ ValidationPhase.WholeWork))
    ErrorCode.InvalidSchema "receipt validation is whole-work only".
(** A requirement of [new]; the accumulator is whether a required receipt
    validation was seen, and the requirement identifiers so far. *)
Definition check_requirement (new : NewClaim) (acc : bool * gset ValidationId)
    (reference : RequirementRef) : M T (bool * gset ValidationId) :=
  let '(required_receipt, ids) := acc in
  refuse_if (bool_decide (rq_id reference ∈ ids)) ErrorCode.InvalidRelation "duplicate requirement";;
  found ← ok_or (list_find (λ v, nv_id v = rq_id reference) (nc_validations new))
    ErrorCode.InvalidRelation "unbound requirement";
  let v := nv_content found.2 in
  check_specification new reference v;;
  check_validation_fields v;;
  check_handlers v;;
  mret (required_receipt
        || bool_decide (vc_kind v = ValidationKind.Receipt)
           && bool_decide (vc_phase v = ValidationPhase.WholeWork)
           && bool_decide (vc_mode v = ValidationMode.Required), {[rq_id reference]} ∪ ids).
Definition check_requirements (new : NewClaim) : M T unit :=
  refuse_if (negb (length (cc_requirements (nc_content new)) =? length (nc_validations new)))
    ErrorCode.InvalidRelation "requirements must bind every created validation once";;
  '(required_receipt, _) ← mfold (check_requirement new) (cc_requirements (nc_content new)) (false, ∅);
  refuse_if (negb required_receipt) ErrorCode.EmptyRequiredSet
    "Required WholeWork receipt validation is mandatory".
(** A relation to another object of the ledger. *)
Definition check_edge (new_ids : gset ClaimId) (id : ClaimId) (kind : RelationKind) (o : ObjectRef) :
    M T unit :=
  refuse_if (bool_decide (or_ledger o ≠ cx_ledger)) ErrorCode.InvalidNamespace "cross-session edge";;
  refuse_if (bool_decide (or_kind o ≠ ObjectKind.Claim)) ErrorCode.InvalidRelation
    "claim relation requires claim endpoint";;
  (if bool_decide (or_id o ∈ new_ids) then mret tt else
     known ← contains_key Claims (or_id o);
     refuse_if (negb known) ErrorCode.UnknownObject "edge target does not exist");;
  refuse_if (bool_decide (or_id o = id)
             && match kind with
                | RelationKind.CausedBy | RelationKind.Supersedes | RelationKind.Amends => true
                | _ => false
                end) ErrorCode.InvalidRelation "cyclic lineage".
Definition check_relation (new_ids : gset ClaimId) (id : ClaimId) (r : Relation) : M T unit :=
  let invalid : M T unit := refuse ErrorCode.InvalidRelation "invalid authored claim relation" in
  match rel_kind r, rel_target r with
  | (RelationKind.Issuer | RelationKind.Subject), TargetParticipant p =>
      if is_zero p then invalid else mret tt
  | RelationKind.ClaimAction, TargetAction _ => mret tt
  | RelationKind.CausedBy, TargetRoot root => if is_zero root then invalid else mret tt
  | (RelationKind.DependsOn | RelationKind.Awaits | RelationKind.CausedBy | RelationKind.Supersedes
     | RelationKind.Amends | RelationKind.Refines | RelationKind.ConflictsWith
     | RelationKind.DerivedFrom | RelationKind.Reviews) as kind, TargetObject o =>
      check_edge new_ids id kind o
  | RelationKind.Invalidates, _ =>
      refuse ErrorCode.StandingDenied "rank override policy is not configured"
  | _, _ => invalid
  end.
Definition check_claim (new_ids : gset ClaimId) (batch : Batch) (new : NewClaim) : M T Batch :=
  check_header (nc_content new);;
  check_parties (nc_content new);;
  mfor (cc_scopes (nc_content new)) check_scope;;
  batch ← collect_ids batch new;
  check_requirements new;;
  mfor (cc_relations (nc_content new)) (check_relation new_ids (nc_id new));;
  mret batch.

Definition new_lifecycle : ClaimLifecycle := {|
  cl_status := ClaimStatus.Generated; cl_revision := 1; cl_created := cx_sequence;
  cl_history := [{| sf_status := ClaimStatus.Generated; sf_sequence := cx_sequence |}];
  cl_receipt := None; cl_evidence_set := None; cl_testament := None; cl_local_complete := false;
  cl_released := false; cl_terminal_witness := None |}.
Definition insert_validation (v : NewValidation) : M T unit :=
  hash ← lift_hash (content_hash (nv_content v));
  tinsert Validations (nv_id v)
    (StoredObject_new (nv_content v) hash {| vl_created := cx_sequence; vl_latest_epoch := 0 |});;
  tinsert Identities (ObjectKind.Validation, hash) (nv_id v).
Definition insert_claim (new : NewClaim) : M T unit :=
  hash ← lift_hash (content_hash (nc_content new));
  mfor (nc_validations new) insert_validation;;
  tinsert Claims (nc_id new) (StoredObject_new (nc_content new) hash new_lifecycle);;
  tinsert Identities (ObjectKind.Claim, hash) (nc_id new);;
  emit (Some (nc_id new)) LifecycleAction.Generated
    (DeltaFact.Status None ClaimStatus.Generated None);;
  match cc_deadline (nc_content new) with
  | Some deadline => effect (EffectIntent.ScheduleDeadline (nc_id new) deadline)
  | None => mret tt
  end.
Definition lineage : list RelationKind :=
  [RelationKind.CausedBy; RelationKind.Supersedes; RelationKind.Amends].
Definition generate (new : list NewClaim) : M T CommandResult :=
  refuse_if (is_nil new || (max_batch cx_limits <? N.of_nat (length new))%N)
    ErrorCode.Capacity "creation batch size";;
  let new_ids : gset ClaimId := list_to_set (nc_id <$> new) in
  batch ← mfold (check_claim new_ids) new empty_batch;
  if negb (is_nil (ba_existing batch)) then
    if length (ba_existing batch) =? length new then mret (CommandResult.Existing (ba_existing batch))
    else refuse ErrorCode.PartialDuplicateBatch
      "partially duplicate creation batch requires explicit rebinding"
  else
    free ← mall free_id (set_iter (ba_ids batch));
    refuse_if (negb free) ErrorCode.ObjectIdConflict "allocated object ID already exists";;
    mfor new insert_claim;;
    check_acyclic lineage (max_graph_visits cx_limits);;
    mret (CommandResult.Generated (nc_id <$> new)).

(** ** Artifacts *)
Definition object_exists (o : ObjectRef) : M T bool :=
  match or_kind o with
  | ObjectKind.Claim => contains_key Claims (or_id o)
  | ObjectKind.Testament => contains_key Testaments (or_id o)
  | ObjectKind.Validation => contains_key Validations (or_id o)
  | ObjectKind.Artifact => contains_key Artifacts (or_id o)
  end.
Definition check_artifact (c : ArtifactContent) : M T unit :=
  refuse_if (bool_decide (ac_ledger c ≠ cx_ledger)) ErrorCode.InvalidNamespace "artifact namespace";;
  refuse_if (bool_decide (ac_schema c ≠ SCHEMA) || negb (valid_kind (ac_kind c)))
    ErrorCode.InvalidSchema "artifact kind or schema";;
  refuse_if ((max_inline_bytes cx_limits <? N.of_nat (length (ac_metadata c)))%N
             || (max_relations cx_limits <? N.of_nat (length (ac_inputs c)))%N
             || (max_relations cx_limits <? N.of_nat (length (ac_visibility c)))%N)
    ErrorCode.Capacity "artifact metadata";;
  mfor (ac_visibility c) text;;
  refuse_if match ac_payload c with
            | Inline value => max_inline_bytes cx_limits <? N.of_nat (length value)
            | Content _ => false
            end%N ErrorCode.Capacity "inline artifact bytes";;
  mfor (ac_inputs c) (λ o,
    refuse_if (bool_decide (or_ledger o ≠ cx_ledger)) ErrorCode.InvalidNamespace
      "artifact input namespace";;
    known ← object_exists o;
    refuse_if (negb known) ErrorCode.UnknownObject "artifact input").
Definition find_attestation (hash : ContentHash) : option EvidenceAttestation :=
  snd <$> list_find (λ a, ea_descriptor_hash a = hash ∧ Is_true (ea_durable a) ∧ Is_true (ea_schema_valid a))
    (au_evidence cx_authority).
Definition create_artifact (new : NewArtifact) : M T ArtifactRef :=
  check_artifact (na_content new);;
  hash ← lift_hash (content_hash (na_content new));
  attestation ← ok_or (find_attestation hash) ErrorCode.EvidenceNotDurable
    "schema-verified durable custody attestation required";
  known ← tget Identities (ObjectKind.Artifact, hash);
  match known with
  | Some id => mret {| ar_id := id; ar_hash := hash |}
  | None =>
      free ← free_id (na_id new);
      refuse_if (negb free) ErrorCode.ObjectIdConflict "artifact ID already used";;
      tinsert Artifacts (na_id new) (StoredObject_new (na_content new) hash
        {| al_created := cx_sequence; al_custody_revision := ea_custody_revision attestation |});;
      tinsert Identities (ObjectKind.Artifact, hash) (na_id new);;
      mret {| ar_id := na_id new; ar_hash := hash |}
  end.
Definition verify_error (r : ArtifactRef) : M T unit :=
  verify_artifacts [r];;
  x ← tget Artifacts (ar_id r);
  a ← ok_or x ErrorCode.InvalidManifest "error artifact missing";
  refuse_if (bool_decide (ac_kind (content a) ≠ "error"%string)) ErrorCode.InvalidSchema
    "boundary failure requires typed error artifact".

(** ** Testaments *)
Definition es_with (set : EvidenceSet) (receipt : ReceiptFence) (artifacts : list ArtifactRef)
    (closed : bool) : EvidenceSet :=
  {| es_id := es_id set; es_claim := es_claim set; es_receipt := receipt;
     es_artifacts := artifacts; es_closed := closed |}.
Definition create_testament (id : TestamentId) (new : TestamentContent) : M T unit :=
  free ← free_id id;
  refuse_if (negb free) ErrorCode.ObjectIdConflict "testament ID already exists";;
  verify_artifacts (tc_artifacts new);;
  hash ← lift_hash (content_hash new);
  known ← contains_key Identities (ObjectKind.Testament, hash);
  refuse_if known ErrorCode.ObjectIdConflict "testament content already exists";;
  tinsert Testaments id (StoredObject_new new hash
    {| tl_created := cx_sequence; tl_acknowledged := None |});;
  tinsert Identities (ObjectKind.Testament, hash) id;;
  x ← tget_mut EvidenceSets (tc_evidence_set new);
  set ← ok_or x ErrorCode.InvalidManifest "validated evidence set missing";
  tput EvidenceSets (tc_evidence_set new) (es_with set (es_receipt set) (es_artifacts set) true);;
  c ← get_claim (tc_claim new);
  tinsert Claims (tc_claim new)
    (with_lifecycle c (lc_evidence (tc_evidence_set new) (Some id) (lifecycle c)));;
  emit (Some (tc_claim new)) LifecycleAction.TestamentGenerated (DeltaFact.Testament id hash).
End create.
