(* ===== verification/Commands.v ===== *)
(** * Commands

    [Reducer::command] of [crates/focal-core/src/reduce.rs], one definition
    per command, and [execute_domain_on]: the command, propagation, the
    workspace check and the object budget. *)
From stdpp Require Import prelude gmap strings list.
From Stdlib Require Import NArith.
From S2P Require Import Prelude Vocabulary Objects Canonical Store Reducer Graph Validation.
From S2P Require Import Propagate Create.

(** The greatest admitted generation. *)
Definition last_epoch (w : EpochWindow) : option RequestEpoch := last (set_iter (ew_admitted w)).
(** A claim of the table holds the receipt identifier. *)
Definition receipt_allocated (receipt : ReceiptId) (rows : list (ClaimId * Claim)) : bool :=
  existsb (λ c, match cl_receipt (lifecycle c) with
                | Some r => bool_decide (f_receipt (r_fence r) = receipt)
                | None => false
                end) rows.*2.
(** A wait predicate on the predecessor, moved to the successor. *)
Definition rebind (predecessor successor : ClaimId) (p : WaitPredicate) : WaitPredicate :=
  if bool_decide (wait_target p = predecessor) then
    match p with
    | WaitSatisfied _ => WaitSatisfied successor
    | WaitTerminal _ => WaitTerminal successor
    | WaitReleased _ => WaitReleased successor
    end
  else p.
Definition with_roots (m : Monitor) (roots : gset WaitPredicate) : Monitor :=
  {| m_id := m_id m; m_owner := m_owner m; m_roots := roots; m_deadline := m_deadline m;
     m_registered := m_registered m; m_released := m_released m |}.

Section commands.
Context `{External} {T : TableImpl} `{Backend T} {cx : Ctx}.

(** ** Request generations *)
Definition negotiate_epoch (epoch : RequestEpoch) : M T CommandResult :=
  runtime;;
  refuse_if (bool_decide (epoch = 0%N) || bool_decide (Some epoch ≠ cx_legacy_epoch))
    ErrorCode.InvalidEpoch "epoch must match negotiation request";;
  x ← get_owned Epochs cx_principal;
  let window := default {| ew_minimum := epoch; ew_admitted := ∅ |} x in
  refuse_if (epoch <? ew_minimum window)%N ErrorCode.RequestHistoryExpired
    "generation below admitted floor";;
  if bool_decide (epoch ∈ ew_admitted window) then mret (CommandResult.EpochAdmitted epoch) else
  match last_epoch window with
  | Some last =>
      next ← ok_or (checked_add last 1) ErrorCode.InvalidEpoch "epoch exhausted";
      refuse_if (bool_decide (epoch ≠ next)) ErrorCode.InvalidEpoch "generations must be consecutive"
  | None =>
      refuse_if (bool_decide (epoch ≠ 1%N)) ErrorCode.InvalidEpoch "first generation must be one"
  end;;
  tinsert Epochs cx_principal
    {| ew_minimum := ew_minimum window; ew_admitted := {[epoch]} ∪ ew_admitted window |};;
  emit None LifecycleAction.EpochAdmitted (DeltaFact.Epoch epoch);;
  mret (CommandResult.EpochAdmitted epoch).
Definition advance_epoch_floor (minimum : RequestEpoch) : M T CommandResult :=
  runtime;;
  refuse_if (bool_decide (cx_legacy_epoch = None)) ErrorCode.InvalidEpoch
    "managed requests cannot advance legacy epochs";;
  x ← tget_mut Epochs cx_principal;
  window ← ok_or x ErrorCode.RequestEpochNotAdmitted "no admitted generations";
  refuse_if ((minimum <? ew_minimum window)%N || negb (bool_decide (minimum ∈ ew_admitted window)))
    ErrorCode.InvalidEpoch "floor must advance to admitted generation";;
  tput Epochs cx_principal
    {| ew_minimum := minimum; ew_admitted := filter (λ e, minimum <= e)%N (ew_admitted window) |};;
  emit None LifecycleAction.EpochFloorAdvanced (DeltaFact.Epoch minimum);;
  mret (CommandResult.EpochFloorAdvanced minimum).

(** ** Posting and receipts *)
Definition post_claim (id : ClaimId) : M T CommandResult :=
  c ← allowed id [ClaimStatus.Generated];
  issuer_authority c;;
  vs ← mfold (λ denied r,
    x ← tget Validations (rq_id r);
    mret (denied || match x with
                    | Some v => au_policy_revision cx_authority <? vc_policy_revision (content v)
                    | None => false
                    end)%N) (cc_requirements (content c)) false;
  inform_if vs id InformReason.StandingDenied;;
  set_status id ClaimStatus.Posted None;;
  manifest ← lift_hash (manifest_hash []);
  schedule_phase id ValidationPhase.Admission (content_hash_of c) manifest;;
  effect (EffectIntent.DispatchClaim id);;
  result id.
Definition dependency_ready (id d : ClaimId) : M T unit :=
  c ← get_claim d;
  inform_if (bool_decide (cl_status (lifecycle c) ≠ ClaimStatus.Satisfied)) id
    (InformReason.DependencyPending d).
Definition acquire_receipt (id : ClaimId) (receipt : ReceiptId) (epoch : N) : M T CommandResult :=
  c ← allowed id [ClaimStatus.Posted];
  refuse_if (bool_decide (subject (content c) ≠ Some cx_principal)) ErrorCode.WrongActor
    "only resolved subject can receive";;
  passed ← phase_passed id ValidationPhase.Admission;
  inform_if (negb passed) id InformReason.ValidationPending;;
  mfor (dependencies (content c) RelationKind.DependsOn) (dependency_ready id);;
  rows ← titer Claims;
  refuse_if (bool_decide (epoch ≠ 1%N) || is_zero receipt || receipt_allocated receipt rows)
    ErrorCode.StaleReceipt "new receipt must have unique ID and epoch one";;
  let r := {| r_fence := {| f_receipt := receipt; f_epoch := epoch |}; r_holder := cx_principal;
              r_acquired := cx_sequence |} in
  tinsert Claims id (with_lifecycle c (lc_receipt r (lifecycle c)));;
  set_status id ClaimStatus.Received None;;
  emit (Some id) LifecycleAction.Received (DeltaFact.Receipt r);;
  mret (CommandResult.Receipt id (r_fence r)).
Definition adopt_receipt (id : ClaimId) (previous : ReceiptFence) (receipt : ReceiptId)
    (new_holder : ParticipantId) (epoch : N) : M T CommandResult :=
  runtime;;
  c ← allowed id [ClaimStatus.Received; ClaimStatus.Progressed; ClaimStatus.TestamentGenerated;
                  ClaimStatus.TestamentAcknowledged; ClaimStatus.Validating];
  old ← ok_or (cl_receipt (lifecycle c)) ErrorCode.StaleReceipt "no receipt";
  (if bool_decide (r_fence old ≠ previous)
   then refuse ErrorCode.StaleReceipt "invalid adoption fence"
   else
     next ← ok_or (checked_add (f_epoch previous) 1) ErrorCode.StaleReceipt "epoch exhausted";
     refuse_if (bool_decide (epoch ≠ next) || is_zero receipt || is_zero new_holder)
       ErrorCode.StaleReceipt "invalid adoption fence");;
  rows ← titer Claims;
  refuse_if (receipt_allocated receipt rows) ErrorCode.StaleReceipt "receipt ID already allocated";;
  let r := {| r_fence := {| f_receipt := receipt; f_epoch := epoch |}; r_holder := new_holder;
              r_acquired := cx_sequence |} in
  match cl_evidence_set (lifecycle c) with
  | Some set_id =>
      x ← tget_mut EvidenceSets set_id;
      match x with
      | Some set =>
          if es_closed set then mret tt
          else tput EvidenceSets set_id (es_with set (r_fence r) (es_artifacts set) (es_closed set))
      | None => mret tt
      end
  | None => mret tt
  end;;
  tinsert Claims id (with_lifecycle c (lc_receipt r (lifecycle c)));;
  emit (Some id) LifecycleAction.ReceiptAdopted (DeltaFact.Receipt r);;
  mret (CommandResult.Receipt id (r_fence r)).
Definition working : list ClaimStatus := [ClaimStatus.Received; ClaimStatus.Progressed].
Definition record_progress (id : ClaimId) (receipt : ReceiptFence) (message : string) :
    M T CommandResult :=
  c ← allowed id working;
  holder c receipt;;
  text message;;
  (if bool_decide (cl_status (lifecycle c) = ClaimStatus.Received)
   then set_status id ClaimStatus.Progressed None else mret tt);;
  emit (Some id) LifecycleAction.Progressed (DeltaFact.Progress message);;
  result id.

(** ** Evidence and testaments *)
Definition begin_evidence_set (id : ClaimId) (receipt : ReceiptFence) (set : EvidenceSetId) :
    M T CommandResult :=
  c ← allowed id working;
  holder c receipt;;
  known ← contains_key EvidenceSets set;
  refuse_if (is_zero set || known || bool_decide (is_Some (cl_evidence_set (lifecycle c))))
    ErrorCode.ObjectIdConflict "evidence set already exists for this receipt";;
  tinsert EvidenceSets set {| es_id := set; es_claim := id; es_receipt := receipt;
    es_artifacts := []; es_closed := false |};;
  tinsert Claims id (with_lifecycle c (lc_evidence set None (lifecycle c)));;
  emit (Some id) LifecycleAction.EvidenceOpened (DeltaFact.EvidenceSet set);;
  mret (CommandResult.EvidenceSet set).
(** The open set of the claim under this receipt. *)
Definition open_set (id : ClaimId) (receipt : ReceiptFence) (set_id : EvidenceSetId) : M T EvidenceSet :=
  x ← tget EvidenceSets set_id;
  set ← ok_or x ErrorCode.UnknownObject "unknown evidence set";
  refuse_if (bool_decide (es_claim set ≠ id) || bool_decide (es_receipt set ≠ receipt)
             || es_closed set) ErrorCode.StaleReceipt "evidence set closed or fenced";;
  mret set.
Definition attach_artifact (id : ClaimId) (receipt : ReceiptFence) (set_id : EvidenceSetId)
    (artifact : NewArtifact) : M T CommandResult :=
  c ← allowed id working;
  holder c receipt;;
  set ← open_set id receipt set_id;
  refuse_if (max_artifacts_per_set cx_limits <=? N.of_nat (length (es_artifacts set)))%N
    ErrorCode.Capacity "artifact manifest size";;
  refuse_if (bool_decide (ac_receipt (na_content artifact) ≠ Some receipt)
             || bool_decide (ac_producer (na_content artifact) ≠ cx_principal))
    ErrorCode.WrongActor "artifact provenance must match holder";;
  reference ← create_artifact artifact;
  x ← tget_mut EvidenceSets set_id;
  set ← ok_or x ErrorCode.InvalidManifest "checked set missing";
  (if bool_decide (reference ∈ es_artifacts set) then mret tt else
     tput EvidenceSets set_id (es_with set (es_receipt set) (es_artifacts set ++ [reference])
       (es_closed set));;
     emit (Some id) LifecycleAction.ArtifactAttached (DeltaFact.Artifact reference));;
  mret (CommandResult.Artifact reference).
Definition close_testament (id : ClaimId) (receipt : ReceiptFence) (testament : TestamentId)
    (set_id : EvidenceSetId) (manifest : list ArtifactRef) (summary : string)
    (confidence : Confidence) (outcome : OutcomeKind) : M T CommandResult :=
  c ← allowed id working;
  holder c receipt;;
  text summary;;
  set ← open_set id receipt set_id;
  refuse_if (bool_decide (es_artifacts set ≠ manifest)) ErrorCode.InvalidManifest
    "close must contain the exact staged ordered manifest";;
  create_testament testament {| tc_ledger := cx_ledger; tc_schema := SCHEMA; tc_claim := id;
    tc_receipt := receipt; tc_evidence_set := set_id; tc_artifacts := manifest;
    tc_summary := summary; tc_confidence := confidence; tc_outcome := outcome |};;
  set_status id ClaimStatus.TestamentGenerated None;;
  mret (CommandResult.Testament testament).
Definition acknowledge_testament (id : ClaimId) (testament : TestamentId) : M T CommandResult :=
  runtime;;
  c ← allowed id [ClaimStatus.TestamentGenerated];
  refuse_if (bool_decide (cl_testament (lifecycle c) ≠ Some testament)) ErrorCode.InvalidManifest
    "testament is not the active close";;
  x ← get_owned Testaments testament;
  t ← ok_or x ErrorCode.UnknownObject "unknown testament";
  verify_artifacts (tc_artifacts (content t));;
  tinsert Testaments testament (with_lifecycle t
    {| tl_created := tl_created (lifecycle t); tl_acknowledged := Some cx_sequence |});;
  set_status id ClaimStatus.TestamentAcknowledged None;;
  manifest ← lift_hash (manifest_hash (tc_artifacts (content t)));
  receipt_passes id (content_hash_of t) manifest;;
  result id.

(** ** Validation *)
Definition begin_whole_work (id : ClaimId) : M T CommandResult :=
  runtime;;
  c ← allowed id [ClaimStatus.TestamentAcknowledged];
  complete ← phase_complete id ValidationPhase.Increment;
  inform_if (negb complete) id InformReason.ValidationPending;;
  tid ← ok_or (cl_testament (lifecycle c)) ErrorCode.InvalidManifest "missing testament";
  x ← tget Testaments tid;
  t ← ok_or x ErrorCode.InvalidManifest "closed testament missing";
  manifest ← lift_hash (manifest_hash (tc_artifacts (content t)));
  set_status id ClaimStatus.Validating None;;
  schedule_phase id ValidationPhase.WholeWork (content_hash_of t) manifest;;
  result id.
Definition begin_increment (id : ClaimId) (validation : ValidationId) (target manifest : ContentHash) :
    M T CommandResult :=
  runtime;;
  allowed id [ClaimStatus.Received; ClaimStatus.Progressed; ClaimStatus.TestamentGenerated;
              ClaimStatus.TestamentAcknowledged];;
  x ← tget Validations validation;
  v ← ok_or x ErrorCode.UnknownObject "unknown validation";
  refuse_if (bool_decide (vc_claim (content v) ≠ id)
             || bool_decide (vc_phase (content v) ≠ ValidationPhase.Increment))
    ErrorCode.InvalidRelation "increment validation requirement mismatch";;
  run ← schedule validation target manifest;
  mret (CommandResult.Validation run).
Definition fenced_verdict (verdict : VerdictRecord) (receipt : option ReceiptFence) :
    M T CommandResult :=
  x ← tget Runs (ve_run verdict);
  run ← ok_or x ErrorCode.UnknownObject "fenced validation run";
  claim ← get_claim (run_claim run);
  refuse_if (bool_decide (r_fence <$> cl_receipt (lifecycle claim) ≠ receipt)) ErrorCode.StaleReceipt
    "verdict receipt generation changed";;
  record_verdict verdict.
Definition complete_with (id : ClaimId) (value : VerdictValue) : M T unit :=
  match value with
  | VerdictValue.Pass =>
      c ← get_claim id;
      tinsert Claims id (with_lifecycle c (lc_local_complete (lifecycle c)));;
      emit (Some id) LifecycleAction.LocalCompleted DeltaFact.LocalCompletion
  | VerdictValue.Fail => set_status id ClaimStatus.ValidationFailed None
  | VerdictValue.Error => set_status id ClaimStatus.ValidationErrored None
  | VerdictValue.Incomplete => set_status id ClaimStatus.ValidationIncomplete None
  end.
Definition complete_whole_work (id : ClaimId) : M T CommandResult :=
  runtime;;
  c ← allowed id [ClaimStatus.Validating];
  inform_if (cl_local_complete (lifecycle c)) id InformReason.AlreadyApplied;;
  x ← aggregate id;
  match x with
  | None => inform id InformReason.ValidationPending
  | Some value =>
      complete_with id value;;
      propagate;;
      result id
  end.

(** ** Boundary failures *)
Definition fail_boundary (statuses : list ClaimStatus) (status : ClaimStatus) (id : ClaimId)
    (evidence : ArtifactRef) : M T CommandResult :=
  runtime;;
  allowed id statuses;;
  verify_error evidence;;
  set_status id status None;;
  result id.
Definition fail_post : ClaimId → ArtifactRef → M T CommandResult :=
  fail_boundary [ClaimStatus.Generated; ClaimStatus.Posted] ClaimStatus.PostFailed.
Definition fail_receipt : ClaimId → ArtifactRef → M T CommandResult :=
  fail_boundary [ClaimStatus.Posted] ClaimStatus.ReceiptFailed.
(** The set the failure evidence goes to, opened if it does not exist, with
    the error artifact in it. *)
Definition failure_set (id : ClaimId) (receipt : ReceiptFence) (set_id : EvidenceSetId)
    (a : ArtifactRef) : M T (list ArtifactRef) :=
  x ← tget EvidenceSets set_id;
  match x with
  | Some set =>
      refuse_if (bool_decide (es_claim set ≠ id) || es_closed set) ErrorCode.InvalidManifest
        "failure evidence set mismatch"
  | None =>
      tinsert EvidenceSets set_id {| es_id := set_id; es_claim := id; es_receipt := receipt;
        es_artifacts := []; es_closed := false |}
  end;;
  x ← tget_mut EvidenceSets set_id;
  set ← ok_or x ErrorCode.InvalidManifest "failure set missing";
  let artifacts := if bool_decide (a ∈ es_artifacts set) then es_artifacts set
                   else es_artifacts set ++ [a] in
  tput EvidenceSets set_id (es_with set (es_receipt set) artifacts (es_closed set));;
  mret artifacts.
Definition fail_testament_generation (id : ClaimId) (testament : TestamentId)
    (set_id : EvidenceSetId) (error : NewArtifact) (summary : string) : M T CommandResult :=
  runtime;;
  c ← allowed id working;
  text summary;;
  refuse_if (bool_decide (ac_kind (na_content error) ≠ "error"%string)) ErrorCode.InvalidSchema
    "exceptional close needs error evidence";;
  a ← create_artifact error;
  receipt ← ok_or (cl_receipt (lifecycle c)) ErrorCode.StaleReceipt "missing receipt";
  artifacts ← failure_set id (r_fence receipt) set_id a;
  let new := {| tc_ledger := cx_ledger; tc_schema := SCHEMA; tc_claim := id;
    tc_receipt := r_fence receipt; tc_evidence_set := set_id; tc_artifacts := artifacts;
    tc_summary := summary; tc_confidence := Confidence.Committed;
    tc_outcome := OutcomeKind.Failed |} in
  hash ← lift_hash (content_hash new);
  manifest ← lift_hash (manifest_hash artifacts);
  create_testament testament new;;
  x ← get_owned Testaments testament;
  t ← ok_or x ErrorCode.InvalidManifest "failure testament missing";
  tinsert Testaments testament (with_lifecycle t
    {| tl_created := cx_sequence; tl_acknowledged := Some cx_sequence |});;
  emit (Some id) LifecycleAction.TestamentAcknowledged (DeltaFact.Testament testament hash);;
  receipt_passes id hash manifest;;
  set_status id ClaimStatus.TestamentGenerationFailed None;;
  result id.

(** ** Control *)
Definition cancel_claim (id : ClaimId) (reason : string) : M T CommandResult :=
  c ← active id;
  issuer_authority c;;
  text reason;;
  cancel_tree id ClaimStatus.Cancelled;;
  result id.
Definition revoke_claim (id : ClaimId) (reason : string) : M T CommandResult :=
  runtime;;
  active id;;
  text reason;;
  cancel_tree id ClaimStatus.Revoked;;
  result id.
(** A due timer: the waiting cycle's victim, else the claim itself. *)
Definition expire_tree (id : ClaimId) : M T unit :=
  x ← cycle_containing id (max_graph_visits cx_limits);
  match x with
  | Some component =>
      victim ← cycle_victim component;
      cancel_tree victim ClaimStatus.Deadlocked
  | None => cancel_tree id ClaimStatus.Expired
  end.
Definition expire_claim (id : ClaimId) (timer : TimerId) (generation fired_at : N) :
    M T CommandResult :=
  runtime;;
  c ← get_claim id;
  if is_terminal (cl_status (lifecycle c)) then mret CommandResult.Noop else
  match cc_deadline (content c) with
  | None => mret CommandResult.Noop
  | Some deadline =>
      if bool_decide (dl_timer deadline ≠ timer) || bool_decide (dl_generation deadline ≠ generation)
      then mret CommandResult.Noop
      else
        refuse_if ((fired_at <? dl_at deadline)%N || (au_logical_time cx_authority <? fired_at)%N)
          ErrorCode.DeadlineNotDue "timer has not reached logged deadline";;
        expire_tree id;;
        result id
  end.
Definition supersede_claim (predecessor : ClaimId) (successor : NewClaim) : M T CommandResult :=
  c ← get_claim predecessor;
  issuer_authority c;;
  refuse_if (bool_decide (issuer (nc_content successor) ≠ issuer (content c))
             || bool_decide (subject (nc_content successor) ≠ subject (content c))
             || negb (bool_decide (predecessor ∈ dependencies (nc_content successor)
                                                   RelationKind.Supersedes)))
    ErrorCode.InvalidRelation "compatible successor must explicitly supersede predecessor";;
  res ← generate [successor];
  (if is_active (cl_status (lifecycle c)) then cancel_tree predecessor ClaimStatus.Superseded
   else mret tt);;
  mret res.

(** ** Monitors and scopes *)
Definition register_monitor (monitor : MonitorId) (owner : ClaimId) (roots : gset WaitPredicate)
    (deadline : Deadline) : M T CommandResult :=
  c ← active owner;
  issuer_authority c;;
  known ← contains_key Monitors monitor;
  refuse_if (is_zero monitor || known) ErrorCode.ObjectIdConflict "monitor ID already exists";;
  refuse_if ((dl_at deadline <=? au_logical_time cx_authority)%N || is_zero (dl_timer deadline))
    ErrorCode.MissingDeadline "parked work requires future finite deadline";;
  refuse_if (bool_decide (roots = ∅) || (max_relations cx_limits <? N.of_nat (size roots))%N)
    ErrorCode.Capacity "monitor budget";;
  n ← tlen Monitors;
  refuse_if (max_monitors cx_limits <=? n)%N ErrorCode.Capacity "monitor budget";;
  mfor (set_iter roots) (λ root, get_claim (wait_target root);; mret tt);;
  tinsert Monitors monitor {| m_id := monitor; m_owner := owner; m_roots := roots;
    m_deadline := deadline; m_registered := cx_sequence; m_released := None |};;
  emit (Some owner) LifecycleAction.ScopeRegistered (DeltaFact.Scope monitor);;
  effect (EffectIntent.ScheduleDeadline owner deadline);;
  mret (CommandResult.Monitor monitor).
Definition rebind_monitor (monitor : MonitorId) (predecessor successor : ClaimId) : M T CommandResult :=
  runtime;;
  new ← get_claim successor;
  refuse_if (negb (bool_decide (predecessor ∈ dependencies (content new) RelationKind.Supersedes)))
    ErrorCode.InvalidRelation "monitor follows only explicit successor";;
  x ← tget_mut Monitors monitor;
  m ← ok_or x ErrorCode.UnknownObject "unknown monitor";
  inform_if (bool_decide (is_Some (m_released m))) (m_owner m) InformReason.AlreadyApplied;;
  tput Monitors monitor
    (with_roots m (list_to_set (rebind predecessor successor <$> set_iter (m_roots m))));;
  refuse_if (negb (existsb (λ p, bool_decide (wait_target p = predecessor)) (set_iter (m_roots m))))
    ErrorCode.InvalidRelation "monitor does not reference predecessor";;
  emit (Some (m_owner m)) LifecycleAction.ScopeRebound (DeltaFact.Scope monitor);;
  mret (CommandResult.Monitor monitor).
Definition release_scope (id : ClaimId) : M T CommandResult :=
  runtime;;
  c ← get_claim id;
  rows ← titer Claims;
  inform_if (negb (is_terminal (cl_status (lifecycle c)))
             || existsb (λ x, caused_by id x && negb (cl_released (lifecycle x))) rows.*2)
    id (InformReason.DependencyPending id);;
  tinsert Claims id (with_lifecycle c (lc_released (lifecycle c)));;
  result id.
Definition register_artifact (artifact : NewArtifact) : M T CommandResult :=
  runtime;;
  refuse_if (bool_decide (ac_producer (na_content artifact) ≠ cx_principal)) ErrorCode.WrongActor
    "artifact producer must be authenticated principal";;
  reference ← create_artifact artifact;
  emit None LifecycleAction.ArtifactAttached (DeltaFact.Artifact reference);;
  mret (CommandResult.Artifact reference).
Definition expire_monitor (monitor : MonitorId) (timer : TimerId) (generation fired_at : N) :
    M T CommandResult :=
  runtime;;
  x ← get_owned Monitors monitor;
  m ← ok_or x ErrorCode.UnknownObject "monitor deadline";
  if bool_decide (is_Some (m_released m)) || bool_decide (dl_timer (m_deadline m) ≠ timer)
     || bool_decide (dl_generation (m_deadline m) ≠ generation)
  then mret CommandResult.Noop
  else
    refuse_if ((fired_at <? dl_at (m_deadline m))%N || (au_logical_time cx_authority <? fired_at)%N)
      ErrorCode.DeadlineNotDue "monitor timer not due";;
    expire_tree (m_owner m);;
    mret (CommandResult.Monitor monitor).

(** ** Dispatch *)
Definition command (c : Command) : M T CommandResult :=
  match c with
  | Command.NegotiateEpoch epoch => negotiate_epoch epoch
  | Command.AdvanceEpochFloor minimum => advance_epoch_floor minimum
  | Command.GenerateClaim claim => generate [claim]
  | Command.GenerateClaimBatch claims => generate claims
  | Command.PostClaim claim => post_claim claim
  | Command.AcquireReceipt claim receipt epoch => acquire_receipt claim receipt epoch
  | Command.AdoptReceipt claim previous receipt holder epoch =>
      adopt_receipt claim previous receipt holder epoch
  | Command.RecordProgress claim receipt message => record_progress claim receipt message
  | Command.BeginEvidenceSet claim receipt set => begin_evidence_set claim receipt set
  | Command.AttachArtifact claim receipt set artifact => attach_artifact claim receipt set artifact
  | Command.CloseTestament claim receipt testament set manifest summary confidence outcome =>
      close_testament claim receipt testament set manifest summary confidence outcome
  | Command.AcknowledgeTestament claim testament => acknowledge_testament claim testament
  | Command.BeginWholeWorkValidation claim => begin_whole_work claim
  | Command.BeginIncrementValidation claim validation target manifest =>
      begin_increment claim validation target manifest
  | Command.RecordValidationVerdict verdict => record_verdict verdict
  | Command.CompleteWholeWork claim => complete_whole_work claim
  | Command.FailPost claim evidence => fail_post claim evidence
  | Command.FailReceipt claim evidence => fail_receipt claim evidence
  | Command.FailTestamentGeneration claim testament set error summary =>
      fail_testament_generation claim testament set error summary
  | Command.CancelClaim claim reason => cancel_claim claim reason
  | Command.RevokeClaim claim reason => revoke_claim claim reason
  | Command.ExpireClaim claim timer generation fired_at => expire_claim claim timer generation fired_at
  | Command.SupersedeClaim predecessor successor => supersede_claim predecessor successor
  | Command.RegisterMonitor monitor owner roots deadline => register_monitor monitor owner roots deadline
  | Command.RebindMonitor monitor predecessor successor => rebind_monitor monitor predecessor successor
  | Command.ReleaseScope claim => release_scope claim
  | Command.RegisterArtifact artifact => register_artifact artifact
  | Command.ExpireMonitor monitor timer generation fired_at =>
      expire_monitor monitor timer generation fired_at
  | Command.RecordFencedValidationVerdict verdict receipt => fenced_verdict verdict receipt
  end.

(** The checked sum of the object tables against the budget. *)
Definition object_budget : M T unit :=
  claims ← tlen Claims;
  validations ← tlen Validations;
  artifacts ← tlen Artifacts;
  testaments ← tlen Testaments;
  sets ← tlen EvidenceSets;
  runs ← tlen Runs;
  objects ← ok_or (foldl (λ total count, total ≫= λ t, checked_add t count) (Some 0%N)
                     [claims; validations; artifacts; testaments; sets; runs])
    ErrorCode.Capacity "object count overflow";
  refuse_if (max_objects cx_limits <? objects)%N ErrorCode.Capacity "object budget exhausted".
Definition execute_domain (c : Command) : M T CommandResult :=
  res ← command c;
  propagate;;
  check_capacity;;
  object_budget;;
  mret res.
End commands.
