(* ===== verification/Admission.v ===== *)
(** * Admission policy for new proposals

    [crates/focal-core/src/admission.rs]: the checks a newly proposed command
    passes before the reducer runs. Replay of committed entries does not apply
    them. *)
From stdpp Require Import prelude gmap strings list.
From Stdlib Require Import NArith.
From S2P Require Import Prelude Vocabulary Objects Canonical Store Reducer Validation Create.

(** A receipt validation that is anything but whole-work delivery. *)
Definition bad_receipt (v : ValidationContent) : bool :=
  bool_decide (vc_kind v = ValidationKind.Receipt)
  && (bool_decide (vc_phase v ≠ ValidationPhase.WholeWork) || bool_decide (is_Some (vc_quality_bar v))
      || negb (is_nil (vc_handlers v)) || negb (is_nil (vc_evidence_schemas v))).
Definition diagnostic_content (c : ArtifactContent) (ledger : LedgerId) (principal : ParticipantId)
    (receipt : ReceiptFence) : bool :=
  bool_decide (ac_kind c = "error"%string) && bool_decide (ac_ledger c = ledger)
  && bool_decide (ac_schema c = SCHEMA) && bool_decide (ac_schema_hash c ≠ 0%N)
  && bool_decide (ac_receipt c = Some receipt) && bool_decide (ac_producer c = principal).
Definition eligible_diagnostic (a : Artifact) (ledger : LedgerId) (principal : ParticipantId)
    (receipt : ReceiptFence) : bool :=
  diagnostic_content (content a) ledger principal receipt
  && bool_decide (al_custody_revision (lifecycle a) ≠ 0%N).

Section admission.
Context `{External} {T : TableImpl} `{Backend T} {cx : Ctx}.

Definition admit_validation (v : ValidationContent) : M T unit :=
  refuse_if (bad_receipt v) ErrorCode.InvalidSchema
    "receipt is whole-work delivery only; use a separate test, inspection or contract validation for evidence and quality".
Definition admit_claim (new : NewClaim) : M T unit :=
  mfor (nc_validations new) (λ v, admit_validation (nv_content v)).
(** The requirements of a stored claim. *)
Definition admit_stored (id : ClaimId) : M T unit :=
  x ← tget Claims id;
  match x with
  | Some value =>
      mfor (cc_requirements (content value)) (λ requirement,
        x ← tget Validations (rq_id requirement);
        match x with Some v => admit_validation (content v) | None => mret tt end)
  | None => mret tt
  end.

(** The scan of a manifest for the holder's diagnostic. *)
Fixpoint find_diagnostic (ledger : LedgerId) (receipt : ReceiptFence) (manifest : list ArtifactRef) :
    M T unit :=
  match manifest with
  | [] =>
      refuse ErrorCode.EvidenceNotDurable
        "non-complete testament requires the holder's durable typed error artifact in its exact manifest"
  | reference :: manifest =>
      x ← tget Artifacts (ar_id reference);
      artifact ← ok_or x ErrorCode.InvalidManifest "unknown diagnostic artifact";
      refuse_if (bool_decide (content_hash_of artifact ≠ ar_hash reference)) ErrorCode.InvalidManifest
        "artifact hash changed";;
      if eligible_diagnostic artifact ledger cx_principal receipt then mret tt
      else find_diagnostic ledger receipt manifest
  end.
(** A close whose outcome is not complete. *)
Definition validate_failure_report (claim : ClaimId) (receipt : ReceiptFence)
    (evidence_set : EvidenceSetId) (manifest : list ArtifactRef) : M T unit :=
  x ← tget Claims claim;
  parent ← ok_or x ErrorCode.UnknownObject "unknown claim";
  entitlement ← ok_or (cl_receipt (lifecycle parent)) ErrorCode.StaleReceipt "no active receipt";
  refuse_if (bool_decide (r_fence entitlement ≠ receipt)) ErrorCode.StaleReceipt
    "testament receipt changed";;
  refuse_if (bool_decide (r_holder entitlement ≠ cx_principal)) ErrorCode.WrongActor
    "receipt holder must testify";;
  x ← tget EvidenceSets evidence_set;
  set ← ok_or x ErrorCode.UnknownObject "unknown evidence set";
  refuse_if (bool_decide (es_claim set ≠ claim) || bool_decide (es_receipt set ≠ receipt)
             || es_closed set) ErrorCode.StaleReceipt "evidence set closed or fenced";;
  refuse_if (bool_decide (es_artifacts set ≠ manifest)) ErrorCode.InvalidManifest
    "close must contain the exact staged ordered manifest";;
  find_diagnostic (cc_ledger (content parent)) receipt manifest.
Definition validate_report (c : Command) : M T unit :=
  match c with
  | Command.FailTestamentGeneration _ _ _ _ _ =>
      refuse ErrorCode.InvalidSchema
        "the receipt holder must submit the testament, including failures; runtime-generated failure testaments are historical only"
  | Command.CloseTestament claim receipt _ evidence_set manifest _ _ outcome =>
      match outcome with
      | OutcomeKind.Complete => mret tt
      | _ => validate_failure_report claim receipt evidence_set manifest
      end
  | _ => mret tt
  end.

(** An eligible diagnostic is already in the set. *)
Fixpoint has_diagnostic (ledger : LedgerId) (receipt : ReceiptFence) (refs : list ArtifactRef) :
    M T bool :=
  match refs with
  | [] => mret false
  | reference :: refs =>
      x ← tget Artifacts (ar_id reference);
      match x with
      | Some artifact =>
          if bool_decide (content_hash_of artifact = ar_hash reference)
             && eligible_diagnostic artifact ledger cx_principal receipt
          then mret true else has_diagnostic ledger receipt refs
      | None => has_diagnostic ledger receipt refs
      end
  end.
(** The candidate may take the last slot of the set. *)
Definition last_slot (ledger : LedgerId) (receipt : ReceiptFence) (set : EvidenceSet)
    (candidate : NewArtifact) : M T unit :=
  let reserved : M T unit := refuse ErrorCode.Capacity
    "the final artifact slot is reserved for a durable current-holder error report" in
  hash ← lift_hash (content_hash (na_content candidate));
  known ← tget Identities (ObjectKind.Artifact, hash);
  match known with
  | Some id =>
      if bool_decide ({| ar_id := id; ar_hash := hash |} ∈ es_artifacts set) then mret tt else
      x ← tget Artifacts id;
      match x with
      | Some artifact =>
          if bool_decide (content_hash_of artifact = hash)
             && eligible_diagnostic artifact ledger cx_principal receipt
          then mret tt else reserved
      | None => reserved
      end
  | None =>
      if diagnostic_content (na_content candidate) ledger cx_principal receipt then
        refuse_if match find_attestation hash with
                  | Some evidence => bool_decide (ea_custody_revision evidence = 0%N)
                  | None => true
                  end ErrorCode.EvidenceNotDurable
          "reserved diagnostic slot requires verified durable custody"
      else reserved
  end.
(** An attachment that would fill the set. *)
Definition validate_last_attachment (claim : ClaimId) (receipt : ReceiptFence) (set : EvidenceSet)
    (candidate : NewArtifact) : M T unit :=
  x ← tget Claims claim;
  parent ← ok_or x ErrorCode.UnknownObject "unknown claim";
  entitlement ← ok_or (cl_receipt (lifecycle parent)) ErrorCode.StaleReceipt "no active receipt";
  refuse_if (bool_decide (r_fence entitlement ≠ receipt) || bool_decide (es_receipt set ≠ receipt)
             || bool_decide (es_claim set ≠ claim) || es_closed set)
    ErrorCode.StaleReceipt "evidence set closed or fenced";;
  refuse_if (bool_decide (r_holder entitlement ≠ cx_principal)) ErrorCode.WrongActor
    "receipt holder must supply evidence";;
  present ← has_diagnostic (cc_ledger (content parent)) receipt (es_artifacts set);
  if present : bool then mret tt
  else last_slot (cc_ledger (content parent)) receipt set candidate.
Definition validate_diagnostic_headroom (c : Command) : M T unit :=
  match c with
  | Command.AttachArtifact claim receipt evidence_set candidate =>
      x ← tget EvidenceSets evidence_set;
      match x with
      | None => mret tt
      | Some set =>
          let len := N.of_nat (length (es_artifacts set)) in
          if (max_artifacts_per_set cx_limits <=? len)%N
             || bool_decide (checked_add len 1 ≠ Some (max_artifacts_per_set cx_limits))
          then mret tt
          else validate_last_attachment claim receipt set candidate
      end
  | _ => mret tt
  end.
Definition validate_admission (c : Command) : M T unit :=
  validate_report c;;
  validate_diagnostic_headroom c;;
  match c with
  | Command.GenerateClaim value | Command.SupersedeClaim _ value => admit_claim value
  | Command.GenerateClaimBatch claims => mfor claims admit_claim
  | Command.AcknowledgeTestament claim _ | Command.BeginWholeWorkValidation claim
  | Command.CompleteWholeWork claim => admit_stored claim
  | _ => mret tt
  end.
End admission.
