(* ===== verification/Core.v ===== *)
(** * The core: apply, staging and pending rows

    [Core] of [crates/focal-core/src/lib.rs], the row versions of [overlay.rs]
    and [access.rs], the entry version of [execution.rs], and the pending rows
    and staging of [pending.rs]. *)
From stdpp Require Import prelude gmap strings list.
From Stdlib Require Import NArith.
From S2P Require Import Prelude Vocabulary Objects Canonical Store Reducer Commands Admission.

(** ** Versions of rows *)
Record RowWrites := {
  rw_rows : Tables (@gmap);
  rw_structural : gset StateTable;
  rw_added : gmap StateTable N;
}.
Record RowVersion := { rv_sequence : SessionSeq; rv_rows : RowWrites }.

Definition publish_tables (rows base : Tables (@gmap)) : Tables (@gmap) := {|
  claims := claims rows ∪ claims base; validations := validations rows ∪ validations base;
  artifacts := artifacts rows ∪ artifacts base; testaments := testaments rows ∪ testaments base;
  evidence_sets := evidence_sets rows ∪ evidence_sets base; runs := runs rows ∪ runs base;
  monitors := monitors rows ∪ monitors base; identities := identities rows ∪ identities base;
  epochs := epochs rows ∪ epochs base; receipts := receipts rows ∪ receipts base |}.
(** [RowWrites::publish]: every table is extended by the written rows. *)
Definition publish (w : RowWrites) (s : State) : State :=
  {| st_ledger := st_ledger s; st_sequence := st_sequence s;
     st_rows := publish_tables (rw_rows w) (st_rows s) |}.

(** One table of [WriteState::overlay]. *)
Definition overlay_table {K V} `{TableKey K} (s : Sel K V) (base : Tables (@gmap))
    (prior : list (option RowVersion)) : OverlayTable K V := {|
  ov_base := sel s base;
  ov_prior := (λ version, (sel s (rw_rows (rv_rows version)),
                           default 0%N (rw_added (rv_rows version) !! sel_table s))) <$> omap id prior;
  ov_own := ∅;
  ov_added := 0 |}.
(** [WriteState::overlay]. *)
Definition overlay_tables (base : Tables (@gmap)) (prior : list (option RowVersion)) :
    Tables (@OverlayTable) := {|
  claims := overlay_table Claims base prior; validations := overlay_table Validations base prior;
  artifacts := overlay_table Artifacts base prior; testaments := overlay_table Testaments base prior;
  evidence_sets := overlay_table EvidenceSets base prior; runs := overlay_table Runs base prior;
  monitors := overlay_table Monitors base prior; identities := overlay_table Identities base prior;
  epochs := overlay_table Epochs base prior; receipts := overlay_table Receipts base prior |}.
Definition own_tables (t : Tables (@OverlayTable)) : Tables (@gmap) := {|
  claims := ov_own (claims t); validations := ov_own (validations t);
  artifacts := ov_own (artifacts t); testaments := ov_own (testaments t);
  evidence_sets := ov_own (evidence_sets t); runs := ov_own (runs t);
  monitors := ov_own (monitors t); identities := ov_own (identities t);
  epochs := ov_own (epochs t); receipts := ov_own (receipts t) |}.
Definition added_counts (t : Tables (@OverlayTable)) : list (StateTable * N) :=
  [(StateTable.Claims, ov_added (claims t)); (StateTable.Validations, ov_added (validations t));
   (StateTable.Artifacts, ov_added (artifacts t)); (StateTable.Testaments, ov_added (testaments t));
   (StateTable.EvidenceSets, ov_added (evidence_sets t)); (StateTable.Runs, ov_added (runs t));
   (StateTable.Monitors, ov_added (monitors t)); (StateTable.Identities, ov_added (identities t));
   (StateTable.Epochs, ov_added (epochs t)); (StateTable.Receipts, ov_added (receipts t))].
(** [WriteState::into_writes]: the rows, and the tables that grew. *)
Definition into_writes (t : Tables (@OverlayTable)) : RowWrites :=
  let grown := filter (λ entry, entry.2 ≠ 0%N) (added_counts t) in
  {| rw_rows := own_tables t; rw_structural := list_to_set grown.*1; rw_added := list_to_map grown |}.

(** ** The core *)
Record Core := { co_state : State; co_limits : Limits }.
Definition core_new (ledger : LedgerId) (limits : Limits) : Core :=
  {| co_state := {| st_ledger := ledger; st_sequence := 0; st_rows := empty_tables |};
     co_limits := limits |}.
Definition sequence_of (c : Core) : SessionSeq := st_sequence (co_state c).

Record Footprint := { fp_ledger : LedgerId; fp_session_exclusive : bool }.
Record PreparedMutation := {
  p_schema : N; p_base : SessionSeq; p_input : AuthenticatedInput; p_command_hash : ContentHash;
  p_footprint : Footprint
}.
Record ApplyResult := {
  ap_receipt : MutationReceipt; ap_deltas : list Delta; ap_effects : list EffectIntent
}.
(** [CoreError]; [Diverged] stands for a run that never ends. *)
Module CoreError.
Inductive t :=
  | Canonical (error : CanonicalError) | UnsupportedSchema (schema : N)
  | Sequence (expected actual : SessionSeq) | StalePreparation
  | Determinism (outcome : DomainOutcome) | Codec | Checksum | Exhausted | Diverged.
End CoreError.
Notation CoreError := CoreError.t.
Definition determinism (e : Stop) : CoreError :=
  match e with Domain outcome => CoreError.Determinism outcome | OutOfFuel => CoreError.Diverged end.

(** [Version]: the rules an entry's schema selects. *)
Inductive Version := V1.
Definition from_schema (schema : N) : Result Version CoreError :=
  if (schema =? SCHEMA)%N then Ok V1 else Err (CoreError.UnsupportedSchema schema).
Definition schema_of (v : Version) : N := match v with V1 => SCHEMA end.

Definition request_key (input : AuthenticatedInput) : RequestKey :=
  {| rk_principal := in_principal input; rk_epoch := in_request_epoch input;
     rk_id := in_request_id input |}.
(** The reducer's context for a legacy input ([execute_on]). *)
Definition input_ctx (ledger : LedgerId) (limits : Limits) (input : AuthenticatedInput)
    (sequence : SessionSeq) : Ctx := {|
  cx_ledger := ledger; cx_limits := limits; cx_principal := in_principal input;
  cx_authority := in_authority input; cx_legacy_epoch := Some (in_request_epoch input);
  cx_sequence := sequence |}.
Definition start {T} (rows : Tables T) (rec : Recorder) : Reducer T :=
  {| rd_rows := rows; rd_rec := rec; rd_deltas := []; rd_effects := [] |}.
Definition mutation_receipt (ledger : LedgerId) (input : AuthenticatedInput) (sequence : SessionSeq)
    (hash : ContentHash) (outcome : CommandResult) : MutationReceipt :=
  {| mr_ledger := ledger; mr_key := request_key input; mr_sequence := sequence;
     mr_command_hash := hash; mr_outcome := outcome |}.

Section core.
Context `{External}.

(** *** Apply *)
(** The checks of [apply_recorded] before it executes. *)
Definition apply_guard (c : Core) (sequence : SessionSeq) (prepared : PreparedMutation) :
    Result unit CoreError :=
  match from_schema (p_schema prepared) with
  | Err e => Err e
  | Ok _ =>
      match checked_add (sequence_of c) 1 with
      | None => Err CoreError.Exhausted
      | Some expected =>
          if bool_decide (sequence ≠ expected) then Err (CoreError.Sequence expected sequence)
          else if bool_decide (p_base prepared ≠ sequence_of c) then Err CoreError.StalePreparation
          else if bool_decide (in_ledger (p_input prepared) ≠ st_ledger (co_state c))
          then Err CoreError.Checksum
          else match command_hash (p_input prepared) with
               | Err e => Err (CoreError.Canonical e)
               | Ok hash =>
                   if bool_decide (hash ≠ p_command_hash prepared) then Err CoreError.Checksum
                   else Ok tt
               end
      end
  end.
(** Execute the entry and record its receipt, on either storage. *)
Definition apply_body {T} `{Backend T} (ledger : LedgerId) (limits : Limits) (sequence : SessionSeq)
    (prepared : PreparedMutation) : M T MutationReceipt :=
  let cx := input_ctx ledger limits (p_input prepared) sequence in
  outcome ← execute_domain (in_command (p_input prepared));
  let receipt := mutation_receipt ledger (p_input prepared) sequence (p_command_hash prepared) outcome in
  tinsert Receipts (request_key (p_input prepared)) receipt;;
  mret receipt.
Definition with_rows (c : Core) (sequence : SessionSeq) (rows : Tables (@gmap)) : Core :=
  {| co_state := {| st_ledger := st_ledger (co_state c); st_sequence := sequence; st_rows := rows |};
     co_limits := co_limits c |}.
Definition apply_result {T} (receipt : MutationReceipt) (r : Reducer T) : ApplyResult :=
  {| ap_receipt := receipt; ap_deltas := rd_deltas r; ap_effects := rd_effects r |}.
(** [apply_recorded] with a recorder that has no byte allowance. *)
Definition apply_recorded (serial_oracle : bool) (c : Core) (sequence : SessionSeq)
    (prepared : PreparedMutation) : Result ApplyResult CoreError * Core :=
  match apply_guard c sequence prepared with
  | Err e => (Err e, c)
  | Ok _ =>
      let rows := st_rows (co_state c) in
      if serial_oracle then
        match apply_body (st_ledger (co_state c)) (co_limits c) sequence prepared
                (start rows recorder_disabled) with
        | (Err e, _) => (Err (determinism e), c)
        | (Ok receipt, r) => (Ok (apply_result receipt r), with_rows c sequence (rd_rows r))
        end
      else
        match apply_body (st_ledger (co_state c)) (co_limits c) sequence prepared
                (start (overlay_tables rows []) recorder_disabled) with
        | (Err e, _) => (Err (determinism e), c)
        | (Ok receipt, r) =>
            (Ok (apply_result receipt r),
             with_rows c sequence (st_rows (publish (into_writes (rd_rows r)) (co_state c))))
        end
  end.
Definition apply : Core → SessionSeq → PreparedMutation → Result ApplyResult CoreError * Core :=
  apply_recorded false.
Definition apply_serial : Core → SessionSeq → PreparedMutation → Result ApplyResult CoreError * Core :=
  apply_recorded true.

(** *** Staging *)
(** The checks of [stage_recorded] up to the sequence it assigns. *)
Definition admit_request {T} `{Backend T} (ledger : LedgerId) (limits : Limits) (prefix : SessionSeq)
    (input : AuthenticatedInput) : M T (ContentHash * SessionSeq) :=
  refuse_if (bool_decide (in_ledger input ≠ ledger)) ErrorCode.InvalidNamespace "wrong ledger";;
  refuse_if (is_zero (in_principal input) || is_zero (in_request_id input)) ErrorCode.InvalidSchema
    "zero principal or request ID";;
  bytes ← ok_or (serialized_size (SerDurableInput input)) ErrorCode.InvalidSchema "command codec";
  refuse_if (max_command_bytes limits <? bytes)%N ErrorCode.Capacity "command bytes";;
  fits ← with_rec (reserve_bytes 4096);
  refuse_if (negb fits) ErrorCode.Capacity "staging input workspace exhausted";;
  fits ← with_rec (reserve_value (SerInput input));
  refuse_if (negb fits) ErrorCode.Capacity "staging input workspace exhausted";;
  hash ← match command_hash input with
         | Ok hash => mret hash
         | Err _ => refuse ErrorCode.InvalidSchema "command identity"
         end;
  known ← tget Receipts (request_key input);
  match known with
  | Some receipt =>
      if bool_decide (mr_command_hash receipt = hash) then stop (DomainOutcome.Duplicate receipt)
      else refuse ErrorCode.IdempotencyConflict "request key is bound to another command"
  | None => mret tt
  end;;
  match in_command input with
  | Command.NegotiateEpoch _ => mret tt
  | _ =>
      x ← tget Epochs (in_principal input);
      window ← ok_or x ErrorCode.RequestEpochNotAdmitted "negotiate request generation";
      refuse_if (in_request_epoch input <? ew_minimum window)%N ErrorCode.RequestHistoryExpired
        "request generation expired";;
      refuse_if (negb (bool_decide (in_request_epoch input ∈ ew_admitted window)))
        ErrorCode.RequestEpochNotAdmitted "unallocated request generation"
  end;;
  n ← tlen Receipts;
  refuse_if (max_requests limits <=? n)%N ErrorCode.Capacity "request receipt budget exhausted";;
  match in_expected_revision input with
  | Some expected =>
      id ← ok_or (Command.claim_id (in_command input)) ErrorCode.RevisionConflict
        "command has no claim revision";
      x ← tget Claims id;
      refuse_if (bool_decide ((λ c, cl_revision (lifecycle c)) <$> x ≠ Some expected))
        ErrorCode.RevisionConflict "claim revision changed"
  | None => mret tt
  end;;
  sequence ← ok_or (checked_add prefix 1) ErrorCode.Capacity "session sequence exhausted";
  mret (hash, sequence).
(** [stage_recorded] up to the row output, on either storage. *)
Definition stage_body {T} `{Backend T} (ledger : LedgerId) (limits : Limits) (prefix : SessionSeq)
    (input : AuthenticatedInput) : M T MutationReceipt :=
  '(hash, sequence) ← admit_request ledger limits prefix input;
  let cx := input_ctx ledger limits input sequence in
  validate_admission (in_command input);;
  outcome ← execute_domain (in_command input);
  let receipt := mutation_receipt ledger input sequence hash outcome in
  fits ← with_rec (reserve_value (SerReceipt receipt));
  refuse_if (negb fits) ErrorCode.Capacity "staging receipt workspace exhausted";;
  tinsert Receipts (request_key input) receipt;;
  mret receipt.
End core.

(** ** Pending rows *)
Record PendingState := {
  pe_ledger : option LedgerId; pe_rows : list (option RowVersion); pe_capacity : N
}.
Record StagedMutation := {
  sm_prepared : PreparedMutation; sm_result : ApplyResult; sm_version : RowVersion;
  sm_basis : option ContentHash
}.
Module StagingError.
Inductive t := Domain (outcome : DomainOutcome) | Capacity | Diverged.
End StagingError.
Notation StagingError := StagingError.t.
Record CoreView := {
  vw_state : State; vw_prior : list (option RowVersion); vw_tail : option RowVersion;
  vw_sequence : SessionSeq
}.
Definition pending_new : PendingState := {| pe_ledger := None; pe_rows := []; pe_capacity := 0 |}.
Definition core_view (c : Core) : CoreView :=
  {| vw_state := co_state c; vw_prior := []; vw_tail := None; vw_sequence := sequence_of c |}.

(** The rows of a table as a list, in key order: what a view serializes. *)
Definition Listing : TableImpl := λ K _ _ V, list (K * V).
(** [postcard]'s encoding of a serialized view and its limits. *)
Class ViewCodec := view_bytes : LedgerId → SessionSeq → Tables Listing → Limits → option (list N).

Section pending.
Context `{External} {codec : ViewCodec}.

(** [rows!]: the tail, else the newest earlier version, else the state. *)
Definition view_get {K V} `{TableKey K} (s : Sel K V) (v : CoreView) (k : K) : option V :=
  match vw_tail v ≫= λ tail, sel s (rw_rows (rv_rows tail)) !! k with
  | Some value => Some value
  | None =>
      match newest (reverse ((λ version, sel s (rw_rows (rv_rows version))) <$> omap id (vw_prior v))) k with
      | Some value => Some value
      | None => sel s (st_rows (vw_state v)) !! k
      end
  end.
(** [MapView::serialize]: the checked row count and the rows in key order. *)
Definition view_table {K V} `{TableKey K} (s : Sel K V) (v : CoreView) : OverlayTable K V :=
  overlay_table s (st_rows (vw_state v)) (vw_prior v ++ [vw_tail v]).
Definition map_view {K V} `{TableKey K} (s : Sel K V) (v : CoreView) : option (list (K * V)) :=
  _ ← ov_len (view_table s v);
  Some (ov_iter (view_table s v)).
Definition serialize_view (v : CoreView) : option (Tables Listing) :=
  a ← map_view Claims v; b ← map_view Validations v; c ← map_view Artifacts v;
  d ← map_view Testaments v; e ← map_view EvidenceSets v; f ← map_view Runs v;
  g ← map_view Monitors v; h ← map_view Identities v; i ← map_view Epochs v;
  j ← map_view Receipts v;
  Some (Build_Tables Listing a b c d e f g h i j).
Definition basis (v : CoreView) (limits : Limits) : Result ContentHash CoreError :=
  match serialize_view v ≫= λ rows,
        view_bytes (st_ledger (vw_state v)) (vw_sequence v) rows limits with
  | Some bytes => Ok (blake3 bytes)
  | None => Err CoreError.Checksum
  end.

(** The sequences of the pending rows continue the core's. *)
Fixpoint view_sequence (sequence : SessionSeq) (rows : list (option RowVersion)) :
    Result SessionSeq CoreError :=
  match rows with
  | [] => Ok sequence
  | row :: rows =>
      match checked_add sequence 1 with
      | None => Err CoreError.Exhausted
      | Some sequence =>
          match row with
          | Some row =>
              if bool_decide (rv_sequence row ≠ sequence) then Err CoreError.StalePreparation
              else view_sequence sequence rows
          | None => Err CoreError.StalePreparation
          end
      end
  end.
Definition pending_view (p : PendingState) (c : Core) : Result CoreView CoreError :=
  if match pe_ledger p with
     | Some ledger => bool_decide (ledger ≠ st_ledger (co_state c))
     | None => false
     end
  then Err CoreError.Checksum
  else match view_sequence (sequence_of c) (pe_rows p) with
       | Err e => Err e
       | Ok sequence =>
           Ok {| vw_state := co_state c; vw_prior := pe_rows p; vw_tail := None;
                 vw_sequence := sequence |}
       end.
(** [try_reserve_exact], whose allocation is assumed to succeed. *)
Definition pending_reserve (maximum : N) (p : PendingState) : Result PendingState CoreError :=
  match checked_sub maximum (N.of_nat (length (pe_rows p))) with
  | None => Err CoreError.Exhausted
  | Some additional =>
      Ok {| pe_ledger := pe_ledger p; pe_rows := pe_rows p;
            pe_capacity := N.max (pe_capacity p) (N.of_nat (length (pe_rows p)) + additional) |}
  end.
Definition pending_clear (p : PendingState) : PendingState :=
  {| pe_ledger := None; pe_rows := []; pe_capacity := pe_capacity p |}.
Definition validate_next (p : PendingState) (c : Core) (staged : StagedMutation) :
    Result unit CoreError :=
  match from_schema (p_schema (sm_prepared staged)) with
  | Err e => Err e
  | Ok _ =>
      match pending_view p c with
      | Err e => Err e
      | Ok view =>
          if (pe_capacity p <=? N.of_nat (length (pe_rows p)))%N
             || bool_decide (p_base (sm_prepared staged) ≠ vw_sequence view)
             || bool_decide (in_ledger (p_input (sm_prepared staged)) ≠ st_ledger (co_state c))
          then Err CoreError.StalePreparation
          else match basis view (co_limits c) with
               | Err e => Err e
               | Ok b => if bool_decide (sm_basis staged ≠ Some b) then Err CoreError.StalePreparation
                         else Ok tt
               end
      end
  end.
Definition accept (p : PendingState) (c : Core) (staged : StagedMutation) :
    Result (PreparedMutation * ApplyResult) CoreError * PendingState :=
  match validate_next p c staged with
  | Err e => (Err e, p)
  | Ok _ =>
      (Ok (sm_prepared staged, sm_result staged),
       {| pe_ledger := Some (st_ledger (co_state c)); pe_rows := pe_rows p ++ [Some (sm_version staged)];
          pe_capacity := pe_capacity p |})
  end.
Definition drop_prefix (count : N) (p : PendingState) (c : Core) : Result unit CoreError * PendingState :=
  if (count =? 0)%N then
    (match pending_view p c with Ok _ => Ok tt | Err e => Err e end, p)
  else
    match mjoin (pe_rows p !! N.to_nat (count - 1)) with
    | None => (Err CoreError.StalePreparation, p)
    | Some last =>
        if bool_decide (rv_sequence last ≠ sequence_of c) then (Err CoreError.StalePreparation, p)
        else
          let rows := drop (N.to_nat count) (pe_rows p) in
          let p := {| pe_ledger := if bool_decide (rows = []) then None else pe_ledger p;
                      pe_rows := rows; pe_capacity := pe_capacity p |} in
          (match pending_view p c with Ok _ => Ok tt | Err e => Err e end, p)
    end.

(** [stage_recorded]: the run over the overlay and what it stages. *)
Definition stage_recorded (c : Core) (input : AuthenticatedInput) (prior : list (option RowVersion))
    (prefix : SessionSeq) (rec : Recorder) (stamp : bool) :
    Result StagedMutation Stop * Recorder :=
  match stage_body (st_ledger (co_state c)) (co_limits c) prefix input
          (start (overlay_tables (st_rows (co_state c)) prior) rec) with
  | (Err e, r) => (Err e, rd_rec r)
  | (Ok receipt, r) =>
      let staged b := {|
        sm_prepared := {| p_schema := schema_of V1; p_base := prefix; p_input := input;
          p_command_hash := mr_command_hash receipt;
          p_footprint := {| fp_ledger := st_ledger (co_state c); fp_session_exclusive := true |} |};
        sm_result := apply_result receipt r;
        sm_version := {| rv_sequence := mr_sequence receipt; rv_rows := into_writes (rd_rows r) |};
        sm_basis := b |} in
      if stamp then
        match basis {| vw_state := co_state c; vw_prior := prior; vw_tail := None;
                       vw_sequence := prefix |} (co_limits c) with
        | Ok b => (Ok (staged (Some b)), rd_rec r)
        | Err _ => (Err (Domain (DomainOutcome.Refuse ErrorCode.InvalidSchema "view identity")), rd_rec r)
        end
      else (Ok (staged None), rd_rec r)
  end.
Definition prepare (c : Core) (input : AuthenticatedInput) : Result PreparedMutation Stop :=
  match stage_recorded c input [] (sequence_of c) recorder_disabled false with
  | (Ok staged, _) => Ok (sm_prepared staged)
  | (Err e, _) => Err e
  end.
Definition stage_pending (c : Core) (p : PendingState) (input : AuthenticatedInput) :
    Result StagedMutation Stop :=
  match pending_view p c with
  | Err _ => Err (Domain (DomainOutcome.Refuse ErrorCode.RevisionConflict "pending prefix changed"))
  | Ok view => (stage_recorded c input (vw_prior view) (vw_sequence view) recorder_disabled true).1
  end.
Definition stage_pending_bounded (c : Core) (p : PendingState) (input : AuthenticatedInput)
    (max_bytes : N) : Result StagedMutation StagingError :=
  match pending_view p c with
  | Err _ => Err (StagingError.Domain
      (DomainOutcome.Refuse ErrorCode.RevisionConflict "pending prefix changed"))
  | Ok view =>
      let '(res, rec) := stage_recorded c input (vw_prior view) (vw_sequence view)
                           (recorder_bounded max_bytes) true in
      if failed rec then Err StagingError.Capacity
      else match res with
           | Ok staged => Ok staged
           | Err (Domain outcome) => Err (StagingError.Domain outcome)
           | Err OutOfFuel => Err StagingError.Diverged
           end
  end.
(** The view a staged mutation would leave. *)
Definition view_after (staged : StagedMutation) (c : Core) (p : PendingState) :
    Result CoreView CoreError :=
  match pending_view p c with
  | Err e => Err e
  | Ok view =>
      if bool_decide (p_base (sm_prepared staged) ≠ vw_sequence view) then Err CoreError.StalePreparation
      else match basis view (co_limits c) with
           | Err e => Err e
           | Ok b =>
               if bool_decide (sm_basis staged ≠ Some b) then Err CoreError.StalePreparation
               else Ok {| vw_state := vw_state view; vw_prior := vw_prior view;
                          vw_tail := Some (sm_version staged);
                          vw_sequence := rv_sequence (sm_version staged) |}
           end
  end.
End pending.
