(* ===== verification/Simulation.v ===== *)
(** * Storage independence

    One relational metatheorem for the whole reducer: over any lawful storage
    and any byte allowance, a computation gives the result of the serial
    storage with no allowance and the same rows, or it leaves the recorder
    failed, which takes an exceeded allowance or a table that outgrows its
    counter. The same proof shows that no computation removes a row. *)
From stdpp Require Import prelude gmap strings.
From Stdlib Require Import NArith.
From S2P Require Import Prelude Vocabulary Objects Canonical Store StoreLaws Reducer.
From S2P Require Import Graph Validation Propagate Create Commands Admission Core.

#[local] Set Default Proof Using "Type*".

Section simulation.
Context `{External} {T : TableImpl} `{BackendLaws T}.
Implicit Types (r : Reducer T) (q : Reducer (@gmap)).

Record rsim r q : Prop := {
  sim_rows : views (rd_rows r) (rd_rows q);
  sim_ok : failed (rd_rec r) = false;
  sim_rec : rd_rec q = recorder_disabled;
  sim_deltas : rd_deltas r = rd_deltas q;
  sim_effects : rd_effects r = rd_effects q;
}.
Record msim {A} (m : M T A) (m' : M (@gmap) A) : Prop := {
  msim_rec : ∀ r, rec_le (rd_rec r) (rd_rec (m r).2);
  msim_frame : ∀ r, frame (rd_rows r) (rd_rows (m r).2);
  msim_grows : ∀ q, grows (rd_rows q) (rd_rows (m' q).2);
  msim_disabled : ∀ q, rd_rec q = recorder_disabled → is_ok (m' q).1 →
    rd_rec (m' q).2 = recorder_disabled;
  msim_run : ∀ r q, rsim r q →
    (m r).1 = (m' q).1 ∧ (is_ok (m r).1 → rsim (m r).2 (m' q).2)
    ∨ failed (rd_rec (m r).2) = true
      ∧ (byte_limit (rd_rec r) ≠ None ∨ ¬ fits (rd_rows (m' q).2));
}.

Lemma msim_ret {A} (a : A) : msim (mret a) (mret a).
Proof. split; [done..|]. intros r q Hr. by left. Qed.
Lemma msim_stop {A} (o : DomainOutcome) : msim (A:=A) (stop o) (stop o).
Proof. split; [done..|]. intros r q Hr. by left. Qed.
Lemma msim_fuel {A} : msim (A:=A) out_of_fuel out_of_fuel.
Proof. split; [done..|]. intros r q Hr. by left. Qed.
Lemma msim_bind {A B} (m : M T A) m' (f : A → M T B) f' :
  msim m m' → (∀ a, msim (f a) (f' a)) → msim (m ≫= f) (m' ≫= f').
Proof.
  intros [Hrec Hframe Hgrow Hdis Hrun] Hf. unfold mbind, M_bind. split.
  - intros r. specialize (Hrec r). destruct (m r) as [[a|e] r1]; [|done].
    etrans; [done|]. apply (Hf a).
  - intros r. specialize (Hframe r). destruct (m r) as [[a|e] r1]; [|done].
    etrans; [done|]. apply (Hf a).
  - intros q. specialize (Hgrow q). destruct (m' q) as [[a|e] q1]; [|done].
    etrans; [done|]. apply (Hf a).
  - intros q Hq. specialize (Hdis q Hq). destruct (m' q) as [[a|e] q1]; [|done].
    by apply (Hf a), Hdis.
  - intros r q Hr. specialize (Hrec r). specialize (Hgrow q). specialize (Hrun r q Hr).
    destruct (m r) as [x r1], (m' q) as [x' q1]; simpl in *.
    destruct Hrun as [[-> Hr1]|[Hfail Hwhy]].
    + destruct x' as [a|e]; [|by left].
      destruct (msim_run _ _ (Hf a) r1 q1 (Hr1 I)) as [?|[? Hb]]; [by left|].
      right. split; [done|]. destruct Hrec as [<- _]. done.
    + right. split.
      * destruct x as [a|e]; [|done]. by apply (msim_rec _ _ (Hf a)).
      * destruct Hwhy as [?|Hn]; [by left|]. right. destruct x' as [a|e]; [|done].
        intros Hfit. apply Hn. eapply grows_fits; [|done]. apply (Hf a).
Qed.

(** ** The machine *)
Lemma msim_mfor {A} (l : list A) f f' : (∀ x, msim (f x) (f' x)) → msim (mfor l f) (mfor l f').
Proof. intros Hf. induction l; simpl; [apply msim_ret|]. by apply msim_bind. Qed.
Lemma msim_mfold {A S} f f' (l : list A) (s : S) :
  (∀ s x, msim (f s x) (f' s x)) → msim (mfold f l s) (mfold f' l s).
Proof. intros Hf. revert s. induction l; simpl; intros s; [apply msim_ret|]. by apply msim_bind. Qed.
Lemma msim_mall {A} f f' (l : list A) : (∀ x, msim (f x) (f' x)) → msim (mall f l) (mall f' l).
Proof.
  intros Hf. induction l; simpl; [apply msim_ret|]. apply msim_bind; [done|]. intros []; [done|].
  apply msim_ret.
Qed.
Lemma msim_loop_pow {S A} n body body' (s : S) :
  (∀ s, msim (body s) (body' s)) → msim (A:=S + A) (loop_pow n body s) (loop_pow n body' s).
Proof.
  intros Hb. revert s. induction n as [|n IH]; simpl; intros s; [done|].
  apply msim_bind; [done|]. intros []; [done|apply msim_ret].
Qed.
Lemma msim_mloop {S A} fuel body body' (s : S) :
  (∀ s, msim (body s) (body' s)) → msim (A:=A) (mloop fuel body s) (mloop fuel body' s).
Proof.
  intros Hb. apply msim_bind; [by apply msim_loop_pow|]. intros []; [apply msim_fuel|apply msim_ret].
Qed.

(** A reservation, which always succeeds without an allowance. *)
Lemma msim_reserve (f : Recorder → bool * Recorder) :
  (∀ rec, rec_le rec (f rec).2
    ∧ ((f rec).1 = true ∧ failed (f rec).2 = failed rec
       ∨ (f rec).1 = false ∧ failed (f rec).2 = true ∧ byte_limit rec ≠ None)) →
  f recorder_disabled = (true, recorder_disabled) →
  msim (with_rec f) (with_rec f).
Proof.
  intros Hf Hd. unfold with_rec. split.
  - intros r. destruct (Hf (rd_rec r)). by destruct (f (rd_rec r)).
  - intros r. by destruct (f (rd_rec r)).
  - intros q. by destruct (f (rd_rec q)).
  - intros q ->. by rewrite Hd.
  - intros r q [Hv Hok Hrec Hde Hef]. rewrite Hrec, Hd.
    destruct (Hf (rd_rec r)) as [? [[Hb Hk]|(Hb & Hk & ?)]]; destruct (f (rd_rec r)) as [b rec];
      simpl in *; subst; [left|by right; split; [|left]].
    split; [done|]. intros _. split; simpl; congruence.
Qed.
Lemma msim_reserve_bytes n : msim (with_rec (reserve_bytes n)) (with_rec (reserve_bytes n)).
Proof. apply msim_reserve; [intros; apply reserve_bytes_honest|done]. Qed.
Lemma msim_reserve_value v : msim (with_rec (reserve_value v)) (with_rec (reserve_value v)).
Proof. apply msim_reserve; [intros; apply (reserve_value_honest (λ v, v) v)|done]. Qed.
(** A point where the recorder is invalidated explicitly is out of reach. *)
Lemma msim_failed :
  msim (with_rec (λ rec, (failed rec, rec))) (with_rec (λ rec, (failed rec, rec))).
Proof.
  split; [done..|]. intros r q [Hv Hok Hrec Hde Hef]. left. simpl. rewrite Hrec, Hok.
  split; [done|]. by split.
Qed.
Lemma msim_scratch items : msim (scratch items) (scratch items).
Proof.
  unfold scratch. destruct (checked_mul items 128) as [n|].
  - apply msim_bind; [apply msim_reserve_bytes|]. intros []; [apply msim_ret|].
    split; [done..|]. intros r q Hr. by left.
  - split; [done..|]. intros r q Hr. by left.
Qed.
Lemma msim_scratch_ok_1 : msim (scratch_ok 1) (scratch_ok 1).
Proof.
  destruct (msim_scratch 1) as [Hrec Hframe Hgrow Hdis Hrun]. unfold scratch_ok. split.
  - intros r. specialize (Hrec r). by destruct (scratch 1 r) as [[] ?].
  - intros r. specialize (Hframe r). by destruct (scratch 1 r) as [[] ?].
  - intros q. specialize (Hgrow q). by destruct (scratch 1 q) as [[] ?].
  - intros q Hq. specialize (Hdis q Hq). unfold scratch, mbind, M_bind, with_rec. simpl. by rewrite Hq.
  - intros r q Hr. specialize (Hrun r q Hr).
    assert (∃ q', scratch 1 q = (Ok tt, q')) as [q' Hq'].
    { eexists. unfold scratch, mbind, M_bind, with_rec. simpl. rewrite (sim_rec _ _ Hr). done. }
    rewrite Hq' in *. destruct (scratch 1 r) as [[] r']; simpl in *; [|naive_solver].
    destruct Hrun as [[? ?]|?]; [left|by right]. naive_solver.
Qed.

(** ** Tables *)
Lemma rsim_set_table {K V} `{TableKey K} (s : Sel K V) `{!SelOk s} r q (t : T K _ _ V) m rec :
  rsim r q → failed rec = failed (rd_rec r) → b_ok t → b_view t = m →
  rsim (set_table s t rec r) (set_table s m recorder_disabled q).
Proof.
  intros [Hv Hok Hrec Hde Hef] Hf Ht Hm. split; simpl; [|congruence..].
  by apply tall2_upd.
Qed.
Lemma rsim_views {K V} `{TableKey K} (s : Sel K V) `{!SelOk s} r q :
  rsim r q → b_ok (sel s (rd_rows r)) ∧ b_view (sel s (rd_rows r)) = sel s (rd_rows q).
Proof. intros Hr. apply (tall2_sel (s:=s) _ _ views_rel). apply Hr. Qed.
Section table_sim.
Context {K V : Type} `{TableKey K} (s : Sel K V) `{!SelOk s}.

Lemma tget_sim k : msim (tget s k) (tget s k).
Proof.
  split; [done..|]. intros r q Hr. left. destruct (rsim_views s r q Hr) as [Hok Hv].
  simpl. by rewrite law_get, Hv.
Qed.
Lemma titer_sim : msim (titer s) (titer s).
Proof.
  split; [done..|]. intros r q Hr. left. destruct (rsim_views s r q Hr) as [Hok Hv].
  simpl. by rewrite law_iter, Hv.
Qed.
Lemma tlen_sim : msim (tlen s) (tlen s).
Proof.
  unfold tlen. split; [| |done|done|].
  - intros r. destruct (b_len _); simpl; [done|]. by split.
  - intros r. by destruct (b_len _).
  - intros r q Hr. destruct (rsim_views s r q Hr) as [Hok Hv].
    destruct (law_len (sel s (rd_rows r)) Hok) as [-> | [-> Hh]]; simpl.
    + left. by rewrite Hv.
    + right. split; [done|]. right. eapply huge_not_fits; [done|]. by rewrite <-Hv.
Qed.
Lemma tinsert_sim k v : msim (tinsert s k v) (tinsert s k v).
Proof.
  unfold tinsert. split.
  - intros r. pose proof (law_insert_rec (reserve_row s) k v (sel s (rd_rows r)) (rd_rec r)
      (reserve_value_honest (ser s))) as Hl. by destruct (b_insert _ _ _ _ _).
  - intros r. pose proof (frame_insert (reserve_row s) k v (sel s (rd_rows r)) (rd_rec r)) as Hl.
    destruct (b_insert _ _ _ _ _). by apply (frame_upd s).
  - intros q. simpl. apply grows_insert, _.
  - done.
  - intros r q Hr. destruct (rsim_views s r q Hr) as [Hok Hv].
    pose proof (law_insert (reserve_row s) k v (sel s (rd_rows r)) (rd_rec r)
      (reserve_value_honest (ser s)) Hok) as Hl.
    destruct (b_insert _ _ _ _ _) as [t rec]; simpl in *. rewrite Hv in Hl.
    destruct Hl as [[? [?|?]]|(? & ? & ?)].
    + right. split; [done|by left].
    + right. split; [done|right]. apply (huge_not_fits s). by rewrite sel_upd.
    + left. split; [done|]. intros _. rewrite (sim_rec _ _ Hr). by apply rsim_set_table.
Qed.
Lemma tget_mut_sim k : msim (tget_mut s k) (tget_mut s k).
Proof.
  unfold tget_mut. split.
  - intros r. pose proof (law_get_mut_rec (reserve_row s) k (sel s (rd_rows r)) (rd_rec r)
      (reserve_value_honest (ser s))) as Hl. by destruct (b_get_mut _ _ _ _) as [[]].
  - intros r. pose proof (frame_get_mut (reserve_row s) k (sel s (rd_rows r)) (rd_rec r)) as Hl.
    destruct (b_get_mut _ _ _ _) as [[]]. by apply (frame_upd s).
  - intros q. simpl. by rewrite upd_sel.
  - done.
  - intros r q Hr. destruct (rsim_views s r q Hr) as [Hok Hv].
    pose proof (law_get_mut (reserve_row s) k (sel s (rd_rows r)) (rd_rec r)
      (reserve_value_honest (ser s)) Hok) as Hl.
    destruct (b_get_mut _ _ _ _) as [[x t] rec]; simpl in *. rewrite Hv in Hl.
    destruct Hl as [[? ?]|(? & -> & ? & ?)].
    + right. split; [done|by left].
    + left. split; [done|]. intros _. rewrite (sim_rec _ _ Hr). by apply rsim_set_table.
Qed.
Lemma tput_sim k v : msim (tput s k v) (tput s k v).
Proof.
  unfold tput. split; [done| | |done|].
  - intros r. apply (frame_upd s), frame_put.
  - intros q. simpl. destruct (sel s (rd_rows q) !! k); simpl; [apply grows_insert, _|by rewrite upd_sel].
  - intros r q Hr. destruct (rsim_views s r q Hr) as [Hok Hv].
    destruct (law_put k v (sel s (rd_rows r)) Hok) as [Hok' Hv']. rewrite Hv in Hv'.
    left. split; [done|]. intros _. rewrite (sim_rec _ _ Hr). by apply rsim_set_table.
Qed.
End table_sim.

Lemma push_effect_sim e : msim (push_effect e) (push_effect e).
Proof. split; [done..|]. intros r q [Hv Hok Hrec Hde Hef]. left. split; [done|]. split; simpl; congruence. Qed.
Lemma push_delta_sim d : msim (push_delta d) (push_delta d).
Proof. split; [done..|]. intros r q [Hv Hok Hrec Hde Hef]. left. split; [done|]. split; simpl; congruence. Qed.
Lemma delta_count_sim : msim delta_count delta_count.
Proof. split; [done..|]. intros r q Hr. left. simpl. by rewrite (sim_deltas _ _ Hr). Qed.
Lemma ok_or_sim {A} (x : option A) c d : msim (ok_or x c d) (ok_or x c d).
Proof. destruct x; [apply msim_ret|apply msim_stop]. Qed.
Lemma lift_hash_sim {A} (x : Result A CanonicalError) : msim (lift_hash x) (lift_hash x).
Proof. destruct x; [apply msim_ret|apply msim_stop]. Qed.
Lemma refuse_if_sim b c d : msim (refuse_if b c d) (refuse_if b c d).
Proof. destruct b; [apply msim_stop|apply msim_ret]. Qed.
Lemma inform_if_sim b c d : msim (inform_if b c d) (inform_if b c d).
Proof. destruct b; [apply msim_stop|apply msim_ret]. Qed.
End simulation.

Create HintDb msim discriminated.
#[export] Hint Resolve msim_ret msim_stop msim_fuel msim_reserve_bytes msim_reserve_value msim_failed
  msim_scratch msim_scratch_ok_1 tget_sim titer_sim tlen_sim tinsert_sim tget_mut_sim tput_sim
  push_effect_sim push_delta_sim delta_count_sim ok_or_sim lift_hash_sim refuse_if_sim inform_if_sim : msim.
#[export] Hint Extern 1 (SelOk _) => typeclasses eauto : msim.

(** The same text over two storages. *)
Ltac msim_step :=
  match goal with
  | |- ∀ _, _ => intros
  | |- msim (mbind _ _) (mbind _ _) => apply msim_bind
  | |- msim (mret _) (mret _) => apply msim_ret
  | |- msim (refuse _ _) (refuse _ _) => apply msim_stop
  | |- msim (inform _ _) (inform _ _) => apply msim_stop
  | |- msim (mfor _ _) (mfor _ _) => apply msim_mfor
  | |- msim (mfold _ _ _) (mfold _ _ _) => apply msim_mfold
  | |- msim (mall _ _) (mall _ _) => apply msim_mall
  | |- msim (mloop _ _ _) (mloop _ _ _) => apply msim_mloop
  | |- msim _ _ => solve [eauto 2 with msim]
  | |- msim (match ?x with _ => _ end) (match ?x with _ => _ end) => destruct x
  | |- msim ((match ?x with _ => _ end) _) ((match ?x with _ => _ end) _) => destruct x
  end.
Ltac msim := repeat (msim_step; cbv beta zeta).

Section reducer_sim.
Context `{External} {T : TableImpl} `{BackendLaws T} {cx : Ctx}.

Lemma check_capacity_sim : msim (T:=T) check_capacity check_capacity.
Proof. unfold check_capacity. msim. Qed.
Lemma charge_sim v : msim (T:=T) (charge v) (charge v).
Proof. unfold charge. msim. Qed.
Lemma contains_key_sim {K V} `{TableKey K} (s : Sel K V) `{!SelOk s} k :
  msim (T:=T) (contains_key s k) (contains_key s k).
Proof. unfold contains_key. msim. Qed.
Lemma get_owned_sim {K V} `{TableKey K} (s : Sel K V) `{!SelOk s} k :
  msim (T:=T) (get_owned s k) (get_owned s k).
Proof. unfold get_owned. msim. Qed.
End reducer_sim.
#[export] Hint Resolve check_capacity_sim charge_sim contains_key_sim get_owned_sim : msim.
Lemma effect_sim `{External} {T : TableImpl} `{BackendLaws T} {cx : Ctx} e :
  msim (T:=T) (effect e) (effect e).
Proof. unfold effect. msim. Qed.
#[export] Hint Resolve effect_sim : msim.
Lemma emit_sim `{External} {T : TableImpl} `{BackendLaws T} {cx : Ctx} c a f :
  msim (T:=T) (emit c a f) (emit c a f).
Proof. unfold emit. msim. Qed.
#[export] Hint Resolve emit_sim : msim.
Lemma get_claim_sim `{External} {T : TableImpl} `{BackendLaws T} {cx : Ctx} id :
  msim (T:=T) (get_claim id) (get_claim id).
Proof. unfold get_claim. msim. Qed.
#[export] Hint Resolve get_claim_sim : msim.
Lemma runtime_sim `{External} {T : TableImpl} `{BackendLaws T} {cx : Ctx} :
  msim (T:=T) runtime runtime.
Proof. unfold runtime. msim. Qed.
#[export] Hint Resolve runtime_sim : msim.
Lemma allowed_sim `{External} {T : TableImpl} `{BackendLaws T} {cx : Ctx} id ss :
  msim (T:=T) (allowed id ss) (allowed id ss).
Proof. unfold allowed. msim. Qed.
#[export] Hint Resolve allowed_sim : msim.
Lemma active_sim `{External} {T : TableImpl} `{BackendLaws T} {cx : Ctx} id :
  msim (T:=T) (active id) (active id).
Proof. unfold active. msim. Qed.
#[export] Hint Resolve active_sim : msim.
Lemma holder_sim `{External} {T : TableImpl} `{BackendLaws T} {cx : Ctx} c f :
  msim (T:=T) (holder c f) (holder c f).
Proof. unfold holder. msim. Qed.
#[export] Hint Resolve holder_sim : msim.
Lemma issuer_authority_sim `{External} {T : TableImpl} `{BackendLaws T} {cx : Ctx} c :
  msim (T:=T) (issuer_authority c) (issuer_authority c).
Proof. unfold issuer_authority. msim. Qed.
#[export] Hint Resolve issuer_authority_sim : msim.
Lemma text_sim `{External} {T : TableImpl} `{BackendLaws T} {cx : Ctx} s :
  msim (T:=T) (text s) (text s).
Proof. unfold text. msim. Qed.
#[export] Hint Resolve text_sim : msim.
Lemma set_status_sim `{External} {T : TableImpl} `{BackendLaws T} {cx : Ctx} id st w :
  msim (T:=T) (set_status id st w) (set_status id st w).
Proof. unfold set_status. msim. Qed.
#[export] Hint Resolve set_status_sim : msim.
Lemma result_sim `{External} {T : TableImpl} `{BackendLaws T} {cx : Ctx} id :
  msim (T:=T) (result id) (result id).
Proof. unfold result. msim. Qed.
#[export] Hint Resolve result_sim : msim.

(** ** Graph *)
Lemma predicate_sim `{External} {T : TableImpl} `{BackendLaws T} p :
  msim (T:=T) (predicate p) (predicate p).
Proof. unfold predicate. msim. Qed.
#[export] Hint Resolve predicate_sim : msim.
Lemma fix_seed_sim `{External} {T : TableImpl} `{BackendLaws T} acc row :
  msim (T:=T) (fix_seed acc row) (fix_seed acc row).
Proof. unfold fix_seed. msim. Qed.
#[export] Hint Resolve fix_seed_sim : msim.
Lemma await_holds_sim `{External} {T : TableImpl} `{BackendLaws T} sat d :
  msim (T:=T) (await_holds sat d) (await_holds sat d).
Proof. unfold await_holds. msim. Qed.
#[export] Hint Resolve await_holds_sim : msim.
Lemma root_holds_sim `{External} {T : TableImpl} `{BackendLaws T} sat p :
  msim (T:=T) (root_holds sat p) (root_holds sat p).
Proof. unfold root_holds. msim. Qed.
#[export] Hint Resolve root_holds_sim : msim.
Lemma open_monitors_sim `{External} {T : TableImpl} `{BackendLaws T} id :
  msim (T:=T) (open_monitors id) (open_monitors id).
Proof. unfold open_monitors. msim. Qed.
#[export] Hint Resolve open_monitors_sim : msim.
Lemma joins_sim `{External} {T : TableImpl} `{BackendLaws T} sat id c :
  msim (T:=T) (joins sat id c) (joins sat id c).
Proof. unfold joins. msim. Qed.
#[export] Hint Resolve joins_sim : msim.
Lemma fix_pass_sim `{External} {T : TableImpl} `{BackendLaws T} acc row :
  msim (T:=T) (fix_pass acc row) (fix_pass acc row).
Proof. unfold fix_pass. msim. Qed.
#[export] Hint Resolve fix_pass_sim : msim.
Lemma fix_body_sim `{External} {T : TableImpl} `{BackendLaws T} sat :
  msim (T:=T) (fix_body sat) (fix_body sat).
Proof. unfold fix_body. msim. Qed.
#[export] Hint Resolve fix_body_sim : msim.
Lemma tracked_fixpoint_sim `{External} {T : TableImpl} `{BackendLaws T} :
  msim (T:=T) tracked_fixpoint tracked_fixpoint.
Proof. unfold tracked_fixpoint. msim. Qed.
#[export] Hint Resolve tracked_fixpoint_sim : msim.
Lemma push_edges_sim `{External} {T : TableImpl} `{BackendLaws T} ks c st :
  msim (T:=T) (push_edges ks c st) (push_edges ks c st).
Proof. unfold push_edges. msim. Qed.
#[export] Hint Resolve push_edges_sim : msim.
Lemma walk_body_sim `{External} {T : TableImpl} `{BackendLaws T} ks limit w :
  msim (T:=T) (walk_body ks limit w) (walk_body ks limit w).
Proof. unfold walk_body. msim. Qed.
#[export] Hint Resolve walk_body_sim : msim.
Lemma walk_from_sim `{External} {T : TableImpl} `{BackendLaws T} ks limit acc row :
  msim (T:=T) (walk_from ks limit acc row) (walk_from ks limit acc row).
Proof. unfold walk_from. msim. Qed.
#[export] Hint Resolve walk_from_sim : msim.
Lemma check_acyclic_sim `{External} {T : TableImpl} `{BackendLaws T} ks limit :
  msim (T:=T) (check_acyclic ks limit) (check_acyclic ks limit).
Proof. unfold check_acyclic. msim. Qed.
#[export] Hint Resolve check_acyclic_sim : msim.
Lemma claim_active_sim `{External} {T : TableImpl} `{BackendLaws T} id :
  msim (T:=T) (claim_active id) (claim_active id).
Proof. unfold claim_active. msim. Qed.
#[export] Hint Resolve claim_active_sim : msim.
Lemma neighbors_sim `{External} {T : TableImpl} `{BackendLaws T} id :
  msim (T:=T) (neighbors id) (neighbors id).
Proof. unfold neighbors. msim. Qed.
#[export] Hint Resolve neighbors_sim : msim.
Lemma graph_fuel_sim `{External} {T : TableImpl} `{BackendLaws T} :
  msim (T:=T) graph_fuel graph_fuel.
Proof. unfold graph_fuel. msim. Qed.
#[export] Hint Resolve graph_fuel_sim : msim.
Lemma reach_body_sim `{External} {T : TableImpl} `{BackendLaws T} s :
  msim (T:=T) (reach_body s) (reach_body s).
Proof. unfold reach_body. msim. Qed.
#[export] Hint Resolve reach_body_sim : msim.
Lemma reachable_sim `{External} {T : TableImpl} `{BackendLaws T} id limit :
  msim (T:=T) (reachable id limit) (reachable id limit).
Proof. unfold reachable. msim. Qed.
#[export] Hint Resolve reachable_sim : msim.
Lemma cycle_containing_sim `{External} {T : TableImpl} `{BackendLaws T} id limit :
  msim (T:=T) (cycle_containing id limit) (cycle_containing id limit).
Proof. unfold cycle_containing. msim. Qed.
#[export] Hint Resolve cycle_containing_sim : msim.

(** ** Validation *)
Lemma schedule_sim `{External} {T : TableImpl} `{BackendLaws T} {cx : Ctx} id t m :
  msim (T:=T) (schedule id t m) (schedule id t m).
Proof. unfold schedule. msim. Qed.
#[export] Hint Resolve schedule_sim : msim.
Lemma schedule_phase_sim `{External} {T : TableImpl} `{BackendLaws T} {cx : Ctx} id ph t m :
  msim (T:=T) (schedule_phase id ph t m) (schedule_phase id ph t m).
Proof. unfold schedule_phase. msim. Qed.
#[export] Hint Resolve schedule_phase_sim : msim.
Lemma receipt_pass_sim `{External} {T : TableImpl} `{BackendLaws T} {cx : Ctx} id t m v :
  msim (T:=T) (receipt_pass id t m v) (receipt_pass id t m v).
Proof. unfold receipt_pass. msim. Qed.
#[export] Hint Resolve receipt_pass_sim : msim.
Lemma receipt_passes_sim `{External} {T : TableImpl} `{BackendLaws T} {cx : Ctx} id t m :
  msim (T:=T) (receipt_passes id t m) (receipt_passes id t m).
Proof. unfold receipt_passes. msim. Qed.
#[export] Hint Resolve receipt_passes_sim : msim.
Lemma phase_runs_sim `{External} {T : TableImpl} `{BackendLaws T} {cx : Ctx} p c ph :
  msim (T:=T) (phase_runs p c ph) (phase_runs p c ph).
Proof. unfold phase_runs. msim. Qed.
#[export] Hint Resolve phase_runs_sim : msim.
Lemma phase_complete_sim `{External} {T : TableImpl} `{BackendLaws T} {cx : Ctx} c ph :
  msim (T:=T) (phase_complete c ph) (phase_complete c ph).
Proof. apply phase_runs_sim. Qed.
#[export] Hint Resolve phase_complete_sim : msim.
Lemma phase_passed_sim `{External} {T : TableImpl} `{BackendLaws T} {cx : Ctx} c ph :
  msim (T:=T) (phase_passed c ph) (phase_passed c ph).
Proof. apply phase_runs_sim. Qed.
#[export] Hint Resolve phase_passed_sim : msim.
Lemma aggregate_sim `{External} {T : TableImpl} `{BackendLaws T} {cx : Ctx} c :
  msim (T:=T) (aggregate c) (aggregate c).
Proof. unfold aggregate. msim. Qed.
#[export] Hint Resolve aggregate_sim : msim.
Lemma verify_artifacts_sim `{External} {T : TableImpl} `{BackendLaws T} {cx : Ctx} refs :
  msim (T:=T) (verify_artifacts refs) (verify_artifacts refs).
Proof. unfold verify_artifacts. msim. Qed.
#[export] Hint Resolve verify_artifacts_sim : msim.
Lemma evidence_schemas_sim `{External} {T : TableImpl} `{BackendLaws T} {cx : Ctx} refs :
  msim (T:=T) (evidence_schemas refs) (evidence_schemas refs).
Proof. unfold evidence_schemas. msim. Qed.
#[export] Hint Resolve evidence_schemas_sim : msim.
Lemma check_evidence_sim `{External} {T : TableImpl} `{BackendLaws T} {cx : Ctx} v ve :
  msim (T:=T) (check_evidence v ve) (check_evidence v ve).
Proof. unfold check_evidence. msim. Qed.
#[export] Hint Resolve check_evidence_sim : msim.
Lemma advance_run_sim `{External} {T : TableImpl} `{BackendLaws T} {cx : Ctx} v run ve :
  msim (T:=T) (advance_run v run ve) (advance_run v run ve).
Proof. unfold advance_run. msim. Qed.
#[export] Hint Resolve advance_run_sim : msim.
Lemma new_verdict_sim `{External} {T : TableImpl} `{BackendLaws T} {cx : Ctx} run v c ve :
  msim (T:=T) (new_verdict run v c ve) (new_verdict run v c ve).
Proof. unfold new_verdict. msim. Qed.
#[export] Hint Resolve new_verdict_sim : msim.
Lemma record_verdict_sim `{External} {T : TableImpl} `{BackendLaws T} {cx : Ctx} ve :
  msim (T:=T) (record_verdict ve) (record_verdict ve).
Proof. unfold record_verdict. msim. Qed.
#[export] Hint Resolve record_verdict_sim : msim.

(** ** Propagation *)
Lemma cycle_victim_sim `{External} {T : TableImpl} `{BackendLaws T} {cx : Ctx} x :
  msim (T:=T) (cycle_victim x) (cycle_victim x).
Proof. unfold cycle_victim. msim. Qed.
#[export] Hint Resolve cycle_victim_sim : msim.
Lemma cancel_body_sim `{External} {T : TableImpl} `{BackendLaws T} {cx : Ctx} root st s :
  msim (T:=T) (cancel_body root st s) (cancel_body root st s).
Proof. unfold cancel_body. msim. Qed.
#[export] Hint Resolve cancel_body_sim : msim.
Lemma cancel_tree_sim `{External} {T : TableImpl} `{BackendLaws T} {cx : Ctx} root st :
  msim (T:=T) (cancel_tree root st) (cancel_tree root st).
Proof. unfold cancel_tree. msim. Qed.
#[export] Hint Resolve cancel_tree_sim : msim.
Lemma failed_dependency_sim `{External} {T : TableImpl} `{BackendLaws T} {cx : Ctx} c :
  msim (T:=T) (failed_dependency c) (failed_dependency c).
Proof. unfold failed_dependency. msim. Qed.
#[export] Hint Resolve failed_dependency_sim : msim.
Lemma fail_scan_sim `{External} {T : TableImpl} `{BackendLaws T} {cx : Ctx} acc row :
  msim (T:=T) (fail_scan acc row) (fail_scan acc row).
Proof. unfold fail_scan. msim. Qed.
#[export] Hint Resolve fail_scan_sim : msim.
Lemma fail_body_sim `{External} {T : TableImpl} `{BackendLaws T} {cx : Ctx} n :
  msim (T:=T) (fail_body n) (fail_body n).
Proof. unfold fail_body. msim. Qed.
#[export] Hint Resolve fail_body_sim : msim.
Lemma satisfy_sim `{External} {T : TableImpl} `{BackendLaws T} {cx : Ctx} b id :
  msim (T:=T) (satisfy b id) (satisfy b id).
Proof. unfold satisfy. msim. Qed.
#[export] Hint Resolve satisfy_sim : msim.
Lemma release_claim_sim `{External} {T : TableImpl} `{BackendLaws T} {cx : Ctx} id :
  msim (T:=T) (release_claim id) (release_claim id).
Proof. unfold release_claim. msim. Qed.
#[export] Hint Resolve release_claim_sim : msim.
Lemma monitor_due_sim `{External} {T : TableImpl} `{BackendLaws T} {cx : Ctx} row :
  msim (T:=T) (monitor_due row) (monitor_due row).
Proof. unfold monitor_due. msim. Qed.
#[export] Hint Resolve monitor_due_sim : msim.
Lemma release_monitor_sim `{External} {T : TableImpl} `{BackendLaws T} {cx : Ctx} e :
  msim (T:=T) (release_monitor e) (release_monitor e).
Proof. unfold release_monitor. msim. Qed.
#[export] Hint Resolve release_monitor_sim : msim.
Lemma settle_body_sim `{External} {T : TableImpl} `{BackendLaws T} {cx : Ctx} n :
  msim (T:=T) (settle_body n) (settle_body n).
Proof. unfold settle_body. msim. Qed.
#[export] Hint Resolve settle_body_sim : msim.
Lemma propagate_sim `{External} {T : TableImpl} `{BackendLaws T} {cx : Ctx} :
  msim (T:=T) propagate propagate.
Proof. unfold propagate. msim. Qed.
#[export] Hint Resolve propagate_sim : msim.

(** ** Creation *)
Lemma free_id_sim `{External} {T : TableImpl} `{BackendLaws T} {cx : Ctx} id :
  msim (T:=T) (free_id id) (free_id id).
Proof. unfold free_id. msim. Qed.
#[export] Hint Resolve free_id_sim : msim.
Lemma check_header_sim `{External} {T : TableImpl} `{BackendLaws T} {cx : Ctx} c :
  msim (T:=T) (check_header c) (check_header c).
Proof. unfold check_header. msim. Qed.
#[export] Hint Resolve check_header_sim : msim.
Lemma check_parties_sim `{External} {T : TableImpl} `{BackendLaws T} {cx : Ctx} c :
  msim (T:=T) (check_parties c) (check_parties c).
Proof. unfold check_parties. msim. Qed.
#[export] Hint Resolve check_parties_sim : msim.
Lemma check_scope_sim `{External} {T : TableImpl} `{BackendLaws T} {cx : Ctx} s :
  msim (T:=T) (check_scope s) (check_scope s).
Proof. unfold check_scope. msim. Qed.
#[export] Hint Resolve check_scope_sim : msim.
Lemma collect_ids_sim `{External} {T : TableImpl} `{BackendLaws T} {cx : Ctx} b new :
  msim (T:=T) (collect_ids b new) (collect_ids b new).
Proof. unfold collect_ids. msim. Qed.
#[export] Hint Resolve collect_ids_sim : msim.
Lemma check_specification_sim `{External} {T : TableImpl} `{BackendLaws T} {cx : Ctx} new r v :
  msim (T:=T) (check_specification new r v) (check_specification new r v).
Proof. unfold check_specification. msim. Qed.
#[export] Hint Resolve check_specification_sim : msim.
Lemma check_validation_fields_sim `{External} {T : TableImpl} `{BackendLaws T} {cx : Ctx} v :
  msim (T:=T) (check_validation_fields v) (check_validation_fields v).
Proof. unfold check_validation_fields. msim. Qed.
#[export] Hint Resolve check_validation_fields_sim : msim.
Lemma check_handlers_sim `{External} {T : TableImpl} `{BackendLaws T} {cx : Ctx} v :
  msim (T:=T) (check_handlers v) (check_handlers v).
Proof. unfold check_handlers. msim. Qed.
#[export] Hint Resolve check_handlers_sim : msim.
Lemma check_requirement_sim `{External} {T : TableImpl} `{BackendLaws T} {cx : Ctx} new acc r :
  msim (T:=T) (check_requirement new acc r) (check_requirement new acc r).
Proof. unfold check_requirement. msim. Qed.
#[export] Hint Resolve check_requirement_sim : msim.
Lemma check_requirements_sim `{External} {T : TableImpl} `{BackendLaws T} {cx : Ctx} new :
  msim (T:=T) (check_requirements new) (check_requirements new).
Proof. unfold check_requirements. msim. Qed.
#[export] Hint Resolve check_requirements_sim : msim.
Lemma check_edge_sim `{External} {T : TableImpl} `{BackendLaws T} {cx : Ctx} ids id k o :
  msim (T:=T) (check_edge ids id k o) (check_edge ids id k o).
Proof. unfold check_edge. msim. Qed.
#[export] Hint Resolve check_edge_sim : msim.
Lemma check_relation_sim `{External} {T : TableImpl} `{BackendLaws T} {cx : Ctx} ids id r :
  msim (T:=T) (check_relation ids id r) (check_relation ids id r).
Proof. unfold check_relation. msim. Qed.
#[export] Hint Resolve check_relation_sim : msim.
Lemma check_claim_sim `{External} {T : TableImpl} `{BackendLaws T} {cx : Ctx} ids b new :
  msim (T:=T) (check_claim ids b new) (check_claim ids b new).
Proof. unfold check_claim. msim. Qed.
#[export] Hint Resolve check_claim_sim : msim.
Lemma insert_validation_sim `{External} {T : TableImpl} `{BackendLaws T} {cx : Ctx} v :
  msim (T:=T) (insert_validation v) (insert_validation v).
Proof. unfold insert_validation. msim. Qed.
#[export] Hint Resolve insert_validation_sim : msim.
Lemma insert_claim_sim `{External} {T : TableImpl} `{BackendLaws T} {cx : Ctx} new :
  msim (T:=T) (insert_claim new) (insert_claim new).
Proof. unfold insert_claim. msim. Qed.
#[export] Hint Resolve insert_claim_sim : msim.
Lemma generate_sim `{External} {T : TableImpl} `{BackendLaws T} {cx : Ctx} new :
  msim (T:=T) (generate new) (generate new).
Proof. unfold generate. msim. Qed.
#[export] Hint Resolve generate_sim : msim.
Lemma object_exists_sim `{External} {T : TableImpl} `{BackendLaws T} {cx : Ctx} o :
  msim (T:=T) (object_exists o) (object_exists o).
Proof. unfold object_exists. msim. Qed.
#[export] Hint Resolve object_exists_sim : msim.
Lemma check_artifact_sim `{External} {T : TableImpl} `{BackendLaws T} {cx : Ctx} c :
  msim (T:=T) (check_artifact c) (check_artifact c).
Proof. unfold check_artifact. msim. Qed.
#[export] Hint Resolve check_artifact_sim : msim.
Lemma create_artifact_sim `{External} {T : TableImpl} `{BackendLaws T} {cx : Ctx} new :
  msim (T:=T) (create_artifact new) (create_artifact new).
Proof. unfold create_artifact. msim. Qed.
#[export] Hint Resolve create_artifact_sim : msim.
Lemma verify_error_sim `{External} {T : TableImpl} `{BackendLaws T} {cx : Ctx} r :
  msim (T:=T) (verify_error r) (verify_error r).
Proof. unfold verify_error. msim. Qed.
#[export] Hint Resolve verify_error_sim : msim.
Lemma create_testament_sim `{External} {T : TableImpl} `{BackendLaws T} {cx : Ctx} id new :
  msim (T:=T) (create_testament id new) (create_testament id new).
Proof. unfold create_testament. msim. Qed.
#[export] Hint Resolve create_testament_sim : msim.

(** ** Commands *)
Lemma negotiate_epoch_sim `{External} {T : TableImpl} `{BackendLaws T} {cx : Ctx} e :
  msim (T:=T) (negotiate_epoch e) (negotiate_epoch e).
Proof. unfold negotiate_epoch. msim. Qed.
#[export] Hint Resolve negotiate_epoch_sim : msim.
Lemma advance_epoch_floor_sim `{External} {T : TableImpl} `{BackendLaws T} {cx : Ctx} m :
  msim (T:=T) (advance_epoch_floor m) (advance_epoch_floor m).
Proof. unfold advance_epoch_floor. msim. Qed.
#[export] Hint Resolve advance_epoch_floor_sim : msim.
Lemma post_claim_sim `{External} {T : TableImpl} `{BackendLaws T} {cx : Ctx} id :
  msim (T:=T) (post_claim id) (post_claim id).
Proof. unfold post_claim. msim. Qed.
#[export] Hint Resolve post_claim_sim : msim.
Lemma dependency_ready_sim `{External} {T : TableImpl} `{BackendLaws T} {cx : Ctx} id d :
  msim (T:=T) (dependency_ready id d) (dependency_ready id d).
Proof. unfold dependency_ready. msim. Qed.
#[export] Hint Resolve dependency_ready_sim : msim.
Lemma acquire_receipt_sim `{External} {T : TableImpl} `{BackendLaws T} {cx : Ctx} id rc e :
  msim (T:=T) (acquire_receipt id rc e) (acquire_receipt id rc e).
Proof. unfold acquire_receipt. msim. Qed.
#[export] Hint Resolve acquire_receipt_sim : msim.
Lemma adopt_receipt_sim `{External} {T : TableImpl} `{BackendLaws T} {cx : Ctx} id p rc h e :
  msim (T:=T) (adopt_receipt id p rc h e) (adopt_receipt id p rc h e).
Proof. unfold adopt_receipt. msim. Qed.
#[export] Hint Resolve adopt_receipt_sim : msim.
Lemma record_progress_sim `{External} {T : TableImpl} `{BackendLaws T} {cx : Ctx} id f s :
  msim (T:=T) (record_progress id f s) (record_progress id f s).
Proof. unfold record_progress. msim. Qed.
#[export] Hint Resolve record_progress_sim : msim.
Lemma begin_evidence_set_sim `{External} {T : TableImpl} `{BackendLaws T} {cx : Ctx} id f s :
  msim (T:=T) (begin_evidence_set id f s) (begin_evidence_set id f s).
Proof. unfold begin_evidence_set. msim. Qed.
#[export] Hint Resolve begin_evidence_set_sim : msim.
Lemma open_set_sim `{External} {T : TableImpl} `{BackendLaws T} {cx : Ctx} id f s :
  msim (T:=T) (open_set id f s) (open_set id f s).
Proof. unfold open_set. msim. Qed.
#[export] Hint Resolve open_set_sim : msim.
Lemma attach_artifact_sim `{External} {T : TableImpl} `{BackendLaws T} {cx : Ctx} id f s a :
  msim (T:=T) (attach_artifact id f s a) (attach_artifact id f s a).
Proof. unfold attach_artifact. msim. Qed.
#[export] Hint Resolve attach_artifact_sim : msim.
Lemma close_testament_sim `{External} {T : TableImpl} `{BackendLaws T} {cx : Ctx} id f t s m u c o :
  msim (T:=T) (close_testament id f t s m u c o) (close_testament id f t s m u c o).
Proof. unfold close_testament. msim. Qed.
#[export] Hint Resolve close_testament_sim : msim.
Lemma acknowledge_testament_sim `{External} {T : TableImpl} `{BackendLaws T} {cx : Ctx} id t :
  msim (T:=T) (acknowledge_testament id t) (acknowledge_testament id t).
Proof. unfold acknowledge_testament. msim. Qed.
#[export] Hint Resolve acknowledge_testament_sim : msim.
Lemma begin_whole_work_sim `{External} {T : TableImpl} `{BackendLaws T} {cx : Ctx} id :
  msim (T:=T) (begin_whole_work id) (begin_whole_work id).
Proof. unfold begin_whole_work. msim. Qed.
#[export] Hint Resolve begin_whole_work_sim : msim.
Lemma begin_increment_sim `{External} {T : TableImpl} `{BackendLaws T} {cx : Ctx} id v t m :
  msim (T:=T) (begin_increment id v t m) (begin_increment id v t m).
Proof. unfold begin_increment. msim. Qed.
#[export] Hint Resolve begin_increment_sim : msim.
Lemma fenced_verdict_sim `{External} {T : TableImpl} `{BackendLaws T} {cx : Ctx} ve rc :
  msim (T:=T) (fenced_verdict ve rc) (fenced_verdict ve rc).
Proof. unfold fenced_verdict. msim. Qed.
#[export] Hint Resolve fenced_verdict_sim : msim.
Lemma complete_with_sim `{External} {T : TableImpl} `{BackendLaws T} {cx : Ctx} id v :
  msim (T:=T) (complete_with id v) (complete_with id v).
Proof. unfold complete_with. msim. Qed.
#[export] Hint Resolve complete_with_sim : msim.
Lemma complete_whole_work_sim `{External} {T : TableImpl} `{BackendLaws T} {cx : Ctx} id :
  msim (T:=T) (complete_whole_work id) (complete_whole_work id).
Proof. unfold complete_whole_work. msim. Qed.
#[export] Hint Resolve complete_whole_work_sim : msim.
Lemma fail_boundary_sim `{External} {T : TableImpl} `{BackendLaws T} {cx : Ctx} ss st id e :
  msim (T:=T) (fail_boundary ss st id e) (fail_boundary ss st id e).
Proof. unfold fail_boundary. msim. Qed.
#[export] Hint Resolve fail_boundary_sim : msim.
Lemma failure_set_sim `{External} {T : TableImpl} `{BackendLaws T} {cx : Ctx} id f s a :
  msim (T:=T) (failure_set id f s a) (failure_set id f s a).
Proof. unfold failure_set. msim. Qed.
#[export] Hint Resolve failure_set_sim : msim.
Lemma fail_testament_generation_sim `{External} {T : TableImpl} `{BackendLaws T} {cx : Ctx} id t s e u :
  msim (T:=T) (fail_testament_generation id t s e u) (fail_testament_generation id t s e u).
Proof. unfold fail_testament_generation. msim. Qed.
#[export] Hint Resolve fail_testament_generation_sim : msim.
Lemma cancel_claim_sim `{External} {T : TableImpl} `{BackendLaws T} {cx : Ctx} id s :
  msim (T:=T) (cancel_claim id s) (cancel_claim id s).
Proof. unfold cancel_claim. msim. Qed.
#[export] Hint Resolve cancel_claim_sim : msim.
Lemma revoke_claim_sim `{External} {T : TableImpl} `{BackendLaws T} {cx : Ctx} id s :
  msim (T:=T) (revoke_claim id s) (revoke_claim id s).
Proof. unfold revoke_claim. msim. Qed.
#[export] Hint Resolve revoke_claim_sim : msim.
Lemma expire_tree_sim `{External} {T : TableImpl} `{BackendLaws T} {cx : Ctx} id :
  msim (T:=T) (expire_tree id) (expire_tree id).
Proof. unfold expire_tree. msim. Qed.
#[export] Hint Resolve expire_tree_sim : msim.
Lemma expire_claim_sim `{External} {T : TableImpl} `{BackendLaws T} {cx : Ctx} id t g f :
  msim (T:=T) (expire_claim id t g f) (expire_claim id t g f).
Proof. unfold expire_claim. msim. Qed.
#[export] Hint Resolve expire_claim_sim : msim.
Lemma supersede_claim_sim `{External} {T : TableImpl} `{BackendLaws T} {cx : Ctx} p n :
  msim (T:=T) (supersede_claim p n) (supersede_claim p n).
Proof. unfold supersede_claim. msim. Qed.
#[export] Hint Resolve supersede_claim_sim : msim.
Lemma register_monitor_sim `{External} {T : TableImpl} `{BackendLaws T} {cx : Ctx} m o rs d :
  msim (T:=T) (register_monitor m o rs d) (register_monitor m o rs d).
Proof. unfold register_monitor. msim. Qed.
#[export] Hint Resolve register_monitor_sim : msim.
Lemma rebind_monitor_sim `{External} {T : TableImpl} `{BackendLaws T} {cx : Ctx} m p n :
  msim (T:=T) (rebind_monitor m p n) (rebind_monitor m p n).
Proof. unfold rebind_monitor. msim. Qed.
#[export] Hint Resolve rebind_monitor_sim : msim.
Lemma release_scope_sim `{External} {T : TableImpl} `{BackendLaws T} {cx : Ctx} id :
  msim (T:=T) (release_scope id) (release_scope id).
Proof. unfold release_scope. msim. Qed.
#[export] Hint Resolve release_scope_sim : msim.
Lemma register_artifact_sim `{External} {T : TableImpl} `{BackendLaws T} {cx : Ctx} a :
  msim (T:=T) (register_artifact a) (register_artifact a).
Proof. unfold register_artifact. msim. Qed.
#[export] Hint Resolve register_artifact_sim : msim.
Lemma expire_monitor_sim `{External} {T : TableImpl} `{BackendLaws T} {cx : Ctx} m t g f :
  msim (T:=T) (expire_monitor m t g f) (expire_monitor m t g f).
Proof. unfold expire_monitor. msim. Qed.
#[export] Hint Resolve expire_monitor_sim : msim.
Lemma command_sim `{External} {T : TableImpl} `{BackendLaws T} {cx : Ctx} c :
  msim (T:=T) (command c) (command c).
Proof. unfold command. msim. Qed.
#[export] Hint Resolve command_sim : msim.
Lemma object_budget_sim `{External} {T : TableImpl} `{BackendLaws T} {cx : Ctx} :
  msim (T:=T) object_budget object_budget.
Proof. unfold object_budget. msim. Qed.
#[export] Hint Resolve object_budget_sim : msim.
Lemma execute_domain_sim `{External} {T : TableImpl} `{BackendLaws T} {cx : Ctx} c :
  msim (T:=T) (execute_domain c) (execute_domain c).
Proof. unfold execute_domain. msim. Qed.
#[export] Hint Resolve execute_domain_sim : msim.

(** ** Admission *)
Lemma admit_validation_sim `{External} {T : TableImpl} `{BackendLaws T} {cx : Ctx} v :
  msim (T:=T) (admit_validation v) (admit_validation v).
Proof. unfold admit_validation. msim. Qed.
#[export] Hint Resolve admit_validation_sim : msim.
Lemma admit_claim_sim `{External} {T : TableImpl} `{BackendLaws T} {cx : Ctx} n :
  msim (T:=T) (admit_claim n) (admit_claim n).
Proof. unfold admit_claim. msim. Qed.
#[export] Hint Resolve admit_claim_sim : msim.
Lemma admit_stored_sim `{External} {T : TableImpl} `{BackendLaws T} {cx : Ctx} id :
  msim (T:=T) (admit_stored id) (admit_stored id).
Proof. unfold admit_stored. msim. Qed.
#[export] Hint Resolve admit_stored_sim : msim.
Lemma find_diagnostic_sim `{External} {T : TableImpl} `{BackendLaws T} {cx : Ctx} l f m :
  msim (T:=T) (find_diagnostic l f m) (find_diagnostic l f m).
Proof. induction m; simpl; msim. Qed.
#[export] Hint Resolve find_diagnostic_sim : msim.
Lemma validate_failure_report_sim `{External} {T : TableImpl} `{BackendLaws T} {cx : Ctx} c f s m :
  msim (T:=T) (validate_failure_report c f s m) (validate_failure_report c f s m).
Proof. unfold validate_failure_report. msim. Qed.
#[export] Hint Resolve validate_failure_report_sim : msim.
Lemma validate_report_sim `{External} {T : TableImpl} `{BackendLaws T} {cx : Ctx} c :
  msim (T:=T) (validate_report c) (validate_report c).
Proof. unfold validate_report. msim. Qed.
#[export] Hint Resolve validate_report_sim : msim.
Lemma has_diagnostic_sim `{External} {T : TableImpl} `{BackendLaws T} {cx : Ctx} l f m :
  msim (T:=T) (has_diagnostic l f m) (has_diagnostic l f m).
Proof. induction m; simpl; msim. Qed.
#[export] Hint Resolve has_diagnostic_sim : msim.
Lemma last_slot_sim `{External} {T : TableImpl} `{BackendLaws T} {cx : Ctx} l f s n :
  msim (T:=T) (last_slot l f s n) (last_slot l f s n).
Proof. unfold last_slot. msim. Qed.
#[export] Hint Resolve last_slot_sim : msim.
Lemma validate_last_attachment_sim `{External} {T : TableImpl} `{BackendLaws T} {cx : Ctx} c f s n :
  msim (T:=T) (validate_last_attachment c f s n) (validate_last_attachment c f s n).
Proof. unfold validate_last_attachment. msim. Qed.
#[export] Hint Resolve validate_last_attachment_sim : msim.
Lemma validate_diagnostic_headroom_sim `{External} {T : TableImpl} `{BackendLaws T} {cx : Ctx} c :
  msim (T:=T) (validate_diagnostic_headroom c) (validate_diagnostic_headroom c).
Proof. unfold validate_diagnostic_headroom. msim. Qed.
#[export] Hint Resolve validate_diagnostic_headroom_sim : msim.
Lemma validate_admission_sim `{External} {T : TableImpl} `{BackendLaws T} {cx : Ctx} c :
  msim (T:=T) (validate_admission c) (validate_admission c).
Proof. unfold validate_admission. msim. Qed.
#[export] Hint Resolve validate_admission_sim : msim.
