(* ===== verification/Hoare.v ===== *)
(** * Reasoning about serial runs

    [quiet]: a computation that only reads, and leaves the reducer as it was.
    [wp]: what holds of the rows when a computation succeeds. Both are about
    the plain maps with no byte allowance, the reference every storage agrees
    with ([Simulation.v]). *)
From stdpp Require Import prelude gmap strings.
From Stdlib Require Import NArith.
From S2P Require Import Prelude Vocabulary Objects Canonical Store StoreLaws Reducer.
From S2P Require Import Graph Validation Propagate Create Commands Admission Core.

Notation Rows := (Tables (@gmap)).
Notation SM := (M (@gmap)).

(** ** Reads *)
Definition quiet `{External} {A} (m : SM A) : Prop :=
  ∀ q, rd_rec q = recorder_disabled → is_ok (m q).1 → (m q).2 = q.

Section quiet.
Context `{External}.
Lemma quiet_ret {A} (a : A) : quiet (mret a).
Proof. by intros q. Qed.
Lemma quiet_stop {A} o : quiet (A:=A) (stop o).
Proof. by intros q. Qed.
Lemma quiet_fuel {A} : quiet (A:=A) out_of_fuel.
Proof. by intros q. Qed.
Lemma quiet_bind {A B} (m : SM A) (f : A → SM B) : quiet m → (∀ a, quiet (f a)) → quiet (m ≫= f).
Proof.
  intros Hm Hf q Hq. unfold mbind, M_bind. specialize (Hm q Hq).
  destruct (m q) as [[a|e] q']; simpl in *; [|done]. specialize (Hm I) as ->. by apply Hf.
Qed.
Lemma quiet_mfor {A} (l : list A) f : (∀ x, quiet (f x)) → quiet (mfor l f).
Proof. intros Hf. induction l; simpl; [apply quiet_ret|]. by apply quiet_bind. Qed.
Lemma quiet_mfold {A S} f (l : list A) (s : S) : (∀ s x, quiet (f s x)) → quiet (mfold f l s).
Proof. intros Hf. revert s. induction l; simpl; intros s; [apply quiet_ret|]. by apply quiet_bind. Qed.
Lemma quiet_mall {A} f (l : list A) : (∀ x, quiet (f x)) → quiet (mall f l).
Proof.
  intros Hf. induction l; simpl; [apply quiet_ret|]. apply quiet_bind; [done|].
  intros []; [done|apply quiet_ret].
Qed.
Lemma quiet_loop_pow {S A} n body (s : S) :
  (∀ s, quiet (body s)) → quiet (A:=S + A) (loop_pow n body s).
Proof.
  intros Hb. revert s. induction n; simpl; intros s; [done|].
  apply quiet_bind; [done|]. intros []; [done|apply quiet_ret].
Qed.
Lemma quiet_mloop {S A} fuel body (s : S) : (∀ s, quiet (body s)) → quiet (A:=A) (mloop fuel body s).
Proof.
  intros Hb. apply quiet_bind; [by apply quiet_loop_pow|]. intros []; [apply quiet_fuel|apply quiet_ret].
Qed.
Lemma quiet_with_rec {A} (f : Recorder → A * Recorder) :
  (f recorder_disabled).2 = recorder_disabled → quiet (with_rec f).
Proof.
  intros Hf q Hq _. unfold with_rec. rewrite Hq. destruct (f recorder_disabled); simpl in *; subst.
  destruct q; simpl in *; congruence.
Qed.
Lemma quiet_reserve_bytes n : quiet (with_rec (reserve_bytes n)).
Proof. by apply quiet_with_rec. Qed.
Lemma quiet_reserve_value v : quiet (with_rec (reserve_value v)).
Proof. by apply quiet_with_rec. Qed.
Lemma quiet_failed : quiet (with_rec (λ rec, (failed rec, rec))).
Proof. by apply quiet_with_rec. Qed.
Lemma quiet_tget {K V} `{TableKey K} (s : Sel K V) k : quiet (tget s k).
Proof. by intros q. Qed.
Lemma quiet_titer {K V} `{TableKey K} (s : Sel K V) : quiet (titer s).
Proof. by intros q. Qed.
Lemma quiet_tlen {K V} `{TableKey K} (s : Sel K V) : quiet (tlen s).
Proof. by intros q. Qed.
Lemma quiet_delta_count : quiet delta_count.
Proof. by intros q. Qed.
Lemma quiet_refuse_if b c d : quiet (refuse_if b c d).
Proof. by destruct b. Qed.
Lemma quiet_inform_if b c d : quiet (inform_if b c d).
Proof. by destruct b. Qed.
Lemma quiet_ok_or {A} (x : option A) c d : quiet (ok_or x c d).
Proof. by destruct x. Qed.
Lemma quiet_lift_hash {A} (x : Result A CanonicalError) : quiet (lift_hash x).
Proof. by destruct x. Qed.
End quiet.

Create HintDb quiet discriminated.
#[export] Hint Resolve quiet_ret quiet_stop quiet_fuel quiet_reserve_bytes quiet_reserve_value
  quiet_failed quiet_tget quiet_titer quiet_tlen quiet_delta_count quiet_refuse_if quiet_inform_if
  quiet_ok_or quiet_lift_hash : quiet.
Ltac quiet_step :=
  match goal with
  | |- ∀ _, _ => intros
  | |- quiet (mbind _ _) => apply quiet_bind
  | |- quiet (refuse _ _) => apply quiet_stop
  | |- quiet (inform _ _) => apply quiet_stop
  | |- quiet (mfor _ _) => apply quiet_mfor
  | |- quiet (mfold _ _ _) => apply quiet_mfold
  | |- quiet (mall _ _) => apply quiet_mall
  | |- quiet (mloop _ _ _) => apply quiet_mloop
  | |- quiet _ => solve [eauto 2 with quiet]
  | |- quiet (match ?x with _ => _ end) => destruct x
  | |- quiet ((match ?x with _ => _ end) _) => destruct x
  end.
Ltac quiet := repeat (quiet_step; cbv beta zeta).
Lemma quiet_contains_key `{External} {K V} `{TableKey K} (s : Sel K V) k : quiet (contains_key s k).
Proof. unfold contains_key. quiet. Qed.
#[export] Hint Resolve quiet_contains_key : quiet.
Lemma quiet_get_owned `{External} {K V} `{TableKey K} (s : Sel K V) k : quiet (get_owned s k).
Proof. unfold get_owned. quiet. Qed.
#[export] Hint Resolve quiet_get_owned : quiet.
Lemma quiet_scratch_ok_1 `{External} : quiet (scratch_ok 1).
Proof. intros q Hq _. unfold scratch_ok, scratch. simpl. unfold mbind, M_bind, with_rec. rewrite Hq. by destruct q; simpl in *; subst. Qed.
Lemma quiet_scratch `{External} n : quiet (scratch n).
Proof.
  unfold scratch. destruct (checked_mul n 128); [|by intros q].
  apply quiet_bind; [apply quiet_reserve_bytes|]. intros []; [apply quiet_ret|by intros q].
Qed.
#[export] Hint Resolve quiet_scratch quiet_scratch_ok_1 : quiet.
Lemma quiet_check_capacity `{External} : quiet check_capacity.
Proof. unfold check_capacity. quiet. Qed.
#[export] Hint Resolve quiet_check_capacity : quiet.
Lemma quiet_charge `{External} v : quiet (charge v).
Proof. unfold charge. quiet. Qed.
#[export] Hint Resolve quiet_charge : quiet.
Lemma quiet_get_claim `{External} id : quiet (get_claim id).
Proof. unfold get_claim. quiet. Qed.
#[export] Hint Resolve quiet_get_claim : quiet.
Lemma quiet_runtime `{External} {cx : Ctx} : quiet runtime.
Proof. unfold runtime. quiet. Qed.
#[export] Hint Resolve quiet_runtime : quiet.
Lemma quiet_allowed `{External} id ss : quiet (allowed id ss).
Proof. unfold allowed. quiet. Qed.
#[export] Hint Resolve quiet_allowed : quiet.
Lemma quiet_active `{External} id : quiet (active id).
Proof. unfold active. quiet. Qed.
#[export] Hint Resolve quiet_active : quiet.
Lemma quiet_holder `{External} {cx : Ctx} c f : quiet (holder c f).
Proof. unfold holder. quiet. Qed.
#[export] Hint Resolve quiet_holder : quiet.
Lemma quiet_issuer_authority `{External} {cx : Ctx} c : quiet (issuer_authority c).
Proof. unfold issuer_authority. quiet. Qed.
#[export] Hint Resolve quiet_issuer_authority : quiet.
Lemma quiet_text `{External} {cx : Ctx} s : quiet (text s).
Proof. unfold text. quiet. Qed.
#[export] Hint Resolve quiet_text : quiet.
Lemma quiet_result `{External} id : quiet (result id).
Proof. unfold result. quiet. Qed.
#[export] Hint Resolve quiet_result : quiet.
Lemma quiet_predicate `{External} p : quiet (predicate p).
Proof. unfold predicate. quiet. Qed.
#[export] Hint Resolve quiet_predicate : quiet.
Lemma quiet_await_holds `{External} sat d : quiet (await_holds sat d).
Proof. unfold await_holds. quiet. Qed.
#[export] Hint Resolve quiet_await_holds : quiet.
Lemma quiet_root_holds `{External} sat p : quiet (root_holds sat p).
Proof. unfold root_holds. quiet. Qed.
#[export] Hint Resolve quiet_root_holds : quiet.
Lemma quiet_open_monitors `{External} id : quiet (open_monitors id).
Proof. unfold open_monitors. quiet. Qed.
#[export] Hint Resolve quiet_open_monitors : quiet.
Lemma quiet_joins `{External} sat id c : quiet (joins sat id c).
Proof. unfold joins. quiet. Qed.
#[export] Hint Resolve quiet_joins : quiet.
Lemma quiet_push_edges `{External} ks c st : quiet (push_edges ks c st).
Proof. unfold push_edges. quiet. Qed.
#[export] Hint Resolve quiet_push_edges : quiet.
Lemma quiet_walk_body `{External} ks limit w : quiet (walk_body ks limit w).
Proof. unfold walk_body. quiet. Qed.
#[export] Hint Resolve quiet_walk_body : quiet.
Lemma quiet_walk_from `{External} ks limit acc row : quiet (walk_from ks limit acc row).
Proof. unfold walk_from. quiet. Qed.
#[export] Hint Resolve quiet_walk_from : quiet.
Lemma quiet_check_acyclic `{External} ks limit : quiet (check_acyclic ks limit).
Proof. unfold check_acyclic. quiet. Qed.
#[export] Hint Resolve quiet_check_acyclic : quiet.
Lemma quiet_claim_active `{External} id : quiet (claim_active id).
Proof. unfold claim_active. quiet. Qed.
#[export] Hint Resolve quiet_claim_active : quiet.
Lemma quiet_neighbors `{External} id : quiet (neighbors id).
Proof. unfold neighbors. quiet. Qed.
#[export] Hint Resolve quiet_neighbors : quiet.
Lemma quiet_graph_fuel `{External} : quiet graph_fuel.
Proof. unfold graph_fuel. quiet. Qed.
#[export] Hint Resolve quiet_graph_fuel : quiet.
Lemma quiet_reach_body `{External} s : quiet (reach_body s).
Proof. unfold reach_body. quiet. Qed.
#[export] Hint Resolve quiet_reach_body : quiet.
Lemma quiet_reachable `{External} id limit : quiet (reachable id limit).
Proof. unfold reachable. quiet. Qed.
#[export] Hint Resolve quiet_reachable : quiet.
Lemma quiet_cycle_containing `{External} id limit : quiet (cycle_containing id limit).
Proof. unfold cycle_containing. quiet. Qed.
#[export] Hint Resolve quiet_cycle_containing : quiet.
Lemma quiet_phase_runs `{External} p c ph : quiet (phase_runs p c ph).
Proof. unfold phase_runs. quiet. Qed.
#[export] Hint Resolve quiet_phase_runs : quiet.
Lemma quiet_aggregate `{External} c : quiet (aggregate c).
Proof. unfold aggregate. quiet. Qed.
#[export] Hint Resolve quiet_aggregate : quiet.
Lemma quiet_verify_artifacts `{External} refs : quiet (verify_artifacts refs).
Proof. unfold verify_artifacts. quiet. Qed.
#[export] Hint Resolve quiet_verify_artifacts : quiet.
Lemma quiet_evidence_schemas `{External} refs : quiet (evidence_schemas refs).
Proof. unfold evidence_schemas. quiet. Qed.
#[export] Hint Resolve quiet_evidence_schemas : quiet.
Lemma quiet_check_evidence `{External} v ve : quiet (check_evidence v ve).
Proof. unfold check_evidence. quiet. Qed.
#[export] Hint Resolve quiet_check_evidence : quiet.
Lemma quiet_cycle_victim `{External} x : quiet (cycle_victim x).
Proof. unfold cycle_victim. quiet. Qed.
#[export] Hint Resolve quiet_cycle_victim : quiet.
Lemma quiet_failed_dependency `{External} c : quiet (failed_dependency c).
Proof. unfold failed_dependency. quiet. Qed.
#[export] Hint Resolve quiet_failed_dependency : quiet.
Lemma quiet_fail_scan `{External} {cx : Ctx} acc row : quiet (fail_scan acc row).
Proof. unfold fail_scan. quiet. Qed.
#[export] Hint Resolve quiet_fail_scan : quiet.
Lemma quiet_monitor_due `{External} row : quiet (monitor_due row).
Proof. unfold monitor_due. quiet. Qed.
#[export] Hint Resolve quiet_monitor_due : quiet.
Lemma quiet_free_id `{External} id : quiet (free_id id).
Proof. unfold free_id. quiet. Qed.
#[export] Hint Resolve quiet_free_id : quiet.
Lemma quiet_check_header `{External} {cx : Ctx} c : quiet (check_header c).
Proof. unfold check_header. quiet. Qed.
#[export] Hint Resolve quiet_check_header : quiet.
Lemma quiet_check_parties `{External} {cx : Ctx} c : quiet (check_parties c).
Proof. unfold check_parties. quiet. Qed.
#[export] Hint Resolve quiet_check_parties : quiet.
Lemma quiet_check_scope `{External} {cx : Ctx} s : quiet (check_scope s).
Proof. unfold check_scope. quiet. Qed.
#[export] Hint Resolve quiet_check_scope : quiet.
Lemma quiet_collect_ids `{External} b new : quiet (collect_ids b new).
Proof. unfold collect_ids. quiet. Qed.
#[export] Hint Resolve quiet_collect_ids : quiet.
Lemma quiet_check_specification `{External} {cx : Ctx} new r v : quiet (check_specification new r v).
Proof. unfold check_specification. quiet. Qed.
#[export] Hint Resolve quiet_check_specification : quiet.
Lemma quiet_check_validation_fields `{External} {cx : Ctx} v : quiet (check_validation_fields v).
Proof. unfold check_validation_fields. quiet. Qed.
#[export] Hint Resolve quiet_check_validation_fields : quiet.
Lemma quiet_check_handlers `{External} {cx : Ctx} v : quiet (check_handlers v).
Proof. unfold check_handlers. quiet. Qed.
#[export] Hint Resolve quiet_check_handlers : quiet.
Lemma quiet_check_requirement `{External} {cx : Ctx} new acc r : quiet (check_requirement new acc r).
Proof. unfold check_requirement. quiet. Qed.
#[export] Hint Resolve quiet_check_requirement : quiet.
Lemma quiet_check_requirements `{External} {cx : Ctx} new : quiet (check_requirements new).
Proof. unfold check_requirements. quiet. Qed.
#[export] Hint Resolve quiet_check_requirements : quiet.
Lemma quiet_check_edge `{External} {cx : Ctx} ids id k o : quiet (check_edge ids id k o).
Proof. unfold check_edge. quiet. Qed.
#[export] Hint Resolve quiet_check_edge : quiet.
Lemma quiet_check_relation `{External} {cx : Ctx} ids id r : quiet (check_relation ids id r).
Proof. unfold check_relation. quiet. Qed.
#[export] Hint Resolve quiet_check_relation : quiet.
Lemma quiet_check_claim `{External} {cx : Ctx} ids b new : quiet (check_claim ids b new).
Proof. unfold check_claim. quiet. Qed.
#[export] Hint Resolve quiet_check_claim : quiet.
Lemma quiet_object_exists `{External} o : quiet (object_exists o).
Proof. unfold object_exists. quiet. Qed.
#[export] Hint Resolve quiet_object_exists : quiet.
Lemma quiet_check_artifact `{External} {cx : Ctx} c : quiet (check_artifact c).
Proof. unfold check_artifact. quiet. Qed.
#[export] Hint Resolve quiet_check_artifact : quiet.
Lemma quiet_verify_error `{External} r : quiet (verify_error r).
Proof. unfold verify_error. quiet. Qed.
#[export] Hint Resolve quiet_verify_error : quiet.
Lemma quiet_dependency_ready `{External} id d : quiet (dependency_ready id d).
Proof. unfold dependency_ready. quiet. Qed.
#[export] Hint Resolve quiet_dependency_ready : quiet.
Lemma quiet_open_set `{External} id f s : quiet (open_set id f s).
Proof. unfold open_set. quiet. Qed.
#[export] Hint Resolve quiet_open_set : quiet.
Lemma quiet_object_budget `{External} {cx : Ctx} : quiet object_budget.
Proof. unfold object_budget. quiet. Qed.
#[export] Hint Resolve quiet_object_budget : quiet.
Lemma quiet_admit_validation `{External} v : quiet (admit_validation v).
Proof. unfold admit_validation. quiet. Qed.
#[export] Hint Resolve quiet_admit_validation : quiet.
Lemma quiet_admit_claim `{External} n : quiet (admit_claim n).
Proof. unfold admit_claim. quiet. Qed.
#[export] Hint Resolve quiet_admit_claim : quiet.
Lemma quiet_admit_stored `{External} id : quiet (admit_stored id).
Proof. unfold admit_stored. quiet. Qed.
#[export] Hint Resolve quiet_admit_stored : quiet.
Lemma quiet_find_diagnostic `{External} {cx : Ctx} l f m : quiet (find_diagnostic l f m).
Proof. induction m; simpl; quiet. Qed.
#[export] Hint Resolve quiet_find_diagnostic : quiet.
Lemma quiet_validate_failure_report `{External} {cx : Ctx} c f s m : quiet (validate_failure_report c f s m).
Proof. unfold validate_failure_report. quiet. Qed.
#[export] Hint Resolve quiet_validate_failure_report : quiet.
Lemma quiet_validate_report `{External} {cx : Ctx} c : quiet (validate_report c).
Proof. unfold validate_report. quiet. Qed.
#[export] Hint Resolve quiet_validate_report : quiet.
Lemma quiet_has_diagnostic `{External} {cx : Ctx} l f m : quiet (has_diagnostic l f m).
Proof. induction m; simpl; quiet. Qed.
#[export] Hint Resolve quiet_has_diagnostic : quiet.
Lemma quiet_last_slot `{External} {cx : Ctx} l f s n : quiet (last_slot l f s n).
Proof. unfold last_slot. quiet. Qed.
#[export] Hint Resolve quiet_last_slot : quiet.
Lemma quiet_validate_last_attachment `{External} {cx : Ctx} c f s n : quiet (validate_last_attachment c f s n).
Proof. unfold validate_last_attachment. quiet. Qed.
#[export] Hint Resolve quiet_validate_last_attachment : quiet.
Lemma quiet_validate_diagnostic_headroom `{External} {cx : Ctx} c : quiet (validate_diagnostic_headroom c).
Proof. unfold validate_diagnostic_headroom. quiet. Qed.
#[export] Hint Resolve quiet_validate_diagnostic_headroom : quiet.
Lemma quiet_validate_admission `{External} {cx : Ctx} c : quiet (validate_admission c).
Proof. unfold validate_admission. quiet. Qed.
#[export] Hint Resolve quiet_validate_admission : quiet.
Lemma quiet_phase_complete `{External} c ph : quiet (phase_complete c ph).
Proof. apply quiet_phase_runs. Qed.
#[export] Hint Resolve quiet_phase_complete : quiet.
Lemma quiet_phase_passed `{External} c ph : quiet (phase_passed c ph).
Proof. apply quiet_phase_runs. Qed.
#[export] Hint Resolve quiet_phase_passed : quiet.
Lemma quiet_fix_seed `{External} acc row : quiet (fix_seed acc row).
Proof. unfold fix_seed. quiet. Qed.
#[export] Hint Resolve quiet_fix_seed : quiet.
Lemma quiet_fix_pass `{External} acc row : quiet (fix_pass acc row).
Proof. unfold fix_pass. quiet. Qed.
#[export] Hint Resolve quiet_fix_pass : quiet.
Lemma quiet_fix_body `{External} sat : quiet (fix_body sat).
Proof. unfold fix_body. quiet. Qed.
#[export] Hint Resolve quiet_fix_body : quiet.
Lemma quiet_tracked_fixpoint `{External} : quiet tracked_fixpoint.
Proof. unfold tracked_fixpoint. quiet. Qed.
#[export] Hint Resolve quiet_tracked_fixpoint : quiet.

(** ** Weakest preconditions over the rows *)
Definition wp `{External} {A} (m : SM A) (t : Rows) (Φ : A → Rows → Prop) : Prop :=
  ∀ q, rd_rec q = recorder_disabled → rd_rows q = t →
    match m q with
    | (Ok a, q') => rd_rec q' = recorder_disabled ∧ Φ a (rd_rows q')
    | (Err _, _) => True
    end.
(** A row written to a table. *)
Definition ins {K V} `{TableKey K} (s : Sel K V) (k : K) (v : V) (t : Rows) : Rows :=
  upd s (<[k:=v]> (sel s t)) t.

Section wp.
Context `{External}.
Implicit Types (t : Rows).

Lemma wp_ret {A} (a : A) t (Φ : A → Rows → Prop) : Φ a t → wp (mret a) t Φ.
Proof. by intros HΦ q Hq <-. Qed.
Lemma wp_stop {A} o t (Φ : A → Rows → Prop) : wp (stop o) t Φ.
Proof. by intros q Hq <-. Qed.
Lemma wp_bind {A B} (m : SM A) (f : A → SM B) t (Φ : B → Rows → Prop) :
  wp m t (λ a t', wp (f a) t' Φ) → wp (m ≫= f) t Φ.
Proof.
  intros Hm q Hq Ht. unfold mbind, M_bind. specialize (Hm q Hq Ht).
  destruct (m q) as [[a|e] q']; [|done]. destruct Hm as [? Hm]. by apply Hm.
Qed.
Lemma wp_mono {A} (m : SM A) t (Φ Ψ : A → Rows → Prop) :
  wp m t Φ → (∀ a t', Φ a t' → Ψ a t') → wp m t Ψ.
Proof.
  intros Hm HΨ q Hq Ht. specialize (Hm q Hq Ht). destruct (m q) as [[a|e] q']; naive_solver.
Qed.
Lemma wp_quiet {A} (m : SM A) t (Φ : A → Rows → Prop) : quiet m → (∀ a, Φ a t) → wp m t Φ.
Proof.
  intros Hm HΦ q Hq Ht. specialize (Hm q Hq). destruct (m q) as [[a|e] q']; [|done].
  specialize (Hm I). simpl in *. subst. done.
Qed.
Lemma wp_refuse_if b c d t (Φ : () → Rows → Prop) : (b = false → Φ tt t) → wp (refuse_if b c d) t Φ.
Proof. destruct b; intros HΦ q Hq <-; [done|]. simpl. auto. Qed.
Lemma wp_inform_if b c d t (Φ : () → Rows → Prop) : (b = false → Φ tt t) → wp (inform_if b c d) t Φ.
Proof. destruct b; intros HΦ q Hq <-; [done|]. simpl. auto. Qed.
Lemma wp_ok_or {A} (x : option A) c d t (Φ : A → Rows → Prop) :
  (∀ a, x = Some a → Φ a t) → wp (ok_or x c d) t Φ.
Proof. destruct x; intros HΦ q Hq <-; simpl; auto. Qed.
Lemma wp_lift_hash {A} (x : Result A CanonicalError) t (Φ : A → Rows → Prop) :
  (∀ a, x = Ok a → Φ a t) → wp (lift_hash x) t Φ.
Proof. destruct x; intros HΦ q Hq <-; simpl; auto. Qed.
Lemma wp_tget {K V} `{TableKey K} (s : Sel K V) k t (Φ : option V → Rows → Prop) :
  Φ (sel s t !! k) t → wp (tget s k) t Φ.
Proof. by intros HΦ q Hq <-. Qed.
Lemma wp_titer {K V} `{TableKey K} (s : Sel K V) t (Φ : list (K * V) → Rows → Prop) :
  Φ (entries (sel s t)) t → wp (titer s) t Φ.
Proof. by intros HΦ q Hq <-. Qed.
Lemma wp_tlen {K V} `{TableKey K} (s : Sel K V) t (Φ : N → Rows → Prop) :
  Φ (N.of_nat (size (sel s t))) t → wp (tlen s) t Φ.
Proof. by intros HΦ q Hq <-. Qed.
Lemma wp_contains_key {K V} `{TableKey K} (s : Sel K V) k t (Φ : bool → Rows → Prop) :
  Φ (bool_decide (is_Some (sel s t !! k))) t → wp (contains_key s k) t Φ.
Proof. by intros HΦ q Hq <-. Qed.
Lemma wp_get_owned {K V} `{TableKey K} (s : Sel K V) k t (Φ : option V → Rows → Prop) :
  Φ (sel s t !! k) t → wp (get_owned s k) t Φ.
Proof.
  intros HΦ. apply wp_bind, wp_tget. destruct (sel s t !! k) as [v|]; [|by apply wp_ret].
  apply wp_bind. intros q Hq <-. unfold with_rec, reserve_row. rewrite Hq. simpl.
  split; [done|]. by apply wp_ret.
Qed.
Lemma wp_tinsert {K V} `{TableKey K} (s : Sel K V) k v t (Φ : () → Rows → Prop) :
  Φ tt (ins s k v t) → wp (tinsert s k v) t Φ.
Proof. by intros HΦ q Hq <-. Qed.
Lemma wp_tget_mut {K V} `{TableKey K} (s : Sel K V) `{!SelOk s} k t (Φ : option V → Rows → Prop) :
  Φ (sel s t !! k) t → wp (tget_mut s k) t Φ.
Proof. intros HΦ q Hq <-. simpl. by rewrite upd_sel. Qed.
Lemma wp_tput {K V} `{TableKey K} (s : Sel K V) k v t (Φ : () → Rows → Prop) :
  is_Some (sel s t !! k) → Φ tt (ins s k v t) → wp (tput s k v) t Φ.
Proof. intros [x Hx] HΦ q Hq <-. simpl. by rewrite Hx. Qed.
Lemma wp_effect e t (Φ : () → Rows → Prop) : Φ tt t → wp (effect e) t Φ.
Proof.
  intros HΦ. apply wp_bind, wp_quiet; [auto with quiet|]. intros []. by intros q Hq <-.
Qed.
Lemma wp_emit {cx : Ctx} c a f t (Φ : () → Rows → Prop) : Φ tt t → wp (emit c a f) t Φ.
Proof.
  intros HΦ. apply wp_bind, wp_quiet; [auto with quiet|]. intros n.
  apply wp_bind, wp_ok_or. intros o _. apply wp_bind, wp_quiet; [auto with quiet|]. intros [].
  by intros q Hq <-.
Qed.
Lemma wp_get_claim id t (Φ : Claim → Rows → Prop) :
  (∀ c, claims t !! id = Some c → Φ c t) → wp (get_claim id) t Φ.
Proof.
  intros HΦ. apply wp_bind, wp_tget, wp_bind, wp_ok_or. intros c Hc.
  apply wp_bind, wp_quiet; [auto with quiet|]. intros []. apply wp_ret. by apply HΦ.
Qed.
Lemma wp_allowed id ss t (Φ : Claim → Rows → Prop) :
  (∀ c, claims t !! id = Some c → cl_status (lifecycle c) ∈ ss →
        is_terminal (cl_status (lifecycle c)) = false → Φ c t) → wp (allowed id ss) t Φ.
Proof.
  intros HΦ. apply wp_bind, wp_get_claim. intros c Hc. apply wp_bind, wp_inform_if. intros Ht.
  apply wp_bind, wp_inform_if. intros Hs%bool_decide_eq_false. apply wp_ret, HΦ; [done| |done].
  by apply dec_stable.
Qed.
Lemma wp_set_status {cx : Ctx} id st w t (Φ : () → Rows → Prop) :
  (∀ c revision, claims t !! id = Some c → is_terminal (cl_status (lifecycle c)) = false →
    checked_add (cl_revision (lifecycle c)) 1 = Some revision →
    Φ tt (ins Claims id (with_lifecycle c (lc_status st revision
            {| sf_status := st; sf_sequence := cx_sequence |} w (lifecycle c))) t)) →
  wp (set_status id st w) t Φ.
Proof.
  intros HΦ. apply wp_bind, wp_get_claim. intros c Hc. apply wp_bind, wp_inform_if. intros Ht.
  apply wp_bind, wp_ok_or. intros rev Hrev. apply wp_bind, wp_tinsert.
  apply wp_bind, wp_emit. destruct (_ && _); [apply wp_effect|apply wp_ret]; by apply HΦ.
Qed.
(** Loops, by an invariant. *)
Lemma wp_mfor {A} (l : list A) f t (I : list A → Rows → Prop) (Φ : () → Rows → Prop) :
  I l t → (∀ x l t, I (x :: l) t → wp (f x) t (λ _, I l)) → (∀ t, I [] t → Φ tt t) →
  wp (mfor l f) t Φ.
Proof.
  intros HI Hf HΦ. revert t HI. induction l as [|x l IH]; simpl; intros t HI; [by apply wp_ret, HΦ|].
  apply wp_bind. eapply wp_mono; [by apply Hf|]. auto.
Qed.
Lemma wp_mfold {A S} f (l : list A) (s : S) t (I : list A → S → Rows → Prop) (Φ : S → Rows → Prop) :
  I l s t → (∀ x l s t, I (x :: l) s t → wp (f s x) t (I l)) → (∀ s t, I [] s t → Φ s t) →
  wp (mfold f l s) t Φ.
Proof.
  intros HI Hf HΦ. revert s t HI. induction l as [|x l IH]; simpl; intros s t HI; [by apply wp_ret, HΦ|].
  apply wp_bind. eapply wp_mono; [by apply Hf|]. auto.
Qed.
Lemma wp_loop_pow {S A} n body (s : S) t (I : S → Rows → Prop) (Φ : A → Rows → Prop) :
  I s t →
  (∀ s t, I s t → wp (body s) t (λ x t', match x with inl s => I s t' | inr a => Φ a t' end)) →
  wp (loop_pow n body s) t (λ x t', match x with inl s => I s t' | inr a => Φ a t' end).
Proof.
  intros HI Hb. revert s t HI. induction n as [|n IH]; simpl; intros s t HI; [by apply Hb|].
  apply wp_bind. eapply wp_mono; [by apply IH|]. intros [s'|a] t' Hx; [by apply IH|by apply wp_ret].
Qed.
Lemma wp_mloop {S A} fuel body (s : S) t (I : S → Rows → Prop) (Φ : A → Rows → Prop) :
  I s t →
  (∀ s t, I s t → wp (body s) t (λ x t', match x with inl s => I s t' | inr a => Φ a t' end)) →
  wp (mloop fuel body s) t Φ.
Proof.
  intros HI Hb. apply wp_bind. eapply wp_mono; [by apply (wp_loop_pow _ _ _ _ I Φ)|].
  intros [s'|a] t' Hx; [by intros q Hq <-|by apply wp_ret].
Qed.
End wp.
