(* ===== verification/Refinement.v ===== *)
(** * The core refines its serial oracle

    [Core::apply] runs on a row overlay and publishes the written rows; the
    serial oracle clones the state and writes the clone. Staging runs on the
    overlay over the committed state and the pending versions. Both agree with
    the serial run on the rows those layers denote. *)
From stdpp Require Import prelude gmap strings list.
From Stdlib Require Import NArith.
From S2P Require Import Prelude Vocabulary Objects Canonical Store StoreLaws Reducer.
From S2P Require Import Commands Admission Core Simulation Hoare.

Lemma apply_body_sim `{External} {T : TableImpl} `{BackendLaws T} ledger limits seq p :
  msim (T:=T) (apply_body ledger limits seq p) (apply_body ledger limits seq p).
Proof. unfold apply_body. msim. Qed.
Lemma admit_request_sim `{External} {T : TableImpl} `{BackendLaws T} ledger limits seq p :
  msim (T:=T) (admit_request ledger limits seq p) (admit_request ledger limits seq p).
Proof. unfold admit_request. msim. Qed.
#[export] Hint Resolve apply_body_sim admit_request_sim : msim.
Lemma stage_body_sim `{External} {T : TableImpl} `{BackendLaws T} ledger limits seq p :
  msim (T:=T) (stage_body ledger limits seq p) (stage_body ledger limits seq p).
Proof. unfold stage_body. msim. Qed.

(** ** The rows that layers denote *)
Definition eff_rows (base : Tables (@gmap)) (prior : list (option RowVersion)) : Tables (@gmap) :=
  foldl (λ t version, publish_tables (rw_rows (rv_rows version)) t) base (omap id prior).
(** The added counts of the pending versions account for their rows. *)
Definition counts_rel : TableRel (@OverlayTable) (@OverlayTable) := λ K _ _ _ V t _, ov_ok t.
Definition counts_ok (base : Tables (@gmap)) (prior : list (option RowVersion)) : Prop :=
  tall2 counts_rel (overlay_tables base prior) (overlay_tables base prior).

Section layers.
Context {K V} `{TableKey K} (s : Sel K V).
Hypothesis Hpub : ∀ a b, sel s (publish_tables a b) = sel s a ∪ sel s b.

Lemma sel_eff_rows base prior :
  sel s (eff_rows base prior) = ov_lower (overlay_table s base prior).
Proof using Hpub.
  unfold eff_rows, ov_lower, overlay_table. simpl. generalize (omap id prior) as l. clear prior.
  intros l. induction l as [|v l IH] using rev_ind; [done|].
  rewrite foldl_app, !fmap_app, reverse_app. simpl. by rewrite Hpub, IH.
Qed.
Lemma overlay_view base prior : ov_view (overlay_table s base prior) = sel s (eff_rows base prior).
Proof using Hpub. rewrite sel_eff_rows. unfold ov_view. simpl. by rewrite (left_id_L ∅ (∪)). Qed.

(** A table written over the layers, and the layers with its writes on top. *)
Lemma overlay_extend base prior (t : OverlayTable K V) version :
  ov_frame (overlay_table s base prior) t → ov_ok t →
  sel s (rw_rows (rv_rows version)) = ov_own t →
  default 0%N (rw_added (rv_rows version) !! sel_table s) = ov_added t →
  ov_ok (overlay_table s base (prior ++ [Some version]))
  ∧ sel s (eff_rows base (prior ++ [Some version])) = ov_view t.
Proof using Hpub.
  intros [Hbase Hprior] Hok Hrows Hadded.
  assert (Heff : sel s (eff_rows base (prior ++ [Some version])) = ov_view t).
  { unfold eff_rows. rewrite omap_app, foldl_app. simpl. fold (eff_rows base prior).
    rewrite Hpub, sel_eff_rows, Hrows. unfold ov_view, ov_lower. by rewrite Hbase, Hprior. }
  split; [|done]. unfold ov_ok. rewrite overlay_view, Heff, Hok, Hbase, Hprior. simpl.
  rewrite omap_app, !fmap_app, foldr_app. simpl. rewrite Hadded.
  generalize (ov_added t) as n. intros n.
  induction ((λ v, (_, _)) <$> omap id prior).*2 as [|x l IH]; simpl; lia.
Qed.
End layers.

(** Counts compose along the layers. *)
Section count_layers.
Context {K V} `{TableKey K} (s : Sel K V).
Hypothesis Hpub : ∀ a b, sel s (publish_tables a b) = sel s a ∪ sel s b.
Definition added_sum (prior : list (option RowVersion)) : N :=
  foldr N.add 0%N ((λ v, default 0%N (rw_added (rv_rows v) !! sel_table s)) <$> omap id prior).

Lemma counts_sum base prior :
  ov_ok (overlay_table s base prior)
  ↔ N.of_nat (size (sel s (eff_rows base prior))) = (N.of_nat (size (sel s base)) + added_sum prior)%N.
Proof using Hpub.
  unfold ov_ok, added_sum. rewrite overlay_view by done. simpl. rewrite <-list_fmap_compose.
  unfold compose. simpl. rewrite N.add_0_r. done.
Qed.
Lemma added_sum_app a b : added_sum (a ++ b) = (added_sum a + added_sum b)%N.
Proof using.
  unfold added_sum. rewrite omap_app, fmap_app, foldr_app.
  induction (_ <$> omap id a) as [|x l IH]; simpl; [done|]. rewrite IH. lia.
Qed.
Lemma eff_rows_app base a b : eff_rows base (a ++ b) = eff_rows (eff_rows base a) b.
Proof using. unfold eff_rows. by rewrite omap_app, foldl_app. Qed.
Lemma counts_split base a b :
  ov_ok (overlay_table s base a) →
  ov_ok (overlay_table s base (a ++ b)) ↔ ov_ok (overlay_table s (eff_rows base a) b).
Proof using Hpub. rewrite !counts_sum, added_sum_app, eff_rows_app. lia. Qed.
End count_layers.

Lemma added_lookup (l : list (StateTable * N)) k n :
  NoDup l.*1 → (k, n) ∈ l →
  default 0%N (list_to_map (M:=gmap StateTable N) (filter (λ e, e.2 ≠ 0%N) l) !! k) = n.
Proof.
  intros Hnd Hin. destruct (decide (n = 0%N)) as [->|Hn].
  - rewrite not_elem_of_list_to_map_1; [done|].
    intros [[k' n'] [-> [Hn' Hin']%list_elem_of_filter]]%list_elem_of_fmap. simpl in *.
    apply (elem_of_list_to_map_1 (M:=gmap StateTable)) in Hin, Hin'; [congruence|done..].
  - rewrite (elem_of_list_to_map_1 _ k n); [done| |by apply list_elem_of_filter].
    eapply sublist_NoDup; [done|]. apply fmap_sublist, sublist_filter.
Qed.

Lemma writes_added (t : Tables (@OverlayTable)) k n :
  (k, n) ∈ added_counts t → default 0%N (rw_added (into_writes t) !! k) = n.
Proof. intros Hin. apply added_lookup; [|done]. by apply (bool_decide_unpack _). Qed.

Lemma views_start base prior : counts_ok base prior → views (overlay_tables base prior) (eff_rows base prior).
Proof.
  intros (?&?&?&?&?&?&?&?&?&?). split_and!; (split; [done|]); by apply overlay_view.
Qed.
Ltac in_list := solve [simpl; repeat first [apply list_elem_of_here | apply list_elem_of_further]].
(** The written rows on top of the layers denote what the run left. *)
Lemma views_extend base prior t rows seq :
  frame (overlay_tables base prior) t → views t rows →
  let version := {| rv_sequence := seq; rv_rows := into_writes t |} in
  counts_ok base (prior ++ [Some version]) ∧ eff_rows base (prior ++ [Some version]) = rows.
Proof.
  intros (?&?&?&?&?&?&?&?&?&?) (Hv1&Hv2&Hv3&Hv4&Hv5&Hv6&Hv7&Hv8&Hv9&Hv10) version.
  assert (Hone : ∀ K E C (k : TableKey K) V (s : Sel K V),
    (∀ a b, sel s (publish_tables a b) = sel s a ∪ sel s b) →
    ov_frame (overlay_table s base prior) (sel s t) → views_rel K E C k V (sel s t) (sel s rows) →
    sel s (own_tables t) = ov_own (sel s t) → (sel_table s, ov_added (sel s t)) ∈ added_counts t →
    ov_ok (overlay_table s base (prior ++ [Some version]))
    ∧ sel s (eff_rows base (prior ++ [Some version])) = sel s rows).
  { intros K E C k V s Hpub Hf [Hok Hv] Hown Hadd. rewrite <-Hv.
    apply overlay_extend; [done..|]. by apply writes_added. }
  destruct (Hone _ _ _ _ _ Claims) as [? Hr1]; [done..|in_list|].
  destruct (Hone _ _ _ _ _ Validations) as [? Hr2]; [done..|in_list|].
  destruct (Hone _ _ _ _ _ Artifacts) as [? Hr3]; [done..|in_list|].
  destruct (Hone _ _ _ _ _ Testaments) as [? Hr4]; [done..|in_list|].
  destruct (Hone _ _ _ _ _ EvidenceSets) as [? Hr5]; [done..|in_list|].
  destruct (Hone _ _ _ _ _ Runs) as [? Hr6]; [done..|in_list|].
  destruct (Hone _ _ _ _ _ Monitors) as [? Hr7]; [done..|in_list|].
  destruct (Hone _ _ _ _ _ Identities) as [? Hr8]; [done..|in_list|].
  destruct (Hone _ _ _ _ _ Epochs) as [? Hr9]; [done..|in_list|].
  destruct (Hone _ _ _ _ _ Receipts) as [? Hr10]; [done..|in_list|].
  split; [done|]. destruct (eff_rows _ _), rows. simpl in *. congruence.
Qed.

Lemma counts_split_all base a b :
  counts_ok base a → counts_ok base (a ++ b) ↔ counts_ok (eff_rows base a) b.
Proof.
  intros (H1&H2&H3&H4&H5&H6&H7&H8&H9&H10).
  apply (counts_split Claims ltac:(done) base a b) in H1.
  apply (counts_split Validations ltac:(done) base a b) in H2.
  apply (counts_split Artifacts ltac:(done) base a b) in H3.
  apply (counts_split Testaments ltac:(done) base a b) in H4.
  apply (counts_split EvidenceSets ltac:(done) base a b) in H5.
  apply (counts_split Runs ltac:(done) base a b) in H6.
  apply (counts_split Monitors ltac:(done) base a b) in H7.
  apply (counts_split Identities ltac:(done) base a b) in H8.
  apply (counts_split Epochs ltac:(done) base a b) in H9.
  apply (counts_split Receipts ltac:(done) base a b) in H10.
  unfold counts_ok, counts_rel, tall2. cbn [claims validations artifacts testaments evidence_sets runs
    monitors identities epochs receipts overlay_tables].
  by rewrite H1, H2, H3, H4, H5, H6, H7, H8, H9, H10.
Qed.

(** ** Apply *)
Section apply.
Context `{External}.

Lemma counts_nil base : counts_ok base [].
Proof.
  unfold counts_ok, counts_rel, overlay_tables, tall2, ov_ok, ov_view, ov_lower. simpl.
  rewrite !(left_id_L ∅ (∪)). split_and!; lia.
Qed.
Lemma rsim_start base prior rec :
  counts_ok base prior → failed rec = false →
  rsim (start (overlay_tables base prior) rec) (start (eff_rows base prior) recorder_disabled).
Proof. intros ? ?. split; simpl; auto using views_start. Qed.

(** The serial run of an entry. *)
Definition serial_run (c : Core) (sequence : SessionSeq) (prepared : PreparedMutation) :=
  apply_body (T:=@gmap) (st_ledger (co_state c)) (co_limits c) sequence prepared
    (start (st_rows (co_state c)) recorder_disabled).

(** A run over layers, without an allowance, against the serial run on the
    rows the layers denote. *)
Lemma run_over_layers {A} (m : M (@OverlayTable) A) (m' : SM A) base prior seq rec :
  msim m m' → counts_ok base prior → failed rec = false →
  let x := m (start (overlay_tables base prior) rec) in
  let y := m' (start (eff_rows base prior) recorder_disabled) in
  let version := {| rv_sequence := seq; rv_rows := into_writes (rd_rows x.2) |} in
  (x.1 = y.1
   ∧ (is_ok x.1 → failed (rd_rec x.2) = false ∧ rd_deltas x.2 = rd_deltas y.2
        ∧ rd_effects x.2 = rd_effects y.2
        ∧ counts_ok base (prior ++ [Some version])
        ∧ eff_rows base (prior ++ [Some version]) = rd_rows y.2))
  ∨ failed (rd_rec x.2) = true ∧ (byte_limit rec ≠ None ∨ ¬ fits (rd_rows y.2)).
Proof.
  intros Hm Hc Hrec x y version.
  destruct (msim_run _ _ Hm _ _ (rsim_start base prior rec Hc Hrec)) as [[Hx Hsim]|?]; [left|by right].
  split; [done|]. intros [Hv Hok _ Hd He]%Hsim. split_and!; [done..| |];
    eapply views_extend; [apply Hm|done|apply Hm|done].
Qed.
Lemma apply_serial_run c seq p :
  apply_serial c seq p =
    match apply_guard c seq p with
    | Err e => (Err e, c)
    | Ok _ =>
        match serial_run c seq p with
        | (Err e, _) => (Err (determinism e), c)
        | (Ok receipt, r) => (Ok (apply_result receipt r), with_rows c seq (rd_rows r))
        end
    end.
Proof. done. Qed.
Lemma apply_eq_serial c seq p : fits (rd_rows (serial_run c seq p).2) → apply c seq p = apply_serial c seq p.
Proof.
  intros Hfit. unfold apply, apply_serial, apply_recorded. destruct (apply_guard c seq p); [|done].
  pose proof (run_over_layers _ _ (st_rows (co_state c)) [] seq recorder_disabled
    (apply_body_sim (st_ledger (co_state c)) (co_limits c) seq p) (counts_nil _) eq_refl) as Hrun.
  unfold serial_run in Hfit. simpl in Hrun. unfold eff_rows at 1 2 3 5 6 in Hrun. simpl in Hrun.
  destruct (apply_body _ _ _ _ (start (overlay_tables _ _) _)) as [x r],
    (apply_body _ _ _ _ (start (st_rows _) _)) as [y q]; simpl in *.
  destruct Hrun as [[-> Hok]|[_ [?|?]]]; [|done..]. destruct y as [receipt|e]; [|done].
  destruct (Hok I) as (_ & Hd & He & _ & Heff). unfold apply_result. rewrite Hd, He, <-Heff. done.
Qed.
End apply.
