(* ===== verification/Pending.v ===== *)
(** * Pending rows commit as they were staged

    The committed core with its pending row versions denotes an effective
    core. Staging a request over the pending rows yields the entry and the
    result the serial oracle gives on the effective core, and committing the
    oldest entry moves its rows to the core without changing the effective
    core. *)
From stdpp Require Import prelude gmap strings list.
From Stdlib Require Import NArith.
From S2P Require Import Prelude Vocabulary Objects Canonical Store StoreLaws Reducer.
From S2P Require Import Commands Admission Core Simulation Hoare Refinement.

(** The core a reader of the layers sees. *)
Definition eff_core (c : Core) (prior : list (option RowVersion)) (sequence : SessionSeq) : Core :=
  {| co_state := {| st_ledger := st_ledger (co_state c); st_sequence := sequence;
                    st_rows := eff_rows (st_rows (co_state c)) prior |};
     co_limits := co_limits c |}.

Lemma bool_decide_neq_refl {A} `{EqDecision A} (x : A) : bool_decide (x ≠ x) = false.
Proof. apply bool_decide_eq_false_2. auto. Qed.

Section stage.
Context `{External}.

Lemma wp_run {A} (m : SM A) q a q' (Φ : A → Rows → Prop) :
  wp m (rd_rows q) Φ → rd_rec q = recorder_disabled → m q = (Ok a, q') →
  rd_rec q' = recorder_disabled ∧ Φ a (rd_rows q').
Proof. intros Hm Hq Hrun. specialize (Hm q Hq eq_refl). by rewrite Hrun in Hm. Qed.
Lemma quiet_run {A} (m : SM A) q a q' :
  quiet m → rd_rec q = recorder_disabled → m q = (Ok a, q') → q' = q.
Proof. intros Hm Hq Hrun. specialize (Hm q Hq). rewrite Hrun in Hm. by apply Hm. Qed.
Lemma bind_ok {A B} (m : SM A) (f : A → SM B) q b q' :
  (m ≫= f) q = (Ok b, q') → ∃ a q1, m q = (Ok a, q1) ∧ f a q1 = (Ok b, q').
Proof. unfold mbind, M_bind. destruct (m q) as [[a|e] q1]; [eauto|done]. Qed.

(** What admission has established of an admitted request. *)
Definition admitted_facts (ledger : LedgerId) (limits : Limits) (prefix : SessionSeq)
    (input : AuthenticatedInput) (t : Rows) (hash : ContentHash) (sequence : SessionSeq) : Prop :=
  in_ledger input = ledger ∧ in_principal input ≠ 0%N ∧ in_request_id input ≠ 0%N
  ∧ command_hash input = Ok hash ∧ receipts t !! request_key input = None
  ∧ (N.of_nat (size (receipts t)) < max_requests limits)%N
  ∧ (∃ bytes, serialized_size (SerDurableInput input) = Some bytes ∧ (bytes <= max_command_bytes limits)%N)
  ∧ checked_add prefix 1 = Some sequence
  ∧ ((∃ e, in_command input = Command.NegotiateEpoch e)
     ∨ ∃ w, epochs t !! in_principal input = Some w ∧ (ew_minimum w <= in_request_epoch input)%N
            ∧ in_request_epoch input ∈ ew_admitted w).
Lemma quiet_admit_request ledger limits prefix input : quiet (admit_request ledger limits prefix input).
Proof. unfold admit_request. quiet. Qed.
Lemma wp_admit_epoch input t (Φ : () → Rows → Prop) :
  (((∃ e, in_command input = Command.NegotiateEpoch e)
     ∨ ∃ w, epochs t !! in_principal input = Some w ∧ (ew_minimum w <= in_request_epoch input)%N
            ∧ in_request_epoch input ∈ ew_admitted w) → Φ tt t) →
  wp (match in_command input with
      | Command.NegotiateEpoch _ => mret tt
      | _ =>
          x ← tget Epochs (in_principal input);
          window ← ok_or x ErrorCode.RequestEpochNotAdmitted "negotiate request generation";
          refuse_if (in_request_epoch input <? ew_minimum window)%N ErrorCode.RequestHistoryExpired
            "request generation expired";;
          refuse_if (negb (bool_decide (in_request_epoch input ∈ ew_admitted window)))
            ErrorCode.RequestEpochNotAdmitted "unallocated request generation"
      end) t Φ.
Proof.
  intros HΦ. assert (wp (x ← tget Epochs (in_principal input);
          window ← ok_or x ErrorCode.RequestEpochNotAdmitted "negotiate request generation";
          refuse_if (in_request_epoch input <? ew_minimum window)%N ErrorCode.RequestHistoryExpired
            "request generation expired";;
          refuse_if (negb (bool_decide (in_request_epoch input ∈ ew_admitted window)))
            ErrorCode.RequestEpochNotAdmitted "unallocated request generation") t Φ) as Hw.
  { apply wp_bind, wp_tget, wp_bind, wp_ok_or. intros w Hw. apply wp_bind, wp_refuse_if.
    intros Hmin%N.ltb_ge. apply wp_refuse_if. intros Hin%negb_false_iff%bool_decide_eq_true.
    apply HΦ. right. by exists w. }
  destruct (in_command input) eqn:Hc; try exact Hw. apply wp_ret, HΦ. left. by eexists.
Qed.
Lemma wp_admit_request ledger limits prefix input t :
  wp (admit_request ledger limits prefix input) t
    (λ x t', t' = t ∧ admitted_facts ledger limits prefix input t x.1 x.2).
Proof.
  apply wp_bind, wp_refuse_if. intros Hl%bool_decide_eq_false%dec_stable.
  apply wp_bind, wp_refuse_if. intros [Hp%N.eqb_neq Hr%N.eqb_neq]%orb_false_iff.
  apply wp_bind, wp_ok_or. intros bytes Hbytes. apply wp_bind, wp_refuse_if. intros Hmax%N.ltb_ge.
  apply wp_bind, wp_quiet; [auto with quiet|]. intros b1. apply wp_bind, wp_refuse_if. intros _.
  apply wp_bind, wp_quiet; [auto with quiet|]. intros b2. apply wp_bind, wp_refuse_if. intros _.
  apply wp_bind. destruct (command_hash input) as [hash|] eqn:Hh; [|apply wp_stop]. apply wp_ret.
  apply wp_bind, wp_tget, wp_bind. simpl. destruct (receipts t !! _) as [receipt|] eqn:Hk.
  { case_bool_decide; apply wp_stop. }
  apply wp_ret, wp_bind, wp_admit_epoch. intros Hepoch.
  apply wp_bind, wp_tlen, wp_bind, wp_refuse_if. intros Hn%N.leb_gt.
  apply wp_bind, wp_quiet; [quiet|]. intros [].
  apply wp_bind, wp_ok_or. intros sequence Hs. apply wp_ret. split; [done|]. split_and!; eauto.
Qed.

(** A staged request and the entry it prepares run alike. *)
Lemma stage_then_apply ledger limits prefix input q receipt q' p :
  rd_rec q = recorder_disabled → stage_body ledger limits prefix input q = (Ok receipt, q') →
  p_input p = input → p_command_hash p = mr_command_hash receipt →
  admitted_facts ledger limits prefix input (rd_rows q) (mr_command_hash receipt) (mr_sequence receipt)
  ∧ apply_body ledger limits (mr_sequence receipt) p q = (Ok receipt, q').
Proof.
  intros Hq Hrun Hi Hh. unfold stage_body in Hrun.
  apply bind_ok in Hrun as ([hash sequence] & q1 & Hadmit & Hrun).
  pose proof (quiet_run _ _ _ _ (quiet_admit_request _ _ _ _) Hq Hadmit) as ->.
  destruct (wp_run _ _ _ _ _ (wp_admit_request _ _ _ _ _) Hq Hadmit) as (_ & _ & Hfacts).
  apply bind_ok in Hrun as ([] & q1 & Hval & Hrun).
  eapply quiet_run in Hval as ->; [|auto with quiet|done].
  apply bind_ok in Hrun as (outcome & q1 & Hexec & Hrun).
  assert (rd_rec q1 = recorder_disabled) as Hq1.
  { pose proof (msim_disabled _ _ (execute_domain_sim (T:=@gmap)
      (cx:=input_ctx ledger limits input sequence) (in_command input)) q Hq) as Hd.
    rewrite Hexec in Hd. by apply Hd. }
  apply bind_ok in Hrun as (ok & q2 & Hok & Hrun). eapply quiet_run in Hok as ->; [|auto with quiet|done].
  apply bind_ok in Hrun as ([] & q2 & Hok & Hrun). eapply quiet_run in Hok as ->; [|auto with quiet|done].
  apply bind_ok in Hrun as ([] & q2 & Hins & [= <- <-]). simpl in *. split; [done|].
  unfold apply_body. rewrite Hi, Hh. unfold mbind, M_bind. rewrite Hexec, Hins. done.
Qed.
End stage.

(** Later layers only add rows. *)
Lemma publish_grows rows base : grows base (publish_tables rows base).
Proof.
  unfold grows, tall2, grows_rel. simpl. split_and!; rewrite dom_union_L; set_solver.
Qed.
Lemma eff_rows_grows base prior : grows base (eff_rows base prior).
Proof.
  unfold eff_rows. generalize (omap id prior). intros l. revert base.
  induction l as [|v l IH]; simpl; intros base; [reflexivity|].
  etrans; [apply publish_grows|]. apply IH.
Qed.

(** ** Staging *)
Section pending_laws.
Context `{External} {codec : ViewCodec}.

Lemma apply_guard_staged c input hash seq prior :
  in_ledger input = st_ledger (co_state c) → command_hash input = Ok hash →
  checked_add (sequence_of c) 1 = Some seq →
  apply_guard c seq {| p_schema := SCHEMA; p_base := sequence_of c; p_input := input;
    p_command_hash := hash; p_footprint := prior |} = Ok tt.
Proof.
  intros Hl Hh Hs. unfold apply_guard. simpl. rewrite Hs, Hh, Hl.
  by rewrite !bool_decide_neq_refl.
Qed.

(** A staged result is the serial result on the effective core. *)
Lemma stage_recorded_spec c input prior prefix rec stamp staged rec' :
  counts_ok (st_rows (co_state c)) prior → failed rec = false →
  stage_recorded c input prior prefix rec stamp = (Ok staged, rec') → failed rec' = false →
  let version := sm_version staged in
  p_base (sm_prepared staged) = prefix
  ∧ checked_add prefix 1 = Some (rv_sequence version)
  ∧ in_ledger (p_input (sm_prepared staged)) = st_ledger (co_state c)
  ∧ p_schema (sm_prepared staged) = SCHEMA
  ∧ counts_ok (st_rows (co_state c)) (prior ++ [Some version])
  ∧ apply_serial (eff_core c prior prefix) (rv_sequence version) (sm_prepared staged)
    = (Ok (sm_result staged), eff_core c (prior ++ [Some version]) (rv_sequence version))
  ∧ p_input (sm_prepared staged) = input
  ∧ admitted_facts (st_ledger (co_state c)) (co_limits c) prefix input (eff_rows (st_rows (co_state c)) prior)
      (p_command_hash (sm_prepared staged)) (rv_sequence version)
  ∧ ∃ receipt q, stage_body (T:=@gmap) (st_ledger (co_state c)) (co_limits c) prefix input
        (start (eff_rows (st_rows (co_state c)) prior) recorder_disabled) = (Ok receipt, q)
      ∧ rd_rows q = eff_rows (st_rows (co_state c)) (prior ++ [Some version]).
Proof.
  intros Hc Hrec Hrun Hok. unfold stage_recorded in Hrun.
  pose proof (λ seq, run_over_layers _ _ (st_rows (co_state c)) prior seq rec
    (stage_body_sim (st_ledger (co_state c)) (co_limits c) prefix input) Hc Hrec) as Hsim.
  simpl in Hsim. destruct (stage_body _ _ _ _ (start (overlay_tables _ _) _)) as [x r]. simpl in Hsim.
  assert (∃ receipt b, x = Ok receipt ∧ rec' = rd_rec r ∧ staged = {|
        sm_prepared := {| p_schema := schema_of V1; p_base := prefix; p_input := input;
          p_command_hash := mr_command_hash receipt;
          p_footprint := {| fp_ledger := st_ledger (co_state c); fp_session_exclusive := true |} |};
        sm_result := apply_result receipt r;
        sm_version := {| rv_sequence := mr_sequence receipt; rv_rows := into_writes (rd_rows r) |};
        sm_basis := b |}) as (receipt & b & -> & -> & ->).
  { destruct x as [receipt|e]; [|done]. destruct stamp; [|naive_solver].
    destruct (basis _ _); naive_solver. }
  destruct (Hsim (mr_sequence receipt)) as [[Hy Hsim']|[? _]]; [clear Hsim|congruence].
  destruct (Hsim' I) as (_ & Hd & He & Hcounts & Heff).
  destruct (stage_body _ _ _ _ (start (eff_rows _ _) _)) as [y q] eqn:Hserial. simpl in *. subst y.
  destruct (stage_then_apply (st_ledger (co_state c)) (co_limits c) prefix input
    (start (eff_rows (st_rows (co_state c)) prior) recorder_disabled) receipt q
    {| p_schema := schema_of V1; p_base := prefix; p_input := input;
       p_command_hash := mr_command_hash receipt;
       p_footprint := {| fp_ledger := st_ledger (co_state c); fp_session_exclusive := true |} |}
    eq_refl Hserial eq_refl eq_refl) as [Hfacts Happly].
  pose proof Hfacts as (Hl & _ & _ & Hh & _ & _ & _ & Hs & _).
  split_and!; [done..| |done|done|by exists receipt, q]. rewrite apply_serial_run, apply_guard_staged by done.
  unfold serial_run. simpl in Happly |- *. rewrite Happly. unfold with_rows, eff_core, apply_result. simpl.
  by rewrite Hd, He, Heff.
Qed.

(** ** The pending prefix *)
(** Entries staged one after another over [c], with their results and the
    rows each will add. *)
Inductive staged_chain : Core → list (PreparedMutation * ApplyResult) → list (option RowVersion) → Prop :=
  | chain_nil c : staged_chain c [] []
  | chain_cons c prepared version result entries rows :
      let c' := eff_core c [Some version] (rv_sequence version) in
      checked_add (sequence_of c) 1 = Some (rv_sequence version) →
      counts_ok (st_rows (co_state c)) [Some version] →
      apply_serial c (rv_sequence version) prepared = (Ok result, c') →
      staged_chain c' entries rows →
      staged_chain c ((prepared, result) :: entries) (Some version :: rows).
Definition chain_end (c : Core) (rows : list (option RowVersion)) : SessionSeq :=
  foldl (λ _ version, rv_sequence version) (sequence_of c) (omap id rows).

Lemma eff_core_app c a b m n : eff_core (eff_core c a m) b n = eff_core c (a ++ b) n.
Proof. unfold eff_core. simpl. by rewrite eff_rows_app. Qed.
Lemma eff_core_nil c : eff_core c [] (sequence_of c) = c.
Proof. by destruct c as [[]]. Qed.
Lemma chain_view c preps rows :
  staged_chain c preps rows → view_sequence (sequence_of c) rows = Ok (chain_end c rows).
Proof.
  induction 1 as [|c prepared version result preps rows c' Hs Hc Ha Hch IH]; [done|].
  simpl. rewrite Hs, bool_decide_neq_refl. exact IH.
Qed.
Lemma chain_counts c preps rows : staged_chain c preps rows → counts_ok (st_rows (co_state c)) rows.
Proof.
  induction 1 as [|c prepared version result preps rows c' Hs Hc Ha Hch IH]; [apply counts_nil|].
  exact (proj2 (counts_split_all (st_rows (co_state c)) [Some version] rows Hc) IH).
Qed.
Lemma chain_snoc c preps rows prepared version result :
  staged_chain c preps rows →
  checked_add (chain_end c rows) 1 = Some (rv_sequence version) →
  counts_ok (st_rows (co_state c)) (rows ++ [Some version]) →
  apply_serial (eff_core c rows (chain_end c rows)) (rv_sequence version) prepared
    = (Ok result, eff_core c (rows ++ [Some version]) (rv_sequence version)) →
  staged_chain c (preps ++ [(prepared, result)]) (rows ++ [Some version]).
Proof.
  intros Hch. revert prepared version result.
  induction Hch as [c|c prepared version result preps rows c' Hs Hc Ha Hch IH]; intros p v res Hn Hco Hap; simpl.
  - rewrite eff_core_nil in Hap. eapply chain_cons; eauto. constructor.
  - eapply chain_cons; eauto. eapply IH; [done| |].
    + exact (proj1 (counts_split_all (st_rows (co_state c)) [Some version] (rows ++ [Some v]) Hc) Hco).
    + unfold c'. rewrite !eff_core_app. exact Hap.
Qed.

(** The pending state of a core: its rows were staged over the core. *)
Record pending_inv (c : Core) (p : PendingState) (entries : list (PreparedMutation * ApplyResult)) : Prop := {
  inv_chain : staged_chain c entries (pe_rows p);
  inv_ledger : pe_ledger p = None ∨ pe_rows p ≠ [] ∧ pe_ledger p = Some (st_ledger (co_state c));
}.
Lemma pending_view_inv c p preps :
  pending_inv c p preps →
  pending_view p c = Ok {| vw_state := co_state c; vw_prior := pe_rows p; vw_tail := None;
                           vw_sequence := chain_end c (pe_rows p) |}.
Proof.
  intros [Hch Hl]. unfold pending_view. rewrite (chain_view _ _ _ Hch).
  destruct Hl as [-> | [_ ->]]; [done|]. by rewrite bool_decide_neq_refl.
Qed.

Lemma stage_bounded_inv c p preps input max_bytes staged :
  pending_inv c p preps → stage_pending_bounded c p input max_bytes = Ok staged →
  ∃ rec', stage_recorded c input (pe_rows p) (chain_end c (pe_rows p)) (recorder_bounded max_bytes) true
            = (Ok staged, rec') ∧ failed rec' = false.
Proof.
  intros Hinv Hrun. unfold stage_pending_bounded in Hrun. rewrite (pending_view_inv _ _ _ Hinv) in Hrun.
  simpl in Hrun. destruct (stage_recorded _ _ _ _ _ _) as [res rec']. exists rec'.
  destruct (failed rec'); [done|]. destruct res as [|[]]; naive_solver.
Qed.
Lemma stage_stamp c input prior prefix rec staged rec' :
  stage_recorded c input prior prefix rec true = (Ok staged, rec') →
  ∃ b, basis {| vw_state := co_state c; vw_prior := prior; vw_tail := None; vw_sequence := prefix |}
         (co_limits c) = Ok b ∧ sm_basis staged = Some b.
Proof.
  unfold stage_recorded. destruct (stage_body _ _ _ _ _) as [[receipt|e] r]; [|done].
  destruct (basis _ _) as [b|]; [|done]. intros [= <- _]. by exists b.
Qed.
(** Staging is accepted while there is room, and the prefix stays staged. *)
Lemma accept_staged_inv c p preps input max_bytes staged :
  pending_inv c p preps → stage_pending_bounded c p input max_bytes = Ok staged →
  (N.of_nat (length (pe_rows p)) < pe_capacity p)%N →
  let p' := {| pe_ledger := Some (st_ledger (co_state c));
               pe_rows := pe_rows p ++ [Some (sm_version staged)]; pe_capacity := pe_capacity p |} in
  accept p c staged = (Ok (sm_prepared staged, sm_result staged), p')
  ∧ pending_inv c p' (preps ++ [(sm_prepared staged, sm_result staged)]).
Proof.
  intros Hinv Hstage Hcap p'. destruct (stage_bounded_inv _ _ _ _ _ _ Hinv Hstage) as (rec' & Hrun & Hf).
  destruct (stage_stamp _ _ _ _ _ _ _ Hrun) as (b & Hb & Hsb).
  destruct (stage_recorded_spec c input (pe_rows p) (chain_end c (pe_rows p)) (recorder_bounded max_bytes)
    true staged rec') as (Hbase & Hseq & Hl & Hsch & Hcounts & Happly & _); [|done..|].
  { by eapply chain_counts, Hinv. }
  split.
  - unfold accept, validate_next. rewrite Hsch, (pending_view_inv _ _ _ Hinv). simpl.
    rewrite Hbase, Hl, Hb, Hsb, !bool_decide_neq_refl.
    by destruct (N.leb_spec (pe_capacity p) (N.of_nat (length (pe_rows p)))); [lia|].
  - split; [eapply chain_snoc; [apply Hinv|done..]|]. right. split; [by destruct (pe_rows p)|done].
Qed.
(** [accept] succeeds only with room. *)
Lemma accept_room c p staged entry p' :
  accept p c staged = (Ok entry, p') → (N.of_nat (length (pe_rows p)) < pe_capacity p)%N.
Proof.
  unfold accept, validate_next. destruct (from_schema _); [|done]. destruct (pending_view p c) as [view|]; [|done].
  destruct (N.leb_spec (pe_capacity p) (N.of_nat (length (pe_rows p)))); [done|lia].
Qed.
Lemma serial_run_rows c seq p result c' :
  apply_serial c seq p = (Ok result, c') → rd_rows (serial_run c seq p).2 = st_rows (co_state c').
Proof.
  rewrite apply_serial_run. destruct (apply_guard c seq p); [|done].
  destruct (serial_run c seq p) as [[receipt|e] r]; [|done]. by intros [= _ <-].
Qed.

(** ** Committing the pending entries *)
(** Entries applied to the core one after another, each at the next sequence. *)
Fixpoint apply_all (c : Core) (preps : list PreparedMutation) : list (Result ApplyResult CoreError) * Core :=
  match preps with
  | [] => ([], c)
  | prepared :: preps =>
      let '(result, c) := apply c (sequence_of c + 1) prepared in
      let '(results, c) := apply_all c preps in (result :: results, c)
  end.
(** The queue without its oldest [n] rows. *)
Definition dropped (n : nat) (p : PendingState) : PendingState :=
  let rows := drop n (pe_rows p) in
  {| pe_ledger := if bool_decide (rows = []) then None else pe_ledger p; pe_rows := rows;
     pe_capacity := pe_capacity p |}.

Lemma chain_length c entries rows : staged_chain c entries rows → length rows = length entries.
Proof. induction 1; simpl; congruence. Qed.
(** The oldest entries apply one after another as they were staged. *)
Lemma chain_apply c done rest rows :
  staged_chain c (done ++ rest) rows → fits (eff_rows (st_rows (co_state c)) rows) →
  let prior := take (length done) rows in
  let c' := eff_core c prior (chain_end c prior) in
  apply_all c done.*1 = (Ok <$> done.*2, c') ∧ staged_chain c' rest (drop (length done) rows).
Proof.
  revert c rows. induction done as [|[prepared result] done IH]; intros c rows Hch Hfit; simpl.
  { rewrite eff_core_nil, drop_0. done. }
  inversion Hch as [|? ? version ? ? rows' c1 Hs Hc Ha Hch' Hc0 Hp0 Hrows]; subst; simpl.
  change (Some version :: rows') with ([Some version] ++ rows') in Hfit. rewrite eff_rows_app in Hfit.
  apply checked_add_Some in Hs as [Hs _]. rewrite <-Hs, apply_eq_serial, Ha.
  2: { rewrite (serial_run_rows _ _ _ _ _ Ha). simpl. eapply grows_fits; [apply eff_rows_grows|exact Hfit]. }
  destruct (IH c1 rows' Hch' Hfit) as [Hall Hrest]. unfold c1 in Hall, Hrest. rewrite eff_core_app in Hall, Hrest.
  change (list_fmap _ _ fst done) with done.*1. unfold c1. by rewrite Hall.
Qed.
Lemma chain_end_last c entries rows n :
  staged_chain c entries rows → (n < length rows)%nat →
  ∃ last, rows !! n = Some (Some last) ∧ rv_sequence last = chain_end c (take (S n) rows).
Proof.
  intros Hch. revert n. induction Hch as [|c prepared version result entries rows c' Hs Hc Ha Hch IH]; simpl;
    intros n Hn; [lia|]. destruct n as [|n]; [by exists version; rewrite take_0|].
  destruct (IH n) as (last & Hl & Hseq); [lia|]. by exists last.
Qed.
Lemma chain_end_app c a b m : chain_end (eff_core c m (chain_end c a)) b = chain_end c (a ++ b).
Proof. unfold chain_end. by rewrite omap_app, foldl_app. Qed.
Lemma chain_end_counts c entries rows n :
  staged_chain c entries rows → (n <= length rows)%nat →
  chain_end c (take n rows) = (sequence_of c + N.of_nat n)%N.
Proof.
  intros Hch. revert n. induction Hch as [|c prepared version result entries rows c' Hs Hc Ha Hch IH]; simpl;
    intros [|n] Hn; try (unfold chain_end; simpl; lia). apply checked_add_Some in Hs as [Hs _].
  trans (chain_end c' (take n rows)); [done|]. rewrite IH by lia.
  change (sequence_of c') with (rv_sequence version). lia.
Qed.
(** The oldest entries commit: they apply as staged, the queue drops them,
    and what is left is staged over the new core. *)
Lemma commit_inv c p done rest :
  pending_inv c p (done ++ rest) → fits (eff_rows (st_rows (co_state c)) (pe_rows p)) →
  let n := length done in
  let c' := eff_core c (take n (pe_rows p)) (chain_end c (take n (pe_rows p))) in
  apply_all c done.*1 = (Ok <$> done.*2, c')
  ∧ drop_prefix (N.of_nat n) p c' = (Ok tt, match n with O => p | _ => dropped n p end)
  ∧ pending_inv c' (dropped n p) rest.
Proof.
  intros [Hch Hl] Hfit n c'. destruct (chain_apply _ _ _ _ Hch Hfit) as [Hall Hrest]. fold n c' in Hall, Hrest.
  assert (Hinv : pending_inv c' (dropped n p) rest).
  { split; [done|]. unfold dropped. simpl. case_bool_decide; [by left|naive_solver]. }
  split_and!; [done| |done]. unfold drop_prefix. destruct n as [|m] eqn:En.
  - simpl. unfold c', n. simpl. rewrite eff_core_nil.
    by rewrite (pending_view_inv c p (done ++ rest)).
  - rewrite (proj2 (N.eqb_neq _ _)) by lia. replace (N.to_nat (N.of_nat (S m) - 1)) with m by lia.
    pose proof (chain_length _ _ _ Hch) as Hlen. rewrite length_app in Hlen. fold n in Hlen.
    destruct (chain_end_last _ _ _ m Hch) as (last & Hlast & Hseq); [lia|]. rewrite Hlast. simpl.
    rewrite Hseq. rewrite bool_decide_neq_refl, Nat2N.id. fold (dropped (S m) p).
    by rewrite (pending_view_inv _ _ _ Hinv).
Qed.

(** ** Runs of the queue *)
(** What a host does with a queue over its core: it opens it empty, reserves
    room, stages requests and accepts what it staged, commits the oldest
    entries and drops them, clears it, and applies any entry while nothing is
    pending. The entries accepted and not yet committed, with the results that
    were answered for them, are the run's. *)
Inductive pending_run : Core → PendingState → list (PreparedMutation * ApplyResult) → Prop :=
  | run_opened c : pending_run c pending_new []
  | run_reserved c p entries maximum p' :
      pending_run c p entries → pending_reserve maximum p = Ok p' → pending_run c p' entries
  | run_staged c p entries input max_bytes staged entry p' :
      pending_run c p entries → stage_pending_bounded c p input max_bytes = Ok staged →
      accept p c staged = (Ok entry, p') → pending_run c p' (entries ++ [entry])
  | run_committed c p done rest results c' p' :
      pending_run c p (done ++ rest) → fits (eff_rows (st_rows (co_state c)) (pe_rows p)) →
      apply_all c done.*1 = (results, c') → drop_prefix (N.of_nat (length done)) p c' = (Ok tt, p') →
      pending_run c' p' rest
  | run_cleared c p entries : pending_run c p entries → pending_run c (pending_clear p) []
  | run_applied c p seq prepared result c' :
      pending_run c p [] → apply c seq prepared = (Ok result, c') → pending_run c' p [].

Lemma pending_inv_nil c p : pending_inv c p [] → pe_rows p = [] ∧ pe_ledger p = None.
Proof. intros [Hch Hl]. apply chain_length, nil_length_inv in Hch. naive_solver. Qed.
Lemma pending_empty c capacity : pending_inv c {| pe_ledger := None; pe_rows := []; pe_capacity := capacity |} [].
Proof. split; [constructor|by left]. Qed.
Lemma pending_run_inv c p entries : pending_run c p entries → pending_inv c p entries.
Proof.
  induction 1 as [c|c p entries maximum p' _ IH Hr|c p entries input max_bytes staged entry p' _ IH Hs Ha
    |c p done rest results c' p' _ IH Hfit Ha Hd|c p entries _ _|c p seq prepared result c' _ IH _].
  - apply pending_empty.
  - unfold pending_reserve in Hr. destruct (checked_sub _ _); [|done]. injection Hr as <-. destruct IH. by split.
  - destruct (accept_staged_inv _ _ _ _ _ _ IH Hs (accept_room _ _ _ _ _ Ha)) as [Ha' Hinv].
    rewrite Ha in Ha'. by injection Ha' as -> ->.
  - destruct (commit_inv _ _ _ _ IH Hfit) as (Ha' & Hd' & Hinv). rewrite Ha in Ha'. injection Ha' as -> ->.
    rewrite Hd in Hd'. destruct done; [|by injection Hd' as ->]. injection Hd' as ->. simpl. by rewrite eff_core_nil.
  - apply pending_empty.
  - destruct (pending_inv_nil _ _ IH), p as [l rows cap]. simpl in *. subst. apply pending_empty.
Qed.
End pending_laws.
