(* ===== verification/Steps.v ===== *)
(** * Atomic transitions of the ledger

    [wstep n t t']: the row transitions an entry with sequence [n] may make,
    each with the condition under which the ledger allows it. [CommandSteps.v]
    proves that every command is a sequence of them; [Invariants.v] proves what
    they preserve. *)
From stdpp Require Import prelude gmap strings list relations.
From Stdlib Require Import NArith.
From S2P Require Import Prelude Vocabulary Objects Canonical Store StoreLaws Reducer.
From S2P Require Import Graph Validation Propagate Create Commands Hoare.

Notation status_of c := (cl_status (lifecycle c)).

(** ** What a status may become *)
Definition control (st : ClaimStatus) : bool :=
  match st with
  | ClaimStatus.Cancelled | ClaimStatus.Revoked | ClaimStatus.Superseded | ClaimStatus.Expired
  | ClaimStatus.Deadlocked => true
  | _ => false
  end.
Definition verdict_failure (st : ClaimStatus) : bool :=
  match st with
  | ClaimStatus.ValidationFailed | ClaimStatus.ValidationErrored | ClaimStatus.ValidationIncomplete => true
  | _ => false
  end.
Inductive moves (t : Rows) (c : Claim) : ClaimStatus → Prop :=
  | mv_post : status_of c = ClaimStatus.Generated → moves t c ClaimStatus.Posted
  | mv_progress : status_of c = ClaimStatus.Received → moves t c ClaimStatus.Progressed
  | mv_close : status_of c ∈ working → is_Some (cl_testament (lifecycle c)) →
      moves t c ClaimStatus.TestamentGenerated
  | mv_acknowledge : status_of c = ClaimStatus.TestamentGenerated →
      moves t c ClaimStatus.TestamentAcknowledged
  | mv_validate : status_of c = ClaimStatus.TestamentAcknowledged → moves t c ClaimStatus.Validating
  | mv_satisfy : is_terminal (status_of c) = false → cl_local_complete (lifecycle c) = true →
      moves t c ClaimStatus.Satisfied
  | mv_fail_post : status_of c ∈ [ClaimStatus.Generated; ClaimStatus.Posted] →
      moves t c ClaimStatus.PostFailed
  | mv_fail_receipt : status_of c = ClaimStatus.Posted → moves t c ClaimStatus.ReceiptFailed
  | mv_fail_testament : status_of c ∈ working → moves t c ClaimStatus.TestamentGenerationFailed
  | mv_verdict st : verdict_failure st = true → status_of c = ClaimStatus.Validating →
      cl_local_complete (lifecycle c) = false → moves t c st
  | mv_control st : control st = true → is_terminal (status_of c) = false → moves t c st
  | mv_dependency d cd : is_terminal (status_of c) = false →
      d ∈ dependencies (content c) RelationKind.DependsOn → claims t !! d = Some cd →
      is_terminal (status_of cd) = true → status_of cd ≠ ClaimStatus.Satisfied →
      moves t c ClaimStatus.DependencyFailed.

(** ** Allocation *)
(** One identifier space for the four kinds of objects. *)
Definition free (t : Rows) (id : ObjectId) : Prop :=
  id ≠ 0%N ∧ claims t !! id = None ∧ validations t !! id = None ∧ artifacts t !! id = None
  ∧ testaments t !! id = None.
(** No claim holds the receipt. *)
Definition unallocated (t : Rows) (receipt : ReceiptId) : Prop :=
  ∀ id c r, claims t !! id = Some c → cl_receipt (lifecycle c) = Some r →
    f_receipt (r_fence r) ≠ receipt.
Definition holding : list ClaimStatus :=
  [ClaimStatus.Received; ClaimStatus.Progressed; ClaimStatus.TestamentGenerated;
   ClaimStatus.TestamentAcknowledged; ClaimStatus.Validating].

Definition status_row (n : SessionSeq) (st : ClaimStatus) (revision : N) (w : option ClaimId) (c : Claim) :
    Claim :=
  with_lifecycle c (lc_status st revision {| sf_status := st; sf_sequence := n |} w (lifecycle c)).
Definition receipt_row (r : Receipt) (c : Claim) : Claim :=
  with_lifecycle c (lc_receipt r (lifecycle c)).
Definition evidence_row (set : EvidenceSetId) (tid : option TestamentId) (c : Claim) : Claim :=
  with_lifecycle c (lc_evidence set tid (lifecycle c)).
Definition complete_row (c : Claim) : Claim := with_lifecycle c (lc_local_complete (lifecycle c)).
Definition released_row (c : Claim) : Claim := with_lifecycle c (lc_released (lifecycle c)).
Definition born (n : SessionSeq) : ClaimLifecycle := {|
  cl_status := ClaimStatus.Generated; cl_revision := 1; cl_created := n;
  cl_history := [{| sf_status := ClaimStatus.Generated; sf_sequence := n |}];
  cl_receipt := None; cl_evidence_set := None; cl_testament := None; cl_local_complete := false;
  cl_released := false; cl_terminal_witness := None |}.

(** A wait monitor may change its roots, and be released once. *)
Definition monitor_step (n : SessionSeq) (m m' : Monitor) : Prop :=
  m_released m = None ∧ m_id m' = m_id m ∧ m_owner m' = m_owner m ∧ m_deadline m' = m_deadline m
  ∧ m_registered m' = m_registered m
  ∧ (m_released m' = None ∨ m_roots m' = m_roots m ∧ m_released m' = Some n).
(** An open evidence set may be fenced to a new receipt, take artifacts, and
    be closed. *)
Definition set_step (s s' : EvidenceSet) : Prop :=
  es_closed s = false ∧ es_id s' = es_id s ∧ es_claim s' = es_claim s
  ∧ es_artifacts s `prefix_of` es_artifacts s'.
(** A window admits the next generation or raises its floor. *)
Definition window_step (w : option EpochWindow) (w' : EpochWindow) : Prop :=
  (∃ e, match w with
        | None => e = 1%N ∧ w' = {| ew_minimum := 1; ew_admitted := {[1%N]} |}
        | Some w =>
            w' = {| ew_minimum := ew_minimum w; ew_admitted := {[e]} ∪ ew_admitted w |}
            ∧ (ew_minimum w <= e)%N
            ∧ match last_epoch w with Some l => e = (l + 1)%N | None => e = 1%N end
        end)
  ∨ ∃ w0 m, w = Some w0 ∧ (ew_minimum w0 <= m)%N ∧ m ∈ ew_admitted w0
            ∧ w' = {| ew_minimum := m; ew_admitted := filter (λ e, m <= e)%N (ew_admitted w0) |}.

Section wstep.
Context `{External} (n : SessionSeq).

Inductive wstep (t : Rows) : Rows → Prop :=
  (* creation: the row and its identity *)
  | ws_validation id v h :
      free t id → claims t !! vc_claim v = None → content_hash v = Ok h →
      wstep t (ins Identities (ObjectKind.Validation, h) id
        (ins Validations id (StoredObject_new v h {| vl_created := n; vl_latest_epoch := 0 |}) t))
  | ws_claim id c h :
      free t id → content_hash c = Ok h → identities t !! (ObjectKind.Claim, h) = None →
      wstep t (ins Identities (ObjectKind.Claim, h) id
        (ins Claims id (StoredObject_new c h (born n)) t))
  | ws_artifact id a h custody :
      free t id → content_hash a = Ok h → identities t !! (ObjectKind.Artifact, h) = None →
      wstep t (ins Identities (ObjectKind.Artifact, h) id (ins Artifacts id
        (StoredObject_new a h {| al_created := n; al_custody_revision := custody |}) t))
  | ws_testament id tc h :
      free t id → content_hash tc = Ok h → identities t !! (ObjectKind.Testament, h) = None →
      wstep t (ins Identities (ObjectKind.Testament, h) id (ins Testaments id
        (StoredObject_new tc h {| tl_created := n; tl_acknowledged := None |}) t))
  (* claims *)
  | ws_status id c st revision w :
      claims t !! id = Some c → moves t c st → checked_add (cl_revision (lifecycle c)) 1 = Some revision →
      wstep t (ins Claims id (status_row n st revision w c) t)
  | ws_receive id c receipt holder revision w :
      claims t !! id = Some c → status_of c = ClaimStatus.Posted → unallocated t receipt →
      subject (content c) = Some holder →
      checked_add (cl_revision (lifecycle c)) 1 = Some revision →
      wstep t (ins Claims id (status_row n ClaimStatus.Received revision w (receipt_row
        {| r_fence := {| f_receipt := receipt; f_epoch := 1 |}; r_holder := holder; r_acquired := n |} c)) t)
  | ws_adopt id c old r :
      claims t !! id = Some c → status_of c ∈ holding → cl_receipt (lifecycle c) = Some old →
      f_epoch (r_fence r) = (f_epoch (r_fence old) + 1)%N → unallocated t (f_receipt (r_fence r)) →
      wstep t (ins Claims id (receipt_row r c) t)
  | ws_open_set id c set :
      claims t !! id = Some c → status_of c ∈ working → cl_evidence_set (lifecycle c) = None →
      wstep t (ins Claims id (evidence_row set None c) t)
  | ws_bind_testament id c set tid tm :
      claims t !! id = Some c → status_of c ∈ working → testaments t !! tid = Some tm →
      tc_claim (content tm) = id →
      wstep t (ins Claims id (evidence_row set (Some tid) c) t)
  | ws_complete id c :
      claims t !! id = Some c → status_of c = ClaimStatus.Validating →
      aggregate_of id (entries (validations t)) (entries (runs t)) = Some VerdictValue.Pass →
      wstep t (ins Claims id (complete_row c) t)
  | ws_release id c :
      claims t !! id = Some c → is_terminal (status_of c) = true →
      wstep t (ins Claims id (released_row c) t)
  (* validations and runs *)
  | ws_schedule id v k r :
      validations t !! id = Some v → vr_validation k = id → runs t !! k = None → run_id r = k →
      run_claim r = vc_claim (content v) → run_attempts r = [] → run_final_verdict r = None →
      vr_epoch k = (vl_latest_epoch (lifecycle v) + 1)%N →
      (∀ c, claims t !! vc_claim (content v) = Some c → cl_local_complete (lifecycle c) = false) →
      wstep t (ins Validations id (set_latest_epoch v (vr_epoch k)) (ins Runs k r t))
  | ws_receipt_run id v k r verdict :
      validations t !! id = Some v → vr_validation k = id → runs t !! k = None → run_id r = k →
      run_claim r = vc_claim (content v) → run_attempts r = [verdict] → ve_attempt verdict = 0%N →
      ve_value verdict = VerdictValue.Pass → run_final_verdict r = Some VerdictValue.Pass →
      vr_epoch k = (vl_latest_epoch (lifecycle v) + 1)%N →
      wstep t (ins Validations id (set_latest_epoch v (vr_epoch k)) (ins Runs k r t))
  | ws_verdict k r verdict index quality final :
      runs t !! k = Some r → run_final_verdict r = None →
      ve_attempt verdict = N.of_nat (length (run_attempts r)) →
      (final = None ∨ final = Some (ve_value verdict)) →
      wstep t (ins Runs k (run_with r index quality (run_attempts r ++ [verdict]) final) t)
  (* the rest *)
  | ws_acknowledge id tm :
      testaments t !! id = Some tm →
      wstep t (ins Testaments id (with_lifecycle tm
        {| tl_created := tl_created (lifecycle tm); tl_acknowledged := Some n |}) t)
  | ws_new_set set s : evidence_sets t !! set = None → wstep t (ins EvidenceSets set s t)
  | ws_set set s s' :
      evidence_sets t !! set = Some s → set_step s s' → wstep t (ins EvidenceSets set s' t)
  | ws_new_monitor id m :
      monitors t !! id = None → m_id m = id → m_released m = None → is_Some (claims t !! m_owner m) →
      wstep t (ins Monitors id m t)
  | ws_monitor id m m' :
      monitors t !! id = Some m → monitor_step n m m' → wstep t (ins Monitors id m' t)
  | ws_epoch p w' : window_step (epochs t !! p) w' → wstep t (ins Epochs p w' t).
Definition wsteps : Rows → Rows → Prop := rtc wstep.
End wstep.
