(* ===== verification/Invariants.v ===== *)
(** * Invariants of the ledger

    What every row satisfies in every reachable state, and that each atomic
    transition preserves it. *)
From stdpp Require Import prelude gmap strings list relations.
From Stdlib Require Import NArith.
From S2P Require Import Prelude Vocabulary Objects Canonical Store StoreLaws Reducer.
From S2P Require Import Graph Validation Propagate Create Commands Hoare Steps.

(** ** The status machine *)
Definition edge (a b : ClaimStatus) : bool :=
  match a, b with
  | ClaimStatus.Generated, ClaimStatus.Posted
  | ClaimStatus.Posted, ClaimStatus.Received
  | ClaimStatus.Received, ClaimStatus.Progressed
  | (ClaimStatus.Received | ClaimStatus.Progressed), ClaimStatus.TestamentGenerated
  | ClaimStatus.TestamentGenerated, ClaimStatus.TestamentAcknowledged
  | ClaimStatus.TestamentAcknowledged, ClaimStatus.Validating
  | ClaimStatus.Validating,
      (ClaimStatus.Satisfied | ClaimStatus.ValidationFailed | ClaimStatus.ValidationErrored
       | ClaimStatus.ValidationIncomplete)
  | (ClaimStatus.Generated | ClaimStatus.Posted), ClaimStatus.PostFailed
  | ClaimStatus.Posted, ClaimStatus.ReceiptFailed
  | (ClaimStatus.Received | ClaimStatus.Progressed), ClaimStatus.TestamentGenerationFailed => true
  | _, _ => negb (is_terminal a) && (control b || bool_decide (b = ClaimStatus.DependencyFailed))
  end.
(** Consecutive entries of a list are related. *)
Fixpoint linked {A} (R : A → A → bool) (l : list A) : bool :=
  match l with
  | x :: (y :: _) as l => R x y && linked R l
  | _ => true
  end.
Definition history_inv (n : SessionSeq) (l : ClaimLifecycle) : Prop :=
  cl_revision l = N.of_nat (length (cl_history l))
  ∧ head (cl_history l) = Some {| sf_status := ClaimStatus.Generated; sf_sequence := cl_created l |}
  ∧ sf_status <$> last (cl_history l) = Some (cl_status l)
  ∧ linked edge (sf_status <$> cl_history l) = true
  ∧ linked (λ a b, (a <=? b)%N) ((sf_sequence <$> cl_history l) ++ [n]) = true.

Definition unreceived (st : ClaimStatus) : bool :=
  match st with
  | ClaimStatus.Generated | ClaimStatus.Posted | ClaimStatus.PostFailed | ClaimStatus.ReceiptFailed => true
  | _ => false
  end.
Definition closed_work (st : ClaimStatus) : bool :=
  match st with
  | ClaimStatus.TestamentGenerated | ClaimStatus.TestamentAcknowledged | ClaimStatus.Validating => true
  | _ => false
  end.
Record claim_inv (n : SessionSeq) (c : Claim) : Prop := {
  ci_history : history_inv n (lifecycle c);
  ci_complete : cl_local_complete (lifecycle c) = true →
    status_of c = ClaimStatus.Validating ∨ is_terminal (status_of c) = true;
  ci_satisfied : status_of c = ClaimStatus.Satisfied → cl_local_complete (lifecycle c) = true;
  ci_released : cl_released (lifecycle c) = true → is_terminal (status_of c) = true;
  ci_unreceived : unreceived (status_of c) = true → cl_receipt (lifecycle c) = None;
  ci_holding : status_of c ∈ holding → is_Some (cl_receipt (lifecycle c));
  ci_testament : closed_work (status_of c) = true → is_Some (cl_testament (lifecycle c));
}.

Lemma linked_snoc {A} (R : A → A → bool) l x :
  linked R l = true → (∀ y, last l = Some y → R y x = true) → linked R (l ++ [x]) = true.
Proof.
  induction l as [|y l IH]; [done|]. destruct l as [|z l].
  - intros _ Hl. simpl. by rewrite (Hl y).
  - intros [Hyz Hl]%andb_true_iff Hx. change (R y z && linked R ((z :: l) ++ [x]) = true).
    rewrite Hyz. simpl. by apply IH.
Qed.
Lemma linked_app_l {A} (R : A → A → bool) l l' : linked R (l ++ l') = true → linked R l = true.
Proof.
  induction l as [|y l IH]; [done|]. destruct l as [|z l]; [done|].
  intros [Hyz Hl]%andb_true_iff. change (R y z && linked R (z :: l) = true). rewrite Hyz. by apply IH.
Qed.
Lemma linked_raise l m n : linked (λ a b, (a <=? b)%N) (l ++ [m]) = true → (m <= n)%N →
  linked (λ a b, (a <=? b)%N) (l ++ [n]) = true.
Proof.
  induction l as [|x l IH]; [done|]. destruct l as [|y l].
  - simpl. rewrite !andb_true_r, !N.leb_le. lia.
  - intros [Hxy Hl]%andb_true_iff Hmn.
    change ((x <=? y)%N && linked (λ a b, (a <=? b)%N) ((y :: l) ++ [n]) = true).
    rewrite Hxy. simpl. by apply IH.
Qed.
Lemma claim_inv_mono m n c : (m <= n)%N → claim_inv m c → claim_inv n c.
Proof.
  intros Hmn [(?&?&?&?&?) ??????]. split; [|done..]. split_and!; [done..|]. by eapply linked_raise.
Qed.

(** Each claim transition. *)
Lemma history_born n : history_inv n (born n).
Proof. unfold history_inv. simpl. by rewrite N.leb_refl. Qed.
Lemma claim_inv_born n cc h : claim_inv n (StoredObject_new cc h (born n)).
Proof. split; simpl; try done; [apply history_born|]. set_solver. Qed.
Lemma history_status n st rev w c :
  history_inv n (lifecycle c) → edge (status_of c) st = true →
  checked_add (cl_revision (lifecycle c)) 1 = Some rev →
  history_inv n (lifecycle (status_row n st rev w c)).
Proof.
  intros (Hr & Hh & Hl & He & Hs) Hst [-> _]%checked_add_Some. unfold history_inv. simpl.
  rewrite last_snoc, !fmap_app, length_app. simpl. split_and!; [| |done| |].
  - rewrite Hr. lia.
  - by destruct (cl_history (lifecycle c)).
  - apply linked_snoc; [done|]. intros y Hy. by rewrite fmap_last, Hl in Hy; simplify_eq.
  - apply linked_snoc; [done|]. intros y. rewrite last_snoc. intros [= <-]. by apply N.leb_refl.
Qed.

Lemma moves_edge n t c st : claim_inv n c → moves t c st → edge (status_of c) st = true.
Proof.
  intros Hc. destruct 1 as [H|H|H|H|H|H HL|H|H|H|st Hf H HL|st Hf H|d cd H]; simpl;
    try by rewrite H.
  - repeat (apply elem_of_cons in H as [->|H]; [done|]). by apply elem_of_nil in H.
  - destruct (ci_complete _ _ Hc HL) as [->|]; [done|congruence].
  - repeat (apply elem_of_cons in H as [->|H]; [done|]). by apply elem_of_nil in H.
  - repeat (apply elem_of_cons in H as [->|H]; [done|]). by apply elem_of_nil in H.
  - rewrite H. by destruct st.
  - destruct (status_of c), st; done.
  - by destruct (status_of c).
Qed.
(** The other side conditions of a claim row only look at the new status. *)
Lemma claim_inv_status n t c st rev w :
  claim_inv n c → moves t c st → checked_add (cl_revision (lifecycle c)) 1 = Some rev →
  claim_inv n (status_row n st rev w c).
Proof.
  intros Hc Hm Hrev. pose proof (moves_edge _ _ _ _ Hc Hm) as He.
  assert (Hnt : is_terminal (status_of c) = false).
  { by destruct (status_of c), st. }
  destruct Hc as [Hh Hco Hsa Hre Hun Hho Hte].
  split; simpl; [by apply history_status|..].
  - intros HL. destruct (Hco HL) as [Hv|]; [|congruence]. rewrite Hv in He. destruct st; auto.
  - intros ->. inversion Hm; subst; done.
  - intros HR. apply Hre in HR. congruence.
  - intros Hu. apply Hun. by destruct (status_of c), st.
  - intros Hin. destruct Hm; try by (apply Hho; rewrite ?H; set_solver). all: set_solver.
  - intros Hcl. destruct Hm as [H|H|H Ht|H|H|H HL|H|H|H|st Hf H HL|st Hf H|d cd H]; try done;
      try (by apply Hte; rewrite H); destruct st; done.
Qed.
Lemma claim_inv_receive n c r rev w :
  claim_inv n c → status_of c = ClaimStatus.Posted →
  checked_add (cl_revision (lifecycle c)) 1 = Some rev →
  claim_inv n (status_row n ClaimStatus.Received rev w (receipt_row r c)).
Proof.
  intros [Hh Hco Hsa Hre Hun Hho Hte] Hst Hrev. split; simpl; try done.
  - apply (history_status n ClaimStatus.Received rev w (receipt_row r c)); [done|simpl; by rewrite Hst|done].
  - intros HL. destruct (Hco HL) as [?|Ht]; [congruence|]. rewrite Hst in Ht. done.
  - intros HR%Hre. rewrite Hst in HR. done.
Qed.
Lemma claim_inv_adopt n c r : claim_inv n c → status_of c ∈ holding → claim_inv n (receipt_row r c).
Proof.
  intros [Hh Hco Hsa Hre Hun Hho Hte] Hst. split; simpl; try done.
  intros Hu. destruct (status_of c); try done; set_solver.
Qed.
Lemma claim_inv_evidence n c set tid : claim_inv n c → claim_inv n (evidence_row set tid c).
Proof.
  intros [Hh Hco Hsa Hre Hun Hho Hte]. split; simpl; try done. destruct tid; [by eexists|done].
Qed.
Lemma claim_inv_complete n c :
  claim_inv n c → status_of c = ClaimStatus.Validating → claim_inv n (complete_row c).
Proof. intros [Hh Hco Hsa Hre Hun Hho Hte] Hst. split; simpl; try done. by left. Qed.
Lemma claim_inv_release n c :
  claim_inv n c → is_terminal (status_of c) = true → claim_inv n (released_row c).
Proof. intros [Hh Hco Hsa Hre Hun Hho Hte] Hst. by split. Qed.

(** ** The whole ledger *)
Definition object_hash (t : Rows) (k : ObjectKind) (o : ObjectId) : option ContentHash :=
  match k with
  | ObjectKind.Claim => content_hash_of <$> claims t !! o
  | ObjectKind.Validation => content_hash_of <$> validations t !! o
  | ObjectKind.Artifact => content_hash_of <$> artifacts t !! o
  | ObjectKind.Testament => content_hash_of <$> testaments t !! o
  end.
(** Every required validation of the claim after admission has runs, and all
    of them ended in a pass. *)
Definition checked (t : Rows) (id : ClaimId) : Prop :=
  ∀ vid v, validations t !! vid = Some v → vc_claim (content v) = id →
    vc_mode (content v) = ValidationMode.Required → vc_phase (content v) ≠ ValidationPhase.Admission →
    (∃ k r, runs t !! k = Some r ∧ vr_validation (run_id r) = vid)
    ∧ ∀ k r, runs t !! k = Some r → vr_validation (run_id r) = vid →
        run_final_verdict r = Some VerdictValue.Pass.
(** The claim has a validation that decides it. *)
Definition required (t : Rows) (id : ClaimId) : Prop :=
  ∃ vid v, validations t !! vid = Some v ∧ decides id v.
(** Attempts are numbered from zero, and a final verdict is the last one's. *)
Definition run_inv (r : ValidationRun) : Prop :=
  (∀ i ve, run_attempts r !! i = Some ve → ve_attempt ve = N.of_nat i)
  ∧ (∀ value, run_final_verdict r = Some value → ve_value <$> last (run_attempts r) = Some value).
Definition window_inv (w : EpochWindow) : Prop :=
  ∃ hi, (ew_minimum w <= hi)%N ∧ (0 < ew_minimum w)%N
    ∧ ∀ e, e ∈ ew_admitted w ↔ (ew_minimum w <= e <= hi)%N.

Section inv.
Context `{External}.
Record inv (n : SessionSeq) (t : Rows) : Prop := {
  iv_claims : ∀ id c, claims t !! id = Some c → claim_inv n c;
  iv_checked : ∀ id c, claims t !! id = Some c → cl_local_complete (lifecycle c) = true → checked t id;
  iv_required : ∀ id c, claims t !! id = Some c → cl_local_complete (lifecycle c) = true → required t id;
  iv_receipts : ∀ id1 id2 c1 c2 r1 r2, claims t !! id1 = Some c1 → claims t !! id2 = Some c2 →
    cl_receipt (lifecycle c1) = Some r1 → cl_receipt (lifecycle c2) = Some r2 →
    f_receipt (r_fence r1) = f_receipt (r_fence r2) → id1 = id2;
  iv_hashes : (∀ id c, claims t !! id = Some c → content_hash (content c) = Ok (content_hash_of c))
    ∧ (∀ id v, validations t !! id = Some v → content_hash (content v) = Ok (content_hash_of v))
    ∧ (∀ id a, artifacts t !! id = Some a → content_hash (content a) = Ok (content_hash_of a))
    ∧ ∀ id tm, testaments t !! id = Some tm → content_hash (content tm) = Ok (content_hash_of tm);
  iv_identity : ∀ k h o, identities t !! (k, h) = Some o → object_hash t k o = Some h;
  iv_known : ∀ k h o, k ≠ ObjectKind.Validation → object_hash t k o = Some h →
    identities t !! (k, h) = Some o;
  iv_disjoint : ∀ k1 k2 o, is_Some (object_hash t k1 o) → is_Some (object_hash t k2 o) → k1 = k2;
  iv_runs : ∀ k r, runs t !! k = Some r → run_id r = k ∧ run_inv r
    ∧ ∃ v, validations t !! vr_validation k = Some v ∧ run_claim r = vc_claim (content v)
           ∧ (vr_epoch k <= vl_latest_epoch (lifecycle v))%N;
  iv_testaments : ∀ id c tid, claims t !! id = Some c → cl_testament (lifecycle c) = Some tid →
    ∃ tm, testaments t !! tid = Some tm ∧ tc_claim (content tm) = id;
  iv_monitors : ∀ id m, monitors t !! id = Some m → m_id m = id ∧ is_Some (claims t !! m_owner m);
  iv_epochs : ∀ p w, epochs t !! p = Some w → window_inv w;
}.

Lemma object_hash_empty k o : object_hash empty_tables k o = None.
Proof. destruct k; simpl; by rewrite lookup_empty. Qed.
Lemma inv_empty n : inv n empty_tables.
Proof.
  assert (Hn : ∀ K `{Countable K} V (k : K) (v : V), (∅ : gmap K V) !! k ≠ Some v).
  { intros. by rewrite lookup_empty. }
  split; try (simpl; intros; exfalso; by eapply Hn).
  - split_and!; simpl; intros; exfalso; by eapply Hn.
  - intros k h o _. by rewrite object_hash_empty.
  - intros k1 k2 o. rewrite object_hash_empty. by intros [].
Qed.
Lemma inv_mono m n t : (m <= n)%N → inv m t → inv n t.
Proof. intros Hmn []. split; eauto using claim_inv_mono. Qed.

(** *** Preservation, one field at a time *)
Variable n : SessionSeq.
Implicit Types (t : Rows).

Lemma step_claims t t' : inv n t → wstep n t t' → ∀ id c, claims t' !! id = Some c → claim_inv n c.
Proof.
  intros Hinv. pose proof (iv_claims _ _ Hinv) as Hc.
  destruct 1; unfold ins; simpl; try exact Hc; intros id' c';
    rewrite lookup_insert_Some; intros [[<- <-]|[_ ?]]; try (by eapply Hc);
    eauto using claim_inv_born, claim_inv_status, claim_inv_receive, claim_inv_adopt,
      claim_inv_evidence, claim_inv_complete, claim_inv_release.
Qed.
(** A claim row rewritten with its receipt kept, or with a receipt nobody
    holds. *)
Lemma receipts_rewrite t id c0 c :
  inv n t → claims t !! id = Some c0 →
  (cl_receipt (lifecycle c) = cl_receipt (lifecycle c0)
   ∨ ∃ r, cl_receipt (lifecycle c) = Some r ∧ unallocated t (f_receipt (r_fence r))) →
  ∀ id1 id2 c1 c2 r1 r2, <[id:=c]> (claims t) !! id1 = Some c1 → <[id:=c]> (claims t) !! id2 = Some c2 →
    cl_receipt (lifecycle c1) = Some r1 → cl_receipt (lifecycle c2) = Some r2 →
    f_receipt (r_fence r1) = f_receipt (r_fence r2) → id1 = id2.
Proof.
  intros Hinv Hc0 Hc id1 id2 c1 c2 r1 r2. pose proof (iv_receipts _ _ Hinv) as Hu.
  rewrite !lookup_insert_Some. intros [[<- <-]|[? H1]] [[<- <-]|[? H2]] Hr1 Hr2 Heq; try done.
  - destruct Hc as [Hc|(r & Hr & Hn)]; [rewrite Hr1 in Hc; by eapply Hu|].
    rewrite Hr in Hr1. simplify_eq. exfalso. by eapply Hn.
  - destruct Hc as [Hc|(r & Hr & Hn)]; [rewrite Hr2 in Hc; by eapply Hu|].
    rewrite Hr in Hr2. simplify_eq. exfalso. by eapply Hn.
  - by eapply Hu.
Qed.
Lemma step_receipts t t' : inv n t → wstep n t t' →
  ∀ id1 id2 c1 c2 r1 r2, claims t' !! id1 = Some c1 → claims t' !! id2 = Some c2 →
    cl_receipt (lifecycle c1) = Some r1 → cl_receipt (lifecycle c2) = Some r2 →
    f_receipt (r_fence r1) = f_receipt (r_fence r2) → id1 = id2.
Proof.
  intros Hinv. pose proof (iv_receipts _ _ Hinv) as Hu.
  destruct 1; unfold ins; simpl; try exact Hu;
    try (eapply receipts_rewrite; [done..|]; (by left) || (right; by eexists)).
  intros id1 id2 c1 c2 r1 r2. rewrite !lookup_insert_Some.
  intros [[<- <-]|[? Ha]] [[<- <-]|[? Hb]]; simpl; try done. by eapply Hu.
Qed.

(** Object identities. *)
Lemma object_hash_ins_claim t id (x : Claim) k o :
  object_hash (ins Claims id x t) k o
  = if decide ((k, o) = (ObjectKind.Claim, id)) then Some (content_hash_of x) else object_hash t k o.
Proof.
  destruct (decide _) as [[= -> ->]|Hn]; [unfold ins; simpl; by rewrite lookup_insert_eq|].
  unfold ins. destruct k; simpl; try done. rewrite lookup_insert_ne; [done|]. intros ->. by apply Hn.
Qed.
Lemma object_hash_ins_validation t id (x : Validation) k o :
  object_hash (ins Validations id x t) k o
  = if decide ((k, o) = (ObjectKind.Validation, id)) then Some (content_hash_of x) else object_hash t k o.
Proof.
  destruct (decide _) as [[= -> ->]|Hn]; [unfold ins; simpl; by rewrite lookup_insert_eq|].
  unfold ins. destruct k; simpl; try done. rewrite lookup_insert_ne; [done|]. intros ->. by apply Hn.
Qed.
Lemma object_hash_ins_artifact t id (x : Artifact) k o :
  object_hash (ins Artifacts id x t) k o
  = if decide ((k, o) = (ObjectKind.Artifact, id)) then Some (content_hash_of x) else object_hash t k o.
Proof.
  destruct (decide _) as [[= -> ->]|Hn]; [unfold ins; simpl; by rewrite lookup_insert_eq|].
  unfold ins. destruct k; simpl; try done. rewrite lookup_insert_ne; [done|]. intros ->. by apply Hn.
Qed.
Lemma object_hash_ins_testament t id (x : Testament) k o :
  object_hash (ins Testaments id x t) k o
  = if decide ((k, o) = (ObjectKind.Testament, id)) then Some (content_hash_of x) else object_hash t k o.
Proof.
  destruct (decide _) as [[= -> ->]|Hn]; [unfold ins; simpl; by rewrite lookup_insert_eq|].
  unfold ins. destruct k; simpl; try done. rewrite lookup_insert_ne; [done|]. intros ->. by apply Hn.
Qed.

(** Every step keeps the hashes of the objects it finds, and creates at most
    one object, under a free identifier, with its identity. *)
Definition creates t t' (k : ObjectKind) (id : ObjectId) (h : ContentHash) : Prop :=
  free t id ∧ (k ≠ ObjectKind.Validation → identities t !! (k, h) = None)
  ∧ identities t' = <[(k, h) := id]> (identities t)
  ∧ ∀ k' o, object_hash t' k' o = if decide ((k', o) = (k, id)) then Some h else object_hash t k' o.
Definition keeps t t' : Prop :=
  identities t' = identities t ∧ ∀ k o, object_hash t' k o = object_hash t k o.
Lemma keeps_claim t id c c' :
  claims t !! id = Some c → content_hash_of c' = content_hash_of c → keeps t (ins Claims id c' t).
Proof.
  intros Hc He. split; [done|]. intros k o. rewrite object_hash_ins_claim.
  destruct (decide _) as [[= -> ->]|]; [|done]. simpl. by rewrite Hc, He.
Qed.
Lemma step_objects t t' : wstep n t t' → (∃ k id h, creates t t' k id h) ∨ keeps t t'.
Proof.
  destruct 1; try (right; by eapply keeps_claim); try (right; by split); [left..|right|right|right].
  - exists ObjectKind.Validation, id, h. split_and!; [done..|]. intros k' o. apply object_hash_ins_validation.
  - exists ObjectKind.Claim, id, h. split_and!; [done..|]. intros k' o. apply object_hash_ins_claim.
  - exists ObjectKind.Artifact, id, h. split_and!; [done..|]. intros k' o. apply object_hash_ins_artifact.
  - exists ObjectKind.Testament, id, h. split_and!; [done..|]. intros k' o. apply object_hash_ins_testament.
  - split; [done|]. intros k' o. rewrite object_hash_ins_validation.
    destruct (decide _) as [[= -> ->]|]; [|done]. simpl. by rewrite H0.
  - split; [done|]. intros k' o. rewrite object_hash_ins_validation.
    destruct (decide _) as [[= -> ->]|]; [|done]. simpl. by rewrite H0.
  - split; [done|]. intros k' o. rewrite object_hash_ins_testament.
    destruct (decide _) as [[= -> ->]|]; [|done]. simpl. by rewrite H0.
Qed.
Lemma free_object_hash t id k : free t id → object_hash t k id = None.
Proof. intros (_ & ? & ? & ? & ?). destruct k; simpl; by apply fmap_None. Qed.
Lemma step_identity t t' : inv n t → wstep n t t' →
  ∀ k h o, identities t' !! (k, h) = Some o → object_hash t' k o = Some h.
Proof.
  intros Hinv Hstep. pose proof (iv_identity _ _ Hinv) as Hid.
  destruct (step_objects _ _ Hstep) as [(k & id & h & Hfree & _ & -> & Ho)|[-> Ho]]; intros k' h' o.
  - rewrite lookup_insert_Some, Ho. intros [[[= -> ->] ->]|[_ Hin]]; [by rewrite decide_True|].
    apply Hid in Hin. destruct (decide _) as [[= -> ->]|]; [|done].
    by rewrite free_object_hash in Hin.
  - rewrite Ho. apply Hid.
Qed.
Lemma step_known t t' : inv n t → wstep n t t' →
  ∀ k h o, k ≠ ObjectKind.Validation → object_hash t' k o = Some h → identities t' !! (k, h) = Some o.
Proof.
  intros Hinv Hstep. pose proof (iv_known _ _ Hinv) as Hid.
  destruct (step_objects _ _ Hstep) as [(k & id & h & Hfree & Hnew & -> & Ho)|[-> Ho]]; intros k' h' o Hk.
  - rewrite Ho. destruct (decide _) as [[= -> ->]|Hn]; [intros [= ->]; by rewrite lookup_insert_eq|].
    intros Hin%Hid; [|done]. rewrite lookup_insert_ne; [done|]. intros [= -> ->].
    rewrite Hnew in Hin; done.
  - rewrite Ho. by apply Hid.
Qed.
Lemma step_disjoint t t' : inv n t → wstep n t t' →
  ∀ k1 k2 o, is_Some (object_hash t' k1 o) → is_Some (object_hash t' k2 o) → k1 = k2.
Proof.
  intros Hinv Hstep. pose proof (iv_disjoint _ _ Hinv) as Hd.
  destruct (step_objects _ _ Hstep) as [(k & id & h & Hfree & _ & _ & Ho)|[_ Ho]]; intros k1 k2 o;
    rewrite !Ho; [|by apply Hd].
  pose proof (free_object_hash _ _ k1 Hfree). pose proof (free_object_hash _ _ k2 Hfree).
  destruct (decide ((k1, o) = _)) as [E1|], (decide ((k2, o) = _)) as [E2|]; simplify_eq;
    try done; try (by apply Hd); intros [] []; congruence.
Qed.

Lemma step_hashes t t' : inv n t → wstep n t t' →
  (∀ id c, claims t' !! id = Some c → content_hash (content c) = Ok (content_hash_of c))
  ∧ (∀ id v, validations t' !! id = Some v → content_hash (content v) = Ok (content_hash_of v))
  ∧ (∀ id a, artifacts t' !! id = Some a → content_hash (content a) = Ok (content_hash_of a))
  ∧ ∀ id tm, testaments t' !! id = Some tm → content_hash (content tm) = Ok (content_hash_of tm).
Proof.
  intros Hinv. destruct (iv_hashes _ _ Hinv) as (Hc & Hv & Ha & Ht).
  destruct 1; unfold ins; simpl; (split_and!; [try exact Hc|try exact Hv|try exact Ha|try exact Ht]);
    intros id' x; rewrite lookup_insert_Some; intros [[<- <-]|[_ ?]]; simpl; eauto.
Qed.

(** The runs and the contents of the validations a claim's checks look at. *)
Lemma checked_runs t t' id :
  (∀ vid, content <$> validations t' !! vid = content <$> validations t !! vid) →
  (∀ k r, runs t !! k = Some r → ∃ r', runs t' !! k = Some r' ∧ run_id r' = run_id r) →
  (∀ k r', runs t' !! k = Some r' →
     (∃ v, validations t !! vr_validation (run_id r') = Some v ∧ vc_claim (content v) ≠ id)
     ∨ run_final_verdict r' = Some VerdictValue.Pass
     ∨ ∃ r, runs t !! k = Some r ∧ run_id r' = run_id r
            ∧ (r' = r ∨ run_final_verdict r = None)) →
  checked t id → checked t' id.
Proof.
  intros Hv Hgrow Hruns Hch vid v' Hv' Hcl Hmode Hphase.
  assert (∃ v, validations t !! vid = Some v ∧ content v = content v') as (v & Hv0 & Hcv).
  { specialize (Hv vid). rewrite Hv' in Hv. destruct (validations t !! vid); naive_solver. }
  destruct (Hch vid v) as [(k & r & Hr & Hvid) Hpass]; [done|by rewrite Hcv..|]. split.
  - destruct (Hgrow _ _ Hr) as (r' & ? & ?). exists k, r'. split; [done|congruence].
  - intros k' r' Hr' Hid. destruct (Hruns _ _ Hr') as [(v1 & Hv1 & Hne)|[?|(r0 & Hr0 & Hri & Hcase)]]; [|done|].
    + exfalso. apply Hne. rewrite Hid in Hv1. congruence.
    + pose proof (Hpass k' r0 Hr0 ltac:(congruence)) as Hp. destruct Hcase as [-> |?]; [done|congruence].
Qed.
Lemma checked_same t t' id :
  validations t' = validations t → runs t' = runs t → checked t id → checked t' id.
Proof. intros Hv Hr. unfold checked. by rewrite Hv, Hr. Qed.
Lemma checked_complete t id :
  aggregate_of id (entries (validations t)) (entries (runs t)) = Some VerdictValue.Pass → checked t id.
Proof.
  intros (_ & Hall & _)%aggregate_of_Some vid v Hv Hc Hm Hp.
  destruct (Hall vid v) as [Hne Hpass]; [by apply elem_of_entries|done|].
  assert (Hel : ∀ r, r ∈ runs_of vid (entries (runs t)) ↔
    vr_validation (run_id r) = vid ∧ ∃ k, runs t !! k = Some r).
  { intros r. unfold runs_of. rewrite list_elem_of_filter, list_elem_of_fmap. split.
    - intros [? ([k r'] & -> & Hin%elem_of_entries)]. by split; [|exists k].
    - intros [? [k Hk]]. split; [done|]. exists (k, r). by rewrite elem_of_entries. }
  split.
  - destruct (runs_of vid (entries (runs t))) as [|r l] eqn:Hr; [done|].
    destruct (proj1 (Hel r)) as [? [k ?]]; [set_solver|]. by exists k, r.
  - intros k r Hr Hid. destruct (Hpass r) as (x & -> & Hs); [apply Hel; eauto|]. by destruct x.
Qed.
(** A new run, of a validation of a claim that is not complete or a passed one. *)
Lemma checked_new_run t id vid v k r :
  validations t !! vid = Some v → vr_validation k = vid → runs t !! k = None → run_id r = k →
  (vc_claim (content v) ≠ id ∨ run_final_verdict r = Some VerdictValue.Pass) →
  checked t id → checked (ins Validations vid (set_latest_epoch v (vr_epoch k)) (ins Runs k r t)) id.
Proof.
  intros Hv Hk Hr Hrk Hor. apply checked_runs; unfold ins; simpl.
  - intros vid'. destruct (decide (vid' = vid)) as [->|]; [by rewrite lookup_insert_eq, Hv|].
    by rewrite lookup_insert_ne.
  - intros k' r' Hr'. exists r'. rewrite lookup_insert_ne by congruence. done.
  - intros k' r'. rewrite lookup_insert_Some. intros [[<- <-]|[_ Hr']].
    + destruct Hor as [?|?]; [left|by right; left]. exists v. by rewrite Hrk, Hk.
    + right. right. by exists r'; auto.
Qed.
Lemma step_checked t t' : inv n t → wstep n t t' →
  ∀ id c, claims t' !! id = Some c → cl_local_complete (lifecycle c) = true → checked t' id.
Proof.
  intros Hinv. pose proof (iv_checked _ _ Hinv) as Hch.
  destruct 1; try exact Hch;
    try (unfold ins; simpl; intros id' c'; rewrite lookup_insert_Some;
         intros [[<- <-]|[_ ?]] Hl; simpl in Hl; try done;
         (eapply checked_same; [done|done|by eauto])).
  - unfold ins. simpl. intros id' c' Hc' Hl vid v'. simpl. rewrite lookup_insert_Some.
    intros [[<- <-]|[_ Hv]]; simpl; [intros <-; congruence|]. by eapply Hch.
  - unfold ins. simpl. intros id' c'. rewrite lookup_insert_Some.
    intros [[<- <-]|[_ ?]] Hl; [|by eapply checked_same, Hch]. eapply checked_same; [done..|].
    by apply checked_complete.
  - intros id' c' Hc' Hl. eapply checked_new_run; [done..| |by eapply Hch].
    left. intros <-. simpl in Hc'. by erewrite H8 in Hl.
  - intros id' c' Hc' Hl. eapply checked_new_run; [done..|by right|by eapply Hch].
  - intros id' c' Hc' Hl. eapply checked_runs, (Hch _ _ Hc' Hl); unfold ins; simpl; [done|..].
    + intros k' r' Hr'. destruct (decide (k' = k)) as [->|].
      * eexists. rewrite lookup_insert_eq. split; [done|]. simpl. congruence.
      * exists r'. by rewrite lookup_insert_ne.
    + intros k' r'. rewrite lookup_insert_Some. intros [[<- <-]|[_ Hr']]; right; right.
      * exists r. simpl. auto.
      * exists r'. auto.
Qed.

Lemma step_validations_keep t t' : wstep n t t' →
  ∀ vid v, validations t !! vid = Some v → ∃ v', validations t' !! vid = Some v' ∧ content v' = content v.
Proof.
  destruct 1; unfold ins; simpl; intros vid x Hx; try (by exists x).
  - exists x. split; [|done]. rewrite lookup_insert_ne; [done|]. intros <-.
    match goal with H : free _ _ |- _ => destruct H as (_ & _ & Hn & _) end. congruence.
  - destruct (decide (vid = id)) as [->|]; [|exists x; by rewrite lookup_insert_ne].
    eexists. rewrite lookup_insert_eq. split; [done|]. simpl. congruence.
  - destruct (decide (vid = id)) as [->|]; [|exists x; by rewrite lookup_insert_ne].
    eexists. rewrite lookup_insert_eq. split; [done|]. simpl. congruence.
Qed.
Lemma step_required t t' : inv n t → wstep n t t' →
  ∀ id c, claims t' !! id = Some c → cl_local_complete (lifecycle c) = true → required t' id.
Proof.
  intros Hinv Hs. pose proof (step_validations_keep _ _ Hs) as Hkeep.
  assert (Hold : ∀ id, required t id → required t' id).
  { intros id (vid & v & Hv & Hd). destruct (Hkeep vid v Hv) as (v' & Hv' & Hc). exists vid, v'.
    split; [done|]. unfold decides. by rewrite Hc. }
  pose proof (iv_required _ _ Hinv) as Hreq.
  destruct Hs; unfold ins in *; simpl in *; intros id' c';
    try (intros Hc' Hl; apply Hold; eapply Hreq; eassumption);
    rewrite lookup_insert_Some; intros [[<- <-]|[_ ?]] Hl; simpl in Hl; try done;
    try (apply Hold; by eapply Hreq).
  match goal with H : aggregate_of _ _ _ = Some _ |- _ => apply aggregate_of_Some in H as ((vid & v & Hin & Hd) & _) end.
  apply elem_of_entries in Hin. by exists vid, v.
Qed.

Lemma run_inv_new r : run_attempts r = [] → run_final_verdict r = None → run_inv r.
Proof. intros Ha Hf. split; [by rewrite Ha|]. by rewrite Hf. Qed.
Lemma run_inv_receipt r verdict value :
  run_attempts r = [verdict] → ve_attempt verdict = 0%N → ve_value verdict = value →
  run_final_verdict r = Some value → run_inv r.
Proof.
  intros Ha Hn Hv Hf. split; rewrite Ha.
  - by intros [|i] ve [= <-].
  - intros x. rewrite Hf. intros [= <-]. simpl. congruence.
Qed.
Lemma run_inv_verdict r verdict index quality final :
  run_inv r → ve_attempt verdict = N.of_nat (length (run_attempts r)) →
  (final = None ∨ final = Some (ve_value verdict)) →
  run_inv (run_with r index quality (run_attempts r ++ [verdict]) final).
Proof.
  intros [Ha _] Hn Hf. split; simpl.
  - intros i ve. rewrite lookup_app_Some. intros [?|[? Hi]]; [by apply Ha|].
    apply list_lookup_singleton_Some in Hi as [? <-]. rewrite Hn. f_equal. lia.
  - intros value ->. rewrite last_snoc. destruct Hf as [?|[= ->]]; done.
Qed.
(** The validation a run belongs to keeps its content and its epoch grows. *)
Definition run_home t (k : ValidationRunId) (r : ValidationRun) : Prop :=
  ∃ v, validations t !! vr_validation k = Some v ∧ run_claim r = vc_claim (content v)
       ∧ (vr_epoch k <= vl_latest_epoch (lifecycle v))%N.
Lemma run_home_epoch t vid v e rs k r :
  validations t !! vid = Some v → (vl_latest_epoch (lifecycle v) <= e)%N → run_home t k r →
  validations rs = validations t → run_home (ins Validations vid (set_latest_epoch v e) rs) k r.
Proof.
  intros Hv He (v' & Hv' & Hc & Hl) Hrs. unfold run_home, ins. simpl. rewrite Hrs. destruct (decide (vr_validation k = vid)) as [<-|].
  - rewrite lookup_insert_eq. eexists. split; [done|]. simplify_eq. split; [done|]. simpl. lia.
  - rewrite lookup_insert_ne by done. by exists v'.
Qed.
Lemma step_runs t t' : inv n t → wstep n t t' →
  ∀ k r, runs t' !! k = Some r → run_id r = k ∧ run_inv r ∧ run_home t' k r.
Proof.
  intros Hinv. pose proof (iv_runs _ _ Hinv) as Hr.
  assert (Hnew : ∀ vid v k r, validations t !! vid = Some v → vr_validation k = vid →
    runs t !! k = None → run_id r = k → run_claim r = vc_claim (content v) → run_inv r →
    vr_epoch k = (vl_latest_epoch (lifecycle v) + 1)%N →
    let t' := ins Validations vid (set_latest_epoch v (vr_epoch k)) (ins Runs k r t) in
    ∀ k' r', runs t' !! k' = Some r' → run_id r' = k' ∧ run_inv r' ∧ run_home t' k' r').
  { intros vid v k r Hv Hk Hn Hrk Hrc Hri He t1 k' r'. unfold t1, ins at 1. simpl.
    rewrite lookup_insert_Some. intros [[<- <-]|[_ (? & ? & Hhome)%Hr]].
    - split_and!; [done..|]. exists (set_latest_epoch v (vr_epoch k)). unfold ins. simpl.
      rewrite Hk, lookup_insert_eq. split_and!; [done..|lia].
    - split_and!; [done..|]. apply (run_home_epoch t); [done|lia|done..]. }
  destruct 1; try exact Hr;
    try (eapply Hnew; [done..| |done]; by eauto using run_inv_new, run_inv_receipt).
  - unfold ins. simpl. intros k r (? & ? & v' & Hv' & ?)%Hr. split_and!; [done..|].
    exists v'. simpl. rewrite lookup_insert_ne; [done|].
    destruct H0 as (_ & _ & Hnone & _). congruence.
  - unfold ins. simpl. intros k' r'. rewrite lookup_insert_Some. intros [[<- <-]|[_ ?]]; [|by apply Hr].
    destruct (Hr _ _ H0) as (? & ? & ?). split_and!; [done|by apply run_inv_verdict|done].
Qed.
Lemma step_testaments t t' : inv n t → wstep n t t' →
  ∀ id c tid, claims t' !! id = Some c → cl_testament (lifecycle c) = Some tid →
    ∃ tm, testaments t' !! tid = Some tm ∧ tc_claim (content tm) = id.
Proof.
  intros Hinv. pose proof (iv_testaments _ _ Hinv) as Ht.
  destruct 1; try exact Ht; unfold ins; simpl;
    try (intros id' c' tid'; rewrite lookup_insert_Some;
         intros [[<- <-]|[_ ?]]; simpl; try done; by eauto).
  - intros id' c' tid' Hc' Htid. destruct (Ht _ _ _ Hc' Htid) as (tm & Htm & ?).
    exists tm. rewrite lookup_insert_ne; [done|]. destruct H0 as (_ & _ & _ & _ & ?). congruence.
  - intros id' c' tid'. rewrite lookup_insert_Some. intros [[<- <-]|[_ ?]]; simpl; [|by eauto].
    intros [= <-]. by exists tm.
  - intros id' c' tid' Hc' Htid. destruct (Ht _ _ _ Hc' Htid) as (tm' & Htm & Hcl).
    destruct (decide (tid' = id)) as [->|].
    + rewrite lookup_insert_eq. eexists. split; [done|]. simpl. congruence.
    + rewrite lookup_insert_ne by done. by exists tm'.
Qed.
Lemma step_monitors t t' : inv n t → wstep n t t' →
  ∀ id m, monitors t' !! id = Some m → m_id m = id ∧ is_Some (claims t' !! m_owner m).
Proof.
  intros Hinv Hstep. pose proof (iv_monitors _ _ Hinv) as Hm.
  assert (Hgrow : ∀ x, is_Some (claims t !! x) → is_Some (claims t' !! x)).
  { intros x Hx. destruct Hstep; unfold ins; simpl; try done; rewrite lookup_insert_is_Some'; by right. }
  destruct Hstep; try (intros ?? [??]%Hm; by split; [|apply Hgrow]); unfold ins; simpl;
    intros id' x; rewrite lookup_insert_Some; intros [[<- <-]|[_ ?]]; try (by eapply Hm); [done|].
  destruct H1 as (_ & -> & -> & _). by eapply Hm.
Qed.

Lemma window_last w hi :
  (ew_minimum w <= hi)%N → (∀ e, e ∈ ew_admitted w ↔ (ew_minimum w <= e <= hi)%N) →
  last_epoch w = Some hi.
Proof.
  intros Hlo Hel. unfold last_epoch. destruct (last (set_iter (ew_admitted w))) as [l|] eqn:Hl.
  - apply last_set_iter in Hl as [Hin Hmax]. apply Hel in Hin.
    assert (Hhi : hi ∈ ew_admitted w) by (apply Hel; lia). apply Hmax, key_le_N in Hhi. f_equal. lia.
  - apply last_None in Hl. assert (Hin : hi ∈ set_iter (ew_admitted w)).
    { apply elem_of_set_iter, Hel. lia. }
    rewrite Hl in Hin. set_solver.
Qed.
Lemma window_inv_step w w' : (∀ w0, w = Some w0 → window_inv w0) → window_step w w' → window_inv w'.
Proof.
  intros Hw [[e He]|(w0 & m & -> & Hm & Hin & ->)].
  - destruct w as [w|].
    + destruct (Hw w eq_refl) as (hi & Hlo & Hpos & Hel), He as (-> & _ & Hlast).
      rewrite (window_last w hi) in Hlast by done. subst e. exists (hi + 1)%N. simpl.
      split_and!; [lia|done|]. intros e. rewrite elem_of_union, elem_of_singleton, Hel. lia.
    + destruct He as [-> ->]. exists 1%N. simpl. split_and!; [lia|lia|]. intros e.
      rewrite elem_of_singleton. lia.
  - destruct (Hw w0 eq_refl) as (hi & Hlo & Hpos & Hel). exists hi. simpl. apply Hel in Hin.
    split_and!; [lia|lia|]. intros e. rewrite elem_of_filter, Hel. lia.
Qed.
Lemma step_epochs t t' : inv n t → wstep n t t' → ∀ p w, epochs t' !! p = Some w → window_inv w.
Proof.
  intros Hinv. pose proof (iv_epochs _ _ Hinv) as He. destruct 1; try exact He.
  unfold ins. simpl. intros p' w. rewrite lookup_insert_Some. intros [[<- <-]|[_ ?]]; [|by eapply He].
  eapply window_inv_step; [|done]. intros w0. by apply He.
Qed.

Lemma inv_step t t' : inv n t → wstep n t t' → inv n t'.
Proof.
  intros Hinv Hstep. split; eauto using step_claims, step_checked, step_required, step_receipts, step_hashes,
    step_identity, step_known, step_disjoint, step_testaments, step_monitors, step_epochs.
  intros k r Hr. by eapply step_runs.
Qed.
Lemma inv_steps t t' : inv n t → wsteps n t t' → inv n t'.
Proof. intros Hinv. induction 1; eauto using inv_step. Qed.
End inv.
