(* ===== verification/OperationSteps.v ===== *)
(** * Operations are sequences of atomic transitions

    The graph-wide operations of the reducer, run from rows that satisfy the
    invariants, leave rows reached by atomic transitions ([Steps.v]). *)
From stdpp Require Import prelude gmap strings list relations.
From Stdlib Require Import NArith.
From S2P Require Import Prelude Vocabulary Objects Canonical Store StoreLaws Reducer.
From S2P Require Import Graph Validation Propagate Create Commands Hoare Steps Invariants.

(** ** Rules *)
Ltac boolh :=
  repeat match goal with
  | H : _ || _ = false |- _ => apply orb_false_iff in H as [? ?]
  | H : _ && _ = true |- _ => apply andb_true_iff in H as [? ?]
  | H : negb _ = false |- _ => apply negb_false_iff in H
  | H : negb _ = true |- _ => apply negb_true_iff in H
  | H : bool_decide _ = true |- _ => apply bool_decide_eq_true in H
  | H : bool_decide (_ ≠ _) = false |- _ => apply bool_decide_eq_false, dec_stable in H
  | H : bool_decide (_ ∉ _) = false |- _ => apply bool_decide_eq_false, dec_stable in H
  | H : bool_decide _ = false |- _ => apply bool_decide_eq_false in H
  | H : is_zero _ = false |- _ => apply N.eqb_neq in H
  end.
(** One step of symbolic execution over reads and outputs. *)
Ltac wp_step :=
  match goal with
  | |- wp (mbind _ _) _ _ => apply wp_bind
  | |- wp (mret _) _ _ => apply wp_ret
  | |- wp (refuse _ _) _ _ => apply wp_stop
  | |- wp (inform _ _) _ _ => apply wp_stop
  | |- wp (stop _) _ _ => apply wp_stop
  | |- wp (refuse_if _ _ _) _ _ => apply wp_refuse_if; intros ?
  | |- wp (inform_if _ _ _) _ _ => apply wp_inform_if; intros ?
  | |- wp (ok_or _ _ _) _ _ => apply wp_ok_or; intros ? ?
  | |- wp (lift_hash _) _ _ => apply wp_lift_hash; intros ? ?
  | |- wp (tget _ _) _ _ => apply wp_tget
  | |- wp (get_owned _ _) _ _ => apply wp_get_owned
  | |- wp (contains_key _ _) _ _ => apply wp_contains_key
  | |- wp (titer _) _ _ => apply wp_titer
  | |- wp (tlen _) _ _ => apply wp_tlen
  | |- wp (get_claim _) _ _ => apply wp_get_claim; intros ? ?
  | |- wp (allowed _ _) _ _ => apply wp_allowed; intros ? ? ? ?
  | |- wp (emit _ _ _) _ _ => apply wp_emit
  | |- wp (effect _) _ _ => apply wp_effect
  | |- wp (tget_mut _ _) _ _ => apply wp_tget_mut; [apply _|]
  | |- wp (match _ with _ => _ end) _ _ => fail 1
  | |- wp (mfold _ _ _) _ _ => fail 1
  | |- wp (failed_dependency _) _ _ => fail 1
  | |- wp tracked_fixpoint _ _ => fail 1
  | |- wp (monitor_due _) _ _ => fail 1
  | |- wp (free_id _) _ _ => fail 1
  | |- wp (mall free_id _) _ _ => fail 1
  | |- wp (aggregate _) _ _ => fail 1
  | |- wp (collect_ids _ _) _ _ => fail 1
  | |- wp (check_requirements _) _ _ => fail 1
  | |- wp (open_set _ _ _) _ _ => fail 1
  | |- wp (neighbors _) _ _ => fail 1
  | |- wp (push_edges _ _ _) _ _ => fail 1
  | |- wp _ _ _ => apply wp_quiet; [solve [quiet]|intros ?]
  end.
Ltac wps := repeat (wp_step; cbv beta zeta; cbn [sel Claims Validations Artifacts Testaments EvidenceSets
  Runs Monitors Identities Epochs Receipts]).

Section rules.
Context `{External} {n : SessionSeq}.
Implicit Types (t : Rows).

(** The run reaches its rows by transitions. *)
Definition reaches {A} (m : SM A) t (Q : A → Rows → Prop) : Prop :=
  inv n t → wp m t (λ a t', wsteps n t t' ∧ Q a t').

Lemma wp_after {A} (m : SM A) t t1 (Q : A → Rows → Prop) :
  inv n t → wstep n t t1 → (inv n t1 → wp m t1 (λ a t', wsteps n t1 t' ∧ Q a t')) →
  wp m t1 (λ a t', wsteps n t t' ∧ Q a t').
Proof.
  intros Hinv Hs Hm. eapply wp_mono; [apply Hm; by eapply inv_step|].
  intros a t' [? ?]. split; [by eapply rtc_l|done].
Qed.
Lemma done_after {A} (a : A) t t1 (Q : A → Rows → Prop) :
  wstep n t t1 → Q a t1 → wsteps n t t1 ∧ Q a t1.
Proof. intros. split; [by apply rtc_once|done]. Qed.
Lemma done_here {A} (a : A) t (Q : A → Rows → Prop) : Q a t → wsteps n t t ∧ Q a t.
Proof. intros. by split; [apply rtc_refl|]. Qed.
Lemma reaches_bind {A B} (m : SM A) (f : A → SM B) t (P : A → Rows → Prop) Q :
  reaches m t P → (∀ a t1, P a t1 → reaches (f a) t1 Q) → reaches (m ≫= f) t Q.
Proof.
  intros Hm Hf Hinv. apply wp_bind. eapply wp_mono; [by apply Hm|]. intros a t1 [Hs HP].
  eapply wp_mono; [apply Hf; [done|by eapply inv_steps]|]. intros b t' [? ?].
  split; [by etrans|done].
Qed.
Lemma reaches_mono {A} (m : SM A) t (P Q : A → Rows → Prop) :
  reaches m t P → (∀ a t', P a t' → Q a t') → reaches m t Q.
Proof. intros Hm HQ Hinv. eapply wp_mono; [by apply Hm|]. naive_solver. Qed.
(** Call an operation in the middle of a symbolic execution. *)
Lemma wp_call {A} (m : SM A) t (P : A → Rows → Prop) (Φ : A → Rows → Prop) :
  reaches m t P → inv n t → (∀ a t1, wsteps n t t1 → inv n t1 → P a t1 → Φ a t1) → wp m t Φ.
Proof.
  intros Hm Hinv HΦ. eapply wp_mono; [by apply Hm|]. intros a t1 [Hs HP].
  apply HΦ; [done|by eapply inv_steps|done].
Qed.
Lemma wp_trans {A} (m : SM A) t t1 (Q : A → Rows → Prop) :
  wsteps n t t1 → wp m t1 (λ a t', wsteps n t1 t' ∧ Q a t') → wp m t1 (λ a t', wsteps n t t' ∧ Q a t').
Proof. intros Hs Hm. eapply wp_mono; [done|]. intros a t' [? ?]. split; [by etrans|done]. Qed.
Lemma reaches_mfor {A} (l : list A) f t (I : list A → Rows → Prop) :
  I l t → (∀ x l t, I (x :: l) t → reaches (f x) t (λ _, I l)) → reaches (mfor l f) t (λ _, I []).
Proof.
  intros HI Hf. revert t HI. induction l as [|x l IH]; simpl; intros t HI.
  - intros Hinv. apply wp_ret. by apply done_here.
  - eapply reaches_bind; [by apply Hf|]. intros [] t1. apply IH.
Qed.
Lemma reaches_mfold {A S} f (l : list A) (s : S) t (I : list A → S → Rows → Prop) :
  I l s t → (∀ x l s t, I (x :: l) s t → reaches (f s x) t (I l)) → reaches (mfold f l s) t (I []).
Proof.
  intros HI Hf. revert s t HI. induction l as [|x l IH]; simpl; intros s t HI.
  - intros Hinv. apply wp_ret. by apply done_here.
  - eapply reaches_bind; [by apply Hf|]. intros s' t1. apply IH.
Qed.
Lemma reaches_mloop {S A} fuel body (s : S) t (I : S → Rows → Prop) (Q : A → Rows → Prop) :
  I s t →
  (∀ s t, I s t → reaches (body s) t (λ x t', match x with inl s => I s t' | inr a => Q a t' end)) →
  reaches (mloop fuel body s) t Q.
Proof.
  intros HI Hb Hinv.
  apply (wp_mloop _ _ _ _ (λ s t', wsteps n t t' ∧ inv n t' ∧ I s t')); [by split|].
  intros s' t1 (Hs & Hinv' & HI'). eapply wp_mono; [by apply Hb|].
  intros [s2|a] t2 [Hs2 Hx]; split_and!; try done; try (by etrans). by eapply inv_steps.
Qed.
Lemma reaches_quiet {A} (m : SM A) t : quiet m → reaches m t (λ _ t', t' = t).
Proof. intros Hq Hinv. apply wp_quiet; [done|]. intros a. by apply done_here. Qed.
End rules.

Lemma ins_ins {K V} `{TableKey K} (s : Sel K V) `{!SelOk s} k x y t (Hu : ∀ a b, upd s a (upd s b t) = upd s a t) :
  ins s k x (ins s k y t) = ins s k x t.
Proof. unfold ins. by rewrite sel_upd, insert_insert_eq, Hu. Qed.

(** ** Operations *)
Section operations.
Context `{External} {cx : Ctx}.
Notation reaches := (reaches (n:=cx_sequence)).
Implicit Types (t : Rows).

Lemma reaches_set_status id st w t (Q : () → Rows → Prop) :
  (∀ c, claims t !! id = Some c → is_terminal (status_of c) = false →
     moves t c st ∧ ∀ rev, Q tt (ins Claims id (status_row cx_sequence st rev w c) t)) →
  reaches (set_status id st w) t Q.
Proof.
  intros Hm Hinv. apply wp_set_status. intros c rev Hc Ht Hrev. destruct (Hm c Hc Ht) as [Hmv HQ].
  apply done_after; [|apply HQ]. by eapply ws_status.
Qed.

(** *** Validations *)
Lemma fresh_run t vid target k :
  inv cx_sequence t → vr_validation k = vid → vr_target_hash k = target →
  existsb (λ r, bool_decide (vr_validation (run_id r) = vid)
                && bool_decide (vr_target_hash (run_id r) = target)) (entries (runs t)).*2 = false →
  runs t !! k = None.
Proof.
  intros Hinv Hk Ht Hno. destruct (runs t !! k) as [r|] eqn:Hr; [|done]. exfalso.
  destruct (iv_runs _ _ Hinv k r Hr) as [Hid _]. rewrite existsb_false in Hno.
  specialize (Hno r). rewrite Hid, !bool_decide_true in Hno by done.
  by discriminate Hno; apply elem_of_entries_snd; exists k.
Qed.
Lemma reaches_schedule id target manifest t :
  (∀ v c, validations t !! id = Some v → claims t !! vc_claim (content v) = Some c →
     cl_local_complete (lifecycle c) = false) →
  reaches (schedule id target manifest) t (λ _ t', claims t' = claims t
    ∧ ∀ vid, content <$> validations t' !! vid = content <$> validations t !! vid).
Proof.
  intros Hlc Hinv. unfold schedule. wps. rename a into v. boolh.
  match goal with H : checked_add _ _ = Some _ |- _ => apply checked_add_Some in H as [-> _] end.
  apply wp_tinsert. wps. apply wp_tinsert. wps. split; [apply rtc_once|].
  - eapply ws_schedule; simpl; try done; [by eapply fresh_run|]. by intros c; apply Hlc.
  - split; [done|]. intros vid. unfold ins. simpl. destruct (decide (vid = id)) as [->|].
    + by rewrite lookup_insert_eq, H0.
    + by rewrite lookup_insert_ne.
Qed.
Lemma reaches_schedule_phase claim phase target manifest t :
  (∀ c, claims t !! claim = Some c → cl_local_complete (lifecycle c) = false) →
  reaches (schedule_phase claim phase target manifest) t (λ _ t', claims t' = claims t).
Proof.
  intros Hlc Hinv. unfold schedule_phase. wps.
  eapply wp_call; [|done|].
  - apply (reaches_mfor _ _ t (λ ids t', claims t' = claims t ∧ ∀ id v, id ∈ ids →
      validations t' !! id = Some v → vc_claim (content v) = claim)).
    + split; [done|]. intros id v. rewrite list_elem_of_fmap. intros ([id' v'] & -> & Hin).
      apply list_elem_of_filter in Hin as [(<- & _) Hin%elem_of_entries]. simpl in *. intros ?. congruence.
    + intros id ids t1 [Hc Hid]. eapply reaches_bind.
      * apply reaches_schedule. intros v c Hv. rewrite (Hid id v), Hc by (done || set_solver). apply Hlc.
      * intros run t2 [Hc2 Hv2] Hinv2. wps. split; [apply rtc_refl|]. split; [congruence|].
        intros id' v' Hin Hv'. specialize (Hv2 id'). rewrite Hv' in Hv2.
        destruct (validations t1 !! id') as [v1|] eqn:Hv1; [|done]. simpl in Hv2. simplify_eq.
        rewrite Hv2. eapply Hid; [|done]. set_solver.
  - intros [] t1 Hs Hinv1 [? _]. done.
Qed.
(** Validations of [ids] that belong to the claim; kept by every operation
    that keeps their contents. *)
Definition belong (claim : ClaimId) (ids : list ValidationId) t : Prop :=
  ∀ id v, id ∈ ids → validations t !! id = Some v → vc_claim (content v) = claim.
Lemma belong_keep claim x ids t t' :
  belong claim (x :: ids) t →
  (∀ vid, content <$> validations t' !! vid = content <$> validations t !! vid) → belong claim ids t'.
Proof.
  intros Hb Hv id v Hin Hid. specialize (Hv id). rewrite Hid in Hv.
  destruct (validations t !! id) as [v1|] eqn:Hv1; [|done]. simpl in Hv. injection Hv as ->.
  eapply Hb; [|done]. set_solver.
Qed.
Lemma belong_filter claim (P : ValidationId * Validation → Prop) `{∀ x, Decision (P x)} t :
  (∀ row, P row → vc_claim (content row.2) = claim) →
  belong claim (filter P (entries (validations t))).*1 t.
Proof.
  intros HP id v. rewrite list_elem_of_fmap. intros ([id' v'] & -> & Hin).
  apply list_elem_of_filter in Hin as [Hp Hin%elem_of_entries]. simpl in *. intros ?. simplify_eq.
  exact (HP _ Hp).
Qed.
Lemma reaches_receipt_pass claim target manifest id t :
  belong claim [id] t →
  reaches (receipt_pass claim target manifest id) t (λ _ t', claims t' = claims t
    ∧ ∀ vid, content <$> validations t' !! vid = content <$> validations t !! vid).
Proof.
  intros Hb Hinv. unfold receipt_pass. wps. rename a into v.
  destruct (existsb _ _) eqn:Hno; [wps; by split; [apply rtc_refl|]|].
  wps. match goal with H : checked_add _ _ = Some _ |- _ => apply checked_add_Some in H as [-> _] end.
  apply wp_tinsert. wps. apply wp_tinsert. wps. split; [apply rtc_once|].
  - eapply ws_receipt_run; simpl; try done; [|symmetry; eapply Hb; [by left|done]].
    destruct (runs t !! _) eqn:Hr; [|done]. rewrite existsb_false in Hno.
    apply elem_of_dom_2, elem_of_entries_fst, Hno in Hr. simpl in Hr.
    by rewrite !bool_decide_true in Hr.
  - split; [done|]. intros vid. unfold ins. simpl. destruct (decide (vid = id)) as [->|].
    + by rewrite lookup_insert_eq, H0.
    + by rewrite lookup_insert_ne.
Qed.
Lemma reaches_receipt_passes claim target manifest t :
  reaches (receipt_passes claim target manifest) t (λ _ t', claims t' = claims t).
Proof.
  intros Hinv. unfold receipt_passes. wps. eapply wp_call; [|done|].
  - apply (reaches_mfor _ _ t (λ ids t', claims t' = claims t ∧ belong claim ids t')).
    + split; [done|]. apply belong_filter. by intros row [].
    + intros id ids t1 [Hc Hid]. eapply reaches_mono; [apply reaches_receipt_pass|].
      * intros id' v' ->%list_elem_of_singleton. apply Hid. set_solver.
      * intros [] t2 [Hc2 Hv2]. split; [congruence|]. by eapply belong_keep.
  - intros [] t1 Hs Hinv1 [? _]. done.
Qed.

(** *** Verdicts *)
Lemma wp_advance_run v run verdict t (Φ : ValidationRun → Rows → Prop) :
  run_final_verdict run = None →
  (∀ index quality final, final = None ∨ final = Some (ve_value verdict) →
     Φ (run_with run index quality (run_attempts run ++ [verdict]) final) t) →
  wp (advance_run v run verdict) t Φ.
Proof.
  intros Hf HΦ. unfold advance_run. wps. destruct (next_handler _ _ _ _); wps.
  - rewrite Hf. apply HΦ. by left.
  - apply HΦ. by right.
Qed.
Lemma reaches_new_verdict key run v c verdict t :
  runs t !! key = Some run → claims t !! run_claim run = Some c →
  reaches (new_verdict run v c verdict) t (λ _ _, True).
Proof.
  intros Hr Hc Hinv. destruct (iv_runs _ _ Hinv key run Hr) as [Hkey _]. subst key.
  unfold new_verdict. wps. destruct (bool_decide (ve_handler _ ≠ _)); wps. boolh.
  match goal with H : try_u32 _ = Some _ |- _ => unfold try_u32 in H; case_match; [|done]; simplify_eq end.
  assert (Hf : run_final_verdict run = None).
  { destruct (run_final_verdict run); [|done]. exfalso. naive_solver. }
  apply wp_advance_run; [done|]. intros index quality final Hfinal.
  apply wp_bind, wp_tinsert. simpl. eapply (wp_after (n:=cx_sequence)); [done|by eapply ws_verdict|].
  intros Hinv1. wps. destruct (bool_decide (vr_phase _ = _) && _) eqn:Hadm; wps; [|by split; [apply rtc_refl|]].
  destruct a0; wps; [|by split; [apply rtc_refl|]]. destruct a0; wps; [by split; [apply rtc_refl|]|].
  eapply wp_call; [|done|].
  - apply (reaches_set_status _ _ _ _ (λ _ _, True)). simpl. intros c' Hc' Ht.
    rewrite Hc in Hc'. simplify_eq. split; [|done]. apply mv_fail_post. boolh.
    match goal with H : phase_active _ _ || _ = true |- _ => rename H into Hact end.
    rewrite Ht, orb_false_r in Hact.
    match goal with H : vr_phase _ = _ |- _ => rewrite H in Hact end. simpl in Hact. boolh. set_solver.
  - intros [] t1 Hs _ _. by wps.
Qed.
Lemma reaches_record_verdict verdict t : reaches (record_verdict verdict) t (λ _ _, True).
Proof.
  intros Hinv. unfold record_verdict. wps. destruct (list_find _ _) as [[? old]|]; wps.
  - destruct (bool_decide (old = verdict)); wps. by split; [apply rtc_refl|].
  - by eapply reaches_new_verdict.
Qed.

(** *** Cancellation *)
Lemma reaches_cancel_tree root st t : control st = true → reaches (cancel_tree root st) t (λ _ _, True).
Proof.
  intros Hst Hinv. unfold cancel_tree. wps. eapply (reaches_mloop _ _ _ _ (λ _ _, True)); [done| |done].
  intros [queue seen] t1 _ Hinv1. unfold cancel_body.
  destruct queue as [|id queue]; wps; [by split; [apply rtc_refl|]|].
  destruct (bool_decide (id ∈ seen)); wps; [by split; [apply rtc_refl|]|].
  apply wp_quiet; [quiet|]. intros queue'. wps. destruct (is_active _) eqn:Hact; wps; [|by split; [apply rtc_refl|]].
  eapply wp_call; [|done|].
  - apply (reaches_set_status _ _ _ _ (λ _ _, True)). intros c0 Hc0 Ht. split; [|done].
    apply mv_control; [|done]. by case_bool_decide.
  - intros [] t2 Hs _ _. by wps.
Qed.

(** *** Dependency failure *)
Definition failed_claim t (d : ClaimId) : Prop :=
  ∃ cd, claims t !! d = Some cd ∧ is_terminal (status_of cd) = true ∧ status_of cd ≠ ClaimStatus.Satisfied.
Lemma wp_failed_dependency c t :
  wp (failed_dependency c) t (λ x t', t' = t ∧ ∀ key d, x = Some (key, d) →
    d ∈ dependencies (content c) RelationKind.DependsOn ∧ failed_claim t d).
Proof.
  unfold failed_dependency.
  apply (wp_mfold _ _ _ _ (λ l best t', t' = t
    ∧ (∀ d, d ∈ l → d ∈ dependencies (content c) RelationKind.DependsOn)
    ∧ ∀ key d, best = Some (key, d) →
        d ∈ dependencies (content c) RelationKind.DependsOn ∧ failed_claim t d)); [done| |naive_solver].
  intros d l best t' (-> & Hl & Hbest). wps. split; [done|]. split; [set_solver|].
  destruct (claims t !! d) as [cd|] eqn:Hd; [|done]. destruct (is_terminal _ && _) eqn:Hf; [|done].
  boolh. assert (Hgood : d ∈ dependencies (content c) RelationKind.DependsOn ∧ failed_claim t d).
  { split; [set_solver|]. by exists cd. }
  destruct best as [[]|]; [case_match; [|done]|]; by intros ? ? [= _ <-].
Qed.
Definition doomed t (changes : list (ClaimId * ClaimId)) : Prop :=
  ∀ id w c, (id, w) ∈ changes → claims t !! id = Some c →
    ∃ d, d ∈ dependencies (content c) RelationKind.DependsOn ∧ failed_claim t d.
Lemma wp_fail_scan visits t :
  wp (mfold fail_scan (entries (claims t)) (visits, [])) t (λ x t', t' = t ∧ doomed t x.2).
Proof.
  apply (wp_mfold _ _ _ _ (λ l x t', t' = t ∧ (∀ row, row ∈ l → claims t !! row.1 = Some row.2)
    ∧ doomed t x.2)).
  - split_and!; [done| |by intros ??? ?%elem_of_nil]. by intros [id c] ?%elem_of_entries.
  - intros [id c] l [v changes] t' (-> & Hl & Hd). unfold fail_scan. wps. simpl.
    destruct (is_terminal _); wps; [split_and!; [done|set_solver|done]|].
    eapply wp_mono; [apply wp_failed_dependency|]. intros x t' [-> Hx].
    destruct x as [[key w]|]; wps; (split_and!; [done|set_solver|]); [|done]. simpl.
    intros id' w' c' [?|[= -> ->]%list_elem_of_singleton]%elem_of_app Hc'; [by eapply Hd|].
    pose proof (Hl (id, c) ltac:(by left)) as Hc. simpl in Hc. simplify_eq.
    by exists w; apply (Hx key).
  - naive_solver.
Qed.
(** Terminal claims do not change status again, and contents never change. *)
Lemma doomed_status t id st rev w c changes x :
  doomed t (x :: changes) → claims t !! id = Some c → is_terminal (status_of c) = false →
  doomed (ins Claims id (status_row cx_sequence st rev w c) t) changes.
Proof.
  intros Hd Hc Ht id' w' c' Hin. unfold ins. simpl.
  assert (Hfail : ∀ d, failed_claim t d → failed_claim (ins Claims id (status_row cx_sequence st rev w c) t) d).
  { intros d (cd & Hcd & ? & ?). exists cd. unfold ins. simpl. rewrite lookup_insert_ne; [done|congruence]. }
  rewrite lookup_insert_Some. intros [[<- <-]|[_ Hc']].
  - destruct (Hd id w' c) as (d & ? & ?); [set_solver|done|]. exists d. auto.
  - destruct (Hd id' w' c') as (d & ? & ?); [set_solver|done|]. exists d. auto.
Qed.
Lemma reaches_fail_body visits t : reaches (fail_body visits) t (λ _ _, True).
Proof.
  intros Hinv. unfold fail_body. wps. eapply wp_mono; [apply wp_fail_scan|].
  intros [visits' changes] t' [-> Hd]. simpl in Hd.
  assert (Hloop : reaches (mfor changes (λ change,
    set_status change.1 ClaimStatus.DependencyFailed (Some change.2))) t (λ _ _, True)).
  { eapply reaches_mono; [apply (reaches_mfor _ _ _ (λ l t', doomed t' l)); [done|]|done].
    intros [id w] l t1 Hd1. apply reaches_set_status. intros c Hc Ht. split.
    - destruct (Hd1 id w c) as (d & ? & cd & ? & ? & ?); [set_solver|done|]. by eapply mv_dependency.
    - intros rev. by eapply doomed_status. }
  destruct changes as [|x changes]; wps; [by split; [apply rtc_refl|]|].
  eapply wp_call; [exact Hloop|done|]. intros [] t1 Hs _ _. wps. done.
Qed.

(** *** Satisfaction *)
(** The members of a satisfaction set are satisfied or locally complete. *)
Definition ready t (x : gset ClaimId) : Prop :=
  ∀ id c, id ∈ x → claims t !! id = Some c →
    status_of c = ClaimStatus.Satisfied ∨ cl_local_complete (lifecycle c) = true.
Definition stored t (l : list (ClaimId * Claim)) : Prop := ∀ row, row ∈ l → claims t !! row.1 = Some row.2.
Lemma stored_entries t : stored t (entries (claims t)).
Proof. by intros [id c] ?%elem_of_entries. Qed.
Lemma stored_tail t x l : stored t (x :: l) → claims t !! x.1 = Some x.2 ∧ stored t l.
Proof. intros Hs. split; [apply Hs; by left|]. intros row ?. apply Hs. by right. Qed.
Lemma ready_add t x id c :
  ready t x → claims t !! id = Some c →
  (status_of c = ClaimStatus.Satisfied ∨ cl_local_complete (lifecycle c) = true) →
  ready t ({[id]} ∪ x).
Proof.
  intros Hx Hc Hr id' c' [->%elem_of_singleton|?]%elem_of_union Hc'; [|by eapply Hx].
  by simplify_eq.
Qed.
Lemma wp_tracked_fixpoint t :
  wp tracked_fixpoint t (λ x t', t' = t ∧ ready t x).
Proof.
  unfold tracked_fixpoint. wps.
  apply (wp_mfold _ _ _ _ (λ l x t', t' = t ∧ stored t l
    ∧ match x with inl x | inr x => ready t x end)).
  { split_and!; [done|apply stored_entries|by intros ?? []%elem_of_empty]. }
  { intros row l x t' (-> & [Hrow Hl]%stored_tail & Hx). unfold fix_seed.
    destruct x as [x|x]; [|by wps]. destruct (bool_decide _) eqn:Hs; wps; [|done].
    boolh. destruct a; split_and!; try done. eapply ready_add; eauto. }
  intros seed t' (-> & _ & Hseed). destruct seed as [x|x]; [|by wps].
  apply (wp_mloop _ _ _ _ (λ x t', t' = t ∧ ready t x)); [done|].
  intros y t' [-> Hy]. unfold fix_body. wps.
  apply (wp_mfold _ _ _ _ (λ l x t', t' = t ∧ stored t l
    ∧ match x with inl (x, _) | inr x => ready t x end)).
  { split_and!; [done|apply stored_entries|done]. }
  { intros [id c] l z t' (-> & [Hrow Hl]%stored_tail & Hz). unfold fix_pass.
    destruct z as [[z b]|z]; [|by wps]. destruct (_ || _) eqn:Hb; wps; [done|].
    destruct a; wps; [|done]. boolh. destruct a; split_and!; try done. eapply ready_add; eauto. }
  intros z t' (-> & _ & Hz). wps. destruct z as [[z []]|z]; done.
Qed.
Lemma ready_status t x id st rev w c :
  ready t x → claims t !! id = Some c →
  st = ClaimStatus.Satisfied → ready (ins Claims id (status_row cx_sequence st rev w c) t) x.
Proof.
  intros Hx Hc -> id' c' Hin. unfold ins. simpl. rewrite lookup_insert_Some.
  intros [[<- <-]|[_ ?]]; [by left|by eapply Hx].
Qed.
Lemma reaches_satisfy_all (x : gset ClaimId) t :
  ready t x → reaches (mfold satisfy (set_iter x) false) t (λ _ _, True).
Proof.
  intros Hx. eapply reaches_mono; [apply (reaches_mfold _ _ _ _ (λ l _ t',
    ready t' x ∧ ∀ id, id ∈ l → id ∈ x))|done].
  { split; [done|]. by intros id ?%elem_of_set_iter. }
  intros id l changed t1 [Hr Hl] Hinv. unfold satisfy. wps.
  destruct (claims t1 !! id) as [c|] eqn:Hc; [|wps; split; [apply rtc_refl|]; split; [done|set_solver]].
  destruct (bool_decide _) eqn:Hs; [|wps; split; [apply rtc_refl|]; split; [done|set_solver]].
  wps. boolh. eapply wp_call; [|done|].
  - apply (reaches_set_status _ _ _ _ (λ _ t', ready t' x)). intros c' Hc' Ht. simplify_eq. split.
    + apply mv_satisfy; [done|]. destruct (Hr id c) as [?|?]; [set_solver|done..].
    + intros rev. by apply ready_status.
  - intros [] t2 Hs2 _ Hr2. wps. split; [done|]. split; [done|set_solver].
Qed.

(** *** Release *)
Lemma reaches_release_all ids t :
  (∀ id c, id ∈ ids → claims t !! id = Some c → is_terminal (status_of c) = true) →
  reaches (mfor ids release_claim) t (λ _ _, True).
Proof.
  intros Hids. eapply reaches_mono; [apply (reaches_mfor _ _ _ (λ l t',
    ∀ id c, id ∈ l → claims t' !! id = Some c → is_terminal (status_of c) = true)); [done|]|done].
  intros id l t1 Hl Hinv. unfold release_claim. wps. apply wp_tinsert. split; [apply rtc_once|].
  - apply ws_release; [done|]. eapply Hl; [by left|done].
  - intros id' c' Hin. unfold ins. simpl. rewrite lookup_insert_Some.
    intros [[<- <-]|[_ ?]]; [simpl; eapply Hl; [by left|done]|]. eapply Hl; [by right|done].
Qed.
Definition releasing t (due : list (MonitorId * ClaimId)) : Prop :=
  NoDup due.*1 ∧ ∀ id m, id ∈ due.*1 → monitors t !! id = Some m → m_released m = None.
Lemma wp_due t :
  wp (mfold (λ due row, x ← monitor_due row; mret (due ++ option_list x)) (entries (monitors t)) []) t
    (λ due t', t' = t ∧ releasing t due).
Proof.
  apply (wp_mfold _ _ _ _ (λ l due t', t' = t ∧ NoDup (due.*1 ++ l.*1)
    ∧ (∀ row, row ∈ l → monitors t !! row.1 = Some row.2)
    ∧ ∀ id m, id ∈ due.*1 → monitors t !! id = Some m → m_released m = None)).
  - split_and!; [done|apply entries_fst_nodup| |set_solver]. by intros [id m] ?%elem_of_entries.
  - intros [id m] l due t' (-> & Hn & Hl & Hdue).
    assert (Hskip : NoDup (due.*1 ++ l.*1)).
    { eapply sublist_NoDup; [exact Hn|]. simpl. by apply sublist_app; [|apply sublist_cons]. }
    unfold monitor_due. destruct (m_released m) eqn:Hrel.
    { wps. simpl. rewrite app_nil_r. split_and!; [done..|set_solver|done]. }
    wps. destruct (cl_released _); wps; [|destruct a0; wps]; simpl; rewrite ?app_nil_r;
      (split_and!; [done| |set_solver|]); try done;
      try (rewrite fmap_app, <-app_assoc; exact Hn);
      rewrite fmap_app; intros id' m' [? | ->%list_elem_of_singleton]%elem_of_app ?;
      [by eapply Hdue| |by eapply Hdue|];
      pose proof (Hl (id, m) ltac:(by left)) as Hm; simpl in *; congruence.
  - intros due t' (-> & Hn & _ & Hdue). rewrite app_nil_r in Hn. done.
Qed.
Lemma reaches_release_monitors due t :
  releasing t due → reaches (mfor due release_monitor) t (λ _ _, True).
Proof.
  intros Hdue. eapply reaches_mono; [apply (reaches_mfor _ _ _ (λ l t', releasing t' l)); [done|]|done].
  intros [id owner] l t1 [[Hnin Hn]%NoDup_cons Hrel] Hinv. simpl in Hnin. unfold release_monitor. wps.
  rename a into m. assert (m_released m = None) by (by eapply Hrel; [left|]).
  apply wp_tput; [by eexists|]. wps. split; [apply rtc_once|].
  - eapply ws_monitor; [done|]. unfold monitor_step. simpl. split_and!; try done. by right.
  - split; [done|]. intros id' m' Hin. unfold ins. simpl.
    rewrite lookup_insert_ne by (intros ->; done). apply Hrel. by right.
Qed.
Lemma reaches_settle_body visits t : reaches (settle_body visits) t (λ _ _, True).
Proof.
  intros Hinv. unfold settle_body. wps. eapply wp_mono; [apply wp_tracked_fixpoint|].
  intros x t' [-> Hx]. wps. eapply wp_call; [by apply reaches_satisfy_all|done|].
  intros changed t1 Hs1 Hinv1 _. wps. eapply wp_call; [apply reaches_release_all|done|].
  { intros id c. rewrite list_elem_of_fmap. intros ([id' c'] & -> & [Hr Hin%elem_of_entries]%list_elem_of_filter).
    apply Is_true_true in Hr. unfold releasable in Hr. simpl in *. boolh. intros ?. by simplify_eq. }
  intros [] t2 Hs2 Hinv2 _. wps. eapply wp_mono; [apply wp_due|]. intros due t3 [-> Hdue].
  wps. eapply wp_call; [by apply reaches_release_monitors|done|]. intros [] t4 Hs4 _ _.
  wps. split; [|done]. etrans; [done|]. by etrans.
Qed.
Lemma reaches_propagate t : reaches propagate t (λ _ _, True).
Proof.
  intros Hinv. unfold propagate. wps. eapply wp_call; [|done|].
  - apply (reaches_mloop _ _ _ _ (λ _ _, True) (λ _ _, True)); [done|]. intros visits t1 _.
    eapply reaches_mono; [apply reaches_fail_body|]. by intros [].
  - intros visits t1 Hs1 Hinv1 _. apply (wp_trans (n:=cx_sequence) _ t t1); [done|].
    apply (reaches_mloop _ _ _ _ (λ _ _, True)); [done| |done]. intros v t2 _.
    eapply reaches_mono; [apply reaches_settle_body|]. by intros [].
Qed.
End operations.
