(* ===== verification/CreateSteps.v ===== *)
(** * Creation as atomic transitions

    [generate], [create_artifact] and [create_testament] allocate under free
    identifiers, record the identity of what they create, and bind validations
    to the claim they are created with. *)
From stdpp Require Import prelude gmap strings list relations.
From Stdlib Require Import NArith.
From S2P Require Import Prelude Vocabulary Objects Canonical Store StoreLaws Reducer.
From S2P Require Import Graph Validation Propagate Create Commands Hoare Steps Invariants OperationSteps.

Section creation.
Context `{External} {cx : Ctx}.
Notation reaches := (reaches (n:=cx_sequence)).
Implicit Types (t : Rows).

Lemma wp_free_id id t : wp (free_id id) t (λ b t', t' = t ∧ (b = true → free t id)).
Proof.
  unfold free_id, free. destruct (is_zero id) eqn:Hz; wps; [done|]. apply N.eqb_neq in Hz.
  destruct (claims t !! id) eqn:?; simpl; wps; [done|].
  destruct (validations t !! id) eqn:?; simpl; wps; [done|].
  destruct (artifacts t !! id) eqn:?; simpl; wps; [done|].
  destruct (testaments t !! id) eqn:?; simpl; wps; done.
Qed.
Ltac wp_use lem := eapply wp_mono; [apply lem|].

Lemma reaches_create_artifact new t :
  reaches (create_artifact new) t (λ _ t', claims t' = claims t ∧ evidence_sets t' = evidence_sets t).
Proof.
  intros Hinv. unfold create_artifact. wps.
  match goal with |- context [identities t !! ?k] => destruct (identities t !! k) eqn:Hid end;
    wps; [by split; [apply rtc_refl|]|].
  wp_use wp_free_id. intros free_b t' [-> Hfree]. wps. boolh. subst. apply wp_tinsert. wps.
  apply wp_tinsert. wps. split; [apply rtc_once|done]. eapply ws_artifact; eauto.
Qed.
Lemma reaches_create_testament id new t :
  (∀ s, evidence_sets t !! tc_evidence_set new = Some s → es_closed s = false) →
  (∀ c, claims t !! tc_claim new = Some c → status_of c ∈ working) →
  reaches (create_testament id new) t (λ _ t', ∃ c tm, claims t !! tc_claim new = Some c
    ∧ claims t' = <[tc_claim new := evidence_row (tc_evidence_set new) (Some id) c]> (claims t)
    ∧ testaments t' !! id = Some tm ∧ tl_created (lifecycle tm) = cx_sequence).
Proof.
  intros Hset Hwork Hinv. unfold create_testament. wps. wp_use wp_free_id. intros b t' [-> Hfree].
  wps. boolh. subst. apply wp_tinsert. wps. apply wp_tinsert.
  eapply (wp_after (n:=cx_sequence)); [done| |].
  { eapply ws_testament; [auto|done|]. by apply eq_None_not_Some. }
  intros Hinv1. wps. rename a1 into s. apply wp_tput; [by eexists|].
  eapply (wp_after (n:=cx_sequence)); [done| |].
  { eapply ws_set; [done|]. split_and!; [by apply Hset|done..]. }
  intros Hinv2. wps. apply wp_tinsert. wps. split; [apply rtc_once|].
  - eapply (ws_bind_testament _ _ _ _ _ id); [done|by apply Hwork| |].
    + unfold ins. simpl. by rewrite lookup_insert_eq.
    + done.
  - exists c. eexists. split_and!; [done..| |]; unfold ins; simpl; [by rewrite lookup_insert_eq|done].
Qed.

(** ** Batches *)
(** The identifiers a claim, and a batch, allocates. *)
Definition allocates (c : NewClaim) : list ObjectId := nc_id c :: (nv_id <$> nc_validations c).
Definition bound (c : NewClaim) : Prop :=
  ∀ v, v ∈ nc_validations c → vc_claim (nv_content v) = nc_id c.
(** The content hashes of the claims, which no stored claim has. *)
Definition hashed t (new : list NewClaim) (hs : list ContentHash) : Prop :=
  Forall2 (λ c h, content_hash (nc_content c) = Ok h) new hs ∧ NoDup hs
  ∧ ∀ h, h ∈ hs → identities t !! (ObjectKind.Claim, h) = None.

Lemma requirements_bind (vs : list NewValidation) (rqs : list RequirementRef) P :
  length rqs = length vs → NoDup (nv_id <$> vs) → NoDup (rq_id <$> rqs) →
  (∀ r, r ∈ rqs → ∃ i v, list_find (λ v, nv_id v = rq_id r) vs = Some (i, v) ∧ P v) →
  ∀ v, v ∈ vs → P v.
Proof.
  intros Hlen Hnv Hnr Hall v Hv.
  assert (Hsub : ∀ id, id ∈ rq_id <$> rqs → id ∈ nv_id <$> vs).
  { intros id (r & -> & Hr)%list_elem_of_fmap. destruct (Hall r Hr) as (i & v' & (Hi & Hid & _)%list_find_Some & _).
    rewrite <-Hid. apply list_elem_of_fmap_2. by eapply list_elem_of_lookup_2. }
  assert (Hin : nv_id v ∈ rq_id <$> rqs).
  { assert (Hp : rq_id <$> rqs ≡ₚ nv_id <$> vs).
    { apply submseteq_length_Permutation; [by apply NoDup_submseteq|]. rewrite !length_fmap. lia. }
    rewrite Hp. by apply list_elem_of_fmap_2. }
  apply list_elem_of_fmap in Hin as (r & Hid & Hr). destruct (Hall r Hr) as (i & v' & (Hi & Hid' & _)%list_find_Some & HP).
  assert (v' = v) as <-; [|done].
  apply list_elem_of_lookup_1 in Hv as [j Hj].
  assert (i = j) as ->; [|congruence].
  eapply (NoDup_lookup (nv_id <$> vs)); [done|..]; rewrite list_lookup_fmap, ?Hi, ?Hj; simpl; [done|congruence].
Qed.
Lemma wp_check_requirements new t :
  NoDup (nv_id <$> nc_validations new) →
  wp (check_requirements new) t (λ _ t', t' = t ∧ bound new).
Proof.
  intros Hnd. unfold check_requirements. wps. boolh.
  apply (wp_mfold _ _ _ _ (λ l acc t', t' = t ∧ ∃ done_rqs, cc_requirements (nc_content new) = done_rqs ++ l
    ∧ (∀ id, id ∈ acc.2 ↔ id ∈ rq_id <$> done_rqs) ∧ NoDup (rq_id <$> done_rqs)
    ∧ ∀ r, r ∈ done_rqs → ∃ i v, list_find (λ v, nv_id v = rq_id r) (nc_validations new) = Some (i, v)
             ∧ vc_claim (nv_content v) = nc_id new)).
  - split; [done|]. exists []. split_and!; [done|set_solver|constructor|set_solver].
  - intros r l [rr ids] t' (-> & done_rqs & Heq & Hids & Hn & Hdone). unfold check_requirement.
    apply wp_bind, wp_refuse_if. intros Hnew. apply wp_bind, wp_ok_or. intros [i v] Hfind.
    unfold check_specification. simpl. apply wp_bind.
    destruct (_ || _) eqn:Hspec; [apply wp_stop|]. boolh. wps.
    destruct (bool_decide _); wps. split; [done|]. exists (done_rqs ++ [r]).
    rewrite Heq, <-app_assoc, fmap_app. split_and!; [done|set_solver| |].
    + apply NoDup_app. split_and!; [done| |apply NoDup_singleton].
      intros x Hx ->%list_elem_of_singleton. apply Hnew. by apply Hids.
    + intros r' [? | ->%list_elem_of_singleton]%elem_of_app; [by apply Hdone|]. by exists i, v.
  - intros [rr ids] t' (-> & rqs & Heq & _ & Hn & Hall). wps. split; [done|].
    rewrite app_nil_r in Heq. subst rqs.
    exact (requirements_bind _ _ (λ v, vc_claim (nv_content v) = nc_id new)
      ltac:(by apply Nat.eqb_eq) Hnd Hn Hall).
Qed.

Lemma wp_collect_ids batch new t :
  wp (collect_ids batch new) t (λ b t', t' = t ∧ ∃ h, content_hash (nc_content new) = Ok h
    ∧ h ∉ ba_hashes batch ∧ ba_hashes b = {[h]} ∪ ba_hashes batch
    ∧ ba_existing b = ba_existing batch ++ option_list (identities t !! (ObjectKind.Claim, h))
    ∧ NoDup (allocates new) ∧ (∀ id, id ∈ allocates new → id ∉ ba_ids batch)
    ∧ ba_ids b = list_to_set (allocates new) ∪ ba_ids batch).
Proof.
  unfold collect_ids. wps. boolh. rename a into h.
  apply (wp_mfold _ _ _ _ (λ l ids t', t' = t ∧ ∃ done_ids,
    (nv_id <$> nc_validations new) = done_ids ++ (nv_id <$> l)
    ∧ ids = list_to_set (nc_id new :: done_ids) ∪ ba_ids batch ∧ NoDup (nc_id new :: done_ids)
    ∧ ∀ id, id ∈ nc_id new :: done_ids → id ∉ ba_ids batch)).
  - split; [done|]. exists []. split_and!; [done|set_solver|apply NoDup_singleton|set_solver].
  - intros v l ids t' (-> & dn & Heq & -> & Hn & Hd). wps. boolh. split; [done|]. exists (dn ++ [nv_id v]).
    rewrite <-app_assoc. split_and!; [done|set_solver| |set_solver].
    change (nc_id new :: dn ++ [nv_id v]) with ((nc_id new :: dn) ++ [nv_id v]).
    apply NoDup_app. split_and!; [done| |apply NoDup_singleton]. set_solver.
  - intros ids t' (-> & dn & Heq & -> & Hn & Hd). rewrite app_nil_r in Heq. wps. split; [done|].
    exists h. unfold allocates. rewrite Heq. split_and!; done.
Qed.
(** What the checks of a batch have established. *)
Definition batch_ok t (new : list NewClaim) (b : Batch) : Prop :=
  NoDup (new ≫= allocates) ∧ (∀ id, id ∈ ba_ids b ↔ id ∈ new ≫= allocates) ∧ Forall bound new
  ∧ ∃ hs, Forall2 (λ c h, content_hash (nc_content c) = Ok h) new hs ∧ NoDup hs
      ∧ (∀ h, h ∈ ba_hashes b ↔ h ∈ hs)
      ∧ (ba_existing b = [] → ∀ h, h ∈ hs → identities t !! (ObjectKind.Claim, h) = None).
Lemma wp_check_claims new_ids new t :
  wp (mfold (check_claim new_ids) new empty_batch) t (λ b t', t' = t ∧ batch_ok t new b).
Proof.
  apply (wp_mfold _ _ _ _ (λ l b t', t' = t ∧ ∃ dn, new = dn ++ l ∧ batch_ok t dn b)).
  - split; [done|]. exists []. split; [done|]. split_and!; [constructor|set_solver|done|].
    exists []. split_and!; [constructor|constructor|set_solver|set_solver].
  - intros c l b t' (-> & dn & -> & Hn & Hids & Hb & hs & Hh & Hnh & Hhs & Hex). unfold check_claim. wps.
    wp_use wp_collect_ids. intros b' t' (-> & h & Hch & Hfresh & Hhb & Heb & Hna & Hnew & Hib).
    wps. wp_use wp_check_requirements. { by apply NoDup_cons in Hna as [_ ?]. }
    intros [] t' [-> Hbound]. wps. split; [done|]. exists (dn ++ [c]).
    split; [by rewrite <-app_assoc|]. unfold batch_ok. rewrite bind_app. simpl. rewrite app_nil_r.
    split_and!.
    + apply NoDup_app. split_and!; [done| |done]. intros id Hin Hin'. eapply Hnew; [done|]. by apply Hids.
    + intros id. rewrite Hib, elem_of_app. set_solver.
    + by apply Forall_app; split; [|apply Forall_singleton].
    + exists (hs ++ [h]). split_and!.
      * apply Forall2_app; [done|]. by constructor.
      * apply NoDup_app. split_and!; [done| |apply NoDup_singleton].
        intros x Hx ->%list_elem_of_singleton. apply Hfresh. by apply Hhs.
      * intros x. rewrite Hhb. set_solver.
      * rewrite Heb. intros [Hnil Hopt]%app_nil x [Hx|Hx]%elem_of_app; [by apply Hex|].
        apply list_elem_of_singleton in Hx as ->. by destruct (identities t !! _).
  - intros b t' (-> & dn & -> & Hok). by rewrite app_nil_r.
Qed.

(** Other free identifiers stay free, and claim identities are kept. *)
Definition spares t t' (id : ObjectId) : Prop := ∀ id', id' ≠ id → free t id' → free t' id'.
Lemma reaches_insert_validation v t :
  free t (nv_id v) → claims t !! vc_claim (nv_content v) = None →
  reaches (insert_validation v) t (λ _ t', spares t t' (nv_id v)
    ∧ ∀ h, identities t' !! (ObjectKind.Claim, h) = identities t !! (ObjectKind.Claim, h)).
Proof.
  intros Hfree Hc Hinv. unfold insert_validation. wps. apply wp_tinsert. wps. apply wp_tinsert.
  split; [apply rtc_once; by apply ws_validation|]. split.
  - intros id' Hne (? & ? & ? & ? & ?). unfold free, ins. simpl. by rewrite lookup_insert_ne.
  - intros h. unfold ins. simpl. by rewrite lookup_insert_ne.
Qed.
(** The rest of a batch is still to be inserted. *)
Record to_insert t (ids : list ObjectId) (hs : list ContentHash) : Prop := {
  ti_nodup : NoDup ids;
  ti_free : ∀ id, id ∈ ids → free t id;
  ti_hashes : NoDup hs;
  ti_new : ∀ h, h ∈ hs → identities t !! (ObjectKind.Claim, h) = None;
}.
Lemma to_insert_sub t t' x ids ids' hs :
  to_insert t ids hs → NoDup (x :: ids') → (∀ id, id ∈ x :: ids' → id ∈ ids) → spares t t' x →
  (∀ h, identities t' !! (ObjectKind.Claim, h) = identities t !! (ObjectKind.Claim, h)) →
  to_insert t' ids' hs.
Proof.
  intros [Hn Hf Hh Hi] [Hx Hn']%NoDup_cons Hsub Hsp Hid. split; [done| |done|].
  - intros id Hin. apply Hsp; [by intros ->|]. apply Hf, Hsub. by right.
  - intros h ?. rewrite Hid. by apply Hi.
Qed.
Lemma reaches_insert_claim c rest h hs t :
  content_hash (nc_content c) = Ok h → bound c →
  to_insert t (allocates c ++ rest) (h :: hs) →
  reaches (insert_claim c) t (λ _ t', to_insert t' rest hs).
Proof.
  intros Hh Hb Hti Hinv. unfold insert_claim. wps.
  match goal with H : content_hash _ = Ok _ |- _ => rewrite Hh in H; simplify_eq end.
  eapply wp_call; [|done|].
  - apply (reaches_mfor _ _ _ (λ l t', to_insert t' (nc_id c :: (nv_id <$> l) ++ rest) (a :: hs)
      ∧ ∀ v, v ∈ l → vc_claim (nv_content v) = nc_id c)); [done|].
    intros v l t1 [Ht1 Hb1]. eapply reaches_mono; [apply reaches_insert_validation|].
    + eapply ti_free; [done|]. csimpl. set_solver.
    + rewrite (Hb1 v) by (by left). eapply (ti_free _ _ _ Ht1 (nc_id c)). by left.
    + intros [] t2 [Hsp Hid]. split; [|intros v' ?; apply Hb1; by right].
      eapply (to_insert_sub t1 _ (nv_id v)); [done| | |done|done].
      * eapply NoDup_Permutation_proper; [|apply (ti_nodup _ _ _ Ht1)]. csimpl. apply Permutation_swap.
      * csimpl. set_solver.
  - intros [] t1 Hs1 Hinv1 [Ht1 _]. csimpl in Ht1. wps. apply wp_tinsert. wps. apply wp_tinsert. wps.
    assert (Hstep : wstep cx_sequence t1 (ins Identities (ObjectKind.Claim, a) (nc_id c)
      (ins Claims (nc_id c) (StoredObject_new (nc_content c) a (born cx_sequence)) t1))).
    { apply ws_claim; [eapply ti_free; [done|by left]|done|eapply ti_new; [done|by left]]. }
    match goal with |- wp _ ?t2 _ => assert (Hrest : to_insert t2 rest hs) end.
    { destruct Ht1 as [[Hx Hn]%NoDup_cons Hf [Hxh Hnh]%NoDup_cons Hi]. split; [done| |done|].
      - intros id Hin. destruct (Hf id) as (? & ? & ? & ? & ?); [by right|]. unfold free, ins. simpl.
        rewrite lookup_insert_ne by (by intros <-). done.
      - intros h' Hin. unfold ins. simpl. rewrite lookup_insert_ne by (by intros [= <-]). apply Hi. by right. }
    destruct (cc_deadline _); wps; (split; [by eapply rtc_r|done]).
Qed.
Lemma wp_all_free l t :
  wp (mall free_id l) t (λ ok t', t' = t ∧ (ok = true → ∀ id, id ∈ l → free t id)).
Proof.
  induction l as [|id l IH]; simpl; [apply wp_ret; set_solver|].
  apply wp_bind. wp_use wp_free_id. intros [] t' [-> Hf]; [|by apply wp_ret].
  wp_use IH. intros ok t' [-> Hl]. split; [done|]. intros Hok id' [->|?]%elem_of_cons; auto.
Qed.
Lemma reaches_insert_claims new hs t :
  Forall2 (λ c h, content_hash (nc_content c) = Ok h) new hs → Forall bound new →
  to_insert t (new ≫= allocates) hs → reaches (mfor new insert_claim) t (λ _ _, True).
Proof.
  intros Hh Hb Hti. eapply reaches_mono; [apply (reaches_mfor _ _ _ (λ l t', ∃ hs,
    Forall2 (λ c h, content_hash (nc_content c) = Ok h) l hs ∧ Forall bound l
    ∧ to_insert t' (l ≫= allocates) hs)); [by exists hs|]|done].
  intros c l t1 (hs1 & Hh1 & Hb1 & Ht1). apply Forall2_cons_inv_l in Hh1 as (h & hs2 & Hch & Hl & ->).
  apply Forall_cons in Hb1 as [Hbc Hbl]. eapply reaches_mono; [by apply (reaches_insert_claim c (l ≫= allocates) h hs2)|].
  intros [] t2 Ht2. by exists hs2.
Qed.
Lemma reaches_generate new t : reaches (generate new) t (λ _ _, True).
Proof.
  intros Hinv. unfold generate. wps. wp_use wp_check_claims.
  intros b t' (-> & Hn & Hids & Hb & hs & Hh & Hnh & _ & Hex). cbv beta.
  destruct (ba_existing b) as [|e es] eqn:He; cbn [is_nil negb].
  2: { destruct (length (e :: es) =? length new); wps. by split; [apply rtc_refl|]. }
  wps. wp_use wp_all_free. intros ok t' [-> Hfree]. wps. boolh. subst.
  eapply wp_call; [|done|].
  - apply (reaches_insert_claims _ hs); [done|done|]. split; [done| |done|by apply Hex].
    intros id Hin. apply Hfree; [done|]. apply elem_of_set_iter. by apply Hids.
  - intros [] t1 Hs1 _ _. by wps.
Qed.
End creation.
