(* ===== verification/CommandSteps.v ===== *)
(** * Commands are sequences of atomic transitions

    Every command, run from rows that satisfy the invariants, leaves rows
    reached by the atomic transitions of [Steps.v], so every reachable state
    satisfies the invariants. *)
From stdpp Require Import prelude gmap strings list relations.
From Stdlib Require Import NArith.
From S2P Require Import Prelude Vocabulary Objects Canonical Store StoreLaws Reducer.
From S2P Require Import Graph Validation Propagate Create Commands Core Hoare Steps Invariants.
From S2P Require Import OperationSteps CreateSteps.

Ltac here := by split; [apply rtc_refl|].

Create HintDb steps.

Section commands.
Context `{External} {cx : Ctx}.
Notation reaches := (reaches (n:=cx_sequence)).
Implicit Types (t : Rows).

(** A status set where the command has just read the claim. *)
Lemma reaches_status_at id st w t c (Q : () → Rows → Prop) :
  claims t !! id = Some c → moves t c st →
  (∀ rev, Q tt (ins Claims id (status_row cx_sequence st rev w c) t)) →
  reaches (set_status id st w) t Q.
Proof. intros Hc Hm HQ. apply reaches_set_status. intros c' Hc' _. by simplify_eq. Qed.
Lemma not_complete n t id c :
  inv n t → claims t !! id = Some c → is_terminal (status_of c) = false →
  status_of c ≠ ClaimStatus.Validating → cl_local_complete (lifecycle c) = false.
Proof.
  intros Hinv Hc Ht Hv. destruct (cl_local_complete (lifecycle c)) eqn:Hl; [|done].
  destruct (ci_complete _ _ (iv_claims _ _ Hinv _ _ Hc) Hl); congruence.
Qed.

Lemma reaches_negotiate_epoch epoch t : reaches (negotiate_epoch epoch) t (λ _ _, True).
Proof.
  intros Hinv. unfold negotiate_epoch. wps. boolh.
  destruct (bool_decide (epoch ∈ _)) eqn:Hin; [wps; here|].
  apply wp_bind. match goal with |- wp ?m t _ => assert (Hq : wp m t (λ _ t', t' = t
    ∧ match last_epoch (default {| ew_minimum := epoch; ew_admitted := ∅ |} (epochs t !! cx_principal)) with
      | Some l => epoch = (l + 1)%N | None => epoch = 1%N end)) end.
  { destruct (last_epoch _); wps; boolh; [|done].
    match goal with H : checked_add _ _ = Some _ |- _ => by apply checked_add_Some in H as [-> _] end. }
  eapply wp_mono; [exact Hq|]. intros [] t' [-> Hlast]. wps. apply wp_tinsert. wps.
  split; [apply rtc_once|done]. apply ws_epoch. left. exists epoch. boolh.
  destruct (epochs t !! cx_principal) as [w|] eqn:Hw; simpl in *.
  - split_and!; [done| |done]. match goal with H : (_ <? _)%N = false |- _ => by apply N.ltb_ge in H end.
  - unfold last_epoch, set_iter in Hlast. simpl in Hlast. rewrite elements_empty in Hlast.
    simpl in Hlast. subst epoch. split; [done|].
    by rewrite (right_id_L ∅ (∪)).
Qed.
Lemma reaches_advance_epoch_floor minimum t : reaches (advance_epoch_floor minimum) t (λ _ _, True).
Proof.
  intros Hinv. unfold advance_epoch_floor. wps. boolh. apply wp_tput; [by eexists|]. wps.
  split; [apply rtc_once|done]. apply ws_epoch. right. exists a0, minimum.
  split_and!; [done| |done|done]. match goal with H : (_ <? _)%N = false |- _ => by apply N.ltb_ge in H end.
Qed.
Lemma reaches_post_claim id t : reaches (post_claim id) t (λ _ _, True).
Proof.
  intros Hinv. unfold post_claim. wps. apply wp_quiet; [quiet|]. intros denied. wps.
  match goal with H : _ ∈ [_] |- _ => apply list_elem_of_singleton in H; rename H into Hst end.
  eapply wp_call; [|done|].
  - apply (reaches_status_at id _ _ t c (λ _ t', ∀ c, claims t' !! id = Some c →
      cl_local_complete (lifecycle c) = false)); [done|by apply mv_post|].
    intros rev c'. unfold ins. simpl. rewrite lookup_insert_eq. intros [= <-]. simpl.
    eapply not_complete; [done..|congruence].
  - intros [] t1 Hs1 Hinv1 Hl. wps. eapply wp_call; [by apply reaches_schedule_phase|done|].
    intros [] t2 Hs2 _ _. wps. split; [by etrans|done].
Qed.
Lemma receipt_unallocated t receipt : receipt_allocated receipt (entries (claims t)) = false → unallocated t receipt.
Proof.
  unfold receipt_allocated. rewrite existsb_false. intros Hno id c r Hc Hr Heq.
  specialize (Hno c). rewrite Hr in Hno.
  assert (Hin : c ∈ (entries (claims t)).*2) by (apply elem_of_entries_snd; eauto).
  specialize (Hno Hin). by apply bool_decide_eq_false in Hno.
Qed.
Lemma reaches_acquire_receipt id receipt epoch t : reaches (acquire_receipt id receipt epoch) t (λ _ _, True).
Proof.
  intros Hinv. unfold acquire_receipt. wps. boolh. subst epoch.
  match goal with H : _ ∈ [_] |- _ => apply list_elem_of_singleton in H; rename H into Hst end.
  apply wp_tinsert. wps. apply wp_set_status. unfold ins at 1. simpl. rewrite lookup_insert_eq.
  intros c' rev [= <-] _ Hrev. wps.
  split; [|done]. apply rtc_once. unfold ins. simpl. rewrite insert_insert_eq.
  eapply (ws_receive _ _ id c receipt cx_principal rev None); [done..|by apply receipt_unallocated|done|done].
Qed.
Lemma reaches_adopt_receipt id previous receipt new_holder epoch t :
  reaches (adopt_receipt id previous receipt new_holder epoch) t (λ _ _, True).
Proof.
  intros Hinv. unfold adopt_receipt. wps. destruct (bool_decide (r_fence _ ≠ _)) eqn:Hf; wps. boolh.
  rename a0 into old.
  match goal with H : checked_add _ _ = Some _ |- _ => apply checked_add_Some in H as [-> _] end. subst epoch.
  set (r := {| r_fence := _; r_holder := new_holder; r_acquired := _ |}).
  assert (Hadopt : ∀ t', claims t' = claims t → wstep cx_sequence t' (ins Claims id (receipt_row r c) t')).
  { intros t' Hc'. eapply (ws_adopt _ _ id c old r); rewrite ?Hc'; [done..| |].
    - simpl. by rewrite Hf.
    - unfold unallocated. rewrite Hc'. by apply receipt_unallocated. }
  eapply (wp_call (n:=cx_sequence) _ _ (λ _ t', claims t' = claims t)).
  - intros _. destruct (cl_evidence_set (lifecycle c)) as [set_id|]; wps; [|here].
    destruct (evidence_sets t !! set_id) as [s|] eqn:Hs; [|wps; here].
    destruct (es_closed s) eqn:Hcl; [wps; here|]. apply wp_tput; [by eexists|].
    split; [apply rtc_once|done]. eapply ws_set; [done|]. by split_and!.
  - done.
  - intros [] t1 Hs1 Hinv1 Hc1. wps. apply wp_tinsert. wps. split; [|done].
    eapply rtc_r; [done|]. by apply Hadopt.
Qed.
Lemma reaches_record_progress id receipt message t :
  reaches (record_progress id receipt message) t (λ _ _, True).
Proof.
  intros Hinv. unfold record_progress. wps. destruct (bool_decide _) eqn:Hst; wps; [|here]. boolh.
  eapply wp_call; [apply (reaches_status_at _ _ _ _ c (λ _ _, True)); [done|by apply mv_progress|done]|done|].
  intros [] t1 Hs1 _ _. by wps.
Qed.
Lemma reaches_begin_evidence_set id receipt set t :
  reaches (begin_evidence_set id receipt set) t (λ _ _, True).
Proof.
  intros Hinv. unfold begin_evidence_set. wps. boolh. apply wp_tinsert.
  eapply (wp_after (n:=cx_sequence)); [done|apply ws_new_set; by apply eq_None_not_Some|].
  intros Hinv1. wps. apply wp_tinsert. wps. split; [apply rtc_once|done].
  eapply ws_open_set; [done..|]. by apply eq_None_not_Some.
Qed.
Lemma wp_open_set id receipt set_id t (Φ : EvidenceSet → Rows → Prop) :
  (∀ s, evidence_sets t !! set_id = Some s → es_closed s = false → Φ s t) →
  wp (open_set id receipt set_id) t Φ.
Proof. intros HΦ. unfold open_set. wps. boolh. by apply HΦ. Qed.
Lemma reaches_attach_artifact id receipt set_id artifact t :
  reaches (attach_artifact id receipt set_id artifact) t (λ _ _, True).
Proof.
  intros Hinv. unfold attach_artifact. wps. apply wp_open_set. intros s Hs Hcl. wps.
  eapply wp_call; [apply reaches_create_artifact|done|]. intros reference t1 Hs1 Hinv1 [_ Hsets]. wps.
  match goal with H : evidence_sets t1 !! _ = Some ?x |- _ => rewrite Hsets, Hs in H; simplify_eq end.
  destruct (bool_decide (reference ∈ _)); wps; [done|]. apply wp_tput; [simpl; rewrite Hsets; by eexists|]. wps.
  split; [|done]. eapply rtc_r; [done|]. eapply ws_set; [by rewrite Hsets|].
  split_and!; [done..|]. simpl. by apply prefix_app_r.
Qed.
Lemma working_status (c : Claim) : status_of c ∈ working → is_terminal (status_of c) = false.
Proof. intros Hin. destruct (status_of c); try done; set_solver. Qed.
Lemma reaches_close_testament id receipt testament set_id manifest summary confidence outcome t :
  reaches (close_testament id receipt testament set_id manifest summary confidence outcome) t (λ _ _, True).
Proof.
  intros Hinv. unfold close_testament. wps. apply wp_open_set. intros s Hs Hcl. wps.
  eapply wp_call; [apply reaches_create_testament|done|]; simpl.
  - intros s' Hs'. by simplify_eq.
  - intros c' Hc'. by simplify_eq.
  - intros [] t1 Hs1 Hinv1 (c1 & tm & Hc1 & Hcl1 & _). wps. simplify_eq.
    eapply wp_call; [apply (reaches_status_at _ _ _ _ (evidence_row set_id (Some testament) c) (λ _ _, True))|done|].
    + by rewrite Hcl1, lookup_insert_eq.
    + by apply mv_close.
    + done.
    + intros [] t2 Hs2 _ _. wps. split; [by etrans|done].
Qed.
Lemma reaches_acknowledge_testament id testament t :
  reaches (acknowledge_testament id testament) t (λ _ _, True).
Proof.
  intros Hinv. unfold acknowledge_testament. wps. apply wp_tinsert.
  match goal with H : _ ∈ [_] |- _ => apply list_elem_of_singleton in H; rename H into Hst end.
  eapply (wp_after (n:=cx_sequence)); [done|by apply ws_acknowledge|]. intros Hinv1. wps.
  eapply wp_call; [apply (reaches_status_at _ _ _ _ c (λ _ _, True)); [done|by apply mv_acknowledge|done]|done|].
  intros [] t1 Hs1 Hinv2 _. wps. eapply wp_call; [apply reaches_receipt_passes|done|].
  intros [] t2 Hs2 _ _. wps. split; [by etrans|done].
Qed.
Lemma reaches_begin_whole_work id t : reaches (begin_whole_work id) t (λ _ _, True).
Proof.
  intros Hinv. unfold begin_whole_work. wps.
  match goal with H : _ ∈ [_] |- _ => apply list_elem_of_singleton in H; rename H into Hst end.
  eapply wp_call; [|done|].
  - apply (reaches_status_at id _ _ t c (λ _ t', ∀ c, claims t' !! id = Some c →
      cl_local_complete (lifecycle c) = false)); [done|by apply mv_validate|].
    intros rev c'. unfold ins. simpl. rewrite lookup_insert_eq. intros [= <-]. simpl.
    eapply not_complete; [done..|congruence].
  - intros [] t1 Hs1 Hinv1 Hl. wps. eapply wp_call; [by apply reaches_schedule_phase|done|].
    intros [] t2 Hs2 _ _. wps. split; [by etrans|done].
Qed.
Lemma reaches_begin_increment id validation target manifest t :
  reaches (begin_increment id validation target manifest) t (λ _ _, True).
Proof.
  intros Hinv. unfold begin_increment. wps. boolh.
  eapply wp_call; [apply reaches_schedule|done|].
  - intros v' c' Hv' Hc'. simplify_eq. eapply not_complete; [done..|].
    intros Hv. match goal with H : status_of _ ∈ _ |- _ => rewrite Hv in H; set_solver end.
  - intros run t1 Hs1 _ _. by wps.
Qed.

(** *** Verdicts *)
Lemma reaches_fenced_verdict verdict receipt t :
  reaches (fenced_verdict verdict receipt) t (λ _ _, True).
Proof. intros Hinv. unfold fenced_verdict. wps. by apply reaches_record_verdict. Qed.
Lemma wp_aggregate id t (Φ : option VerdictValue → Rows → Prop) :
  Φ (aggregate_of id (entries (validations t)) (entries (runs t))) t → wp (aggregate id) t Φ.
Proof. intros HΦ. unfold aggregate. by wps. Qed.
Lemma reaches_complete_with id value t c :
  claims t !! id = Some c → status_of c = ClaimStatus.Validating →
  cl_local_complete (lifecycle c) = false →
  aggregate_of id (entries (validations t)) (entries (runs t)) = Some value →
  reaches (complete_with id value) t (λ _ _, True).
Proof.
  intros Hc Hst Hl Hagg Hinv. destruct value; simpl.
  - wps. simplify_eq. apply wp_tinsert. wps. split; [apply rtc_once|done]. by apply ws_complete.
  - by apply (reaches_status_at _ _ _ _ c (λ _ _, True)); [|apply mv_verdict|..].
  - by apply (reaches_status_at _ _ _ _ c (λ _ _, True)); [|apply mv_verdict|..].
  - by apply (reaches_status_at _ _ _ _ c (λ _ _, True)); [|apply mv_verdict|..].
Qed.
Lemma reaches_complete_whole_work id t : reaches (complete_whole_work id) t (λ _ _, True).
Proof.
  intros Hinv. unfold complete_whole_work. wps. apply wp_aggregate.
  match goal with H : _ ∈ [_] |- _ => apply list_elem_of_singleton in H; rename H into Hst end.
  destruct (aggregate_of _ _ _) as [value|] eqn:Hagg; wps.
  eapply wp_call; [by eapply reaches_complete_with|done|]. intros [] t1 Hs1 Hinv1 _. wps.
  eapply wp_call; [apply reaches_propagate|done|]. intros [] t2 Hs2 _ _. wps. split; [by etrans|done].
Qed.

(** *** Boundary failures *)
Lemma reaches_fail_boundary statuses st id evidence t :
  (∀ c : Claim, status_of c ∈ statuses → moves t c st) →
  reaches (fail_boundary statuses st id evidence) t (λ _ _, True).
Proof.
  intros Hm Hinv. unfold fail_boundary. wps.
  eapply wp_call; [apply (reaches_status_at _ _ _ _ c (λ _ _, True)); [done|by apply Hm|done]|done|].
  intros [] t1 Hs1 _ _. by wps.
Qed.
Lemma reaches_failure_set id receipt set_id a t :
  reaches (failure_set id receipt set_id a) t (λ _ t', claims t' = claims t
    ∧ ∀ s, evidence_sets t' !! set_id = Some s → es_closed s = false).
Proof.
  intros Hinv. unfold failure_set. wps.
  apply (wp_call (n:=cx_sequence) _ _ (λ _ t', claims t' = claims t
    ∧ ∀ s, evidence_sets t' !! set_id = Some s → es_closed s = false)); [|done|].
  - intros _. destruct (evidence_sets t !! set_id) as [s|] eqn:Hs; wps.
    + boolh. split; [apply rtc_refl|]. split; [done|]. intros s' Hs'. by simplify_eq.
    + apply wp_tinsert. split; [apply rtc_once; by apply ws_new_set|]. split; [done|].
      unfold ins. simpl. intros s'. rewrite lookup_insert_eq. by intros [= <-].
  - intros [] t1 Hs1 Hinv1 [Hc1 Hopen]. wps. rename a0 into s. apply wp_tput; [by eexists|]. wps.
    split; [|split; [done|]].
    + eapply rtc_r; [done|]. eapply ws_set; [done|]. split_and!; [by apply Hopen|done|done|].
      simpl. case_bool_decide; [done|by apply prefix_app_r].
    + unfold ins. simpl. intros s'. rewrite lookup_insert_eq. intros [= <-]. simpl. by apply Hopen.
Qed.
Lemma reaches_fail_testament_generation id testament set_id error summary t :
  reaches (fail_testament_generation id testament set_id error summary) t (λ _ _, True).
Proof.
  intros Hinv. unfold fail_testament_generation. wps.
  eapply wp_call; [apply reaches_create_artifact|done|]. intros aref t1 Hs1 Hinv1 [Hc1 _]. wps.
  eapply wp_call; [apply reaches_failure_set|done|]. intros arts t2 Hs2 Hinv2 [Hc2 Hopen]. wps.
  assert (Hc : claims t2 !! id = Some c) by congruence.
  eapply wp_call; [apply reaches_create_testament|done|]; simpl.
  - done.
  - intros c' Hc'. by simplify_eq.
  - intros [] t3 Hs3 Hinv3 (c3 & tm & Hc3 & Hcl3 & Htm & Hcreated). wps. simplify_eq.
    apply wp_tinsert.
    replace {| tl_created := cx_sequence; tl_acknowledged := Some cx_sequence |}
      with {| tl_created := tl_created (lifecycle tm); tl_acknowledged := Some cx_sequence |}
      by (by rewrite Hcreated).
    refine (wp_trans (n:=cx_sequence) _ t _ (λ _ _, True) _ _).
    { do 2 (etrans; [eassumption|]). eapply rtc_r; [done|]. by apply ws_acknowledge. }
    assert (Hinv4 := inv_step _ _ _ Hinv3 (ws_acknowledge cx_sequence t3 testament _ Htm)).
    wps. eapply wp_call; [apply reaches_receipt_passes|done|]. intros [] t4 Hs4 Hinv5 Hc4. wps.
    eapply wp_call; [apply (reaches_status_at _ _ _ _ (evidence_row set_id (Some testament) c) (λ _ _, True))|done|].
    + rewrite Hc4. simpl. by rewrite Hcl3, lookup_insert_eq.
    + by apply mv_fail_testament.
    + done.
    + intros [] t5 Hs5 _ _. wps. split; [by etrans|done].
Qed.

(** *** Control *)
Lemma reaches_expire_tree id t : reaches (expire_tree id) t (λ _ _, True).
Proof.
  intros Hinv. unfold expire_tree. wps. destruct a; wps; by apply reaches_cancel_tree.
Qed.
Lemma reaches_cancel_claim id reason t : reaches (cancel_claim id reason) t (λ _ _, True).
Proof.
  intros Hinv. unfold cancel_claim. wps. eapply wp_call; [by apply reaches_cancel_tree|done|].
  intros [] t1 Hs1 _ _. by wps.
Qed.
Lemma reaches_revoke_claim id reason t : reaches (revoke_claim id reason) t (λ _ _, True).
Proof.
  intros Hinv. unfold revoke_claim. wps. eapply wp_call; [by apply reaches_cancel_tree|done|].
  intros [] t1 Hs1 _ _. by wps.
Qed.
Lemma reaches_expire_claim id timer generation fired_at t :
  reaches (expire_claim id timer generation fired_at) t (λ _ _, True).
Proof.
  intros Hinv. unfold expire_claim. wps. destruct (is_terminal _); [wps; here|].
  destruct (cc_deadline _) as [d|]; [|wps; here].
  destruct (bool_decide (dl_timer d ≠ timer) || _); [wps; here|]. wps.
  eapply wp_call; [by apply reaches_expire_tree|done|]. intros [] t1 Hs1 _ _. by wps.
Qed.
Lemma reaches_supersede_claim predecessor successor t :
  reaches (supersede_claim predecessor successor) t (λ _ _, True).
Proof.
  intros Hinv. unfold supersede_claim. wps. eapply wp_call; [by apply reaches_generate|done|].
  intros res t1 Hs1 Hinv1 _. wps. destruct (is_active _); [|by wps].
  eapply wp_call; [by apply reaches_cancel_tree|done|].
  intros [] t2 Hs2 _ _. wps. split; [by etrans|done].
Qed.

(** *** Monitors and scopes *)
Lemma reaches_register_monitor monitor owner roots deadline t :
  reaches (register_monitor monitor owner roots deadline) t (λ _ _, True).
Proof.
  intros Hinv. unfold register_monitor, active. wps. boolh. apply wp_tinsert. wps.
  split; [apply rtc_once|done]. apply ws_new_monitor; [by apply eq_None_not_Some|done|done|by eexists].
Qed.
Lemma reaches_rebind_monitor monitor predecessor successor t :
  reaches (rebind_monitor monitor predecessor successor) t (λ _ _, True).
Proof.
  intros Hinv. unfold rebind_monitor. wps. boolh. apply wp_tput; [by eexists|]. wps.
  split; [apply rtc_once|done]. eapply ws_monitor; [done|].
  match goal with H : ¬ is_Some _ |- _ => apply eq_None_not_Some in H end.
  split_and!; [done..|by left].
Qed.
Lemma reaches_release_scope id t : reaches (release_scope id) t (λ _ _, True).
Proof.
  intros Hinv. unfold release_scope. wps. boolh. apply wp_tinsert. wps.
  split; [apply rtc_once|done]. by apply ws_release.
Qed.
Lemma reaches_register_artifact artifact t : reaches (register_artifact artifact) t (λ _ _, True).
Proof.
  intros Hinv. unfold register_artifact. wps. eapply wp_call; [apply reaches_create_artifact|done|].
  intros aref t1 Hs1 _ _. by wps.
Qed.
Lemma reaches_expire_monitor monitor timer generation fired_at t :
  reaches (expire_monitor monitor timer generation fired_at) t (λ _ _, True).
Proof.
  intros Hinv. unfold expire_monitor. wps. destruct (bool_decide (is_Some _) || _ || _); [wps; here|]. wps.
  eapply wp_call; [by apply reaches_expire_tree|done|]. intros [] t1 Hs1 _ _. by wps.
Qed.

(** ** Dispatch *)
Hint Resolve reaches_negotiate_epoch reaches_advance_epoch_floor reaches_generate reaches_post_claim
  reaches_acquire_receipt reaches_adopt_receipt reaches_record_progress reaches_begin_evidence_set
  reaches_attach_artifact reaches_close_testament reaches_acknowledge_testament
  reaches_begin_whole_work reaches_begin_increment reaches_record_verdict reaches_complete_whole_work
  reaches_fail_testament_generation reaches_cancel_claim reaches_revoke_claim reaches_expire_claim
  reaches_supersede_claim reaches_register_monitor reaches_rebind_monitor reaches_release_scope
  reaches_register_artifact reaches_expire_monitor reaches_fenced_verdict : steps.
Lemma reaches_command c t : reaches (command c) t (λ _ _, True).
Proof.
  destruct c; simpl; try solve [eauto with steps].
  - apply reaches_fail_boundary. intros c' Hc. by apply mv_fail_post.
  - apply reaches_fail_boundary. intros c' Hc%list_elem_of_singleton. by apply mv_fail_receipt.
Qed.
Lemma reaches_execute_domain c t : reaches (execute_domain c) t (λ _ _, True).
Proof.
  intros Hinv. unfold execute_domain. wps. eapply wp_call; [apply reaches_command|done|].
  intros res t1 Hs1 Hinv1 _. wps. eapply wp_call; [apply reaches_propagate|done|].
  intros [] t2 Hs2 _ _. wps. split; [by etrans|done].
Qed.
End commands.
