(* ===== verification/Evolution.v ===== *)
(** * How rows evolve

    What a sequence of atomic transitions keeps of the rows it started from:
    contents never change, histories and attempts only grow, terminal claims,
    final verdicts, closed evidence sets and released monitors are frozen. *)
From stdpp Require Import prelude gmap strings list relations.
From Stdlib Require Import NArith.
From S2P Require Import Prelude Vocabulary Objects Canonical Store StoreLaws Reducer Graph Validation Propagate Create Commands Core Simulation Hoare Refinement Pending Steps Invariants OperationSteps CommandSteps.

(** ** One row *)
(** A receipt is replaced only by one of a later epoch. *)
Definition receipt_le (r r' : Receipt) : Prop :=
  r = r' ∨ (f_epoch (r_fence r) < f_epoch (r_fence r'))%N.
Record claim_le (c c' : Claim) : Prop := {
  cle_content : content c' = content c;
  cle_hash : content_hash_of c' = content_hash_of c;
  cle_created : cl_created (lifecycle c') = cl_created (lifecycle c);
  cle_history : cl_history (lifecycle c) `prefix_of` cl_history (lifecycle c');
  cle_terminal : is_terminal (status_of c) = true →
    status_of c' = status_of c ∧ cl_history (lifecycle c') = cl_history (lifecycle c)
    ∧ cl_receipt (lifecycle c') = cl_receipt (lifecycle c)
    ∧ cl_testament (lifecycle c') = cl_testament (lifecycle c)
    ∧ cl_local_complete (lifecycle c') = cl_local_complete (lifecycle c);
  cle_receipt : ∀ r, cl_receipt (lifecycle c) = Some r →
    ∃ r', cl_receipt (lifecycle c') = Some r' ∧ receipt_le r r';
  cle_complete : cl_local_complete (lifecycle c) = true → cl_local_complete (lifecycle c') = true;
  cle_released : cl_released (lifecycle c) = true → cl_released (lifecycle c') = true;
}.
Definition validation_le (v v' : Validation) : Prop :=
  content v' = content v ∧ content_hash_of v' = content_hash_of v
  ∧ (vl_latest_epoch (lifecycle v) <= vl_latest_epoch (lifecycle v'))%N.
Definition testament_le (x x' : Testament) : Prop :=
  content x' = content x ∧ content_hash_of x' = content_hash_of x
  ∧ tl_created (lifecycle x') = tl_created (lifecycle x).
Definition run_le (r r' : ValidationRun) : Prop :=
  run_id r' = run_id r ∧ run_claim r' = run_claim r
  ∧ run_attempts r `prefix_of` run_attempts r'
  ∧ (is_Some (run_final_verdict r) → r' = r).
Definition set_le (s s' : EvidenceSet) : Prop :=
  es_id s' = es_id s ∧ es_claim s' = es_claim s ∧ es_artifacts s `prefix_of` es_artifacts s'
  ∧ (es_closed s = true → s' = s).
Definition monitor_le (m m' : Monitor) : Prop :=
  m_id m' = m_id m ∧ m_owner m' = m_owner m ∧ m_deadline m' = m_deadline m
  ∧ (is_Some (m_released m) → m' = m).
Definition window_le (w w' : EpochWindow) : Prop := (ew_minimum w <= ew_minimum w')%N.

#[export] Instance receipt_le_preorder : PreOrder receipt_le.
Proof.
  split; [by left|]. intros a b c [->|?] [->|?]; [by left|by right|by right|right; lia].
Qed.
#[export] Instance claim_le_preorder : PreOrder claim_le.
Proof.
  split.
  - intros c. split; auto. intros r Hr. exists r. split; [done|by left].
  - intros a b c [A1 A2 A3 A4 A5 A6 A7 A8] [B1 B2 B3 B4 B5 B6 B7 B8].
    split; try congruence; auto.
    + by etrans.
    + intros Ht. destruct (A5 Ht) as (HS & HH & HR & HT & HL). rewrite <-HS in Ht.
      destruct (B5 Ht) as (? & ? & ? & ? & ?). split_and!; congruence.
    + intros r (r1 & Hr1 & Hle1)%A6. destruct (B6 r1 Hr1) as (r2 & Hr2 & Hle2).
      exists r2. split; [done|by etrans].
Qed.
#[export] Instance validation_le_preorder : PreOrder validation_le.
Proof.
  split; [by intros v|]. intros a b c (?&?&?) (?&?&?). split_and!; try congruence. lia.
Qed.
#[export] Instance testament_le_preorder : PreOrder testament_le.
Proof. split; [by intros v|]. intros a b c (?&?&?) (?&?&?). split_and!; congruence. Qed.
#[export] Instance run_le_preorder : PreOrder run_le.
Proof.
  split; [by intros r|]. intros a b c (?&?&?&Ha) (?&?&?&Hb). split_and!; try congruence; [by etrans|].
  intros Hf. specialize (Ha Hf). subst. by apply Hb.
Qed.
#[export] Instance set_le_preorder : PreOrder set_le.
Proof.
  split; [by intros s|]. intros a b c (?&?&?&Ha) (?&?&?&Hb). split_and!; try congruence; [by etrans|].
  intros Hf. specialize (Ha Hf). subst. by apply Hb.
Qed.
#[export] Instance monitor_le_preorder : PreOrder monitor_le.
Proof.
  split; [by intros m|]. intros a b c (?&?&?&Ha) (?&?&?&Hb). split_and!; try congruence.
  intros Hf. specialize (Ha Hf). subst. by apply Hb.
Qed.
#[export] Instance window_le_preorder : PreOrder window_le.
Proof. split; unfold window_le; [by intros w|]. intros a b c ? ?. lia. Qed.

(** ** One table *)
(** Every row is kept, up to [R]. *)
Definition table_le {K V} `{Countable K} (R : V → V → Prop) (m m' : gmap K V) : Prop :=
  ∀ k x, m !! k = Some x → ∃ x', m' !! k = Some x' ∧ R x x'.
#[export] Instance table_le_preorder {K V} `{Countable K} (R : V → V → Prop) `{!PreOrder R} :
  PreOrder (table_le (K:=K) R).
Proof.
  split; [intros m k x Hx; by exists x|]. intros a b c Hab Hbc k x (y & Hy & Hxy)%Hab.
  destruct (Hbc k y Hy) as (z & Hz & Hyz). exists z. split; [done|by etrans].
Qed.
Lemma table_le_new {K V} `{Countable K} (R : V → V → Prop) `{!PreOrder R} (m : gmap K V) k x :
  m !! k = None → table_le R m (<[k:=x]> m).
Proof. intros Hk k' y Hy. exists y. split; [|done]. rewrite lookup_insert_ne; [done|]. congruence. Qed.
Lemma table_le_update {K V} `{Countable K} (R : V → V → Prop) `{!PreOrder R} (m : gmap K V) k x x' :
  m !! k = Some x → R x x' → table_le R m (<[k:=x']> m).
Proof.
  intros Hk Hx k' y Hy. destruct (decide (k' = k)) as [->|].
  - exists x'. rewrite lookup_insert_eq. split; [done|]. congruence.
  - exists y. by rewrite lookup_insert_ne.
Qed.

(** ** All tables *)
Record rows_le (t t' : Rows) : Prop := {
  le_claims : table_le claim_le (claims t) (claims t');
  le_validations : table_le validation_le (validations t) (validations t');
  le_artifacts : table_le eq (artifacts t) (artifacts t');
  le_testaments : table_le testament_le (testaments t) (testaments t');
  le_sets : table_le set_le (evidence_sets t) (evidence_sets t');
  le_runs : table_le run_le (runs t) (runs t');
  le_monitors : table_le monitor_le (monitors t) (monitors t');
  le_epochs : table_le window_le (epochs t) (epochs t');
}.
#[export] Instance rows_le_preorder : PreOrder rows_le.
Proof.
  split; [by intros t; split|]. intros a b c [] []. by split; etrans.
Qed.

Section steps.
Context `{External} (n : SessionSeq).

(** Updates of one claim row. *)
Lemma claim_le_status c st rev w :
  is_terminal (status_of c) = false → claim_le c (status_row n st rev w c).
Proof.
  intros Ht. split; simpl; try done; [by apply prefix_app_r|congruence|].
  intros r Hr. exists r. split; [done|by left].
Qed.
Lemma claim_le_receipt c r :
  is_terminal (status_of c) = false →
  (∀ old, cl_receipt (lifecycle c) = Some old → (f_epoch (r_fence old) < f_epoch (r_fence r))%N) →
  claim_le c (receipt_row r c).
Proof.
  intros Ht Hr. split; simpl; try done; [congruence|]. intros old Hold. exists r. split; [done|right; auto].
Qed.
Lemma claim_le_evidence c set tid :
  is_terminal (status_of c) = false → claim_le c (evidence_row set tid c).
Proof.
  intros Ht. split; simpl; try done; [congruence|]. intros r Hr. exists r. split; [done|by left].
Qed.
Lemma claim_le_complete c : is_terminal (status_of c) = false → claim_le c (complete_row c).
Proof.
  intros Ht. split; simpl; try done; [congruence|]. intros r Hr. exists r. split; [done|by left].
Qed.
Lemma claim_le_released c : claim_le c (released_row c).
Proof. split; simpl; try done. intros r Hr. exists r. split; [done|by left]. Qed.
Lemma moves_active t c st : moves t c st → is_terminal (status_of c) = false.
Proof.
  destruct 1 as [H1|H1|H1|H1|H1|H1|H1|H1|H1|? ? H1|? ? H1|? ? H1]; rewrite ?H1; try done;
    destruct (status_of c); try done; set_solver.
Qed.
Lemma listed_active (c : Claim) l : status_of c ∈ l → l ⊆ holding → is_terminal (status_of c) = false.
Proof. intros Hin Hsub. apply Hsub in Hin. destruct (status_of c); try done; set_solver. Qed.

Lemma step_claim_table t t' : inv n t → wstep n t t' → table_le claim_le (claims t) (claims t').
Proof.
  intros Hinv. destruct 1 as [| id c h Hfree | | | id c st rev w Hc Hm Hrev | id c receipt holder rev w Hc Hst Hu Hsub Hrev
    | id c old r Hc Hst Hold He Hu | id c set Hc Hst | id c set tid tm Hc Hst | id c Hc Hst | id c Hc Hst
    | | | | | | | | |]; unfold ins; simpl; try reflexivity.
  - apply table_le_new; [apply _|]. apply Hfree.
  - eapply table_le_update; [apply _|done|]. apply claim_le_status. by eapply moves_active.
  - eapply table_le_update; [apply _|done|]. etrans; [|apply claim_le_status; simpl; by rewrite Hst].
    apply claim_le_receipt; [by rewrite Hst|]. intros old Hold.
    rewrite (ci_unreceived _ _ (iv_claims _ _ Hinv _ _ Hc)) in Hold; [done|]. by rewrite Hst.
  - eapply table_le_update; [apply _|done|]. apply claim_le_receipt; [by eapply listed_active|].
    intros old' Hold'. simplify_eq. lia.
  - eapply table_le_update; [apply _|done|]. apply claim_le_evidence. eapply listed_active; [done|set_solver].
  - eapply table_le_update; [apply _|done|]. apply claim_le_evidence. eapply listed_active; [done|set_solver].
  - eapply table_le_update; [apply _|done|]. apply claim_le_complete. by rewrite Hst.
  - eapply table_le_update; [apply _|done|]. apply claim_le_released.
Qed.
Lemma window_step_le w w' : window_step (Some w) w' → window_le w w'.
Proof.
  unfold window_le. intros [(e & -> & _)|(w0 & m & [= <-] & Hm & _ & ->)]; simpl; [lia|done].
Qed.
Lemma step_evolves t t' : inv n t → wstep n t t' → rows_le t t'.
Proof.
  intros Hinv Hs. pose proof (step_claim_table _ _ Hinv Hs) as Hclaims.
  destruct Hs; unfold ins in *; simpl in *; split; simpl; try reflexivity; try exact Hclaims.
  all: try (apply table_le_new; [apply _|]; by first [eassumption|apply H0]).
  all: try (eapply table_le_update; [apply _|eassumption|]).
  - split_and!; simpl; [done..|lia].
  - split_and!; simpl; [done..|lia].
  - split_and!; simpl; try done; [by apply prefix_app_r|]. intros [? Hf]. congruence.
  - done.
  - match goal with H : set_step _ _ |- _ => destruct H as (? & ? & ? & ?) end.
    split_and!; try done. congruence.
  - match goal with H : monitor_step _ _ _ |- _ => destruct H as (Hr & ? & ? & ? & _) end.
    split_and!; try done. rewrite Hr. by intros [].
  - destruct (epochs t !! p) as [w|] eqn:Hw.
    + eapply table_le_update; [apply _|done|]. by apply window_step_le.
    + by apply table_le_new; [apply _|].
Qed.
Lemma steps_evolve t t' : inv n t → wsteps n t t' → rows_le t t'.
Proof.
  intros Hinv. induction 1 as [|t t1 t' Hs _ IH]; [reflexivity|].
  etrans; [by apply step_evolves|]. apply IH. by eapply inv_step.
Qed.
End steps.

(** ** Reachable ledgers

    The cores reached from a new one by applied entries, the transitions each
    entry makes, and that the invariants hold in all of them. *)
Notation rows_of c := (st_rows (co_state c)).

Section reachable.
Context `{External}.

(** [entry c c']: one committed entry. The tables of the run hold fewer than
    2^64 rows, which the counters of the row overlay rely on. *)
Definition entry (c c' : Core) : Prop :=
  ∃ seq p result, fits (rd_rows (serial_run c seq p).2) ∧ apply c seq p = (Ok result, c').
Definition evolves : Core → Core → Prop := rtc entry.
Definition ledger (c : Core) : Prop := ∃ id limits, evolves (core_new id limits) c.

Lemma apply_guard_ok c seq p :
  apply_guard c seq p = Ok tt →
  seq = (sequence_of c + 1)%N ∧ (seq <= u64_max)%N ∧ p_base p = sequence_of c
  ∧ p_schema p = SCHEMA ∧ in_ledger (p_input p) = st_ledger (co_state c)
  ∧ command_hash (p_input p) = Ok (p_command_hash p).
Proof.
  unfold apply_guard, from_schema. destruct (N.eqb_spec (p_schema p) SCHEMA); [|done].
  destruct (checked_add (sequence_of c) 1) as [expected|] eqn:Hs; [|done].
  apply checked_add_Some in Hs as [-> Hs].
  case_bool_decide as H1; [done|]. case_bool_decide as H2; [done|]. case_bool_decide as H3; [done|].
  destruct (command_hash _) as [h|]; [|done]. case_bool_decide as H4; [done|].
  intros _. split_and!; congruence.
Qed.

(** A failed entry changes nothing. *)
Lemma apply_err c seq p e c' : apply c seq p = (Err e, c') → c' = c.
Proof.
  unfold apply, apply_recorded. destruct (apply_guard c seq p); [|by intros [= _ <-]].
  destruct (apply_body _ _ _ _ _) as [[receipt|e'] r]; [done|by intros [= _ <-]].
Qed.

(** The transitions of one entry, and the receipt it records. *)
Lemma serial_steps c seq p result c' :
  inv (sequence_of c) (rows_of c) → apply_serial c seq p = (Ok result, c') →
  ∃ t1, wsteps seq (rows_of c) t1 ∧ inv seq t1
    ∧ c' = with_rows c seq (ins Receipts (request_key (p_input p)) (ap_receipt result) t1)
    ∧ seq = (sequence_of c + 1)%N ∧ mr_sequence (ap_receipt result) = seq
    ∧ mr_key (ap_receipt result) = request_key (p_input p)
    ∧ mr_command_hash (ap_receipt result) = p_command_hash p.
Proof.
  intros Hinv. rewrite apply_serial_run. destruct (apply_guard c seq p) as [[]|] eqn:Hg; [|done].
  apply apply_guard_ok in Hg as (-> & Hmax & _).
  destruct (serial_run c _ p) as [[receipt|e] r] eqn:Hrun; [|done]. intros [= <- <-].
  assert (Hinv' : inv (sequence_of c + 1) (rows_of c)) by (eapply inv_mono; [|done]; lia).
  unfold serial_run, apply_body in Hrun.
  apply bind_ok in Hrun as (outcome & q1 & Hexec & Hrun).
  pose proof (wp_run _ (start (rows_of c) recorder_disabled) _ _ _ (reaches_execute_domain (cx:=input_ctx (st_ledger (co_state c)) (co_limits c)
    (p_input p) (sequence_of c + 1)) (in_command (p_input p)) (rows_of c) Hinv') eq_refl Hexec) as (Hrec & Hs & _).
  apply bind_ok in Hrun as ([] & q2 & Hins & [= <- <-]).
  exists (rd_rows q1). pose proof (wp_run _ q1 _ _ _ (wp_tinsert Receipts (request_key (p_input p)) _ (rd_rows q1)
    (λ _ t', t' = ins Receipts (request_key (p_input p)) (mutation_receipt (st_ledger (co_state c)) (p_input p)
       (sequence_of c + 1) (p_command_hash p) outcome) (rd_rows q1)) eq_refl) Hrec Hins) as [_ Hrows].
  simpl in Hs. split_and!; [done|by eapply inv_steps| |done..]. by rewrite Hrows.
Qed.
Lemma inv_receipt n k r t : inv n t → inv n (ins Receipts k r t).
Proof. intros []. by split. Qed.
Lemma rows_le_receipt k r t : rows_le t (ins Receipts k r t).
Proof. by split. Qed.
Lemma entry_steps c c' :
  inv (sequence_of c) (rows_of c) → entry c c' →
  ∃ p result t1, let seq := (sequence_of c + 1)%N in
    wsteps seq (rows_of c) t1 ∧ inv seq t1 ∧ sequence_of c' = seq
    ∧ rows_of c' = ins Receipts (request_key (p_input p)) (ap_receipt result) t1
    ∧ apply c seq p = (Ok result, c').
Proof.
  intros Hinv (seq & p & result & Hfit & Happly). pose proof Happly as Hserial.
  rewrite apply_eq_serial in Hserial by done.
  apply serial_steps in Hserial as (t1 & Hs & Hinv1 & -> & -> & _); [|done]. by exists p, result, t1.
Qed.
Lemma entry_inv c c' : inv (sequence_of c) (rows_of c) → entry c c' → inv (sequence_of c') (rows_of c').
Proof.
  intros Hinv (p & result & t1 & Hs & Hinv1 & -> & -> & _)%entry_steps; [|done]. by apply inv_receipt.
Qed.
Lemma evolves_inv c c' : inv (sequence_of c) (rows_of c) → evolves c c' → inv (sequence_of c') (rows_of c').
Proof. intros Hinv. induction 1 as [|c c1 c' He _ IH]; [done|]. apply IH. by eapply entry_inv. Qed.
Lemma ledger_inv c : ledger c → inv (sequence_of c) (rows_of c).
Proof. intros (id & limits & He). eapply evolves_inv; [|done]. apply inv_empty. Qed.
Lemma entry_le c c' : inv (sequence_of c) (rows_of c) → entry c c' → rows_le (rows_of c) (rows_of c').
Proof.
  intros Hinv (p & result & t1 & Hs & Hinv1 & _ & -> & _)%entry_steps; [|done].
  etrans; [|apply rows_le_receipt]. eapply steps_evolve; [|done]. eapply inv_mono; [|done]. lia.
Qed.
Lemma evolves_le c c' : inv (sequence_of c) (rows_of c) → evolves c c' → rows_le (rows_of c) (rows_of c').
Proof.
  intros Hinv. induction 1 as [|c c1 c' He _ IH]; [reflexivity|].
  etrans; [by apply entry_le|]. apply IH. by eapply entry_inv.
Qed.
Lemma ledger_evolves c c' : ledger c → evolves c c' → ledger c'.
Proof. intros (id & limits & He) Hc. exists id, limits. by etrans. Qed.

End reachable.
