(* ===== verification/Termination.v ===== *)
(** * Every run ends

    The loops of the source that are not bounded by a collection are run by
    [mloop] under a bound. Here each bound is proved sufficient: no command
    uses one up, from any rows. The measures are the claims not yet satisfied,
    the unseen claims and the work list, the claims that are not terminal, and
    the rows that are not released. *)
From stdpp Require Import prelude gmap strings list.
From Stdlib Require Import NArith.
From S2P Require Import Prelude Vocabulary Objects Canonical Store StoreLaws Reducer.
From S2P Require Import Graph Validation Propagate Create Commands Admission Core Hoare Steps.
From S2P Require Import Invariants OperationSteps.

(** ** The judgement *)
Section ends.
Context `{External}.
Implicit Types (t : Rows).

(** From the rows [t] the computation does not run out of its bounds. *)
Definition ends {A} (m : SM A) t : Prop :=
  ∀ q, rd_rec q = recorder_disabled → rd_rows q = t → (m q).1 ≠ Err OutOfFuel.
Definition always {A} (m : SM A) : Prop := ∀ t, ends m t ∧ wp m t (λ _ _, True).

Lemma ends_bind {A B} (m : SM A) (f : A → SM B) t :
  ends m t → wp m t (λ a t', ends (f a) t') → ends (m ≫= f) t.
Proof.
  intros Hm Hf q Hq Ht. unfold mbind, M_bind. specialize (Hm q Hq Ht). specialize (Hf q Hq Ht).
  destruct (m q) as [[a|e] q']; [|simpl in *; congruence]. destruct Hf as [Hq' Hf]. by apply Hf.
Qed.
Lemma always_ends {A} (m : SM A) t : always m → ends m t.
Proof. intros Hm. apply Hm. Qed.
Lemma always_wp {A} (m : SM A) t (Φ : A → Rows → Prop) : always m → (∀ a t', Φ a t') → wp m t Φ.
Proof. intros Hm HΦ. eapply wp_mono; [apply Hm|]. auto. Qed.
Lemma always_bind {A B} (m : SM A) (f : A → SM B) :
  always m → (∀ a, always (f a)) → always (m ≫= f).
Proof.
  intros Hm Hf t. split.
  - apply ends_bind; [apply Hm|]. eapply wp_mono; [apply Hm|]. intros a t' _. apply Hf.
  - apply wp_bind. eapply wp_mono; [apply Hm|]. intros a t' _. apply Hf.
Qed.
Lemma always_ret {A} (a : A) : always (mret a).
Proof. intros t. split; [done|by apply wp_ret]. Qed.
Lemma always_stop {A} o : always (A:=A) (stop o).
Proof. intros t. split; [done|apply wp_stop]. Qed.
Lemma always_reserve_bytes n : always (with_rec (reserve_bytes n)).
Proof.
  intros t. split; [|by apply wp_quiet; [apply quiet_reserve_bytes|]].
  intros q Hq _. unfold with_rec. by destruct (reserve_bytes n _).
Qed.
Lemma always_reserve_value v : always (with_rec (reserve_value v)).
Proof.
  intros t. split; [|by apply wp_quiet; [apply quiet_reserve_value|]].
  intros q Hq _. unfold with_rec. by destruct (reserve_value v _).
Qed.
Lemma always_reserve_row {K V} `{TableKey K} (s : Sel K V) v : always (with_rec (reserve_row s v)).
Proof. apply always_reserve_value. Qed.
Lemma always_failed : always (with_rec (λ rec, (failed rec, rec))).
Proof. intros t. split; [done|]. by apply wp_quiet; [apply quiet_failed|]. Qed.
Lemma always_tget {K V} `{TableKey K} (s : Sel K V) k : always (tget s k).
Proof. intros t. split; [done|by apply wp_tget]. Qed.
Lemma always_titer {K V} `{TableKey K} (s : Sel K V) : always (titer s).
Proof. intros t. split; [done|by apply wp_titer]. Qed.
Lemma always_tlen {K V} `{TableKey K} (s : Sel K V) : always (tlen s).
Proof. intros t. split; [|by apply wp_tlen]. intros q _ _. unfold tlen. by destruct (b_len _). Qed.
Lemma always_tinsert {K V} `{TableKey K} (s : Sel K V) k v : always (tinsert s k v).
Proof. intros t. split; [|by apply wp_tinsert]. intros q _ _. unfold tinsert. by destruct (b_insert _ _ _ _ _). Qed.
Lemma always_tget_mut {K V} `{TableKey K} (s : Sel K V) `{!SelOk s} k : always (tget_mut s k).
Proof.
  intros t. split; [|by apply wp_tget_mut].
  intros q _ _. unfold tget_mut. by destruct (b_get_mut _ _ _ _) as [[]].
Qed.
Lemma always_tput {K V} `{TableKey K} (s : Sel K V) k v : always (tput s k v).
Proof. intros t. split; [done|]. by intros q Hq <-. Qed.
Lemma always_push_effect e : always (push_effect e).
Proof. intros t. split; [done|]. by intros q Hq <-. Qed.
Lemma always_push_delta d : always (push_delta d).
Proof. intros t. split; [done|]. by intros q Hq <-. Qed.
Lemma always_delta_count : always delta_count.
Proof. intros t. split; [done|]. by apply wp_quiet; [apply quiet_delta_count|]. Qed.
Lemma always_mfor {A} (l : list A) f : (∀ x, always (f x)) → always (mfor l f).
Proof. intros Hf. induction l; simpl; [apply always_ret|]. by apply always_bind. Qed.
Lemma always_mfold {A S} f (l : list A) (s : S) : (∀ s x, always (f s x)) → always (mfold f l s).
Proof. intros Hf. revert s. induction l; simpl; intros s; [apply always_ret|]. by apply always_bind. Qed.
Lemma always_mall {A} f (l : list A) : (∀ x, always (f x)) → always (mall f l).
Proof.
  intros Hf. induction l; simpl; [apply always_ret|]. apply always_bind; [done|].
  intros []; [done|apply always_ret].
Qed.
Lemma always_invalidate : always (with_rec (λ rec, (tt, invalidate rec));; refuse (A:=unit) ErrorCode.Capacity
  "reducer scratch workspace exhausted").
Proof. intros t. split; [done|]. by intros q Hq <-. Qed.
Lemma always_scratch n : always (scratch n).
Proof.
  unfold scratch. destruct (checked_mul n 128) as [b|]; [|apply always_invalidate].
  apply always_bind; [apply always_reserve_bytes|]. intros []; [apply always_ret|apply always_invalidate].
Qed.
Lemma always_scratch_ok_1 : always (scratch_ok 1).
Proof.
  intros t. split; [|by apply wp_quiet; [apply quiet_scratch_ok_1|]].
  intros q _ _. unfold scratch_ok. by destruct (scratch 1 q) as [[]].
Qed.

(** A loop ends when a measure below its bound decreases. *)
Lemma pow_size n : (n < 2 ^ N.of_nat (N.size_nat n))%N.
Proof.
  destruct n as [|p]; [done|]. simpl. induction p as [p IH|p IH|]; cbn [Pos.size_nat]; [| |done];
    rewrite Nat2N.inj_succ, N.pow_succ_r'; lia.
Qed.
Section loop.
Context {S A : Type} (body : S → SM (S + A)) (I : S → Rows → Prop) (μ : S → Rows → nat).
Context (Hbody : ∀ s t, I s t → ends (body s) t
  ∧ wp (body s) t (λ x t', match x with inl s' => I s' t' ∧ μ s' t' < μ s t | inr _ => True end)).
Lemma ends_loop_pow n s t :
  I s t → ends (loop_pow n body s) t
  ∧ wp (loop_pow n body s) t (λ x t',
      match x with inl s' => I s' t' ∧ (N.of_nat (μ s' t') + 2 ^ N.of_nat n <= N.of_nat (μ s t))%N | inr _ => True end).
Proof using Hbody.
  revert s t. induction n as [|n IH]; simpl; intros s t Hs.
  - destruct (Hbody s t Hs) as [He Hw]. split; [done|]. eapply wp_mono; [exact Hw|].
    intros [s'|a] t'; [|done]. intros [? ?]. split; [done|]. change (2 ^ 0)%N with 1%N. lia.
  - destruct (IH s t Hs) as [He Hw]. split.
    + apply ends_bind; [done|]. eapply wp_mono; [exact Hw|]. intros [s'|a] t'; [|done].
      intros [Hs' _]. by apply IH.
    + apply wp_bind. eapply wp_mono; [exact Hw|]. intros [s'|a] t'; [|by intros _; apply wp_ret].
      intros [Hs' Hlt]. destruct (IH s' t' Hs') as [_ Hw']. eapply wp_mono; [exact Hw'|].
      intros [s2|a] t2; [|done]. intros [? ?]. split; [done|]. rewrite Nat2N.inj_succ, N.pow_succ_r'. lia.
Qed.
Lemma ends_mloop fuel s t :
  I s t → (N.of_nat (μ s t) <= fuel)%N → ends (mloop fuel body s) t.
Proof using Hbody.
  intros Hs Hf. destruct (ends_loop_pow (N.size_nat fuel) s t Hs) as [He Hw].
  apply ends_bind; [done|]. eapply wp_mono; [exact Hw|]. intros [s'|a] t'; [|done].
  intros [_ Hlt]. pose proof (pow_size fuel). lia.
Qed.
End loop.
End ends.

Create HintDb always discriminated.
#[export] Hint Resolve always_ret always_stop always_reserve_bytes always_reserve_value always_reserve_row
  always_failed always_tget always_titer always_tlen always_tinsert always_tget_mut always_tput
  always_push_effect always_push_delta always_delta_count always_scratch always_scratch_ok_1 : always.
(** Runs with no loop: follow the code, opening the definitions it calls. *)
Ltac head_of t := lazymatch t with ?f _ => head_of f | ?f => f end.
Ltac always_step :=
  match goal with
  | |- ∀ _, _ => intros
  | |- always (mbind _ _) => apply always_bind
  | |- always (mfor _ _) => apply always_mfor
  | |- always (mfold _ _ _) => apply always_mfold
  | |- always (mall _ _) => apply always_mall
  | |- always _ => solve [eauto 2 with always typeclass_instances]
  | |- always (match ?x with _ => _ end) => destruct x
  | |- always ((match ?x with _ => _ end) _) => destruct x
  | |- always ?m => let f := head_of m in unfold f
  end.
Ltac always := repeat (always_step; cbv beta zeta).

Section runs.
Context `{External} {cx : Ctx}.
Implicit Types (t : Rows).

(** ** Satisfaction *)
Definition unmet t (x : gset ClaimId) : nat := size (dom (claims t) ∖ x).
Lemma unmet_lt t x y : x ⊂ y → y ⊆ dom (claims t) → unmet t y < unmet t x.
Proof.
  intros [Hxy Hyx] Hy. apply subset_size. split; [set_solver|]. intros Hsub. apply Hyx. intros e He.
  destruct (decide (e ∈ x)); [done|]. specialize (Hsub e). set_solver.
Qed.
Definition pass_inv t (x : gset ClaimId) (l : list (ClaimId * Claim))
    (acc : (gset ClaimId * bool) + gset ClaimId) : Prop :=
  stored t l ∧ match acc with
               | inl (y, changed) => x ⊆ y ∧ y ⊆ dom (claims t) ∧ (changed = true → x ⊂ y)
               | inr _ => True
               end.
Lemma wp_fix_pass t x row l acc :
  pass_inv t x (row :: l) acc →
  wp (fix_pass acc row) t (λ acc t', t' = t ∧ pass_inv t x l acc).
Proof.
  intros [[Hrow Hl]%stored_tail Hacc]. destruct acc as [[y b]|y], row as [id c]; unfold fix_pass; [|by wps].
  destruct (_ || _) eqn:Hskip; wps; [done|]. destruct a; wps; [|done]. boolh. split; [done|].
  split; [done|]. destruct a; [|done]. destruct Hacc as (Hxy & Hy & _).
  assert (id ∈ dom (claims t)) by (apply elem_of_dom; by eexists). set_solver.
Qed.
Lemma wp_fix_body t x :
  x ⊆ dom (claims t) →
  wp (fix_body x) t (λ z t', t' = t ∧ match z with inl y => y ⊆ dom (claims t) ∧ x ⊂ y | inr _ => True end).
Proof.
  intros Hx. unfold fix_body. wps.
  apply (wp_mfold _ _ _ _ (λ l acc t', t' = t ∧ pass_inv t x l acc)).
  - split; [done|]. split; [apply stored_entries|done].
  - intros row l acc t' [-> Hacc]. by apply wp_fix_pass.
  - intros acc t' [-> [_ Hacc]]. wps. destruct acc as [[y []]|]; naive_solver.
Qed.
Lemma wp_fix_seed t :
  wp (mfold fix_seed (entries (claims t)) (inl ∅)) t (λ acc t', t' = t
    ∧ match acc with inl x => x ⊆ dom (claims t) | inr _ => True end).
Proof.
  apply (wp_mfold _ _ _ _ (λ l acc t', t' = t ∧ stored t l
    ∧ match acc with inl x => x ⊆ dom (claims t) | inr _ => True end)); [| |naive_solver].
  - split_and!; [done|apply stored_entries|set_solver].
  - intros [id c] l acc t' (-> & [Hrow Hl]%stored_tail & Hacc). unfold fix_seed. simpl in *.
    destruct acc as [x|]; [|by wps]. destruct (bool_decide _); wps; [|done].
    assert (id ∈ dom (claims t)) by (apply elem_of_dom; by eexists).
    destruct a; split_and!; try done. set_solver.
Qed.
Lemma always_fix_body x : always (fix_body x).
Proof. always. Qed.
Lemma always_tracked_fixpoint : always tracked_fixpoint.
Proof.
  intros t. split; [|by apply wp_quiet; [apply quiet_tracked_fixpoint|]].
  unfold tracked_fixpoint. apply ends_bind; [apply always_titer|]. apply wp_titer.
  apply ends_bind; [apply always_ends; always|]. eapply wp_mono; [apply wp_fix_seed|].
  intros [x|x] t' [-> Hx]; [|by apply always_ret].
  apply (ends_mloop _ (λ x t', t' = t ∧ x ⊆ dom (claims t)) (λ x t, unmet t x)).
  - intros y t' [-> Hy]. split; [apply always_fix_body|]. eapply wp_mono; [by apply wp_fix_body|].
    intros [z|z] t' [-> Hz]; [|done]. destruct Hz. split; [done|]. by apply unmet_lt.
  - done.
  - simpl. rewrite length_entries, <-size_dom. unfold unmet.
    pose proof (subseteq_size (dom (claims t) ∖ x) (dom (claims t)) ltac:(set_solver)). lia.
Qed.

(** ** Lineage *)
Lemma wp_walk_body kinds limit w t :
  wp (walk_body kinds limit w) t (λ x t',
    match x with inl w' => (w_visits w < w_visits w' <= limit)%N | inr _ => True end).
Proof.
  unfold walk_body. destruct (w_stack w) as [|[id exit] stack]; wps; [done|].
  match goal with H : checked_add _ _ = Some _ |- _ => apply checked_add_Some in H as [-> _] end.
  match goal with H : (_ <? _)%N = false |- _ => apply N.ltb_ge in H end.
  destruct exit; wps; simpl; [lia|]. destruct (bool_decide (id ∈ w_done w)); wps; simpl; [lia|].
  apply wp_quiet; [apply quiet_push_edges|]. intros st. wps. simpl. lia.
Qed.
Lemma always_walk_body kinds limit w : always (walk_body kinds limit w).
Proof. always. Qed.
Lemma always_check_acyclic kinds limit : always (check_acyclic kinds limit).
Proof.
  assert (Hfrom : ∀ acc row, always (walk_from kinds limit acc row)).
  { intros [x v] row t. split; [|by apply wp_quiet; [apply quiet_walk_from|]]. unfold walk_from.
    destruct (bool_decide _); [by apply always_ret|]. apply ends_bind; [apply always_scratch|].
    apply wp_quiet; [quiet|]. intros [].
    apply (ends_mloop _ (λ _ _, True) (λ w _, N.to_nat (limit - w_visits w))); [|done|simpl; lia].
    intros w t' _. split; [apply always_walk_body|]. eapply wp_mono; [apply wp_walk_body|].
    intros [w'|] t2; [|done]. split; [done|lia]. }
  unfold check_acyclic. apply always_bind; [apply always_titer|]. intros rows.
  apply always_bind; [by apply always_mfold|]. intros a. apply always_ret.
Qed.

(** ** Waiting cycles *)
Definition edges t : nat :=
  sum_list ((λ row, length (cc_relations (content row.2)) * 2) <$> entries (claims t))
  + sum_list ((λ row, size (m_roots row.2)) <$> entries (monitors t)).
Lemma length_omap_le {A B} (f : A → option B) l : length (omap f l) <= length l.
Proof. induction l as [|x l IH]; csimpl; [done|]. destruct (f x); csimpl; lia. Qed.
Lemma length_dependencies c k : length (dependencies c k) <= length (cc_relations c).
Proof. unfold dependencies. etrans; [apply length_omap_le|apply length_filter]. Qed.
Lemma sum_elem {A} (f : A → nat) x l : x ∈ l → f x <= sum_list (f <$> l).
Proof. induction 1; csimpl; lia. Qed.
Lemma sum_sublist {A} (f : A → nat) l l' : sublist l l' → sum_list (f <$> l) <= sum_list (f <$> l').
Proof. induction 1; csimpl; lia. Qed.
Lemma size_of_list (l : list ClaimId) : size (list_to_set l : gset ClaimId) <= length l.
Proof.
  induction l as [|x l IH]; simpl; [done|].
  rewrite size_union_alt, size_singleton.
  pose proof (subseteq_size (list_to_set l ∖ {[x]}) (list_to_set l : gset ClaimId) ltac:(set_solver)). lia.
Qed.
Lemma wp_neighbors id t :
  wp (neighbors id) t (λ ns t', t' = t ∧ id ∈ dom (claims t) ∧ length ns <= edges t).
Proof.
  unfold neighbors. wps. rename a into c.
  match goal with H : claims t !! id = Some c |- _ => rename H into Hc end.
  set (R := length (cc_relations (content c)) * 2).
  apply (wp_mfold _ _ _ _ (λ l result t', t' = t ∧ length result + length l <= R)).
  { split; [done|]. simpl. rewrite length_app. pose proof (length_dependencies (content c) RelationKind.DependsOn).
    pose proof (length_dependencies (content c) RelationKind.Awaits). unfold R. lia. }
  { intros d l result t' [-> Hlen]. simpl in Hlen. wps. destruct a; wps; (split; [done|]); rewrite ?length_app; simpl; lia. }
  intros deps t' [-> Hdeps]. simpl in Hdeps. unfold open_monitors. wps.
  set (ms := filter _ _).
  apply (wp_mfold _ _ _ _ (λ l result t', t' = t
    ∧ length result + sum_list ((λ m, size (m_roots m)) <$> l) <= R + sum_list ((λ m, size (m_roots m)) <$> ms))).
  { split; [done|lia]. }
  { intros m l result t' [-> Hlen]. csimpl in Hlen.
    apply (wp_mfold _ _ _ _ (λ l' result t', t' = t ∧ length result + length l'
      + sum_list ((λ m, size (m_roots m)) <$> l) <= R + sum_list ((λ m, size (m_roots m)) <$> ms))).
    - split; [done|]. rewrite length_set_iter. lia.
    - intros p l' result' t' [-> Hlen']. simpl in Hlen'. wps.
      destruct a; wps; (split; [done|]); rewrite ?length_app; simpl; lia.
    - intros result' t' [-> Hlen']. simpl in Hlen'. split; [done|lia]. }
  intros result t' [-> Hlen]. wps. split; [done|]. split; [apply elem_of_dom; by eexists|].
  rewrite length_set_iter. etrans; [apply size_of_list|]. simpl in Hlen.
  assert (Hms : sum_list ((λ m, size (m_roots m)) <$> ms) <= sum_list ((λ row, size (m_roots row.2)) <$> entries (monitors t))).
  { change (λ row : MonitorId * Monitor, size (m_roots row.2)) with ((λ m, size (m_roots m)) ∘ @snd MonitorId Monitor).
    rewrite list_fmap_compose. apply sum_sublist, sublist_filter. }
  assert (HR : R <= sum_list ((λ row, length (cc_relations (content row.2)) * 2) <$> entries (claims t))).
  { apply (sum_elem (λ row, length (cc_relations (content row.2)) * 2) (id, c)). by apply elem_of_entries. }
  unfold edges. lia.
Qed.
Lemma always_reach_body s : always (reach_body s).
Proof. always. Qed.
Definition unseen t (seen : gset ClaimId) : nat := size (dom (claims t) ∖ seen).
Lemma unseen_visit t seen id :
  id ∈ dom (claims t) → id ∉ seen → unseen t seen = S (unseen t ({[id]} ∪ seen)).
Proof.
  intros Hid Hn. unfold unseen.
  assert (dom (claims t) ∖ seen = {[id]} ∪ dom (claims t) ∖ ({[id]} ∪ seen)) as ->.
  { apply set_eq. intros x. destruct (decide (x = id)); set_solver. }
  rewrite size_union, size_singleton by set_solver. done.
Qed.
Lemma unseen_all t seen : unseen t seen <= size (claims t).
Proof. unfold unseen. rewrite <-size_dom. apply subseteq_size. set_solver. Qed.
Lemma wp_reach_body t stack seen limit :
  wp (reach_body (stack, seen, limit)) t (λ x t', t' = t ∧ match x with
    | inl (stack', seen', _) =>
        length stack' + unseen t seen' * edges t < length stack + unseen t seen * edges t
    | inr _ => True
    end).
Proof.
  unfold reach_body. destruct stack as [|id stack]; wps; [done|].
  destruct (bool_decide (id ∈ seen)) eqn:Hseen; wps; [simpl; split; [done|lia]|]. boolh.
  eapply wp_mono; [apply wp_neighbors|]. intros ns t' (-> & Hid & Hlen). wps. split; [done|].
  rewrite (unseen_visit t seen id) by done. rewrite length_app, length_reverse. simpl. nia.
Qed.
Lemma always_reachable start limit : always (reachable start limit).
Proof.
  intros t. split; [|by apply wp_quiet; [apply quiet_reachable|]]. unfold reachable.
  apply ends_bind; [apply always_scratch|]. apply wp_quiet; [quiet|]. intros [].
  apply ends_bind; [apply always_ends; always|]. unfold graph_fuel. wps.
  apply (ends_mloop _ (λ _ t', t' = t)
    (λ x t, length x.1.1 + unseen t x.1.2 * edges t)); [|done|].
  - intros [[stack seen] l] t' ->. split; [apply always_reach_body|].
    eapply wp_mono; [apply wp_reach_body|]. by intros [[[]]|] t' [-> ?].
  - simpl. pose proof (unseen_all t ∅) as Hu. rewrite length_entries. fold (edges t).
    pose proof (Nat.mul_le_mono_r _ _ (edges t) Hu). lia.
Qed.

(** ** Cancellation *)
Lemma dom_status t id c st rev w :
  claims t !! id = Some c →
  dom (claims (ins Claims id (status_row cx_sequence st rev w c) t)) = dom (claims t).
Proof. intros Hc. unfold ins. simpl. apply dom_insert_lookup_L. by eexists. Qed.
Definition pushed t t' (queue queue' : list ClaimId) (seen seen' : gset ClaimId) : Prop :=
  dom (claims t') = dom (claims t)
  ∧ length queue' + unseen t seen' * size (claims t) < length queue + unseen t seen * size (claims t).
Lemma wp_push_children (ids : list ClaimId) queue t :
  wp (mfold (λ queue child, scratch 1;; mret (child :: queue)) ids queue) t
    (λ queue' t', t' = t ∧ length queue' = length queue + length ids).
Proof.
  apply (wp_mfold _ _ _ _ (λ l q t', t' = t ∧ length q + length l = length queue + length ids)); [done| |].
  - intros id l q t' [-> Hq]. wps. simpl in *. split; [done|lia].
  - intros q t' [-> Hq]. simpl in Hq. split; [done|lia].
Qed.
Lemma wp_cancel_body root st queue seen t :
  wp (cancel_body root st (queue, seen)) t (λ x t', match x with
    | inl (queue', seen') => pushed t t' queue queue' seen seen'
    | inr _ => True
    end).
Proof.
  unfold cancel_body. destruct queue as [|id queue]; wps; [done|].
  destruct (bool_decide (id ∈ seen)) eqn:Hseen; wps; [split; simpl; [done|lia]|]. boolh.
  eapply wp_mono; [apply wp_push_children|]. intros queue' t' [-> Hlen]. wps.
  match goal with H : claims t !! id = Some _ |- _ => rename H into Hc end.
  assert (Hid : id ∈ dom (claims t)) by (apply elem_of_dom; by eexists).
  assert (Hchildren : length (filter (λ row, Is_true (caused_by id row.2)) (entries (claims t))).*1 <= size (claims t)).
  { rewrite length_fmap, <-(length_entries (claims t)). apply length_filter. }
  assert (Hgoal : length queue' + unseen t ({[id]} ∪ seen) * size (claims t)
                  < length (id :: queue) + unseen t seen * size (claims t)).
  { rewrite (unseen_visit t seen id) by done. simpl. lia. }
  destruct (is_active _); wps; [|done]. apply wp_set_status. intros c' rev Hc' _ _. wps.
  split; [by apply dom_status|done].
Qed.
Lemma always_set_status id st w : always (set_status id st w).
Proof. always. Qed.
Lemma always_cancel_body root st s : always (cancel_body root st s).
Proof. always. Qed.
Lemma always_cancel_tree root st : always (cancel_tree root st).
Proof.
  intros t. split.
  - unfold cancel_tree. apply ends_bind; [apply always_scratch|]. apply wp_quiet; [quiet|]. intros [].
    apply ends_bind; [apply always_titer|]. apply wp_titer. simpl.
    apply (ends_mloop _ (λ _ t', dom (claims t') = dom (claims t))
      (λ x t', length x.1 + unseen t' x.2 * size (claims t'))); [|done|].
    + intros [queue seen] t' Ht. split; [apply always_cancel_body|].
      eapply wp_mono; [apply wp_cancel_body|]. intros [[queue' seen']|] t2; [|done].
      intros [Hd Hlt]. split; [congruence|]. simpl. unfold unseen in *. rewrite <-!size_dom in *.
      by rewrite Hd.
    + simpl. rewrite length_entries. pose proof (unseen_all t ∅). nia.
  - unfold cancel_tree. apply wp_bind, wp_quiet; [quiet|]. intros []. apply wp_bind, wp_titer.
    apply (wp_mloop _ _ _ _ (λ _ _, True)); [done|]. intros s t' _.
    eapply wp_mono; [apply always_cancel_body|]. by intros [].
Qed.

(** ** Counting rows *)
Definition count {K V} `{Countable K} (P : V → bool) (m : gmap K V) : nat :=
  size (filter (λ row, P row.2 = true) m).
Lemma count_insert {K V} `{Countable K} (P : V → bool) (m : gmap K V) k x y :
  m !! k = Some x → count P (<[k:=y]> m) + Nat.b2n (P x) = count P m + Nat.b2n (P y).
Proof.
  intros Hk. assert (Hone : ∀ z, count P (<[k:=z]> m) = Nat.b2n (P z) + count P (delete k m)).
  { intros z. rewrite <-insert_delete_eq. unfold count. destruct (P z) eqn:Hz.
    - rewrite map_filter_insert_True by done. rewrite map_size_insert_None; [done|].
      rewrite map_lookup_filter_None. left. apply lookup_delete_eq.
    - rewrite map_filter_insert_False by (simpl; congruence). by rewrite delete_delete_eq. }
  rewrite Hone. rewrite <-(insert_id m k x Hk) at 2. rewrite Hone. lia.
Qed.
Lemma count_all {K V} `{Countable K} (P : V → bool) (m : gmap K V) : count P m <= size m.
Proof. unfold count. apply map_size_filter. Qed.
Definition alive (c : Claim) : bool := negb (is_terminal (status_of c)).
Definition unreleased (c : Claim) : bool := negb (cl_released (lifecycle c)).
Definition waiting (m : Monitor) : bool := bool_decide (m_released m = None).
(** The rows propagation can still change. *)
Definition open_rows t : nat :=
  count alive (claims t) + count unreleased (claims t) + count waiting (monitors t).
Lemma open_status t id c st rev w :
  claims t !! id = Some c → is_terminal (status_of c) = false → is_terminal st = true →
  let t' := ins Claims id (status_row cx_sequence st rev w c) t in
  open_rows t' < open_rows t ∧ count alive (claims t') < count alive (claims t).
Proof.
  intros Hc Ht Hst t'. unfold open_rows, t', ins. simpl.
  pose proof (count_insert alive (claims t) id c (status_row cx_sequence st rev w c) Hc) as Ha.
  pose proof (count_insert unreleased (claims t) id c (status_row cx_sequence st rev w c) Hc) as Hu.
  unfold alive in Ha at 2 4. unfold unreleased in Hu at 2 4. simpl in *. rewrite Ht, Hst in Ha. simpl in *. lia.
Qed.
Lemma open_release t id c :
  claims t !! id = Some c →
  let t' := ins Claims id (released_row c) t in
  open_rows t' <= open_rows t ∧ (cl_released (lifecycle c) = false → open_rows t' < open_rows t).
Proof.
  intros Hc t'. unfold open_rows, t', ins. simpl.
  pose proof (count_insert alive (claims t) id c (released_row c) Hc) as Ha.
  pose proof (count_insert unreleased (claims t) id c (released_row c) Hc) as Hu.
  unfold alive in Ha at 2 4. unfold unreleased in Hu at 2 4. simpl in Ha, Hu.
  destruct (cl_released (lifecycle c)); simpl in Hu; split; try done; lia.
Qed.
Lemma open_monitor t id m m' :
  monitors t !! id = Some m → is_Some (m_released m') →
  let t' := ins Monitors id m' t in
  open_rows t' <= open_rows t ∧ (m_released m = None → open_rows t' < open_rows t).
Proof.
  intros Hm Hr t'. unfold open_rows, t', ins. simpl.
  pose proof (count_insert waiting (monitors t) id m m' Hm) as Hw. unfold waiting in Hw at 2 4.
  rewrite (bool_decide_eq_false_2 (m_released m' = None)) in Hw by (destruct Hr; congruence). simpl in Hw.
  split; [lia|]. intros Hn. rewrite bool_decide_eq_true_2 in Hw by done. simpl in Hw. lia.
Qed.

(** ** Propagation *)
Lemma wp_fail_changes changes t :
  wp (mfor changes (λ change, set_status change.1 ClaimStatus.DependencyFailed (Some change.2))) t
    (λ _ t', open_rows t' <= open_rows t
             ∧ count alive (claims t') + length changes <= count alive (claims t)).
Proof.
  apply (wp_mfor _ _ _ (λ l t', open_rows t' <= open_rows t ∧ count alive (claims t') + length changes
    <= count alive (claims t) + length l)); [lia| |simpl; intros; lia].
  intros [id w] l t' Hle. apply wp_set_status. intros c rev Hc Ht _.
  pose proof (open_status t' id c ClaimStatus.DependencyFailed rev (Some w) Hc Ht eq_refl) as Hlt.
  unfold status_row in Hlt. cbv zeta in Hlt. cbn [length fst snd] in *. lia.
Qed.
Lemma wp_fail_body visits t :
  wp (fail_body visits) t (λ x t', open_rows t' <= open_rows t ∧ match x with
    | inl _ => count alive (claims t') < count alive (claims t) | inr _ => t' = t end).
Proof.
  unfold fail_body. wps. eapply wp_mono; [apply wp_fail_scan|].
  intros [v changes] t' [-> _]. destruct changes as [|x changes]; [by wps|].
  apply wp_bind. eapply wp_mono; [apply wp_fail_changes|]. intros [] t' [Hopen Hlt]. wps.
  split; [done|]. simpl in Hlt. lia.
Qed.
Lemma wp_satisfy_all (ids : list ClaimId) t :
  wp (mfold satisfy ids false) t (λ changed t', open_rows t' + Nat.b2n changed <= open_rows t).
Proof.
  apply (wp_mfold _ _ _ _ (λ _ changed t', open_rows t' + Nat.b2n changed <= open_rows t)); [simpl; lia| |done].
  intros id l changed t' Hle. unfold satisfy. wps. simpl.
  destruct (claims t' !! id) as [c|]; [|by wps]. destruct (bool_decide _); [|by wps]. wps.
  apply wp_set_status. intros c' rev Hc Ht _. wps.
  pose proof (open_status t' id c' ClaimStatus.Satisfied rev None Hc Ht eq_refl) as [Hlt _].
  unfold status_row in Hlt. cbv zeta in Hlt. cbn [Nat.b2n]. destruct changed; simpl in Hle; lia.
Qed.
Lemma wp_release_claim id t (Φ : () → Rows → Prop) :
  (∀ c, claims t !! id = Some c → Φ tt (ins Claims id (released_row c) t)) → wp (release_claim id) t Φ.
Proof. intros HΦ. unfold release_claim. wps. apply wp_tinsert. by apply HΦ. Qed.
Lemma wp_release_all ids t :
  (∀ id c, head ids = Some id → claims t !! id = Some c → cl_released (lifecycle c) = false) →
  wp (mfor ids release_claim) t (λ _ t', open_rows t' + Nat.b2n (negb (bool_decide (ids = []))) <= open_rows t).
Proof.
  intros Hhead. destruct ids as [|id ids]; [apply wp_ret; simpl; lia|]. cbn [mfor].
  apply wp_bind, wp_release_claim. intros c Hc. destruct (open_release t id c Hc) as [_ Hlt].
  specialize (Hlt (Hhead _ _ eq_refl Hc)).
  apply (wp_mfor _ _ _ (λ _ t', open_rows t' < open_rows t)); [done| |simpl; intros; lia].
  intros id' l t' Hle. apply wp_release_claim. intros c' Hc'. destruct (open_release t' id' c' Hc') as [Hle' _]. lia.
Qed.
Definition released_at (m : Monitor) : Monitor :=
  {| m_id := m_id m; m_owner := m_owner m; m_roots := m_roots m; m_deadline := m_deadline m;
     m_registered := m_registered m; m_released := Some cx_sequence |}.
Lemma wp_release_monitor entry t (Φ : () → Rows → Prop) :
  (∀ m, monitors t !! entry.1 = Some m → Φ tt (ins Monitors entry.1 (released_at m) t)) →
  wp (release_monitor entry) t Φ.
Proof.
  intros HΦ. destruct entry as [id owner]. unfold release_monitor. wps. apply wp_tput; [by eexists|]. wps. by apply HΦ.
Qed.
Lemma wp_release_monitors due t :
  releasing t due →
  wp (mfor due release_monitor) t (λ _ t', open_rows t' + Nat.b2n (negb (bool_decide (due = []))) <= open_rows t).
Proof.
  intros [_ Hdue]. destruct due as [|[id owner] due]; [apply wp_ret; simpl; lia|]. cbn [mfor].
  apply wp_bind, wp_release_monitor. simpl. intros m Hm.
  destruct (open_monitor t id m (released_at m) Hm ltac:(by eexists)) as [_ Hlt].
  specialize (Hlt (Hdue id m ltac:(by left) Hm)).
  apply (wp_mfor _ _ _ (λ _ t', open_rows t' < open_rows t)); [done| |simpl; intros; lia].
  intros [id' owner'] l t' Hle. apply wp_release_monitor. simpl. intros m' Hm'.
  destruct (open_monitor t' id' m' (released_at m') Hm' ltac:(by eexists)) as [Hle' _].
  change (open_rows (ins Monitors id' (released_at m') t') < open_rows t). lia.
Qed.
Lemma wp_settle_body visits t :
  wp (settle_body visits) t (λ x t', match x with inl _ => open_rows t' < open_rows t | inr _ => True end).
Proof.
  unfold settle_body. wps. eapply wp_mono; [apply wp_tracked_fixpoint|]. intros x t' [-> _]. wps.
  eapply wp_mono; [apply wp_satisfy_all|]. intros changed t1 Hc. wps.
  eapply wp_mono; [apply wp_release_all|].
  { intros id c Hh Hid. assert (Hin : id ∈ (filter (λ row, Is_true (releasable (entries (claims t1)) row))
      (entries (claims t1))).*1) by (destruct (filter _ _).*1; naive_solver set_solver).
    apply list_elem_of_fmap in Hin as ([id' c'] & -> & [Hr Hin%elem_of_entries]%list_elem_of_filter).
    apply Is_true_true in Hr. unfold releasable in Hr. simpl in *. boolh. by simplify_eq. }
  intros [] t2 Hr. wps. eapply wp_mono; [apply wp_due|]. intros due t3 [-> Hdue]. wps.
  eapply wp_mono; [by apply wp_release_monitors|]. intros [] t3 Hm. wps.
  destruct changed; [simpl in *; lia|]. destruct (negb _); [simpl in *; lia|].
  destruct (negb _); [simpl in *; lia|done].
Qed.
#[local] Hint Resolve always_tracked_fixpoint always_check_acyclic always_reachable always_cancel_tree : always.
Lemma open_rows_le t : open_rows t <= 2 * size (claims t) + size (monitors t).
Proof.
  unfold open_rows. pose proof (count_all alive (claims t)). pose proof (count_all unreleased (claims t)).
  pose proof (count_all waiting (monitors t)). lia.
Qed.
Lemma always_propagate : always propagate.
Proof.
  assert (Hfail : ∀ v, always (fail_body v)) by (intros v; always).
  assert (Hsettle : ∀ v, always (settle_body v)) by (intros v; always).
  intros t. unfold propagate. split.
  - apply ends_bind; [apply always_titer|]. apply wp_titer.
    apply ends_bind; [apply always_titer|]. apply wp_titer. simpl. rewrite !length_entries. apply ends_bind.
    + apply (ends_mloop _ (λ _ _, True) (λ _ t, count alive (claims t))); [|done|].
      * intros v t' _. split; [apply Hfail|]. eapply wp_mono; [apply wp_fail_body|]. by intros [] ? [].
      * simpl. pose proof (count_all alive (claims t)). lia.
    + apply (wp_mloop _ _ _ _ (λ _ t', open_rows t' <= open_rows t)); [done|]. intros v t' Hle.
      eapply wp_mono; [apply wp_fail_body|]. intros x t2 [Hle2 _].
      destruct x as [v'|v']; [lia|].
      apply (ends_mloop _ (λ _ _, True) (λ _ t, open_rows t)); [|done|].
      * intros v2 t3 _. split; [apply Hsettle|]. eapply wp_mono; [apply wp_settle_body|]. by intros [].
      * pose proof (open_rows_le t). lia.
  - apply wp_bind, wp_titer, wp_bind, wp_titer, wp_bind.
    apply (wp_mloop _ _ _ _ (λ _ _, True)); [done|]. intros v t1 _. eapply wp_mono; [apply Hfail|].
    intros [] t2 _; [done|]. apply (wp_mloop _ _ _ _ (λ _ _, True)); [done|]. intros v2 t3 _.
    eapply wp_mono; [apply Hsettle|]. by intros [].
Qed.
#[local] Hint Resolve always_propagate : always.

(** ** Commands, admission and entries *)
Lemma always_find_diagnostic l f m : always (find_diagnostic l f m).
Proof. induction m; simpl; always; auto. Qed.
Lemma always_has_diagnostic l f m : always (has_diagnostic l f m).
Proof. induction m; simpl; always; auto. Qed.
#[local] Hint Resolve always_find_diagnostic always_has_diagnostic : always.
Lemma always_generate new : always (generate new).
Proof. always. Qed.
Lemma always_record_verdict v : always (record_verdict v).
Proof. always. Qed.
#[local] Hint Resolve always_generate always_record_verdict : always.
Lemma always_command c : always (command c).
Proof. destruct c; cbn [command]; always. Qed.
Lemma always_execute_domain c : always (execute_domain c).
Proof. unfold execute_domain. apply always_bind; [apply always_command|]. always. Qed.
Lemma always_validate_admission c : always (validate_admission c).
Proof. always. Qed.
End runs.
