(* ===== verification/GraphLaws.v ===== *)
(** * What the graph algorithms compute

    The satisfaction set is the least fixed point of the joining rule; the
    lineage walk succeeds only on lineages without a cycle; the waiting cycle
    of a claim is its strongly connected component in the wait graph. *)
From stdpp Require Import prelude gmap strings list relations.
From Stdlib Require Import NArith.
From S2P Require Import Prelude Vocabulary Objects Canonical Store StoreLaws Reducer.
From S2P Require Import Graph Validation Propagate Create Commands Hoare Steps Invariants OperationSteps.

(** ** The conditions, on plain rows *)
Definition finished (t : Rows) (d : ClaimId) : Prop :=
  ∃ c, claims t !! d = Some c ∧ is_terminal (status_of c) = true.
Definition predicate_holds (t : Rows) (p : WaitPredicate) : Prop :=
  ∃ c, claims t !! wait_target p = Some c ∧
    match p with
    | WaitSatisfied _ => status_of c = ClaimStatus.Satisfied
    | WaitTerminal _ => is_terminal (status_of c) = true
    | WaitReleased _ => cl_released (lifecycle c) = true
    end.
(** A wait predicate when the claims of [X] count as satisfied. *)
Definition root_met (t : Rows) (X : ClaimId → Prop) (p : WaitPredicate) : Prop :=
  match p with
  | WaitSatisfied d => X d
  | WaitTerminal d => X d ∨ predicate_holds t p
  | WaitReleased _ => predicate_holds t p
  end.
(** The monitors that keep [id] from being satisfied. *)
Definition watches (t : Rows) (id : ClaimId) (m : Monitor) : Prop :=
  (∃ k, monitors t !! k = Some m) ∧ m_owner m = id ∧ m_released m = None.
(** The joining rule: dependencies in [X], awaited claims in [X] or terminal,
    and every root of every open monitor met. *)
Definition may_join (t : Rows) (X : ClaimId → Prop) (id : ClaimId) (c : Claim) : Prop :=
  (∀ d, d ∈ dependencies (content c) RelationKind.DependsOn → X d)
  ∧ (∀ d, d ∈ dependencies (content c) RelationKind.Awaits → X d ∨ finished t d)
  ∧ ∀ m p, watches t id m → p ∈ m_roots m → root_met t X p.
(** Locally complete work that is still open. *)
Definition candidate (c : Claim) : Prop :=
  is_terminal (status_of c) = false ∧ cl_local_complete (lifecycle c) = true.
(** [X] holds the satisfied claims and every candidate that may join it. *)
Definition closed (t : Rows) (X : ClaimId → Prop) : Prop :=
  (∀ id c, claims t !! id = Some c → status_of c = ClaimStatus.Satisfied → X id)
  ∧ ∀ id c, claims t !! id = Some c → candidate c → may_join t X id c → X id.
(** The least such set. *)
Definition satisfiable (t : Rows) (id : ClaimId) : Prop := ∀ X, closed t X → X id.

Lemma root_met_mono t (X Y : ClaimId → Prop) p : (∀ d, X d → Y d) → root_met t X p → root_met t Y p.
Proof. destruct p; simpl; naive_solver. Qed.
Lemma may_join_mono t (X Y : ClaimId → Prop) id c :
  (∀ d, X d → Y d) → may_join t X id c → may_join t Y id c.
Proof.
  intros HXY (H1 & H2 & H3). split_and!; [auto|naive_solver|].
  intros m p Hm Hp. eapply root_met_mono; eauto.
Qed.
Lemma satisfiable_closed t : closed t (satisfiable t).
Proof.
  split.
  - intros id c Hc Hs X [Hnow _]. by eapply Hnow.
  - intros id c Hc Hcand Hj X HX. eapply HX; [done..|]. eapply may_join_mono; [|exact Hj].
    intros d Hd. by apply Hd.
Qed.

Section laws.
Context `{External}.
Implicit Types (t : Rows).

(** A test: the rows are kept and the answer decides the proposition. *)
Definition tests (m : SM bool) t (P : Prop) : Prop := wp m t (λ b t', t' = t ∧ (b = true ↔ P)).
Lemma tests_mall {A} (f : A → SM bool) l t (P : A → Prop) :
  (∀ x, tests (f x) t (P x)) → tests (mall f l) t (∀ x, x ∈ l → P x).
Proof.
  intros Hf. induction l as [|x l IH]; simpl.
  - apply wp_ret. split; [done|]. split; [|done]. intros _ x. by intros ?%elem_of_nil.
  - apply wp_bind. eapply wp_mono; [apply Hf|]. intros [] t' [-> Hx].
    + eapply wp_mono; [apply IH|]. intros b t' [-> Hb]. split; [done|]. rewrite Hb. split.
      * intros Hl y [->|?]%elem_of_cons; [by apply Hx|auto].
      * intros Hl y ?. apply Hl. by right.
    + apply wp_ret. split; [done|]. split; [done|]. intros Hl. apply Hx, Hl. by left.
Qed.
Lemma tests_mono m t P Q : tests m t P → (P ↔ Q) → tests m t Q.
Proof. intros Hm HPQ. eapply wp_mono; [exact Hm|]. intros b t' [-> Hb]. by rewrite Hb. Qed.
Lemma tests_predicate p t : tests (predicate p) t (predicate_holds t p).
Proof.
  unfold predicate. apply wp_bind, wp_tget, wp_ret. simpl. split; [done|]. unfold predicate_holds.
  destruct (claims t !! wait_target p) as [c|]; [|naive_solver].
  destruct p; rewrite ?bool_decide_eq_true; naive_solver.
Qed.
Lemma tests_await (X : gset ClaimId) d t : tests (await_holds X d) t (d ∈ X ∨ finished t d).
Proof.
  unfold await_holds. case_bool_decide; [apply wp_ret; naive_solver|].
  apply wp_bind, wp_tget, wp_ret. simpl. split; [done|]. unfold finished.
  destruct (claims t !! d) as [c|]; naive_solver.
Qed.
Lemma tests_root (X : gset ClaimId) p t : tests (root_holds X p) t (root_met t (.∈ X) p).
Proof.
  destruct p as [d|d|d]; unfold root_holds, root_met.
  - apply wp_ret. by rewrite bool_decide_eq_true.
  - case_bool_decide; [apply wp_ret; naive_solver|].
    eapply tests_mono; [apply tests_predicate|]. naive_solver.
  - apply tests_predicate.
Qed.
Lemma wp_open_monitors id t (Φ : list Monitor → Rows → Prop) :
  (∀ ms, (∀ m, m ∈ ms ↔ watches t id m) → Φ ms t) → wp (open_monitors id) t Φ.
Proof.
  intros HΦ. unfold open_monitors. apply wp_bind, wp_titer, wp_ret, HΦ. intros m. simpl.
  rewrite list_elem_of_filter, elem_of_entries_snd. unfold watches. naive_solver.
Qed.
Lemma tests_joins (X : gset ClaimId) id c t : tests (joins X id c) t (may_join t (.∈ X) id c).
Proof.
  unfold joins, tests. case_bool_decide as HD; rewrite Forall_forall in HD.
  2: { apply wp_ret. split; [done|]. split; [done|]. intros [? _]. naive_solver. }
  apply wp_bind. eapply wp_mono; [apply (tests_mall _ _ t (λ d, d ∈ X ∨ finished t d)); intros; apply tests_await|].
  intros [] t' [-> HA]; [|apply wp_ret; split; [done|]; split; [done|]; intros (_ & ? & _); by apply HA].
  apply wp_bind, wp_open_monitors. intros ms Hms.
  eapply tests_mono; [apply (tests_mall _ _ t (λ m, ∀ p, p ∈ set_iter (m_roots m) → root_met t (.∈ X) p));
    intros m; apply tests_mall; intros p; apply tests_root|].
  unfold may_join. split.
  - intros Hall. split_and!; [done|by apply HA|]. intros m p Hm Hp. apply (Hall m); [by apply Hms|].
    by apply elem_of_set_iter.
  - intros (_ & _ & Hall) m Hm%Hms p Hp%elem_of_set_iter. eauto.
Qed.

(** ** The satisfaction set *)
Lemma wp_scratch_ok_1 t (Φ : bool → Rows → Prop) : Φ true t → wp (scratch_ok 1) t Φ.
Proof. intros HΦ [rows rec ds es] Hq Ht. simpl in Hq, Ht. subst. by split. Qed.
Lemma sound_add t (X : gset ClaimId) id :
  (∀ d, d ∈ X → satisfiable t d) → satisfiable t id → ∀ d, d ∈ {[id]} ∪ X → satisfiable t d.
Proof. intros HX Hid d [->%elem_of_singleton|?]%elem_of_union; auto. Qed.
(** The seed: the satisfied claims of the rows already seen. *)
Lemma wp_seed t :
  wp (mfold fix_seed (entries (claims t)) (inl ∅)) t (λ acc t', t' = t ∧ ∃ X, acc = inl X
    ∧ (∀ d, d ∈ X → satisfiable t d)
    ∧ ∀ id c, claims t !! id = Some c → status_of c = ClaimStatus.Satisfied → id ∈ X).
Proof.
  apply (wp_mfold _ _ _ _ (λ l acc t', t' = t ∧ stored t l ∧ ∃ X, acc = inl X
    ∧ (∀ d, d ∈ X → satisfiable t d)
    ∧ ∀ id c, claims t !! id = Some c → status_of c = ClaimStatus.Satisfied → id ∈ X ∨ (id, c) ∈ l)).
  - split_and!; [done|apply stored_entries|]. exists ∅. split_and!; [done|set_solver|].
    intros id c Hc _. right. by apply elem_of_entries.
  - intros [id c] l acc t' (-> & [Hrow Hl]%stored_tail & X & -> & Hsound & Hall). unfold fix_seed. simpl in *.
    case_bool_decide as Hs.
    + apply wp_bind, (wp_scratch_ok_1 t). apply wp_ret. split_and!; [done..|]. eexists. split; [done|]. split.
      * apply sound_add; [done|]. by eapply (proj1 (satisfiable_closed t)).
      * intros id' c' Hc' Hs'. destruct (Hall id' c' Hc' Hs') as [?|[[= -> ->]|?]%elem_of_cons]; set_solver.
    + apply wp_ret. split_and!; [done..|]. exists X. split_and!; [done..|].
      intros id' c' Hc' Hs'. destruct (Hall id' c' Hc' Hs') as [?|[[= -> ->]|?]%elem_of_cons]; naive_solver.
  - intros acc t' (-> & _ & X & -> & Hsound & Hall). split; [done|]. exists X. split_and!; [done..|].
    intros id c Hc Hs. by destruct (Hall id c Hc Hs) as [?|?%elem_of_nil].
Qed.
(** One pass keeps the set sound; a pass that adds nothing found it closed. *)
Definition pass_ok t (X : gset ClaimId) (l : list (ClaimId * Claim)) (Y : gset ClaimId) (changed : bool) : Prop :=
  X ⊆ Y ∧ (∀ d, d ∈ Y → satisfiable t d)
  ∧ (changed = false → Y = X ∧ ∀ id c, claims t !! id = Some c → candidate c →
       may_join t (.∈ X) id c → id ∈ X ∨ (id, c) ∈ l).
Lemma wp_pass t X id c l Y changed :
  claims t !! id = Some c → pass_ok t X ((id, c) :: l) Y changed →
  wp (fix_pass (inl (Y, changed)) (id, c)) t (λ acc t', t' = t ∧ ∃ Y changed, acc = inl (Y, changed)
    ∧ pass_ok t X l Y changed).
Proof.
  intros Hrow (HXY & Hsound & Hclosed). unfold fix_pass.
  destruct (bool_decide (id ∈ Y) || _ || _) eqn:Hskip.
  { apply wp_ret. split; [done|]. eexists _, _. split; [done|]. split_and!; [done..|]. intros Hch.
    destruct (Hclosed Hch) as [-> Hcl]. split; [done|]. intros id' c' Hc' Hcand Hj.
    destruct (Hcl id' c' Hc' Hcand Hj) as [?|[[= -> ->]|?]%elem_of_cons]; [by left| |by right].
    destruct Hcand as [Ht Hlc]. rewrite Ht, Hlc in Hskip. left. simpl in Hskip.
    rewrite !orb_false_r in Hskip. by apply bool_decide_eq_true in Hskip. }
  boolh. apply wp_bind. eapply wp_mono; [apply tests_joins|]. intros [] t' [-> Hj].
  - apply wp_bind, (wp_scratch_ok_1 t), wp_ret. split; [done|]. eexists _, _. split; [done|].
    split_and!; [set_solver| |done]. apply sound_add; [done|].
    eapply (proj2 (satisfiable_closed t)); [done|by split|]. eapply may_join_mono; [|by apply Hj]. done.
  - apply wp_ret. split; [done|]. eexists _, _. split; [done|]. split_and!; [done..|]. intros Hch.
    destruct (Hclosed Hch) as [-> Hcl]. split; [done|]. intros id' c' Hc' Hcand Hj'.
    destruct (Hcl id' c' Hc' Hcand Hj') as [?|[[= -> ->]|?]%elem_of_cons]; [by left| |by right].
    by apply Hj in Hj'.
Qed.
Lemma wp_least_fixpoint t :
  wp tracked_fixpoint t (λ X t', t' = t ∧ ∀ id, id ∈ X ↔ satisfiable t id).
Proof.
  unfold tracked_fixpoint. apply wp_bind, wp_titer, wp_bind. eapply wp_mono; [apply wp_seed|].
  intros acc t' (-> & X & -> & Hsound & Hnow). simpl.
  apply (wp_mloop _ _ _ _ (λ X t', t' = t ∧ (∀ d, d ∈ X → satisfiable t d)
    ∧ ∀ id c, claims t !! id = Some c → status_of c = ClaimStatus.Satisfied → id ∈ X)); [done|].
  clear X Hsound Hnow. intros X t' (-> & Hsound & Hnow). unfold fix_body. apply wp_bind, wp_titer, wp_bind.
  apply (wp_mfold _ _ _ _ (λ l acc t', t' = t ∧ stored t l ∧ ∃ Y changed, acc = inl (Y, changed)
    ∧ pass_ok t X l Y changed)).
  - split_and!; [done|apply stored_entries|]. eexists _, _. split; [done|]. split_and!; [done..|].
    intros _. split; [done|]. intros id c Hc _ _. right. by apply elem_of_entries.
  - intros [id c] l acc t' (-> & [Hrow Hl]%stored_tail & Y & changed & -> & Hok). simpl in Hrow.
    eapply wp_mono; [by apply wp_pass|]. naive_solver.
  - intros acc t' (-> & _ & Y & changed & -> & HXY & HsoundY & Hclosed). apply wp_ret.
    destruct changed; split; [done|split; [done|]|done|].
    + intros id c Hc Hs. apply HXY. eauto.
    + destruct (Hclosed eq_refl) as [-> Hcl]. intros id. split; [apply Hsound|].
      intros Hsat. apply (Hsat (.∈ X)). split; [done|]. intros id' c' Hc' Hcand Hj.
      by destruct (Hcl id' c' Hc' Hcand Hj) as [?|?%elem_of_nil].
Qed.

(** ** Lineage *)
(** [y] is an endpoint of a relation of [x] of one of the kinds. *)
Definition leads t (kinds : list RelationKind) (x y : ClaimId) : Prop :=
  ∃ c k, claims t !! x = Some c ∧ k ∈ kinds ∧ y ∈ dependencies (content c) k.
(** No infinite chain of relations starts at the claim. *)
Definition grounded t (kinds : list RelationKind) : ClaimId → Prop := Acc (flip (leads t kinds)).
Lemma grounded_acyclic t kinds id : grounded t kinds id → ¬ tc (leads t kinds) id id.
Proof.
  induction 1 as [x _ IH]. intros Hx. inversion Hx as [? ? Hxy|? y ? Hxy Hyx]; subst.
  - by apply (IH x).
  - apply (IH y); [done|]. by eapply tc_r.
Qed.
(** Every exit marker's endpoints are known ([Z]) or above it on the stack. *)
Fixpoint stack_ok t kinds (Z : ClaimId → Prop) (stack : list (ClaimId * bool)) : Prop :=
  match stack with
  | [] => True
  | (id, exit) :: rest =>
      (exit = true → ∀ y, leads t kinds id y → Z y) ∧ stack_ok t kinds (λ x, Z x ∨ x = id) rest
  end.
Lemma stack_ok_mono t kinds (Z Z' : ClaimId → Prop) stack :
  (∀ x, Z x → Z' x) → stack_ok t kinds Z stack → stack_ok t kinds Z' stack.
Proof.
  revert Z Z'. induction stack as [|[id exit] rest IH]; simpl; intros Z Z' HZ; [done|].
  intros [Hid Hrest]. split; [eauto|]. eapply IH; [|exact Hrest]. naive_solver.
Qed.
Lemma stack_ok_enter t kinds (Z : ClaimId → Prop) pre rest :
  (∀ x, x ∈ pre → x.2 = false) → stack_ok t kinds (λ x, Z x ∨ x ∈ pre.*1) rest →
  stack_ok t kinds Z (pre ++ rest).
Proof.
  revert Z. induction pre as [|[id exit] pre IH]; simpl; intros Z Hpre Hrest.
  - eapply stack_ok_mono; [|exact Hrest]. intros x [?|?%elem_of_nil]; done.
  - split; [intros ->; by specialize (Hpre (id, true) ltac:(by left))|].
    apply IH; [intros x ?; apply Hpre; by right|]. eapply stack_ok_mono; [|exact Hrest].
    cbv beta. intros x. rewrite elem_of_cons. naive_solver.
Qed.
Lemma wp_push_edges t kinds c stack :
  wp (push_edges kinds c stack) t (λ stack' t', t' = t ∧ ∃ pre, stack' = pre ++ stack
    ∧ (∀ x, x ∈ pre → x.2 = false)
    ∧ ∀ k y, k ∈ kinds → y ∈ dependencies (content c) k → y ∈ pre.*1).
Proof.
  unfold push_edges.
  apply (wp_mfold _ _ _ _ (λ l st t', t' = t ∧ ∃ pre, st = pre ++ stack ∧ (∀ x, x ∈ pre → x.2 = false)
    ∧ ∀ k y, k ∈ kinds → y ∈ dependencies (content c) k → k ∈ l ∨ y ∈ pre.*1)).
  - split; [done|]. exists []. split_and!; [done|set_solver|]. by left.
  - intros k l st t' (-> & pre & -> & Hflag & Hall).
    apply (wp_mfold _ _ _ _ (λ l' st t', t' = t ∧ ∃ pre, st = pre ++ stack ∧ (∀ x, x ∈ pre → x.2 = false)
      ∧ ∀ k' y, k' ∈ kinds → y ∈ dependencies (content c) k' → k' ∈ l ∨ y ∈ pre.*1 ∨ (k' = k ∧ y ∈ l'))).
    + split; [done|]. exists pre. split_and!; [done..|]. intros k' y Hk Hy.
      destruct (Hall k' y Hk Hy) as [[->|?]%elem_of_cons|?]; auto.
    + intros d l' st t' (-> & pre' & -> & Hflag' & Hall'). apply wp_bind, wp_quiet; [apply quiet_scratch|].
      intros []. apply wp_ret. split; [done|]. exists ((d, false) :: pre'). split_and!; [done| |].
      * intros x [->|?]%elem_of_cons; [done|auto].
      * intros k' y Hk Hy. rewrite fmap_cons, elem_of_cons. simpl.
        destruct (Hall' k' y Hk Hy) as [?|[?|[-> [->|?]%elem_of_cons]]]; auto 6.
    + intros st t' (-> & pre' & -> & Hflag' & Hall'). split; [done|]. exists pre'. split_and!; [done..|].
      intros k' y Hk Hy. destruct (Hall' k' y Hk Hy) as [?|[?|[_ ?%elem_of_nil]]]; auto. done.
  - intros st t' (-> & pre & -> & Hflag & Hall). split; [done|]. exists pre. split_and!; [done..|].
    intros k y Hk Hy. destruct (Hall k y Hk Hy) as [?%elem_of_nil|?]; done.
Qed.
(** The walk: finished claims are grounded, and the start is finished or on
    the stack. *)
Record walk_ok t kinds (done0 : gset ClaimId) (start : ClaimId) (w : Walk) : Prop := {
  wo_done : ∀ id, id ∈ w_done w → grounded t kinds id;
  wo_stack : stack_ok t kinds (.∈ w_done w) (w_stack w);
  wo_start : start ∈ w_done w ∨ start ∈ (w_stack w).*1;
  wo_keep : done0 ⊆ w_done w;
}.
Lemma wp_walk_ok t kinds limit done0 start w :
  walk_ok t kinds done0 start w →
  wp (walk_body kinds limit w) t (λ x t', t' = t ∧ match x with
    | inl w' => walk_ok t kinds done0 start w'
    | inr (finished, _) => done0 ⊆ finished ∧ start ∈ finished ∧ ∀ id, id ∈ finished → grounded t kinds id
    end).
Proof.
  intros [Hdone Hstack Hstart Hkeep]. unfold walk_body.
  destruct (w_stack w) as [|[id exit] stack] eqn:Hw; simpl in *; wps.
  { split; [done|]. split_and!; [done| |done]. destruct Hstart as [?|?%elem_of_nil]; done. }
  destruct Hstack as [Hid Hrest]. destruct exit; wps.
  - split; [done|]. split; simpl.
    + intros x [->%elem_of_singleton|?]%elem_of_union; [|auto]. constructor. intros y Hy. by apply Hdone, Hid.
    + eapply stack_ok_mono; [|exact Hrest]. set_solver.
    + set_solver.
    + set_solver.
  - destruct (bool_decide (id ∈ w_done w)) eqn:Hin; wps; boolh.
    + split; [done|]. split; simpl; try done; [|set_solver]. eapply stack_ok_mono; [|exact Hrest]. set_solver.
    + match goal with H : claims t !! id = Some _ |- _ => rename H into Hc end.
      eapply wp_mono; [apply wp_push_edges|]. intros st t' (-> & pre & -> & Hflag & Hall). wps.
      split; [done|]. split; simpl; try done.
      * apply stack_ok_enter; [done|]. simpl. split.
        -- intros _ y (c' & k & Hc' & Hk & Hy). simplify_eq. right. by eapply Hall.
        -- eapply stack_ok_mono; [|exact Hrest]. set_solver.
      * rewrite fmap_app. set_solver.
Qed.
Lemma wp_check_acyclic t kinds limit :
  wp (check_acyclic kinds limit) t (λ _ t', t' = t ∧
    ∀ id c, claims t !! id = Some c → grounded t kinds id).
Proof.
  unfold check_acyclic. apply wp_bind, wp_titer, wp_bind.
  apply (wp_mfold _ _ _ _ (λ l acc t', t' = t ∧ (∀ id, id ∈ acc.1 → grounded t kinds id)
    ∧ ∀ id c, claims t !! id = Some c → id ∈ acc.1 ∨ (id, c) ∈ l)).
  - split_and!; [done|set_solver|]. intros id c Hc. right. by apply elem_of_entries.
  - intros [id c] l [X v] t' (-> & Hg & Hall). simpl in *. unfold walk_from. simpl. case_bool_decide as Hin.
    { apply wp_ret. split_and!; [done..|]. simpl. intros id' c' Hc'.
      destruct (Hall id' c' Hc') as [?|[[= -> ->]|?]%elem_of_cons]; auto. }
    apply wp_bind, wp_quiet; [apply quiet_scratch|]. intros [].
    apply (wp_mloop _ _ _ _ (λ w t', t' = t ∧ walk_ok t kinds X id w)).
    + split; [done|]. split; simpl; [done| |set_solver|done]. by split.
    + intros w t' [-> Hw]. eapply wp_mono; [by apply (wp_walk_ok _ _ _ X id)|].
      intros [w'|[Y v']] t' [-> Hx]; [done|]. destruct Hx as (HXY & Hid & HY). split_and!; [done..|]. simpl.
      intros id' c' Hc'. destruct (Hall id' c' Hc') as [?|[[= -> ->]|?]%elem_of_cons]; auto.
  - intros [X v] t' (-> & Hg & Hall). apply wp_ret. split; [done|]. intros id c Hc. apply Hg.
    by destruct (Hall id c Hc) as [?|?%elem_of_nil].
Qed.

(** ** Waiting cycles *)
Definition runs_on t (d : ClaimId) : Prop :=
  ∃ c, claims t !! d = Some c ∧ is_active (status_of c) = true.
(** [x] waits for [y]: a dependency or an awaited claim that is active, or the
    target of a root of an open monitor that does not hold. *)
Definition waits t (x y : ClaimId) : Prop :=
  ∃ c, claims t !! x = Some c ∧
    ((y ∈ dependencies (content c) RelationKind.DependsOn ∨ y ∈ dependencies (content c) RelationKind.Awaits)
       ∧ runs_on t y
     ∨ ∃ m p, watches t x m ∧ p ∈ m_roots m ∧ wait_target p = y ∧ ¬ predicate_holds t p).
Lemma tests_claim_active d t : tests (claim_active d) t (runs_on t d).
Proof.
  unfold claim_active. apply wp_bind, wp_tget, wp_ret. simpl. split; [done|]. unfold runs_on.
  destruct (claims t !! d); naive_solver.
Qed.
Lemma wp_collect {A} (f : list ClaimId → A → SM (list ClaimId)) l result t (P : A → ClaimId → Prop) :
  (∀ result x, wp (f result x) t (λ result' t', t' = t ∧ ∀ y, y ∈ result' ↔ y ∈ result ∨ P x y)) →
  wp (mfold f l result) t (λ result' t', t' = t ∧ ∀ y, y ∈ result' ↔ y ∈ result ∨ ∃ x, x ∈ l ∧ P x y).
Proof.
  intros Hf. revert result. induction l as [|x l IH]; simpl; intros result.
  - apply wp_ret. split; [done|]. intros y. set_solver.
  - apply wp_bind. eapply wp_mono; [apply Hf|]. intros r t' [-> Hr].
    eapply wp_mono; [apply IH|]. intros r' t' [-> Hr']. split; [done|]. intros y. rewrite Hr', Hr. set_solver.
Qed.
Lemma wp_neighbors_spec x t :
  wp (neighbors x) t (λ ns t', t' = t ∧ ∀ y, y ∈ ns ↔ waits t x y).
Proof.
  unfold neighbors. apply wp_bind, wp_tget, wp_bind, wp_ok_or. simpl. intros c Hc. apply wp_bind.
  eapply wp_mono; [apply (wp_collect _ _ _ t (λ d y, y = d ∧ runs_on t d))|].
  { intros result d. apply wp_bind. eapply wp_mono; [apply tests_claim_active|]. intros [] t' [-> Hd].
    - apply wp_bind, wp_quiet; [apply quiet_scratch|]. intros []. apply wp_ret. split; [done|]. set_solver.
    - apply wp_ret. split; [done|]. naive_solver. }
  intros deps t' [-> Hdeps]. apply wp_bind, wp_open_monitors. intros ms Hms. apply wp_bind.
  eapply wp_mono; [apply (wp_collect _ _ _ t (λ m y, ∃ p, p ∈ m_roots m ∧ wait_target p = y ∧ ¬ predicate_holds t p))|].
  { intros result m. eapply wp_mono; [apply (wp_collect _ _ _ t (λ p y, wait_target p = y ∧ ¬ predicate_holds t p))|].
    - intros result' p. apply wp_bind. eapply wp_mono; [apply tests_predicate|]. intros [] t' [-> Hp].
      + apply wp_ret. split; [done|]. naive_solver.
      + apply wp_bind, wp_quiet; [apply quiet_scratch|]. intros []. apply wp_ret. split; [done|]. set_solver.
    - intros result' t' [-> Hr]. split; [done|]. intros y. rewrite Hr. by setoid_rewrite elem_of_set_iter. }
  intros result t' [-> Hr]. apply wp_ret. split; [done|]. intros y.
  rewrite elem_of_set_iter, elem_of_list_to_set, Hr, Hdeps. unfold waits. setoid_rewrite Hms.
  setoid_rewrite elem_of_app. set_solver.
Qed.
Lemma wp_reachable_spec start limit t :
  wp (reachable start limit) t (λ x t', t' = t ∧ ∀ y, y ∈ x.1 ↔ rtc (waits t) start y).
Proof.
  unfold reachable. apply wp_bind, wp_quiet; [apply quiet_scratch|]. intros [].
  apply wp_bind, wp_quiet; [apply quiet_graph_fuel|]. intros fuel.
  apply (wp_mloop _ _ _ _ (λ '(stack, seen, _) t', t' = t
    ∧ (∀ y, y ∈ stack ∨ y ∈ seen → rtc (waits t) start y) ∧ (start ∈ stack ∨ start ∈ seen)
    ∧ ∀ x y, x ∈ seen → waits t x y → y ∈ stack ∨ y ∈ seen)).
  - split_and!; [done| |set_solver|set_solver].
    intros y [->%list_elem_of_singleton|?]; [apply rtc_refl|set_solver].
  - intros [[stack seen] n] t' (-> & Hsound & Hstart & Hclosed). unfold reach_body.
    destruct stack as [|id stack].
    { apply wp_ret. split; [done|]. simpl. intros y. split; [intros Hy; apply Hsound; by right|].
      assert (start ∈ seen) as Hs by set_solver. clear Hstart Hsound. intros Hy. revert Hs.
      induction Hy as [|a b c Hab Hbc IH]; intros Ha; [done|]. apply IH.
      destruct (Hclosed a b Ha Hab); set_solver. }
    case_bool_decide as Hin.
    { apply wp_ret. split_and!; [done| | |].
      - intros y Hy. apply Hsound. set_solver.
      - set_solver.
      - intros x y Hx Hxy. destruct (Hclosed x y Hx Hxy); set_solver. }
    apply wp_bind, wp_quiet; [apply quiet_scratch|]. intros []. apply wp_bind, wp_refuse_if. intros _.
    apply wp_bind, wp_ok_or. intros n' _. apply wp_bind. eapply wp_mono; [apply wp_neighbors_spec|].
    intros ns t' [-> Hns]. apply wp_bind, wp_quiet; [apply quiet_scratch|]. intros []. apply wp_ret.
    assert (Hid : rtc (waits t) start id) by (apply Hsound; set_solver).
    split_and!; [done| | |].
    + intros y [[Hy%elem_of_reverse|?]%elem_of_app|[->%elem_of_singleton|?]%elem_of_union];
        [|apply Hsound; set_solver|done|apply Hsound; set_solver].
      eapply rtc_r; [exact Hid|]. rewrite reverse_involutive in Hy. by apply Hns.
    + set_solver.
    + intros x y [->%elem_of_singleton|Hx]%elem_of_union Hxy.
      * left. apply elem_of_app. left. apply elem_of_reverse. by apply Hns.
      * destruct (Hclosed x y Hx Hxy) as [[->|?]%elem_of_cons|?]; set_solver.
Qed.
Lemma wp_cycle_spec start limit t :
  wp (cycle_containing start limit) t (λ x t', t' = t ∧ match x with
    | Some component => tc (waits t) start start
        ∧ ∀ y, y ∈ component ↔ rtc (waits t) start y ∧ rtc (waits t) y start
    | None => ¬ tc (waits t) start start
    end).
Proof.
  unfold cycle_containing. apply wp_bind. eapply wp_mono; [apply wp_reachable_spec|].
  intros [from n] t' [-> Hfrom]. simpl in Hfrom. apply wp_bind.
  apply (wp_mfold _ _ _ _ (λ l x t', t' = t ∧ ∀ y, y ∈ x.1 ∨ y ∈ l ∧ rtc (waits t) y start
    ↔ rtc (waits t) start y ∧ rtc (waits t) y start)).
  { split; [done|]. intros y. simpl. rewrite elem_of_set_iter, Hfrom. set_solver. }
  { intros y l [component m] t' (-> & Hcomp). simpl in Hcomp. apply wp_bind.
    eapply wp_mono; [apply wp_reachable_spec|]. intros [back m'] t' [-> Hback]. simpl in Hback.
    case_bool_decide as Hs; rewrite Hback in Hs.
    - apply wp_bind, wp_quiet; [apply quiet_scratch|]. intros []. apply wp_ret. split; [done|]. simpl.
      intros z. rewrite <-Hcomp. set_solver.
    - apply wp_ret. split; [done|]. simpl. intros z. rewrite <-Hcomp, elem_of_cons. naive_solver. }
  intros [component m] t' (-> & Hcomp). simpl in Hcomp.
  assert (Hc : ∀ y, y ∈ component ↔ rtc (waits t) start y ∧ rtc (waits t) y start).
  { intros y. rewrite <-Hcomp. set_solver. }
  clear Hcomp. assert (Hself : start ∈ component) by (by apply Hc).
  destruct (N.ltb_spec 1 (N.of_nat (size component))) as [Hbig|Hone].
  - apply wp_ret. split; [done|]. split; [|done].
    assert (∃ y, y ∈ component ∧ y ≠ start) as (y & [Hy1 Hy2]%Hc & Hne).
    { destruct (set_choose_or_empty (component ∖ {[start]})) as [[y Hy]|He]; [exists y; set_solver|].
      assert (component ⊆ {[start]}) as Hsub.
      { intros x Hx. destruct (decide (x = start)); set_solver. }
      apply subseteq_size in Hsub.
      rewrite size_singleton in Hsub. lia. }
    inversion Hy1 as [|? z ? Hz Hzy]; subst; [done|].
    eapply tc_rtc_r; [apply tc_once; exact Hz|]. by etrans.
  - assert (Honly : ∀ y, y ∈ component → y = start).
    { intros y Hy. apply size_singleton_inv with component; [|done|done]. assert (size component ≠ 0); [|lia].
      intros H0%size_empty_inv. set_solver. }
    apply wp_bind. eapply wp_mono; [apply wp_neighbors_spec|]. intros ns t' [-> Hns]. apply wp_ret.
    split; [done|]. case_bool_decide as Hin; rewrite Hns in Hin.
    + split; [by apply tc_once|done].
    + intros Ht. apply Hin. inversion Ht as [? ? Hz|? z ? Hz Hzs]; subst; [done|].
      assert (z = start) as ->; [|done]. apply Honly, Hc. split; [by apply rtc_once|by apply tc_rtc].
Qed.
End laws.
