(* ===== verification/PropagateLaws.v ===== *)
(** * What propagation and cancellation compute

    Cancelling a claim closes it and every active claim it caused, directly or
    not, and changes no other row. A propagated ledger is settled: no open
    claim has a failed dependency, every claim of the satisfaction set is
    satisfied, and no claim or monitor is left to release. *)
From stdpp Require Import prelude gmap strings list relations.
From Stdlib Require Import NArith.
From S2P Require Import Prelude Vocabulary Objects Canonical Store StoreLaws Reducer.
From S2P Require Import Graph Validation Propagate Create Commands Hoare Steps Invariants OperationSteps.
From S2P Require Import CreateSteps Termination GraphLaws.

(** ** Cancellation *)
(** [child] was caused by [parent]. *)
Definition caused (t : Rows) (parent child : ClaimId) : Prop :=
  ∃ c, claims t !! child = Some c ∧ caused_by parent c = true.
Definition descends (t : Rows) : ClaimId → ClaimId → Prop := rtc (caused t).
(** The row of an active claim after the cancellation of [root]. *)
Definition cancelled (n : SessionSeq) (root : ClaimId) (st : ClaimStatus) (id : ClaimId) (c : Claim) : Claim :=
  if is_active (status_of c)
  then status_row n (if bool_decide (id = root) then st else ClaimStatus.Cancelled)
         (cl_revision (lifecycle c) + 1) (Some root) c
  else c.
Lemma cancelled_caused n root st id c p : caused_by p (cancelled n root st id c) = caused_by p c.
Proof. unfold cancelled. by destruct (is_active _). Qed.

Section cancel.
Context `{External} {cx : Ctx}.
Implicit Types (t : Rows).

(** The loop: [seen] is done, and what it caused is done or queued. *)
Record cancel_ok t root st (queue : list ClaimId) (seen : gset ClaimId) t' : Prop := {
  ca_sound : ∀ id, id ∈ queue ∨ id ∈ seen → descends t root id;
  ca_root : root ∈ queue ∨ root ∈ seen;
  ca_closed : ∀ p c, p ∈ seen → caused t p c → c ∈ queue ∨ c ∈ seen;
  ca_seen : ∀ id, id ∈ seen → claims t' !! id = cancelled cx_sequence root st id <$> claims t !! id;
  ca_unseen : ∀ id, id ∉ seen → claims t' !! id = claims t !! id;
  ca_rest : t' = upd Claims (claims t') t;
}.
Lemma cancel_caused t root st queue seen t' p c :
  cancel_ok t root st queue seen t' → caused t' p c ↔ caused t p c.
Proof.
  intros Hok. unfold caused. destruct (decide (c ∈ seen)) as [Hin|Hn].
  - rewrite (ca_seen _ _ _ _ _ _ Hok) by done. destruct (claims t !! c) as [row|]; [|naive_solver].
    simpl. split; [intros (? & [= <-] & ?)|intros (? & [= <-] & ?)]; eexists; (split; [done|]).
    + by erewrite <-cancelled_caused.
    + by rewrite cancelled_caused.
  - by rewrite (ca_unseen _ _ _ _ _ _ Hok).
Qed.
Lemma wp_push_all (ids : list ClaimId) queue t :
  wp (mfold (λ queue child, scratch 1;; mret (child :: queue)) ids queue) t
    (λ queue' t', t' = t ∧ ∀ y, y ∈ queue' ↔ y ∈ ids ∨ y ∈ queue).
Proof.
  eapply wp_mono; [apply (wp_collect _ _ _ t (λ x y, y = x))|].
  - intros r x. apply wp_bind, wp_quiet; [apply quiet_scratch|]. intros []. apply wp_ret. set_solver.
  - intros r t' [-> Hr]. split; [done|]. set_solver.
Qed.
(** The state after the claim [id] was taken from the queue and closed. *)
Lemma cancel_visit t root st id queue queue' seen t' c :
  cancel_ok t root st (id :: queue) seen t' → id ∉ seen → claims t !! id = Some c →
  (∀ y, y ∈ queue' ↔ caused t id y ∨ y ∈ queue) →
  cancel_ok t root st queue' ({[id]} ∪ seen) (ins Claims id (cancelled cx_sequence root st id c) t').
Proof.
  intros [Hs Hr Hcl Hse Hu Hrest] Hn Hc Hq.
  assert (Hid : descends t root id) by (apply Hs; left; by left). split.
  - intros y. rewrite Hq. intros [[Hy|?]|[->%elem_of_singleton|?]%elem_of_union]; [|apply Hs; set_solver..].
    by eapply rtc_r.
  - rewrite Hq. set_solver.
  - intros p y [->%elem_of_singleton|Hp]%elem_of_union Hy; [left; apply Hq; by left|].
    rewrite Hq. destruct (Hcl p y Hp Hy) as [[->|?]%elem_of_cons|?]; set_solver.
  - intros y [->%elem_of_singleton|Hy]%elem_of_union; unfold ins; simpl.
    + by rewrite lookup_insert_eq, Hc.
    + rewrite lookup_insert_ne by set_solver. auto.
  - intros y Hy. unfold ins. simpl. rewrite lookup_insert_ne by set_solver. apply Hu. set_solver.
  - unfold ins. simpl. rewrite Hrest. done.
Qed.
Lemma wp_cancel_step t root st queue seen t' :
  cancel_ok t root st queue seen t' →
  wp (cancel_body root st (queue, seen)) t' (λ x t2, match x with
    | inl (queue', seen') => cancel_ok t root st queue' seen' t2
    | inr _ => queue = [] ∧ t2 = t'
    end).
Proof.
  intros Hok. unfold cancel_body. destruct queue as [|id queue]; [by apply wp_ret|].
  case_bool_decide as Hin.
  { apply wp_ret. destruct Hok as [Hs Hr Hcl Hse Hu Hrest]. split; try done; [| |].
    - intros y Hy. apply Hs. set_solver.
    - set_solver.
    - intros p c Hp Hc. destruct (Hcl p c Hp Hc); set_solver. }
  apply wp_bind, wp_quiet; [apply quiet_scratch|]. intros []. apply wp_bind, wp_refuse_if. intros _.
  apply wp_bind, wp_titer, wp_bind. eapply wp_mono; [apply wp_push_all|]. intros queue' t2 [-> Hq].
  assert (Hq' : ∀ y, y ∈ queue' ↔ caused t id y ∨ y ∈ queue).
  { intros y. rewrite Hq, <-(cancel_caused _ _ _ _ _ _ id y Hok), list_elem_of_fmap. unfold caused. simpl.
    setoid_rewrite list_elem_of_filter. setoid_rewrite Is_true_true. split; (intros [Hy|?]; [left|by right]).
    - destruct Hy as ([y' c] & -> & Hc & Hin'%elem_of_entries). by exists c.
    - destruct Hy as (c & Hc & ?). exists (y, c). by rewrite elem_of_entries. }
  apply wp_bind, wp_get_claim. intros c Hc. rewrite (ca_unseen _ _ _ _ _ _ Hok) in Hc by done.
  pose proof (cancel_visit t root st id queue queue' seen t' c Hok Hin Hc Hq') as Hnew.
  unfold cancelled in Hnew. destruct (is_active (cl_status (lifecycle c))) eqn:Hact.
  - apply wp_bind, wp_set_status. intros c' rev Hc' _ [-> _]%checked_add_Some. apply wp_ret.
    rewrite (ca_unseen _ _ _ _ _ _ Hok) in Hc' by done. simplify_eq. exact Hnew.
  - apply wp_bind, wp_ret, wp_ret. unfold ins in Hnew. simpl in Hnew.
    rewrite insert_id in Hnew by (by rewrite (ca_unseen _ _ _ _ _ _ Hok)). by destruct t'.
Qed.
(** The rows a cancellation leaves. *)
Definition cancels t root st t' : Prop :=
  (∀ id, descends t root id → claims t' !! id = cancelled cx_sequence root st id <$> claims t !! id)
  ∧ (∀ id, ¬ descends t root id → claims t' !! id = claims t !! id)
  ∧ t' = upd Claims (claims t') t.
Lemma wp_cancel_tree root st t : wp (cancel_tree root st) t (λ _ t', cancels t root st t').
Proof.
  unfold cancel_tree. apply wp_bind, wp_quiet; [apply quiet_scratch|]. intros []. apply wp_bind, wp_titer.
  apply (wp_mloop _ _ _ _ (λ '(queue, seen) t', cancel_ok t root st queue seen t')).
  - split; try set_solver.
    by destruct t.
  - intros [queue seen] t' Hok. eapply wp_mono; [by apply wp_cancel_step|].
    intros [[queue' seen']|[]] t2; [done|]. intros [-> ->]. destruct Hok as [Hs Hr Hcl Hse Hu Hrest].
    assert (Hall : ∀ id, descends t root id → id ∈ seen).
    { apply (rtc_ind_r (.∈ seen)); [set_solver|]. intros p c _ Hc Hp. destruct (Hcl p c Hp Hc); set_solver. }
    split_and!; [auto| |done]. intros id Hn. apply Hu. intros Hin. apply Hn, Hs. by right.
Qed.
End cancel.

(** ** Propagation *)
(** No open claim depends on a failed one. *)
Definition calm (t : Rows) : Prop :=
  ∀ id c d, claims t !! id = Some c → is_terminal (status_of c) = false →
    d ∈ dependencies (content c) RelationKind.DependsOn → ¬ failed_claim t d.
(** What is left to do is nothing. *)
Record settled (t : Rows) : Prop := {
  se_calm : calm t;
  se_satisfied : ∀ id, satisfiable t id → ∃ c, claims t !! id = Some c ∧ status_of c = ClaimStatus.Satisfied;
  se_released : ∀ id c, claims t !! id = Some c → is_terminal (status_of c) = true →
    cl_released (lifecycle c) = false →
    ∃ k child, claims t !! k = Some child ∧ caused_by id child = true ∧ cl_released (lifecycle child) = false;
  se_monitors : ∀ k m, monitors t !! k = Some m → m_released m = None →
    (∃ owner, claims t !! m_owner m = Some owner ∧ cl_released (lifecycle owner) = false)
    ∧ ∃ p, p ∈ m_roots m ∧ ¬ predicate_holds t p;
}.

Section propagate.
Context `{External} {cx : Ctx}.
Implicit Types (t : Rows).

(** *** Dependency failure *)
Lemma wp_failed_none c t :
  wp (failed_dependency c) t (λ x t', t' = t ∧ (x = None →
    ∀ d, d ∈ dependencies (content c) RelationKind.DependsOn → ¬ failed_claim t d)).
Proof.
  unfold failed_dependency.
  apply (wp_mfold _ _ _ _ (λ l best t', t' = t ∧ (best = None →
    ∀ d, d ∈ dependencies (content c) RelationKind.DependsOn → d ∈ l ∨ ¬ failed_claim t d))).
  - split; [done|]. by left.
  - intros d l best t' [-> Hbest]. apply wp_bind, wp_tget, wp_ret. simpl. split; [done|]. intros Hnone d' Hd'.
    assert (best = None ∧ ¬ failed_claim t d) as [Hb Hd].
    { unfold failed_claim. destruct (claims t !! d) as [cd|]; [|split; [done|]; by intros (? & ? & _)].
      destruct (is_terminal (status_of cd)) eqn:Ht; simpl in Hnone;
        [|split; [done|]; intros (? & [= <-] & ? & _); congruence].
      case_bool_decide as Hs; [destruct best; [case_match|]; done|]. split; [done|].
      intros (cd' & [= <-] & _ & Hne). by apply Hne. }
    destruct (Hbest Hb d' Hd') as [[->|?]%elem_of_cons|?]; auto.
  - intros best t' [-> Hbest]. split; [done|]. intros Hb d Hd. destruct (Hbest Hb d Hd) as [?%elem_of_nil|]; done.
Qed.
Lemma wp_fail_scan_none visits t :
  wp (mfold fail_scan (entries (claims t)) (visits, [])) t (λ x t', t' = t ∧ (x.2 = [] → calm t)).
Proof.
  apply (wp_mfold _ _ _ _ (λ l x t', t' = t ∧ stored t l ∧ (x.2 = [] →
    ∀ id c, claims t !! id = Some c → is_terminal (status_of c) = false → (id, c) ∈ l
      ∨ ∀ d, d ∈ dependencies (content c) RelationKind.DependsOn → ¬ failed_claim t d))).
  - split_and!; [done|apply stored_entries|]. intros _ id c Hc _. left. by apply elem_of_entries.
  - intros [id c] l [v changes] t' (-> & [Hrow Hl]%stored_tail & Hx). simpl in Hrow, Hx. unfold fail_scan.
    apply wp_bind, wp_ok_or. intros v' _. apply wp_bind, wp_refuse_if. intros _. simpl.
    destruct (is_terminal (status_of c)) eqn:Ht.
    { apply wp_ret. split_and!; [done..|]. simpl. intros Hnil id' c' Hc' Ht'.
      destruct (Hx Hnil id' c' Hc' Ht') as [[[= -> ->]|?]%elem_of_cons|?]; [congruence|auto..]. }
    apply wp_bind. eapply wp_mono; [apply wp_failed_none|]. intros x t' [-> Hnone].
    destruct x as [[key w]|].
    + apply wp_bind, wp_quiet; [apply quiet_scratch|]. intros []. apply wp_ret. split_and!; [done..|].
      simpl. intros Hnil. by destruct changes.
    + apply wp_ret. split_and!; [done..|]. simpl. intros Hnil id' c' Hc' Ht'.
      destruct (Hx Hnil id' c' Hc' Ht') as [[[= -> ->]|?]%elem_of_cons|?]; auto.
  - intros x t' (-> & _ & Hx). split; [done|]. intros Hnil id c d Hc Ht Hd.
    destruct (Hx Hnil id c Hc Ht) as [?%elem_of_nil|Hall]; [done|auto].
Qed.
Lemma wp_fail_body_calm visits t :
  wp (fail_body visits) t (λ x t', match x with inl _ => True | inr _ => calm t' end).
Proof.
  unfold fail_body. apply wp_bind, wp_titer, wp_bind. eapply wp_mono; [apply wp_fail_scan_none|].
  intros [v changes] t' [-> Hnone]. simpl in Hnone. destruct changes as [|x changes].
  - apply wp_ret. auto.
  - apply wp_bind. apply (wp_mfor _ _ _ (λ _ _, True)); [done| |intros; by apply wp_ret].
    intros y l t1 _. by apply wp_set_status.
Qed.

(** *** Satisfaction and release keep the calm *)
Lemma calm_update t id c c' :
  calm t → claims t !! id = Some c → content c' = content c →
  (is_terminal (status_of c') = false → is_terminal (status_of c) = false) →
  (is_terminal (status_of c') = true → status_of c' = ClaimStatus.Satisfied ∨ status_of c' = status_of c) →
  calm (ins Claims id c' t).
Proof.
  intros Hcalm Hc Hcontent Hopen Hdone x cx' d. unfold ins. simpl. intros Hx Hxt Hd (cd & Hcd & Ht & Hns).
  simpl in Hcd.
  assert (Hfail : failed_claim t d).
  { apply lookup_insert_Some in Hcd as [[<- <-]|[_ ?]]; [|by exists cd]. exists c. split; [done|].
    destruct (Hdone Ht) as [?|Hs]; [done|]. by rewrite <-Hs. }
  apply lookup_insert_Some in Hx as [[<- <-]|[_ Hx]].
  - rewrite Hcontent in Hd. apply (Hcalm id c d); auto.
  - by apply (Hcalm x cx' d).
Qed.
Lemma calm_claims t t' : claims t' = claims t → calm t → calm t'.
Proof. unfold calm, failed_claim. by intros ->. Qed.
(** Nothing changed means every member was satisfied already. *)
Lemma wp_satisfy_quiet ids t :
  calm t →
  wp (mfold satisfy ids false) t (λ changed t', calm t' ∧ (changed = false → t' = t ∧
    ∀ id c, id ∈ ids → claims t !! id = Some c → status_of c = ClaimStatus.Satisfied)).
Proof.
  intros Hcalm. apply (wp_mfold _ _ _ _ (λ l changed t', calm t' ∧ (changed = false → t' = t ∧
    ∀ id c, id ∈ ids → claims t !! id = Some c → id ∈ l ∨ status_of c = ClaimStatus.Satisfied))).
  - split; [done|]. intros _. split; [done|]. by left.
  - intros id l changed t' [Hc' Hx]. unfold satisfy. apply wp_bind, wp_tget. simpl.
    destruct (claims t' !! id) as [c|] eqn:Hc.
    + case_bool_decide as Hs.
      * apply wp_bind, wp_set_status. intros c2 rev Hc2 Ht _. simplify_eq. apply wp_ret. split; [|done].
        eapply calm_update; [done..| |]; simpl; auto.
      * apply wp_ret. split; [done|]. intros Hch. destruct (Hx Hch) as [-> Hall]. split; [done|].
        intros id' c2 Hin Hc2. destruct (Hall id' c2 Hin Hc2) as [[->|?]%elem_of_cons|?]; auto.
        right. by simplify_eq.
    + apply wp_ret. split; [done|]. intros Hch. destruct (Hx Hch) as [-> Hall]. split; [done|].
      intros id' c2 Hin Hc2. destruct (Hall id' c2 Hin Hc2) as [[->|?]%elem_of_cons|?]; auto. congruence.
  - intros changed t' [Hc Hx]. split; [done|]. intros Hch. destruct (Hx Hch) as [-> Hall]. split; [done|].
    intros id c Hin Hid. by destruct (Hall id c Hin Hid) as [?%elem_of_nil|?].
Qed.
Lemma wp_release_calm ids t :
  calm t → wp (mfor ids release_claim) t (λ _ t', calm t' ∧ (ids = [] → t' = t)).
Proof.
  intros Hcalm. destruct ids as [|id ids]; [by apply wp_ret|].
  apply (wp_mfor _ _ _ (λ _ t', calm t')); [done| |done]. intros x l t' Hc.
  unfold release_claim. apply wp_bind, wp_get_claim. intros c Hx. apply wp_tinsert.
  eapply calm_update; [done..| |]; simpl; auto.
Qed.
Lemma wp_monitors_calm due t :
  calm t → wp (mfor due release_monitor) t (λ _ t', calm t' ∧ (due = [] → t' = t)).
Proof.
  intros Hcalm. destruct due as [|x due]; [by apply wp_ret|].
  apply (wp_mfor _ _ _ (λ _ t', calm t')); [done| |done]. intros [id owner] l t' Hc.
  unfold release_monitor. wps. apply wp_tput; [by eexists|]. wps. by eapply calm_claims.
Qed.
Lemma wp_none_due t :
  wp (mfold (λ due row, x ← monitor_due row; mret (due ++ option_list x)) (entries (monitors t)) []) t
    (λ due t', t' = t ∧ (due = [] → ∀ k m, monitors t !! k = Some m → m_released m = None →
      (∃ owner, claims t !! m_owner m = Some owner ∧ cl_released (lifecycle owner) = false)
      ∧ ¬ ∀ p, p ∈ m_roots m → predicate_holds t p)).
Proof.
  apply (wp_mfold _ _ _ _ (λ l due t', t' = t ∧ (due = [] → ∀ k m, monitors t !! k = Some m → m_released m = None →
      (k, m) ∈ l ∨ (∃ owner, claims t !! m_owner m = Some owner ∧ cl_released (lifecycle owner) = false)
      ∧ ¬ ∀ p, p ∈ m_roots m → predicate_holds t p))).
  - split; [done|]. intros _ k m Hm _. left. by apply elem_of_entries.
  - intros [k m] l due t' [-> Hdue]. apply wp_bind. unfold monitor_due.
    destruct (m_released m) eqn:Hrel.
    { apply wp_ret, wp_ret. simpl. rewrite app_nil_r. split; [done|]. intros Hnil k' m' Hm' Hr'.
      destruct (Hdue Hnil k' m' Hm' Hr') as [[[= -> ->]|?]%elem_of_cons|?]; [congruence|auto..]. }
    apply wp_bind, wp_tget, wp_bind, wp_ok_or. simpl. intros owner Ho. apply wp_bind.
    destruct (cl_released (lifecycle owner)) eqn:Hro.
    { apply wp_ret, wp_bind, wp_quiet; [apply quiet_scratch|]. intros []. apply wp_ret, wp_ret.
      split; [done|]. simpl. by destruct due. }
    eapply wp_mono; [apply (tests_mall _ _ t (predicate_holds t)); intros; apply tests_predicate|].
    intros [] t' [-> Hall].
    { apply wp_bind, wp_quiet; [apply quiet_scratch|]. intros []. apply wp_ret, wp_ret.
      split; [done|]. simpl. by destruct due. }
    apply wp_ret, wp_ret. simpl. rewrite app_nil_r. split; [done|]. intros Hnil k' m' Hm' Hr'.
    destruct (Hdue Hnil k' m' Hm' Hr') as [[[= -> ->]|?]%elem_of_cons|?]; [right|by left|by right].
    split; [by exists owner|]. intros Hp. enough (false = true) by done. apply Hall. intros p Hp'%elem_of_set_iter. auto.
  - intros due t' [-> Hdue]. split; [done|]. intros Hnil k m Hm Hr.
    destruct (Hdue Hnil k m Hm Hr) as [?%elem_of_nil|?]; done.
Qed.

(** *** The settled state *)
Lemma satisfiable_stored t id : satisfiable t id → ∃ c, claims t !! id = Some c.
Proof. intros Hs. apply (Hs (λ id, ∃ c, claims t !! id = Some c)). split; eauto. Qed.
#[local] Instance predicate_holds_dec t p : Decision (predicate_holds t p).
Proof.
  unfold predicate_holds. destruct (claims t !! wait_target p) as [c|]; [|right; by intros (? & ? & _)].
  assert (Decision (match p with
    | WaitSatisfied _ => status_of c = ClaimStatus.Satisfied
    | WaitTerminal _ => is_terminal (status_of c) = true
    | WaitReleased _ => cl_released (lifecycle c) = true
    end)) as [Hp|Hp] by (destruct p; apply _).
  - left. by exists c.
  - right. by intros (? & [= <-] & ?).
Defined.
Lemma missing_root t (roots : gset WaitPredicate) :
  (¬ ∀ p, p ∈ roots → predicate_holds t p) → ∃ p, p ∈ roots ∧ ¬ predicate_holds t p.
Proof.
  intros Hn. destruct (decide (set_Exists (λ p, ¬ predicate_holds t p) roots)) as [Hex|Hno]; [exact Hex|].
  exfalso. apply Hn. intros p Hp. apply dec_stable. intros Hnp. apply Hno. by exists p.
Qed.
Lemma wp_settle_settled visits t :
  calm t → wp (settle_body visits) t (λ x t', calm t' ∧ match x with inl _ => True | inr _ => settled t' end).
Proof.
  intros Hcalm. unfold settle_body. wps. eapply wp_mono; [apply wp_least_fixpoint|]. intros X t' [-> HX]. wps.
  eapply wp_mono; [by apply wp_satisfy_quiet|]. intros changed t1 [Hcalm1 Hsat]. wps.
  eapply wp_mono; [by apply wp_release_calm|]. intros [] t2 [Hcalm2 Hrel]. wps.
  eapply wp_mono; [apply wp_none_due|]. intros due t3 [-> Hdue]. wps.
  eapply wp_mono; [by apply wp_monitors_calm|]. intros [] t3 [Hcalm3 Hmon]. wps.
  split; [done|]. destruct changed; [done|]. destruct (Hsat eq_refl) as [-> Hall].
  case_bool_decide as Hids; [|done]. rewrite (Hrel Hids) in *.
  case_bool_decide as Hd; [|done]. rewrite (Hmon Hd) in *. simpl. split; [done| | |].
  - intros id Hid. destruct (satisfiable_stored _ _ Hid) as [c Hc]. exists c. split; [done|].
    apply (Hall id c); [|done]. by apply elem_of_set_iter, HX.
  - intros id c Hc Ht Hr. apply fmap_nil_inv in Hids.
    assert (Hno : ¬ Is_true (releasable (entries (claims t)) (id, c))).
    { intros Hyes. assert (Hin : (id, c) ∈ filter (λ row, Is_true (releasable (entries (claims t)) row)) (entries (claims t))).
      { apply list_elem_of_filter. split; [done|]. by apply elem_of_entries. }
      rewrite Hids in Hin. by apply elem_of_nil in Hin. }
    unfold releasable in Hno. simpl in Hno. rewrite Ht, Hr in Hno. simpl in Hno.
    destruct (existsb _ _) eqn:Hex; [|by exfalso; apply Hno].
    apply existsb_exists in Hex as (child & Hin & [? ?]%andb_true_iff).
    apply list_elem_of_In, elem_of_entries_snd in Hin as [k Hk]. exists k, child. boolh. done.
  - intros k m Hm Hr. destruct (Hdue Hd k m Hm Hr) as [Ho Hroots]. split; [done|]. by apply missing_root.
Qed.
Lemma wp_propagate t : wp propagate t (λ _ t', settled t').
Proof.
  unfold propagate. apply wp_bind, wp_titer, wp_bind, wp_titer, wp_bind.
  apply (wp_mloop _ _ _ _ (λ _ _, True)); [done|]. intros v t1 _.
  eapply wp_mono; [apply wp_fail_body_calm|]. intros [v2|v2] t2 Hcalm; [done|].
  apply (wp_mloop _ _ _ _ (λ _ t', calm t')); [done|]. intros v3 t3 Hcalm3.
  eapply wp_mono; [by apply wp_settle_settled|]. intros [v4|[]] t4 [Hc Hx]; done.
Qed.

(** ** Generation *)
(** A generated batch leaves no cycle of causes, supersessions and
    amendments. *)
Lemma wp_generate_grounded new t :
  wp (generate new) t (λ res t', match res with
    | CommandResult.Generated ids => ids = nc_id <$> new
        ∧ ∀ id c, claims t' !! id = Some c → grounded t' lineage id
    | _ => t' = t
    end).
Proof.
  unfold generate. wps. apply wp_quiet; [quiet|]. intros batch. destruct (negb (is_nil _)).
  { destruct (length _ =? length new)%nat; wps. done. }
  wps. apply wp_quiet; [quiet|]. intros b. wps.
  apply (wp_mfor _ _ _ (λ _ _, True)); [done| |].
  - intros c l t1 _. apply always_wp; [|done]. always.
  - intros t1 _. apply wp_bind. eapply wp_mono; [apply wp_check_acyclic|]. intros [] t2 [-> Hg]. wps. done.
Qed.
End propagate.
