(* ===== verification/Sessions.v ===== *)
(** * Requests and entries

    What the engine promises a client over a session: a prepared entry
    applies, a known request is answered by its receipt, an entry ends, leaves
    the ledger settled, and records exactly one receipt. *)
From stdpp Require Import prelude gmap strings list relations.
From Stdlib Require Import NArith.
From S2P Require Import Prelude Vocabulary Objects Canonical Store StoreLaws Reducer.
From S2P Require Import Graph Validation Propagate Create Commands Admission Core Simulation Hoare.
From S2P Require Import Refinement Pending Steps Invariants OperationSteps CommandSteps Evolution.
From S2P Require Import Termination GraphLaws PropagateLaws.

Lemma is_ok_ex {A E} (x : Result A E) : is_ok x → ∃ a, x = Ok a.
Proof. destruct x; [eauto|done]. Qed.

Section sessions.
Context `{External}.
Implicit Types (t : Rows).

(** ** Termination of entries *)
Lemma always_apply_body ledger limits seq p : always (apply_body ledger limits seq p).
Proof. unfold apply_body. apply always_bind; [apply always_execute_domain|]. always. Qed.
Lemma serial_run_ends c seq p : (serial_run c seq p).1 ≠ Err OutOfFuel.
Proof. by apply (always_ends _ (rows_of c) (always_apply_body _ _ _ _)). Qed.
Lemma apply_ends c seq p :
  fits (rd_rows (serial_run c seq p).2) → (apply c seq p).1 ≠ Err CoreError.Diverged.
Proof.
  intros Hfit. rewrite apply_eq_serial by done. rewrite apply_serial_run.
  destruct (apply_guard c seq p) as [[]|e] eqn:Hg.
  - pose proof (serial_run_ends c seq p) as Hend.
    destruct (serial_run c seq p) as [[receipt|[]] r]; simpl in *; congruence.
  - unfold apply_guard, from_schema in Hg. repeat case_match; simplify_eq/=; congruence.
Qed.

(** ** Receipts *)
Lemma step_receipt_rows n t t' : wstep n t t' → receipts t' = receipts t.
Proof. by destruct 1. Qed.
Lemma steps_receipt_rows n t t' : wsteps n t t' → receipts t' = receipts t.
Proof. induction 1 as [|t t1 t' Hs _ IH]; [done|]. rewrite IH. by eapply step_receipt_rows. Qed.
Lemma serial_outcome c seq p result c' :
  inv (sequence_of c) (rows_of c) → apply_serial c seq p = (Ok result, c') →
  seq = (sequence_of c + 1)%N ∧ sequence_of c' = seq ∧ st_ledger (co_state c') = st_ledger (co_state c)
  ∧ co_limits c' = co_limits c
  ∧ receipts (rows_of c') = <[request_key (p_input p) := ap_receipt result]> (receipts (rows_of c))
  ∧ mr_sequence (ap_receipt result) = seq ∧ mr_command_hash (ap_receipt result) = p_command_hash p.
Proof.
  intros Hinv Ha. destruct (serial_steps _ _ _ _ _ Hinv Ha) as (t1 & Hs & _ & -> & -> & ? & ? & ?).
  split_and!; try done. unfold ins. simpl. by rewrite (steps_receipt_rows _ _ _ Hs).
Qed.

(** ** Settled entries *)
Lemma wp_execute_settled {cx : Ctx} c t : wp (execute_domain c) t (λ _ t', settled t').
Proof.
  unfold execute_domain. apply wp_bind. eapply always_wp; [apply always_command|]. intros res t1.
  apply wp_bind. eapply wp_mono; [apply wp_propagate|]. intros [] t2 Hs.
  apply wp_bind, wp_quiet; [auto with quiet|]. intros []. apply wp_bind, wp_quiet; [auto with quiet|].
  intros []. by apply wp_ret.
Qed.
Lemma settled_receipt k r t : settled t → settled (ins Receipts k r t).
Proof. intros []. by split. Qed.
Lemma serial_settled c seq p result c' : apply_serial c seq p = (Ok result, c') → settled (rows_of c').
Proof.
  rewrite apply_serial_run. destruct (apply_guard c seq p); [|done].
  destruct (serial_run c seq p) as [[receipt|e] r] eqn:Hrun; [|done]. intros [= _ <-]. simpl.
  unfold serial_run, apply_body in Hrun. apply bind_ok in Hrun as (outcome & q1 & Hexec & Hrun).
  pose proof (wp_run _ (start (rows_of c) recorder_disabled) _ _ _ (wp_execute_settled (cx:=input_ctx
    (st_ledger (co_state c)) (co_limits c) (p_input p) seq) _ _) eq_refl Hexec) as [Hrec Hs].
  apply bind_ok in Hrun as ([] & q2 & Hins & [= _ <-]).
  pose proof (wp_run _ q1 _ _ _ (wp_tinsert Receipts (request_key (p_input p)) _ (rd_rows q1)
    (λ _ t', settled t') (settled_receipt _ _ _ Hs)) Hrec Hins) as [_ ?]. done.
Qed.

(** ** Preparation *)
Definition stage_run (c : Core) (input : AuthenticatedInput) :=
  stage_body (T:=@gmap) (st_ledger (co_state c)) (co_limits c) (sequence_of c) input
    (start (rows_of c) recorder_disabled).
Context {codec : ViewCodec}.
(** Preparation runs over the overlay as the serial run does. *)
Lemma prepare_run c input :
  fits (rd_rows (stage_run c input).2) →
  (∃ rec staged, stage_recorded c input [] (sequence_of c) recorder_disabled false = (Ok staged, rec)
     ∧ prepare c input = Ok (sm_prepared staged) ∧ failed rec = false)
  ∨ ∃ e, prepare c input = Err e ∧ (stage_run c input).1 = Err e.
Proof.
  intros Hfit. unfold prepare, stage_recorded.
  pose proof (run_over_layers _ _ (rows_of c) [] 0%N recorder_disabled
    (stage_body_sim (st_ledger (co_state c)) (co_limits c) (sequence_of c) input) (counts_nil _) eq_refl) as Hrun.
  simpl in Hrun. unfold eff_rows in Hrun. simpl in Hrun. unfold stage_run in *.
  destruct (stage_body _ _ _ _ (start (overlay_tables _ _) _)) as [x r],
    (stage_body _ _ _ _ (start (st_rows _) _)) as [y q]; simpl in *.
  destruct Hrun as [[-> Hok]|[_ [?|?]]]; [|done..]. destruct y as [receipt|e]; simpl.
  - left. eexists _, _. split_and!; [done|done|]. by apply Hok.
  - right. by exists e.
Qed.
(** A prepared request was admitted, and its entry applies. *)
Lemma prepared_facts c input p :
  fits (rd_rows (stage_run c input).2) → prepare c input = Ok p →
  ∃ receipt result c', stage_run c input = (Ok receipt, (stage_run c input).2) ∧ p_input p = input
    ∧ apply c (sequence_of c + 1) p = (Ok result, c')
    ∧ apply_serial c (sequence_of c + 1) p = (Ok result, c')
    ∧ fits (rd_rows (serial_run c (sequence_of c + 1) p).2)
    ∧ admitted_facts (st_ledger (co_state c)) (co_limits c) (sequence_of c) input (rows_of c)
        (p_command_hash p) (sequence_of c + 1).
Proof.
  intros Hfit Hp. destruct (prepare_run c input Hfit) as [(rec & staged & Hst & Hp' & Hf)|(e & He & _)];
    [|congruence].
  rewrite Hp in Hp'. injection Hp' as ->.
  destruct (stage_recorded_spec c input [] (sequence_of c) recorder_disabled false staged rec
    (counts_nil _) eq_refl Hst Hf) as (_ & Hseq & _ & _ & _ & Happly & Hinput & Hadm & receipt & q & Hq & Hrows).
  apply checked_add_Some in Hseq as [Hseq Hmax]. rewrite Hseq in *. rewrite eff_core_nil in Happly.
  change (eff_rows (rows_of c) []) with (rows_of c) in *. fold (stage_run c input) in Hq.
  assert (Hfit' : fits (rd_rows (serial_run c (sequence_of c + 1) (sm_prepared staged)).2)).
  { rewrite (serial_run_rows _ _ _ _ _ Happly). simpl in *. rewrite <-Hrows. by rewrite Hq in Hfit. }
  exists receipt, (sm_result staged). eexists. split_and!; [by rewrite Hq|done| |exact Happly|done|done].
  by rewrite apply_eq_serial.
Qed.

(** ** Commits *)
(** A request that was prepared and applied. *)
Definition commits (c : Core) (input : AuthenticatedInput) (result : ApplyResult) (c' : Core) : Prop :=
  ∃ p, fits (rd_rows (stage_run c input).2) ∧ prepare c input = Ok p
       ∧ apply c (sequence_of c + 1) p = (Ok result, c').
Definition session : Core → Core → Prop := rtc (λ c c', ∃ input result, commits c input result c').
Lemma commits_serial c input result c' :
  commits c input result c' →
  ∃ p, p_input p = input ∧ apply_serial c (sequence_of c + 1) p = (Ok result, c') ∧ entry c c'
    ∧ admitted_facts (st_ledger (co_state c)) (co_limits c) (sequence_of c) input (rows_of c)
        (p_command_hash p) (sequence_of c + 1).
Proof.
  intros (p & Hfit & Hp & Ha).
  destruct (prepared_facts _ _ _ Hfit Hp) as (receipt & result' & c2 & _ & Hi & Ha' & Hser & Hfit' & Hadm).
  rewrite Ha in Ha'. injection Ha' as <- <-. exists p. split_and!; [done|done| |done].
  by exists (sequence_of c + 1)%N, p, result.
Qed.
(** Later commits keep the receipts, the ledger and the limits. *)
Lemma session_keeps c c' :
  inv (sequence_of c) (rows_of c) → session c c' →
  receipts (rows_of c) ⊆ receipts (rows_of c') ∧ st_ledger (co_state c') = st_ledger (co_state c)
  ∧ co_limits c' = co_limits c.
Proof.
  intros Hinv. induction 1 as [|c c1 c' (input & result & Hc) _ IH]; [done|].
  destruct (commits_serial _ _ _ _ Hc) as (p & <- & Hser & He & Hadm).
  destruct (serial_outcome _ _ _ _ _ Hinv Hser) as (_ & _ & Hl & Hlim & Hr & _).
  destruct (IH (entry_inv _ _ Hinv He)) as (Hsub & -> & ->). split_and!; [|congruence..].
  etrans; [|exact Hsub]. rewrite Hr. apply insert_subseteq. apply Hadm.
Qed.

(** ** Known requests *)
(** The reply to a request whose key has a receipt. *)
Definition known_reply (receipt : MutationReceipt) (hash : ContentHash) : DomainOutcome :=
  if bool_decide (mr_command_hash receipt = hash) then DomainOutcome.Duplicate receipt
  else DomainOutcome.Refuse ErrorCode.IdempotencyConflict "request key is bound to another command".
Lemma bind_step {A B} (m : SM A) (f : A → SM B) q a q' : m q = (Ok a, q') → (m ≫= f) q = f a q'.
Proof. intros Hm. unfold mbind, M_bind. by rewrite Hm. Qed.
Lemma admit_known ledger limits prefix input bytes hash receipt q :
  rd_rec q = recorder_disabled →
  in_ledger input = ledger → in_principal input ≠ 0%N → in_request_id input ≠ 0%N →
  serialized_size (SerDurableInput input) = Some bytes → (bytes <= max_command_bytes limits)%N →
  command_hash input = Ok hash → receipts (rd_rows q) !! request_key input = Some receipt →
  admit_request (T:=@gmap) ledger limits prefix input q = (Err (Domain (known_reply receipt hash)), q).
Proof.
  intros Hq Hl Hp Hr Hs Hb Hh Hk. unfold admit_request.
  rewrite (bind_step _ _ q tt q) by (by rewrite Hl, bool_decide_neq_refl).
  rewrite (bind_step _ _ q tt q) by (apply N.eqb_neq in Hp, Hr; unfold is_zero; by rewrite Hp, Hr).
  rewrite (bind_step _ _ q bytes q) by (by rewrite Hs).
  rewrite (bind_step _ _ q tt q) by (apply N.ltb_ge in Hb; by rewrite Hb).
  rewrite (bind_step _ _ q true q) by (by destruct q; simpl in *; subst).
  rewrite (bind_step _ _ q tt q) by done.
  rewrite (bind_step _ _ q true q) by (by destruct q; simpl in *; subst).
  rewrite (bind_step _ _ q tt q) by done.
  rewrite (bind_step _ _ q hash q) by (by rewrite Hh).
  rewrite (bind_step _ _ q (Some receipt) q) by (unfold tget; simpl; by rewrite Hk).
  unfold known_reply, mbind, M_bind. by case_bool_decide.
Qed.
Lemma prepare_known c input bytes hash receipt :
  fits (rows_of c) → in_ledger input = st_ledger (co_state c) → in_principal input ≠ 0%N →
  in_request_id input ≠ 0%N → serialized_size (SerDurableInput input) = Some bytes →
  (bytes <= max_command_bytes (co_limits c))%N → command_hash input = Ok hash →
  receipts (rows_of c) !! request_key input = Some receipt →
  prepare c input = Err (Domain (known_reply receipt hash)).
Proof.
  intros Hfit Hl Hp Hr Hs Hb Hh Hk.
  assert (Hrun : stage_run c input = (Err (Domain (known_reply receipt hash)), start (rows_of c) recorder_disabled)).
  { unfold stage_run, stage_body, mbind, M_bind. by rewrite (admit_known _ _ _ _ bytes hash receipt). }
  destruct (prepare_run c input) as [(rec & staged & Hst & Hprep & Hf)|(e & -> & He)].
  - by rewrite Hrun.
  - destruct (prepared_facts c input (sm_prepared staged)) as (? & ? & ? & Hok & _); [by rewrite Hrun|done|].
    by rewrite Hrun in Hok.
  - rewrite Hrun in He. by injection He as <-.
Qed.

(** ** Failure reports *)
(** The manifest names a durable error artifact of the holder. *)
Definition reported t (ledger : LedgerId) (principal : ParticipantId) (receipt : ReceiptFence)
    (manifest : list ArtifactRef) : Prop :=
  ∃ reference artifact, reference ∈ manifest ∧ artifacts t !! ar_id reference = Some artifact
    ∧ content_hash_of artifact = ar_hash reference
    ∧ eligible_diagnostic artifact ledger principal receipt = true.
Lemma wp_find_diagnostic {cx : Ctx} ledger receipt manifest t :
  wp (find_diagnostic ledger receipt manifest) t (λ _ t', t' = t ∧ reported t ledger cx_principal receipt manifest).
Proof.
  induction manifest as [|reference manifest IH]; simpl; [apply wp_stop|].
  apply wp_bind, wp_tget, wp_bind, wp_ok_or. simpl. intros artifact Ha. apply wp_bind, wp_refuse_if.
  intros Hh%bool_decide_eq_false%dec_stable. destruct (eligible_diagnostic _ _ _ _) eqn:He.
  - apply wp_ret. split; [done|]. exists reference, artifact. split_and!; try done. by left.
  - eapply wp_mono; [exact IH|]. intros [] t' (-> & r & a & Hin & ?). split; [done|]. exists r, a.
    split; [by right|done].
Qed.
Lemma wp_admitted_close {cx : Ctx} id receipt testament set manifest summary confidence outcome t :
  outcome ≠ OutcomeKind.Complete →
  wp (validate_admission (Command.CloseTestament id receipt testament set manifest summary confidence outcome)) t
    (λ _ _, ∃ parent, claims t !! id = Some parent
      ∧ reported t (cc_ledger (content parent)) cx_principal receipt manifest).
Proof.
  intros Hout. unfold validate_admission, validate_report.
  assert (Hw : wp (validate_failure_report id receipt set manifest) t (λ _ t', t' = t ∧ ∃ parent,
    claims t !! id = Some parent ∧ reported t (cc_ledger (content parent)) cx_principal receipt manifest)).
  { unfold validate_failure_report. apply wp_bind, wp_tget, wp_bind, wp_ok_or. simpl. intros parent Hp.
    apply wp_bind, wp_ok_or. intros r _. do 2 (apply wp_bind, wp_refuse_if; intros _).
    apply wp_bind, wp_tget, wp_bind, wp_ok_or. intros s _. do 2 (apply wp_bind, wp_refuse_if; intros _).
    eapply wp_mono; [apply wp_find_diagnostic|]. naive_solver. }
  apply wp_bind. destruct outcome; try done;
    (eapply wp_mono; [exact Hw|]; intros [] t' [-> Hr]; apply wp_bind, wp_ret; by apply wp_ret).
Qed.
End sessions.
