(* ===== verification/Scenario.v ===== *)
(** * A ledger to evaluate

    A concrete hash and codec for the code outside the repository, and the log
    of a small session: a claim is generated, posted, received, worked on,
    testified, validated and satisfied; a second claim that depends on it is
    cancelled with the claim it caused. The definitions of the development run
    on it, and the hypotheses of its theorems hold there. *)
From stdpp Require Import prelude gmap strings list relations.
From Stdlib Require Import NArith.
From S2P Require Import Prelude Vocabulary Objects Canonical Store Reducer Commands Core.
From S2P Require Import StoreLaws Refinement Evolution.

#[local] Open Scope N_scope.

(** A shift-and-xor hash, and sizes that depend on the constructor only. *)
Definition demo_hash (bytes : list N) : ContentHash :=
  foldl (λ h b, N.lxor (2 * h) (b + 1)) 1 bytes.
#[export] Instance demo_external : External := {|
  blake3 := demo_hash;
  serialized_size x := Some 64;
  command_body_bytes revision c := Some [Command.code c; default 0 (Command.claim_id c)];
|}.
#[export] Instance demo_codec : ViewCodec := λ ledger seq rows limits, Some [seq; N.of_nat (length (claims rows))].

Definition demo_ledger : LedgerId := {| tenant := 1; session := 2 |}.
Definition alice : ParticipantId := 1.
Definition bob : ParticipantId := 2.
Definition root_command : RootCommandId := 77.
Definition no_error {A E} (d : A) (r : Result A E) : A := match r with Ok a => a | Err _ => d end.

(** ** Claims *)
Definition demo_validation (claim : ClaimId) (kind : ValidationKind) (handlers : list HandlerRef) :
    ValidationContent := {|
  vc_ledger := demo_ledger; vc_schema := SCHEMA; vc_claim := claim; vc_kind := kind;
  vc_phase := ValidationPhase.WholeWork; vc_mode := ValidationMode.Required; vc_description := "check";
  vc_quality_bar := None; vc_evaluator := alice; vc_handlers := handlers; vc_evidence_schemas := [];
  vc_contributed_by := []; vc_policy_revision := 0 |}.
Definition demo_handler : HandlerRef := {| h_id := 5; h_version := 6; h_agentic := false |}.
Definition claim_ref (id : ClaimId) : RelationTarget :=
  TargetObject {| or_ledger := demo_ledger; or_kind := ObjectKind.Claim; or_id := id |}.
Definition demo_claim (id occurrence : N) (cause : RelationTarget) (extra : list Relation) : NewClaim :=
  let receipt := demo_validation id ValidationKind.Receipt [] in
  let test := demo_validation id ValidationKind.Test [demo_handler] in
  {| nc_id := id;
     nc_content := {|
       cc_ledger := demo_ledger; cc_schema := SCHEMA; cc_occurrence := occurrence;
       cc_description := "work";
       cc_relations := [{| rel_kind := RelationKind.Issuer; rel_target := TargetParticipant alice |};
                        {| rel_kind := RelationKind.Subject; rel_target := TargetParticipant bob |};
                        {| rel_kind := RelationKind.ClaimAction; rel_target := TargetAction ActionType.Work |};
                        {| rel_kind := RelationKind.CausedBy; rel_target := cause |}] ++ extra;
       cc_scopes := [];
       cc_requirements :=
         [{| rq_id := id + 1; rq_specification := no_error 0 (specification_hash receipt) |};
          {| rq_id := id + 2; rq_specification := no_error 0 (specification_hash test) |}];
       cc_deadline := None |};
     nc_validations := [{| nv_id := id + 1; nv_content := receipt |}; {| nv_id := id + 2; nv_content := test |}] |}.
Definition depends_on (id : ClaimId) : Relation :=
  {| rel_kind := RelationKind.DependsOn; rel_target := claim_ref id |}.
Definition first_claim : NewClaim := demo_claim 10 1 (TargetRoot root_command) [].
Definition second_claim : NewClaim := demo_claim 20 2 (TargetRoot root_command) [depends_on 10].
Definition third_claim : NewClaim := demo_claim 30 3 (claim_ref 20) [].

(** ** Evidence *)
Definition demo_fence : ReceiptFence := {| f_receipt := 100; f_epoch := 1 |}.
Definition demo_artifact : NewArtifact := {| na_id := 40; na_content := {|
  ac_ledger := demo_ledger; ac_schema := SCHEMA; ac_kind := "report"; ac_schema_hash := 9;
  ac_metadata := []; ac_payload := Inline [1; 2; 3]; ac_producer := bob; ac_receipt := Some demo_fence;
  ac_inputs := []; ac_visibility := [] |} |}.
Definition demo_artifact_hash : ContentHash := no_error 0 (content_hash (na_content demo_artifact)).
Definition error_artifact : NewArtifact := {| na_id := 41; na_content := {|
  ac_ledger := demo_ledger; ac_schema := SCHEMA; ac_kind := "error"; ac_schema_hash := 9;
  ac_metadata := []; ac_payload := Inline [4]; ac_producer := bob; ac_receipt := Some demo_fence;
  ac_inputs := []; ac_visibility := [] |} |}.
Definition error_artifact_hash : ContentHash := no_error 0 (content_hash (na_content error_artifact)).
Definition error_manifest : list ArtifactRef := [{| ar_id := 41; ar_hash := error_artifact_hash |}].
Definition demo_manifest : list ArtifactRef := [{| ar_id := 40; ar_hash := demo_artifact_hash |}].
Definition demo_testament : TestamentContent := {|
  tc_ledger := demo_ledger; tc_schema := SCHEMA; tc_claim := 10; tc_receipt := demo_fence;
  tc_evidence_set := 60; tc_artifacts := demo_manifest; tc_summary := "done";
  tc_confidence := Confidence.Committed; tc_outcome := OutcomeKind.Complete |}.
Definition demo_run : ValidationRunId := {|
  vr_validation := 12; vr_target_hash := no_error 0 (content_hash demo_testament);
  vr_phase := ValidationPhase.WholeWork; vr_epoch := 1 |}.
Definition demo_verdict (value : VerdictValue) : VerdictRecord := {|
  ve_run := demo_run; ve_evaluator := alice; ve_handler := demo_handler; ve_attempt := 0;
  ve_manifest := no_error 0 (manifest_hash demo_manifest); ve_value := value; ve_evidence := demo_manifest |}.

(** ** Requests *)
Definition demo_authority (cause : Cause) : AuthorityContext := {|
  au_runtime := true; au_cause := cause; au_policy_revision := 0; au_logical_time := 50;
  au_evidence := [{| ea_descriptor_hash := demo_artifact_hash; ea_custody_revision := 1;
                     ea_durable := true; ea_schema_valid := true |};
                  {| ea_descriptor_hash := error_artifact_hash; ea_custody_revision := 1;
                     ea_durable := true; ea_schema_valid := true |}] |}.
Definition request (principal id : N) (cause : Cause) (c : Command) : AuthenticatedInput := {|
  in_ledger := demo_ledger; in_principal := principal; in_request_epoch := 1; in_request_id := id;
  in_expected_revision := None; in_authority := demo_authority cause; in_command := c |}.
Definition by_root (principal id : N) : Command → AuthenticatedInput :=
  request principal id (CauseRoot root_command).
Definition demo_inputs : list AuthenticatedInput :=
  [by_root alice 1 (Command.NegotiateEpoch 1);
   by_root bob 1 (Command.NegotiateEpoch 1);
   by_root alice 2 (Command.GenerateClaimBatch [first_claim; second_claim]);
   request alice 3 (CauseClaim 20) (Command.GenerateClaim third_claim);
   by_root alice 4 (Command.PostClaim 10);
   by_root bob 2 (Command.AcquireReceipt 10 100 1);
   by_root bob 3 (Command.RecordProgress 10 demo_fence "half");
   by_root bob 4 (Command.BeginEvidenceSet 10 demo_fence 60);
   by_root bob 5 (Command.AttachArtifact 10 demo_fence 60 demo_artifact);
   by_root bob 6 (Command.CloseTestament 10 demo_fence 50 60 demo_manifest "done" Confidence.Committed
                    OutcomeKind.Complete);
   by_root alice 5 (Command.AcknowledgeTestament 10 50);
   by_root alice 6 (Command.BeginWholeWorkValidation 10);
   by_root alice 7 (Command.RecordValidationVerdict (demo_verdict VerdictValue.Pass));
   by_root alice 8 (Command.CompleteWholeWork 10);
   by_root alice 9 (Command.RegisterMonitor 70 30 {[WaitTerminal 20]} {| dl_timer := 3; dl_generation := 1; dl_at := 99 |});
   by_root alice 10 (Command.CancelClaim 20 "stop")].

Definition demo_new : Core := core_new demo_ledger default_limits.
(** Prepare and apply each request in turn. *)
Fixpoint run_requests (c : Core) (inputs : list AuthenticatedInput) : list PreparedMutation * Core :=
  match inputs with
  | [] => ([], c)
  | input :: inputs =>
      match prepare c input with
      | Ok p => let '(log, c') := run_requests (apply c (sequence_of c + 1) p).2 inputs in (p :: log, c')
      | Err _ => run_requests c inputs
      end
  end.
Definition demo_log : list PreparedMutation := (run_requests demo_new demo_inputs).1.
(** The core after the first [n] requests. *)
Definition demo_core (n : nat) : Core := (run_requests demo_new (take n demo_inputs)).2.
(** The tables of every run fit their counters. *)
Fixpoint requests_fit (c : Core) (inputs : list AuthenticatedInput) : bool :=
  match inputs with
  | [] => true
  | input :: inputs =>
      match prepare c input with
      | Ok p =>
          let seq := (sequence_of c + 1)%N in
          bool_decide (fits (rd_rows (serial_run c seq p).2)) && requests_fit (apply c seq p).2 inputs
      | Err _ => requests_fit c inputs
      end
  end.
(** The [n]th request, the entry it prepares after the requests before it, and
    what the entry gives. *)
Definition demo_input (n : nat) : AuthenticatedInput := nth n demo_inputs (by_root alice 1 (Command.NegotiateEpoch 1)).
Definition no_entry : PreparedMutation := {|
  p_schema := 0; p_base := 0; p_input := demo_input 0; p_command_hash := 0;
  p_footprint := {| fp_ledger := demo_ledger; fp_session_exclusive := true |} |}.
Definition no_result : ApplyResult := {|
  ap_receipt := {| mr_ledger := demo_ledger; mr_key := request_key (demo_input 0); mr_sequence := 0;
                   mr_command_hash := 0; mr_outcome := CommandResult.Noop |};
  ap_deltas := []; ap_effects := [] |}.
Definition no_staged : StagedMutation := {|
  sm_prepared := no_entry; sm_result := no_result;
  sm_version := {| rv_sequence := 0; rv_rows := {| rw_rows := empty_tables; rw_structural := ∅; rw_added := ∅ |} |};
  sm_basis := None |}.
Definition prepared_by (c : Core) (input : AuthenticatedInput) : PreparedMutation := no_error no_entry (prepare c input).
Definition result_of (c : Core) (input : AuthenticatedInput) : ApplyResult :=
  no_error no_result (apply c (sequence_of c + 1) (prepared_by c input)).1.
Definition core_after (c : Core) (input : AuthenticatedInput) : Core :=
  (apply c (sequence_of c + 1) (prepared_by c input)).2.
(** A failure report: the error artifact attached, and the close that names it. *)
Definition report_core : Core :=
  core_after (demo_core 8) (by_root bob 5 (Command.AttachArtifact 10 demo_fence 60 error_artifact)).
Definition report_input : AuthenticatedInput :=
  by_root bob 6 (Command.CloseTestament 10 demo_fence 50 60 error_manifest "broken" Confidence.Committed
                   OutcomeKind.Failed).
(** A queue of room for four, and the pending states after one and two requests. *)
Definition queue_0 : PendingState := {| pe_ledger := None; pe_rows := []; pe_capacity := 4 |}.
Definition staged_by (p : PendingState) (input : AuthenticatedInput) : StagedMutation :=
  no_error no_staged (stage_pending_bounded (demo_core 5) p input 100000).
Definition queued (p : PendingState) (staged : StagedMutation) : PendingState := {|
  pe_ledger := Some demo_ledger; pe_rows := pe_rows p ++ [Some (sm_version staged)]; pe_capacity := pe_capacity p |}.
Definition queue_1 : PendingState := queued queue_0 (staged_by queue_0 (demo_input 5)).
Definition queue_2 : PendingState := queued queue_1 (staged_by queue_1 (demo_input 6)).
Definition status_at (c : Core) (id : ClaimId) : option ClaimStatus :=
  cl_status <$> (lifecycle <$> claims (rows_of c) !! id).


Lemma no_error_ok {A E} (d : A) (r : Result A E) : is_ok r → r = Ok (no_error d r).
Proof. by destruct r. Qed.
Lemma apply_result_ok c input :
  is_ok (apply c (sequence_of c + 1) (prepared_by c input)).1 →
  apply c (sequence_of c + 1) (prepared_by c input) = (Ok (result_of c input), core_after c input).
Proof. unfold result_of, core_after. by destruct (apply _ _ _) as [[]]. Qed.

(** ** The session is a ledger *)
Lemma requests_evolve c inputs :
  requests_fit c inputs = true → evolves c (run_requests c inputs).2.
Proof.
  revert c. induction inputs as [|input inputs IH]; simpl; intros c; [intros _; apply rtc_refl|].
  destruct (prepare c input) as [p|]; [|by apply IH].
  intros [Hfit%bool_decide_eq_true Hrest]%andb_true_iff. specialize (IH _ Hrest).
  destruct (apply c _ p) as [[result|e] c1] eqn:Ha; simpl in *;
    destruct (run_requests c1 inputs) as [log c2]; simpl in *.
  - eapply rtc_l; [|done]. by exists (sequence_of c + 1)%N, p, result.
  - apply apply_err in Ha as ->. done.
Qed.
Lemma run_requests_app c a b : (run_requests c (a ++ b)).2 = (run_requests (run_requests c a).2 b).2.
Proof.
  revert c. induction a as [|input a IH]; simpl; intros c; [done|].
  destruct (prepare c input) as [p|]; [|done]. specialize (IH (apply c (sequence_of c + 1) p).2).
  destruct (run_requests _ (a ++ b)), (run_requests _ a). done.
Qed.
Lemma demo_evolves m n :
  (m <= n)%nat → requests_fit (demo_core m) (drop m (take n demo_inputs)) = true →
  evolves (demo_core m) (demo_core n).
Proof.
  intros Hmn Hfit. unfold demo_core at 2. rewrite <-(take_drop m (take n demo_inputs)), run_requests_app.
  rewrite take_take, Nat.min_l by done. by apply requests_evolve.
Qed.
Lemma demo_reached n : requests_fit demo_new (take n demo_inputs) = true → ledger (demo_core n).
Proof. intros Hfit. exists demo_ledger, default_limits. by apply requests_evolve. Qed.

(** ** Evaluated facts *)
Ltac evaluate := vm_compute; first [reflexivity | exact I].
Ltac fits_now := apply (bool_decide_unpack _); evaluate.
(** The session up to its end, to its first receipt, and between the two. *)
Lemma demo_end_ledger : ledger (demo_core 16).
Proof. apply demo_reached. vm_compute. reflexivity. Qed.
Lemma demo_mid_ledger : ledger (demo_core 9).
Proof. apply demo_reached. vm_compute. reflexivity. Qed.
Lemma demo_mid_end : evolves (demo_core 9) (demo_core 16).
Proof. apply demo_evolves; [lia|]. vm_compute. reflexivity. Qed.
(** The session is evaluated by computation only, never by unification. *)
#[global] Opaque demo_core.
