(* ===== verification/EngineProperties.v ===== *)
(** * Properties of the engine

    Apply, staging, commit and the reply to requests. Each theorem is followed
    by a witness on the session of [Scenario.v]. *)
From stdpp Require Import prelude gmap strings list relations.
From Stdlib Require Import NArith.
From S2P Require Import Prelude Vocabulary Objects Canonical Store StoreLaws Reducer.
From S2P Require Import Graph Validation Propagate Create Commands Admission Core Simulation Hoare.
From S2P Require Import Refinement Pending Steps Invariants Evolution Termination GraphLaws.
From S2P Require Import PropagateLaws Sessions Scenario.

Section engine.
Context `{External}.

(** C1: [Core::apply], which runs the entry on a row overlay and publishes the
    written rows, gives the same result, outputs and state as the serial
    oracle, which runs it on a clone of the state; also when the entry is
    refused. The tables hold fewer than 2^64 rows. *)
Theorem apply_refines_serial c seq p :
  fits (rd_rows (serial_run c seq p).2) → apply c seq p = apply_serial c seq p.
Proof. apply apply_eq_serial. Qed.
(** C10: Applying an entry ends: no loop of the reducer, of the graph
    algorithms or of propagation runs on, whatever the state and the entry. *)
Theorem apply_terminates c seq p :
  fits (rd_rows (serial_run c seq p).2) → (apply c seq p).1 ≠ Err CoreError.Diverged.
Proof. apply apply_ends. Qed.
(** C4: A committed entry is a sequence of atomic transitions of the ledger,
    each allowed by [wstep] at the entry's sequence number, followed by the
    insertion of its receipt. *)
Theorem entry_refines_transitions c c' :
  ledger c → entry c c' →
  ∃ p result t, wsteps (sequence_of c + 1) (rows_of c) t
    ∧ rows_of c' = ins Receipts (request_key (p_input p)) (ap_receipt result) t
    ∧ sequence_of c' = (sequence_of c + 1)%N ∧ apply c (sequence_of c + 1) p = (Ok result, c').
Proof.
  intros Hl He. destruct (entry_steps c c' (ledger_inv c Hl) He) as (p & result & t & Hs & _ & Hseq & Hr & Ha).
  by exists p, result, t.
Qed.
(** C6: Every committed entry leaves the ledger settled: no open claim depends
    on a failed claim, every claim that the satisfaction rules reach is
    satisfied, every terminal claim is released unless a claim it caused is
    not, and every monitor that is not released has an unreleased owner and an
    unmet root. *)
Theorem entry_settles c c' : entry c c' → settled (rows_of c').
Proof.
  intros (seq & p & result & Hfit & Ha). rewrite apply_eq_serial in Ha by done. by eapply serial_settled.
Qed.
(** An entry that fails leaves the core as it was; one that applies
    advances the sequence by exactly one, keeps the ledger and the limits, and
    records its receipt under its request key and nothing else among the
    receipts. *)
Theorem apply_outcome c seq p result c' :
  ledger c → fits (rd_rows (serial_run c seq p).2) → apply c seq p = (result, c') →
  match result with
  | Err _ => c' = c
  | Ok r =>
      seq = (sequence_of c + 1)%N ∧ sequence_of c' = seq
      ∧ st_ledger (co_state c') = st_ledger (co_state c) ∧ co_limits c' = co_limits c
      ∧ receipts (rows_of c') = <[request_key (p_input p) := ap_receipt r]> (receipts (rows_of c))
      ∧ mr_sequence (ap_receipt r) = seq ∧ mr_command_hash (ap_receipt r) = p_command_hash p
  end.
Proof.
  intros Hl Hfit Ha. destruct result as [r|e]; [|by eapply apply_err].
  rewrite apply_eq_serial in Ha by done. eapply serial_outcome; [|done]. by apply ledger_inv.
Qed.

Context {codec : ViewCodec}.
(** C2: Staging a request over the committed core and its pending row
    versions, with any byte allowance, prepares the entry and computes the
    result that the serial oracle gives on the effective core, and the row
    version it stages turns that core into the oracle's. *)
Theorem staging_refines_serial c p preps input max_bytes staged :
  pending_inv c p preps → stage_pending_bounded c p input max_bytes = Ok staged →
  let version := sm_version staged in
  apply_serial (eff_core c (pe_rows p) (chain_end c (pe_rows p))) (rv_sequence version) (sm_prepared staged)
  = (Ok (sm_result staged), eff_core c (pe_rows p ++ [Some version]) (rv_sequence version)).
Proof.
  intros Hinv Hstage version. destruct (stage_bounded_inv _ _ _ _ _ _ Hinv Hstage) as (rec' & Hrun & Hf).
  destruct (stage_recorded_spec c input (pe_rows p) (chain_end c (pe_rows p)) (recorder_bounded max_bytes)
    true staged rec') as (_ & _ & _ & _ & _ & Happly & _); [|done..].
  by eapply chain_counts, Hinv.
Qed.
(** A staged request is accepted while the pending queue has room, and
    the queue then holds entries that were staged one after another. *)
Theorem staged_request_accepted c p preps input max_bytes staged :
  pending_inv c p preps → stage_pending_bounded c p input max_bytes = Ok staged →
  (N.of_nat (length (pe_rows p)) < pe_capacity p)%N →
  let p' := {| pe_ledger := Some (st_ledger (co_state c));
               pe_rows := pe_rows p ++ [Some (sm_version staged)]; pe_capacity := pe_capacity p |} in
  accept p c staged = (Ok (sm_prepared staged, sm_result staged), p')
  ∧ pending_inv c p' (preps ++ [(sm_prepared staged, sm_result staged)]).
Proof. apply accept_staged_inv. Qed.
(** C3: Pending entries commit as they were staged. Whatever led to the pending
    queue (from an empty one over any core: reserving room, staging requests over
    it with any byte allowance and accepting what was staged, committing, clearing,
    and applying other entries while nothing is pending), its oldest entries, any
    number of them, apply to the committed core one after another with exactly the
    results that were answered when they were staged; dropping them from the queue
    then succeeds, leaves the rest of the queue pending over the new core, and does
    not change the effective core. The tables with the pending rows hold fewer than
    [2^64] rows each, here and at the commits before. *)
Theorem commit_keeps_effective_core c p done rest :
  pending_run c p (done ++ rest) → fits (eff_rows (rows_of c) (pe_rows p)) →
  ∃ c' p', apply_all c done.*1 = (Ok <$> done.*2, c')
    ∧ drop_prefix (N.of_nat (length done)) p c' = (Ok tt, p')
    ∧ pending_run c' p' rest ∧ pe_rows p' = drop (length done) (pe_rows p)
    ∧ sequence_of c' = (sequence_of c + N.of_nat (length done))%N
    ∧ eff_core c' (pe_rows p') (chain_end c' (pe_rows p')) = eff_core c (pe_rows p) (chain_end c (pe_rows p)).
Proof.
  intros Hrun Hfit. destruct (commit_inv _ _ _ _ (pending_run_inv _ _ _ Hrun) Hfit) as (Ha & Hd & Hinv).
  eexists _, _. split; [exact Ha|]. split; [exact Hd|]. split; [by eapply run_committed|].
  assert (Hrows : pe_rows match length done with O => p | _ => dropped (length done) p end
    = drop (length done) (pe_rows p)) by (destruct done; simpl; by rewrite ?drop_0).
  rewrite Hrows. split; [done|].
  split; [eapply chain_end_counts; [apply inv_chain, pending_run_inv, Hrun|]|].
  { rewrite (chain_length _ _ _ (inv_chain _ _ _ (pending_run_inv _ _ _ Hrun))), length_app. lia. }
  by rewrite eff_core_app, chain_end_app, take_drop.
Qed.
(** An entry that was prepared on a core applies to it. *)
Theorem prepared_entry_applies c input p :
  fits (rd_rows (stage_run c input).2) → prepare c input = Ok p →
  ∃ result c', apply c (sequence_of c + 1) p = (Ok result, c') ∧ p_input p = input.
Proof.
  intros Hfit Hp. destruct (prepared_facts c input p Hfit Hp) as (_ & result & c' & _ & Hi & Ha & _).
  by exists result, c'.
Qed.
(** C13: A committed request may be retried at any later point of the session:
    it is answered by the receipt of its one execution. *)
Theorem retry_returns_receipt c input result c' later :
  ledger c → commits c input result c' → session c' later → fits (rows_of later) →
  prepare later input = Err (Domain (DomainOutcome.Duplicate (ap_receipt result))).
Proof.
  intros Hl Hc Hs Hfit. pose proof (ledger_inv c Hl) as Hinv.
  destruct (commits_serial _ _ _ _ Hc) as (p & Hi & Hser & He & Hledger & Hp & Hr & Hh & _ & _ & (bytes & Hb & Hmax) & _).
  destruct (serial_outcome _ _ _ _ _ Hinv Hser) as (_ & _ & Hl' & Hlim & Hrec & _ & Hhash).
  destruct (session_keeps _ _ (entry_inv _ _ Hinv He) Hs) as (Hsub & Hl2 & Hlim2).
  rewrite (prepare_known later input bytes (p_command_hash p) (ap_receipt result)); try congruence.
  - unfold known_reply. by rewrite bool_decide_eq_true_2.
  - eapply lookup_weaken; [|exact Hsub]. by rewrite Hrec, Hi, lookup_insert_eq.
Qed.
(** A request whose key has a receipt is never executed again: it is
    answered by that receipt if it is the same command, and refused as a
    conflict if it is another. *)
Theorem known_key_reply c input bytes hash receipt :
  fits (rows_of c) → in_ledger input = st_ledger (co_state c) → in_principal input ≠ 0%N →
  in_request_id input ≠ 0%N → serialized_size (SerDurableInput input) = Some bytes →
  (bytes <= max_command_bytes (co_limits c))%N → command_hash input = Ok hash →
  receipts (rows_of c) !! request_key input = Some receipt →
  prepare c input = Err (Domain (known_reply receipt hash)).
Proof. apply prepare_known. Qed.
(** A prepared request is of this ledger, has a fresh request key and a
    non-zero principal and identifier, fits the receipt budget, carries its own
    command hash, and is of an admitted generation not below the principal's
    floor, unless it negotiates one. *)
Theorem prepared_request_is_fenced c input p :
  fits (rd_rows (stage_run c input).2) → prepare c input = Ok p →
  in_ledger input = st_ledger (co_state c) ∧ in_principal input ≠ 0%N ∧ in_request_id input ≠ 0%N
  ∧ command_hash input = Ok (p_command_hash p) ∧ receipts (rows_of c) !! request_key input = None
  ∧ (N.of_nat (size (receipts (rows_of c))) < max_requests (co_limits c))%N
  ∧ ((∃ e, in_command input = Command.NegotiateEpoch e)
     ∨ ∃ w, epochs (rows_of c) !! in_principal input = Some w
            ∧ (ew_minimum w <= in_request_epoch input)%N ∧ in_request_epoch input ∈ ew_admitted w).
Proof.
  intros Hfit Hp. destruct (prepared_facts c input p Hfit Hp) as (_ & _ & _ & _ & _ & _ & _ & _ & Hadm).
  destruct Hadm as (? & ? & ? & ? & ? & ? & _ & _ & ?). by split_and!.
Qed.
(** A testament whose outcome is not complete is prepared only if its
    manifest names a stored artifact of kind error, with its recorded hash,
    produced by the caller under the receipt it testifies for, and in durable
    custody. *)
Theorem failure_testament_reported c input p id receipt testament set manifest summary confidence outcome :
  fits (rd_rows (stage_run c input).2) → prepare c input = Ok p →
  in_command input = Command.CloseTestament id receipt testament set manifest summary confidence outcome →
  outcome ≠ OutcomeKind.Complete →
  ∃ parent, claims (rows_of c) !! id = Some parent
    ∧ reported (rows_of c) (cc_ledger (content parent)) (in_principal input) receipt manifest.
Proof.
  intros Hfit Hp Hcmd Hout. destruct (prepared_facts c input p Hfit Hp) as (rc & _ & _ & Hrun & _).
  unfold stage_run, stage_body in Hrun. apply bind_ok in Hrun as ([hash sequence] & q1 & Hadmit & Hrun).
  eapply quiet_run in Hadmit as ->; [|apply quiet_admit_request|done].
  apply bind_ok in Hrun as ([] & q2 & Hval & _). rewrite Hcmd in Hval.
  pose proof (wp_run _ (start (rows_of c) recorder_disabled) _ _ _ (wp_admitted_close (cx:=input_ctx
    (st_ledger (co_state c)) (co_limits c) input sequence) id receipt testament set manifest summary confidence
    outcome (rows_of c) Hout) eq_refl Hval) as [_ Hr]. exact Hr.
Qed.
End engine.

(** ** Witnesses *)
(** The entry that acquires the receipt of the first claim. *)
Lemma apply_refines_serial_witness :
  status_at (core_after (demo_core 5) (demo_input 5)) 10 = Some ClaimStatus.Received
  ∧ apply (demo_core 5) 6 (prepared_by (demo_core 5) (demo_input 5))
    = apply_serial (demo_core 5) 6 (prepared_by (demo_core 5) (demo_input 5)).
Proof. split; [evaluate|]. apply apply_refines_serial. fits_now. Defined.
Lemma apply_terminates_witness :
  (apply (demo_core 5) 6 (prepared_by (demo_core 5) (demo_input 5))).1 ≠ Err CoreError.Diverged.
Proof. apply apply_terminates. fits_now. Defined.
Lemma demo_entry n :
  fits (rd_rows (serial_run (demo_core n) (sequence_of (demo_core n) + 1) (prepared_by (demo_core n) (demo_input n))).2) →
  is_ok (apply (demo_core n) (sequence_of (demo_core n) + 1) (prepared_by (demo_core n) (demo_input n))).1 →
  entry (demo_core n) (core_after (demo_core n) (demo_input n)).
Proof. intros Hfit Hok. by do 3 eexists; split; [exact Hfit|apply apply_result_ok]. Qed.
Lemma entry_refines_transitions_witness :
  ∃ p result t, wsteps (sequence_of (demo_core 9) + 1) (rows_of (demo_core 9)) t
    ∧ rows_of (core_after (demo_core 9) (demo_input 9)) = ins Receipts (request_key (p_input p)) (ap_receipt result) t
    ∧ sequence_of (core_after (demo_core 9) (demo_input 9)) = (sequence_of (demo_core 9) + 1)%N
    ∧ apply (demo_core 9) (sequence_of (demo_core 9) + 1) p = (Ok result, core_after (demo_core 9) (demo_input 9)).
Proof. apply entry_refines_transitions; [apply demo_mid_ledger|]. apply demo_entry; [fits_now|evaluate]. Defined.
Lemma entry_settles_witness : settled (rows_of (core_after (demo_core 13) (demo_input 13))).
Proof. apply (entry_settles (demo_core 13)). apply demo_entry; [fits_now|evaluate]. Defined.
Lemma apply_outcome_witness :
  sequence_of (core_after (demo_core 9) (demo_input 9)) = 10%N
  ∧ receipts (rows_of (core_after (demo_core 9) (demo_input 9)))
    = <[request_key (p_input (prepared_by (demo_core 9) (demo_input 9)))
        := ap_receipt (result_of (demo_core 9) (demo_input 9))]> (receipts (rows_of (demo_core 9))).
Proof.
  destruct (apply_outcome (demo_core 9) (sequence_of (demo_core 9) + 1) (prepared_by (demo_core 9) (demo_input 9))
    (Ok (result_of (demo_core 9) (demo_input 9))) (core_after (demo_core 9) (demo_input 9)))
    as (_ & -> & _ & _ & Hr & _); [apply demo_mid_ledger|fits_now|apply apply_result_ok; evaluate|].
  split; [evaluate|exact Hr].
Defined.

(** The entry and the result of a request staged over a queue. *)
Definition entry_of (p : PendingState) (input : AuthenticatedInput) : PreparedMutation * ApplyResult :=
  (sm_prepared (staged_by p input), sm_result (staged_by p input)).
Lemma queue_0_run : pending_run (demo_core 5) queue_0 [].
Proof. apply (run_reserved _ pending_new [] 4); [constructor|reflexivity]. Qed.
Lemma queue_run p entries input :
  pending_run (demo_core 5) p entries → (N.of_nat (length (pe_rows p)) < pe_capacity p)%N →
  is_ok (stage_pending_bounded (demo_core 5) p input 100000) → st_ledger (co_state (demo_core 5)) = demo_ledger →
  pending_run (demo_core 5) (queued p (staged_by p input)) (entries ++ [entry_of p input]).
Proof.
  intros Hrun Hroom Hs Hl. apply (no_error_ok no_staged) in Hs. eapply run_staged; [exact Hrun|exact Hs|].
  destruct (accept_staged_inv _ _ _ _ _ _ (pending_run_inv _ _ _ Hrun) Hs Hroom) as [Ha _].
  unfold queued. rewrite <-Hl. exact Ha.
Qed.
Lemma queue_1_run : pending_run (demo_core 5) queue_1 [entry_of queue_0 (demo_input 5)].
Proof. apply (queue_run queue_0 []); [apply queue_0_run|done|evaluate|evaluate]. Qed.
Lemma queue_2_run : pending_run (demo_core 5) queue_2 ([entry_of queue_0 (demo_input 5)] ++ [entry_of queue_1 (demo_input 6)]).
Proof. apply (queue_run queue_1); [apply queue_1_run|evaluate|evaluate|evaluate]. Qed.
(** The second of two requests staged over the committed core. *)
Lemma staging_refines_serial_witness :
  let staged := staged_by queue_1 (demo_input 6) in
  apply_serial (eff_core (demo_core 5) (pe_rows queue_1) (chain_end (demo_core 5) (pe_rows queue_1)))
    (rv_sequence (sm_version staged)) (sm_prepared staged)
  = (Ok (sm_result staged),
     eff_core (demo_core 5) (pe_rows queue_1 ++ [Some (sm_version staged)]) (rv_sequence (sm_version staged))).
Proof.
  apply (staging_refines_serial (demo_core 5) queue_1 [entry_of queue_0 (demo_input 5)] (demo_input 6) 100000); [apply pending_run_inv, queue_1_run|].
  apply no_error_ok. evaluate.
Defined.
Lemma staged_request_accepted_witness :
  accept queue_1 (demo_core 5) (staged_by queue_1 (demo_input 6))
  = (Ok (sm_prepared (staged_by queue_1 (demo_input 6)), sm_result (staged_by queue_1 (demo_input 6))), queue_2).
Proof.
  apply (staged_request_accepted (demo_core 5) queue_1 [entry_of queue_0 (demo_input 5)] (demo_input 6) 100000); [apply pending_run_inv, queue_1_run| |done].
  apply no_error_ok. evaluate.
Defined.
(** The older of two pending entries. *)
Lemma commit_keeps_effective_core_witness :
  ∃ c' p', apply_all (demo_core 5) [sm_prepared (staged_by queue_0 (demo_input 5))]
      = ([Ok (sm_result (staged_by queue_0 (demo_input 5)))], c')
    ∧ drop_prefix 1 queue_2 c' = (Ok tt, p') ∧ pending_run c' p' [entry_of queue_1 (demo_input 6)]
    ∧ sequence_of c' = 6%N.
Proof.
  destruct (commit_keeps_effective_core (demo_core 5) queue_2 _ _ queue_2_run) as (c' & p' & Ha & Hd & Hr & _ & Hs & _);
    [fits_now|]. exists c', p'. split; [exact Ha|]. split; [exact Hd|]. split; [exact Hr|]. rewrite Hs. evaluate.
Defined.
Lemma prepared_entry_applies_witness :
  ∃ result c', apply (demo_core 5) (sequence_of (demo_core 5) + 1) (prepared_by (demo_core 5) (demo_input 5)) = (Ok result, c')
    ∧ p_input (prepared_by (demo_core 5) (demo_input 5)) = demo_input 5.
Proof. apply (prepared_entry_applies (demo_core 5)); [fits_now|]. apply no_error_ok. evaluate. Defined.
Lemma demo_commits c input :
  fits (rd_rows (stage_run c input).2) → is_ok (prepare c input) →
  is_ok (apply c (sequence_of c + 1) (prepared_by c input)).1 →
  commits c input (result_of c input) (core_after c input).
Proof.
  intros Hfit Hp Ha. exists (prepared_by c input). split_and!; [done|by apply no_error_ok|by apply apply_result_ok].
Qed.
(** The close of the testament, retried after its acknowledgement. *)
Lemma retry_returns_receipt_witness :
  let c1 := core_after (demo_core 9) (demo_input 9) in
  prepare (core_after c1 (demo_input 10)) (demo_input 9)
  = Err (Domain (DomainOutcome.Duplicate (ap_receipt (result_of (demo_core 9) (demo_input 9))))).
Proof.
  intros c1. apply (retry_returns_receipt (demo_core 9) (demo_input 9) _ c1); [apply demo_mid_ledger| | |fits_now].
  - apply demo_commits; [fits_now|evaluate..].
  - apply rtc_once. eexists _, _. apply (demo_commits c1 (demo_input 10)); [fits_now|evaluate..].
Defined.
(** The key of the post, reused for a cancellation. *)
Lemma known_key_reply_witness :
  prepare (demo_core 9) (by_root alice 4 (Command.CancelClaim 20 "stop"))
  = Err (Domain (DomainOutcome.Refuse ErrorCode.IdempotencyConflict "request key is bound to another command")).
Proof.
  assert (Hk : ∃ receipt, receipts (rows_of (demo_core 9)) !! request_key (by_root alice 4 (Command.CancelClaim 20 "stop"))
    = Some receipt ∧ mr_command_hash receipt = p_command_hash (prepared_by (demo_core 4) (demo_input 4))).
  { vm_compute. eexists. split; reflexivity. }
  destruct Hk as (receipt & Hk & Hh).
  rewrite (known_key_reply (demo_core 9) _ 64 (no_error 0%N (command_hash (by_root alice 4 (Command.CancelClaim 20 "stop")))) receipt);
    [|fits_now|evaluate|discriminate|discriminate|reflexivity|vm_compute; discriminate|evaluate|exact Hk].
  unfold known_reply. rewrite bool_decide_eq_false_2; [done|]. rewrite Hh. vm_compute. discriminate.
Defined.
Lemma prepared_request_is_fenced_witness :
  receipts (rows_of (demo_core 5)) !! request_key (demo_input 5) = None
  ∧ ∃ w, epochs (rows_of (demo_core 5)) !! bob = Some w ∧ 1%N ∈ ew_admitted w.
Proof.
  destruct (prepared_request_is_fenced (demo_core 5) (demo_input 5) (prepared_by (demo_core 5) (demo_input 5)))
    as (_ & _ & _ & _ & Hk & _ & [[e He]|(w & Hw & _ & Hin)]); [fits_now|apply no_error_ok; evaluate|discriminate He|].
  split; [exact Hk|]. exists w. split; [exact Hw|exact Hin].
Defined.
Lemma failure_testament_reported_witness :
  ∃ parent, claims (rows_of report_core) !! 10%N = Some parent
    ∧ reported (rows_of report_core) (cc_ledger (content parent)) bob demo_fence error_manifest.
Proof.
  apply (failure_testament_reported report_core report_input (prepared_by report_core report_input) 10 demo_fence 50 60
    error_manifest "broken" Confidence.Committed OutcomeKind.Failed); [fits_now| |done|done].
  apply no_error_ok. evaluate.
Defined.
