(* ===== verification/LedgerProperties.v ===== *)
(** * Properties of every reachable ledger

    What holds of the claims, validations, evidence, receipts, identities and
    request generations of every core reached by committed entries, and what
    later entries keep. *)
From stdpp Require Import prelude gmap strings list relations.
From Stdlib Require Import NArith.
From S2P Require Import Prelude Vocabulary Objects Canonical Store StoreLaws Reducer.
From S2P Require Import Graph Validation Propagate Create Commands Core Hoare.
From S2P Require Import Refinement Steps Invariants Evolution Scenario.

(** The status of a claim over its history, as the source's doc tables draw it. *)
Definition lawful_history (n : SessionSeq) (c : Claim) : Prop :=
  let l := lifecycle c in
  cl_revision l = N.of_nat (length (cl_history l))
  ∧ head (cl_history l) = Some {| sf_status := ClaimStatus.Generated; sf_sequence := cl_created l |}
  ∧ sf_status <$> last (cl_history l) = Some (cl_status l)
  ∧ linked edge (sf_status <$> cl_history l) = true
  ∧ linked (λ a b, (a <=? b)%N) ((sf_sequence <$> cl_history l) ++ [n]) = true.

Section ledger.
Context `{External}.

(** C5: A satisfied claim was validated: it is locally complete, it has a
    required validation after admission, and each of its required validations
    after admission has runs, all of which ended in a pass. *)
Theorem satisfied_means_validated c id cl :
  ledger c → claims (rows_of c) !! id = Some cl → status_of cl = ClaimStatus.Satisfied →
  cl_local_complete (lifecycle cl) = true
  ∧ (∃ vid v, validations (rows_of c) !! vid = Some v ∧ decides id v)
  ∧ ∀ vid v, validations (rows_of c) !! vid = Some v → decides id v →
      (∃ k r, runs (rows_of c) !! k = Some r ∧ vr_validation (run_id r) = vid)
      ∧ ∀ k r, runs (rows_of c) !! k = Some r → vr_validation (run_id r) = vid →
          run_final_verdict r = Some VerdictValue.Pass.
Proof.
  intros Hinv%ledger_inv Hc Hs.
  assert (Hl : cl_local_complete (lifecycle cl) = true) by (by apply (ci_satisfied _ _ (iv_claims _ _ Hinv _ _ Hc))).
  split_and!; [done|by eapply (iv_required _ _ Hinv)|].
  intros vid v Hv (Hid & Hm & Hp). by apply (iv_checked _ _ Hinv _ _ Hc Hl vid v).
Qed.
(** C11: The history of every claim starts with its generation, follows the
    edges of the status machine, ends in its status, counts its revision, and
    its sequence numbers never decrease nor pass the ledger's. *)
Theorem claim_history_lawful c id cl :
  ledger c → claims (rows_of c) !! id = Some cl → lawful_history (sequence_of c) cl.
Proof. intros Hinv%ledger_inv Hc. apply (iv_claims _ _ Hinv _ _ Hc). Qed.
(** A terminal claim is frozen: later entries keep its status, history,
    receipt, testament and completion. *)
Theorem terminal_claim_frozen c c' id cl :
  ledger c → evolves c c' → claims (rows_of c) !! id = Some cl → is_terminal (status_of cl) = true →
  ∃ cl', claims (rows_of c') !! id = Some cl' ∧ content cl' = content cl ∧ status_of cl' = status_of cl
    ∧ cl_history (lifecycle cl') = cl_history (lifecycle cl)
    ∧ cl_receipt (lifecycle cl') = cl_receipt (lifecycle cl)
    ∧ cl_testament (lifecycle cl') = cl_testament (lifecycle cl)
    ∧ cl_local_complete (lifecycle cl') = cl_local_complete (lifecycle cl).
Proof.
  intros Hl He Hc Ht. destruct (le_claims _ _ (evolves_le _ _ (ledger_inv _ Hl) He) id cl Hc) as (cl' & Hc' & Hle).
  exists cl'. split; [done|]. split; [apply Hle|]. by apply Hle.
Qed.
(** No entry rewrites what was authored or recorded of a claim: its
    content, hash and creation stay, its history only grows, and completion
    and release are never undone. *)
Theorem claim_record_append_only c c' id cl :
  ledger c → evolves c c' → claims (rows_of c) !! id = Some cl →
  ∃ cl', claims (rows_of c') !! id = Some cl' ∧ content cl' = content cl
    ∧ content_hash_of cl' = content_hash_of cl ∧ cl_created (lifecycle cl') = cl_created (lifecycle cl)
    ∧ cl_history (lifecycle cl) `prefix_of` cl_history (lifecycle cl')
    ∧ (cl_local_complete (lifecycle cl) = true → cl_local_complete (lifecycle cl') = true)
    ∧ (cl_released (lifecycle cl) = true → cl_released (lifecycle cl') = true).
Proof.
  intros Hl He Hc. destruct (le_claims _ _ (evolves_le _ _ (ledger_inv _ Hl) He) id cl Hc) as (cl' & Hc' & []).
  by exists cl'.
Qed.
(** A receipt identifier entitles one claim: no two claims hold the same
    one, a claim in work holds a receipt, and one that was never received
    holds none. *)
Theorem receipt_entitles_one_claim c id1 id2 cl1 cl2 :
  ledger c → claims (rows_of c) !! id1 = Some cl1 → claims (rows_of c) !! id2 = Some cl2 →
  (status_of cl1 ∈ holding → is_Some (cl_receipt (lifecycle cl1)))
  ∧ (unreceived (status_of cl1) = true → cl_receipt (lifecycle cl1) = None)
  ∧ ∀ r1 r2, cl_receipt (lifecycle cl1) = Some r1 → cl_receipt (lifecycle cl2) = Some r2 →
      f_receipt (r_fence r1) = f_receipt (r_fence r2) → id1 = id2.
Proof.
  intros Hinv%ledger_inv H1 H2. pose proof (iv_claims _ _ Hinv _ _ H1) as Hc.
  split; [apply Hc|]. split; [apply Hc|]. intros. by eapply (iv_receipts _ _ Hinv).
Qed.
(** A claim's receipt is replaced only by one of a later epoch, so a fence
    of an earlier epoch never becomes current again. *)
Theorem receipt_epochs_increase c c' id cl r :
  ledger c → evolves c c' → claims (rows_of c) !! id = Some cl → cl_receipt (lifecycle cl) = Some r →
  ∃ cl' r', claims (rows_of c') !! id = Some cl' ∧ cl_receipt (lifecycle cl') = Some r'
    ∧ (r' = r ∨ (f_epoch (r_fence r) < f_epoch (r_fence r'))%N).
Proof.
  intros Hl He Hc Hr. destruct (le_claims _ _ (evolves_le _ _ (ledger_inv _ Hl) He) id cl Hc) as (cl' & Hc' & Hle).
  destruct (cle_receipt _ _ Hle r Hr) as (r' & Hr' & [->|?]); exists cl', r'; auto.
Qed.
(** C12: The identity index is exact: an entry names a stored object of its
    kind with that content hash, every stored claim, artifact and testament is
    found under its hash, and the recorded hash of every stored claim,
    validation, artifact and testament is the canonical hash of its content. *)
Theorem identity_index_exact c :
  ledger c →
  (∀ k h o, identities (rows_of c) !! (k, h) = Some o → object_hash (rows_of c) k o = Some h)
  ∧ (∀ k h o, k ≠ ObjectKind.Validation → object_hash (rows_of c) k o = Some h →
       identities (rows_of c) !! (k, h) = Some o)
  ∧ (∀ id cl, claims (rows_of c) !! id = Some cl → content_hash (content cl) = Ok (content_hash_of cl))
  ∧ (∀ id v, validations (rows_of c) !! id = Some v → content_hash (content v) = Ok (content_hash_of v))
  ∧ (∀ id a, artifacts (rows_of c) !! id = Some a → content_hash (content a) = Ok (content_hash_of a))
  ∧ ∀ id tm, testaments (rows_of c) !! id = Some tm → content_hash (content tm) = Ok (content_hash_of tm).
Proof. intros Hinv%ledger_inv. split; [apply Hinv|]. split; [apply Hinv|]. exact (iv_hashes _ _ Hinv). Qed.
(** Objects are told apart: two claims, two artifacts or two testaments
    with the same content hash are the same object, and an identifier is that of
    at most one kind of object. *)
Theorem object_identities_unique c k1 k2 h o1 o2 :
  ledger c →
  (k1 ≠ ObjectKind.Validation → object_hash (rows_of c) k1 o1 = Some h →
     object_hash (rows_of c) k1 o2 = Some h → o1 = o2)
  ∧ (is_Some (object_hash (rows_of c) k1 o1) → is_Some (object_hash (rows_of c) k2 o1) → k1 = k2).
Proof.
  intros Hinv%ledger_inv. split; [|apply (iv_disjoint _ _ Hinv)]. intros Hk H1 H2.
  pose proof (iv_known _ _ Hinv k1 h o1 Hk H1). pose proof (iv_known _ _ Hinv k1 h o2 Hk H2). congruence.
Qed.
(** A validation run belongs to a stored validation and to its claim, its
    attempts are numbered from zero without a gap, and its final verdict, once
    it has one, is that of its last attempt. *)
Theorem validation_run_sound c k r :
  ledger c → runs (rows_of c) !! k = Some r →
  run_id r = k
  ∧ (∃ v, validations (rows_of c) !! vr_validation k = Some v ∧ run_claim r = vc_claim (content v)
          ∧ (vr_epoch k <= vl_latest_epoch (lifecycle v))%N)
  ∧ (∀ i ve, run_attempts r !! i = Some ve → ve_attempt ve = N.of_nat i)
  ∧ ∀ value, run_final_verdict r = Some value → ve_value <$> last (run_attempts r) = Some value.
Proof.
  intros Hinv%ledger_inv Hr. destruct (iv_runs _ _ Hinv k r Hr) as (Hk & [Ha Hf] & Hv). by split_and!.
Qed.
(** Verdicts are final: later entries keep every recorded attempt, and a
    run with a final verdict does not change at all. *)
Theorem verdicts_are_final c c' k r :
  ledger c → evolves c c' → runs (rows_of c) !! k = Some r →
  ∃ r', runs (rows_of c') !! k = Some r' ∧ run_attempts r `prefix_of` run_attempts r'
    ∧ (is_Some (run_final_verdict r) → r' = r).
Proof.
  intros Hl He Hr. destruct (le_runs _ _ (evolves_le _ _ (ledger_inv _ Hl) He) k r Hr) as (r' & Hr' & _ & _ & ? & ?).
  by exists r'.
Qed.
(** Evidence is immutable: an artifact row never changes, an evidence set
    keeps its claim and its artifacts in order, a closed set does not change,
    and a testament keeps its content. *)
Theorem evidence_is_immutable c c' :
  ledger c → evolves c c' →
  (∀ id a, artifacts (rows_of c) !! id = Some a → artifacts (rows_of c') !! id = Some a)
  ∧ (∀ id s, evidence_sets (rows_of c) !! id = Some s → ∃ s', evidence_sets (rows_of c') !! id = Some s'
       ∧ es_claim s' = es_claim s ∧ es_artifacts s `prefix_of` es_artifacts s' ∧ (es_closed s = true → s' = s))
  ∧ ∀ id x, testaments (rows_of c) !! id = Some x → ∃ x', testaments (rows_of c') !! id = Some x'
       ∧ content x' = content x ∧ content_hash_of x' = content_hash_of x.
Proof.
  intros Hl He. pose proof (evolves_le _ _ (ledger_inv _ Hl) He) as Hle. split_and!.
  - intros id a Ha. destruct (le_artifacts _ _ Hle id a Ha) as (a' & ? & <-). done.
  - intros id s Hs. destruct (le_sets _ _ Hle id s Hs) as (s' & ? & _ & ? & ? & ?). by exists s'.
  - intros id x Hx. destruct (le_testaments _ _ Hle id x Hx) as (x' & ? & ? & ? & _). by exists x'.
Qed.
(** A claim whose work is closed (testament generated, acknowledged, or in
    validation) names a stored testament about itself. *)
Theorem closed_work_has_testament c id cl :
  ledger c → claims (rows_of c) !! id = Some cl → closed_work (status_of cl) = true →
  ∃ tid tm, cl_testament (lifecycle cl) = Some tid ∧ testaments (rows_of c) !! tid = Some tm
    ∧ tc_claim (content tm) = id.
Proof.
  intros Hinv%ledger_inv Hc Hs. destruct (ci_testament _ _ (iv_claims _ _ Hinv _ _ Hc) Hs) as [tid Ht].
  destruct (iv_testaments _ _ Hinv id cl tid Hc Ht) as (tm & ? & ?). by exists tid, tm.
Qed.
(** The admitted request generations of a principal are an interval that
    starts at its floor, which is positive. *)
Theorem request_generations_contiguous c p w :
  ledger c → epochs (rows_of c) !! p = Some w →
  ∃ hi, (0 < ew_minimum w <= hi)%N ∧ ∀ e, e ∈ ew_admitted w ↔ (ew_minimum w <= e <= hi)%N.
Proof.
  intros Hinv%ledger_inv Hw. destruct (iv_epochs _ _ Hinv p w Hw) as (hi & Hle & Hpos & Hall). by exists hi.
Qed.
End ledger.

(** ** Witnesses *)
Lemma status_at_Some c id st :
  status_at c id = Some st → ∃ cl, claims (rows_of c) !! id = Some cl ∧ status_of cl = st.
Proof. unfold status_at. destruct (claims (rows_of c) !! id) as [cl|]; [|done]. intros [= <-]. by exists cl. Qed.
Lemma found {A} (x : option A) : bool_decide (is_Some x) = true → ∃ a, x = Some a.
Proof. by intros [a Ha]%bool_decide_eq_true; exists a. Qed.

Lemma satisfied_means_validated_witness :
  ∃ cl, claims (rows_of (demo_core 16)) !! 10%N = Some cl ∧ status_of cl = ClaimStatus.Satisfied
    ∧ ∃ vid v, validations (rows_of (demo_core 16)) !! vid = Some v ∧ decides 10 v.
Proof.
  destruct (status_at_Some (demo_core 16) 10 ClaimStatus.Satisfied ltac:(evaluate)) as (cl & Hc & Hs).
  exists cl. split; [exact Hc|]. split; [exact Hs|].
  apply (satisfied_means_validated (demo_core 16) 10 cl demo_end_ledger Hc Hs).
Defined.
Lemma claim_history_lawful_witness :
  ∃ cl, claims (rows_of (demo_core 16)) !! 20%N = Some cl ∧ status_of cl = ClaimStatus.Cancelled
    ∧ lawful_history (sequence_of (demo_core 16)) cl.
Proof.
  destruct (status_at_Some (demo_core 16) 20 ClaimStatus.Cancelled ltac:(evaluate)) as (cl & Hc & Hs).
  exists cl. split; [exact Hc|]. split; [exact Hs|]. apply (claim_history_lawful _ 20 cl demo_end_ledger Hc).
Defined.
Lemma demo_late : evolves (demo_core 14) (demo_core 16).
Proof. apply demo_evolves; [lia|]. evaluate. Qed.
Lemma demo_late_ledger : ledger (demo_core 14).
Proof. apply demo_reached. evaluate. Qed.
Lemma terminal_claim_frozen_witness :
  ∃ cl cl', claims (rows_of (demo_core 14)) !! 10%N = Some cl ∧ claims (rows_of (demo_core 16)) !! 10%N = Some cl'
    ∧ status_of cl' = status_of cl.
Proof.
  destruct (status_at_Some (demo_core 14) 10 ClaimStatus.Satisfied ltac:(evaluate)) as (cl & Hc & Hs).
  destruct (terminal_claim_frozen (demo_core 14) (demo_core 16) 10 cl demo_late_ledger demo_late Hc)
    as (cl' & Hc' & _ & Hst & _); [rewrite Hs; reflexivity|].
  exists cl, cl'. split; [exact Hc|]. split; [exact Hc'|exact Hst].
Defined.
Lemma claim_record_append_only_witness :
  ∃ cl cl', claims (rows_of (demo_core 9)) !! 10%N = Some cl ∧ claims (rows_of (demo_core 16)) !! 10%N = Some cl'
    ∧ cl_history (lifecycle cl) `prefix_of` cl_history (lifecycle cl').
Proof.
  destruct (status_at_Some (demo_core 9) 10 ClaimStatus.Progressed ltac:(evaluate)) as (cl & Hc & Hs).
  destruct (claim_record_append_only (demo_core 9) (demo_core 16) 10 cl demo_mid_ledger demo_mid_end Hc)
    as (cl' & Hc' & _ & _ & _ & Hp & _).
  exists cl, cl'. split; [exact Hc|]. split; [exact Hc'|exact Hp].
Defined.
Lemma receipt_entitles_one_claim_witness :
  ∃ cl, claims (rows_of (demo_core 9)) !! 10%N = Some cl ∧ is_Some (cl_receipt (lifecycle cl)).
Proof.
  destruct (status_at_Some (demo_core 9) 10 ClaimStatus.Progressed ltac:(evaluate)) as (cl & Hc & Hs).
  exists cl. split; [exact Hc|].
  apply (receipt_entitles_one_claim (demo_core 9) 10 10 cl cl demo_mid_ledger Hc Hc). rewrite Hs. right. left.
Defined.
Lemma receipt_epochs_increase_witness :
  ∃ cl' r', claims (rows_of (demo_core 16)) !! 10%N = Some cl' ∧ cl_receipt (lifecycle cl') = Some r'.
Proof.
  destruct (status_at_Some (demo_core 9) 10 ClaimStatus.Progressed ltac:(evaluate)) as (cl & Hc & Hs).
  assert (Hr : cl_receipt ∘ lifecycle <$> claims (rows_of (demo_core 9)) !! 10%N
               = Some (Some {| r_fence := demo_fence; r_holder := bob; r_acquired := 6 |})) by evaluate.
  rewrite Hc in Hr. injection Hr as Hr.
  destruct (receipt_epochs_increase (demo_core 9) (demo_core 16) 10 cl _ demo_mid_ledger demo_mid_end Hc Hr)
    as (cl' & r' & Hc' & Hr' & _).
  exists cl', r'. split; [exact Hc'|exact Hr'].
Defined.
Lemma identity_index_exact_witness :
  identities (rows_of (demo_core 16)) !! (ObjectKind.Claim, no_error 0%N (content_hash (nc_content first_claim))) = Some 10%N
  ∧ object_hash (rows_of (demo_core 16)) ObjectKind.Claim 10 = Some (no_error 0%N (content_hash (nc_content first_claim))).
Proof.
  assert (Hid : identities (rows_of (demo_core 16)) !! (ObjectKind.Claim, no_error 0%N (content_hash (nc_content first_claim)))
    = Some 10%N) by evaluate.
  split; [exact Hid|]. destruct (identity_index_exact (demo_core 16) demo_end_ledger) as [Hex _].
  exact (Hex _ _ _ Hid).
Defined.
(** The identifier of the attached artifact is not that of a claim. *)
Lemma object_identities_unique_witness : object_hash (rows_of (demo_core 16)) ObjectKind.Claim 40 = None.
Proof.
  destruct (object_hash _ ObjectKind.Claim 40) as [h|] eqn:E; [|reflexivity].
  destruct (object_identities_unique (demo_core 16) ObjectKind.Claim ObjectKind.Artifact h 40 40 demo_end_ledger) as [_ Hk].
  discriminate Hk; [exists h; exact E|]. apply (bool_decide_unpack _). evaluate.
Defined.
Lemma validation_run_sound_witness :
  ∃ r, runs (rows_of (demo_core 16)) !! demo_run = Some r ∧ run_id r = demo_run.
Proof.
  destruct (found (runs (rows_of (demo_core 16)) !! demo_run)) as [r Hr]; [evaluate|].
  exists r. split; [exact Hr|]. apply (validation_run_sound (demo_core 16) demo_run r demo_end_ledger Hr).
Defined.
Lemma verdicts_are_final_witness :
  ∃ r, runs (rows_of (demo_core 14)) !! demo_run = Some r ∧ runs (rows_of (demo_core 16)) !! demo_run = Some r.
Proof.
  destruct (found (runs (rows_of (demo_core 14)) !! demo_run)) as [r Hr]; [evaluate|].
  destruct (verdicts_are_final (demo_core 14) (demo_core 16) demo_run r demo_late_ledger demo_late Hr) as (r' & Hr' & _ & Hf).
  assert (Hv : run_final_verdict <$> runs (rows_of (demo_core 14)) !! demo_run = Some (Some VerdictValue.Pass)) by evaluate.
  rewrite Hr in Hv. injection Hv as Hv. exists r. split; [exact Hr|]. rewrite <-(Hf ltac:(rewrite Hv; eexists; reflexivity)). exact Hr'.
Defined.
Lemma evidence_is_immutable_witness :
  ∃ a, artifacts (rows_of (demo_core 9)) !! 40%N = Some a ∧ artifacts (rows_of (demo_core 16)) !! 40%N = Some a.
Proof.
  destruct (found (artifacts (rows_of (demo_core 9)) !! 40%N)) as [a Ha]; [evaluate|].
  destruct (evidence_is_immutable (demo_core 9) (demo_core 16) demo_mid_ledger demo_mid_end) as [Hart _].
  exists a. split; [exact Ha|exact (Hart _ _ Ha)].
Defined.
Lemma demo_closed_ledger : ledger (demo_core 12).
Proof. apply demo_reached. evaluate. Qed.
Lemma closed_work_has_testament_witness :
  ∃ tid tm, testaments (rows_of (demo_core 12)) !! tid = Some tm ∧ tc_claim (content tm) = 10%N.
Proof.
  destruct (status_at_Some (demo_core 12) 10 ClaimStatus.Validating ltac:(evaluate)) as (cl & Hc & Hs).
  destruct (closed_work_has_testament (demo_core 12) 10 cl demo_closed_ledger Hc) as (tid & tm & _ & Ht & Hcl);
    [rewrite Hs; reflexivity|]. exists tid, tm. split; [exact Ht|exact Hcl].
Defined.
Lemma request_generations_contiguous_witness :
  ∃ w hi, epochs (rows_of (demo_core 16)) !! bob = Some w ∧ ∀ e, e ∈ ew_admitted w ↔ (ew_minimum w <= e <= hi)%N.
Proof.
  destruct (found (epochs (rows_of (demo_core 16)) !! bob)) as [w Hw]; [evaluate|].
  destruct (request_generations_contiguous (demo_core 16) bob w demo_end_ledger Hw) as (hi & _ & Hall).
  exists w, hi. split; [exact Hw|exact Hall].
Defined.
