(* ===== verification/AlgorithmProperties.v ===== *)
(** * Properties of the algorithms

    What the graph algorithms, cancellation, the aggregate verdict, receipt
    acquisition, the row overlay and the persisted codes compute. *)
From stdpp Require Import prelude gmap strings list relations.
From Stdlib Require Import NArith.
From S2P Require Import Prelude Vocabulary Objects Canonical Store StoreLaws Reducer.
From S2P Require Import Graph Validation Propagate Create Commands Core Hoare.
From S2P Require Import Refinement Pending Steps Invariants OperationSteps CommandSteps Evolution Termination GraphLaws.
From S2P Require Import PropagateLaws CanonicalLaws Scenario.

Section runs.
Context `{External}.
Implicit Types (t : Rows).

(** The serial run of an operation from the rows [t]: it ends, and if it is not
    refused, its answer and rows satisfy [Q]. *)
Definition delivers {A} (m : SM A) t (Q : A → Rows → Prop) : Prop :=
  match m (start t recorder_disabled) with
  | (Ok a, r) => Q a (rd_rows r)
  | (Err (Domain _), _) => True
  | (Err OutOfFuel, _) => False
  end.
Lemma delivers_intro {A} (m : SM A) t (Q : A → Rows → Prop) : ends m t → wp m t Q → delivers m t Q.
Proof.
  intros He Hw. specialize (He (start t recorder_disabled) eq_refl eq_refl).
  specialize (Hw (start t recorder_disabled) eq_refl eq_refl). unfold delivers.
  destruct (m _) as [[a|[o|]] r]; simpl in *; [apply Hw|done|congruence].
Qed.

(** An operation that is never refused. *)
Definition answers {A} (m : SM A) : Prop :=
  ∀ t, wp m t (λ _ _, True) ∧ ∀ q o, rd_rec q = recorder_disabled → rd_rows q = t → (m q).1 ≠ Err (Domain o).
Lemma answers_bind {A B} (m : SM A) (f : A → SM B) : answers m → (∀ a, answers (f a)) → answers (m ≫= f).
Proof.
  intros Hm Hf t. destruct (Hm t) as [Hw Hn]. split.
  - apply wp_bind. eapply wp_mono; [exact Hw|]. intros a t' _. apply Hf.
  - intros q o Hq Ht. specialize (Hw q Hq Ht). specialize (Hn q o Hq Ht). unfold mbind, M_bind.
    destruct (m q) as [[a|e] q']; [|simpl in *; congruence]. by apply (Hf a (rd_rows q')); [apply Hw|].
Qed.
Lemma answers_ret {A} (a : A) : answers (mret a).
Proof. intros t. split; [by apply wp_ret|done]. Qed.
Lemma answers_titer {K V} `{TableKey K} (s : Sel K V) : answers (titer s).
Proof. intros t. split; [by apply wp_titer|done]. Qed.
Lemma answers_tget {K V} `{TableKey K} (s : Sel K V) k : answers (tget s k).
Proof. intros t. split; [by apply wp_tget|done]. Qed.
Lemma answers_scratch : answers (scratch_ok 1).
Proof.
  intros t. split; [by apply wp_scratch_ok_1|]. intros q o _ _. unfold scratch_ok. by destruct (scratch 1 q) as [[]].
Qed.
Lemma answers_mfold {A S} f (l : list A) (s : S) : (∀ s x, answers (f s x)) → answers (mfold f l s).
Proof. intros Hf. revert s. induction l; simpl; intros s; [apply answers_ret|]. by apply answers_bind. Qed.
Lemma answers_mall {A} f (l : list A) : (∀ x, answers (f x)) → answers (mall f l).
Proof.
  intros Hf. induction l; simpl; [apply answers_ret|]. apply answers_bind; [done|].
  intros []; [done|apply answers_ret].
Qed.
Lemma answers_mloop {S A} fuel body (s : S) : (∀ s, answers (body s)) → answers (A:=A) (mloop fuel body s).
Proof.
  intros Hb. apply answers_bind.
  - generalize (N.size_nat fuel). intros n. revert s. induction n as [|n IH]; simpl; intros s; [apply Hb|].
    apply answers_bind; [done|]. intros []; [done|apply answers_ret].
  - intros [s'|a]; [|apply answers_ret]. intros t. split; [by intros q Hq <-|done].
Qed.
Lemma answers_predicate p : answers (predicate p).
Proof. apply answers_bind; [apply answers_tget|]. intros. apply answers_ret. Qed.
Lemma answers_joins X id c : answers (joins X id c).
Proof.
  unfold joins. case_bool_decide; [|apply answers_ret]. apply answers_bind.
  - apply answers_mall. intros d. unfold await_holds. case_bool_decide; [apply answers_ret|].
    apply answers_bind; [apply answers_tget|]. intros. apply answers_ret.
  - intros []; [|apply answers_ret]. apply answers_bind.
    + unfold open_monitors. apply answers_bind; [apply answers_titer|]. intros. apply answers_ret.
    + intros ms. apply answers_mall. intros m. apply answers_mall. intros [d|d|d]; simpl;
        [apply answers_ret| |apply answers_predicate]. case_bool_decide; [apply answers_ret|apply answers_predicate].
Qed.
Lemma answers_tracked_fixpoint : answers tracked_fixpoint.
Proof.
  unfold tracked_fixpoint. apply answers_bind; [apply answers_titer|]. intros rows. apply answers_bind.
  - apply answers_mfold. intros [X|X] row; simpl; [|apply answers_ret]. case_bool_decide; [|apply answers_ret].
    apply answers_bind; [apply answers_scratch|]. intros. apply answers_ret.
  - intros [X|X]; [|apply answers_ret]. apply answers_mloop. clear X. intros X. unfold fix_body.
    apply answers_bind; [apply answers_titer|]. intros rows'. apply answers_bind; [|intros; apply answers_ret].
    apply answers_mfold. intros [[Y b]|Y] [id c]; simpl; [|apply answers_ret].
    destruct (_ || _); [apply answers_ret|]. apply answers_bind; [apply answers_joins|].
    intros []; [|apply answers_ret]. apply answers_bind; [apply answers_scratch|]. intros. apply answers_ret.
Qed.
End runs.

Section algorithms.
Context `{External} {cx : Ctx}.
Implicit Types (t : Rows).

(** C7: The satisfaction pass always answers, changes no row, and its answer is
    the least set that holds the satisfied claims and every locally complete
    open claim whose dependencies it holds, whose awaited claims it holds or
    are terminal, and whose open monitors have every root met. *)
Theorem satisfaction_is_least_fixpoint t :
  ∃ X r, tracked_fixpoint (start t recorder_disabled) = (Ok X, r) ∧ rd_rows r = t
    ∧ ∀ id, id ∈ X ↔ satisfiable t id.
Proof using H.
  destruct (answers_tracked_fixpoint t) as [_ Hn]. pose proof (always_ends _ t always_tracked_fixpoint) as He.
  pose proof (wp_least_fixpoint t (start t recorder_disabled) eq_refl eq_refl) as Hw.
  specialize (He (start t recorder_disabled) eq_refl eq_refl).
  specialize (λ o, Hn (start t recorder_disabled) o eq_refl eq_refl).
  destruct (tracked_fixpoint _) as [[X|[o|]] r]; [|exfalso; by apply (Hn o)|done].
  destruct Hw as (_ & Ht & HX). by exists X, r.
Qed.
(** C8: Cancelling a claim ends; it gives the status to the claim and
    [Cancelled] to every other active claim it caused, directly or through
    others, each with the root as witness and one more revision, and changes
    no other row. *)
Theorem cancel_tree_exact root st t : delivers (cancel_tree root st) t (λ _ t', cancels t root st t').
Proof. apply delivers_intro; [apply always_cancel_tree|apply wp_cancel_tree]. Qed.
(** C9: The waiting cycle of a claim is its strongly connected component in the
    wait graph, and there is none exactly when the claim does not wait, through
    others, for itself. *)
Theorem deadlock_component_exact id limit t :
  delivers (cycle_containing id limit) t (λ x t', t' = t ∧ match x with
    | Some component => tc (waits t) id id
        ∧ ∀ y, y ∈ component ↔ rtc (waits t) id y ∧ rtc (waits t) y id
    | None => ¬ tc (waits t) id id
    end).
Proof using H.
  apply delivers_intro; [|apply wp_cycle_spec]. apply always_ends. unfold cycle_containing.
  apply always_bind; [apply always_reachable|]. intros [from l]. apply always_bind; [|intros [? ?]; always].
  apply always_mfold. intros [component l'] node. apply always_bind; [apply always_reachable|].
  intros [back l'']. always.
Qed.
(** The lineage walk ends, and it accepts only ledgers in which no claim
    leads back to itself through relations of the given kinds. *)
Theorem lineage_check_sound kinds limit t :
  delivers (check_acyclic kinds limit) t (λ _ t', t' = t ∧ ∀ id, ¬ tc (leads t kinds) id id).
Proof using H.
  apply delivers_intro; [apply always_check_acyclic|]. eapply wp_mono; [apply wp_check_acyclic|].
  intros [] t' [-> Hg]. split; [done|]. intros id Hid.
  assert (∃ c, claims t !! id = Some c) as [c Hc].
  { inversion Hid as [? ? Hy|? ? ? Hy]; destruct Hy as (c & _ & Hc & _); by exists c. }
  by eapply grounded_acyclic, Hid; eapply Hg.
Qed.
(** A batch of claims is generated only if the ledger that holds it has no
    cycle of causes, supersessions and amendments; a batch that exists already
    changes nothing. *)
Theorem generation_keeps_lineage_acyclic new t :
  delivers (generate new) t (λ res t', match res with
    | CommandResult.Generated ids => ids = nc_id <$> new ∧ ∀ id, ¬ tc (leads t' lineage) id id
    | _ => t' = t
    end).
Proof.
  apply delivers_intro; [apply always_ends, always_generate|].
  eapply wp_mono; [apply (wp_generate_grounded new t)|].
  intros res t' Hres. destruct res; try done. destruct Hres as [-> Hg]. split; [done|]. intros id Hid.
  assert (∃ c, claims t' !! id = Some c) as [c Hc].
  { inversion Hid as [? ? Hy|? ? ? Hy]; destruct Hy as (c & _ & Hc & _); by exists c. }
  by eapply grounded_acyclic, Hid; eapply Hg.
Qed.

(** The aggregate verdict of a claim is the worst final verdict of its
    deciding validations: there is one exactly when the claim has a deciding
    validation and each of them has runs, all of them final. *)
Theorem aggregate_is_worst t id w :
  aggregate_of id (entries (validations t)) (entries (runs t)) = Some w ↔
  (∃ vid v, validations t !! vid = Some v ∧ decides id v)
  ∧ (∀ vid v, validations t !! vid = Some v → decides id v →
       runs_of vid (entries (runs t)) ≠ []
       ∧ ∀ r, r ∈ runs_of vid (entries (runs t)) → final_within w r)
  ∧ ∃ vid v r, validations t !! vid = Some v ∧ decides id v ∧ r ∈ runs_of vid (entries (runs t))
       ∧ run_final_verdict r = Some w.
Proof.
  setoid_rewrite <-elem_of_entries. split; [apply aggregate_of_Some|]. intros (Hex & Hall & vid & v & r & Hv & Hd & Hr & Hw).
  destruct (aggregate_of_total id (entries (runs t)) (entries (validations t))) as [w' Hw']; [done| |].
  { intros vid' v' Hv' Hd'. destruct (Hall vid' v' Hv' Hd') as [? Hf]. split; [done|].
    intros r' Hr'. destruct (Hf r' Hr') as (x & Hx & _). by exists x. }
  rewrite Hw'. f_equal. apply aggregate_of_Some in Hw' as (_ & Hall' & vid' & v' & r' & Hv' & Hd' & Hr' & Hf').
  destruct (Hall' vid v Hv Hd) as [_ Hle]. destruct (Hle r Hr) as (x & Hx & Hsx). rewrite Hw in Hx. simplify_eq.
  destruct (Hall vid' v' Hv' Hd') as [_ Hle']. destruct (Hle' r' Hr') as (y & Hy & Hsy). rewrite Hf' in Hy. simplify_eq.
  apply (inj severity). lia.
Qed.
(** A receipt is acquired only by the subject of a posted claim, at epoch
    one, under a receipt identifier no claim holds, when every claim it depends
    on is satisfied and every required admission validation has runs, all
    passed; the claim then is received by the caller and no other row
    changes. *)
Theorem receipt_acquired_by_subject id receipt epoch t :
  delivers (acquire_receipt id receipt epoch) t (λ res t', ∃ c revision,
    claims t !! id = Some c ∧ status_of c = ClaimStatus.Posted ∧ subject (content c) = Some cx_principal
    ∧ epoch = 1%N ∧ receipt ≠ 0%N ∧ unallocated t receipt
    ∧ (∀ d, d ∈ dependencies (content c) RelationKind.DependsOn →
         ∃ cd, claims t !! d = Some cd ∧ status_of cd = ClaimStatus.Satisfied)
    ∧ (∀ vid v, validations t !! vid = Some v → required_in id ValidationPhase.Admission v = true →
         runs_of vid (entries (runs t)) ≠ []
         ∧ ∀ r, r ∈ runs_of vid (entries (runs t)) → run_final_verdict r = Some VerdictValue.Pass)
    ∧ let r := {| r_fence := {| f_receipt := receipt; f_epoch := 1 |}; r_holder := cx_principal;
                  r_acquired := cx_sequence |} in
      t' = ins Claims id (status_row cx_sequence ClaimStatus.Received revision None (receipt_row r c)) t
      ∧ res = CommandResult.Receipt id (r_fence r)).
Proof.
  apply delivers_intro; [apply always_ends; always|]. unfold acquire_receipt. apply wp_bind, wp_allowed.
  intros c Hc Hst%list_elem_of_singleton _. apply wp_bind, wp_refuse_if. intros Hsub%bool_decide_eq_false%dec_stable.
  unfold phase_passed, phase_runs. apply wp_bind, wp_bind, wp_titer, wp_bind, wp_titer, wp_ret, wp_bind, wp_inform_if.
  intros Hadm%negb_false_iff. simpl in Hadm. apply wp_bind.
  apply (wp_mfor _ _ _ (λ l t', t' = t ∧ ∀ d, d ∈ dependencies (content c) RelationKind.DependsOn →
    d ∈ l ∨ ∃ cd, claims t !! d = Some cd ∧ status_of cd = ClaimStatus.Satisfied)).
  { split; [done|]. by left. }
  { intros d l t' [-> Hl]. unfold dependency_ready. apply wp_bind, wp_get_claim. intros cd Hcd.
    apply wp_inform_if. intros Hs%bool_decide_eq_false%dec_stable. split; [done|]. intros d' Hd'.
    destruct (Hl d' Hd') as [[->|?]%elem_of_cons|?]; eauto. }
  intros t' [-> Hdeps]. wps. boolh. subst epoch. apply wp_tinsert. wps. apply wp_set_status. unfold ins at 1. simpl.
  rewrite lookup_insert_eq. intros c' rev [= <-] _ Hrev. wps. exists c, rev.
  split_and!; try done.
  - by apply receipt_unallocated.
  - intros d Hd. by destruct (Hdeps d Hd) as [?%elem_of_nil|?].
  - intros vid v Hv Hreq. rewrite forallb_forall in Hadm.
    specialize (Hadm (vid, v)). simpl in Hadm. rewrite Hreq in Hadm.
    apply andb_true_iff in Hadm as [Hne Hpass]; [|by apply list_elem_of_In, elem_of_entries].
    split; [by destruct (runs_of _ _)|]. intros r Hr. rewrite forallb_forall in Hpass.
    apply list_elem_of_In, Hpass, bool_decide_eq_true in Hr. done.
  - unfold ins. simpl. by rewrite insert_insert_eq.
Qed.
End algorithms.

(** ** Storage *)
(** A row overlay reads as one ordered map: a row is the newest layer's,
    iteration by the next key over all layers lists every row once in key
    order, and the sum of the layers' added counts is the number of rows. *)
Theorem overlay_reads_one_map {K V} `{TableKey K} (t : OverlayTable K V) (k : K) :
  ov_get t k = ov_view t !! k ∧ ov_iter t = entries (ov_view t)
  ∧ (ov_ok t → ¬ huge (ov_view t) → ov_len t = Some (N.of_nat (size (ov_view t)))).
Proof.
  split_and!; [apply ov_get_view|apply ov_iter_view|]. intros Hok Hn.
  by destruct (ov_len_view t Hok) as [?|[_ ?]].
Qed.

(** ** Canonical identities *)
(** C14: Canonical bytes identify content: two authored objects of any kinds,
    with fields within their widths, that encode to the same bytes are of the
    same kind and have the same content, a claim's requirement identifiers
    apart, which the encoding replaces by their pinned specifications. *)
Theorem canonical_bytes_identify (x y : Authored) (bytes : list N) :
  representable x → representable y → authored_bytes x = Ok bytes → authored_bytes y = Ok bytes →
  same_content x y.
Proof. apply authored_bytes_inj. Qed.

(** ** Codes *)
Ltac decode :=
  let Hn := fresh in
  intros Hn; lazymatch type of Hn with ?f _ = _ => unfold f in Hn end;
  repeat (case_match; try discriminate Hn); injection Hn as <-; reflexivity.
(** Every persisted code decodes to its value, and every code that decodes
    is the code of what it decodes to, for each enumeration of the
    vocabulary. *)
Theorem vocabulary_codes_roundtrip :
  (∀ n x, ObjectKind.from_code n = Some x ↔ ObjectKind.code x = n)
  ∧ (∀ n x, ClaimStatus.from_code n = Some x ↔ ClaimStatus.code x = n)
  ∧ (∀ n x, ActionType.from_code n = Some x ↔ ActionType.code x = n)
  ∧ (∀ n x, ScopeKind.from_code n = Some x ↔ ScopeKind.code x = n)
  ∧ (∀ n x, RelationKind.from_code n = Some x ↔ RelationKind.code x = n)
  ∧ (∀ n x, ValidationKind.from_code n = Some x ↔ ValidationKind.code x = n)
  ∧ (∀ n x, ValidationPhase.from_code n = Some x ↔ ValidationPhase.code x = n)
  ∧ (∀ n x, ValidationMode.from_code n = Some x ↔ ValidationMode.code x = n)
  ∧ (∀ n x, VerdictValue.from_code n = Some x ↔ VerdictValue.code x = n)
  ∧ (∀ n x, Confidence.from_code n = Some x ↔ Confidence.code x = n)
  ∧ (∀ n x, OutcomeKind.from_code n = Some x ↔ OutcomeKind.code x = n)
  ∧ (∀ n x, ContentClass.from_code n = Some x ↔ ContentClass.code x = n)
  ∧ (∀ n x, Disposition.from_code n = Some x ↔ Disposition.code x = n)
  ∧ (∀ n x, ErrorCode.from_code n = Some x ↔ ErrorCode.code x = n)
  ∧ ∀ n x, LifecycleAction.from_code n = Some x ↔ LifecycleAction.code x = n.
Proof. split_and!; intros n x; (split; [decode|intros <-; by destruct x]). Qed.

(** ** Witnesses *)
Definition demo_ctx : Ctx := input_ctx demo_ledger default_limits (demo_input 5) 50.
Definition is_delivered {A} (m : SM A) (t : Rows) : Prop := is_ok (m (start t recorder_disabled)).1.
(** The satisfaction set after the first claim completed. *)
Lemma satisfaction_is_least_fixpoint_witness : satisfiable (rows_of (demo_core 14)) 10.
Proof.
  destruct (satisfaction_is_least_fixpoint (rows_of (demo_core 14))) as (X & r & HX & _ & Hiff).
  apply Hiff. assert (Hin : match tracked_fixpoint (start (rows_of (demo_core 14)) recorder_disabled) with
    | (Ok X, _) => bool_decide (10%N ∈ X) = true | _ => False end) by (vm_compute; reflexivity).
  rewrite HX in Hin. by apply bool_decide_eq_true in Hin.
Defined.
(** The cancellation of the second claim, which caused the third. *)
Lemma cancel_tree_exact_witness :
  is_delivered (cancel_tree (cx:=demo_ctx) 20 ClaimStatus.Cancelled) (rows_of (demo_core 15))
  ∧ delivers (cancel_tree (cx:=demo_ctx) 20 ClaimStatus.Cancelled) (rows_of (demo_core 15))
      (λ _ t', cancels (cx:=demo_ctx) (rows_of (demo_core 15)) 20 ClaimStatus.Cancelled t').
Proof. split; [evaluate|]. apply cancel_tree_exact. Defined.
(** Two claims that depend on each other. *)
Definition deadlock_core : Core :=
  (run_requests demo_new [demo_input 0; by_root alice 2 (Command.GenerateClaimBatch
    [demo_claim 10 1 (TargetRoot root_command) [depends_on 20];
     demo_claim 20 2 (TargetRoot root_command) [depends_on 10]])]).2.
Lemma deadlock_component_exact_witness : tc (waits (rows_of deadlock_core)) 10%N 10%N.
Proof.
  pose proof (deadlock_component_exact 10 1000 (rows_of deadlock_core)) as Hd. unfold delivers in Hd.
  assert (Hrun : match cycle_containing 10 1000 (start (rows_of deadlock_core) recorder_disabled) with
    | (Ok (Some X), _) => bool_decide (X = {[10%N; 20%N]}) = true | _ => False end) by (vm_compute; reflexivity).
  destruct (cycle_containing _ _ _) as [[[X|]|e] r]; [|contradiction..]. apply Hd.
Defined.
Lemma lineage_check_sound_witness :
  is_delivered (check_acyclic lineage 1000) (rows_of (demo_core 4))
  ∧ delivers (check_acyclic lineage 1000) (rows_of (demo_core 4))
      (λ _ t', t' = rows_of (demo_core 4) ∧ ∀ id, ¬ tc (leads (rows_of (demo_core 4)) lineage) id id).
Proof. split; [evaluate|]. apply lineage_check_sound. Defined.
Lemma generation_keeps_lineage_acyclic_witness :
  is_delivered (generate (cx:=input_ctx demo_ledger default_limits (demo_input 2) 3) [first_claim; second_claim])
    (rows_of (demo_core 2))
  ∧ delivers (generate (cx:=input_ctx demo_ledger default_limits (demo_input 2) 3) [first_claim; second_claim])
      (rows_of (demo_core 2)) (λ res t', match res with
        | CommandResult.Generated ids => ids = [10; 20]%N ∧ ∀ id, ¬ tc (leads t' lineage) id id
        | _ => t' = rows_of (demo_core 2)
        end).
Proof.
  split; [evaluate|].
  exact (generation_keeps_lineage_acyclic (cx:=input_ctx demo_ledger default_limits (demo_input 2) 3)
    [first_claim; second_claim] (rows_of (demo_core 2))).
Defined.
Lemma aggregate_is_worst_witness :
  ∃ vid v, validations (rows_of (demo_core 13)) !! vid = Some v ∧ decides 10 v.
Proof.
  apply (aggregate_is_worst (rows_of (demo_core 13)) 10 VerdictValue.Pass). evaluate.
Defined.
Lemma receipt_acquired_by_subject_witness :
  is_delivered (acquire_receipt (cx:=demo_ctx) 10 100 1) (rows_of (demo_core 5))
  ∧ ∃ c, claims (rows_of (demo_core 5)) !! 10%N = Some c ∧ subject (content c) = Some bob.
Proof.
  assert (Hok : is_delivered (acquire_receipt (cx:=demo_ctx) 10 100 1) (rows_of (demo_core 5))) by evaluate.
  split; [exact Hok|]. pose proof (receipt_acquired_by_subject (cx:=demo_ctx) 10 100 1 (rows_of (demo_core 5))) as Hd.
  unfold delivers, is_delivered in *. destruct (acquire_receipt _ _ _ _) as [[res|e] r]; [|contradiction].
  destruct Hd as (c & rev & Hc & _ & Hsub & _). exists c. split; [exact Hc|exact Hsub].
Defined.
Lemma overlay_reads_one_map_witness :
  ov_len (overlay_table Claims (rows_of (demo_core 5)) []) = Some 3%N.
Proof.
  destruct (overlay_reads_one_map (overlay_table Claims (rows_of (demo_core 5)) []) 10%N) as (_ & _ & Hlen).
  rewrite Hlen; [evaluate| |]; vm_compute; [reflexivity|discriminate].
Defined.
(** Two claims whose requirements have other identifiers and the same
    specifications. *)
Definition pinned_claim (requirement : N) : Authored :=
  let content := nc_content (demo_claim 10 1 (TargetRoot root_command) []) in
  AuthoredClaim {|
    cc_ledger := demo_ledger; cc_schema := SCHEMA; cc_occurrence := 1; cc_description := "work";
    cc_relations := cc_relations content; cc_scopes := [{| sc_kind := ScopeKind.File; sc_key := "a" |}];
    cc_requirements := [{| rq_id := requirement; rq_specification := 7 |}];
    cc_deadline := Some {| dl_timer := 3; dl_generation := 1; dl_at := 99 |} |}.
Lemma pinned_claim_representable n : representable (pinned_claim n).
Proof. repeat split; simpl; repeat constructor. Qed.
Definition pinned_bytes : list N := no_error [] (authored_bytes (pinned_claim 11)).
Lemma canonical_bytes_identify_witness : same_content (pinned_claim 11) (pinned_claim 12).
Proof.
  apply (canonical_bytes_identify _ _ pinned_bytes); [apply pinned_claim_representable..| |]; evaluate.
Defined.
