(* ===== verification/Fallible.v ===== *)
(** * Fallible operations outside the reducer

    The stream and memory crates return [Result] with an error type of their
    own. [Try E] is that result as a monad (the source's [?]); [Fallible S E]
    threads a shared store through it: a failed step keeps what it already
    wrote, as a source function that returns early through [?] does. *)
From stdpp Require Import prelude.
From Stdlib Require Import NArith.
From S2P Require Import Prelude.

Definition Try (E A : Type) : Type := Result A E.
#[export] Instance try_ret {E} : MRet (Try E) := λ A x, Ok x.
#[export] Instance try_bind {E} : MBind (Try E) := λ A B f m,
  match m with Ok x => f x | Err e => Err e end.
Definition fails {E A} (e : E) : Try E A := Err e.
(** [Option::ok_or]. *)
Definition or_fail {E A} (x : option A) (e : E) : Try E A :=
  match x with Some x => Ok x | None => Err e end.
(** An early return with an error. *)
Definition refuse_if {E} (P : Prop) `{Decision P} (e : E) : Try E () :=
  if decide P then Err e else Ok ().
(** [Result::map_err]. *)
Definition map_err {E F A} (f : E → F) (x : Try E A) : Try F A :=
  match x with Ok x => Ok x | Err e => Err (f e) end.

Definition Fallible (S E A : Type) : Type := S → Try E A * S.
#[export] Instance fallible_ret {S E} : MRet (Fallible S E) := λ A x s, (Ok x, s).
#[export] Instance fallible_bind {S E} : MBind (Fallible S E) := λ A B f m s,
  match m s with (Ok x, s) => f x s | (Err e, s) => (Err e, s) end.
Definition lift {S E A} (x : Try E A) : Fallible S E A := λ s, (x, s).
Definition modify {S E} (f : S → S) : Fallible S E () := λ s, (Ok (), f s).
Definition gets {S E A} (f : S → A) : Fallible S E A := λ s, (Ok (f s), s).
(** A step on an error type that converts into the caller's ([From]). *)
Definition errors_as {S E F A} (f : E → F) (m : Fallible S E A) : Fallible S F A := λ s,
  (map_err f (m s).1, (m s).2).

Section try.
Context {E A B : Type}.
Implicit Types (m : Try E A) (k : A → Try E B).
Lemma try_bind_ok m k y : (m ≫= k) = Ok y ↔ ∃ x, m = Ok x ∧ k x = Ok y.
Proof. destruct m; simpl; naive_solver. Qed.
Lemma or_fail_ok (x : option A) (e : E) y : or_fail x e = Ok y ↔ x = Some y.
Proof. destruct x; naive_solver. Qed.
Lemma refuse_if_ok (P : Prop) `{Decision P} (e : E) u : refuse_if P e = Ok u ↔ ¬ P.
Proof. unfold refuse_if. destruct u. case_decide; naive_solver. Qed.
Lemma refuse_then_ok (P : Prop) `{Decision P} (e : E) m x : (refuse_if P e;; m) = Ok x ↔ ¬ P ∧ m = Ok x.
Proof. unfold refuse_if. case_decide; simpl; naive_solver. Qed.
Lemma refuse_pass (P : Prop) `{Decision P} (e : E) m : ¬ P → (refuse_if P e;; m) = m.
Proof. intros. unfold refuse_if. by rewrite decide_False. Qed.
Lemma map_err_ok {F} (f : E → F) m x : map_err f m = Ok x ↔ m = Ok x.
Proof. destruct m; naive_solver. Qed.
End try.

Section fallible.
Context {S E A B : Type}.
Implicit Types (m : Fallible S E A) (k : A → Fallible S E B).
Lemma fallible_bind_ok m k s y s' :
  (m ≫= k) s = (Ok y, s') ↔ ∃ x s1, m s = (Ok x, s1) ∧ k x s1 = (Ok y, s').
Proof. unfold mbind, fallible_bind. destruct (m s) as [[x|e] s1]; naive_solver. Qed.
Lemma lift_ok (x : Try E A) (s : S) y s' : lift (S:=S) x s = (Ok y, s') ↔ x = Ok y ∧ s' = s.
Proof. unfold lift. naive_solver. Qed.
Lemma errors_as_ok {F} (f : E → F) m s y s' :
  errors_as (S:=S) f m s = (Ok y, s') ↔ m s = (Ok y, s').
Proof. unfold errors_as. destruct (m s) as [[x|e] s1]; naive_solver. Qed.
End fallible.

(** Take a successful run of a fallible step apart: every [?] it passed, every
    refusal it did not take. *)
Ltac ok_step H :=
  lazymatch type of H with
  | (_ ≫= _) = Ok _ => apply try_bind_ok in H as (? & ? & H)
  | (_ ≫= _) _ = (Ok _, _) => apply fallible_bind_ok in H as (? & ? & ? & H)
  | lift _ _ = (Ok _, _) => apply lift_ok in H as [H ?]; subst
  | errors_as _ _ _ = (Ok _, _) => apply errors_as_ok in H
  | refuse_if _ _ = Ok _ => apply refuse_if_ok in H
  | or_fail _ _ = Ok _ => apply or_fail_ok in H
  | map_err _ _ = Ok _ => apply map_err_ok in H
  | mret _ = Ok _ => unfold mret, try_ret in H
  | mret _ _ = (Ok _, _) => unfold mret, fallible_ret in H
  | modify _ _ = (Ok _, _) => unfold modify in H
  | gets _ _ = (Ok _, _) => unfold gets in H
  | fails _ = Ok _ => discriminate H
  | Err _ = Ok _ => discriminate H
  | (Err _, _) = (Ok _, _) => discriminate H
  end.
Ltac ok_inv := repeat match goal with H : _ = _ |- _ => progress (ok_step H) end; simplify_eq.

(** ** Loops over a collection *)
(** [for x in l { f(x)?; }]. *)
Fixpoint try_each {E A} (f : A → Try E ()) (l : list A) : Try E () :=
  match l with [] => mret () | x :: l => f x;; try_each f l end.
(** [for x in l { acc = f(acc, x)?; }]. *)
Fixpoint try_fold {E A B} (f : B → A → Try E B) (acc : B) (l : list A) : Try E B :=
  match l with [] => mret acc | x :: l => acc ← f acc x; try_fold f acc l end.
Lemma try_each_ok {E A} (f : A → Try E ()) l u :
  try_each f l = Ok u ↔ ∀ x, x ∈ l → f x = Ok ().
Proof.
  destruct u. induction l as [|x l IH]; simpl.
  { split; [set_solver|done]. }
  rewrite try_bind_ok. setoid_rewrite elem_of_cons. split.
  - intros ([] & Hx & Hl) y [->|Hy]; [done|]. by apply IH.
  - intros Hall. exists (). split; [apply Hall; by left|]. apply IH. intros; apply Hall; by right.
Qed.
