(* ===== verification/Budget.v ===== *)
(** * Memory budgets (focal-memory: budget.rs, budget_elastic.rs, owner.rs)

    A tree of levels in one table of slots. A reservation is charged at its
    level and at each ancestor up to the root or to the first funded level,
    whose backing its own ancestors already hold; it is a permit
    ([Allocation]) that gives its bytes back when it is dropped. A level lives
    while it is held or charged; the release that leaves it neither ends it and
    recycles its slot.

    The atomics are the fields of [Level]; an operation runs alone, so a
    [fetch_update] is a checked read and write and [fetch_add], [fetch_sub] wrap
    at 64 bits. Interleavings of two operations are not modelled. *)
From stdpp Require Import prelude gmap strings.
From Stdlib Require Import NArith.
From S2P Require Import Prelude Fallible.

Module BudgetLane.
Inductive t := Ordinary | Completion | Committed.
#[export] Instance lane_eq_dec : EqDecision t.
Proof. solve_decision. Defined.
End BudgetLane.
Notation BudgetLane := BudgetLane.t.
Export (hints) BudgetLane.

Module BudgetKind.
Inductive t := Arena | Payload | Index | Pages | Roots | ReadPins | Pending | Query | Monitor
  | Dedup | Timer | Recovery | Control | Reserved.
#[export] Instance kind_eq_dec : EqDecision t.
Proof. solve_decision. Defined.
Definition ALL : list t := [Arena; Payload; Index; Pages; Roots; ReadPins; Pending; Query; Monitor;
  Dedup; Timer; Recovery; Control; Reserved].
(** The place of a kind's counter. *)
Definition code (k : t) : N :=
  match k with
  | Arena => 0 | Payload => 1 | Index => 2 | Pages => 3 | Roots => 4 | ReadPins => 5 | Pending => 6
  | Query => 7 | Monitor => 8 | Dedup => 9 | Timer => 10 | Recovery => 11 | Control => 12
  | Reserved => 13
  end.
Definition of_code (c : N) : option t := ALL !! N.to_nat c.
#[export] Instance kind_countable : Countable t.
Proof. by apply (inj_countable code of_code); intros []. Defined.
End BudgetKind.
Notation BudgetKind := BudgetKind.t.
Export (hints) BudgetKind.

Module MemoryError.
Inductive t :=
  | InvalidConfiguration (why : string)
  | Capacity (requested available : N)
  | DiskCapacity (requested available : N)
  | AllocationFailed
  | CounterExhausted (what : string)
  | WrongArena | WrongRange | StaleHandle
  | StalePreparation (prepared_at current_prefix : N)
  | DuplicateKey | MissingKey
  | PrefixMismatch (expected actual : N)
  | ClockRegression (current supplied : N)
  | LeaseExpired | WrongLease | QueryMismatch
  | ItemTooLarge (bytes limit : N)
  | InvalidNeighbors.
#[export] Instance memory_error_eq_dec : EqDecision t.
Proof. solve_decision. Defined.
End MemoryError.
Notation MemoryError := MemoryError.t.
Export (hints) MemoryError.

#[local] Open Scope N_scope.

(** [AtomicUsize::fetch_add] and [fetch_sub]. *)
Definition wrapping_add (a b : N) : N := (a + b) mod 2 ^ 64.
Definition wrapping_sub (a b : N) : N := if decide (b <= a) then a - b else a + 2 ^ 64 - b.
Definition charge_add (left right : N) : Try MemoryError N :=
  or_fail (checked_add left right) (MemoryError.CounterExhausted "byte charge").

(** [OwnerId::new]: the process counter and the stamp it gives. *)
Definition owner_next (counter : N) : Try MemoryError N * N :=
  match checked_add counter 1 with
  | Some value => (Ok value, value)
  | None => (Err (MemoryError.CounterExhausted "owner identity"), counter)
  end.

(** ** How a level is funded *)
Definition UNFUNDED : N := 0.
Definition FIXED_ORDINARY : N := 1.
Definition FIXED_COMPLETION : N := 2.
Definition ELASTIC_ORDINARY : N := 3.
Definition ELASTIC_COMPLETION : N := 4.
Module Funding.
Inductive t :=
  | Unfunded
  | Fixed (lane : BudgetLane) (bytes : N)
  | Elastic (lane : BudgetLane) (held available metadata : N).
End Funding.
Notation Funding := Funding.t.
Record Backing := { bk_funding : N; bk_held : N; bk_available : N; bk_metadata : N }.
Definition backing_new : Backing :=
  {| bk_funding := UNFUNDED; bk_held := 0; bk_available := 0; bk_metadata := 0 |}.
Definition backing_set (funding : Funding) : Backing :=
  match funding with
  | Funding.Unfunded =>
      {| bk_funding := UNFUNDED; bk_held := 0; bk_available := 0; bk_metadata := 0 |}
  | Funding.Fixed lane bytes =>
      {| bk_funding := match lane with BudgetLane.Ordinary => FIXED_ORDINARY | _ => FIXED_COMPLETION end;
         bk_held := bytes; bk_available := 0; bk_metadata := 0 |}
  | Funding.Elastic lane held available metadata =>
      {| bk_funding := match lane with
                       | BudgetLane.Ordinary => ELASTIC_ORDINARY | _ => ELASTIC_COMPLETION end;
         bk_held := held; bk_available := available; bk_metadata := metadata |}
  end.
Definition funding (b : Backing) : option BudgetLane * bool :=
  if decide (bk_funding b = FIXED_ORDINARY) then (Some BudgetLane.Ordinary, false)
  else if decide (bk_funding b = FIXED_COMPLETION) then (Some BudgetLane.Completion, false)
  else if decide (bk_funding b = ELASTIC_ORDINARY) then (Some BudgetLane.Ordinary, true)
  else if decide (bk_funding b = ELASTIC_COMPLETION) then (Some BudgetLane.Completion, true)
  else (None, false).
Definition backing_lane (b : Backing) : option BudgetLane := (funding b).1.
Definition is_elastic (b : Backing) : bool := (funding b).2.
(** What the parent holds for the level, given back when the level ends. *)
Definition held (b : Backing) : option (BudgetLane * N) :=
  lane ← backing_lane b; Some (lane, bk_held b).
Definition set_available (a : N) (b : Backing) : Backing :=
  {| bk_funding := bk_funding b; bk_held := bk_held b; bk_available := a;
     bk_metadata := bk_metadata b |}.
Definition set_held (h : N) (b : Backing) : Backing :=
  {| bk_funding := bk_funding b; bk_held := h; bk_available := bk_available b;
     bk_metadata := bk_metadata b |}.
Definition acquire (bytes : N) (b : Backing) : Try MemoryError Backing :=
  match checked_sub (bk_available b) bytes with
  | Some available => Ok (set_available available b)
  | None => Err (MemoryError.Capacity bytes (bk_available b))
  end.
(** The credit goes back; whether every credit is. *)
Definition release (bytes : N) (b : Backing) : bool * Backing :=
  (bool_decide (checked_add (bk_available b) bytes = Some (bk_held b - bk_metadata b)),
   set_available (wrapping_add (bk_available b) bytes) b).
Definition settled (b : Backing) : bool :=
  negb (is_elastic b) || bool_decide (bk_available b = bk_held b - bk_metadata b).

(** ** One level *)
Record Level := {
  lv_state : N; lv_holds : N;
  lv_limit : N; lv_ordinary_limit : N; lv_hold_limit : N;
  lv_total : N; lv_ordinary : N; lv_kinds : gmap BudgetKind N;
  lv_depth : N; lv_parent : option N;
  lv_refusals : N; lv_refused_lane : N; lv_refused_requested : N; lv_refused_available : N;
  lv_backing : Backing
}.
Definition level_new : Level :=
  {| lv_state := 0; lv_holds := 0; lv_limit := 0; lv_ordinary_limit := 0; lv_hold_limit := 0;
     lv_total := 0; lv_ordinary := 0; lv_kinds := ∅; lv_depth := 0; lv_parent := None;
     lv_refusals := 0; lv_refused_lane := 0; lv_refused_requested := 0; lv_refused_available := 0;
     lv_backing := backing_new |}.
(** The fields an operation changes on a live level. *)
Definition with_state (state : N) (l : Level) : Level :=
  {| lv_state := state; lv_holds := lv_holds l; lv_limit := lv_limit l;
     lv_ordinary_limit := lv_ordinary_limit l; lv_hold_limit := lv_hold_limit l;
     lv_total := lv_total l; lv_ordinary := lv_ordinary l; lv_kinds := lv_kinds l;
     lv_depth := lv_depth l; lv_parent := lv_parent l; lv_refusals := lv_refusals l;
     lv_refused_lane := lv_refused_lane l; lv_refused_requested := lv_refused_requested l;
     lv_refused_available := lv_refused_available l; lv_backing := lv_backing l |}.
Definition with_holds (holds : N) (l : Level) : Level :=
  {| lv_state := lv_state l; lv_holds := holds; lv_limit := lv_limit l;
     lv_ordinary_limit := lv_ordinary_limit l; lv_hold_limit := lv_hold_limit l;
     lv_total := lv_total l; lv_ordinary := lv_ordinary l; lv_kinds := lv_kinds l;
     lv_depth := lv_depth l; lv_parent := lv_parent l; lv_refusals := lv_refusals l;
     lv_refused_lane := lv_refused_lane l; lv_refused_requested := lv_refused_requested l;
     lv_refused_available := lv_refused_available l; lv_backing := lv_backing l |}.
Definition with_usage (total ordinary : N) (kinds : gmap BudgetKind N) (b : Backing) (l : Level) : Level :=
  {| lv_state := lv_state l; lv_holds := lv_holds l; lv_limit := lv_limit l;
     lv_ordinary_limit := lv_ordinary_limit l; lv_hold_limit := lv_hold_limit l;
     lv_total := total; lv_ordinary := ordinary; lv_kinds := kinds;
     lv_depth := lv_depth l; lv_parent := lv_parent l; lv_refusals := lv_refusals l;
     lv_refused_lane := lv_refused_lane l; lv_refused_requested := lv_refused_requested l;
     lv_refused_available := lv_refused_available l; lv_backing := b |}.
Definition with_refusal (lane requested available : N) (l : Level) : Level :=
  {| lv_state := lv_state l; lv_holds := lv_holds l; lv_limit := lv_limit l;
     lv_ordinary_limit := lv_ordinary_limit l; lv_hold_limit := lv_hold_limit l;
     lv_total := lv_total l; lv_ordinary := lv_ordinary l; lv_kinds := lv_kinds l;
     lv_depth := lv_depth l; lv_parent := lv_parent l; lv_refusals := wrapping_add (lv_refusals l) 1;
     lv_refused_lane := lane; lv_refused_requested := requested;
     lv_refused_available := available; lv_backing := lv_backing l |}.
(** A kind's counter; none has been written is zero. *)
Definition kind_used (kinds : gmap BudgetKind N) (kind : BudgetKind) : N := default 0 (kinds !! kind).
Definition kind_add (kind : BudgetKind) (bytes : N) (kinds : gmap BudgetKind N) : gmap BudgetKind N :=
  <[kind := wrapping_add (kind_used kinds kind) bytes]> kinds.
Definition kind_sub (kind : BudgetKind) (bytes : N) (kinds : gmap BudgetKind N) : gmap BudgetKind N :=
  <[kind := wrapping_sub (kind_used kinds kind) bytes]> kinds.

Definition reserve_counter (used limit bytes : N) : Try MemoryError N :=
  match checked_add used bytes with
  | Some next => if decide (next <= limit) then Ok next
                 else Err (MemoryError.Capacity bytes (limit - used))
  | None => Err (MemoryError.Capacity bytes (limit - used))
  end.
(** What a lane's total is held to. *)
Definition lane_bound (lane : BudgetLane) (l : Level) : N :=
  match lane with BudgetLane.Committed => lv_hold_limit l | _ => lv_limit l end.

(** [Level::reserve_local]: the lane check, the elastic credit, the counters
    and the kind, all given back if one refuses. *)
Definition reserve_local (kind : BudgetKind) (lane : BudgetLane) (bytes : N) :
    Fallible Level MemoryError () := λ l,
  let '(funded, elastic) := funding (lv_backing l) in
  if decide (lane = BudgetLane.Ordinary ∧ funded = Some BudgetLane.Completion) then
    (Err (MemoryError.InvalidConfiguration "completion funding cannot admit ordinary work"), l)
  else match (if elastic then acquire bytes (lv_backing l) else Ok (lv_backing l)) with
  | Err e => (Err e, l)
  | Ok b =>
      let refund := if elastic then (release bytes b).2 else b in
      match (if decide (lane = BudgetLane.Ordinary)
             then reserve_counter (lv_ordinary l) (lv_ordinary_limit l) bytes
             else Ok (lv_ordinary l)) with
      | Err e => (Err e, with_usage (lv_total l) (lv_ordinary l) (lv_kinds l) refund l)
      | Ok ordinary =>
          match reserve_counter (lv_total l) (lane_bound lane l) bytes with
          | Err e =>
              (Err e, with_usage (lv_total l)
                (if decide (lane = BudgetLane.Ordinary) then wrapping_sub ordinary bytes else ordinary)
                (lv_kinds l) refund l)
          | Ok total => (Ok (), with_usage total ordinary (kind_add kind bytes (lv_kinds l)) b l)
          end
      end
  end.

(** [Level::release_local]: whether the release leaves the level uncharged and
    finds it unheld. *)
Definition release_local (kind : BudgetKind) (lane : BudgetLane) (bytes : N) (elastic : bool)
    (l : Level) : bool * Level :=
  let kinds := kind_sub kind bytes (lv_kinds l) in
  let ordinary := if decide (lane = BudgetLane.Ordinary) then wrapping_sub (lv_ordinary l) bytes
                  else lv_ordinary l in
  let total := wrapping_sub (lv_total l) bytes in
  let '(last, b) := if elastic then release bytes (lv_backing l)
                    else (bool_decide (lv_total l = bytes), lv_backing l) in
  (last && bool_decide (lv_holds l = 0), with_usage total ordinary kinds b l).

(** ** The table of levels *)
Definition MAX_DEPTH : nat := 8.
Definition SEGMENT : N := 256.
Definition SEGMENTS : N := 4096.
(** [slots] has the slots taken so far, [free] the ended ones, last recycled
    first. *)
Record Levels := { slots : gmap N Level; fresh : N; free : list N }.
Definition levels_new : Levels := {| slots := ∅; fresh := 0; free := [] |}.
Definition on_slots (f : gmap N Level → gmap N Level) (F : Levels) : Levels :=
  {| slots := f (slots F); fresh := fresh F; free := free F |}.
Definition on_level (i : N) (f : Level → Level) : Levels → Levels := on_slots (alter f i).
Definition full : MemoryError := MemoryError.Capacity 1 0.

(** [Levels::take]: a slot whose level ended, or the first never used. A slot
    is made when it is first taken. *)
Definition take_slot : Fallible Levels MemoryError N := λ F,
  match free F with
  | i :: rest => (Ok i, {| slots := slots F; fresh := fresh F; free := rest |})
  | [] =>
      match checked_add (fresh F) 1 with
      | Some after =>
          if decide (after <= SEGMENT * SEGMENTS) then
            (Ok (fresh F), {| slots := <[fresh F := level_new]> (slots F); fresh := after; free := [] |})
          else (Err full, F)
      | None => (Err full, F)
      end
  end.
Definition recycle (i : N) (F : Levels) : Levels :=
  {| slots := slots F; fresh := fresh F; free := i :: free F |}.

(** [lineage]: a level and its ancestors, nearest first. *)
Fixpoint lineage_from (n : nat) (F : Levels) (i : N) : list N :=
  match n, slots F !! i with
  | S n, Some l => i :: match lv_parent l with Some p => lineage_from n F p | None => [] end
  | _, _ => []
  end.
Definition lineage (F : Levels) (i : N) : list N := lineage_from MAX_DEPTH F i.

(** One level's release, and the level's slot and life if it may end. *)
Definition release_at (i : N) (kind : BudgetKind) (lane : BudgetLane) (bytes : N) (elastic : bool)
    (F : Levels) : list (N * N) * Levels :=
  match slots F !! i with
  | Some l =>
      let '(last, l') := release_local kind lane bytes elastic l in
      (if last then [(i, lv_state l)] else [], on_level i (λ _, l') F)
  | None => ([], F)
  end.
Definition release_levels (level : N) (kind : BudgetKind) (lane : BudgetLane) (bytes : N)
    (levels : nat) (F : Levels) : Levels :=
  foldl (λ F i,
    match slots F !! i with
    | Some l => (release_at i kind lane bytes (is_elastic (lv_backing l)) F).2
    | None => F
    end) F (firstn levels (lineage F level)).
(** [reclassify_tree]: move a held charge between kinds from [level] up. *)
Definition reclassify_tree (level : N) (source target : BudgetKind) (bytes : N) (F : Levels) : Levels :=
  if decide (source = target ∨ bytes = 0) then F
  else foldl (λ F i, on_level i (λ l,
      with_usage (lv_total l) (lv_ordinary l)
        (kind_add target bytes (kind_sub source bytes (lv_kinds l))) (lv_backing l) l) F)
    F (lineage F level).

Definition refused_lane_code (lane : BudgetLane) : N :=
  match lane with BudgetLane.Ordinary => 0 | BudgetLane.Completion => 1 | BudgetLane.Committed => 2 end.
Definition record_refusal (level : N) (lane : BudgetLane) (e : MemoryError) (F : Levels) : Levels :=
  match e with
  | MemoryError.Capacity requested available =>
      on_level level (with_refusal (refused_lane_code lane) requested available) F
  | _ => F
  end.
Definition too_deep : MemoryError :=
  MemoryError.InvalidConfiguration "memory budget hierarchy exceeds eight levels".

(** The loop of [reserve_tree], with [taken] levels charged so far and [n]
    turns left before [MAX_DEPTH]. *)
Fixpoint reserve_walk (n : nat) (level : N) (kind : BudgetKind) (lane : BudgetLane) (bytes : N)
    (current : N) (taken : nat) : Fallible Levels MemoryError () := λ F,
  match slots F !! current with
  | None => (Err full, F)
  | Some l =>
      match reserve_local kind lane bytes l with
      | (Err e, l') =>
          let F := on_level current (λ _, l') F in
          let F := release_levels level kind lane bytes taken F in
          (Err e, record_refusal level lane e F)
      | (Ok _, l') =>
          let F := on_level current (λ _, l') F in
          match lv_parent l with
          | None => (Ok (), F)
          | Some parent =>
              match backing_lane (lv_backing l), n with
              | Some _, _ => (Ok (), reclassify_tree parent BudgetKind.Reserved kind bytes F)
              | None, S n => reserve_walk n level kind lane bytes parent (S taken) F
              | None, O => (Err too_deep, release_levels level kind lane bytes (S taken) F)
              end
          end
      end
  end.
Definition reserve_tree (level : N) (kind : BudgetKind) (lane : BudgetLane) (bytes : N) :
    Fallible Levels MemoryError () :=
  reserve_walk (MAX_DEPTH - 1) level kind lane bytes level 0.

(** [release_tree]: the levels the release may leave unheld and uncharged,
    each with the life it was in. *)
Fixpoint release_walk (n : nat) (kind : BudgetKind) (lane : BudgetLane) (bytes : N) (current : N)
    (F : Levels) : list (N * N) * Levels :=
  match n, slots F !! current with
  | S n, Some l =>
      let '(funded, elastic) := funding (lv_backing l) in
      match funded with
      | Some _ =>
          let F := match lv_parent l with
                   | Some parent => reclassify_tree parent kind BudgetKind.Reserved bytes F
                   | None => F
                   end in
          release_at current kind lane bytes elastic F
      | None =>
          let '(ended, F) := release_at current kind lane bytes elastic F in
          match lv_parent l with
          | None => (ended, F)
          | Some parent =>
              let '(more, F) := release_walk n kind lane bytes parent F in (ended ++ more, F)
          end
      end
  | _, _ => ([], F)
  end.
Definition release_tree (level : N) (kind : BudgetKind) (lane : BudgetLane) (bytes : N) (F : Levels) :
    list (N * N) * Levels :=
  release_walk MAX_DEPTH kind lane bytes level F.

(** [end]: end the level if nothing holds or charges it and it is still in the
    life it was seen in, then each ancestor its end leaves unheld. A turn moves
    to the parent, so [MAX_DEPTH] turns are enough. *)
Fixpoint end_walk (n : nat) (level live : N) (F : Levels) : Levels :=
  match n, slots F !! level with
  | S n, Some l =>
      if decide (lv_holds l ≠ 0 ∨ lv_total l ≠ 0 ∨ settled (lv_backing l) = false) then F else
      match (g ← checked_add (live / 2) 1; checked_mul g 2) with
      | None => F
      | Some next =>
          if decide (lv_state l ≠ live) then F else
          let F := recycle level (on_level level (with_state next) F) in
          match lv_parent l with
          | None => F
          | Some parent =>
              match slots F !! parent with
              | None => F
              | Some above =>
                  let parent_live := lv_state above in
                  let F := match held (lv_backing l) with
                           | Some (lane, bytes) =>
                               (release_tree parent BudgetKind.Reserved lane bytes F).2
                           | None => F
                           end in
                  let holds := match slots F !! parent with Some p => lv_holds p | None => 0 end in
                  let F := on_level parent (λ p, with_holds (wrapping_sub (lv_holds p) 1) p) F in
                  if decide (holds ≠ 1) then F else end_walk n parent parent_live F
              end
          end
      end
  | _, _ => F
  end.
Definition end_level (level live : N) (F : Levels) : Levels := end_walk MAX_DEPTH level live F.
(** [Ended::end]. *)
Definition end_all (ended : list (N * N)) (F : Levels) : Levels :=
  foldl (λ F '(level, live), end_level level live F) F ended.
Definition release_hold (level : N) (F : Levels) : Levels :=
  match slots F !! level with
  | Some l =>
      let F := on_level level (with_holds (wrapping_sub (lv_holds l) 1)) F in
      if decide (lv_holds l = 1) then end_level level (lv_state l) F else F
  | None => F
  end.
Definition take_hold (level : N) : Levels → Levels :=
  on_level level (λ l, with_holds (wrapping_add (lv_holds l) 1) l).

(** ** Budgets and permits

    Sizes the compiler lays out are parameters. *)
Class Layout := {
  size_of_Level : N;
  size_of_Root : N;          (** of the cursor registry *)
  size_of_CursorRow : N;     (** [(ConsumerId, CursorRecord)] *)
  size_of_Subscription : N;
  size_of_Delivery : N;
  size_of_Allocation : N
}.
Record Terms := {
  tm_limit : N; tm_ordinary_limit : N; tm_hold_limit : N; tm_depth : N; tm_funding : Funding
}.
(** [Level::begin]: the slot's next life. *)
Definition level_begin (terms : Terms) (parent : option N) (l : Level) : Level :=
  {| lv_state := N.lor (lv_state l) 1; lv_holds := 1; lv_limit := tm_limit terms;
     lv_ordinary_limit := tm_ordinary_limit terms; lv_hold_limit := tm_hold_limit terms;
     lv_total := 0; lv_ordinary := 0; lv_kinds := ∅; lv_depth := tm_depth terms;
     lv_parent := parent; lv_refusals := 0; lv_refused_lane := 0; lv_refused_requested := 0;
     lv_refused_available := 0; lv_backing := backing_set (tm_funding terms) |}.
(** A [MemoryBudget] is the slot of its level. *)
Notation MemoryBudget := N (only parsing).
Definition begin (terms : Terms) (parent : option MemoryBudget) : Fallible Levels MemoryError MemoryBudget :=
  level ← take_slot;
  modify (λ F, match parent with Some p => take_hold p F | None => F end);;
  modify (on_level level (level_begin terms parent));;
  mret level.
(** One below the budget, eight levels at most (a [u8]). *)
Definition child_depth (budget : MemoryBudget) : Fallible Levels MemoryError N := λ F,
  match slots F !! budget with
  | Some l =>
      if decide (lv_depth l + 1 <= 255 ∧ lv_depth l + 1 <= N.of_nat MAX_DEPTH)
      then (Ok (lv_depth l + 1), F) else (Err too_deep, F)
  | None => (Err too_deep, F)
  end.
Definition create (limit completion_reserve hold : N) (parent : option MemoryBudget) :
    Fallible Levels MemoryError MemoryBudget :=
  lift (refuse_if (limit = 0 ∨ limit < completion_reserve ∨ hold < limit)
    (MemoryError.InvalidConfiguration "invalid memory allowance"));;
  depth ← match parent with Some p => child_depth p | None => mret 1 end;
  begin {| tm_limit := limit; tm_ordinary_limit := limit - completion_reserve;
           tm_hold_limit := hold; tm_depth := depth; tm_funding := Funding.Unfunded |} parent.
Definition budget_new (limit completion_reserve : N) : Fallible Levels MemoryError MemoryBudget :=
  create limit completion_reserve limit None.
Definition child (budget : MemoryBudget) (limit completion_reserve : N) :
    Fallible Levels MemoryError MemoryBudget :=
  create limit completion_reserve limit (Some budget).
Definition child_holding (budget : MemoryBudget) (limit completion_reserve hold : N) :
    Fallible Levels MemoryError MemoryBudget :=
  create limit completion_reserve hold (Some budget).
(** Begin a level whose backing is charged already; the charge goes back if no
    slot is left. *)
Definition begin_funded (budget : MemoryBudget) (lane : BudgetLane) (bytes : N) (terms : Terms) :
    Fallible Levels MemoryError MemoryBudget := λ F,
  match begin terms (Some budget) F with
  | (Ok level, F) => (Ok level, F)
  | (Err e, F) => (Err e, (release_tree budget BudgetKind.Reserved lane bytes F).2)
  end.
Definition funded_ordinary_limit (lane : BudgetLane) (capacity : N) : N :=
  match lane with BudgetLane.Ordinary => capacity | _ => 0 end.
Definition funded_child `{Layout} (budget : MemoryBudget) (lane : BudgetLane) (capacity : N) :
    Fallible Levels MemoryError MemoryBudget :=
  lift (refuse_if (capacity = 0) (MemoryError.InvalidConfiguration "empty funded pool"));;
  lift (refuse_if (lane = BudgetLane.Committed)
    (MemoryError.InvalidConfiguration "committed work is never prepaid"));;
  depth ← child_depth budget;
  bytes ← lift (charge_add capacity size_of_Level);
  reserve_tree budget BudgetKind.Reserved lane bytes;;
  begin_funded budget lane bytes
    {| tm_limit := capacity; tm_ordinary_limit := funded_ordinary_limit lane capacity;
       tm_hold_limit := capacity; tm_depth := depth; tm_funding := Funding.Fixed lane bytes |}.
Definition budget_clone (budget : MemoryBudget) : Levels → Levels := take_hold budget.
Definition budget_drop (budget : MemoryBudget) : Levels → Levels := release_hold budget.

(** A permit: [Reservation] and [Allocation]. *)
Record Allocation := {
  al_level : MemoryBudget; al_bytes : N; al_kind : BudgetKind; al_lane : BudgetLane
}.
#[export] Instance allocation_eq_dec : EqDecision Allocation.
Proof. solve_decision. Defined.
Definition with_bytes (bytes : N) (a : Allocation) : Allocation :=
  {| al_level := al_level a; al_bytes := bytes; al_kind := al_kind a; al_lane := al_lane a |}.
Definition reserve (budget : MemoryBudget) (kind : BudgetKind) (lane : BudgetLane) (bytes : N) :
    Fallible Levels MemoryError Allocation :=
  reserve_tree budget kind lane bytes;;
  modify (λ F, if decide (bytes = 0) then take_hold budget F else F);;
  mret {| al_level := budget; al_bytes := bytes; al_kind := kind; al_lane := lane |}.
(** [Allocation::absorb]: this permit and the other, emptied. *)
Definition absorb (self other : Allocation) : Fallible Levels MemoryError (Allocation * Allocation) :=
  lift (refuse_if (al_level self ≠ al_level other ∨ al_kind self ≠ al_kind other
                   ∨ al_lane self ≠ al_lane other)
    (MemoryError.InvalidConfiguration "allocation owners differ"));;
  total ← lift (or_fail (checked_add (al_bytes self) (al_bytes other))
    (MemoryError.InvalidConfiguration "allocation sum overflow"));
  modify (λ F, if decide (al_bytes self ≠ 0 ∧ al_bytes other ≠ 0)
               then take_hold (al_level self) F else F);;
  mret (with_bytes total self, with_bytes 0 other).
Definition allocation_drop (a : Allocation) (F : Levels) : Levels :=
  if decide (al_bytes a = 0) then release_hold (al_level a) F
  else let '(ended, F) := release_tree (al_level a) (al_kind a) (al_lane a) (al_bytes a) F in
       end_all ended F.
(** [Allocation::grow]: the growth is a permit of its own that is absorbed,
    emptied, and dropped. *)
Definition absorb_more (self more : Allocation) : Fallible Levels MemoryError Allocation := λ F,
  match absorb self more F with
  | (Ok (self, more), F) => (Ok self, allocation_drop more F)
  | (Err e, F) => (Err e, allocation_drop more F)
  end.
Definition grow (self : Allocation) (bytes : N) : Fallible Levels MemoryError Allocation :=
  if decide (bytes = 0) then mret self else
  lift (or_fail (checked_add (al_bytes self) bytes)
    (MemoryError.InvalidConfiguration "allocation sum overflow"));;
  reserve_tree (al_level self) (al_kind self) (al_lane self) bytes;;
  absorb_more self (with_bytes bytes self).
Definition split_off (self : Allocation) (bytes : N) : Fallible Levels MemoryError (Allocation * Allocation) :=
  remaining ← lift (or_fail (checked_sub (al_bytes self) bytes)
    (MemoryError.InvalidConfiguration "allocation split exceeds owned allowance"));
  modify (λ F, if decide (bytes = 0 ∨ remaining = 0) then take_hold (al_level self) F else F);;
  mret (with_bytes remaining self, with_bytes bytes self).
Definition shrink_to (self : Allocation) (bytes : N) : Fallible Levels MemoryError Allocation :=
  released ← lift (or_fail (checked_sub (al_bytes self) bytes)
    (MemoryError.InvalidConfiguration "allocation cannot grow without admission"));
  if decide (released = 0) then mret self else
  modify (λ F, if decide (bytes = 0) then take_hold (al_level self) F else F);;
  modify (λ F, (release_tree (al_level self) (al_kind self) (al_lane self) released F).2);;
  mret (with_bytes bytes self).

(** ** Diagnostics and early refusals *)
Definition least (l : list N) : option N := foldr (λ x m, Some (default x (N.min x <$> m))) None l.
Definition reservation_limit (budget : MemoryBudget) (lane : BudgetLane) (F : Levels) : N :=
  default u64_max (least ((λ l, match lane with
      | BudgetLane.Ordinary => lv_ordinary_limit l
      | BudgetLane.Completion => lv_limit l
      | BudgetLane.Committed => lv_hold_limit l
      end) <$> omap (λ i, slots F !! i) (lineage F budget))).
Definition is_within (budget ancestor : MemoryBudget) (F : Levels) : bool :=
  bool_decide (ancestor ∈ lineage F budget).
(** What one level leaves a reservation on [lane]. *)
Definition level_headroom (lane : BudgetLane) (l : Level) (headroom : N) : N :=
  let headroom := if is_elastic (lv_backing l) then N.min headroom (bk_available (lv_backing l))
                  else headroom in
  let headroom := if decide (lane = BudgetLane.Ordinary)
                  then N.min headroom (lv_ordinary_limit l - lv_ordinary l) else headroom in
  N.min headroom (lane_bound lane l - lv_total l).
Fixpoint headroom_over (lane : BudgetLane) (levels : list Level) (headroom : N) : N :=
  match levels with
  | [] => headroom
  | l :: rest =>
      if decide (lane = BudgetLane.Ordinary ∧ backing_lane (lv_backing l) = Some BudgetLane.Completion)
      then 0
      else let headroom := level_headroom lane l headroom in
           match backing_lane (lv_backing l) with
           | Some _ => headroom
           | None => headroom_over lane rest headroom
           end
  end.
Definition headroom (budget : MemoryBudget) (lane : BudgetLane) (F : Levels) : N :=
  headroom_over lane (omap (λ i, slots F !! i) (lineage F budget)) u64_max.

(** ** Elastic pools (budget_elastic.rs) *)
Notation ElasticFundedPool := N (only parsing).
Definition elastic_funded_child `{Layout} (budget : MemoryBudget) (lane : BudgetLane)
    (ceiling initial_capacity : N) : Fallible Levels MemoryError ElasticFundedPool :=
  lift (refuse_if (ceiling = 0 ∨ ceiling < initial_capacity)
    (MemoryError.InvalidConfiguration "invalid elastic funded allowance"));;
  lift (refuse_if (lane = BudgetLane.Committed)
    (MemoryError.InvalidConfiguration "committed work is never prepaid"));;
  depth ← child_depth budget;
  let metadata := size_of_Level in
  held ← lift (charge_add initial_capacity metadata);
  reserve_tree budget BudgetKind.Reserved lane held;;
  begin_funded budget lane held
    {| tm_limit := ceiling; tm_ordinary_limit := funded_ordinary_limit lane ceiling;
       tm_hold_limit := ceiling; tm_depth := depth;
       tm_funding := Funding.Elastic lane held initial_capacity metadata |}.
(** The pool's level, checked to be elastic, its parent and its lane. *)
Definition pool_level (pool : ElasticFundedPool) : Fallible Levels MemoryError (Level * N * BudgetLane) := λ F,
  match slots F !! pool with
  | Some l =>
      if is_elastic (lv_backing l) then
        match lv_parent l, backing_lane (lv_backing l) with
        | Some parent, Some lane => (Ok (l, parent, lane), F)
        | _, _ => (Err (MemoryError.InvalidConfiguration "elastic backing has no parent"), F)
        end
      else (Err (MemoryError.InvalidConfiguration "elastic controller has no elastic backing"), F)
  | None => (Err (MemoryError.InvalidConfiguration "elastic controller has no elastic backing"), F)
  end.
Definition on_backing (f : Backing → Backing) (l : Level) : Level :=
  with_usage (lv_total l) (lv_ordinary l) (lv_kinds l) (f (lv_backing l)) l.
Definition pool_grow (pool : ElasticFundedPool) (bytes : N) : Fallible Levels MemoryError () :=
  '(l, parent, lane) ← pool_level pool;
  let held := bk_held (lv_backing l) in
  capacity ← lift (or_fail (checked_sub held (bk_metadata (lv_backing l)))
    (MemoryError.InvalidConfiguration "elastic metadata missing"));
  next_capacity ← lift (charge_add capacity bytes);
  lift (refuse_if (lv_limit l < next_capacity)
    (MemoryError.Capacity bytes (lv_limit l - capacity)));;
  next_held ← lift (charge_add held bytes);
  reserve_tree parent BudgetKind.Reserved lane bytes;;
  modify (on_level pool (on_backing (set_held next_held)));;
  modify (on_level pool (on_backing (λ b, (release bytes b).2))).
Definition trim_unused (pool : ElasticFundedPool) (bytes : N) : Fallible Levels MemoryError () :=
  '(l, parent, lane) ← pool_level pool;
  let b := lv_backing l in
  next_held ← lift (match checked_sub (bk_held b) bytes with
    | Some remaining =>
        if decide (bk_metadata b <= remaining) then Ok remaining
        else Err (MemoryError.Capacity bytes (bk_available b))
    | None => Err (MemoryError.Capacity bytes (bk_available b))
    end);
  b ← lift (acquire bytes b);
  modify (on_level pool (on_backing (λ _, set_held next_held b)));;
  modify (λ F, (release_tree parent BudgetKind.Reserved lane bytes F).2).

(** The least of a list is at most each of them. *)
Lemma least_le l x m : least l = Some m → x ∈ l → m <= x.
Proof.
  revert m. induction l as [|y l IH]; simpl; intros m Hm Hx; [set_solver|]. simplify_eq.
  apply elem_of_cons in Hx as [->|Hx]; destruct (least l) as [m|] eqn:Hl; simpl; [lia|lia| |].
  - specialize (IH m eq_refl Hx). lia.
  - destruct l; [set_solver|]. simpl in Hl. done.
Qed.
