(* ===== verification/BudgetLaws.v ===== *)
(** * Laws of the memory budget

    What a reservation and a release do to the table of levels, as one change
    along the path a charge takes: from its level to the root, or to the first
    funded level. Categories and refusal diagnostics, which no decision reads,
    are left out of the observed state; the last section puts them back: what a
    refused reservation leaves reads as before in every field and category, but
    for the diagnostics of the level it was made at. *)
From stdpp Require Import prelude gmap strings list.
From Stdlib Require Import NArith.
From S2P Require Import Prelude Fallible Budget.
#[local] Open Scope N_scope.

(** ** The observed table *)
Definition plain (l : Level) : Level :=
  {| lv_state := lv_state l; lv_holds := lv_holds l; lv_limit := lv_limit l;
     lv_ordinary_limit := lv_ordinary_limit l; lv_hold_limit := lv_hold_limit l;
     lv_total := lv_total l; lv_ordinary := lv_ordinary l; lv_kinds := ∅;
     lv_depth := lv_depth l; lv_parent := lv_parent l; lv_refusals := 0; lv_refused_lane := 0;
     lv_refused_requested := 0; lv_refused_available := 0; lv_backing := lv_backing l |}.
Definition obs (F : Levels) : gmap N Level := plain <$> slots F.
(** Two tables that agree on all but categories and diagnostics. *)
Definition same (F F' : Levels) : Prop := obs F' = obs F ∧ fresh F' = fresh F ∧ free F' = free F.

Lemma obs_lookup F i : obs F !! i = plain <$> slots F !! i.
Proof. apply lookup_fmap. Qed.
Lemma obs_on_level F i f g :
  (∀ l, slots F !! i = Some l → plain (f l) = g (plain l)) → obs (on_level i f F) = alter g i (obs F).
Proof.
  intros Hf. apply map_eq. intros j. rewrite obs_lookup. simpl. destruct (decide (j = i)) as [->|Hne].
  - rewrite !lookup_alter_eq, obs_lookup. destruct (slots F !! i) as [l|]; simpl; [|done]. by rewrite (Hf l).
  - by rewrite !lookup_alter_ne, obs_lookup by done.
Qed.
Lemma obs_on_level_same F i f : (∀ l, slots F !! i = Some l → plain (f l) = plain l) → obs (on_level i f F) = obs F.
Proof.
  intros Hf. rewrite (obs_on_level _ _ _ id) by done. apply map_eq. intros j.
  destruct (decide (j = i)) as [->|]; [rewrite lookup_alter_eq; by destruct (obs F !! i)|by rewrite lookup_alter_ne].
Qed.
Lemma same_refl F : same F F.
Proof. done. Qed.
Lemma same_trans F F' F'' : same F F' → same F' F'' → same F F''.
Proof. unfold same. intuition congruence. Qed.
Lemma same_on_level F i f : (∀ l, slots F !! i = Some l → plain (f l) = plain l) → same F (on_level i f F).
Proof. intros. split; [by apply obs_on_level_same|done]. Qed.
Lemma reclassify_same level k k' bytes F : same F (reclassify_tree level k k' bytes F).
Proof.
  unfold reclassify_tree. case_decide; [apply same_refl|]. generalize (lineage F level). intros ls.
  revert F. induction ls as [|i ls IH]; intros F; [apply same_refl|].
  simpl. eapply same_trans; [|apply IH]. by apply same_on_level.
Qed.
Lemma record_refusal_same level lane e F : same F (record_refusal level lane e F).
Proof. destruct e; try apply same_refl. by apply same_on_level. Qed.

(** ** Paths *)
(** The levels a charge at [i] is counted at. *)
Fixpoint path_from (n : nat) (m : gmap N Level) (i : N) : list N :=
  match n, m !! i with
  | S n, Some l =>
      i :: match lv_parent l, backing_lane (lv_backing l) with
           | Some p, None => path_from n m p
           | _, _ => []
           end
  | _, _ => []
  end.
Definition path : gmap N Level → N → list N := path_from MAX_DEPTH.

(** [f] keeps where a level is and how it is funded. *)
Definition keeps_place (f : Level → Level) : Prop := ∀ l,
  lv_parent (f l) = lv_parent l ∧ bk_funding (lv_backing (f l)) = bk_funding (lv_backing l) ∧
  lv_depth (f l) = lv_depth l.
Lemma funding_code b b' : bk_funding b = bk_funding b' → funding b = funding b'.
Proof. unfold funding. by intros ->. Qed.
Lemma path_alter f n m j i : keeps_place f → path_from n (alter f j m) i = path_from n m i.
Proof.
  intros Hf. revert i. induction n as [|n IH]; intros i; [done|]. simpl. destruct (decide (i = j)) as [->|Hne].
  - rewrite lookup_alter_eq. destruct (m !! j) as [l|]; [|done]. simpl. destruct (Hf l) as (-> & Hc & _).
    unfold backing_lane. rewrite (funding_code _ _ Hc). destruct (lv_parent l), (funding (lv_backing l)).1; by rewrite ?IH.
  - rewrite lookup_alter_ne by done. destruct (m !! i) as [l|]; [|done].
    destruct (lv_parent l), (backing_lane (lv_backing l)); by rewrite ?IH.
Qed.
(** Levels of [L] have a slot, and their parents are of [L] and less deep. *)
Definition closed (m : gmap N Level) (L : list N) : Prop := ∀ i, i ∈ L → ∃ l, m !! i = Some l ∧ 1 <= lv_depth l ∧
  ∀ p, lv_parent l = Some p → p ∈ L ∧ ∃ lp, m !! p = Some lp ∧ lv_depth l = lv_depth lp + 1.
Lemma path_agree n m m' L i : closed m L → (∀ j, j ∈ L → m' !! j = m !! j) → i ∈ L → path_from n m' i = path_from n m i.
Proof.
  intros Hc Hag. revert i. induction n as [|n IH]; intros i Hi; [done|]. simpl. rewrite Hag by done.
  destruct (Hc i Hi) as (l & -> & _ & Hp). destruct (lv_parent l) as [p|]; [|done].
  destruct (backing_lane (lv_backing _)); [done|]. by rewrite IH by apply (Hp p eq_refl).
Qed.
Lemma path_closed n m L i j : closed m L → i ∈ L → j ∈ path_from n m i → j ∈ L.
Proof.
  intros Hc. revert i. induction n as [|n IH]; intros i Hi Hj; simpl in Hj; [by apply not_elem_of_nil in Hj|].
  destruct (Hc i Hi) as (l & Hl & _ & Hp). rewrite Hl in Hj. apply elem_of_cons in Hj as [->|Hj]; [done|].
  destruct (lv_parent l) as [p|]; [|by apply not_elem_of_nil in Hj].
  destruct (backing_lane (lv_backing _)); [by apply not_elem_of_nil in Hj|]. apply (IH p); [apply (Hp p eq_refl)|done].
Qed.
Lemma path_depth n m L i j l : closed m L → i ∈ L → j ∈ path_from n m i → m !! i = Some l →
  ∃ lj, m !! j = Some lj ∧ lv_depth lj <= lv_depth l.
Proof.
  intros Hc. revert i l. induction n as [|n IH]; intros i l Hi Hj Hl; simpl in Hj; [by apply not_elem_of_nil in Hj|].
  destruct (Hc i Hi) as (l' & Hl' & _ & Hp). rewrite Hl in Hl', Hj. simplify_eq.
  apply elem_of_cons in Hj as [->|Hj]; [by exists l'|].
  destruct (lv_parent l') as [p|]; [|by apply not_elem_of_nil in Hj].
  destruct (backing_lane (lv_backing _)); [by apply not_elem_of_nil in Hj|].
  destruct (Hp p eq_refl) as (HpL & lp & Hlp & Hd). destruct (IH p lp HpL Hj Hlp) as (lj & ? & ?). exists lj. split; [done|lia].
Qed.
Lemma path_nodup n m L i : closed m L → i ∈ L → NoDup (path_from n m i).
Proof.
  intros Hc. revert i. induction n as [|n IH]; intros i Hi; [constructor|]. simpl.
  destruct (Hc i Hi) as (l & Hl & _ & Hp). rewrite Hl. constructor.
  - destruct (lv_parent l) as [p|]; [|apply not_elem_of_nil]. destruct (backing_lane (lv_backing _)); [apply not_elem_of_nil|].
    destruct (Hp p eq_refl) as (HpL & lp & Hlp & Hd). intros Hin.
    destruct (path_depth _ _ _ _ _ _ Hc HpL Hin Hlp) as (? & ? & ?). simplify_eq. lia.
  - destruct (lv_parent l) as [p|]; [|constructor]. destruct (backing_lane (lv_backing _)); [constructor|].
    by apply IH, (Hp p eq_refl).
Qed.
Lemma lineage_path n F i : ∃ rest, lineage_from n F i = path_from n (obs F) i ++ rest.
Proof.
  revert i. induction n as [|n IH]; intros i; [by exists []|]. simpl. rewrite obs_lookup.
  destruct (slots F !! i) as [l|]; [|by exists []]. simpl.
  destruct (lv_parent l) as [p|]; [|by exists []]. destruct (backing_lane (lv_backing _)); [by eexists|].
  destruct (IH p) as [rest ->]. by exists rest.
Qed.

(** ** A change along a path *)
Fixpoint on_path (f : Level → Level) (p : list N) (m : gmap N Level) : gmap N Level :=
  match p with [] => m | i :: p => on_path f p (alter f i m) end.
Lemma on_path_lookup f p m i : NoDup p →
  on_path f p m !! i = if decide (i ∈ p) then f <$> m !! i else m !! i.
Proof.
  intros Hnd. revert m. induction Hnd as [|j p Hj Hnd IH]; intros m; cbn [on_path].
  { rewrite decide_False by apply not_elem_of_nil. done. }
  rewrite IH. destruct (decide (i = j)) as [->|Hne].
  - rewrite (decide_False (P := j ∈ p)), (decide_True (P := j ∈ j :: p)) by (done || by left). apply lookup_alter_eq.
  - rewrite lookup_alter_ne by done. destruct (decide (i ∈ p)).
    + by rewrite decide_True by (by right).
    + rewrite decide_False by (intros [?|?]%elem_of_cons; done). done.
Qed.
Lemma on_path_app f p q m : on_path f (p ++ q) m = on_path f q (on_path f p m).
Proof. revert m. induction p as [|i p IH]; intros m; simpl; [done|]. by rewrite IH. Qed.
Lemma path_on_path f n p m i : keeps_place f → path_from n (on_path f p m) i = path_from n m i.
Proof. intros Hf. revert m. induction p as [|j p IH]; intros m; simpl; [done|]. by rewrite IH, path_alter. Qed.
Lemma on_path_inverse f g p m : NoDup p → (∀ i l, i ∈ p → m !! i = Some l → g (f l) = l) →
  on_path g p (on_path f p m) = m.
Proof.
  intros Hnd Hinv. apply map_eq. intros i. rewrite !on_path_lookup by done.
  destruct (decide (i ∈ p)) as [Hi|]; [|done]. destruct (m !! i) as [l|] eqn:Hl; simpl; [|done]. by rewrite (Hinv i l).
Qed.

(** ** One level *)
Definition ordinary_part (lane : BudgetLane) (bytes : N) : N :=
  if decide (lane = BudgetLane.Ordinary) then bytes else 0.
Definition charge (lane : BudgetLane) (bytes : N) (l : Level) : Level :=
  with_usage (lv_total l + bytes) (lv_ordinary l + ordinary_part lane bytes) (lv_kinds l)
    (if is_elastic (lv_backing l) then set_available (bk_available (lv_backing l) - bytes) (lv_backing l)
     else lv_backing l) l.
Definition uncharge (lane : BudgetLane) (bytes : N) (l : Level) : Level :=
  with_usage (lv_total l - bytes) (lv_ordinary l - ordinary_part lane bytes) (lv_kinds l)
    (if is_elastic (lv_backing l) then set_available (bk_available (lv_backing l) + bytes) (lv_backing l)
     else lv_backing l) l.
(** The level has room for the charge. *)
Record admits (lane : BudgetLane) (bytes : N) (l : Level) : Prop := {
  ad_funding : lane = BudgetLane.Ordinary → backing_lane (lv_backing l) ≠ Some BudgetLane.Completion;
  ad_credit : is_elastic (lv_backing l) = true → bytes <= bk_available (lv_backing l);
  ad_ordinary : lane = BudgetLane.Ordinary → lv_ordinary l + bytes <= lv_ordinary_limit l;
  ad_total : lv_total l + bytes <= lane_bound lane l
}.
(** The level has been charged that much. *)
Record charged (lane : BudgetLane) (bytes : N) (l : Level) : Prop := {
  cd_total : bytes <= lv_total l;
  cd_ordinary : lane = BudgetLane.Ordinary → bytes <= lv_ordinary l;
  cd_credit : is_elastic (lv_backing l) = true → bk_available (lv_backing l) + bytes <= u64_max
}.
(** Counters and limits of machine width. *)
Record fits_width (l : Level) : Prop := {
  fw_ordinary_limit : lv_ordinary_limit l <= u64_max;
  fw_limit : lv_limit l <= u64_max;
  fw_hold_limit : lv_hold_limit l <= u64_max;
  fw_credit : bk_available (lv_backing l) <= u64_max
}.
Lemma level_eta l : with_usage (lv_total l) (lv_ordinary l) (lv_kinds l) (lv_backing l) l = l.
Proof. by destruct l. Qed.
Lemma set_available_eta b : set_available (bk_available b) b = b.
Proof. by destruct b. Qed.
Lemma elastic_available a b : is_elastic (set_available a b) = is_elastic b.
Proof. unfold is_elastic. by rewrite (funding_code (set_available a b) b). Qed.
Lemma charge_place lane bytes : keeps_place (charge lane bytes).
Proof. intros l. simpl. split_and!; [done| |done]. by destruct (is_elastic (lv_backing l)). Qed.
Lemma uncharge_place lane bytes : keeps_place (uncharge lane bytes).
Proof. intros l. simpl. split_and!; [done| |done]. by destruct (is_elastic (lv_backing l)). Qed.
Lemma uncharge_charge lane bytes l : (is_elastic (lv_backing l) = true → bytes <= bk_available (lv_backing l)) →
  uncharge lane bytes (charge lane bytes l) = l.
Proof.
  intros He. unfold uncharge, charge. destruct l as [? ? ? ? ? total ordinary ? ? ? ? ? ? ? b]. cbn in *.
  destruct (is_elastic b) eqn:E; [rewrite elastic_available, E|rewrite E]; unfold with_usage; f_equal; cbn; try lia.
  destruct b; unfold set_available; cbn in *. f_equal. specialize (He eq_refl). lia.
Qed.
Lemma reserve_counter_ok used limit bytes r : limit <= u64_max →
  reserve_counter used limit bytes = r →
  (r = Ok (used + bytes) ∧ used + bytes <= limit) ∨ (∃ e, r = Err e ∧ limit < used + bytes).
Proof.
  intros Hl <-. unfold reserve_counter, checked_add. destruct (N.leb_spec (used + bytes) u64_max); [case_decide|].
  - by left. - right. eexists. split; [done|lia]. - right. eexists. split; [done|lia].
Qed.
Lemma wrapping_sub_le a b : b <= a → wrapping_sub a b = a - b.
Proof. intros. unfold wrapping_sub. by rewrite decide_True. Qed.
Lemma wrapping_add_fits a b : a + b <= u64_max → wrapping_add a b = a + b.
Proof. intros Hle. apply N.mod_small. unfold u64_max in Hle. lia. Qed.
Lemma plain_usage t o k b l : plain (with_usage t o k b l) = with_usage t o ∅ b (plain l).
Proof. done. Qed.

Lemma reserve_local_spec kind lane bytes l r l' : fits_width l → reserve_local kind lane bytes l = (r, l') →
  match r with
  | Ok _ => plain l' = charge lane bytes (plain l) ∧ admits lane bytes l
  | Err _ => plain l' = plain l ∧ ¬ admits lane bytes l
  end.
Proof.
  intros [Hol Hl Hhl Hcr] Hr. unfold reserve_local in Hr.
  destruct (funding (lv_backing l)) as [funded elastic] eqn:Hfund.
  assert (Hel : is_elastic (lv_backing l) = elastic) by (unfold is_elastic; by rewrite Hfund).
  assert (Hla : backing_lane (lv_backing l) = funded) by (unfold backing_lane; by rewrite Hfund).
  case_decide as Hcase.
  { injection Hr as <- <-. split; [done|]. intros [Ha _ _ _]. destruct Hcase as [Hlane Hc]. destruct (Ha Hlane). by rewrite Hla, Hc. }
  destruct (if elastic then acquire bytes (lv_backing l) else Ok (lv_backing l)) as [b|e] eqn:Hacq.
  2: { injection Hr as <- <-. split; [done|]. intros [_ Hc _ _]. rewrite Hel in Hc. destruct elastic; [|done]. unfold acquire, checked_sub in Hacq.
       destruct (N.leb_spec bytes (bk_available (lv_backing l))); [done|]. specialize (Hc eq_refl). lia. }
  assert (Hb : b = if elastic then set_available (bk_available (lv_backing l) - bytes) (lv_backing l) else lv_backing l).
  { destruct elastic; [|by simplify_eq]. unfold acquire in Hacq.
    destruct (checked_sub _ _) eqn:Hs; [|done]. apply checked_sub_Some in Hs as [? ->]. by simplify_eq. }
  assert (Hroom : elastic = true → bytes <= bk_available (lv_backing l)).
  { intros ->. unfold acquire, checked_sub in Hacq. by destruct (N.leb_spec bytes (bk_available (lv_backing l))). }
  assert (Hrefund : (if elastic then (release bytes b).2 else b) = lv_backing l).
  { rewrite Hb. destruct elastic; [|done]. specialize (Hroom eq_refl). simpl. rewrite wrapping_add_fits by lia.
    rewrite N.sub_add by done. by destruct (lv_backing l). }
  rewrite Hrefund in Hr.
  destruct (if decide (lane = BudgetLane.Ordinary) then reserve_counter (lv_ordinary l) (lv_ordinary_limit l) bytes
            else Ok (lv_ordinary l)) as [ordinary|e] eqn:Hord.
  2: { injection Hr as <- <-. split; [by rewrite level_eta|]. intros [_ _ Ho _]. case_decide as Hlane; [|done].
       apply reserve_counter_ok in Hord as [[? _]|(? & ? & ?)]; [done| |done]. specialize (Ho Hlane). lia. }
  assert (Ho : ordinary = lv_ordinary l + ordinary_part lane bytes
             ∧ (lane = BudgetLane.Ordinary → lv_ordinary l + bytes <= lv_ordinary_limit l)).
  { unfold ordinary_part. case_decide as Hlane; [|split; [simplify_eq; lia|done]].
    apply reserve_counter_ok in Hord as [[[= ->] ?]|(? & ? & ?)]; done. }
  destruct Ho as [-> Ho].
  assert (Hbound : lane_bound lane l <= u64_max) by (unfold lane_bound; by destruct lane).
  destruct (reserve_counter (lv_total l) (lane_bound lane l) bytes) as [total|e] eqn:Htot;
    apply reserve_counter_ok in Htot as [[Ht Hle]|(? & Ht & Hgt)]; simplify_eq; try done.
  - split; [|split; naive_solver]. rewrite plain_usage. unfold charge. simpl. done.
  - split; [|intros [_ _ _ Hta]; lia]. rewrite plain_usage. unfold ordinary_part. case_decide.
    + rewrite wrapping_sub_le, N.add_sub by lia. by destruct l.
    + rewrite N.add_0_r. by destruct l.
Qed.
(** Whether the release leaves the level without a charge and without a hold. *)
Definition leaves_idle (bytes : N) (l : Level) : bool :=
  (if is_elastic (lv_backing l) then
     bool_decide (bk_available (lv_backing l) + bytes = bk_held (lv_backing l) - bk_metadata (lv_backing l))
   else bool_decide (lv_total l = bytes)) && bool_decide (lv_holds l = 0).
Lemma release_local_spec kind lane bytes l : charged lane bytes l →
  (release_local kind lane bytes (is_elastic (lv_backing l)) l).1 = leaves_idle bytes l ∧
  plain (release_local kind lane bytes (is_elastic (lv_backing l)) l).2 = uncharge lane bytes (plain l).
Proof.
  intros [Ht Ho Hc]. unfold release_local, leaves_idle.
  assert (Hord : (if decide (lane = BudgetLane.Ordinary) then wrapping_sub (lv_ordinary l) bytes else lv_ordinary l)
    = lv_ordinary l - ordinary_part lane bytes).
  { unfold ordinary_part. case_decide; [rewrite wrapping_sub_le by auto; done|lia]. }
  rewrite Hord, (wrapping_sub_le (lv_total l)) by done. unfold uncharge. cbn [lv_backing plain].
  destruct (is_elastic (lv_backing l)) eqn:He; simpl; [|done]. specialize (Hc eq_refl).
  rewrite wrapping_add_fits by done. split; [|done]. f_equal. apply bool_decide_ext.
  unfold checked_add. destruct (N.leb_spec (bk_available (lv_backing l) + bytes) u64_max); [|lia].
  split; [by intros [= ?]|by intros ->].
Qed.

(** ** Along the tree *)
Definition wide (m : gmap N Level) : Prop := ∀ i l, m !! i = Some l → fits_width l.
Lemma release_at_spec i kind lane bytes F l :
  slots F !! i = Some l → charged lane bytes (plain l) →
  let r := release_at i kind lane bytes (is_elastic (lv_backing l)) F in
  r.1 = (if leaves_idle bytes (plain l) then [(i, lv_state l)] else []) ∧
  obs r.2 = alter (uncharge lane bytes) i (obs F) ∧ fresh r.2 = fresh F ∧ free r.2 = free F.
Proof.
  intros Hl [Ht Ho Hc]. assert (Hch : charged lane bytes l) by done.
  destruct (release_local_spec kind lane bytes l Hch) as [Hlast Hplain].
  unfold release_at. rewrite Hl. destruct (release_local _ _ _ _ l) as [last l'] eqn:Hr. simpl in *.
  split; [by rewrite Hlast|]. split; [|done]. apply (obs_on_level F i (λ _, l')). intros l0 Hl0. by simplify_eq.
Qed.
(** A walk through the path, charged on every level: what it gives back, and
    the levels it finds idle. *)
Definition idle_on (bytes : N) (m : gmap N Level) (p : list N) : list (N * N) :=
  omap (λ i, l ← m !! i; if leaves_idle bytes l then Some (i, lv_state l) else None) p.
Lemma idle_on_alter f bytes m p i : i ∉ p → idle_on bytes (alter f i m) p = idle_on bytes m p.
Proof.
  intros Hi. unfold idle_on. apply list_omap_ext, Forall_Forall2_diag, Forall_forall. intros j Hj.
  by rewrite lookup_alter_ne by (intros ->; done).
Qed.
Lemma release_walk_spec n kind lane bytes i F :
  NoDup (path_from n (obs F) i) → (∀ j l, j ∈ path_from n (obs F) i → obs F !! j = Some l → charged lane bytes l) →
  let r := release_walk n kind lane bytes i F in
  r.1 = idle_on bytes (obs F) (path_from n (obs F) i) ∧
  obs r.2 = on_path (uncharge lane bytes) (path_from n (obs F) i) (obs F) ∧ fresh r.2 = fresh F ∧ free r.2 = free F.
Proof.
  revert i F. induction n as [|n IH]; intros i F Hnd Hch; [done|]. cbn [path_from release_walk] in *.
  pose proof (obs_lookup F i) as Hobs. destruct (slots F !! i) as [l|] eqn:Hl; rewrite Hobs in *; simpl in Hobs, Hch; [|done].
  pose proof (Hch i (plain l) ltac:(left) Hobs) as Hci.
  destruct (funding (lv_backing l)) as [funded elastic] eqn:Hfund. cbn [fmap option_fmap option_map] in *.
  assert (Hel : elastic = is_elastic (lv_backing l)) by (unfold is_elastic; by rewrite Hfund).
  assert (Hla : backing_lane (lv_backing (plain l)) = funded) by (unfold backing_lane; simpl; by rewrite Hfund).
  rewrite Hla in *. rewrite Hel. destruct funded as [f|].
  - set (F1 := match lv_parent l with Some parent => reclassify_tree parent kind BudgetKind.Reserved bytes F | None => F end).
    assert (Hsame : same F F1) by (unfold F1; destruct (lv_parent l); [apply reclassify_same|apply same_refl]).
    destruct Hsame as (Ho & Hfr & Hfe).
    assert (Hl1 : ∃ l1, slots F1 !! i = Some l1 ∧ plain l1 = plain l).
    { pose proof (obs_lookup F1 i) as H1. rewrite Ho, Hobs in H1. destruct (slots F1 !! i) as [l1|]; [|done].
      exists l1. split; [done|]. symmetry. apply (inj Some). exact H1. }
    destruct Hl1 as (l1 & Hl1 & Hp1).
    assert (lv_backing l1 = lv_backing l) as Hbk by (change (lv_backing (plain l1) = lv_backing (plain l)); by rewrite Hp1).
    assert (lv_state l1 = lv_state l) as Hst by (change (lv_state (plain l1) = lv_state (plain l)); by rewrite Hp1).
    pose proof (release_at_spec i kind lane bytes F1 l1 Hl1) as Hr. rewrite Hp1, Hbk, Hst, Ho, Hfr, Hfe in Hr.
    destruct (Hr Hci) as (-> & -> & -> & ->).
    assert (match lv_parent (plain l) with Some p => @nil N | None => [] end = []) as -> by by destruct (lv_parent _).
    simpl. rewrite Hobs. simpl. by destruct (leaves_idle bytes (plain l)).
  - pose proof (release_at_spec i kind lane bytes F l Hl Hci) as Hr.
    destruct (release_at i kind lane bytes (is_elastic (lv_backing l)) F) as [ended F1]. simpl in Hr.
    destruct Hr as (-> & Ho & Hfr & Hfe). cbn [plain lv_parent] in *. destruct (lv_parent l) as [p|].
    2: { simpl. rewrite Hobs. simpl. by destruct (leaves_idle bytes (plain l)). }
    inversion_clear Hnd as [|? ? Hni Hnd'].
    specialize (IH p F1). rewrite Ho, path_alter in IH by apply uncharge_place. destruct IH as (H1 & H2 & H3 & H4).
    { done. }
    { intros j lj Hj Hlj. rewrite lookup_alter_ne in Hlj by (intros ->; done). apply (Hch j); [|done].
      change (backing_lane (lv_backing l) = None) in Hla. rewrite Hla. by right. }
    destruct (release_walk n kind lane bytes p F1) as [more F2]. simpl in *. rewrite H2, H3, H4, Hfr, Hfe. split; [|done].
    rewrite H1, idle_on_alter by done. unfold idle_on. simpl. rewrite Hobs. simpl. by destruct (leaves_idle bytes (plain l)).
Qed.
Lemma charged_charge lane bytes l : fits_width l → admits lane bytes l → charged lane bytes (charge lane bytes l).
Proof.
  intros Hw [_ Hc _ _]. split; simpl; [lia| |].
  - intros ->. unfold ordinary_part. rewrite decide_True by done. lia.
  - pose proof (fw_credit _ Hw). destruct (is_elastic (lv_backing l)) eqn:He; simpl; [|by rewrite He].
    intros _. specialize (Hc eq_refl). lia.
Qed.
Lemma release_levels_spec level kind lane bytes k F p :
  take k (lineage F level) = p → NoDup p → (∀ j l, j ∈ p → obs F !! j = Some l → charged lane bytes l) →
  let F' := release_levels level kind lane bytes k F in
  obs F' = on_path (uncharge lane bytes) p (obs F) ∧ fresh F' = fresh F ∧ free F' = free F.
Proof.
  intros Hp Hnd Hch. unfold release_levels. rewrite Hp. clear Hp k. revert F Hch.
  induction Hnd as [|i p Hi Hnd IH]; intros F Hch; [done|]. cbn [foldl on_path].
  pose proof (obs_lookup F i) as Hobs. destruct (slots F !! i) as [l|] eqn:Hl.
  - destruct (release_at_spec i kind lane bytes F l Hl (Hch i (plain l) ltac:(left) Hobs)) as (_ & Ho & Hfr & Hfe).
    destruct (IH (release_at i kind lane bytes (is_elastic (lv_backing l)) F).2) as (H1 & H2 & H3).
    { intros j lj Hj Hlj. rewrite Ho, lookup_alter_ne in Hlj by (intros ->; done). apply (Hch j); [by right|done]. }
    by rewrite H1, H2, H3, Ho.
  - destruct (IH F) as (H1 & H2 & H3). { intros j lj Hj. apply Hch. by right. }
    rewrite H1. split; [|done]. f_equal. apply map_eq. intros j. destruct (decide (j = i)) as [->|].
    + by rewrite lookup_alter_eq, Hobs.
    + by rewrite lookup_alter_ne.
Qed.
Section reserving.
Context (m : gmap N Level) (L : list N) (lane : BudgetLane) (bytes : N).
Context (Hclosed : closed m L) (Hwide : wide m).
Notation admitted p := (∀ j l, j ∈ p → m !! j = Some l → admits lane bytes l).
(** What was charged on the way up goes back when a level refuses. *)
Lemma rollback level kind k F pre rest :
  path m level = pre ++ rest → NoDup pre → admitted pre → k = length pre →
  obs F = on_path (charge lane bytes) pre m →
  let F' := release_levels level kind lane bytes k F in obs F' = m ∧ fresh F' = fresh F ∧ free F' = free F.
Proof using Hwide.
  intros Hp Hnd Had -> Hobs.
  destruct (release_levels_spec level kind lane bytes (length pre) F pre) as (H1 & H2 & H3).
  - destruct (lineage_path MAX_DEPTH F level) as [more Hlin]. unfold lineage. rewrite Hlin, Hobs.
    rewrite path_on_path by apply charge_place. fold (path m level). rewrite Hp, <-app_assoc. apply take_app_length.
  - done.
  - intros j l Hj Hl. rewrite Hobs, on_path_lookup, decide_True in Hl by done.
    destruct (m !! j) as [l0|] eqn:Hl0; [|done]. simpl in Hl. simplify_eq. apply charged_charge; [by eapply Hwide|by eapply Had].
  - split; [|done]. rewrite H1, Hobs. apply on_path_inverse; [done|]. intros i l Hi Hl. apply uncharge_charge.
    apply (Had i l Hi Hl).
Qed.
(** One turn of the walk, at a level not charged yet. *)
Lemma reserve_turn kind current pre F l :
  NoDup pre → current ∉ pre → obs F = on_path (charge lane bytes) pre m → slots F !! current = Some l →
  m !! current = Some (plain l) ∧
  match reserve_local kind lane bytes l with
  | (Ok _, l') => admits lane bytes (plain l) ∧
      obs (on_level current (λ _, l') F) = on_path (charge lane bytes) (pre ++ [current]) m
  | (Err _, l') => ¬ admits lane bytes (plain l) ∧ obs (on_level current (λ _, l') F) = on_path (charge lane bytes) pre m
  end.
Proof using Hwide.
  intros Hnd Hc Hobs Hl. assert (Hm : m !! current = Some (plain l)).
  { pose proof (obs_lookup F current) as Hlk. by rewrite Hobs, on_path_lookup, decide_False, Hl in Hlk. }
  split; [done|]. assert (Hwl : fits_width l) by (by destruct (Hwide current _ Hm)).
  destruct (reserve_local kind lane bytes l) as [r l'] eqn:Hloc.
  pose proof (reserve_local_spec _ _ _ _ _ _ Hwl Hloc) as Hspec. destruct r as [u|e]; destruct Hspec as [Hp Ha].
  - split; [by destruct Ha|]. rewrite (obs_on_level _ _ _ (charge lane bytes)) by (intros l0 Hl0; rewrite Hl in Hl0; injection Hl0 as <-; exact Hp).
    by rewrite Hobs, on_path_app.
  - split; [intros [? ? ? ?]; by apply Ha|]. by rewrite obs_on_level_same by (intros l0 Hl0; rewrite Hl in Hl0; injection Hl0 as <-; exact Hp).
Qed.
Lemma reserve_walk_spec n level kind current pre F r F' :
  current ∈ L → (∀ l, m !! current = Some l → lv_depth l <= N.of_nat (S n)) →
  path m level = pre ++ path_from (S n) m current → NoDup (path m level) → admitted pre →
  obs F = on_path (charge lane bytes) pre m →
  reserve_walk n level kind lane bytes current (length pre) F = (r, F') →
  fresh F' = fresh F ∧ free F' = free F ∧
  match r with
  | Ok _ => obs F' = on_path (charge lane bytes) (path m level) m ∧ admitted (path m level)
  | Err _ => obs F' = m ∧ ¬ admitted (path m level)
  end.
Proof using Hclosed Hwide.
  revert current pre F. induction n as [|n IH]; intros current pre F HcL Hdep Hpath Hnd Had Hobs Hr.
  all: destruct (Hclosed current HcL) as (lm & Hlm & Hpos & Hpar); specialize (Hdep lm Hlm).
  all: cbn [path_from] in Hpath; rewrite Hlm in Hpath.
  all: pose proof Hnd as Hndp; rewrite Hpath in Hndp; apply NoDup_app in Hndp as (Hndp & Hdis & _).
  all: assert (Hcpre : current ∉ pre) by (intros Hin; by apply (Hdis _ Hin); left).
  all: cbn [reserve_walk] in Hr; destruct (slots F !! current) as [l|] eqn:Hl.
  2,4: pose proof (obs_lookup F current) as Hlk; rewrite Hobs, on_path_lookup, decide_False, Hlm, Hl in Hlk by done; done.
  all: destruct (reserve_turn kind current pre F l Hndp Hcpre Hobs Hl) as [Hm Hturn].
  all: rewrite Hlm in Hm; apply (inj Some) in Hm; subst lm; cbn [plain lv_parent lv_backing lv_depth] in *.
  all: destruct (reserve_local kind lane bytes l) as [[u|e] l']; destruct Hturn as [Ha Ho].
  2,4: injection Hr as <- <-;
    destruct (rollback level kind (length pre) (on_level current (λ _, l') F) pre _ Hpath Hndp Had eq_refl Ho) as (H1 & H2 & H3);
    destruct (record_refusal_same level lane e (release_levels level kind lane bytes (length pre) (on_level current (λ _, l') F)))
      as (H4 & H5 & H6);
    rewrite H5, H6, H4, H1, H2, H3; split_and!; try done; intros Hall; apply Ha, (Hall current); [rewrite Hpath|done];
    apply elem_of_app; right; left.
  all: assert (Had' : admitted (pre ++ [current])) by
    (intros j lj [Hj|Hj]%elem_of_app Hlj; [by eapply Had|apply list_elem_of_singleton in Hj as ->; by simplify_eq]).
  all: destruct (lv_parent l) as [p|]; [|injection Hr as <- <-; split_and!; try done; by rewrite Hpath].
  all: destruct (backing_lane (lv_backing l)) as [f|].
  1,3: injection Hr as <- <-; destruct (reclassify_same p BudgetKind.Reserved kind bytes (on_level current (λ _, l') F))
      as (H1 & H2 & H3); rewrite H1, H2, H3; split_and!; try done; by rewrite Hpath.
  all: destruct (Hpar p eq_refl) as (HpL & lp & Hlp & Hpd).
  { destruct (Hclosed p HpL) as (lp' & Hlp' & Hpos' & _). simplify_eq. lia. }
  rewrite (cons_middle current pre), app_assoc in Hpath.
  assert (Hlen : S (length pre) = length (pre ++ [current])) by (rewrite length_app; simpl; lia).
  rewrite Hlen in Hr. apply (IH p (pre ++ [current])) in Hr; try done. intros ? ?; simplify_eq; lia.
Qed.
End reserving.

(** ** The two walks *)
Section walks.
Context (F : Levels) (L : list N) (level : N) (kind : BudgetKind) (lane : BudgetLane) (bytes : N).
Context (Hclosed : closed (obs F) L) (Hwide : wide (obs F)) (Hlevel : level ∈ L).
Context (Hdepth : ∀ i l, obs F !! i = Some l → lv_depth l <= N.of_nat MAX_DEPTH).
Notation p := (path (obs F) level).
(** A reservation charges its whole path, when all of it admits the charge, and
    otherwise changes nothing but diagnostics. *)
Lemma reserve_tree_spec r F' : reserve_tree level kind lane bytes F = (r, F') →
  fresh F' = fresh F ∧ free F' = free F ∧
  match r with
  | Ok _ => obs F' = on_path (charge lane bytes) p (obs F) ∧ (∀ j l, j ∈ p → obs F !! j = Some l → admits lane bytes l)
  | Err _ => obs F' = obs F ∧ ¬ (∀ j l, j ∈ p → obs F !! j = Some l → admits lane bytes l)
  end.
Proof using Hclosed Hwide Hlevel Hdepth.
  intros Hr. apply (reserve_walk_spec (obs F) L lane bytes Hclosed Hwide (MAX_DEPTH - 1) level kind level [] F r F');
    try done.
  - intros l Hl. by apply (Hdepth level).
  - by eapply path_nodup.
  - intros j l Hj. by apply not_elem_of_nil in Hj.
Qed.
Lemma release_tree_spec : (∀ j l, j ∈ p → obs F !! j = Some l → charged lane bytes l) →
  let r := release_tree level kind lane bytes F in
  r.1 = idle_on bytes (obs F) p ∧ obs r.2 = on_path (uncharge lane bytes) p (obs F) ∧
  fresh r.2 = fresh F ∧ free r.2 = free F.
Proof using Hclosed Hlevel. intros Hch. apply release_walk_spec; [by eapply path_nodup|done]. Qed.
End walks.

(** ** What a refusal leaves behind *)
(** A level's refusal diagnostics. *)
Definition diagnostics (l : Level) : N * N * N * N :=
  (lv_refusals l, lv_refused_lane l, lv_refused_requested l, lv_refused_available l).
(** Two levels that read the same, field by field and category by category. *)
Record reads_as (l l' : Level) : Prop := {
  ra_plain : plain l = plain l';
  ra_diagnostics : diagnostics l = diagnostics l';
  ra_kinds : ∀ k, kind_used (lv_kinds l) k = kind_used (lv_kinds l') k
}.
#[export] Instance reads_as_refl : Reflexive reads_as.
Proof. done. Qed.
Definition all_read_as (F F' : Levels) : Prop := ∀ i, option_Forall2 reads_as (slots F !! i) (slots F' !! i).
(** Categories of machine width. *)
Definition wide_kinds (l : Level) : Prop := ∀ k, kind_used (lv_kinds l) k <= u64_max.
Definition kinds_wide (F : Levels) : Prop := ∀ i l, slots F !! i = Some l → wide_kinds l.

Lemma wrapping_back a b : a <= u64_max → b <= u64_max → wrapping_sub (wrapping_add a b) b = a.
Proof.
  unfold wrapping_sub, wrapping_add, u64_max. intros Ha Hb.
  destruct (decide (a + b < 2 ^ 64)) as [Hlt|Hge].
  - rewrite N.mod_small by done. rewrite decide_True by lia. lia.
  - assert ((a + b) mod 2 ^ 64 = a + b - 2 ^ 64) as ->.
    { symmetry. apply N.mod_unique with 1; lia. }
    rewrite decide_False by lia. lia.
Qed.
Lemma kind_back kind bytes kinds k : bytes <= u64_max → kind_used kinds kind <= u64_max →
  kind_used (kind_sub kind bytes (kind_add kind bytes kinds)) k = kind_used kinds k.
Proof.
  intros Hb Hk. unfold kind_sub, kind_add. unfold kind_used at 1 2. rewrite lookup_insert_eq. cbn [default].
  destruct (decide (k = kind)) as [->|Hne]; [rewrite lookup_insert_eq; by apply wrapping_back|].
  by rewrite !lookup_insert_ne.
Qed.
(** A level that refuses is left exactly as it was; one that admits changes the
    kind charged. *)
Lemma reserve_local_frame kind lane bytes l r l' : reserve_local kind lane bytes l = (r, l') →
  diagnostics l' = diagnostics l ∧ lv_kinds l' = match r with Ok _ => kind_add kind bytes (lv_kinds l) | Err _ => lv_kinds l end.
Proof.
  unfold reserve_local. destruct (funding (lv_backing l)) as [funded elastic].
  case_decide; [by intros [= <- <-]|]. destruct (if elastic then _ else _); [|by intros [= <- <-]].
  destruct (if decide (lane = BudgetLane.Ordinary) then reserve_counter _ _ _ else _); [|by intros [= <- <-]].
  destruct (reserve_counter _ _ _); by intros [= <- <-].
Qed.
Lemma level_ext l l' : plain l = plain l' → diagnostics l = diagnostics l' → lv_kinds l = lv_kinds l' → l = l'.
Proof. destruct l, l'. unfold plain, diagnostics. simpl. by intros [=] [=] ->; subst. Qed.
Lemma refused_local kind lane bytes l e l' : fits_width l → reserve_local kind lane bytes l = (Err e, l') → l' = l.
Proof.
  intros Hw Hr. destruct (reserve_local_spec _ _ _ _ _ _ Hw Hr) as [Hp _]. destruct (reserve_local_frame _ _ _ _ _ _ Hr).
  by apply level_ext.
Qed.
(** Charging a level, and giving the charge back. *)
Definition taken (kind : BudgetKind) (lane : BudgetLane) (bytes : N) (l : Level) : Level := (reserve_local kind lane bytes l).2.
Definition given (kind : BudgetKind) (lane : BudgetLane) (bytes : N) (l : Level) : Level :=
  (release_local kind lane bytes (is_elastic (lv_backing l)) l).2.
Lemma given_taken kind lane bytes l : fits_width l → wide_kinds l → bytes <= u64_max → admits lane bytes l →
  reads_as (given kind lane bytes (taken kind lane bytes l)) l.
Proof.
  intros Hw Hk Hb Ha. unfold taken. destruct (reserve_local kind lane bytes l) as [[u|e] l'] eqn:Hr.
  2: { by destruct (reserve_local_spec _ _ _ _ _ _ Hw Hr). }
  destruct (reserve_local_spec _ _ _ _ _ _ Hw Hr) as [Hp _]. destruct (reserve_local_frame _ _ _ _ _ _ Hr) as [Hd Hks].
  assert (Hch : charged lane bytes (plain l')).
  { rewrite Hp. apply charged_charge; [by destruct Hw|by destruct Ha]. }
  assert (Hch' : charged lane bytes l') by (by destruct Hch). cbn [snd]. unfold given.
  destruct (release_local_spec kind lane bytes l' Hch') as [_ Hpl].
  assert (Hf : diagnostics (release_local kind lane bytes (is_elastic (lv_backing l')) l').2 = diagnostics l' ∧
    lv_kinds (release_local kind lane bytes (is_elastic (lv_backing l')) l').2 = kind_sub kind bytes (lv_kinds l')).
  { unfold release_local. by destruct (is_elastic _). }
  destruct Hf as [Hdf Hkf]. split.
  - rewrite Hpl, Hp. apply uncharge_charge. apply Ha.
  - by rewrite Hdf.
  - intros k. rewrite Hkf, Hks. by apply kind_back.
Qed.
Lemma release_levels_slots level kind lane bytes k F :
  slots (release_levels level kind lane bytes k F) = on_path (given kind lane bytes) (take k (lineage F level)) (slots F).
Proof.
  unfold release_levels. generalize (take k (lineage F level)). intros p. revert F.
  induction p as [|i p IH]; intros F; [done|]. simpl. rewrite IH. f_equal.
  destruct (slots F !! i) as [l|] eqn:Hl.
  - unfold release_at. rewrite Hl. unfold given. destruct (release_local _ _ _ _ l) as [last l'] eqn:Hr. simpl.
    apply map_eq. intros j. destruct (decide (j = i)) as [->|]; [|by rewrite !lookup_alter_ne].
    by rewrite !lookup_alter_eq, Hl; simpl; rewrite Hr.
  - apply map_eq. intros j. destruct (decide (j = i)) as [->|]; [by rewrite lookup_alter_eq, Hl|by rewrite lookup_alter_ne].
Qed.
Lemma record_refusal_reads level lane e F F' :
  all_read_as F F' → all_read_as (record_refusal level lane e F) (record_refusal level lane e F').
Proof.
  intros Hs i. destruct e; try apply Hs. simpl. destruct (decide (i = level)) as [->|]; [|by rewrite !lookup_alter_ne].
  rewrite !lookup_alter_eq. destruct (Hs level) as [l l' [Hp Hd Hk]|]; constructor. split; [|unfold diagnostics in *; simpl; congruence|done].
  change (plain (with_refusal (refused_lane_code lane) requested available l)) with (plain l).
  by rewrite Hp.
Qed.

Section refused.
Context (F0 : Levels) (L : list N) (level : N) (kind : BudgetKind) (lane : BudgetLane) (bytes : N).
Context (Hclosed : closed (obs F0) L) (Hwide : wide (obs F0)) (Hkinds : kinds_wide F0) (Hbytes : bytes <= u64_max).
Notation m := (obs F0).
Notation admitted p := (∀ j l, j ∈ p → m !! j = Some l → admits lane bytes l).
Lemma slot_facts i l : slots F0 !! i = Some l → m !! i = Some (plain l) ∧ fits_width l ∧ wide_kinds l.
Proof using Hwide Hkinds.
  intros Hl. assert (Hm : m !! i = Some (plain l)) by (by rewrite obs_lookup, Hl).
  split_and!; [done|by destruct (Hwide i _ Hm)|by eapply Hkinds].
Qed.
(** The charges taken so far go back, to the last category. *)
Lemma rollback_reads F pre rest :
  path m level = pre ++ rest → NoDup pre → admitted pre → obs F = on_path (charge lane bytes) pre m →
  slots F = on_path (taken kind lane bytes) pre (slots F0) →
  all_read_as (release_levels level kind lane bytes (length pre) F) F0.
Proof using Hwide Hkinds Hbytes.
  intros Hp Hnd Had Hobs Hslots i. rewrite release_levels_slots.
  destruct (lineage_path MAX_DEPTH F level) as [more Hlin]. unfold lineage. rewrite Hlin, Hobs.
  rewrite path_on_path by apply charge_place. fold (path m level). rewrite Hp, <-app_assoc, take_app_length, Hslots.
  rewrite !on_path_lookup by done. destruct (decide (i ∈ pre)) as [Hi|]; [|by destruct (slots F0 !! i); constructor].
  destruct (slots F0 !! i) as [l|] eqn:Hl; constructor. destruct (slot_facts i l Hl) as (Hm & Hw & Hk).
  apply given_taken; [done..|]. by destruct (Had i _ Hi Hm).
Qed.
Lemma walk_refused n current pre F e F' :
  current ∈ L → (∀ l, m !! current = Some l → lv_depth l <= N.of_nat (S n)) →
  path m level = pre ++ path_from (S n) m current → NoDup (path m level) → admitted pre →
  obs F = on_path (charge lane bytes) pre m → slots F = on_path (taken kind lane bytes) pre (slots F0) →
  reserve_walk n level kind lane bytes current (length pre) F = (Err e, F') →
  all_read_as F' (record_refusal level lane e F0).
Proof using Hclosed Hwide Hkinds Hbytes.
  revert current pre F. induction n as [|n IH]; intros current pre F HcL Hdep Hpath Hnd Had Hobs Hslots Hr.
  all: destruct (Hclosed current HcL) as (lm & Hlm & Hpos & Hpar); specialize (Hdep lm Hlm).
  all: cbn [path_from] in Hpath; rewrite Hlm in Hpath.
  all: pose proof Hnd as Hndp; rewrite Hpath in Hndp; apply NoDup_app in Hndp as (Hndp & Hdis & _).
  all: assert (Hcpre : current ∉ pre) by (intros Hin; by apply (Hdis _ Hin); left).
  all: cbn [reserve_walk] in Hr; destruct (slots F !! current) as [l|] eqn:Hl.
  2,4: pose proof (obs_lookup F current) as Hlk; rewrite Hobs, on_path_lookup, decide_False, Hlm, Hl in Hlk by done; done.
  all: destruct (reserve_turn m lane bytes Hwide kind current pre F l Hndp Hcpre Hobs Hl) as [Hm Hturn].
  all: assert (Hl0 : slots F0 !! current = Some l) by (by rewrite Hslots, on_path_lookup, decide_False in Hl).
  all: destruct (slot_facts current l Hl0) as (_ & Hw & _).
  all: rewrite Hlm in Hm; apply (inj Some) in Hm; subst lm; cbn [plain lv_parent lv_backing lv_depth] in *.
  all: destruct (reserve_local kind lane bytes l) as [[u|e0] l'] eqn:Hloc; destruct Hturn as [Ha Ho].
  2,4: injection Hr as <- <-; apply record_refusal_reads; apply refused_local in Hloc as ->; [|done];
    eapply rollback_reads; [exact Hpath|done..| ]; rewrite <-Hslots; apply map_eq; intros j; simpl;
    (destruct (decide (j = current)) as [->|]; [by rewrite lookup_alter_eq, Hl|by rewrite lookup_alter_ne]).
  all: destruct (lv_parent l) as [p|]; [|done]; destruct (backing_lane (lv_backing l)) as [f|]; [done|].
  all: destruct (Hpar p eq_refl) as (HpL & lp & Hlp & Hpd).
  { destruct (Hclosed p HpL) as (lp' & Hlp' & Hpos' & _). simplify_eq. lia. }
  rewrite (cons_middle current pre), app_assoc in Hpath.
  assert (Hlen : S (length pre) = length (pre ++ [current])) by (rewrite length_app; simpl; lia).
  rewrite Hlen in Hr. apply (IH p (pre ++ [current])) in Hr; try done.
  - intros ? ?; simplify_eq; lia.
  - intros j lj [Hj|Hj]%elem_of_app Hlj; [by eapply Had|apply list_elem_of_singleton in Hj as ->; by simplify_eq].
  - rewrite on_path_app, <-Hslots. simpl. apply map_eq. intros j. destruct (decide (j = current)) as [->|]; [|by rewrite !lookup_alter_ne].
    rewrite !lookup_alter_eq, Hl. simpl. unfold taken. by rewrite Hloc.
Qed.
(** A refused reservation leaves the table reading as it did, but for the
    diagnostics of the level it was made at. *)
Lemma reserve_tree_refused e F' : level ∈ L → (∀ i l, m !! i = Some l → lv_depth l <= N.of_nat MAX_DEPTH) →
  reserve_tree level kind lane bytes F0 = (Err e, F') → all_read_as F' (record_refusal level lane e F0).
Proof using Hclosed Hwide Hkinds Hbytes.
  intros HL Hd Hr. apply (walk_refused (MAX_DEPTH - 1) level [] F0 e F'); try done.
  - intros l Hl. by apply (Hd level).
  - by eapply path_nodup.
  - intros j l Hj. by apply not_elem_of_nil in Hj.
Qed.
End refused.
