(* ===== verification/BudgetAccounts.v ===== *)
(** * The accounts of the memory budget

    Who owns the charges of a table of levels: permits, and the backing each
    funded level has taken from its parent. The accounts balance when every
    level's counters are exactly the charges whose path passes it, within its
    limits, and its holds are its handles and its children; every operation
    keeps them balanced, and a level ends as soon as nothing needs it. *)
From stdpp Require Import prelude gmap strings list.
From Stdlib Require Import NArith.
From S2P Require Import Prelude Fallible Budget BudgetLaws.
#[local] Open Scope N_scope.

Record Charge := { ch_level : N; ch_lane : BudgetLane; ch_bytes : N }.
Definition nsum : list N → N := foldr N.add 0.
Lemma nsum_app l k : nsum (l ++ k) = nsum l + nsum k.
Proof. induction l as [|x l IH]; simpl; [done|]. rewrite IH. lia. Qed.
#[export] Instance nsum_perm : Proper ((≡ₚ) ==> (=)) nsum.
Proof. induction 1; simpl; lia. Qed.

Lemma nsum_zero l : (∀ x, x ∈ l → x = 0) → nsum l = 0.
Proof. induction l as [|x l IH]; [done|]. intros Hz. simpl. rewrite (Hz x), IH; [done| |left]. intros y Hy. apply Hz. by right. Qed.
Definition every (_ : BudgetLane) : bool := true.
Definition ordinary_lane (lane : BudgetLane) : bool := bool_decide (lane = BudgetLane.Ordinary).
Definition uncommitted (lane : BudgetLane) : bool := bool_decide (lane ≠ BudgetLane.Committed).
(** What one charge counts at a level, and what all of them do. *)
Definition weight (m : gmap N Level) (sel : BudgetLane → bool) (i : N) (c : Charge) : N :=
  if decide (i ∈ path m (ch_level c)) then if sel (ch_lane c) then ch_bytes c else 0 else 0.
Definition used (m : gmap N Level) (sel : BudgetLane → bool) (cs : list Charge) (i : N) : N :=
  nsum (weight m sel i <$> cs).
(** The charge a funded level has on its parent. *)
Definition backing_charge (m : gmap N Level) (i : N) : option Charge :=
  l ← m !! i; p ← lv_parent l; h ← held (lv_backing l); Some {| ch_level := p; ch_lane := h.1; ch_bytes := h.2 |}.
Definition backings (m : gmap N Level) (L : list N) : list Charge := omap (backing_charge m) L.
Definition child_of (m : gmap N Level) (i j : N) : Prop := m !! j ≫= lv_parent = Some i.
#[export] Instance child_of_dec m i j : Decision (child_of m i j).
Proof. unfold child_of. apply _. Defined.
Definition count (H : list N) (i : N) : nat := length (filter (λ j, j = i) H).
Definition children (m : gmap N Level) (L : list N) (i : N) : nat := length (filter (child_of m i) L).

Record level_accounts (m : gmap N Level) (L H : list N) (cs : list Charge) (i : N) (l : Level) : Prop := {
  la_total : lv_total l = used m every cs i;
  la_ordinary : lv_ordinary l = used m ordinary_lane cs i;
  la_holds : lv_holds l = N.of_nat (count H i + children m L i);
  la_total_limit : lv_total l <= lv_hold_limit l;
  la_limit : used m uncommitted cs i <= lv_limit l;
  la_ordinary_limit : lv_ordinary l <= lv_ordinary_limit l;
  la_limits : lv_limit l <= lv_hold_limit l;
  la_credit : is_elastic (lv_backing l) = true → bk_metadata (lv_backing l) <= bk_held (lv_backing l) ∧
    bk_available (lv_backing l) + lv_total l = bk_held (lv_backing l) - bk_metadata (lv_backing l);
  la_held : bk_held (lv_backing l) <= u64_max;
  la_root : lv_parent l = None → backing_lane (lv_backing l) = None
}.
(** The accounts of the live levels [L], with the holds [H] and the charges [C]
    of permits. *)
Record accounts (F : Levels) (L H : list N) (C : list Charge) : Prop := {
  ac_table : ∀ i, is_Some (obs F !! i) ↔ i < fresh F;
  ac_slots : ∀ i, i < fresh F ↔ i ∈ L ++ free F;
  ac_nodup : NoDup (L ++ free F);
  ac_closed : closed (obs F) L;
  ac_wide : wide (obs F);
  ac_depth : ∀ i l, obs F !! i = Some l → lv_depth l <= N.of_nat MAX_DEPTH;
  ac_levels : ∀ i l, i ∈ L → obs F !! i = Some l →
    level_accounts (obs F) L H (C ++ backings (obs F) L) i l;
  ac_holders : ∀ i, i ∈ H → i ∈ L;
  ac_owners : ∀ c, c ∈ C → ch_level c ∈ L
}.
(** ** Charges along a path *)
Lemma used_cons m sel c cs i : used m sel (c :: cs) i = weight m sel i c + used m sel cs i.
Proof. done. Qed.
Lemma used_app m sel cs ds i : used m sel (cs ++ ds) i = used m sel cs i + used m sel ds i.
Proof. unfold used. by rewrite fmap_app, nsum_app. Qed.
Lemma used_ge m sel c cs i : c ∈ cs → weight m sel i c <= used m sel cs i.
Proof.
  induction cs as [|d cs IH]; intros Hc; [by apply not_elem_of_nil in Hc|]. rewrite used_cons.
  apply elem_of_cons in Hc as [->|Hc]; [lia|]. specialize (IH Hc). lia.
Qed.
Lemma used_agree m m' sel cs i : (∀ c, c ∈ cs → path m' (ch_level c) = path m (ch_level c)) →
  used m' sel cs i = used m sel cs i.
Proof.
  intros Hp. unfold used. f_equal. apply list_fmap_ext. intros k c Hc. unfold weight.
  by rewrite Hp by (by eapply list_elem_of_lookup_2).
Qed.
Lemma used_le m sel cs i : used m sel cs i <= used m every cs i.
Proof.
  induction cs as [|c cs IH]; [done|]. rewrite !used_cons. unfold weight, every at 1. case_decide; [|lia].
  destruct (sel _); lia.
Qed.
(** A change that keeps places and what parents hold keeps the owners. *)
Definition keeps_backing (f : Level → Level) : Prop := ∀ l, bk_held (lv_backing (f l)) = bk_held (lv_backing l).
Lemma held_code b b' : bk_funding b = bk_funding b' → bk_held b = bk_held b' → held b = held b'.
Proof. intros Hf Hh. unfold held, backing_lane. by rewrite (funding_code _ _ Hf), Hh. Qed.
Lemma backings_on_path f p m L : NoDup p → keeps_place f → keeps_backing f → backings (on_path f p m) L = backings m L.
Proof.
  intros Hnd Hf Hb. unfold backings. apply list_omap_ext, Forall_Forall2_diag, Forall_forall. intros i _.
  unfold backing_charge. rewrite on_path_lookup by done. case_decide; [|done]. destruct (m !! i) as [l|]; [|done]. simpl.
  destruct (Hf l) as (-> & Hc & _). destruct (lv_parent l); [|done]. simpl. by rewrite (held_code _ _ Hc (Hb l)).
Qed.
Lemma children_on_path f p m L i : NoDup p → keeps_place f → children (on_path f p m) L i = children m L i.
Proof.
  intros Hnd Hf. unfold children. f_equal. apply list_filter_iff. intros j. unfold child_of. rewrite on_path_lookup by done.
  case_decide; [|done]. destruct (m !! j) as [l|]; [|done]. simpl. by destruct (Hf l) as (-> & _).
Qed.
Lemma charge_backing lane bytes : keeps_backing (charge lane bytes).
Proof. intros l. simpl. by destruct (is_elastic (lv_backing l)). Qed.
Lemma uncharge_backing lane bytes : keeps_backing (uncharge lane bytes).
Proof. intros l. simpl. by destruct (is_elastic (lv_backing l)). Qed.
Lemma closed_on_path f p m L : NoDup p → keeps_place f → closed m L → closed (on_path f p m) L.
Proof.
  intros Hnd Hf Hc i Hi. destruct (Hc i Hi) as (l & Hl & Hd & Hp).
  assert (Hlk : ∀ j lj, m !! j = Some lj → ∃ lj', on_path f p m !! j = Some lj' ∧ lv_parent lj' = lv_parent lj ∧ lv_depth lj' = lv_depth lj).
  { intros j lj Hlj. rewrite on_path_lookup, Hlj by done. case_decide; [|by exists lj]. exists (f lj). split; [done|].
    by destruct (Hf lj) as (-> & _ & ->). }
  destruct (Hlk i l Hl) as (l' & Hl' & Hpar & Hdep). exists l'. split_and!; [done|by rewrite Hdep|].
  rewrite Hpar. intros q Hq. destruct (Hp q Hq) as (HqL & lq & Hlq & Hdq). split; [done|].
  destruct (Hlk q lq Hlq) as (lq' & Hlq' & _ & Hdq'). exists lq'. split; [done|congruence].
Qed.

(** The order of the owners does not matter. *)
Lemma used_perm m sel cs ds i : cs ≡ₚ ds → used m sel cs i = used m sel ds i.
Proof. intros Hp. unfold used. by rewrite Hp. Qed.
Lemma closed_perm m L L' : L ≡ₚ L' → closed m L → closed m L'.
Proof.
  intros Hp Hc i Hi. rewrite <-Hp in Hi. destruct (Hc i Hi) as (l & Hl & Hd & Hpar). exists l. split_and!; [done..|].
  intros q Hq. rewrite <-Hp. by apply Hpar.
Qed.
Lemma accounts_perm F L L' H H' C C' : L ≡ₚ L' → H ≡ₚ H' → C ≡ₚ C' → accounts F L H C → accounts F L' H' C'.
Proof.
  intros HL HH HC [Ht Hs Hn Hc Hw Hd Hl Hh Ho]. split; try done.
  - intros i. by rewrite Hs, HL.
  - by rewrite <-HL.
  - by eapply closed_perm.
  - intros i l Hi Hil. rewrite <-HL in Hi. destruct (Hl i l Hi Hil) as [H1 H2 H3 H4 H5 H6 H7 H8 H9 H10].
    assert (Hcs : C ++ backings (obs F) L ≡ₚ C' ++ backings (obs F) L') by (unfold backings; by rewrite HC, HL).
    split; try done; [by rewrite H1; apply used_perm|by rewrite H2; apply used_perm| |].
    + rewrite H3. unfold count, children. by rewrite HH, HL.
    + by rewrite <-(used_perm _ _ _ _ _ Hcs).
  - intros i. rewrite <-HH, <-HL. apply Hh.
  - intros c. rewrite <-HC, <-HL. apply Ho.
Qed.

(** ** Changes that leave the tree as it is *)
Lemma level_accounts_on_path f p m L H cs i l : NoDup p → keeps_place f →
  level_accounts m L H cs i l → level_accounts (on_path f p m) L H cs i l.
Proof.
  intros Hnd Hf [H1 H2 H3 H4 H5 H6 H7 H8 H9 H10].
  assert (Hu : ∀ sel, used (on_path f p m) sel cs i = used m sel cs i).
  { intros sel. apply used_agree. intros c _. by apply path_on_path. }
  split; rewrite ?Hu, ?children_on_path by done; done.
Qed.
Lemma accounts_on_path F F' L H H' C C' f p :
  accounts F L H C → obs F' = on_path f p (obs F) → fresh F' = fresh F → free F' = free F →
  NoDup p → keeps_place f → keeps_backing f →
  (∀ i l, i ∈ p → obs F !! i = Some l → fits_width (f l)) →
  (∀ i, i ∈ H' → i ∈ L) → (∀ c, c ∈ C' → ch_level c ∈ L) →
  (∀ i l, i ∈ L → obs F !! i = Some l →
    level_accounts (obs F) L H' (C' ++ backings (obs F) L) i (if decide (i ∈ p) then f l else l)) →
  accounts F' L H' C'.
Proof.
  intros [Ht Hs Hn Hc Hw Hd Hl Hh Ho] Hobs Hfr Hfe Hnd Hf Hb Hfw HH HC Hla.
  assert (Hlk : ∀ i l', obs F' !! i = Some l' → ∃ l, obs F !! i = Some l ∧ l' = if decide (i ∈ p) then f l else l).
  { intros i l'. rewrite Hobs, on_path_lookup by done. case_decide; [|naive_solver].
    destruct (obs F !! i) as [l|]; [|done]. intros [= <-]. by exists l. }
  split.
  - intros i. rewrite Hobs, Hfr, on_path_lookup, <-Ht by done. case_decide; [|done]. apply fmap_is_Some.
  - intros i. by rewrite Hfr, Hfe.
  - by rewrite Hfe.
  - rewrite Hobs. by apply closed_on_path.
  - intros i l' (l & Hil & ->)%Hlk. case_decide; [by eapply Hfw|by eapply Hw].
  - intros i l' (l & Hil & ->)%Hlk. specialize (Hd i l Hil). case_decide; [|done]. by destruct (Hf l) as (_ & _ & ->).
  - intros i l' Hi (l & Hil & ->)%Hlk. rewrite Hobs, backings_on_path by done. apply level_accounts_on_path; [done..|].
    by apply Hla.
  - done.
  - done.
Qed.
Lemma accounts_same F F' L H C : same F F' → accounts F L H C → accounts F' L H C.
Proof.
  intros (Ho & Hfr & Hfe) Ha. pose proof Ha as [Ht Hs Hn Hc Hw Hd Hl Hh Hown].
  split; rewrite ?Ho, ?Hfr, ?Hfe; done.
Qed.

Section charging.
Context (F : Levels) (L H : list N) (level : N) (lane : BudgetLane) (bytes : N).
Notation c := {| ch_level := level; ch_lane := lane; ch_bytes := bytes |}.
Lemma weight_charge sel i :
  weight (obs F) sel i c = if decide (i ∈ path (obs F) level) then if sel lane then bytes else 0 else 0.
Proof. done. Qed.
Lemma accounts_reserve kind C F' u :
  accounts F L H C → level ∈ L → reserve_tree level kind lane bytes F = (Ok u, F') → accounts F' L H (c :: C).
Proof.
  intros Ha Hlevel Hr. pose proof Ha as [Ht Hs Hn Hc Hw Hd Hl Hh Ho].
  destruct (reserve_tree_spec F L level kind lane bytes Hc Hw Hlevel Hd _ _ Hr) as (Hfr & Hfe & Hobs & Had).
  apply (accounts_on_path F F' L H H C (c :: C) (charge lane bytes) (path (obs F) level));
    try done; [by eapply path_nodup|apply charge_place|apply charge_backing| | |].
  - intros i l Hi Hil. destruct (Hw i l Hil) as [H1 H2 H3 H4]. split; [done..|]. simpl.
    destruct (is_elastic (lv_backing l)); simpl; lia.
  - intros d [->|Hd']%elem_of_cons; [done|by apply Ho].
  - intros i l Hi Hil. destruct (Hl i l Hi Hil) as [H1 H2 H3 H4 H5 H6 H7 H8 H9 H10].
    assert (Hu : ∀ sel, used (obs F) sel ((c :: C) ++ backings (obs F) L) i =
      (if decide (i ∈ path (obs F) level) then if sel lane then bytes else 0 else 0) +
      used (obs F) sel (C ++ backings (obs F) L) i) by (intros sel; by rewrite <-weight_charge).
    case_decide as Hp.
    + destruct (Had i l Hp Hil) as [A1 A2 A3 A4].
      assert (Hle := used_le (obs F) uncommitted (C ++ backings (obs F) L) i).
      split; rewrite ?Hu; cbn [charge with_usage lv_total lv_ordinary lv_holds lv_limit lv_hold_limit lv_ordinary_limit
        lv_parent lv_backing every]; try done.
      * rewrite H1. lia.
      * rewrite H2. unfold ordinary_part, ordinary_lane. case_decide as Hlane; [rewrite bool_decide_true by done|rewrite bool_decide_false by done]; lia.
      * unfold lane_bound in A4. destruct lane; lia.
      * rewrite <-H1 in Hle. revert Hle H5 A4. generalize (used (obs F) uncommitted (C ++ backings (obs F) L) i).
        unfold lane_bound. destruct lane; simpl; lia.
      * unfold ordinary_part. case_decide; [by apply A3|lia].
      * destruct (is_elastic (lv_backing l)) eqn:He; [|by rewrite He]. intros _. destruct (H8 eq_refl). specialize (A2 eq_refl).
        simpl. split; [done|lia].
      * by destruct (is_elastic (lv_backing l)).
      * intros Hn'. destruct (is_elastic (lv_backing l)); [|by apply H10]. unfold backing_lane.
        rewrite (funding_code (set_available _ _) (lv_backing l)) by done. by apply H10.
    + split; rewrite ?Hu, ?N.add_0_l; done.
Qed.
Lemma accounts_refused kind C F' e :
  accounts F L H C → level ∈ L → reserve_tree level kind lane bytes F = (Err e, F') → accounts F' L H C.
Proof.
  intros Ha Hlevel Hr. pose proof Ha as [Ht Hs Hn Hc Hw Hd Hl Hh Ho].
  destruct (reserve_tree_spec F L level kind lane bytes Hc Hw Hlevel Hd _ _ Hr) as (Hfr & Hfe & Hobs & _).
  by apply (accounts_same F).
Qed.
(** The levels of a charge in the books have been charged that much. *)
Lemma accounts_charged C i l : accounts F L H C → c ∈ C ++ backings (obs F) L → level ∈ L →
  i ∈ path (obs F) level → obs F !! i = Some l → charged lane bytes l.
Proof.
  intros Ha Hin Hlevel Hi Hil.
  destruct (ac_levels _ _ _ _ Ha i l ltac:(eapply path_closed; [apply Ha|done..]) Hil) as [H1 H2 _ _ _ _ _ H8 H9 _].
  assert (Hge : ∀ sel, weight (obs F) sel i c <= used (obs F) sel (C ++ backings (obs F) L) i) by (intros; by apply used_ge).
  assert (Ht : bytes <= lv_total l).
  { specialize (Hge every). rewrite weight_charge, decide_True in Hge by done. simpl in Hge. lia. }
  split; [done| |].
  - intros Hlane. specialize (Hge ordinary_lane). rewrite weight_charge, decide_True in Hge by done.
    unfold ordinary_lane at 1 in Hge. rewrite bool_decide_true in Hge by done. lia.
  - intros He. destruct (H8 He). lia.
Qed.
End charging.

(** ** Giving back *)
Section releasing.
Context (F : Levels) (L H : list N) (level : N) (lane : BudgetLane) (bytes : N).
Notation c := {| ch_level := level; ch_lane := lane; ch_bytes := bytes |}.
Lemma accounts_release kind C : accounts F L H (c :: C) →
  let r := release_tree level kind lane bytes F in
  accounts r.2 L H C ∧ r.1 = idle_on bytes (obs F) (path (obs F) level) ∧
  obs r.2 = on_path (uncharge lane bytes) (path (obs F) level) (obs F) ∧ fresh r.2 = fresh F ∧ free r.2 = free F.
Proof.
  intros Ha. pose proof Ha as [Ht Hs Hn Hc Hw Hd Hl Hh Ho].
  assert (Hlevel : level ∈ L) by (apply (Ho c); left).
  assert (Hch : ∀ i l, i ∈ path (obs F) level → obs F !! i = Some l → charged lane bytes l).
  { intros i l. apply (accounts_charged F L H level lane bytes (c :: C)); [done|left|done]. }
  destruct (release_tree_spec F L level kind lane bytes Hc Hlevel Hch) as (Hr1 & Hr2 & Hfr & Hfe).
  split; [|done].
  apply (accounts_on_path F _ L H H (c :: C) C (uncharge lane bytes) (path (obs F) level));
    try done; [by eapply path_nodup|apply uncharge_place|apply uncharge_backing| | |].
  - intros i l Hi Hil. destruct (Hw i l Hil) as [H1 H2 H3 H4]. split; [done..|]. simpl.
    destruct (is_elastic (lv_backing l)) eqn:He; simpl; [|done]. by apply (Hch i l).
  - intros d Hd'. apply Ho. by right.
  - intros i l Hi Hil. destruct (Hl i l Hi Hil) as [H1 H2 H3 H4 H5 H6 H7 H8 H9 H10].
    assert (Hu : ∀ sel, used (obs F) sel ((c :: C) ++ backings (obs F) L) i =
      (if decide (i ∈ path (obs F) level) then if sel lane then bytes else 0 else 0) +
      used (obs F) sel (C ++ backings (obs F) L) i) by (intros sel; by rewrite <-(weight_charge F)).
    rewrite Hu in H1, H2, H5. case_decide as Hp.
    + destruct (Hch i l Hp Hil) as [A1 A2 A3].
      split; cbn [uncharge with_usage lv_total lv_ordinary lv_holds lv_limit lv_hold_limit lv_ordinary_limit
        lv_parent lv_backing every] in *; try done.
      * lia.
      * rewrite H2. unfold ordinary_part, ordinary_lane. case_decide as Hlane; [rewrite bool_decide_true by done|rewrite bool_decide_false by done]; lia.
      * lia.
      * lia.
      * lia.
      * destruct (is_elastic (lv_backing l)) eqn:He; [|by rewrite He]. intros _. destruct (H8 eq_refl).
        simpl. split; [done|lia].
      * by destruct (is_elastic (lv_backing l)).
      * intros Hn'. destruct (is_elastic (lv_backing l)); [|by apply H10]. unfold backing_lane.
        rewrite (funding_code (set_available _ _) (lv_backing l)) by done. by apply H10.
    + rewrite !N.add_0_l in *. by split.
Qed.
End releasing.

(** ** Holds *)
Definition hold_by (f : N → N) (l : Level) : Level := with_holds (f (lv_holds l)) l.
Lemma hold_place f : keeps_place (hold_by f).
Proof. done. Qed.
Lemma accounts_holds F L H H' C i f :
  accounts F L H C → i ∈ L → (∀ j, j ∈ H' → j ∈ L) → (∀ j, j ≠ i → count H' j = count H j) →
  (∀ l, obs F !! i = Some l → f (lv_holds l) = N.of_nat (count H' i + children (obs F) L i)) →
  accounts (on_level i (hold_by f) F) L H' C.
Proof.
  intros Ha Hi HH Hcount Hf. pose proof Ha as [Ht Hs Hn Hc Hw Hd Hl Hh Ho].
  apply (accounts_on_path F _ L H H' C C (hold_by f) [i]); try done.
  - by apply (obs_on_level F i _ (hold_by f)).
  - apply NoDup_singleton.
  - intros j l _ Hjl. by destruct (Hw j l Hjl).
  - intros j l Hj Hjl. destruct (Hl j l Hj Hjl) as [H1 H2 H3 H4 H5 H6 H7 H8 H9 H10].
    case_decide as Hp.
    + apply list_elem_of_singleton in Hp as ->. split; try done. simpl. by apply Hf.
    + assert (j ≠ i) by (intros ->; apply Hp; left). split; try done. by rewrite Hcount.
Qed.
Lemma accounts_take_hold F L H C i : accounts F L H C → i ∈ L →
  (∀ l, slots F !! i = Some l → lv_holds l < u64_max) → accounts (take_hold i F) L (i :: H) C.
Proof.
  intros Ha Hi Hroom. apply (accounts_holds F L H (i :: H) C i (λ h, wrapping_add h 1)); [done..| | |].
  - intros j [->|Hj]%elem_of_cons; [done|by apply Ha].
  - intros j Hj. unfold count. by rewrite filter_cons_False by congruence.
  - intros l Hl. pose proof (la_holds _ _ _ _ _ _ (ac_levels _ _ _ _ Ha i l Hi Hl)) as Hh.
    rewrite obs_lookup in Hl. destruct (slots F !! i) as [l0|] eqn:Hl0; [|done]. apply (inj Some) in Hl. subst l.
    specialize (Hroom l0 eq_refl). cbn [plain lv_holds] in *. rewrite wrapping_add_fits by lia. rewrite Hh.
    unfold count. rewrite filter_cons_True by done. simpl length. lia.
Qed.
Lemma accounts_drop_hold F L H C i : accounts F L (i :: H) C →
  accounts (on_level i (hold_by (λ h, wrapping_sub h 1)) F) L H C.
Proof.
  intros Ha. assert (Hi : i ∈ L) by (apply Ha; left).
  apply (accounts_holds F L (i :: H) H C i); [done..| | |].
  - intros j Hj. apply Ha. by right.
  - intros j Hj. unfold count. by rewrite filter_cons_False by congruence.
  - intros l Hl. pose proof (la_holds _ _ _ _ _ _ (ac_levels _ _ _ _ Ha i l Hi Hl)) as ->.
    unfold count. rewrite filter_cons_True by done. simpl length. rewrite wrapping_sub_le by lia. lia.
Qed.

(** ** The end of a level *)
Lemma count_0 H i : count H i = 0%nat → i ∉ H.
Proof. intros Hc Hi. by eapply (filter_length_0 (λ j, j = i)). Qed.
Lemma on_path_single f i m : on_path f [i] m = alter f i m.
Proof. done. Qed.
(** A level without holds and charges leaves; what it had of its parent is
    still to be given back. *)
Lemma accounts_end F L H C i l s :
  accounts F (i :: L) H C → (∀ c, c ∈ C → ch_bytes c ≠ 0) → obs F !! i = Some l → lv_holds l = 0 → lv_total l = 0 →
  accounts (recycle i (on_level i (with_state s) F)) L (option_list (lv_parent l) ++ H)
    (option_list (backing_charge (obs F) i) ++ C).
Proof.
  intros Ha Hnz Hil Hh0 Ht0. pose proof Ha as [Ht Hs Hn Hc Hw Hd Hl Hh Ho].
  destruct (Hl i l ltac:(left) Hil) as [T1 _ T3 _ _ _ _ _ _ _].
  assert (Hcount : count H i = 0%nat ∧ children (obs F) (i :: L) i = 0%nat) by lia. destruct Hcount as [Hcnt Hch].
  assert (Hnochild : ∀ j, j ∈ i :: L → ¬ child_of (obs F) i j) by (intros j; by apply (filter_length_0 (child_of (obs F) i))).
  assert (Hnd : i ∉ L ∧ i ∉ free F ∧ NoDup (L ++ free F)).
  { inversion_clear Hn as [|? ? Hni Hn']. rewrite elem_of_app in Hni. naive_solver. }
  destruct Hnd as (HiL & Hif & Hn').
  assert (Hpi : i ∈ path (obs F) i) by (unfold path; simpl; rewrite Hil; left).
  assert (HC : ∀ c, c ∈ C → ch_level c ∈ L).
  { intros c Hc'. specialize (Ho c Hc'). apply elem_of_cons in Ho as [Hci|]; [|done].
    exfalso. apply (Hnz c Hc'). assert (Hge := used_ge (obs F) every c (C ++ backings (obs F) (i :: L)) i ltac:(apply elem_of_app; by left)).
    rewrite <-T1, Ht0 in Hge. unfold weight in Hge. rewrite Hci, decide_True in Hge by done. simpl in Hge. lia. }
  assert (Hparent : ∀ p, lv_parent l = Some p → p ∈ L).
  { intros p Hp. destruct (Hc i ltac:(left)) as (l' & Hl' & Hpos & Hpar). rewrite Hil in Hl'. injection Hl' as <-.
    destruct (Hpar p Hp) as (HpL & lp & Hlp & Hdp). apply elem_of_cons in HpL as [->|]; [|done].
    rewrite Hil in Hlp. injection Hlp as <-. lia. }
  set (F1 := recycle i (on_level i (with_state s) F)).
  assert (Hobs : obs F1 = on_path (with_state s) [i] (obs F)) by (by apply (obs_on_level F i _ (with_state s))).
  assert (Hplace : keeps_place (with_state s)) by done.
  assert (Hlk : ∀ j, j ∈ L → obs F1 !! j = obs F !! j).
  { intros j Hj. rewrite Hobs, on_path_single, lookup_alter_ne; [done|]. by intros ->. }
  assert (Hb1 : backings (obs F1) L = backings (obs F) L).
  { rewrite Hobs. by apply backings_on_path; [apply NoDup_singleton|..]. }
  assert (Hbs : backings (obs F) (i :: L) = option_list (backing_charge (obs F) i) ++ backings (obs F) L).
  { unfold backings. simpl. by destruct (backing_charge (obs F) i). }
  split.
  - intros j. rewrite Hobs, on_path_single. change (fresh F1) with (fresh F). rewrite <-Ht.
    destruct (decide (j = i)) as [->|]; [rewrite lookup_alter_eq; apply fmap_is_Some|by rewrite lookup_alter_ne].
  - intros j. change (fresh F1) with (fresh F). change (free F1) with (i :: free F). rewrite Hs. set_solver.
  - change (free F1) with (i :: free F). rewrite <-Permutation_middle. by constructor; [rewrite elem_of_app; naive_solver|].
  - intros j Hj. destruct (Hc j ltac:(by right)) as (lj & Hlj & Hpos & Hpar). exists lj. rewrite Hlk by done. split_and!; [done..|].
    intros p Hp. destruct (Hpar p Hp) as (HpL & lp & Hlp & Hdp). apply elem_of_cons in HpL as [->|HpL].
    { destruct (Hnochild j ltac:(by right)). unfold child_of. by rewrite Hlj. }
    split; [done|]. exists lp. by rewrite Hlk.
  - intros j lj. rewrite Hobs, on_path_single. destruct (decide (j = i)) as [->|]; [|rewrite lookup_alter_ne by done; apply Hw].
    rewrite lookup_alter_eq, Hil. intros [= <-]. by destruct (Hw i l Hil).
  - intros j lj. rewrite Hobs, on_path_single. destruct (decide (j = i)) as [->|]; [|rewrite lookup_alter_ne by done; apply Hd].
    rewrite lookup_alter_eq, Hil. intros [= <-]. by apply (Hd i l).
  - intros j lj Hj. rewrite Hlk, Hb1 by done. intros Hjl. rewrite Hobs. apply level_accounts_on_path; [apply NoDup_singleton|done|].
    destruct (Hl j lj ltac:(by right) Hjl) as [H1 H2 H3 H4 H5 H6 H7 H8 H9 H10].
    assert (Hu : ∀ sel, used (obs F) sel ((option_list (backing_charge (obs F) i) ++ C) ++ backings (obs F) L) j =
      used (obs F) sel (C ++ backings (obs F) (i :: L)) j).
    { intros sel. apply used_perm. rewrite Hbs, (Permutation_app_comm (option_list _) C), app_assoc. done. }
    split; rewrite ?Hu; try done. rewrite H3. f_equal. unfold children, count.
    assert (Hchild : child_of (obs F) j i ↔ lv_parent l = Some j) by (unfold child_of; by rewrite Hil).
    destruct (decide (lv_parent l = Some j)) as [Hp|Hp].
    + rewrite (filter_cons_True (child_of (obs F) j)), Hp by tauto. simpl option_list.
      rewrite filter_app, length_app. rewrite filter_cons_True by done. simpl. lia.
    + rewrite (filter_cons_False (child_of (obs F) j)) by tauto. rewrite filter_app, length_app.
      destruct (lv_parent l) as [p|]; simpl option_list; [|done]. rewrite filter_cons_False by congruence. done.
  - intros j [Hj|Hj]%elem_of_app.
    + destruct (lv_parent l) as [p|]; [|by apply not_elem_of_nil in Hj]. apply list_elem_of_singleton in Hj as ->. by apply Hparent.
    + specialize (Hh j Hj). apply elem_of_cons in Hh as [->|]; [|done]. by apply count_0 in Hcnt.
  - intros c [Hc'|Hc']%elem_of_app; [|by apply HC]. unfold backing_charge in Hc'. rewrite Hil in Hc'. simpl in Hc'.
    destruct (lv_parent l) as [p|]; [|by apply not_elem_of_nil in Hc']. simpl in Hc'.
    destruct (held (lv_backing l)) as [h|]; [|by apply not_elem_of_nil in Hc'].
    apply list_elem_of_singleton in Hc' as ->. by apply Hparent.
Qed.

(** A level that may not be ended: held, charged, or out of lives. *)
Definition out_of_lives (l : Level) : Prop := (g ← checked_add (lv_state l / 2) 1; checked_mul g 2) = None.
Definition alive (F : Levels) (i : N) : Prop :=
  ∃ l, obs F !! i = Some l ∧ (lv_holds l ≠ 0 ∨ lv_total l ≠ 0 ∨ out_of_lives l).
Lemma path_child n m i j : j ∈ path_from n m i → j ≠ i → ∃ k, k ∈ path_from n m i ∧ child_of m j k.
Proof.
  revert i. induction n as [|n IH]; intros i Hj Hne; simpl in *; [by apply not_elem_of_nil in Hj|].
  destruct (m !! i) as [l|] eqn:Hl; [|by apply not_elem_of_nil in Hj]. apply elem_of_cons in Hj as [->|Hj]; [done|].
  destruct (lv_parent l) as [p|] eqn:Hp; [|by apply not_elem_of_nil in Hj].
  destruct (backing_lane (lv_backing l)); [by apply not_elem_of_nil in Hj|].
  destruct (decide (j = p)) as [->|Hjp].
  - exists i. split; [left|]. unfold child_of. by rewrite Hl.
  - destruct (IH p Hj Hjp) as (k & Hk & Hc). exists k. split; [by right|done].
Qed.
Lemma parent_held F L H C j k : accounts F L H C → j ∈ L → k ∈ L → child_of (obs F) j k → alive F j.
Proof.
  intros Ha Hj Hk Hc. destruct (ac_closed _ _ _ _ Ha j Hj) as (l & Hl & _). exists l. split; [done|]. left.
  rewrite (la_holds _ _ _ _ _ _ (ac_levels _ _ _ _ Ha j l Hj Hl)). intros Hz.
  apply (filter_length_0 (child_of (obs F) j) L k); [unfold children in Hz; lia|done..].
Qed.
(** What is given back on the way leaves the levels above alive. *)
Lemma release_alive F L H C level lane bytes kind j :
  accounts F L H ({| ch_level := level; ch_lane := lane; ch_bytes := bytes |} :: C) → j ∈ L → j ≠ level → alive F j →
  alive (release_tree level kind lane bytes F).2 j.
Proof.
  intros Ha Hj Hne Halive. destruct (accounts_release F L H level lane bytes kind C Ha) as (Ha' & _ & Hobs & _).
  assert (Hlevel : level ∈ L) by (apply (ac_owners _ _ _ _ Ha {| ch_level := level; ch_lane := lane; ch_bytes := bytes |}); left).
  pose proof (path_nodup MAX_DEPTH _ _ _ (ac_closed _ _ _ _ Ha) Hlevel) as Hnd.
  destruct (decide (j ∈ path (obs F) level)) as [Hin|Hin].
  - destruct (path_child _ _ _ _ Hin Hne) as (k & Hk & Hc). apply (parent_held _ L H C j k); [done..| |].
    + eapply path_closed; [apply Ha|exact Hlevel|exact Hk].
    + rewrite Hobs. unfold child_of in *. rewrite on_path_lookup by done. case_decide; [|done].
      by destruct (obs F !! k) as [lk|].
  - destruct Halive as (l & Hl & Hal). exists l. split; [|done]. by rewrite Hobs, on_path_lookup, decide_False.
Qed.
Lemma unsettled_charged m L H cs i l : level_accounts m L H cs i l → settled (lv_backing l) = false → lv_total l ≠ 0.
Proof.
  intros [_ _ _ _ _ _ _ Hc _ _]. unfold settled. destruct (is_elastic (lv_backing l)); [|done].
  destruct (Hc eq_refl). simpl. intros Hf%bool_decide_eq_false Hz. apply Hf. lia.
Qed.
Lemma hold_const F i l h : slots F !! i = Some l → on_level i (with_holds (h (lv_holds l))) F = on_level i (hold_by h) F.
Proof.
  intros Hl. unfold on_level, on_slots. f_equal. apply map_eq. intros j. destruct (decide (j = i)) as [->|].
  - by rewrite !lookup_alter_eq, Hl.
  - by rewrite !lookup_alter_ne.
Qed.
(** An ended level's backing goes back to its parent, which it still holds. *)
Lemma give_back F L H C p (h : option (BudgetLane * N)) :
  accounts F L (p :: H) (option_list ((λ h, {| ch_level := p; ch_lane := h.1; ch_bytes := h.2 |}) <$> h) ++ C) →
  (∀ j, j ∈ L → alive F j) →
  let F' := match h with Some (lane, bytes) => (release_tree p BudgetKind.Reserved lane bytes F).2 | None => F end in
  accounts F' L (p :: H) C ∧ (∀ j, j ∈ L → j ≠ p → alive F' j) ∧
  ∀ l, obs F !! p = Some l → ∃ l', obs F' !! p = Some l' ∧ lv_state l' = lv_state l ∧ lv_depth l' = lv_depth l.
Proof.
  intros Ha Halive. destruct h as [[lane bytes]|]; simpl in *; [|split_and!; [done|auto|by eauto]].
  destruct (accounts_release F L (p :: H) p lane bytes BudgetKind.Reserved C Ha) as (Ha' & _ & Hobs & _).
  split_and!; [done| |].
  - intros j Hj Hne. eapply release_alive; [done..|by apply Halive].
  - intros l Hl. assert (HpL : p ∈ L) by (apply Ha; left).
    rewrite Hobs, on_path_lookup, Hl by (eapply path_nodup; [apply Ha|done]). case_decide; by eexists.
Qed.
Lemma end_walk_spec n F L H C i l :
  accounts F L H C → (∀ c, c ∈ C → ch_bytes c ≠ 0) → i ∈ L → obs F !! i = Some l → lv_depth l <= N.of_nat n →
  (∀ j, j ∈ L → j ≠ i → alive F j) →
  let F' := end_walk n i (lv_state l) F in
  ∃ L', accounts F' L' H C ∧ (∀ j, j ∈ L' → alive F' j) ∧ (∀ j, j ∈ L' → j ∈ L).
Proof.
  revert F L i l. induction n as [|n IH]; intros F L i l Ha Hnz Hi Hil Hdep Halive.
  { destruct (ac_closed _ _ _ _ Ha i Hi) as (l' & Hl' & Hpos & _). simplify_eq. lia. }
  cbn [end_walk]. pose proof Hil as Hslot. rewrite obs_lookup in Hslot.
  destruct (slots F !! i) as [l0|] eqn:Hl0; [|done]. apply (inj Some) in Hslot. subst l. cbn [plain lv_state lv_depth] in *.
  pose proof (ac_levels _ _ _ _ Ha i _ Hi Hil) as Hla.
  assert (Hkeep : alive F i → ∃ L', accounts F L' H C ∧ (∀ j, j ∈ L' → alive F j) ∧ (∀ j, j ∈ L' → j ∈ L)).
  { intros Hai. exists L. split_and!; [done| |done]. intros j Hj. destruct (decide (j = i)) as [->|]; auto. }
  case_decide as Hidle.
  { apply Hkeep. exists (plain l0). split; [done|]. destruct Hidle as [?|[?|Hs]]; [by left|right; by left|].
    right. left. by apply (unsettled_charged _ _ _ _ _ _ Hla). }
  destruct (g ← checked_add (lv_state l0 / 2) 1; checked_mul g 2) as [next|] eqn:Hnext.
  2: { apply Hkeep. exists (plain l0). split; [done|]. right. by right. }
  rewrite decide_False by naive_solver.
  assert (Hh0 : lv_holds l0 = 0) by (destruct (decide (lv_holds l0 = 0)); tauto).
  assert (Ht0 : lv_total l0 = 0) by (destruct (decide (lv_total l0 = 0)); tauto).
  apply elem_of_Permutation in Hi as [L1 HL1].
  pose proof (accounts_perm F L (i :: L1) H H C C HL1 (Permutation_refl _) (Permutation_refl _) Ha) as Ha0.
  pose proof (accounts_end F L1 H C i (plain l0) next Ha0 Hnz Hil Hh0 Ht0) as Ha1.
  set (F1 := recycle i (on_level i (with_state next) F)) in *. cbn [plain lv_parent] in Ha1.
  assert (HiL1 : i ∉ L1) by (pose proof (ac_nodup _ _ _ _ Ha0) as Hn; inversion_clear Hn; set_solver).
  assert (Hsub : ∀ j, j ∈ L1 → j ∈ L) by (intros j Hj; rewrite HL1; by right).
  assert (Halive1 : ∀ j, j ∈ L1 → alive F1 j).
  { intros j Hj. destruct (Halive j (Hsub j Hj)) as (lj & Hlj & Hal); [by intros ->|]. exists lj. split; [|done].
    assert (Hobs1 : obs F1 = alter (with_state next) i (obs F)) by (by apply (obs_on_level F i _ (with_state next))).
    rewrite Hobs1, lookup_alter_ne by (intros ->; done). done. }
  destruct (lv_parent l0) as [p|] eqn:Hpar.
  2: { assert (Hbc : backing_charge (obs F) i = None) by (unfold backing_charge; rewrite Hil; simpl; by rewrite Hpar).
       rewrite Hbc in Ha1. exists L1. by split_and!. }
  assert (HpL : p ∈ L1) by (apply (ac_holders _ _ _ _ Ha1); left).
  assert (Hbc : backing_charge (obs F) i =
    (λ h : BudgetLane * N, {| ch_level := p; ch_lane := h.1; ch_bytes := h.2 |}) <$> held (lv_backing l0)).
  { unfold backing_charge. rewrite Hil. simpl. rewrite Hpar. simpl. by destruct (held (lv_backing l0)). }
  rewrite Hbc in Ha1. simpl option_list in Ha1.
  destruct (ac_closed _ _ _ _ Ha1 p HpL) as (lp & Hlp & _ & _). pose proof Hlp as Hslot. rewrite obs_lookup in Hslot.
  destruct (slots F1 !! p) as [above|] eqn:Habove; [|done]. apply (inj Some) in Hslot. subst lp.
  destruct (give_back F1 L1 H C p (held (lv_backing l0)) Ha1 Halive1) as (Ha2 & Halive2 & Hstate).
  set (F2 := match held (lv_backing l0) with
             | Some (lane, bytes) => (release_tree p BudgetKind.Reserved lane bytes F1).2 | None => F1 end) in *.
  destruct (Hstate _ Hlp) as (lp2 & Hlp2 & Hst & Hdp). pose proof Hlp2 as Hslot. rewrite obs_lookup in Hslot.
  destruct (slots F2 !! p) as [above2|] eqn:Habove2; [|done]. apply (inj Some) in Hslot. subst lp2.
  cbn [plain lv_state lv_depth] in *. pose proof (accounts_drop_hold F2 L1 H C p Ha2) as Ha3.
  change (λ p0 : Level, with_holds (wrapping_sub (lv_holds p0) 1) p0) with (hold_by (λ h, wrapping_sub h 1)).
  set (F3 := on_level p (hold_by (λ h, wrapping_sub h 1)) F2) in *.
  assert (Hobs3 : obs F3 = alter (hold_by (λ h, wrapping_sub h 1)) p (obs F2)) by (by apply obs_on_level).
  assert (Halive3 : ∀ j, j ∈ L1 → j ≠ p → alive F3 j).
  { intros j Hj Hne. destruct (Halive2 j Hj Hne) as (lj & Hlj & Hal). exists lj. by rewrite Hobs3, lookup_alter_ne. }
  assert (Hp3 : obs F3 !! p = Some (hold_by (λ h, wrapping_sub h 1) (plain above2))) by (by rewrite Hobs3, lookup_alter_eq, Hlp2).
  case_decide as Hone.
  - exists L1. split_and!; [done| |done]. intros j Hj. destruct (decide (j = p)) as [->|]; [|by apply Halive3].
    eexists. split; [exact Hp3|]. left. simpl.
    pose proof (la_holds _ _ _ _ _ _ (ac_levels _ _ _ _ Ha2 p _ HpL Hlp2)) as Hh. simpl in Hh.
    unfold count in Hh. rewrite filter_cons_True in Hh by done. simpl in Hh. rewrite wrapping_sub_le by lia. lia.
  - rewrite <-Hst. destruct (IH F3 L1 p _ Ha3 Hnz HpL Hp3) as (L' & Ha' & Hal' & Hsub').
    + simpl. destruct (ac_closed _ _ _ _ Ha i) as (li & Hli & Hpos & Hparents); [rewrite HL1; left|].
      rewrite Hil in Hli. injection Hli as <-. destruct (Hparents p Hpar) as (_ & lp & Hlp' & Hdepth). simpl in Hdepth.
      assert (Hlp1 : obs F1 !! p = obs F !! p).
      { assert (Hobs1 : obs F1 = alter (with_state next) i (obs F)) by (by apply (obs_on_level F i _ (with_state next))).
        rewrite Hobs1, lookup_alter_ne; [done|]. by intros ->. }
      rewrite Hlp1, Hlp' in Hlp. injection Hlp as ->. simpl in *. lia.
    + done.
    + simpl in *. exists L'. split_and!; [done..|]. intros j Hj. by apply Hsub, Hsub'.
Qed.

(** ** The begin of a level *)
Definition backing_of (l : Level) : option Charge :=
  p ← lv_parent l; h ← held (lv_backing l); Some {| ch_level := p; ch_lane := h.1; ch_bytes := h.2 |}.
Lemma backing_owner m L c : closed m L → c ∈ backings m L → ch_level c ∈ L.
Proof.
  intros Hc (i & Hi & Hb)%list_elem_of_omap. destruct (Hc i Hi) as (l & Hl & _ & Hp). unfold backing_charge in Hb.
  rewrite Hl in Hb. simpl in Hb. destruct (lv_parent l) as [p|]; [|done]. simpl in Hb.
  destruct (held (lv_backing l)); [|done]. simpl in Hb. simplify_eq. by apply (Hp p).
Qed.
Lemma used_elsewhere m sel cs i L : closed m L → (∀ c, c ∈ cs → ch_level c ∈ L) → i ∉ L → used m sel cs i = 0.
Proof.
  intros Hc Hcs Hi. induction cs as [|c cs IH]; [done|]. rewrite used_cons, IH.
  - unfold weight. rewrite decide_False; [done|]. intros Hp. apply Hi. eapply path_closed; [done| |exact Hp]. apply Hcs. left.
  - intros d Hd. apply Hcs. by right.
Qed.
(** A level as it begins. *)
Record begun (m : gmap N Level) (l : Level) : Prop := {
  bg_total : lv_total l = 0; bg_ordinary : lv_ordinary l = 0; bg_holds : lv_holds l = 1;
  bg_width : fits_width l; bg_limits : lv_limit l <= lv_hold_limit l;
  bg_credit : is_elastic (lv_backing l) = true → bk_metadata (lv_backing l) <= bk_held (lv_backing l) ∧
    bk_available (lv_backing l) = bk_held (lv_backing l) - bk_metadata (lv_backing l);
  bg_held : bk_held (lv_backing l) <= u64_max;
  bg_root : lv_parent l = None → backing_lane (lv_backing l) = None;
  bg_depth : 1 <= lv_depth l <= N.of_nat MAX_DEPTH;
  bg_parent : ∀ p, lv_parent l = Some p → ∃ lp, m !! p = Some lp ∧ lv_depth l = lv_depth lp + 1
}.
Lemma accounts_insert F F' L H C i l :
  accounts F L (option_list (lv_parent l) ++ H) (option_list (backing_of l) ++ C) → i ∉ L → begun (obs F) l →
  obs F' = <[i := l]> (obs F) → (∀ j, j < fresh F' ↔ j ∈ (i :: L) ++ free F') → NoDup ((i :: L) ++ free F') →
  (∀ j, is_Some (obs F' !! j) ↔ j < fresh F') →
  accounts F' (i :: L) (i :: H) C.
Proof.
  intros Ha Hi Hb Hobs Hslots Hnd Htable. pose proof Ha as [Ht Hs Hn Hc Hw Hd Hl Hh Ho].
  assert (Hlk : ∀ j, j ∈ L → obs F' !! j = obs F !! j) by (intros j Hj; rewrite Hobs, lookup_insert_ne; [done|by intros ->]).
  assert (Hli : obs F' !! i = Some l) by (by rewrite Hobs, lookup_insert_eq).
  assert (Hpath : ∀ j, j ∈ L → path (obs F') j = path (obs F) j) by (intros j; by apply path_agree).
  assert (Hparent : ∀ p, lv_parent l = Some p → p ∈ L).
  { intros p Hp. apply Hh. rewrite Hp. left. }
  assert (HHL : ∀ j, j ∈ H → j ∈ L) by (intros j Hj; apply Hh, elem_of_app; by right).
  assert (HCL : ∀ c, c ∈ C → ch_level c ∈ L) by (intros c Hc'; apply Ho, elem_of_app; by right).
  assert (Hclosed' : closed (obs F') (i :: L)).
  { intros j [->|Hj]%elem_of_cons.
    - exists l. split_and!; [done|apply Hb|]. intros p Hp. split; [right; by apply Hparent|].
      rewrite Hlk by (by apply Hparent). by apply Hb.
    - destruct (Hc j Hj) as (lj & Hlj & Hpos & Hpar). exists lj. rewrite Hlk by done. split_and!; [done..|].
      intros p Hp. destruct (Hpar p Hp) as (HpL & lp & Hlp & Hdp). split; [by right|]. exists lp. by rewrite Hlk. }
  assert (Hbi : backings (obs F') (i :: L) = option_list (backing_of l) ++ backings (obs F) L).
  { transitivity (option_list (backing_charge (obs F') i) ++ backings (obs F') L).
    { unfold backings. simpl. by destruct (backing_charge (obs F') i). }
    f_equal; [unfold backing_charge; by rewrite Hli|]. unfold backings.
    apply list_omap_ext, Forall_Forall2_diag, Forall_forall. intros j Hj. unfold backing_charge. by rewrite Hlk. }
  assert (Hown : ∀ c, c ∈ C ++ backings (obs F') (i :: L) → ch_level c ∈ L).
  { intros c. rewrite Hbi, !elem_of_app. intros [Hc'|[Hc'|Hc']]; [by apply HCL| |by eapply backing_owner].
    apply Ho, elem_of_app. by left. }
  assert (Hu : ∀ sel j, used (obs F') sel (C ++ backings (obs F') (i :: L)) j =
    used (obs F) sel ((option_list (backing_of l) ++ C) ++ backings (obs F) L) j).
  { intros sel j. rewrite (used_agree (obs F)) by (intros c Hc'; by apply Hpath, Hown). apply used_perm.
    rewrite Hbi, (Permutation_app_comm (option_list _) C), app_assoc. done. }
  assert (Hzero : ∀ sel, used (obs F') sel (C ++ backings (obs F') (i :: L)) i = 0).
  { intros sel. rewrite (used_agree (obs F)) by (intros c Hc'; by apply Hpath, Hown). by apply (used_elsewhere _ _ _ _ L). }
  split; try done.
  - intros j lj. rewrite Hobs. destruct (decide (j = i)) as [->|]; [rewrite lookup_insert_eq; intros [= <-]; apply Hb|].
    rewrite lookup_insert_ne by done. apply Hw.
  - intros j lj. rewrite Hobs. destruct (decide (j = i)) as [->|]; [rewrite lookup_insert_eq; intros [= <-]; apply Hb|].
    rewrite lookup_insert_ne by done. apply Hd.
  - intros j lj [->|Hj]%elem_of_cons Hjl.
    + rewrite Hli in Hjl. injection Hjl as <-. destruct Hb as [B1 B2 B3 [W1 W2 W3 W4] B5 B6 B7 B8 B9 B10].
      split; rewrite ?Hzero, ?B1, ?B2, ?B3; try done; try lia.
      * assert (count H i = 0%nat) as Hz.
        { unfold count. destruct (filter (λ j, j = i) H) as [|k ks] eqn:Hf; [done|].
          assert (k ∈ filter (λ j, j = i) H) as [-> Hk]%list_elem_of_filter by (rewrite Hf; left). by apply HHL in Hk. }
        assert (children (obs F') (i :: L) i = 0%nat) as ->.
        { unfold children. destruct (filter _ (i :: L)) as [|k ks] eqn:Hf; [done|].
          assert (k ∈ filter (child_of (obs F') i) (i :: L)) as [Hk Hin]%list_elem_of_filter by (rewrite Hf; left).
          destruct Hi. unfold child_of in Hk. apply elem_of_cons in Hin as [->|Hin].
          - rewrite Hli in Hk. by apply Hparent.
          - rewrite Hlk in Hk by done. destruct (Hc k Hin) as (lk & Hlk' & _ & Hpk). rewrite Hlk' in Hk. by apply (Hpk i). }
        unfold count in *. rewrite filter_cons_True by done. simpl. rewrite Hz. done.
      * intros He. destruct (B6 He). split; [done|lia].
    + rewrite Hlk in Hjl by done. destruct (Hl j lj Hj Hjl) as [H1 H2 H3 H4 H5 H6 H7 H8 H9 H10].
      split; rewrite ?Hu; try done. rewrite H3. f_equal. unfold children, count.
      assert (Hne : i ≠ j) by (by intros ->). rewrite (filter_cons_False (λ k, k = j)) by done.
      assert (Hchild : child_of (obs F') j i ↔ lv_parent l = Some j) by (unfold child_of; by rewrite Hli).
      assert (Hrest : filter (child_of (obs F') j) L = filter (child_of (obs F) j) L).
      { apply filter_agree. intros k Hk. unfold child_of. by rewrite Hlk. }
      rewrite filter_app, length_app. destruct (decide (lv_parent l = Some j)) as [Hp|Hp].
      * rewrite (filter_cons_True (child_of (obs F') j)), Hrest, Hp by tauto. simpl option_list.
        rewrite filter_cons_True by done. simpl. lia.
      * rewrite (filter_cons_False (child_of (obs F') j)), Hrest by tauto.
        destruct (lv_parent l) as [p|]; simpl option_list; [|done]. rewrite filter_cons_False by congruence. done.
  - intros j [->|Hj]%elem_of_cons; [left|right; by apply HHL].
  - intros c Hc'. right. by apply HCL.
Qed.
