(* ===== verification/BudgetRuns.v ===== *)
(** * Runs of the memory budget

    The operations of a budget as its owners call them: every handle and every
    permit that exists, whatever order they are made, resized and dropped in.
    The accounts stay balanced, refusals change nothing, and once every owner
    is gone every level has ended. *)
From stdpp Require Import prelude gmap strings list.
From Stdlib Require Import NArith.
From S2P Require Import Prelude Fallible Budget BudgetLaws BudgetAccounts.
#[local] Open Scope N_scope.

(** ** Owners *)
Definition permit_charge (a : Allocation) : Charge :=
  {| ch_level := al_level a; ch_lane := al_lane a; ch_bytes := al_bytes a |}.
Definition charges_of (P : list Allocation) : list Charge := permit_charge <$> filter (λ a, al_bytes a ≠ 0) P.
(** A permit without bytes holds its level. *)
Definition holds_of (B : list N) (P : list Allocation) : list N :=
  B ++ (al_level <$> filter (λ a, al_bytes a = 0) P).
Definition balanced (F : Levels) (B : list N) (P : list Allocation) : Prop :=
  ∃ L, accounts F L (holds_of B P) (charges_of P) ∧ ∀ i, i ∈ L → alive F i.

(** ** Replacing charges *)
Lemma accounts_charges F L H C C' : accounts F L H C → (∀ c, c ∈ C' → ch_level c ∈ L) →
  (∀ sel i, used (obs F) sel C' i = used (obs F) sel C i) → accounts F L H C'.
Proof.
  intros [Ht Hs Hn Hc Hw Hd Hl Hh Ho] Hown Hu. split; try done. intros i l Hi Hil.
  destruct (Hl i l Hi Hil) as [H1 H2 H3 H4 H5 H6 H7 H8 H9 H10].
  assert (Hu' : ∀ sel, used (obs F) sel (C' ++ backings (obs F) L) i = used (obs F) sel (C ++ backings (obs F) L) i)
    by (intros sel; by rewrite !used_app, Hu).
  split; rewrite ?Hu'; done.
Qed.
Lemma weight_merge m sel i level lane a b :
  weight m sel i {| ch_level := level; ch_lane := lane; ch_bytes := a + b |} =
  weight m sel i {| ch_level := level; ch_lane := lane; ch_bytes := a |} +
  weight m sel i {| ch_level := level; ch_lane := lane; ch_bytes := b |}.
Proof. unfold weight. simpl. case_decide; [|done]. by destruct (sel lane). Qed.
Lemma weight_zero m sel i level lane : weight m sel i {| ch_level := level; ch_lane := lane; ch_bytes := 0 |} = 0.
Proof. unfold weight. simpl. case_decide; [|done]. by destruct (sel lane). Qed.
Lemma accounts_merge F L H C level lane a b : 
  accounts F L H ({| ch_level := level; ch_lane := lane; ch_bytes := a |} ::
                  {| ch_level := level; ch_lane := lane; ch_bytes := b |} :: C) ↔
  accounts F L H ({| ch_level := level; ch_lane := lane; ch_bytes := a + b |} :: C).
Proof.
  split; intros Ha; pose proof (ac_owners _ _ _ _ Ha _ ltac:(left)) as Hlevel; (eapply accounts_charges; [exact Ha| |]).
  - intros c [->|Hc]%elem_of_cons; [exact Hlevel|]. eapply (ac_owners _ _ _ _ Ha). right. by right.
  - intros sel i. rewrite !used_cons, weight_merge. lia.
  - intros c Hc. apply elem_of_cons in Hc as [->|[->|Hc]%elem_of_cons]; [exact Hlevel..|].
    eapply (ac_owners _ _ _ _ Ha). by right.
  - intros sel i. rewrite !used_cons, weight_merge. lia.
Qed.
Lemma accounts_zero F L H C level lane :
  accounts F L H ({| ch_level := level; ch_lane := lane; ch_bytes := 0 |} :: C) → accounts F L H C.
Proof.
  intros Ha. eapply accounts_charges; [exact Ha| |].
  - intros c Hc. eapply (ac_owners _ _ _ _ Ha). by right.
  - intros sel i. rewrite used_cons, weight_zero. lia.
Qed.
Lemma charges_nonzero P c : c ∈ charges_of P → ch_bytes c ≠ 0.
Proof. unfold charges_of. intros (a & -> & [Ha _]%list_elem_of_filter)%list_elem_of_fmap. done. Qed.

(** ** Ending what an operation leaves idle *)
Lemma end_level_balances F L H C i l :
  accounts F L H C → (∀ c, c ∈ C → ch_bytes c ≠ 0) → i ∈ L → obs F !! i = Some l →
  (∀ j, j ∈ L → j ≠ i → alive F j) →
  ∃ L', accounts (end_level i (lv_state l) F) L' H C ∧ ∀ j, j ∈ L' → alive (end_level i (lv_state l) F) j.
Proof.
  intros Ha Hnz Hi Hl Halive. destruct (end_walk_spec MAX_DEPTH F L H C i l) as (L' & Ha' & Hal & _); [done..| |done|].
  - by eapply (ac_depth _ _ _ _ Ha).
  - by exists L'.
Qed.
Lemma release_hold_balances F L H C i :
  accounts F L (i :: H) C → (∀ c, c ∈ C → ch_bytes c ≠ 0) → (∀ j, j ∈ L → alive F j) →
  ∃ L', accounts (release_hold i F) L' H C ∧ ∀ j, j ∈ L' → alive (release_hold i F) j.
Proof.
  intros Ha Hnz Halive. assert (Hi : i ∈ L) by (apply Ha; left). unfold release_hold.
  destruct (ac_closed _ _ _ _ Ha i Hi) as (l & Hl & _). pose proof Hl as Hslot. rewrite obs_lookup in Hslot.
  destruct (slots F !! i) as [l0|] eqn:Hl0; [|done]. apply (inj Some) in Hslot. subst l.
  rewrite (hold_const F i l0 (λ h, wrapping_sub h 1) Hl0). pose proof (accounts_drop_hold F L H C i Ha) as Ha1.
  set (F1 := on_level i (hold_by (λ h, wrapping_sub h 1)) F) in *.
  assert (Hobs1 : obs F1 = alter (hold_by (λ h, wrapping_sub h 1)) i (obs F)) by (by apply obs_on_level).
  assert (Hli : obs F1 !! i = Some (hold_by (λ h, wrapping_sub h 1) (plain l0))) by (by rewrite Hobs1, lookup_alter_eq, Hl).
  assert (Hal : ∀ j, j ∈ L → j ≠ i → alive F1 j).
  { intros j Hj Hne. destruct (Halive j Hj) as (lj & Hlj & Ha'). exists lj. by rewrite Hobs1, lookup_alter_ne. }
  case_decide as Hone.
  - by apply (end_level_balances F1 L H C i _ Ha1 Hnz Hi Hli Hal).
  - exists L. split; [done|]. intros j Hj. destruct (decide (j = i)) as [->|]; [|by apply Hal].
    eexists. split; [exact Hli|]. left. simpl.
    pose proof (la_holds _ _ _ _ _ _ (ac_levels _ _ _ _ Ha i _ Hi Hl)) as Hh. simpl in Hh.
    unfold count in Hh. rewrite filter_cons_True in Hh by done. simpl in Hh. rewrite wrapping_sub_le by lia. lia.
Qed.
Lemma idle_on_cons bytes m i l p : m !! i = Some l →
  idle_on bytes m (i :: p) = (if leaves_idle bytes l then [(i, lv_state l)] else []) ++ idle_on bytes m p.
Proof. intros Hl. unfold idle_on. simpl. rewrite Hl. simpl. by destruct (leaves_idle bytes l). Qed.
(** Only the level the charge was taken at can be left idle: every other level
    of its path has the one below as a child. *)
Lemma idle_on_head F L H C level lane bytes l :
  accounts F L H ({| ch_level := level; ch_lane := lane; ch_bytes := bytes |} :: C) → obs F !! level = Some l →
  idle_on bytes (obs F) (path (obs F) level) = if leaves_idle bytes l then [(level, lv_state l)] else [].
Proof.
  intros Ha Hl. assert (Hlevel : level ∈ L) by (apply (ac_owners _ _ _ _ Ha {| ch_level := level; ch_lane := lane; ch_bytes := bytes |}); left).
  pose proof (path_nodup MAX_DEPTH _ _ _ (ac_closed _ _ _ _ Ha) Hlevel) as Hnd. fold (path (obs F) level) in Hnd.
  assert (Hpath : ∃ rest, path (obs F) level = level :: rest).
  { unfold path. cbn [path_from MAX_DEPTH]. rewrite Hl. by eexists. }
  destruct Hpath as [rest Hpath].
  assert (Hrest : ∀ k, k ∈ rest → ∃ lk, obs F !! k = Some lk ∧ lv_holds lk ≠ 0).
  { intros k Hk. assert (Hkp : k ∈ path (obs F) level) by (rewrite Hpath; by right).
    assert (Hne : k ≠ level) by (intros ->; rewrite Hpath in Hnd; by inversion_clear Hnd).
    destruct (path_child _ _ _ _ Hkp Hne) as (j & Hj & Hc).
    assert (Hin : ∀ x, x ∈ path (obs F) level → x ∈ L) by (intros x Hx; eapply path_closed; [apply Ha|exact Hlevel|exact Hx]).
    destruct (ac_closed _ _ _ _ Ha k (Hin k Hkp)) as (lk & Hlk & _). exists lk. split; [done|].
    rewrite (la_holds _ _ _ _ _ _ (ac_levels _ _ _ _ Ha k lk (Hin k Hkp) Hlk)). intros Hz.
    apply (filter_length_0 (child_of (obs F) k) L j); [unfold children in Hz; lia|by apply Hin|done]. }
  rewrite Hpath, (idle_on_cons _ _ _ _ _ Hl). 
  assert (Hnone : idle_on bytes (obs F) rest = []).
  { clear Hpath Hnd. induction rest as [|k rest IH]; [done|]. destruct (Hrest k ltac:(left)) as (lk & Hlk & Hh).
    rewrite (idle_on_cons _ _ _ _ _ Hlk), IH by (intros j Hj; apply Hrest; by right).
    unfold leaves_idle. rewrite (bool_decide_false (lv_holds lk = 0)) by done. by rewrite andb_false_r. }
  by rewrite Hnone, app_nil_r.
Qed.
Lemma drop_charge_balances F L H C level lane bytes kind :
  accounts F L H ({| ch_level := level; ch_lane := lane; ch_bytes := bytes |} :: C) →
  (∀ c, c ∈ C → ch_bytes c ≠ 0) → (∀ j, j ∈ L → alive F j) →
  let F' := let '(ended, F1) := release_tree level kind lane bytes F in end_all ended F1 in
  ∃ L', accounts F' L' H C ∧ ∀ j, j ∈ L' → alive F' j.
Proof.
  intros Ha Hnz Halive.
  assert (Hlevel : level ∈ L) by (apply (ac_owners _ _ _ _ Ha {| ch_level := level; ch_lane := lane; ch_bytes := bytes |}); left).
  destruct (ac_closed _ _ _ _ Ha level Hlevel) as (l & Hl & _).
  destruct (accounts_release F L H level lane bytes kind C Ha) as (Ha' & Hended & Hobs & _ & _).
  assert (Hal : ∀ j, j ∈ L → j ≠ level → alive (release_tree level kind lane bytes F).2 j).
  { intros j Hj Hne. by eapply release_alive; [done..|apply Halive]. }
  destruct (release_tree level kind lane bytes F) as [ended F1]. cbn [fst snd] in *. rewrite Hended, (idle_on_head F L H C level lane bytes l Ha Hl).
  assert (Hnd : NoDup (path (obs F) level)) by (eapply path_nodup; [apply Ha|done]).
  assert (Hin : level ∈ path (obs F) level) by (unfold path; cbn [path_from MAX_DEPTH]; rewrite Hl; left).
  assert (Hl1 : obs F1 !! level = Some (uncharge lane bytes l)) by (by rewrite Hobs, on_path_lookup, decide_True, Hl).
  pose proof (ac_levels _ _ _ _ Ha level l Hlevel Hl) as Hla.
  pose proof (accounts_charged F L H level lane bytes _ level l Ha ltac:(left) Hlevel Hin Hl) as [Hch _ _].
  destruct (leaves_idle bytes l) eqn:Hidle; simpl.
  - by apply (end_level_balances F1 L H C level (uncharge lane bytes l)).
  - exists L. split; [done|]. intros j Hj. destruct (decide (j = level)) as [->|]; [|by apply Hal].
    eexists. split; [exact Hl1|]. simpl. unfold leaves_idle in Hidle. apply andb_false_iff in Hidle as [Hlast|Hh].
    + right. left. destruct (is_elastic (lv_backing l)) eqn:He; apply bool_decide_eq_false in Hlast; [|lia].
      destruct (la_credit _ _ _ _ _ _ Hla He). lia.
    + left. by apply bool_decide_eq_false in Hh.
Qed.

(** ** Reservations *)
Lemma alive_obs F F' i : obs F' !! i = obs F !! i → alive F i → alive F' i.
Proof. intros Ho (l & Hl & Ha). exists l. by rewrite Ho. Qed.
Lemma reserve_tree_balances F L H C level kind lane bytes r F' :
  accounts F L H C → level ∈ L → (∀ j, j ∈ L → alive F j) → reserve_tree level kind lane bytes F = (r, F') →
  (∀ j, j ∈ L → alive F' j) ∧
  match r with
  | Ok _ => accounts F' L H ({| ch_level := level; ch_lane := lane; ch_bytes := bytes |} :: C)
  | Err _ => accounts F' L H C ∧ same F F'
  end.
Proof.
  intros Ha Hlevel Halive Hr. pose proof Ha as [_ _ _ Hc Hw Hd _ _ _].
  pose proof (reserve_tree_spec F L level kind lane bytes Hc Hw Hlevel Hd _ _ Hr) as (Hfr & Hfe & Hspec).
  destruct r as [u|e].
  - destruct Hspec as [Hobs _]. split; [|by eapply accounts_reserve]. intros j Hj.
    destruct (Halive j Hj) as (l & Hl & Hal). unfold alive.
    rewrite Hobs, on_path_lookup, Hl by (by eapply path_nodup). case_decide; [|by exists l].
    exists (charge lane bytes l). split; [done|]. simpl. destruct Hal as [?|[?|?]]; [by left|right; left; lia|right; by right].
  - destruct Hspec as [Hobs _]. split; [|split; [by eapply accounts_refused|done]]. intros j Hj.
    apply (alive_obs F); [by rewrite Hobs|by apply Halive].
Qed.
Definition hold_room (F : Levels) : Prop := ∀ i l, slots F !! i = Some l → lv_holds l < u64_max.
Lemma take_hold_balances F L H C i : accounts F L H C → i ∈ L → (∀ j, j ∈ L → alive F j) → hold_room F →
  accounts (take_hold i F) L (i :: H) C ∧ ∀ j, j ∈ L → alive (take_hold i F) j.
Proof.
  intros Ha Hi Halive Hroom. split; [apply accounts_take_hold; [done..|apply Hroom]|]. intros j Hj.
  destruct (Halive j Hj) as (l & Hl & Hal).
  assert (Hobs : obs (take_hold i F) = alter (hold_by (λ h, wrapping_add h 1)) i (obs F)) by (by apply obs_on_level).
  unfold alive. rewrite Hobs. destruct (decide (j = i)) as [->|Hne]; [|rewrite lookup_alter_ne by done; by exists l].
  rewrite lookup_alter_eq, Hl. eexists. split; [done|]. left. simpl.
  rewrite obs_lookup in Hl. destruct (slots F !! i) as [l0|] eqn:Hl0; [|done]. apply (inj Some) in Hl. subst l.
  simpl. rewrite wrapping_add_fits by (pose proof (Hroom i l0 Hl0); lia). lia.
Qed.
Lemma hold_room_same F F' : same F F' → hold_room F → hold_room F'.
Proof.
  intros (Ho & _ & _) Hr i l Hl. assert (Hp : obs F' !! i = Some (plain l)) by (by rewrite obs_lookup, Hl).
  rewrite Ho, obs_lookup in Hp. destruct (slots F !! i) as [l0|] eqn:Hl0; [|done]. apply (inj Some) in Hp.
  specialize (Hr i l0 Hl0). change (lv_holds l) with (lv_holds (plain l)). rewrite <-Hp. done.
Qed.
Lemma reserve_tree_room F L H C level kind lane bytes u F' : accounts F L H C → level ∈ L →
  reserve_tree level kind lane bytes F = (Ok u, F') → hold_room F → hold_room F'.
Proof.
  intros Ha Hlevel Hr Hroom i l Hl. pose proof Ha as [_ _ _ Hc Hw Hd _ _ _].
  destruct (reserve_tree_spec F L level kind lane bytes Hc Hw Hlevel Hd _ _ Hr) as (_ & _ & Hobs & _).
  assert (Hp : obs F' !! i = Some (plain l)) by (by rewrite obs_lookup, Hl).
  rewrite Hobs, on_path_lookup in Hp by (by eapply path_nodup).
  rewrite obs_lookup in Hp. destruct (slots F !! i) as [l0|] eqn:Hl0; [|by case_decide]. specialize (Hroom i l0 Hl0).
  change (lv_holds l) with (lv_holds (plain l)). case_decide; apply (inj Some) in Hp; rewrite <-Hp; done.
Qed.

(** ** New levels *)
Definition funded_by (f : Funding) : option (BudgetLane * N) :=
  match f with
  | Funding.Unfunded => None
  | Funding.Fixed lane bytes => Some (lane, bytes)
  | Funding.Elastic lane held _ _ => Some (lane, held)
  end.
(** The terms a level may begin under. *)
Record terms_ok (m : gmap N Level) (terms : Terms) (parent : option N) : Prop := {
  to_width : tm_ordinary_limit terms <= u64_max ∧ tm_hold_limit terms <= u64_max;
  to_limits : tm_limit terms <= tm_hold_limit terms;
  to_depth : 1 <= tm_depth terms <= N.of_nat MAX_DEPTH;
  to_parent : ∀ p, parent = Some p → ∃ lp, m !! p = Some lp ∧ tm_depth terms = lv_depth lp + 1;
  to_funding : match tm_funding terms with
    | Funding.Unfunded => True
    | Funding.Fixed lane bytes => parent ≠ None ∧ lane ≠ BudgetLane.Committed ∧ bytes <= u64_max
    | Funding.Elastic lane held available metadata =>
        parent ≠ None ∧ lane ≠ BudgetLane.Committed ∧ held <= u64_max ∧ held = available + metadata
    end
}.
Lemma held_set f : (∀ lane bytes, funded_by f = Some (lane, bytes) → lane ≠ BudgetLane.Committed) →
  held (backing_set f) = funded_by f.
Proof. intros Hl. destruct f as [|[] b|[] h a d]; try done; simpl in Hl; by destruct (Hl _ _ eq_refl). Qed.
Lemma begun_terms m terms parent l0 : terms_ok m terms parent → begun m (plain (level_begin terms parent l0)).
Proof.
  intros [[Hol Hhl] Hlim Hd Hp Hf]. split; try done.
  - split; simpl; [done|lia|done|]. destruct (tm_funding terms) as [|lane b|lane h a d]; simpl; unfold u64_max in *; lia.
  - simpl. destruct (tm_funding terms) as [|[] b|[] h a d]; simpl; try done; intros _; lia.
  - simpl. destruct (tm_funding terms) as [|lane b|lane h a d]; simpl; unfold u64_max in *; lia.
  - simpl. intros ->. destruct (tm_funding terms) as [|lane b|lane h a d]; [done|naive_solver..].
Qed.
Definition backing_terms (terms : Terms) (parent : option N) : option Charge :=
  p ← parent; h ← funded_by (tm_funding terms); Some {| ch_level := p; ch_lane := h.1; ch_bytes := h.2 |}.
Lemma backing_of_terms m terms parent l0 : terms_ok m terms parent →
  backing_of (plain (level_begin terms parent l0)) = backing_terms terms parent.
Proof.
  intros [_ _ _ _ Hf]. unfold backing_of, backing_terms. simpl. destruct parent as [p|]; [|done]. simpl.
  rewrite held_set; [done|]. intros lane bytes. destruct (tm_funding terms); simpl; naive_solver.
Qed.
Lemma take_slot_spec F L H C i F' : accounts F L H C → take_slot F = (Ok i, F') →
  i ∉ L ∧ (∃ l0, slots F' !! i = Some l0) ∧ (∀ j, j ≠ i → slots F' !! j = slots F !! j) ∧
  (∀ j, j < fresh F' ↔ j ∈ (i :: L) ++ free F') ∧ NoDup ((i :: L) ++ free F') ∧
  (∀ j, j < fresh F' ↔ j = i ∨ is_Some (obs F !! j)).
Proof.
  intros [Ht Hs Hn _ _ _ _ _ _] Htake. unfold take_slot in Htake. destruct (free F) as [|k rest] eqn:Hfree.
  - destruct (checked_add (fresh F) 1) as [next|] eqn:Hnext; [|done]. apply checked_add_Some in Hnext as [-> _].
    case_decide; [|done]. injection Htake as <- <-. simpl.
    assert (HiL : fresh F ∉ L) by (intros Hin; assert (fresh F < fresh F) by (apply Hs, elem_of_app; by left); lia).
    rewrite app_nil_r in *. split_and!; [done| | | | |].
    + rewrite lookup_insert_eq. by eexists.
    + intros j Hj. by rewrite lookup_insert_ne.
    + intros j. rewrite elem_of_cons. rewrite <-Hs. lia.
    + by constructor.
    + intros j. rewrite Ht. lia.
  - injection Htake as <- <-. simpl.
    assert (Hk : k ∉ L ∧ NoDup (k :: L ++ rest)).
    { rewrite <-Permutation_middle in Hn. split; [|done]. inversion_clear Hn. set_solver. }
    destruct Hk as [HkL Hn']. assert (Hkf : k < fresh F) by (apply Hs, elem_of_app; right; left).
    split_and!; [done| |done| |done|].
    + apply Ht in Hkf as [l Hl]. rewrite obs_lookup in Hl. destruct (slots F !! k); [by eexists|done].
    + intros j. rewrite Hs. set_solver.
    + intros j. rewrite Ht. split; [by right|]. by intros [->|].
Qed.
Lemma begin_balances F L H C terms parent r F' :
  accounts F L H (option_list (backing_terms terms parent) ++ C) → (∀ j, j ∈ L → alive F j) → hold_room F →
  (∀ p, parent = Some p → p ∈ L) → terms_ok (obs F) terms parent → begin terms parent F = (r, F') →
  match r with
  | Ok i => accounts F' (i :: L) (i :: H) C ∧ ∀ j, j ∈ i :: L → alive F' j
  | Err _ => F' = F
  end.
Proof.
  intros Ha Halive Hroom Hparent Hterms Hb. unfold begin in Hb. unfold mbind, fallible_bind in Hb.
  destruct (take_slot F) as [[i|e] F0] eqn:Htake.
  2: { injection Hb as <- <-. unfold take_slot in Htake. destruct (free F); [|done].
       destruct (checked_add (fresh F) 1); [case_decide|]; by simplify_eq. }
  destruct (take_slot_spec F L H _ i F0 Ha Htake) as (HiL & [l0 Hl0] & Hother & Hslots & Hnd & Htable).
  unfold modify in Hb. cbn [mret fallible_ret] in Hb. injection Hb as <- <-.
  set (Fh := match parent with Some p => take_hold p F | None => F end).
  assert (Hh : accounts Fh L (option_list parent ++ H) (option_list (backing_terms terms parent) ++ C) ∧ ∀ j, j ∈ L → alive Fh j).
  { unfold Fh. destruct parent as [p|]; [|done]. apply take_hold_balances; auto. }
  destruct Hh as [Hah Halh]. set (l := plain (level_begin terms parent l0)).
  set (F2 := on_level i (level_begin terms parent) (match parent with Some p => take_hold p F0 | None => F0 end)).
  assert (Hmid : ∀ j, j ≠ i → slots (match parent with Some p => take_hold p F0 | None => F0 end) !! j = slots Fh !! j).
  { intros j Hj. unfold Fh. destruct parent as [p|]; [|by apply Hother]. simpl. destruct (decide (j = p)) as [->|].
    - rewrite !lookup_alter_eq. by rewrite Hother.
    - rewrite !lookup_alter_ne by done. by apply Hother. }
  assert (Hmi : slots (match parent with Some p => take_hold p F0 | None => F0 end) !! i = Some l0).
  { destruct parent as [p|]; [|done]. simpl. rewrite lookup_alter_ne; [done|]. intros <-. by apply HiL, Hparent. }
  assert (Hobs : obs F2 = <[i := l]> (obs Fh)).
  { apply map_eq. intros j. rewrite obs_lookup. simpl. destruct (decide (j = i)) as [->|Hj].
    - by rewrite lookup_alter_eq, lookup_insert_eq, Hmi.
    - by rewrite lookup_alter_ne, lookup_insert_ne, Hmid, obs_lookup. }
  assert (Hfr : fresh F2 = fresh F0 ∧ free F2 = free F0) by (unfold F2; by destruct parent).
  destruct Hfr as [Hfr Hfe].
  assert (Hterms' : terms_ok (obs Fh) terms parent).
  { destruct Hterms as [T1 T2 T3 T4 T5]. split; try done. intros p Hp. destruct (T4 p Hp) as (lp & Hlp & Hdp).
    unfold Fh, take_hold. rewrite Hp, (obs_on_level F p _ (hold_by (λ h, wrapping_add h 1))) by done.
    rewrite lookup_alter_eq, Hlp. by eexists. }
  split.
  - apply (accounts_insert Fh F2 L H C i l); [|done|by apply begun_terms|done|by rewrite Hfr, Hfe|by rewrite Hfe|].
    + unfold l. by rewrite (backing_of_terms (obs Fh)).
    + intros j. rewrite Hobs, Hfr, Htable. destruct (decide (j = i)) as [->|Hj].
      * rewrite lookup_insert_eq. naive_solver.
      * rewrite lookup_insert_ne by done. rewrite (ac_table _ _ _ _ Hah).
        assert (fresh Fh = fresh F) as Hff by (unfold Fh; by destruct parent). rewrite Hff, <-(ac_table _ _ _ _ Ha). naive_solver.
  - intros j [->|Hj]%elem_of_cons.
    + exists l. split; [by rewrite Hobs, lookup_insert_eq|]. by left.
    + apply (alive_obs Fh); [|by apply Halh]. rewrite Hobs, lookup_insert_ne; [done|]. by intros ->.
Qed.

(** ** Resizing a pool *)
Lemma accounts_backing F L H C C' i l b :
  accounts F L H C → i ∈ L → obs F !! i = Some l → is_elastic (lv_backing l) = true →
  bk_funding b = bk_funding (lv_backing l) → bk_held b <= u64_max → bk_metadata b <= bk_held b →
  bk_available b + lv_total l = bk_held b - bk_metadata b → (∀ c, c ∈ C' → ch_level c ∈ L) →
  let l' := on_backing (λ _, b) l in
  (∀ sel j, used (obs F) sel (C' ++ option_list (backing_of l')) j = used (obs F) sel (C ++ option_list (backing_of l)) j) →
  accounts (on_level i (on_backing (λ _, b)) F) L H C'.
Proof.
  intros Ha Hi Hil Hel Hfund Hheld Hmeta Hcred Hown l' Hu.
  apply elem_of_Permutation in Hi as [L1 HL]. apply (accounts_perm _ (i :: L1) L H H C' C'); [by symmetry|done..|].
  apply (accounts_perm _ L (i :: L1) H H C C HL (Permutation_refl _) (Permutation_refl _)) in Ha.
  pose proof Ha as [Ht Hs Hn Hc Hw Hd Hl Hh Ho].
  assert (HiL : i ∉ L1) by (inversion_clear Hn; set_solver).
  set (f := on_backing (λ _, b)). set (F' := on_level i f F).
  assert (Hobs : obs F' = alter f i (obs F)) by (by apply obs_on_level).
  assert (Hli : obs F' !! i = Some l') by (by rewrite Hobs, lookup_alter_eq, Hil).
  assert (Hlk : ∀ j, j ∈ L1 → obs F' !! j = obs F !! j) by (intros j Hj; rewrite Hobs, lookup_alter_ne; [done|by intros ->]).
  assert (Hplace : ∀ j lj, obs F' !! j = Some lj → ∃ l0, obs F !! j = Some l0 ∧ lv_parent lj = lv_parent l0 ∧
    bk_funding (lv_backing lj) = bk_funding (lv_backing l0) ∧ lv_depth lj = lv_depth l0 ∧
    (j ≠ i → lj = l0) ∧ (j = i → lj = l')).
  { intros j lj. rewrite Hobs. destruct (decide (j = i)) as [->|Hne].
    - rewrite lookup_alter_eq, Hil. intros [= <-]. exists l. done.
    - rewrite lookup_alter_ne by done. intros Hlj. by exists lj. }
  assert (Hpath : ∀ n j, path_from n (obs F') j = path_from n (obs F) j).
  { intros n. rewrite Hobs. induction n as [|n IH]; intros j; [done|]. cbn [path_from].
    destruct (decide (j = i)) as [->|Hne]; [|rewrite lookup_alter_ne by done; destruct (obs F !! j) as [lj|]; [|done]].
    - rewrite lookup_alter_eq, Hil. cbn [fmap option_fmap option_map f on_backing with_usage lv_parent lv_backing].
      unfold backing_lane. rewrite (funding_code b (lv_backing l) Hfund).
      destruct (lv_parent l), (funding (lv_backing l)).1; by rewrite ?IH.
    - destruct (lv_parent lj), (backing_lane (lv_backing lj)); by rewrite ?IH. }
  assert (Hbs : backings (obs F') (i :: L1) = option_list (backing_of l') ++ backings (obs F) L1).
  { transitivity (option_list (backing_charge (obs F') i) ++ backings (obs F') L1).
    { unfold backings. simpl. by destruct (backing_charge (obs F') i). }
    f_equal; [unfold backing_charge; by rewrite Hli|]. unfold backings.
    apply list_omap_ext, Forall_Forall2_diag, Forall_forall. intros j Hj. unfold backing_charge. by rewrite Hlk. }
  assert (Hbs0 : backings (obs F) (i :: L1) = option_list (backing_of l) ++ backings (obs F) L1).
  { transitivity (option_list (backing_charge (obs F) i) ++ backings (obs F) L1).
    { unfold backings. simpl. by destruct (backing_charge (obs F) i). }
    f_equal. unfold backing_charge. by rewrite Hil. }
  assert (Hused : ∀ sel j, used (obs F') sel (C' ++ backings (obs F') (i :: L1)) j =
    used (obs F) sel (C ++ backings (obs F) (i :: L1)) j).
  { intros sel j. rewrite (used_agree (obs F)) by (intros c _; apply Hpath).
    rewrite Hbs, Hbs0, !app_assoc, !(used_app _ _ (_ ++ option_list _)). by rewrite Hu. }
  assert (Hchildren : ∀ j, children (obs F') (i :: L1) j = children (obs F) (i :: L1) j).
  { intros j. unfold children. f_equal. apply list_filter_iff. intros k. unfold child_of. rewrite Hobs.
    destruct (decide (k = i)) as [->|]; [by rewrite lookup_alter_eq, Hil|by rewrite lookup_alter_ne]. }
  split.
  - intros j. change (fresh F') with (fresh F). rewrite <-Ht, Hobs.
    destruct (decide (j = i)) as [->|]; [rewrite lookup_alter_eq; apply fmap_is_Some|by rewrite lookup_alter_ne].
  - done.
  - done.
  - intros j Hj. destruct (Hc j Hj) as (lj & Hlj & Hpos & Hpar).
    assert (Hsome : ∀ k lk, obs F !! k = Some lk → ∃ lk', obs F' !! k = Some lk' ∧ lv_parent lk' = lv_parent lk ∧ lv_depth lk' = lv_depth lk).
    { intros k lk Hk. rewrite Hobs. destruct (decide (k = i)) as [->|]; [rewrite lookup_alter_eq, Hk|rewrite lookup_alter_ne, Hk by done]; by eexists. }
    destruct (Hsome j lj Hlj) as (lj' & Hlj' & Hp' & Hd'). exists lj'. rewrite Hp', Hd'. split_and!; [done..|].
    intros p Hp. destruct (Hpar p Hp) as (HpL & lp & Hlp & Hdp). split; [done|].
    destruct (Hsome p lp Hlp) as (lp' & Hlp' & _ & Hdp'). exists lp'. by rewrite Hdp'.
  - intros j lj Hjl. destruct (Hplace j lj Hjl) as (l0 & Hl0 & _ & _ & _ & Hne & Heq). destruct (decide (j = i)) as [->|Hji].
    + rewrite Heq by done. destruct (Hw i l Hil) as [W1 W2 W3 W4]. split; simpl; [done..|]. lia.
    + rewrite Hne by done. by eapply Hw.
  - intros j lj Hjl. destruct (Hplace j lj Hjl) as (l0 & Hl0 & _ & _ & -> & _). by eapply Hd.
  - intros j lj Hj Hjl. destruct (Hplace j lj Hjl) as (l0 & Hl0 & _ & _ & _ & Hne & Heq).
    destruct (Hl j l0 Hj Hl0) as [H1 H2 H3 H4 H5 H6 H7 H8 H9 H10]. destruct (decide (j = i)) as [->|Hji].
    + rewrite Heq by done. assert (l0 = l) as -> by congruence.
      split; rewrite ?Hused, ?Hchildren; try done.
      simpl. unfold backing_lane in *. by rewrite (funding_code b (lv_backing l) Hfund).
    + rewrite Hne by done. split; rewrite ?Hused, ?Hchildren; done.
  - done.
  - intros c Hc'. rewrite <-HL. by apply Hown.
Qed.
Lemma on_level_twice i f g F : on_level i g (on_level i f F) = on_level i (λ l, g (f l)) F.
Proof. unfold on_level, on_slots. simpl. f_equal. apply map_eq. intros j. destruct (decide (j = i)) as [->|].
  - rewrite !lookup_alter_eq. by destruct (slots F !! i).
  - by rewrite !lookup_alter_ne.
Qed.
Lemma on_level_const i f g F l : slots F !! i = Some l → f l = g l → on_level i f F = on_level i g F.
Proof.
  intros Hl Hfg. unfold on_level, on_slots. f_equal. apply map_eq. intros j. destruct (decide (j = i)) as [->|].
  - rewrite !lookup_alter_eq, Hl. simpl. by rewrite Hfg.
  - by rewrite !lookup_alter_ne.
Qed.
Lemma owner_alive F L H C i : accounts F L H C → i ∈ H ∨ (∃ c, c ∈ C ∧ ch_level c = i ∧ ch_bytes c ≠ 0) → alive F i.
Proof.
  intros Ha Hown. assert (Hi : i ∈ L) by (destruct Hown as [?|(c & Hc & <- & _)];
    [by apply (ac_holders _ _ _ _ Ha)|by apply (ac_owners _ _ _ _ Ha)]).
  destruct (ac_closed _ _ _ _ Ha i Hi) as (l & Hl & _). exists l. split; [done|].
  pose proof (ac_levels _ _ _ _ Ha i l Hi Hl) as [H1 _ H3 _ _ _ _ _ _ _].
  destruct Hown as [HiH|(c & Hc & Hci & Hnz)].
  - left. rewrite H3. intros Hz. apply (count_0 H i); [lia|done].
  - right. left. rewrite H1.
    assert (Hge := used_ge (obs F) every c (C ++ backings (obs F) L) i ltac:(apply elem_of_app; by left)).
    unfold weight in Hge at 1. rewrite Hci, decide_True in Hge.
    + change (every (ch_lane c)) with true in Hge. cbn iota in Hge. lia.
    + unfold path. cbn [path_from MAX_DEPTH]. rewrite Hl. left.
Qed.
Lemma pool_level_pure pool F : (pool_level pool F).2 = F.
Proof.
  unfold pool_level. destruct (slots F !! pool) as [l|]; [|done]. destruct (is_elastic _); [|done].
  destruct (lv_parent l); [|done]. by destruct (backing_lane _).
Qed.
(** The part of a pool that is being resized. *)
Section pool.
Context (F : Levels) (L H : list N) (C : list Charge) (pool : N) (l : Level) (p : N) (lane : BudgetLane) (bytes : N).
Context (Hpool : pool_level pool F = (Ok (l, p, lane), F)).
Lemma pool_level_ok : slots F !! pool = Some l ∧ is_elastic (lv_backing l) = true ∧ lv_parent l = Some p ∧
  backing_lane (lv_backing l) = Some lane.
Proof using Hpool.
  unfold pool_level in Hpool. destruct (slots F !! pool) as [l0|]; [|done].
  destruct (is_elastic (lv_backing l0)) eqn:He; [|done]. destruct (lv_parent l0) as [q|] eqn:Hq; [|done].
  destruct (backing_lane (lv_backing l0)) as [ln|] eqn:Hln; [|done]. injection Hpool as -> -> ->. done.
Qed.
Lemma pool_backing h : is_elastic (lv_backing l) = true → bk_funding h = bk_funding (lv_backing l) →
  backing_of (on_backing (λ _, h) (plain l)) = Some {| ch_level := p; ch_lane := lane; ch_bytes := bk_held h |}.
Proof using Hpool.
  intros He Hf. destruct pool_level_ok as (_ & _ & Hp & Hl). unfold backing_of. simpl. rewrite Hp. simpl.
  unfold held, backing_lane in *. by rewrite (funding_code h (lv_backing l) Hf), Hl.
Qed.
End pool.
Lemma plain_backing f l : plain (on_backing f l) = on_backing f (plain l).
Proof. done. Qed.
Lemma pool_grow_balances F L H C pool bytes r F' :
  accounts F L H C → pool ∈ L → (∀ j, j ∈ L → alive F j) → pool_grow pool bytes F = (r, F') →
  accounts F' L H C ∧ ∀ j, j ∈ L → alive F' j.
Proof.
  intros Ha HpL Halive Hr. unfold pool_grow in Hr. unfold mbind, fallible_bind in Hr.
  pose proof (pool_level_pure pool F) as Hpure.
  destruct (pool_level pool F) as [[[[l p] lane]|e] F0] eqn:Hpl; simpl in Hpure; subst F0; [|by injection Hr as <- <-].
  destruct (pool_level_ok F pool l p lane Hpl) as (Hl & He & Hp & Hlane).
  assert (Hobs : obs F !! pool = Some (plain l)) by (by rewrite obs_lookup, Hl).
  destruct (ac_closed _ _ _ _ Ha pool HpL) as (l' & Hl' & _ & Hpar). rewrite Hobs in Hl'. injection Hl' as <-.
  destruct (Hpar p Hp) as (HparL & lp & Hlp & Hdep).
  destruct (la_credit _ _ _ _ _ _ (ac_levels _ _ _ _ Ha pool _ HpL Hobs) He) as [Hmeta Hcred]. simpl in Hmeta, Hcred.
  unfold lift in Hr.
  destruct (or_fail (checked_sub (bk_held (lv_backing l)) (bk_metadata (lv_backing l))) _) as [cap|e]; [|by injection Hr as <- <-].
  destruct (charge_add cap bytes) as [nc|e]; [|by injection Hr as <- <-].
  destruct (refuse_if (lv_limit l < nc) _) as [u|e]; [|by injection Hr as <- <-].
  destruct (charge_add (bk_held (lv_backing l)) bytes) as [nh|e] eqn:Hnh; [|by injection Hr as <- <-].
  unfold charge_add in Hnh. apply or_fail_ok, checked_add_Some in Hnh as [-> Hnh].
  destruct (reserve_tree p BudgetKind.Reserved lane bytes F) as [[u'|e] F1] eqn:Hres;
    destruct (reserve_tree_balances F L H C p BudgetKind.Reserved lane bytes _ _ Ha HparL Halive Hres) as [Hal1 Ha1].
  2: { injection Hr as <- <-. by destruct Ha1. }
  unfold modify in Hr. injection Hr as <- <-.
  assert (Hpath : pool ∉ path (obs F) p).
  { intros Hin. destruct (path_depth _ _ _ _ _ _ (ac_closed _ _ _ _ Ha) HparL Hin Hlp) as (lq & Hlq & Hle).
    rewrite Hobs in Hlq. injection Hlq as <-. lia. }
  assert (Hobs1 : obs F1 !! pool = Some (plain l)).
  { destruct (reserve_tree_spec F L p BudgetKind.Reserved lane bytes (ac_closed _ _ _ _ Ha) (ac_wide _ _ _ _ Ha) HparL
      (ac_depth _ _ _ _ Ha) _ _ Hres) as (_ & _ & Ho & _).
    rewrite Ho, on_path_lookup, decide_False; [done|done|]. eapply path_nodup; [apply Ha|done]. }
  set (b := set_available (bk_available (lv_backing l) + bytes) (set_held (bk_held (lv_backing l) + bytes) (lv_backing l))).
  rewrite on_level_twice.
  assert (Hsame : ∀ f, (∀ l1, lv_backing l1 = lv_backing l → f l1 = on_backing (λ _, b) l1) →
    on_level pool f F1 = on_level pool (on_backing (λ _, b)) F1).
  { intros f Hf. pose proof Hobs1 as Hs1. rewrite obs_lookup in Hs1. destruct (slots F1 !! pool) as [l1|] eqn:Hl1; [|done].
    apply (inj Some) in Hs1. apply (on_level_const _ _ _ _ l1 Hl1), Hf.
    change (lv_backing (plain l1) = lv_backing (plain l)). by rewrite Hs1. }
  rewrite Hsame. 2: { intros l1 Hb1. unfold on_backing. cbn. rewrite Hb1, wrapping_add_fits by lia. done. }
  split.
  - apply (accounts_backing F1 L H _ C pool (plain l) b Ha1 HpL Hobs1); try done.
    + cbn. lia.
    + cbn. lia.
    + intros c Hc. eapply (ac_owners _ _ _ _ Ha1). by right.
    + intros sel j. rewrite (pool_backing F pool l p lane Hpl b) by done.
      assert (Hold : backing_of (plain l) = Some {| ch_level := p; ch_lane := lane; ch_bytes := bk_held (lv_backing l) |}).
      { unfold backing_of, held. simpl. rewrite Hp. simpl. by rewrite Hlane. }
      rewrite Hold. cbn [option_list option_rect app b set_available set_held bk_held].
      rewrite used_cons, !used_app, !used_cons, weight_merge. lia.
  - intros j Hj. destruct (Hal1 j Hj) as (lj & Hlj & Hal). unfold alive.
    rewrite (obs_on_level F1 pool _ (on_backing (λ _, b))) by done.
    destruct (decide (j = pool)) as [->|]; [rewrite lookup_alter_eq, Hlj|rewrite lookup_alter_ne by done; by exists lj].
    eexists. split; [done|]. done.
Qed.
Lemma trim_balances F L H C pool bytes r F' :
  accounts F L H C → pool ∈ L → (∀ j, j ∈ L → alive F j) → trim_unused pool bytes F = (r, F') →
  accounts F' L H C ∧ ∀ j, j ∈ L → alive F' j.
Proof.
  intros Ha HpL Halive Hr. unfold trim_unused in Hr. unfold mbind, fallible_bind in Hr.
  pose proof (pool_level_pure pool F) as Hpure.
  destruct (pool_level pool F) as [[[[l p] lane]|e] F0] eqn:Hpl; simpl in Hpure; subst F0; [|by injection Hr as <- <-].
  destruct (pool_level_ok F pool l p lane Hpl) as (Hl & He & Hp & Hlane).
  assert (Hobs : obs F !! pool = Some (plain l)) by (by rewrite obs_lookup, Hl).
  destruct (ac_closed _ _ _ _ Ha pool HpL) as (l' & Hl' & _ & Hpar). rewrite Hobs in Hl'. injection Hl' as <-.
  destruct (Hpar p Hp) as (HparL & lp & Hlp & Hdep).
  pose proof (ac_levels _ _ _ _ Ha pool _ HpL Hobs) as Hla. pose proof (la_held _ _ _ _ _ _ Hla) as Hheld.
  destruct (la_credit _ _ _ _ _ _ Hla He) as [Hmeta Hcred]. simpl in Hmeta, Hcred, Hheld.
  unfold lift in Hr. destruct (match checked_sub (bk_held (lv_backing l)) bytes with Some _ => _ | None => _ end) as [nh|e] eqn:Hnh;
    [|by injection Hr as <- <-].
  destruct (checked_sub (bk_held (lv_backing l)) bytes) as [rem|] eqn:Hrem; [|done]. apply checked_sub_Some in Hrem as [Hble ->].
  case_decide as Hmr; [|done]. injection Hnh as <-.
  destruct (acquire bytes (lv_backing l)) as [b1|e] eqn:Hacq; [|by injection Hr as <- <-].
  unfold acquire in Hacq. destruct (checked_sub (bk_available (lv_backing l)) bytes) as [av|] eqn:Hav; [|done].
  apply checked_sub_Some in Hav as [Hba ->]. injection Hacq as <-.
  unfold modify in Hr. injection Hr as <- <-.
  set (b := set_held (bk_held (lv_backing l) - bytes) (set_available (bk_available (lv_backing l) - bytes) (lv_backing l))).
  set (F1 := on_level pool (on_backing (λ _, b)) F).
  assert (Ha1 : accounts F1 L H ({| ch_level := p; ch_lane := lane; ch_bytes := bytes |} :: C)).
  { apply (accounts_backing F L H C _ pool (plain l) b Ha HpL Hobs); try done.
    - cbn. lia.
    - cbn. lia.
    - intros c [->|Hc]%elem_of_cons; [done|]. by apply (ac_owners _ _ _ _ Ha).
    - intros sel j. rewrite (pool_backing F pool l p lane Hpl b) by done.
      assert (Hold : backing_of (plain l) = Some {| ch_level := p; ch_lane := lane; ch_bytes := bytes + (bk_held (lv_backing l) - bytes) |}).
      { unfold backing_of, held. simpl. rewrite Hp. simpl. rewrite Hlane. simpl. do 2 f_equal. lia. }
      rewrite Hold. cbn [option_list option_rect app b set_available set_held bk_held].
      rewrite used_cons, !used_app, !used_cons, weight_merge. lia. }
  assert (Hal1 : ∀ j, j ∈ L → alive F1 j).
  { intros j Hj. destruct (Halive j Hj) as (lj & Hlj & Hal). unfold alive, F1.
    rewrite (obs_on_level F pool _ (on_backing (λ _, b))) by done.
    destruct (decide (j = pool)) as [->|]; [rewrite lookup_alter_eq, Hlj|rewrite lookup_alter_ne by done; by exists lj].
    eexists. split; [done|]. done. }
  destruct (accounts_release F1 L H p lane bytes BudgetKind.Reserved C Ha1) as (Ha2 & _ & Hobs2 & _). split; [done|].
  intros j Hj. destruct (decide (j = p)) as [->|Hne]; [|by eapply release_alive; [done..|apply Hal1]].
  apply (parent_held _ L H C p pool Ha2 HparL HpL). unfold child_of. rewrite Hobs2.
  rewrite on_path_lookup by (eapply path_nodup; [apply Ha1|done]).
  assert (Hp1 : obs F1 !! pool = Some (on_backing (λ _, b) (plain l))).
  { unfold F1. rewrite (obs_on_level F pool _ (on_backing (λ _, b))) by done. by rewrite lookup_alter_eq, Hobs. }
  rewrite Hp1. by case_decide.
Qed.

(** ** Operations on owners *)
Definition hold_part (a : Allocation) : list N := if decide (al_bytes a = 0) then [al_level a] else [].
Definition charge_part (a : Allocation) : list Charge := if decide (al_bytes a = 0) then [] else [permit_charge a].
Lemma charges_of_cons a P : charges_of (a :: P) = charge_part a ++ charges_of P.
Proof.
  unfold charges_of, charge_part. destruct (decide (al_bytes a = 0)) as [Hz|Hz].
  - by rewrite filter_cons_False by naive_solver.
  - by rewrite filter_cons_True by done.
Qed.
Lemma holds_of_cons a B P : holds_of B (a :: P) ≡ₚ hold_part a ++ holds_of B P.
Proof.
  unfold holds_of, hold_part. destruct (decide (al_bytes a = 0)) as [Hz|Hz].
  - rewrite filter_cons_True by done. simpl. by rewrite Permutation_middle.
  - by rewrite filter_cons_False by done.
Qed.
#[export] Instance charges_of_perm : Proper ((≡ₚ) ==> (≡ₚ)) charges_of.
Proof. intros P P' HP. unfold charges_of. by rewrite HP. Qed.
#[export] Instance holds_of_perm : Proper ((≡ₚ) ==> (≡ₚ) ==> (≡ₚ)) holds_of.
Proof. intros B B' HB P P' HP. unfold holds_of. by rewrite HB, HP. Qed.
#[export] Instance balanced_perm F : Proper ((≡ₚ) ==> (≡ₚ) ==> iff) (balanced F).
Proof.
  intros B B' HB P P' HP. split; intros (L & Ha & Hal); exists L; (split; [|done]); eapply accounts_perm; try exact Ha; try done;
    by rewrite ?HB, ?HP.
Qed.
(** A permit's share of the accounts. *)
Lemma balanced_permit F B a P : balanced F B (a :: P) ↔
  ∃ L, accounts F L (hold_part a ++ holds_of B P) (charge_part a ++ charges_of P) ∧ ∀ i, i ∈ L → alive F i.
Proof.
  split; intros (L & Ha & Hal); exists L; (split; [|done]).
  - by rewrite charges_of_cons in Ha; eapply accounts_perm; [done|apply holds_of_cons|done|].
  - rewrite charges_of_cons. eapply accounts_perm; [done|symmetry; apply holds_of_cons|done|done].
Qed.
Lemma balanced_pair F B a b P : balanced F B (a :: b :: P) ↔
  ∃ L, accounts F L (hold_part a ++ hold_part b ++ holds_of B P) (charge_part a ++ charge_part b ++ charges_of P) ∧
    ∀ i, i ∈ L → alive F i.
Proof.
  rewrite balanced_permit. split; intros (L & Ha & Hal); exists L; (split; [|done]); rewrite charges_of_cons in *;
    (eapply accounts_perm; [done| |done|exact Ha]); by rewrite holds_of_cons.
Qed.
Lemma handle_live F B P b : balanced F B P → b ∈ B →
  ∃ L, b ∈ L ∧ accounts F L (holds_of B P) (charges_of P) ∧ ∀ i, i ∈ L → alive F i.
Proof.
  intros (L & Ha & Hal) Hb. exists L. split_and!; [|done..]. apply (ac_holders _ _ _ _ Ha). unfold holds_of.
  apply elem_of_app. by left.
Qed.
Lemma permit_live F L B a P : accounts F L (hold_part a ++ holds_of B P) (charge_part a ++ charges_of P) → al_level a ∈ L.
Proof.
  intros Ha. unfold hold_part, charge_part in Ha. destruct (decide (al_bytes a = 0)).
  - apply (ac_holders _ _ _ _ Ha). left.
  - apply (ac_owners _ _ _ _ Ha (permit_charge a)). left.
Qed.
Lemma drop_balanced F B a P : balanced F B (a :: P) → balanced (allocation_drop a F) B P.
Proof.
  rewrite balanced_permit. intros (L & Ha & Hal). unfold allocation_drop, hold_part, charge_part in *.
  destruct (decide (al_bytes a = 0)) as [Hz|Hz].
  - apply (release_hold_balances F L _ _ _ Ha); [apply charges_nonzero|done].
  - apply (drop_charge_balances F L _ _ _ _ _ (al_kind a) Ha); [apply charges_nonzero|done].
Qed.
Lemma reserve_balanced F B P budget kind lane bytes r F' :
  balanced F B P → budget ∈ B → hold_room F → reserve budget kind lane bytes F = (r, F') →
  match r with Ok a => balanced F' B (a :: P) | Err _ => balanced F' B P ∧ same F F' end.
Proof.
  intros Hb Hin Hroom Hr. destruct (handle_live _ _ _ _ Hb Hin) as (L & HL & Ha & Hal).
  unfold reserve, mbind, fallible_bind in Hr.
  destruct (reserve_tree budget kind lane bytes F) as [[u|e] F1] eqn:Hres;
    destruct (reserve_tree_balances F L _ _ budget kind lane bytes _ _ Ha HL Hal Hres) as [Hal1 Ha1].
  2: { injection Hr as <- <-. destruct Ha1. split; [by exists L|done]. }
  unfold modify in Hr. cbn [mret fallible_ret] in Hr. injection Hr as <- <-. rewrite balanced_permit.
  unfold hold_part, charge_part. simpl. destruct (decide (bytes = 0)) as [->|Hz]; [|by exists L].
  exists L. apply accounts_zero in Ha1. apply take_hold_balances; [done..|].
  by eapply (reserve_tree_room F L).
Qed.
Lemma absorb_balanced F B a b P r F' :
  balanced F B (a :: b :: P) → hold_room F → absorb a b F = (r, F') →
  match r with Ok (a', b') => balanced F' B (a' :: b' :: P) | Err _ => F' = F end.
Proof.
  intros Hb Hroom Hr. unfold absorb, mbind, fallible_bind, lift, modify in Hr.
  destruct (refuse_if _ _) as [u|e] eqn:Hown; [|by injection Hr as <- <-]. apply refuse_if_ok in Hown.
  destruct (or_fail (checked_add (al_bytes a) (al_bytes b)) _) as [total|e] eqn:Hsum; [|by injection Hr as <- <-].
  apply or_fail_ok, checked_add_Some in Hsum as [-> Hfit]. cbn [mret fallible_ret] in Hr. injection Hr as <- <-.
  destruct a as [la xa ka na], b as [lb xb kb nb]. simpl in *.
  assert (Hsame : la = lb ∧ ka = kb ∧ na = nb) by (split_and!; apply dec_stable; naive_solver).
  destruct Hsame as (<- & <- & <-). apply balanced_pair in Hb as (L & Ha & Hal). apply balanced_pair. exists L.
  unfold hold_part, charge_part, permit_charge in *. cbn [al_level al_bytes al_kind al_lane with_bytes] in *.
  rewrite !(decide_True (P := 0 = 0)) by done.
  destruct (decide (xa ≠ 0 ∧ xb ≠ 0)) as [[Hza Hzb]|Hz].
  - rewrite !(decide_False (P := xa + xb = 0)) by lia. rewrite !(decide_False (P := xa = 0)), !(decide_False (P := xb = 0)) in Ha by done.
    apply accounts_merge in Ha. apply take_hold_balances; [done| |done..].
    apply (ac_owners _ _ _ _ Ha {| ch_level := la; ch_lane := na; ch_bytes := xa + xb |}). left.
  - split; [|done]. destruct (decide (xa = 0)) as [->|Hza].
    { rewrite N.add_0_l. eapply accounts_perm; [done|apply Permutation_app_swap_app|apply Permutation_app_swap_app|exact Ha]. }
    assert (xb = 0) as -> by lia. rewrite N.add_0_r, !(decide_False (P := xa = 0)) by done.
    rewrite !(decide_True (P := 0 = 0)) in Ha by done. done.
Qed.
Lemma split_balanced F B a bytes P r F' :
  balanced F B (a :: P) → hold_room F → split_off a bytes F = (r, F') →
  match r with Ok (a', b') => balanced F' B (a' :: b' :: P) | Err _ => F' = F end.
Proof.
  intros Hb Hroom Hr. unfold split_off, mbind, fallible_bind, lift, modify in Hr.
  destruct (or_fail (checked_sub (al_bytes a) bytes) _) as [rem|e] eqn:Hsub; [|by injection Hr as <- <-].
  apply or_fail_ok, checked_sub_Some in Hsub as [Hle ->]. cbn [mret fallible_ret] in Hr. injection Hr as <- <-.
  destruct a as [la xa ka na]. cbn [al_level al_bytes al_kind al_lane with_bytes] in *.
  apply balanced_permit in Hb as (L & Ha & Hal). apply balanced_pair. exists L.
  pose proof (permit_live _ _ _ _ _ Ha) as HL. unfold hold_part, charge_part, permit_charge in *.
  cbn [al_level al_bytes al_kind al_lane with_bytes] in *.
  destruct (decide (bytes = 0 ∨ xa - bytes = 0)) as [Hz|Hz].
  - destruct (take_hold_balances _ _ _ _ la Ha HL Hal Hroom) as [Ha' Hal']. split; [|done].
    destruct (decide (bytes = 0)) as [->|Hnz].
    + rewrite N.sub_0_r. eapply accounts_perm; [done|apply Permutation_middle|done|exact Ha'].
    + assert (xa = bytes) as -> by lia. rewrite N.sub_diag. rewrite !(decide_False (P := bytes = 0)) in Ha' by done.
      exact Ha'.
  - rewrite !(decide_False (P := bytes = 0)), !(decide_False (P := xa - bytes = 0)) by naive_solver. split; [|done].
    rewrite !(decide_False (P := xa = 0)) in Ha by lia. apply accounts_merge. by replace (xa - bytes + bytes) with xa by lia.
Qed.
Lemma shrink_balanced F B a bytes P r F' :
  balanced F B (a :: P) → hold_room F → shrink_to a bytes F = (r, F') →
  match r with Ok a' => balanced F' B (a' :: P) | Err _ => F' = F end.
Proof.
  intros Hb Hroom Hr. unfold shrink_to, mbind, fallible_bind, lift, modify in Hr.
  destruct (or_fail (checked_sub (al_bytes a) bytes) _) as [rel|e] eqn:Hsub; [|by injection Hr as <- <-].
  apply or_fail_ok, checked_sub_Some in Hsub as [Hle ->].
  case_decide as Hz; [by injection Hr as <- <-|]. cbn [mret fallible_ret] in Hr. injection Hr as <- <-.
  destruct a as [la xa ka na]. simpl in *. apply balanced_permit in Hb as (L & Ha & Hal). apply balanced_permit.
  pose proof (permit_live _ _ _ _ _ Ha) as HL. unfold hold_part, charge_part, permit_charge in *. simpl in *.
  rewrite !(decide_False (P := xa = 0)) in Ha by lia. simpl in Ha.
  set (F1 := if decide (bytes = 0) then take_hold la F else F).
  assert (H1 : accounts F1 L ((if decide (bytes = 0) then [la] else []) ++ holds_of B P)
      ({| ch_level := la; ch_lane := na; ch_bytes := xa - bytes |} ::
       (if decide (bytes = 0) then [] else [{| ch_level := la; ch_lane := na; ch_bytes := bytes |}]) ++ charges_of P)
    ∧ ∀ j, j ∈ L → alive F1 j).
  { unfold F1. destruct (decide (bytes = 0)) as [->|Hnz]; simpl.
    - rewrite N.sub_0_r. by apply take_hold_balances.
    - split; [|done]. apply accounts_merge. by replace (xa - bytes + bytes) with xa by lia. }
  destruct H1 as [Ha1 Hal1]. destruct (accounts_release F1 L _ la na (xa - bytes) ka _ Ha1) as (Ha2 & _).
  exists L. split; [done|]. intros j Hj. destruct (decide (j = la)) as [->|Hne]; [|by eapply release_alive; [done..|apply Hal1]].
  apply (owner_alive _ _ _ _ _ Ha2). destruct (decide (bytes = 0)) as [->|Hnz]; [left; left|right].
  eexists. split; [left|done].
Qed.
Lemma grow_balanced F B a bytes P r F' :
  balanced F B (a :: P) → hold_room F → grow a bytes F = (r, F') →
  match r with Ok a' => balanced F' B (a' :: P) | Err _ => balanced F' B (a :: P) end.
Proof.
  intros Hb Hroom Hr. unfold grow in Hr. case_decide as Hz; [by injection Hr as <- <-|].
  unfold mbind, fallible_bind, lift in Hr.
  destruct (or_fail (checked_add (al_bytes a) bytes) _) as [sum|e] eqn:Hsum; [|by injection Hr as <- <-].
  pose proof Hb as Hb0. apply balanced_permit in Hb as (L & Ha & Hal). pose proof (permit_live _ _ _ _ _ Ha) as HL.
  destruct (reserve_tree (al_level a) (al_kind a) (al_lane a) bytes F) as [[u|e] F1] eqn:Hres;
    destruct (reserve_tree_balances F L _ _ _ _ _ _ _ _ Ha HL Hal Hres) as [Hal1 Ha1].
  2: { injection Hr as <- <-. destruct Ha1 as [Ha1 _]. apply balanced_permit. by exists L. }
  pose proof (reserve_tree_room F L _ _ _ _ _ _ _ _ Ha HL Hres Hroom) as Hroom1.
  assert (Hb1 : balanced F1 B (a :: with_bytes bytes a :: P)).
  { apply balanced_pair. exists L. split; [|done].
    assert (Hp : hold_part (with_bytes bytes a) = []) by (unfold hold_part; simpl; by rewrite decide_False).
    assert (Hc : charge_part (with_bytes bytes a) = [{| ch_level := al_level a; ch_lane := al_lane a; ch_bytes := bytes |}])
      by (unfold charge_part; simpl; by rewrite decide_False).
    rewrite Hp, Hc. eapply accounts_perm; [done|done|apply Permutation_middle|exact Ha1]. }
  unfold absorb_more in Hr. destruct (absorb a (with_bytes bytes a) F1) as [[[a' more]|e] F2] eqn:Habs;
    pose proof (absorb_balanced F1 B a (with_bytes bytes a) P _ _ Hb1 Hroom1 Habs) as Hb2; injection Hr as <- <-.
  - apply drop_balanced. assert (Hsw : more :: a' :: P ≡ₚ a' :: more :: P) by apply perm_swap. by rewrite Hsw.
  - cbn beta iota in Hb2. rewrite Hb2. apply drop_balanced. assert (Hsw : with_bytes bytes a :: a :: P ≡ₚ a :: with_bytes bytes a :: P) by apply perm_swap.
    by rewrite Hsw.
Qed.

(** ** Creating levels *)
Lemma child_depth_spec budget F r F' : child_depth budget F = (r, F') →
  F' = F ∧ match r with
           | Ok d => 1 <= d <= N.of_nat MAX_DEPTH ∧ ∃ l, obs F !! budget = Some l ∧ d = lv_depth l + 1
           | Err _ => True
           end.
Proof.
  unfold child_depth. intros Hr. destruct (slots F !! budget) as [l|] eqn:Hl; [case_decide as Hd|]; injection Hr as <- <-;
    (split; [done|]); [|done..]. split; [lia|]. exists (plain l). by rewrite obs_lookup, Hl.
Qed.
Lemma create_balanced F B P limit completion_reserve hold parent r F' :
  balanced F B P → hold_room F → (∀ p, parent = Some p → p ∈ B) → limit <= u64_max → hold <= u64_max →
  create limit completion_reserve hold parent F = (r, F') →
  match r with Ok i => balanced F' (i :: B) P | Err _ => F' = F end.
Proof.
  intros (L & Ha & Hal) Hroom Hparent Hlim Hhold Hr. unfold create, mbind, fallible_bind, lift in Hr.
  destruct (refuse_if _ _) as [u|e] eqn:Hok; [|by injection Hr as <- <-]. apply refuse_if_ok in Hok.
  assert (Hdepth : ∀ rd Fd, match parent with Some p => child_depth p | None => mret 1 end F = (rd, Fd) →
    Fd = F ∧ match rd with
      | Ok d => 1 <= d <= N.of_nat MAX_DEPTH ∧ ∀ p, parent = Some p → ∃ l, obs F !! p = Some l ∧ d = lv_depth l + 1
      | Err _ => True end).
  { intros rd Fd Hd. destruct parent as [p|].
    - apply child_depth_spec in Hd as [-> Hd]. split; [done|]. destruct rd; [|done]. destruct Hd as [? Hd].
      split; [done|]. by intros ? [= <-].
    - injection Hd as <- <-. split; [done|]. split; [vm_compute; split; discriminate|done]. }
  destruct (match parent with Some p => child_depth p | None => mret 1 end F) as [[d|e] Fd] eqn:Hd;
    destruct (Hdepth _ _ eq_refl) as [-> Hd']; [|by injection Hr as <- <-]. destruct Hd' as [Hrange Hpar].
  apply (begin_balances F L (holds_of B P) (charges_of P)) in Hr; [|by destruct parent|done|done| |].
  - destruct r as [i|e]; [|done]. by exists (i :: L).
  - intros p Hp. apply (ac_holders _ _ _ _ Ha). unfold holds_of. apply elem_of_app. left. by apply Hparent.
  - split; simpl; [lia|lia|done|done|done].
Qed.
Lemma terms_ok_depths m m' terms parent : terms_ok m terms parent →
  (∀ i l, m !! i = Some l → ∃ l', m' !! i = Some l' ∧ lv_depth l' = lv_depth l) → terms_ok m' terms parent.
Proof.
  intros [H1 H2 H3 H4 H5] Hm. split; [done..| |done]. intros p Hp. destruct (H4 p Hp) as (lp & Hlp & Hd).
  destruct (Hm p lp Hlp) as (l' & Hl' & He). exists l'. by rewrite He.
Qed.
Lemma reserve_depths F L H C level kind lane bytes r F' : accounts F L H C → level ∈ L →
  reserve_tree level kind lane bytes F = (r, F') →
  ∀ i l, obs F !! i = Some l → ∃ l', obs F' !! i = Some l' ∧ lv_depth l' = lv_depth l.
Proof.
  intros Ha HL Hr i l Hl. pose proof Ha as [_ _ _ Hc Hw Hd _ _ _].
  destruct (reserve_tree_spec F L level kind lane bytes Hc Hw HL Hd _ _ Hr) as (_ & _ & Hspec). destruct r as [u|e].
  - destruct Hspec as [Hobs _]. rewrite Hobs, on_path_lookup, Hl by (by eapply path_nodup).
    case_decide; [by exists (charge lane bytes l)|by exists l].
  - destruct Hspec as [Hobs _]. rewrite Hobs. by exists l.
Qed.
(** A level funded out of its parent: the parent is charged, the level begins,
    and the charge goes back when it cannot. *)
Lemma fund_balanced F B P budget lane bytes terms r F' :
  balanced F B P → budget ∈ B → hold_room F → terms_ok (obs F) terms (Some budget) →
  backing_terms terms (Some budget) = Some {| ch_level := budget; ch_lane := lane; ch_bytes := bytes |} →
  (reserve_tree budget BudgetKind.Reserved lane bytes;; begin_funded budget lane bytes terms) F = (r, F') →
  match r with Ok i => balanced F' (i :: B) P | Err _ => balanced F' B P end.
Proof.
  intros Hb Hin Hroom Hterms Hback Hr. destruct (handle_live _ _ _ _ Hb Hin) as (L & HL & Ha & Hal).
  unfold mbind, fallible_bind in Hr.
  destruct (reserve_tree budget BudgetKind.Reserved lane bytes F) as [[u|e] F1] eqn:Hres;
    destruct (reserve_tree_balances F L _ _ budget _ lane bytes _ _ Ha HL Hal Hres) as [Hal1 Ha1].
  2: { injection Hr as <- <-. destruct Ha1. by exists L. }
  pose proof (reserve_tree_room F L _ _ _ _ _ _ _ _ Ha HL Hres Hroom) as Hroom1.
  pose proof (terms_ok_depths _ _ _ _ Hterms (reserve_depths _ _ _ _ _ _ _ _ _ _ Ha HL Hres)) as Hterms1.
  unfold begin_funded in Hr. destruct (begin terms (Some budget) F1) as [[i|e] F2] eqn:Hbegin;
    apply (begin_balances F1 L (holds_of B P) (charges_of P)) in Hbegin;
    [|by rewrite Hback|done|done|by intros ? [= <-]|done| |by rewrite Hback|done|done|by intros ? [= <-]|done];
    injection Hr as <- <-.
  - by exists (i :: L).
  - subst F2. destruct (accounts_release F1 L _ budget lane bytes BudgetKind.Reserved _ Ha1) as (Ha2 & _).
    exists L. split; [done|]. intros j Hj.
    destruct (decide (j = budget)) as [->|Hne]; [|by apply (release_alive F1 L _ _ _ _ _ _ _ Ha1); [..|apply Hal1]].
    apply (owner_alive _ _ _ _ _ Ha2). left. unfold holds_of. apply elem_of_app. by left.
Qed.
Lemma charge_add_ok a b c : charge_add a b = Ok c → c = a + b ∧ a + b <= u64_max.
Proof. unfold charge_add. intros [-> ?]%or_fail_ok%checked_add_Some. done. Qed.
Section Funded.
Context `{Layout}.
Lemma funded_child_balanced F B P budget lane capacity r F' :
  balanced F B P → budget ∈ B → hold_room F → funded_child budget lane capacity F = (r, F') →
  match r with Ok i => balanced F' (i :: B) P | Err _ => balanced F' B P end.
Proof.
  intros Hb Hin Hroom Hr. unfold funded_child in Hr. unfold mbind at 1, fallible_bind at 1, lift at 1 in Hr.
  destruct (refuse_if (capacity = 0) _) as [u|e]; [|by injection Hr as <- <-].
  unfold mbind at 1, fallible_bind at 1, lift at 1 in Hr.
  destruct (refuse_if (lane = BudgetLane.Committed) _) as [u'|e] eqn:Hlane; [|by injection Hr as <- <-].
  apply refuse_if_ok in Hlane. unfold mbind at 1, fallible_bind at 1 in Hr.
  destruct (child_depth budget F) as [[d|e] Fd] eqn:Hd; apply child_depth_spec in Hd as [-> Hd]; [|by injection Hr as <- <-].
  destruct Hd as (Hrange & l & Hl & Hd). unfold mbind at 1, fallible_bind at 1, lift at 1 in Hr.
  destruct (charge_add capacity size_of_Level) as [bytes|e] eqn:Hsum; [|by injection Hr as <- <-].
  apply charge_add_ok in Hsum as [-> Hfit]. eapply fund_balanced in Hr; [done|done|done|done| |done].
  split; simpl; [|done|done|intros p [= <-]; by exists l|done].
  unfold funded_ordinary_limit. destruct lane; unfold u64_max in *; lia.
Qed.
Lemma elastic_child_balanced F B P budget lane ceiling initial_capacity r F' :
  balanced F B P → budget ∈ B → hold_room F → ceiling <= u64_max →
  elastic_funded_child budget lane ceiling initial_capacity F = (r, F') →
  match r with Ok i => balanced F' (i :: B) P | Err _ => balanced F' B P end.
Proof.
  intros Hb Hin Hroom Hceil Hr. unfold elastic_funded_child in Hr. unfold mbind at 1, fallible_bind at 1, lift at 1 in Hr.
  destruct (refuse_if (ceiling = 0 ∨ _) _) as [u|e]; [|by injection Hr as <- <-].
  unfold mbind at 1, fallible_bind at 1, lift at 1 in Hr.
  destruct (refuse_if (lane = BudgetLane.Committed) _) as [u'|e] eqn:Hlane; [|by injection Hr as <- <-].
  apply refuse_if_ok in Hlane. unfold mbind at 1, fallible_bind at 1 in Hr.
  destruct (child_depth budget F) as [[d|e] Fd] eqn:Hd; apply child_depth_spec in Hd as [-> Hd]; [|by injection Hr as <- <-].
  destruct Hd as (Hrange & l & Hl & Hd). cbv zeta in Hr. unfold mbind at 1, fallible_bind at 1, lift at 1 in Hr.
  destruct (charge_add initial_capacity size_of_Level) as [bytes|e] eqn:Hsum; [|by injection Hr as <- <-].
  apply charge_add_ok in Hsum as [-> Hfit]. eapply fund_balanced in Hr; [done|done|done|done| |done].
  split; simpl; [|done|done|intros p [= <-]; by exists l|done].
  unfold funded_ordinary_limit. destruct lane; unfold u64_max in *; lia.
Qed.
End Funded.
Lemma clone_balanced F B P budget : balanced F B P → budget ∈ B → hold_room F →
  balanced (budget_clone budget F) (budget :: B) P.
Proof.
  intros Hb Hin Hroom. destruct (handle_live _ _ _ _ Hb Hin) as (L & HL & Ha & Hal). exists L. by apply take_hold_balances.
Qed.
Lemma budget_drop_balanced F B P budget : balanced F (budget :: B) P → balanced (budget_drop budget F) B P.
Proof. intros (L & Ha & Hal). apply (release_hold_balances F L _ _ _ Ha); [apply charges_nonzero|done]. Qed.
Lemma pool_balanced F B P pool bytes r F' : balanced F B P → pool ∈ B →
  pool_grow pool bytes F = (r, F') ∨ trim_unused pool bytes F = (r, F') → balanced F' B P.
Proof.
  intros Hb Hin Hr. destruct (handle_live _ _ _ _ Hb Hin) as (L & HL & Ha & Hal). exists L.
  destruct Hr as [Hr|Hr]; [by eapply pool_grow_balances|by eapply trim_balances].
Qed.

(** ** Runs

    What a caller may do with its handles [B] and its permits [P]: open levels
    under a handle, clone and drop handles, reserve through a handle, move and
    drop permits, grow and trim the pools it holds. Byte counts are 64 bits wide,
    and no level is held 2^64 - 1 times over. *)
Section Runs.
Context `{Layout}.
Definition opened (r : Try MemoryError N) (B : list N) : list N := match r with Ok i => i :: B | Err _ => B end.
Definition two (r : Try MemoryError (Allocation * Allocation)) (a b : Allocation) (P : list Allocation) : list Allocation :=
  match r with Ok (a', b') => a' :: b' :: P | Err _ => a :: b :: P end.
Inductive budget_step : Levels * list N * list Allocation → Levels * list N * list Allocation → Prop :=
  | step_create F B P limit completion_reserve hold parent r F' :
      (∀ p, parent = Some p → p ∈ B) → limit <= u64_max → hold <= u64_max →
      create limit completion_reserve hold parent F = (r, F') → budget_step (F, B, P) (F', opened r B, P)
  | step_funded F B P budget lane capacity r F' :
      budget ∈ B → funded_child budget lane capacity F = (r, F') → budget_step (F, B, P) (F', opened r B, P)
  | step_elastic F B P budget lane ceiling initial_capacity r F' :
      budget ∈ B → ceiling <= u64_max → elastic_funded_child budget lane ceiling initial_capacity F = (r, F') →
      budget_step (F, B, P) (F', opened r B, P)
  | step_clone F B P budget : budget ∈ B → budget_step (F, B, P) (budget_clone budget F, budget :: B, P)
  | step_close F B P budget : budget_step (F, budget :: B, P) (budget_drop budget F, B, P)
  | step_reserve F B P budget kind lane bytes r F' :
      budget ∈ B → reserve budget kind lane bytes F = (r, F') →
      budget_step (F, B, P) (F', B, match r with Ok a => a :: P | Err _ => P end)
  | step_absorb F B P a b r F' : absorb a b F = (r, F') → budget_step (F, B, a :: b :: P) (F', B, two r a b P)
  | step_split F B P a bytes r F' : split_off a bytes F = (r, F') →
      budget_step (F, B, a :: P) (F', B, match r with Ok (a', b') => a' :: b' :: P | Err _ => a :: P end)
  | step_grow F B P a bytes r F' : grow a bytes F = (r, F') →
      budget_step (F, B, a :: P) (F', B, match r with Ok a' => a' :: P | Err _ => a :: P end)
  | step_shrink F B P a bytes r F' : shrink_to a bytes F = (r, F') →
      budget_step (F, B, a :: P) (F', B, match r with Ok a' => a' :: P | Err _ => a :: P end)
  | step_drop F B P a : budget_step (F, B, a :: P) (allocation_drop a F, B, P)
  | step_pool_grow F B P pool bytes r F' : pool ∈ B → pool_grow pool bytes F = (r, F') → budget_step (F, B, P) (F', B, P)
  | step_trim F B P pool bytes r F' : pool ∈ B → trim_unused pool bytes F = (r, F') → budget_step (F, B, P) (F', B, P).
Inductive budget_run : Levels → list N → list Allocation → Prop :=
  | run_empty : budget_run levels_new [] []
  | run_step F B P F' B' P' : budget_run F B P → hold_room F → budget_step (F, B, P) (F', B', P') → budget_run F' B' P'
  | run_order F B P B' P' : budget_run F B P → B ≡ₚ B' → P ≡ₚ P' → budget_run F B' P'.

Lemma empty_balanced : balanced levels_new [] [].
Proof.
  exists []. split; [|intros i Hi; by apply not_elem_of_nil in Hi].
  assert (Ho : obs levels_new = ∅) by apply fmap_empty.
  split; simpl; rewrite ?Ho.
  - intros i. rewrite lookup_empty. split; [by intros []|lia].
  - intros i. split; [lia|intros Hi; by apply not_elem_of_nil in Hi].
  - constructor.
  - intros i Hi. by apply not_elem_of_nil in Hi.
  - intros i l Hi. by rewrite lookup_empty in Hi.
  - intros i l Hi. by rewrite lookup_empty in Hi.
  - intros i l Hi. by apply not_elem_of_nil in Hi.
  - intros i Hi. by apply not_elem_of_nil in Hi.
  - intros c Hi. by apply not_elem_of_nil in Hi.
Qed.
Lemma step_balanced F B P F' B' P' : balanced F B P → hold_room F → budget_step (F, B, P) (F', B', P') → balanced F' B' P'.
Proof.
  intros Hb Hroom Hs. inversion Hs; subst.
  - match goal with Hc : create _ _ _ _ _ = _ |- _ => apply (create_balanced _ _ _ _ _ _ _ _ _ Hb Hroom) in Hc; [|done..] end.
    destruct r; [done|by subst].
  - match goal with Hc : funded_child _ _ _ _ = _ |- _ => apply (funded_child_balanced _ _ _ _ _ _ _ _ Hb) in Hc; [|done..] end.
    by destruct r.
  - match goal with Hc : elastic_funded_child _ _ _ _ _ = _ |- _ =>
      apply (elastic_child_balanced _ _ _ _ _ _ _ _ _ Hb) in Hc; [|done..] end. by destruct r.
  - by apply clone_balanced.
  - by apply budget_drop_balanced.
  - match goal with Hc : reserve _ _ _ _ _ = _ |- _ => apply (reserve_balanced _ _ _ _ _ _ _ _ _ Hb) in Hc; [|done..] end.
    destruct r; [done|by destruct_and?].
  - match goal with Hc : absorb _ _ _ = _ |- _ => apply (absorb_balanced _ _ _ _ _ _ _ Hb Hroom) in Hc end.
    destruct r as [[]|]; [done|by subst].
  - match goal with Hc : split_off _ _ _ = _ |- _ => apply (split_balanced _ _ _ _ _ _ _ Hb Hroom) in Hc end.
    destruct r as [[]|]; [done|by subst].
  - match goal with Hc : grow _ _ _ = _ |- _ => apply (grow_balanced _ _ _ _ _ _ _ Hb Hroom) in Hc end. by destruct r.
  - match goal with Hc : shrink_to _ _ _ = _ |- _ => apply (shrink_balanced _ _ _ _ _ _ _ Hb Hroom) in Hc end.
    destruct r; [done|by subst].
  - by apply drop_balanced.
  - eapply pool_balanced; [done|done|by left].
  - eapply pool_balanced; [done|done|by right].
Qed.
Lemma run_balanced F B P : budget_run F B P → balanced F B P.
Proof.
  induction 1 as [|F B P F' B' P' _ IH Hroom Hs|F B P B' P' _ IH HB HP];
    [apply empty_balanced|by eapply step_balanced|by rewrite <-HB, <-HP].
Qed.
End Runs.
