(* ===== verification/BudgetProperties.v ===== *)
(** * What the memory budget promises

    Every run of the operations keeps exact accounts within the limits, gives
    all of it back once the last handle and permit are dropped, and admits a
    reservation exactly when its headroom covers it; one that is refused leaves
    nothing but its diagnostics. *)
From stdpp Require Import prelude gmap strings list.
From Stdlib Require Import NArith.
From S2P Require Import Prelude Fallible Budget.
From S2P Require Import BudgetLaws BudgetAccounts BudgetRuns.
#[local] Open Scope N_scope.

(** ** Headroom *)
Lemma level_headroom_admits lane bytes l h : 0 < bytes →
  ¬ (lane = BudgetLane.Ordinary ∧ backing_lane (lv_backing l) = Some BudgetLane.Completion) →
  bytes <= level_headroom lane l h ↔ bytes <= h ∧ admits lane bytes (plain l).
Proof.
  intros Hz Hf. unfold level_headroom. change (lane_bound lane l) with (lane_bound lane (plain l)). split.
  - intros Hb. split; [destruct (is_elastic _), (decide _); lia|]. split; simpl.
    + naive_solver.
    + intros He. rewrite He in Hb. destruct (decide _); lia.
    + intros ->. rewrite decide_True in Hb by done. destruct (is_elastic _); lia.
    + destruct (is_elastic _), (decide _); lia.
  - intros [Hh [_ Hc Ho Ht]]. simpl in *. destruct (is_elastic _), (decide _); try specialize (Hc eq_refl);
      try specialize (Ho ltac:(done)); lia.
Qed.
Lemma headroom_path lane bytes F n i h : 0 < bytes →
  bytes <= headroom_over lane (omap (λ i, slots F !! i) (lineage_from n F i)) h ↔
  bytes <= h ∧ ∀ j l, j ∈ path_from n (obs F) i → obs F !! j = Some l → admits lane bytes l.
Proof.
  intros Hz. revert i h. induction n as [|n IH]; intros i h; simpl.
  { split; [|naive_solver]. intros Hb. split; [done|]. intros j l Hj. by apply not_elem_of_nil in Hj. }
  pose proof (obs_lookup F i) as Hobs. destruct (slots F !! i) as [l|] eqn:Hl; simpl in Hobs; rewrite Hobs.
  2: { simpl. split; [|naive_solver]. intros Hb. split; [done|]. intros j l Hj. by apply not_elem_of_nil in Hj. }
  simpl. rewrite Hl. cbn [headroom_over].
  case_decide as Hf.
  { split; [lia|]. intros [_ Had]. destruct Hf as [-> Hf]. destruct (Had i _ ltac:(left) Hobs) as [Hno _ _ _].
    by destruct (Hno eq_refl). }
  assert (Hhead : ∀ p, (∀ j l', j ∈ i :: p → obs F !! j = Some l' → admits lane bytes l') ↔
    admits lane bytes (plain l) ∧ ∀ j l', j ∈ p → obs F !! j = Some l' → admits lane bytes l').
  { intros p. split.
    - intros Ha. split; [apply (Ha i); [left|done]|]. intros j l' Hj. apply Ha. by right.
    - intros [H1 H2] j l' [->|Hj]%elem_of_cons Hl'; [congruence|by eapply H2]. }
  change (backing_lane (lv_backing (plain l))) with (backing_lane (lv_backing l)).
  change (lv_parent (plain l)) with (lv_parent l). rewrite Hhead.
  destruct (backing_lane (lv_backing l)) as [fl|] eqn:Hfl.
  - assert (Hp : match lv_parent l with Some _ | _ => @nil N end = []) by (by destruct (lv_parent l)).
    rewrite Hp, level_headroom_admits by (rewrite ?Hfl; done). split; [|naive_solver].
    intros [? ?]. split_and!; [done..|]. intros j l' Hj. by apply not_elem_of_nil in Hj.
  - destruct (lv_parent l) as [p|].
    + rewrite IH, level_headroom_admits by (rewrite ?Hfl; done). naive_solver.
    + simpl. rewrite level_headroom_admits by (rewrite ?Hfl; done). split; [|naive_solver].
      intros [? ?]. split_and!; [done..|]. intros j l' Hj. by apply not_elem_of_nil in Hj.
Qed.

(** ** Categories stay 64 bits wide *)
Definition widens (f : Levels → Levels) : Prop := ∀ F, kinds_wide F → kinds_wide (f F).
Definition keeps_wide {E A} (m : Fallible Levels E A) : Prop := widens (λ F, (m F).2).
Create HintDb wide.
Lemma kind_add_wide kind bytes kinds : (∀ k, kind_used kinds k <= u64_max) → ∀ k, kind_used (kind_add kind bytes kinds) k <= u64_max.
Proof.
  intros Hk k. unfold kind_used at 1, kind_add. destruct (decide (k = kind)) as [->|]; [|rewrite lookup_insert_ne by done; apply Hk].
  rewrite lookup_insert_eq. simpl. unfold wrapping_add, u64_max. pose proof (N.mod_lt (kind_used kinds kind + bytes) (2 ^ 64)). lia.
Qed.
Lemma kind_sub_wide kind bytes kinds : (∀ k, kind_used kinds k <= u64_max) → ∀ k, kind_used (kind_sub kind bytes kinds) k <= u64_max.
Proof.
  intros Hk k. unfold kind_used at 1, kind_sub. destruct (decide (k = kind)) as [->|]; [|rewrite lookup_insert_ne by done; apply Hk].
  rewrite lookup_insert_eq. simpl. specialize (Hk kind). unfold wrapping_sub, u64_max in *. case_decide; lia.
Qed.
Lemma on_level_wide i f : (∀ l, wide_kinds l → wide_kinds (f l)) → widens (on_level i f).
Proof.
  intros Hf F Hw j l Hl. simpl in Hl. destruct (decide (j = i)) as [->|]; [|rewrite lookup_alter_ne in Hl by done; by eapply Hw].
  rewrite lookup_alter_eq in Hl. destruct (slots F !! i) as [l0|] eqn:Hl0; [|done]. injection Hl as <-. by eapply Hf, Hw.
Qed.
Lemma widens_fold {A} (f : Levels → A → Levels) l : (∀ x, widens (λ F, f F x)) → widens (λ F, foldl f F l).
Proof. intros Hf. induction l as [|x l IH]; intros F Hw; [done|]. simpl. by apply IH, (Hf x). Qed.
Lemma take_hold_wide i : widens (take_hold i).
Proof. by apply on_level_wide. Qed.
Lemma reclassify_wide level k k' bytes : widens (reclassify_tree level k k' bytes).
Proof.
  intros F Hw. unfold reclassify_tree. case_decide; [done|]. generalize (lineage F level). intros ls.
  eapply widens_fold; [|done]. intros i. apply on_level_wide. intros l Hl.
  exact (kind_add_wide _ _ _ (kind_sub_wide _ _ _ Hl)).
Qed.
Lemma record_refusal_wide level lane e : widens (record_refusal level lane e).
Proof. intros F Hw. destruct e; try done. by apply on_level_wide. Qed.
Lemma release_at_wide i kind lane bytes elastic : widens (λ F, (release_at i kind lane bytes elastic F).2).
Proof.
  intros F Hw. unfold release_at. destruct (slots F !! i) as [l|] eqn:Hl; [|done].
  destruct (release_local _ _ _ _ l) as [last l'] eqn:Hr. simpl. apply on_level_wide; [|done]. intros _ _.
  assert (Hk : lv_kinds l' = kind_sub kind bytes (lv_kinds l))
    by (unfold release_local in Hr; destruct elastic; by injection Hr as _ <-).
  unfold wide_kinds. rewrite Hk. exact (kind_sub_wide _ _ _ (Hw _ _ Hl)).
Qed.
Lemma release_levels_wide level kind lane bytes k : widens (release_levels level kind lane bytes k).
Proof.
  intros F Hw. unfold release_levels. generalize (firstn k (lineage F level)). intros ls.
  eapply widens_fold; [|done]. intros i F1 Hw1. destruct (slots F1 !! i); [by apply release_at_wide|done].
Qed.
Lemma reserve_walk_wide n level kind lane bytes current k : keeps_wide (reserve_walk n level kind lane bytes current k).
Proof.
  revert current k. induction n as [|n IH]; intros current k F Hw; cbn [reserve_walk];
    (destruct (slots F !! current) as [l|] eqn:Hl; [|done]); destruct (reserve_local kind lane bytes l) as [r l'] eqn:Hr;
    (assert (Hw1 : kinds_wide (on_level current (λ _, l') F));
     [apply on_level_wide; [|done]; intros _ _; apply reserve_local_frame in Hr as [_ Hk]; unfold wide_kinds; rewrite Hk;
      destruct r; [exact (kind_add_wide _ _ _ (Hw _ _ Hl))|exact (Hw _ _ Hl)]|]);
    (destruct r as [u|e]; [|by apply record_refusal_wide, release_levels_wide]);
    (destruct (lv_parent l); [|done]); destruct (backing_lane (lv_backing l));
    [by apply reclassify_wide|by apply release_levels_wide|by apply reclassify_wide|by apply IH].
Qed.
Lemma reserve_tree_wide level kind lane bytes : keeps_wide (reserve_tree level kind lane bytes).
Proof. apply reserve_walk_wide. Qed.
Lemma release_walk_wide n kind lane bytes current : widens (λ F, (release_walk n kind lane bytes current F).2).
Proof.
  revert current. induction n as [|n IH]; intros current F Hw; [done|]. cbn [release_walk].
  destruct (slots F !! current) as [l|]; [|done]. destruct (funding (lv_backing l)) as [[f|] elastic].
  - apply release_at_wide. destruct (lv_parent l); [by apply reclassify_wide|done].
  - pose proof (release_at_wide current kind lane bytes elastic F Hw) as Hw1.
    cbv beta in Hw1. destruct (release_at current kind lane bytes elastic F) as [ended F1].
    destruct (lv_parent l) as [p|]; [|exact Hw1].
    specialize (IH p F1 Hw1). cbv beta in IH. by destruct (release_walk n kind lane bytes p F1).
Qed.
Lemma release_tree_wide level kind lane bytes : widens (λ F, (release_tree level kind lane bytes F).2).
Proof. apply release_walk_wide. Qed.
Lemma end_walk_wide n level live : widens (end_walk n level live).
Proof.
  revert level live. induction n as [|n IH]; intros level live F Hw; [done|]. cbn [end_walk].
  destruct (slots F !! level) as [l|]; [|done]. case_decide; [done|]. destruct (_ ≫= _) as [next|]; [|done]. case_decide; [done|].
  assert (Hw1 : kinds_wide (recycle level (on_level level (with_state next) F))) 
    by (intros i li Hli; by eapply (on_level_wide level (with_state next) ltac:(done) F Hw)).
  destruct (lv_parent l) as [p|]; [|done]. destruct (slots _ !! p) as [above|]; [|done].
  set (F2 := match held (lv_backing l) with Some _ => _ | None => _ end).
  assert (Hw2 : kinds_wide F2) by (unfold F2; destruct (held _) as [[]|]; [by apply release_tree_wide|done]).
  assert (Hw3 : kinds_wide (on_level p (λ p, with_holds (wrapping_sub (lv_holds p) 1) p) F2)) by (by apply on_level_wide).
  case_decide; [done|by apply IH].
Qed.
Lemma end_all_wide ended : widens (end_all ended).
Proof. apply (widens_fold (λ F '(level, live), end_level level live F)). intros [level live]. apply end_walk_wide. Qed.
Lemma release_hold_wide level : widens (release_hold level).
Proof.
  intros F Hw. unfold release_hold. destruct (slots F !! level) as [l|]; [|done].
  assert (Hw1 : kinds_wide (on_level level (with_holds (wrapping_sub (lv_holds l) 1)) F)) by (by apply on_level_wide).
  case_decide; [by apply end_walk_wide|done].
Qed.
Lemma allocation_drop_wide a : widens (allocation_drop a).
Proof.
  intros F Hw. unfold allocation_drop. case_decide; [by apply release_hold_wide|].
  pose proof (release_tree_wide (al_level a) (al_kind a) (al_lane a) (al_bytes a) F Hw) as Hw1.
  cbv beta in Hw1. destruct (release_tree _ _ _ _ F) as [ended F1]. by apply end_all_wide.
Qed.
(** Computations that keep them. *)
Lemma wide_bind {E A B} (m : Fallible Levels E A) (k : A → Fallible Levels E B) :
  keeps_wide m → (∀ x, keeps_wide (k x)) → keeps_wide (m ≫= k).
Proof.
  intros Hm Hk F Hw. unfold mbind, fallible_bind. specialize (Hm F Hw). cbv beta in Hm.
  destruct (m F) as [[x|e] F1]; [by apply Hk|exact Hm].
Qed.
Lemma wide_lift {E A} (x : Try E A) : keeps_wide (lift x).
Proof. by intros F. Qed.
Lemma wide_ret {E A} (x : A) : keeps_wide (mret (M := Fallible Levels E) x).
Proof. by intros F. Qed.
Lemma wide_modify {E} f : widens f → keeps_wide (modify (E := E) f).
Proof. done. Qed.
Lemma widens_if P `{Decision P} f g : widens f → widens g → widens (λ F, if decide P then f F else g F).
Proof. intros. by case_decide. Qed.
Lemma widens_id : widens (λ F, F).
Proof. by intros F. Qed.
Lemma take_slot_wide : keeps_wide take_slot.
Proof.
  intros F Hw. unfold take_slot. destruct (free F); [|done]. destruct (checked_add _ _); [|done]. case_decide; [|done].
  intros i l Hl. simpl in Hl. apply lookup_insert_Some in Hl as [[_ <-]|[_ Hl]]; [by intros k|by eapply Hw].
Qed.
Lemma child_depth_wide b : keeps_wide (child_depth b).
Proof. intros F Hw. unfold child_depth. destruct (slots F !! b); [case_decide|]; done. Qed.
Lemma pool_level_wide b : keeps_wide (pool_level b).
Proof.
  intros F Hw. unfold pool_level. destruct (slots F !! b) as [l|]; [|done]. destruct (is_elastic (lv_backing l)); [|done].
  by destruct (lv_parent l), (backing_lane (lv_backing l)).
Qed.
Lemma begin_wide terms parent : keeps_wide (begin terms parent).
Proof.
  apply wide_bind; [apply take_slot_wide|]. intros level. apply wide_bind; [apply wide_modify; destruct parent; [apply take_hold_wide|apply widens_id]|].
  intros _. apply wide_bind; [|intros; apply wide_ret]. apply wide_modify, on_level_wide. by intros l _ k.
Qed.
Lemma begin_funded_wide budget lane bytes terms : keeps_wide (begin_funded budget lane bytes terms).
Proof.
  intros F Hw. unfold begin_funded. pose proof (begin_wide terms (Some budget) F Hw) as Hw1. cbv beta in Hw1.
  destruct (begin terms (Some budget) F) as [[i|e] F1]; [done|by apply release_tree_wide].
Qed.
#[export] Hint Resolve wide_lift wide_ret wide_modify widens_if widens_id take_hold_wide reserve_tree_wide release_tree_wide
  child_depth_wide pool_level_wide begin_wide begin_funded_wide : wide.
Ltac keep := repeat first [solve [auto with wide] | apply wide_bind; [|intros ?; try match goal with x : _ * _ |- _ => destruct x end] | case_match].
Lemma absorb_wide a b : keeps_wide (absorb a b).
Proof. unfold absorb. keep. Qed.
Lemma absorb_more_wide a b : keeps_wide (absorb_more a b).
Proof.
  intros F Hw. unfold absorb_more. pose proof (absorb_wide a b F Hw) as Hw1. cbv beta in Hw1.
  destruct (absorb a b F) as [[[]|e] F1]; by apply allocation_drop_wide.
Qed.
Lemma on_backing_wide pool f : widens (on_level pool (on_backing f)).
Proof. by apply on_level_wide. Qed.
#[export] Hint Resolve absorb_wide absorb_more_wide on_backing_wide : wide.
Lemma run_kinds_wide `{Layout} F B P : budget_run F B P → kinds_wide F.
Proof.
  induction 1 as [|F B P F' B' P' _ IH _ Hs|]; [intros i l Hl; by apply (lookup_empty_Some i l) in Hl| |done].
  assert (Hpost : ∀ {A} (m : Fallible Levels MemoryError A) r, keeps_wide m → m F = (r, F') → kinds_wide F')
    by (intros A m r Hk Hm; specialize (Hk F IH); cbv beta in Hk; by rewrite Hm in Hk).
  inversion Hs; subst; try (eapply Hpost; [|eassumption]).
  - unfold create. keep.
  - unfold funded_child. keep.
  - unfold elastic_funded_child. cbv zeta. keep.
  - by apply take_hold_wide.
  - by apply release_hold_wide.
  - unfold reserve. keep.
  - apply absorb_wide.
  - unfold split_off. keep.
  - unfold grow. keep.
  - unfold shrink_to. keep.
  - by apply allocation_drop_wide.
  - unfold pool_grow. keep.
  - unfold trim_unused. keep.
Qed.

(** ** Live levels *)
(** With no handle and no permit, the deepest live level is neither held nor
    charged. *)
Lemma deepest_idle F L i l : accounts F L [] [] → i ∈ L → obs F !! i = Some l →
  (∀ j lj, j ∈ L → obs F !! j = Some lj → lv_depth lj <= lv_depth l) → lv_holds l = 0 ∧ lv_total l = 0.
Proof.
  intros Ha Hi Hl Hmax. destruct (ac_levels _ _ _ _ Ha i l Hi Hl) as [Ht _ Hh _ _ _ _ _ _ _].
  pose proof (ac_closed _ _ _ _ Ha) as Hc.
  assert (Hno : ∀ j, j ∈ L → ¬ child_of (obs F) i j).
  { intros j Hj Hch. unfold child_of in Hch. destruct (Hc j Hj) as (lj & Hlj & _ & Hp). rewrite Hlj in Hch. simpl in Hch.
    destruct (Hp i Hch) as (_ & lp & Hlp & Hd). rewrite Hl in Hlp. injection Hlp as <-. pose proof (Hmax j lj Hj Hlj). lia. }
  split.
  - rewrite Hh. unfold children. rewrite filter_none by done. done.
  - rewrite Ht. simpl. unfold used. apply nsum_zero. intros w Hw. apply list_elem_of_fmap in Hw as (c & -> & Hcb).
    unfold weight. rewrite decide_False; [done|]. intros Hpath. unfold backings in Hcb.
    apply list_elem_of_omap in Hcb as (j & Hj & Hbc). unfold backing_charge in Hbc.
    destruct (Hc j Hj) as (lj & Hlj & _ & Hp). rewrite Hlj in Hbc. simpl in Hbc.
    destruct (lv_parent lj) as [p|]; [|done]. destruct (held (lv_backing lj)); [|done]. injection Hbc as <-. simpl in Hpath.
    destruct (Hp p eq_refl) as (HpL & lp & Hlp & Hd).
    destruct (path_depth _ _ _ _ _ _ Hc HpL Hpath Hlp) as (li & Hli & Hle). rewrite Hl in Hli. injection Hli as <-.
    pose proof (Hmax j lj Hj Hlj). lia.
Qed.
Lemma deepest F L : closed (obs F) L → L ≠ [] → ∃ i l, i ∈ L ∧ obs F !! i = Some l ∧
  ∀ j lj, j ∈ L → obs F !! j = Some lj → lv_depth lj <= lv_depth l.
Proof.
  intros Hc. assert (Hall : ∀ i, i ∈ L → is_Some (obs F !! i)) by (intros i Hi; destruct (Hc i Hi) as (l & -> & _); by eexists).
  clear Hc. induction L as [|i L IH]; [done|]. intros _. destruct (Hall i ltac:(left)) as [l Hl].
  destruct (decide (L = [])) as [->|Hne].
  { exists i, l. split_and!; [left|done|]. intros j lj ->%list_elem_of_singleton Hlj. rewrite Hl in Hlj. by injection Hlj as <-. }
  destruct IH as (k & lk & Hk & Hlk & Hmax); [intros j Hj; apply Hall; by right|done|].
  destruct (decide (lv_depth lk <= lv_depth l)) as [Hle|Hgt].
  - exists i, l. split_and!; [left|done|]. intros j lj [->|Hj]%elem_of_cons Hlj.
    + rewrite Hl in Hlj. by injection Hlj as <-.
    + pose proof (Hmax j lj Hj Hlj). lia.
  - exists k, lk. split_and!; [by right|done|]. intros j lj [->|Hj]%elem_of_cons Hlj.
    + rewrite Hl in Hlj. injection Hlj as <-. lia.
    + by eapply Hmax.
Qed.

(** ** The promises *)
Section Promises.
Context `{Layout}.

(** C21: In every state the operations reach, each live level counts exactly the
    charges of the live permits under it and the backings of the funded pools
    under it, in total and on the ordinary lane; the total stays within the hold
    limit, uncommitted charges within the limit, ordinary ones within the
    ordinary limit, and an elastic pool's credit is what its holding has left. *)
Theorem budget_accounts_exact F B P : budget_run F B P →
  ∃ L, NoDup (L ++ free F) ∧ (∀ i, is_Some (slots F !! i) ↔ i ∈ L ++ free F) ∧ (∀ b, b ∈ B → b ∈ L) ∧
  ∀ i l, i ∈ L → slots F !! i = Some l →
    let charges := charges_of P ++ backings (obs F) L in
    lv_total l = used (obs F) every charges i ∧ lv_ordinary l = used (obs F) ordinary_lane charges i ∧
    lv_total l <= lv_hold_limit l ∧ used (obs F) uncommitted charges i <= lv_limit l ∧
    lv_ordinary l <= lv_ordinary_limit l ∧
    (is_elastic (lv_backing l) = true →
      bk_available (lv_backing l) + lv_total l = bk_held (lv_backing l) - bk_metadata (lv_backing l)).
Proof.
  intros (L & Ha & _)%run_balanced. exists L. split_and!.
  - apply Ha.
  - intros i. rewrite <-(ac_slots _ _ _ _ Ha), <-(ac_table _ _ _ _ Ha), obs_lookup. by rewrite fmap_is_Some.
  - intros b Hb. apply (ac_holders _ _ _ _ Ha). unfold holds_of. apply elem_of_app. by left.
  - intros i l Hi Hl charges. assert (Hobs : obs F !! i = Some (plain l)) by (by rewrite obs_lookup, Hl).
    destruct (ac_levels _ _ _ _ Ha i _ Hi Hobs) as [H1 H2 _ H4 H5 H6 _ H8 _ _]. simpl in *. split_and!; try done.
    intros He. by apply H8.
Qed.

(** C22: Once every handle and every permit is dropped, every level has ended and
    given back what it held: each slot is free to begin another, unless a slot
    has used up its 2^63 lives. *)
Theorem budget_released F : budget_run F [] [] → (∀ i l, slots F !! i = Some l → ¬ out_of_lives l) →
  ∀ i, is_Some (slots F !! i) → i ∈ free F.
Proof.
  intros (L & Ha & Hal)%run_balanced Hlives i Hi. change (accounts F L [] []) in Ha.
  destruct (decide (L = [])) as [->|Hne].
  { rewrite <-(fmap_is_Some plain), <-obs_lookup, (ac_table _ _ _ _ Ha), (ac_slots _ _ _ _ Ha) in Hi. done. }
  destruct (deepest F L) as (k & l & Hk & Hl & Hmax); [apply Ha|done|].
  destruct (deepest_idle F L k l Ha Hk Hl Hmax) as [Hh Ht]. destruct (Hal k Hk) as (l' & Hl' & [?|[?|Hout]]); [congruence..|].
  rewrite Hl in Hl'. injection Hl' as <-. rewrite obs_lookup in Hl. destruct (slots F !! k) as [l0|] eqn:Hl0; [|done].
  injection Hl as <-. by destruct (Hlives k l0 Hl0).
Qed.

(** C23: A reservation of at least one byte through a live handle succeeds
    exactly when the headroom covers it. A refused one leaves the table reading
    as it did: every counter, category, limit, hold, backing and slot is as it
    was, and so are the refusal diagnostics of every level but the handle's own,
    which count a refusal for lack of capacity and note its lane, its request and
    the room there was. *)
Theorem reservation_decided F B P budget kind lane bytes r F' :
  budget_run F B P → budget ∈ B → 0 < bytes <= u64_max → reserve budget kind lane bytes F = (r, F') →
  ((∃ a, r = Ok a) ↔ bytes <= headroom budget lane F) ∧
  ∀ e, r = Err e → fresh F' = fresh F ∧ free F' = free F ∧ all_read_as F' (record_refusal budget lane e F).
Proof.
  intros Hrun Hin [Hz Hw] Hr. pose proof (run_kinds_wide _ _ _ Hrun) as Hkinds.
  destruct (handle_live _ _ _ _ (run_balanced _ _ _ Hrun) Hin) as (L & HL & Ha & _).
  pose proof Ha as [_ _ _ Hc Hwide Hd _ _ _]. unfold headroom, lineage. rewrite headroom_path by done.
  unfold reserve, mbind, fallible_bind in Hr.
  destruct (reserve_tree budget kind lane bytes F) as [rt F1] eqn:Hres.
  destruct (reserve_tree_spec F L budget kind lane bytes Hc Hwide HL Hd _ _ Hres) as (Hfr & Hfe & Hspec).
  destruct rt as [u|e0].
  - unfold modify in Hr. cbn [mret fallible_ret] in Hr. injection Hr as <- <-. destruct Hspec as [_ Hadm].
    split; [|done]. split; [done|]. intros _. by eexists.
  - injection Hr as <- <-. destruct Hspec as [Hobs Hno]. split; [split; [by intros [a Ha']|]; by intros [_ Hadm]|].
    intros e [= <-]. split_and!; [done|done|]. by eapply reserve_tree_refused.
Qed.
End Promises.

(** ** A small tree

    A root of 1000 bytes with a reserve of 100, a pool of 300 funded out of its
    ordinary lane, and a permit in each. *)
Lemma hold_room_check F : bool_decide (map_Forall (λ _ l, lv_holds l < u64_max) (slots F)) = true → hold_room F.
Proof. intros Hb%bool_decide_eq_true i l Hl. by apply (Hb i l). Qed.
Tactic Notation "after" tactic3(step) :=
  eapply run_step; [ | |step]; [ |apply hold_room_check; vm_compute; reflexivity].
Module Tree.
Definition layout : Layout := {| size_of_Level := 40; size_of_Root := 16; size_of_CursorRow := 16;
  size_of_Subscription := 16; size_of_Delivery := 16; size_of_Allocation := 16 |}.
#[local] Existing Instance layout.
Definition root := Eval vm_compute in (budget_new 1000 100 levels_new).2.
Definition funded := Eval vm_compute in (funded_child 0 BudgetLane.Ordinary 300 root).2.
Definition in_pool := Eval vm_compute in (reserve 1 BudgetKind.Pending BudgetLane.Ordinary 50 funded).2.
Definition in_root := Eval vm_compute in (reserve 0 BudgetKind.Query BudgetLane.Completion 20 in_pool).2.
Definition pool_permit : Allocation :=
  {| al_level := 1; al_bytes := 50; al_kind := BudgetKind.Pending; al_lane := BudgetLane.Ordinary |}.
Definition root_permit : Allocation :=
  {| al_level := 0; al_bytes := 20; al_kind := BudgetKind.Query; al_lane := BudgetLane.Completion |}.
Lemma charged_run : budget_run in_root [1; 0] [root_permit; pool_permit].
Proof.
  after (eapply (step_reserve in_pool [1; 0] [pool_permit] 0 BudgetKind.Query BudgetLane.Completion 20 (Ok root_permit)); [set_solver|vm_compute; reflexivity]).
  after (eapply (step_reserve funded [1; 0] [] 1 BudgetKind.Pending BudgetLane.Ordinary 50 (Ok pool_permit)); [set_solver|vm_compute; reflexivity]).
  after (eapply (step_funded root [0] [] 0 BudgetLane.Ordinary 300 (Ok 1)); [set_solver|vm_compute; reflexivity]).
  after (eapply (step_create levels_new [] [] 1000 100 1000 None (Ok 0)); [done|done|done|vm_compute; reflexivity]).
  apply run_empty.
Defined.
Definition permits_dropped := allocation_drop pool_permit (allocation_drop root_permit in_root).
Definition pool_closed := budget_drop 1 permits_dropped.
Definition dropped := budget_drop 0 pool_closed.
Lemma dropped_run : budget_run dropped [] [].
Proof.
  after (apply (step_close pool_closed [] [] 0)). after (apply (step_close permits_dropped [0] [] 1)).
  after (apply (step_drop (allocation_drop root_permit in_root) [1; 0] [] pool_permit)).
  after (apply (step_drop in_root [1; 0] [pool_permit] root_permit)). apply charged_run.
Defined.
End Tree.

Lemma budget_accounts_exact_witness : ∃ L, NoDup (L ++ free Tree.in_root) ∧ 0 ∈ L ∧ ∀ l, slots Tree.in_root !! 0 = Some l →
  lv_total l = used (obs Tree.in_root) every
    (charges_of [Tree.root_permit; Tree.pool_permit] ++ backings (obs Tree.in_root) L) 0.
Proof.
  destruct (@budget_accounts_exact Tree.layout _ _ _ Tree.charged_run) as (L & H1 & _ & H3 & H4).
  exists L. assert (H0 : 0 ∈ L) by (apply H3; right; left). split_and!; [exact H1|exact H0|]. intros l Hl. apply (H4 0 l H0 Hl).
Defined.
Lemma budget_released_witness : is_Some (slots Tree.dropped !! 1) ∧ 1 ∈ free Tree.dropped.
Proof.
  assert (Hsome : is_Some (slots Tree.dropped !! 1)) by (vm_compute; by eexists).
  split; [done|]. apply (@budget_released Tree.layout _ Tree.dropped_run); [|done].
  intros i l Hl. assert (Hlives : map_Forall (λ _ l, lv_state l <= 100) (slots Tree.dropped))
    by (apply (proj1 (bool_decide_eq_true _)); vm_compute; reflexivity).
  apply Hlives in Hl. unfold out_of_lives. intros Hno.
  assert (Hd : lv_state l / 2 <= lv_state l) by (apply N.Div0.div_le_upper_bound; lia).
  destruct (checked_add (lv_state l / 2) 1) as [g|] eqn:Hg; simpl in Hno.
  - apply checked_add_Some in Hg as [-> _]. unfold checked_mul in Hno. destruct (N.leb_spec ((lv_state l / 2 + 1) * 2) u64_max);
      [done|unfold u64_max in *; lia].
  - unfold checked_add in Hg. destruct (N.leb_spec (lv_state l / 2 + 1) u64_max); [done|unfold u64_max in *; lia].
Defined.
Lemma reservation_decided_witness :
  ∃ e F', reserve 1 BudgetKind.Query BudgetLane.Ordinary 251 Tree.in_root = (Err e, F') ∧
  headroom 1 BudgetLane.Ordinary Tree.in_root = 250 ∧ free F' = free Tree.in_root ∧
  all_read_as F' (record_refusal 1 BudgetLane.Ordinary e Tree.in_root).
Proof.
  destruct (reserve 1 BudgetKind.Query BudgetLane.Ordinary 251 Tree.in_root) as [r F'] eqn:Hr.
  pose proof (@reservation_decided Tree.layout Tree.in_root [1; 0] _ 1 BudgetKind.Query BudgetLane.Ordinary 251 r F' Tree.charged_run
    ltac:(left) ltac:(by vm_compute; split) Hr) as [Hiff Hleft].
  assert (Hhead : headroom 1 BudgetLane.Ordinary Tree.in_root = 250) by (vm_compute; reflexivity).
  destruct r as [a|e]; [exfalso; rewrite Hhead in Hiff; assert (251 <= 250) by (apply Hiff; by eexists); lia|].
  exists e, F'. destruct (Hleft e eq_refl) as (_ & Hfree & Hreads). split_and!; [reflexivity|exact Hhead|exact Hfree|exact Hreads].
Defined.
