(* ===== verification/Stream.v ===== *)
(** * Stream positions, tokens and consumers (focal-stream: lib.rs, cursor.rs,
    consumer.rs)

    A position names a prefix of a ledger's deltas: [Delta o] of sequence [s] is
    the prefix through ordinal [o], [Resolved] the complete sequence. A token
    names a consumer's stream and a position in it. The consumer side applies
    events to its own checkpoint. *)
From stdpp Require Import prelude gmap strings.
From Stdlib Require Import NArith.
From S2P Require Import Prelude Vocabulary Objects Fallible Budget.

#[local] Open Scope N_scope.

Notation ConsumerId := N (only parsing).
Record ConsumerKey := { ck_ledger : LedgerId; ck_consumer : ConsumerId }.
#[export] Instance consumer_key_eq_dec : EqDecision ConsumerKey.
Proof. solve_decision. Defined.

Module ResyncReason.
Inductive t := HistoryExpired | LeaseExpired | SlowConsumer | SnapshotExpired | ExplicitReset.
#[export] Instance resync_reason_eq_dec : EqDecision t.
Proof. solve_decision. Defined.
End ResyncReason.
Notation ResyncReason := ResyncReason.t.
Export (hints) ResyncReason.

Module StreamError.
Inductive t :=
  | Invalid (why : string)
  | WrongLedger | WrongConsumer | WrongGeneration | WrongScope | MissingConsumer
  | DuplicateConsumer | StalePreparation | ClockRegression | CounterExhausted | CursorAhead
  | CursorRegression | BeyondDelivered
  | RetentionPinned (allowed_through : SessionSeq)
  | ResyncRequired (reason : ResyncReason)
  | SeedNotComplete
  | SourceViolation (why : string)
  | SourceUnavailable | Capacity | Codec
  | Memory (error : MemoryError).
#[export] Instance stream_error_eq_dec : EqDecision t.
Proof. solve_decision. Defined.
End StreamError.
Notation StreamError := StreamError.t.
Export (hints) StreamError.

Definition ALLOCATOR_OVERHEAD : N := 4 * 8.
Definition add (left right : N) : Try StreamError N :=
  or_fail (checked_add left right) StreamError.CounterExhausted.
Definition mul (left right : N) : Try StreamError N :=
  or_fail (checked_mul left right) StreamError.CounterExhausted.

(** ** Positions *)
Module PositionOffset.
Inductive t := Delta (ordinal : N) | Resolved.
#[export] Instance position_offset_eq_dec : EqDecision t.
Proof. solve_decision. Defined.
End PositionOffset.
Notation PositionOffset := PositionOffset.t.
Export (hints) PositionOffset.
Record Position := { p_ledger : LedgerId; p_sequence : SessionSeq; p_offset : PositionOffset }.
#[export] Instance position_eq_dec : EqDecision Position.
Proof. solve_decision. Defined.
(** [derive(Ord)]: the fields in declaration order, the variant of the offset
    before its ordinal. *)
Definition position_code (p : Position) : list N :=
  [tenant (p_ledger p); session (p_ledger p); p_sequence p] ++
  match p_offset p with PositionOffset.Delta o => [0; o] | PositionOffset.Resolved => [1] end.
Definition position_le (p q : Position) : Prop :=
  Is_true (lex_leb (position_code p) (position_code q)).
#[export] Instance position_le_dec p q : Decision (position_le p q).
Proof. unfold position_le. apply _. Defined.
Definition position_lt (p q : Position) : Prop := position_le p q ∧ p ≠ q.
#[export] Instance position_lt_dec p q : Decision (position_lt p q).
Proof. unfold position_lt. apply _. Defined.

Definition resolved (ledger : LedgerId) (sequence : SessionSeq) : Position :=
  {| p_ledger := ledger; p_sequence := sequence; p_offset := PositionOffset.Resolved |}.
Definition origin (ledger : LedgerId) : Position := resolved ledger 0.
Definition after_delta (id : DeltaId) : Position :=
  {| p_ledger := d_ledger id; p_sequence := d_sequence id;
     p_offset := PositionOffset.Delta (d_ordinal id) |}.
Definition position_validate (self : Position) (ledger : LedgerId) (published : SessionSeq) :
    Try StreamError () :=
  refuse_if (p_ledger self ≠ ledger) StreamError.WrongLedger;;
  refuse_if (published < p_sequence self) StreamError.CursorAhead;;
  refuse_if (p_sequence self = 0 ∧ p_offset self ≠ PositionOffset.Resolved)
    (StreamError.Invalid "sequence zero has no delta ordinals").
(** The complete sequences that may be retired while this position is kept. *)
Definition retention_prefix (self : Position) : SessionSeq :=
  match p_offset self with
  | PositionOffset.Resolved => p_sequence self
  | PositionOffset.Delta _ => p_sequence self - 1
  end.

(** ** Tokens and filters *)
Record CursorToken := {
  ct_key : ConsumerKey; ct_generation : N; ct_scope : ContentHash; ct_position : Position
}.
#[export] Instance cursor_token_eq_dec : EqDecision CursorToken.
Proof. solve_decision. Defined.
Definition same_stream (self other : CursorToken) : Try StreamError () :=
  refuse_if (ck_ledger (ct_key self) ≠ p_ledger (ct_position self)
             ∨ ck_ledger (ct_key other) ≠ p_ledger (ct_position other)
             ∨ ck_ledger (ct_key self) ≠ ck_ledger (ct_key other)
             ∨ p_ledger (ct_position self) ≠ p_ledger (ct_position other)) StreamError.WrongLedger;;
  refuse_if (ct_key self ≠ ct_key other) StreamError.WrongConsumer;;
  refuse_if (ct_generation self ≠ ct_generation other) StreamError.WrongGeneration;;
  refuse_if (ct_scope self ≠ ct_scope other) StreamError.WrongScope.
(** [CursorToken::at]. *)
Definition token_at (self : CursorToken) (position : Position) : CursorToken :=
  {| ct_key := ct_key self; ct_generation := ct_generation self; ct_scope := ct_scope self;
     ct_position := position |}.

(** What the stream reads of a delta. [native] is [matches!(fact, Native(_))],
    [heap] the bytes [delta_heap_bytes] counts (they depend on the capacity of
    its buffers), [wire] its serialized size. *)
Class StreamedDelta (D : Type) := {
  sd_id : D → DeltaId;
  sd_schema : D → N;
  sd_claim : D → option ClaimId;
  sd_native : D → bool;
  sd_heap : D → Try StreamError N;
  sd_wire : D → Try StreamError N;
  sd_eq_dec :: EqDecision D
}.

Module DeltaFilter.
Inductive t := All | Claims (claims : gset ClaimId).
#[export] Instance delta_filter_eq_dec : EqDecision t.
Proof. solve_decision. Defined.
End DeltaFilter.
Notation DeltaFilter := DeltaFilter.t.
Export (hints) DeltaFilter.
Definition matches `{StreamedDelta D} (self : DeltaFilter) (delta : D) : bool :=
  match self with
  | DeltaFilter.All => true
  | DeltaFilter.Claims claims =>
      match sd_claim delta with Some claim => bool_decide (claim ∈ claims) | None => false end
  end.
Definition filter_len (self : DeltaFilter) : N :=
  match self with DeltaFilter.All => 0 | DeltaFilter.Claims claims => N.of_nat (size claims) end.
(** [ClaimId] is 16 bytes, [usize] 8. *)
Definition filter_charge (self : DeltaFilter) : Try StreamError N :=
  slot ← add 16 8;
  node ← mul 16 slot;
  each ← add node ALLOCATOR_OVERHEAD;
  mul (filter_len self) each.

(** ** Events and the consumer's checkpoint *)
Module StreamEvent.
Inductive t (D : Type) :=
  | Delta (cursor : CursorToken) (delta : D)
  | Resolved (cursor : CursorToken)
  | Resync (cursor : CursorToken) (reason : ResyncReason) (floor : SessionSeq).
Arguments Delta {_} _ _.
Arguments Resolved {_} _.
Arguments Resync {_} _ _ _.
End StreamEvent.
Notation StreamEvent := StreamEvent.t.

Record ConsumerCheckpoint := { kp_schema : N; kp_cursor : CursorToken }.
#[export] Instance consumer_checkpoint_eq_dec : EqDecision ConsumerCheckpoint.
Proof. solve_decision. Defined.
Module ConsumerDecision.
Inductive t := Duplicate | ApplyDelta | AdvanceResolved.
End ConsumerDecision.
Notation ConsumerDecision := ConsumerDecision.t.
Record PreparedConsumerAdvance := {
  pa_base : ConsumerCheckpoint; pa_next : ConsumerCheckpoint; pa_decision : ConsumerDecision
}.
Definition consumer_new (cursor : CursorToken) : Try StreamError ConsumerCheckpoint :=
  refuse_if (ck_ledger (ct_key cursor) ≠ p_ledger (ct_position cursor)) StreamError.WrongLedger;;
  refuse_if (ct_generation cursor = 0) StreamError.WrongGeneration;;
  mret {| kp_schema := 1; kp_cursor := cursor |}.
Definition from_installed_seed (cursor : CursorToken) : Try StreamError ConsumerCheckpoint :=
  refuse_if (p_offset (ct_position cursor) ≠ PositionOffset.Resolved)
    (StreamError.Invalid "installed seed requires resolved prefix");;
  consumer_new cursor.
(** A forward delta continues the transaction the checkpoint is in, or starts
    a later one. *)
Definition contiguous (previous : Position) (id : DeltaId) : Try StreamError () :=
  if decide (d_sequence id = p_sequence previous) then
    match p_offset previous with
    | PositionOffset.Resolved => fails (StreamError.SourceViolation "delta after resolved transaction")
    | PositionOffset.Delta ordinal =>
        refuse_if (¬ (ordinal + 1 <= u32_max ∧ ordinal + 1 = d_ordinal id))
          (StreamError.SourceViolation "delta ordinal gap")
    end
  else refuse_if (d_ordinal id ≠ 0)
    (StreamError.SourceViolation "transaction starts after ordinal zero").
(** What an event asks of the checkpoint: its cursor, the decision, the delta. *)
Definition event_step `{StreamedDelta D} (self : ConsumerCheckpoint) (event : StreamEvent D) :
    Try StreamError (CursorToken * ConsumerDecision * option DeltaId) :=
  match event with
  | StreamEvent.Delta cursor delta =>
      refuse_if (sd_schema delta ≠ 1 ∨ d_sequence (sd_id delta) = 0)
        (StreamError.SourceViolation "invalid delta schema or sequence");;
      refuse_if (ct_position cursor ≠ after_delta (sd_id delta))
        (StreamError.SourceViolation "event cursor does not identify delta");;
      mret (cursor, ConsumerDecision.ApplyDelta, Some (sd_id delta))
  | StreamEvent.Resolved cursor =>
      refuse_if (p_offset (ct_position cursor) ≠ PositionOffset.Resolved)
        (StreamError.SourceViolation "resolved event carries partial position");;
      mret (cursor, ConsumerDecision.AdvanceResolved, None)
  | StreamEvent.Resync cursor reason _ =>
      same_stream (kp_cursor self) cursor;;
      fails (StreamError.ResyncRequired reason)
  end.
Definition consumer_prepare `{StreamedDelta D} (self : ConsumerCheckpoint) (event : StreamEvent D) :
    Try StreamError PreparedConsumerAdvance :=
  refuse_if (kp_schema self ≠ 1) (StreamError.Invalid "unknown consumer checkpoint schema");;
  '(cursor, decision, delta_id) ← event_step self event;
  same_stream (kp_cursor self) cursor;;
  if decide (position_le (ct_position cursor) (ct_position (kp_cursor self))) then
    mret {| pa_base := self; pa_next := self; pa_decision := ConsumerDecision.Duplicate |}
  else
    match delta_id with
    | Some id => contiguous (ct_position (kp_cursor self)) id
    | None => mret ()
    end;;
    mret {| pa_base := self; pa_next := {| kp_schema := 1; kp_cursor := cursor |};
            pa_decision := decision |}.
Definition consumer_publish (prepared : PreparedConsumerAdvance) (self : ConsumerCheckpoint) :
    Try StreamError ConsumerCheckpoint :=
  refuse_if (self ≠ pa_base prepared) StreamError.StalePreparation;;
  mret (pa_next prepared).

(** ** Laws of stream positions and of the consumer checkpoint *)
#[local] Open Scope N_scope.

(** ** The order of positions *)
Definition offset_le (a b : PositionOffset) : Prop :=
  match a, b with
  | PositionOffset.Delta x, PositionOffset.Delta y => x <= y
  | PositionOffset.Delta _, PositionOffset.Resolved => True
  | PositionOffset.Resolved, PositionOffset.Delta _ => False
  | PositionOffset.Resolved, PositionOffset.Resolved => True
  end.
Lemma position_code_inj p q : position_code p = position_code q → p = q.
Proof.
  destruct p as [[? ?] ? [?|]], q as [[? ?] ? [?|]]; unfold position_code; simpl; intros; by simplify_eq.
Qed.
#[export] Instance position_le_po : PartialOrder position_le.
Proof.
  split; [split|]; unfold position_le.
  - intros p. by rewrite lex_leb_refl.
  - intros p q r. rewrite !Is_true_true. apply lex_leb_trans.
  - intros p q. rewrite !Is_true_true. intros. by apply position_code_inj, lex_leb_antisym.
Qed.
#[export] Instance position_le_total : Total position_le.
Proof. intros p q. unfold position_le. rewrite !Is_true_true. apply lex_leb_total. Qed.
(** On one ledger: by sequence, then by offset. *)
Lemma position_le_spec p q :
  p_ledger p = p_ledger q →
  position_le p q ↔ p_sequence p < p_sequence q ∨
    (p_sequence p = p_sequence q ∧ offset_le (p_offset p) (p_offset q)).
Proof.
  destruct p as [l s o], q as [l' s' o']; simpl. intros <-.
  unfold position_le, position_code. rewrite Is_true_true.
  destruct o as [x|], o' as [y|]; cbn [app p_ledger p_sequence p_offset offset_le];
    rewrite !lex_leb_cons; simpl; intuition (try lia; try done).
Qed.
Lemma position_lt_spec p q :
  p_ledger p = p_ledger q →
  position_lt p q ↔ p_sequence p < p_sequence q ∨
    (p_sequence p = p_sequence q ∧ offset_le (p_offset p) (p_offset q) ∧ p_offset p ≠ p_offset q).
Proof.
  intros Hl. unfold position_lt. rewrite position_le_spec by done.
  destruct p as [l s o], q as [l' s' o']; simpl in *; subst l'. split.
  - intros [[?|[-> ?]] Hne]; [by left|right]. split_and!; [done..|]. congruence.
  - intros [?|(-> & ? & ?)]; (split; [auto|]); intros ?; simplify_eq; lia.
Qed.
Lemma position_lt_le p q : position_lt p q → position_le p q.
Proof. by intros []. Qed.
Lemma position_lt_irrefl p : ¬ position_lt p p.
Proof. by intros []. Qed.
Lemma position_nlt p q : ¬ position_lt p q → position_le q p.
Proof.
  intros Hn. destruct (total position_le p q) as [Hle|]; [|done].
  destruct (decide (p = q)) as [->|]; [done|]. by destruct Hn.
Qed.
Lemma position_nle p q : ¬ position_le p q → position_lt q p.
Proof.
  intros Hn. split; [by destruct (total position_le p q)|]. intros ->. by destruct Hn.
Qed.
Lemma position_lt_nle p q : position_lt p q ↔ ¬ position_le q p.
Proof.
  split; [|apply position_nle]. intros [Hle Hne] ?. by apply Hne, (anti_symm position_le).
Qed.
Lemma position_le_lt_trans p q r : position_le p q → position_lt q r → position_lt p r.
Proof. rewrite !position_lt_nle. intros Hpq Hqr Hrp. apply Hqr. by etrans. Qed.
Lemma position_lt_le_trans p q r : position_lt p q → position_le q r → position_lt p r.
Proof. rewrite !position_lt_nle. intros Hpq Hqr Hrp. apply Hpq. by etrans. Qed.
Lemma position_lt_trans p q r : position_lt p q → position_lt q r → position_lt p r.
Proof. intros. eapply position_lt_le_trans; [done|by apply position_lt_le]. Qed.

Create HintDb positions.
#[export] Hint Resolve position_lt_le position_le_lt_trans position_lt_le_trans position_lt_trans : positions.

Lemma position_validate_ok p ledger published u :
  position_validate p ledger published = Ok u ↔
  p_ledger p = ledger ∧ p_sequence p <= published ∧
  (p_sequence p = 0 → p_offset p = PositionOffset.Resolved).
Proof.
  unfold position_validate. rewrite !refuse_then_ok, refuse_if_ok. split.
  - intros (Hl & ? & Hn). split_and!; [by apply dec_stable|lia|]. intros ?.
    apply dec_stable. naive_solver.
  - intros (? & ? & Hn). split_and!; [naive_solver|lia|naive_solver].
Qed.
(** A position keeps at least what its prefix says, and positions and prefixes
    grow together. *)
Lemma retention_prefix_mono p q :
  p_ledger p = p_ledger q → position_le p q → retention_prefix p <= retention_prefix q.
Proof.
  intros Hl Hle. apply position_le_spec in Hle; [|done]. unfold retention_prefix.
  destruct p as [? ? [?|]], q as [? ? [?|]]; simpl in *; lia.
Qed.
Lemma retention_prefix_le p : retention_prefix p <= p_sequence p.
Proof. unfold retention_prefix. destruct (p_offset p); lia. Qed.

Lemma same_stream_ok a b u :
  same_stream a b = Ok u ↔
  ck_ledger (ct_key a) = p_ledger (ct_position a) ∧ p_ledger (ct_position b) = p_ledger (ct_position a) ∧
  ct_key a = ct_key b ∧ ct_generation a = ct_generation b ∧ ct_scope a = ct_scope b.
Proof.
  unfold same_stream. rewrite !refuse_then_ok, refuse_if_ok. split.
  - intros (H1 & H2%dec_stable & H3%dec_stable & H4%dec_stable).
    assert (H1' : ck_ledger (ct_key a) = p_ledger (ct_position a) ∧
      p_ledger (ct_position a) = p_ledger (ct_position b)).
    { split; apply dec_stable; naive_solver. }
    naive_solver.
  - intros (? & ? & Hk & ? & ?). split_and!; try naive_solver.
    rewrite <-Hk. intros [?|[?|[?|?]]]; congruence.
Qed.
