(* ===== verification/Registry.v ===== *)
(** * The cursor registry (focal-stream: registry.rs)

    The durable cursors of a ledger's stream consumers. A command is prepared
    against the published rows ([prepare_in]) and, once the log has committed
    it, published ([publish]); a prepared update changes at most one row. The
    bytes of the rows are permits of a memory budget, of the ordinary lane for
    registrations and of the completion lane for the rest. *)
From stdpp Require Import prelude gmap strings.
From Stdlib Require Import NArith.
From S2P Require Import Prelude Vocabulary Objects Fallible Budget Stream.
#[local] Open Scope N_scope.

Module CursorMode.
Inductive t := Live | Seeding (snapshot : SessionSeq) | Resync (reason : ResyncReason) | Protected.
#[export] Instance cursor_mode_eq_dec : EqDecision t.
Proof. solve_decision. Defined.
(** [matches!(mode, Resync { .. })]. *)
Definition is_resync (m : t) : bool := match m with Resync _ => true | _ => false end.
End CursorMode.
Notation CursorMode := CursorMode.t.
Export (hints) CursorMode.
Record CursorRecord := {
  rw_token : CursorToken; rw_filter : DeltaFilter; rw_expires_at : N; rw_mode : CursorMode
}.
Record CursorCheckpoint := {
  cp_schema : N; cp_ledger : LedgerId; cp_revision : N; cp_clock : N; cp_floor : SessionSeq;
  cp_consumers : gmap ConsumerId CursorRecord
}.
Module CursorOperation.
Inductive t :=
  | Register (consumer : ConsumerId) (scope : ContentHash) (filter : DeltaFilter) (start : Position)
      (expires_at : N)
  | Acknowledge (token : CursorToken)
  | Renew (consumer : ConsumerId) (generation expires_at : N)
  | BeginSeed (consumer : ConsumerId) (scope : ContentHash) (filter : DeltaFilter)
      (snapshot : SessionSeq) (expires_at : N)
  | CompleteSeed (consumer : ConsumerId) (generation : N) (snapshot : SessionSeq)
  | RequireResync (consumer : ConsumerId) (generation : N) (reason : ResyncReason)
  | AdvanceFloor (through : SessionSeq)
  | RegisterProtected (consumer : ConsumerId) (scope : ContentHash) (filter : DeltaFilter)
      (start : Position)
  | AcknowledgeAndRenew (token : CursorToken) (expires_at : N).
End CursorOperation.
Notation CursorOperation := CursorOperation.t.
Record CursorCommand := {
  cm_expected_revision : N; cm_now : N; cm_operation : CursorOperation
}.
Record RegistryConfig := { max_consumers : N; max_filter_claims : N; max_lease_ttl : N }.
Definition registry_config_default : RegistryConfig :=
  {| max_consumers := 4096; max_filter_claims := 256; max_lease_ttl := 86400000 |}.

(** The bytes the checkpoint holds, by the lane that admitted them. *)
Record Root := { rt_checkpoint : CursorCheckpoint; rt_ordinary : Allocation; rt_completion : Allocation }.
Record CursorRegistry := {
  rg_root : Root; rg_owner : N; rg_budget : MemoryBudget; rg_config : RegistryConfig
}.
Definition registry_checkpoint (self : CursorRegistry) : CursorCheckpoint := rt_checkpoint (rg_root self).
Module RowChange.
Inductive t :=
  | None
  | Patch (consumer : ConsumerId) (token : option CursorToken) (expires_at : option N)
      (mode : option CursorMode)
  | Insert (consumer : ConsumerId) (row : CursorRecord)
  | Replace (consumer : ConsumerId) (row : CursorRecord).
End RowChange.
Notation RowChange := RowChange.t.
Record PreparedCursorUpdate := {
  pu_owner : N; pu_base_revision : N; pu_revision : N; pu_clock : N; pu_floor : SessionSeq;
  pu_change : RowChange; pu_retired : list ConsumerId; pu_leaving : N; pu_lane : BudgetLane;
  pu_arriving : Allocation
}.
Record Header := { hd_revision : N; hd_clock : N; hd_floor : SessionSeq }.
Record Applied := { ap_change : RowChange; ap_floor : SessionSeq; ap_leaving : N }.

Definition patch (token : option CursorToken) (expires_at : option N) (mode : option CursorMode)
    (row : CursorRecord) : CursorRecord :=
  {| rw_token := default (rw_token row) token; rw_filter := rw_filter row;
     rw_expires_at := default (rw_expires_at row) expires_at; rw_mode := default (rw_mode row) mode |}.

(** ** Charges *)
Definition saturating_add (a b : N) : N := N.min (a + b) u64_max.
Definition saturating_mul (a b : N) : N := N.min (a * b) u64_max.
Definition row_charge `{Layout} : N :=
  saturating_add (saturating_mul (saturating_add size_of_CursorRow 8) 16) ALLOCATOR_OVERHEAD.
Definition record_charge `{Layout} (row : CursorRecord) : Try StreamError N :=
  f ← filter_charge (rw_filter row); add row_charge f.
Definition checkpoint_charge `{Layout} (checkpoint : CursorCheckpoint) : Try StreamError N :=
  charge ← add size_of_Root ALLOCATOR_OVERHEAD;
  try_fold (λ charge '(_, row), c ← record_charge row; add charge c) charge
    (entries (cp_consumers checkpoint)).

(** ** Rows *)
(** A row that holds no obligation any more. *)
Definition released (row : CursorRecord) (clock : N) : bool :=
  bool_decide (rw_mode row ≠ CursorMode.Protected)
  && (bool_decide (rw_expires_at row <= clock) || CursorMode.is_resync (rw_mode row)).
(** The released rows, and the bytes they hold. *)
Definition retire_released `{Layout} (state : CursorCheckpoint) (clock : N) :
    Try StreamError (N * list ConsumerId) :=
  try_fold (λ '(leaving, retired) '(id, row),
    if released row clock then
      c ← record_charge row;
      leaving ← add leaving c;
      mret (leaving, retired ++ [id])
    else mret (leaving, retired))
    (0, []) (entries (cp_consumers state)).
Definition consumers_len (state : CursorCheckpoint) : N := N.of_nat (size (cp_consumers state)).
(** Room for one more consumer, after the released rows leave. *)
Definition admit_consumer `{Layout} (state : CursorCheckpoint) (clock : N) (config : RegistryConfig) :
    Try StreamError (N * list ConsumerId) :=
  '(leaving, retired) ← (if decide (max_consumers config <= consumers_len state)
                         then retire_released state clock else mret (0, []));
  refuse_if (max_consumers config <= consumers_len state - N.of_nat (length retired)) StreamError.Capacity;;
  mret (leaving, retired).

Definition active_row (state : CursorCheckpoint) (clock : N) (consumer : ConsumerId) (generation : N) :
    Try StreamError CursorRecord :=
  row ← or_fail (cp_consumers state !! consumer) StreamError.MissingConsumer;
  refuse_if (ct_generation (rw_token row) ≠ generation) StreamError.WrongGeneration;;
  refuse_if (rw_mode row ≠ CursorMode.Protected ∧ rw_expires_at row <= clock)
    (StreamError.ResyncRequired ResyncReason.LeaseExpired);;
  match rw_mode row with
  | CursorMode.Resync reason => fails (StreamError.ResyncRequired reason)
  | _ => mret row
  end.
Definition validate_lease (now expires_at : N) (config : RegistryConfig) : Try StreamError () :=
  refuse_if (expires_at <= now ∨ max_lease_ttl config < expires_at - now)
    (StreamError.Invalid "cursor lease outside bounds").
(** A row whose history is retained. *)
Definition retains (row : CursorRecord) (clock : N) : bool :=
  bool_decide (rw_mode row = CursorMode.Protected)
  || (bool_decide (clock < rw_expires_at row) && negb (CursorMode.is_resync (rw_mode row))).
Definition retention_limit (state : CursorCheckpoint) (clock : N) (published : SessionSeq) : SessionSeq :=
  N.min (default published (least ((λ row, retention_prefix (ct_position (rw_token row))) <$>
    filter (λ row, retains row clock) (entries (cp_consumers state)).*2))) published.

(** One row's invariants against the checkpoint's scalars. *)
Definition validate_row (ledger : LedgerId) (header : Header) (id : ConsumerId) (token : CursorToken)
    (mode : CursorMode) (expires_at filter_len : N) (published : SessionSeq) (config : RegistryConfig) :
    Try StreamError () :=
  refuse_if (ck_ledger (ct_key token) ≠ ledger ∨ p_ledger (ct_position token) ≠ ledger)
    StreamError.WrongLedger;;
  refuse_if (ck_consumer (ct_key token) ≠ id) StreamError.WrongConsumer;;
  refuse_if (ct_generation token = 0 ∨ hd_revision header < ct_generation token)
    StreamError.WrongGeneration;;
  position_validate (ct_position token) ledger published;;
  refuse_if (max_filter_claims config < filter_len) StreamError.Capacity;;
  refuse_if (mode = CursorMode.Protected ∧ expires_at ≠ u64_max)
    (StreamError.Invalid "protected consumer expiry sentinel");;
  refuse_if (mode ≠ CursorMode.Protected ∧ hd_clock header < expires_at
             ∧ max_lease_ttl config < expires_at - hd_clock header)
    (StreamError.Invalid "persisted cursor lease exceeds bound");;
  refuse_if (¬ CursorMode.is_resync mode
             ∧ (mode = CursorMode.Protected ∨ hd_clock header < expires_at)
             ∧ retention_prefix (ct_position token) < hd_floor header)
    (StreamError.Invalid "live cursor lies below retained history");;
  match mode with
  | CursorMode.Seeding snapshot =>
      refuse_if (ct_position token ≠ resolved ledger snapshot)
        (StreamError.Invalid "seed cursor is not at its snapshot")
  | _ => mret ()
  end.
Definition checkpoint_header (state : CursorCheckpoint) : Header :=
  {| hd_revision := cp_revision state; hd_clock := cp_clock state; hd_floor := cp_floor state |}.
Definition validate_checkpoint (state : CursorCheckpoint) (published : SessionSeq)
    (config : RegistryConfig) : Try StreamError () :=
  refuse_if (cp_schema state ≠ 1) (StreamError.Invalid "unknown cursor checkpoint schema");;
  refuse_if (published < cp_floor state) StreamError.CursorAhead;;
  refuse_if (max_consumers config < consumers_len state) StreamError.Capacity;;
  try_each (λ '(id, row), validate_row (cp_ledger state) (checkpoint_header state) id (rw_token row)
      (rw_mode row) (rw_expires_at row) (filter_len (rw_filter row)) published config)
    (entries (cp_consumers state)).

(** ** Commands *)
Definition new_row (ledger : LedgerId) (consumer : ConsumerId) (generation : N) (scope : ContentHash)
    (position : Position) (filter : DeltaFilter) (expires_at : N) (mode : CursorMode) : CursorRecord :=
  {| rw_token := {| ct_key := {| ck_ledger := ledger; ck_consumer := consumer |};
                    ct_generation := generation; ct_scope := scope; ct_position := position |};
     rw_filter := filter; rw_expires_at := expires_at; rw_mode := mode |}.
(** What the arms of [apply_operation] compute: the change, the floor, the
    bytes that leave and the consumers retired. *)
Record Change := {
  cg_change : RowChange; cg_floor : SessionSeq; cg_leaving : N; cg_retired : list ConsumerId
}.
Definition row_change (header : Header) (change : RowChange) : Change :=
  {| cg_change := change; cg_floor := hd_floor header; cg_leaving := 0; cg_retired := [] |}.
Definition admitted (header : Header) (change : RowChange) (room : N * list ConsumerId) : Change :=
  {| cg_change := change; cg_floor := hd_floor header; cg_leaving := room.1; cg_retired := room.2 |}.

Definition operation_change `{Layout} (state : CursorCheckpoint) (header : Header)
    (operation : CursorOperation) (published : SessionSeq) (config : RegistryConfig) :
    Try StreamError Change :=
  let generation := hd_revision header in
  let clock := hd_clock header in
  match operation with
  | CursorOperation.Register consumer scope filter start expires_at =>
      validate_lease clock expires_at config;;
      position_validate start (cp_ledger state) published;;
      refuse_if (retention_prefix start < cp_floor state)
        (StreamError.ResyncRequired ResyncReason.HistoryExpired);;
      refuse_if (is_Some (cp_consumers state !! consumer)) StreamError.DuplicateConsumer;;
      room ← admit_consumer state clock config;
      mret (admitted header (RowChange.Insert consumer
        (new_row (cp_ledger state) consumer generation scope start filter expires_at CursorMode.Live))
        room)
  | CursorOperation.Acknowledge token =>
      position_validate (ct_position token) (cp_ledger state) published;;
      row ← active_row state clock (ck_consumer (ct_key token)) (ct_generation token);
      same_stream (rw_token row) token;;
      refuse_if (¬ (rw_mode row = CursorMode.Live ∨ rw_mode row = CursorMode.Protected))
        StreamError.SeedNotComplete;;
      refuse_if (position_lt (ct_position token) (ct_position (rw_token row)))
        StreamError.CursorRegression;;
      mret (row_change header (RowChange.Patch (ck_consumer (ct_key token)) (Some token) None None))
  | CursorOperation.AcknowledgeAndRenew token expires_at =>
      validate_lease clock expires_at config;;
      position_validate (ct_position token) (cp_ledger state) published;;
      row ← active_row state clock (ck_consumer (ct_key token)) (ct_generation token);
      same_stream (rw_token row) token;;
      refuse_if (rw_mode row = CursorMode.Protected)
        (StreamError.Invalid "protected consumers do not expire");;
      refuse_if (rw_mode row ≠ CursorMode.Live) StreamError.SeedNotComplete;;
      refuse_if (position_lt (ct_position token) (ct_position (rw_token row)))
        StreamError.CursorRegression;;
      mret (row_change header
        (RowChange.Patch (ck_consumer (ct_key token)) (Some token) (Some expires_at) None))
  | CursorOperation.Renew consumer generation expires_at =>
      validate_lease clock expires_at config;;
      row ← active_row state clock consumer generation;
      refuse_if (rw_mode row = CursorMode.Protected)
        (StreamError.Invalid "protected consumers do not expire");;
      mret (row_change header (RowChange.Patch consumer None (Some expires_at) None))
  | CursorOperation.BeginSeed consumer scope filter snapshot expires_at =>
      validate_lease clock expires_at config;;
      refuse_if (snapshot < cp_floor state) (StreamError.ResyncRequired ResyncReason.HistoryExpired);;
      refuse_if (published < snapshot) StreamError.CursorAhead;;
      let row := new_row (cp_ledger state) consumer generation scope
                   (resolved (cp_ledger state) snapshot) filter expires_at (CursorMode.Seeding snapshot) in
      match cp_consumers state !! consumer with
      | Some old =>
          refuse_if (rw_mode old = CursorMode.Protected)
            (StreamError.Invalid "protected consumer cannot skip history by reseeding");;
          leaving ← record_charge old;
          mret (admitted header (RowChange.Replace consumer row) (leaving, []))
      | None =>
          room ← admit_consumer state clock config;
          mret (admitted header (RowChange.Insert consumer row) room)
      end
  | CursorOperation.CompleteSeed consumer generation snapshot =>
      row ← active_row state clock consumer generation;
      refuse_if (rw_mode row ≠ CursorMode.Seeding snapshot)
        (StreamError.Invalid "seed prefix or phase mismatch");;
      mret (row_change header (RowChange.Patch consumer None None (Some CursorMode.Live)))
  | CursorOperation.RequireResync consumer generation reason =>
      row ← or_fail (cp_consumers state !! consumer) StreamError.MissingConsumer;
      refuse_if (ct_generation (rw_token row) ≠ generation) StreamError.WrongGeneration;;
      refuse_if (rw_mode row = CursorMode.Protected)
        (StreamError.Invalid "protected consumer cannot release retention through resync");;
      mret (row_change header (RowChange.Patch consumer None None (Some (CursorMode.Resync reason))))
  | CursorOperation.AdvanceFloor through =>
      refuse_if (through < cp_floor state) StreamError.CursorRegression;;
      refuse_if (published < through) StreamError.CursorAhead;;
      let allowed := retention_limit state clock published in
      refuse_if (allowed < through) (StreamError.RetentionPinned allowed);;
      mret {| cg_change := RowChange.None; cg_floor := through; cg_leaving := 0; cg_retired := [] |}
  | CursorOperation.RegisterProtected consumer scope filter start =>
      position_validate start (cp_ledger state) published;;
      refuse_if (retention_prefix start < cp_floor state)
        (StreamError.ResyncRequired ResyncReason.HistoryExpired);;
      refuse_if (is_Some (cp_consumers state !! consumer)) StreamError.DuplicateConsumer;;
      room ← admit_consumer state clock config;
      mret (admitted header (RowChange.Insert consumer
        (new_row (cp_ledger state) consumer generation scope start filter u64_max CursorMode.Protected))
        room)
  end.
(** The one row the command touches, validated as it will stand. *)
Definition validate_change (state : CursorCheckpoint) (bounds : Header) (change : RowChange)
    (published : SessionSeq) (config : RegistryConfig) : Try StreamError () :=
  match change with
  | RowChange.None => mret ()
  | RowChange.Insert consumer row | RowChange.Replace consumer row =>
      validate_row (cp_ledger state) bounds consumer (rw_token row) (rw_mode row) (rw_expires_at row)
        (filter_len (rw_filter row)) published config
  | RowChange.Patch consumer token expires_at mode =>
      row ← or_fail (cp_consumers state !! consumer) StreamError.MissingConsumer;
      validate_row (cp_ledger state) bounds consumer (default (rw_token row) token)
        (default (rw_mode row) mode) (default (rw_expires_at row) expires_at)
        (filter_len (rw_filter row)) published config
  end.
Definition apply_operation `{Layout} (state : CursorCheckpoint) (header : Header)
    (operation : CursorOperation) (published : SessionSeq) (config : RegistryConfig) :
    Try StreamError (Applied * list ConsumerId) :=
  change ← operation_change state header operation published config;
  let bounds := {| hd_revision := hd_revision header; hd_clock := hd_clock header;
                   hd_floor := cg_floor change |} in
  validate_change state bounds (cg_change change) published config;;
  mret ({| ap_change := cg_change change; ap_floor := cg_floor change; ap_leaving := cg_leaving change |},
        cg_retired change).

(** ** Prepare and publish *)
(** The ordinary permit and the owner stamp of a restored registry; what is
    reserved already is dropped if either fails. *)
Definition restore_charged (owner : Try MemoryError N) (checkpoint : CursorCheckpoint)
    (config : RegistryConfig) (budget : MemoryBudget) (completion : Allocation) :
    Fallible Levels StreamError CursorRegistry := λ F,
  match reserve budget BudgetKind.ReadPins BudgetLane.Ordinary 0 F with
  | (Err e, F) => (Err (StreamError.Memory e), allocation_drop completion F)
  | (Ok ordinary, F) =>
      match owner with
      | Err e => (Err (StreamError.Memory e), allocation_drop completion (allocation_drop ordinary F))
      | Ok owner =>
          (Ok {| rg_root := {| rt_checkpoint := checkpoint; rt_ordinary := ordinary;
                               rt_completion := completion |};
                 rg_owner := owner; rg_budget := budget; rg_config := config |}, F)
      end
  end.
Definition restore `{Layout} (owner : Try MemoryError N) (checkpoint : CursorCheckpoint)
    (published : SessionSeq) (config : RegistryConfig) (budget : MemoryBudget) :
    Fallible Levels StreamError CursorRegistry :=
  lift (refuse_if (max_consumers config = 0 ∨ max_lease_ttl config = 0)
    (StreamError.Invalid "invalid cursor registry limits"));;
  lift (validate_checkpoint checkpoint published config);;
  charge ← lift (checkpoint_charge checkpoint);
  completion ← errors_as StreamError.Memory
    (reserve budget BudgetKind.ReadPins BudgetLane.Completion charge);
  restore_charged owner checkpoint config budget completion.
Definition empty_checkpoint (ledger : LedgerId) : CursorCheckpoint :=
  {| cp_schema := 1; cp_ledger := ledger; cp_revision := 0; cp_clock := 0; cp_floor := 0;
     cp_consumers := ∅ |}.
Definition registry_new `{Layout} (owner : Try MemoryError N) (ledger : LedgerId)
    (config : RegistryConfig) (budget : MemoryBudget) : Fallible Levels StreamError CursorRegistry :=
  restore owner (empty_checkpoint ledger) 0 config budget.

(** The bytes of the one row a registration or a seed brings. *)
Definition arriving_bytes `{Layout} (config : RegistryConfig) (operation : CursorOperation) :
    Try StreamError N :=
  match operation with
  | CursorOperation.Register _ _ filter _ _ | CursorOperation.RegisterProtected _ _ filter _
  | CursorOperation.BeginSeed _ _ filter _ _ =>
      refuse_if (max_filter_claims config < filter_len filter) StreamError.Capacity;;
      f ← filter_charge filter;
      add row_charge f
  | _ => mret 0
  end.
(** The permit of a preparation that is refused is dropped. *)
Definition prepare_row `{Layout} (self : CursorRegistry) (command : CursorCommand)
    (published : SessionSeq) (lane : BudgetLane) (revision : N) (arriving : Allocation) :
    Fallible Levels StreamError PreparedCursorUpdate := λ F,
  let old := registry_checkpoint self in
  let header := {| hd_revision := revision; hd_clock := cm_now command; hd_floor := cp_floor old |} in
  match apply_operation old header (cm_operation command) published (rg_config self) with
  | Err e => (Err e, allocation_drop arriving F)
  | Ok (applied, retired) =>
      (Ok {| pu_owner := rg_owner self; pu_base_revision := cp_revision old; pu_revision := revision;
             pu_clock := cm_now command; pu_floor := ap_floor applied; pu_change := ap_change applied;
             pu_retired := retired; pu_leaving := ap_leaving applied; pu_lane := lane;
             pu_arriving := arriving |}, F)
  end.
Definition prepare_in `{Layout} (self : CursorRegistry) (command : CursorCommand)
    (published : SessionSeq) (lane : BudgetLane) : Fallible Levels StreamError PreparedCursorUpdate :=
  let old := registry_checkpoint self in
  lift (refuse_if (cm_expected_revision command ≠ cp_revision old) StreamError.StalePreparation);;
  lift (refuse_if (cm_now command < cp_clock old) StreamError.ClockRegression);;
  lift (refuse_if (published < cp_floor old) StreamError.CursorAhead);;
  revision ← lift (or_fail (checked_add (cp_revision old) 1) StreamError.CounterExhausted);
  bytes ← lift (arriving_bytes (rg_config self) (cm_operation command));
  arriving ← errors_as StreamError.Memory (reserve (rg_budget self) BudgetKind.ReadPins lane bytes);
  prepare_row self command published lane revision arriving.
Definition prepare `{Layout} (self : CursorRegistry) (command : CursorCommand) (published : SessionSeq) :
    Fallible Levels StreamError PreparedCursorUpdate :=
  prepare_in self command published
    (match cm_operation command with
     | CursorOperation.Register _ _ _ _ _ => BudgetLane.Ordinary
     | _ => BudgetLane.Completion
     end).
Definition prepare_committed `{Layout} (self : CursorRegistry) (command : CursorCommand)
    (published : SessionSeq) : Fallible Levels StreamError PreparedCursorUpdate :=
  prepare_in self command published BudgetLane.Completion.

(** The rows once the update is written. *)
Definition change_rows (change : RowChange) (rows : gmap ConsumerId CursorRecord) :
    gmap ConsumerId CursorRecord :=
  match change with
  | RowChange.None => rows
  | RowChange.Patch consumer token expires_at mode => alter (patch token expires_at mode) consumer rows
  | RowChange.Insert consumer row | RowChange.Replace consumer row => <[consumer := row]> rows
  end.
Definition publish_checkpoint (prepared : PreparedCursorUpdate) (state : CursorCheckpoint) :
    CursorCheckpoint :=
  {| cp_schema := cp_schema state; cp_ledger := cp_ledger state; cp_revision := pu_revision prepared;
     cp_clock := pu_clock prepared; cp_floor := pu_floor prepared;
     cp_consumers := change_rows (pu_change prepared)
       (foldl (λ rows consumer, delete consumer rows) (cp_consumers state) (pu_retired prepared)) |}.
Definition with_root (root : Root) (self : CursorRegistry) : CursorRegistry :=
  {| rg_root := root; rg_owner := rg_owner self; rg_budget := rg_budget self; rg_config := rg_config self |}.
(** The arriving row joins its lane: the charges and the emptied permit. *)
Definition absorb_row (root : Root) (prepared : PreparedCursorUpdate) :
    Fallible Levels MemoryError (Root * Allocation) :=
  match pu_lane prepared with
  | BudgetLane.Ordinary =>
      '(ordinary, rest) ← absorb (rt_ordinary root) (pu_arriving prepared);
      mret ({| rt_checkpoint := rt_checkpoint root; rt_ordinary := ordinary;
               rt_completion := rt_completion root |}, rest)
  | _ =>
      '(completion, rest) ← absorb (rt_completion root) (pu_arriving prepared);
      mret ({| rt_checkpoint := rt_checkpoint root; rt_ordinary := rt_ordinary root;
               rt_completion := completion |}, rest)
  end.
(** The leaving rows return their bytes, ordinary first. *)
Definition return_bytes (leaving : N) (root : Root) : Fallible Levels StreamError Root :=
  let from_ordinary := N.min leaving (al_bytes (rt_ordinary root)) in
  let from_completion := leaving - from_ordinary in
  completion_left ← lift (or_fail (checked_sub (al_bytes (rt_completion root)) from_completion)
    (StreamError.Invalid "cursor registry charge below its rows"));
  ordinary ← errors_as StreamError.Memory
    (shrink_to (rt_ordinary root) (al_bytes (rt_ordinary root) - from_ordinary));
  completion ← errors_as StreamError.Memory (shrink_to (rt_completion root) completion_left);
  mret {| rt_checkpoint := rt_checkpoint root; rt_ordinary := ordinary; rt_completion := completion |}.
Definition stale (self : CursorRegistry) (prepared : PreparedCursorUpdate) : bool :=
  bool_decide (rg_owner self ≠ pu_owner prepared
               ∨ cp_revision (registry_checkpoint self) ≠ pu_base_revision prepared)
  || match pu_change prepared with
     | RowChange.Patch consumer _ _ _ =>
         bool_decide (cp_consumers (registry_checkpoint self) !! consumer = None)
     | _ => false
     end.
Definition publish (prepared : PreparedCursorUpdate) :
    Fallible (CursorRegistry * Levels) StreamError (list ConsumerId) := λ '(self, F),
  if stale self prepared then
    (Err StreamError.StalePreparation, (self, allocation_drop (pu_arriving prepared) F))
  else match absorb_row (rg_root self) prepared F with
  | (Err e, F) => (Err (StreamError.Memory e), (self, allocation_drop (pu_arriving prepared) F))
  | (Ok (root, rest), F) =>
      match return_bytes (pu_leaving prepared) root F with
      | (Err e, F) => (Err e, (with_root root self, allocation_drop rest F))
      | (Ok root, F) =>
          let root := {| rt_checkpoint := publish_checkpoint prepared (rt_checkpoint root);
                         rt_ordinary := rt_ordinary root; rt_completion := rt_completion root |} in
          (Ok (pu_retired prepared), (with_root root self, allocation_drop rest F))
      end
  end.
Definition replay_committed `{Layout} (command : CursorCommand) (published : SessionSeq) :
    Fallible (CursorRegistry * Levels) StreamError () := λ '(self, F),
  match prepare_committed self command published F with
  | (Err e, F) => (Err e, (self, F))
  | (Ok prepared, F) =>
      match publish prepared (self, F) with
      | (Err e, s) => (Err e, s)
      | (Ok _, s) => (Ok (), s)
      end
  end.
(** [projected]: a consumer's row once the update is published. *)
Definition projected (self : CursorRegistry) (prepared : PreparedCursorUpdate) (consumer : ConsumerId) :
    option CursorRecord :=
  let current := cp_consumers (registry_checkpoint self) !! consumer in
  if decide (consumer ∈ pu_retired prepared) then None
  else match pu_change prepared with
  | RowChange.Insert changed row | RowChange.Replace changed row =>
      if decide (changed = consumer) then Some row else current
  | RowChange.Patch changed token expires_at mode =>
      if decide (changed = consumer) then patch token expires_at mode <$> current else current
  | RowChange.None => current
  end.
