(* ===== verification/RegistryLaws.v ===== *)
(** * Laws of the cursor registry

    [validate_row] and [validate_checkpoint] as predicates, what a command
    changes, and that every command keeps every row valid: the clock only
    expires rows and the floor moves under the retention limit. *)
From stdpp Require Import prelude gmap strings fin_maps.
From Stdlib Require Import NArith.
From S2P Require Import Prelude Vocabulary Objects Fallible Budget Stream Registry.
#[local] Open Scope N_scope.

(** ** Validity of a row and of a checkpoint *)
Record row_valid (ledger : LedgerId) (header : Header) (id : ConsumerId) (token : CursorToken)
    (mode : CursorMode) (expires_at len : N) (published : SessionSeq) (config : RegistryConfig) : Prop := {
  rv_key : ct_key token = {| ck_ledger := ledger; ck_consumer := id |};
  rv_ledger : p_ledger (ct_position token) = ledger;
  rv_generation : 1 <= ct_generation token <= hd_revision header;
  rv_published : p_sequence (ct_position token) <= published;
  rv_origin : p_sequence (ct_position token) = 0 → p_offset (ct_position token) = PositionOffset.Resolved;
  rv_filter : len <= max_filter_claims config;
  rv_protected : mode = CursorMode.Protected → expires_at = u64_max;
  rv_lease : mode ≠ CursorMode.Protected → hd_clock header < expires_at →
    expires_at - hd_clock header <= max_lease_ttl config;
  rv_retained : CursorMode.is_resync mode = false →
    mode = CursorMode.Protected ∨ hd_clock header < expires_at →
    hd_floor header <= retention_prefix (ct_position token);
  rv_seed : ∀ snapshot, mode = CursorMode.Seeding snapshot → ct_position token = resolved ledger snapshot
}.
Lemma validate_row_ok ledger header id token mode expires_at len published config u :
  validate_row ledger header id token mode expires_at len published config = Ok u ↔
  row_valid ledger header id token mode expires_at len published config.
Proof.
  unfold validate_row. rewrite !refuse_then_ok, try_bind_ok. destruct u. split.
  - intros (H1 & H2%dec_stable & H3 & [] & (? & ? & ?)%position_validate_ok & Hrest).
    rewrite !refuse_then_ok in Hrest. destruct Hrest as (Hf & Hp & Hl & H7 & H8).
    assert (ck_ledger (ct_key token) = ledger ∧ p_ledger (ct_position token) = ledger) as [? ?].
    { split; apply dec_stable; intros ?; apply H1; auto. }
    split; [by destruct token as [[]]; simpl in *; subst|done|lia|done|done|lia| | | |].
    + intros ->. apply dec_stable. intros ?. by apply Hp.
    + intros ? ?. destruct (decide (max_lease_ttl config < expires_at - hd_clock header)); [by destruct Hl|lia].
    + intros Hr ?. destruct (decide (retention_prefix (ct_position token) < hd_floor header)); [|lia].
      exfalso. apply H7. rewrite Hr. split_and!; [by intros []|done|done].
    + intros snapshot ->. apply refuse_if_ok in H8. by apply dec_stable.
  - intros [Hk Hl [??] ? ? ? Hprot Hlease Hret Hseed]. rewrite Hk. simpl.
    split_and!; [intros [|]; done|intros []; done|intros [|]; lia|].
    exists (). split; [by apply position_validate_ok|]. rewrite !refuse_then_ok.
    split_and!; [lia|intros [? []]; auto|intros (? & ? & ?)|intros (Hr & ? & ?)|].
    + assert (expires_at - hd_clock header <= max_lease_ttl config) by auto. lia.
    + apply Is_true_false in Hr. specialize (Hret Hr ltac:(done)). lia.
    + destruct mode; try done. apply refuse_if_ok. rewrite (Hseed snapshot); [by intros []|done].
Qed.
Definition record_valid (state : CursorCheckpoint) (header : Header) (published : SessionSeq)
    (config : RegistryConfig) (id : ConsumerId) (row : CursorRecord) : Prop :=
  row_valid (cp_ledger state) header id (rw_token row) (rw_mode row) (rw_expires_at row)
    (filter_len (rw_filter row)) published config.
Record checkpoint_valid (state : CursorCheckpoint) (published : SessionSeq) (config : RegistryConfig) :
    Prop := {
  cv_schema : cp_schema state = 1;
  cv_floor : cp_floor state <= published;
  cv_len : consumers_len state <= max_consumers config;
  cv_rows : map_Forall (record_valid state (checkpoint_header state) published config) (cp_consumers state)
}.
Lemma validate_checkpoint_ok state published config u :
  validate_checkpoint state published config = Ok u ↔ checkpoint_valid state published config.
Proof.
  unfold validate_checkpoint. rewrite !refuse_then_ok, try_each_ok. split.
  - intros (H1%dec_stable & ? & ? & Hrows). split; [done|lia|lia|].
    intros id row Hrow. apply validate_row_ok with (u := ()).
    by apply (Hrows (id, row)), elem_of_entries.
  - intros [? ? ? Hrows]. split_and!; [naive_solver|lia|lia|].
    intros [id row] Hrow%elem_of_entries. apply validate_row_ok. by apply Hrows.
Qed.
(** A row stays valid as the scalars move on, if the new floor leaves what the
    row still retains. *)
Lemma row_valid_mono ledger h h' id token mode expires_at len published published' config :
  row_valid ledger h id token mode expires_at len published config →
  hd_revision h <= hd_revision h' → hd_clock h <= hd_clock h' → published <= published' →
  (CursorMode.is_resync mode = false → mode = CursorMode.Protected ∨ hd_clock h' < expires_at →
   hd_floor h' <= retention_prefix (ct_position token)) →
  row_valid ledger h' id token mode expires_at len published' config.
Proof.
  intros [? ? ? ? ? ? ? Hlease ? ?] ? ? ? Hfloor. split; try done; try lia.
  intros Hm ?. assert (expires_at - hd_clock h <= max_lease_ttl config) by (apply Hlease; [done|lia]).
  lia.
Qed.

(** ** Retention *)
Lemma least_is_Some l : l ≠ [] → is_Some (least l).
Proof. destruct l; [done|]. by eexists. Qed.
(** The retention limit lies at or below the prefix of every row that retains
    history. *)
Lemma retention_limit_le state clock published id row :
  cp_consumers state !! id = Some row → retains row clock = true →
  retention_limit state clock published <= retention_prefix (ct_position (rw_token row)).
Proof.
  intros Hrow Hret. unfold retention_limit.
  set (l := (λ row, retention_prefix (ct_position (rw_token row))) <$> filter _ _).
  assert (Hin : retention_prefix (ct_position (rw_token row)) ∈ l).
  { apply list_elem_of_fmap. exists row. split; [done|]. apply list_elem_of_filter.
    split; [by rewrite Hret|]. apply elem_of_entries_snd. by exists id. }
  destruct (least_is_Some l) as [m Hm]; [intros Hl; rewrite Hl in Hin; set_solver|].
  rewrite Hm. simpl. pose proof (least_le _ _ _ Hm Hin). lia.
Qed.
Lemma retention_limit_published state clock published : retention_limit state clock published <= published.
Proof. unfold retention_limit. lia. Qed.
Lemma retains_spec row clock :
  retains row clock = true ↔
  rw_mode row = CursorMode.Protected ∨
  (clock < rw_expires_at row ∧ CursorMode.is_resync (rw_mode row) = false).
Proof.
  unfold retains. rewrite orb_true_iff, andb_true_iff, !bool_decide_eq_true, negb_true_iff. done.
Qed.

(** ** Charges *)
Lemma add_ok a b c : add a b = Ok c ↔ c = a + b ∧ a + b <= u64_max.
Proof. unfold add. rewrite or_fail_ok, checked_add_Some. intuition (subst; auto). Qed.
Lemma mul_ok a b c : mul a b = Ok c ↔ c = a * b ∧ a * b <= u64_max.
Proof.
  unfold mul, checked_mul. rewrite or_fail_ok. destruct (N.leb_spec (a * b) u64_max); split; naive_solver lia.
Qed.
Section charges.
Context `{!Layout}.
(** What a row holds, without the overflow checks. *)
Definition row_bytes (row : CursorRecord) : N := row_charge + filter_len (rw_filter row) * 416.
Definition list_bytes (l : list (ConsumerId * CursorRecord)) : N :=
  foldr (λ x total, row_bytes x.2 + total) 0 l.
Definition rows_bytes (rows : gmap ConsumerId CursorRecord) : N := list_bytes (map_to_list rows).
#[export] Instance list_bytes_proper : Proper ((≡ₚ) ==> (=)) list_bytes.
Proof. apply (foldr_permutation_proper (=)); [intros ?; apply _|intros; lia]. Qed.
Lemma filter_charge_ok f c : filter_charge f = Ok c ↔ c = filter_len f * 416 ∧ c <= u64_max.
Proof. unfold filter_charge. simpl. rewrite mul_ok. intuition (subst; done). Qed.
Lemma record_charge_ok row c : record_charge row = Ok c ↔ c = row_bytes row ∧ c <= u64_max.
Proof.
  unfold record_charge. rewrite try_bind_ok. setoid_rewrite filter_charge_ok. setoid_rewrite add_ok.
  unfold row_bytes. split; [naive_solver|]. intros [-> ?]. eexists. split_and!; [done| |done..]. lia.
Qed.
Lemma rows_bytes_insert rows id row :
  rows !! id = None → rows_bytes (<[id := row]> rows) = row_bytes row + rows_bytes rows.
Proof. intros. unfold rows_bytes. by rewrite map_to_list_insert. Qed.
Lemma rows_bytes_delete rows id row :
  rows !! id = Some row → rows_bytes rows = row_bytes row + rows_bytes (delete id rows).
Proof. intros. unfold rows_bytes. by rewrite <-(map_to_list_delete rows id row). Qed.
Lemma rows_bytes_replace rows id row row' :
  rows !! id = Some row → rows_bytes (<[id := row']> rows) + row_bytes row = row_bytes row' + rows_bytes rows.
Proof.
  intros Hrow. rewrite <-insert_delete_eq, rows_bytes_insert by apply lookup_delete_eq.
  rewrite (rows_bytes_delete _ _ _ Hrow). lia.
Qed.
(** A charged fold over the rows in order is their sum. *)
Lemma rows_bytes_entries rows : rows_bytes rows = list_bytes (entries rows).
Proof. unfold rows_bytes. by rewrite entries_perm. Qed.
Lemma charge_fold_ok l acc c :
  acc <= u64_max →
  try_fold (λ charge '(_, row), c ← record_charge row; add charge c) acc l = Ok c ↔
  c = acc + list_bytes l ∧ c <= u64_max.
Proof.
  revert acc. induction l as [|[id row] l IH]; intros acc Hacc; simpl.
  { split; [intros [= <-]; split; [lia|done]|]. intros [-> ?]. by rewrite N.add_0_r. }
  rewrite !try_bind_ok. setoid_rewrite try_bind_ok. setoid_rewrite record_charge_ok.
  setoid_rewrite add_ok. split.
  - intros (x & (y & [-> ?] & -> & ?) & Hx). apply IH in Hx; [|done]. lia.
  - intros [-> ?]. eexists. split; [eexists; split_and!; [done| |done|]; lia|]. apply IH; [lia|]. lia.
Qed.
Definition base_bytes : N := size_of_Root + ALLOCATOR_OVERHEAD.
Lemma checkpoint_charge_ok state c :
  checkpoint_charge state = Ok c ↔ c = base_bytes + rows_bytes (cp_consumers state) ∧ c <= u64_max.
Proof.
  unfold checkpoint_charge, base_bytes. rewrite try_bind_ok, rows_bytes_entries. setoid_rewrite add_ok. split.
  - intros (x & [-> ?] & Hx). apply charge_fold_ok in Hx; [|done]. lia.
  - intros [-> ?]. eexists. split; [split; [done|lia]|]. apply charge_fold_ok; lia.
Qed.

(** ** The released rows *)
Definition retired_rows (state : CursorCheckpoint) (clock : N) : list (ConsumerId * CursorRecord) :=
  filter (λ x, released x.2 clock) (entries (cp_consumers state)).
Lemma retire_fold_ok clock l leaving retired r :
  try_fold (λ '(leaving, retired) '(id, row),
    if released row clock then
      c ← record_charge row; leaving ← add leaving c; mret (leaving, retired ++ [id])
    else mret (leaving, retired)) (leaving, retired) l = Ok r →
  r.2 = retired ++ (filter (λ x : ConsumerId * CursorRecord, released x.2 clock) l).*1 ∧
  r.1 = leaving + list_bytes (filter (λ x : ConsumerId * CursorRecord, released x.2 clock) l).
Proof.
  revert leaving retired. induction l as [|[id row] l IH]; intros leaving retired Hr; simpl in Hr.
  { ok_inv. rewrite filter_nil. simpl. rewrite app_nil_r. split; [done|lia]. }
  rewrite filter_cons. simpl. destruct (released row clock) eqn:Hrel; simpl in Hr |- *; ok_inv.
  - match goal with H : record_charge _ = _ |- _ => apply record_charge_ok in H as [-> ?] end.
    match goal with H : add _ _ = _ |- _ => apply add_ok in H as [-> ?] end.
    destruct (IH _ _ Hr) as [-> ->]. simpl. rewrite <-app_assoc. split; [done|lia].
  - by apply IH.
Qed.
Lemma retire_released_ok state clock leaving retired :
  retire_released state clock = Ok (leaving, retired) →
  retired = (retired_rows state clock).*1 ∧
  leaving = list_bytes (retired_rows state clock).
Proof. intros Hr. by apply retire_fold_ok in Hr as [? ?]. Qed.
Lemma retired_rows_spec state clock id row :
  (id, row) ∈ retired_rows state clock ↔
  cp_consumers state !! id = Some row ∧ released row clock = true.
Proof. unfold retired_rows. rewrite list_elem_of_filter, elem_of_entries, Is_true_true. naive_solver. Qed.
Lemma retired_rows_nodup state clock : NoDup (retired_rows state clock).*1.
Proof.
  eapply sublist_NoDup; [apply (entries_fst_nodup (cp_consumers state))|].
  apply fmap_sublist, sublist_filter.
Qed.

(** Deleting listed rows: which stay, how many, and what they hold. *)
Definition delete_all (ids : list ConsumerId) (rows : gmap ConsumerId CursorRecord) :=
  foldl (λ rows consumer, delete consumer rows) rows ids.
Lemma lookup_delete_all ids rows id :
  delete_all ids rows !! id = if decide (id ∈ ids) then None else rows !! id.
Proof.
  revert rows. induction ids as [|i ids IH]; intros rows.
  { by rewrite decide_False by set_solver. }
  change (delete_all (i :: ids) rows) with (delete_all ids (delete i rows)). rewrite IH.
  destruct (decide (id = i)) as [->|Hne].
  - rewrite lookup_delete_eq, (decide_True (P := i ∈ i :: ids)) by set_solver. by case_decide.
  - rewrite lookup_delete_ne by done. repeat case_decide; set_solver.
Qed.
Lemma delete_all_rows (l : list (ConsumerId * CursorRecord)) rows :
  NoDup l.*1 → (∀ id row, (id, row) ∈ l → rows !! id = Some row) →
  (size (delete_all l.*1 rows) + length l = size rows)%nat ∧
  rows_bytes (delete_all l.*1 rows) + list_bytes l = rows_bytes rows.
Proof.
  revert rows. induction l as [|[id row] l IH]; intros rows Hnd Hl; [simpl; split; lia|].
  apply NoDup_cons in Hnd as [Hnin Hnd]. unfold delete_all in *. cbn [fmap list_fmap foldl fst] in *.
  assert (Hrow : rows !! id = Some row) by (apply Hl; left).
  destruct (IH (delete id rows) Hnd) as [Hs Hb].
  { intros id' row' Hin. rewrite lookup_delete_ne; [apply Hl; by right|].
    intros <-. apply Hnin. by apply list_elem_of_fmap_2' with (id, row'). }
  rewrite (rows_bytes_delete _ _ _ Hrow). simpl.
  pose proof (map_size_delete_Some id rows (ex_intro _ row Hrow)) as Hd.
  assert (size rows ≠ 0)%nat by (intros ?%map_size_empty_inv; subst; by rewrite lookup_empty in Hrow).
  split; lia.
Qed.

(** ** What a command changes *)
(** Room was made for one more consumer. *)
Definition room_made (state : CursorCheckpoint) (config : RegistryConfig) (clock : N) (cg : Change) : Prop :=
  ∃ rows : list (ConsumerId * CursorRecord),
    cg_retired cg = rows.*1 ∧ cg_leaving cg = list_bytes rows ∧ NoDup rows.*1 ∧
    (∀ id row, (id, row) ∈ rows → cp_consumers state !! id = Some row ∧ released row clock = true) ∧
    consumers_len state - N.of_nat (length rows) < max_consumers config.
Lemma admit_consumer_ok state clock config header change room :
  admit_consumer state clock config = Ok room →
  room_made state config clock (admitted header change room).
Proof.
  intros Ha. unfold admit_consumer in Ha. apply try_bind_ok in Ha as ([leaving retired] & Hr & Ha).
  apply refuse_then_ok in Ha as [Hroom Ha]. ok_inv. case_decide.
  - apply retire_released_ok in Hr as [-> ->]. exists (retired_rows state clock); simpl.
    split_and!; [done|done|apply retired_rows_nodup|intros; by apply retired_rows_spec|].
    rewrite length_fmap in Hroom. lia.
  - ok_inv. exists []; simpl in *. split_and!; [done|done|constructor|set_solver|lia].
Qed.
(** A patch keeps the row's stream, moves its position forward only, and leaves
    a protected row's lease and mode alone. *)
Record patch_lawful (row : CursorRecord) (token : option CursorToken) (expires_at : option N)
    (mode : option CursorMode) : Prop := {
  pl_token : ∀ t, token = Some t →
    ct_key t = ct_key (rw_token row) ∧ ct_generation t = ct_generation (rw_token row) ∧
    ct_scope t = ct_scope (rw_token row) ∧
    p_ledger (ct_position t) = p_ledger (ct_position (rw_token row)) ∧
    position_le (ct_position (rw_token row)) (ct_position t);
  pl_protected : rw_mode row = CursorMode.Protected → expires_at = None ∧ mode = None;
  pl_mode : ∀ m, mode = Some m → m ≠ CursorMode.Protected
}.
Definition change_lawful (state : CursorCheckpoint) (header : Header) (published : SessionSeq)
    (config : RegistryConfig) (cg : Change) : Prop :=
  match cg_change cg with
  | RowChange.None =>
      cg_retired cg = [] ∧ cg_leaving cg = 0 ∧ cp_floor state <= cg_floor cg ∧
      cg_floor cg <= retention_limit state (hd_clock header) published
  | RowChange.Patch consumer token expires_at mode =>
      cg_retired cg = [] ∧ cg_leaving cg = 0 ∧ cg_floor cg = hd_floor header ∧
      ∃ row, cp_consumers state !! consumer = Some row ∧ patch_lawful row token expires_at mode
  | RowChange.Insert consumer row =>
      cg_floor cg = hd_floor header ∧ cp_consumers state !! consumer = None ∧
      ct_generation (rw_token row) = hd_revision header ∧ room_made state config (hd_clock header) cg
  | RowChange.Replace consumer row =>
      cg_retired cg = [] ∧ cg_floor cg = hd_floor header ∧
      ct_generation (rw_token row) = hd_revision header ∧
      ∃ old, cp_consumers state !! consumer = Some old ∧ rw_mode old ≠ CursorMode.Protected ∧
        cg_leaving cg = row_bytes old
  end.
Lemma active_row_ok state clock consumer generation row :
  active_row state clock consumer generation = Ok row →
  cp_consumers state !! consumer = Some row ∧ ct_generation (rw_token row) = generation ∧
  CursorMode.is_resync (rw_mode row) = false ∧
  (rw_mode row = CursorMode.Protected ∨ clock < rw_expires_at row).
Proof.
  unfold active_row. intros Ha. apply try_bind_ok in Ha as (r & Hr & Ha). apply or_fail_ok in Hr.
  rewrite !refuse_then_ok in Ha. destruct Ha as (Hg%dec_stable & He & Hm).
  destruct (rw_mode r) eqn:Hmode; ok_inv; rewrite Hmode; (split_and!; [done..|]);
    try (by left); right; apply dec_stable; intros ?; apply He; (split; [done|lia]).
Qed.
(** An acknowledgment is a forward move on the row's own stream. *)
Lemma acknowledge_lawful row token expires_at :
  same_stream (rw_token row) token = Ok () →
  ¬ position_lt (ct_position token) (ct_position (rw_token row)) →
  (rw_mode row = CursorMode.Protected → expires_at = None) →
  patch_lawful row (Some token) expires_at None.
Proof.
  intros (? & ? & ? & ? & ?)%same_stream_ok Hn%position_nlt ?.
  split; [|by auto|done]. intros t [= <-]. by split_and!.
Qed.
Lemma operation_change_ok state header operation published config cg :
  operation_change state header operation published config = Ok cg → hd_floor header = cp_floor state →
  change_lawful state header published config cg.
Proof.
  intros Hop Hfloor. destruct operation; simpl in Hop.
  - (* Register *)
    repeat (apply try_bind_ok in Hop as (? & ? & Hop)). ok_inv.
    split_and!; simpl; [done|by apply eq_None_not_Some|done|by apply admit_consumer_ok].
  - (* Acknowledge *)
    apply try_bind_ok in Hop as ([] & _ & Hop). apply try_bind_ok in Hop as (row & Hrow & Hop).
    apply try_bind_ok in Hop as ([] & Hs & Hop). rewrite !refuse_then_ok in Hop.
    destruct Hop as (_ & Hn & Hop). ok_inv. apply active_row_ok in Hrow as (Hrow & _).
    split_and!; simpl; [done..|]. exists row. split; [done|]. by apply acknowledge_lawful.
  - (* Renew *)
    apply try_bind_ok in Hop as ([] & _ & Hop). apply try_bind_ok in Hop as (row & Hrow & Hop).
    rewrite refuse_then_ok in Hop. destruct Hop as (Hp & Hop). ok_inv.
    apply active_row_ok in Hrow as (Hrow & _).
    split_and!; simpl; [done..|]. exists row. split; [done|]. by split.
  - (* BeginSeed *)
    apply try_bind_ok in Hop as ([] & _ & Hop). rewrite !refuse_then_ok in Hop.
    destruct Hop as (_ & _ & Hop). destruct (cp_consumers state !! consumer) as [old|] eqn:Hold.
    + rewrite refuse_then_ok in Hop. destruct Hop as (? & Hop).
      apply try_bind_ok in Hop as (c & Hc & Hop). ok_inv. apply record_charge_ok in Hc as [-> _].
      split_and!; simpl; [done..|]. by exists old.
    + apply try_bind_ok in Hop as (room & ? & Hop). ok_inv.
      split_and!; simpl; [done..|]. by apply admit_consumer_ok.
  - (* CompleteSeed *)
    apply try_bind_ok in Hop as (row & Hrow & Hop). rewrite refuse_then_ok in Hop.
    destruct Hop as (Hp%dec_stable & Hop). ok_inv. apply active_row_ok in Hrow as (Hrow & _).
    split_and!; simpl; [done..|]. exists row. split; [done|]. split; [done| |by intros ? [= <-]].
    by rewrite Hp.
  - (* RequireResync *)
    apply try_bind_ok in Hop as (row & Hrow & Hop). apply or_fail_ok in Hrow.
    rewrite !refuse_then_ok in Hop. destruct Hop as (_ & ? & Hop). ok_inv.
    split_and!; simpl; [done..|]. exists row. split; [done|]. split; [done..|by intros ? [= <-]].
  - (* AdvanceFloor *)
    rewrite !refuse_then_ok in Hop. destruct Hop as (? & ? & ? & Hop). ok_inv.
    split_and!; simpl; [done..|lia|lia].
  - (* RegisterProtected *)
    repeat (apply try_bind_ok in Hop as (? & ? & Hop)). ok_inv.
    split_and!; simpl; [done|by apply eq_None_not_Some|done|by apply admit_consumer_ok].
  - (* AcknowledgeAndRenew *)
    apply try_bind_ok in Hop as ([] & _ & Hop). apply try_bind_ok in Hop as ([] & _ & Hop).
    apply try_bind_ok in Hop as (row & Hrow & Hop). apply try_bind_ok in Hop as ([] & Hs & Hop).
    rewrite !refuse_then_ok in Hop. destruct Hop as (? & _ & Hn & Hop). ok_inv.
    apply active_row_ok in Hrow as (Hrow & _).
    split_and!; simpl; [done..|]. exists row. split; [done|]. by apply acknowledge_lawful.
Qed.
End charges.

(** ** Every command keeps the checkpoint valid *)
Section preserve.
Context `{!Layout}.
Implicit Types (state : CursorCheckpoint) (config : RegistryConfig).
Definition next_checkpoint (state : CursorCheckpoint) (header : Header) (applied : Applied)
    (retired : list ConsumerId) : CursorCheckpoint :=
  {| cp_schema := cp_schema state; cp_ledger := cp_ledger state; cp_revision := hd_revision header;
     cp_clock := hd_clock header; cp_floor := ap_floor applied;
     cp_consumers := change_rows (ap_change applied) (delete_all retired (cp_consumers state)) |}.
Record follows (state : CursorCheckpoint) (header : Header) (before published : SessionSeq) : Prop := {
  fw_revision : hd_revision header = cp_revision state + 1;
  fw_clock : cp_clock state <= hd_clock header;
  fw_floor : hd_floor header = cp_floor state;
  fw_published : before <= published
}.
Lemma apply_operation_ok state header operation published config applied retired :
  apply_operation state header operation published config = Ok (applied, retired) →
  hd_floor header = cp_floor state →
  ∃ cg, applied = {| ap_change := cg_change cg; ap_floor := cg_floor cg; ap_leaving := cg_leaving cg |} ∧
    retired = cg_retired cg ∧ change_lawful state header published config cg ∧
    validate_change state {| hd_revision := hd_revision header; hd_clock := hd_clock header;
      hd_floor := cg_floor cg |} (cg_change cg) published config = Ok ().
Proof.
  intros Ha Hfloor. unfold apply_operation in Ha.
  apply try_bind_ok in Ha as (cg & Hcg & Ha). apply try_bind_ok in Ha as ([] & Hv & Ha). ok_inv.
  exists cg. split_and!; [done..| |done]. by apply operation_change_ok in Hcg.
Qed.
(** An untouched row stays valid. *)
Lemma untouched_valid state header before published config floor id row :
  checkpoint_valid state before config → follows state header before published →
  cp_consumers state !! id = Some row →
  floor = cp_floor state ∨ floor <= retention_limit state (hd_clock header) published →
  row_valid (cp_ledger state)
    {| hd_revision := hd_revision header; hd_clock := hd_clock header; hd_floor := floor |} id
    (rw_token row) (rw_mode row) (rw_expires_at row) (filter_len (rw_filter row)) published config.
Proof.
  intros Hv Hf Hrow Hfloor. pose proof (cv_rows _ _ _ Hv _ _ Hrow) as Hr.
  pose proof (fw_revision _ _ _ _ Hf). pose proof (fw_clock _ _ _ _ Hf).
  eapply row_valid_mono; [exact Hr|simpl; lia|done|by apply (fw_published _ _ _ _ Hf)|].
  simpl. intros Hm Hret. destruct Hfloor as [->|Hfloor].
  - apply (rv_retained _ _ _ _ _ _ _ _ _ Hr Hm). simpl. destruct Hret; [by left|right; lia].
  - etrans; [exact Hfloor|]. eapply retention_limit_le; [done|]. apply retains_spec.
    destruct Hret; [by left|by right].
Qed.
Lemma next_checkpoint_valid state header before operation published config applied retired :
  checkpoint_valid state before config → follows state header before published →
  cp_floor state <= published →
  apply_operation state header operation published config = Ok (applied, retired) →
  checkpoint_valid (next_checkpoint state header applied retired) published config.
Proof.
  intros Hv Hf Hpub Ha. pose proof (fw_floor _ _ _ _ Hf) as Hfl.
  apply apply_operation_ok in Ha as (cg & -> & -> & Hcg & Hval); [|done].
  unfold change_lawful in Hcg. destruct (cg_change cg) as [|c t e m|c r|c r] eqn:Hch; simpl in Hval.
  - destruct Hcg as (Hret & _ & ? & Hlim). split; simpl; rewrite ?Hch, ?Hret; simpl.
    + apply Hv.
    + pose proof (retention_limit_published state (hd_clock header) published). lia.
    + unfold consumers_len. simpl. rewrite ?Hch, ?Hret. apply (cv_len _ _ _ Hv).
    + intros id row Hrow. by eapply (untouched_valid state header before); eauto.
  - destruct Hcg as (Hret & _ & Hfloor & row & Hrow & _).
    split; simpl; rewrite ?Hch, ?Hret, ?Hfloor, ?Hfl; simpl; [apply Hv|done| |].
    + unfold consumers_len. simpl. rewrite ?Hch, ?Hret. simpl. rewrite <-(size_dom (D := gset _)), dom_alter_L, size_dom. apply (cv_len _ _ _ Hv).
    + apply try_bind_ok in Hval as (row' & Hrow' & Hval). apply or_fail_ok in Hrow'. simplify_eq.
      rewrite Hfloor, Hfl in Hval. apply validate_row_ok in Hval.
      intros id row'. destruct (decide (id = c)) as [->|Hne].
      * rewrite lookup_alter_eq, Hrow. simpl. intros [= <-]. exact Hval.
      * rewrite lookup_alter_ne by done. intros Hid. by eapply (untouched_valid state header before); eauto.
  - destruct Hcg as (Hfloor & Hc & _ & rows & Hret & _ & Hnd & Hrows & Hroom).
    split; simpl; rewrite ?Hch, ?Hret, ?Hfloor, ?Hfl; simpl; [apply Hv|done| |].
    + unfold consumers_len in *. simpl. rewrite ?Hch, ?Hret. simpl.
      destruct (delete_all_rows rows (cp_consumers state) Hnd) as [Hsz _].
      { intros. by apply Hrows. }
      rewrite map_size_insert. rewrite lookup_delete_all, Hc. case_decide; lia.
    + rewrite Hfloor, Hfl in Hval. apply validate_row_ok in Hval.
      intros id row'. destruct (decide (id = c)) as [->|Hne].
      * rewrite lookup_insert_eq. intros [= <-]. exact Hval.
      * rewrite lookup_insert_ne by done. rewrite lookup_delete_all. case_decide; [done|].
        intros Hid. by eapply (untouched_valid state header before); eauto.
  - destruct Hcg as (Hret & Hfloor & _ & old & Hold & _).
    split; simpl; rewrite ?Hch, ?Hret, ?Hfloor, ?Hfl; simpl; [apply Hv|done| |].
    + unfold consumers_len. simpl. rewrite ?Hch, ?Hret. simpl. rewrite map_size_insert, Hold. apply (cv_len _ _ _ Hv).
    + rewrite Hfloor, Hfl in Hval. apply validate_row_ok in Hval.
      intros id row'. destruct (decide (id = c)) as [->|Hne].
      * rewrite lookup_insert_eq. intros [= <-]. exact Hval.
      * rewrite lookup_insert_ne by done. intros Hid. by eapply (untouched_valid state header before); eauto.
Qed.
End preserve.

(** ** Permits of the budget *)
Lemma reserve_permit budget kind lane bytes F a F' :
  reserve budget kind lane bytes F = (Ok a, F') →
  a = {| al_level := budget; al_bytes := bytes; al_kind := kind; al_lane := lane |}.
Proof. intros Hr. unfold reserve in Hr. ok_inv. done. Qed.
Lemma absorb_permit a b F :
  al_level a = al_level b → al_kind a = al_kind b → al_lane a = al_lane b →
  al_bytes a + al_bytes b <= u64_max →
  ∃ F', absorb a b F = (Ok (with_bytes (al_bytes a + al_bytes b) a, with_bytes 0 b), F').
Proof.
  intros Hl Hk Hn Hs. unfold absorb, refuse_if. rewrite decide_False by naive_solver.
  unfold checked_add. rewrite (proj2 (N.leb_le _ _) Hs). by eexists.
Qed.
Lemma shrink_permit a bytes F :
  bytes <= al_bytes a → ∃ F', shrink_to a bytes F = (Ok (with_bytes bytes a), F').
Proof.
  intros Hle. unfold shrink_to, checked_sub. rewrite (proj2 (N.leb_le _ _) Hle). simpl.
  unfold mbind, fallible_bind, lift. simpl. case_decide as Hz; [|by eexists].
  exists F. assert (bytes = al_bytes a) as -> by lia. by destruct a.
Qed.

(** ** The registry's invariant *)
Section registry.
Context `{!Layout}.
Record registry_inv (self : CursorRegistry) (published : SessionSeq) : Prop := {
  ri_checkpoint : checkpoint_valid (registry_checkpoint self) published (rg_config self);
  ri_charge : al_bytes (rt_ordinary (rg_root self)) + al_bytes (rt_completion (rg_root self)) =
    base_bytes + rows_bytes (cp_consumers (registry_checkpoint self));
  ri_ordinary : ∃ n, rt_ordinary (rg_root self) =
    {| al_level := rg_budget self; al_bytes := n; al_kind := BudgetKind.ReadPins;
       al_lane := BudgetLane.Ordinary |};
  ri_completion : ∃ n, rt_completion (rg_root self) =
    {| al_level := rg_budget self; al_bytes := n; al_kind := BudgetKind.ReadPins;
       al_lane := BudgetLane.Completion |}
}.
Lemma restore_inv owner checkpoint published config budget F self F' :
  restore owner checkpoint published config budget F = (Ok self, F') → registry_inv self published.
Proof.
  unfold restore. intros Hr. ok_inv.
  match goal with H : validate_checkpoint _ _ _ = Ok _ |- _ => apply validate_checkpoint_ok in H end.
  match goal with H : checkpoint_charge _ = Ok _ |- _ => apply checkpoint_charge_ok in H as [-> ?] end.
  match goal with H : reserve _ _ _ _ _ = (Ok _, _) |- _ => apply reserve_permit in H as -> end.
  unfold restore_charged in Hr. destruct (reserve _ _ _ 0 _) as [[ordinary|e] F1] eqn:Ho; [|done].
  apply reserve_permit in Ho as ->. destruct owner; simplify_eq.
  split; simpl; [done|unfold registry_checkpoint; simpl; lia|by eexists|by eexists].
Qed.
(** The permit reserved for a command is the bytes of the row it brings. *)
Definition change_bytes (change : RowChange) : N :=
  match change with
  | RowChange.Insert _ row | RowChange.Replace _ row => row_bytes row
  | _ => 0
  end.
Lemma arriving_bytes_ok state header operation published config cg b :
  operation_change state header operation published config = Ok cg →
  arriving_bytes config operation = Ok b → b = change_bytes (cg_change cg).
Proof.
  assert (Hf : ∀ filter b', (refuse_if (max_filter_claims config < filter_len filter) StreamError.Capacity;;
     f ← filter_charge filter; add row_charge f) = Ok b' → b' = row_charge + filter_len filter * 416).
  { intros filter b' Hb. rewrite refuse_then_ok in Hb. destruct Hb as [_ Hb].
    apply try_bind_ok in Hb as (c & [-> _]%filter_charge_ok & [-> _]%add_ok). done. }
  intros Hop Hb. destruct operation; simpl in Hb; try (apply Hf in Hb as ->); ok_inv; simpl in Hop.
  all: repeat (apply try_bind_ok in Hop as (? & ? & Hop)); ok_inv; try done.
  destruct (cp_consumers state !! consumer).
  all: repeat (apply try_bind_ok in Hop as (? & ? & Hop)); ok_inv; done.
Qed.
Lemma prepare_in_ok self command published lane F prepared F' :
  prepare_in self command published lane F = (Ok prepared, F') →
  let old := registry_checkpoint self in
  let header := {| hd_revision := cp_revision old + 1; hd_clock := cm_now command; hd_floor := cp_floor old |} in
  cp_clock old <= cm_now command ∧ cp_floor old <= published ∧ cm_expected_revision command = cp_revision old ∧
  ∃ applied retired,
    apply_operation old header (cm_operation command) published (rg_config self) = Ok (applied, retired) ∧
    prepared = {| pu_owner := rg_owner self; pu_base_revision := cp_revision old;
      pu_revision := cp_revision old + 1; pu_clock := cm_now command; pu_floor := ap_floor applied;
      pu_change := ap_change applied; pu_retired := retired; pu_leaving := ap_leaving applied;
      pu_lane := lane;
      pu_arriving := {| al_level := rg_budget self; al_bytes := change_bytes (ap_change applied);
        al_kind := BudgetKind.ReadPins; al_lane := lane |} |}.
Proof.
  unfold prepare_in. intros Hp. ok_inv.
  match goal with H : checked_add _ _ = Some _ |- _ => apply checked_add_Some in H as [-> ?] end.
  match goal with H : reserve _ _ _ _ _ = (Ok _, _) |- _ => apply reserve_permit in H as -> end.
  unfold prepare_row in Hp. destruct (apply_operation _ _ _ _ _) as [[applied retired]|] eqn:Ha; [|done].
  simplify_eq. simpl. split_and!; [lia|lia|by apply dec_stable|]. exists applied, retired. split; [done|].
  do 2 f_equal. unfold apply_operation in Ha. apply try_bind_ok in Ha as (cg & Hcg & Ha).
  apply try_bind_ok in Ha as ([] & _ & Ha). ok_inv. simpl. by eapply arriving_bytes_ok.
Qed.

(** The rows of the next checkpoint hold what the charges say. *)
Lemma next_rows_bytes state header published config cg :
  change_lawful state header published config cg →
  rows_bytes (change_rows (cg_change cg) (delete_all (cg_retired cg) (cp_consumers state)))
    + cg_leaving cg = change_bytes (cg_change cg) + rows_bytes (cp_consumers state).
Proof.
  unfold change_lawful. destruct (cg_change cg) as [|c t e m|c r|c r]; simpl.
  - intros (-> & -> & _). simpl. lia.
  - intros (-> & -> & _ & row & Hrow & _). simpl.
    assert (Halter : alter (patch t e m) c (cp_consumers state) =
      <[c := patch t e m row]> (cp_consumers state)).
    { apply map_eq. intros id. destruct (decide (id = c)) as [->|].
      - by rewrite lookup_alter_eq, lookup_insert_eq, Hrow.
      - by rewrite lookup_alter_ne, lookup_insert_ne. }
    rewrite Halter. pose proof (rows_bytes_replace _ _ _ (patch t e m row) Hrow) as Hb.
    assert (row_bytes (patch t e m row) = row_bytes row) by done. lia.
  - intros (_ & Hc & _ & rows & -> & -> & Hnd & Hrows & _).
    destruct (delete_all_rows rows (cp_consumers state) Hnd) as [_ Hb]; [intros; by apply Hrows|].
    rewrite rows_bytes_insert; [lia|]. rewrite lookup_delete_all, Hc. by case_decide.
  - intros (-> & _ & _ & old & Hold & _ & ->). simpl.
    pose proof (rows_bytes_replace _ _ _ r Hold). lia.
Qed.
(** Bytes leave, ordinary first, as long as the charges cover them. *)
Lemma return_bytes_ok leaving root F :
  leaving <= al_bytes (rt_ordinary root) + al_bytes (rt_completion root) →
  ∃ n m F', return_bytes leaving root F =
    (Ok {| rt_checkpoint := rt_checkpoint root; rt_ordinary := with_bytes n (rt_ordinary root);
           rt_completion := with_bytes m (rt_completion root) |}, F') ∧
    n + m + leaving = al_bytes (rt_ordinary root) + al_bytes (rt_completion root).
Proof.
  intros Hle. unfold return_bytes. set (o := al_bytes (rt_ordinary root)) in *.
  set (c := al_bytes (rt_completion root)) in *.
  assert (Hs : checked_sub c (leaving - N.min leaving o) = Some (c - (leaving - N.min leaving o))).
  { apply checked_sub_Some. lia. }
  rewrite Hs. unfold mbind, fallible_bind, lift, errors_as, map_err. simpl.
  destruct (shrink_permit (rt_ordinary root) (o - N.min leaving o) F) as [F1 ->]; [lia|]. simpl.
  destruct (shrink_permit (rt_completion root) (c - (leaving - N.min leaving o)) F1) as [F2 ->]; [lia|].
  simpl. eexists _, _, F2. split; [done|]. lia.
Qed.
Definition lane_permit (lane : BudgetLane) (root : Root) : Allocation :=
  match lane with BudgetLane.Ordinary => rt_ordinary root | _ => rt_completion root end.
Lemma absorb_row_ok root prepared F :
  pu_lane prepared ≠ BudgetLane.Committed →
  al_level (lane_permit (pu_lane prepared) root) = al_level (pu_arriving prepared) →
  al_kind (lane_permit (pu_lane prepared) root) = al_kind (pu_arriving prepared) →
  al_lane (lane_permit (pu_lane prepared) root) = al_lane (pu_arriving prepared) →
  al_bytes (lane_permit (pu_lane prepared) root) + al_bytes (pu_arriving prepared) <= u64_max →
  ∃ root' rest F', absorb_row root prepared F = (Ok (root', rest), F') ∧
    rt_checkpoint root' = rt_checkpoint root ∧
    (∃ n, rt_ordinary root' = with_bytes n (rt_ordinary root)) ∧
    (∃ n, rt_completion root' = with_bytes n (rt_completion root)) ∧
    al_bytes (rt_ordinary root') + al_bytes (rt_completion root') =
    al_bytes (rt_ordinary root) + al_bytes (rt_completion root) + al_bytes (pu_arriving prepared).
Proof.
  intros Hlane Hl Hk Hn Hs. unfold absorb_row, mbind, fallible_bind.
  destruct (pu_lane prepared); simpl in *; [| |done];
    destruct (absorb_permit _ _ F Hl Hk Hn Hs) as [F1 ->]; eexists _, _, F1; (split; [done|]); simpl;
    (split; [done|]).
  - split; [by eexists|]. split; [exists (al_bytes (rt_completion root)); by destruct (rt_completion root)|lia].
  - split; [exists (al_bytes (rt_ordinary root)); by destruct (rt_ordinary root)|]. split; [by eexists|lia].
Qed.
Lemma absorb_row_fits root prepared F r F' :
  absorb_row root prepared F = (Ok r, F') →
  al_bytes (lane_permit (pu_lane prepared) root) + al_bytes (pu_arriving prepared) <= u64_max.
Proof.
  assert (Habs : ∀ a b x F1, absorb a b F = (Ok x, F1) → al_bytes a + al_bytes b <= u64_max).
  { intros a b x F1 Ha. unfold absorb in Ha. ok_inv.
    match goal with H : checked_add _ _ = Some _ |- _ => apply checked_add_Some in H as [-> ?] end. done. }
  unfold absorb_row. intros Hr.
  destruct (pu_lane prepared); apply fallible_bind_ok in Hr as ([? ?] & ? & Ha & _); by eapply Habs.
Qed.
Lemma publish_ok self F command before published lane prepared F0 F1 :
  registry_inv self before → before <= published → lane ≠ BudgetLane.Committed →
  prepare_in self command published lane F0 = (Ok prepared, F1) →
  al_bytes (lane_permit lane (rg_root self)) + al_bytes (pu_arriving prepared) <= u64_max →
  ∃ self' F', publish prepared (self, F) = (Ok (pu_retired prepared), (self', F')) ∧
    registry_checkpoint self' = publish_checkpoint prepared (registry_checkpoint self) ∧
    rg_owner self' = rg_owner self ∧ rg_config self' = rg_config self ∧ rg_budget self' = rg_budget self ∧
    registry_inv self' published.
Proof.
  intros [Hv Hcharge [no Ho] [nc Hc]] Hpub Hlane Hp Hfit.
  pose proof (prepare_in_ok _ _ _ _ _ _ _ Hp) as (Hclk & Hfl & _ & applied & retired & Ha & ->).
  set (header := {| hd_revision := _; hd_clock := _; hd_floor := _ |}) in Ha.
  assert (Hfw : follows (registry_checkpoint self) header before published) by done.
  pose proof (next_checkpoint_valid _ _ _ _ _ _ _ _ Hv Hfw Hfl Ha) as Hv'.
  pose proof Ha as (cg & -> & -> & Hcg & _)%apply_operation_ok; [|done].
  pose proof (next_rows_bytes _ _ _ _ _ Hcg) as Hb. simpl in Hfit.
  unfold publish.
  assert (stale self _ = false) as ->.
  { unfold stale. apply orb_false_iff. split; [apply bool_decide_eq_false; simpl; naive_solver|].
    simpl. unfold change_lawful in Hcg. destruct (cg_change cg); try done.
    destruct Hcg as (_ & _ & _ & row & Hrow & _). apply bool_decide_eq_false. by rewrite Hrow. }
  match goal with |- context [absorb_row ?r ?p ?f] =>
    destruct (absorb_row_ok r p f) as (root & rest & F2 & -> & Hcp & [n1 Ho'] & [n2 Hc'] & Hsum) end;
    [done|simpl; destruct lane; try done; unfold lane_permit; rewrite ?Ho, ?Hc; done..|exact Hfit|].
  simpl. simpl in Hsum. rewrite Ho, Hc in Hcharge, Hsum. simpl in Hcharge, Hsum.
  destruct (return_bytes_ok (cg_leaving cg) root F2) as (n & m & F3 & -> & Hnm); [lia|].
  eexists _, _. split; [done|]. unfold registry_checkpoint at 1. simpl. rewrite Hcp.
  split; [done|]. split; [done|]. split; [done|]. split; [done|].
  split; unfold registry_checkpoint at 1; simpl; rewrite ?Hcp;
    [exact Hv'| |rewrite Ho', Ho; by eexists|rewrite Hc', Hc; by eexists].
  unfold registry_checkpoint in *; simpl; rewrite ?Hcp. unfold delete_all in Hb. simpl in Hb. lia.
Qed.
(** What was announced for a consumer is what is published. *)
Lemma publish_projected self prepared id published :
  change_lawful (registry_checkpoint self)
    {| hd_revision := pu_revision prepared; hd_clock := pu_clock prepared;
       hd_floor := cp_floor (registry_checkpoint self) |} published (rg_config self)
    {| cg_change := pu_change prepared; cg_floor := pu_floor prepared;
       cg_leaving := pu_leaving prepared; cg_retired := pu_retired prepared |} →
  cp_consumers (publish_checkpoint prepared (registry_checkpoint self)) !! id = projected self prepared id.
Proof.
  unfold change_lawful, publish_checkpoint, projected. simpl.
  fold (delete_all (pu_retired prepared) (cp_consumers (registry_checkpoint self))).
  destruct (pu_change prepared) as [|c t e m|c r|c r]; simpl.
  - intros (-> & _). rewrite decide_False by set_solver. done.
  - intros (-> & _). rewrite decide_False by set_solver. simpl. case_decide as Hc.
    + subst. by rewrite lookup_alter_eq.
    + by rewrite lookup_alter_ne.
  - intros (_ & Hc & _ & rows & Hret & _ & _ & Hrows & _). simpl in Hret. rewrite Hret.
    case_decide as Hin.
    + rewrite lookup_insert_ne; [rewrite lookup_delete_all; by rewrite decide_True|].
      intros ->. apply list_elem_of_fmap in Hin as ([? row] & -> & [Hr _]%Hrows). simpl in *. congruence.
    + case_decide as Hd; [subst; by rewrite lookup_insert_eq|].
      rewrite lookup_insert_ne by done. rewrite lookup_delete_all. by rewrite decide_False.
  - intros (-> & _). rewrite decide_False by set_solver. simpl. case_decide as Hc.
    + subst. by rewrite lookup_insert_eq.
    + by rewrite lookup_insert_ne.
Qed.
End registry.
