(* ===== verification/RegistryRuns.v ===== *)
(** * Runs of the cursor registry

    A registry is restored and then moves by publishing prepared updates.
    Others use the same memory budget in between, so each call meets an
    arbitrary table of levels. An update may be prepared at one state and
    published at a later one, where it is stale. *)
From stdpp Require Import prelude gmap strings relations.
From Stdlib Require Import NArith.
From S2P Require Import Prelude Vocabulary Objects Fallible Budget Stream Registry RegistryLaws.
#[local] Open Scope N_scope.

Section runs.
Context `{!Layout}.
Implicit Types (self : CursorRegistry) (past : list CursorRegistry).

(** [registry_run past self published]: [self] is a registry restored and
    moved through [past], latest first, under a stream published through
    [published]. *)
Inductive registry_run : list CursorRegistry → CursorRegistry → SessionSeq → Prop :=
  | run_restored owner checkpoint published config budget F self F' :
      restore owner checkpoint published config budget F = (Ok self, F') →
      registry_run [] self published
  | run_published past self before published origin command lane F0 prepared F1 F2 r self' F3 :
      registry_run past self before → before <= published → lane ≠ BudgetLane.Committed →
      origin ∈ self :: past →
      prepare_in origin command published lane F0 = (Ok prepared, F1) →
      publish prepared (self, F2) = (r, (self', F3)) →
      registry_run (self :: past) self' published.
(** One command prepared and published at the same state. *)
Definition registry_step (published : SessionSeq) self self' : Prop :=
  ∃ command lane F0 prepared F1 F2 retired F3, lane ≠ BudgetLane.Committed ∧
    prepare_in self command published lane F0 = (Ok prepared, F1) ∧
    publish prepared (self, F2) = (Ok retired, (self', F3)).

Lemma checkpoint_valid_mono state before published config :
  checkpoint_valid state before config → before <= published → checkpoint_valid state published config.
Proof.
  intros [? ? ? Hrows] ?. split; [done|lia|done|]. intros id row Hrow.
  eapply row_valid_mono; [by apply Hrows|simpl; lia..|].
  by apply (rv_retained _ _ _ _ _ _ _ _ _ (Hrows id row Hrow)).
Qed.
Lemma registry_inv_mono self before published :
  registry_inv self before → before <= published → registry_inv self published.
Proof. intros [? ? ? ?] ?. split; try done. by eapply checkpoint_valid_mono. Qed.

(** A step keeps the invariant and installs exactly the prepared checkpoint. *)
Lemma registry_step_inv self self' before published :
  registry_inv self before → before <= published → registry_step published self self' →
  registry_inv self' published ∧ rg_owner self' = rg_owner self ∧ rg_config self' = rg_config self.
Proof.
  intros Hinv Hle (command & lane & F0 & prepared & F1 & F2 & retired & F3 & Hlane & Hp & Hpub).
  assert (Hfit : al_bytes (lane_permit lane (rg_root self)) + al_bytes (pu_arriving prepared) <= u64_max).
  { pose proof (prepare_in_ok _ _ _ _ _ _ _ Hp) as (_ & _ & _ & ? & ? & _ & Hprep).
    unfold publish in Hpub. destruct (stale self prepared); [done|].
    destruct (absorb_row (rg_root self) prepared F2) as [[r|] ?] eqn:Ha; [|done].
    apply absorb_row_fits in Ha. by rewrite Hprep in Ha |- *. }
  destruct (publish_ok self F2 command before published lane prepared F0 F1)
    as (s' & F' & Hok & Hcp & ? & ? & ? & ?); [done..|].
  rewrite Hok in Hpub. by simplify_eq.
Qed.
(** Publication either is a step, or leaves the registry as it was. *)
Lemma publish_cases self before published origin command lane F0 prepared F1 F2 r self' F3 :
  registry_inv self before → before <= published → lane ≠ BudgetLane.Committed →
  (cp_revision (registry_checkpoint origin) = cp_revision (registry_checkpoint self) → origin = self) →
  prepare_in origin command published lane F0 = (Ok prepared, F1) →
  publish prepared (self, F2) = (r, (self', F3)) →
  (registry_step published self self' ∧ is_ok r) ∨ (self' = self ∧ ¬ is_ok r).
Proof.
  intros Hinv Hle Hlane Horigin Hp Hpub.
  pose proof (prepare_in_ok _ _ _ _ _ _ _ Hp) as (_ & _ & _ & ? & ? & _ & Hprep).
  destruct (stale self prepared) eqn:Hst.
  { unfold publish in Hpub. rewrite Hst in Hpub. simplify_eq. right. by split; [|intros []]. }
  assert (origin = self) as ->.
  { apply Horigin. unfold stale in Hst. apply orb_false_iff in Hst as [Hst _].
    apply bool_decide_eq_false in Hst. rewrite Hprep in Hst. simpl in Hst.
    symmetry. apply dec_stable. intros ?. apply Hst. by right. }
  destruct r as [retired|e]; [left; split; [|done]; by exists command, lane, F0, prepared, F1, F2, retired, F3|].
  right. split; [|by intros []].
  destruct (decide (al_bytes (lane_permit lane (rg_root self)) + al_bytes (pu_arriving prepared) <= u64_max))
    as [Hfit|Hfit].
  { destruct (publish_ok self F2 command before published lane prepared F0 F1) as (? & ? & Hok & _); [done..|].
    by rewrite Hok in Hpub. }
  unfold publish in Hpub. rewrite Hst in Hpub.
  destruct (absorb_row (rg_root self) prepared F2) as [[ra|] ?] eqn:Ha; [|by simplify_eq].
  apply absorb_row_fits in Ha. rewrite Hprep in Ha, Hfit. done.
Qed.
(** Revisions name states. *)
Lemma registry_step_revision published self self' :
  registry_step published self self' →
  cp_revision (registry_checkpoint self') = cp_revision (registry_checkpoint self) + 1.
Proof.
  intros (command & lane & F0 & prepared & F1 & F2 & retired & F3 & Hlane & Hp & Hpub).
  pose proof (prepare_in_ok _ _ _ _ _ _ _ Hp) as (_ & _ & _ & ? & ? & _ & ->).
  unfold publish in Hpub. destruct (stale self _); [done|].
  destruct (absorb_row _ _ _) as [[[root rest]|] ?]; [|done].
  destruct (return_bytes _ _ _) as [[root'|] ?]; [|done]. by simplify_eq.
Qed.
Lemma registry_run_inv past self published :
  registry_run past self published →
  registry_inv self published ∧
  ∀ o, o ∈ past → cp_revision (registry_checkpoint o) <= cp_revision (registry_checkpoint self) ∧
    (cp_revision (registry_checkpoint o) = cp_revision (registry_checkpoint self) → o = self).
Proof.
  induction 1 as [|past self before published origin command lane F0 prepared F1 F2 r self' F3
    Hrun [Hinv Hpast] Hle Hlane Horigin Hp Hpub].
  { split; [by eapply restore_inv|set_solver]. }
  assert (Ho : cp_revision (registry_checkpoint origin) = cp_revision (registry_checkpoint self) → origin = self).
  { apply elem_of_cons in Horigin as [->|Ho]; [done|]. by apply Hpast. }
  destruct (publish_cases _ _ _ _ _ _ _ _ _ _ _ _ _ Hinv Hle Hlane Ho Hp Hpub) as [[Hstep _]|[-> _]].
  - split; [by eapply registry_step_inv|]. apply registry_step_revision in Hstep as Hrev.
    intros o [->|Hin]%elem_of_cons; [lia|]. destruct (Hpast o Hin). lia.
  - split; [by eapply registry_inv_mono|]. intros o [->|Hin]%elem_of_cons; [done|by apply Hpast].
Qed.

(** ** The history of a cursor *)
(** The same incarnation of a consumer, at the same or a later position. *)
Record continues (row row' : CursorRecord) : Prop := {
  ct_same_key : ct_key (rw_token row') = ct_key (rw_token row);
  ct_same_generation : ct_generation (rw_token row') = ct_generation (rw_token row);
  ct_same_scope : ct_scope (rw_token row') = ct_scope (rw_token row);
  ct_same_filter : rw_filter row' = rw_filter row;
  ct_forward : position_le (ct_position (rw_token row)) (ct_position (rw_token row'));
  ct_protection : rw_mode row = CursorMode.Protected ↔ rw_mode row' = CursorMode.Protected
}.
#[export] Instance continues_preorder : PreOrder continues.
Proof.
  split; [by intros row; split|]. intros r1 r2 r3 [? ? ? ? ? Hp] [? ? ? ? ? Hp'].
  split; try congruence; [by etrans|by rewrite Hp].
Qed.
Lemma patch_continues row token expires_at mode :
  patch_lawful row token expires_at mode → continues row (patch token expires_at mode row).
Proof.
  intros [Ht Hp Hm].
  assert (Hprot : rw_mode row = CursorMode.Protected ↔ default (rw_mode row) mode = CursorMode.Protected).
  { split; [by intros Hmode; destruct (Hp Hmode) as [_ ->]|].
    destruct mode as [m|]; [|done]. simpl. intros ->. by destruct (Hm CursorMode.Protected). }
  destruct token as [t|]; split; simpl; try done; by destruct (Ht t eq_refl) as (? & ? & ? & ? & ?).
Qed.
(** What a run does to the rows. *)
Record rows_step (s s' : CursorCheckpoint) : Prop := {
  rs_ledger : cp_ledger s' = cp_ledger s;
  rs_revision : cp_revision s <= cp_revision s';
  rs_floor : cp_floor s <= cp_floor s';
  rs_clock : cp_clock s <= cp_clock s';
  rs_rows : ∀ id row', cp_consumers s' !! id = Some row' →
    (∃ row, cp_consumers s !! id = Some row ∧ continues row row') ∨
    cp_revision s < ct_generation (rw_token row');
  rs_protected : ∀ id row, cp_consumers s !! id = Some row → rw_mode row = CursorMode.Protected →
    ∃ row', cp_consumers s' !! id = Some row' ∧ continues row row'
}.
Lemma released_not_protected row clock : released row clock = true → rw_mode row ≠ CursorMode.Protected.
Proof. unfold released. rewrite andb_true_iff, bool_decide_eq_true. by intros []. Qed.
Lemma next_checkpoint_step state header published config cg :
  change_lawful state header published config cg → hd_revision header = cp_revision state + 1 →
  cp_clock state <= hd_clock header → hd_floor header = cp_floor state →
  rows_step state (next_checkpoint state header {| ap_change := cg_change cg; ap_floor := cg_floor cg;
    ap_leaving := cg_leaving cg |} (cg_retired cg)).
Proof.
  intros Hcg Hrev Hclk Hfl. unfold change_lawful in Hcg.
  destruct (cg_change cg) as [|c t e m|c r|c r] eqn:Hch.
  - destruct Hcg as (Hret & _ & ? & _). rewrite Hret.
    split; simpl; [done|lia|lia|done| |]; intros id row Hrow; [left|intros _]; by exists row.
  - destruct Hcg as (Hret & _ & Hfloor & row & Hrow & Hpl%patch_continues). rewrite Hret.
    split; simpl; [done|lia|lia|done| |]; intros id row'; destruct (decide (id = c)) as [->|Hne].
    + rewrite lookup_alter_eq, Hrow. intros [= <-]. left. by exists row.
    + rewrite lookup_alter_ne by done. left. by exists row'.
    + rewrite lookup_alter_eq, Hrow. intros [= <-] _. by eexists.
    + rewrite lookup_alter_ne by done. by exists row'.
  - destruct Hcg as (Hfloor & Hc & Hgen & rows & Hret & _ & _ & Hrows & _).
    split; simpl; [done|lia|lia|done| |]; intros id row.
    + destruct (decide (id = c)) as [->|Hne].
      * rewrite lookup_insert_eq. intros [= <-]. right. lia.
      * rewrite lookup_insert_ne, lookup_delete_all by done. case_decide; [done|]. left. by exists row.
    + intros Hrow Hprot. exists row. split; [|done]. rewrite lookup_insert_ne by congruence.
      rewrite lookup_delete_all, decide_False; [done|]. rewrite Hret.
      intros ([? row'] & -> & [Hr Hrel%released_not_protected]%Hrows)%list_elem_of_fmap.
      simpl in *. congruence.
  - destruct Hcg as (Hret & Hfloor & Hgen & old & Hold & Hm & _). rewrite Hret.
    split; simpl; [done|lia|lia|done| |]; intros id row.
    + destruct (decide (id = c)) as [->|Hne].
      * rewrite lookup_insert_eq. intros [= <-]. right. lia.
      * rewrite lookup_insert_ne by done. left. by exists row.
    + intros Hrow Hprot. exists row. split; [|done]. rewrite lookup_insert_ne; [done|]. intros ->. congruence.
Qed.
#[export] Instance rows_step_preorder : PreOrder rows_step.
Proof.
  split.
  - intros s. split; try done; intros id row Hrow; [left|intros _]; by exists row.
  - intros s1 s2 s3 H12 H23. split.
    + by rewrite (rs_ledger _ _ H23), (rs_ledger _ _ H12).
    + pose proof (rs_revision _ _ H12). pose proof (rs_revision _ _ H23). lia.
    + pose proof (rs_floor _ _ H12). pose proof (rs_floor _ _ H23). lia.
    + pose proof (rs_clock _ _ H12). pose proof (rs_clock _ _ H23). lia.
    + intros id row3 Hrow3. pose proof (rs_revision _ _ H12).
      destruct (rs_rows _ _ H23 _ _ Hrow3) as [(row2 & Hrow2 & H32)|]; [|right; lia].
      destruct (rs_rows _ _ H12 _ _ Hrow2) as [(row1 & Hrow1 & H21)|Hgen].
      * left. exists row1. split; [done|]. by etrans.
      * right. by rewrite (ct_same_generation _ _ H32).
    + intros id row1 Hrow1 Hprot. destruct (rs_protected _ _ H12 _ _ Hrow1 Hprot) as (row2 & Hrow2 & H21).
      destruct (rs_protected _ _ H23 _ _ Hrow2) as (row3 & Hrow3 & H32); [by apply H21|].
      exists row3. split; [done|]. by etrans.
Qed.
Lemma registry_step_rows published self self' :
  registry_step published self self' → rows_step (registry_checkpoint self) (registry_checkpoint self').
Proof.
  intros (command & lane & F0 & prepared & F1 & F2 & retired & F3 & Hlane & Hp & Hpub).
  pose proof (prepare_in_ok _ _ _ _ _ _ _ Hp) as (Hclk & _ & _ & ? & ? & Ha & ->).
  apply apply_operation_ok in Ha as (cg & -> & -> & Hcg & _); [|done].
  unfold publish in Hpub. destruct (stale self _); [done|].
  destruct (absorb_row _ _ _) as [[[root rest]|] ?] eqn:Habs; [|done].
  destruct (return_bytes _ _ _) as [[root'|] ?] eqn:Hret; [|done]. simplify_eq.
  assert (Hcp : rt_checkpoint root' = registry_checkpoint self).
  { unfold absorb_row in Habs. unfold return_bytes in Hret. ok_inv.
    destruct (pu_lane _); ok_inv; match goal with x : Allocation * Allocation |- _ => destruct x end; by ok_inv. }
  unfold registry_checkpoint at 2. simpl. rewrite Hcp.
  exact (next_checkpoint_step _ _ _ _ _ Hcg eq_refl Hclk eq_refl).
Qed.
Lemma registry_run_rows past self published o :
  registry_run past self published → o ∈ past → rows_step (registry_checkpoint o) (registry_checkpoint self).
Proof.
  intros Hrun. revert o. induction Hrun as [|past self before published origin command lane F0 prepared F1
    F2 r self' F3 Hrun IH Hle Hlane Horigin Hp Hpub]; [set_solver|].
  destruct (registry_run_inv _ _ _ Hrun) as [Hinv Hpast].
  assert (Hnext : rows_step (registry_checkpoint self) (registry_checkpoint self')).
  { assert (Ho : cp_revision (registry_checkpoint origin) = cp_revision (registry_checkpoint self) →
      origin = self).
    { apply elem_of_cons in Horigin as [->|Ho]; [done|]. by apply Hpast. }
    destruct (publish_cases _ _ _ _ _ _ _ _ _ _ _ _ _ Hinv Hle Hlane Ho Hp Hpub) as [[Hstep _]|[-> _]];
      [by eapply registry_step_rows|done]. }
  intros o [->|Ho]%elem_of_cons; [done|]. etrans; [by apply IH|done].
Qed.
(** A token of an incarnation that is gone moves nothing. *)
Lemma acknowledge_incarnation self token now published lane F prepared F' :
  prepare_in self {| cm_expected_revision := cp_revision (registry_checkpoint self); cm_now := now;
    cm_operation := CursorOperation.Acknowledge token |} published lane F = (Ok prepared, F') →
  ∃ row, cp_consumers (registry_checkpoint self) !! ck_consumer (ct_key token) = Some row ∧
    ct_generation (rw_token row) = ct_generation token.
Proof.
  intros Hp. pose proof (prepare_in_ok _ _ _ _ _ _ _ Hp) as (_ & _ & _ & ? & ? & Ha & _).
  unfold apply_operation in Ha. apply try_bind_ok in Ha as (cg & Hcg & _). simpl in Hcg.
  apply try_bind_ok in Hcg as ([] & _ & Hcg). apply try_bind_ok in Hcg as (row & Hrow & _).
  apply active_row_ok in Hrow as (? & ? & _). by exists row.
Qed.
End runs.
