(* ===== verification/History.v ===== *)
(** * Histories of deltas

    The deltas a ledger published, in order, and the stretch of them between
    two positions. What a complete source, a subscription and a consumer do is
    stated against it. *)
From stdpp Require Import prelude gmap strings sorting.
From Stdlib Require Import NArith.
From S2P Require Import Prelude Vocabulary Objects Fallible Budget Stream.
#[local] Open Scope N_scope.

Section history.
Context {D : Type} `{!StreamedDelta D}.
Implicit Types (H l : list D) (d : D) (p q x : Position).

Definition position_of (d : D) : Position := after_delta (sd_id d).
Definition delta_lt (a b : D) : Prop := position_lt (position_of a) (position_of b).
(** A ledger's published deltas: ordered, of one ledger, each transaction's
    ordinals counted from zero. *)
Record history_ok (ledger : LedgerId) (H : list D) : Prop := {
  ho_sorted : StronglySorted delta_lt H;
  ho_ledger : ∀ d, d ∈ H → d_ledger (sd_id d) = ledger;
  ho_sequence : ∀ d, d ∈ H → d_sequence (sd_id d) ≠ 0;
  ho_ordinal : ∀ d, d ∈ H → d_ordinal (sd_id d) <= u32_max;
  ho_whole : ∀ d, d ∈ H → d_ordinal (sd_id d) ≠ 0 →
    ∃ d', d' ∈ H ∧ d_sequence (sd_id d') = d_sequence (sd_id d) ∧
      d_ordinal (sd_id d') + 1 = d_ordinal (sd_id d)
}.
Lemma history_sequences ledger H :
  history_ok ledger H → StronglySorted (λ a b, d_sequence (sd_id a) <= d_sequence (sd_id b)) H.
Proof.
  intros [Hs Hl _ _ _]. induction Hs as [|d H Hs IH Hd]; [constructor|].
  constructor; [apply IH; intros; apply Hl; by right|]. rewrite Forall_forall in Hd |- *. intros d' Hd'.
  specialize (Hd d' Hd'). unfold delta_lt in Hd. apply position_lt_spec in Hd; simpl in *; [lia|].
  rewrite (Hl d), (Hl d'); [done|by right|left].
Qed.
(** The deltas after [p], through [q]. *)
Definition between (p q : Position) (H : list D) : list D :=
  filter (λ d, position_lt p (position_of d) ∧ position_le (position_of d) q) H.
Lemma elem_of_between p q H d :
  d ∈ between p q H ↔ d ∈ H ∧ position_lt p (position_of d) ∧ position_le (position_of d) q.
Proof. unfold between. rewrite list_elem_of_filter. naive_solver. Qed.
Lemma between_empty p H : between p p H = [].
Proof.
  unfold between. induction H as [|d H IH]; [done|]. rewrite filter_cons, decide_False; [done|].
  intros [Hlt Hle]. by eapply position_lt_irrefl, position_lt_le_trans.
Qed.
Lemma between_none p q H : (∀ d, d ∈ H → position_le (position_of d) q → position_le (position_of d) p) →
  between p q H = [].
Proof.
  intros Hc. apply filter_none. intros d Hd [Hlt Hle].
  eapply position_lt_irrefl, position_lt_le_trans; [exact Hlt|by apply Hc].
Qed.
(** A stretch is cut at any position inside it. *)
Lemma between_split p x q H :
  StronglySorted delta_lt H → position_le p x → position_le x q →
  between p q H = between p x H ++ between x q H.
Proof.
  intros Hs Hpx Hxq. unfold between. induction Hs as [|d H Hs IH Hd]; [done|].
  rewrite !filter_cons, IH.
  destruct (decide (position_le (position_of d) x)) as [Hdx|Hdx].
  - rewrite (decide_False (P := position_lt x _ ∧ _)).
    2: { intros [? ?]. by eapply position_lt_irrefl, position_lt_le_trans. }
    destruct (decide (position_lt p (position_of d))) as [Hpd|Hpd].
    + assert (position_le (position_of d) q) by by etrans. by rewrite !decide_True by done.
    + by rewrite !decide_False by naive_solver.
  - apply position_nle in Hdx.
    rewrite (decide_False (P := _ ∧ position_le _ x)).
    2: { intros [? ?]. eapply position_lt_irrefl, position_lt_le_trans; [exact Hdx|done]. }
    assert (Hnil : filter (λ d, position_lt p (position_of d) ∧ position_le (position_of d) x) H = []).
    { apply filter_none. intros d' Hd' [_ Hle]. rewrite Forall_forall in Hd.
      eapply position_lt_irrefl, position_lt_le_trans; [|exact Hle].
      eapply position_lt_trans; [exact Hdx|by apply Hd]. }
    rewrite Hnil. simpl.
    destruct (decide (position_le (position_of d) q)) as [Hdq|Hdq].
    + rewrite !decide_True by (split; [eauto with positions|done]). done.
    + by rewrite !decide_False by naive_solver.
Qed.
Lemma between_sorted p q H : StronglySorted delta_lt H → StronglySorted delta_lt (between p q H).
Proof. apply filter_sorted. Qed.
Definition selected (f : D → bool) l : list D := filter (λ d, f d) l.
Lemma selected_app f l k : selected f (l ++ k) = selected f l ++ selected f k.
Proof. apply filter_app. Qed.
Lemma selected_singleton f d : selected f [d] = if f d then [d] else [].
Proof. unfold selected. rewrite filter_cons, filter_nil. by destruct (f d). Qed.
Lemma elem_of_selected f l d : d ∈ selected f l ↔ d ∈ l ∧ f d = true.
Proof. unfold selected. rewrite list_elem_of_filter, Is_true_true. naive_solver. Qed.
Lemma selected_sorted f l : StronglySorted delta_lt l → StronglySorted delta_lt (selected f l).
Proof. apply filter_sorted. Qed.
(** The first selected delta of a stretch cuts it after itself. *)
Lemma between_uncons f p q H d rest :
  StronglySorted delta_lt H → selected f (between p q H) = d :: rest →
  position_lt p (position_of d) ∧ position_le (position_of d) q ∧
  selected f (between p (position_of d) H) = [d] ∧ selected f (between (position_of d) q H) = rest.
Proof.
  intros Hs Hsel.
  assert (Hd : d ∈ selected f (between p q H)) by (rewrite Hsel; left).
  apply elem_of_selected in Hd as [(Hin & Hpd & Hdq)%elem_of_between Hf]. split; [done|]. split; [done|].
  rewrite (between_split p (position_of d) q), selected_app in Hsel; eauto with positions.
  destruct (selected f (between p (position_of d) H)) as [|d' rest'] eqn:Hfirst.
  { exfalso. assert (Hn : d ∈ selected f (between p (position_of d) H)).
    { apply elem_of_selected. split; [|done]. by apply elem_of_between. }
    rewrite Hfirst in Hn. set_solver. }
  simpl in Hsel. simplify_eq. destruct rest' as [|d' rest']; [done|]. exfalso.
  pose proof (selected_sorted f _ (between_sorted p (position_of d) H Hs)) as Hss. rewrite Hfirst in Hss.
  apply StronglySorted_cons in Hss as [Hlt _]. rewrite Forall_forall in Hlt.
  assert (Hd' : d' ∈ selected f (between p (position_of d) H)) by (rewrite Hfirst; right; left).
  apply elem_of_selected in Hd' as [(_ & _ & Hle)%elem_of_between _].
  eapply position_lt_irrefl, position_lt_le_trans; [|exact Hle]. apply Hlt. left.
Qed.
(** The first delta after a position continues it. *)
Lemma first_contiguous ledger H p q d rest :
  history_ok ledger H → p_ledger p = ledger → between p q H = d :: rest →
  contiguous p (sd_id d) = Ok ().
Proof.
  intros Hok Hl Hb.
  assert (Hd : d ∈ between p q H) by (rewrite Hb; left).
  pose proof Hd as (Hin & Hpd & Hdq)%elem_of_between.
  assert (Hnone : ∀ d', d' ∈ H → position_lt p (position_of d') → delta_lt d' d → False).
  { intros d' Hin' Hpd' Hlt.
    assert (Hd' : d' ∈ between p q H).
    { apply elem_of_between. split_and!; [done..|]. eauto with positions. }
    rewrite Hb in Hd'. pose proof (between_sorted p q H (ho_sorted _ _ Hok)) as Hs. rewrite Hb in Hs.
    apply StronglySorted_cons in Hs as [Hall _]. rewrite Forall_forall in Hall.
    apply elem_of_cons in Hd' as [->|Hd']; [by eapply position_lt_irrefl|].
    eapply position_lt_irrefl, position_lt_trans; [exact Hlt|by apply Hall]. }
  pose proof (ho_ledger _ _ Hok _ Hin) as Hdl. pose proof (ho_ordinal _ _ Hok _ Hin) as Hmax.
  apply position_lt_spec in Hpd; [|by simpl; congruence]. simpl in Hpd.
  assert (Hpred : d_ordinal (sd_id d) ≠ 0 → ∃ d', d' ∈ H ∧ d_ledger (sd_id d') = ledger ∧ delta_lt d' d ∧
    d_sequence (sd_id d') = d_sequence (sd_id d) ∧ d_ordinal (sd_id d') + 1 = d_ordinal (sd_id d)).
  { intros Hne. destruct (ho_whole _ _ Hok _ Hin Hne) as (d' & Hin' & Hseq & Hord). exists d'.
    pose proof (ho_ledger _ _ Hok _ Hin'). split_and!; try done.
    apply position_lt_spec; simpl; [congruence|]. right. split_and!; [done|lia|]. intros [=]. lia. }
  unfold contiguous. case_decide as Hseq.
  - destruct Hpd as [?|(? & Hoff & Hne)]; [lia|]. destruct (p_offset p) as [o|] eqn:Hp; [|done].
    simpl in Hoff. apply refuse_if_ok. intros []. split; [|].
    + assert (o ≠ d_ordinal (sd_id d)) by congruence. lia.
    + assert (o ≠ d_ordinal (sd_id d)) by congruence.
      destruct (decide (o + 1 = d_ordinal (sd_id d))) as [|Hgap]; [done|exfalso].
      destruct Hpred as (d' & Hin' & Hl' & Hlt & Hs' & Ho'); [lia|].
      apply (Hnone d' Hin'); [|done]. apply position_lt_spec; simpl; [congruence|].
      right. rewrite Hp. simpl. split_and!; [congruence|lia|]. intros [=]. lia.
  - apply refuse_if_ok. intros Hne. destruct Hpred as (d' & Hin' & Hl' & Hlt & Hs' & Ho'); [done|].
    apply (Hnone d' Hin'); [|done]. apply position_lt_spec; simpl; [congruence|]. left. lia.
Qed.
(** ** Stretches cut at the last delta of a prefix *)
Definition last_position p l : Position := foldl (λ _ d, position_of d) p l.
Lemma last_position_app p l k : last_position p (l ++ k) = last_position (last_position p l) k.
Proof. apply foldl_app. Qed.
Lemma last_position_cases p l :
  last_position p l = p ∧ l = [] ∨ ∃ l' d, l = l' ++ [d] ∧ last_position p l = position_of d.
Proof.
  destruct l as [|d l] using rev_ind; [by left|]. right. exists l, d. by rewrite last_position_app.
Qed.
Lemma filter_cut l' d k :
  StronglySorted delta_lt ((l' ++ [d]) ++ k) →
  filter (λ y, position_le (position_of y) (position_of d)) ((l' ++ [d]) ++ k) = l' ++ [d].
Proof.
  intros Hs. rewrite filter_app, (filter_none _ k), app_nil_r.
  - apply filter_every. intros x [Hx|Hx]%elem_of_app; [|set_solver]. apply StronglySorted_app_1_l in Hs.
    apply position_lt_le. eapply (StronglySorted_app_1_elem_of _ l' [d]) in Hs; [exact Hs|done|set_solver].
  - intros x Hx Hle. apply StronglySorted_app_1_elem_of with (x1 := d) (x2 := x) in Hs; [|set_solver..].
    eapply position_lt_irrefl, position_lt_le_trans; [exact Hs|done].
Qed.
Lemma between_prefix p q H l k :
  StronglySorted delta_lt H → between p q H = l ++ k →
  between p (last_position p l) H = l ∧ between (last_position p l) q H = k.
Proof.
  intros Hs Hb. destruct (last_position_cases p l) as [[-> ->]|(l' & d & -> & ->)]; [by rewrite between_empty|].
  assert (Hd : d ∈ between p q H) by (rewrite Hb; set_solver).
  apply elem_of_between in Hd as (_ & Hpd & Hdq).
  pose proof (between_sorted p q H Hs) as Hss. rewrite Hb in Hss.
  rewrite (between_split p (position_of d) q) in Hb by eauto with positions.
  assert (between p (position_of d) H = l' ++ [d]) as Hl; [|by rewrite Hl in Hb; simplify_eq].
  rewrite <-(filter_cut l' d k Hss), <-Hb, filter_app.
  rewrite (filter_every _ (between p _ H)) by (intros x (_ & _ & ?)%elem_of_between; done).
  rewrite (filter_none _ (between _ q H)), app_nil_r; [done|].
  intros x (_ & Hlt & _)%elem_of_between Hx. by eapply position_lt_irrefl, position_lt_le_trans.
Qed.
End history.
