(* ===== verification/Subscription.v ===== *)
(** * Subscriptions (focal-stream: subscription.rs)

    The ephemeral delivery state of one connection. [pump] replays deltas of
    the ledger's history into a bounded queue, [next] hands the queue to the
    transport in order within the granted credit, and acknowledgments are
    checked against what was delivered. [DeltaSource] is the interface to the
    history: a source visits deltas one by one and passes a visitor's error
    on. *)
From stdpp Require Import prelude gmap strings.
From Stdlib Require Import NArith.
From S2P Require Import Prelude Vocabulary Objects Fallible Budget Stream Registry.
#[local] Open Scope N_scope.

Record ReplayBounds := { rb_ledger : LedgerId; rb_floor : SessionSeq; rb_published : SessionSeq }.
Record ReplayLimit := { lim_items : N; lim_bytes : N; lim_sequences : N }.
Definition replay_limit_default : ReplayLimit :=
  {| lim_items := 256; lim_bytes := 256 * 1024; lim_sequences := 256 |}.

(** The source visits [l] in order until the visitor refuses. *)
Fixpoint visit_all {S D} (visit : D → Fallible S StreamError ()) (l : list D) :
    Fallible S StreamError () :=
  match l with [] => mret () | d :: l => visit d;; visit_all visit l end.
Class DeltaSource (Src D : Type) := {
  bounds : Src → ReplayBounds;
  replay : Src → Position → ReplayLimit →
    ∀ {S}, (D → Fallible S StreamError ()) → Fallible S StreamError Position
}.
(** What the trait asks of a source's control flow: which deltas it visits and
    how it ends do not depend on the visitor, whose first error it returns. *)
Class VisitingSource (Src D : Type) `{!DeltaSource Src D} := {
  visited : Src → Position → ReplayLimit → list D;
  outcome : Src → Position → ReplayLimit → Try StreamError Position;
  replay_visits : ∀ src after limit S (visit : D → Fallible S StreamError ()) s,
    replay src after limit visit s =
    (visit_all visit (visited src after limit);; lift (outcome src after limit)) s
}.

Record TransportConfig := {
  max_queue_items : N; max_queue_bytes : N; max_credit_items : N; max_credit_bytes : N;
  max_lag_sequences : N
}.
Definition transport_config_default : TransportConfig :=
  {| max_queue_items := 256; max_queue_bytes := 1024 * 1024; max_credit_items := 256;
     max_credit_bytes := 1024 * 1024; max_lag_sequences := 100000 |}.
Module DeliveryAllocation.
Inductive t := Owned (permit : Allocation) | Control.
End DeliveryAllocation.
Notation DeliveryAllocation := DeliveryAllocation.t.
Record Delivery (D : Type) := {
  dl_event : StreamEvent D; dl_wire_bytes : N; dl_allocation : DeliveryAllocation
}.
Arguments dl_event {_} _. Arguments dl_wire_bytes {_} _. Arguments dl_allocation {_} _.
Record DriveReport := {
  dr_scanned : N; dr_queued : N; dr_position : Position; dr_backpressured : bool;
  dr_resync : option ResyncReason
}.
(** [sb_control_count] is the strong count of the shared control slot: one for
    the subscription and one for a control delivery the transport holds. *)
Record Subscription (D : Type) := {
  sb_acknowledged : CursorToken; sb_delivered : Position; sb_replayed : Position;
  sb_expires_at : N; sb_protected : bool; sb_clock : N; sb_filter : DeltaFilter;
  sb_config : TransportConfig; sb_budget : MemoryBudget; sb_queue : list (Delivery D);
  sb_queue_bytes : N; sb_item_credit : N; sb_byte_credit : N; sb_resolved : option Position;
  sb_resync : option (ResyncReason * SessionSeq); sb_closed : bool;
  sb_terminal_reason : option ResyncReason; sb_allocation : Allocation;
  sb_control_allocation : Allocation; sb_control_count : N
}.
Arguments sb_acknowledged {_} _. Arguments sb_delivered {_} _. Arguments sb_replayed {_} _.
Arguments sb_expires_at {_} _. Arguments sb_protected {_} _. Arguments sb_clock {_} _.
Arguments sb_filter {_} _. Arguments sb_config {_} _. Arguments sb_budget {_} _.
Arguments sb_queue {_} _. Arguments sb_queue_bytes {_} _. Arguments sb_item_credit {_} _.
Arguments sb_byte_credit {_} _. Arguments sb_resolved {_} _. Arguments sb_resync {_} _.
Arguments sb_closed {_} _. Arguments sb_terminal_reason {_} _. Arguments sb_allocation {_} _.
Arguments sb_control_allocation {_} _. Arguments sb_control_count {_} _.

(** Serialized sizes ([postcard::experimental::serialized_size]). *)
Class WireSizes (D : Type) := {
  token_wire : CursorToken → Try StreamError N;
  event_wire : StreamEvent D → Try StreamError N
}.

Section subscription.
Context {D : Type} `{!StreamedDelta D, !WireSizes D, !Layout}.
Notation Subscription := (Subscription D).
Notation Conn := (Subscription * Levels)%type.
Implicit Types (self : Subscription) (F : Levels).

(** ** Field updates *)
Definition set_clock (clock : N) self : Subscription :=
  {| sb_acknowledged := sb_acknowledged self; sb_delivered := sb_delivered self;
     sb_replayed := sb_replayed self; sb_expires_at := sb_expires_at self;
     sb_protected := sb_protected self; sb_clock := clock; sb_filter := sb_filter self;
     sb_config := sb_config self; sb_budget := sb_budget self; sb_queue := sb_queue self;
     sb_queue_bytes := sb_queue_bytes self; sb_item_credit := sb_item_credit self;
     sb_byte_credit := sb_byte_credit self; sb_resolved := sb_resolved self;
     sb_resync := sb_resync self; sb_closed := sb_closed self;
     sb_terminal_reason := sb_terminal_reason self; sb_allocation := sb_allocation self;
     sb_control_allocation := sb_control_allocation self; sb_control_count := sb_control_count self |}.
Definition set_credit (items bytes : N) self : Subscription :=
  {| sb_acknowledged := sb_acknowledged self; sb_delivered := sb_delivered self;
     sb_replayed := sb_replayed self; sb_expires_at := sb_expires_at self;
     sb_protected := sb_protected self; sb_clock := sb_clock self; sb_filter := sb_filter self;
     sb_config := sb_config self; sb_budget := sb_budget self; sb_queue := sb_queue self;
     sb_queue_bytes := sb_queue_bytes self; sb_item_credit := items;
     sb_byte_credit := bytes; sb_resolved := sb_resolved self;
     sb_resync := sb_resync self; sb_closed := sb_closed self;
     sb_terminal_reason := sb_terminal_reason self; sb_allocation := sb_allocation self;
     sb_control_allocation := sb_control_allocation self; sb_control_count := sb_control_count self |}.
Definition set_queue (queue : list (Delivery D)) (bytes : N) (delivered replayed : Position)
    (resolved : option Position) self : Subscription :=
  {| sb_acknowledged := sb_acknowledged self; sb_delivered := delivered;
     sb_replayed := replayed; sb_expires_at := sb_expires_at self;
     sb_protected := sb_protected self; sb_clock := sb_clock self; sb_filter := sb_filter self;
     sb_config := sb_config self; sb_budget := sb_budget self; sb_queue := queue;
     sb_queue_bytes := bytes; sb_item_credit := sb_item_credit self;
     sb_byte_credit := sb_byte_credit self; sb_resolved := resolved;
     sb_resync := sb_resync self; sb_closed := sb_closed self;
     sb_terminal_reason := sb_terminal_reason self; sb_allocation := sb_allocation self;
     sb_control_allocation := sb_control_allocation self; sb_control_count := sb_control_count self |}.
Definition set_acknowledged (token : CursorToken) (expires_at : N) self : Subscription :=
  {| sb_acknowledged := token; sb_delivered := sb_delivered self;
     sb_replayed := sb_replayed self; sb_expires_at := expires_at;
     sb_protected := sb_protected self; sb_clock := sb_clock self; sb_filter := sb_filter self;
     sb_config := sb_config self; sb_budget := sb_budget self; sb_queue := sb_queue self;
     sb_queue_bytes := sb_queue_bytes self; sb_item_credit := sb_item_credit self;
     sb_byte_credit := sb_byte_credit self; sb_resolved := sb_resolved self;
     sb_resync := sb_resync self; sb_closed := sb_closed self;
     sb_terminal_reason := sb_terminal_reason self; sb_allocation := sb_allocation self;
     sb_control_allocation := sb_control_allocation self; sb_control_count := sb_control_count self |}.
Definition set_resync (resync : option (ResyncReason * SessionSeq)) (closed : bool)
    (terminal : option ResyncReason) self : Subscription :=
  {| sb_acknowledged := sb_acknowledged self; sb_delivered := sb_delivered self;
     sb_replayed := sb_replayed self; sb_expires_at := sb_expires_at self;
     sb_protected := sb_protected self; sb_clock := sb_clock self; sb_filter := sb_filter self;
     sb_config := sb_config self; sb_budget := sb_budget self; sb_queue := sb_queue self;
     sb_queue_bytes := sb_queue_bytes self; sb_item_credit := sb_item_credit self;
     sb_byte_credit := sb_byte_credit self; sb_resolved := sb_resolved self;
     sb_resync := resync; sb_closed := closed;
     sb_terminal_reason := terminal; sb_allocation := sb_allocation self;
     sb_control_allocation := sb_control_allocation self; sb_control_count := sb_control_count self |}.
Definition set_control (count : N) self : Subscription :=
  {| sb_acknowledged := sb_acknowledged self; sb_delivered := sb_delivered self;
     sb_replayed := sb_replayed self; sb_expires_at := sb_expires_at self;
     sb_protected := sb_protected self; sb_clock := sb_clock self; sb_filter := sb_filter self;
     sb_config := sb_config self; sb_budget := sb_budget self; sb_queue := sb_queue self;
     sb_queue_bytes := sb_queue_bytes self; sb_item_credit := sb_item_credit self;
     sb_byte_credit := sb_byte_credit self; sb_resolved := sb_resolved self;
     sb_resync := sb_resync self; sb_closed := sb_closed self;
     sb_terminal_reason := sb_terminal_reason self; sb_allocation := sb_allocation self;
     sb_control_allocation := sb_control_allocation self; sb_control_count := count |}.

(** ** Opening a connection *)
Definition resume_checks (record : CursorRecord) (now : N) (config : TransportConfig) :
    Try StreamError () :=
  let token := rw_token record in
  refuse_if (ck_ledger (ct_key token) ≠ p_ledger (ct_position token)) StreamError.WrongLedger;;
  refuse_if (ct_generation token = 0) StreamError.WrongGeneration;;
  refuse_if (rw_mode record ≠ CursorMode.Protected ∧ rw_expires_at record <= now)
    (StreamError.ResyncRequired ResyncReason.LeaseExpired);;
  match rw_mode record with
  | CursorMode.Live | CursorMode.Protected => mret ()
  | CursorMode.Seeding _ => fails StreamError.SeedNotComplete
  | CursorMode.Resync reason => fails (StreamError.ResyncRequired reason)
  end;;
  refuse_if (max_queue_items config = 0 ∨ max_queue_bytes config = 0 ∨ max_credit_items config = 0
             ∨ max_credit_bytes config = 0) (StreamError.Invalid "transport limits must be nonzero");;
  refuse_if (max_credit_items config < max_queue_items config
             ∨ max_credit_bytes config < max_queue_bytes config)
    (StreamError.Invalid "credit window must be at least the queue capacity").
Definition resume_charge (record : CursorRecord) (config : TransportConfig) : Try StreamError N :=
  own ← add size_of_Subscription ALLOCATOR_OVERHEAD;
  slots ← mul (max_queue_items config) size_of_Delivery;
  f ← filter_charge (rw_filter record);
  rest ← add slots f;
  add own rest.
Definition control_charge : Try StreamError N :=
  own ← add size_of_Delivery size_of_Allocation;
  overhead ← mul 2 ALLOCATOR_OVERHEAD;
  add own overhead.
Definition resume_charged (record : CursorRecord) (now : N) (config : TransportConfig)
    (budget : MemoryBudget) (allocation : Allocation) : Fallible Levels StreamError Subscription := λ F,
  match (bytes ← lift control_charge;
         errors_as StreamError.Memory (reserve budget BudgetKind.Control BudgetLane.Completion bytes)) F with
  | (Err e, F) => (Err e, allocation_drop allocation F)
  | (Ok control, F) =>
      (Ok {| sb_acknowledged := rw_token record; sb_delivered := ct_position (rw_token record);
             sb_replayed := ct_position (rw_token record); sb_expires_at := rw_expires_at record;
             sb_protected := bool_decide (rw_mode record = CursorMode.Protected); sb_clock := now;
             sb_filter := rw_filter record; sb_config := config; sb_budget := budget; sb_queue := [];
             sb_queue_bytes := 0; sb_item_credit := 0; sb_byte_credit := 0; sb_resolved := None;
             sb_resync := None; sb_closed := false; sb_terminal_reason := None;
             sb_allocation := allocation; sb_control_allocation := control; sb_control_count := 1 |}, F)
  end.
Definition resume (record : CursorRecord) (now : N) (config : TransportConfig) (budget : MemoryBudget) :
    Fallible Levels StreamError Subscription :=
  lift (resume_checks record now config);;
  charge ← lift (resume_charge record config);
  allocation ← errors_as StreamError.Memory
    (reserve budget BudgetKind.Query BudgetLane.Ordinary charge);
  resume_charged record now config budget allocation.

(** ** Credit, clock and resync *)
Definition grant (items bytes : N) : Fallible Subscription StreamError () := λ self,
  match (new_items ← add (sb_item_credit self) items;
         new_bytes ← add (sb_byte_credit self) bytes;
         refuse_if (max_credit_items (sb_config self) < new_items
                    ∨ max_credit_bytes (sb_config self) < new_bytes) StreamError.Capacity;;
         mret (new_items, new_bytes)) with
  | Ok (new_items, new_bytes) => (Ok (), set_credit new_items new_bytes self)
  | Err e => (Err e, self)
  end.
(** A queued delivery leaves: its permit, or the shared control slot. *)
Definition delivery_drop (delivery : Delivery D) F : Levels :=
  match dl_allocation delivery with
  | DeliveryAllocation.Owned permit => allocation_drop permit F
  | DeliveryAllocation.Control => F
  end.
Definition deliveries_drop (queue : list (Delivery D)) F : Levels :=
  foldl (λ F delivery, delivery_drop delivery F) F queue.
Definition require_resync (reason : ResyncReason) (floor : SessionSeq) (c : Conn) : Conn :=
  let '(self, F) := c in
  if sb_protected self then (self, F)
  else if sb_closed self || bool_decide (is_Some (sb_resync self)) then (self, F)
  else (set_resync (Some (reason, floor)) (sb_closed self) (Some reason)
          (set_queue [] 0 (sb_delivered self) (sb_replayed self) None self),
        deliveries_drop (sb_queue self) F).
Definition advance_clock (now : N) : Fallible Conn StreamError () := λ '(self, F),
  if decide (now < sb_clock self) then (Err StreamError.ClockRegression, (self, F))
  else (Ok (), (set_clock now self, F)).
Definition reconcile_bounds (b : ReplayBounds) (now : N) : Fallible Conn StreamError () := λ '(self, F),
  if decide (rb_ledger b ≠ ck_ledger (ct_key (sb_acknowledged self))) then
    (Err StreamError.WrongLedger, (self, F))
  else if decide (rb_published b < rb_floor b) then
    (Err (StreamError.SourceViolation "floor exceeds publication"), (self, F))
  else if sb_closed self || bool_decide (is_Some (sb_resync self)) then (Ok (), (self, F))
  else if sb_protected self then
    if decide (retention_prefix (sb_replayed self) < rb_floor b) then
      (Err (StreamError.SourceViolation "protected consumer lost required history"), (self, F))
    else if decide (rb_published b < p_sequence (sb_replayed self)) then
      (Err (StreamError.SourceViolation "publication moved backward"), (self, F))
    else (Ok (), (self, F))
  else if decide (sb_expires_at self <= now) then
    (Ok (), require_resync ResyncReason.LeaseExpired (rb_floor b) (self, F))
  else if decide (retention_prefix (sb_replayed self) < rb_floor b) then
    (Ok (), require_resync ResyncReason.HistoryExpired (rb_floor b) (self, F))
  else if decide (max_lag_sequences (sb_config self)
                  < rb_published b - p_sequence (ct_position (sb_acknowledged self))) then
    (Ok (), require_resync ResyncReason.SlowConsumer (rb_floor b) (self, F))
  else if decide (rb_published b < p_sequence (sb_replayed self)) then
    (Err (StreamError.SourceViolation "publication moved backward"), (self, F))
  else (Ok (), (self, F)).
Definition reconcile (b : ReplayBounds) (now : N) : Fallible Conn StreamError () :=
  advance_clock now;; reconcile_bounds b now.

(** ** Replay into the queue *)
Definition validate_delta (previous : Position) (delta : D) (published : SessionSeq) :
    Try StreamError () :=
  let position := after_delta (sd_id delta) in
  position_validate position (p_ledger previous) published;;
  refuse_if (sd_schema delta ≠ if sd_native delta then 2 else 1)
    (StreamError.SourceViolation "unknown delta schema");;
  refuse_if (position_le position previous) (StreamError.SourceViolation "delta order regressed");;
  if decide (p_sequence position = p_sequence previous) then
    match p_offset previous with
    | PositionOffset.Resolved => fails (StreamError.SourceViolation "delta after resolved transaction")
    | PositionOffset.Delta ordinal =>
        refuse_if (¬ (ordinal + 1 <= u32_max ∧ ordinal + 1 = d_ordinal (sd_id delta)))
          (StreamError.SourceViolation "delta ordinal gap")
    end
  else refuse_if (d_ordinal (sd_id delta) ≠ 0)
    (StreamError.SourceViolation "transaction starts after ordinal zero").

(** The work one pump may do, from the room left in the queue; [None] is
    backpressure. *)
Definition available_bytes self : N := max_queue_bytes (sb_config self) - sb_queue_bytes self.
Definition pump_limit self (requested : ReplayLimit) : Try StreamError (option ReplayLimit) :=
  refuse_if (lim_items requested = 0 ∨ lim_bytes requested = 0 ∨ lim_sequences requested = 0)
    (StreamError.Invalid "replay work limits must be nonzero");;
  let available_items := max_queue_items (sb_config self) - N.of_nat (length (sb_queue self)) in
  token ← token_wire (sb_acknowledged self);
  envelope ← add 1 token;
  envelope ← add envelope 16;
  divisor ← add envelope 1;
  let max_items := N.min (N.min (lim_items requested) available_items) (available_bytes self / divisor) in
  if decide (max_items = 0) then mret None else
  envelopes ← mul max_items envelope;
  let max_bytes := N.min (lim_bytes requested) (available_bytes self - envelopes) in
  if decide (max_bytes = 0) then mret None else
  mret (Some {| lim_items := max_items; lim_bytes := max_bytes; lim_sequences := lim_sequences requested |}).

(** What the visitor keeps while the source replays. *)
Record Scan := {
  sc_levels : Levels; sc_staged : list (Delivery D); sc_previous : Position; sc_scanned : N;
  sc_scanned_bytes : N; sc_queued_bytes : N
}.
Definition with_levels (F : Levels) (s : Scan) : Scan :=
  {| sc_levels := F; sc_staged := sc_staged s; sc_previous := sc_previous s;
     sc_scanned := sc_scanned s; sc_scanned_bytes := sc_scanned_bytes s;
     sc_queued_bytes := sc_queued_bytes s |}.
(** The checks and counts of a visited delta, before it is filtered: the bytes
    of the delta and the scan after it. *)
Definition scan_delta self (published : SessionSeq) (limit : ReplayLimit) (delta : D) (s : Scan) :
    Try StreamError (N * Scan) :=
  refuse_if (sc_scanned s = lim_items limit) (StreamError.SourceViolation "source exceeded item limit");;
  validate_delta (sc_previous s) delta published;;
  refuse_if (lim_sequences limit < d_sequence (sd_id delta) - p_sequence (sb_replayed self))
    (StreamError.SourceViolation "source exceeded sequence work limit");;
  raw_bytes ← sd_wire delta;
  scanned_bytes ← add (sc_scanned_bytes s) raw_bytes;
  refuse_if (lim_bytes limit < scanned_bytes)
    (StreamError.SourceViolation "source exceeded byte limit");;
  scanned ← add (sc_scanned s) 1;
  mret (raw_bytes,
    {| sc_levels := sc_levels s; sc_staged := sc_staged s; sc_previous := after_delta (sd_id delta);
       sc_scanned := scanned; sc_scanned_bytes := scanned_bytes; sc_queued_bytes := sc_queued_bytes s |}).
(** A matching delta's wire bytes, the queued bytes with it, and its charge. *)
Definition stage_sizes self (delta : D) (raw_bytes : N) (s : Scan) : Try StreamError (N * N * N) :=
  let cursor := token_at (sb_acknowledged self) (sc_previous s) in
  token ← token_wire cursor;
  envelope ← add 1 token;
  wire_bytes ← add raw_bytes envelope;
  queued_bytes ← add (sc_queued_bytes s) wire_bytes;
  refuse_if (available_bytes self < queued_bytes) StreamError.Capacity;;
  slot ← control_charge;
  heap ← sd_heap delta;
  charge ← add slot heap;
  mret (wire_bytes, queued_bytes, charge).
Definition visit self (published : SessionSeq) (limit : ReplayLimit) (delta : D) :
    Fallible Scan StreamError () := λ s0,
  match scan_delta self published limit delta s0 with
  | Err e => (Err e, s0)
  | Ok (raw_bytes, s) =>
      if matches (sb_filter self) delta then
        match stage_sizes self delta raw_bytes s with
        | Err e => (Err e, s)
        | Ok (wire_bytes, queued_bytes, charge) =>
            match reserve (sb_budget self) BudgetKind.Query BudgetLane.Ordinary charge (sc_levels s) with
            | (Err e, F) => (Err (StreamError.Memory e), with_levels F s)
            | (Ok allocation, F) =>
                (Ok (), {| sc_levels := F;
                   sc_staged := sc_staged s ++
                     [{| dl_event := StreamEvent.Delta (token_at (sb_acknowledged self) (sc_previous s)) delta;
                         dl_wire_bytes := wire_bytes;
                         dl_allocation := DeliveryAllocation.Owned allocation |}];
                   sc_previous := sc_previous s; sc_scanned := sc_scanned s;
                   sc_scanned_bytes := sc_scanned_bytes s; sc_queued_bytes := queued_bytes |})
            end
        end
      else (Ok (), s)
  end.
(** The coverage a source claims, against what it visited. *)
Definition check_coverage self (b : ReplayBounds) (limit : ReplayLimit) (previous last : Position) :
    Try StreamError () :=
  position_validate last (rb_ledger b) (rb_published b);;
  refuse_if (position_lt last previous
             ∨ lim_sequences limit < p_sequence last - p_sequence (sb_replayed self))
    (StreamError.SourceViolation "invalid replay coverage");;
  refuse_if (p_offset last ≠ PositionOffset.Resolved ∧ last ≠ previous)
    (StreamError.SourceViolation "partial coverage did not name last delta").
Definition report self (scanned queued : N) (backpressured : bool) (resync : option ResyncReason) :
    DriveReport :=
  {| dr_scanned := scanned; dr_queued := queued; dr_position := sb_replayed self;
     dr_backpressured := backpressured; dr_resync := resync |}.
Definition resolved_at (last : Position) self : option Position :=
  if decide (p_offset last = PositionOffset.Resolved ∧ position_lt (sb_delivered self) last)
  then Some last else sb_resolved self.
(** The staged batch joins the queue. *)
Definition commit_scan (s : Scan) (last : Position) (staging : Allocation) self :
    Try StreamError DriveReport * Conn :=
  let queue := sb_queue self ++ sc_staged s in
  let F := allocation_drop staging (sc_levels s) in
  match add (sb_queue_bytes self) (sc_queued_bytes s) with
  | Err e => (Err e, (set_queue queue (sb_queue_bytes self) (sb_delivered self) (sb_replayed self)
                        (sb_resolved self) self, F))
  | Ok queue_bytes =>
      let next := set_queue queue queue_bytes (sb_delivered self) last (resolved_at last self) self in
      (Ok (report next (sc_scanned s) (N.of_nat (length (sc_staged s))) false None), (next, F))
  end.

Section pump.
Context {Src : Type} `{!DeltaSource Src D}.
Definition pump_replay (source : Src) (limit : ReplayLimit) : Fallible Conn StreamError DriveReport :=
  λ '(self, F),
  let b := bounds source in
  match (room ← lift (mul (lim_items limit) size_of_Delivery);
         room ← lift (add ALLOCATOR_OVERHEAD room);
         errors_as StreamError.Memory
           (reserve (sb_budget self) BudgetKind.Pending BudgetLane.Ordinary room)) F with
  | (Err e, F) => (Err e, (self, F))
  | (Ok staging, F) =>
      match replay source (sb_replayed self) limit (visit self (rb_published b) limit)
              {| sc_levels := F; sc_staged := []; sc_previous := sb_replayed self; sc_scanned := 0;
                 sc_scanned_bytes := 0; sc_queued_bytes := 0 |} with
      | (Err e, s) => (Err e, (self, allocation_drop staging (deliveries_drop (sc_staged s) (sc_levels s))))
      | (Ok last, s) =>
          match check_coverage self b limit (sc_previous s) last with
          | Err e =>
              (Err e, (self, allocation_drop staging (deliveries_drop (sc_staged s) (sc_levels s))))
          | Ok _ => commit_scan s last staging self
          end
      end
  end.
Definition pump (source : Src) (requested : ReplayLimit) (now : N) :
    Fallible Conn StreamError DriveReport := λ c,
  match reconcile (bounds source) now c with
  | (Err e, c) => (Err e, c)
  | (Ok _, (self, F)) =>
      match sb_resync self with
      | Some (reason, _) => (Ok (report self 0 0 false (Some reason)), (self, F))
      | None =>
          if sb_closed self then (Ok (report self 0 0 false None), (self, F))
          else match pump_limit self requested with
          | Err e => (Err e, (self, F))
          | Ok None => (Ok (report self 0 0 true None), (self, F))
          | Ok (Some limit) => pump_replay source limit (self, F)
          end
      end
  end.
End pump.

(** ** Delivery *)
Definition control (event : StreamEvent D) : Fallible Conn StreamError (Delivery D) := λ '(self, F),
  match event_wire event with
  | Err e => (Err e, (self, F))
  | Ok wire_bytes =>
      (Ok {| dl_event := event; dl_wire_bytes := wire_bytes;
             dl_allocation := DeliveryAllocation.Control |},
       (set_control (sb_control_count self + 1) self, F))
  end.
(** The head of the queue leaves with its credit. *)
Definition pop_delivery (delivery : Delivery D) (rest : list (Delivery D)) self : Subscription :=
  let delivered := match dl_event delivery with
                   | StreamEvent.Delta cursor _ => ct_position cursor
                   | _ => sb_delivered self
                   end in
  set_credit (sb_item_credit self - 1) (sb_byte_credit self - dl_wire_bytes delivery)
    (set_queue rest (sb_queue_bytes self - dl_wire_bytes delivery) delivered (sb_replayed self)
      (sb_resolved self) self).
Definition next_open : Fallible Conn StreamError (option (Delivery D)) := λ '(self, F),
  if decide (1 < sb_control_count self) then (Ok None, (self, F)) else
  match sb_resync self with
  | Some (reason, floor) =>
      (d ← control (StreamEvent.Resync (sb_acknowledged self) reason floor); mret (Some d))
        (set_resync None true (sb_terminal_reason self) self, F)
  | None =>
      if sb_closed self then (Ok None, (self, F)) else
      match sb_queue self with
      | front :: rest =>
          let window_full := bool_decide (max_credit_bytes (sb_config self) <= sb_byte_credit self) in
          if decide (sb_item_credit self = 0
                     ∨ (sb_byte_credit self < dl_wire_bytes front ∧ window_full = false))
          then (Ok None, (self, F))
          else (Ok (Some front), (pop_delivery front rest self, F))
      | [] =>
          let self' := set_queue [] (sb_queue_bytes self) (sb_delivered self) (sb_replayed self) None self in
          match sb_resolved self with
          | Some position =>
              if decide (position_lt (sb_delivered self) position) then
                (d ← control (StreamEvent.Resolved (token_at (sb_acknowledged self) position));
                 mret (Some d))
                  (set_queue [] (sb_queue_bytes self) position (sb_replayed self) None self, F)
              else (Ok None, (self', F))
          | None => (Ok None, (self', F))
          end
      end
  end.
Definition expire (now : N) (c : Conn) : Conn :=
  let '(self, F) := c in
  if decide (sb_protected self = false ∧ sb_closed self = false ∧ sb_resync self = None
             ∧ sb_expires_at self <= now)
  then require_resync ResyncReason.LeaseExpired
         (retention_prefix (ct_position (sb_acknowledged self))) (self, F)
  else (self, F).
Definition next (now : N) : Fallible Conn StreamError (option (Delivery D)) :=
  advance_clock now;; modify (expire now);; next_open.
(** The transport is done with a delivery. *)
Definition release_delivery (delivery : Delivery D) (c : Conn) : Conn :=
  let '(self, F) := c in
  match dl_allocation delivery with
  | DeliveryAllocation.Owned permit => (self, allocation_drop permit F)
  | DeliveryAllocation.Control => (set_control (sb_control_count self - 1) self, F)
  end.

(** ** Acknowledgments *)
Definition acknowledge_command self (token : CursorToken) (revision now : N) :
    Try StreamError CursorCommand :=
  same_stream (sb_acknowledged self) token;;
  match sb_terminal_reason self with
  | Some reason => fails (StreamError.ResyncRequired reason)
  | None => mret ()
  end;;
  refuse_if (sb_protected self = false ∧ sb_expires_at self <= now)
    (StreamError.ResyncRequired ResyncReason.LeaseExpired);;
  refuse_if (position_lt (sb_delivered self) (ct_position token)) StreamError.BeyondDelivered;;
  refuse_if (position_lt (ct_position token) (ct_position (sb_acknowledged self)))
    StreamError.CursorRegression;;
  mret {| cm_expected_revision := revision; cm_now := now;
          cm_operation := CursorOperation.Acknowledge token |}.
Definition acknowledged_checks self (record : CursorRecord) : Try StreamError () :=
  same_stream (sb_acknowledged self) (rw_token record);;
  refuse_if (sb_filter self ≠ rw_filter record) StreamError.WrongScope;;
  refuse_if (sb_protected self ≠ bool_decide (rw_mode record = CursorMode.Protected))
    (StreamError.Invalid "consumer protection cannot change implicitly");;
  refuse_if (position_lt (sb_delivered self) (ct_position (rw_token record)))
    StreamError.BeyondDelivered;;
  refuse_if (position_lt (ct_position (rw_token record)) (ct_position (sb_acknowledged self)))
    StreamError.CursorRegression;;
  match rw_mode record with
  | CursorMode.Seeding _ => fails StreamError.SeedNotComplete
  | _ => mret ()
  end.
Definition acknowledged_committed (record : CursorRecord) : Fallible Conn StreamError () := λ '(self, F),
  match acknowledged_checks self record with
  | Err e => (Err e, (self, F))
  | Ok _ =>
      let c := (set_acknowledged (rw_token record) (rw_expires_at record) self, F) in
      (Ok (), match rw_mode record with
              | CursorMode.Resync reason =>
                  require_resync reason (retention_prefix (ct_position (rw_token record))) c
              | _ => c
              end)
  end.
End subscription.
Arguments Scan : clear implicits.
