(* ===== verification/SubscriptionLaws.v ===== *)
(** * Laws of a subscription

    What a replay stages, and the invariant of a connection: what was handed
    to the transport and what is queued are the matching deltas of the
    history, in order and without gaps, within the configured bounds. *)
From stdpp Require Import prelude gmap strings sorting.
From Stdlib Require Import NArith.
From S2P Require Import Prelude Vocabulary Objects Fallible Budget Stream Registry RegistryLaws History Subscription.

#[local] Open Scope N_scope.

Section laws.
Context {D : Type} `{!StreamedDelta D, !WireSizes D} {layout : Layout}.
Notation Subscription := (Subscription D).
Notation Conn := (Subscription * Levels)%type.
Implicit Types (self : Subscription) (F : Levels) (H : list D) (s : Scan D).

(** ** What a replay stages *)
Definition delta_event (token : CursorToken) (d : D) : StreamEvent D :=
  StreamEvent.Delta (token_at token (position_of d)) d.
Definition queue_wire (queue : list (Delivery D)) : N := foldr (λ d total, dl_wire_bytes d + total) 0 queue.
Lemma queue_wire_app q q' : queue_wire (q ++ q') = queue_wire q + queue_wire q'.
Proof. induction q as [|d q IH]; simpl; [done|]. rewrite IH. lia. Qed.

Lemma validate_delta_ok previous d published u :
  validate_delta previous d published = Ok u →
  d_ledger (sd_id d) = p_ledger previous ∧ position_lt previous (position_of d) ∧
  d_sequence (sd_id d) <= published ∧ contiguous previous (sd_id d) = Ok ().
Proof.
  unfold validate_delta. intros Hv. apply try_bind_ok in Hv as ([] & Hp & Hv).
  apply position_validate_ok in Hp as (? & ? & _). rewrite !refuse_then_ok in Hv.
  destruct Hv as (_ & Hlt%position_nle & Hv). destruct u. split_and!; [done..|].
  unfold contiguous. exact Hv.
Qed.
(** One visit: the scan moves to the delta, and stages it if it matches. *)
Record visit_ok self (limit : ReplayLimit) (d : D) s s' : Prop := {
  vo_ledger : p_ledger (sc_previous s') = p_ledger (sc_previous s);
  vo_previous : sc_previous s' = position_of d;
  vo_forward : position_lt (sc_previous s) (sc_previous s');
  vo_scanned : sc_scanned s' = sc_scanned s + 1;
  vo_limit : sc_scanned s ≠ lim_items limit;
  vo_staged : ∃ new, sc_staged s' = sc_staged s ++ new ∧
    dl_event <$> new = delta_event (sb_acknowledged self) <$> selected (matches (sb_filter self)) [d] ∧
    sc_queued_bytes s' = sc_queued_bytes s + queue_wire new ∧
    (new = [] ∨ sc_queued_bytes s' <= available_bytes self)
}.
Lemma visit_spec self published limit d s u s' :
  visit self published limit d s = (Ok u, s') → visit_ok self limit d s s'.
Proof.
  unfold visit. intros Hv. destruct (scan_delta _ _ _ _ _) as [[raw s1]|e] eqn:Hscan; [|done].
  unfold scan_delta in Hscan. rewrite refuse_then_ok in Hscan. destruct Hscan as [Hlim Hscan].
  apply try_bind_ok in Hscan as ([] & Hval & Hscan). rewrite refuse_then_ok in Hscan.
  destruct Hscan as [_ Hscan]. apply try_bind_ok in Hscan as (? & _ & Hscan).
  apply try_bind_ok in Hscan as (? & _ & Hscan). rewrite refuse_then_ok in Hscan.
  destruct Hscan as [_ Hscan]. apply try_bind_ok in Hscan as (n & [-> _]%add_ok & Hscan). ok_inv.
  apply validate_delta_ok in Hval as (? & ? & ? & _).
  destruct (matches (sb_filter self) d) eqn:Hm.
  - destruct (stage_sizes _ _ _ _) as [[[wire queued] charge]|e] eqn:Hst; [|done].
    destruct (reserve _ _ _ _ _) as [[allocation|] F] eqn:Hr; [|done]. simplify_eq.
    unfold stage_sizes in Hst. apply try_bind_ok in Hst as (? & _ & Hst).
    apply try_bind_ok in Hst as (? & _ & Hst). apply try_bind_ok in Hst as (? & _ & Hst).
    apply try_bind_ok in Hst as (? & [-> _]%add_ok & Hst). rewrite refuse_then_ok in Hst.
    destruct Hst as [? Hst]. apply try_bind_ok in Hst as (? & _ & Hst).
    apply try_bind_ok in Hst as (? & _ & Hst). apply try_bind_ok in Hst as (? & _ & Hst). ok_inv.
    split; simpl in *; try done. eexists [_]. rewrite selected_singleton, Hm. simpl.
    split_and!; [done|done|simpl; lia|right; lia].
  - simplify_eq. split; simpl in *; try done. exists []. rewrite selected_singleton, Hm, app_nil_r. simpl. rewrite N.add_0_r.
    split_and!; [done..|by left].
Qed.
Definition staged_list self (new : list (Delivery D)) (l : list D) : Prop :=
  dl_event <$> new = delta_event (sb_acknowledged self) <$> selected (matches (sb_filter self)) l.
Lemma visit_all_spec self published limit l s u s' :
  visit_all (visit self published limit) l s = (Ok u, s') →
  sc_scanned s <= lim_items limit → sc_queued_bytes s <= available_bytes self →
  p_ledger (sc_previous s') = p_ledger (sc_previous s) ∧
  position_le (sc_previous s) (sc_previous s') ∧
  (sc_previous s' = sc_previous s ∨ ∃ d, d ∈ l ∧ sc_previous s' = position_of d) ∧
  sc_scanned s' <= lim_items limit ∧ sc_queued_bytes s' <= available_bytes self ∧
  ∃ new, sc_staged s' = sc_staged s ++ new ∧ staged_list self new l ∧
    N.of_nat (length new) + sc_scanned s <= sc_scanned s' ∧
    sc_queued_bytes s' = sc_queued_bytes s + queue_wire new.
Proof.
  revert s. induction l as [|d l IH]; intros s Hv Hscan Hq; simpl in Hv.
  { ok_inv. split_and!; [done|done|by left|done|done|]. exists []. rewrite app_nil_r. simpl.
    split_and!; [done|done|lia|lia]. }
  apply fallible_bind_ok in Hv as ([] & s1 & Hd & Hv). apply visit_spec in Hd.
  pose proof (vo_scanned _ _ _ _ _ Hd) as Hs1. pose proof (vo_limit _ _ _ _ _ Hd).
  destruct (vo_staged _ _ _ _ _ Hd) as (new1 & Hst1 & Hev1 & Hb1 & Hav1).
  assert (Hq1 : sc_queued_bytes s1 <= available_bytes self).
  { destruct Hav1 as [->|?]; [|done]. simpl in Hb1. lia. }
  destruct (IH s1 Hv) as (Hl & Hle & Hlast & Hsc & Hq' & new & Hst & Hev & Hlen & Hb); [lia|done|].
  split_and!.
  - by rewrite Hl, (vo_ledger _ _ _ _ _ Hd).
  - etrans; [by apply position_lt_le, (vo_forward _ _ _ _ _ Hd)|done].
  - right. destruct Hlast as [->|(d' & ? & ?)]; [|exists d'; set_solver].
    exists d. rewrite (vo_previous _ _ _ _ _ Hd). set_solver.
  - done.
  - done.
  - exists (new1 ++ new). rewrite Hst, Hst1, app_assoc. split; [done|].
    assert (Hlen1 : (length new1 ≤ 1)%nat).
    { apply (f_equal length) in Hev1. rewrite !length_fmap in Hev1. rewrite Hev1. unfold selected.
      etrans; [apply length_filter|done]. }
    split_and!.
    + unfold staged_list in *. rewrite fmap_app, Hev1, Hev. change (d :: l) with ([d] ++ l).
      by rewrite selected_app, fmap_app.
    + rewrite length_app. lia.
    + rewrite queue_wire_app. lia.
Qed.

(** ** The abstract stream

    [stream_log token f H from log to]: [log] is a lawful delivery of the
    history after [from], now at [to]: the matching deltas one by one, in order;
    a resolved position only once nothing matching is left before it. *)
Inductive stream_log (token : CursorToken) (f : D → bool) (H : list D) (from : Position) :
    list (StreamEvent D) → Position → Prop :=
  | log_start : stream_log token f H from [] from
  | log_delta log q d :
      stream_log token f H from log q → selected f (between q (position_of d) H) = [d] →
      position_lt q (position_of d) →
      stream_log token f H from (log ++ [delta_event token d]) (position_of d)
  | log_quiet log q x :
      stream_log token f H from log q → selected f (between q x H) = [] → position_le q x →
      p_ledger x = p_ledger from → stream_log token f H from log x
  | log_resolved log x :
      stream_log token f H from log x → p_offset x = PositionOffset.Resolved →
      stream_log token f H from (log ++ [StreamEvent.Resolved (token_at token x)]) x
  | log_resync log q cursor reason floor :
      stream_log token f H from log q → same_stream token cursor = Ok () →
      stream_log token f H from (log ++ [StreamEvent.Resync cursor reason floor]) q.
Definition event_deltas (log : list (StreamEvent D)) : list D :=
  omap (λ e, match e with StreamEvent.Delta _ d => Some d | _ => None end) log.
(** A lawful delivery is exactly the matching deltas up to where it is. *)
Lemma stream_log_exact token f H from log to :
  StronglySorted delta_lt H → stream_log token f H from log to →
  position_le from to ∧ event_deltas log = selected f (between from to H).
Proof.
  intros Hs. induction 1 as [|log q d Hlog [Hle IH] Hsel Hlt|log q x Hlog [Hle IH] Hsel Hqx Hlx
    |log x Hlog IH Hoff|log q cursor reason floor Hlog IH Hst].
  - split; [done|]. by rewrite between_empty.
  - split; [etrans; [done|by apply position_lt_le]|]. unfold event_deltas in *. rewrite omap_app, IH. simpl.
    rewrite (between_split from q (position_of d)), selected_app, Hsel; eauto with positions.
  - split; [by etrans|]. rewrite IH, (between_split from q x), selected_app, Hsel, app_nil_r by done. done.
  - destruct IH as [? IH]. split; [done|]. unfold event_deltas in *. by rewrite omap_app, IH, app_nil_r.
  - destruct IH as [? IH]. split; [done|]. unfold event_deltas in *. by rewrite omap_app, IH, app_nil_r.
Qed.
Lemma stream_log_ledger token f H from log to :
  history_ok (p_ledger from) H → stream_log token f H from log to → p_ledger to = p_ledger from.
Proof.
  intros Hok. induction 1 as [|log q d Hlog IH Hsel Hlt| | |]; try done.
  assert (Hin : d ∈ selected f (between q (position_of d) H)) by (rewrite Hsel; left).
  apply elem_of_selected in Hin as [[Hin _]%elem_of_between _]. by apply (ho_ledger _ _ Hok).
Qed.

(** ** The invariant of a connection *)
Definition live self : Prop := sb_closed self = false ∧ sb_resync self = None.
Record sub_inv (token : CursorToken) (filter : DeltaFilter) (H : list D) self (log : list (StreamEvent D)) :
    Prop := {
  si_token : ck_ledger (ct_key token) = p_ledger (ct_position token);
  si_ack : sb_acknowledged self = token_at token (ct_position (sb_acknowledged self));
  si_ack_ledger : p_ledger (ct_position (sb_acknowledged self)) = p_ledger (ct_position token);
  si_filter : sb_filter self = filter;
  si_ledger : p_ledger (sb_delivered self) = p_ledger (ct_position token) ∧
    p_ledger (sb_replayed self) = p_ledger (ct_position token);
  si_acked : position_le (ct_position (sb_acknowledged self)) (sb_delivered self);
  si_order : position_le (sb_delivered self) (sb_replayed self);
  si_log : stream_log token (matches filter) H (ct_position token) log (sb_delivered self);
  si_queue : live self → dl_event <$> sb_queue self =
    delta_event token <$> selected (matches filter) (between (sb_delivered self) (sb_replayed self) H);
  si_closed : ¬ live self → sb_queue self = [];
  si_resolved : ∀ p, sb_resolved self = Some p →
    p_offset p = PositionOffset.Resolved ∧ p_ledger p = p_ledger (ct_position token) ∧
    position_le p (sb_replayed self);
  si_bytes : sb_queue_bytes self = queue_wire (sb_queue self)
}.
(** The configured bounds hold. *)
Record sub_bounds self : Prop := {
  bo_bytes : sb_queue_bytes self <= max_queue_bytes (sb_config self);
  bo_items : N.of_nat (length (sb_queue self)) <= max_queue_items (sb_config self);
  bo_item_credit : sb_item_credit self <= max_credit_items (sb_config self);
  bo_byte_credit : sb_byte_credit self <= max_credit_bytes (sb_config self)
}.
Definition conn_inv (token : CursorToken) (filter : DeltaFilter) (H : list D) self log : Prop :=
  sub_inv token filter H self log ∧ sub_bounds self.
Lemma live_dec self : live self ∨ ¬ live self.
Proof. unfold live. destruct (sb_closed self), (sb_resync self); naive_solver. Qed.
Lemma require_resync_inv token filter H self log reason floor F :
  conn_inv token filter H self log → conn_inv token filter H (require_resync reason floor (self, F)).1 log.
Proof.
  intros [Hi Hb]. unfold require_resync. destruct (sb_protected self); [done|].
  destruct (sb_closed self || _) eqn:Hc; [done|]. destruct Hi, Hb.
  split; split; simpl in *; try done; try lia. intros [_ [=]].
Qed.
Lemma set_clock_inv token filter H self log now :
  conn_inv token filter H self log → conn_inv token filter H (set_clock now self) log.
Proof. intros [[] []]. split; by split. Qed.
Lemma reconcile_bounds_cases self b now F r c :
  reconcile_bounds b now (self, F) = (r, c) →
  (c = (self, F) ∨ ∃ reason floor, c = require_resync reason floor (self, F)) ∧
  (is_ok r → rb_ledger b = ck_ledger (ct_key (sb_acknowledged self))).
Proof.
  unfold reconcile_bounds. intros Hr.
  repeat (case_decide || match type of Hr with context [if ?c then _ else _] => destruct c end);
    apply pair_eq in Hr as [<- <-]; (split; [|done]); eauto.
Qed.
Lemma require_resync_config self reason floor F :
  sb_config (require_resync reason floor (self, F)).1 = sb_config self.
Proof. unfold require_resync. destruct (sb_protected self); [done|]. by destruct (sb_closed self || _). Qed.
Lemma reconcile_config self b now F r self' F' :
  reconcile b now (self, F) = (r, (self', F')) → sb_config self' = sb_config self.
Proof.
  unfold reconcile, mbind, fallible_bind, advance_clock. intros Hr. case_decide; [by simplify_eq|].
  apply reconcile_bounds_cases in Hr as [[[= -> _]|(reason & floor & Hc)] _]; [done|].
  pose proof (require_resync_config (set_clock now self) reason floor F) as He. by rewrite <-Hc in He.
Qed.
Lemma reconcile_inv token filter H self log b now F r self' F' :
  conn_inv token filter H self log → reconcile b now (self, F) = (r, (self', F')) →
  conn_inv token filter H self' log ∧ (is_ok r → rb_ledger b = p_ledger (ct_position token)).
Proof.
  intros Hi Hr. unfold reconcile, mbind, fallible_bind, advance_clock in Hr.
  destruct (decide (now < sb_clock self)); [simplify_eq; by split|].
  apply (set_clock_inv _ _ _ _ _ now) in Hi. apply reconcile_bounds_cases in Hr as [Hc Hl]. split.
  - destruct Hc as [[= -> _]|(reason & floor & Hc)]; [done|].
    apply (require_resync_inv _ _ _ _ _ reason floor F) in Hi. by rewrite <-Hc in Hi.
  - intros Hok. rewrite (Hl Hok). destruct Hi as [Hi _].
    rewrite (si_ack _ _ _ _ _ Hi). apply (si_token _ _ _ _ _ Hi).
Qed.

(** ** Pumping keeps the invariant *)
Lemma pump_limit_ok self requested limit :
  pump_limit self requested = Ok (Some limit) →
  lim_items limit + N.of_nat (length (sb_queue self)) <= max_queue_items (sb_config self).
Proof.
  unfold pump_limit. intros Hp. rewrite refuse_then_ok in Hp. destruct Hp as [_ Hp].
  apply try_bind_ok in Hp as (? & _ & Hp). apply try_bind_ok in Hp as (? & _ & Hp).
  apply try_bind_ok in Hp as (? & _ & Hp). apply try_bind_ok in Hp as (? & _ & Hp).
  revert Hp. generalize (available_bytes self / x2). intros q Hp.
  case_decide; [by ok_inv|]. apply try_bind_ok in Hp as (? & _ & Hp). case_decide; ok_inv. simpl.
  lia.
Qed.
(** The staged batch of a covering replay is the next stretch of the history. *)
Lemma commit_scan_inv token filter H self log s new last staging r self' F' :
  StronglySorted delta_lt H → conn_inv token filter H self log → live self →
  sc_staged s = new → staged_list self new (between (sb_replayed self) last H) →
  position_le (sb_replayed self) last → p_ledger last = p_ledger (ct_position token) →
  sc_queued_bytes s = queue_wire new → sc_queued_bytes s <= available_bytes self →
  N.of_nat (length new) + N.of_nat (length (sb_queue self)) <= max_queue_items (sb_config self) →
  commit_scan s last staging self = (r, (self', F')) →
  max_queue_bytes (sb_config self) <= u64_max → conn_inv token filter H self' log.
Proof.
  intros Hs [Hi Hb] Hlive Hnew Hst Hle Hl Hbytes Hav Hlen Hc Hmax. unfold commit_scan in Hc.
  unfold available_bytes in Hav. pose proof (bo_bytes _ Hb).
  assert (Hadd : add (sb_queue_bytes self) (sc_queued_bytes s) = Ok (sb_queue_bytes self + sc_queued_bytes s)).
  { apply add_ok. split; [done|]. lia. }
  rewrite Hadd, Hnew in Hc. simplify_eq. destruct Hi, Hb. split; split; simpl in *; try done.
  - split; [apply si_ledger0|done].
  - by etrans.
  - intros _. rewrite fmap_app, si_queue0 by done. unfold staged_list in Hst. rewrite Hst, si_filter0.
    rewrite (between_split (sb_delivered self) (sb_replayed self) last), selected_app, fmap_app by done.
    f_equal. apply list_fmap_ext. intros _ d _. unfold delta_event. by rewrite si_ack0.
  - intros p Hp. unfold resolved_at in Hp. case_decide as Hd.
    + simplify_eq. by destruct Hd.
    + destruct (si_resolved0 _ Hp) as (? & ? & ?). split_and!; [done..|]. by etrans.
  - rewrite queue_wire_app. lia.
  - lia.
  - rewrite length_app. lia.
Qed.
Section pump.
Context {Src : Type} `{!DeltaSource Src D} `{!VisitingSource Src D}.
(** The documented contract of a source: through the position it returns, it
    visited every delta of the history. *)
Definition covers (src : Src) H : Prop := ∀ after limit last,
  outcome src after limit = Ok last → visited src after limit = between after last H.
Lemma pump_replay_inv token filter H self log src limit F r self' F' :
  StronglySorted delta_lt H → covers src H → conn_inv token filter H self log → live self →
  rb_ledger (bounds src) = p_ledger (ct_position token) →
  lim_items limit + N.of_nat (length (sb_queue self)) <= max_queue_items (sb_config self) →
  max_queue_bytes (sb_config self) <= u64_max →
  pump_replay src limit (self, F) = (r, (self', F')) → conn_inv token filter H self' log.
Proof.
  intros Hs Hcov Hi Hlive Hled Hroom Hmax Hp. unfold pump_replay in Hp.
  match type of Hp with match ?x with _ => _ end = _ => destruct x as [[staging|e] F1] end;
    [|by simplify_eq].
  rewrite replay_visits in Hp. unfold mbind, fallible_bind in Hp.
  destruct (visit_all _ _ _) as [[[]|e] s] eqn:Hv; [|by simplify_eq].
  apply visit_all_spec in Hv as (Hl & Hle & Hlast & Hsc & Hq & new & Hnew & Hst & Hlen & Hb);
    [|simpl; lia..]. simpl in *.
  unfold lift in Hp. destruct (outcome src (sb_replayed self) limit) as [last|e] eqn:Hout; [|by simplify_eq].
  destruct (check_coverage _ _ _ _ _) as [[]|e] eqn:Hcc; [|by simplify_eq].
  unfold check_coverage in Hcc. apply try_bind_ok in Hcc as ([] & Hval & Hcc).
  apply position_validate_ok in Hval as (Hll & _ & _). rewrite refuse_then_ok in Hcc.
  destruct Hcc as [Hnlt _]. rewrite (Hcov _ _ _ Hout) in Hst.
  assert (Hprev : position_le (sc_previous s) last).
  { apply position_nlt. intros ?. apply Hnlt. by left. }
  eapply (commit_scan_inv _ _ _ _ _ s new last staging); eauto; [by etrans|congruence|lia].
Qed.
Lemma pump_inv token filter H self log src requested now F r self' F' :
  StronglySorted delta_lt H → covers src H → conn_inv token filter H self log →
  max_queue_bytes (sb_config self) <= u64_max →
  pump src requested now (self, F) = (r, (self', F')) → conn_inv token filter H self' log.
Proof.
  intros Hs Hcov Hi Hmax Hp. unfold pump in Hp.
  destruct (reconcile _ _ _) as [rr [self1 F1]] eqn:Hr.
  assert (Hcfg : sb_config self1 = sb_config self) by by eapply reconcile_config.
  apply (reconcile_inv _ _ _ _ _ _ _ _ _ _ _ Hi) in Hr as [Hi1 Hl].
  destruct rr as [u|e]; [|by simplify_eq].
  destruct (sb_resync self1) as [[reason floor]|] eqn:Hres; [by simplify_eq|].
  destruct (sb_closed self1) eqn:Hcl; [by simplify_eq|].
  destruct (pump_limit self1 requested) as [[limit|]|e] eqn:Hlim; [|by simplify_eq..].
  eapply pump_replay_inv; eauto; [done|by apply Hl|by apply pump_limit_ok in Hlim|by rewrite Hcfg].
Qed.
End pump.

(** ** Delivery keeps the invariant *)
Definition handed (r : Try StreamError (option (Delivery D))) : list (StreamEvent D) :=
  match r with Ok (Some d) => [dl_event d] | _ => [] end.
Lemma set_control_inv token filter H self log count :
  conn_inv token filter H self log → conn_inv token filter H (set_control count self) log.
Proof. intros [[] []]. split; by split. Qed.
(** A control message: delivered with the slot taken, or not at all. *)
Lemma control_cases (event : StreamEvent D) self F r self' F' :
  (d ← control event; mret (Some d)) (self, F) = (r, (self', F')) →
  (handed r = [event] ∧ self' = set_control (sb_control_count self + 1) self) ∨
  (handed r = [] ∧ self' = self).
Proof.
  unfold mbind, fallible_bind, mret, fallible_ret, control. destruct (event_wire event); intros; simplify_eq; [by left|by right].
Qed.
Lemma expire_inv token filter H self log now F :
  conn_inv token filter H self log → conn_inv token filter H (expire now (self, F)).1 log.
Proof. intros Hi. unfold expire. case_decide; [by apply require_resync_inv|done]. Qed.
Lemma pop_inv token filter H self log front rest :
  history_ok (p_ledger (ct_position token)) H → conn_inv token filter H self log → live self →
  sb_queue self = front :: rest →
  conn_inv token filter H (pop_delivery front rest self) (log ++ [dl_event front]).
Proof.
  intros Hs [Hi Hb] Hlive Hq. destruct Hi, Hb. rewrite Hq in *.
  specialize (si_queue0 Hlive). rewrite fmap_cons in si_queue0.
  destruct (selected (matches filter) _) as [|d rest'] eqn:Hsel; [done|].
  rewrite fmap_cons in si_queue0. injection si_queue0 as Hf Hr.
  assert (Hin : d ∈ H).
  { assert (Hin : d ∈ d :: rest') by left. rewrite <-Hsel in Hin.
    by apply elem_of_selected in Hin as [[? _]%elem_of_between _]. }
  apply between_uncons in Hsel as (Hlt & Hle & Hone & Hrest); [|by apply (ho_sorted _ _ Hs)].
  unfold pop_delivery. rewrite Hf. simpl.
  split; split; simpl in *; try done; try lia.
  - split; [by apply (ho_ledger _ _ Hs)|apply si_ledger0].
  - eauto with positions.
  - by eapply log_delta.
  - intros _. by rewrite Hr, Hrest.
Qed.
Lemma next_open_inv token filter H self log F r self' F' :
  history_ok (p_ledger (ct_position token)) H → conn_inv token filter H self log →
  next_open (self, F) = (r, (self', F')) → conn_inv token filter H self' (log ++ handed r).
Proof.
  intros Hs Hi Hn. unfold next_open in Hn.
  case_decide; [simplify_eq; by rewrite app_nil_r|].
  destruct (sb_resync self) as [[reason floor]|] eqn:Hres.
  { assert (Hi' : conn_inv token filter H (set_resync None true (sb_terminal_reason self) self)
      (log ++ [StreamEvent.Resync (sb_acknowledged self) reason floor])).
    { destruct Hi as [[] []]. split; split; simpl; try done; try by intros [].
      - apply log_resync; [done|]. apply same_stream_ok. rewrite si_ack0. simpl. by split_and!.
      - intros _. apply si_closed0. unfold live. rewrite Hres. by intros []. }
    assert (Hi'' : conn_inv token filter H (set_resync None true (sb_terminal_reason self) self) log).
    { destruct Hi as [[] []]. split; split; simpl; try done; try by intros [].
      intros _. apply si_closed0. unfold live. rewrite Hres. by intros []. }
    apply control_cases in Hn as [[-> ->]|[-> ->]]; [by apply set_control_inv|by rewrite app_nil_r]. }
  destruct (sb_closed self) eqn:Hcl; [simplify_eq; by rewrite app_nil_r|].
  assert (Hlive : live self) by done.
  destruct (sb_queue self) as [|front rest] eqn:Hq.
  - assert (Hq0 : selected (matches filter) (between (sb_delivered self) (sb_replayed self) H) = []).
    { destruct Hi as [Hi _]. pose proof (si_queue _ _ _ _ _ Hi Hlive) as Hev. rewrite Hq in Hev.
      symmetry in Hev. by apply fmap_nil_inv in Hev. }
    assert (Hsame : conn_inv token filter H (set_queue [] (sb_queue_bytes self) (sb_delivered self)
      (sb_replayed self) None self) log).
    { destruct Hi as [[] []]. rewrite Hq in *. split; split; simpl in *; done. }
    destruct (sb_resolved self) as [position|] eqn:Hp; [|simplify_eq; by rewrite app_nil_r].
    case_decide as Hlt; [|simplify_eq; by rewrite app_nil_r].
    destruct Hi as [Hi Hb]. destruct (si_resolved _ _ _ _ _ Hi _ Hp) as (Hoff & Hl & Hle).
    pose proof (between_split _ _ _ H (ho_sorted _ _ Hs) (position_lt_le _ _ Hlt) Hle) as Hsplit.
    rewrite Hsplit, selected_app in Hq0. apply app_eq_nil in Hq0 as [Hq1 Hq2].
    assert (Hquiet : stream_log token (matches filter) H (ct_position token) log position).
    { eapply log_quiet; [apply (si_log _ _ _ _ _ Hi)|done|by apply position_lt_le|done]. }
    assert (Hmoved : ∀ log', stream_log token (matches filter) H (ct_position token) log' position →
      conn_inv token filter H (set_queue [] (sb_queue_bytes self) position (sb_replayed self) None self) log').
    { intros log' Hlog'. destruct Hi, Hb. rewrite Hq in *. split; split; simpl in *; try done.
      - by destruct si_ledger0.
      - eauto with positions.
      - intros _. by rewrite Hq2. }
    apply control_cases in Hn as [[-> ->]|[-> ->]].
    + apply set_control_inv, Hmoved. rewrite (si_ack _ _ _ _ _ Hi).
      by apply (log_resolved token (matches filter) H (ct_position token) log position).
    + rewrite app_nil_r. by apply Hmoved.
  - case_decide; simplify_eq; [by rewrite app_nil_r|]. by apply pop_inv.
Qed.
Lemma next_inv token filter H self log now F r self' F' :
  history_ok (p_ledger (ct_position token)) H → conn_inv token filter H self log →
  next now (self, F) = (r, (self', F')) → conn_inv token filter H self' (log ++ handed r).
Proof.
  intros Hs Hi Hn. unfold next in Hn. unfold mbind, fallible_bind, advance_clock, modify in Hn.
  case_decide; [simplify_eq; by rewrite app_nil_r|].
  apply (set_clock_inv _ _ _ _ _ now) in Hi. apply (expire_inv _ _ _ _ _ now F) in Hi.
  destruct (expire now (set_clock now self, F)) as [self1 F1]. by eapply next_open_inv.
Qed.

(** ** The other operations, and runs *)
Lemma grant_inv token filter H self log items bytes r self' :
  conn_inv token filter H self log → grant items bytes self = (r, self') →
  conn_inv token filter H self' log ∧ sb_config self' = sb_config self.
Proof.
  intros Hi Hg. unfold grant in Hg.
  match type of Hg with match ?x with _ => _ end = _ => destruct x as [[ni nb]|e] eqn:Hx end;
    simplify_eq; [|done].
  apply try_bind_ok in Hx as (? & _ & Hx). apply try_bind_ok in Hx as (? & _ & Hx).
  rewrite refuse_then_ok in Hx. destruct Hx as [Hx Hret]. ok_inv.
  destruct Hi as [[] []]. split; [|done]. split; split; simpl; try done; lia.
Qed.
Lemma acknowledged_inv token filter H self log record F r self' F' :
  conn_inv token filter H self log → acknowledged_committed record (self, F) = (r, (self', F')) →
  conn_inv token filter H self' log ∧ sb_config self' = sb_config self.
Proof.
  intros Hi Ha. unfold acknowledged_committed in Ha.
  destruct (acknowledged_checks self record) as [[]|e] eqn:Hc; [|by simplify_eq].
  unfold acknowledged_checks in Hc. apply try_bind_ok in Hc as ([] & Hs & Hc).
  apply same_stream_ok in Hs as (? & Hl & Hk & Hg & Hsc).
  rewrite !refuse_then_ok in Hc. destruct Hc as (_ & _ & Hd%position_nlt & _ & _).
  set (self1 := set_acknowledged (rw_token record) (rw_expires_at record) self) in *.
  assert (Hi1 : conn_inv token filter H self1 log).
  { destruct Hi as [[] []]. split; split; simpl in *; try done; [|congruence].
    destruct (rw_token record) as [k g sc p]; simpl in *.
    rewrite si_ack0 in Hk, Hg, Hsc. simpl in *. by subst. }
  apply pair_eq in Ha as [_ Ha]. destruct (rw_mode record) as [|snapshot|reason|]; try (by simplify_eq).
  pose proof (require_resync_inv _ _ _ _ _ reason (retention_prefix (ct_position (rw_token record))) F Hi1) as Hr.
  pose proof (require_resync_config self1 reason (retention_prefix (ct_position (rw_token record))) F) as He.
  rewrite Ha in Hr, He. by split.
Qed.
Lemma release_inv token filter H self log d F self' F' :
  conn_inv token filter H self log → release_delivery d (self, F) = (self', F') →
  conn_inv token filter H self' log ∧ sb_config self' = sb_config self.
Proof.
  intros Hi Hr. unfold release_delivery in Hr. destruct (dl_allocation d); simplify_eq; [done|].
  split; [by apply set_control_inv|done].
Qed.
Lemma resume_inv record now config budget F self F' H :
  resume record now config budget F = (Ok self, F') →
  conn_inv (rw_token record) (rw_filter record) H self [] ∧ sb_config self = config.
Proof.
  unfold resume. intros Hr. ok_inv.
  match goal with Hc : resume_checks _ _ _ = Ok _ |- _ =>
    unfold resume_checks in Hc; rewrite !refuse_then_ok in Hc; destruct Hc as (Hl%dec_stable & _) end.
  unfold resume_charged in Hr.
  match type of Hr with match ?x with _ => _ end = _ => destruct x as [[c|e] F2] end; [|done]. simplify_eq.
  split; [|done]. split; split; simpl; try done; try lia.
  - by destruct (rw_token record).
  - constructor.
  - intros _. by rewrite between_empty.
Qed.

Section runs.
Context {Src : Type} `{!DeltaSource Src D} `{!VisitingSource Src D}.
(** [conn_run record H self log]: a connection resumed from [record] and driven
    in any order, with what it handed to the transport. Every source it pumps
    covers [H]; the memory table is arbitrary at each call. *)
Inductive conn_run (record : CursorRecord) H : Subscription → list (StreamEvent D) → Prop :=
  | run_resumed now config budget F self F' :
      resume record now config budget F = (Ok self, F') → max_queue_bytes config <= u64_max →
      conn_run record H self []
  | run_pump self log src requested now F r self' F' :
      conn_run record H self log → covers src H →
      pump src requested now (self, F) = (r, (self', F')) → conn_run record H self' log
  | run_next self log now F r self' F' :
      conn_run record H self log → next now (self, F) = (r, (self', F')) →
      conn_run record H self' (log ++ handed r)
  | run_grant self log items bytes r self' :
      conn_run record H self log → grant items bytes self = (r, self') → conn_run record H self' log
  | run_reconcile self log b now F r self' F' :
      conn_run record H self log → reconcile b now (self, F) = (r, (self', F')) → conn_run record H self' log
  | run_acknowledged self log committed F r self' F' :
      conn_run record H self log → acknowledged_committed committed (self, F) = (r, (self', F')) →
      conn_run record H self' log
  | run_resync self log reason floor F self' F' :
      conn_run record H self log → require_resync reason floor (self, F) = (self', F') →
      conn_run record H self' log
  | run_release self log d F self' F' :
      conn_run record H self log → release_delivery d (self, F) = (self', F') → conn_run record H self' log.
Lemma commit_scan_config s last staging self r self' F' :
  commit_scan s last staging self = (r, (self', F')) → sb_config self' = sb_config self.
Proof. unfold commit_scan. destruct (add _ _); intros; by simplify_eq. Qed.
Lemma pump_config self src requested now F r self' F' :
  pump src requested now (self, F) = (r, (self', F')) → sb_config self' = sb_config self.
Proof.
  unfold pump. destruct (reconcile _ _ _) as [rr [self1 F1]] eqn:Hr. apply reconcile_config in Hr as <-.
  destruct rr; [|intros; by simplify_eq]. destruct (sb_resync self1) as [[]|]; [intros; by simplify_eq|].
  destruct (sb_closed self1); [intros; by simplify_eq|].
  destruct (pump_limit _ _) as [[limit|]|]; [|intros; by simplify_eq..].
  unfold pump_replay. intros Hp.
  match type of Hp with match ?x with _ => _ end = _ => destruct x as [[staging|e] F2] end; [|by simplify_eq].
  destruct (replay _ _ _ _ _) as [[last|] s]; [|by simplify_eq].
  destruct (check_coverage _ _ _ _ _); [|by simplify_eq]. by eapply commit_scan_config.
Qed.
Lemma next_config self now F r self' F' :
  next now (self, F) = (r, (self', F')) → sb_config self' = sb_config self.
Proof.
  unfold next, mbind, fallible_bind, advance_clock, modify. case_decide; [intros; by simplify_eq|].
  assert (He : sb_config (expire now (set_clock now self, F)).1 = sb_config self).
  { unfold expire. case_decide; [|done]. by rewrite require_resync_config. }
  destruct (expire _ _) as [self1 F1]. simpl in He. rewrite <-He. intros Hn. unfold next_open in Hn.
  case_decide; [by simplify_eq|]. destruct (sb_resync self1) as [[]|].
  { by apply control_cases in Hn as [[_ ->]|[_ ->]]. }
  destruct (sb_closed self1); [by simplify_eq|]. destruct (sb_queue self1).
  - destruct (sb_resolved self1); [|by simplify_eq]. case_decide; [|by simplify_eq].
    by apply control_cases in Hn as [[_ ->]|[_ ->]].
  - case_decide; by simplify_eq.
Qed.
Lemma conn_run_inv record H self log :
  history_ok (p_ledger (ct_position (rw_token record))) H → conn_run record H self log →
  conn_inv (rw_token record) (rw_filter record) H self log ∧ max_queue_bytes (sb_config self) <= u64_max.
Proof.
  intros Hs. induction 1 as [now config budget F self F' Hr Hm
    |self log src requested now F r self' F' Hrun [IH Hm] Hcov Hp
    |self log now F r self' F' Hrun [IH Hm] Hn|self log items bytes r self' Hrun [IH Hm] Hg
    |self log b now F r self' F' Hrun [IH Hm] Hr|self log committed F r self' F' Hrun [IH Hm] Ha
    |self log reason floor F self' F' Hrun [IH Hm] Hr|self log d F self' F' Hrun [IH Hm] Hr].
  - apply (resume_inv _ _ _ _ _ _ _ H) in Hr as [? ->]. done.
  - split; [|by rewrite (pump_config _ _ _ _ _ _ _ _ Hp)].
    eapply pump_inv; [apply (ho_sorted _ _ Hs)|done..].
  - split; [by eapply next_inv|by rewrite (next_config _ _ _ _ _ _ Hn)].
  - eapply grant_inv in Hg as [? ->]; done.
  - split; [by eapply reconcile_inv|by rewrite (reconcile_config _ _ _ _ _ _ _ Hr)].
  - eapply acknowledged_inv in Ha as [? ->]; done.
  - pose proof (require_resync_inv _ _ _ _ _ reason floor F IH) as Hi. rewrite Hr in Hi.
    pose proof (require_resync_config self reason floor F) as Hc. rewrite Hr in Hc. simpl in *.
    split; [done|by rewrite Hc].
  - eapply release_inv in Hr as [? ->]; done.
Qed.
(** The configuration of a connection passed the checks of [resume]. *)
Lemma conn_run_config record H self log :
  conn_run record H self log → ∃ now, resume_checks record now (sb_config self) = Ok ().
Proof.
  induction 1 as [now config budget F self F' Hr Hm
    |self log src requested now F r self' F' Hrun IH Hcov Hp
    |self log now F r self' F' Hrun IH Hn|self log items bytes r self' Hrun IH Hg
    |self log b now F r self' F' Hrun IH Hr|self log committed F r self' F' Hrun IH Ha
    |self log reason floor F self' F' Hrun IH Hr|self log d F self' F' Hrun IH Hr].
  - pose proof (resume_inv _ _ _ _ _ _ _ H Hr) as [_ ->]. unfold resume in Hr. ok_inv.
    match goal with x : () |- _ => destruct x end. by eexists.
  - by rewrite (pump_config _ _ _ _ _ _ _ _ Hp).
  - by rewrite (next_config _ _ _ _ _ _ Hn).
  - unfold grant in Hg. by repeat case_match; simplify_eq.
  - by rewrite (reconcile_config _ _ _ _ _ _ _ Hr).
  - unfold acknowledged_committed in Ha. case_match; [|by simplify_eq]. apply pair_eq in Ha as [_ Ha].
    destruct (rw_mode committed); try by simplify_eq.
    match type of Ha with require_resync ?a ?b (?c, ?d) = _ => pose proof (require_resync_config c a b d) as He end.
    by rewrite Ha in He; simpl in He; rewrite He.
  - pose proof (require_resync_config self reason floor F) as He. rewrite Hr in He. simpl in He. by rewrite He.
  - unfold release_delivery in Hr. by destruct (dl_allocation d); simplify_eq.
Qed.
(** Granting what is missing from the window lets the head of the queue go. *)
Lemma next_window self F front rest now :
  sb_control_count self <= 1 → live self → sb_queue self = front :: rest → sb_clock self <= now →
  (sb_protected self = true ∨ now < sb_expires_at self) → sb_item_credit self ≠ 0 →
  (dl_wire_bytes front <= sb_byte_credit self ∨ sb_byte_credit self = max_credit_bytes (sb_config self)) →
  ∃ self', next now (self, F) = (Ok (Some front), (self', F)) ∧ sb_queue self' = rest.
Proof.
  intros Hctl [Hcl Hre] Hq Hclk Hlease Hi Hb. unfold next, mbind, fallible_bind, advance_clock, modify.
  rewrite decide_False by lia. unfold expire. simpl. rewrite decide_False
    by (intros (? & _ & _ & ?); destruct Hlease; [congruence|lia]).
  unfold next_open. simpl. rewrite decide_False, Hre, Hcl, Hq by lia.
  rewrite decide_False; [by eexists|]. intros [?|[? Hw%bool_decide_eq_false]]; [done|]. lia.
Qed.
End runs.
End laws.

(** ** The consumer of a stream

    A consumer that folds the delivered events into its checkpoint applies
    every delta of the history once, in order, also when a new connection
    delivers again what it applied before. *)
#[local] Open Scope N_scope.

Section consumer.
Context {D : Type} `{!StreamedDelta D}.
Implicit Types (c : ConsumerCheckpoint) (H l : list D) (e : StreamEvent D) (log : list (StreamEvent D)).

(** Prepare and publish one event; the delta to apply, if it is one. *)
Definition consume c e : Try StreamError (ConsumerCheckpoint * list D) :=
  prepared ← consumer_prepare c e;
  next ← consumer_publish prepared c;
  mret (next, match pa_decision prepared, e with
              | ConsumerDecision.ApplyDelta, StreamEvent.Delta _ d => [d]
              | _, _ => []
              end).
(** The deltas a consumer applies over a delivery, and where it ends. *)
Definition consume_all c log : Try StreamError (ConsumerCheckpoint * list D) :=
  try_fold (λ '(c, applied) e, '(c, new) ← consume c e; mret (c, applied ++ new)) (c, []) log.
Lemma consume_all_snoc c log c1 applied e c2 new :
  consume_all c log = Ok (c1, applied) → consume c1 e = Ok (c2, new) →
  consume_all c (log ++ [e]) = Ok (c2, applied ++ new).
Proof.
  unfold consume_all. generalize (@nil D). revert c. induction log as [|e' log IH]; intros c acc; simpl.
  - intros Hc He. ok_inv. simpl. by rewrite He.
  - destruct (consume c e') as [[c' new']|]; simpl; [|done]. apply IH.
Qed.
Definition checkpoint_at (token : CursorToken) (p : Position) : ConsumerCheckpoint :=
  {| kp_schema := 1; kp_cursor := token_at token p |}.
Lemma same_stream_at token p q :
  ck_ledger (ct_key token) = p_ledger p → p_ledger q = p_ledger p →
  same_stream (token_at token p) (token_at token q) = Ok ().
Proof. intros ? ?. by apply same_stream_ok. Qed.
(** What preparing an event that identifies itself comes to. *)
Lemma consume_prepared token p e cursor decision id prepared :
  event_step (checkpoint_at token p) e = Ok (cursor, decision, id) →
  same_stream (token_at token p) cursor = Ok () →
  prepared = (if decide (position_le (ct_position cursor) p)
    then {| pa_base := checkpoint_at token p; pa_next := checkpoint_at token p;
            pa_decision := ConsumerDecision.Duplicate |}
    else {| pa_base := checkpoint_at token p; pa_next := {| kp_schema := 1; kp_cursor := cursor |};
            pa_decision := decision |}) →
  (¬ position_le (ct_position cursor) p → ∀ i, id = Some i → contiguous p i = Ok ()) →
  consumer_prepare (checkpoint_at token p) e = Ok prepared.
Proof.
  intros He Hs -> Hc. unfold consumer_prepare. rewrite refuse_pass by naive_solver.
  rewrite He. cbn [mbind try_bind]. cbn [checkpoint_at kp_cursor]. rewrite Hs. cbn [mbind try_bind].
  change (ct_position (token_at token p)) with p. case_decide as Hle; [done|].
  destruct id as [i|]; [|done]. by rewrite (Hc Hle i eq_refl).
Qed.
Lemma consume_published c e prepared :
  consumer_prepare c e = Ok prepared → pa_base prepared = c →
  consume c e = Ok (pa_next prepared, match pa_decision prepared, e with
              | ConsumerDecision.ApplyDelta, StreamEvent.Delta _ d => [d]
              | _, _ => []
              end).
Proof.
  intros Hp Hb. unfold consume. rewrite Hp. cbn [mbind try_bind]. unfold consumer_publish.
  by rewrite refuse_pass by naive_solver.
Qed.
(** An event at or before the checkpoint is a duplicate. *)
Lemma consume_duplicate token p e cursor decision id :
  event_step (checkpoint_at token p) e = Ok (cursor, decision, id) →
  same_stream (token_at token p) cursor = Ok () → position_le (ct_position cursor) p →
  consume (checkpoint_at token p) e = Ok (checkpoint_at token p, []).
Proof.
  intros He Hs Hle. erewrite consume_published; [|eapply consume_prepared; [done|done|done|naive_solver]|].
  - by rewrite decide_True.
  - by rewrite decide_True.
Qed.
Lemma event_step_delta c token d :
  sd_schema d = 1 → d_sequence (sd_id d) ≠ 0 →
  event_step c (delta_event token d) =
  Ok (token_at token (position_of d), ConsumerDecision.ApplyDelta, Some (sd_id d)).
Proof. intros. unfold event_step, delta_event. by rewrite !refuse_pass by naive_solver. Qed.
Lemma event_step_resolved c token x :
  p_offset x = PositionOffset.Resolved →
  event_step c (StreamEvent.Resolved (token_at token x)) =
  Ok (token_at token x, ConsumerDecision.AdvanceResolved, None).
Proof. intros. unfold event_step. by rewrite !refuse_pass by naive_solver. Qed.
Lemma consume_delta token p d :
  ck_ledger (ct_key token) = p_ledger p → d_ledger (sd_id d) = p_ledger p →
  sd_schema d = 1 → d_sequence (sd_id d) ≠ 0 →
  position_lt p (position_of d) → contiguous p (sd_id d) = Ok () →
  consume (checkpoint_at token p) (delta_event token d) = Ok (checkpoint_at token (position_of d), [d]).
Proof.
  intros Hk Hl Hsch Hseq Hlt%position_lt_nle Hcont.
  erewrite consume_published;
    [|eapply consume_prepared; [by apply event_step_delta|by apply same_stream_at|done|naive_solver]|];
    by rewrite decide_False.
Qed.
Lemma consume_resolved token p x :
  ck_ledger (ct_key token) = p_ledger p → p_ledger x = p_ledger p →
  p_offset x = PositionOffset.Resolved → position_lt p x →
  consume (checkpoint_at token p) (StreamEvent.Resolved (token_at token x)) = Ok (checkpoint_at token x, []).
Proof.
  intros Hk Hl Hoff Hlt%position_lt_nle.
  erewrite consume_published;
    [|eapply consume_prepared; [by apply event_step_resolved|by apply same_stream_at|done|done]|];
    by rewrite decide_False.
Qed.

(** The events a checkpoint takes: resolved positions and version 1 deltas. *)
Definition usable e : bool :=
  match e with
  | StreamEvent.Delta _ d => bool_decide (sd_schema d = 1)
  | StreamEvent.Resolved _ => true
  | StreamEvent.Resync _ _ _ => false
  end.
(** What it answers to the others. *)
Definition refusal e : StreamError :=
  match e with
  | StreamEvent.Resync _ reason _ => StreamError.ResyncRequired reason
  | _ => StreamError.SourceViolation "invalid delta schema or sequence"
  end.
(** A delivery up to its first unusable event, and that event. *)
Fixpoint until_refused log : list (StreamEvent D) * option (StreamEvent D) :=
  match log with
  | [] => ([], None)
  | e :: log =>
      if usable e then let '(good, refused) := until_refused log in (e :: good, refused)
      else ([], Some e)
  end.
Lemma until_refused_spec log :
  let '(good, refused) := until_refused log in
  Forall usable good ∧ match refused with
                       | None => good = log
                       | Some e => usable e = false ∧ ∃ rest, log = good ++ e :: rest
                       end.
Proof.
  induction log as [|e log IH]; simpl; [by split|]. destruct (usable e) eqn:He; [|by eauto].
  destruct (until_refused log) as [good [e'|]]; (split; [constructor; [by rewrite He|apply IH]|]); naive_solver.
Qed.
Lemma selected_every (f : D → bool) l : (∀ d, f d = true) → selected f l = l.
Proof. intros Hf. apply filter_every. intros d _. by rewrite Hf. Qed.
(** Where the consumer stands after a delivery up to [to]. *)
Record consumed (ledger : LedgerId) H (p to m : Position) (applied : list D) : Prop := {
  cs_ledger : p_ledger m = ledger;
  cs_applied : applied = between p to H;
  cs_forward : position_le p m;
  cs_bound : m = p ∨ position_le m to;
  cs_cover : ∀ d, d ∈ H → position_le (position_of d) to → position_le (position_of d) m
}.
Lemma consume_stream ledger token (f : D → bool) H from log to p :
  history_ok ledger H → (∀ d, f d = true) →
  ck_ledger (ct_key token) = ledger → p_ledger from = ledger → p_ledger p = ledger → position_le from p →
  stream_log token f H from log to → Forall usable log →
  ∃ m applied, consume_all (checkpoint_at token p) log = Ok (checkpoint_at token m, applied) ∧
    consumed ledger H p to m applied.
Proof.
  intros Hok Hf Hk Hfl Hpl Hfp Hlog.
  assert (Hs := ho_sorted _ _ Hok).
  induction Hlog as [|log q d Hlog IH Hsel Hlt|log q x Hlog IH Hsel Hqx Hlx|log x Hlog IH Hoff
    |log q cursor reason floor Hlog IH Hst]; intros Hnr.
  - exists p, []. split; [done|]. split; [done| |done|by left|].
    + symmetry. apply between_none. intros. by etrans.
    + intros. by etrans.
  - apply Forall_app in Hnr as [Hnr [Hsch%bool_decide_unpack _]%Forall_cons].
    destruct IH as (m & applied & Hc & Hm); [done|]. rewrite selected_every in Hsel by done.
    assert (Hd : d ∈ H). { assert (Hin : d ∈ [d]) by left. rewrite <-Hsel in Hin. by apply elem_of_between in Hin as []. }
    pose proof (ho_ledger _ _ Hok _ Hd) as Hdl.
    destruct (decide (position_le (position_of d) m)) as [Hdup|Hnew%position_nle].
    + assert (m = p) as ->.
      { destruct (cs_bound _ _ _ _ _ _ Hm) as [|Hmq]; [done|]. exfalso.
        eapply position_lt_irrefl, position_lt_le_trans; [exact Hlt|]. by etrans. }
      exists p, applied. split.
      * rewrite <-(app_nil_r applied). eapply consume_all_snoc; [done|].
        eapply consume_duplicate;
          [apply event_step_delta; [done|by apply (ho_sequence _ _ Hok)]
          |apply same_stream_at; simpl; congruence|done].
      * split; [done| |done|by left|intros; by etrans].
        rewrite (cs_applied _ _ _ _ _ _ Hm), !between_none; [done|intros; by etrans|].
        intros; etrans; [done|]. etrans; [by apply position_lt_le|done].
    + assert (Hone : between m (position_of d) H = [d]).
      { destruct (total position_le q m) as [Hqm|Hmq].
        - rewrite (between_split q m (position_of d)) in Hsel by eauto with positions.
          destruct (between q m H) as [|d' r] eqn:Hb; [done|]. exfalso. simpl in Hsel. simplify_eq.
          assert (Hin : d ∈ between q m H) by (rewrite Hb; left).
          apply elem_of_between in Hin as (_ & _ & Hle). by eapply position_lt_irrefl, position_lt_le_trans.
        - rewrite (between_split m q (position_of d)), Hsel by eauto with positions.
          by rewrite between_none by apply Hm. }
      exists (position_of d), (applied ++ [d]). split.
      * eapply consume_all_snoc; [done|]. pose proof (cs_ledger _ _ _ _ _ _ Hm).
        apply consume_delta; [congruence|congruence|done|by apply (ho_sequence _ _ Hok)|done|].
        eapply first_contiguous; [done|done|exact Hone].
      * split; [done| |etrans; [apply Hm|by apply position_lt_le]|by right|done].
        rewrite (cs_applied _ _ _ _ _ _ Hm).
        destruct (total position_le p q) as [Hpq|Hqp].
        -- rewrite (between_split p q (position_of d)), Hsel by eauto with positions. done.
        -- rewrite (between_none p q) by (intros; by etrans). simpl.
           destruct (cs_bound _ _ _ _ _ _ Hm) as [->|Hmq]; [done|].
           assert (m = p) as -> by (apply (anti_symm position_le); [by etrans|apply Hm]). done.
  - destruct IH as (m & applied & Hc & Hm); [done|]. rewrite selected_every in Hsel by done.
    exists m, applied. split; [done|]. destruct Hm as [Hml Happ Hfw Hb Hcov].
    assert (Hcov' : ∀ d, d ∈ H → position_le (position_of d) x → position_le (position_of d) q).
    { intros d Hd Hle. apply position_nlt. intros Hlt.
      assert (Hin : d ∈ between q x H) by by apply elem_of_between. rewrite Hsel in Hin. set_solver. }
    split; [done| |done|destruct Hb; [by left|right; by etrans]|auto].
    rewrite Happ. destruct (total position_le p q) as [Hpq|Hqp].
    + by rewrite (between_split p q x), Hsel, app_nil_r.
    + rewrite !between_none; [done|intros; etrans; [by apply Hcov'|done]|intros; by etrans].
  - apply Forall_app in Hnr as [Hnr _]. destruct IH as (m & applied & Hc & Hm); [done|].
    assert (Hxl : p_ledger x = ledger) by (rewrite <-Hfl in Hok |- *; by eapply stream_log_ledger).
    pose proof Hm as [Hml Happ Hfw Hb Hcov].
    destruct (decide (position_le x m)) as [Hdup|Hnew%position_nle].
    + exists m, applied. split; [|done]. rewrite <-(app_nil_r applied). eapply consume_all_snoc; [done|].
      eapply consume_duplicate; [by apply event_step_resolved|apply same_stream_at; simpl; congruence|done].
    + exists x, applied. split.
      * rewrite <-(app_nil_r applied). eapply consume_all_snoc; [done|].
        apply consume_resolved; [congruence..|done|done].
      * split; [done|done|etrans; [done|by apply position_lt_le]|by right|done].
  - apply Forall_app in Hnr as [_ [[] _]%Forall_cons].
Qed.

(** ** Where a consumer stops *)
Lemma prefix_snoc {A} (a l : list A) (e : A) : a `prefix_of` l ++ [e] → a = l ++ [e] ∨ a `prefix_of` l.
Proof.
  intros [k Hk]. destruct k as [|x k _] using rev_ind; [left; by rewrite app_nil_r in Hk|right].
  rewrite app_assoc in Hk. apply app_inj_tail in Hk as [-> _]. by eexists.
Qed.
Lemma stream_log_prefix token (f : D → bool) H from log to good :
  stream_log token f H from log to → good `prefix_of` log →
  ∃ to', stream_log token f H from good to' ∧ position_le to' to.
Proof.
  assert (Hsnoc : ∀ log (e : StreamEvent D) q x, position_le q x →
    (good `prefix_of` log → ∃ to', stream_log token f H from good to' ∧ position_le to' q) →
    stream_log token f H from (log ++ [e]) x → good `prefix_of` log ++ [e] →
    ∃ to', stream_log token f H from good to' ∧ position_le to' x).
  { intros l e q x Hqx IH Hlog Hp. destruct (prefix_snoc good l e Hp) as [->|Hp']; [by exists x|].
    destruct (IH Hp') as (y & ? & ?). exists y. split; [done|by etrans]. }
  induction 1 as [|log q d Hlog IH Hsel Hlt|log q x Hlog IH Hsel Hqx Hlx|log x Hlog IH Hoff
    |log q cursor reason floor Hlog IH Hst]; intros Hp.
  - apply prefix_nil_inv in Hp as ->. exists from. by split; [constructor|].
  - eapply Hsnoc; [by apply position_lt_le|exact IH|by econstructor|done].
  - destruct (IH Hp) as (y & ? & ?). exists y. split; [done|by etrans].
  - eapply Hsnoc; [reflexivity|exact IH|by econstructor|done].
  - eapply Hsnoc; [reflexivity|exact IH|by econstructor|done].
Qed.
Lemma stream_log_resync token (f : D → bool) H from log to cursor reason floor :
  stream_log token f H from log to → StreamEvent.Resync cursor reason floor ∈ log →
  same_stream token cursor = Ok ().
Proof.
  induction 1 as [|log q d Hlog IH Hsel Hlt|log q x Hlog IH Hsel Hqx Hlx|log x Hlog IH Hoff
    |log q cursor' reason' floor' Hlog IH Hst]; intros Hin; [by apply elem_of_nil in Hin| |by apply IH|..];
    (apply elem_of_app in Hin as [Hin|Hin%list_elem_of_singleton]; [by apply IH|]); simplify_eq; done.
Qed.
(** An unusable event is refused by its reason, wherever the checkpoint is. *)
Lemma consume_refused token p e :
  usable e = false → p_ledger p = p_ledger (ct_position token) →
  (∀ cursor reason floor, e = StreamEvent.Resync cursor reason floor → same_stream token cursor = Ok ()) →
  consume (checkpoint_at token p) e = Err (refusal e).
Proof.
  intros Hu Hp Hst. unfold consume, consumer_prepare. rewrite refuse_pass by naive_solver.
  destruct e as [cursor d|cursor|cursor reason floor]; [|done|].
  - apply bool_decide_eq_false in Hu. assert (He : event_step (checkpoint_at token p) (StreamEvent.Delta cursor d)
      = Err (refusal (StreamEvent.Delta cursor d))).
    { unfold event_step, refuse_if. destruct (decide (sd_schema d ≠ 1 ∨ _)) as [|Hd]; [done|]. destruct Hd. by left. }
    by rewrite He.
  - specialize (Hst _ _ _ eq_refl). apply same_stream_ok in Hst as (? & ? & ? & ? & ?).
    unfold event_step. cbn [checkpoint_at kp_cursor].
    assert (Hs : same_stream (token_at token p) cursor = Ok ()).
    { apply same_stream_ok. simpl. split_and!; congruence. }
    by rewrite Hs.
Qed.
Lemma consume_all_refused c log c1 applied e rest x :
  consume_all c log = Ok (c1, applied) → consume c1 e = Err x → consume_all c (log ++ e :: rest) = Err x.
Proof.
  unfold consume_all. generalize (@nil D). revert c. induction log as [|e' log IH]; intros c acc; simpl.
  - intros Hc He. ok_inv. simpl. by rewrite He.
  - destruct (consume c e') as [[c' new']|]; simpl; [|done]. apply IH.
Qed.
End consumer.
