(* ===== verification/CursorSession.v ===== *)
(** * The session's stream (focal-ledger: cursor_session.rs, cursor_maintenance.rs,
    native_deltas.rs, and the delta ring of apply_epoch.rs)

    A ledger session keeps the deltas of its published entries in a ring,
    [ses_deltas], above a floor; the cursor registry pins what the ring must
    keep; cursor commands go through the log as entries of their own. The
    session is the [DeltaSource] its subscriptions replay from. On a ledger that
    has activated the native engine, the stream goes on past the V1 prefix with
    deltas derived from the native engine's events, which are parameters here.

    Only the state the stream reads and writes is modelled; consensus, the
    graph store, and the pending domain candidates are not. *)
From stdpp Require Import prelude gmap strings list.
From Stdlib Require Import NArith.
From S2P Require Import Prelude Vocabulary Objects Store Reducer Core Fallible Budget Stream Registry Subscription.
#[local] Open Scope N_scope.

Record RetainedDelta (D : Type) := { rd_bytes : N; rd_delta : D; rd_charge : Allocation }.
Arguments rd_bytes {_} _. Arguments rd_delta {_} _. Arguments rd_charge {_} _.
Inductive ActivationKind := Genesis | Imported.
(** The profile and the log index of an activation are not read here. *)
Inductive LedgerActivation := ActivationV1 | ActivationNative (kind : ActivationKind).
Definition is_native (a : LedgerActivation) : bool :=
  match a with ActivationNative _ => true | ActivationV1 => false end.
(** The native engine's committed core as the stream sees it: its sequence and
    its events, by native sequence and ordinal. *)
Record NativeCore (E : Type) := { native_sequence : SessionSeq; native_event : SessionSeq → N → option E }.
Arguments native_sequence {_} _. Arguments native_event {_} _ _ _.
(** The interface to the native engine's events: the delta of an event is
    identified by the stream sequence and the event's ordinal. *)
Class NativeDelta (E D : Type) `{!StreamedDelta D} := {
  native_delta : LedgerId → SessionSeq → E → D;
  event_ordinal : E → N;
  native_delta_id : ∀ ledger sequence event, sd_id (native_delta ledger sequence event) =
    {| d_ledger := ledger; d_sequence := sequence; d_ordinal := event_ordinal event |}
}.

(** The errors of the operations modelled. *)
Module LedgerError.
Inductive t :=
  | Stream (error : StreamError)
  | CursorRequest (code : ErrorCode)
  | Memory (error : MemoryError)
  | Encoding
  | Capacity | Corrupt | NativeUnsupported.
End LedgerError.
Notation LedgerError := LedgerError.t.

Record CursorInput := {
  ci_ledger : LedgerId; ci_key : RequestKey; ci_intent_hash : ContentHash; ci_command : CursorCommand
}.
Record CursorReceipt := {
  cr_ledger : LedgerId; cr_key : RequestKey; cr_intent_hash : ContentHash; cr_revision : N;
  cr_domain_sequence : SessionSeq; cr_raft_index : N; cr_floor : SessionSeq;
  cr_record : option CursorRecord
}.
Record CursorMetadata := {
  me_receipts : gmap RequestKey CursorReceipt; me_owners : gmap ConsumerId ParticipantId
}.
Record CursorEnvelope := {
  en_schema : N; en_ledger : LedgerId; en_domain_sequence : SessionSeq; en_replay_floor : SessionSeq;
  en_trusted_control : bool; en_input : CursorInput
}.
Record LegacyCursorEnvelope := {
  le_schema : N; le_ledger : LedgerId; le_domain_sequence : SessionSeq; le_trusted_control : bool;
  le_input : CursorInput
}.
Record CursorCandidate := {
  ca_entry_hash : ContentHash; ca_prepared : PreparedCursorUpdate; ca_receipt : CursorReceipt;
  ca_owner : option (ConsumerId * ParticipantId); ca_entry_charge : Allocation;
  ca_result_charge : Allocation
}.
(** The limits the stream reads. *)
Record SessionLimits := {
  sl_delta_items : N; sl_delta_bytes : N; sl_cursor_receipts : N; sl_core : Limits
}.
(** [ses_native] is the hosted engine, and its [committed_core] unless the engine
    has failed. *)
Record Session (D E : Type) := {
  ses_ledger : LedgerId; ses_core : Core; ses_failed : bool; ses_activation : LedgerActivation;
  ses_native : option (option (NativeCore E)); ses_deltas : list (RetainedDelta D); ses_delta_bytes : N;
  ses_delta_floor : SessionSeq; ses_cursors : CursorRegistry; ses_cursor_meta : CursorMetadata;
  ses_cursor_charge : Allocation; ses_pending_cursor : option CursorCandidate;
  ses_placement_charge : option Allocation; ses_budget : MemoryBudget; ses_limits : SessionLimits
}.
Arguments ses_ledger {_ _} _. Arguments ses_core {_ _} _. Arguments ses_failed {_ _} _.
Arguments ses_activation {_ _} _. Arguments ses_native {_ _} _. Arguments ses_deltas {_ _} _.
Arguments ses_delta_bytes {_ _} _. Arguments ses_delta_floor {_ _} _. Arguments ses_cursors {_ _} _.
Arguments ses_cursor_meta {_ _} _. Arguments ses_cursor_charge {_ _} _. Arguments ses_budget {_ _} _.
Arguments ses_limits {_ _} _.
Arguments ses_pending_cursor {_ _} _. Arguments ses_placement_charge {_ _} _.

(** The stream sequence of a native record. *)
Definition stream_line (activation : LedgerActivation) (legacy native : SessionSeq) :
    Try LedgerError SessionSeq :=
  match activation with
  | ActivationNative Genesis => mret native
  | ActivationNative Imported => or_fail (checked_add legacy (native - 1)) LedgerError.Corrupt
  | ActivationV1 => fails LedgerError.NativeUnsupported
  end.

Section session.
Context {D E : Type} `{!StreamedDelta D, !NativeDelta E D}.
Notation Session := (Session D E).
Implicit Types (self : Session).

(** ** The stream line *)
Definition legacy_prefix self : SessionSeq := sequence_of (ses_core self).
Definition native_stream_core self : option (NativeCore E) :=
  if is_native (ses_activation self) then engine ← ses_native self; engine else None.
Definition native_sequence_of self (stream : SessionSeq) : option SessionSeq :=
  let legacy := legacy_prefix self in
  if decide (stream <= legacy) then None
  else match ses_activation self with
  | ActivationNative Genesis => Some stream
  | ActivationNative Imported => offset ← checked_sub stream legacy; checked_add offset 1
  | ActivationV1 => None
  end.
Definition stream_published self : SessionSeq :=
  let native :=
    if is_native (ses_activation self) then
      engine ← ses_native self;
      core ← engine;
      match stream_line (ses_activation self) (legacy_prefix self) (native_sequence core) with
      | Ok s => Some s
      | Err _ => None
      end
    else None in
  default (legacy_prefix self) native.
Definition stream_bounds self : ReplayBounds :=
  {| rb_ledger := ses_ledger self;
     rb_floor := N.max (ses_delta_floor self) (cp_floor (registry_checkpoint (ses_cursors self)));
     rb_published := stream_published self |}.
Definition native_delta_exists self (position : Position) (ordinal : N) : bool :=
  match native_stream_core self, native_sequence_of self (p_sequence position) with
  | Some core, Some native => bool_decide (is_Some (native_event core native ordinal))
  | _, _ => false
  end.
Definition validate_replay_position self (position : Position) : Try StreamError () :=
  position_validate position (ses_ledger self) (stream_published self);;
  refuse_if (retention_prefix position < rb_floor (stream_bounds self))
    (StreamError.ResyncRequired ResyncReason.HistoryExpired);;
  match p_offset position with
  | PositionOffset.Resolved => mret ()
  | PositionOffset.Delta ordinal =>
      if decide (legacy_prefix self < p_sequence position) then
        refuse_if (native_delta_exists self position ordinal = false)
          (StreamError.Invalid "delta cursor does not name a retained delta")
      else
        let before (d : RetainedDelta D) := bool_decide
          (d_sequence (sd_id (rd_delta d)) < p_sequence position ∨
           (d_sequence (sd_id (rd_delta d)) = p_sequence position
            ∧ d_ordinal (sd_id (rd_delta d)) < ordinal)) in
        let found := match ses_deltas self !! partition_point before (ses_deltas self) with
                     | Some d => bool_decide (d_sequence (sd_id (rd_delta d)) = p_sequence position
                                              ∧ d_ordinal (sd_id (rd_delta d)) = ordinal)
                     | None => false
                     end in
        refuse_if (found = false) (StreamError.Invalid "delta cursor does not name a retained delta")
  end.

(** ** Replay *)
(** What the replay has counted, and where it is. *)
Record Replay := { re_items : N; re_bytes : N; re_returned : Position }.
(** One more delta of [size] bytes fits the work limits; [None] stops. *)
Definition admit_delta (limit : ReplayLimit) (size : N) (r : Replay) : Try StreamError (option Replay) :=
  if decide (lim_items limit <= re_items r ∨ lim_bytes limit < saturating_add (re_bytes r) size) then
    if decide (re_items r = 0) then fails StreamError.Capacity else mret None
  else
    bytes ← or_fail (checked_add (re_bytes r) size) StreamError.Capacity;
    items ← or_fail (checked_add (re_items r) 1) StreamError.Capacity;
    mret (Some {| re_items := items; re_bytes := bytes; re_returned := re_returned r |}).
Definition returned_at (position : Position) (r : Replay) : Replay :=
  {| re_items := re_items r; re_bytes := re_bytes r; re_returned := position |}.
Section visitor.
Context {St : Type} (visit : D → Fallible St StreamError ()).
(** Visit one delta if it is admitted: the replay goes on ([inl]) or is over at
    a position ([inr]). *)
Definition visit_admitted (limit : ReplayLimit) (size : N) (d : D) (r : Replay) :
    Fallible St StreamError (Replay + Position) :=
  admitted ← lift (admit_delta limit size r);
  match admitted with
  | None => mret (inr (re_returned r))
  | Some r =>
      visit d;;
      mret (inl (returned_at (after_delta (sd_id d)) r))
  end.
Fixpoint replay_retained (limit : ReplayLimit) (through : SessionSeq) (deltas : list (RetainedDelta D))
    (r : Replay) : Fallible St StreamError (Replay + Position) :=
  match deltas with
  | [] => mret (inl r)
  | d :: deltas =>
      if decide (through < d_sequence (sd_id (rd_delta d))) then mret (inl r)
      else
        next ← visit_admitted limit (rd_bytes d) (rd_delta d) r;
        match next with
        | inl r => replay_retained limit through deltas r
        | inr position => mret (inr position)
        end
  end.
(** The loop over native events: a turn visits one delta or moves to the next
    sequence, so the items and the sequences asked for bound its turns. *)
Fixpoint replay_native (fuel : nat) self (core : NativeCore E) (limit : ReplayLimit)
    (through stream : SessionSeq) (ordinal : N) (r : Replay) : Fallible St StreamError (Replay + Position) :=
  if decide (through < stream) then mret (inl r) else
  match fuel with
  | O => lift (fails StreamError.SourceUnavailable)
  | S fuel =>
      match native_sequence_of self stream with
      | None => lift (fails (StreamError.SourceViolation
                  "stream sequence past the legacy prefix has no native record"))
      | Some native =>
          match native_event core native ordinal with
          | Some event =>
              let delta := native_delta (ses_ledger self) stream event in
              size ← lift (sd_wire delta);
              next ← visit_admitted limit size delta r;
              match next with
              | inl r =>
                  ordinal ← lift (or_fail (if decide (ordinal + 1 <= u32_max) then Some (ordinal + 1) else None)
                                    StreamError.Capacity);
                  replay_native fuel self core limit through stream ordinal r
              | inr position => mret (inr position)
              end
          | None =>
              stream ← lift (or_fail (checked_add stream 1) StreamError.Capacity);
              replay_native fuel self core limit through stream 0 r
          end
      end
  end.
(** Where the native part of the line goes on. *)
Definition native_start self (returned : Position) : Try StreamError (SessionSeq * N) :=
  let legacy := legacy_prefix self in
  if decide (legacy < p_sequence returned) then
    match p_offset returned with
    | PositionOffset.Delta ordinal =>
        ordinal ← or_fail (if decide (ordinal + 1 <= u32_max) then Some (ordinal + 1) else None)
                    StreamError.Capacity;
        mret (p_sequence returned, ordinal)
    | PositionOffset.Resolved =>
        stream ← or_fail (checked_add (p_sequence returned) 1) StreamError.Capacity;
        mret (stream, 0)
    end
  else
    stream ← or_fail (checked_add legacy 1) StreamError.Capacity;
    mret (stream, 0).
Definition replay_turns (limit : ReplayLimit) (stream through : SessionSeq) : nat :=
  N.to_nat (lim_items limit + (through - stream) + 2).
Definition replay_deltas self (after : Position) (limit : ReplayLimit) : Fallible St StreamError Position :=
  lift (refuse_if (ses_failed self = true) StreamError.SourceUnavailable);;
  lift (validate_replay_position self after);;
  lift (refuse_if (lim_items limit = 0 ∨ lim_bytes limit = 0 ∨ lim_sequences limit = 0)
    (StreamError.Invalid "zero replay budget"));;
  let through := N.min (saturating_add (p_sequence after) (lim_sequences limit)) (stream_published self) in
  let start := partition_point (λ d, bool_decide (position_le (after_delta (sd_id (rd_delta d))) after))
                 (ses_deltas self) in
  legacy ← replay_retained limit through (drop start (ses_deltas self))
             {| re_items := 0; re_bytes := 0; re_returned := after |};
  match legacy with
  | inr position => mret position
  | inl r =>
      match native_stream_core self with
      | None => mret (resolved (ses_ledger self) through)
      | Some core =>
          '(stream, ordinal) ← lift (native_start self (re_returned r));
          native ← replay_native (replay_turns limit stream through) self core limit through stream ordinal r;
          match native with
          | inr position => mret position
          | inl _ => mret (resolved (ses_ledger self) through)
          end
      end
  end.
End visitor.
#[export] Instance session_source : DeltaSource Session D := {|
  bounds := stream_bounds;
  replay self after limit St visit := replay_deltas visit self after limit
|}.
End session.
