(* ===== verification/SessionSource.v ===== *)
(** * The session as a source of deltas

    A session is a lawful [DeltaSource]: what it visits does not depend on the
    visitor ([VisitingSource]), and through the position it returns it visited
    every delta of the ledger's history ([covers]), retained or derived from
    the native engine. *)
From stdpp Require Import prelude gmap strings list sorting.
From Stdlib Require Import NArith.
From S2P Require Import Prelude Vocabulary Objects Store Reducer Core Fallible Budget Stream.
From S2P Require Import Registry RegistryLaws History Subscription SubscriptionLaws CursorSession.
#[local] Open Scope N_scope.

(** ** Programs that call a visitor *)
Section replays.
Context {D : Type}.
Notation Visitor St := (D → Fallible St StreamError ()).
Definition Replaying (A : Type) : Type := ∀ St, Visitor St → Fallible St StreamError A.
(** [m] visits [l] and then ends with [r]. *)
Definition replays {A} (m : Replaying A) (l : list D) (r : Try StreamError A) : Prop :=
  ∀ St (visit : Visitor St) s, m St visit s = (visit_all visit l;; lift r) s.
Lemma visit_all_app {St} (visit : Visitor St) l k s :
  visit_all visit (l ++ k) s = (visit_all visit l;; visit_all visit k) s.
Proof.
  revert s. induction l as [|d l IH]; intros s; [done|]. simpl. unfold mbind, fallible_bind.
  destruct (visit d s) as [[u|e] s']; [|done]. apply IH.
Qed.
Lemma replays_lift {A} (r : Try StreamError A) : replays (λ _ _, lift r) [] r.
Proof. intros St visit s. done. Qed.
Lemma replays_visit d : replays (λ _ visit, visit d) [d] (Ok ()).
Proof.
  intros St visit s. simpl. unfold mbind, fallible_bind, lift, mret, fallible_ret.
  by destruct (visit d s) as [[[]|e] s'].
Qed.
Lemma replays_ext {A} (m m' : Replaying A) l r :
  (∀ St visit s, m St visit s = m' St visit s) → replays m' l r → replays m l r.
Proof. intros He Hm St visit s. by rewrite He, Hm. Qed.
Lemma replays_bind {A B} (m : Replaying A) (k : A → Replaying B) l x l' r :
  replays m l (Ok x) → replays (k x) l' r → replays (λ St v, y ← m St v; k y St v) (l ++ l') r.
Proof.
  intros Hm Hk St visit s. unfold mbind at 1, fallible_bind at 1. rewrite Hm.
  unfold mbind, fallible_bind, lift. rewrite visit_all_app. unfold mbind, fallible_bind.
  destruct (visit_all visit l s) as [[[]|e] s']; [|done]. apply Hk.
Qed.
Lemma replays_fail {A B} (m : Replaying A) (k : A → Replaying B) l e :
  replays m l (Err e) → replays (λ St v, y ← m St v; k y St v) l (Err e).
Proof.
  intros Hm St visit s. unfold mbind at 1, fallible_bind at 1. rewrite Hm.
  unfold mbind, fallible_bind, lift. by destruct (visit_all visit l s) as [[[]|e'] s'].
Qed.
Lemma replays_end {A B} (m : Replaying A) (k : A → Replaying B) l x r :
  replays m l (Ok x) → (∀ St v s, k x St v s = lift r s) → replays (λ St v, y ← m St v; k y St v) l r.
Proof. intros Hm Hk. rewrite <-(app_nil_r l). by eapply replays_bind. Qed.
(** The deltas visited and the end, read off a visitor that records. *)
Definition record (d : D) : Fallible (list D) StreamError () := λ l, (Ok (), l ++ [d]).
Lemma record_all l s : visit_all record l s = (Ok (), s ++ l).
Proof.
  revert s. induction l as [|d l IH]; intros s; simpl; [by rewrite app_nil_r|].
  unfold mbind, fallible_bind, record at 1. by rewrite IH, <-app_assoc.
Qed.
Lemma replays_recorded {A} (m : Replaying A) l r : replays m l r → m _ record [] = (r, l).
Proof.
  intros Hm. rewrite Hm. unfold mbind, fallible_bind. by rewrite record_all.
Qed.
(** Every program built from visits visits something. *)
Definition visits {A} (m : Replaying A) : Prop := ∃ l r, replays m l r.
Lemma visits_lift {A} (r : Try StreamError A) : visits (λ _ _, lift r).
Proof. eexists _, _. apply replays_lift. Qed.
Lemma visits_visit d : visits (λ _ visit, visit d).
Proof. eexists _, _. apply replays_visit. Qed.
Lemma visits_bind {A B} (m : Replaying A) (k : A → Replaying B) :
  visits m → (∀ x, visits (k x)) → visits (λ St v, y ← m St v; k y St v).
Proof.
  intros (l & [x|e] & Hm) Hk; [|eexists _, _; by apply replays_fail].
  destruct (Hk x) as (l' & r & Hk'). eexists _, _. by eapply replays_bind.
Qed.
Lemma visits_recorded {A} (m : Replaying A) :
  visits m → replays m (m _ record []).2 (m _ record []).1.
Proof. intros (l & r & Hm). by rewrite (replays_recorded m l r Hm). Qed.
End replays.
Arguments Replaying : clear implicits.
Create HintDb visits.
#[export] Hint Resolve visits_lift visits_visit : visits.
Ltac visits_step :=
  match goal with
  | |- visits (λ St v, mbind (@?k St v) (@?m St v)) => apply (visits_bind m (λ x St v, k St v x)); [|intros ?]
  | |- visits (λ St v, match ?x with _ => _ end) => destruct x
  | |- visits (λ St v, mret ?x) => apply (visits_lift (Ok x))
  | |- visits _ => solve [eauto with visits]
  end.

(** What comes after a position has a sequence above its retention prefix. *)
Lemma after_prefix {D : Type} `{!StreamedDelta D} (d : D) p floor :
  floor <= retention_prefix p → p_ledger p = d_ledger (sd_id d) →
  (p_sequence p = 0 → p_offset p = PositionOffset.Resolved) → position_lt p (position_of d) →
  floor < d_sequence (sd_id d).
Proof.
  intros Hf Hl Hz Hlt. apply position_lt_spec in Hlt; [|done]. simpl in Hlt. unfold retention_prefix in Hf.
  destruct (p_offset p) as [o|] eqn:Ho; [|simpl in Hlt; intuition lia].
  assert (p_sequence p ≠ 0) by (intros Hz0; specialize (Hz Hz0); congruence). intuition lia.
Qed.

Section session.
Context {D E : Type} `{!StreamedDelta D, !NativeDelta E D}.
Notation Session := (Session D E).
Implicit Types (self : Session) (rep : Replay).

(** ** One admitted delta, and the retained part *)
(** A stretch of the replay that had [near] before it and went on from [from]:
    it visited [near] and goes on, or stopped in it at the last one visited. *)
Definition reached (from : Position) (near l : list D) (r : Try StreamError (Replay + Position)) : Prop :=
  match r with
  | Err _ => True
  | Ok (inl rep') => l = near ∧ re_returned rep' = last_position from l
  | Ok (inr position) => l `prefix_of` near ∧ position = last_position from l
  end.
Lemma admitted_replays limit size d rep :
  (∃ e, replays (λ St (v : D → Fallible St StreamError ()), visit_admitted v limit size d rep) [] (Err e)) ∨
  replays (λ St (v : D → Fallible St StreamError ()), visit_admitted v limit size d rep) [] (Ok (inr (re_returned rep))) ∨
  ∃ rep', re_returned rep' = position_of d ∧
    replays (λ St (v : D → Fallible St StreamError ()), visit_admitted v limit size d rep) [d] (Ok (inl rep')).
Proof.
  unfold visit_admitted. destruct (admit_delta limit size rep) as [[rep'|]|e] eqn:Ha.
  - right; right. eexists. split; [|].
    2: { intros St visit s. pose proof (replays_visit d St visit s) as Hv.
      unfold mbind, fallible_bind, lift, mret, fallible_ret in *. simpl in *. unfold mbind, fallible_bind in *.
      destruct (visit d s) as [[u|e] s']; done. }
    done.
  - right; left. intros St visit s. done.
  - left. exists e. intros St visit s. done.
Qed.
Definition near_through (through : SessionSeq) (l : list D) : list D :=
  take (partition_point (λ d, bool_decide (d_sequence (sd_id d) <= through)) l) l.
Definition retained_next limit through deltas (next : Replay + Position) : Replaying D (Replay + Position) :=
  λ St v, match next with inl r => replay_retained v limit through deltas r | inr p => mret (inr p) end.
Lemma retained_replays limit through deltas rep :
  ∃ l r, replays (λ St (v : D → Fallible St StreamError ()), replay_retained v limit through deltas rep) l r ∧
    reached (re_returned rep) (near_through through (rd_delta <$> deltas)) l r.
Proof.
  revert rep. induction deltas as [|d deltas IH]; intros rep.
  { exists [], (Ok (inl rep)). split; [apply replays_lift|done]. }
  unfold near_through. simpl. destruct (decide (through < d_sequence (sd_id (rd_delta d)))) as [Hd|Hd].
  { rewrite bool_decide_eq_false_2 by lia. exists [], (Ok (inl rep)). split; [apply replays_lift|done]. }
  rewrite bool_decide_eq_true_2 by lia. simpl. fold (near_through through (rd_delta <$> deltas)).
  destruct (admitted_replays limit (rd_bytes d) (rd_delta d) rep) as [(e & He)|[Hs|(rep' & Hr & Hd')]].
  - exists [], (Err e). split; [by apply replays_fail|done].
  - exists [], (Ok (inr (re_returned rep))). split; [|split; [apply prefix_nil|done]].
    eapply (replays_bind _ (retained_next limit through deltas) [] _ []); [exact Hs|].
    apply replays_lift.
  - destruct (IH rep') as (l & r & Hrun & Hreach). exists (rd_delta d :: l), r. split.
    + eapply (replays_bind _ (retained_next limit through deltas) [_] _ l); [exact Hd'|done].
    + rewrite Hr in Hreach. destruct r as [[rep''|p]|e]; [|destruct Hreach as [Hp ?]|done].
      * destruct Hreach as [-> ?]. done.
      * split; [|done]. by apply prefix_cons.
Qed.

(** ** The native part *)
(** The committed core's events, as the lists they are the rows of. *)
Record journaled (core : NativeCore E) (journal : SessionSeq → list E) : Prop := {
  jo_event : ∀ s o, native_event core s o = journal s !! N.to_nat o;
  jo_ordinal : ∀ s i e, journal s !! i = Some e → event_ordinal e = N.of_nat i;
  jo_width : ∀ s, N.of_nat (length (journal s)) <= u32_max
}.
Definition native_line self (journal : SessionSeq → list E) (stream : SessionSeq) : list D :=
  match native_sequence_of self stream with
  | Some native => native_delta (ses_ledger self) stream <$> journal native
  | None => []
  end.
Fixpoint native_lines self (journal : SessionSeq → list E) (k : nat) (stream : SessionSeq) : list D :=
  match k with
  | O => []
  | S k => native_line self journal stream ++ native_lines self journal k (stream + 1)
  end.
(** What is left of the line after ordinal [ordinal] of [stream]. *)
Definition native_rest self journal (through stream : SessionSeq) (ordinal : N) : list D :=
  drop (N.to_nat ordinal) (native_lines self journal (N.to_nat (through + 1 - stream)) stream).
Lemma native_rest_end self journal through stream ordinal :
  through < stream → native_rest self journal through stream ordinal = [].
Proof.
  intros ?. unfold native_rest. replace (N.to_nat (through + 1 - stream)) with O by lia. apply drop_nil.
Qed.
Lemma native_lines_next self journal through stream :
  stream <= through →
  native_lines self journal (N.to_nat (through + 1 - stream)) stream =
  native_line self journal stream ++ native_rest self journal through (stream + 1) 0.
Proof.
  intros ?. replace (N.to_nat (through + 1 - stream)) with (S (N.to_nat (through + 1 - (stream + 1)))) by lia.
  done.
Qed.
Lemma native_turn self core journal through stream ordinal native :
  journaled core journal → stream <= through → native_sequence_of self stream = Some native →
  (ordinal <= N.of_nat (length (journal native))) →
  match native_event core native ordinal with
  | Some e => native_rest self journal through stream ordinal =
      native_delta (ses_ledger self) stream e :: native_rest self journal through stream (ordinal + 1) ∧
      ordinal + 1 <= N.of_nat (length (journal native))
  | None => native_rest self journal through stream ordinal = native_rest self journal through (stream + 1) 0
  end.
Proof.
  intros Hj Hle Hn Ho. rewrite (jo_event _ _ Hj).
  assert (Hrest : ∀ o, native_rest self journal through stream o = drop (N.to_nat o)
    ((native_delta (ses_ledger self) stream <$> journal native) ++ native_rest self journal through (stream + 1) 0)).
  { intros o. unfold native_rest at 1. rewrite native_lines_next by done. unfold native_line. by rewrite Hn. }
  rewrite !Hrest. destruct (journal native !! N.to_nat ordinal) as [e|] eqn:He.
  - pose proof (lookup_lt_Some _ _ _ He). split; [|lia].
    replace (N.to_nat (ordinal + 1)) with (S (N.to_nat ordinal)) by lia. apply drop_S.
    rewrite lookup_app_l by (rewrite length_fmap; lia). by rewrite list_lookup_fmap, He.
  - apply lookup_ge_None in He. apply drop_app_length'. rewrite length_fmap. lia.
Qed.
(** The turn after a visited delta. *)
Definition native_next (fuel : nat) self core limit through stream (ordinal : N) (next : Replay + Position) :
    Replaying D (Replay + Position) := λ St v,
  match next with
  | inl r => ordinal ← lift (or_fail (if decide (ordinal + 1 <= u32_max) then Some (ordinal + 1) else None)
                              StreamError.Capacity);
             replay_native v fuel self core limit through stream ordinal r
  | inr p => mret (inr p)
  end.
Lemma native_replays fuel self core journal limit through stream ordinal rep :
  journaled core journal →
  (∀ native, native_sequence_of self stream = Some native → ordinal <= N.of_nat (length (journal native))) →
  ∃ l r, replays (λ St (v : D → Fallible St StreamError ()),
      replay_native v fuel self core limit through stream ordinal rep) l r ∧
    reached (re_returned rep) (native_rest self journal through stream ordinal) l r.
Proof.
  intros Hj. revert stream ordinal rep. induction fuel as [|fuel IH]; intros stream ordinal rep Ho.
  { simpl. case_decide as Hd; (eexists [], _; split; [apply replays_lift|]); [|done].
    by rewrite native_rest_end. }
  simpl. case_decide as Hd.
  { eexists [], _. split; [apply replays_lift|]. by rewrite native_rest_end. }
  destruct (native_sequence_of self stream) as [native|] eqn:Hn; [|eexists [], _; by split; [apply replays_lift|]].
  pose proof (native_turn self core journal through stream ordinal native Hj ltac:(lia) Hn (Ho _ eq_refl)) as Ht.
  destruct (native_event core native ordinal) as [e|].
  - destruct Ht as [-> Hlt]. set (d := native_delta (ses_ledger self) stream e).
    destruct (sd_wire d) as [size|err]; [|eexists [], (Err err); by split].
    destruct (admitted_replays limit size d rep) as [(err & He)|[Hs|(rep' & Hr & Hd')]].
    + exists [], (Err err). split; [|done].
      refine (replays_ext _ _ _ _ _ (replays_fail _ (native_next fuel self core limit through stream ordinal) [] err He)). done.
    + exists [], (Ok (inr (re_returned rep))). split; [|split; [apply prefix_nil|done]].
      refine (replays_ext _ _ _ _ _ (replays_bind _ (native_next fuel self core limit through stream ordinal) [] _ [] _ Hs _)); [done|]. apply replays_lift.
    + pose proof (jo_width _ _ Hj native). destruct (IH stream (ordinal + 1) rep') as (l & r & Hrun & Hreach).
      { intros native'. rewrite Hn. intros [= <-]. done. }
      exists (d :: l), r. split.
      * refine (replays_ext _ _ _ _ _ (replays_bind _ (native_next fuel self core limit through stream ordinal) [d] _ l _ Hd' _)); [done|].
        unfold native_next; rewrite decide_True by lia. exact Hrun.
      * rewrite Hr in Hreach. destruct r as [[rep''|p]|err]; [|destruct Hreach as [Hp ?]|done].
        -- destruct Hreach as [-> ?]. done.
        -- split; [|done]. by apply prefix_cons.
  - rewrite Ht. destruct (checked_add stream 1) as [next|] eqn:Hc.
    + apply checked_add_Some in Hc as [-> _]. destruct (IH (stream + 1) 0 rep) as (l & r & Hrun & Hreach); [lia|].
      exists l, r. split; [exact Hrun|done].
    + eexists [], (Err _). by split; [apply replays_lift|].
Qed.

(** ** The history of a session *)
(** [H] is the history the session streams: the retained part is its tail above
    the floor, and past the legacy prefix it is what the native engine derives. *)
Record stream_history self (journal : SessionSeq → list E) (H : list D) : Prop := {
  sh_ok : history_ok (ses_ledger self) H;
  sh_ring : rd_delta <$> ses_deltas self =
    filter (λ d, ses_delta_floor self < d_sequence (sd_id d) ∧ d_sequence (sd_id d) <= legacy_prefix self) H;
  sh_published : ∀ d, d ∈ H → d_sequence (sd_id d) <= stream_published self;
  sh_native : filter (λ d, legacy_prefix self < d_sequence (sd_id d)) H =
    native_lines self journal (N.to_nat (stream_published self - legacy_prefix self)) (legacy_prefix self + 1);
  sh_journal : ∀ core, native_stream_core self = Some core → journaled core journal;
  sh_width : stream_published self <= u64_max
}.
Lemma position_resolved d ledger s :
  d_ledger (sd_id d) = ledger → position_le (position_of d) (resolved ledger s) ↔ d_sequence (sd_id d) <= s.
Proof. intros <-. rewrite position_le_spec by done. simpl. lia. Qed.
Lemma resolved_position d ledger s :
  d_ledger (sd_id d) = ledger → position_lt (resolved ledger s) (position_of d) ↔ s < d_sequence (sd_id d).
Proof. intros <-. rewrite position_lt_spec by done. simpl. split; [|auto]. by intros [?|(_ & [] & _)]. Qed.
Lemma partition_point_take {A} (R : A → A → Prop) (f : A → bool) l :
  StronglySorted R l → (∀ x y, R x y → f y = true → f x = true) →
  take (partition_point f l) l = filter (λ x, f x = true) l ∧
  drop (partition_point f l) l = filter (λ x, f x = false) l.
Proof.
  intros Hs Hf. induction Hs as [|x l Hs [IH IH'] Hx]; [done|]. simpl. rewrite !filter_cons.
  destruct (f x) eqn:Hfx; simpl; [by rewrite IH, IH'|].
  assert (Hall : ∀ y, y ∈ l → f y = false).
  { intros y Hy. rewrite Forall_forall in Hx. destruct (f y) eqn:Hfy; [|done].
    by rewrite (Hf x y (Hx y Hy) Hfy) in Hfx. }
  rewrite filter_none, filter_every; [done|done|]. intros y Hy. by rewrite Hall.
Qed.
Lemma partition_point_fmap {A B} (g : A → B) (f : B → bool) l :
  partition_point (f ∘ g) l = partition_point f (g <$> l).
Proof. induction l as [|x l IH]; [done|]. simpl. by rewrite IH. Qed.

(** The retained deltas after a position, through a sequence. *)
Lemma retained_between self journal H after through u :
  stream_history self journal H → validate_replay_position self after = Ok u →
  near_through through (rd_delta <$> drop (partition_point
    (λ d, bool_decide (position_le (after_delta (sd_id (rd_delta d))) after)) (ses_deltas self)) (ses_deltas self)) =
  between after (resolved (ses_ledger self) (N.min through (legacy_prefix self))) H.
Proof.
  intros Hh Hv. unfold validate_replay_position in Hv. apply try_bind_ok in Hv as ([] & Hp & Hv).
  apply position_validate_ok in Hp as (Hl & Hpub & Hz). rewrite refuse_then_ok in Hv. destruct Hv as [Hfl _].
  assert (Hfloor : ses_delta_floor self <= retention_prefix after) by (unfold stream_bounds in Hfl; simpl in Hfl; lia).
  assert (Hring : StronglySorted delta_lt (rd_delta <$> ses_deltas self)).
  { rewrite (sh_ring _ _ _ Hh). apply filter_sorted, (ho_sorted _ _ (sh_ok _ _ _ Hh)). }
  rewrite fmap_drop.
  change (λ d : RetainedDelta D, bool_decide (position_le (after_delta (sd_id (rd_delta d))) after))
    with ((λ d, bool_decide (position_le (position_of d) after)) ∘ rd_delta (D := D)).
  rewrite partition_point_fmap.
  destruct (partition_point_take delta_lt (λ d, bool_decide (position_le (position_of d) after))
    (rd_delta <$> ses_deltas self)) as [_ ->]; [done| |].
  { intros x y Hxy. rewrite !bool_decide_eq_true. intros. apply position_lt_le. by eapply position_lt_le_trans. }
  unfold near_through.
  destruct (partition_point_take (λ a b : D, d_sequence (sd_id a) <= d_sequence (sd_id b))
    (λ d : D, bool_decide (d_sequence (sd_id d) <= through))
    (filter (λ d, bool_decide (position_le (position_of d) after) = false) (rd_delta <$> ses_deltas self))) as [-> _].
  { rewrite (sh_ring _ _ _ Hh). by do 2 apply filter_sorted; apply (history_sequences _ _ (sh_ok _ _ _ Hh)). }
  { intros x y Hxy. rewrite !bool_decide_eq_true. lia. }
  rewrite (sh_ring _ _ _ Hh), !list_filter_filter. unfold between. apply filter_agree. intros d Hd.
  pose proof (ho_ledger _ _ (sh_ok _ _ _ Hh) d Hd) as Hdl.
  rewrite bool_decide_eq_true, bool_decide_eq_false, <-position_lt_nle, position_resolved by done.
  split; [intros ([? ?] & ? & ?); split; [done|lia]|]. intros [Hlt ?]. split_and!; [lia|done| |lia].
  by eapply after_prefix; [exact Hfloor|congruence|..].
Qed.
Lemma native_lines_app self journal a b stream :
  native_lines self journal (a + b) stream =
  native_lines self journal a stream ++ native_lines self journal b (stream + N.of_nat a).
Proof.
  revert stream. induction a as [|a IH]; intros stream; simpl; [by rewrite N.add_0_r|].
  rewrite IH, <-app_assoc. do 3 f_equal. lia.
Qed.
Lemma native_lines_sequence self journal k stream d :
  d ∈ native_lines self journal k stream →
  stream <= d_sequence (sd_id d) < stream + N.of_nat k ∧ d_ledger (sd_id d) = ses_ledger self.
Proof.
  revert stream. induction k as [|k IH]; intros stream; simpl; [by intros ?%elem_of_nil|].
  intros [Hd|Hd]%elem_of_app.
  - unfold native_line in Hd. destruct (native_sequence_of self stream); [|by apply elem_of_nil in Hd].
    apply list_elem_of_fmap in Hd as (e & -> & _). rewrite native_delta_id. simpl.
    split; [lia|done].
  - apply IH in Hd as [? ?]. split; [lia|done].
Qed.
(** The native part of a stretch that starts at a complete sequence. *)
Lemma native_between self journal H through stream :
  stream_history self journal H → legacy_prefix self < stream → through <= stream_published self →
  native_rest self journal through stream 0 =
  between (resolved (ses_ledger self) (stream - 1)) (resolved (ses_ledger self) through) H.
Proof.
  intros Hh Hs Ht. unfold native_rest. rewrite drop_0.
  destruct (decide (through < stream)) as [Hend|Hend].
  { replace (N.to_nat (through + 1 - stream)) with O by lia. simpl. symmetry. apply filter_none.
    intros d Hd%(ho_ledger _ _ (sh_ok _ _ _ Hh)). rewrite resolved_position, position_resolved by done. lia. }
  assert (Hf : between (resolved (ses_ledger self) (stream - 1)) (resolved (ses_ledger self) through) H =
    filter (λ d, stream <= d_sequence (sd_id d) <= through)
      (filter (λ d, legacy_prefix self < d_sequence (sd_id d)) H)).
  { rewrite list_filter_filter. apply filter_agree. intros d Hd%(ho_ledger _ _ (sh_ok _ _ _ Hh)).
    rewrite resolved_position, position_resolved by done. lia. }
  rewrite Hf, (sh_native _ _ _ Hh).
  replace (N.to_nat (stream_published self - legacy_prefix self)) with
    (N.to_nat (stream - 1 - legacy_prefix self) +
     (N.to_nat (through + 1 - stream) + N.to_nat (stream_published self - through)))%nat by lia.
  rewrite !native_lines_app, !filter_app.
  rewrite (filter_none _ (native_lines _ _ (N.to_nat (stream - 1 - _)) _)) by (intros d [? _]%native_lines_sequence; lia).
  rewrite (filter_every _ (native_lines _ _ (N.to_nat (through + 1 - _)) _)) by (intros d [? _]%native_lines_sequence; lia).
  rewrite (filter_none _ (native_lines _ _ (N.to_nat (_ - through)) _)) by (intros d [? _]%native_lines_sequence; lia).
  rewrite app_nil_r. simpl. f_equal. lia.
Qed.
(** ... and that starts inside a native transaction. *)
Lemma native_between_delta self journal H core through after ordinal native e :
  stream_history self journal H → native_stream_core self = Some core →
  legacy_prefix self < p_sequence after → p_sequence after <= through → through <= stream_published self →
  p_ledger after = ses_ledger self → p_offset after = PositionOffset.Delta ordinal →
  native_sequence_of self (p_sequence after) = Some native → native_event core native ordinal = Some e →
  native_rest self journal through (p_sequence after) (ordinal + 1) =
  between after (resolved (ses_ledger self) through) H.
Proof.
  intros Hh Hc Hl Hle Ht Hled Hoff Hn He.
  pose proof (native_between self journal H through (p_sequence after) Hh Hl Ht) as Hb.
  pose proof (sh_journal _ _ _ Hh _ Hc) as Hj. rewrite (jo_event _ _ Hj) in He.
  unfold native_rest in Hb |- *. rewrite drop_0 in Hb.
  set (L := native_lines self journal _ _) in *.
  assert (Hlook : L !! N.to_nat ordinal = Some (native_delta (ses_ledger self) (p_sequence after) e)).
  { unfold L. rewrite native_lines_next by done. unfold native_line. rewrite Hn.
    rewrite lookup_app_l by (rewrite length_fmap; by eapply lookup_lt_Some).
    by rewrite list_lookup_fmap, He. }
  rewrite <-(take_drop (S (N.to_nat ordinal)) L) in Hb. symmetry in Hb.
  apply between_prefix in Hb as [_ Hb]; [|apply (ho_sorted _ _ (sh_ok _ _ _ Hh))].
  replace (N.to_nat (ordinal + 1)) with (S (N.to_nat ordinal)) by lia. rewrite <-Hb. f_equal.
  rewrite (take_S_r _ _ _ Hlook), last_position_app. simpl. unfold position_of. rewrite native_delta_id.
  unfold after_delta. simpl. rewrite (jo_ordinal _ _ Hj _ _ _ He), N2Nat.id. destruct after; simpl in *; by subst.
Qed.

(** ** The session is a lawful source *)
Lemma admitted_visits limit size d rep :
  visits (λ St (v : D → Fallible St StreamError ()), visit_admitted v limit size d rep).
Proof. destruct (admitted_replays limit size d rep) as [(e & ?)|[?|(r & _ & ?)]]; by eexists _, _. Qed.
Lemma retained_visits limit through deltas rep :
  visits (λ St (v : D → Fallible St StreamError ()), replay_retained v limit through deltas rep).
Proof. destruct (retained_replays limit through deltas rep) as (l & r & ? & _). by eexists _, _. Qed.
Lemma native_visits fuel self core limit through stream ordinal rep :
  visits (λ St (v : D → Fallible St StreamError ()),
    replay_native v fuel self core limit through stream ordinal rep).
Proof.
  revert stream ordinal rep. induction fuel as [|fuel IH]; intros stream ordinal rep; simpl.
  { repeat visits_step. }
  repeat first [apply IH|apply admitted_visits|visits_step].
Qed.
Lemma session_visits self after limit :
  visits (λ St (v : D → Fallible St StreamError ()), replay_deltas v self after limit).
Proof.
  unfold replay_deltas. repeat first [apply retained_visits|apply native_visits|visits_step].
Qed.
#[export] Program Instance session_visiting : VisitingSource Session D := {|
  visited self after limit := (replay_deltas record self after limit []).2;
  outcome self after limit := (replay_deltas record self after limit []).1
|}.
Next Obligation. intros self after limit St visit s. apply (visits_recorded _ (session_visits self after limit)). Qed.

(** The stretch after a position is its retained part, then its native part. *)
Definition legacy_stretch self H (after : Position) (through : SessionSeq) : list D :=
  between after (resolved (ses_ledger self) (N.min through (legacy_prefix self))) H.
Lemma legacy_stretch_last self journal H after through :
  stream_history self journal H → p_sequence after <= legacy_prefix self →
  p_sequence (last_position after (legacy_stretch self H after through)) <= legacy_prefix self.
Proof.
  intros Hh Ha. destruct (last_position_cases after (legacy_stretch self H after through))
    as [[-> _]|(l' & d & Hl & ->)]; [done|].
  assert (Hd : d ∈ legacy_stretch self H after through) by (rewrite Hl; set_solver).
  apply elem_of_between in Hd as (Hd & _ & Hle).
  apply position_resolved in Hle; [|by apply (ho_ledger _ _ (sh_ok _ _ _ Hh))]. simpl. lia.
Qed.
Lemma legacy_stretch_past self journal H after through :
  stream_history self journal H → p_ledger after = ses_ledger self → legacy_prefix self < p_sequence after →
  legacy_stretch self H after through = [].
Proof.
  intros Hh Hl Ha. apply between_none. intros d Hd Hle.
  pose proof (ho_ledger _ _ (sh_ok _ _ _ Hh) d Hd). apply position_resolved in Hle; [|done].
  apply position_le_spec; simpl; [congruence|]. lia.
Qed.
Lemma legacy_stretch_prefix self journal H after through :
  stream_history self journal H → p_ledger after = ses_ledger self → p_sequence after <= through →
  legacy_stretch self H after through `prefix_of` between after (resolved (ses_ledger self) through) H.
Proof.
  intros Hh Hl Ha. destruct (decide (legacy_prefix self < p_sequence after)).
  { erewrite legacy_stretch_past by done. apply prefix_nil. }
  unfold legacy_stretch.
  rewrite (between_split after (resolved (ses_ledger self) (N.min through (legacy_prefix self)))
    (resolved (ses_ledger self) through) H (ho_sorted _ _ (sh_ok _ _ _ Hh))); [by apply prefix_app_r| |];
    apply position_le_spec; simpl; [done| |done|lia]. destruct (p_offset after); simpl; lia.
Qed.
Lemma native_stretch self journal H core after through stream ordinal u :
  stream_history self journal H → native_stream_core self = Some core →
  validate_replay_position self after = Ok u → p_sequence after <= through → through <= stream_published self →
  native_start self (last_position after (legacy_stretch self H after through)) = Ok (stream, ordinal) →
  between after (resolved (ses_ledger self) through) H =
    legacy_stretch self H after through ++ native_rest self journal through stream ordinal ∧
  (∀ native, native_sequence_of self stream = Some native → ordinal <= N.of_nat (length (journal native))).
Proof.
  intros Hh Hc Hv Ha Ht Hs. unfold validate_replay_position in Hv. apply try_bind_ok in Hv as ([] & Hp & Hv).
  apply position_validate_ok in Hp as (Hl & Hpub & Hz). rewrite refuse_then_ok in Hv. destruct Hv as [_ Hv].
  pose proof (ho_sorted _ _ (sh_ok _ _ _ Hh)) as Hsort. unfold native_start in Hs.
  destruct (decide (legacy_prefix self < p_sequence after)) as [Hpast|Hin].
  - rewrite (legacy_stretch_past self journal H after through Hh Hl Hpast) in Hs |- *. simpl in *.
    rewrite decide_True in Hs by done.
    destruct (p_offset after) as [o|] eqn:Hoff.
    + rewrite refuse_if_ok in Hv. apply not_false_is_true in Hv.
      unfold native_delta_exists in Hv. rewrite Hc in Hv.
      destruct (native_sequence_of self (p_sequence after)) as [native|] eqn:Hn; [|done].
      apply bool_decide_eq_true in Hv as [e He].
      ok_inv. case_decide; simplify_eq/=. split; [symmetry; by eapply native_between_delta|].
      intros native'. rewrite Hn. intros [= <-].
      rewrite (jo_event _ _ (sh_journal _ _ _ Hh _ Hc)) in He. apply lookup_lt_Some in He. lia.
    + ok_inv. match goal with H : checked_add _ _ = Some _ |- _ => apply checked_add_Some in H as [-> _] end.
      split; [|lia]. rewrite (native_between self journal H) by (done || lia). f_equal.
      destruct after; simpl in *; subst. unfold resolved. f_equal. lia.
  - assert (Hlast : p_sequence (last_position after (legacy_stretch self H after through)) <= legacy_prefix self)
      by (eapply legacy_stretch_last; [done|lia]).
    rewrite decide_False in Hs by lia. ok_inv.
    match goal with H : checked_add _ _ = Some _ |- _ => apply checked_add_Some in H as [-> _] end.
    split; [|lia]. rewrite (native_between self journal H) by (done || lia). rewrite N.add_sub.
    destruct (decide (through <= legacy_prefix self)) as [Hle|Hgt].
    + unfold legacy_stretch. rewrite N.min_l by done. rewrite (between_none (resolved _ (legacy_prefix self))), app_nil_r; [done|].
      intros d Hd. pose proof (ho_ledger _ _ (sh_ok _ _ _ Hh) d Hd). rewrite !position_resolved by done. lia.
    + unfold legacy_stretch. rewrite N.min_r by lia. apply between_split; [done|..];
        apply position_le_spec; simpl; [done| |done|lia]. destruct (p_offset after); simpl; lia.
Qed.
Lemma published_legacy self : native_stream_core self = None → stream_published self = legacy_prefix self.
Proof.
  unfold native_stream_core, stream_published. destruct (is_native _); [|done]. by destruct (ses_native self) as [[core|]|].
Qed.
Definition native_end self (through : SessionSeq) (native : Replay + Position) : Replaying D Position := λ St v,
  match native with inr position => mret position | inl _ => mret (resolved (ses_ledger self) through) end.
Definition replay_tail self limit through (legacy : Replay + Position) : Replaying D Position := λ St v,
  match legacy with
  | inr position => mret position
  | inl r =>
      match native_stream_core self with
      | None => mret (resolved (ses_ledger self) through)
      | Some core =>
          '(stream, ordinal) ← lift (native_start self (re_returned r));
          native ← replay_native v (replay_turns limit stream through) self core limit through stream ordinal r;
          match native with
          | inr position => mret position
          | inl _ => mret (resolved (ses_ledger self) through)
          end
      end
  end.
(** What a replay from a valid position visits. *)
Lemma session_replays self journal H after limit u :
  stream_history self journal H → ses_failed self = false → validate_replay_position self after = Ok u →
  ¬ (lim_items limit = 0 ∨ lim_bytes limit = 0 ∨ lim_sequences limit = 0) →
  let through := N.min (saturating_add (p_sequence after) (lim_sequences limit)) (stream_published self) in
  ∃ l r, replays (λ St (v : D → Fallible St StreamError ()), replay_deltas v self after limit) l r ∧
    match r with
    | Err _ => True
    | Ok last => (last = resolved (ses_ledger self) through ∧
                  l = between after (resolved (ses_ledger self) through) H) ∨
                 (l `prefix_of` between after (resolved (ses_ledger self) through) H ∧ last = last_position after l)
    end.
Proof.
  intros Hh Hf Hv Hz through.
  pose proof Hv as (? & (Hl & Hpub & _)%position_validate_ok & _)%try_bind_ok.
  assert (Ha : p_sequence after <= through <= stream_published self) by (pose proof (sh_width _ _ _ Hh); unfold through, saturating_add; lia).
  assert (Hrun : ∀ l r, replays (λ St v, legacy ← replay_retained v limit through
        (drop (partition_point (λ d, bool_decide (position_le (after_delta (sd_id (rd_delta d))) after))
           (ses_deltas self)) (ses_deltas self)) {| re_items := 0; re_bytes := 0; re_returned := after |};
      replay_tail self limit through legacy St v) l r →
    replays (λ St (v : D → Fallible St StreamError ()), replay_deltas v self after limit) l r).
  { intros l r. apply replays_ext. intros St v s. unfold replay_deltas. rewrite Hf, Hv. unfold refuse_if.
    rewrite (decide_False (P := _ ∨ _)) by done. done. }
  destruct (retained_replays limit through (drop (partition_point (λ d, bool_decide (position_le
    (after_delta (sd_id (rd_delta d))) after)) (ses_deltas self)) (ses_deltas self))
    {| re_items := 0; re_bytes := 0; re_returned := after |}) as (l1 & r1 & H1 & Hr1).
  rewrite (retained_between self journal H after through u Hh Hv) in Hr1. fold (legacy_stretch self H after through) in Hr1.
  pose proof (legacy_stretch_prefix self journal H after through Hh Hl ltac:(lia)) as Hpre.
  destruct r1 as [[rep|p]|e].
  - destruct Hr1 as [-> Hrep]. simpl in Hrep.
    destruct (native_stream_core self) as [core|] eqn:Hc.
    + destruct (native_start self (re_returned rep)) as [[stream ordinal]|e] eqn:Hst.
      * pose proof Hst as Hst'. rewrite Hrep in Hst'.
        destruct (native_stretch self journal H core after through stream ordinal u) as [Hsplit Hord]; [done..|lia|lia|done|].
        destruct (native_replays (replay_turns limit stream through) self core journal limit through stream ordinal rep)
          as (l2 & r2 & H2 & Hr2); [by eapply sh_journal|done|]. rewrite Hsplit, Hrep in *.
        assert (Htail : ∀ r', replays (λ St v, native ← replay_native v (replay_turns limit stream through) self core
            limit through stream ordinal rep; native_end self through native St v) l2 r' →
          replays (λ St (v : D → Fallible St StreamError ()), replay_deltas v self after limit)
            (legacy_stretch self H after through ++ l2) r').
        { intros r' Hr'. apply Hrun. eapply replays_bind; [exact H1|]. revert Hr'. apply replays_ext.
          intros St v s. unfold replay_tail. by rewrite Hc, Hrep, Hst. }
        destruct r2 as [[rep2|p]|e].
        -- destruct Hr2 as [-> _]. eexists _, (Ok _). split; [apply Htail|by left].
           by eapply replays_end.
        -- destruct Hr2 as [Hp ->]. eexists _, (Ok _). split; [apply Htail|right].
           ++ by eapply replays_end.
           ++ split; [by apply prefix_app|by rewrite last_position_app].
        -- eexists _, (Err e). split; [|done]. by apply Htail, replays_fail.
      * eexists _, (Err e). split; [|done]. apply Hrun. eapply replays_end; [exact H1|].
        intros St v s. unfold replay_tail. by rewrite Hc, Hst.
    + eexists _, (Ok _). split; [|left; split; [done|]].
      * apply Hrun. eapply replays_end; [exact H1|]. intros St v s. unfold replay_tail. by rewrite Hc.
      * unfold legacy_stretch. pose proof (published_legacy _ Hc). by rewrite N.min_l by lia.
  - destruct Hr1 as [Hp ->]. eexists l1, (Ok _). split; [|right; split; [by etrans|done]].
    apply Hrun. by eapply replays_end.
  - eexists l1, (Err e). split; [|done]. apply Hrun. by apply replays_fail.
Qed.
Lemma session_covers self journal H : stream_history self journal H → covers self H.
Proof.
  intros Hh after limit last Hout. simpl in *.
  destruct (ses_failed self) eqn:Hf.
  { unfold replay_deltas in Hout. rewrite Hf in Hout. done. }
  destruct (validate_replay_position self after) as [[]|e] eqn:Hv.
  2: { unfold replay_deltas in Hout. rewrite Hf, Hv in Hout. done. }
  destruct (decide (lim_items limit = 0 ∨ lim_bytes limit = 0 ∨ lim_sequences limit = 0)) as [Hz|Hz].
  { unfold replay_deltas in Hout. rewrite Hf, Hv in Hout. unfold refuse_if in Hout. simpl in Hout.
    rewrite (decide_True _ _ Hz) in Hout. done. }
  destruct (session_replays self journal H after limit _ Hh Hf Hv Hz) as (l & r & Hrun & Hr).
  apply replays_recorded in Hrun. rewrite Hrun in Hout |- *. simpl in *. subst r.
  destruct Hr as [[-> ->]|[[k Hp] ->]]; [done|]. symmetry. by eapply between_prefix; [apply (ho_sorted _ _ (sh_ok _ _ _ Hh))|].
Qed.

(** ** A replay makes progress *)
(** The work limits are machine words, and the replay has counted within them. *)
Record within_limit (limit : ReplayLimit) rep : Prop := {
  wl_items_width : lim_items limit <= u64_max;
  wl_bytes_width : lim_bytes limit < u64_max;
  wl_empty : re_items rep = 0 → re_bytes rep = 0;
  wl_items : re_items rep <= lim_items limit;
  wl_bytes : re_bytes rep <= lim_bytes limit
}.
Lemma admitted_total limit size d rep :
  within_limit limit rep → lim_items limit ≠ 0 → size <= lim_bytes limit →
  (re_items rep ≠ 0 ∧
   replays (λ St (v : D → Fallible St StreamError ()), visit_admitted v limit size d rep) []
     (Ok (inr (re_returned rep)))) ∨
  ∃ rep', within_limit limit rep' ∧ re_items rep' = re_items rep + 1 ∧
    replays (λ St (v : D → Fallible St StreamError ()), visit_admitted v limit size d rep) [d] (Ok (inl rep')).
Proof.
  intros [Hiw Hbw He Hi Hb] Hz Hsize. unfold visit_admitted, admit_delta, saturating_add.
  case_decide as Hfull.
  - rewrite decide_False by lia. left. split; [lia|]. intros St v s. done.
  - right. rewrite (proj2 (checked_add_Some (re_bytes rep) size (re_bytes rep + size))) by (split; [done|lia]).
    rewrite (proj2 (checked_add_Some (re_items rep) 1 (re_items rep + 1))) by (split; [done|lia]).
    eexists. split; [|split; [|eapply (replays_end _ (λ _ St v, mret (inl _))); [apply replays_visit|]; done]].
    + split; simpl; lia.
    + done.
Qed.
(** The deltas of [l] are counted; a replay that stopped visited some. *)
Definition counted (limit : ReplayLimit) rep (l : list D) (r : Replay + Position) : Prop :=
  match r with
  | inl rep' => within_limit limit rep' ∧ re_items rep' = re_items rep + N.of_nat (length l)
  | inr _ => re_items rep + N.of_nat (length l) ≠ 0
  end.
Lemma counted_cons limit rep rep' d l r :
  re_items rep' = re_items rep + 1 → counted limit rep' l r → counted limit rep (d :: l) r.
Proof. destruct r as [rep''|p]; simpl; [intros ? [? ?]; split; [done|lia]|lia]. Qed.
Lemma retained_total limit through deltas rep :
  within_limit limit rep → lim_items limit ≠ 0 → (∀ d, d ∈ deltas → rd_bytes d <= lim_bytes limit) →
  ∃ l r, replays (λ St (v : D → Fallible St StreamError ()), replay_retained v limit through deltas rep) l (Ok r) ∧
    counted limit rep l r.
Proof.
  intros Hw Hz. revert rep Hw. induction deltas as [|d deltas IH]; intros rep Hw Hfit; simpl.
  { eexists [], (inl rep). split; [apply replays_lift|split; [done|simpl; lia]]. }
  destruct (decide (through < d_sequence (sd_id (rd_delta d)))).
  { eexists [], (inl rep). split; [apply replays_lift|split; [done|simpl; lia]]. }
  destruct (admitted_total limit (rd_bytes d) (rd_delta d) rep) as [[Hi Hs]|(rep' & Hw' & Hi & Hs)];
    [done|done|apply Hfit; left|..].
  - eexists [], (inr _). split; [by eapply (replays_end _ (retained_next limit through deltas))|simpl; lia].
  - destruct (IH rep' Hw') as (l & r & Hrun & Hr); [intros; apply Hfit; by right|].
    eexists _, r. split; [|by eapply (counted_cons limit rep rep')].
    by eapply (replays_bind _ (retained_next limit through deltas) [_]).
Qed.
Lemma native_total fuel self core limit through stream ordinal rep :
  within_limit limit rep → lim_items limit ≠ 0 → through < u64_max →
  (∀ s, stream <= s <= through → is_Some (native_sequence_of self s)) →
  (∀ s o n e, stream <= s <= through → native_sequence_of self s = Some n → native_event core n o = Some e →
    o < u32_max ∧ ∃ size, sd_wire (native_delta (ses_ledger self) s e) = Ok size ∧ size <= lim_bytes limit) →
  (N.to_nat (lim_items limit - re_items rep) + N.to_nat (through + 1 - stream) <= fuel)%nat →
  ∃ l r, replays (λ St (v : D → Fallible St StreamError ()),
    replay_native v fuel self core limit through stream ordinal rep) l (Ok r) ∧ counted limit rep l r.
Proof.
  intros Hw Hz Hmax. revert stream ordinal rep Hw. induction fuel as [|fuel IH]; intros stream ordinal rep Hw Hn Hev Hf;
    simpl.
  { case_decide; [|lia]. eexists _, _. split; [apply (replays_lift (Ok _))|split; [done|simpl; lia]]. }
  case_decide as Hd; [eexists _, _; split; [apply (replays_lift (Ok _))|split; [done|simpl; lia]]|].
  destruct (Hn stream ltac:(lia)) as [native Hnat]. rewrite Hnat.
  destruct (native_event core native ordinal) as [e|] eqn:He.
  - destruct (Hev stream ordinal native e ltac:(lia) Hnat He) as (Ho & size & Hsize & Hfit). rewrite Hsize.
    destruct (admitted_total limit size (native_delta (ses_ledger self) stream e) rep)
      as [[Hi Hs]|(rep' & Hw' & Hi & Hs)]; [done..| |].
    + eexists [], (inr _). split; [|simpl; lia]. refine (replays_ext _ _ _ _ _ (replays_end _ (native_next fuel self core limit through stream
        ordinal) [] _ (Ok _) Hs _)); done.
    + pose proof (wl_items _ _ Hw'). destruct (IH stream (ordinal + 1) rep' Hw') as (l & r & Hrun & Hr); [done..|lia|].
      eexists _, r. split; [|by eapply (counted_cons limit rep rep')]. refine (replays_ext _ _ _ _ _ (replays_bind _ (native_next fuel self core limit through stream
        ordinal) [_] _ l (Ok r) Hs _)); [done|]. unfold native_next. rewrite decide_True by lia. exact Hrun.
  - rewrite (proj2 (checked_add_Some stream 1 (stream + 1))) by (split; [done|lia]).
    destruct (IH (stream + 1) 0 rep Hw) as (l & r & Hrun & Hr);
      [intros; apply Hn; lia|intros; eapply Hev; [|done..]; lia|lia|]. eexists l, r. split; [exact Hrun|done].
Qed.

(** The deltas the session would replay fit the work limits. *)
Record replay_fits self (limit : ReplayLimit) : Prop := {
  rf_items : 0 < lim_items limit <= u64_max;
  rf_bytes : 0 < lim_bytes limit < u64_max;
  rf_sequences : 0 < lim_sequences limit;
  rf_retained : ∀ d, d ∈ ses_deltas self → rd_bytes d <= lim_bytes limit;
  rf_native : ∀ core s o n e, native_stream_core self = Some core → native_sequence_of self s = Some n →
    native_event core n o = Some e → o < u32_max ∧
    ∃ size, sd_wire (native_delta (ses_ledger self) s e) = Ok size ∧ size <= lim_bytes limit
}.
Lemma native_sequence_total self core s :
  native_stream_core self = Some core → legacy_prefix self < s → s < u64_max → is_Some (native_sequence_of self s).
Proof.
  intros Hc Hl Hs. unfold native_stream_core in Hc. unfold native_sequence_of. rewrite decide_False by lia.
  destruct (ses_activation self) as [|[]]; [done|by eexists|]. simpl.
  unfold checked_sub. rewrite (proj2 (N.leb_le _ _)) by lia. simpl.
  rewrite (proj2 (checked_add_Some _ 1 (s - legacy_prefix self + 1))) by (split; [done|lia]). by eexists.
Qed.
Lemma native_start_total self returned :
  legacy_prefix self < u64_max → p_sequence returned < u64_max →
  (∀ o, legacy_prefix self < p_sequence returned → p_offset returned = PositionOffset.Delta o → o < u32_max) →
  ∃ stream ordinal, native_start self returned = Ok (stream, ordinal) ∧ legacy_prefix self < stream.
Proof.
  intros Hl Hs Ho. unfold native_start. case_decide as Hd.
  - destruct (p_offset returned) as [o|].
    + rewrite decide_True by (specialize (Ho o Hd eq_refl); lia). simpl. by eexists _, _.
    + rewrite (proj2 (checked_add_Some _ 1 (p_sequence returned + 1))) by (split; [done|lia]). simpl.
      eexists _, _. split; [done|lia].
  - rewrite (proj2 (checked_add_Some _ 1 (legacy_prefix self + 1))) by (split; [done|lia]). simpl.
    eexists _, _. split; [done|lia].
Qed.
(** Where a replay of the retained part leaves a position past the legacy prefix,
    it is the position the replay began at. *)
Lemma legacy_stretch_ordinal self journal H core after through limit u o :
  stream_history self journal H → native_stream_core self = Some core → replay_fits self limit →
  validate_replay_position self after = Ok u →
  let returned := last_position after (legacy_stretch self H after through) in
  legacy_prefix self < p_sequence returned → p_offset returned = PositionOffset.Delta o → o < u32_max.
Proof.
  intros Hh Hc Hfit Hv returned Hp Ho. unfold validate_replay_position in Hv.
  apply try_bind_ok in Hv as ([] & (Hl & _ & _)%position_validate_ok & Hv).
  rewrite refuse_then_ok in Hv. destruct Hv as [_ Hv].
  destruct (decide (p_sequence after <= legacy_prefix self)) as [Hle|Hgt].
  { pose proof (legacy_stretch_last self journal H after through Hh Hle). unfold returned in *. lia. }
  unfold returned in Ho, Hp. rewrite (legacy_stretch_past self journal) in Ho, Hp by (done || lia). simpl in Ho, Hp.
  rewrite Ho in Hv. rewrite decide_True in Hv by lia. rewrite refuse_if_ok in Hv.
  apply not_false_is_true in Hv. unfold native_delta_exists in Hv. rewrite Hc in Hv.
  destruct (native_sequence_of self (p_sequence after)) as [n|] eqn:Hn; [|done].
  apply bool_decide_eq_true in Hv as [e He]. by destruct (rf_native _ _ Hfit core _ o n e Hc Hn He).
Qed.
Lemma legacy_stretch_published self journal H after through :
  stream_history self journal H → p_sequence after <= stream_published self →
  p_sequence (last_position after (legacy_stretch self H after through)) <= stream_published self.
Proof.
  intros Hh Ha. destruct (last_position_cases after (legacy_stretch self H after through))
    as [[-> _]|(l' & d & Hl & ->)]; [done|].
  apply (sh_published _ _ _ Hh). assert (Hd : d ∈ legacy_stretch self H after through) by (rewrite Hl; set_solver).
  by apply elem_of_between in Hd as [].
Qed.
(** A replay from a valid position whose deltas fit returns; it covers the
    sequences asked for or has visited something. *)
Lemma session_replay_total self journal H after limit u :
  stream_history self journal H → ses_failed self = false → validate_replay_position self after = Ok u →
  replay_fits self limit → stream_published self < u64_max → legacy_prefix self <= stream_published self →
  ∃ last, outcome self after limit = Ok last ∧
    (last = resolved (ses_ledger self)
       (N.min (saturating_add (p_sequence after) (lim_sequences limit)) (stream_published self)) ∨
     visited self after limit ≠ []).
Proof.
  intros Hh Hf Hv Hfit Hmax Hleg. set (through := N.min _ _).
  pose proof Hv as (? & (Hl & Hpub & _)%position_validate_ok & _)%try_bind_ok.
  destruct Hfit as [Hi Hb Hs Hret Hnat] eqn:Hfiteq. clear Hfiteq.
  set (ring := drop (partition_point (λ d, bool_decide (position_le (after_delta (sd_id (rd_delta d))) after))
    (ses_deltas self)) (ses_deltas self)).
  set (rep0 := {| re_items := 0; re_bytes := 0; re_returned := after |}).
  assert (Hrun : ∀ l r, replays (λ St v, legacy ← replay_retained v limit through ring rep0;
      replay_tail self limit through legacy St v) l r →
    outcome self after limit = r ∧ visited self after limit = l).
  { intros l r Hr. simpl. cut (replay_deltas record self after limit [] = (r, l)); [by intros ->|].
    apply (replays_recorded (λ St (v : D → Fallible St StreamError ()), replay_deltas v self after limit)).
    revert Hr. apply replays_ext. intros St v s. unfold replay_deltas. rewrite Hf, Hv. unfold refuse_if.
    rewrite (decide_False (P := _ ∨ _)) by lia. done. }
  assert (Hw : within_limit limit rep0) by (split; simpl; lia).
  destruct (retained_total limit through ring rep0) as (l1 & r1 & H1 & Hc1); [done|lia| |].
  { intros d [i Hd]%list_elem_of_lookup. unfold ring in Hd. rewrite lookup_drop in Hd. apply Hret. by eapply list_elem_of_lookup_2. }
  destruct r1 as [rep|p].
  2: { destruct (Hrun l1 (Ok p)) as [-> ->]; [by eapply replays_end|]. exists p. split; [done|right].
    simpl in Hc1. intros ->. done. }
  destruct (retained_replays limit through ring rep0) as (l1' & r1' & H1' & Hr1).
  pose proof (eq_trans (eq_sym (replays_recorded _ _ _ H1)) (replays_recorded _ _ _ H1')) as Heq. simplify_eq.
  unfold ring in Hr1. rewrite (retained_between self journal H after through u Hh Hv) in Hr1.
  destruct Hr1 as [-> Hrep]. fold (legacy_stretch self H after through) in *. simpl in Hrep.
  destruct (native_stream_core self) as [core|] eqn:Hc.
  2: { destruct (Hrun (legacy_stretch self H after through) (Ok (resolved (ses_ledger self) through))) as [-> _].
    - eapply replays_end; [exact H1|]. intros St v s. unfold replay_tail. by rewrite Hc.
    - eexists. by split; [|left]. }
  pose proof (legacy_stretch_published self journal H after through Hh Hpub).
  destruct (native_start_total self (re_returned rep)) as (stream & ordinal & Hst & Hstream);
    [lia|rewrite Hrep; lia|intros o; rewrite Hrep;
      by apply (legacy_stretch_ordinal self journal H core after through limit u o)|].
  destruct Hc1 as [Hw1 Hit].
  destruct (native_total (replay_turns limit stream through) self core limit through stream ordinal rep)
    as (l2 & r2 & H2 & Hc2); [done|lia|unfold through; lia| | |unfold replay_turns; lia|].
  { intros s Hs'. eapply native_sequence_total; [done|lia|unfold through in Hs'; lia]. }
  { intros s o n e _ Hn He. by eapply Hnat. }
  assert (Htail : ∀ r, native_end self through r2 = (λ _ _, lift (Ok r)) →
    outcome self after limit = Ok r ∧
    visited self after limit = legacy_stretch self H after through ++ l2).
  { intros r Hr. apply Hrun. eapply replays_bind; [exact H1|].
    apply (replays_ext _ (λ St v, native ← replay_native v (replay_turns limit stream through) self core limit
      through stream ordinal rep; native_end self through native St v)).
    - intros St v s. unfold replay_tail. by rewrite Hc, Hst.
    - eapply replays_end; [exact H2|]. intros St v s. by rewrite Hr. }
  destruct r2 as [rep2|p]; (edestruct Htail as [-> ->]; [done|]); (eexists; split; [done|]); [by left|right].
  simpl in Hc2, Hit. intros [He ->]%app_eq_nil. rewrite He in Hit. simpl in *. lia.
Qed.
End session.
