(* ===== verification/SessionCursors.v ===== *)
(** * Cursor commands and retention (focal-ledger: cursor_session.rs, apply_epoch.rs)

    A cursor command is an entry of the ledger's log: [build_cursor_candidate]
    checks it and reserves what it will hold, [apply_cursor_entry] publishes it
    once it is committed. A domain entry forecasts how much of the ring its
    deltas push out ([retention_forecast_from]) and publishes them
    ([publish_deltas]). Both end by retiring deltas below the floor.

    The encoded sizes are parameters. The other pending candidates of the
    session, which these operations discard, are not part of the state here. *)
From stdpp Require Import prelude gmap strings list.
From Stdlib Require Import NArith.
From S2P Require Import Prelude Vocabulary Objects Store Reducer Core Fallible Budget Stream Registry.
From S2P Require Import Subscription CursorSession.
#[local] Open Scope N_scope.

(** [serialized_size] of an input, [reference_charge] of the rest. *)
Class SessionSizes := {
  input_wire : CursorInput → Try LedgerError N;
  input_charge : CursorInput → Try LedgerError N;
  receipt_entry_charge : RequestKey → CursorReceipt → Try LedgerError N;
  owner_entry_charge : ConsumerId → ParticipantId → Try LedgerError N;
  receipt_charge : CursorReceipt → Try LedgerError N
}.
Definition operation_consumer (operation : CursorOperation) : option ConsumerId :=
  match operation with
  | CursorOperation.Register consumer _ _ _ _ | CursorOperation.RegisterProtected consumer _ _ _
  | CursorOperation.Renew consumer _ _ | CursorOperation.BeginSeed consumer _ _ _ _
  | CursorOperation.CompleteSeed consumer _ _ | CursorOperation.RequireResync consumer _ _ => Some consumer
  | CursorOperation.Acknowledge token | CursorOperation.AcknowledgeAndRenew token _ =>
      Some (ck_consumer (ct_key token))
  | CursorOperation.AdvanceFloor _ => None
  end.
(** The operations that name a consumer for the first time. *)
Definition registers (operation : CursorOperation) : bool :=
  match operation with
  | CursorOperation.Register _ _ _ _ _ | CursorOperation.RegisterProtected _ _ _ _
  | CursorOperation.BeginSeed _ _ _ _ _ => true
  | _ => false
  end.
(** The operations of the trusted runtime. *)
Definition controls (operation : CursorOperation) : bool :=
  match operation with
  | CursorOperation.RegisterProtected _ _ _ _ | CursorOperation.AdvanceFloor _ => true
  | _ => false
  end.

Section session.
Context {D E : Type} `{!StreamedDelta D, !NativeDelta E D, !Layout, !SessionSizes}.
Notation Session := (Session D E).
Implicit Types (self : Session) (F : Levels).

(** ** Field updates *)
Definition with_ring (deltas : list (RetainedDelta D)) (bytes : N) (floor : SessionSeq) self : Session :=
  {| ses_ledger := ses_ledger self; ses_core := ses_core self; ses_failed := ses_failed self;
     ses_activation := ses_activation self; ses_native := ses_native self; ses_deltas := deltas;
     ses_delta_bytes := bytes; ses_delta_floor := floor; ses_cursors := ses_cursors self;
     ses_cursor_meta := ses_cursor_meta self; ses_cursor_charge := ses_cursor_charge self;
     ses_pending_cursor := ses_pending_cursor self; ses_placement_charge := ses_placement_charge self;
     ses_budget := ses_budget self; ses_limits := ses_limits self |}.
Definition with_core (core : Core) self : Session :=
  {| ses_ledger := ses_ledger self; ses_core := core; ses_failed := ses_failed self;
     ses_activation := ses_activation self; ses_native := ses_native self; ses_deltas := ses_deltas self;
     ses_delta_bytes := ses_delta_bytes self; ses_delta_floor := ses_delta_floor self;
     ses_cursors := ses_cursors self; ses_cursor_meta := ses_cursor_meta self;
     ses_cursor_charge := ses_cursor_charge self; ses_pending_cursor := ses_pending_cursor self;
     ses_placement_charge := ses_placement_charge self; ses_budget := ses_budget self;
     ses_limits := ses_limits self |}.
Definition with_cursors (cursors : CursorRegistry) self : Session :=
  {| ses_ledger := ses_ledger self; ses_core := ses_core self; ses_failed := ses_failed self;
     ses_activation := ses_activation self; ses_native := ses_native self; ses_deltas := ses_deltas self;
     ses_delta_bytes := ses_delta_bytes self; ses_delta_floor := ses_delta_floor self;
     ses_cursors := cursors; ses_cursor_meta := ses_cursor_meta self;
     ses_cursor_charge := ses_cursor_charge self; ses_pending_cursor := ses_pending_cursor self;
     ses_placement_charge := ses_placement_charge self; ses_budget := ses_budget self;
     ses_limits := ses_limits self |}.
Definition with_meta (meta : CursorMetadata) (charge : Allocation) self : Session :=
  {| ses_ledger := ses_ledger self; ses_core := ses_core self; ses_failed := ses_failed self;
     ses_activation := ses_activation self; ses_native := ses_native self; ses_deltas := ses_deltas self;
     ses_delta_bytes := ses_delta_bytes self; ses_delta_floor := ses_delta_floor self;
     ses_cursors := ses_cursors self; ses_cursor_meta := meta; ses_cursor_charge := charge;
     ses_pending_cursor := ses_pending_cursor self; ses_placement_charge := ses_placement_charge self;
     ses_budget := ses_budget self; ses_limits := ses_limits self |}.
Definition with_pending_cursor (pending : option CursorCandidate) self : Session :=
  {| ses_ledger := ses_ledger self; ses_core := ses_core self; ses_failed := ses_failed self;
     ses_activation := ses_activation self; ses_native := ses_native self; ses_deltas := ses_deltas self;
     ses_delta_bytes := ses_delta_bytes self; ses_delta_floor := ses_delta_floor self;
     ses_cursors := ses_cursors self; ses_cursor_meta := ses_cursor_meta self;
     ses_cursor_charge := ses_cursor_charge self; ses_pending_cursor := pending;
     ses_placement_charge := ses_placement_charge self; ses_budget := ses_budget self;
     ses_limits := ses_limits self |}.

(** ** Retiring deltas *)
(** The loop of [retire_deltas] on the front of the ring; a retired delta gives
    its charge back. *)
Fixpoint retire_front (floor : SessionSeq) (deltas : list (RetainedDelta D)) (bytes : N) F :
    Try LedgerError () * (list (RetainedDelta D) * N * Levels) :=
  match deltas with
  | d :: rest =>
      if decide (d_sequence (sd_id (rd_delta d)) <= floor) then
        match checked_sub bytes (rd_bytes d) with
        | Some remaining => retire_front floor rest remaining (allocation_drop (rd_charge d) F)
        | None => (Err LedgerError.Corrupt, (rest, bytes, allocation_drop (rd_charge d) F))
        end
      else (Ok (), (deltas, bytes, F))
  | [] => (Ok (), ([], bytes, F))
  end.
Definition retire_deltas (through : SessionSeq) : Fallible (Session * Levels) LedgerError () := λ '(self, F),
  let floor := N.max (ses_delta_floor self) through in
  let '(r, (deltas, bytes, F)) := retire_front floor (ses_deltas self) (ses_delta_bytes self) F in
  (r, (with_ring deltas bytes floor self, F)).

(** ** The retention forecast *)
(** What the stream reads of a pending domain candidate: the deltas of its
    result, those it retains, and the floor it was forecast. *)
Record Candidate := {
  cn_deltas : list D; cn_retained : list (RetainedDelta D); cn_retire_through : SessionSeq
}.
Definition current_floor self (prior : list Candidate) : SessionSeq :=
  match last prior with Some c => cn_retire_through c | None => ses_delta_floor self end.
Definition forecast_deltas self (prior : list Candidate) (next : list (RetainedDelta D)) :
    list (RetainedDelta D) :=
  filter (λ d, current_floor self prior < d_sequence (sd_id (rd_delta d)))
    (ses_deltas self ++ concat (cn_retained <$> prior) ++ next).
Definition count_deltas (l : list (RetainedDelta D)) : Try LedgerError (N * N) :=
  try_fold (λ '(items, bytes) d,
    items ← or_fail (checked_add items 1) LedgerError.Capacity;
    bytes ← or_fail (checked_add bytes (rd_bytes d)) LedgerError.Capacity;
    mret (items, bytes)) (0, 0) l.
(** The deltas of one sequence leave together. *)
Fixpoint leave_sequence (sequence : SessionSeq) (l : list (RetainedDelta D)) (items bytes : N) :
    Try LedgerError (list (RetainedDelta D) * N * N) :=
  match l with
  | d :: rest =>
      if decide (d_sequence (sd_id (rd_delta d)) = sequence) then
        items ← or_fail (checked_sub items 1) LedgerError.Corrupt;
        bytes ← or_fail (checked_sub bytes (rd_bytes d)) LedgerError.Corrupt;
        leave_sequence sequence rest items bytes
      else mret (l, items, bytes)
  | [] => mret ([], items, bytes)
  end.
(** Each turn retires at least one delta, so the deltas bound the turns. *)
Fixpoint forecast_floor (fuel : nat) self (allowed floor : SessionSeq) (l : list (RetainedDelta D))
    (items bytes : N) : Try LedgerError SessionSeq :=
  if decide (sl_delta_items (ses_limits self) < items ∨ sl_delta_bytes (ses_limits self) < bytes) then
    match fuel, l with
    | S fuel, d :: _ =>
        let sequence := d_sequence (sd_id (rd_delta d)) in
        refuse_if (allowed < sequence) (LedgerError.Stream (StreamError.RetentionPinned allowed));;
        '(rest, items, bytes) ← leave_sequence sequence l items bytes;
        forecast_floor fuel self allowed sequence rest items bytes
    | _, _ => fails LedgerError.Corrupt
    end
  else mret floor.
Definition retention_forecast_from self (next : list (RetainedDelta D)) (published : SessionSeq)
    (prior : list Candidate) : Try LedgerError SessionSeq :=
  let all := forecast_deltas self prior next in
  '(items, bytes) ← count_deltas all;
  let checkpoint := registry_checkpoint (ses_cursors self) in
  let allowed := retention_limit checkpoint (cp_clock checkpoint) published in
  forecast_floor (length all) self allowed (current_floor self prior) all items bytes.

(** ** Publishing the deltas of an epoch *)
(** [validate_epoch_deltas]: the floor, the bytes and the items the ring will
    have. The ring's capacity is at least its item limit, since
    [ensure_delta_slots] runs first. *)
Definition validate_epoch_deltas self (candidates : list Candidate) : Try LedgerError (SessionSeq * N * N) :=
  current ← or_fail (foldl (λ bytes d, bytes ← bytes; checked_add bytes (rd_bytes d)) (Some 0) (ses_deltas self))
    LedgerError.Corrupt;
  refuse_if (current ≠ ses_delta_bytes self) LedgerError.Corrupt;;
  refuse_if (Exists (λ c, rd_delta <$> cn_retained c ≠ cn_deltas c) candidates) LedgerError.Corrupt;;
  c ← or_fail (last candidates) LedgerError.Corrupt;
  let floor := N.max (ses_delta_floor self) (cn_retire_through c) in
  let kept := filter (λ d, floor < d_sequence (sd_id (rd_delta d)))
                (ses_deltas self ++ concat (cn_retained <$> candidates)) in
  '(items, bytes) ← try_fold (λ '(items, bytes) d,
    size ← map_err (λ _, LedgerError.Encoding) (sd_wire (rd_delta d));
    refuse_if (rd_bytes d ≠ size) LedgerError.Corrupt;;
    bytes ← or_fail (checked_add bytes (rd_bytes d)) LedgerError.Capacity;
    items ← or_fail (checked_add items 1) LedgerError.Capacity;
    mret (items, bytes)) (0, 0) kept;
  refuse_if (sl_delta_bytes (ses_limits self) < bytes ∨ sl_delta_items (ses_limits self) < items)
    LedgerError.Capacity;;
  mret (floor, bytes, items).
(** The candidates' deltas join the ring; one at or below the floor is dropped. *)
Definition push_deltas (floor : SessionSeq) (new : list (RetainedDelta D)) (deltas : list (RetainedDelta D)) F :
    list (RetainedDelta D) * Levels :=
  foldl (λ '(deltas, F) d,
    if decide (floor < d_sequence (sd_id (rd_delta d))) then (deltas ++ [d], F)
    else (deltas, allocation_drop (rd_charge d) F)) (deltas, F) new.
(** The ring's part of [apply_domain_epoch], with the core it publishes. *)
Definition publish_deltas (core : Core) (candidates : list Candidate) :
    Fallible (Session * Levels) LedgerError () := λ '(self, F),
  match validate_epoch_deltas self candidates with
  | Err e => (Err e, (self, F))
  | Ok (floor, bytes, items) =>
      match retire_deltas floor (with_core core self, F) with
      | (Err e, s) => (Err e, s)
      | (Ok _, (self, F)) =>
          let '(deltas, F) := push_deltas floor (concat (cn_retained <$> candidates)) (ses_deltas self) F in
          let self := with_ring deltas bytes (ses_delta_floor self) self in
          (if decide (N.of_nat (length deltas) ≠ items) then Err LedgerError.Corrupt else Ok (), (self, F))
      end
  end.

(** ** Building a cursor candidate *)
Definition cursor_owner self (consumer : ConsumerId) : option ParticipantId :=
  me_owners (ses_cursor_meta self) !! consumer.
Definition cursor_receipt self (key : RequestKey) : option CursorReceipt :=
  me_receipts (ses_cursor_meta self) !! key.
Definition rejects {A} (code : ErrorCode) : Try LedgerError A := fails (LedgerError.CursorRequest code).
(** The envelope is of this ledger at this prefix, and names a floor on its line. *)
Definition check_envelope self (envelope : CursorEnvelope) : Try LedgerError () :=
  refuse_if (en_schema envelope ≠ 2 ∨ en_ledger envelope ≠ ses_ledger self
             ∨ ci_ledger (en_input envelope) ≠ ses_ledger self
             ∨ en_domain_sequence envelope ≠ sequence_of (ses_core self)
             ∨ sequence_of (ses_core self) < en_replay_floor envelope
             ∨ en_replay_floor envelope < cp_floor (registry_checkpoint (ses_cursors self)))
    LedgerError.Corrupt.
(** The request's identity, size and epoch window. *)
Definition check_request self (input : CursorInput) : Try LedgerError () :=
  let rows := st_rows (co_state (ses_core self)) in
  let key := ci_key input in
  (if is_zero (rk_principal key) || is_zero (rk_id key) then rejects ErrorCode.InvalidSchema else mret ());;
  size ← input_wire input;
  refuse_if (max_command_bytes (sl_core (ses_limits self)) < size) LedgerError.Capacity;;
  (if decide (is_Some (receipts rows !! key) ∨ is_Some (cursor_receipt self key))
   then rejects ErrorCode.IdempotencyConflict else mret ());;
  window ← or_fail (epochs rows !! rk_principal key)
    (LedgerError.CursorRequest ErrorCode.RequestEpochNotAdmitted);
  (if decide (rk_epoch key < ew_minimum window) then rejects ErrorCode.RequestHistoryExpired else mret ());;
  (if decide (rk_epoch key ∈ ew_admitted window) then mret ()
   else rejects ErrorCode.RequestEpochNotAdmitted).
(** An eighth of the receipts is kept for consumers that are registered. *)
Definition receipt_limit self (operation : CursorOperation) : N :=
  let limit := sl_cursor_receipts (ses_limits self) in
  if registers operation then limit - N.max (limit / 8) 1 else limit.
(** Who may name the consumer. *)
Definition check_owner self (input : CursorInput) : Try LedgerError () :=
  let operation := cm_operation (ci_command input) in
  match operation_consumer operation with
  | Some id =>
      match cursor_owner self id with
      | Some owner => if decide (owner ≠ rk_principal (ci_key input)) then rejects ErrorCode.WrongActor else mret ()
      | None => if registers operation then mret () else fails (LedgerError.Stream StreamError.MissingConsumer)
      end
  | None => mret ()
  end.
(** A position the command names is one the session replays from. *)
Definition check_position self (envelope : CursorEnvelope) : Try LedgerError () :=
  let valid position := map_err LedgerError.Stream (validate_replay_position self position) in
  match cm_operation (ci_command (en_input envelope)) with
  | CursorOperation.Register _ _ _ start _ | CursorOperation.RegisterProtected _ _ _ start =>
      valid start;;
      refuse_if (retention_prefix start < en_replay_floor envelope) LedgerError.Corrupt
  | CursorOperation.BeginSeed _ _ _ snapshot _ =>
      valid (resolved (ses_ledger self) snapshot);;
      refuse_if (snapshot < en_replay_floor envelope) LedgerError.Corrupt
  | CursorOperation.Acknowledge token | CursorOperation.AcknowledgeAndRenew token _ =>
      valid (ct_position token)
  | _ => mret ()
  end.
Definition candidate_checks self (envelope : CursorEnvelope) : Try LedgerError N :=
  let input := en_input envelope in
  let operation := cm_operation (ci_command input) in
  check_envelope self envelope;;
  check_request self input;;
  refuse_if (receipt_limit self operation <= N.of_nat (size (me_receipts (ses_cursor_meta self))))
    LedgerError.Capacity;;
  (if controls operation && negb (en_trusted_control envelope) then rejects ErrorCode.WrongActor else mret ());;
  check_owner self input;;
  check_position self envelope;;
  charge ← input_charge input;
  or_fail (n ← checked_add charge (match ses_placement_charge self with Some a => al_bytes a | None => 0 end);
           checked_mul n 3) LedgerError.Capacity.
Definition candidate_receipt self (envelope : CursorEnvelope) (prepared : PreparedCursorUpdate) : CursorReceipt :=
  let input := en_input envelope in
  {| cr_ledger := ses_ledger self; cr_key := ci_key input; cr_intent_hash := ci_intent_hash input;
     cr_revision := pu_revision prepared; cr_domain_sequence := sequence_of (ses_core self);
     cr_raft_index := 0; cr_floor := N.max (en_replay_floor envelope) (pu_floor prepared);
     cr_record := id ← operation_consumer (cm_operation (ci_command input));
                  projected (ses_cursors self) prepared id |}.
(** A consumer named for the first time is owned by its principal. *)
Definition candidate_owner self (input : CursorInput) : option (ConsumerId * ParticipantId) :=
  id ← operation_consumer (cm_operation (ci_command input));
  match cursor_owner self id with Some _ => None | None => Some (id, rk_principal (ci_key input)) end.
Definition entry_bytes (key : RequestKey) (receipt : CursorReceipt) (owner : option (ConsumerId * ParticipantId)) :
    Try LedgerError N :=
  own ← receipt_entry_charge key receipt;
  more ← match owner with Some (id, principal) => owner_entry_charge id principal | None => mret 0 end;
  or_fail (checked_add own more) LedgerError.Capacity.
Definition reserve_charge (budget : MemoryBudget) (kind : BudgetKind) (bytes : Try LedgerError N) :
    Fallible Levels LedgerError Allocation :=
  bytes ← lift bytes;
  errors_as LedgerError.Memory (reserve budget kind BudgetLane.Completion bytes).
(** The charges of the entry and of the result, for a prepared update; what is
    reserved is dropped if a later one is refused. *)
Definition charge_candidate self (entry_hash : ContentHash) (envelope : CursorEnvelope)
    (prepared : PreparedCursorUpdate) : Fallible Levels LedgerError CursorCandidate := λ F,
  let receipt := candidate_receipt self envelope prepared in
  let owner := candidate_owner self (en_input envelope) in
  match reserve_charge (ses_budget self) BudgetKind.ReadPins
          (entry_bytes (ci_key (en_input envelope)) receipt owner) F with
  | (Err e, F) => (Err e, allocation_drop (pu_arriving prepared) F)
  | (Ok entry_charge, F) =>
      match reserve_charge (ses_budget self) BudgetKind.Pending (receipt_charge receipt) F with
      | (Err e, F) => (Err e, allocation_drop (pu_arriving prepared) (allocation_drop entry_charge F))
      | (Ok result_charge, F) =>
          (Ok {| ca_entry_hash := entry_hash; ca_prepared := prepared; ca_receipt := receipt; ca_owner := owner;
                 ca_entry_charge := entry_charge; ca_result_charge := result_charge |}, F)
      end
  end.
Definition build_cursor_candidate self (envelope : CursorEnvelope) (entry_hash : ContentHash) (committed : bool) :
    Fallible Levels LedgerError CursorCandidate := λ F,
  match reserve_charge (ses_budget self) BudgetKind.Pending (candidate_checks self envelope) F with
  | (Err e, F) => (Err e, F)
  | (Ok scratch, F) =>
      let command := ci_command (en_input envelope) in
      let published := stream_published self in
      match (if committed then prepare_committed (ses_cursors self) command published
             else prepare (ses_cursors self) command published) F with
      | (Err e, F) => (Err (LedgerError.Stream e), allocation_drop scratch F)
      | (Ok prepared, F) =>
          let '(r, F) := charge_candidate self entry_hash envelope prepared F in
          (r, allocation_drop scratch F)
      end
  end.
Definition candidate_drop (c : CursorCandidate) F : Levels :=
  allocation_drop (ca_result_charge c) (allocation_drop (ca_entry_charge c)
    (allocation_drop (pu_arriving (ca_prepared c)) F)).

(** ** Applying a committed cursor entry *)
(** A committed entry once decoded: this version's envelope or the previous. *)
Inductive CursorEntry := CursorEntryV2 (envelope : CursorEnvelope) | CursorEntryV1 (old : LegacyCursorEnvelope).
Definition entry_envelope self (entry : CursorEntry) : Try LedgerError CursorEnvelope :=
  match entry with
  | CursorEntryV2 envelope => mret envelope
  | CursorEntryV1 old =>
      refuse_if (le_schema old ≠ 1) LedgerError.Corrupt;;
      mret {| en_schema := 2; en_ledger := le_ledger old; en_domain_sequence := le_domain_sequence old;
              en_replay_floor := rb_floor (stream_bounds self); en_trusted_control := le_trusted_control old;
              en_input := le_input old |}
  end.
(** The owners of retired consumers leave with their bytes. *)
Fixpoint retire_owners (retired : list ConsumerId) : Fallible (Session * Levels) LedgerError () := λ '(self, F),
  match retired with
  | [] => (Ok (), (self, F))
  | consumer :: retired =>
      match cursor_owner self consumer with
      | None => retire_owners retired (self, F)
      | Some principal =>
          let meta := {| me_receipts := me_receipts (ses_cursor_meta self);
                         me_owners := delete consumer (me_owners (ses_cursor_meta self)) |} in
          let charge := ses_cursor_charge self in
          match (bytes ← lift (owner_entry_charge consumer principal);
                 errors_as LedgerError.Memory (shrink_to charge (al_bytes charge - bytes))) F with
          | (Err e, F) => (Err e, (with_meta meta charge self, F))
          | (Ok charge, F) => retire_owners retired (with_meta meta charge self, F)
          end
      end
  end.
(** The receipt and the owner join the metadata. *)
Definition record_receipt (receipt : CursorReceipt) (owner : option (ConsumerId * ParticipantId)) self : Session :=
  let meta := ses_cursor_meta self in
  let owners := match owner with
                | Some (consumer, principal) =>
                    match me_owners meta !! consumer with
                    | Some _ => me_owners meta
                    | None => <[consumer := principal]> (me_owners meta)
                    end
                | None => me_owners meta
                end in
  with_meta {| me_receipts := <[cr_key receipt := receipt]> (me_receipts meta); me_owners := owners |}
    (ses_cursor_charge self) self.
(** The receipt names the index of its entry and the end of the stream there. *)
Definition applied_receipt (raft_index : N) (published : SessionSeq) (receipt : CursorReceipt) : CursorReceipt :=
  {| cr_ledger := cr_ledger receipt; cr_key := cr_key receipt; cr_intent_hash := cr_intent_hash receipt;
     cr_revision := cr_revision receipt; cr_domain_sequence := published; cr_raft_index := raft_index;
     cr_floor := cr_floor receipt; cr_record := cr_record receipt |}.
(** [publish] and what follows it; a permit that is not handed on is dropped. *)
Definition publish_candidate (raft_index : N) (candidate : CursorCandidate) :
    Fallible (Session * Levels) LedgerError (CursorReceipt * Allocation) := λ '(self, F),
  let receipt := applied_receipt raft_index (stream_published self) (ca_receipt candidate) in
  let entry := ca_entry_charge candidate in
  let result := ca_result_charge candidate in
  let dropped F := allocation_drop entry (allocation_drop result F) in
  match Registry.publish (ca_prepared candidate) (ses_cursors self, F) with
  | (Err e, (cursors, F)) => (Err (LedgerError.Stream e), (with_cursors cursors self, dropped F))
  | (Ok retired, (cursors, F)) =>
      match retire_owners retired (with_cursors cursors self, F) with
      | (Err e, (self, F)) => (Err e, (self, dropped F))
      | (Ok _, (self, F)) =>
          let self := record_receipt receipt (ca_owner candidate) self in
          match absorb (ses_cursor_charge self) entry F with
          | (Err e, F) => (Err (LedgerError.Memory e), (self, dropped F))
          | (Ok (charge, entry), F) =>
              match retire_deltas (cr_floor receipt) (with_meta (ses_cursor_meta self) charge self, F) with
              | (Err e, (self, F)) => (Err e, (self, allocation_drop entry (allocation_drop result F)))
              | (Ok _, (self, F)) => (Ok (receipt, result), (self, allocation_drop entry F))
              end
          end
      end
  end.
(** The candidate of a committed entry: the proposed one, or one built from the
    decoded entry while its decoding is charged. *)
Definition rebuild_candidate self (digest : ContentHash) (data_len : N) (entry : Try LedgerError CursorEntry) :
    Fallible Levels LedgerError CursorCandidate := λ F,
  match reserve_charge (ses_budget self) BudgetKind.Recovery
          (or_fail (n ← checked_mul data_len 64; checked_add n 4096) LedgerError.Capacity) F with
  | (Err e, F) => (Err e, F)
  | (Ok decode, F) =>
      let '(r, F) := (envelope ← lift (entry ← entry; entry_envelope self entry);
                      build_cursor_candidate self envelope digest true) F in
      (r, allocation_drop decode F)
  end.
Definition committed_candidate (digest : ContentHash) (data_len : N) (entry : Try LedgerError CursorEntry) :
    Fallible (Session * Levels) LedgerError CursorCandidate := λ '(self, F),
  let taken := with_pending_cursor None self in
  let rebuild F := let '(r, F) := rebuild_candidate taken digest data_len entry F in (r, (taken, F)) in
  match ses_pending_cursor self with
  | Some candidate =>
      if decide (ca_entry_hash candidate = digest) then (Ok candidate, (taken, F))
      else rebuild (candidate_drop candidate F)
  | None => rebuild F
  end.
(** [entry] is what the committed bytes, [data_len] long and hashing to
    [digest], decode to. *)
Definition apply_cursor_entry (digest : ContentHash) (data_len : N) (entry : Try LedgerError CursorEntry)
    (raft_index : N) : Fallible (Session * Levels) LedgerError (CursorReceipt * Allocation) :=
  candidate ← committed_candidate digest data_len entry;
  publish_candidate raft_index candidate.
(** The envelope [propose_cursor] writes. *)
Definition cursor_envelope self (input : CursorInput) (control : bool) : CursorEnvelope :=
  {| en_schema := 2; en_ledger := ses_ledger self; en_domain_sequence := sequence_of (ses_core self);
     en_replay_floor := rb_floor (stream_bounds self); en_trusted_control := control; en_input := input |}.
End session.
Arguments Candidate : clear implicits.
