(* ===== verification/RetentionLaws.v ===== *)
(** * Retention

    The ring of a session is exactly its history above the floor, and the
    floor never passes what a retaining cursor needs, through cursor entries
    and published epochs alike. *)
From stdpp Require Import prelude gmap strings list sorting.
From Stdlib Require Import NArith.
From S2P Require Import Prelude Vocabulary Objects Store Reducer Core Fallible Budget Stream.
From S2P Require Import Registry RegistryLaws RegistryRuns History Subscription SubscriptionLaws CursorSession.
From S2P Require Import SessionSource SessionCursors.
#[local] Open Scope N_scope.

Section retention.
Context {D E : Type} `{!StreamedDelta D, !NativeDelta E D} {layout : Layout} {sizes : SessionSizes}.
Notation Session := (Session D E).
Implicit Types (self : Session) (F : Levels) (l : list (RetainedDelta D)).

Definition ring_bytes l : N := foldr (λ d total, rd_bytes d + total) 0 l.
Lemma ring_bytes_app l k : ring_bytes (l ++ k) = ring_bytes l + ring_bytes k.
Proof. induction l as [|d l IH]; simpl; [done|]. rewrite IH. lia. Qed.
Notation above floor := (λ d : RetainedDelta D, floor < d_sequence (sd_id (rd_delta d))).
Notation by_sequence := (λ a b : RetainedDelta D, d_sequence (sd_id (rd_delta a)) <= d_sequence (sd_id (rd_delta b))).

(** ** Retiring keeps what is above the floor *)
Lemma retire_front_ok floor l F :
  StronglySorted by_sequence l →
  ∃ F', retire_front floor l (ring_bytes l) F =
    (Ok (), (filter (above floor) l, ring_bytes (filter (above floor) l), F')).
Proof.
  intros Hs. revert F. induction Hs as [|d l Hs IH Hd]; intros F; simpl; [by eexists|].
  rewrite filter_cons. case_decide as Hle.
  - unfold checked_sub. rewrite (proj2 (N.leb_le _ _)) by lia. rewrite decide_False by lia.
    replace (rd_bytes d + ring_bytes l - rd_bytes d) with (ring_bytes l) by lia. apply IH.
  - rewrite decide_True by lia. rewrite (filter_every _ l).
    + by eexists.
    + intros x Hx. rewrite Forall_forall in Hd. specialize (Hd x Hx). simpl in Hd. lia.
Qed.
Lemma retire_deltas_ok through self F :
  StronglySorted by_sequence (ses_deltas self) → ses_delta_bytes self = ring_bytes (ses_deltas self) →
  let floor := N.max (ses_delta_floor self) through in
  ∃ F', retire_deltas through (self, F) =
    (Ok (), (with_ring (filter (above floor) (ses_deltas self))
       (ring_bytes (filter (above floor) (ses_deltas self))) floor self, F')).
Proof.
  intros Hs Hb floor. unfold retire_deltas. rewrite Hb.
  destruct (retire_front_ok floor (ses_deltas self) F Hs) as [F' HF]. fold floor. rewrite HF. by eexists.
Qed.

(** ** The forecast *)
Lemma leave_sequence_ok sequence l :
  StronglySorted by_sequence l → (∀ d, d ∈ l → sequence <= d_sequence (sd_id (rd_delta d))) →
  leave_sequence sequence l (N.of_nat (length l)) (ring_bytes l) =
  Ok (filter (above sequence) l, N.of_nat (length (filter (above sequence) l)),
      ring_bytes (filter (above sequence) l)).
Proof.
  induction 1 as [|d l Hs IH Hd]; intros Hle; [done|]. cbn [leave_sequence].
  change (ring_bytes (d :: l)) with (rd_bytes d + ring_bytes l).
  rewrite filter_cons. case_decide as Heq.
  - rewrite decide_False by lia. unfold checked_sub.
    rewrite !(proj2 (N.leb_le _ _)) by (simpl; lia). cbn [or_fail mbind try_bind].
    replace (N.of_nat (length (d :: l)) - 1) with (N.of_nat (length l)) by (simpl; lia).
    replace (rd_bytes d + ring_bytes l - rd_bytes d) with (ring_bytes l) by lia.
    apply IH. intros x Hx. apply Hle. by right.
  - assert (sequence < d_sequence (sd_id (rd_delta d))).
    { assert (sequence <= d_sequence (sd_id (rd_delta d))) by (apply Hle; left). lia. }
    rewrite decide_True by done. rewrite (filter_every _ l); [done|].
    intros x Hx. rewrite Forall_forall in Hd. specialize (Hd x Hx). simpl in Hd. lia.
Qed.
(** The forecast ends: with a floor above which the deltas fit the limits, or
    refused for what a cursor pins. *)
Lemma forecast_floor_total fuel self allowed floor l :
  StronglySorted by_sequence l → (∀ d, d ∈ l → floor < d_sequence (sd_id (rd_delta d))) → (length l <= fuel)%nat →
  match forecast_floor fuel self allowed floor l (N.of_nat (length l)) (ring_bytes l) with
  | Ok r => floor <= r ∧ N.of_nat (length (filter (above r) l)) <= sl_delta_items (ses_limits self) ∧
            ring_bytes (filter (above r) l) <= sl_delta_bytes (ses_limits self)
  | Err e => e = LedgerError.Stream (StreamError.RetentionPinned allowed)
  end.
Proof.
  revert floor l. induction fuel as [|fuel IH]; intros floor l Hs Hf Hlen.
  { destruct l; [|simpl in Hlen; lia]. simpl. rewrite decide_False by lia. simpl. lia. }
  cbn [forecast_floor]. case_decide as Hover.
  2: { simpl. rewrite filter_every by done. lia. }
  destruct l as [|d l]; [simpl in Hover; lia|]. set (sequence := d_sequence (sd_id (rd_delta d))).
  unfold refuse_if. case_decide as Hall; [done|]. cbn [mbind try_bind].
  assert (Hge : ∀ x, x ∈ d :: l → sequence <= d_sequence (sd_id (rd_delta x))).
  { intros x [->|Hx]%elem_of_cons; [done|]. apply StronglySorted_cons in Hs as [Hd _].
    rewrite Forall_forall in Hd. by apply Hd. }
  rewrite leave_sequence_ok by done. cbn [mbind try_bind].
  assert (Hshort : (length (filter (above sequence) (d :: l)) <= fuel)%nat).
  { rewrite filter_cons, decide_False by lia. etrans; [apply length_filter|]. simpl in Hlen. lia. }
  specialize (IH sequence (filter (above sequence) (d :: l)) (filter_sorted _ _ _ Hs)
    ltac:(by intros x [? _]%list_elem_of_filter) Hshort).
  destruct (forecast_floor fuel _ _ _ _ _ _) as [r|e]; [|done]. destruct IH as [Hr Hfit].
  rewrite list_filter_filter_l in Hfit by (intros x ?; simpl in *; lia).
  assert (floor < sequence) by (apply Hf; left). split; [lia|done].
Qed.
(** The forecast is the current floor or lies at or below what is allowed. *)
Lemma forecast_floor_le fuel self allowed floor l items bytes r :
  forecast_floor fuel self allowed floor l items bytes = Ok r → r = floor ∨ r <= allowed.
Proof.
  revert floor l items bytes. induction fuel as [|fuel IH]; intros floor l items bytes; simpl.
  - case_decide; [done|]. intros. ok_inv. by left.
  - case_decide; [|intros; ok_inv; by left]. destruct l as [|d l]; [done|].
    rewrite refuse_then_ok. intros [Hle Hf]. apply try_bind_ok in Hf as ([[rest items'] bytes'] & _ & Hf).
    apply IH in Hf as [->|?]; right; lia.
Qed.
Lemma retention_forecast_le self next published prior r :
  retention_forecast_from self next published prior = Ok r →
  let checkpoint := registry_checkpoint (ses_cursors self) in
  r = current_floor self prior ∨ r <= retention_limit checkpoint (cp_clock checkpoint) published.
Proof.
  intros Hr checkpoint. unfold retention_forecast_from in Hr. apply try_bind_ok in Hr as ([items bytes] & _ & Hr).
  by apply forecast_floor_le in Hr.
Qed.

(** ** What a cursor command pins *)
(** No retaining cursor needs history at or below the floor. *)
Definition pinned (floor : SessionSeq) (state : CursorCheckpoint) : Prop :=
  ∀ id row, cp_consumers state !! id = Some row → retains row (cp_clock state) = true →
    floor <= retention_prefix (ct_position (rw_token row)).
Lemma retains_mono row before clock : before <= clock → retains row clock = true → retains row before = true.
Proof. rewrite !retains_spec. intros ? [?|[? ?]]; [by left|right]. split; [lia|done]. Qed.
Lemma active_retains state clock consumer generation row :
  active_row state clock consumer generation = Ok row →
  cp_consumers state !! consumer = Some row ∧ retains row clock = true.
Proof.
  intros (Hrow & _ & Hm & He)%active_row_ok. split; [done|]. apply retains_spec. destruct He; auto.
Qed.
(** Where a registration or a seed starts. *)
Definition start_of (ledger : LedgerId) (operation : CursorOperation) : option Position :=
  match operation with
  | CursorOperation.Register _ _ _ start _ | CursorOperation.RegisterProtected _ _ _ start => Some start
  | CursorOperation.BeginSeed _ _ _ snapshot _ => Some (resolved ledger snapshot)
  | _ => None
  end.
(** A patched row that retains retained before; a new row starts where the
    command says. *)
Definition change_pins (state : CursorCheckpoint) (clock : N) (operation : CursorOperation) (change : RowChange) :
    Prop :=
  match change with
  | RowChange.None => True
  | RowChange.Patch consumer token expires_at mode =>
      ∀ row, cp_consumers state !! consumer = Some row →
        retains (patch token expires_at mode row) clock = true → retains row clock = true
  | RowChange.Insert _ row | RowChange.Replace _ row =>
      start_of (cp_ledger state) operation = Some (ct_position (rw_token row))
  end.
Lemma operation_pins state header operation published config cg :
  operation_change state header operation published config = Ok cg →
  change_pins state (hd_clock header) operation (cg_change cg).
Proof.
  intros Hop. destruct operation; simpl in Hop.
  - repeat (apply try_bind_ok in Hop as (? & ? & Hop)). by ok_inv.
  - apply try_bind_ok in Hop as ([] & _ & Hop). apply try_bind_ok in Hop as (row & Hrow & Hop).
    repeat (apply try_bind_ok in Hop as (? & ? & Hop)). ok_inv. apply active_retains in Hrow as [Hrow ?].
    simpl. intros row'. rewrite Hrow. by intros [= <-].
  - apply try_bind_ok in Hop as ([] & _ & Hop). apply try_bind_ok in Hop as (row & Hrow & Hop).
    repeat (apply try_bind_ok in Hop as (? & ? & Hop)). ok_inv. apply active_retains in Hrow as [Hrow ?].
    simpl. intros row'. rewrite Hrow. by intros [= <-].
  - apply try_bind_ok in Hop as ([] & _ & Hop). rewrite !refuse_then_ok in Hop.
    destruct Hop as (_ & _ & Hop). destruct (cp_consumers state !! consumer) as [old|] eqn:Hold;
      repeat (apply try_bind_ok in Hop as (? & ? & Hop)); by ok_inv.
  - apply try_bind_ok in Hop as (row & Hrow & Hop). rewrite refuse_then_ok in Hop.
    destruct Hop as (_ & Hop). ok_inv. apply active_retains in Hrow as [Hrow ?].
    simpl. intros row'. rewrite Hrow. by intros [= <-].
  - apply try_bind_ok in Hop as (row & Hrow & Hop). apply or_fail_ok in Hrow.
    rewrite !refuse_then_ok in Hop. destruct Hop as (_ & ? & Hop). ok_inv. simpl. intros row'. rewrite Hrow.
    intros [= <-]. rewrite retains_spec. simpl. intros [?|[_ ?]]; done.
  - rewrite !refuse_then_ok in Hop. destruct Hop as (? & ? & ? & Hop). by ok_inv.
  - repeat (apply try_bind_ok in Hop as (? & ? & Hop)). by ok_inv.
  - apply try_bind_ok in Hop as ([] & _ & Hop). apply try_bind_ok in Hop as ([] & _ & Hop).
    apply try_bind_ok in Hop as (row & Hrow & Hop).
    repeat (apply try_bind_ok in Hop as (? & ? & Hop)). ok_inv. apply active_retains in Hrow as [Hrow ?].
    simpl. intros row'. rewrite Hrow. by intros [= <-].
Qed.
(** A command that starts new rows at or above the floor keeps it pinned. *)
Lemma publish_pinned reg command published lane F prepared F' floor :
  prepare_in reg command published lane F = (Ok prepared, F') →
  pinned floor (registry_checkpoint reg) →
  (∀ start, start_of (cp_ledger (registry_checkpoint reg)) (cm_operation command) = Some start →
    floor <= retention_prefix start) →
  pinned floor (publish_checkpoint prepared (registry_checkpoint reg)).
Proof.
  intros Hp Hpin Hstart.
  pose proof (prepare_in_ok _ _ _ _ _ _ _ Hp) as (Hclk & _ & _ & applied & retired & Ha & Hprep).
  unfold apply_operation in Ha. apply try_bind_ok in Ha as (cg & Hcg & Ha).
  apply try_bind_ok in Ha as ([] & _ & Ha). ok_inv.
  pose proof (operation_change_ok _ _ _ _ _ _ Hcg eq_refl) as Hlaw. apply operation_pins in Hcg. simpl in Hcg.
  assert (Hkept : ∀ id row, cp_consumers (registry_checkpoint reg) !! id = Some row →
    retains row (cm_now command) = true → floor <= retention_prefix (ct_position (rw_token row))).
  { intros id row Hrow Hret. eapply Hpin; [done|]. by eapply retains_mono. }
  intros id row. unfold publish_checkpoint. simpl.
  fold (delete_all (cg_retired cg) (cp_consumers (registry_checkpoint reg))).
  unfold change_lawful in Hlaw. destruct (cg_change cg) as [|c t e m|c r|c r]; simpl in *.
  - destruct Hlaw as (-> & _). apply Hkept.
  - destruct Hlaw as (-> & _ & _ & old & Hold & Hpatch). destruct (decide (id = c)) as [->|Hne].
    + unfold delete_all. simpl. rewrite lookup_alter_eq, Hold. intros [= <-] Hret.
      etrans; [eapply (Hkept c old); [done|by apply Hcg]|]. apply retention_prefix_mono.
      * destruct t as [t|]; [|done]. symmetry. by apply (pl_token _ _ _ _ Hpatch).
      * by apply patch_continues in Hpatch as [].
    + unfold delete_all. simpl. rewrite lookup_alter_ne by done. apply Hkept.
  - destruct (decide (id = c)) as [->|Hne].
    + rewrite lookup_insert_eq. intros [= <-] _. by apply Hstart.
    + rewrite lookup_insert_ne, lookup_delete_all by done. case_decide; [done|]. apply Hkept.
  - destruct (decide (id = c)) as [->|Hne].
    + rewrite lookup_insert_eq. intros [= <-] _. by apply Hstart.
    + rewrite lookup_insert_ne, lookup_delete_all by done. case_decide; [done|]. apply Hkept.
Qed.

(** ** What building and publishing a candidate do to the session *)
Lemma reserve_charge_ok budget kind bytes F a F' :
  reserve_charge budget kind bytes F = (Ok a, F') → ∃ n, bytes = Ok n.
Proof. unfold reserve_charge. intros Hr. ok_inv. by eexists. Qed.
Lemma build_candidate_ok self envelope hash committed F c F' :
  build_cursor_candidate self envelope hash committed F = (Ok c, F') →
  ∃ n lane F1 F2, candidate_checks self envelope = Ok n ∧ lane ≠ BudgetLane.Committed ∧
    prepare_in (ses_cursors self) (ci_command (en_input envelope)) (stream_published self) lane F1 =
      (Ok (ca_prepared c), F2) ∧
    cr_floor (ca_receipt c) = N.max (en_replay_floor envelope) (pu_floor (ca_prepared c)).
Proof.
  unfold build_cursor_candidate. destruct (reserve_charge _ _ _ _) as [[scratch|e] F0] eqn:Hr; [|done].
  apply reserve_charge_ok in Hr as [n Hn].
  assert (Hlane : ∃ lane, lane ≠ BudgetLane.Committed ∧
    (if committed then prepare_committed (ses_cursors self) (ci_command (en_input envelope)) (stream_published self)
     else Registry.prepare (ses_cursors self) (ci_command (en_input envelope)) (stream_published self)) =
    prepare_in (ses_cursors self) (ci_command (en_input envelope)) (stream_published self) lane).
  { destruct committed; [by exists BudgetLane.Completion|]. unfold Registry.prepare. eexists. split; [|done].
    by destruct (cm_operation _). }
  destruct Hlane as (lane & Hlane & ->).
  destruct (prepare_in _ _ _ _ F0) as [[prepared|e] F1] eqn:Hp; [|done].
  destruct (charge_candidate self hash envelope prepared F1) as [r F2] eqn:Hc. intros Heq. apply pair_eq in Heq as [-> _].
  unfold charge_candidate in Hc. destruct (reserve_charge _ _ _ F1) as [[entry|e] F3]; [|done].
  destruct (reserve_charge _ _ _ F3) as [[result|e] F4]; [|done]. simplify_eq.
  by exists n, lane, F0, F1.
Qed.
Lemma retire_owners_frame retired self F r self' F' :
  retire_owners retired (self, F) = (r, (self', F')) → ∃ meta charge, self' = with_meta meta charge self.
Proof.
  revert self F. induction retired as [|consumer retired IH]; intros self F; simpl.
  { intros. simplify_eq. exists (ses_cursor_meta self'), (ses_cursor_charge self'). by destruct self'. }
  destruct (cursor_owner self consumer) as [principal|]; [|apply IH].
  match goal with |- match ?x with _ => _ end = _ → _ => destruct x as [[charge|e] F1] end.
  - intros (meta & charge' & ->)%IH. by exists meta, charge'.
  - intros. simplify_eq. by eexists _, _.
Qed.
Lemma publish_candidate_ok index c self F receipt result self' F' :
  StronglySorted by_sequence (ses_deltas self) → ses_delta_bytes self = ring_bytes (ses_deltas self) →
  publish_candidate index c (self, F) = (Ok (receipt, result), (self', F')) →
  let floor := N.max (ses_delta_floor self) (cr_floor (ca_receipt c)) in
  ∃ retired cursors F1 meta charge,
    Registry.publish (ca_prepared c) (ses_cursors self, F) = (Ok retired, (cursors, F1)) ∧
    self' = with_ring (filter (above floor) (ses_deltas self))
      (ring_bytes (filter (above floor) (ses_deltas self))) floor
      (with_meta meta charge (with_cursors cursors self)).
Proof.
  intros Hs Hb Hp floor. unfold publish_candidate in Hp.
  destruct (Registry.publish _ _) as [[retired|e] [cursors F1]] eqn:Hpub; [|done].
  destruct (retire_owners _ _) as [[[]|e] [self1 F2]] eqn:Hown; [|done].
  apply retire_owners_frame in Hown as (meta & charge & ->).
  destruct (absorb _ _ _) as [[[charge' entry]|e] F3]; [|done].
  match type of Hp with context [retire_deltas ?t (?s, ?f)] =>
    destruct (retire_deltas_ok t s f Hs Hb) as [F4 Hret] end.
  rewrite Hret in Hp. simplify_eq. by eexists _, _, _, _, _.
Qed.

(** ** The invariant *)
Record retention_inv self (H : list D) : Prop := {
  ki_legacy : ses_activation self = ActivationV1;
  ki_history : history_ok (ses_ledger self) H;
  ki_ring : rd_delta <$> ses_deltas self = filter (λ d, ses_delta_floor self < d_sequence (sd_id d)) H;
  ki_published : ∀ d, d ∈ H → d_sequence (sd_id d) <= legacy_prefix self;
  ki_bytes : ses_delta_bytes self = ring_bytes (ses_deltas self);
  ki_width : legacy_prefix self <= u64_max;
  ki_floor : ses_delta_floor self <= legacy_prefix self;
  ki_items_limit : N.of_nat (length (ses_deltas self)) <= sl_delta_items (ses_limits self);
  ki_bytes_limit : ses_delta_bytes self <= sl_delta_bytes (ses_limits self);
  ki_registry : registry_inv (ses_cursors self) (legacy_prefix self);
  ki_ledger : cp_ledger (registry_checkpoint (ses_cursors self)) = ses_ledger self;
  ki_pinned : pinned (ses_delta_floor self) (registry_checkpoint (ses_cursors self))
}.
Lemma fmap_filter {A B} (f : A → B) (P : B → Prop) `{∀ x, Decision (P x)} (l : list A) :
  f <$> filter (λ x, P (f x)) l = filter P (f <$> l).
Proof.
  induction l as [|x l IH]; [done|]. rewrite fmap_cons, !filter_cons. case_decide; [|done]. by rewrite fmap_cons, IH.
Qed.
Lemma sorted_fmap {A B} (f : A → B) (R : B → B → Prop) (l : list A) :
  StronglySorted R (f <$> l) → StronglySorted (λ a b, R (f a) (f b)) l.
Proof.
  induction l as [|x l IH]; intros Hs; [constructor|]. rewrite fmap_cons in Hs.
  apply StronglySorted_cons in Hs as [Hx Hs]. constructor; [by apply IH|]. rewrite Forall_fmap in Hx. exact Hx.
Qed.
Lemma ring_sorted self H : retention_inv self H → StronglySorted by_sequence (ses_deltas self).
Proof.
  intros Hi. apply (sorted_fmap rd_delta (λ a b, d_sequence (sd_id a) <= d_sequence (sd_id b))).
  rewrite (ki_ring _ _ Hi). eapply filter_sorted, history_sequences, ki_history, Hi.
Qed.
Lemma legacy_published self : ses_activation self = ActivationV1 → stream_published self = legacy_prefix self.
Proof. intros Ha. apply published_legacy. unfold native_stream_core. by rewrite Ha. Qed.
(** The session streams the history it is invariant for. *)
Lemma retention_history self H journal : retention_inv self H → stream_history self journal H.
Proof.
  intros Hi. pose proof (legacy_published _ (ki_legacy _ _ Hi)) as Hpub. split.
  - apply Hi.
  - rewrite (ki_ring _ _ Hi). apply filter_agree. intros d Hd%(ki_published _ _ Hi). lia.
  - rewrite Hpub. apply Hi.
  - rewrite Hpub, N.sub_diag. apply filter_none. intros d Hd%(ki_published _ _ Hi). lia.
  - unfold native_stream_core. by rewrite (ki_legacy _ _ Hi).
  - rewrite Hpub. apply Hi.
Qed.
Lemma ring_bytes_filter (P : RetainedDelta D → Prop) `{∀ x, Decision (P x)} l : ring_bytes (filter P l) <= ring_bytes l.
Proof. induction l as [|d l IH]; [done|]. rewrite filter_cons. case_decide; simpl; lia. Qed.
Lemma retired_ring self H floor :
  retention_inv self H → ses_delta_floor self <= floor →
  rd_delta <$> filter (above floor) (ses_deltas self) = filter (λ d, floor < d_sequence (sd_id d)) H.
Proof.
  intros Hi Hf. etrans;
    [exact (fmap_filter (rd_delta (D := D)) (λ d : D, floor < d_sequence (sd_id d)) (ses_deltas self))|]. rewrite (ki_ring _ _ Hi).
  apply list_filter_filter_l. intros d ?. lia.
Qed.
Lemma published_checkpoint prepared reg F retired reg' F' :
  Registry.publish prepared (reg, F) = (Ok retired, (reg', F')) →
  registry_checkpoint reg' = publish_checkpoint prepared (registry_checkpoint reg).
Proof.
  unfold Registry.publish. destruct (stale reg prepared); [done|].
  destruct (absorb_row _ _ _) as [[[root rest]|] F1] eqn:Habs; [|done].
  destruct (return_bytes _ _ _) as [[root'|] F2] eqn:Hret; [|done]. intros. simplify_eq.
  unfold registry_checkpoint. simpl. f_equal. unfold absorb_row in Habs. unfold return_bytes in Hret. ok_inv.
  destruct (pu_lane prepared); ok_inv; match goal with x : Allocation * Allocation |- _ => destruct x end; by ok_inv.
Qed.
Lemma pinned_max a b state : pinned a state → pinned b state → pinned (N.max a b) state.
Proof. intros Ha Hb id row Hrow Hret. specialize (Ha id row Hrow Hret). specialize (Hb id row Hrow Hret). lia. Qed.
Lemma pinned_floor state published config : checkpoint_valid state published config → pinned (cp_floor state) state.
Proof.
  intros Hv id row Hrow Hret. pose proof (cv_rows _ _ _ Hv id row Hrow) as Hr.
  apply retains_spec in Hret as [Hm|[Hc Hm]]; apply (rv_retained _ _ _ _ _ _ _ _ _ Hr); auto. by rewrite Hm.
Qed.
(** Where a new row of a checked command starts, the session still replays. *)
Lemma checked_start self envelope n start :
  candidate_checks self envelope = Ok n →
  start_of (ses_ledger self) (cm_operation (ci_command (en_input envelope))) = Some start →
  ses_delta_floor self <= retention_prefix start.
Proof.
  unfold candidate_checks. intros Hc Hs. repeat (apply try_bind_ok in Hc as (? & ? & Hc)).
  match goal with H : check_position self envelope = Ok _ |- _ => rename H into Hp end.
  assert (Hv : validate_replay_position self start = Ok ()).
  { unfold check_position in Hp. destruct (cm_operation _); simplify_eq/=; ok_inv;
      repeat match goal with x : () |- _ => destruct x end; done. }
  unfold validate_replay_position in Hv. apply try_bind_ok in Hv as (? & _ & Hv). rewrite refuse_then_ok in Hv.
  destruct Hv as [Hf _]. simpl in Hf. lia.
Qed.

(** ** Cursor entries *)
Lemma envelope_floor self envelope n :
  candidate_checks self envelope = Ok n → en_replay_floor envelope <= legacy_prefix self.
Proof.
  unfold candidate_checks. intros Hc. apply try_bind_ok in Hc as (? & Hc & _). unfold check_envelope in Hc.
  rewrite refuse_if_ok in Hc. unfold legacy_prefix. lia.
Qed.
Lemma publish_candidate_inv self H envelope hash committed F0 c F1 index F2 receipt result self' F3 pending :
  retention_inv self H → en_replay_floor envelope <= rb_floor (stream_bounds self) →
  build_cursor_candidate self envelope hash committed F0 = (Ok c, F1) →
  publish_candidate index c (with_pending_cursor pending self, F2) = (Ok (receipt, result), (self', F3)) →
  retention_inv self' H ∧ rb_floor (stream_bounds self) <= rb_floor (stream_bounds self') ∧
  ses_pending_cursor self' = pending.
Proof.
  intros Hi Hfl (n & lane & Fp & Fp' & Hchk & Hlane & Hprep & Hcr)%build_candidate_ok Hpub.
  rewrite (legacy_published _ (ki_legacy _ _ Hi)) in Hprep.
  apply publish_candidate_ok in Hpub as (retired & cursors & F4 & meta & charge & Hreg & ->);
    [|by apply (ring_sorted _ _ Hi)|apply Hi].
  change (ses_cursors (with_pending_cursor pending self)) with (ses_cursors self) in Hreg. set (floor := N.max _ _).
  assert (Hstep : registry_step (legacy_prefix self) (ses_cursors self) cursors)
    by (by exists (ci_command (en_input envelope)), lane, Fp, (ca_prepared c), Fp', F2, retired, F4).
  destruct (registry_step_inv _ _ _ _ (ki_registry _ _ Hi) ltac:(done) Hstep) as (Hinv & _ & _).
  pose proof (registry_step_rows _ _ _ Hstep) as Hrows.
  pose proof (published_checkpoint _ _ _ _ _ _ Hreg) as Hcp.
  assert (Hpin : pinned (N.max (ses_delta_floor self) (cp_floor (registry_checkpoint cursors))) (registry_checkpoint cursors)).
  { apply pinned_max; [|by eapply pinned_floor, ri_checkpoint]. rewrite Hcp. eapply publish_pinned; [done|apply Hi|].
    rewrite (ki_ledger _ _ Hi). intros start Hs. by eapply checked_start. }
  assert (Hfloor : floor = N.max (ses_delta_floor self) (cp_floor (registry_checkpoint cursors))).
  { unfold floor. simpl. rewrite Hcr. simpl in Hfl |- *. pose proof (rs_floor _ _ Hrows).
    assert (pu_floor (ca_prepared c) = cp_floor (registry_checkpoint cursors)) as -> by by rewrite Hcp. lia. }
  split; [|split; [|done]]; [|simpl; pose proof (rs_floor _ _ Hrows); lia].
  split; simpl; try apply Hi.
  - apply (retired_ring _ _ _ Hi). simpl. lia.
  - done.
  - rewrite Hfloor. pose proof (ki_floor _ _ Hi). pose proof (cv_floor _ _ _ (ri_checkpoint _ _ Hinv)).
    fold (legacy_prefix self). unfold legacy_prefix in *. simpl. lia.
  - pose proof (ki_items_limit _ _ Hi). pose proof (length_filter (above floor) (ses_deltas self)). lia.
  - pose proof (ki_bytes_limit _ _ Hi). rewrite (ki_bytes _ _ Hi) in *. etrans; [apply ring_bytes_filter|done].
  - done.
  - by rewrite (rs_ledger _ _ Hrows), (ki_ledger _ _ Hi).
  - by rewrite Hfloor.
Qed.
(** The candidate was built at this state, from the envelope a proposal writes
    here. *)
Definition built_here self (c : CursorCandidate) : Prop :=
  ∃ input control hash F F', build_cursor_candidate self (cursor_envelope self input control) hash false F = (Ok c, F').
(** What a session knows of the proposals: the envelopes written so far name
    floors it has reached, and its own pending candidate is of this state. *)
Record proposals_inv self (sent : list CursorEnvelope) : Prop := {
  pi_floor : ∀ envelope, envelope ∈ sent → en_replay_floor envelope <= rb_floor (stream_bounds self);
  pi_pending : ∀ c, ses_pending_cursor self = Some c → built_here self c
}.
Lemma proposals_later self self' sent :
  proposals_inv self sent → rb_floor (stream_bounds self) <= rb_floor (stream_bounds self') →
  ses_pending_cursor self' = None → proposals_inv self' sent.
Proof.
  intros [Hfl _] Hle Hp. split; [|by rewrite Hp]. intros envelope He. by etrans; [apply Hfl|].
Qed.
Lemma rebuild_built self digest len entry F c F' :
  (∀ envelope, entry = Ok (CursorEntryV2 envelope) → en_replay_floor envelope <= rb_floor (stream_bounds self)) →
  rebuild_candidate (with_pending_cursor None self) digest len entry F = (Ok c, F') →
  ∃ envelope F2 F3, en_replay_floor envelope <= rb_floor (stream_bounds self) ∧
    build_cursor_candidate self envelope digest true F2 = (Ok c, F3).
Proof.
  intros Hfl Hrb. unfold rebuild_candidate in Hrb. destruct (reserve_charge _ _ _ _) as [[decode|e] F4]; [|done].
  match type of Hrb with context [let '(r, F) := ?x in _] => destruct x as [r F5] eqn:Hm end. simplify_eq. ok_inv.
  match goal with H : entry_envelope _ ?x = Ok ?env |- _ => destruct x as [v|old]; rename env into envelope end;
    simpl in *; ok_inv; eexists _, _, _;
    (split; [|match goal with H : build_cursor_candidate _ _ _ _ _ = _ |- _ => exact H end]); [by apply Hfl|done].
Qed.
Lemma apply_cursor_inv self H sent digest len entry index F receipt result self' F' :
  retention_inv self H → proposals_inv self sent →
  (∀ envelope, entry = Ok (CursorEntryV2 envelope) → envelope ∈ sent) →
  apply_cursor_entry digest len entry index (self, F) = (Ok (receipt, result), (self', F')) →
  retention_inv self' H ∧ proposals_inv self' sent.
Proof.
  intros Hi Hprop Hsent Ha. unfold apply_cursor_entry in Ha.
  apply fallible_bind_ok in Ha as (c & [self1 F1] & Hc & Ha).
  assert (Hbuilt : ∃ envelope hash committed F2 F3, self1 = with_pending_cursor None self ∧
    en_replay_floor envelope <= rb_floor (stream_bounds self) ∧
    build_cursor_candidate self envelope hash committed F2 = (Ok c, F3)).
  { assert (Hrebuild : ∀ F2 r F3, rebuild_candidate (with_pending_cursor None self) digest len entry F2 = (r, F3) →
      (r, (with_pending_cursor None self, F3)) = (Ok c, (self1, F1)) →
      ∃ envelope hash committed F2 F3, self1 = with_pending_cursor None self ∧
        en_replay_floor envelope <= rb_floor (stream_bounds self) ∧
        build_cursor_candidate self envelope hash committed F2 = (Ok c, F3)).
    { intros F2 r F3 Hrb ?. simplify_eq. apply rebuild_built in Hrb as (envelope & F4 & F5 & ? & ?);
        [by eexists _, _, _, _, _|]. intros envelope He. by apply (pi_floor _ _ Hprop), Hsent. }
    unfold committed_candidate in Hc. destruct (ses_pending_cursor self) as [p|] eqn:Hp; [case_decide as Hh|].
    - simplify_eq. destruct (pi_pending _ _ Hprop _ Hp) as (input & control & hash & F2 & F3 & Hb).
      by exists (cursor_envelope self input control), hash, false, F2, F3.
    - destruct (rebuild_candidate _ _ _ _ _) as [r F3] eqn:Hrb. by eapply Hrebuild.
    - destruct (rebuild_candidate _ _ _ _ _) as [r F3] eqn:Hrb. by eapply Hrebuild. }
  destruct Hbuilt as (envelope & hash & committed & F2 & F3 & -> & Hf & Hb).
  destruct (publish_candidate_inv _ _ _ _ _ _ _ _ _ _ _ _ _ _ _ Hi Hf Hb Ha) as (Hi' & Hle & Hnone).
  split; [done|]. by eapply proposals_later.
Qed.

(** ** Published epochs *)
(** The candidates of an epoch, each forecast behind the ones before it, for
    sequences up to [last]. *)
Inductive forecast_chain self (last : SessionSeq) : list (Candidate D) → Prop :=
  | chain_nil : forecast_chain self last []
  | chain_snoc prior result next published retire :
      forecast_chain self last prior → published <= last →
      retention_forecast_from self next published prior = Ok retire →
      forecast_chain self last (prior ++ [{| cn_deltas := result; cn_retained := next; cn_retire_through := retire |}]).
Lemma forecast_chain_pinned self H last candidates c :
  retention_inv self H → legacy_prefix self <= last → forecast_chain self last candidates →
  list.last candidates = Some c →
  pinned (cn_retire_through c) (registry_checkpoint (ses_cursors self)) ∧ cn_retire_through c <= last.
Proof.
  intros Hi Hle Hchain. revert c. induction Hchain as [|prior result next published retire Hchain IH Hpub Hf]; intros c Hc; [done|].
  rewrite last_snoc in Hc. simplify_eq. simpl. apply retention_forecast_le in Hf as [->|Hr].
  - unfold current_floor. destruct (list.last prior) as [c|]; [by apply IH|].
    split; [apply Hi|]. pose proof (ki_floor _ _ Hi). lia.
  - split.
    + intros id row Hrow Hret. etrans; [exact Hr|]. by eapply retention_limit_le.
    + pose proof (retention_limit_published (registry_checkpoint (ses_cursors self))
        (cp_clock (registry_checkpoint (ses_cursors self))) published). lia.
Qed.
Lemma kept_fold (kept : list (RetainedDelta D)) items bytes r :
  try_fold (λ '(items, bytes) d,
    size ← map_err (λ _, LedgerError.Encoding) (sd_wire (rd_delta d));
    refuse_if (rd_bytes d ≠ size) LedgerError.Corrupt;;
    bytes ← or_fail (checked_add bytes (rd_bytes d)) LedgerError.Capacity;
    items ← or_fail (checked_add items 1) LedgerError.Capacity;
    mret (items, bytes)) (items, bytes) kept = Ok r →
  r = (items + N.of_nat (length kept), bytes + ring_bytes kept).
Proof.
  revert items bytes. induction kept as [|d kept IH]; intros items bytes Hf.
  { simpl in Hf. ok_inv. simpl. by rewrite !N.add_0_r. }
  cbn [try_fold] in Hf. apply try_bind_ok in Hf as ([items' bytes'] & Hd & Hf). ok_inv.
  repeat match goal with H : checked_add _ _ = Some _ |- _ => apply checked_add_Some in H as [-> ?] end.
  apply IH in Hf as ->. simpl. f_equal; lia.
Qed.
Lemma validate_epoch_ok self candidates floor bytes items :
  validate_epoch_deltas self candidates = Ok (floor, bytes, items) →
  let kept := filter (above floor) (ses_deltas self ++ concat (cn_retained <$> candidates)) in
  (∃ c, list.last candidates = Some c ∧ floor = N.max (ses_delta_floor self) (cn_retire_through c)) ∧
  bytes = ring_bytes kept ∧ items = N.of_nat (length kept) ∧
  bytes <= sl_delta_bytes (ses_limits self) ∧ items <= sl_delta_items (ses_limits self).
Proof.
  unfold validate_epoch_deltas. intros Hv. apply try_bind_ok in Hv as (current & _ & Hv).
  rewrite !refuse_then_ok in Hv. destruct Hv as (_ & _ & Hv). apply try_bind_ok in Hv as (c & Hc & Hv). apply or_fail_ok in Hc.
  apply try_bind_ok in Hv as ([items' bytes'] & Hk & Hv). apply kept_fold in Hk. simplify_eq.
  rewrite refuse_then_ok in Hv. destruct Hv as [Hlim Hv]. ok_inv. split; [by exists c|]. simpl. split_and!; [done..|lia|lia].
Qed.
Lemma push_deltas_ok floor new deltas F :
  (push_deltas floor new deltas F).1 = deltas ++ filter (above floor) new.
Proof.
  unfold push_deltas. revert deltas F. induction new as [|d new IH]; intros deltas F; simpl; [by rewrite app_nil_r|].
  rewrite filter_cons. case_decide; rewrite IH; [by rewrite <-app_assoc|done].
Qed.
(** The deltas of an epoch extend the history past the published prefix. *)
Record epoch_of self (H : list D) (core : Core) (candidates : list (Candidate D)) (H' : list D) : Prop := {
  ep_history : H' = H ++ (rd_delta <$> concat (cn_retained <$> candidates));
  ep_ok : history_ok (ses_ledger self) H';
  ep_new : ∀ d, d ∈ rd_delta <$> concat (cn_retained <$> candidates) →
    legacy_prefix self < d_sequence (sd_id d) <= sequence_of core;
  ep_forward : legacy_prefix self <= sequence_of core <= u64_max;
  ep_forecast : forecast_chain self (sequence_of core) candidates
}.
Lemma publish_deltas_inv self H core candidates H' F self' F' :
  retention_inv self H → epoch_of self H core candidates H' →
  publish_deltas core candidates (self, F) = (Ok (), (self', F')) →
  retention_inv self' H' ∧ rb_floor (stream_bounds self) <= rb_floor (stream_bounds self') ∧
  ses_pending_cursor self' = ses_pending_cursor self.
Proof.
  intros Hi Hep Hp. unfold publish_deltas in Hp.
  destruct (validate_epoch_deltas self candidates) as [[[floor bytes] items]|e] eqn:Hv; [|done].
  apply validate_epoch_ok in Hv as ((c & Hlast & Hfloor) & Hbytes & Hitems & Hbl & Hil).
  destruct (retire_deltas_ok floor (with_core core self) F (ring_sorted _ _ Hi) (ki_bytes _ _ Hi)) as [F1 Hret].
  rewrite Hret in Hp. simpl in Hp. replace (N.max (ses_delta_floor self) floor) with floor in * by lia.
  destruct (push_deltas _ _ _ _) as [ring F2] eqn:Hpush. apply (f_equal fst) in Hpush.
  rewrite push_deltas_ok in Hpush. simpl in Hpush. rewrite <-filter_app in Hpush.
  case_decide as Hlen; [done|]. simplify_eq.
  destruct (forecast_chain_pinned self H (sequence_of core) candidates c) as [Hpin Hcl];
    [done|apply Hep|apply Hep|done|].
  destruct Hep as [-> Hok Hnew Hfw Hchain]. split; [|simpl; split; [lia|done]].
  split; simpl; try apply Hi; try done.
  - etrans; [exact (fmap_filter (rd_delta (D := D)) (λ d : D, _ < d_sequence (sd_id d)) _)|].
    rewrite fmap_app, !filter_app. f_equal. rewrite (ki_ring _ _ Hi). apply list_filter_filter_l. intros d ?. lia.
  - intros d [Hd|Hd]%elem_of_app; [|by apply Hnew]. unfold legacy_prefix. simpl.
    pose proof (ki_published _ _ Hi d Hd). lia.
  - unfold legacy_prefix. simpl. lia.
  - unfold legacy_prefix. simpl. pose proof (ki_floor _ _ Hi). lia.
  - eapply registry_inv_mono; [apply Hi|]. unfold legacy_prefix at 2. simpl. lia.
  - apply pinned_max; [apply Hi|done].
Qed.

(** ** Runs *)
(** [retention_run H sent self]: a session opened on a new ledger, that
    published [H] and applied cursor entries in any order. [sent] are the
    envelopes written so far. A proposal of this session writes one at its
    state and keeps the candidate it built, when it has none; another replica
    writes the same one when it is where this session is in the log. A change
    of authority drops the candidate. A committed entry of the current version
    holds an envelope written before; its bytes may hash to the pending
    candidate's or not. An epoch drops the candidate before it publishes. *)
Inductive retention_run : list D → list CursorEnvelope → Session → Prop :=
  | ret_opened self owner config budget F F' :
      ses_activation self = ActivationV1 → legacy_prefix self = 0 → ses_deltas self = [] →
      ses_delta_bytes self = 0 → ses_delta_floor self = 0 → ses_pending_cursor self = None →
      registry_new owner (ses_ledger self) config budget F = (Ok (ses_cursors self), F') →
      retention_run [] [] self
  | ret_proposed H sent self input control hash F c F' :
      retention_run H sent self → ses_pending_cursor self = None →
      build_cursor_candidate self (cursor_envelope self input control) hash false F = (Ok c, F') →
      retention_run H (cursor_envelope self input control :: sent) (with_pending_cursor (Some c) self)
  | ret_elsewhere H sent self input control :
      retention_run H sent self → retention_run H (cursor_envelope self input control :: sent) self
  | ret_authority H sent self :
      retention_run H sent self → retention_run H sent (with_pending_cursor None self)
  | ret_cursor H sent self digest len entry index F receipt result self' F' :
      retention_run H sent self → (∀ envelope, entry = Ok (CursorEntryV2 envelope) → envelope ∈ sent) →
      apply_cursor_entry digest len entry index (self, F) = (Ok (receipt, result), (self', F')) →
      retention_run H sent self'
  | ret_epoch H sent self core candidates H' F self' F' :
      let cleared := with_pending_cursor None self in
      retention_run H sent self → epoch_of cleared H core candidates H' →
      publish_deltas core candidates (cleared, F) = (Ok (), (self', F')) → retention_run H' sent self'.
Lemma retention_pending self H pending : retention_inv self H → retention_inv (with_pending_cursor pending self) H.
Proof. intros Hi. by destruct Hi; split. Qed.
Lemma proposals_sent self sent input control :
  proposals_inv self sent → proposals_inv self (cursor_envelope self input control :: sent).
Proof. intros [Hfl Hp]. split; [|done]. intros envelope [->|He]%elem_of_cons; [done|by apply Hfl]. Qed.
Lemma opened_inv self owner config budget F F' :
  ses_activation self = ActivationV1 → legacy_prefix self = 0 → ses_deltas self = [] →
  ses_delta_bytes self = 0 → ses_delta_floor self = 0 →
  registry_new owner (ses_ledger self) config budget F = (Ok (ses_cursors self), F') → retention_inv self [].
Proof.
  intros Ha Hl Hd Hb Hf Hr. pose proof (restore_inv _ _ _ _ _ _ _ _ Hr) as Hinv.
    assert (Hcp : registry_checkpoint (ses_cursors self) = empty_checkpoint (ses_ledger self)).
    { unfold registry_new, restore, restore_charged in Hr. ok_inv.
      destruct (reserve _ _ BudgetLane.Ordinary _ _) as [[ordinary|] F1]; [|done]. destruct owner; [|done].
      apply pair_eq in Hr as [Hr _]. injection Hr as <-. done. }
    split; rewrite ?Hd, ?Hb, ?Hf, ?Hl, ?Hcp; try done; try lia.
    + split; [constructor|..]; intros d Hd'; by apply elem_of_nil in Hd'.
    + intros d Hd'. by apply elem_of_nil in Hd'.
    + simpl. lia.
Qed.
Lemma retention_run_invs H sent self : retention_run H sent self → retention_inv self H ∧ proposals_inv self sent.
Proof.
  induction 1 as [self owner config budget F F' Ha Hl Hd Hb Hf Hp Hr|H sent self input control hash F c F' Hrun [Hi Hs] Hp Hb
    |H sent self input control Hrun [Hi Hs]|H sent self Hrun [Hi Hs]
    |H sent self digest len entry index F receipt result self' F' Hrun [Hi Hs] He Ha
    |H sent self core candidates H' F self' F' cleared Hrun [Hi Hs] Hep Hp].
  - split; [by eapply opened_inv|]. split; [by intros ? ?%elem_of_nil|by rewrite Hp].
  - split; [by apply retention_pending|]. split; [by apply (proposals_sent _ _ input control) in Hs as []|].
    intros c' [= <-]. by exists input, control, hash, F, F'.
  - split; [done|by apply proposals_sent].
  - split; [by apply retention_pending|]. by eapply proposals_later.
  - by eapply apply_cursor_inv.
  - apply (retention_pending _ _ None) in Hi.
    destruct (publish_deltas_inv _ _ core candidates H' _ _ _ Hi Hep Hp) as (Hi' & Hle & Hnone).
    split; [done|]. eapply proposals_later; [exact Hs|exact Hle|by rewrite Hnone].
Qed.
Lemma retention_run_inv H sent self : retention_run H sent self → retention_inv self H.
Proof. apply retention_run_invs. Qed.

(** ** The forecast of a reachable session *)
Lemma count_deltas_ok l items bytes :
  items + N.of_nat (length l) <= u64_max → bytes + ring_bytes l <= u64_max →
  try_fold (λ '(items, bytes) d,
    items ← or_fail (checked_add items 1) LedgerError.Capacity;
    bytes ← or_fail (checked_add bytes (rd_bytes d)) LedgerError.Capacity;
    mret (items, bytes)) (items, bytes) l = Ok (items + N.of_nat (length l), bytes + ring_bytes l).
Proof.
  revert items bytes. induction l as [|d l IH]; intros items bytes Hi Hb; cbn [try_fold].
  { by rewrite !N.add_0_r. }
  change (ring_bytes (d :: l)) with (rd_bytes d + ring_bytes l) in *. cbn [length] in *.
  rewrite (proj2 (checked_add_Some items 1 (items + 1))) by (split; [done|lia]).
  cbn [or_fail mbind try_bind].
  rewrite (proj2 (checked_add_Some bytes (rd_bytes d) (bytes + rd_bytes d))) by (split; [done|lia]).
  cbn [or_fail mbind try_bind mret try_ret]. rewrite IH by lia. do 2 f_equal; lia.
Qed.
Lemma forecast_total self H next published :
  retention_inv self H → StronglySorted by_sequence (ses_deltas self ++ next) →
  (∀ d, d ∈ next → ses_delta_floor self < d_sequence (sd_id (rd_delta d))) →
  N.of_nat (length (ses_deltas self ++ next)) <= u64_max → ring_bytes (ses_deltas self ++ next) <= u64_max →
  let checkpoint := registry_checkpoint (ses_cursors self) in
  let allowed := retention_limit checkpoint (cp_clock checkpoint) published in
  match retention_forecast_from self next published [] with
  | Ok floor => ses_delta_floor self <= floor ∧ (floor = ses_delta_floor self ∨ floor <= allowed) ∧
      N.of_nat (length (filter (above floor) (ses_deltas self ++ next))) <= sl_delta_items (ses_limits self) ∧
      ring_bytes (filter (above floor) (ses_deltas self ++ next)) <= sl_delta_bytes (ses_limits self)
  | Err e => e = LedgerError.Stream (StreamError.RetentionPinned allowed)
  end.
Proof.
  intros Hi Hs Hnew Hlen Hbytes checkpoint allowed.
  assert (Habove : ∀ d, d ∈ ses_deltas self ++ next → ses_delta_floor self < d_sequence (sd_id (rd_delta d))).
  { intros d [Hd|Hd]%elem_of_app; [|by apply Hnew]. apply (list_elem_of_fmap_2 rd_delta) in Hd.
    rewrite (ki_ring _ _ Hi) in Hd. by apply list_elem_of_filter in Hd as [? _]. }
  assert (Hall : forecast_deltas self [] next = ses_deltas self ++ next) by by apply filter_every.
  assert (Hf : retention_forecast_from self next published [] =
    forecast_floor (length (ses_deltas self ++ next)) self allowed (ses_delta_floor self) (ses_deltas self ++ next)
      (N.of_nat (length (ses_deltas self ++ next))) (ring_bytes (ses_deltas self ++ next))).
  { unfold retention_forecast_from, count_deltas. rewrite Hall, count_deltas_ok by done. done. }
  pose proof (forecast_floor_total (length (ses_deltas self ++ next)) self allowed (ses_delta_floor self)
    (ses_deltas self ++ next) Hs Habove ltac:(done)) as Ht.
  rewrite <-Hf in Ht. destruct (retention_forecast_from self next published []) as [floor|e] eqn:He; [|done].
  apply retention_forecast_le in He. destruct Ht as (? & ? & ?). by split_and!.
Qed.
End retention.
