(* ===== verification/StreamScenario.v ===== *)
(** * A stream to evaluate

    Concrete sizes and a small memory budget, a session with three retained
    deltas, a registry with a registered consumer, and a connection that
    replays the session. The definitions of the stream run on them, and the
    hypotheses of its theorems hold there. *)
From stdpp Require Import prelude gmap strings list sorting.
From Stdlib Require Import NArith.
From S2P Require Import Prelude Vocabulary Objects Store Reducer Core Scenario Fallible Budget Stream.
From S2P Require Import Stream Registry RegistryLaws RegistryRuns History Subscription SubscriptionLaws.
From S2P Require Import SubscriptionLaws CursorSession SessionSource SessionCursors RetentionLaws.
#[local] Open Scope N_scope.

#[export] Instance demo_layout : Layout := {|
  size_of_Level := 256; size_of_Root := 128; size_of_CursorRow := 160; size_of_Subscription := 512;
  size_of_Delivery := 96; size_of_Allocation := 32 |}.
#[export] Instance receipt_eq_dec : EqDecision Receipt.
Proof. solve_decision. Defined.
#[export] Instance delta_id_eq_dec : EqDecision DeltaId.
Proof. solve_decision. Defined.
#[export] Instance delta_fact_eq_dec : EqDecision DeltaFact.
Proof. solve_decision. Defined.
#[export] Instance delta_eq_dec : EqDecision Delta.
Proof. solve_decision. Defined.
#[export] Instance demo_streamed : StreamedDelta Delta := {|
  sd_id := de_id; sd_schema := de_schema; sd_claim := de_claim; sd_native d := bool_decide (de_schema d = 2);
  sd_heap _ := Ok 64; sd_wire _ := Ok 40 |}.
#[export] Instance demo_wire : WireSizes Delta := {| token_wire _ := Ok 50; event_wire _ := Ok 60 |}.
(** A native event of the demo is its ordinal. *)
#[export] Program Instance demo_native : NativeDelta N Delta := {|
  native_delta ledger sequence ordinal := {| de_schema := 2;
    de_id := {| d_ledger := ledger; d_sequence := sequence; d_ordinal := ordinal |};
    de_action := LifecycleAction.Posted; de_actor := alice; de_claim := Some 10;
    de_fact := DeltaFact.Progress "native" |};
  event_ordinal ordinal := ordinal |}.
Next Obligation. done. Qed.

(** ** The session *)
Definition demo_delta (sequence ordinal : N) : Delta := {| de_schema := 1;
  de_id := {| d_ledger := demo_ledger; d_sequence := sequence; d_ordinal := ordinal |};
  de_action := LifecycleAction.Posted; de_actor := alice; de_claim := Some 10;
  de_fact := DeltaFact.Progress "legacy" |}.
Definition demo_history : list Delta := [demo_delta 1 0; demo_delta 1 1; demo_delta 2 0].
Definition demo_journal (native : SessionSeq) : list N :=
  if decide (native = 2) then [0; 1] else if decide (native = 3) then [0] else [].
Definition native_history : list Delta := demo_history ++
  [native_delta demo_ledger 3 0; native_delta demo_ledger 3 1; native_delta demo_ledger 4 0].
Definition demo_engine : NativeCore N := {| native_sequence := 3;
  native_event s o := demo_journal s !! N.to_nat o |}.

Definition demo_levels : Levels := (budget_new 1000000 100000 levels_new).2.
Definition demo_budget : MemoryBudget := 0.
Definition empty_permit (lane : BudgetLane) : Allocation := {| al_level := demo_budget; al_bytes := 0;
  al_kind := BudgetKind.ReadPins; al_lane := lane |}.
Definition no_registry : CursorRegistry := {| rg_root := {| rt_checkpoint := empty_checkpoint demo_ledger;
    rt_ordinary := empty_permit BudgetLane.Ordinary; rt_completion := empty_permit BudgetLane.Completion |};
  rg_owner := 0; rg_budget := demo_budget; rg_config := registry_config_default |}.
Definition ok_value {A E} (d : A) (r : Try E A) : A := match r with Ok a => a | Err _ => d end.
Definition demo_registry : CursorRegistry :=
  ok_value no_registry (registry_new (Ok 1) demo_ledger registry_config_default demo_budget demo_levels).1.
Definition demo_register : CursorCommand := {| cm_expected_revision := 0; cm_now := 5;
  cm_operation := CursorOperation.RegisterProtected 7 11 DeltaFilter.All (origin demo_ledger) |}.
Definition demo_update : PreparedCursorUpdate :=
  ok_value {| pu_owner := 0; pu_base_revision := 0; pu_revision := 0; pu_clock := 0; pu_floor := 0;
    pu_change := RowChange.None; pu_retired := []; pu_leaving := 0; pu_lane := BudgetLane.Completion;
    pu_arriving := empty_permit BudgetLane.Completion |}
    (prepare_committed demo_registry demo_register 2 demo_levels).1.
Definition registered : CursorRegistry := (publish demo_update (demo_registry, demo_levels)).2.1.
Definition no_record : CursorRecord := new_row demo_ledger 0 0 0 (origin demo_ledger) DeltaFilter.All 0 CursorMode.Live.
Definition demo_record : CursorRecord := default no_record (cp_consumers (registry_checkpoint registered) !! 7).

Definition retained (d : Delta) : RetainedDelta Delta := {| rd_bytes := 40; rd_delta := d;
  rd_charge := {| al_level := demo_budget; al_bytes := 64; al_kind := BudgetKind.Payload;
                  al_lane := BudgetLane.Completion |} |}.
Definition legacy_core : Core := {| co_state := {| st_ledger := demo_ledger; st_sequence := 2;
    st_rows := empty_tables |}; co_limits := default_limits |}.
Definition demo_session (activation : LedgerActivation) (floor : SessionSeq) (ring : list Delta) :
    Session Delta N := {|
  ses_ledger := demo_ledger; ses_core := legacy_core; ses_failed := false; ses_activation := activation;
  ses_native := Some (Some demo_engine); ses_deltas := retained <$> ring;
  ses_delta_bytes := 40 * N.of_nat (length ring); ses_delta_floor := floor; ses_cursors := registered;
  ses_cursor_meta := {| me_receipts := ∅; me_owners := ∅ |};
  ses_cursor_charge := empty_permit BudgetLane.Completion; ses_pending_cursor := None;
  ses_placement_charge := None; ses_budget := demo_budget;
  ses_limits := {| sl_delta_items := 4; sl_delta_bytes := 100000; sl_cursor_receipts := 64;
                   sl_core := default_limits |} |}.
Definition legacy_session : Session Delta N := demo_session ActivationV1 0 demo_history.
Definition native_session : Session Delta N := demo_session (ActivationNative Imported) 1 [demo_delta 2 0].
Lemma demo_restored : registry_run [] demo_registry 2.
Proof.
  eapply (run_restored (Ok 1) (empty_checkpoint demo_ledger) 2 registry_config_default demo_budget demo_levels
    demo_registry (registry_new (Ok 1) demo_ledger registry_config_default demo_budget demo_levels).2).
  vm_compute. reflexivity.
Qed.
Ltac each_delta Hd := repeat (apply elem_of_cons in Hd as [->|Hd]; [|]); try by apply elem_of_nil in Hd.
Lemma demo_lt (a b : Delta) : bool_decide (position_lt (position_of a) (position_of b)) = true → delta_lt a b.
Proof. apply bool_decide_eq_true. Qed.
Ltac sorted_deltas :=
  repeat (constructor; [|repeat (constructor; [apply demo_lt; vm_compute; reflexivity|]); constructor]); constructor.
Lemma native_history_ok : history_ok demo_ledger native_history.
Proof.
  split.
  - unfold native_history, demo_history. cbn [app]. sorted_deltas.
  - intros d Hd. each_delta Hd; done.
  - intros d Hd. each_delta Hd; done.
  - intros d Hd. each_delta Hd; done.
  - intros d Hd. each_delta Hd; try done; intros _.
    + exists (demo_delta 1 0). split_and!; [left|done|done].
    + exists (native_delta demo_ledger 3 0). split_and!; [by do 3 right; left|done|done].
Qed.
Lemma native_session_history : stream_history native_session demo_journal native_history.
Proof.
  split.
  - apply native_history_ok.
  - vm_compute. reflexivity.
  - intros d Hd. each_delta Hd; done.
  - vm_compute. reflexivity.
  - intros core [= <-]. split.
    + done.
    + intros s i e. unfold demo_journal. repeat case_decide; [destruct i as [|[|i]]|destruct i as [|i]|]; intros; by simplify_eq/=.
    + intros s. unfold demo_journal. by repeat case_decide.
  - done.
Qed.
Lemma demo_history_ok : history_ok demo_ledger demo_history.
Proof.
  split.
  - unfold demo_history. sorted_deltas.
  - intros d Hd. each_delta Hd; done.
  - intros d Hd. each_delta Hd; done.
  - intros d Hd. each_delta Hd; done.
  - intros d Hd. each_delta Hd; try done; intros _. exists (demo_delta 1 0). split_and!; [left|done|done].
Qed.
Lemma legacy_session_history : stream_history legacy_session demo_journal demo_history.
Proof.
  split; [apply demo_history_ok|vm_compute; reflexivity| |vm_compute; reflexivity|done|done].
  intros d Hd. each_delta Hd; done.
Qed.

(** ** The registry and the connection *)
Lemma demo_registered : registry_run [demo_registry] registered 2.
Proof.
  eapply (run_published [] demo_registry 2 2 demo_registry demo_register BudgetLane.Completion demo_levels
    demo_update (prepare_committed demo_registry demo_register 2 demo_levels).2 demo_levels
    (publish demo_update (demo_registry, demo_levels)).1 registered
    (publish demo_update (demo_registry, demo_levels)).2.2);
    [apply demo_restored|done|done|left|vm_compute; reflexivity..].
Qed.
Definition demo_opened : Try StreamError (Subscription Delta) * Levels :=
  resume demo_record 6 transport_config_default demo_budget demo_levels.
Definition idle : Subscription Delta :=
  match demo_opened.1 with
  | Ok self => self
  | Err _ => {| sb_acknowledged := rw_token demo_record; sb_delivered := origin demo_ledger;
      sb_replayed := origin demo_ledger; sb_expires_at := 0; sb_protected := false; sb_clock := 0;
      sb_filter := DeltaFilter.All; sb_config := transport_config_default; sb_budget := demo_budget;
      sb_queue := []; sb_queue_bytes := 0; sb_item_credit := 0; sb_byte_credit := 0; sb_resolved := None;
      sb_resync := None; sb_closed := true; sb_terminal_reason := None;
      sb_allocation := empty_permit BudgetLane.Ordinary; sb_control_allocation := empty_permit BudgetLane.Ordinary;
      sb_control_count := 1 |}
  end.
Definition pumped (session : Session Delta N) : Subscription Delta :=
  (pump session replay_limit_default 7 (idle, demo_levels)).2.1.
Definition granted (session : Session Delta N) : Subscription Delta := (grant 256 (1024 * 1024) (pumped session)).2.
(** [n] calls of [next] on the granted connection, and what they hand out. *)
Fixpoint drained (n : nat) (self : Subscription Delta) : Subscription Delta * list (StreamEvent Delta) :=
  match n with
  | O => (self, [])
  | S n =>
      let '(self, log) := drained n self in
      let '(r, (self', _)) := next 8 (self, demo_levels) in
      (self', log ++ handed r)
  end.
Definition delivered_log (session : Session Delta N) (n : nat) : list (StreamEvent Delta) :=
  (drained n (granted session)).2.
Lemma demo_connection session H n :
  history_ok demo_ledger H → covers session H →
  conn_run demo_record H (drained n (granted session)).1 (delivered_log session n).
Proof.
  intros Hok Hcov. unfold delivered_log. induction n as [|n IH].
  - eapply (run_grant demo_record H (pumped session) [] 256 (1024 * 1024)
      (grant 256 (1024 * 1024) (pumped session)).1).
    + eapply (run_pump demo_record H idle [] session replay_limit_default 7 demo_levels
        (pump session replay_limit_default 7 (idle, demo_levels)).1 _
        (pump session replay_limit_default 7 (idle, demo_levels)).2.2).
      * apply (run_resumed demo_record H 6 transport_config_default demo_budget demo_levels idle demo_opened.2);
          [vm_compute; reflexivity|vm_compute; done].
      * done.
      * unfold pumped. by destruct (pump _ _ _ _) as [? [? ?]].
    + unfold granted. by destruct (grant _ _ _).
  - simpl. destruct (drained n (granted session)) as [self log]. simpl in IH.
    destruct (next 8 (self, demo_levels)) as [r [self' F']] eqn:Hn. simpl. by eapply run_next.
Qed.

(** ** A session from its opening *)
#[export] Instance demo_sizes : SessionSizes := {|
  input_wire _ := Ok 100; input_charge _ := Ok 200; receipt_entry_charge _ _ := Ok 300;
  owner_entry_charge _ _ := Ok 50; receipt_charge _ := Ok 250 |}.
Definition cursor_core (sequence : SessionSeq) : Core := {| co_state := {| st_ledger := demo_ledger;
    st_sequence := sequence;
    st_rows := upd Epochs (<[alice := {| ew_minimum := 1; ew_admitted := {[1]} |}]> ∅) empty_tables |};
  co_limits := default_limits |}.
Definition opened_session : Session Delta N := {|
  ses_ledger := demo_ledger; ses_core := cursor_core 0; ses_failed := false; ses_activation := ActivationV1;
  ses_native := None; ses_deltas := []; ses_delta_bytes := 0; ses_delta_floor := 0; ses_cursors := demo_registry;
  ses_cursor_meta := {| me_receipts := ∅; me_owners := ∅ |};
  ses_cursor_charge := {| al_level := demo_budget; al_bytes := 64; al_kind := BudgetKind.ReadPins;
                          al_lane := BudgetLane.Completion |};
  ses_pending_cursor := None; ses_placement_charge := None; ses_budget := demo_budget;
  ses_limits := {| sl_delta_items := 4; sl_delta_bytes := 100000; sl_cursor_receipts := 64;
                   sl_core := default_limits |} |}.
Definition register_input : CursorInput := {| ci_ledger := demo_ledger;
  ci_key := {| rk_principal := alice; rk_epoch := 1; rk_id := 21 |}; ci_intent_hash := 33;
  ci_command := demo_register |}.
Definition register_entry : Try LedgerError CursorEntry :=
  Ok (CursorEntryV2 (cursor_envelope opened_session register_input true)).
Definition cursor_session : Session Delta N :=
  (apply_cursor_entry 5 120 register_entry 3 (opened_session, demo_levels)).2.1.
Definition demo_candidate (deltas : list Delta) : Candidate Delta :=
  {| cn_deltas := deltas; cn_retained := retained <$> deltas; cn_retire_through := 0 |}.
Definition demo_epoch : list (Candidate Delta) :=
  [demo_candidate [demo_delta 1 0; demo_delta 1 1]; demo_candidate [demo_delta 2 0]].
Definition epoch_session : Session Delta N :=
  (publish_deltas (cursor_core 2) demo_epoch (with_pending_cursor None cursor_session, demo_levels)).2.1.
Definition result_of {A} (r : Try LedgerError (CursorReceipt * A)) (d : A) : CursorReceipt * A :=
  match r with Ok x => x | Err _ => (candidate_receipt opened_session (cursor_envelope opened_session register_input true) demo_update, d) end.
Lemma opened_run : retention_run [] [] opened_session.
Proof.
  apply (ret_opened opened_session (Ok 1) registry_config_default demo_budget demo_levels
    (registry_new (Ok 1) demo_ledger registry_config_default demo_budget demo_levels).2);
    [done..|vm_compute; reflexivity].
Qed.
Lemma cursor_run : retention_run [] [cursor_envelope opened_session register_input true] cursor_session.
Proof.
  set (r := apply_cursor_entry 5 120 register_entry 3 (opened_session, demo_levels)).
  apply (ret_cursor [] [cursor_envelope opened_session register_input true] opened_session 5 120 register_entry 3 demo_levels
    (result_of r.1 (empty_permit BudgetLane.Completion)).1 (result_of r.1 (empty_permit BudgetLane.Completion)).2
    cursor_session r.2.2); [apply ret_elsewhere, opened_run| |vm_compute; reflexivity].
  intros envelope [= <-]. apply list_elem_of_here.
Qed.
Lemma demo_forecasts : forecast_chain (with_pending_cursor None cursor_session) 2 demo_epoch.
Proof.
  apply (chain_snoc _ _ [demo_candidate [demo_delta 1 0; demo_delta 1 1]] [demo_delta 2 0]
    (retained <$> [demo_delta 2 0]) 2 0); [|done|vm_compute; reflexivity].
  apply (chain_snoc _ _ [] [demo_delta 1 0; demo_delta 1 1] (retained <$> [demo_delta 1 0; demo_delta 1 1]) 1 0); [constructor|done|vm_compute; reflexivity].
Qed.
Lemma epoch_run : retention_run demo_history [cursor_envelope opened_session register_input true] epoch_session.
Proof.
  apply (ret_epoch [] _ cursor_session (cursor_core 2) demo_epoch demo_history demo_levels epoch_session
    (publish_deltas (cursor_core 2) demo_epoch (with_pending_cursor None cursor_session, demo_levels)).2.2);
    [apply cursor_run| |vm_compute; reflexivity].
  assert (Hl : ses_ledger (with_pending_cursor None cursor_session) = demo_ledger) by (vm_compute; reflexivity).
  assert (Hp : legacy_prefix (with_pending_cursor None cursor_session) = 0) by (vm_compute; reflexivity).
  split; [reflexivity|rewrite Hl; apply demo_history_ok| |rewrite Hp; vm_compute; split; discriminate|apply demo_forecasts].
  rewrite Hp. intros d Hd. change (d ∈ demo_history) in Hd. each_delta Hd; vm_compute; split; congruence.
Qed.
