(* ===== verification/StreamProperties.v ===== *)
(** * Properties of the stream

    What the cursor registry, a connection, its consumer and the session they
    replay from guarantee together. *)
From stdpp Require Import prelude gmap strings list sorting.
From Stdlib Require Import NArith.
From S2P Require Import Prelude Vocabulary Objects Store Reducer Core Fallible Budget Stream.
From S2P Require Import Registry RegistryLaws RegistryRuns History Subscription SubscriptionLaws.
From S2P Require Import CursorSession SessionSource SessionCursors RetentionLaws Scenario StreamScenario.
#[local] Open Scope N_scope.

Section registry.
Context `{!Layout}.
(** C15: Every state of the cursor registry is a valid checkpoint, whatever
    commands were prepared and published and however the memory budget moved in
    between: the floor is published, the consumers are within the limit, each
    row names its own ledger, consumer and a generation given out, lies within
    its lease bound and, while it retains history, at or above the floor; and
    the permits of the two lanes hold exactly the bytes of the rows. *)
Theorem registry_state_sound past self published :
  registry_run past self published →
  checkpoint_valid (registry_checkpoint self) published (rg_config self) ∧
  al_bytes (rt_ordinary (rg_root self)) + al_bytes (rt_completion (rg_root self)) =
    base_bytes + rows_bytes (cp_consumers (registry_checkpoint self)).
Proof. intros [[Hv Hc _ _] _]%registry_run_inv. by split. Qed.

(** C16: Cursors are durable obligations: from any earlier state of a run, a
    protected consumer is still there, on the same stream and at the same or a
    later position, still protected; every row continues an earlier one or has
    a generation that did not exist then; the floor and the clock never go
    back, and the floor never passes what a retaining row needs. *)
Theorem cursor_obligations_kept past self published earlier :
  registry_run past self published → earlier ∈ past →
  let s := registry_checkpoint earlier in
  let s' := registry_checkpoint self in
  cp_floor s <= cp_floor s' ∧ cp_clock s <= cp_clock s' ∧
  (∀ id row, cp_consumers s !! id = Some row → rw_mode row = CursorMode.Protected →
    ∃ row', cp_consumers s' !! id = Some row' ∧ continues row row') ∧
  (∀ id row', cp_consumers s' !! id = Some row' →
    (∃ row, cp_consumers s !! id = Some row ∧ continues row row') ∨
    cp_revision s < ct_generation (rw_token row')) ∧
  (∀ id row, cp_consumers s' !! id = Some row → retains row (cp_clock s') = true →
    cp_floor s' <= retention_prefix (ct_position (rw_token row))).
Proof.
  intros Hrun Hin s s'. destruct (registry_run_inv _ _ _ Hrun) as [Hinv _].
  destruct (registry_run_rows _ _ _ _ Hrun Hin). split_and!; [done..|].
  intros id row Hrow Hret.
  pose proof (cv_rows _ _ _ (ri_checkpoint _ _ Hinv) id row Hrow) as Hv.
  apply retains_spec in Hret as [Hm|[Hc Hr]]; apply (rv_retained _ _ _ _ _ _ _ _ _ Hv); auto. by rewrite Hm.
Qed.

(** What a preparation announces is what its publication installs: in any
    reached state with room for the row in the lane's permit, a prepared
    command publishes, retires exactly the consumers it named, and leaves each
    consumer the row that was projected for it. *)
Theorem publication_as_projected past self before published command lane F0 prepared F1 F :
  registry_run past self before → before <= published → lane ≠ BudgetLane.Committed →
  prepare_in self command published lane F0 = (Ok prepared, F1) →
  al_bytes (lane_permit lane (rg_root self)) + al_bytes (pu_arriving prepared) <= u64_max →
  ∃ self' F', publish prepared (self, F) = (Ok (pu_retired prepared), (self', F')) ∧
    cp_revision (registry_checkpoint self') = cp_revision (registry_checkpoint self) + 1 ∧
    ∀ id, cp_consumers (registry_checkpoint self') !! id = projected self prepared id.
Proof.
  intros [Hinv _]%registry_run_inv Hle Hlane Hp Hfit.
  destruct (publish_ok self F command before published lane prepared F0 F1) as (self' & F' & Hok & Hcp & _);
    [done..|].
  exists self', F'. split; [done|]. rewrite Hcp.
  pose proof (prepare_in_ok _ _ _ _ _ _ _ Hp) as (_ & _ & _ & applied & retired & Ha & Hprep).
  split; [by rewrite Hprep|]. intros id. apply (publish_projected self prepared id published).
  pose proof Ha as (cg & -> & -> & Hcg & _)%apply_operation_ok; [|done]. rewrite Hprep. simpl.
  by destruct cg.
Qed.
End registry.

Section stream.
Context {D : Type} `{!StreamedDelta D, !WireSizes D} {layout : Layout}.
Context {Src : Type} `{!DeltaSource Src D} `{!VisitingSource Src D}.

(** C17: A connection delivers the history: whatever order it is pumped,
    granted credit, drained, reconciled, acknowledged and reset in, the deltas
    it handed to the transport are exactly the matching deltas of the history
    from the consumer's cursor to the delivered position, once each and in
    order; nothing is acknowledged beyond what was delivered, nor delivered
    beyond what was replayed. *)
Theorem subscription_delivers_history record H (self : Subscription D) log :
  history_ok (p_ledger (ct_position (rw_token record))) H → conn_run (Src := Src) record H self log →
  event_deltas log =
    selected (matches (rw_filter record)) (between (ct_position (rw_token record)) (sb_delivered self) H) ∧
  position_le (ct_position (sb_acknowledged self)) (sb_delivered self) ∧
  position_le (sb_delivered self) (sb_replayed self).
Proof.
  intros Hok Hrun. destruct (conn_run_inv _ _ _ _ Hok Hrun) as [[Hi _] _].
  destruct (stream_log_exact _ _ _ _ _ _ (ho_sorted _ _ Hok) (si_log _ _ _ _ _ Hi)) as [_ ->].
  split_and!; [done|apply Hi|apply Hi].
Qed.
(** A connection stays within its configuration: the queued bytes are the
    sum of the queued deliveries and within the queue's limit, as are the items
    and both credits. *)
Theorem subscription_within_bounds record H (self : Subscription D) log :
  history_ok (p_ledger (ct_position (rw_token record))) H → conn_run (Src := Src) record H self log →
  sb_queue_bytes self = queue_wire (sb_queue self) ∧
  sb_queue_bytes self <= max_queue_bytes (sb_config self) ∧
  N.of_nat (length (sb_queue self)) <= max_queue_items (sb_config self) ∧
  sb_item_credit self <= max_credit_items (sb_config self) ∧
  sb_byte_credit self <= max_credit_bytes (sb_config self).
Proof.
  intros Hok Hrun. destruct (conn_run_inv _ _ _ _ Hok Hrun) as [[Hi []] _]. split_and!; [apply Hi|done..].
Qed.
(** No queued delivery is stuck behind its own size: on a live connection
    with a delivery queued and no control message out, granting the credit
    missing from the window is accepted, and the next call hands out the head
    of the queue however large it is. *)
Theorem full_window_delivers record H (self : Subscription D) log front rest now F :
  history_ok (p_ledger (ct_position (rw_token record))) H → conn_run (Src := Src) record H self log →
  max_credit_items (sb_config self) <= u64_max → max_credit_bytes (sb_config self) <= u64_max →
  sb_control_count self <= 1 → live self → sb_queue self = front :: rest → sb_clock self <= now →
  (sb_protected self = true ∨ now < sb_expires_at self) →
  ∃ items bytes self1 self2, grant items bytes self = (Ok (), self1) ∧
    next now (self1, F) = (Ok (Some front), (self2, F)) ∧ sb_queue self2 = rest.
Proof.
  intros Hok Hrun Hiw Hbw Hctl Hlive Hq Hclk Hlease.
  destruct (conn_run_inv _ _ _ _ Hok Hrun) as [[_ [_ _ Hi Hb]] _].
  destruct (conn_run_config _ _ _ _ Hrun) as [at_ Hcfg]. unfold resume_checks in Hcfg.
  rewrite !refuse_then_ok in Hcfg. destruct Hcfg as (_ & _ & _ & Hcfg).
  apply try_bind_ok in Hcfg as ([] & _ & Hcfg). rewrite refuse_then_ok in Hcfg. destruct Hcfg as [Hnz _].
  set (items := max_credit_items (sb_config self) - sb_item_credit self).
  set (bytes := max_credit_bytes (sb_config self) - sb_byte_credit self).
  assert (Hgrant : grant items bytes self =
    (Ok (), set_credit (max_credit_items (sb_config self)) (max_credit_bytes (sb_config self)) self)).
  { unfold grant. rewrite (proj2 (add_ok (sb_item_credit self) items (max_credit_items (sb_config self))))
      by (unfold items; lia).
    rewrite (proj2 (add_ok (sb_byte_credit self) bytes (max_credit_bytes (sb_config self)))) by (unfold bytes; lia).
    simpl. unfold refuse_if. by rewrite decide_False by lia. }
  exists items, bytes. rewrite Hgrant.
  destruct (next_window (set_credit (max_credit_items (sb_config self)) (max_credit_bytes (sb_config self)) self)
    F front rest now) as (self2 & Hn & Hq2); simpl; [done..|naive_solver|by right|].
  by eexists _, self2.
Qed.
(** C18: The consumer of an unfiltered connection applies the history exactly
    once and in order. Over a checkpoint of the same ledger, at or after the cursor
    the connection resumed from, it takes the delivery up to the first event it cannot use, a
    resync or a delta whose schema is not 1, and has then applied precisely the
    deltas of the history after the checkpoint through the position that part
    of the delivery reaches; those before it are recognised as duplicates. If
    there is no such event, that is the whole delivery and the connection's
    delivered position; otherwise the consumer stops at the event, with the
    resync's reason or a source violation. *)
Theorem consumer_applies_once record H (self : Subscription D) log p :
  history_ok (p_ledger (ct_position (rw_token record))) H →
  conn_run (Src := Src) record H self log → rw_filter record = DeltaFilter.All →
  p_ledger p = p_ledger (ct_position (rw_token record)) → position_le (ct_position (rw_token record)) p →
  let '(good, refused) := until_refused log in
  ∃ m to, consume_all (checkpoint_at (rw_token record) p) good =
      Ok (checkpoint_at (rw_token record) m, between p to H) ∧ position_le p m ∧
    event_deltas good = between (ct_position (rw_token record)) to H ∧
    match refused with
    | None => good = log ∧ to = sb_delivered self
    | Some e => position_le to (sb_delivered self) ∧
        consume_all (checkpoint_at (rw_token record) p) log = Err (refusal e)
    end.
Proof.
  intros Hok Hrun Hall Hl Hp. destruct (conn_run_inv _ _ _ _ Hok Hrun) as [[Hi _] _].
  pose proof (si_log _ _ _ _ _ Hi) as Hlog. pose proof (until_refused_spec log) as Hspec.
  destruct (until_refused log) as [good refused]. destruct Hspec as [Hgood Hsplit].
  assert (Hto : ∃ to, stream_log (rw_token record) (matches (rw_filter record)) H (ct_position (rw_token record)) good to
    ∧ match refused with None => to = sb_delivered self | _ => position_le to (sb_delivered self) end).
  { destruct refused as [e|]; [|subst good; by eexists]. destruct Hsplit as (_ & rest & ->).
    eapply stream_log_prefix; [exact Hlog|by eexists]. }
  destruct Hto as (to & Hlog' & Hto).
  destruct (consume_stream (p_ledger (ct_position (rw_token record))) (rw_token record)
    (matches (rw_filter record)) H (ct_position (rw_token record)) good to p)
    as (m & applied & Hc & Hm); [done|by rewrite Hall|apply Hi|done..|].
  exists m, to. rewrite Hc, (cs_applied _ _ _ _ _ _ Hm).
  destruct (stream_log_exact _ _ _ _ _ _ (ho_sorted _ _ Hok) Hlog') as [_ Hex].
  rewrite selected_every in Hex by by rewrite Hall. split_and!; [done|apply Hm|done|].
  destruct refused as [e|]; [|done]. split; [done|]. destruct Hsplit as (Hu & rest & ->).
  eapply consume_all_refused; [exact Hc|]. apply consume_refused; [done|by rewrite (cs_ledger _ _ _ _ _ _ Hm)|].
  intros cursor reason floor ->. eapply stream_log_resync; [exact Hlog|]. apply elem_of_app. right. left.
Qed.
End stream.

(** A consumer refuses a delivery that skips the head of a transaction,
    although a filtered connection delivers it: a forward delta of a later
    transaction whose ordinal is not zero is a source violation. *)
Theorem filtered_head_refused `{!StreamedDelta D} token p (d : D) :
  ck_ledger (ct_key token) = p_ledger p → d_ledger (sd_id d) = p_ledger p →
  sd_schema d = 1 → p_sequence p < d_sequence (sd_id d) → d_ordinal (sd_id d) ≠ 0 →
  consume (checkpoint_at token p) (delta_event token d) =
    Err (StreamError.SourceViolation "transaction starts after ordinal zero").
Proof.
  intros Hk Hl Hsch Hseq Hord. unfold consume, consumer_prepare. rewrite refuse_pass by naive_solver.
  rewrite event_step_delta by (done || lia). cbn [mbind try_bind checkpoint_at kp_cursor].
  rewrite same_stream_at by done. cbn [mbind try_bind token_at ct_position].
  rewrite decide_False. 2: { rewrite position_le_spec by (simpl; congruence). simpl. lia. }
  unfold contiguous. rewrite decide_False by lia. unfold refuse_if. by rewrite decide_True.
Qed.

(** C19: The session is the source its subscriptions rely on: from any position
    it accepts, a replay whose deltas fit the work limits returns, it has
    visited exactly the ledger's history between the two positions, retained
    and native alike, and it either covered every sequence asked for or made
    progress. *)
Theorem session_replays_history {D E : Type} `{!StreamedDelta D, !NativeDelta E D}
    (self : Session D E) journal H after limit u :
  stream_history self journal H → ses_failed self = false → validate_replay_position self after = Ok u →
  replay_fits self limit → legacy_prefix self <= stream_published self → stream_published self < u64_max →
  ∃ last, outcome self after limit = Ok last ∧ visited self after limit = between after last H ∧
    (last = resolved (ses_ledger self)
       (N.min (saturating_add (p_sequence after) (lim_sequences limit)) (stream_published self)) ∨
     between after last H ≠ []).
Proof.
  intros Hh Hf Hv Hfit Hle Hmax.
  destruct (session_replay_total self journal H after limit u) as (last & Hout & Hprog); [done..|].
  exists last. pose proof (session_covers self journal H Hh after limit last Hout) as Hvis.
  rewrite Hvis in Hprog. by split_and!.
Qed.

Section retention.
Context {D E : Type} `{!StreamedDelta D, !NativeDelta E D} {layout : Layout} {sizes : SessionSizes}.
Implicit Types (self : Session D E).

(** The ring is exactly the history above the floor, its byte count is the
    sum of its deltas, and both stay within the session's limits. *)
Theorem delta_ring_exact H sent self :
  retention_run H sent self →
  rd_delta <$> ses_deltas self = filter (λ d, ses_delta_floor self < d_sequence (sd_id d)) H ∧
  ses_delta_bytes self = ring_bytes (ses_deltas self) ∧
  ses_delta_bytes self <= sl_delta_bytes (ses_limits self) ∧
  N.of_nat (length (ses_deltas self)) <= sl_delta_items (ses_limits self) ∧
  covers self H.
Proof.
  intros Hi%retention_run_inv. split_and!; try apply Hi.
  exact (session_covers self (λ _, []) H (retention_history self H (λ _, []) Hi)).
Qed.
(** The retention forecast always decides: for new deltas in sequence it
    gives a floor above which the ring and the new deltas fit the limits and
    that does not pass what cursors retain, or it refuses because a cursor pins
    the history, naming how far retirement may go. *)
Theorem retention_forecast_decides H sent self next published :
  retention_run H sent self →
  StronglySorted (λ a b : RetainedDelta D, d_sequence (sd_id (rd_delta a)) <= d_sequence (sd_id (rd_delta b)))
    (ses_deltas self ++ next) →
  (∀ d, d ∈ next → ses_delta_floor self < d_sequence (sd_id (rd_delta d))) →
  N.of_nat (length (ses_deltas self ++ next)) <= u64_max → ring_bytes (ses_deltas self ++ next) <= u64_max →
  let checkpoint := registry_checkpoint (ses_cursors self) in
  let allowed := retention_limit checkpoint (cp_clock checkpoint) published in
  match retention_forecast_from self next published [] with
  | Ok floor =>
      let kept := filter (λ d : RetainedDelta D, floor < d_sequence (sd_id (rd_delta d))) (ses_deltas self ++ next) in
      ses_delta_floor self <= floor ∧ (floor = ses_delta_floor self ∨ floor <= allowed) ∧
      N.of_nat (length kept) <= sl_delta_items (ses_limits self) ∧ ring_bytes kept <= sl_delta_bytes (ses_limits self)
  | Err e => e = LedgerError.Stream (StreamError.RetentionPinned allowed)
  end.
Proof. intros Hi%retention_run_inv. by apply (forecast_total self H). Qed.
(** Once the floor of the stream has passed the legacy prefix, as it may on
    a native ledger, no cursor command can be built any more: the envelope a
    proposal writes is refused as corrupt. *)
Theorem floor_past_prefix_refused self input control hash committed F :
  legacy_prefix self < rb_floor (stream_bounds self) →
  build_cursor_candidate self (cursor_envelope self input control) hash committed F = (Err LedgerError.Corrupt, F).
Proof.
  intros Hf.
  assert (Hc : candidate_checks self (cursor_envelope self input control) = Err LedgerError.Corrupt).
  { assert (check_envelope self (cursor_envelope self input control) = Err LedgerError.Corrupt) as He.
    { unfold check_envelope, refuse_if. rewrite decide_True; [done|]. do 4 right. left. exact Hf. }
    unfold candidate_checks. by rewrite He. }
  unfold build_cursor_candidate, reserve_charge. by rewrite Hc.
Qed.
End retention.

(** ** Witnesses *)
Lemma registry_state_sound_witness :
  consumers_len (registry_checkpoint registered) = 1 ∧
  checkpoint_valid (registry_checkpoint registered) 2 (rg_config registered) ∧
  al_bytes (rt_ordinary (rg_root registered)) + al_bytes (rt_completion (rg_root registered)) =
    base_bytes + rows_bytes (cp_consumers (registry_checkpoint registered)).
Proof.
  split; [vm_compute; reflexivity|]. apply (registry_state_sound [demo_registry] registered 2 demo_registered).
Defined.
(** One more command on the registered consumer: its acknowledgment. *)
Definition demo_token : CursorToken := token_at (rw_token demo_record) (resolved demo_ledger 1).
Definition acknowledge_demo : CursorCommand :=
  {| cm_expected_revision := 1; cm_now := 9; cm_operation := CursorOperation.Acknowledge demo_token |}.
Definition acknowledge_update : PreparedCursorUpdate :=
  ok_value demo_update (prepare_committed registered acknowledge_demo 2 demo_levels).1.
Definition acknowledged : CursorRegistry := (publish acknowledge_update (registered, demo_levels)).2.1.
Lemma demo_acknowledged : registry_run [registered; demo_registry] acknowledged 2.
Proof.
  eapply (run_published [demo_registry] registered 2 2 registered acknowledge_demo BudgetLane.Completion demo_levels
    acknowledge_update (prepare_committed registered acknowledge_demo 2 demo_levels).2 demo_levels
    (publish acknowledge_update (registered, demo_levels)).1 acknowledged
    (publish acknowledge_update (registered, demo_levels)).2.2);
    [apply demo_registered|done|done|left|vm_compute; reflexivity..].
Qed.
Lemma cursor_obligations_kept_witness :
  rw_mode demo_record = CursorMode.Protected ∧
  ∃ row', cp_consumers (registry_checkpoint acknowledged) !! 7 = Some row' ∧ continues demo_record row'.
Proof.
  split; [vm_compute; reflexivity|].
  destruct (cursor_obligations_kept [registered; demo_registry] acknowledged 2 registered demo_acknowledged
    ltac:(left)) as (_ & _ & Hkept & _).
  apply (Hkept 7 demo_record); vm_compute; reflexivity.
Defined.
Lemma publication_as_projected_witness :
  ∃ self' F', publish acknowledge_update (registered, demo_levels) =
      (Ok (pu_retired acknowledge_update), (self', F')) ∧
    cp_revision (registry_checkpoint self') = cp_revision (registry_checkpoint registered) + 1 ∧
    ∀ id, cp_consumers (registry_checkpoint self') !! id = projected registered acknowledge_update id.
Proof.
  apply (publication_as_projected [demo_registry] registered 2 2 acknowledge_demo BudgetLane.Completion demo_levels
    acknowledge_update (prepare_committed registered acknowledge_demo 2 demo_levels).2 demo_levels demo_registered);
    [lia|done|vm_compute; reflexivity|vm_compute; done].
Defined.
Lemma legacy_covers : covers legacy_session demo_history.
Proof. apply (session_covers _ demo_journal), legacy_session_history. Qed.
Lemma demo_conn_run n : conn_run demo_record demo_history (drained n (granted legacy_session)).1 (delivered_log legacy_session n).
Proof. apply demo_connection; [apply demo_history_ok|apply legacy_covers]. Qed.
Lemma record_history_ok : history_ok (p_ledger (ct_position (rw_token demo_record))) demo_history.
Proof.
  assert (p_ledger (ct_position (rw_token demo_record)) = demo_ledger) as -> by (vm_compute; reflexivity).
  apply demo_history_ok.
Qed.
Lemma subscription_delivers_history_witness :
  event_deltas (delivered_log legacy_session 4) = demo_history ∧
  event_deltas (delivered_log legacy_session 2) =
    selected (matches (rw_filter demo_record)) (between (ct_position (rw_token demo_record))
      (sb_delivered (drained 2 (granted legacy_session)).1) demo_history).
Proof.
  split; [vm_compute; reflexivity|].
  destruct (subscription_delivers_history demo_record demo_history (drained 2 (granted legacy_session)).1
    (delivered_log legacy_session 2) record_history_ok (demo_conn_run 2)) as [Hlog _]. exact Hlog.
Defined.
Lemma subscription_within_bounds_witness :
  length (sb_queue (drained 1 (granted legacy_session)).1) = 2%nat ∧
  sb_queue_bytes (drained 1 (granted legacy_session)).1 = queue_wire (sb_queue (drained 1 (granted legacy_session)).1).
Proof.
  split; [vm_compute; reflexivity|].
  destruct (subscription_within_bounds demo_record demo_history (drained 1 (granted legacy_session)).1
    (delivered_log legacy_session 1) record_history_ok (demo_conn_run 1)) as [Hbytes _]. exact Hbytes.
Defined.
Lemma full_window_delivers_witness :
  ∃ front rest, sb_queue (drained 1 (granted legacy_session)).1 = front :: rest ∧
  ∃ items bytes self1 self2, grant items bytes (drained 1 (granted legacy_session)).1 = (Ok (), self1) ∧
    next 9 (self1, demo_levels) = (Ok (Some front), (self2, demo_levels)) ∧ sb_queue self2 = rest.
Proof.
  assert (Hq : ∃ front rest, sb_queue (drained 1 (granted legacy_session)).1 = front :: rest)
    by (vm_compute; eexists _, _; reflexivity).
  destruct Hq as (front & rest & Hq). exists front, rest. split; [exact Hq|].
  apply (full_window_delivers demo_record demo_history (drained 1 (granted legacy_session)).1
    (delivered_log legacy_session 1) front rest 9 demo_levels record_history_ok (demo_conn_run 1));
    [vm_compute; discriminate..|split; vm_compute; reflexivity|exact Hq|vm_compute; discriminate|].
  left. vm_compute. reflexivity.
Defined.
Lemma consumer_applies_once_witness :
  until_refused (delivered_log legacy_session 4) = (delivered_log legacy_session 4, None) ∧
  ∃ m, consume_all (checkpoint_at (rw_token demo_record) (position_of (demo_delta 1 0))) (delivered_log legacy_session 4) =
    Ok (checkpoint_at (rw_token demo_record) m,
        between (position_of (demo_delta 1 0)) (sb_delivered (drained 4 (granted legacy_session)).1) demo_history) ∧
    position_le (position_of (demo_delta 1 0)) m.
Proof.
  assert (Hu : until_refused (delivered_log legacy_session 4) = (delivered_log legacy_session 4, None))
    by (vm_compute; reflexivity).
  split; [exact Hu|].
  pose proof (consumer_applies_once demo_record demo_history (drained 4 (granted legacy_session)).1
    (delivered_log legacy_session 4) (position_of (demo_delta 1 0)) record_history_ok (demo_conn_run 4)) as Hc.
  rewrite Hu in Hc. destruct Hc as (m & to & Hc & Hm & _ & _ & ->); [vm_compute; reflexivity|vm_compute; reflexivity|vm_compute; exact I|].
  exists m. split; [exact Hc|exact Hm].
Defined.
Lemma filtered_head_refused_witness :
  consume (checkpoint_at (rw_token demo_record) (origin demo_ledger)) (delta_event (rw_token demo_record) (demo_delta 1 1)) =
    Err (StreamError.SourceViolation "transaction starts after ordinal zero").
Proof. apply (filtered_head_refused (rw_token demo_record) (origin demo_ledger) (demo_delta 1 1)); vm_compute; done. Defined.
Lemma session_replays_history_witness :
  ∃ last, outcome native_session (resolved demo_ledger 1) replay_limit_default = Ok last ∧
    visited native_session (resolved demo_ledger 1) replay_limit_default =
      between (resolved demo_ledger 1) last native_history.
Proof.
  destruct (session_replays_history native_session demo_journal native_history (resolved demo_ledger 1)
    replay_limit_default () native_session_history) as (last & Hout & Hvis & _).
  - reflexivity.
  - vm_compute. reflexivity.
  - split; [vm_compute; split; [reflexivity|discriminate]|vm_compute; split; reflexivity|vm_compute; reflexivity| |].
    + intros d Hd. each_delta Hd. vm_compute. discriminate.
    + intros core s o n e [= <-] Hn He. simpl in He. unfold demo_journal in He.
      assert (N.to_nat o < 2)%nat by (apply lookup_lt_Some in He; repeat case_decide; simpl in He; lia).
      split; [unfold u32_max; lia|]. exists 40. split; [reflexivity|vm_compute; discriminate].
  - vm_compute. discriminate.
  - vm_compute. reflexivity.
  - exists last. split; [exact Hout|exact Hvis].
Defined.
Lemma delta_ring_exact_witness :
  length (ses_deltas epoch_session) = 3%nat ∧ ses_delta_bytes epoch_session = ring_bytes (ses_deltas epoch_session).
Proof.
  split; [vm_compute; reflexivity|]. destruct (delta_ring_exact demo_history _ epoch_session epoch_run) as (_ & Hb & _).
  exact Hb.
Defined.
(** Two more deltas do not fit while the consumer has acknowledged nothing. *)
Definition more_deltas : list (RetainedDelta Delta) := retained <$> [demo_delta 3 0; demo_delta 3 1].
Lemma retention_forecast_decides_witness :
  retention_forecast_from epoch_session more_deltas 3 [] =
    Err (LedgerError.Stream (StreamError.RetentionPinned 0)).
Proof.
  pose proof (retention_forecast_decides demo_history _ epoch_session more_deltas 3 epoch_run) as Hd.
  destruct (retention_forecast_from epoch_session more_deltas 3 []) as [floor|e] eqn:Hf; [vm_compute in Hf; discriminate|].
  f_equal. apply Hd.
  - vm_compute. repeat (constructor; [|repeat (constructor; [discriminate|]); constructor]). constructor.
  - assert (Hz : ses_delta_floor epoch_session = 0) by (vm_compute; reflexivity). rewrite Hz.
    clear. intros d Hd'. change (d ∈ [retained (demo_delta 3 0); retained (demo_delta 3 1)]) in Hd'.
    each_delta Hd'; reflexivity.
  - vm_compute. discriminate.
  - vm_compute. discriminate.
Defined.
(** A native session whose floor is past the legacy prefix. *)
Definition floor_session : Session Delta N := demo_session (ActivationNative Imported) 3 [].
Lemma floor_past_prefix_refused_witness :
  stream_published floor_session = 4 ∧
  build_cursor_candidate floor_session (cursor_envelope floor_session register_input true) 5 false demo_levels =
    (Err LedgerError.Corrupt, demo_levels).
Proof.
  split; [vm_compute; reflexivity|].
  apply (floor_past_prefix_refused floor_session register_input true 5 false demo_levels). vm_compute. reflexivity.
Defined.
