(* ===== verification/RangeMap.v ===== *)
(** * Key spans and range maps (focal-memory: range_map.rs)

    A half-open span of an ordered key space, and a map of ranges in key order
    that covers the space exactly once. The map is a value: a successor replaces
    one contiguous set of ranges and carries the next epoch. Positions in the
    ranges are [nat] and lengths [N]; reserving a [Vec] never fails here. *)
From stdpp Require Import prelude gmap strings list sorting.
From Stdlib Require Import NArith.
From S2P Require Import Prelude Objects Fallible.

Notation RangeId := N (only parsing).
Module RangeMapError.
Inductive t := Invalid (why : string) | Capacity | Overflow | Generation | Gap | Overlap | Missing | Conflict.
End RangeMapError.
Notation RangeMapError := RangeMapError.t.

#[local] Open Scope N_scope.

Record KeySpan (K : Type) := { sp_start : option K; sp_end : option K }.
Arguments sp_start {_} _.
Arguments sp_end {_} _.
#[export] Instance key_span_eq_dec K `{EqDecision K} : EqDecision (KeySpan K).
Proof. solve_decision. Defined.
Definition span_all {K} : KeySpan K := {| sp_start := None; sp_end := None |}.

Record RangeDescriptor (K M : Type) := {
  rd_id : RangeId; rd_generation : N; rd_span : KeySpan K; rd_meta : M
}.
Arguments rd_id {_ _} _.
Arguments rd_generation {_ _} _.
Arguments rd_span {_ _} _.
Arguments rd_meta {_ _} _.
#[export] Instance range_descriptor_eq_dec K M `{EqDecision K, EqDecision M} : EqDecision (RangeDescriptor K M).
Proof. solve_decision. Defined.
Record RangeMapLimits := { rml_max_ranges : N }.
Record KeyRanges (K M : Type) := { kr_epoch : N; kr_ranges : list (RangeDescriptor K M) }.
Arguments kr_epoch {_ _} _.
Arguments kr_ranges {_ _} _.
#[export] Instance key_ranges_eq_dec K M `{EqDecision K, EqDecision M} : EqDecision (KeyRanges K M).
Proof. solve_decision. Defined.

(** ** Spans *)
Section Spans.
Context {K : Type} `{TableKey K}.
Implicit Types (s : KeySpan K) (k : K).

Definition span_validate s : Try RangeMapError () :=
  match sp_start s, sp_end s with
  | Some start, Some stop =>
      refuse_if (key_le stop start) (RangeMapError.Invalid "empty or reversed span")
  | _, _ => Ok ()
  end.
Definition span_contains s k : bool :=
  match sp_start s with None => true | Some start => bool_decide (key_le start k) end
  && match sp_end s with None => true | Some stop => bool_decide (key_lt k stop) end.
(** [Ord::max], [Ord::min]. *)
Definition key_max (a b : K) : K := if decide (key_le a b) then b else a.
Definition key_min (a b : K) : K := if decide (key_le a b) then a else b.
Definition span_intersection s (other : KeySpan K) : option (KeySpan K) :=
  let start := match sp_start s, sp_start other with
               | Some a, Some b => Some (key_max a b)
               | Some a, None | None, Some a => Some a
               | None, None => None
               end in
  let stop := match sp_end s, sp_end other with
              | Some a, Some b => Some (key_min a b)
              | Some a, None | None, Some a => Some a
              | None, None => None
              end in
  let span := {| sp_start := start; sp_end := stop |} in
  match span_validate span with Ok _ => Some span | Err _ => None end.
End Spans.

(** ** Maps *)
Section Maps.
Context {K M : Type} `{TableKey K}.
Implicit Types (m : KeyRanges K M) (r : RangeDescriptor K M) (id : RangeId) (k : K).

Definition descriptor_validate r : Try RangeMapError () :=
  span_validate (rd_span r);;
  refuse_if (rd_generation r = 0) RangeMapError.Generation.
Definition range_position m id : option nat := fst <$> list_find (λ r, rd_id r = id) (kr_ranges m).
Definition range_get m id : option (RangeDescriptor K M) :=
  i ← range_position m id; kr_ranges m !! i.
(** The last range whose start is at or below the key. *)
Definition range_route m k : option nat :=
  match partition_point (λ r, match sp_start (rd_span r) with
                              | None => true | Some start => bool_decide (key_le start k) end) (kr_ranges m) with
  | S i => r ← kr_ranges m !! i; if span_contains (rd_span r) k then Some i else None
  | O => None
  end.
Definition range_routed m k : option (RangeDescriptor K M) := i ← range_route m k; kr_ranges m !! i.

(** Where the next range must start: anywhere is too late when the previous one
    ran to the end. *)
Definition check_start (expected : option (option K)) (start : option K) : Try RangeMapError () :=
  match expected with
  | None => Err RangeMapError.Overlap
  | Some expected =>
      match expected, start with
      | None, None => Ok ()
      | None, Some _ => Err RangeMapError.Gap
      | Some _, None => Err RangeMapError.Overlap
      | Some a, Some b =>
          if decide (a = b) then Ok ()
          else if decide (key_lt b a) then Err RangeMapError.Overlap else Err RangeMapError.Gap
      end
  end.
(** The loop of [RangeMap::validate]: [earlier] has the identities seen. *)
Fixpoint check_ranges (expected : option (option K)) (earlier : list RangeId) (l : list (RangeDescriptor K M)) :
    Try RangeMapError () :=
  match l with
  | [] => refuse_if (is_Some expected) RangeMapError.Gap
  | r :: l =>
      descriptor_validate r;;
      refuse_if (rd_id r ∈ earlier) RangeMapError.Conflict;;
      check_start expected (sp_start (rd_span r));;
      check_ranges (Some <$> sp_end (rd_span r)) (earlier ++ [rd_id r]) l
  end.
Definition ranges_validate m (limits : RangeMapLimits) : Try RangeMapError () :=
  refuse_if (rml_max_ranges limits = 0) (RangeMapError.Invalid "zero range limit");;
  refuse_if (kr_epoch m = 0 ∨ kr_ranges m = []) (RangeMapError.Invalid "empty map or zero epoch");;
  refuse_if (rml_max_ranges limits < N.of_nat (length (kr_ranges m))) RangeMapError.Capacity;;
  check_ranges (Some None) [] (kr_ranges m).
Definition ranges_new (epoch : N) (ranges : list (RangeDescriptor K M)) (limits : RangeMapLimits) :
    Try RangeMapError (KeyRanges K M) :=
  let m := {| kr_epoch := epoch; kr_ranges := ranges |} in
  ranges_validate m limits;; mret m.

(** The positions of the ranges a replacement takes out. *)
Definition source_positions (sources : list RangeId) m : list nat :=
  fst <$> filter (λ '(_, r), rd_id r ∈ sources) (imap pair (kr_ranges m)).
(** A kept identity advances its generation, a new one starts at one. *)
Definition check_generation m (sources : list RangeId) r : Try RangeMapError () :=
  match range_get m (rd_id r) with
  | Some old =>
      refuse_if (rd_id r ∉ sources ∨ checked_add (rd_generation old) 1 ≠ Some (rd_generation r))
        RangeMapError.Generation
  | None => refuse_if (rd_generation r ≠ 1) RangeMapError.Generation
  end.
Definition ranges_replace m (sources : list RangeId) (replacements : list (RangeDescriptor K M))
    (limits : RangeMapLimits) : Try RangeMapError (KeyRanges K M) :=
  refuse_if (sources = [] ∨ replacements = [] ∨ rml_max_ranges limits < N.of_nat (length replacements))
    (RangeMapError.Invalid "replacement set");;
  let positions := source_positions sources m in
  refuse_if (¬ NoDup sources ∨ length positions ≠ length sources) RangeMapError.Missing;;
  first ← or_fail (head positions) RangeMapError.Missing;
  final ← or_fail (last positions) RangeMapError.Missing;
  count ← or_fail (c ← checked_sub (N.of_nat final) (N.of_nat first); checked_add c 1) RangeMapError.Overflow;
  refuse_if (count ≠ N.of_nat (length sources)) RangeMapError.Gap;;
  source_first ← or_fail (kr_ranges m !! first) RangeMapError.Missing;
  source_last ← or_fail (kr_ranges m !! final) RangeMapError.Missing;
  new_first ← or_fail (head replacements) RangeMapError.Missing;
  new_last ← or_fail (last replacements) RangeMapError.Missing;
  refuse_if (sp_start (rd_span new_first) ≠ sp_start (rd_span source_first)
             ∨ sp_end (rd_span new_last) ≠ sp_end (rd_span source_last)) RangeMapError.Gap;;
  try_each (check_generation m sources) replacements;;
  or_fail (kept ← checked_sub (N.of_nat (length (kr_ranges m))) (N.of_nat (length sources));
           checked_add kept (N.of_nat (length replacements))) RangeMapError.Overflow;;
  epoch ← or_fail (checked_add (kr_epoch m) 1) RangeMapError.Overflow;
  ranges_new epoch (take first (kr_ranges m) ++ replacements ++ drop (S final) (kr_ranges m)) limits.
End Maps.

(** ** Laws of range maps

    A validated map covers the key space exactly once, and a replacement moves
    exactly the keys of the ranges it takes out. *)
#[local] Close Scope N_scope.
Section Laws.
Context {K M : Type} `{TableKey K}.
Implicit Types (m : KeyRanges K M) (r : RangeDescriptor K M) (l : list (RangeDescriptor K M)) (k : K).

(** ** Spans *)
Definition above (start : option K) (k : K) : Prop := match start with None => True | Some a => key_le a k end.
Definition below (stop : option K) (k : K) : Prop := match stop with None => True | Some b => key_lt k b end.
Lemma contains_spec (s : KeySpan K) k : span_contains s k = true ↔ above (sp_start s) k ∧ below (sp_end s) k.
Proof.
  unfold span_contains, above, below. rewrite andb_true_iff.
  destruct (sp_start s), (sp_end s); rewrite ?bool_decide_eq_true; naive_solver.
Qed.
Lemma key_le_lt (x y : K) : key_le x y → ¬ key_lt y x.
Proof. intros Hle [Hle' Hne]. apply Hne. by apply (anti_symm key_le). Qed.
Lemma key_nle (x y : K) : ¬ key_le x y → key_lt y x.
Proof. intros Hn. split; [by destruct (total key_le x y)|]. by intros ->. Qed.
Lemma below_above stop k : below (Some stop) k ↔ ¬ above (Some stop) k.
Proof.
  simpl. split; [|apply key_nle]. intros Hlt Hle. by eapply key_le_lt.
Qed.
Lemma span_validate_ok (s : KeySpan K) u : span_validate s = Ok u ↔
  ∀ a b, sp_start s = Some a → sp_end s = Some b → key_lt a b.
Proof.
  destruct u. unfold span_validate. destruct (sp_start s) as [a|], (sp_end s) as [b|]; try naive_solver.
  rewrite refuse_if_ok. split.
  - intros Hn ? ? [= <-] [= <-]. by apply key_nle.
  - intros Hlt Hle. by eapply key_le_lt, Hlt.
Qed.
Lemma above_max a b k : above (Some (key_max a b)) k ↔ above (Some a) k ∧ above (Some b) k.
Proof.
  unfold key_max, above. destruct (decide (key_le a b)) as [Hle|Hn%key_nle].
  - split; [|naive_solver]. intros Hk. split; [by etrans|done].
  - split; [|naive_solver]. intros Hk. split; [done|]. etrans; [apply Hn|done].
Qed.
Lemma below_min a b k : below (Some (key_min a b)) k ↔ below (Some a) k ∧ below (Some b) k.
Proof.
  unfold key_min, below. destruct (decide (key_le a b)) as [Hle|Hn%key_nle].
  - split; [|naive_solver]. intros Hk. split; [done|]. by eapply key_lt_le_trans.
  - split; [|naive_solver]. intros Hk. split; [|done]. by eapply key_lt_trans.
Qed.
(** An intersection holds exactly the keys both spans hold, and there is none only
    when they hold none. *)
Lemma intersection_contains (s t u : KeySpan K) : span_intersection s t = Some u →
  ∀ k, span_contains u k = true ↔ span_contains s k = true ∧ span_contains t k = true.
Proof.
  unfold span_intersection. intros Hu k. destruct (span_validate _); [|done]. injection Hu as <-.
  rewrite !contains_spec. simpl. destruct (sp_start s), (sp_start t), (sp_end s), (sp_end t);
    rewrite ?above_max, ?below_min; simpl; tauto.
Qed.
Lemma intersection_none (s t : KeySpan K) : span_intersection s t = None →
  ∀ k, span_contains s k = true → span_contains t k = true → False.
Proof.
  unfold span_intersection. intros Hu k. rewrite !contains_spec. intros [Hs1 Hs2] [Ht1 Ht2].
  set (u := {| sp_start := _; sp_end := _ |}) in Hu.
  assert (Hk : above (sp_start u) k ∧ below (sp_end u) k).
  { unfold u. simpl. destruct (sp_start s), (sp_start t), (sp_end s), (sp_end t); rewrite ?above_max, ?below_min; tauto. }
  destruct (span_validate u) as [x|e] eqn:Hv; [done|].
  assert (Hok : span_validate u = Ok ()); [|congruence]. apply span_validate_ok. intros a b Ha Hb.
  rewrite Ha, Hb in Hk. destruct Hk as [Hle Hlt]. simpl in *. split.
  - etrans; [done|apply Hlt].
  - intros ->. by eapply key_le_lt.
Qed.

(** ** Chains *)
Lemma check_start_ok (e start : option K) u : check_start (Some e) start = Ok u ↔ start = e.
Proof.
  unfold check_start. destruct u, e as [a|], start as [b|]; try naive_solver.
  case_decide as He; [naive_solver|]. case_decide; naive_solver.
Qed.
Lemma check_ranges_end earlier l u : check_ranges None earlier l = Ok u → l = [].
Proof. destruct l as [|r l]; [done|]. simpl. intros Hc. ok_inv. Qed.
Lemma check_ranges_nil (e : option K) earlier u : check_ranges (M := M) (Some e) earlier [] = Ok u → False.
Proof. simpl. rewrite refuse_if_ok. intros Hn. apply Hn. by eexists. Qed.
Lemma check_ranges_cons e earlier r l u : check_ranges (Some e) earlier (r :: l) = Ok u ↔
  descriptor_validate r = Ok () ∧ rd_id r ∉ earlier ∧ sp_start (rd_span r) = e ∧
  check_ranges (Some <$> sp_end (rd_span r)) (earlier ++ [rd_id r]) l = Ok ().
Proof.
  destruct u. cbn [check_ranges]. split.
  - intros Hc. apply try_bind_ok in Hc as ([] & Hv & Hc). apply refuse_then_ok in Hc as [Hid Hc].
    apply try_bind_ok in Hc as ([] & Hs & Hc). apply check_start_ok in Hs. done.
  - intros (Hv & Hid & Hs & Hc). rewrite Hv. cbn [mbind try_bind]. rewrite refuse_pass by done.
    assert (check_start (Some e) (sp_start (rd_span r)) = Ok ()) as -> by (by apply check_start_ok). done.
Qed.
Lemma descriptor_ok r u : descriptor_validate r = Ok u ↔ span_validate (rd_span r) = Ok () ∧ rd_generation r ≠ 0%N.
Proof.
  destruct u. unfold descriptor_validate. rewrite try_bind_ok. setoid_rewrite refuse_if_ok. split.
  - by intros ([] & ? & ?).
  - intros [? ?]. by exists ().
Qed.
Lemma check_ranges_nodup e earlier l u : check_ranges e earlier l = Ok u → NoDup earlier → NoDup (earlier ++ (rd_id <$> l)).
Proof.
  revert e earlier. induction l as [|r l IH]; intros e earlier Hc Hn; [by rewrite app_nil_r|].
  destruct e as [e|]; [|by apply check_ranges_end in Hc]. destruct u. apply check_ranges_cons in Hc as (_ & Hid & _ & Hc).
  rewrite fmap_cons, cons_middle, app_assoc. apply (IH _ _ Hc). apply NoDup_app. split; [done|]. split; [set_solver|apply NoDup_singleton].
Qed.
Lemma chain_above (e : option K) earlier l k : check_ranges (Some e) earlier l = Ok () →
  ∀ r, r ∈ l → span_contains (rd_span r) k = true → above e k.
Proof.
  revert e earlier. induction l as [|r l IH]; intros e earlier Hc r' Hr' Hk; [by apply not_elem_of_nil in Hr'|].
  apply check_ranges_cons in Hc as (Hv & _ & Hs & Hc). apply descriptor_ok in Hv as [Hv _].
  apply elem_of_cons in Hr' as [->|Hr']; [apply contains_spec in Hk; naive_solver|].
  destruct (sp_end (rd_span r)) as [b|] eqn:Hb; [|apply check_ranges_end in Hc; subst; by apply not_elem_of_nil in Hr'].
  pose proof (IH _ _ Hc r' Hr' Hk) as Hbk. destruct e as [a|]; [|done]. simpl in *.
  assert (key_lt a b) as [Hab _] by (by apply span_validate_ok with (u := ()) (s := rd_span r)). by etrans.
Qed.
(** The predicate of the route. *)
Definition starts_by (k : K) (r : RangeDescriptor K M) : bool :=
  match sp_start (rd_span r) with None => true | Some start => bool_decide (key_le start k) end.
Lemma starts_by_above k r : starts_by k r = true ↔ above (sp_start (rd_span r)) k.
Proof. unfold starts_by, above. destruct (sp_start _); [apply bool_decide_eq_true|done]. Qed.
Lemma chain_route (e : option K) earlier l k : check_ranges (Some e) earlier l = Ok () → above e k →
  ∃ i r, partition_point (starts_by k) l = S i ∧ l !! i = Some r ∧ span_contains (rd_span r) k = true ∧
  ∀ j r', l !! j = Some r' → span_contains (rd_span r') k = true → j = i.
Proof.
  revert e earlier. induction l as [|r l IH]; intros e earlier Hc Hk; [by apply check_ranges_nil in Hc|].
  apply check_ranges_cons in Hc as (_ & _ & Hs & Hc). rewrite <-Hs in Hk. clear Hs e.
  cbn [partition_point]. assert (starts_by k r = true) as -> by (by apply starts_by_above).
  destruct (sp_end (rd_span r)) as [b|] eqn:Hb; [destruct (decide (key_le b k)) as [Hbk|Hbk%key_nle]|].
  - destruct (IH (Some b) _ Hc Hbk) as (i & r' & Hp & Hi & Hr' & Hu). exists (S i), r'. rewrite Hp. split_and!; [done..|].
    intros [|j] x Hx Hxk; [|by rewrite (Hu j x Hx Hxk)]. injection Hx as <-. apply contains_spec in Hxk as [_ Hxk].
    rewrite Hb in Hxk. by apply key_le_lt in Hbk.
  - exists 0, r. split_and!; [|done|apply contains_spec; rewrite Hb; done|].
    + destruct l as [|r' l]; [done|]. apply check_ranges_cons in Hc as (_ & _ & Hs & _). simpl.
      destruct (starts_by k r') eqn:Hst; [|done]. apply starts_by_above in Hst. rewrite Hs in Hst. by apply key_le_lt in Hst.
    + intros [|j] x Hx Hxk; [done|]. exfalso. pose proof (chain_above _ _ _ k Hc x) as Hab.
      apply (key_le_lt b k); [|done]. apply Hab; [by eapply list_elem_of_lookup_2|done].
  - apply check_ranges_end in Hc. subst l. exists 0, r. split_and!; [done|done|apply contains_spec; by rewrite Hb|].
    intros [|j] x Hx; [done|]. done.
Qed.

(** ** Validated maps *)
Definition valid_ranges m : Prop := kr_epoch m ≠ 0%N ∧ check_ranges (Some None) [] (kr_ranges m) = Ok ().
Lemma ranges_validate_ok m limits u : ranges_validate m limits = Ok u ↔
  valid_ranges m ∧ rml_max_ranges limits ≠ 0%N ∧ (N.of_nat (length (kr_ranges m)) <= rml_max_ranges limits)%N.
Proof.
  destruct u. unfold ranges_validate, valid_ranges. rewrite !refuse_then_ok. split.
  - intros (? & Hn & ? & Hc). split_and!; [naive_solver|done|done|lia].
  - intros ((? & Hc) & ? & ?). split_and!; [done| |lia|done]. intros [?|Hz]; [done|]. rewrite Hz in Hc.
    by apply check_ranges_nil in Hc.
Qed.
Lemma valid_nodup m : valid_ranges m → NoDup (rd_id <$> kr_ranges m).
Proof. intros [_ Hc]. apply (check_ranges_nodup _ [] _ _ Hc). constructor. Qed.
Lemma valid_route m k : valid_ranges m → ∃ i r, range_route m k = Some i ∧ kr_ranges m !! i = Some r ∧
  span_contains (rd_span r) k = true ∧ ∀ j r', kr_ranges m !! j = Some r' → span_contains (rd_span r') k = true → j = i.
Proof.
  intros [_ Hc]. destruct (chain_route None [] _ k Hc I) as (i & r & Hp & Hi & Hr & Hu). exists i, r. split_and!; [|done..].
  unfold range_route. unfold starts_by in Hp. rewrite Hp, Hi. simpl. by rewrite Hr.
Qed.
Lemma routed_iff m k r : valid_ranges m → range_routed m k = Some r ↔ r ∈ kr_ranges m ∧ span_contains (rd_span r) k = true.
Proof.
  intros Hv. destruct (valid_route m k Hv) as (i & r0 & Hr & Hi & Hk & Hu). unfold range_routed. rewrite Hr. simpl. rewrite Hi.
  split.
  - intros [= <-]. split; [by eapply list_elem_of_lookup_2|done].
  - intros [[j Hj]%list_elem_of_lookup_1 Hrk]. rewrite (Hu j r Hj Hrk) in Hj. congruence.
Qed.
Lemma range_get_ok m id r : range_get m id = Some r → r ∈ kr_ranges m ∧ rd_id r = id.
Proof.
  unfold range_get, range_position. destruct (list_find _ _) as [[i x]|] eqn:Hf; simpl; [|done]. intros Hi.
  apply list_find_Some in Hf as (Hx & Hid & _). rewrite Hx in Hi. injection Hi as <-. split; [by eapply list_elem_of_lookup_2|done].
Qed.
Lemma range_get_elem m r : NoDup (rd_id <$> kr_ranges m) → r ∈ kr_ranges m → range_get m (rd_id r) = Some r.
Proof.
  intros Hn [i Hi]%list_elem_of_lookup_1. unfold range_get, range_position.
  destruct (list_find (λ r', rd_id r' = rd_id r) (kr_ranges m)) as [[j x]|] eqn:Hf; simpl.
  - apply list_find_Some in Hf as (Hx & Hid & _). assert (j = i) as ->; [|done].
    eapply (NoDup_lookup _ _ _ (rd_id r) Hn); rewrite list_lookup_fmap; [rewrite Hx|rewrite Hi]; simpl; by f_equal.
  - apply list_find_None in Hf. rewrite Forall_forall in Hf. exfalso. by eapply Hf; [eapply list_elem_of_lookup_2|].
Qed.

(** ** Replacements *)
Definition indexed (n : nat) l : list (nat * RangeDescriptor K M) := imap (λ i r, (n + i, r)) l.
Lemma indexed_cons n r l : indexed n (r :: l) = (n, r) :: indexed (S n) l.
Proof.
  unfold indexed. rewrite imap_cons, Nat.add_0_r. f_equal. apply imap_ext. intros i x _. simpl. f_equal. lia.
Qed.
Lemma elem_of_indexed n l i r : (i, r) ∈ indexed n l ↔ n ≤ i ∧ l !! (i - n) = Some r.
Proof.
  revert n. induction l as [|x l IH]; intros n.
  { unfold indexed. simpl. rewrite lookup_nil. split; [intros Hi; by apply not_elem_of_nil in Hi|naive_solver]. }
  rewrite indexed_cons, elem_of_cons, IH. split.
  - intros [[= -> ->]|[? Hl]]; [split; [lia|by rewrite Nat.sub_diag]|].
    split; [lia|]. replace (i - n) with (S (i - S n)) by lia. done.
  - intros [Hn Hl]. destruct (decide (i = n)) as [->|Hne]; [rewrite Nat.sub_diag in Hl; injection Hl as ->; by left|].
    right. split; [lia|]. replace (i - n) with (S (i - S n)) in Hl by lia. done.
Qed.
Lemma indexed_sorted n l (P : nat * RangeDescriptor K M → Prop) `{∀ x, Decision (P x)} :
  StronglySorted lt (fst <$> filter P (indexed n l)).
Proof.
  revert n. induction l as [|x l IH]; intros n; [constructor|]. rewrite indexed_cons, filter_cons. case_decide; [|apply IH].
  rewrite fmap_cons. constructor; [apply IH|]. rewrite Forall_forall. intros j ([j' y] & -> & Hj)%list_elem_of_fmap.
  apply list_elem_of_filter in Hj as [_ Hj]. apply elem_of_indexed in Hj as [Hj _]. simpl. lia.
Qed.
Lemma positions_elem sources m i : i ∈ source_positions sources m ↔ ∃ r, kr_ranges m !! i = Some r ∧ rd_id r ∈ sources.
Proof.
  unfold source_positions. change (imap pair (kr_ranges m)) with (indexed 0 (kr_ranges m)). rewrite list_elem_of_fmap. split.
  - intros ([j r] & -> & Hj). apply list_elem_of_filter in Hj as [Hs Hj]. apply elem_of_indexed in Hj as [_ Hj].
    rewrite Nat.sub_0_r in Hj. by exists r.
  - intros (r & Hr & Hs). exists (i, r). split; [done|]. apply list_elem_of_filter. split; [done|].
    apply elem_of_indexed. rewrite Nat.sub_0_r. split; [lia|done].
Qed.
Lemma positions_sorted sources m : StronglySorted lt (source_positions sources m).
Proof. apply (indexed_sorted 0). Qed.
Lemma sorted_head (l : list nat) a x : StronglySorted lt l → head l = Some a → x ∈ l → a ≤ x.
Proof.
  destruct l as [|y l]; [done|]. intros [Hy _]%StronglySorted_cons [= ->] [->|Hx]%elem_of_cons; [done|].
  rewrite Forall_forall in Hy. specialize (Hy x Hx). lia.
Qed.
Lemma sorted_final (l : list nat) a x : StronglySorted lt l → last l = Some a → x ∈ l → x ≤ a.
Proof.
  intros Hs Hl Hx. apply (sorted_last le l a x); [|done..]. clear Hl Hx.
  induction Hs as [|y l _ IH Hy]; constructor; [done|]. eapply Forall_impl; [exact Hy|]. simpl. lia.
Qed.
Lemma sorted_lt_nodup (l : list nat) : StronglySorted lt l → NoDup l.
Proof.
  induction 1 as [|x l Hs IH Hx]; constructor; [|done]. intros Hin. rewrite Forall_forall in Hx. specialize (Hx x Hin). lia.
Qed.
(** An increasing list as long as its bounds allow has every number between them. *)
Lemma sorted_contiguous (l : list nat) a b : StronglySorted lt l → head l = Some a → last l = Some b →
  length l = S (b - a) → ∀ i, a ≤ i ≤ b → i ∈ l.
Proof.
  intros Hs Ha Hb Hlen i Hi.
  assert (Hp : l ≡ₚ seq a (S (b - a))).
  { apply submseteq_length_Permutation; [|rewrite length_seq; lia].
    apply NoDup_submseteq; [by apply sorted_lt_nodup|]. intros x Hx. apply elem_of_seq.
    pose proof (sorted_head l a x Hs Ha Hx). pose proof (sorted_final l b x Hs Hb Hx). lia. }
  rewrite Hp. apply elem_of_seq. lia.
Qed.

(** When each source is found, the positions are those of the sources. *)
Lemma sources_found sources m : NoDup (rd_id <$> kr_ranges m) → NoDup sources →
  length (source_positions sources m) = length sources →
  (λ x, rd_id x.2) <$> filter (λ '(_, r), rd_id r ∈ sources) (indexed 0 (kr_ranges m)) ≡ₚ sources.
Proof.
  intros Hnd Hds Hlen. set (fs := filter _ _).
  assert (Hfs : NoDup fs).
  { apply (NoDup_fmap_1 fst). apply sorted_lt_nodup. apply indexed_sorted. }
  apply submseteq_length_Permutation.
  - apply NoDup_submseteq.
    + apply NoDup_fmap_2_strong; [|done]. intros [i r] [j r'] Hi Hj Hid. simpl in Hid.
      apply list_elem_of_filter in Hi as [_ Hi]. apply list_elem_of_filter in Hj as [_ Hj].
      apply elem_of_indexed in Hi as [_ Hi]. apply elem_of_indexed in Hj as [_ Hj]. rewrite Nat.sub_0_r in Hi, Hj.
      assert (i = j) as ->; [|congruence].
      eapply (NoDup_lookup _ _ _ (rd_id r) Hnd); rewrite list_lookup_fmap; [by rewrite Hi|rewrite Hj; simpl; by f_equal].
    + intros id ([i r] & -> & Hr)%list_elem_of_fmap. apply list_elem_of_filter in Hr as [Hr _]. done.
  - rewrite length_fmap, <-Hlen. unfold source_positions. by rewrite length_fmap.
Qed.

(** What a successful replacement did. *)
Record replaced m (sources : list RangeId) (replacements : list (RangeDescriptor K M)) m' (first final : nat) : Prop := {
  re_ranges : kr_ranges m' = take first (kr_ranges m) ++ replacements ++ drop (S final) (kr_ranges m);
  re_epoch : kr_epoch m' = (kr_epoch m + 1)%N;
  re_fits : (kr_epoch m + 1 <= u64_max)%N;
  re_valid : valid_ranges m';
  re_order : first ≤ final < length (kr_ranges m);
  re_taken : ∀ i r, kr_ranges m !! i = Some r → first ≤ i ≤ final ↔ rd_id r ∈ sources;
  re_sources : ∀ id, id ∈ sources → ∃ r, r ∈ kr_ranges m ∧ rd_id r = id;
  re_generation : ∀ r, r ∈ replacements → check_generation m sources r = Ok ()
}.
Lemma ranges_replace_ok m sources replacements limits m' : NoDup (rd_id <$> kr_ranges m) →
  ranges_replace m sources replacements limits = Ok m' → ∃ first final, replaced m sources replacements m' first final.
Proof.
  intros Hnd Hr. unfold ranges_replace in Hr. apply refuse_then_ok in Hr as [_ Hr].
  apply refuse_then_ok in Hr as [Hsrc Hr]. apply try_bind_ok in Hr as (first & Hfirst%or_fail_ok & Hr).
  apply try_bind_ok in Hr as (final & Hfinal%or_fail_ok & Hr).
  apply try_bind_ok in Hr as (count & Hcount%or_fail_ok & Hr). apply refuse_then_ok in Hr as [Hlen Hr].
  do 4 (apply try_bind_ok in Hr as (? & _ & Hr)). apply refuse_then_ok in Hr as [_ Hr].
  apply try_bind_ok in Hr as ([] & Hgen & Hr). apply try_bind_ok in Hr as (? & _ & Hr).
  apply try_bind_ok in Hr as (epoch & Hepoch%or_fail_ok%checked_add_Some & Hr).
  unfold ranges_new in Hr. apply try_bind_ok in Hr as ([] & Hv & Hr). injection Hr as <-.
  apply ranges_validate_ok in Hv as (Hv & _ & _). destruct Hepoch as [-> Hfits].
  assert (Hd : NoDup sources ∧ length (source_positions sources m) = length sources)
    by (split; apply dec_stable; naive_solver). destruct Hd as [Hds Hdl].
  assert (Hc : first ≤ final ∧ length (source_positions sources m) = S (final - first)).
  { destruct (checked_sub (N.of_nat final) (N.of_nat first)) as [d|] eqn:Hsub; [|done]. simpl in Hcount.
    apply checked_sub_Some in Hsub as [? ->]. apply checked_add_Some in Hcount as [-> _].
    apply dec_stable in Hlen. split; lia. }
  destruct Hc as [Hle Hcl]. pose proof (positions_sorted sources m) as Hsorted.
  exists first, final. split; simpl; [done|done|done|done| | | |exact (proj1 (try_each_ok _ _ _) Hgen)].
  - split; [done|]. apply last_Some_elem_of, positions_elem in Hfinal as (r & Hrl & _). by eapply lookup_lt_Some.
  - intros i r Hi. split.
    + intros Hin. pose proof (sorted_contiguous _ _ _ Hsorted Hfirst Hfinal Hcl i Hin) as Hp.
      apply positions_elem in Hp as (r' & Hr' & Hs). congruence.
    + intros Hs. assert (Hp : i ∈ source_positions sources m) by (apply positions_elem; by exists r).
      split; [by eapply sorted_head|by eapply sorted_final].
  - intros id Hid.
    rewrite <-(sources_found sources m Hnd Hds Hdl) in Hid. apply list_elem_of_fmap in Hid as ([i r] & -> & Hr).
    apply list_elem_of_filter in Hr as [_ Hr]. apply elem_of_indexed in Hr as [_ Hr]. exists r.
    split; [by eapply list_elem_of_lookup_2|done].
Qed.
Lemma replaced_elem m sources replacements m' first final r : replaced m sources replacements m' first final →
  r ∈ kr_ranges m' ↔ r ∈ replacements ∨ (r ∈ kr_ranges m ∧ rd_id r ∉ sources).
Proof.
  intros Hre. rewrite (re_ranges _ _ _ _ _ _ Hre), !elem_of_app. split.
  - intros [Hin|[Hin|Hin]]; [right|by left|right].
    + apply list_elem_of_lookup_1 in Hin as [i Hi]. apply lookup_take_Some in Hi as [Hi Hlt].
      split; [by eapply list_elem_of_lookup_2|]. rewrite <-(re_taken _ _ _ _ _ _ Hre i r Hi). lia.
    + apply list_elem_of_lookup_1 in Hin as [i Hi]. rewrite lookup_drop in Hi.
      split; [by eapply list_elem_of_lookup_2|]. rewrite <-(re_taken _ _ _ _ _ _ Hre _ r Hi). lia.
  - intros [Hin|[Hin Hout]]; [by right; left|]. apply list_elem_of_lookup_1 in Hin as [i Hi].
    rewrite <-(re_taken _ _ _ _ _ _ Hre i r Hi) in Hout. destruct (decide (i < first)).
    + left. apply (list_elem_of_lookup_2 _ i). by rewrite lookup_take_lt.
    + right. right. apply (list_elem_of_lookup_2 _ (i - S final)). rewrite lookup_drop.
      replace (S final + (i - S final)) with i by lia. done.
Qed.
(** A key keeps its range unless that range is replaced, and then goes to a
    replacement. *)
Lemma replaced_routes m sources replacements m' first final k r : valid_ranges m →
  replaced m sources replacements m' first final → range_routed m k = Some r →
  ∃ r', range_routed m' k = Some r' ∧ if decide (rd_id r ∈ sources) then r' ∈ replacements else r' = r.
Proof.
  intros Hv Hre Hr. pose proof (re_valid _ _ _ _ _ _ Hre) as Hv'. apply routed_iff in Hr as [Hin Hk]; [|done].
  case_decide as Hs.
  - destruct (valid_route m' k Hv') as (i & r' & Hi & Hl & Hk' & _). exists r'.
    assert (Hr' : r' ∈ kr_ranges m') by (by eapply list_elem_of_lookup_2). split; [by apply routed_iff|].
    apply (replaced_elem _ _ _ _ _ _ _ Hre) in Hr' as [?|[Hold Hout]]; [done|]. exfalso.
    assert (range_routed m k = Some r') as H1 by (by apply routed_iff).
    assert (range_routed m k = Some r) as H2 by (by apply routed_iff). congruence.
  - exists r. split; [|done]. apply routed_iff; [done|]. split; [|done]. apply (replaced_elem _ _ _ _ _ _ _ Hre). by right.
Qed.
(** A kept identity advances, and no other identity is reused. *)
Lemma replaced_generation m sources replacements m' first final r : valid_ranges m →
  replaced m sources replacements m' first final → r ∈ kr_ranges m' →
  match range_get m (rd_id r) with
  | Some old => r = old ∨ rd_generation r = (rd_generation old + 1)%N
  | None => rd_generation r = 1%N
  end.
Proof.
  intros Hv Hre Hr. apply (replaced_elem _ _ _ _ _ _ _ Hre) in Hr as [Hr|[Hr _]].
  - apply (re_generation _ _ _ _ _ _ Hre) in Hr. unfold check_generation in Hr. destruct (range_get m (rd_id r)) as [old|].
    + apply refuse_if_ok in Hr. right. destruct (checked_add (rd_generation old) 1) as [g|] eqn:Hg; [|naive_solver].
      apply checked_add_Some in Hg as [-> _]. assert (Hd : Some (rd_generation old + 1)%N = Some (rd_generation r))
        by (apply dec_stable; naive_solver). by injection Hd.
    + apply refuse_if_ok in Hr. by apply dec_stable.
  - rewrite range_get_elem; [by left|by apply valid_nodup|done].
Qed.
End Laws.
