(* ===== verification/RangeTypes.v ===== *)
(** * Range layout and proofs (focal-ranges: lib.rs, types.rs, map.rs)

    The transfer key, who holds a range, the map of one ledger's ranges, and
    the authenticated facts that movements of ranges rest on. Identifiers and
    hashes are [N]. The verifier of authenticated facts, the digests (blake3 over
    the serialization library's bytes), serialized sizes and the compiler's type
    sizes are parameters. *)
From stdpp Require Import prelude gmap strings list.
From Stdlib Require Import NArith.
From S2P Require Import Prelude Fallible Objects Budget RangeMap.

Notation TransferId := N (only parsing).
Notation ControllerIncarnation := N (only parsing).
Notation QueryId := N (only parsing).
Notation TransactionId := N (only parsing).
Notation RouteEpoch := N (only parsing).
Notation RaftIndex := N (only parsing).
Notation RaftTerm := N (only parsing).

Module RangeError.
Inductive t :=
  | Invalid (why : string)
  | Capacity | Overflow | WrongLedger | WrongOwner | StaleEpoch | Generation | Gap | Overlap | Missing
  | Conflict | Phase | NotReady | Unverified | Checksum | StalePreparation | RetryTooOld | ReadTooOld
  | Expired | ClockRegression | Pinned | Sealed
  | Memory (error : MemoryError)
  | Codec.
End RangeError.
Notation RangeError := RangeError.t.

#[local] Open Scope N_scope.

(** [add], [mul] and [row] of lib.rs. *)
Definition range_add (a b : N) : Try RangeError N := or_fail (checked_add a b) RangeError.Overflow.
Definition range_mul (a b : N) : Try RangeError N := or_fail (checked_mul a b) RangeError.Overflow.
Definition saturating (n : N) : N := N.min n u64_max.
Definition range_row (size : N) : N := saturating (saturating (size + 32) * 16).
Definition nonzero (hash : ContentHash) : bool := negb (hash =? 0).
(** [From<RangeMapError>]. *)
Definition range_error_of (e : RangeMapError) : RangeError :=
  match e with
  | RangeMapError.Invalid why => RangeError.Invalid why
  | RangeMapError.Capacity => RangeError.Capacity
  | RangeMapError.Overflow => RangeError.Overflow
  | RangeMapError.Generation => RangeError.Generation
  | RangeMapError.Gap => RangeError.Gap
  | RangeMapError.Overlap => RangeError.Overlap
  | RangeMapError.Missing => RangeError.Missing
  | RangeMapError.Conflict => RangeError.Conflict
  end.

(** ** Keys, holders and placement *)
Record StorageKey := { sk_affinity : N; sk_family : N; sk_object : N; sk_slot : N }.
#[export] Instance storage_key_eq_dec : EqDecision StorageKey.
Proof. solve_decision. Defined.
Definition storage_key_tuple (k : StorageKey) : N * N * N * N :=
  (sk_affinity k, sk_family k, sk_object k, sk_slot k).
#[export] Instance storage_key_countable : Countable StorageKey.
Proof.
  apply (inj_countable' storage_key_tuple
    (λ '(a, f, o, s), {| sk_affinity := a; sk_family := f; sk_object := o; sk_slot := s |})).
  by intros [].
Defined.
(** The derived order: affinity first, then family, object and slot. *)
#[export] Program Instance storage_key_order : TableKey StorageKey :=
  {| key_code k := [sk_affinity k; sk_family k; sk_object k; sk_slot k] |}.
Next Obligation. intros [] [] [=]. by subst. Qed.
Definition storage_key_min : StorageKey := {| sk_affinity := 0; sk_family := 0; sk_object := 0; sk_slot := 0 |}.
Definition storage_key_claim (claim : ClaimId) (family : N) (object : ObjectId) (slot : N) : StorageKey :=
  {| sk_affinity := claim; sk_family := family; sk_object := object; sk_slot := slot |}.
Definition storage_key_bucket (affinity family slot : N) : StorageKey :=
  {| sk_affinity := affinity; sk_family := family; sk_object := 0; sk_slot := slot |}.

Record ReplicaId := { rp_node : N; rp_generation : N }.
#[export] Instance replica_id_eq_dec : EqDecision ReplicaId.
Proof. solve_decision. Defined.
#[export] Instance replica_id_countable : Countable ReplicaId.
Proof.
  apply (inj_countable' (λ r, (rp_node r, rp_generation r)) (λ '(n, g), {| rp_node := n; rp_generation := g |})).
  by intros [].
Defined.
#[export] Program Instance replica_id_key : TableKey ReplicaId :=
  {| key_code r := [rp_node r; rp_generation r] |}.
Next Obligation. intros [] [] [=]. by subst. Qed.
Definition replica_validate (r : ReplicaId) : Try RangeError () :=
  refuse_if (rp_node r = 0 ∨ rp_generation r = 0) RangeError.Generation.

Module Holder.
Inductive t := Voters | Replica (replica : ReplicaId).
#[export] Instance holder_eq_dec : EqDecision t.
Proof. solve_decision. Defined.
End Holder.
Notation Holder := Holder.t.
Export (hints) Holder.
Definition holder_replica (h : Holder) : option ReplicaId :=
  match h with Holder.Voters => None | Holder.Replica r => Some r end.
Definition holder_validate (h : Holder) : Try RangeError () :=
  match h with Holder.Voters => Ok () | Holder.Replica r => replica_validate r end.
Record Placement := { pm_owner : Holder; pm_readers : gset ReplicaId }.
#[export] Instance placement_eq_dec : EqDecision Placement.
Proof. solve_decision. Defined.
Definition placement_voters : Placement := {| pm_owner := Holder.Voters; pm_readers := ∅ |}.
Definition placement_replica (r : ReplicaId) : Placement := {| pm_owner := Holder.Replica r; pm_readers := ∅ |}.
Definition accepts_reader (p : Placement) (r : ReplicaId) : bool :=
  bool_decide (pm_owner p = Holder.Replica r) || bool_decide (r ∈ pm_readers p).
Definition replica_owner (p : Placement) : Try RangeError ReplicaId :=
  or_fail (holder_replica (pm_owner p)) RangeError.WrongOwner.

Notation Span := (KeySpan StorageKey).
Notation Descriptor := (RangeDescriptor StorageKey Placement).

(** ** Limits *)
Record RangeLimits := {
  max_ranges : N; max_readers : N; max_history : N; max_pins : N; max_pin_ttl : N; max_blocks : N;
  max_block_rows : N; max_block_bytes : N; max_replica_rows : N; max_batch_writes : N; max_receipts : N;
  max_checkpoint_bytes : N
}.
Definition range_limits_default : RangeLimits :=
  {| max_ranges := 64; max_readers := 4; max_history := 8; max_pins := 128; max_pin_ttl := 30000;
     max_blocks := 1024; max_block_rows := 256; max_block_bytes := 1024 * 1024; max_replica_rows := 1000000;
     max_batch_writes := 4096; max_receipts := 128; max_checkpoint_bytes := 64 * 1024 * 1024 |}.
Definition range_limits_validate (l : RangeLimits) : Try RangeError () :=
  refuse_if (0 ∈ [max_ranges l; max_readers l; max_history l; max_pins l; max_blocks l; max_block_rows l;
                  max_block_bytes l; max_replica_rows l; max_batch_writes l; max_receipts l;
                  max_checkpoint_bytes l] ∨ max_pin_ttl l = 0)
    (RangeError.Invalid "zero range limit").
Definition map_limits (l : RangeLimits) : RangeMapLimits := {| rml_max_ranges := max_ranges l |}.

(** ** Authenticated facts *)
Record CommitProof := {
  cm_ledger : LedgerId; cm_ordinal : N; cm_sequence : SessionSeq; cm_index : RaftIndex; cm_term : RaftTerm;
  cm_command : ContentHash; cm_attestation : ContentHash
}.
#[export] Instance commit_proof_eq_dec : EqDecision CommitProof.
Proof. solve_decision. Defined.
Record SourceSealProof := {
  ss_ledger : LedgerId; ss_operation : TransferId; ss_old_epoch : RouteEpoch; ss_range : RangeId;
  ss_range_generation : N; ss_replica : ReplicaId; ss_cut : SessionSeq; ss_checkpoint : ContentHash;
  ss_attestation : ContentHash
}.
#[export] Instance source_seal_eq_dec : EqDecision SourceSealProof.
Proof. solve_decision. Defined.
Record DestinationReady := {
  dr_ledger : LedgerId; dr_operation : TransferId; dr_new_epoch : RouteEpoch; dr_range : RangeId;
  dr_range_generation : N; dr_replica : ReplicaId; dr_seed : SessionSeq; dr_through : SessionSeq;
  dr_snapshot : ContentHash; dr_state : ContentHash; dr_checkpoint : ContentHash; dr_attestation : ContentHash
}.
#[export] Instance destination_ready_eq_dec : EqDecision DestinationReady.
Proof. solve_decision. Defined.
Record RecoveryProof := {
  rc_ledger : LedgerId; rc_epoch : RouteEpoch; rc_through : SessionSeq; rc_manifest : ContentHash;
  rc_attestation : ContentHash
}.
Record RangeProgress := {
  rg_ledger : LedgerId; rg_epoch : RouteEpoch; rg_range : RangeId; rg_range_generation : N;
  rg_replica : ReplicaId; rg_through : SessionSeq; rg_term : RaftTerm; rg_root : ContentHash;
  rg_attestation : ContentHash
}.
Record ReadAvailability := {
  ra_ledger : LedgerId; ra_epoch : RouteEpoch; ra_range : RangeId; ra_range_generation : N;
  ra_replica : ReplicaId; ra_prefix : SessionSeq; ra_lease : N; ra_expires_at : N; ra_root : ContentHash;
  ra_attestation : ContentHash
}.
Record DataRow := { dw_key : StorageKey; dw_value : list N }.
#[export] Instance data_row_eq_dec : EqDecision DataRow.
Proof. solve_decision. Defined.
Module RangeWrite.
Inductive t := Put (row : DataRow) | Delete (key : StorageKey).
End RangeWrite.
Notation RangeWrite := RangeWrite.t.
Definition write_key (w : RangeWrite) : StorageKey :=
  match w with RangeWrite.Put row => dw_key row | RangeWrite.Delete key => key end.
Record RangeBatch := {
  rb_ledger : LedgerId; rb_epoch : RouteEpoch; rb_range : RangeId; rb_range_generation : N;
  rb_sequence : SessionSeq; rb_transaction : TransactionId; rb_predecessor_reads : ContentHash;
  rb_decision : ContentHash; rb_writes : list RangeWrite
}.
(** What a destination is seeded with: blocks of rows and the manifest that lists
    them. *)
Record RangeBlock := { bk_index : N; bk_rows : list DataRow }.
#[export] Instance range_block_eq_dec : EqDecision RangeBlock.
Proof. solve_decision. Defined.
Record BlockDescriptor := {
  bd_index : N; bd_rows : N; bd_bytes : N; bd_first : StorageKey; bd_last : StorageKey; bd_hash : ContentHash
}.
Record SeedManifest := {
  sm_ledger : LedgerId; sm_operation : TransferId; sm_source_epoch : RouteEpoch; sm_target_epoch : RouteEpoch;
  sm_destination : Descriptor; sm_prefix : SessionSeq; sm_blocks : list BlockDescriptor
}.
(** The trait by which the session and replica runtime supplies authenticated
    evidence. *)
Record RangeVerifier := {
  vf_commit : CommitProof → Try RangeError ();
  vf_batch : RangeBatch → CommitProof → Try RangeError ();
  vf_source_seal : SourceSealProof → Try RangeError ();
  vf_destination_ready : DestinationReady → Try RangeError ();
  vf_recovery : RecoveryProof → Try RangeError ();
  vf_progress : RangeProgress → Try RangeError ();
  vf_read : ReadAvailability → Try RangeError ()
}.
Definition verify_commit (proof : CommitProof) (ledger : LedgerId) (ordinal : N) (sequence : SessionSeq)
    (command : ContentHash) (verifier : RangeVerifier) : Try RangeError () :=
  refuse_if (cm_ledger proof ≠ ledger) RangeError.WrongLedger;;
  refuse_if (cm_ordinal proof ≠ ordinal ∨ cm_sequence proof ≠ sequence ∨ cm_command proof ≠ command)
    RangeError.Conflict;;
  refuse_if (cm_index proof = 0 ∨ cm_term proof = 0 ∨ nonzero (cm_attestation proof) = false)
    RangeError.Unverified;;
  vf_commit verifier proof.

(** ** The map of a ledger *)
Definition validate_descriptor (d : Descriptor) (limits : RangeLimits) : Try RangeError () :=
  map_err range_error_of (span_validate (rd_span d));;
  holder_validate (pm_owner (rd_meta d));;
  refuse_if (rd_generation d = 0) RangeError.Generation;;
  refuse_if (max_readers limits < N.of_nat (size (pm_readers (rd_meta d)))) RangeError.Capacity;;
  try_each replica_validate (set_iter (pm_readers (rd_meta d))).
Record RangeMap := { rm_ledger : LedgerId; rm_map : KeyRanges StorageKey Placement }.
#[export] Instance range_map_eq_dec : EqDecision RangeMap.
Proof. solve_decision. Defined.
Definition rm_epoch (m : RangeMap) : RouteEpoch := kr_epoch (rm_map m).
Definition rm_ranges (m : RangeMap) : list Descriptor := kr_ranges (rm_map m).
Definition rm_get (m : RangeMap) (id : RangeId) : option Descriptor := range_get (rm_map m) id.
Definition rm_route (m : RangeMap) (key : StorageKey) : option Descriptor := range_routed (rm_map m) key.
Definition rm_validate (m : RangeMap) (limits : RangeLimits) : Try RangeError () :=
  range_limits_validate limits;;
  map_err range_error_of (ranges_validate (rm_map m) (map_limits limits));;
  try_each (λ d, validate_descriptor d limits) (rm_ranges m).
Definition rm_new (ledger : LedgerId) (epoch : RouteEpoch) (ranges : list Descriptor) (limits : RangeLimits) :
    Try RangeError RangeMap :=
  range_limits_validate limits;;
  inner ← map_err range_error_of (ranges_new epoch ranges (map_limits limits));
  let m := {| rm_ledger := ledger; rm_map := inner |} in
  rm_validate m limits;; mret m.
Definition rm_replace (m : RangeMap) (sources : gset RangeId) (replacements : list Descriptor)
    (limits : RangeLimits) : Try RangeError RangeMap :=
  inner ← map_err range_error_of (ranges_replace (rm_map m) (set_iter sources) replacements (map_limits limits));
  let m := {| rm_ledger := rm_ledger m; rm_map := inner |} in
  rm_validate m limits;; mret m.
(** The sizes of the compiler's layout. *)
Class RangeLayout := {
  size_of_Descriptor : N; size_of_ReplicaId : N; size_of_RangeProgress : N; size_of_Pin : N;
  size_of_ReadAvailability : N; size_of_RangeReadPlan : N; size_of_ReadFragment : N
}.
Definition rm_charge `{RangeLayout} (m : RangeMap) : Try RangeError N :=
  ranges ← range_mul (N.of_nat (length (rm_ranges m))) size_of_Descriptor;
  bytes ← range_add 256 ranges;
  try_fold (λ bytes d,
    readers ← range_mul (N.of_nat (size (pm_readers (rd_meta d)))) (range_row size_of_ReplicaId);
    range_add bytes readers) bytes (rm_ranges m).
