(* ===== verification/RangePins.v ===== *)
(** * Pinned reads (focal-ranges: pins.rs)

    A pin keeps the map a reader started under, so that a scan sees one layout
    while ranges move; a plan splits what is left of the scan into one fragment
    per range, each served by a replica whose availability covers it. The
    registry and the memory it is charged to are threaded as one state; a permit
    is dropped with what it was taken for. *)
From stdpp Require Import prelude gmap strings list.
From Stdlib Require Import NArith.
From S2P Require Import Prelude Fallible Objects Budget RangeMap RangeTypes.
#[local] Open Scope N_scope.

Record PinRequest := { pq_prefix : SessionSeq; pq_query : QueryId; pq_span : Span; pq_now : N; pq_ttl : N }.
Record RangeCursor := {
  rc_cursor_ledger : LedgerId; rc_incarnation : ControllerIncarnation; rc_pin : N; rc_query : QueryId;
  rc_cursor_epoch : RouteEpoch; rc_prefix : SessionSeq; rc_expires_at : N; rc_after : option StorageKey
}.
Record ReadFragment := {
  fr_span : Span; fr_after_exclusive : option StorageKey; fr_availability : ReadAvailability
}.
Record RangeReadPlan := { rp_cursor : RangeCursor; rp_fragments : list ReadFragment; rp_allocation : Allocation }.
Record Pin := {
  pi_map : RangeMap; pi_span : Span; pi_cursor : RangeCursor; pi_proofs : list ReadAvailability;
  pi_allocation : Allocation
}.
Record PinRegistry := {
  pr_incarnation : ControllerIncarnation; pr_pins : gmap N Pin; pr_next : N; pr_clock : N;
  pr_limits : RangeLimits; pr_budget : MemoryBudget
}.
Definition pins_new (incarnation : ControllerIncarnation) (limits : RangeLimits) (budget : MemoryBudget) :
    PinRegistry :=
  {| pr_incarnation := incarnation; pr_pins := ∅; pr_next := 0; pr_clock := 0; pr_limits := limits;
     pr_budget := budget |}.
Definition with_pins (pins : gmap N Pin) (next clock : N) (s : PinRegistry) : PinRegistry :=
  {| pr_incarnation := pr_incarnation s; pr_pins := pins; pr_next := next; pr_clock := clock;
     pr_limits := pr_limits s; pr_budget := pr_budget s |}.

(** [PinRegistry::advance]: pins that expired by [now] are dropped. *)
Definition live_at (now : N) (entry : N * Pin) : Prop := now < rc_expires_at (pi_cursor entry.2).
#[export] Instance live_at_dec now entry : Decision (live_at now entry).
Proof. unfold live_at. apply _. Defined.
Definition pins_dropped (pins : gmap N Pin) (F : Levels) : Levels :=
  foldl (λ F entry, allocation_drop (pi_allocation entry.2) F) F (entries pins).
Definition pins_advance (now : N) : Fallible (PinRegistry * Levels) RangeError () := λ '(s, F),
  if decide (now < pr_clock s) then (Err RangeError.ClockRegression, (s, F))
  else (Ok (), (with_pins (filter (live_at now) (pr_pins s)) (pr_next s) now s,
                pins_dropped (filter (λ entry, ¬ live_at now entry) (pr_pins s)) F)).

Definition intersects (span : Span) (d : Descriptor) : Prop := is_Some (span_intersection (rd_span d) span).
#[export] Instance intersects_dec span d : Decision (intersects span d).
Proof. unfold intersects. apply _. Defined.
Definition proofs_of (range : RangeId) : list ReadAvailability → list ReadAvailability :=
  filter (λ proof, ra_range proof = range).
(** One required range's proof: the only one that names it. *)
Definition check_availability (map : RangeMap) (cursor : RangeCursor) (proofs : list ReadAvailability)
    (verifier : RangeVerifier) (d : Descriptor) : Try RangeError () :=
  match proofs_of (rd_id d) proofs with
  | [] => Err RangeError.ReadTooOld
  | proof :: more =>
      refuse_if (more ≠ [] ∨ ra_ledger proof ≠ rc_cursor_ledger cursor ∨ ra_epoch proof ≠ rm_epoch map
                 ∨ ra_range_generation proof ≠ rd_generation d
                 ∨ accepts_reader (rd_meta d) (ra_replica proof) = false
                 ∨ ra_prefix proof ≠ rc_prefix cursor ∨ ra_lease proof = 0
                 ∨ ra_expires_at proof < rc_expires_at cursor
                 ∨ nonzero (ra_root proof) = false ∨ nonzero (ra_attestation proof) = false)
        RangeError.ReadTooOld;;
      vf_read verifier proof
  end.
#[export] Instance availability_eq_dec : EqDecision ReadAvailability.
Proof. solve_decision. Defined.
Definition validate_availability (map : RangeMap) (span : Span) (cursor : RangeCursor)
    (proofs : list ReadAvailability) (limits : RangeLimits) (verifier : RangeVerifier) : Try RangeError () :=
  refuse_if (max_ranges limits < N.of_nat (length proofs)) RangeError.Capacity;;
  let required := filter (intersects span) (rm_ranges map) in
  refuse_if (length proofs ≠ length required) RangeError.ReadTooOld;;
  try_each (check_availability map cursor proofs verifier) required.

Section Pins.
Context `{RangeLayout}.
Notation PinM := (Fallible (PinRegistry * Levels) RangeError).

(** A step of the budget beside the registry. *)
Definition on_levels {A} (m : Fallible Levels MemoryError A) : PinM A := λ '(s, F),
  match m F with (r, F) => (map_err RangeError.Memory r, (s, F)) end.
Definition pin_cursor (map : RangeMap) (request : PinRequest) (id expires_at : N) (s : PinRegistry) : RangeCursor :=
  {| rc_cursor_ledger := rm_ledger map; rc_incarnation := pr_incarnation s; rc_pin := id;
     rc_query := pq_query request; rc_cursor_epoch := rm_epoch map; rc_prefix := pq_prefix request;
     rc_expires_at := expires_at; rc_after := None |}.
Definition pins_pin (map : RangeMap) (request : PinRequest) (proofs : list ReadAvailability)
    (verifier : RangeVerifier) : PinM RangeCursor :=
  pins_advance (pq_now request);;
  lift (map_err range_error_of (span_validate (pq_span request)));;
  s ← gets fst;
  lift (refuse_if (pq_ttl request = 0 ∨ max_pin_ttl (pr_limits s) < pq_ttl request
                   ∨ N.of_nat (size (pr_pins s)) = max_pins (pr_limits s)) RangeError.Capacity);;
  expires_at ← lift (range_add (pq_now request) (pq_ttl request));
  id ← lift (range_add (pr_next s) 1);
  let cursor := pin_cursor map request id expires_at s in
  lift (validate_availability map (pq_span request) cursor proofs (pr_limits s) verifier);;
  map_bytes ← lift (rm_charge map);
  proof_bytes ← lift (range_mul (N.of_nat (length proofs)) size_of_ReadAvailability);
  held ← lift (range_add map_bytes proof_bytes);
  bytes ← lift (range_add (range_row size_of_Pin) held);
  allocation ← on_levels (reserve (pr_budget s) BudgetKind.ReadPins BudgetLane.Ordinary bytes);
  modify (λ '(s, F), (with_pins (<[id := {| pi_map := map; pi_span := pq_span request; pi_cursor := cursor;
                                            pi_proofs := proofs; pi_allocation := allocation |}]> (pr_pins s))
                        id (pr_clock s) s, F));;
  mret cursor.

Definition pins_checked (cursor : RangeCursor) (s : PinRegistry) : Try RangeError Pin :=
  refuse_if (rc_incarnation cursor ≠ pr_incarnation s) RangeError.ReadTooOld;;
  pin ← or_fail (pr_pins s !! rc_pin cursor) RangeError.Expired;
  let expected := pi_cursor pin in
  refuse_if (rc_cursor_ledger cursor ≠ rc_cursor_ledger expected ∨ rc_query cursor ≠ rc_query expected
             ∨ rc_cursor_epoch cursor ≠ rc_cursor_epoch expected ∨ rc_prefix cursor ≠ rc_prefix expected
             ∨ rc_expires_at cursor ≠ rc_expires_at expected) RangeError.Conflict;;
  refuse_if (match rc_after cursor with
             | Some after => negb (span_contains (pi_span pin) after)
             | None => false
             end = true) RangeError.Conflict;;
  mret pin.
(** The ranges a plan still has to read: those that meet the pinned span and do
    not end at or before the cursor. *)
Definition fragment_span (span : Span) (after : option StorageKey) (d : Descriptor) : option Span :=
  s ← span_intersection (rd_span d) span;
  match after, sp_end s with
  | Some after, Some stop => if decide (key_le stop after) then None else Some s
  | _, _ => Some s
  end.
Definition fragment_after (s : Span) (after : option StorageKey) : option StorageKey :=
  key ← after;
  match sp_start s with
  | None => Some key
  | Some start => if decide (key_le start key) then Some key else None
  end.
Fixpoint plan_fragments (span : Span) (after : option StorageKey) (proofs : list ReadAvailability)
    (ranges : list Descriptor) : Try RangeError (list ReadFragment) :=
  match ranges with
  | [] => mret []
  | d :: ranges =>
      match fragment_span span after d with
      | None => plan_fragments span after proofs ranges
      | Some s =>
          proof ← or_fail (head (proofs_of (rd_id d) proofs)) RangeError.ReadTooOld;
          rest ← plan_fragments span after proofs ranges;
          mret ({| fr_span := s; fr_after_exclusive := fragment_after s after; fr_availability := proof |} :: rest)
      end
  end.
(** [PinRegistry::plan]: over the pinned map, or over [target] with its own
    proofs. The permit is dropped when a fragment has no proof. *)
Definition pins_plan (cursor : RangeCursor) (now : N) (target : option (RangeMap * list ReadAvailability))
    (verifier : RangeVerifier) : PinM RangeReadPlan :=
  pins_advance now;;
  s ← gets fst;
  pin ← lift (pins_checked cursor s);
  let '(map, proofs) := default (pi_map pin, pi_proofs pin) target in
  lift (refuse_if (rm_ledger map ≠ rc_cursor_ledger cursor) RangeError.WrongLedger);;
  lift (validate_availability map (pi_span pin) cursor proofs (pr_limits s) verifier);;
  fragment_bytes ← lift (range_mul (N.of_nat (length (rm_ranges map))) size_of_ReadFragment);
  bytes ← lift (range_add size_of_RangeReadPlan fragment_bytes);
  allocation ← on_levels (reserve (pr_budget s) BudgetKind.Query BudgetLane.Ordinary bytes);
  match plan_fragments (pi_span pin) (rc_after cursor) proofs (rm_ranges map) with
  | Ok fragments => mret {| rp_cursor := cursor; rp_fragments := fragments; rp_allocation := allocation |}
  | Err e => modify (λ '(s, F), (s, allocation_drop allocation F));; lift (Err e)
  end.
Definition pins_release (cursor : RangeCursor) : PinM () :=
  s ← gets fst;
  pin ← lift (pins_checked cursor s);
  modify (λ '(s, F), (with_pins (delete (rc_pin cursor) (pr_pins s)) (pr_next s) (pr_clock s) s,
                      allocation_drop (pi_allocation pin) F)).
Definition pins_pinned (epoch : RouteEpoch) (s : PinRegistry) : bool :=
  bool_decide (map_Exists (λ _ pin, rc_cursor_epoch (pi_cursor pin) = epoch) (pr_pins s)).
End Pins.
