(* ===== verification/RangeTransfer.v ===== *)
(** * Fenced range transfers (focal-ranges: coordinator.rs)

    The coordinator applies one movement record of the session log at a time to a
    checkpoint: a transfer begins with an intent, collects the seeds of its
    replica-held destinations, raises a barrier, collects the seals of its
    sources and the readiness of its destinations, and activates the next map.
    A record is prepared against the current state and published once it is
    committed. *)
From stdpp Require Import prelude gmap strings list.
From Stdlib Require Import NArith.
From S2P Require Import Prelude Fallible Objects Budget RangeMap RangeTypes RangePins.
#[local] Open Scope N_scope.

Record RangeIntent := {
  it_ledger : LedgerId; it_operation : TransferId; it_old_epoch : RouteEpoch; it_sources : gset RangeId;
  it_replacements : list Descriptor; it_seed : SessionSeq
}.
#[export] Instance range_intent_eq_dec : EqDecision RangeIntent.
Proof. solve_decision. Defined.
Record TransferState := {
  ts_intent : RangeIntent; ts_desired : RangeMap; ts_intent_commit : option CommitProof;
  ts_snapshots : gmap RangeId ContentHash; ts_barrier : option CommitProof;
  ts_source_seals : gmap RangeId SourceSealProof; ts_ready : gmap RangeId DestinationReady
}.
Record ActivationCertificate := {
  ac_intent : RangeIntent; ac_map : RangeMap; ac_barrier : CommitProof;
  ac_snapshots : gmap RangeId ContentHash; ac_sources : gmap RangeId SourceSealProof;
  ac_destinations : gmap RangeId DestinationReady; ac_unchanged : list RangeProgress; ac_commit : CommitProof
}.
Record HistoricalMap := { hm_map : RangeMap; hm_activation : ActivationCertificate }.
Record RangeCheckpoint := {
  rk_schema : N; rk_map : RangeMap; rk_control_ordinal : N; rk_control_sequence : SessionSeq;
  rk_last_commit : option CommitProof; rk_published : SessionSeq; rk_pending : option TransferState;
  rk_history : list HistoricalMap
}.
Definition CHECKPOINT_SCHEMA : N := 2.
Module RangeOperation.
Inductive t :=
  | Begin (intent : RangeIntent)
  | Snapshot (operation : TransferId) (range : RangeId) (hash : ContentHash)
  | Barrier (operation : TransferId)
  | SourceSealed (proof : SourceSealProof)
  | Ready (proof : DestinationReady)
  | Activate (operation : TransferId) (map proofs : ContentHash) (unchanged : list RangeProgress)
  | Abort (operation : TransferId)
  | Cleanup (operation : TransferId) (recovery : RecoveryProof).
End RangeOperation.
Notation RangeOperation := RangeOperation.t.
Record IntentCertificate := { ic_intent : RangeIntent; ic_commit : CommitProof }.
Record BarrierCertificate := { bc_intent : RangeIntent; bc_commit : CommitProof }.

(** What is hashed: the digest of a value under a domain, and the length of a
    serialized value. *)
Module Hashed.
Inductive t :=
  | Map (map : RangeMap)
  | Command (ledger : LedgerId) (ordinal : N) (sequence : SessionSeq) (operation : RangeOperation)
  | TransferProofs (intent : RangeIntent) (snapshots : gmap RangeId ContentHash) (barrier : CommitProof)
      (sources : gmap RangeId SourceSealProof) (destinations : gmap RangeId DestinationReady)
  | Intent (intent : RangeIntent)
  | Block (block : RangeBlock)
  | Seed (manifest : SeedManifest)
  | Batch (batch : RangeBatch)
  | State (ledger : LedgerId) (span : Span) (rows : list (StorageKey * list N)).
End Hashed.
Notation Hashed := Hashed.t.
Class RangeWire := {
  digest : string → Hashed → Try RangeError ContentHash;
  operation_size : RangeOperation → Try RangeError N;
  checkpoint_size : RangeCheckpoint → Try RangeError N
}.

(** ** Updates of the checkpoint *)
Definition with_pending (p : option TransferState) (s : RangeCheckpoint) : RangeCheckpoint :=
  {| rk_schema := rk_schema s; rk_map := rk_map s; rk_control_ordinal := rk_control_ordinal s;
     rk_control_sequence := rk_control_sequence s; rk_last_commit := rk_last_commit s;
     rk_published := rk_published s; rk_pending := p; rk_history := rk_history s |}.
Definition with_history (h : list HistoricalMap) (s : RangeCheckpoint) : RangeCheckpoint :=
  {| rk_schema := rk_schema s; rk_map := rk_map s; rk_control_ordinal := rk_control_ordinal s;
     rk_control_sequence := rk_control_sequence s; rk_last_commit := rk_last_commit s;
     rk_published := rk_published s; rk_pending := rk_pending s; rk_history := h |}.
Definition with_map (m : RangeMap) (s : RangeCheckpoint) : RangeCheckpoint :=
  {| rk_schema := rk_schema s; rk_map := m; rk_control_ordinal := rk_control_ordinal s;
     rk_control_sequence := rk_control_sequence s; rk_last_commit := rk_last_commit s;
     rk_published := rk_published s; rk_pending := rk_pending s; rk_history := rk_history s |}.
Definition with_control (ordinal : N) (sequence : SessionSeq) (commit : option CommitProof)
    (s : RangeCheckpoint) : RangeCheckpoint :=
  {| rk_schema := rk_schema s; rk_map := rk_map s; rk_control_ordinal := ordinal;
     rk_control_sequence := sequence; rk_last_commit := commit; rk_published := rk_published s;
     rk_pending := rk_pending s; rk_history := rk_history s |}.
Definition with_published (p : SessionSeq) (s : RangeCheckpoint) : RangeCheckpoint :=
  {| rk_schema := rk_schema s; rk_map := rk_map s; rk_control_ordinal := rk_control_ordinal s;
     rk_control_sequence := rk_control_sequence s; rk_last_commit := rk_last_commit s;
     rk_published := p; rk_pending := rk_pending s; rk_history := rk_history s |}.
Definition on_transfer (commit : option CommitProof) (snapshots : gmap RangeId ContentHash)
    (barrier : option CommitProof) (seals : gmap RangeId SourceSealProof) (ready : gmap RangeId DestinationReady)
    (t : TransferState) : TransferState :=
  {| ts_intent := ts_intent t; ts_desired := ts_desired t; ts_intent_commit := commit;
     ts_snapshots := snapshots; ts_barrier := barrier; ts_source_seals := seals; ts_ready := ready |}.
Definition with_snapshots x t := on_transfer (ts_intent_commit t) x (ts_barrier t) (ts_source_seals t) (ts_ready t) t.
Definition with_barrier x t := on_transfer (ts_intent_commit t) (ts_snapshots t) x (ts_source_seals t) (ts_ready t) t.
Definition with_seals x t := on_transfer (ts_intent_commit t) (ts_snapshots t) (ts_barrier t) x (ts_ready t) t.
Definition with_ready x t := on_transfer (ts_intent_commit t) (ts_snapshots t) (ts_barrier t) (ts_source_seals t) x t.
Definition with_intent_commit x t := on_transfer x (ts_snapshots t) (ts_barrier t) (ts_source_seals t) (ts_ready t) t.

Definition replica_held (ranges : list Descriptor) : N :=
  N.of_nat (length (filter (λ d, is_Some (holder_replica (pm_owner (rd_meta d)))) ranges)).
Definition placeholder (ledger : LedgerId) (ordinal : N) (sequence : SessionSeq) (command : ContentHash) : CommitProof :=
  {| cm_ledger := ledger; cm_ordinal := ordinal; cm_sequence := sequence; cm_index := 0; cm_term := 0;
     cm_command := command; cm_attestation := 0 |}.
(** [pending]: the transfer a record names. *)
Definition pending_of (state : RangeCheckpoint) (operation : TransferId) : Try RangeError TransferState :=
  pending ← or_fail (rk_pending state) RangeError.Phase;
  refuse_if (it_operation (ts_intent pending) ≠ operation) RangeError.Conflict;;
  mret pending.
Definition validate_progress (map : RangeMap) (proof : RangeProgress) : Try RangeError () :=
  refuse_if (rg_ledger proof ≠ rm_ledger map) RangeError.WrongLedger;;
  range ← or_fail (rm_get map (rg_range proof)) RangeError.Missing;
  refuse_if (rg_epoch proof ≠ rm_epoch map ∨ rg_range_generation proof ≠ rd_generation range
             ∨ pm_owner (rd_meta range) ≠ Holder.Replica (rg_replica proof)) RangeError.Generation;;
  refuse_if (rg_term proof = 0 ∨ nonzero (rg_root proof) = false ∨ nonzero (rg_attestation proof) = false)
    RangeError.Unverified.

Section Transfer.
Context `{RangeWire}.

Definition rm_hash (m : RangeMap) : Try RangeError ContentHash := digest "focal.range-map.v1" (Hashed.Map m).
Definition range_command_hash (ledger : LedgerId) (ordinal : N) (sequence : SessionSeq) (operation : RangeOperation) :
    Try RangeError ContentHash :=
  digest "focal.range-command.v2" (Hashed.Command ledger ordinal sequence operation).
Definition proof_digest (intent : RangeIntent) (snapshots : gmap RangeId ContentHash) (barrier : CommitProof)
    (sources : gmap RangeId SourceSealProof) (destinations : gmap RangeId DestinationReady) :
    Try RangeError ContentHash :=
  digest "focal.range-transfer-proofs.v1" (Hashed.TransferProofs intent snapshots barrier sources destinations).
Definition state_charge (state : RangeCheckpoint) : Try RangeError N :=
  size ← checkpoint_size state;
  bytes ← range_add size 8192;
  range_mul bytes 32.

(** [ActivationCertificate::verify]. *)
Definition certificate_verify (c : ActivationCertificate) (limits : RangeLimits) (verifier : RangeVerifier) :
    Try RangeError () :=
  let ledger := it_ledger (ac_intent c) in
  rm_validate (ac_map c) limits;;
  refuse_if (rm_ledger (ac_map c) ≠ ledger
             ∨ checked_add (it_old_epoch (ac_intent c)) 1 ≠ Some (rm_epoch (ac_map c))) RangeError.StaleEpoch;;
  map ← rm_hash (ac_map c);
  proofs ← proof_digest (ac_intent c) (ac_snapshots c) (ac_barrier c) (ac_sources c) (ac_destinations c);
  let operation := RangeOperation.Activate (it_operation (ac_intent c)) map proofs (ac_unchanged c) in
  command ← range_command_hash ledger (cm_ordinal (ac_commit c)) (cm_sequence (ac_commit c)) operation;
  verify_commit (ac_commit c) ledger (cm_ordinal (ac_commit c)) (cm_sequence (ac_commit c)) command verifier;;
  refuse_if (cm_sequence (ac_commit c) <= cm_sequence (ac_barrier c)
             ∨ cm_sequence (ac_barrier c) < it_seed (ac_intent c)) RangeError.StaleEpoch;;
  try_each (λ entry, vf_source_seal verifier entry.2) (entries (ac_sources c));;
  try_each (λ entry, vf_destination_ready verifier entry.2) (entries (ac_destinations c)).

(** ** The movement records

    Each takes the checkpoint a record is prepared against to the one it leaves,
    but for the control fields. *)
Definition begin_transfer (limits : RangeLimits) (sequence : SessionSeq) (intent : RangeIntent)
    (state : RangeCheckpoint) : Try RangeError RangeCheckpoint :=
  match rk_pending state with
  | Some pending => refuse_if (ts_intent pending ≠ intent) RangeError.Phase;; mret state
  | None =>
      refuse_if (N.of_nat (length (rk_history state)) = max_history limits) RangeError.Capacity;;
      refuse_if (it_ledger intent ≠ rm_ledger (rk_map state)) RangeError.WrongLedger;;
      refuse_if (it_old_epoch intent ≠ rm_epoch (rk_map state) ∨ sequence < it_seed intent) RangeError.StaleEpoch;;
      refuse_if (it_operation intent ∈ (λ old, it_operation (ac_intent (hm_activation old))) <$> rk_history state)
        RangeError.Conflict;;
      desired ← rm_replace (rk_map state) (it_sources intent) (it_replacements intent) limits;
      mret (with_pending (Some {| ts_intent := intent; ts_desired := desired; ts_intent_commit := None;
        ts_snapshots := ∅; ts_barrier := None; ts_source_seals := ∅; ts_ready := ∅ |}) state)
  end.
Definition snapshot_transfer (operation : TransferId) (range : RangeId) (hash : ContentHash)
    (state : RangeCheckpoint) : Try RangeError RangeCheckpoint :=
  pending ← pending_of state operation;
  refuse_if (¬ Exists (λ d, rd_id d = range ∧ is_Some (holder_replica (pm_owner (rd_meta d))))
                 (it_replacements (ts_intent pending)) ∨ nonzero hash = false) RangeError.Checksum;;
  refuse_if (match ts_snapshots pending !! range with Some old => negb (old =? hash) | None => false end = true)
    RangeError.Conflict;;
  mret (with_pending (Some (with_snapshots (<[range := hash]> (ts_snapshots pending)) pending)) state).
Definition barrier_transfer (ordinal : N) (sequence : SessionSeq) (hash : ContentHash) (operation : TransferId)
    (state : RangeCheckpoint) : Try RangeError RangeCheckpoint :=
  pending ← pending_of state operation;
  refuse_if (N.of_nat (size (ts_snapshots pending)) ≠ replica_held (it_replacements (ts_intent pending)))
    RangeError.NotReady;;
  refuse_if (is_Some (ts_barrier pending)) RangeError.Conflict;;
  refuse_if (sequence < it_seed (ts_intent pending)) RangeError.StaleEpoch;;
  mret (with_pending (Some (with_barrier
    (Some (placeholder (it_ledger (ts_intent pending)) ordinal sequence hash)) pending)) state).
Definition seal_transfer (verifier : RangeVerifier) (proof : SourceSealProof) (state : RangeCheckpoint) :
    Try RangeError RangeCheckpoint :=
  source ← or_fail (rm_get (rk_map state) (ss_range proof)) RangeError.Missing;
  pending ← pending_of state (ss_operation proof);
  barrier ← or_fail (ts_barrier pending) RangeError.NotReady;
  let intent := ts_intent pending in
  refuse_if (ss_ledger proof ≠ it_ledger intent ∨ ss_old_epoch proof ≠ it_old_epoch intent
             ∨ ss_range proof ∉ it_sources intent ∨ ss_range_generation proof ≠ rd_generation source
             ∨ pm_owner (rd_meta source) ≠ Holder.Replica (ss_replica proof)
             ∨ ss_cut proof ≠ cm_sequence barrier ∨ nonzero (ss_checkpoint proof) = false
             ∨ nonzero (ss_attestation proof) = false) RangeError.Generation;;
  vf_source_seal verifier proof;;
  refuse_if (match ts_source_seals pending !! ss_range proof with
             | Some old => bool_decide (old ≠ proof) | None => false end = true) RangeError.Conflict;;
  mret (with_pending (Some (with_seals (<[ss_range proof := proof]> (ts_source_seals pending)) pending)) state).
Definition ready_transfer (verifier : RangeVerifier) (proof : DestinationReady) (state : RangeCheckpoint) :
    Try RangeError RangeCheckpoint :=
  pending ← pending_of state (dr_operation proof);
  let intent := ts_intent pending in
  target ← or_fail (snd <$> list_find (λ d, rd_id d = dr_range proof) (it_replacements intent)) RangeError.Missing;
  barrier ← or_fail (ts_barrier pending) RangeError.NotReady;
  refuse_if (dr_ledger proof ≠ it_ledger intent ∨ dr_new_epoch proof ≠ rm_epoch (ts_desired pending)
             ∨ dr_range_generation proof ≠ rd_generation target
             ∨ pm_owner (rd_meta target) ≠ Holder.Replica (dr_replica proof) ∨ dr_seed proof ≠ it_seed intent
             ∨ dr_through proof < cm_sequence barrier
             ∨ ts_snapshots pending !! dr_range proof ≠ Some (dr_snapshot proof)
             ∨ nonzero (dr_state proof) = false ∨ nonzero (dr_checkpoint proof) = false
             ∨ nonzero (dr_attestation proof) = false) RangeError.NotReady;;
  vf_destination_ready verifier proof;;
  refuse_if (match ts_ready pending !! dr_range proof with
             | Some old => dr_through proof <? dr_through old | None => false end = true) RangeError.StaleEpoch;;
  mret (with_pending (Some (with_ready (<[dr_range proof := proof]> (ts_ready pending)) pending)) state).
(** The replica-held ranges that stay, each shown to have reached the barrier. *)
Definition staying (intent : RangeIntent) (d : Descriptor) : Prop :=
  rd_id d ∉ it_sources intent ∧ is_Some (holder_replica (pm_owner (rd_meta d))).
#[export] Instance staying_dec intent d : Decision (staying intent d).
Proof. unfold staying. apply _. Defined.
Definition check_unchanged (map : RangeMap) (barrier : CommitProof) (unchanged : list RangeProgress)
    (verifier : RangeVerifier) (d : Descriptor) : Try RangeError () :=
  match filter (λ proof, rg_range proof = rd_id d) unchanged with
  | [proof] =>
      validate_progress map proof;;
      refuse_if (rg_through proof < cm_sequence barrier) RangeError.NotReady;;
      vf_progress verifier proof
  | _ => Err RangeError.NotReady
  end.
Definition activate_transfer (verifier : RangeVerifier) (ordinal : N) (sequence : SessionSeq) (hash : ContentHash)
    (operation : TransferId) (map proofs : ContentHash) (unchanged : list RangeProgress)
    (state : RangeCheckpoint) : Try RangeError RangeCheckpoint :=
  pending ← pending_of state operation;
  barrier ← or_fail (ts_barrier pending) RangeError.NotReady;
  let intent := ts_intent pending in
  desired_hash ← rm_hash (ts_desired pending);
  refuse_if (map ≠ desired_hash) RangeError.Checksum;;
  transfer_hash ← proof_digest intent (ts_snapshots pending) barrier (ts_source_seals pending) (ts_ready pending);
  refuse_if (proofs ≠ transfer_hash) RangeError.Checksum;;
  let sources := omap (rm_get (rk_map state)) (set_iter (it_sources intent)) in
  refuse_if (length sources ≠ size (it_sources intent)
             ∨ N.of_nat (size (ts_source_seals pending)) ≠ replica_held sources
             ∨ N.of_nat (size (ts_ready pending)) ≠ replica_held (it_replacements intent)
             ∨ sequence < cm_sequence barrier) RangeError.NotReady;;
  let others := filter (staying intent) (rm_ranges (rk_map state)) in
  refuse_if (length unchanged ≠ length others) RangeError.NotReady;;
  try_each (check_unchanged (rk_map state) barrier unchanged verifier) others;;
  let activation := {| ac_intent := intent; ac_map := ts_desired pending; ac_barrier := barrier;
    ac_snapshots := ts_snapshots pending; ac_sources := ts_source_seals pending;
    ac_destinations := ts_ready pending; ac_unchanged := unchanged;
    ac_commit := placeholder (rm_ledger (rk_map state)) ordinal sequence hash |} in
  mret (with_pending None (with_map (ts_desired pending)
    (with_history (rk_history state ++ [{| hm_map := rk_map state; hm_activation := activation |}]) state))).
Definition abort_transfer (operation : TransferId) (state : RangeCheckpoint) : Try RangeError RangeCheckpoint :=
  pending ← pending_of state operation;
  refuse_if (is_Some (ts_barrier pending)) RangeError.Sealed;;
  mret (with_pending None state).
Definition cleanup_transfer (pins : PinRegistry) (verifier : RangeVerifier) (operation : TransferId)
    (recovery : RecoveryProof) (state : RangeCheckpoint) : Try RangeError RangeCheckpoint :=
  '(position, history) ← or_fail (list_find (λ old, it_operation (ac_intent (hm_activation old)) = operation)
    (rk_history state)) RangeError.Missing;
  refuse_if (pins_pinned (rm_epoch (hm_map history)) pins = true) RangeError.Pinned;;
  refuse_if (rc_ledger recovery ≠ rm_ledger (rk_map state)
             ∨ rc_epoch recovery < rm_epoch (ac_map (hm_activation history))
             ∨ rc_through recovery < cm_sequence (ac_barrier (hm_activation history))
             ∨ nonzero (rc_manifest recovery) = false ∨ nonzero (rc_attestation recovery) = false)
    RangeError.NotReady;;
  vf_recovery verifier recovery;;
  mret (with_history (delete position (rk_history state)) state).
End Transfer.
