(* ===== verification/RangeCoordinator.v ===== *)
(** * The range coordinator (focal-ranges: coordinator.rs)

    The owner of a ledger's checkpoint: it prepares and publishes movement
    records, re-lays the map, follows the progress of replica holders and serves
    pinned reads. The coordinator and the memory it is charged to are threaded as
    one state; a version's permit is dropped with it. *)
From stdpp Require Import prelude gmap strings list.
From Stdlib Require Import NArith.
From S2P Require Import Prelude Fallible Objects Budget RangeMap RangeTypes RangePins RangeTransfer.
#[local] Open Scope N_scope.

Record Version := { vs_state : RangeCheckpoint; vs_allocation : Allocation }.
Record PreparedRangeCommand := {
  pc_owner : N; pc_base_ordinal : N; pc_next : Version; pc_ordinal : N; pc_sequence : SessionSeq;
  pc_hash : ContentHash; pc_operation : RangeOperation; pc_existing : bool
}.
Record RangeCoordinator := {
  cd_root : Version; cd_owner : N; cd_limits : RangeLimits; cd_budget : MemoryBudget; cd_pins : PinRegistry;
  cd_progress : gmap RangeId RangeProgress; cd_committed : SessionSeq; cd_term : RaftTerm; cd_runtime : Allocation
}.
Definition cd_state (s : RangeCoordinator) : RangeCheckpoint := vs_state (cd_root s).
Definition cd_map (s : RangeCoordinator) : RangeMap := rk_map (cd_state s).
Definition with_root (root : Version) (progress : gmap RangeId RangeProgress) (committed : SessionSeq) (term : RaftTerm)
    (s : RangeCoordinator) : RangeCoordinator :=
  {| cd_root := root; cd_owner := cd_owner s; cd_limits := cd_limits s; cd_budget := cd_budget s;
     cd_pins := cd_pins s; cd_progress := progress; cd_committed := committed; cd_term := term;
     cd_runtime := cd_runtime s |}.
Definition with_pin_registry (pins : PinRegistry) (s : RangeCoordinator) : RangeCoordinator :=
  {| cd_root := cd_root s; cd_owner := cd_owner s; cd_limits := cd_limits s; cd_budget := cd_budget s;
     cd_pins := pins; cd_progress := cd_progress s; cd_committed := cd_committed s; cd_term := cd_term s;
     cd_runtime := cd_runtime s |}.

Section Coordinator.
Context `{RangeWire, RangeLayout}.

(** ** Checkpoints *)
Definition check_barrier (state : RangeCheckpoint) (pending : TransferState) : Try RangeError () :=
  match ts_barrier pending with
  | Some barrier =>
      refuse_if (cm_sequence barrier < it_seed (ts_intent pending)
                 ∨ rk_control_sequence state < cm_sequence barrier
                 ∨ rk_control_ordinal state < cm_ordinal barrier
                 ∨ cm_ledger barrier ≠ rm_ledger (rk_map state)) RangeError.Conflict;;
      command ← range_command_hash (rm_ledger (rk_map state)) (cm_ordinal barrier) (cm_sequence barrier)
        (RangeOperation.Barrier (it_operation (ts_intent pending)));
      refuse_if (cm_command barrier ≠ command) RangeError.Conflict
  | None => refuse_if (ts_source_seals pending ≠ ∅ ∨ ts_ready pending ≠ ∅) RangeError.Phase
  end.
Definition check_pending (state : RangeCheckpoint) (limits : RangeLimits) (pending : TransferState) :
    Try RangeError () :=
  let intent := ts_intent pending in
  desired ← rm_replace (rk_map state) (it_sources intent) (it_replacements intent) limits;
  refuse_if (it_ledger intent ≠ rm_ledger (rk_map state) ∨ it_old_epoch intent ≠ rm_epoch (rk_map state)
             ∨ desired ≠ ts_desired pending ∨ ts_intent_commit pending = None
             ∨ (length (it_replacements intent) < size (ts_snapshots pending))%nat
             ∨ (length (it_replacements intent) < size (ts_ready pending))%nat
             ∨ (size (it_sources intent) < size (ts_source_seals pending))%nat) RangeError.Conflict;;
  check_barrier state pending.
(** The history's epochs, each once and below the current one. *)
Definition check_history (state : RangeCheckpoint) (limits : RangeLimits) (epochs : list RouteEpoch)
    (old : HistoricalMap) : Try RangeError (list RouteEpoch) :=
  rm_validate (hm_map old) limits;;
  refuse_if (rm_ledger (hm_map old) ≠ rm_ledger (rk_map state)
             ∨ rm_epoch (rk_map state) <= rm_epoch (hm_map old)
             ∨ rm_epoch (hm_map old) ∈ epochs) RangeError.StaleEpoch;;
  next ← or_fail (checked_add (rm_epoch (hm_map old)) 1) RangeError.Overflow;
  refuse_if (rm_epoch (ac_map (hm_activation old)) ≠ next) RangeError.StaleEpoch;;
  mret (rm_epoch (hm_map old) :: epochs).
Definition commit_mismatch (state : RangeCheckpoint) (proof : CommitProof) : Prop :=
  cm_ledger proof ≠ rm_ledger (rk_map state) ∨ cm_ordinal proof ≠ rk_control_ordinal state
  ∨ cm_sequence proof ≠ rk_control_sequence state ∨ cm_index proof = 0 ∨ cm_term proof = 0
  ∨ nonzero (cm_attestation proof) = false.
#[export] Instance commit_mismatch_dec state proof : Decision (commit_mismatch state proof).
Proof. unfold commit_mismatch. apply _. Defined.
Definition validate_checkpoint (state : RangeCheckpoint) (limits : RangeLimits) : Try RangeError () :=
  rm_validate (rk_map state) limits;;
  refuse_if (rk_schema state ≠ CHECKPOINT_SCHEMA ∨ max_history limits < N.of_nat (length (rk_history state)))
    RangeError.Capacity;;
  refuse_if (bool_decide (rk_control_ordinal state = 0) ≠ bool_decide (rk_last_commit state = None)
             ∨ Exists (commit_mismatch state) (option_list (rk_last_commit state))) RangeError.Conflict;;
  match rk_pending state with Some pending => check_pending state limits pending | None => Ok () end;;
  try_fold (check_history state limits) [] (rk_history state);;
  mret ().

(** ** Construction

    [owner] is the next process-wide stamp. A failure drops the budget handle and
    what was reserved. *)
Definition in_memory {A} (m : Fallible Levels MemoryError A) : Fallible Levels RangeError A :=
  errors_as RangeError.Memory m.
Definition or_drop {A} (drop : Levels → Levels) (m : Fallible Levels RangeError A) : Fallible Levels RangeError A := λ F,
  match m F with (Ok x, F) => (Ok x, F) | (Err e, F) => (Err e, drop F) end.
Definition restore (owner : Try MemoryError N) (state : RangeCheckpoint) (incarnation : ControllerIncarnation)
    (limits : RangeLimits) (budget : MemoryBudget) : Fallible Levels RangeError RangeCoordinator :=
  or_drop (budget_drop budget) (
    lift (validate_checkpoint state limits);;
    bytes ← lift (state_charge state);
    allocation ← in_memory (reserve budget BudgetKind.Control BudgetLane.Committed bytes);
    or_drop (allocation_drop allocation) (
      runtime_bytes ← lift (range_mul (max_ranges limits) (range_row size_of_RangeProgress));
      runtime ← in_memory (reserve budget BudgetKind.Control BudgetLane.Committed runtime_bytes);
      or_drop (allocation_drop runtime) (
        stamp ← lift (map_err RangeError.Memory owner);
        modify (budget_clone budget);;
        mret {| cd_root := {| vs_state := state; vs_allocation := allocation |}; cd_owner := stamp;
                cd_limits := limits; cd_budget := budget; cd_pins := pins_new incarnation limits budget;
                cd_progress := ∅; cd_committed := N.max (rk_control_sequence state) (rk_published state);
                cd_term := default 0 (cm_term <$> rk_last_commit state); cd_runtime := runtime |}))).
Definition empty_checkpoint (map : RangeMap) : RangeCheckpoint :=
  {| rk_schema := CHECKPOINT_SCHEMA; rk_map := map; rk_control_ordinal := 0; rk_control_sequence := 0;
     rk_last_commit := None; rk_published := 0; rk_pending := None; rk_history := [] |}.
Definition coordinator_new (owner : Try MemoryError N) (map : RangeMap) (incarnation : ControllerIncarnation)
    (limits : RangeLimits) (budget : MemoryBudget) : Fallible Levels RangeError RangeCoordinator :=
  restore owner (empty_checkpoint map) incarnation limits budget.

(** ** Certificates *)
Definition activation_of (s : RangeCoordinator) (operation : TransferId) : option ActivationCertificate :=
  (λ found, hm_activation found.2) <$>
    list_find (λ old, it_operation (ac_intent (hm_activation old)) = operation) (rk_history (cd_state s)).
Definition intent_certificate (s : RangeCoordinator) : option IntentCertificate :=
  pending ← rk_pending (cd_state s);
  commit ← ts_intent_commit pending;
  Some {| ic_intent := ts_intent pending; ic_commit := commit |}.
Definition barrier_certificate (s : RangeCoordinator) : option BarrierCertificate :=
  pending ← rk_pending (cd_state s);
  commit ← ts_barrier pending;
  Some {| bc_intent := ts_intent pending; bc_commit := commit |}.
Definition activation_operation (s : RangeCoordinator) (unchanged : list RangeProgress) : Try RangeError RangeOperation :=
  pending ← or_fail (rk_pending (cd_state s)) RangeError.Phase;
  barrier ← or_fail (ts_barrier pending) RangeError.NotReady;
  map ← rm_hash (ts_desired pending);
  proofs ← proof_digest (ts_intent pending) (ts_snapshots pending) barrier (ts_source_seals pending) (ts_ready pending);
  mret (RangeOperation.Activate (it_operation (ts_intent pending)) map proofs unchanged).

(** ** Preparing a record *)
Definition apply_record (s : RangeCoordinator) (verifier : RangeVerifier) (ordinal : N) (sequence : SessionSeq)
    (hash : ContentHash) (operation : RangeOperation) : Try RangeError RangeCheckpoint :=
  let state := cd_state s in
  match operation with
  | RangeOperation.Begin intent => begin_transfer (cd_limits s) sequence intent state
  | RangeOperation.Snapshot operation range hash => snapshot_transfer operation range hash state
  | RangeOperation.Barrier operation => barrier_transfer ordinal sequence hash operation state
  | RangeOperation.SourceSealed proof => seal_transfer verifier proof state
  | RangeOperation.Ready proof => ready_transfer verifier proof state
  | RangeOperation.Activate operation map proofs unchanged =>
      activate_transfer verifier ordinal sequence hash operation map proofs unchanged state
  | RangeOperation.Abort operation => abort_transfer operation state
  | RangeOperation.Cleanup operation recovery => cleanup_transfer (cd_pins s) verifier operation recovery state
  end.
Definition applied_already (s : RangeCoordinator) (ordinal : N) (sequence : SessionSeq) (hash : ContentHash) : Prop :=
  ordinal = rk_control_ordinal (cd_state s) ∧ sequence = rk_control_sequence (cd_state s)
  ∧ cm_command <$> rk_last_commit (cd_state s) = Some hash.
#[export] Instance applied_already_dec s ordinal sequence hash : Decision (applied_already s ordinal sequence hash).
Proof. unfold applied_already. apply _. Defined.
(** The state a new record leaves, of at most the [bytes] reserved for it. *)
Definition next_state (s : RangeCoordinator) (verifier : RangeVerifier) (ordinal : N) (sequence : SessionSeq)
    (hash : ContentHash) (operation : RangeOperation) (bytes : N) : Try RangeError RangeCheckpoint :=
  applied ← apply_record s verifier ordinal sequence hash operation;
  let next := with_control ordinal sequence
    (Some (placeholder (rm_ledger (rk_map applied)) ordinal sequence hash)) applied in
  charged ← state_charge next;
  refuse_if (bytes < charged) RangeError.Capacity;;
  mret next.
Definition prepare_in (s : RangeCoordinator) (lane : BudgetLane) (ordinal : N) (sequence : SessionSeq)
    (operation : RangeOperation) (verifier : RangeVerifier) : Fallible Levels RangeError PreparedRangeCommand :=
  let state := cd_state s in
  hash ← lift (range_command_hash (rm_ledger (rk_map state)) ordinal sequence operation);
  let prepared existing next := {| pc_owner := cd_owner s; pc_base_ordinal := rk_control_ordinal state;
    pc_next := next; pc_ordinal := ordinal; pc_sequence := sequence; pc_hash := hash;
    pc_operation := operation; pc_existing := existing |} in
  if decide (applied_already s ordinal sequence hash) then
    bytes ← lift (state_charge state);
    allocation ← in_memory (reserve (cd_budget s) BudgetKind.Control lane bytes);
    mret (prepared true {| vs_state := state; vs_allocation := allocation |})
  else
    expected ← lift (range_add (rk_control_ordinal state) 1);
    lift (refuse_if (ordinal ≠ expected) RangeError.RetryTooOld);;
    lift (refuse_if (sequence < rk_control_sequence state) RangeError.Conflict);;
    command_bytes ← lift (operation_size operation);
    lift (refuse_if (max_checkpoint_bytes (cd_limits s) < command_bytes) RangeError.Capacity);;
    current ← lift (state_charge state);
    padded ← lift (range_add command_bytes 8192);
    room ← lift (range_mul padded 32);
    bytes ← lift (range_add current room);
    allocation ← in_memory (reserve (cd_budget s) BudgetKind.Control lane bytes);
    or_drop (allocation_drop allocation) (
      next ← lift (next_state s verifier ordinal sequence hash operation bytes);
      mret (prepared false {| vs_state := next; vs_allocation := allocation |})).
Definition prepare (s : RangeCoordinator) (ordinal : N) (sequence : SessionSeq) (operation : RangeOperation)
    (verifier : RangeVerifier) : Fallible Levels RangeError PreparedRangeCommand :=
  prepare_in s BudgetLane.Committed ordinal sequence operation verifier.

(** ** Operations on the coordinator *)
Notation CoordinatorM := (Fallible (RangeCoordinator * Levels) RangeError).
Definition relayout (sources : gset RangeId) (replacements : list Descriptor) : CoordinatorM () := λ '(s, F),
  let state := cd_state s in
  match (refuse_if (is_Some (rk_pending state)) RangeError.Phase;;
         map ← rm_replace (rk_map state) sources replacements (cd_limits s);
         let next := with_map map state in
         bytes ← state_charge next;
         mret (next, bytes)) with
  | Err e => (Err e, (s, F))
  | Ok (next, bytes) =>
      match in_memory (reserve (cd_budget s) BudgetKind.Control BudgetLane.Committed bytes) F with
      | (Err e, F) => (Err e, (s, F))
      | (Ok allocation, F) =>
          (Ok (), (with_root {| vs_state := next; vs_allocation := allocation |} ∅ (cd_committed s) (cd_term s) s,
                   allocation_drop (vs_allocation (cd_root s)) F))
      end
  end.
(** Whether a proof does not follow the last commit. *)
Definition behind (old : option CommitProof) (proof : CommitProof) : bool :=
  match old with
  | Some old => (cm_index proof <=? cm_index old) || (cm_term proof <? cm_term old)
                || (cm_ordinal proof <=? cm_ordinal old)
  | None => false
  end.
(** The commit takes the place of the preparation's placeholder. *)
Definition committed_state (operation : RangeOperation) (proof : CommitProof) (state : RangeCheckpoint) :
    Try RangeError RangeCheckpoint :=
  match operation with
  | RangeOperation.Begin _ =>
      pending ← or_fail (rk_pending state) RangeError.Phase;
      mret (with_pending (Some (if decide (ts_intent_commit pending = None)
                                then with_intent_commit (Some proof) pending else pending)) state)
  | RangeOperation.Barrier _ =>
      pending ← or_fail (rk_pending state) RangeError.Phase;
      mret (with_pending (Some (with_barrier (Some proof) pending)) state)
  | RangeOperation.Activate _ _ _ _ =>
      final ← or_fail (last (rk_history state)) RangeError.Missing;
      let c := hm_activation final in
      let activation := {| ac_intent := ac_intent c; ac_map := ac_map c; ac_barrier := ac_barrier c;
        ac_snapshots := ac_snapshots c; ac_sources := ac_sources c; ac_destinations := ac_destinations c;
        ac_unchanged := ac_unchanged c; ac_commit := proof |} in
      mret (with_history (take (pred (length (rk_history state))) (rk_history state)
                          ++ [{| hm_map := hm_map final; hm_activation := activation |}]) state)
  | _ => mret state
  end.
Definition is_activate (operation : RangeOperation) : bool :=
  match operation with RangeOperation.Activate _ _ _ _ => true | _ => false end.
(** The checks of [publish], and the state it installs: none when the record was
    applied already. *)
Definition publish_state (s : RangeCoordinator) (prepared : PreparedRangeCommand) (proof : CommitProof)
    (verifier : RangeVerifier) : Try RangeError (option RangeCheckpoint) :=
  let state := cd_state s in
  refuse_if (cd_owner s ≠ pc_owner prepared ∨ rk_control_ordinal state ≠ pc_base_ordinal prepared)
    RangeError.StalePreparation;;
  verify_commit proof (rm_ledger (rk_map state)) (pc_ordinal prepared) (pc_sequence prepared) (pc_hash prepared) verifier;;
  if pc_existing prepared then
    refuse_if (rk_last_commit state ≠ Some proof) RangeError.Conflict;; mret None
  else
    refuse_if (behind (rk_last_commit state) proof = true) RangeError.StaleEpoch;;
    let next := vs_state (pc_next prepared) in
    next ← committed_state (pc_operation prepared) proof
      (with_published (N.max (rk_published next) (rk_published state))
        (with_control (rk_control_ordinal next) (rk_control_sequence next) (Some proof) next));
    mret (Some next).
Definition publish (prepared : PreparedRangeCommand) (proof : CommitProof) (verifier : RangeVerifier) :
    CoordinatorM () := λ '(s, F),
  match publish_state s prepared proof verifier with
  | Err e => (Err e, (s, allocation_drop (vs_allocation (pc_next prepared)) F))
  | Ok None => (Ok (), (s, allocation_drop (vs_allocation (pc_next prepared)) F))
  | Ok (Some next) =>
      (Ok (), (with_root {| vs_state := next; vs_allocation := vs_allocation (pc_next prepared) |}
                 (if is_activate (pc_operation prepared) then ∅ else cd_progress s)
                 (N.max (cd_committed s) (cm_sequence proof)) (N.max (cd_term s) (cm_term proof)) s,
               allocation_drop (vs_allocation (cd_root s)) F))
  end.

Definition observe_committed (proof : CommitProof) (verifier : RangeVerifier) (s : RangeCoordinator) :
    Try RangeError RangeCoordinator :=
  refuse_if (cm_ledger proof ≠ rm_ledger (cd_map s)) RangeError.WrongLedger;;
  vf_commit verifier proof;;
  refuse_if (cm_sequence proof < cd_committed s ∨ cm_term proof < cd_term s) RangeError.StaleEpoch;;
  mret (with_root (cd_root s) (if decide (cd_term s < cm_term proof) then ∅ else cd_progress s)
          (cm_sequence proof) (cm_term proof) s).
(** [published]: the least progress of the replica holders, once each has
    reported. *)
Definition published (s : RangeCoordinator) : option SessionSeq :=
  if decide (N.of_nat (size (cd_progress s)) ≠ replica_held (rm_ranges (cd_map s))) then None else
  let candidate := N.min (default (cd_committed s) (least (rg_through <$> (entries (cd_progress s)).*2)))
                         (cd_committed s) in
  if decide (rk_published (cd_state s) <= candidate) then Some candidate else None.
Definition observe_progress (proof : RangeProgress) (verifier : RangeVerifier) (s : RangeCoordinator) :
    Try RangeError RangeCoordinator :=
  validate_progress (cd_map s) proof;;
  vf_progress verifier proof;;
  refuse_if (cd_committed s < rg_through proof ∨ rg_term proof ≠ cd_term s
             ∨ match cd_progress s !! rg_range proof with
               | Some old => rg_through proof <? rg_through old | None => false end = true) RangeError.StaleEpoch;;
  let s := with_root (cd_root s) (<[rg_range proof := proof]> (cd_progress s)) (cd_committed s) (cd_term s) s in
  mret (match published s with
        | Some p => with_root {| vs_state := with_published (N.max (rk_published (cd_state s)) p) (cd_state s);
                                 vs_allocation := vs_allocation (cd_root s) |}
                      (cd_progress s) (cd_committed s) (cd_term s) s
        | None => s
        end).

(** ** Reads *)
Definition on_pins {A} (m : Fallible (PinRegistry * Levels) RangeError A) : CoordinatorM A := λ '(s, F),
  match m (cd_pins s, F) with (r, (pins, F)) => (r, (with_pin_registry pins s, F)) end.
Definition coordinator_pin (request : PinRequest) (proofs : list ReadAvailability) (verifier : RangeVerifier) :
    CoordinatorM RangeCursor :=
  s ← gets fst;
  lift (refuse_if (match published s with Some p => p <? pq_prefix request | None => true end = true)
    RangeError.NotReady);;
  on_pins (pins_pin (cd_map s) request proofs verifier).
Definition read_plan (cursor : RangeCursor) (now : N) (verifier : RangeVerifier) : CoordinatorM RangeReadPlan :=
  on_pins (pins_plan cursor now None verifier).
Definition translate (cursor : RangeCursor) (now : N) (proofs : list ReadAvailability) (verifier : RangeVerifier) :
    CoordinatorM RangeReadPlan :=
  s ← gets fst;
  on_pins (pins_plan cursor now (Some (cd_map s, proofs)) verifier).
Definition release_pin (cursor : RangeCursor) : CoordinatorM () := on_pins (pins_release cursor).
Definition advance_clock (now : N) : CoordinatorM () := on_pins (pins_advance now).
End Coordinator.
