(* ===== verification/RangeMovement.v ===== *)
(** * Movement records of a session (focal-ledger: native_session_movement.rs)

    Each step of a range transfer is one record of the session log: the session
    frames it in bytes, and every replica applies it between native records by
    preparing and publishing it on the coordinator under a commit proof minted
    from the entry. Committed splits and merges of the layout re-lay the map. *)
From stdpp Require Import prelude gmap strings list.
From Stdlib Require Import NArith.
From S2P Require Import Prelude Fallible Objects Canonical Budget RangeMap RangeTypes RangePins.
From S2P Require Import RangeTransfer RangeCoordinator.
#[local] Open Scope N_scope.

(** The errors of [NativeSessionError] that movement meets. *)
Module MovementError.
Inductive t := Memory (error : MemoryError) | Capacity (what : string) | Corrupt | Range (error : RangeError).
End MovementError.
Notation MovementError := MovementError.t.
(** [From<RangeError>]. *)
Definition movement_error_of (e : RangeError) : MovementError :=
  match e with RangeError.Memory e => MovementError.Memory e | e => MovementError.Range e end.
Definition session_add (a b : N) : Try MovementError N :=
  or_fail (checked_add a b) (MovementError.Capacity "session arithmetic").

(** ** Framing *)
Definition MAGIC : list N := [70; 79; 67; 65; 76; 82; 77; 49].   (* FOCALRM1 *)
Definition VERSION : N := 1.
Definition MAX_RECORD_BYTES : N := 64 * 1024.
Definition HEAD : N := 8 + 2 + 32 + 8 + 4.
Record MovementRecord := { mr_ledger : LedgerId; mr_ordinal : N; mr_operation : RangeOperation }.
(** Facts a session attests, each with its attestation cleared. *)
Module Attested.
Inductive t :=
  | Commit (proof : CommitProof) | Seal (proof : SourceSealProof) | Ready (proof : DestinationReady)
  | Progress (proof : RangeProgress) | Read (proof : ReadAvailability) | Recovery (proof : RecoveryProof).
End Attested.
Notation Attested := Attested.t.
(** The serialization library and the hash: serialized operations and
    checkpoints, keyed digests of bytes and of attested facts. *)
Class MovementWire := {
  operation_bytes : RangeOperation → option (list N);
  operation_parse : list N → option (RangeOperation * list N);
  checkpoint_encode : RangeCheckpoint → option (list N);
  checkpoint_parse : list N → option (RangeCheckpoint * list N);
  keyed_digest : string → list N → list N;
  derive_key : string → ContentHash → ContentHash;
  attest_digest : string → ContentHash → Attested → option ContentHash
}.

(** [from_le_bytes]; identifiers are sixteen big-endian bytes. *)
Fixpoint le_value (bytes : list N) : N :=
  match bytes with [] => 0 | b :: bytes => b + 256 * le_value bytes end.
Definition id_value (bytes : list N) : N := le_value (reverse bytes).

(** [payload.get(from..from + len)]. *)
Definition take_field (payload : list N) (from len : N) : Try MovementError (list N) :=
  stop ← session_add from len;
  or_fail (if decide (stop <= N.of_nat (length payload))
           then Some (take (N.to_nat len) (drop (N.to_nat from) payload)) else None) MovementError.Corrupt.
(** [&[u8]] to [[u8; w]]. *)
Definition fixed_width (w : nat) (bytes : list N) : Try MovementError (list N) :=
  or_fail (if decide (length bytes = w) then Some bytes else None) MovementError.Corrupt.

Section Movement.
Context `{RangeWire, RangeLayout, MovementWire}.

Definition HASH_DOMAIN : string := "focal.native.session.movement-record.v1".
Definition record_encode (r : MovementRecord) : Try MovementError (list N) :=
  body ← or_fail (operation_bytes (mr_operation r)) MovementError.Corrupt;
  length ← or_fail (try_u32 (N.of_nat (length body))) (MovementError.Capacity "movement record");
  head ← session_add HEAD (N.of_nat (List.length body));
  total ← session_add head 32;
  refuse_if (MAX_RECORD_BYTES < total) (MovementError.Capacity "movement record");;
  let bytes := MAGIC ++ le_bytes 2 VERSION ++ be_bytes 16 (tenant (mr_ledger r)) ++ be_bytes 16 (session (mr_ledger r))
    ++ le_bytes 8 (mr_ordinal r) ++ le_bytes 4 length ++ body in
  mret (bytes ++ keyed_digest HASH_DOMAIN bytes).
Definition record_decode (bytes : list N) : Try MovementError MovementRecord :=
  least ← session_add HEAD 32;
  refuse_if (MAX_RECORD_BYTES < N.of_nat (length bytes) ∨ N.of_nat (length bytes) < least) MovementError.Corrupt;;
  let split := (length bytes - 32)%nat in
  let payload := take split bytes in
  let digest := drop split bytes in
  refuse_if (digest ≠ keyed_digest HASH_DOMAIN payload) MovementError.Corrupt;;
  magic ← take_field payload 0 8;
  refuse_if (magic ≠ MAGIC) MovementError.Corrupt;;
  version ← take_field payload 8 2;
  refuse_if (version ≠ le_bytes 2 VERSION) MovementError.Corrupt;;
  tenant_field ← take_field payload 10 16;
  tenant_bytes ← fixed_width 16 tenant_field;
  session_field ← take_field payload 26 16;
  session_bytes ← fixed_width 16 session_field;
  let ledger := {| tenant := id_value tenant_bytes; session := id_value session_bytes |} in
  ordinal_field ← take_field payload 42 8;
  ordinal_bytes ← fixed_width 8 ordinal_field;
  length_field ← take_field payload 50 4;
  length_bytes ← fixed_width 4 length_field;
  body ← take_field payload HEAD (le_value length_bytes);
  stop ← session_add HEAD (N.of_nat (length body));
  refuse_if (stop ≠ N.of_nat (length payload)) MovementError.Corrupt;;
  '(operation, rest) ← or_fail (operation_parse body) MovementError.Corrupt;
  refuse_if (rest ≠ [] ∨ is_zero (tenant ledger) = true ∨ is_zero (session ledger) = true) MovementError.Corrupt;;
  mret {| mr_ledger := ledger; mr_ordinal := le_value ordinal_bytes; mr_operation := operation |}.

(** ** Attestations of a session *)
Definition attest (domain : string) (genesis : ContentHash) (value : Attested) : Try MovementError ContentHash :=
  or_fail (attest_digest domain genesis value) MovementError.Corrupt.
Definition clear_commit (p : CommitProof) : CommitProof :=
  {| cm_ledger := cm_ledger p; cm_ordinal := cm_ordinal p; cm_sequence := cm_sequence p; cm_index := cm_index p;
     cm_term := cm_term p; cm_command := cm_command p; cm_attestation := 0 |}.
Definition clear_seal (p : SourceSealProof) : SourceSealProof :=
  {| ss_ledger := ss_ledger p; ss_operation := ss_operation p; ss_old_epoch := ss_old_epoch p;
     ss_range := ss_range p; ss_range_generation := ss_range_generation p; ss_replica := ss_replica p;
     ss_cut := ss_cut p; ss_checkpoint := ss_checkpoint p; ss_attestation := 0 |}.
Definition clear_ready (p : DestinationReady) : DestinationReady :=
  {| dr_ledger := dr_ledger p; dr_operation := dr_operation p; dr_new_epoch := dr_new_epoch p;
     dr_range := dr_range p; dr_range_generation := dr_range_generation p; dr_replica := dr_replica p;
     dr_seed := dr_seed p; dr_through := dr_through p; dr_snapshot := dr_snapshot p; dr_state := dr_state p;
     dr_checkpoint := dr_checkpoint p; dr_attestation := 0 |}.
Definition clear_progress (p : RangeProgress) : RangeProgress :=
  {| rg_ledger := rg_ledger p; rg_epoch := rg_epoch p; rg_range := rg_range p;
     rg_range_generation := rg_range_generation p; rg_replica := rg_replica p; rg_through := rg_through p;
     rg_term := rg_term p; rg_root := rg_root p; rg_attestation := 0 |}.
Definition clear_read (p : ReadAvailability) : ReadAvailability :=
  {| ra_ledger := ra_ledger p; ra_epoch := ra_epoch p; ra_range := ra_range p;
     ra_range_generation := ra_range_generation p; ra_replica := ra_replica p; ra_prefix := ra_prefix p;
     ra_lease := ra_lease p; ra_expires_at := ra_expires_at p; ra_root := ra_root p; ra_attestation := 0 |}.
Definition clear_recovery (p : RecoveryProof) : RecoveryProof :=
  {| rc_ledger := rc_ledger p; rc_epoch := rc_epoch p; rc_through := rc_through p; rc_manifest := rc_manifest p;
     rc_attestation := 0 |}.
Definition attest_commit (genesis : ContentHash) (p : CommitProof) : Try MovementError CommitProof :=
  attestation ← attest "focal.range-commit.v1" genesis (Attested.Commit (clear_commit p));
  mret {| cm_ledger := cm_ledger p; cm_ordinal := cm_ordinal p; cm_sequence := cm_sequence p;
          cm_index := cm_index p; cm_term := cm_term p; cm_command := cm_command p;
          cm_attestation := attestation |}.
Definition attest_source_seal (genesis : ContentHash) (p : SourceSealProof) : Try MovementError SourceSealProof :=
  attestation ← attest "focal.range-source-seal.v1" genesis (Attested.Seal (clear_seal p));
  mret {| ss_ledger := ss_ledger p; ss_operation := ss_operation p; ss_old_epoch := ss_old_epoch p;
          ss_range := ss_range p; ss_range_generation := ss_range_generation p; ss_replica := ss_replica p;
          ss_cut := ss_cut p; ss_checkpoint := ss_checkpoint p; ss_attestation := attestation |}.
Definition attest_ready (genesis : ContentHash) (p : DestinationReady) : Try MovementError DestinationReady :=
  attestation ← attest "focal.range-destination-ready.v1" genesis (Attested.Ready (clear_ready p));
  mret {| dr_ledger := dr_ledger p; dr_operation := dr_operation p; dr_new_epoch := dr_new_epoch p;
          dr_range := dr_range p; dr_range_generation := dr_range_generation p; dr_replica := dr_replica p;
          dr_seed := dr_seed p; dr_through := dr_through p; dr_snapshot := dr_snapshot p; dr_state := dr_state p;
          dr_checkpoint := dr_checkpoint p; dr_attestation := attestation |}.
Definition attest_progress (genesis : ContentHash) (p : RangeProgress) : Try MovementError RangeProgress :=
  attestation ← attest "focal.range-progress.v1" genesis (Attested.Progress (clear_progress p));
  mret {| rg_ledger := rg_ledger p; rg_epoch := rg_epoch p; rg_range := rg_range p;
          rg_range_generation := rg_range_generation p; rg_replica := rg_replica p; rg_through := rg_through p;
          rg_term := rg_term p; rg_root := rg_root p; rg_attestation := attestation |}.
Definition attest_read (genesis : ContentHash) (p : ReadAvailability) : Try MovementError ReadAvailability :=
  attestation ← attest "focal.range-read.v1" genesis (Attested.Read (clear_read p));
  mret {| ra_ledger := ra_ledger p; ra_epoch := ra_epoch p; ra_range := ra_range p;
          ra_range_generation := ra_range_generation p; ra_replica := ra_replica p; ra_prefix := ra_prefix p;
          ra_lease := ra_lease p; ra_expires_at := ra_expires_at p; ra_root := ra_root p;
          ra_attestation := attestation |}.
Definition attest_recovery (genesis : ContentHash) (p : RecoveryProof) : Try MovementError RecoveryProof :=
  attestation ← attest "focal.range-recovery.v1" genesis (Attested.Recovery (clear_recovery p));
  mret {| rc_ledger := rc_ledger p; rc_epoch := rc_epoch p; rc_through := rc_through p;
          rc_manifest := rc_manifest p; rc_attestation := attestation |}.
(** [LedgerRangeVerifier::verify]. *)
Definition verify_attested (genesis : ContentHash) (domain : string) (bare : Attested) (attestation : ContentHash) :
    Try RangeError () :=
  expected ← map_err (λ _, RangeError.Codec) (attest domain genesis bare);
  refuse_if (expected ≠ attestation) RangeError.Unverified.
Definition ledger_verifier (genesis : ContentHash) : RangeVerifier :=
  let commit p := verify_attested genesis "focal.range-commit.v1" (Attested.Commit (clear_commit p)) (cm_attestation p) in
  {| vf_commit := commit;
     vf_batch := λ _ p, commit p;
     vf_source_seal := λ p, verify_attested genesis "focal.range-source-seal.v1"
       (Attested.Seal (clear_seal p)) (ss_attestation p);
     vf_destination_ready := λ p, verify_attested genesis "focal.range-destination-ready.v1"
       (Attested.Ready (clear_ready p)) (dr_attestation p);
     vf_recovery := λ p, verify_attested genesis "focal.range-recovery.v1"
       (Attested.Recovery (clear_recovery p)) (rc_attestation p);
     vf_progress := λ p, verify_attested genesis "focal.range-progress.v1"
       (Attested.Progress (clear_progress p)) (rg_attestation p);
     vf_read := λ p, verify_attested genesis "focal.range-read.v1"
       (Attested.Read (clear_read p)) (ra_attestation p) |}.

(** ** The movement of a session *)
Record Movement := {
  mv_coordinator : RangeCoordinator; mv_genesis : ContentHash; mv_limits : RangeLimits;
  mv_in_flight : option (N * ContentHash); mv_refusals : N; mv_last_refusal : option RangeError
}.
Definition boundary_key (affinity : N) : StorageKey := storage_key_bucket affinity 0 0.
(** One descriptor per member, in key order, held by the voters. *)
Fixpoint layout_ranges (members : list (RangeId * option N)) : list Descriptor :=
  match members with
  | [] => []
  | (id, start) :: rest =>
      {| rd_id := id; rd_generation := 1;
         rd_span := {| sp_start := boundary_key <$> start;
                       sp_end := '(_, next) ← head rest; boundary_key <$> next |};
         rd_meta := placement_voters |} :: layout_ranges rest
  end.
Definition map_from_layout (ledger : LedgerId) (members : list (RangeId * option N)) (limits : RangeLimits) :
    Try MovementError RangeMap :=
  map_err MovementError.Range (rm_new ledger 1 (layout_ranges members) limits).
Definition movement_incarnation (genesis : ContentHash) : ControllerIncarnation :=
  N.shiftr (derive_key "focal.native.range.incarnation.v1" genesis) 128.
Definition movement_of (genesis : ContentHash) (limits : RangeLimits) (c : RangeCoordinator) : Movement :=
  {| mv_coordinator := c; mv_genesis := genesis; mv_limits := limits; mv_in_flight := None; mv_refusals := 0;
     mv_last_refusal := None |}.
Definition movement_new (owner : Try MemoryError N) (genesis : ContentHash) (map : RangeMap) (limits : RangeLimits)
    (budget : MemoryBudget) : Fallible Levels MovementError Movement :=
  c ← errors_as movement_error_of (coordinator_new owner map (movement_incarnation genesis) limits budget);
  mret (movement_of genesis limits c).
Definition movement_restore (owner : Try MemoryError N) (genesis : ContentHash) (bytes : list N) (limits : RangeLimits)
    (budget : MemoryBudget) : Fallible Levels MovementError Movement := λ F,
  match (refuse_if (max_checkpoint_bytes limits < N.of_nat (length bytes))
           (MovementError.Capacity "movement checkpoint");;
         '(state, rest) ← or_fail (checkpoint_parse bytes) MovementError.Corrupt;
         refuse_if (rest ≠ []) MovementError.Corrupt;;
         mret state) with
  | Err e => (Err e, budget_drop budget F)
  | Ok state =>
      (c ← errors_as (λ _, MovementError.Corrupt) (restore owner state (movement_incarnation genesis) limits budget);
       mret (movement_of genesis limits c)) F
  end.
Definition checkpoint_bytes (m : Movement) : Try MovementError (list N) :=
  bytes ← or_fail (checkpoint_encode (cd_state (mv_coordinator m))) MovementError.Corrupt;
  refuse_if (max_checkpoint_bytes (mv_limits m) < N.of_nat (length bytes))
    (MovementError.Capacity "movement checkpoint");;
  mret bytes.
(** The members a transfer moves once its barrier is committed. *)
Definition fenced_members (m : Movement) : gset RangeId :=
  match rk_pending (cd_state (mv_coordinator m)) with
  | Some pending =>
      if decide (is_Some (ts_barrier pending))
      then it_sources (ts_intent pending) ∪ list_to_set (rd_id <$> it_replacements (ts_intent pending)) else ∅
  | None => ∅
  end.

Notation MovementM := (Fallible (Movement * Levels) MovementError).
Definition with_coordinator (c : RangeCoordinator) (m : Movement) : Movement :=
  {| mv_coordinator := c; mv_genesis := mv_genesis m; mv_limits := mv_limits m; mv_in_flight := mv_in_flight m;
     mv_refusals := mv_refusals m; mv_last_refusal := mv_last_refusal m |}.
Definition on_coordinator {A} (k : Fallible (RangeCoordinator * Levels) RangeError A) : MovementM A := λ '(m, F),
  match k (mv_coordinator m, F) with
  | (r, (c, F)) => (map_err MovementError.Range r, (with_coordinator c m, F))
  end.
Definition next_generation (d : Descriptor) : Try MovementError N :=
  or_fail (checked_add (rd_generation d) 1) (MovementError.Capacity "range generation").
Definition movement_split (at_affinity : N) (id : RangeId) : MovementM () :=
  m ← gets fst;
  let key := boundary_key at_affinity in
  parent ← lift (or_fail (rm_route (cd_map (mv_coordinator m)) key) MovementError.Corrupt);
  generation ← lift (next_generation parent);
  let left := {| rd_id := rd_id parent; rd_generation := generation;
                 rd_span := {| sp_start := sp_start (rd_span parent); sp_end := Some key |};
                 rd_meta := rd_meta parent |} in
  let right := {| rd_id := id; rd_generation := 1;
                  rd_span := {| sp_start := Some key; sp_end := sp_end (rd_span parent) |};
                  rd_meta := rd_meta parent |} in
  on_coordinator (relayout {[rd_id parent]} [left; right]).
Definition movement_merge (left : RangeId) : MovementM () :=
  m ← gets fst;
  let ranges := rm_ranges (cd_map (mv_coordinator m)) in
  '(position, left_range) ← lift (or_fail (list_find (λ d, rd_id d = left) ranges) MovementError.Corrupt);
  right_range ← lift (or_fail (ranges !! S position) MovementError.Corrupt);
  generation ← lift (next_generation left_range);
  let joined := {| rd_id := rd_id left_range; rd_generation := generation;
                   rd_span := {| sp_start := sp_start (rd_span left_range); sp_end := sp_end (rd_span right_range) |};
                   rd_meta := rd_meta left_range |} in
  on_coordinator (relayout {[rd_id left_range; rd_id right_range]} [joined]).

Definition note_applied (ordinal : N) (hash : option ContentHash) (m : Movement) : Movement :=
  match mv_in_flight m with
  | Some (mine, command) =>
      if decide (mine = ordinal ∧ (hash = None ∨ hash = Some command))
      then {| mv_coordinator := mv_coordinator m; mv_genesis := mv_genesis m; mv_limits := mv_limits m;
              mv_in_flight := None; mv_refusals := mv_refusals m; mv_last_refusal := mv_last_refusal m |}
      else m
  | None => m
  end.
Definition note_refused (e : RangeError) (m : Movement) : Movement :=
  {| mv_coordinator := mv_coordinator m; mv_genesis := mv_genesis m; mv_limits := mv_limits m;
     mv_in_flight := mv_in_flight m; mv_refusals := saturating (mv_refusals m + 1); mv_last_refusal := Some e |}.
(** The proof an entry at [index] of [term] mints for a prepared record. *)
Definition minted (record : MovementRecord) (prepared : PreparedRangeCommand) (sequence : SessionSeq)
    (index term : N) : CommitProof :=
  {| cm_ledger := mr_ledger record; cm_ordinal := pc_ordinal prepared; cm_sequence := sequence; cm_index := index;
     cm_term := term; cm_command := pc_hash prepared; cm_attestation := 0 |}.
(** [Movement::apply]: whether the record was applied; a refused record is inert. *)
Definition movement_apply (record : MovementRecord) (sequence : SessionSeq) (index term : N) : MovementM bool := λ '(m, F),
  let c := mv_coordinator m in
  let verifier := ledger_verifier (mv_genesis m) in
  match prepare c (mr_ordinal record) sequence (mr_operation record) verifier F with
  | (Err e, F) => (Ok false, (note_refused e (note_applied (mr_ordinal record) None m), F))
  | (Ok prepared, F) =>
      match attest_commit (mv_genesis m) (minted record prepared sequence index term) with
      | Err e => (Err e, (m, allocation_drop (vs_allocation (pc_next prepared)) F))
      | Ok proof =>
          match publish prepared proof verifier (c, F) with
          | (Ok _, (c, F)) => (Ok true, (note_applied (mr_ordinal record) (Some (pc_hash prepared)) (with_coordinator c m), F))
          | (Err e, (c, F)) =>
              let m := with_coordinator c m in
              match e with
              | RangeError.Conflict | RangeError.StaleEpoch =>
                  (Ok false, (note_applied (mr_ordinal record) (Some (pc_hash prepared)) m, F))
              | RangeError.Memory e => (Err (MovementError.Memory e), (m, F))
              | _ => (Err MovementError.Corrupt, (m, F))
              end
          end
      end
  end.
End Movement.
