(* ===== verification/RangeInvariants.v ===== *)
(** * Invariants of range transfers

    What every checkpoint a movement leaves satisfies: the map and the history
    are valid, and a pending transfer has collected only what the log and the
    verifier vouch for. The sizes the code compares are turned into coverage: as
    many seals as replica-held sources, each for one of them, is a seal for each. *)
From stdpp Require Import prelude gmap strings list sorting.
From Stdlib Require Import NArith.
From S2P Require Import Prelude Fallible Objects Budget RangeMap RangeTypes RangePins.
From S2P Require Import RangeTransfer RangeCoordinator RangeMap.
#[local] Open Scope N_scope.

(** ** Maps of a ledger *)
Lemma rm_validate_ok m limits u : rm_validate m limits = Ok u ↔
  range_limits_validate limits = Ok () ∧ ranges_validate (rm_map m) (map_limits limits) = Ok () ∧
  try_each (λ d, validate_descriptor d limits) (rm_ranges m) = Ok ().
Proof.
  destruct u. unfold rm_validate. rewrite try_bind_ok. split.
  - intros ([] & H1 & H2). apply try_bind_ok in H2 as ([] & H2%map_err_ok & H3). done.
  - intros (H1 & H2 & H3). exists (). split; [done|]. by rewrite H2.
Qed.
Lemma rm_valid m limits u : rm_validate m limits = Ok u → valid_ranges (rm_map m).
Proof. intros (_ & H & _)%rm_validate_ok. by apply ranges_validate_ok in H as [? _]. Qed.
Lemma rm_replace_ok m sources replacements limits m' : rm_replace m sources replacements limits = Ok m' →
  rm_ledger m' = rm_ledger m ∧ rm_validate m' limits = Ok () ∧
  ranges_replace (rm_map m) (set_iter sources) replacements (map_limits limits) = Ok (rm_map m').
Proof.
  unfold rm_replace. intros Hr. apply try_bind_ok in Hr as (inner & Hi%map_err_ok & Hr).
  apply try_bind_ok in Hr as ([] & Hv & Hr). injection Hr as <-. done.
Qed.
Lemma rm_replaced m sources replacements limits m' : valid_ranges (rm_map m) →
  rm_replace m sources replacements limits = Ok m' →
  ∃ first final, replaced (rm_map m) (set_iter sources) replacements (rm_map m') first final.
Proof.
  intros Hv (_ & _ & Hr)%rm_replace_ok. by eapply ranges_replace_ok; [apply valid_nodup|exact Hr].
Qed.
Lemma rm_replace_epoch m sources replacements limits m' : valid_ranges (rm_map m) →
  rm_replace m sources replacements limits = Ok m' → rm_epoch m' = rm_epoch m + 1.
Proof. intros Hv Hr. destruct (rm_replaced _ _ _ _ _ Hv Hr) as (i & j & Hre). apply Hre. Qed.
Lemma rm_replace_fits m sources replacements limits m' : valid_ranges (rm_map m) →
  rm_replace m sources replacements limits = Ok m' → rm_epoch m + 1 <= u64_max.
Proof. intros Hv Hr. destruct (rm_replaced _ _ _ _ _ Hv Hr) as (i & j & Hre). apply Hre. Qed.
Lemma rm_replace_nodup m sources replacements limits m' : valid_ranges (rm_map m) →
  rm_replace m sources replacements limits = Ok m' → NoDup (rd_id <$> replacements).
Proof.
  intros Hv Hr. destruct (rm_replaced _ _ _ _ _ Hv Hr) as (i & j & Hre).
  pose proof (valid_nodup _ (re_valid _ _ _ _ _ _ Hre)) as Hn. rewrite (re_ranges _ _ _ _ _ _ Hre), !fmap_app in Hn.
  apply NoDup_app in Hn as (_ & _ & Hn). by apply NoDup_app in Hn as (Hn & _).
Qed.
Lemma rm_get_ok m id d : rm_get m id = Some d → d ∈ rm_ranges m ∧ rd_id d = id.
Proof. apply range_get_ok. Qed.
Lemma rm_get_elem m d : valid_ranges (rm_map m) → d ∈ rm_ranges m → rm_get m (rd_id d) = Some d.
Proof. intros Hv. apply range_get_elem. by apply valid_nodup. Qed.

(** ** Counting holders *)
Definition on_replica (d : Descriptor) : Prop := is_Some (holder_replica (pm_owner (rd_meta d))).
#[export] Instance on_replica_dec d : Decision (on_replica d).
Proof. unfold on_replica. apply _. Defined.
Lemma held_owner d r : pm_owner (rd_meta d) = Holder.Replica r → on_replica d.
Proof. unfold on_replica. intros ->. by eexists. Qed.
(** As many keys as replica-held ranges, each one of theirs, are all of theirs. *)
Lemma held_covered {A} (S : gmap RangeId A) (l : list Descriptor) : NoDup (rd_id <$> l) →
  (∀ id x, S !! id = Some x → ∃ d, d ∈ l ∧ rd_id d = id ∧ on_replica d) → N.of_nat (size S) = replica_held l →
  ∀ d, d ∈ l → on_replica d → is_Some (S !! rd_id d).
Proof.
  intros Hn Hk Hs d Hd Hh. unfold replica_held in Hs. set (hs := filter _ l) in Hs.
  assert (Hid : rd_id d ∈@{gset RangeId} list_to_set (rd_id <$> hs)).
  { apply elem_of_list_to_set, list_elem_of_fmap. exists d. split; [done|]. by apply list_elem_of_filter. }
  assert (Hsub : dom S ⊆ list_to_set (rd_id <$> hs)).
  { intros id [x Hx]%elem_of_dom. destruct (Hk id x Hx) as (d' & Hd' & <- & Hh'). apply elem_of_list_to_set, list_elem_of_fmap.
    exists d'. split; [done|]. by apply list_elem_of_filter. }
  assert (Heq : dom S ≡ list_to_set (rd_id <$> hs)).
  { apply set_subseteq_size_equiv; [done|]. rewrite size_dom, size_list_to_set.
    - rewrite length_fmap. lia.
    - eapply sublist_NoDup; [exact Hn|]. apply fmap_sublist, sublist_filter. }
  rewrite <-Heq in Hid. by apply elem_of_dom.
Qed.

Lemma id_inj (l : list Descriptor) d d' : NoDup (rd_id <$> l) → d ∈ l → d' ∈ l → rd_id d = rd_id d' → d = d'.
Proof.
  intros Hn [i Hi]%list_elem_of_lookup_1 [j Hj]%list_elem_of_lookup_1 Hid.
  assert (i = j) as ->; [|congruence].
  eapply (NoDup_lookup _ _ _ (rd_id d) Hn); rewrite list_lookup_fmap; [by rewrite Hi|rewrite Hj; simpl; by f_equal].
Qed.
(** The descriptors of a set of ranges. *)
Lemma elem_of_named m (ids : list RangeId) d : d ∈ omap (rm_get m) ids ↔ rd_id d ∈ ids ∧ rm_get m (rd_id d) = Some d.
Proof.
  rewrite list_elem_of_omap. split.
  - intros (id & Hid & Hg). destruct (rm_get_ok _ _ _ Hg) as [_ <-]. done.
  - intros [Hid Hg]. by exists (rd_id d).
Qed.
Lemma named_nodup m (ids : list RangeId) : NoDup ids → NoDup (rd_id <$> omap (rm_get m) ids).
Proof.
  induction 1 as [|id ids Hid Hn IH]; simpl; [constructor|]. destruct (rm_get m id) as [d|] eqn:Hg; [|done].
  rewrite fmap_cons. constructor; [|done]. destruct (rm_get_ok _ _ _ Hg) as [_ Hd]. rewrite Hd.
  intros (d' & Heq & Hin)%list_elem_of_fmap. apply elem_of_named in Hin as [Hin _]. congruence.
Qed.

(** Every disjunct of a refusal not taken. *)
Lemma neither (A B : Prop) : ¬ (A ∨ B) → ¬ A ∧ ¬ B.
Proof. tauto. Qed.
Ltac spared H :=
  lazymatch type of H with
  | ¬ (_ ∨ _) => let H1 := fresh "Hc" in apply neither in H as [H1 H]; try (apply dec_stable in H1); spared H
  | _ => try (apply dec_stable in H)
  end.

(** ** Transfers *)
Section Invariants.
Context `{RangeWire}.
Context (V : RangeVerifier) (limits : RangeLimits).

Record sealed (m : RangeMap) (intent : RangeIntent) (cut : SessionSeq) (id : RangeId) (p : SourceSealProof) : Prop := {
  sl_range : ss_range p = id;
  sl_source : id ∈ it_sources intent;
  sl_holder : ∃ d, rm_get m id = Some d ∧ rd_generation d = ss_range_generation p ∧
    pm_owner (rd_meta d) = Holder.Replica (ss_replica p);
  sl_cut : ss_cut p = cut;
  sl_verified : vf_source_seal V p = Ok ()
}.
Record readied (desired : RangeMap) (intent : RangeIntent) (snapshots : gmap RangeId ContentHash) (cut : SessionSeq)
    (id : RangeId) (p : DestinationReady) : Prop := {
  ry_range : dr_range p = id;
  ry_holder : ∃ d, d ∈ it_replacements intent ∧ rd_id d = id ∧ rd_generation d = dr_range_generation p ∧
    pm_owner (rd_meta d) = Holder.Replica (dr_replica p);
  ry_epoch : dr_new_epoch p = rm_epoch desired;
  ry_seed : dr_seed p = it_seed intent ∧ snapshots !! id = Some (dr_snapshot p);
  ry_through : cut <= dr_through p;
  ry_verified : vf_destination_ready V p = Ok ()
}.
Record transfer_ok (m : RangeMap) (t : TransferState) : Prop := {
  tk_desired : rm_replace m (it_sources (ts_intent t)) (it_replacements (ts_intent t)) limits = Ok (ts_desired t);
  tk_ledger : it_ledger (ts_intent t) = rm_ledger m;
  tk_epoch : it_old_epoch (ts_intent t) = rm_epoch m;
  tk_snapshots : ∀ id h, ts_snapshots t !! id = Some h → ∃ d, d ∈ it_replacements (ts_intent t) ∧ rd_id d = id ∧ on_replica d;
  tk_seals : ∀ id p, ts_source_seals t !! id = Some p → ∃ b, ts_barrier t = Some b ∧
    sealed m (ts_intent t) (cm_sequence b) id p;
  tk_ready : ∀ id p, ts_ready t !! id = Some p → ∃ b, ts_barrier t = Some b ∧
    readied (ts_desired t) (ts_intent t) (ts_snapshots t) (cm_sequence b) id p;
  tk_barrier : ∀ b, ts_barrier t = Some b → it_seed (ts_intent t) <= cm_sequence b
}.
(** What an activation rests on: every replica that held or holds a range has
    answered for the barrier. *)
Record activated (m : RangeMap) (c : ActivationCertificate) : Prop := {
  av_map : rm_replace m (it_sources (ac_intent c)) (it_replacements (ac_intent c)) limits = Ok (ac_map c);
  av_sources : ∀ d r, d ∈ rm_ranges m → rd_id d ∈ it_sources (ac_intent c) → pm_owner (rd_meta d) = Holder.Replica r →
    ∃ p, ac_sources c !! rd_id d = Some p ∧ ss_replica p = r ∧ ss_range_generation p = rd_generation d ∧
    ss_cut p = cm_sequence (ac_barrier c) ∧ vf_source_seal V p = Ok ();
  av_destinations : ∀ d r, d ∈ it_replacements (ac_intent c) → pm_owner (rd_meta d) = Holder.Replica r →
    ∃ p, ac_destinations c !! rd_id d = Some p ∧ dr_replica p = r ∧ dr_range_generation p = rd_generation d ∧
    ac_snapshots c !! rd_id d = Some (dr_snapshot p) ∧ cm_sequence (ac_barrier c) <= dr_through p ∧
    vf_destination_ready V p = Ok ();
  av_unchanged : ∀ d r, d ∈ rm_ranges m → rd_id d ∉ it_sources (ac_intent c) → pm_owner (rd_meta d) = Holder.Replica r →
    ∃ p, p ∈ ac_unchanged c ∧ rg_range p = rd_id d ∧ rg_replica p = r ∧ rg_range_generation p = rd_generation d ∧
    cm_sequence (ac_barrier c) <= rg_through p ∧ vf_progress V p = Ok ();
  av_order : it_seed (ac_intent c) <= cm_sequence (ac_barrier c) <= cm_sequence (ac_commit c)
}.
Record past_ok (m : RangeMap) (h : list HistoricalMap) : Prop := {
  ho_epochs : NoDup ((λ old, rm_epoch (hm_map old)) <$> h);
  ho_old : ∀ old, old ∈ h → rm_validate (hm_map old) limits = Ok () ∧ rm_ledger (hm_map old) = rm_ledger m ∧
    rm_epoch (hm_map old) < rm_epoch m ∧ activated (hm_map old) (hm_activation old)
}.
Record core_ok (s : RangeCheckpoint) : Prop := {
  cr_map : rm_validate (rk_map s) limits = Ok ();
  cr_schema : rk_schema s = CHECKPOINT_SCHEMA;
  cr_room : N.of_nat (length (rk_history s)) + (if rk_pending s then 1 else 0) <= max_history limits;
  cr_transfer : ∀ t, rk_pending s = Some t → transfer_ok (rk_map s) t;
  cr_history : past_ok (rk_map s) (rk_history s)
}.
Lemma core_pending s t : core_ok s → is_Some (rk_pending s) → transfer_ok (rk_map s) t → core_ok (with_pending (Some t) s).
Proof.
  intros [H1 H2 H3 H4 H5] [t0 Ht0] Ht. split; simpl; [done|done| |by intros ? [= <-]|done]. by rewrite Ht0 in H3.
Qed.
Lemma core_settled s : core_ok s → core_ok (with_pending None s).
Proof. intros [H1 H2 H3 H4 H5]. split; simpl; [done|done| |done|done]. destruct (rk_pending s); lia. Qed.
Lemma pending_of_ok s operation t : pending_of s operation = Ok t →
  rk_pending s = Some t ∧ it_operation (ts_intent t) = operation.
Proof.
  unfold pending_of. intros Hp. apply try_bind_ok in Hp as (t' & Ht'%or_fail_ok & Hp).
  apply refuse_then_ok in Hp as [Hop Hp]. injection Hp as <-. by apply dec_stable in Hop.
Qed.

(** ** Each record keeps the core *)
Lemma begin_core s sequence intent s' : core_ok s → begin_transfer limits sequence intent s = Ok s' → core_ok s'.
Proof.
  intros Hc Hb. unfold begin_transfer in Hb. destruct (rk_pending s) as [t|] eqn:Hp.
  { apply refuse_then_ok in Hb as [_ Hb]. by injection Hb as <-. }
  apply refuse_then_ok in Hb as [Hroom Hb]. apply refuse_then_ok in Hb as [Hled Hb].
  apply refuse_then_ok in Hb as [Hep Hb]. apply refuse_then_ok in Hb as [_ Hb]. spared Hep. apply dec_stable in Hled.
  apply try_bind_ok in Hb as (desired & Hd & Hb). injection Hb as <-. destruct Hc as [H1 H2 H3 H4 H5].
  rewrite Hp in H3. split; simpl; [done|done|lia| |done]. intros ? [= <-].
  split; simpl; [done|done|done|..]; intros *; rewrite ?lookup_empty; done.
Qed.
Lemma snapshot_core s operation range hash s' : core_ok s → snapshot_transfer operation range hash s = Ok s' → core_ok s'.
Proof.
  intros Hc Hb. unfold snapshot_transfer in Hb. apply try_bind_ok in Hb as (t & [Hp _]%pending_of_ok & Hb).
  apply refuse_then_ok in Hb as [Hex Hb]. apply refuse_then_ok in Hb as [Hold Hb]. injection Hb as <-. spared Hex.
  apply not_true_is_false in Hold. apply core_pending; [done|by eexists|].
  destruct (cr_transfer _ Hc t Hp) as [H1 H2 H3 H4 H5 H6 H7].
  assert (Hkeep : ∀ id h, ts_snapshots t !! id = Some h → <[range := hash]> (ts_snapshots t) !! id = Some h).
  { intros id h Hh. destruct (decide (id = range)) as [->|]; [|by rewrite lookup_insert_ne].
    rewrite Hh in Hold. apply negb_false_iff, N.eqb_eq in Hold as ->. by rewrite lookup_insert_eq. }
  split; simpl; [done..| | | |done].
  - intros id h Hh. apply lookup_insert_Some in Hh as [[<- <-]|[_ Hh]]; [|by eapply H4].
    apply Exists_exists in Hc0 as (d & Hd & Hid & Hh). by exists d.
  - done.
  - intros id p Hid. destruct (H6 id p Hid) as (b & Hb & [R1 R2 R3 [R4 R4'] R5 R6]). exists b. split; [done|].
    split; try done. split; [done|]. by apply Hkeep.
Qed.
Lemma barrier_core s ordinal sequence hash operation s' : core_ok s →
  barrier_transfer ordinal sequence hash operation s = Ok s' → core_ok s'.
Proof.
  intros Hc Hb. unfold barrier_transfer in Hb. apply try_bind_ok in Hb as (t & [Hp _]%pending_of_ok & Hb).
  apply refuse_then_ok in Hb as [_ Hb]. apply refuse_then_ok in Hb as [Hno Hb]. apply refuse_then_ok in Hb as [Hseed Hb].
  injection Hb as <-. apply core_pending; [done|by eexists|]. destruct (cr_transfer _ Hc t Hp) as [H1 H2 H3 H4 H5 H6 H7].
  assert (Hnone : ts_barrier t = None) by (destruct (ts_barrier t); [exfalso; apply Hno; by eexists|done]).
  split; simpl; [done..| | |].
  - intros id p Hid. destruct (H5 id p Hid) as (b & Hb & _). congruence.
  - intros id p Hid. destruct (H6 id p Hid) as (b & Hb & _). congruence.
  - intros b [= <-]. simpl. lia.
Qed.
Lemma seal_core s proof s' : core_ok s → seal_transfer V proof s = Ok s' → core_ok s'.
Proof.
  intros Hc Hb. unfold seal_transfer in Hb. apply try_bind_ok in Hb as (d & Hd%or_fail_ok & Hb).
  apply try_bind_ok in Hb as (t & [Hp _]%pending_of_ok & Hb). apply try_bind_ok in Hb as (b & Hbar%or_fail_ok & Hb).
  apply refuse_then_ok in Hb as [Hall Hb]. spared Hall. apply try_bind_ok in Hb as ([] & Hv & Hb).
  apply refuse_then_ok in Hb as [_ Hb]. injection Hb as <-. apply core_pending; [done|by eexists|].
  destruct (cr_transfer _ Hc t Hp) as [H1 H2 H3 H4 H5 H6 H7]. split; simpl; [done..| | |done]; [|done].
  intros id p Hid. apply lookup_insert_Some in Hid as [[<- <-]|[_ Hid]]; [|by apply H5].
  exists b. split; [done|]. split; [done|done| |done|done]. by exists d.
Qed.
Lemma ready_core s proof s' : core_ok s → ready_transfer V proof s = Ok s' → core_ok s'.
Proof.
  intros Hc Hb. unfold ready_transfer in Hb. apply try_bind_ok in Hb as (t & [Hp _]%pending_of_ok & Hb).
  apply try_bind_ok in Hb as (d & Hd%or_fail_ok & Hb). apply try_bind_ok in Hb as (b & Hbar%or_fail_ok & Hb).
  apply refuse_then_ok in Hb as [Hall Hb]. spared Hall. apply try_bind_ok in Hb as ([] & Hv & Hb).
  apply refuse_then_ok in Hb as [_ Hb]. injection Hb as <-. apply core_pending; [done|by eexists|].
  destruct (cr_transfer _ Hc t Hp) as [H1 H2 H3 H4 H5 H6 H7]. split; simpl; [done..| |done].
  intros id p Hid. apply lookup_insert_Some in Hid as [[<- <-]|[_ Hid]]; [|by apply H6].
  apply fmap_Some in Hd as ([i d'] & Hf & ->). apply list_find_Some in Hf as (Hl & Hid & _).
  exists b. split; [done|]. split; [done| |done|done|lia|done]. exists d'. split; [by eapply list_elem_of_lookup_2|done].
Qed.
Lemma abort_core s operation s' : core_ok s → abort_transfer operation s = Ok s' → core_ok s'.
Proof.
  intros Hc Hb. unfold abort_transfer in Hb. apply try_bind_ok in Hb as (t & _ & Hb).
  apply refuse_then_ok in Hb as [_ Hb]. injection Hb as <-. by apply core_settled.
Qed.
Lemma cleanup_core s pins operation recovery s' : core_ok s → cleanup_transfer pins V operation recovery s = Ok s' → core_ok s'.
Proof.
  intros Hc Hb. unfold cleanup_transfer in Hb. apply try_bind_ok in Hb as ([i old] & Hf%or_fail_ok & Hb).
  apply refuse_then_ok in Hb as [_ Hb]. apply refuse_then_ok in Hb as [_ Hb]. apply try_bind_ok in Hb as (? & _ & Hb).
  injection Hb as <-. destruct Hc as [H1 H2 H3 H4 [H5 H6]].
  assert (Hlt : (i < length (rk_history s))%nat) by (apply list_find_Some in Hf as (Hl & _); by eapply lookup_lt_Some).
  split; simpl; [done|done| |done|].
  - rewrite length_delete by (by apply lookup_lt_is_Some). destruct (rk_pending s); lia.
  - assert (Hsub : delete i (rk_history s) `sublist_of` rk_history s) by apply sublist_delete. split.
    + eapply sublist_NoDup; [exact H5|]. by apply fmap_sublist.
    + intros o Ho. apply H6. by eapply sublist_subseteq.
Qed.
Lemma seals_cover m t b : valid_ranges (rm_map m) → transfer_ok m t → ts_barrier t = Some b →
  N.of_nat (size (ts_source_seals t)) = replica_held (omap (rm_get m) (set_iter (it_sources (ts_intent t)))) →
  ∀ d r, d ∈ rm_ranges m → rd_id d ∈ it_sources (ts_intent t) → pm_owner (rd_meta d) = Holder.Replica r →
  ∃ p, ts_source_seals t !! rd_id d = Some p ∧ ss_replica p = r ∧ ss_range_generation p = rd_generation d ∧
  ss_cut p = cm_sequence b ∧ vf_source_seal V p = Ok ().
Proof.
  intros Hv Ht Hb Hs d r Hd Hid Hown.
  destruct (held_covered (ts_source_seals t) (omap (rm_get m) (set_iter (it_sources (ts_intent t))))
    (named_nodup _ _ (set_iter_nodup _))) with (d := d) as [p Hp]; [|done| |by eapply held_owner|].
  - intros id p Hp. destruct (tk_seals _ _ Ht id p Hp) as (b' & _ & [_ Hsrc (d' & Hg & _ & Ho) _ _]).
    exists d'. destruct (rm_get_ok _ _ _ Hg) as [_ <-]. split_and!; [|done|by eapply held_owner].
    apply elem_of_named. split; [by apply elem_of_set_iter|done].
  - apply elem_of_named. split; [by apply elem_of_set_iter|by apply rm_get_elem].
  - destruct (tk_seals _ _ Ht _ p Hp) as (b' & Hb' & [_ _ (d' & Hg & Hgen & Ho) Hcut Hver]).
    rewrite (rm_get_elem m d) in Hg by done. injection Hg as <-. exists p. split_and!; congruence.
Qed.
Lemma ready_cover m t b : valid_ranges (rm_map m) → transfer_ok m t → ts_barrier t = Some b →
  N.of_nat (size (ts_ready t)) = replica_held (it_replacements (ts_intent t)) →
  ∀ d r, d ∈ it_replacements (ts_intent t) → pm_owner (rd_meta d) = Holder.Replica r →
  ∃ p, ts_ready t !! rd_id d = Some p ∧ dr_replica p = r ∧ dr_range_generation p = rd_generation d ∧
  ts_snapshots t !! rd_id d = Some (dr_snapshot p) ∧ cm_sequence b <= dr_through p ∧ vf_destination_ready V p = Ok ().
Proof.
  intros Hv Ht Hb Hs d r Hd Hown. pose proof (rm_replace_nodup _ _ _ _ _ Hv (tk_desired _ _ Ht)) as Hn.
  destruct (held_covered (ts_ready t) (it_replacements (ts_intent t)) Hn) with (d := d) as [p Hp];
    [|done|done|by eapply held_owner|].
  - intros id p Hp. destruct (tk_ready _ _ Ht id p Hp) as (b' & _ & [_ (d' & Hin & Hid & _ & Ho) _ _ _ _]).
    exists d'. split_and!; [done|done|by eapply held_owner].
  - destruct (tk_ready _ _ Ht _ p Hp) as (b' & Hb' & [_ (d' & Hin & Hid & Hgen & Ho) _ [_ Hsnap] Hthr Hver]).
    rewrite Hb in Hb'. injection Hb' as <-. assert (d' = d) as -> by (by eapply id_inj). exists p. split_and!; congruence.
Qed.
Lemma unchanged_cover m b unchanged d r : check_unchanged m b unchanged V d = Ok () → valid_ranges (rm_map m) →
  d ∈ rm_ranges m → pm_owner (rd_meta d) = Holder.Replica r →
  ∃ p, p ∈ unchanged ∧ rg_range p = rd_id d ∧ rg_replica p = r ∧ rg_range_generation p = rd_generation d ∧
  cm_sequence b <= rg_through p ∧ vf_progress V p = Ok ().
Proof.
  intros Hu Hv Hd Hown. unfold check_unchanged in Hu. destruct (filter _ unchanged) as [|p [|]] eqn:Hf; [done| |done].
  assert (Hp : p ∈ filter (λ proof, rg_range proof = rd_id d) unchanged) by (rewrite Hf; left).
  apply list_elem_of_filter in Hp as [Hid Hp]. apply try_bind_ok in Hu as ([] & Hval & Hu).
  apply refuse_then_ok in Hu as [Hthr Hver]. unfold validate_progress in Hval. apply refuse_then_ok in Hval as [_ Hval].
  apply try_bind_ok in Hval as (d' & Hg%or_fail_ok & Hval). rewrite Hid, rm_get_elem in Hg by done. injection Hg as <-.
  apply refuse_then_ok in Hval as [Hall _]. spared Hall. exists p. split_and!; try done; [congruence|lia].
Qed.
Lemma activate_core s ordinal sequence hash operation map proofs unchanged s' : core_ok s →
  activate_transfer V ordinal sequence hash operation map proofs unchanged s = Ok s' → core_ok s'.
Proof.
  intros Hc Hb. unfold activate_transfer in Hb. apply try_bind_ok in Hb as (t & [Hp _]%pending_of_ok & Hb).
  apply try_bind_ok in Hb as (b & Hbar%or_fail_ok & Hb). apply try_bind_ok in Hb as (? & _ & Hb).
  apply refuse_then_ok in Hb as [_ Hb]. apply try_bind_ok in Hb as (? & _ & Hb). apply refuse_then_ok in Hb as [_ Hb].
  apply refuse_then_ok in Hb as [Hsizes Hb]. apply refuse_then_ok in Hb as [_ Hb]. apply try_bind_ok in Hb as ([] & Hothers & Hb).
  injection Hb as <-. destruct Hc as [H1 H2 H3 H4 [H5 H6]]. pose proof (rm_valid _ _ _ H1) as Hv.
  pose proof (H4 t Hp) as Ht. pose proof (rm_replace_epoch _ _ _ _ _ Hv (tk_desired _ _ Ht)) as Hep.
  destruct (rm_replace_ok _ _ _ _ _ (tk_desired _ _ Ht)) as (Hled & Hval & _). spared Hsizes. rewrite Hp in H3.
  split; simpl; [done|done|rewrite length_app; cbn [length]; lia|done|]. split.
  - rewrite fmap_app. apply NoDup_app. split_and!; [done| |apply NoDup_singleton].
    intros e (old & -> & Hold)%list_elem_of_fmap Hin. apply list_elem_of_singleton in Hin.
    destruct (H6 old Hold) as (_ & _ & Hlt & _). simpl in Hin. lia.
  - intros old [Hold|Hnew]%elem_of_app; [|apply list_elem_of_singleton in Hnew as ->].
    { destruct (H6 old Hold) as (? & ? & ? & ?). split_and!; [done|congruence|lia|done]. }
    simpl. split_and!; [done|done|lia|]. split; simpl.
    + apply Ht.
    + by eapply seals_cover.
    + by eapply ready_cover.
    + intros d r Hd Hid Hown. eapply unchanged_cover; [|done|done|done].
      apply (proj1 (try_each_ok _ _ _) Hothers). apply list_elem_of_filter. split; [|done].
      split; [done|]. rewrite Hown. by eexists.
    + split; [by apply (tk_barrier _ _ Ht)|]. lia.
Qed.
Lemma apply_record_core c ordinal sequence hash operation s' : cd_limits c = limits → core_ok (cd_state c) →
  apply_record c V ordinal sequence hash operation = Ok s' → core_ok s'.
Proof.
  intros Hl Hc Ha. unfold apply_record in Ha. rewrite Hl in Ha. destruct operation;
    [by eapply begin_core|by eapply snapshot_core|by eapply barrier_core|by eapply seal_core|by eapply ready_core
    |by eapply activate_core|by eapply abort_core|by eapply cleanup_core].
Qed.
End Invariants.
