(* ===== verification/RangeRuns.v ===== *)
(** * Runs of a session's movement

    Every state a movement reaches from a fresh coordinator, by applying records,
    re-laying the map, following progress, pinning reads and restarting from its
    own checkpoint, is sound. *)
From stdpp Require Import prelude gmap strings list sorting.
From Stdlib Require Import NArith.
From S2P Require Import Prelude Objects Canonical CanonicalLaws Fallible Budget RangeMap RangeTypes RangePins RangeTransfer RangeCoordinator RangeMovement RangeInvariants.

#[local] Open Scope N_scope.

Section Publishing.
Context `{RangeWire, RangeLayout}.
Context (V : RangeVerifier) (limits : RangeLimits).
Notation core_ok := (core_ok V limits).

(** The fields that follow the log. *)
Record control_ok (s : RangeCheckpoint) : Prop := {
  ct_zero : bool_decide (rk_control_ordinal s = 0) = bool_decide (rk_last_commit s = None);
  ct_commit : ∀ p, rk_last_commit s = Some p → ¬ commit_mismatch s p;
  ct_intent : ∀ t, rk_pending s = Some t → is_Some (ts_intent_commit t);
  ct_barrier : ∀ t b, rk_pending s = Some t → ts_barrier t = Some b →
    cm_sequence b <= rk_control_sequence s ∧ cm_ordinal b <= rk_control_ordinal s ∧
    cm_ledger b = rm_ledger (rk_map s) ∧
    range_command_hash (rm_ledger (rk_map s)) (cm_ordinal b) (cm_sequence b)
      (RangeOperation.Barrier (it_operation (ts_intent t))) = Ok (cm_command b)
}.

(** ** The commit replaces the placeholder *)
Lemma transfer_barrier m t b b' : transfer_ok V limits m t → ts_barrier t = Some b → cm_sequence b' = cm_sequence b →
  transfer_ok V limits m (with_barrier (Some b') t).
Proof.
  intros [H1 H2 H3 H4 H5 H6 H7] Hb Hs. split; simpl; [done..| | |].
  - intros id p Hp. destruct (H5 id p Hp) as (b0 & Hb0 & Hx). rewrite Hb in Hb0. injection Hb0 as <-. exists b'. by rewrite Hs.
  - intros id p Hp. destruct (H6 id p Hp) as (b0 & Hb0 & Hx). rewrite Hb in Hb0. injection Hb0 as <-. exists b'. by rewrite Hs.
  - intros ? [= <-]. rewrite Hs. by apply H7.
Qed.
Lemma transfer_intent_commit m t c : transfer_ok V limits m t → transfer_ok V limits m (with_intent_commit c t).
Proof. by intros [H1 H2 H3 H4 H5 H6 H7]. Qed.
Lemma core_control s ordinal sequence commit p : core_ok s → core_ok (with_published p (with_control ordinal sequence commit s)).
Proof. by intros [H1 H2 H3 H4 H5]. Qed.
Definition placed (operation : RangeOperation) (sequence : SessionSeq) (s : RangeCheckpoint) : Prop :=
  match operation with
  | RangeOperation.Barrier o => ∀ t, rk_pending s = Some t →
      it_operation (ts_intent t) = o ∧ ∃ b, ts_barrier t = Some b ∧ cm_sequence b = sequence
  | RangeOperation.Activate _ _ _ _ => ∀ old, last (rk_history s) = Some old →
      cm_sequence (ac_commit (hm_activation old)) = sequence
  | _ => True
  end.
Lemma committed_core operation proof s s' : core_ok s → placed operation (cm_sequence proof) s →
  committed_state operation proof s = Ok s' → core_ok s'.
Proof.
  intros Hc Hpl Hcs. unfold committed_state in Hcs. destruct operation as [intent| |o| | |o map proofs unchanged| |];
    try (injection Hcs as <-; exact Hc).
  - apply try_bind_ok in Hcs as (t & Ht%or_fail_ok & Hcs). injection Hcs as <-. apply core_pending; [done|by eexists|].
    pose proof (cr_transfer _ _ _ Hc t Ht). case_decide; [by apply transfer_intent_commit|done].
  - apply try_bind_ok in Hcs as (t & Ht%or_fail_ok & Hcs). injection Hcs as <-. apply core_pending; [done|by eexists|].
    destruct (Hpl t Ht) as (_ & b & Hb & Hs). eapply transfer_barrier; [by apply (cr_transfer _ _ _ Hc)|done|done].
  - apply try_bind_ok in Hcs as (old & Hold%or_fail_ok & Hcs). injection Hcs as <-. specialize (Hpl old Hold).
    apply last_Some in Hold as [h Hh]. destruct Hc as [H1 H2 H3 H4 [H5 H6]]. rewrite Hh in *.
    rewrite length_app. cbn [length]. rewrite Nat.add_1_r. cbn [pred]. rewrite take_app_length.
    rewrite length_app in H3. cbn [length] in H3. rewrite fmap_app in H5.
    split; simpl; [done|done|rewrite length_app; cbn [length]; lia|done|]. split; [by rewrite fmap_app|].
    intros x [Hx|Hx]%elem_of_app; [apply H6, elem_of_app; by left|]. apply list_elem_of_singleton in Hx as ->.
    destruct (H6 old) as (? & ? & ? & [A1 A2 A3 A4 A5]); [apply elem_of_app; right; left|].
    simpl. split_and!; [done..|]. split; simpl; [done..|]. by rewrite <-Hpl.
Qed.
(** The transfer a record leaves is the one it found, or a new one. *)
Lemma apply_record_pending c ordinal sequence hash operation s' t' :
  apply_record c V ordinal sequence hash operation = Ok s' → rk_pending s' = Some t' →
  (∃ t, rk_pending (cd_state c) = Some t ∧ ts_intent t' = ts_intent t ∧ ts_intent_commit t' = ts_intent_commit t ∧
    (ts_barrier t' = ts_barrier t ∨
     ∃ o, operation = RangeOperation.Barrier o)) ∨
  (∃ intent, operation = RangeOperation.Begin intent ∧ ts_barrier t' = None).
Proof.
  unfold apply_record. intros Ha Ht'. destruct operation as [intent|o range h|o|proof|proof|o map proofs unchanged|o|o recovery].
  - unfold begin_transfer in Ha. destruct (rk_pending (cd_state c)) as [t|] eqn:Hp.
    + apply refuse_then_ok in Ha as [_ Ha]. injection Ha as <-. left. exists t. rewrite Hp in Ht'. injection Ht' as <-. auto.
    + do 4 (apply refuse_then_ok in Ha as [_ Ha]). apply try_bind_ok in Ha as (? & _ & Ha). injection Ha as <-.
      injection Ht' as <-. right. by eexists.
  - unfold snapshot_transfer in Ha. apply try_bind_ok in Ha as (t & [Hp _]%pending_of_ok & Ha).
    do 2 (apply refuse_then_ok in Ha as [_ Ha]). injection Ha as <-. injection Ht' as <-. left. exists t. auto.
  - unfold barrier_transfer in Ha. apply try_bind_ok in Ha as (t & [Hp _]%pending_of_ok & Ha).
    do 3 (apply refuse_then_ok in Ha as [_ Ha]). injection Ha as <-. injection Ht' as <-. left. exists t. eauto 6.
  - unfold seal_transfer in Ha. apply try_bind_ok in Ha as (? & _ & Ha). apply try_bind_ok in Ha as (t & [Hp _]%pending_of_ok & Ha).
    apply try_bind_ok in Ha as (? & _ & Ha). apply refuse_then_ok in Ha as [_ Ha]. apply try_bind_ok in Ha as (? & _ & Ha).
    apply refuse_then_ok in Ha as [_ Ha]. injection Ha as <-. injection Ht' as <-. left. exists t. auto.
  - unfold ready_transfer in Ha. apply try_bind_ok in Ha as (t & [Hp _]%pending_of_ok & Ha). apply try_bind_ok in Ha as (? & _ & Ha).
    apply try_bind_ok in Ha as (? & _ & Ha). apply refuse_then_ok in Ha as [_ Ha]. apply try_bind_ok in Ha as (? & _ & Ha).
    apply refuse_then_ok in Ha as [_ Ha]. injection Ha as <-. injection Ht' as <-. left. exists t. auto.
  - unfold activate_transfer in Ha. ok_inv.
  - unfold abort_transfer in Ha. apply try_bind_ok in Ha as (? & _ & Ha). apply refuse_then_ok in Ha as [_ Ha]. by injection Ha as <-.
  - unfold cleanup_transfer in Ha. apply try_bind_ok in Ha as ([i old] & _ & Ha). do 2 (apply refuse_then_ok in Ha as [_ Ha]).
    apply try_bind_ok in Ha as (? & _ & Ha). injection Ha as <-. left. exists t'. auto.
Qed.
Lemma apply_record_map c ordinal sequence hash operation s' : core_ok (cd_state c) →
  apply_record c V ordinal sequence hash operation = Ok s' →
  rm_ledger (rk_map s') = rm_ledger (rk_map (cd_state c)) ∧ rk_published s' = rk_published (cd_state c) ∧
  (is_activate operation = false → rk_map s' = rk_map (cd_state c)) ∧
  rm_epoch (rk_map (cd_state c)) <= rm_epoch (rk_map s').
Proof.
  unfold apply_record. intros Hc Ha. pose proof (rm_valid _ _ _ (cr_map _ _ _ Hc)) as Hv.
  destruct operation as [intent|o range h|o|proof|proof|o map proofs unchanged|o|o recovery].
  - unfold begin_transfer in Ha. destruct (rk_pending (cd_state c)); ok_inv; done.
  - unfold snapshot_transfer in Ha. ok_inv. done.
  - unfold barrier_transfer in Ha. ok_inv. done.
  - unfold seal_transfer in Ha. ok_inv. done.
  - unfold ready_transfer in Ha. ok_inv. done.
  - unfold activate_transfer in Ha. apply try_bind_ok in Ha as (t & [Hp _]%pending_of_ok & Ha). ok_inv. simpl.
    pose proof (tk_desired _ _ _ _ (cr_transfer _ _ _ Hc t Hp)) as Hd. destruct (rm_replace_ok _ _ _ _ _ Hd) as (Hl & _).
    rewrite (rm_replace_epoch _ _ _ _ _ Hv Hd). split_and!; [done|done|done|lia].
  - unfold abort_transfer in Ha. ok_inv. done.
  - unfold cleanup_transfer in Ha. apply try_bind_ok in Ha as ([i old] & _ & Ha). ok_inv. done.
Qed.
Lemma apply_record_placed c ordinal sequence hash operation s' :
  apply_record c V ordinal sequence hash operation = Ok s' → placed operation sequence s'.
Proof.
  unfold apply_record, placed. intros Ha. destruct operation as [|o range h|o|proof|proof|o map proofs unchanged|o|o recovery]; try done.
  - unfold barrier_transfer in Ha. apply try_bind_ok in Ha as (t & [_ Ho]%pending_of_ok & Ha).
    do 3 (apply refuse_then_ok in Ha as [_ Ha]). injection Ha as <-. intros ? [= <-]. split; [done|]. by eexists.
  - unfold activate_transfer in Ha. ok_inv. intros old. simpl. rewrite last_snoc. by intros [= <-].
Qed.

(** ** Preparing and publishing *)
Lemma or_drop_ok {A} (drop : Levels → Levels) (k : Fallible Levels RangeError A) F x F' :
  or_drop drop k F = (Ok x, F') → k F = (Ok x, F').
Proof. unfold or_drop. destruct (k F) as [[y|e] F0]; naive_solver. Qed.
Record prepared_of (c : RangeCoordinator) (ordinal : N) (sequence : SessionSeq) (operation : RangeOperation)
    (p : PreparedRangeCommand) : Prop := {
  po_hash : range_command_hash (rm_ledger (cd_map c)) ordinal sequence operation = Ok (pc_hash p);
  po_fields : pc_ordinal p = ordinal ∧ pc_sequence p = sequence ∧ pc_operation p = operation;
  po_next : pc_existing p = false → ordinal = rk_control_ordinal (cd_state c) + 1 ∧
    rk_control_sequence (cd_state c) <= sequence ∧
    ∃ applied, apply_record c V ordinal sequence (pc_hash p) operation = Ok applied ∧
      vs_state (pc_next p) = with_control ordinal sequence
        (Some (placeholder (rm_ledger (rk_map applied)) ordinal sequence (pc_hash p))) applied
}.
Lemma prepare_prepared c lane ordinal sequence operation F p F' :
  prepare_in c lane ordinal sequence operation V F = (Ok p, F') → prepared_of c ordinal sequence operation p.
Proof.
  unfold prepare_in. intros Hp. apply fallible_bind_ok in Hp as (hash & F1 & Hh%lift_ok & Hp). destruct Hh as [Hh ->].
  case_decide.
  - apply fallible_bind_ok in Hp as (? & ? & _ & Hp). apply fallible_bind_ok in Hp as (? & ? & _ & Hp).
    injection Hp as <- <-. split; done.
  - apply fallible_bind_ok in Hp as (expected & F2 & [He ->]%lift_ok & Hp).
    apply fallible_bind_ok in Hp as (? & F3 & [Ho ->]%lift_ok & Hp). apply refuse_if_ok, dec_stable in Ho.
    apply fallible_bind_ok in Hp as (? & F4 & [Hs ->]%lift_ok & Hp). apply refuse_if_ok in Hs.
    do 7 (apply fallible_bind_ok in Hp as (? & ? & _ & Hp)). apply or_drop_ok in Hp.
    apply fallible_bind_ok in Hp as (next & F5 & [Hn ->]%lift_ok & Hp). injection Hp as <- <-.
    unfold range_add in He. apply or_fail_ok, checked_add_Some in He as [-> _].
    unfold next_state in Hn. apply try_bind_ok in Hn as (applied & Ha & Hn). apply try_bind_ok in Hn as (? & _ & Hn).
    apply refuse_then_ok in Hn as [_ Hn]. injection Hn as <-. split; simpl; [done|done|]. intros _. split_and!; [done|lia|].
    by exists applied.
Qed.
Lemma verify_commit_ok proof ledger ordinal sequence command u : verify_commit proof ledger ordinal sequence command V = Ok u →
  cm_ledger proof = ledger ∧ cm_ordinal proof = ordinal ∧ cm_sequence proof = sequence ∧ cm_command proof = command ∧
  cm_index proof ≠ 0 ∧ cm_term proof ≠ 0 ∧ nonzero (cm_attestation proof) ≠ false.
Proof.
  unfold verify_commit. intros Hv. apply refuse_then_ok in Hv as [H1 Hv]. apply refuse_then_ok in Hv as [H2 Hv].
  apply refuse_then_ok in Hv as [H3 Hv]. apply dec_stable in H1. spared H2. spared H3. done.
Qed.
Lemma committed_fields operation proof s s' : committed_state operation proof s = Ok s' →
  rk_map s' = rk_map s ∧ rk_control_ordinal s' = rk_control_ordinal s ∧ rk_control_sequence s' = rk_control_sequence s ∧
  rk_last_commit s' = rk_last_commit s ∧ rk_published s' = rk_published s.
Proof. unfold committed_state. destruct operation; intros Hc; ok_inv; done. Qed.
Lemma committed_pending operation proof s s' t' : committed_state operation proof s = Ok s' → rk_pending s' = Some t' →
  ∃ t, rk_pending s = Some t ∧ ts_intent t' = ts_intent t ∧
  match operation with
  | RangeOperation.Begin _ => is_Some (ts_intent_commit t') ∧ ts_barrier t' = ts_barrier t
  | RangeOperation.Barrier _ => ts_intent_commit t' = ts_intent_commit t ∧ ts_barrier t' = Some proof
  | _ => t' = t
  end.
Proof.
  unfold committed_state. intros Hc Ht'. destruct operation; try (injection Hc as <-; by exists t').
  - apply try_bind_ok in Hc as (t & Ht%or_fail_ok & Hc). injection Hc as <-. injection Ht' as <-. exists t. split; [done|].
    case_decide as Hn; simpl; (split; [done|]); [by split|]. split; [|done]. destruct (ts_intent_commit t); [by eexists|done].
  - apply try_bind_ok in Hc as (t & Ht%or_fail_ok & Hc). injection Hc as <-. injection Ht' as <-. by exists t.
  - apply try_bind_ok in Hc as (old & Ho%or_fail_ok & Hc). injection Hc as <-. by exists t'.
Qed.
(** What a published record leaves. *)
Record published_as (c : RangeCoordinator) (sequence : SessionSeq) (operation : RangeOperation) (proof : CommitProof)
    (next : RangeCheckpoint) : Prop := {
  pa_core : core_ok next;
  pa_control : control_ok next;
  pa_ordinal : rk_control_ordinal next = rk_control_ordinal (cd_state c) + 1;
  pa_sequence : rk_control_sequence (cd_state c) <= rk_control_sequence next ∧ cm_sequence proof = rk_control_sequence next;
  pa_published : rk_published next = rk_published (cd_state c);
  pa_ledger : rm_ledger (rk_map next) = rm_ledger (cd_map c);
  pa_map : is_activate operation = false → rk_map next = cd_map c;
  pa_epoch : rm_epoch (cd_map c) <= rm_epoch (rk_map next)
}.
Lemma publish_sound c ordinal sequence operation p proof next : cd_limits c = limits → core_ok (cd_state c) →
  control_ok (cd_state c) → prepared_of c ordinal sequence operation p → publish_state c p proof V = Ok (Some next) →
  published_as c sequence operation proof next.
Proof.
  intros Hl Hcore [Z1 Z2 Z3 Z4] [Hhash (Hpo & Hps & Hpop) Hnext] Hpub. unfold publish_state in Hpub.
  apply refuse_then_ok in Hpub as [_ Hpub]. apply try_bind_ok in Hpub as ([] & Hver & Hpub).
  destruct (pc_existing p); [apply refuse_then_ok in Hpub as [_ Hpub]; done|].
  destruct (Hnext eq_refl) as (Hord & Hseq & applied & Happ & Hstate). clear Hnext.
  apply refuse_then_ok in Hpub as [_ Hpub]. rewrite Hstate, Hpop in Hpub. apply try_bind_ok in Hpub as (n & Hcs & Hpub).
  injection Hpub as <-. apply verify_commit_ok in Hver as (V1 & V2 & V3 & V4 & V5 & V6 & V7).
  destruct (apply_record_map _ _ _ _ _ _ Hcore Happ) as (Hled & Hpubd & Hmap & Hepoch).
  destruct (committed_fields _ _ _ _ Hcs) as (F1 & F2 & F3 & F4 & F5). simpl in F1, F2, F3, F4, F5.
  assert (Hcore' : core_ok n).
  { eapply committed_core; [|  |exact Hcs]; [apply core_control|].
    - apply (core_control _ _ _ _ (rk_published applied)). by eapply apply_record_core.
    - pose proof (apply_record_placed _ _ _ _ _ _ Happ) as Hpl. rewrite V3, Hps. by destruct operation. }
  split; [done| |rewrite F2; done|rewrite F3, V3, Hps; done|rewrite F5, Hpubd; lia|by rewrite F1|by rewrite F1|by rewrite F1].
  split.
  - rewrite F2, F4. rewrite bool_decide_eq_false_2 by lia. by rewrite bool_decide_eq_false_2.
  - intros q. rewrite F4. intros [= <-]. unfold commit_mismatch. rewrite F1, F2, F3, Hled.
    intros [?|[?|[?|[?|[?|?]]]]]; congruence.
  - intros t' Ht'. destruct (committed_pending _ _ _ _ _ Hcs Ht') as (t & Ht & Hint & Hop). simpl in Ht.
    destruct (apply_record_pending _ _ _ _ _ _ _ Happ Ht) as [(t0 & Ht0 & _ & Hic & _)|(intent & -> & _)]; [|by destruct Hop].
    destruct operation; try (subst t'; rewrite Hic; by apply Z3); [by destruct Hop|].
    destruct Hop as [-> _]. rewrite Hic. by apply Z3.
  - intros t' b Ht' Hb. rewrite F1, F2, F3, Hled.
    destruct (committed_pending _ _ _ _ _ Hcs Ht') as (t & Ht & Hint & Hop). simpl in Ht. rewrite Hint.
    destruct (decide (ts_barrier t' = ts_barrier t)) as [Hsame|Hdiff].
    + destruct (apply_record_pending _ _ _ _ _ _ _ Happ Ht) as [(t0 & Ht0 & Hi0 & _ & [Hb0|[o ->]])|(intent & -> & Hb0)].
      * rewrite Hsame, Hb0 in Hb. destruct (Z4 t0 b Ht0 Hb) as (B1 & B2 & B3 & B4). rewrite Hi0. split_and!; [lia|lia|done|done].
      * destruct Hop as [_ Hop]. rewrite Hb in Hop. injection Hop as ->.
        pose proof (apply_record_placed _ _ _ _ _ _ Happ t Ht) as [Ho _].
        rewrite V2, V3, Hpo, Hps, Ho, V4, V1. split_and!; [lia|lia|done|exact Hhash].
      * destruct Hop as [_ Hop]. congruence.
    + destruct operation; try (by subst t'); [by destruct Hop|]. destruct Hop as [_ Hop]. rewrite Hb in Hop. injection Hop as ->.
      pose proof (apply_record_placed _ _ _ _ _ _ Happ t Ht) as [Ho _].
      rewrite V2, V3, Hpo, Hps, Ho, V4, V1. split_and!; [lia|lia|done|exact Hhash].
Qed.

(** ** A sound checkpoint validates *)
Lemma size_keys {A} (S : gmap RangeId A) (ids : gset RangeId) : (∀ id x, S !! id = Some x → id ∈ ids) → (size S ≤ size ids)%nat.
Proof.
  intros Hk. rewrite <-size_dom. apply subseteq_size. intros id [x Hx]%elem_of_dom. by eapply Hk.
Qed.
Lemma size_listed (l : list RangeId) : (size (list_to_set l : gset RangeId) ≤ length l)%nat.
Proof.
  induction l as [|x l IH]; [done|]. cbn [list_to_set length]. rewrite size_union_alt, size_singleton.
  assert ((size ((list_to_set l : gset RangeId) ∖ {[x]}) ≤ size (list_to_set l : gset RangeId))%nat); [|lia].
  apply subseteq_size. set_solver.
Qed.
Lemma size_replacements {A} (S : gmap RangeId A) (l : list Descriptor) :
  (∀ id x, S !! id = Some x → ∃ d, d ∈ l ∧ rd_id d = id) → (size S ≤ length l)%nat.
Proof.
  intros Hk. etrans; [apply (size_keys S (list_to_set (rd_id <$> l)))|].
  - intros id x (d & Hd & <-)%Hk. apply elem_of_list_to_set, list_elem_of_fmap. by exists d.
  - etrans; [apply size_listed|by rewrite length_fmap].
Qed.
Lemma check_history_fold s acc h :
  (∀ old, old ∈ h → rm_validate (hm_map old) limits = Ok () ∧ rm_ledger (hm_map old) = rm_ledger (rk_map s) ∧
    rm_epoch (hm_map old) < rm_epoch (rk_map s) ∧ activated V limits (hm_map old) (hm_activation old)) →
  NoDup (acc ++ ((λ old, rm_epoch (hm_map old)) <$> h)) → ∃ epochs, try_fold (check_history s limits) acc h = Ok epochs.
Proof.
  revert acc. induction h as [|old h IH]; intros acc Hold Hn; [by exists acc|]. simpl.
  destruct (Hold old) as (Hv & Hl & He & Hact); [left|].
  pose proof (rm_replace_fits _ _ _ _ _ (rm_valid _ _ _ Hv) (av_map _ _ _ _ Hact)) as Hfit.
  pose proof (rm_replace_epoch _ _ _ _ _ (rm_valid _ _ _ Hv) (av_map _ _ _ _ Hact)) as Hep.
  assert (Hck : check_history s limits acc old = Ok (rm_epoch (hm_map old) :: acc)).
  { unfold check_history. rewrite Hv. cbn [mbind try_bind]. rewrite refuse_pass.
    - unfold checked_add. rewrite (proj2 (N.leb_le _ _) Hfit). cbn [mbind try_bind or_fail]. rewrite refuse_pass; [done|].
      intros Hne. by rewrite Hep in Hne.
    - rewrite fmap_cons in Hn. apply NoDup_app in Hn as (_ & Hdis & _). intros [?|[?|Hin]]; [done|lia|].
      apply (Hdis _ Hin). left. }
  rewrite Hck. cbn [mbind try_bind]. apply IH; [intros o Ho; apply Hold; by right|].
  rewrite fmap_cons in Hn. simpl. by rewrite Permutation_middle.
Qed.
Lemma state_validates s : core_ok s → control_ok s → validate_checkpoint s limits = Ok ().
Proof.
  intros [H1 H2 H3 H4 [H5 H6]] [Z1 Z2 Z3 Z4]. unfold validate_checkpoint. rewrite H1. cbn [mbind try_bind].
  rewrite refuse_pass by (intros [?|?]; [done|destruct (rk_pending s); lia]).
  rewrite refuse_pass.
  2: { intros [Hne|Hex]; [by rewrite Z1 in Hne|]. apply Exists_exists in Hex as (p & Hp & Hm).
       destruct (rk_last_commit s) as [q|]; [|by apply not_elem_of_nil in Hp]. apply list_elem_of_singleton in Hp as ->.
       by eapply Z2. }
  destruct (check_history_fold s [] (rk_history s) H6) as [epochs Hfold]; [done|].
  destruct (rk_pending s) as [t|] eqn:Hp; [|cbn [mbind try_bind]; by rewrite Hfold].
  destruct (H4 t eq_refl) as [K1 K2 K3 K4 K5 K6 K7].
  assert (Hpend : check_pending s limits t = Ok ()); [|rewrite Hpend; cbn [mbind try_bind]; by rewrite Hfold].
  unfold check_pending. rewrite K1. cbn [mbind try_bind]. rewrite refuse_pass.
  - unfold check_barrier. destruct (ts_barrier t) as [b|] eqn:Hb.
    + destruct (Z4 t b eq_refl Hb) as (B1 & B2 & B3 & B4). rewrite refuse_pass.
      * rewrite B4. cbn [mbind try_bind]. apply refuse_if_ok. intros Hx. by apply Hx.
      * pose proof (K7 b eq_refl). intros [?|[?|[?|?]]]; [lia|lia|lia|done].
    + apply refuse_if_ok. intros [Hne|Hne]; apply Hne, map_empty; intros id.
      * destruct (ts_source_seals t !! id) as [p|] eqn:Hid; [|done]. by destruct (K5 id p Hid) as (? & ? & _).
      * destruct (ts_ready t !! id) as [p|] eqn:Hid; [|done]. by destruct (K6 id p Hid) as (? & ? & _).
  - intros [?|[?|[Hne|[Hn|[Hsz|[Hsz|Hsz]]]]]]; [done|done|done| | | |].
    + destruct (Z3 t eq_refl) as [x Hx]. congruence.
    + pose proof (size_replacements (ts_snapshots t) (it_replacements (ts_intent t))) as Hle. apply Nat.lt_nge in Hsz. apply Hsz, Hle.
      intros id h Hid. destruct (K4 id h Hid) as (d & ? & ? & _). by exists d.
    + pose proof (size_replacements (ts_ready t) (it_replacements (ts_intent t))) as Hle. apply Nat.lt_nge in Hsz. apply Hsz, Hle.
      intros id p Hid. destruct (K6 id p Hid) as (b & _ & [_ (d & ? & ? & _) _ _ _ _]). by exists d.
    + pose proof (size_keys (ts_source_seals t) (it_sources (ts_intent t))) as Hle. apply Nat.lt_nge in Hsz. apply Hsz, Hle.
      intros id p Hid. by destruct (K5 id p Hid) as (b & _ & [_ Hsrc _ _ _]).
Qed.
End Publishing.

(** ** The coordinator *)
Section Sound.
Context `{RangeWire, RangeLayout}.
Context (V : RangeVerifier) (limits : RangeLimits).

Record sound (c : RangeCoordinator) : Prop := {
  sd_limits : cd_limits c = limits;
  sd_core : core_ok V limits (cd_state c);
  sd_control : control_ok (cd_state c);
  sd_progress : ∀ id p, cd_progress c !! id = Some p → rg_range p = id ∧ validate_progress (cd_map c) p = Ok () ∧
    rg_through p <= cd_committed c ∧ vf_progress V p = Ok ();
  sd_committed : rk_published (cd_state c) <= cd_committed c ∧ rk_control_sequence (cd_state c) <= cd_committed c;
  sd_pins : ∀ i pin, pr_pins (cd_pins c) !! i = Some pin → rm_validate (pi_map pin) limits = Ok ()
}.
Lemma restore_ok owner state incarnation budget F c F' : restore owner state incarnation limits budget F = (Ok c, F') →
  validate_checkpoint state limits = Ok () ∧ cd_state c = state ∧ cd_limits c = limits ∧ cd_progress c = ∅ ∧
  cd_committed c = N.max (rk_control_sequence state) (rk_published state) ∧ pr_pins (cd_pins c) = ∅.
Proof.
  unfold restore. intros Hr%or_drop_ok. apply fallible_bind_ok in Hr as ([] & F1 & [Hv ->]%lift_ok & Hr).
  do 2 (apply fallible_bind_ok in Hr as (? & ? & _ & Hr)). apply or_drop_ok in Hr.
  do 2 (apply fallible_bind_ok in Hr as (? & ? & _ & Hr)). apply or_drop_ok in Hr.
  do 2 (apply fallible_bind_ok in Hr as (? & ? & _ & Hr)). injection Hr as <- <-. done.
Qed.
Lemma restore_sound owner state incarnation budget F c F' : core_ok V limits state → control_ok state →
  restore owner state incarnation limits budget F = (Ok c, F') → sound c.
Proof.
  intros Hcore Hcontrol (_ & Hs & Hl & Hp & Hc & Hpins)%restore_ok. split; rewrite ?Hs, ?Hp, ?Hc, ?Hpins; try done. lia.
Qed.
Lemma new_sound owner map incarnation budget F c F' : coordinator_new owner map incarnation limits budget F = (Ok c, F') → sound c.
Proof.
  intros Hn. pose proof (restore_ok _ _ _ _ _ _ _ Hn) as (Hv & _). eapply restore_sound; [| |exact Hn].
  - unfold validate_checkpoint in Hv. apply try_bind_ok in Hv as ([] & Hm & _). split; simpl; [done|done|lia|done|].
    split; [constructor|]. intros old Ho. by apply not_elem_of_nil in Ho.
  - by split.
Qed.
Lemma with_root_sound c next alloc progress committed term : sound c → core_ok V limits next → control_ok next →
  (∀ id p, progress !! id = Some p → cd_progress c !! id = Some p ∧ rk_map next = cd_map c) →
  rk_published next <= committed → rk_control_sequence next <= committed → cd_committed c <= committed →
  sound (with_root {| vs_state := next; vs_allocation := alloc |} progress committed term c).
Proof.
  intros [S1 S2 S3 S4 S5 S6] Hcore Hcontrol Hprog Hp Hc Hge. split; simpl; [done..| |done|done].
  intros id p Hid. destruct (Hprog id p Hid) as [Hold Hmap]. destruct (S4 id p Hold) as (? & ? & ? & ?).
  unfold cd_map, cd_state. simpl. rewrite Hmap. split_and!; [done|done|lia|done].
Qed.
Lemma publish_keeps c ordinal sequence operation p proof F r c' F' : sound c →
  prepared_of V c ordinal sequence operation p → publish p proof V (c, F) = (r, (c', F')) → sound c'.
Proof.
  intros Hs Hp Hpub. unfold publish in Hpub. destruct (publish_state c p proof V) as [[next|]|e] eqn:Hps;
    [|by injection Hpub as <- <- <-..].
  injection Hpub as <- <- <-. pose proof Hs as [S1 S2 S3 S4 [S5 S5'] S6].
  destruct (publish_sound V limits _ _ _ _ _ _ _ S1 S2 S3 Hp Hps) as [P1 P2 P3 [P4 P4'] P5 P6 P7 P8].
  destruct (po_fields _ _ _ _ _ _ Hp) as (_ & _ & Hop).
  apply with_root_sound; [done..| |rewrite P5; lia|lia|lia].
  intros id q. rewrite Hop. destruct (is_activate operation); [by rewrite lookup_empty|]. intros Hq. split; [done|by apply P7].
Qed.
Lemma relayout_keeps c sources replacements F r c' F' : sound c →
  relayout sources replacements (c, F) = (r, (c', F')) → sound c'.
Proof.
  intros Hs Hr. unfold relayout in Hr.
  destruct (refuse_if _ _ ≫= _) as [[next bytes]|e] eqn:Hn; [|by injection Hr as <- <- <-].
  destruct (in_memory _ F) as [[alloc|e] F1]; [|by injection Hr as <- <- <-]. injection Hr as <- <- <-.
  apply refuse_then_ok in Hn as [Hpend Hn]. apply try_bind_ok in Hn as (map & Hmap & Hn).
  apply try_bind_ok in Hn as (? & _ & Hn). injection Hn as <- <-. destruct Hs as [S1 S2 S3 S4 [S5 S5'] S6] eqn:Heq. clear Heq.
  rewrite S1 in Hmap. destruct S2 as [C1 C2 C3 C4 [C5 C6]] eqn:E2. clear E2. pose proof (rm_valid _ _ _ C1) as Hv.
  destruct (rm_replace_ok _ _ _ _ _ Hmap) as (Hled & Hval & _). pose proof (rm_replace_epoch _ _ _ _ _ Hv Hmap) as Hep.
  assert (Hnone : rk_pending (cd_state c) = None) by (destruct (rk_pending (cd_state c)); [exfalso; apply Hpend; by eexists|done]).
  apply with_root_sound; [by split| | |intros id p; by rewrite lookup_empty|simpl; lia|simpl; lia|lia].
  - split; simpl; [done|done|by rewrite Hnone in *| |].
    + intros t Ht. congruence.
    + split; [done|]. intros old Ho. destruct (C6 old Ho) as (? & ? & ? & ?). split_and!; [done|congruence|lia|done].
  - destruct S3 as [Z1 Z2 Z3 Z4]. split; simpl; [done| |by rewrite Hnone|intros t b; by rewrite Hnone].
    intros q Hq Hm. apply (Z2 q Hq). unfold commit_mismatch in *. simpl in Hm. by rewrite Hled in Hm.
Qed.
Lemma observe_committed_keeps c proof c' : sound c → observe_committed proof V c = Ok c' → sound c'.
Proof.
  intros Hs Ho. unfold observe_committed in Ho. apply refuse_then_ok in Ho as [_ Ho]. apply try_bind_ok in Ho as (? & _ & Ho).
  apply refuse_then_ok in Ho as [Hle Ho]. injection Ho as <-. pose proof Hs as [S1 S2 S3 S4 [S5 S5'] S6].
  destruct (cd_root c) as [state alloc] eqn:Hroot. assert (Hst : state = cd_state c) by (unfold cd_state; by rewrite Hroot). subst state.
  apply with_root_sound; [done..| |lia|lia|lia].
  intros id p. case_decide; [by rewrite lookup_empty|]. done.
Qed.
Lemma published_bound c q : published c = Some q → q <= cd_committed c ∧ rk_published (cd_state c) <= q.
Proof.
  unfold published. case_decide; [done|]. case_decide as Hle; [|done]. intros [= <-]. split; [lia|done].
Qed.
Lemma observe_progress_keeps c proof c' : sound c → observe_progress proof V c = Ok c' → sound c'.
Proof.
  intros Hs Ho. unfold observe_progress in Ho. apply try_bind_ok in Ho as ([] & Hval & Ho).
  apply try_bind_ok in Ho as ([] & Hver & Ho). apply refuse_then_ok in Ho as [Hle Ho]. cbv zeta in Ho.
  set (c1 := with_root _ _ _ _ c) in Ho. pose proof Hs as [S1 S2 S3 S4 [S5 S5'] S6].
  assert (H1 : sound c1).
  { split; try done. intros id p Hid. unfold c1 in Hid. simpl in Hid. apply lookup_insert_Some in Hid as [[<- <-]|[_ Hid]]; [|by apply S4].
    split_and!; [done|done| |done]. simpl. apply N.nlt_ge. intros Hlt. apply Hle. by left. }
  injection Ho as <-. destruct (published c1) as [q|] eqn:Hq; [|done]. destruct (published_bound _ _ Hq) as [Hb _].
  destruct (sd_committed _ H1) as [T1 T2].
  apply with_root_sound; [done|by destruct S2|by destruct S3|done| |exact T2|done]. apply N.max_lub; [exact T1|exact Hb].
Qed.
End Sound.

(** ** Pinned reads *)
Section Keeps.
Context {S E : Type} (Q : S → Prop).
(** The step leaves [Q], whatever it returns. *)
Definition leaves {A} (m : Fallible S E A) : Prop := ∀ s, Q s → Q (m s).2.
Lemma keeps_bind {A B} (m : Fallible S E A) (k : A → Fallible S E B) : leaves m → (∀ x, leaves (k x)) → leaves (m ≫= k).
Proof.
  intros Hm Hk s Hs. specialize (Hm s Hs). unfold mbind, fallible_bind. destruct (m s) as [[x|e] s1]; [by apply Hk|done].
Qed.
Lemma keeps_lift {A} (x : Try E A) : leaves (lift x).
Proof. by intros s Hs. Qed.
Lemma keeps_gets {A} (f : S → A) : leaves (gets f).
Proof. by intros s Hs. Qed.
Lemma keeps_ret {A} (x : A) : leaves (mret x).
Proof. by intros s Hs. Qed.
Lemma keeps_modify f : (∀ s, Q s → Q (f s)) → leaves (modify f).
Proof. intros Hf s Hs. by apply Hf. Qed.
End Keeps.
Create HintDb keeps.
#[export] Hint Resolve keeps_lift keeps_gets keeps_ret keeps_modify : keeps.
Ltac keep_steps := repeat first [ solve [eauto with keeps] | apply keeps_bind; [|intros ?] ].

Section PinRuns.
Context `{RangeLayout}.
Context (limits : RangeLimits) (V : RangeVerifier).
Definition pins_valid (x : PinRegistry * Levels) : Prop :=
  ∀ i pin, pr_pins x.1 !! i = Some pin → rm_validate (pi_map pin) limits = Ok ().
Lemma advance_keeps now : leaves pins_valid (pins_advance now).
Proof.
  intros [s F] Hs. unfold pins_advance. case_decide; [done|]. intros i pin Hi. apply map_lookup_filter_Some in Hi as [Hi _].
  by eapply Hs.
Qed.
Lemma on_levels_keeps {A} (k : Fallible Levels MemoryError A) : leaves pins_valid (on_levels k).
Proof. intros [s F] Hs. unfold on_levels. by destruct (k F). Qed.
Hint Resolve advance_keeps on_levels_keeps : keeps.
Lemma pin_keeps map request proofs : rm_validate map limits = Ok () → leaves pins_valid (pins_pin map request proofs V).
Proof.
  intros Hm. unfold pins_pin. keep_steps. apply keeps_modify. intros [s F] Hs i pin Hi. simpl in Hi.
  apply lookup_insert_Some in Hi as [[<- <-]|[_ Hi]]; [done|by eapply Hs].
Qed.
Lemma plan_keeps cursor now target : leaves pins_valid (pins_plan cursor now target V).
Proof.
  unfold pins_plan. keep_steps. destruct (default _ target) as [map proofs]. keep_steps.
  destruct (plan_fragments _ _ _ _); [apply keeps_ret|]. apply keeps_bind; [|intros; apply keeps_lift].
  apply keeps_modify. by intros [s F].
Qed.
Lemma release_keeps cursor : leaves pins_valid (pins_release cursor).
Proof.
  unfold pins_release. keep_steps. apply keeps_modify. intros [s F] Hs i pin Hi. simpl in Hi.
  apply lookup_delete_Some in Hi as [_ Hi]. by eapply Hs.
Qed.
End PinRuns.

Section Reads.
Context `{RangeWire, RangeLayout}.
Context (V : RangeVerifier) (limits : RangeLimits).
Definition sound_with (x : RangeCoordinator * Levels) : Prop := sound V limits x.1.
Lemma on_pins_keeps {A} (k : Fallible (PinRegistry * Levels) RangeError A) :
  leaves (pins_valid limits) k → leaves sound_with (on_pins k).
Proof.
  intros Hk [c F] [S1 S2 S3 S4 S5 S6]. unfold on_pins. specialize (Hk (cd_pins c, F) S6).
  destruct (k (cd_pins c, F)) as [r [pins F']]. split; try done.
Qed.
Lemma coordinator_pin_keeps request proofs : leaves sound_with (coordinator_pin request proofs V).
Proof.
  intros [c F] Hs. unfold coordinator_pin, mbind, fallible_bind, gets, lift. cbn [fst].
  destruct (refuse_if _ _); [|done]. refine (on_pins_keeps (pins_pin (cd_map c) request proofs V) _ (c, F) Hs).
  apply pin_keeps. by destruct Hs as [_ [] _ _ _ _].
Qed.
Lemma read_plan_keeps cursor now : leaves sound_with (read_plan cursor now V).
Proof. apply on_pins_keeps, plan_keeps. Qed.
Lemma translate_keeps cursor now proofs : leaves sound_with (translate cursor now proofs V).
Proof. intros [c F] Hs. refine (on_pins_keeps (pins_plan cursor now (Some (cd_map c, proofs)) V) _ (c, F) Hs). apply plan_keeps. Qed.
Lemma release_pin_keeps cursor : leaves sound_with (release_pin cursor).
Proof. apply on_pins_keeps, release_keeps. Qed.
Lemma advance_clock_keeps now : leaves sound_with (advance_clock now).
Proof. apply on_pins_keeps, advance_keeps. Qed.
End Reads.

(** ** Movements

    The budget's levels are free at every step: other components share them. *)
Section MovementRuns.
Context `{RangeWire, RangeLayout, MovementWire}.
Notation verifier m := (ledger_verifier (mv_genesis m)).

Inductive movement_run : Movement → Prop :=
  | run_new owner genesis map limits budget F m F' :
      movement_new owner genesis map limits budget F = (Ok m, F') → movement_run m
  | run_restart m owner bytes budget F m' F' :
      movement_run m → checkpoint_parse bytes = Some (cd_state (mv_coordinator m), []) →
      movement_restore owner (mv_genesis m) bytes (mv_limits m) budget F = (Ok m', F') → movement_run m'
  | run_apply m record sequence index term F r m' F' :
      movement_run m → movement_apply record sequence index term (m, F) = (r, (m', F')) → movement_run m'
  | run_split m at_affinity id F r m' F' :
      movement_run m → movement_split at_affinity id (m, F) = (r, (m', F')) → movement_run m'
  | run_merge m left F r m' F' :
      movement_run m → movement_merge left (m, F) = (r, (m', F')) → movement_run m'
  | run_committed m proof c : movement_run m → observe_committed proof (verifier m) (mv_coordinator m) = Ok c →
      movement_run (with_coordinator c m)
  | run_progress m proof c : movement_run m → observe_progress proof (verifier m) (mv_coordinator m) = Ok c →
      movement_run (with_coordinator c m)
  | run_pin m request proofs F r c F' : movement_run m →
      coordinator_pin request proofs (verifier m) (mv_coordinator m, F) = (r, (c, F')) → movement_run (with_coordinator c m)
  | run_plan m cursor now F r c F' : movement_run m →
      read_plan cursor now (verifier m) (mv_coordinator m, F) = (r, (c, F')) → movement_run (with_coordinator c m)
  | run_translate m cursor now proofs F r c F' : movement_run m →
      translate cursor now proofs (verifier m) (mv_coordinator m, F) = (r, (c, F')) → movement_run (with_coordinator c m)
  | run_release m cursor F r c F' : movement_run m →
      release_pin cursor (mv_coordinator m, F) = (r, (c, F')) → movement_run (with_coordinator c m)
  | run_clock m now F r c F' : movement_run m →
      advance_clock now (mv_coordinator m, F) = (r, (c, F')) → movement_run (with_coordinator c m).

Definition movement_sound (m : Movement) : Prop := sound (verifier m) (mv_limits m) (mv_coordinator m).
(** Notes beside the coordinator change nothing it depends on. *)
Definition beside (m m' : Movement) : Prop :=
  mv_coordinator m' = mv_coordinator m ∧ mv_genesis m' = mv_genesis m ∧ mv_limits m' = mv_limits m.
Lemma note_applied_beside ordinal hash m : beside m (note_applied ordinal hash m).
Proof. unfold note_applied. destruct (mv_in_flight m) as [[]|]; [case_decide|]; done. Qed.
Lemma beside_sound m m' : beside m m' → movement_sound m → movement_sound m'.
Proof. unfold movement_sound. by intros (-> & -> & ->). Qed.
Lemma apply_keeps m record sequence index term F r m' F' : movement_sound m →
  movement_apply record sequence index term (m, F) = (r, (m', F')) → movement_sound m'.
Proof.
  intros Hs Ha. unfold movement_apply in Ha.
  destruct (prepare _ _ _ _ _ F) as [[p|e] F1] eqn:Hp.
  2: { injection Ha as <- <- <-. eapply beside_sound; [|exact Hs].
       destruct (note_applied_beside (mr_ordinal record) None m) as (? & ? & ?). done. }
  apply prepare_prepared in Hp. destruct (attest_commit _ _) as [proof|e]; [|by injection Ha as <- <- <-].
  destruct (publish p proof (verifier m) (mv_coordinator m, F1)) as [rp [c F2]] eqn:Hpub.
  assert (Hc : movement_sound (with_coordinator c m)) by (eapply (publish_keeps _ _ _ _ _ _ _ _ _ _ _ _ Hs Hp Hpub)).
  destruct rp as [u|e].
  - injection Ha as <- <- <-. by eapply beside_sound; [apply note_applied_beside|].
  - destruct e; injection Ha as <- <- <-; try done; by eapply beside_sound; [apply note_applied_beside|].
Qed.
Lemma relayout_movement m sources replacements F r m' F' : movement_sound m →
  on_coordinator (relayout sources replacements) (m, F) = (r, (m', F')) → movement_sound m'.
Proof.
  intros Hs Ho. unfold on_coordinator in Ho.
  destruct (relayout sources replacements (mv_coordinator m, F)) as [r0 [c F1]] eqn:Hr. injection Ho as <- <- <-.
  by eapply relayout_keeps.
Qed.
Lemma split_keeps m at_affinity id F r m' F' : movement_sound m →
  movement_split at_affinity id (m, F) = (r, (m', F')) → movement_sound m'.
Proof.
  intros Hs Hsp. unfold movement_split, mbind, fallible_bind, gets, lift in Hsp. cbn [fst] in Hsp.
  destruct (or_fail _ _) as [parent|e]; [|by injection Hsp as <- <- <-].
  destruct (next_generation parent) as [g|e]; [|by injection Hsp as <- <- <-]. by eapply relayout_movement.
Qed.
Lemma merge_keeps m left F r m' F' : movement_sound m → movement_merge left (m, F) = (r, (m', F')) → movement_sound m'.
Proof.
  intros Hs Hsp. unfold movement_merge, mbind, fallible_bind, gets, lift in Hsp. cbn [fst] in Hsp.
  destruct (or_fail (list_find _ _) _) as [[i l]|e]; [|by injection Hsp as <- <- <-].
  destruct (or_fail (_ !! _) _) as [right|e]; [|by injection Hsp as <- <- <-].
  destruct (next_generation l) as [g|e]; [|by injection Hsp as <- <- <-]. by eapply relayout_movement.
Qed.
Lemma new_movement_sound owner genesis map limits budget F m F' :
  movement_new owner genesis map limits budget F = (Ok m, F') → movement_sound m.
Proof.
  unfold movement_new. intros Hn. apply fallible_bind_ok in Hn as (c & F1 & Hc%errors_as_ok & Hn). injection Hn as <- <-.
  by eapply new_sound.
Qed.
Lemma restart_sound m owner bytes budget F m' F' : movement_sound m →
  checkpoint_parse bytes = Some (cd_state (mv_coordinator m), []) →
  movement_restore owner (mv_genesis m) bytes (mv_limits m) budget F = (Ok m', F') → movement_sound m'.
Proof.
  intros [S1 S2 S3 S4 S5 S6] Hb Hr. unfold movement_restore in Hr. rewrite Hb in Hr. cbn [or_fail] in Hr.
  destruct (refuse_if _ _ ≫= _) as [state|e] eqn:Hst; [|done]. apply refuse_then_ok in Hst as [_ Hst].
  apply try_bind_ok in Hst as ([s rest] & [= <- <-] & Hst). apply refuse_then_ok in Hst as [_ Hst]. injection Hst as <-.
  apply fallible_bind_ok in Hr as (c & F1 & Hc%errors_as_ok & Hr). injection Hr as <- <-. by eapply restore_sound.
Qed.
Lemma read_sound {A} m (k : Fallible (RangeCoordinator * Levels) RangeError A) F r c F' : movement_sound m →
  leaves (sound_with (verifier m) (mv_limits m)) k → k (mv_coordinator m, F) = (r, (c, F')) → movement_sound (with_coordinator c m).
Proof. intros Hs Hk Hr. specialize (Hk (mv_coordinator m, F) Hs). by rewrite Hr in Hk. Qed.
Lemma run_sound m : movement_run m → movement_sound m.
Proof.
  induction 1.
  - by eapply new_movement_sound.
  - by eapply restart_sound.
  - by eapply apply_keeps.
  - by eapply split_keeps.
  - by eapply merge_keeps.
  - by eapply (observe_committed_keeps (verifier m)).
  - by eapply (observe_progress_keeps (verifier m)).
  - by eapply read_sound; [|apply coordinator_pin_keeps|].
  - by eapply read_sound; [|apply read_plan_keeps|].
  - by eapply read_sound; [|apply translate_keeps|].
  - by eapply read_sound; [|apply release_pin_keeps|].
  - by eapply read_sound; [|apply advance_clock_keeps|].
Qed.
End MovementRuns.

(** ** Laws of read plans and record frames

    A plan's fragments serve exactly the keys of the pinned span past the cursor,
    each once; a framed movement record decodes to itself. *)
#[local] Close Scope N_scope.
(** ** Exactly one *)
Definition once {A} (P : A → Prop) (l : list A) : Prop :=
  ∃ i x, l !! i = Some x ∧ P x ∧ ∀ j y, l !! j = Some y → P y → j = i.
Lemma once_cons {A} (P : A → Prop) x l : once P (x :: l) → (P x ∧ ∀ y, y ∈ l → ¬ P y) ∨ (¬ P x ∧ once P l).
Proof.
  intros ([|i] & y & Hy & HP & Hu).
  - injection Hy as ->. left. split; [done|]. intros z [j Hj]%list_elem_of_lookup_1 Hz. by specialize (Hu (S j) z Hj Hz).
  - right. split; [intros Hx; by specialize (Hu 0 x eq_refl Hx)|]. exists i, y. split_and!; [done..|].
    intros j z Hj Hz. specialize (Hu (S j) z Hj Hz). by injection Hu.
Qed.
Lemma once_head {A} (P : A → Prop) x l : P x → (∀ y, y ∈ l → ¬ P y) → once P (x :: l).
Proof.
  intros Hx Hl. exists 0, x. split_and!; [done..|]. intros [|j] y Hj Hy; [done|].
  exfalso. by eapply Hl; [eapply list_elem_of_lookup_2|].
Qed.
Lemma once_tail {A} (P : A → Prop) x l : ¬ P x → once P l → once P (x :: l).
Proof.
  intros Hx (i & y & Hy & HP & Hu). exists (S i), y. split_and!; [done..|].
  intros [|j] z Hj Hz; [by injection Hj as <-|]. by rewrite (Hu j z Hj Hz).
Qed.

(** ** Fragments *)
(** The key is in the span and past the cursor. *)
Definition wanted (span : Span) (after : option StorageKey) (k : StorageKey) : Prop :=
  span_contains span k = true ∧ ∀ a, after = Some a → key_lt a k.
Definition serves (k : StorageKey) (f : ReadFragment) : Prop := wanted (fr_span f) (fr_after_exclusive f) k.
Definition spans (k : StorageKey) (d : Descriptor) : Prop := span_contains (rd_span d) k = true.
Lemma fragment_serves span after d s k proof : fragment_span span after d = Some s →
  serves k {| fr_span := s; fr_after_exclusive := fragment_after s after; fr_availability := proof |} ↔
  spans k d ∧ wanted span after k.
Proof.
  unfold fragment_span, serves, wanted, spans. simpl. intros Hs.
  destruct (span_intersection (rd_span d) span) as [u|] eqn:Hu; [|done]. simpl in Hs.
  assert (u = s) as -> by (destruct after, (sp_end u); [case_decide|..]; congruence).
  pose proof (intersection_contains _ _ _ Hu k) as Hk. split.
  - intros [Hc Ha]. pose proof (proj1 (contains_spec _ _) Hc) as [Hab _]. apply Hk in Hc as [? ?].
    split_and!; [done|done|]. intros a ->. unfold fragment_after in Ha. simpl in Ha.
    destruct (sp_start s) as [b|]; [|by apply Ha]. case_decide as Hle; [by apply Ha|].
    apply key_nle in Hle. by eapply key_lt_le_trans.
  - intros (Hd & Hc & Ha). split; [by apply Hk|]. intros a Hfa. apply Ha. unfold fragment_after in Hfa.
    destruct after as [a'|]; [|done]. simpl in Hfa. destruct (sp_start s); [case_decide|]; congruence.
Qed.
(** A skipped range has nothing left to read. *)
Lemma skipped_serves span after d k : fragment_span span after d = None → spans k d → ¬ wanted span after k.
Proof.
  unfold fragment_span, spans, wanted. intros Hn Hd [Hc Ha].
  destruct (span_intersection (rd_span d) span) as [u|] eqn:Hu; [|exact (intersection_none _ _ Hu k Hd Hc)]. simpl in Hn.
  destruct after as [a|], (sp_end u) as [b|] eqn:Hb; try done. case_decide as Hle; [|done].
  assert (Hk : span_contains u k = true) by (by apply (intersection_contains _ _ _ Hu)).
  apply contains_spec in Hk as [_ Hk]. rewrite Hb in Hk. simpl in Hk. specialize (Ha a eq_refl).
  apply (key_le_lt b a Hle). by eapply key_lt_trans.
Qed.
Lemma plan_once span after proofs ranges frags k : plan_fragments span after proofs ranges = Ok frags →
  wanted span after k → once (spans k) ranges → once (serves k) frags.
Proof.
  intros Hp Hw. revert frags Hp.
  assert (Hnone : ∀ ranges frags, plan_fragments span after proofs ranges = Ok frags →
    (∀ d, d ∈ ranges → ¬ spans k d) → ∀ f, f ∈ frags → ¬ serves k f).
  { clear ranges. induction ranges as [|d ranges IH]; intros frags Hp Hno f Hf; simpl in Hp.
    - injection Hp as <-. by apply not_elem_of_nil in Hf.
    - destruct (fragment_span span after d) as [s|] eqn:Hs; [|eapply IH; [done| |done]; intros; apply Hno; by right].
      apply try_bind_ok in Hp as (proof & _ & Hp). apply try_bind_ok in Hp as (rest & Hrest & Hp). injection Hp as <-.
      apply elem_of_cons in Hf as [->|Hf]; [|eapply IH; [done| |done]; intros; apply Hno; by right].
      rewrite (fragment_serves _ _ _ _ _ _ Hs). intros [Hd _]. by apply (Hno d ltac:(left)). }
  induction ranges as [|d ranges IH]; intros frags Hp Ho; [by destruct Ho as (i & ? & ? & _)|]. simpl in Hp.
  apply once_cons in Ho as [[Hd Hno]|[Hd Ho]].
  - destruct (fragment_span span after d) as [s|] eqn:Hs; [|exfalso; by eapply skipped_serves].
    apply try_bind_ok in Hp as (proof & _ & Hp). apply try_bind_ok in Hp as (rest & Hrest & Hp). injection Hp as <-.
    apply once_head; [by apply (fragment_serves _ _ _ _ _ _ Hs)|by eapply Hnone].
  - destruct (fragment_span span after d) as [s|] eqn:Hs; [|by apply IH].
    apply try_bind_ok in Hp as (proof & _ & Hp). apply try_bind_ok in Hp as (rest & Hrest & Hp). injection Hp as <-.
    apply once_tail; [rewrite (fragment_serves _ _ _ _ _ _ Hs); tauto|by apply IH].
Qed.
(** Each fragment is of one range, served by that range's only proof. *)
Lemma plan_elem span after proofs ranges frags f : plan_fragments span after proofs ranges = Ok frags → f ∈ frags →
  ∃ d s, d ∈ ranges ∧ fragment_span span after d = Some s ∧ head (proofs_of (rd_id d) proofs) = Some (fr_availability f) ∧
  f = {| fr_span := s; fr_after_exclusive := fragment_after s after; fr_availability := fr_availability f |}.
Proof.
  revert frags. induction ranges as [|d ranges IH]; intros frags Hp Hf; simpl in Hp.
  - injection Hp as <-. by apply not_elem_of_nil in Hf.
  - destruct (fragment_span span after d) as [s|] eqn:Hs.
    + apply try_bind_ok in Hp as (proof & Hpr%or_fail_ok & Hp). apply try_bind_ok in Hp as (rest & Hrest & Hp). injection Hp as <-.
      apply elem_of_cons in Hf as [->|Hf]; [exists d, s; split_and!; [left|done..]|].
      destruct (IH rest Hrest Hf) as (d' & s' & ? & ?). exists d', s'. split; [by right|done].
    + destruct (IH frags Hp Hf) as (d' & s' & ? & ?). exists d', s'. split; [by right|done].
Qed.
Lemma valid_once m k : valid_ranges (rm_map m) → once (spans k) (rm_ranges m).
Proof. intros Hv. destruct (valid_route (rm_map m) k Hv) as (i & r & _ & Hi & Hk & Hu). by exists i, r. Qed.
(** What the plan of a pin checked. *)
Lemma fragment_intersects span after d s : fragment_span span after d = Some s → intersects span d.
Proof. unfold fragment_span, intersects. destruct (span_intersection _ _); [by eexists|done]. Qed.
Lemma availability_ok map span cursor proofs limits V d proof : validate_availability map span cursor proofs limits V = Ok () →
  d ∈ rm_ranges map → intersects span d → head (proofs_of (rd_id d) proofs) = Some proof →
  ra_range proof = rd_id d ∧ ra_epoch proof = rm_epoch map ∧ ra_range_generation proof = rd_generation d ∧
  accepts_reader (rd_meta d) (ra_replica proof) = true ∧ ra_prefix proof = rc_prefix cursor ∧
  (rc_expires_at cursor <= ra_expires_at proof)%N ∧ vf_read V proof = Ok ().
Proof.
  intros Hva Hd Hi Hh. unfold validate_availability in Hva. do 2 (apply refuse_then_ok in Hva as [_ Hva]).
  pose proof (proj1 (try_each_ok _ _ _) Hva d) as Hck. specialize (Hck ltac:(by apply list_elem_of_filter)).
  unfold check_availability in Hck. destruct (proofs_of (rd_id d) proofs) as [|p more] eqn:Hps; [done|]. injection Hh as ->.
  assert (Hp : proof ∈ proofs_of (rd_id d) proofs) by (rewrite Hps; left). apply list_elem_of_filter in Hp as [Hr _].
  apply refuse_then_ok in Hck as [Hall Hck]. spared Hall. split_and!; try done; [|lia].
  by destruct (accepts_reader _ _).
Qed.

(** ** Frames *)
#[local] Open Scope N_scope.
Lemma le_value_bytes w n : n < 256 ^ N.of_nat w → le_value (le_bytes w n) = n.
Proof.
  revert n. induction w as [|w IH]; intros n Hn.
  - simpl in *. lia.
  - rewrite Nat2N.inj_succ, N.pow_succ_r' in Hn. cbn [le_bytes le_value]. rewrite IH by (apply N.Div0.div_lt_upper_bound; lia).
    pose proof (N.div_mod n 256 ltac:(done)). lia.
Qed.
Lemma id_value_bytes n : n < 2 ^ 128 → id_value (be_bytes 16 n) = n.
Proof.
  intros Hn. unfold id_value, be_bytes. rewrite reverse_involutive. apply le_value_bytes. exact Hn.
Qed.
Lemma take_field_app (pre field post : list N) from len : N.of_nat (length pre) = from → N.of_nat (length field) = len →
  from + len <= u64_max → take_field (pre ++ field ++ post) from len = Ok field.
Proof.
  intros <- <- Hfit. unfold take_field, session_add, checked_add. rewrite (proj2 (N.leb_le _ _) Hfit). cbn [mbind try_bind or_fail].
  rewrite decide_True by (rewrite !length_app; lia). cbn [or_fail]. rewrite !Nat2N.id, drop_app_length, take_app_length. done.
Qed.
Lemma fixed_width_ok w (bytes : list N) : length bytes = w → fixed_width w bytes = Ok bytes.
Proof. intros Hl. unfold fixed_width. by rewrite decide_True. Qed.
(** A record whose identifiers and ordinal have their width and name a ledger. *)
Record record_wf (r : MovementRecord) : Prop := {
  rw_tenant : 0 < tenant (mr_ledger r) < 2 ^ 128;
  rw_session : 0 < session (mr_ledger r) < 2 ^ 128;
  rw_ordinal : mr_ordinal r < 2 ^ 64
}.
Section Frames.
Context `{MovementWire}.
Definition record_frame (r : MovementRecord) (body : list N) : list N :=
  MAGIC ++ le_bytes 2 VERSION ++ be_bytes 16 (tenant (mr_ledger r)) ++ be_bytes 16 (session (mr_ledger r))
  ++ le_bytes 8 (mr_ordinal r) ++ le_bytes 4 (N.of_nat (length body)) ++ body.
Lemma encode_frame r bytes : record_encode r = Ok bytes → ∃ body, operation_bytes (mr_operation r) = Some body ∧
  N.of_nat (length body) <= u32_max ∧ HEAD + N.of_nat (length body) + 32 <= MAX_RECORD_BYTES ∧
  bytes = record_frame r body ++ keyed_digest HASH_DOMAIN (record_frame r body).
Proof.
  unfold record_encode. intros He. apply try_bind_ok in He as (body & Hbody%or_fail_ok & He).
  apply try_bind_ok in He as (len & Hlen%or_fail_ok & He). apply try_bind_ok in He as (head & Hhead & He).
  apply try_bind_ok in He as (total & Htotal & He). apply refuse_then_ok in He as [Hmax He]. injection He as <-.
  unfold try_u32 in Hlen. destruct (N.leb_spec (N.of_nat (length body)) u32_max); [|done]. injection Hlen as <-.
  unfold session_add in Hhead, Htotal. apply or_fail_ok, checked_add_Some in Hhead as [-> _].
  apply or_fail_ok, checked_add_Some in Htotal as [-> _]. exists body. split_and!; [done|done|lia|done].
Qed.
Lemma length_frame r body : length (record_frame r body) = (54 + length body)%nat.
Proof. unfold record_frame. rewrite !length_app, !length_le_bytes, !length_be_bytes. simpl. lia. Qed.
Lemma field_at payload (pre field post : list N) from len : payload = pre ++ field ++ post →
  N.of_nat (length pre) = from → N.of_nat (length field) = len → from + len <= 65536 → take_field payload from len = Ok field.
Proof. intros -> Hp Hf Hle. apply take_field_app; [done|done|]. unfold u64_max. lia. Qed.
Lemma frame_decodes r body : record_wf r → (∀ p, length (keyed_digest HASH_DOMAIN p) = 32%nat) →
  operation_parse body = Some (mr_operation r, []) → N.of_nat (length body) <= u32_max →
  HEAD + N.of_nat (length body) + 32 <= MAX_RECORD_BYTES →
  record_decode (record_frame r body ++ keyed_digest HASH_DOMAIN (record_frame r body)) = Ok r.
Proof.
  intros [[Ht0 Ht] [Hs0 Hs] Ho] Hd Hparse Hu Hmax. unfold record_decode.
  set (P := record_frame r body). pose proof (length_frame r body) as HP. fold P in HP. specialize (Hd P). set (D := keyed_digest _ P) in *.
  assert (HM : MAX_RECORD_BYTES = 65536) by reflexivity. assert (HH : HEAD = 54) by reflexivity. rewrite HH, HM in *.
  assert (Hsa : session_add 54 32 = Ok 86) by reflexivity. rewrite Hsa. cbn [mbind try_bind].
  rewrite refuse_pass by (rewrite length_app, Hd, HP; lia).
  replace (length (P ++ D) - 32)%nat with (length P) by (rewrite length_app, Hd; lia).
  rewrite take_app_length, drop_app_length. cbv zeta. rewrite refuse_pass by tauto.
  pose (t := be_bytes 16 (tenant (mr_ledger r))). pose (u := be_bytes 16 (session (mr_ledger r))).
  pose (o := le_bytes 8 (mr_ordinal r)). pose (l := le_bytes 4 (N.of_nat (length body))).
  assert (Hlens : length t = 16%nat ∧ length u = 16%nat ∧ length o = 8%nat ∧ length l = 4%nat)
    by (unfold t, u, o, l; by rewrite !length_be_bytes, !length_le_bytes). destruct Hlens as (Lt & Lu & Lo & Ll).
  assert (HPe : P = MAGIC ++ le_bytes 2 VERSION ++ t ++ u ++ o ++ l ++ body) by reflexivity.
  rewrite (field_at P [] MAGIC (le_bytes 2 VERSION ++ t ++ u ++ o ++ l ++ body) 0 8) by (reflexivity || lia). cbn [mbind try_bind]. rewrite refuse_pass by tauto.
  rewrite (field_at P MAGIC (le_bytes 2 VERSION) (t ++ u ++ o ++ l ++ body) 8 2) by (reflexivity || lia). cbn [mbind try_bind]. rewrite refuse_pass by tauto.
  rewrite (field_at P (MAGIC ++ le_bytes 2 VERSION) t (u ++ o ++ l ++ body) 10 16) by (reflexivity || lia). cbn [mbind try_bind].
  rewrite fixed_width_ok by done. cbn [mbind try_bind].
  rewrite (field_at P (MAGIC ++ le_bytes 2 VERSION ++ t) u (o ++ l ++ body) 26 16)
    by (rewrite ?HPe, ?length_app, <-?app_assoc, ?Lt, ?Lu; (reflexivity || lia)). cbn [mbind try_bind]. rewrite fixed_width_ok by done. cbn [mbind try_bind].
  rewrite (field_at P (MAGIC ++ le_bytes 2 VERSION ++ t ++ u) o (l ++ body) 42 8)
    by (rewrite ?HPe, ?length_app, <-?app_assoc, ?Lt, ?Lu, ?Lo; (reflexivity || lia)). cbn [mbind try_bind]. rewrite fixed_width_ok by done. cbn [mbind try_bind].
  rewrite (field_at P (MAGIC ++ le_bytes 2 VERSION ++ t ++ u ++ o) l body 50 4)
    by (rewrite ?HPe, ?length_app, <-?app_assoc, ?Lt, ?Lu, ?Lo, ?Ll; (reflexivity || lia)). cbn [mbind try_bind]. rewrite fixed_width_ok by done. cbn [mbind try_bind].
  assert (Hlv : le_value l = N.of_nat (length body)) by (apply le_value_bytes; unfold u32_max in Hu; simpl; lia). rewrite Hlv.
  rewrite (field_at P (MAGIC ++ le_bytes 2 VERSION ++ t ++ u ++ o ++ l) body [] 54 (N.of_nat (length body)))
    by (rewrite ?HPe, ?length_app, <-?app_assoc, ?Lt, ?Lu, ?Lo, ?Ll, ?app_nil_r; (reflexivity || lia)). cbn [mbind try_bind].
  assert (Hstop : session_add 54 (N.of_nat (length body)) = Ok (54 + N.of_nat (length body))).
  { unfold session_add, checked_add. rewrite (proj2 (N.leb_le _ _)) by (unfold u64_max; lia). done. }
  rewrite Hstop. cbn [mbind try_bind]. rewrite refuse_pass by (rewrite HP; lia). rewrite Hparse. cbn [or_fail mbind try_bind].
  unfold t, u, o. rewrite !id_value_bytes, le_value_bytes by (done || (simpl; lia)).
  rewrite refuse_pass.
  - destruct r as [[tn ss] ord op]. reflexivity.
  - unfold is_zero. simpl. rewrite !N.eqb_eq. intros [?|[?|?]]; [done|lia|lia].
Qed.
End Frames.
