(* ===== verification/RangeProperties.v ===== *)
(** * What range movement promises

    Routing and replacement of maps, the safety of transfers over every run of a
    session's movement, exact read plans, and the record frame. *)
From stdpp Require Import prelude gmap strings list sorting.
From Stdlib Require Import NArith.
From S2P Require Import Prelude Fallible Objects Budget RangeMap RangeTypes RangePins.
From S2P Require Import RangeTransfer RangeCoordinator RangeMovement RangeMap RangeInvariants RangeRuns.
From S2P Require Import RangeRuns.
#[local] Open Scope N_scope.

(** ** A range moves

    A session of two replica-held ranges: the lower one moves from replica A to
    replica B at native prefix 20, while the upper one stays with replica C. The
    digests and attestations are constants, operations serialize to a few bytes. *)
Module Moving.
#[export] Instance wire : RangeWire :=
  {| digest := λ _ _, Ok 7; operation_size := λ _, Ok 100; checkpoint_size := λ _, Ok 1000 |}.
#[export] Instance layout : RangeLayout :=
  {| size_of_Descriptor := 80; size_of_ReplicaId := 16; size_of_RangeProgress := 120; size_of_Pin := 200;
     size_of_ReadAvailability := 120; size_of_RangeReadPlan := 100; size_of_ReadFragment := 150 |}.
#[export] Instance codec : MovementWire :=
  {| operation_bytes := λ o, match o with RangeOperation.Barrier t => Some [t] | _ => None end;
     operation_parse := λ b, match b with [t] => Some (RangeOperation.Barrier t, []) | _ => None end;
     checkpoint_encode := λ _, None; checkpoint_parse := λ _, None;
     keyed_digest := λ _ _, replicate 32 0; derive_key := λ _ h, h; attest_digest := λ _ _ _, Some 9 |}.

Definition ledger : LedgerId := {| tenant := 3; session := 4 |}.
Definition replica_a : ReplicaId := {| rp_node := 1; rp_generation := 1 |}.
Definition replica_b : ReplicaId := {| rp_node := 2; rp_generation := 1 |}.
Definition replica_c : ReplicaId := {| rp_node := 3; rp_generation := 1 |}.
Definition middle : StorageKey := boundary_key 100.
Definition lower (generation : N) (holder : ReplicaId) : Descriptor :=
  {| rd_id := 1; rd_generation := generation; rd_span := {| sp_start := None; sp_end := Some middle |};
     rd_meta := placement_replica holder |}.
Definition upper : Descriptor :=
  {| rd_id := 2; rd_generation := 1; rd_span := {| sp_start := Some middle; sp_end := None |};
     rd_meta := placement_replica replica_c |}.
Definition limits : RangeLimits := range_limits_default.
Definition map : RangeMap :=
  {| rm_ledger := ledger; rm_map := {| kr_epoch := 1; kr_ranges := [lower 1 replica_a; upper] |} |}.

(** ** Memory and the fresh movement *)
Definition memory : Levels := Eval vm_compute in (budget_new 100000000 0 levels_new).2.
Definition ok_of {S E A} (d : A) (x : Try E A * S) : A := match x with (Ok y, _) => y | _ => d end.
Definition default_movement : Movement :=
  movement_of 0 limits {| cd_root := {| vs_state := empty_checkpoint map; vs_allocation :=
    {| al_level := 0; al_bytes := 0; al_kind := BudgetKind.Control; al_lane := BudgetLane.Committed |} |};
    cd_owner := 0; cd_limits := limits; cd_budget := 0; cd_pins := pins_new 0 limits 0; cd_progress := ∅;
    cd_committed := 0; cd_term := 0; cd_runtime :=
    {| al_level := 0; al_bytes := 0; al_kind := BudgetKind.Control; al_lane := BudgetLane.Committed |} |}.
Definition fresh_run := movement_new (Ok 1) 11 map limits 0 memory.
Definition fresh : Movement := Eval vm_compute in ok_of default_movement fresh_run.

(** ** The records of the transfer *)
Definition intent : RangeIntent :=
  {| it_ledger := ledger; it_operation := 50; it_old_epoch := 1; it_sources := {[1]};
     it_replacements := [lower 2 replica_b]; it_seed := 10 |}.
Definition seal : SourceSealProof :=
  {| ss_ledger := ledger; ss_operation := 50; ss_old_epoch := 1; ss_range := 1; ss_range_generation := 1;
     ss_replica := replica_a; ss_cut := 20; ss_checkpoint := 5; ss_attestation := 9 |}.
Definition ready : DestinationReady :=
  {| dr_ledger := ledger; dr_operation := 50; dr_new_epoch := 2; dr_range := 1; dr_range_generation := 2;
     dr_replica := replica_b; dr_seed := 10; dr_through := 20; dr_snapshot := 6; dr_state := 5; dr_checkpoint := 5;
     dr_attestation := 9 |}.
Definition upper_progress (through : SessionSeq) (epoch : RouteEpoch) : RangeProgress :=
  {| rg_ledger := ledger; rg_epoch := epoch; rg_range := 2; rg_range_generation := 1; rg_replica := replica_c;
     rg_through := through; rg_term := 1; rg_root := 5; rg_attestation := 9 |}.
Definition record (ordinal : N) (operation : RangeOperation) : MovementRecord :=
  {| mr_ledger := ledger; mr_ordinal := ordinal; mr_operation := operation |}.
(** A record applied at a native prefix, at the log index of its ordinal. *)
Definition applies (ordinal : N) (operation : RangeOperation) (sequence : SessionSeq) (m : Movement) :=
  movement_apply (record ordinal operation) sequence (100 + ordinal) 1 (m, memory).
Definition after_apply (ordinal : N) (operation : RangeOperation) (sequence : SessionSeq) (m : Movement) : Movement :=
  (applies ordinal operation sequence m).2.1.
Definition begun := Eval vm_compute in after_apply 1 (RangeOperation.Begin intent) 10 fresh.
Definition seeded := Eval vm_compute in after_apply 2 (RangeOperation.Snapshot 50 1 6) 12 begun.
Definition fenced := Eval vm_compute in after_apply 3 (RangeOperation.Barrier 50) 20 seeded.
Definition source_sealed := Eval vm_compute in after_apply 4 (RangeOperation.SourceSealed seal) 20 fenced.
Definition destination_ready := Eval vm_compute in after_apply 5 (RangeOperation.Ready ready) 20 source_sealed.
Definition activation : RangeOperation := RangeOperation.Activate 50 7 7 [upper_progress 20 1].
Definition moved := Eval vm_compute in after_apply 6 activation 20 destination_ready.

Lemma step_run m ordinal operation sequence m' : movement_run m → (applies ordinal operation sequence m).2.1 = m' → movement_run m'.
Proof.
  intros Hm Ha. unfold applies in Ha.
  destruct (movement_apply (record ordinal operation) sequence (100 + ordinal) 1 (m, memory)) as [r [m0 F]] eqn:He.
  simpl in Ha. subst m0. by eapply run_apply.
Qed.
Lemma fresh_movement : movement_run fresh.
Proof. eapply (run_new (Ok 1) 11 map limits 0 memory fresh). vm_compute. reflexivity. Qed.
Lemma ready_movement : movement_run destination_ready.
Proof.
  eapply (step_run source_sealed 5 (RangeOperation.Ready ready) 20); [|vm_compute; reflexivity].
  eapply (step_run fenced 4 (RangeOperation.SourceSealed seal) 20); [|vm_compute; reflexivity].
  eapply (step_run seeded 3 (RangeOperation.Barrier 50) 20); [|vm_compute; reflexivity].
  eapply (step_run begun 2 (RangeOperation.Snapshot 50 1 6) 12); [|vm_compute; reflexivity].
  eapply (step_run fresh 1 (RangeOperation.Begin intent) 10); [|vm_compute; reflexivity].
  apply fresh_movement.
Qed.
Lemma moved_movement : movement_run moved.
Proof. eapply (step_run destination_ready 6 activation 20); [apply ready_movement|vm_compute; reflexivity]. Qed.

(** ** Progress after the move, and a pinned scan *)
Definition lower_progress (through : SessionSeq) : RangeProgress :=
  {| rg_ledger := ledger; rg_epoch := 2; rg_range := 1; rg_range_generation := 2; rg_replica := replica_b;
     rg_through := through; rg_term := 1; rg_root := 5; rg_attestation := 9 |}.
Definition observes (p : RangeProgress) (m : Movement) : Movement :=
  match observe_progress p (ledger_verifier 11) (mv_coordinator m) with Ok c => with_coordinator c m | Err _ => m end.
Definition reported := Eval vm_compute in observes (upper_progress 20 2) (observes (lower_progress 18) moved).
Lemma observe_run p m c : movement_run m → mv_genesis m = 11 →
  observe_progress p (ledger_verifier 11) (mv_coordinator m) = Ok c → movement_run (with_coordinator c m).
Proof. intros Hm Hg Ho. eapply run_progress; [done|]. rewrite Hg. exact Ho. Qed.
Lemma reported_movement : movement_run reported.
Proof.
  assert (H1 : ∃ c, observe_progress (lower_progress 18) (ledger_verifier 11) (mv_coordinator moved) = Ok c ∧
    ∃ c', observe_progress (upper_progress 20 2) (ledger_verifier 11) c = Ok c' ∧ with_coordinator c' moved = reported)
    by (vm_compute; eexists; split; [reflexivity|]; eexists; split; reflexivity).
  destruct H1 as (c & Hc & c' & Hc' & <-).
  apply (observe_run (upper_progress 20 2) (with_coordinator c moved) c'); [|done|done].
  apply (observe_run (lower_progress 18) moved c); [apply moved_movement|done|done].
Qed.
Definition available (range generation : N) (replica : ReplicaId) : ReadAvailability :=
  {| ra_ledger := ledger; ra_epoch := 2; ra_range := range; ra_range_generation := generation; ra_replica := replica;
     ra_prefix := 18; ra_lease := 1; ra_expires_at := 5000; ra_root := 5; ra_attestation := 9 |}.
Definition scan : PinRequest :=
  {| pq_prefix := 18; pq_query := 77; pq_span := {| sp_start := Some (boundary_key 40); sp_end := Some (boundary_key 160) |};
     pq_now := 1000; pq_ttl := 500 |}.
Definition pins_scan := coordinator_pin scan [available 1 2 replica_b; available 2 1 replica_c] (ledger_verifier 11).
Definition pinned := Eval vm_compute in (pins_scan (mv_coordinator reported, memory)).2.1.
Definition cursor : RangeCursor :=
  {| rc_cursor_ledger := ledger; rc_incarnation := 0; rc_pin := 1; rc_query := 77; rc_cursor_epoch := 2; rc_prefix := 18;
     rc_expires_at := 1500; rc_after := Some (boundary_key 60) |}.
Lemma pinned_movement : movement_run (with_coordinator pinned reported).
Proof.
  destruct (pins_scan (mv_coordinator reported, memory)) as [r [c F]] eqn:Hp.
  assert (c = pinned) as ->.
  { change c with (r, (c, F)).2.1. rewrite <-Hp. vm_compute. reflexivity. }
  eapply run_pin; [apply reported_movement|exact Hp].
Qed.
End Moving.

(** ** Maps *)
(** A validated map routes every key to the one range whose span holds it. *)
Theorem map_routes_exactly m limits k : rm_validate m limits = Ok () →
  ∃ i d, range_route (rm_map m) k = Some i ∧ rm_ranges m !! i = Some d ∧ rm_route m k = Some d ∧
  span_contains (rd_span d) k = true ∧
  ∀ j d', rm_ranges m !! j = Some d' → span_contains (rd_span d') k = true → j = i.
Proof.
  intros Hv%rm_valid. destruct (valid_route (rm_map m) k Hv) as (i & d & Hr & Hi & Hk & Hu). exists i, d.
  split_and!; [done|done| |done|done]. apply routed_iff; [done|]. split; [by eapply list_elem_of_lookup_2|done].
Qed.
Lemma map_routes_exactly_witness : rm_validate Moving.map Moving.limits = Ok () ∧
  ∃ d, rm_route Moving.map (boundary_key 40) = Some d ∧ span_contains (rd_span d) (boundary_key 40) = true.
Proof.
  split; [vm_compute; reflexivity|].
  destruct (map_routes_exactly Moving.map Moving.limits (boundary_key 40)) as (i & d & _ & _ & Hr & Hk & _);
    [vm_compute; reflexivity|]. exists d. split; assumption.
Defined.

(** Replacing a contiguous set of ranges yields a valid map of the same ledger
    at the next epoch; a key keeps its range unless that range was replaced, and
    then goes to a replacement; a kept identity advances its generation by one and
    a new one starts at one. *)
Theorem replace_moves_sources m sources replacements limits m' :
  rm_validate m limits = Ok () → rm_replace m sources replacements limits = Ok m' →
  rm_validate m' limits = Ok () ∧ rm_ledger m' = rm_ledger m ∧ rm_epoch m' = rm_epoch m + 1 ∧
  (∀ k d, rm_route m k = Some d →
    ∃ d', rm_route m' k = Some d' ∧ if decide (rd_id d ∈ sources) then d' ∈ replacements else d' = d) ∧
  (∀ d, d ∈ rm_ranges m' → match rm_get m (rd_id d) with
    | Some old => d = old ∨ rd_generation d = rd_generation old + 1
    | None => rd_generation d = 1
    end).
Proof.
  intros Hval%rm_valid Hr. destruct (rm_replaced _ _ _ _ _ Hval Hr) as (i & j & Hre).
  destruct (rm_replace_ok _ _ _ _ _ Hr) as (Hl & Hv' & _). split_and!; [done|done|by apply Hre| |].
  - intros k d Hd. destruct (replaced_routes _ _ _ _ _ _ k d Hval Hre Hd) as (d' & Hd' & Hif). exists d'. split; [done|].
    destruct (decide (rd_id d ∈ sources)) as [Hin|Hin].
    + by rewrite decide_True in Hif by (by apply elem_of_set_iter).
    + by rewrite decide_False in Hif by (by rewrite elem_of_set_iter).
  - intros d Hd. by eapply replaced_generation.
Qed.
Lemma replace_moves_sources_witness :
  ∃ m', rm_replace Moving.map {[1]} [Moving.lower 2 Moving.replica_b] Moving.limits = Ok m' ∧ rm_epoch m' = 2.
Proof.
  destruct (rm_replace Moving.map {[1]} [Moving.lower 2 Moving.replica_b] Moving.limits) as [m'|e] eqn:Hr;
    [|vm_compute in Hr; discriminate Hr].
  exists m'. split; [reflexivity|].
  destruct (replace_moves_sources Moving.map {[1]} [Moving.lower 2 Moving.replica_b] Moving.limits m') as (_ & _ & He & _);
    [vm_compute; reflexivity|exact Hr|exact He].
Defined.

(** ** Transfers *)
Section Transfers.
Context `{RangeWire, RangeLayout, MovementWire}.
Notation verifier m := (ledger_verifier (mv_genesis m)).
Notation state m := (cd_state (mv_coordinator m)).

(** C26: The checkpoint of every state a session's movement reaches passes the
    validation that a restore makes of it. *)
Theorem movement_checkpoint_valid m : movement_run m → validate_checkpoint (state m) (mv_limits m) = Ok ().
Proof. intros [_ Hcore Hcontrol _ _ _]%run_sound. by eapply state_validates. Qed.

(** C24: No map is activated before its fence: for every activation in the history,
    each replica that held a replaced range sealed it at the barrier, each replica
    that takes a range was seeded and has reached the barrier, and each replica
    that keeps one has reached the barrier, all attested. *)
Theorem activation_fenced m old : movement_run m → old ∈ rk_history (state m) →
  activated (verifier m) (mv_limits m) (hm_map old) (hm_activation old) ∧
  rm_epoch (ac_map (hm_activation old)) = rm_epoch (hm_map old) + 1 ∧ rm_epoch (hm_map old) < rm_epoch (rk_map (state m)).
Proof.
  intros [_ [_ _ _ _ [_ Hh]] _ _ _ _]%run_sound Hold. destruct (Hh old Hold) as (Hv & _ & Hlt & Hact).
  split_and!; [done| |done]. eapply rm_replace_epoch; [by eapply rm_valid|apply Hact].
Qed.

(** C25: A published prefix is committed, not behind the last one, and every replica
    that holds a range of the current map has reported and attested that it
    reached it, under the current epoch and generation. *)
Theorem published_prefix_held m q : movement_run m → published (mv_coordinator m) = Some q →
  rk_published (state m) <= q <= cd_committed (mv_coordinator m) ∧
  ∀ d r, d ∈ rm_ranges (cd_map (mv_coordinator m)) → pm_owner (rd_meta d) = Holder.Replica r →
  ∃ p, cd_progress (mv_coordinator m) !! rd_id d = Some p ∧ rg_replica p = r ∧
    rg_epoch p = rm_epoch (cd_map (mv_coordinator m)) ∧ rg_range_generation p = rd_generation d ∧
    q <= rg_through p ∧ vf_progress (verifier m) p = Ok ().
Proof.
  intros [_ Hcore _ Hprog _ _]%run_sound Hq. destruct (published_bound _ _ Hq) as [Hle Hge]. split; [done|].
  set (c := mv_coordinator m) in *. pose proof (rm_valid _ _ _ (cr_map _ _ _ Hcore)) as Hv. change (rk_map (cd_state c)) with (cd_map c) in Hv.
  assert (Hval : ∀ id p, cd_progress c !! id = Some p → ∃ d, rm_get (cd_map c) id = Some d ∧
    pm_owner (rd_meta d) = Holder.Replica (rg_replica p) ∧ rg_epoch p = rm_epoch (cd_map c) ∧ rg_range_generation p = rd_generation d).
  { intros id p Hp. destruct (Hprog id p Hp) as (<- & Hval & _). unfold validate_progress in Hval.
    apply refuse_then_ok in Hval as [_ Hval]. apply try_bind_ok in Hval as (d & Hg%or_fail_ok & Hval).
    apply refuse_then_ok in Hval as [Hall _]. spared Hall. by exists d. }
  unfold published in Hq. fold c in Hq. case_decide as Hsize; [done|].
  case_decide as Hle'; [|done]. injection Hq as <-. intros d r Hd Hown.
  destruct (held_covered (cd_progress c) (rm_ranges (cd_map c)) (valid_nodup _ Hv)) with (d := d) as [p Hp];
    [|done|done|by eapply held_owner|].
  { intros id p Hp. destruct (Hval id p Hp) as (d' & Hg & Ho & _). exists d'. destruct (rm_get_ok _ _ _ Hg).
    split_and!; [done|done|by eapply held_owner]. }
  destruct (Hval _ p Hp) as (d' & Hg & Ho & He & Hgen). rewrite rm_get_elem in Hg by done. injection Hg as <-.
  exists p. split_and!; [done|congruence|done|done| |by apply (Hprog _ p Hp)].
  assert (Hin : rg_through p ∈ rg_through <$> (entries (cd_progress c)).*2).
  { apply list_elem_of_fmap. exists p. split; [done|]. apply elem_of_entries_snd. by eexists. }
  destruct (least _) as [w|] eqn:Hw; simpl; [pose proof (least_le _ _ _ Hw Hin); lia|].
  by destruct (rg_through <$> (entries (cd_progress c)).*2); [apply not_elem_of_nil in Hin|].
Qed.

(** Records apply in ordinal order, each at most once: a record either leaves
    the committed state as it was, or is the next ordinal, at a native prefix not
    behind the last one, later in the log than the last commit. *)
Theorem record_applied_in_order m record sequence index term F applied m' F' : movement_run m →
  movement_apply record sequence index term (m, F) = (Ok applied, (m', F')) →
  state m' = state m ∨
  (applied = true ∧ mr_ordinal record = rk_control_ordinal (state m) + 1 ∧ rk_control_ordinal (state m') = mr_ordinal record ∧
   rk_control_sequence (state m) <= sequence ∧ rk_control_sequence (state m') = sequence ∧
   ∃ p, rk_last_commit (state m') = Some p ∧ cm_index p = index ∧ cm_term p = term ∧
     ∀ old, rk_last_commit (state m) = Some old → cm_index old < index ∧ cm_term old <= term).
Proof.
  intros Hs%run_sound Ha. unfold movement_apply in Ha.
  assert (Hnote : ∀ o h x, state (note_applied o h x) = state x).
  { intros o h x. unfold note_applied. destruct (mv_in_flight x) as [[]|]; [case_decide|]; done. }
  destruct (prepare _ _ _ _ _ F) as [[p|e] F1] eqn:Hp; [|injection Ha as <- <- <-; left; apply Hnote].
  apply prepare_prepared in Hp. destruct (attest_commit _ _) as [proof|e] eqn:Hat; [|done].
  assert (Hproof : cm_index proof = index ∧ cm_term proof = term)
    by (unfold attest_commit in Hat; apply try_bind_ok in Hat as (a & _ & Hat); injection Hat as <-; done).
  unfold publish in Ha. destruct (publish_state _ p proof _) as [[next|]|e] eqn:Hps.
  - injection Ha as <- <- <-. right. pose proof Hs as [S1 S2 S3 S4 S5 S6].
    destruct (publish_sound _ _ _ _ _ _ _ _ _ S1 S2 S3 Hp Hps) as [P1 P2 P3 [P4 P4'] P5 P6 P7 P8].
    rewrite Hnote. match goal with |- context [with_coordinator ?c0 m] => change (state (with_coordinator c0 m)) with next end.
    unfold publish_state in Hps. apply refuse_then_ok in Hps as [_ Hps].
    apply try_bind_ok in Hps as ([] & Hver & Hps). destruct (pc_existing p) eqn:Hex; [apply refuse_then_ok in Hps as [_ Hps]; done|].
    apply refuse_then_ok in Hps as [Hbeh Hps]. apply try_bind_ok in Hps as (n & Hcs & Hps). injection Hps as ->.
    destruct (committed_fields _ _ _ _ Hcs) as (_ & F2 & F3 & F4 & _). simpl in F4.
    apply verify_commit_ok in Hver as (_ & _ & V3 & _). destruct (po_fields _ _ _ _ _ _ Hp) as (_ & Hseq & _).
    destruct (po_next _ _ _ _ _ _ Hp Hex) as (Hord & _).
    split_and!; [done|done|congruence|lia|congruence|]. exists proof. destruct Hproof as [Hi Ht]. split_and!; [done..|].
    intros old Hold. unfold behind in Hbeh. rewrite Hold in Hbeh. apply not_true_is_false in Hbeh.
    apply orb_false_iff in Hbeh as [Hbeh _]. apply orb_false_iff in Hbeh as [B1 B2].
    apply N.leb_gt in B1. apply N.ltb_ge in B2. lia.
  - injection Ha as <- <- <-. left. by rewrite Hnote.
  - left. destruct e; try discriminate Ha; injection Ha as <- <- <-; by rewrite Hnote.
Qed.

(** A plan of a pinned scan serves exactly what is left of it: every key of the
    pinned span past the cursor by exactly one fragment, no other key by any, and
    each fragment by a replica that the pinned map accepts for its range, at the
    pinned prefix, for as long as the pin lives. *)
Theorem read_plan_exact m cursor now F plan c F' : movement_run m →
  read_plan cursor now (verifier m) (mv_coordinator m, F) = (Ok plan, (c, F')) →
  ∃ pin, pr_pins (cd_pins (mv_coordinator m)) !! rc_pin cursor = Some pin ∧
  (∀ k, wanted (pi_span pin) (rc_after cursor) k → once (serves k) (rp_fragments plan)) ∧
  (∀ k f, f ∈ rp_fragments plan → serves k f → wanted (pi_span pin) (rc_after cursor) k) ∧
  (∀ f, f ∈ rp_fragments plan → ∃ d, d ∈ rm_ranges (pi_map pin) ∧ ra_range (fr_availability f) = rd_id d ∧
    ra_epoch (fr_availability f) = rm_epoch (pi_map pin) ∧ accepts_reader (rd_meta d) (ra_replica (fr_availability f)) = true ∧
    ra_prefix (fr_availability f) = rc_prefix cursor ∧ rc_expires_at cursor <= ra_expires_at (fr_availability f)).
Proof.
  intros [_ _ _ _ _ Hpins]%run_sound Hr. unfold read_plan, on_pins in Hr.
  destruct (pins_plan cursor now None (verifier m) (cd_pins (mv_coordinator m), F)) as [r [pins F1]] eqn:Hp.
  injection Hr as -> <- <-. unfold pins_plan in Hp. apply fallible_bind_ok in Hp as ([] & [s F2] & Hadv & Hp).
  unfold pins_advance in Hadv. case_decide; [done|]. injection Hadv as <- <-.
  apply fallible_bind_ok in Hp as (s & x & Hg & Hp). injection Hg as <- <-.
  apply fallible_bind_ok in Hp as (pin & x & [Hck ->]%lift_ok & Hp). cbn [default] in Hp.
  apply fallible_bind_ok in Hp as ([] & x & [_ ->]%lift_ok & Hp).
  apply fallible_bind_ok in Hp as ([] & x & [Hva ->]%lift_ok & Hp).
  do 3 (apply fallible_bind_ok in Hp as (? & ? & _ & Hp)).
  destruct (plan_fragments _ _ _ _) as [frags|e] eqn:Hfr; [|done]. injection Hp as <- _. cbn [rp_fragments].
  unfold pins_checked in Hck. apply refuse_then_ok in Hck as [_ Hck]. apply try_bind_ok in Hck as (pin' & Hpin%or_fail_ok & Hck).
  do 2 (apply refuse_then_ok in Hck as [_ Hck]). injection Hck as ->. simpl in Hpin.
  apply map_lookup_filter_Some in Hpin as [Hpin _]. pose proof (rm_valid _ _ _ (Hpins _ _ Hpin)) as Hv.
  exists pin. split_and!; [done| | |].
  - intros k Hk. eapply plan_once; [done|done|by apply valid_once].
  - intros k f Hf Hs. destruct (plan_elem _ _ _ _ _ _ Hfr Hf) as (d & sp & _ & Hsp & _ & He). rewrite He in Hs.
    exact (proj2 (proj1 (fragment_serves _ _ _ _ _ _ Hsp) Hs)).
  - intros f Hf. destruct (plan_elem _ _ _ _ _ _ Hfr Hf) as (d & sp & Hd & Hsp & Hh & _). exists d.
    destruct (availability_ok _ _ _ _ _ _ d _ Hva Hd (fragment_intersects _ _ _ _ Hsp) Hh) as (A1 & A2 & _ & A4 & A5 & A6 & _).
    done.
Qed.

(** A movement record that was framed decodes to itself, when the serialization
    of its operation parses back and the digest is 32 bytes. *)
Theorem movement_record_roundtrip r bytes : record_wf r → record_encode r = Ok bytes →
  (∀ body, operation_bytes (mr_operation r) = Some body → operation_parse body = Some (mr_operation r, [])) →
  (∀ p, length (keyed_digest HASH_DOMAIN p) = 32%nat) → record_decode bytes = Ok r.
Proof.
  intros Hwf (body & Hbody & Hu & Hmax & ->)%encode_frame Hparse Hd. apply frame_decodes; [done|done|by apply Hparse|done|done].
Qed.

(** C27: The coordinator activates a transfer at the same native prefix as its
    barrier, but no destination replica accepts the certificate it then holds: the
    verification demands a strictly later prefix. *)
Theorem same_prefix_activation_refused m record index term F m' F' t b operation map proofs unchanged : movement_run m →
  mr_operation record = RangeOperation.Activate operation map proofs unchanged →
  rk_pending (state m) = Some t → ts_barrier t = Some b →
  movement_apply record (cm_sequence b) index term (m, F) = (Ok true, (m', F')) → state m' ≠ state m →
  ∃ old, last (rk_history (state m')) = Some old ∧ ac_intent (hm_activation old) = ts_intent t ∧
  ∀ limits V, certificate_verify (hm_activation old) limits V ≠ Ok ().
Proof.
  intros Hs%run_sound Hop Ht Hb Ha Hne. unfold movement_apply in Ha.
  destruct (prepare _ _ _ _ _ F) as [[p|e] F1] eqn:Hp; [|done]. apply prepare_prepared in Hp.
  destruct (attest_commit _ _) as [proof|e]; [|done].
  assert (Hnote : ∀ o h x, state (note_applied o h x) = state x).
  { intros o h x. unfold note_applied. destruct (mv_in_flight x) as [[]|]; [case_decide|]; done. }
  unfold publish in Ha. destruct (publish_state _ p proof _) as [[next|]|e] eqn:Hps;
    [|injection Ha as <- <-; by rewrite Hnote in Hne|by destruct e].
  injection Ha as <- <-. rewrite Hnote. match goal with |- context [with_coordinator ?c0 m] => change (state (with_coordinator c0 m)) with next end.
  unfold publish_state in Hps. apply refuse_then_ok in Hps as [_ Hps]. apply try_bind_ok in Hps as ([] & Hver & Hps).
  destruct (pc_existing p) eqn:Hex; [apply refuse_then_ok in Hps as [_ Hps]; done|].
  apply refuse_then_ok in Hps as [_ Hps]. apply try_bind_ok in Hps as (n & Hcs & Hps). injection Hps as ->.
  destruct (po_fields _ _ _ _ _ _ Hp) as (_ & Hseq & Hpop). apply verify_commit_ok in Hver as (_ & _ & V3 & _).
  destruct (po_next _ _ _ _ _ _ Hp Hex) as (_ & _ & applied & Happ & Hst). rewrite Hst, Hpop, Hop in Hcs. rewrite Hop in Happ.
  unfold apply_record, activate_transfer, pending_of in Happ. rewrite Ht in Happ. cbn [or_fail mbind try_bind] in Happ.
  apply try_bind_ok in Happ as (t' & Ht' & Happ). apply refuse_then_ok in Ht' as [_ Ht']. injection Ht' as <-.
  rewrite Hb in Happ. cbn [or_fail mbind try_bind] in Happ. ok_inv.
  unfold committed_state in Hcs. simpl in Hcs. rewrite last_snoc in Hcs. cbn [or_fail mbind try_bind] in Hcs. injection Hcs as <-.
  eexists. split; [simpl; apply last_snoc|]. split; [done|]. intros limits V Hc. unfold certificate_verify in Hc. cbn [ac_barrier ac_commit hm_activation] in Hc.
  apply try_bind_ok in Hc as (? & _ & Hc). apply refuse_then_ok in Hc as [_ Hc]. do 4 (apply try_bind_ok in Hc as (? & _ & Hc)).
  apply refuse_then_ok in Hc as [Hlt _]. apply Hlt. left. rewrite V3, Hseq. done.
Qed.
End Transfers.

(** ** The move of the scenario *)
#[local] Existing Instances Moving.wire Moving.layout Moving.codec.
Lemma movement_checkpoint_valid_witness :
  validate_checkpoint (cd_state (mv_coordinator Moving.destination_ready)) (mv_limits Moving.destination_ready) = Ok ().
Proof. apply movement_checkpoint_valid. apply Moving.ready_movement. Defined.
Lemma activation_fenced_witness : ∃ old, old ∈ rk_history (cd_state (mv_coordinator Moving.moved)) ∧
  activated (ledger_verifier (mv_genesis Moving.moved)) (mv_limits Moving.moved) (hm_map old) (hm_activation old) ∧
  rm_epoch (ac_map (hm_activation old)) = 2.
Proof.
  assert (Hold : ∃ old, head (rk_history (cd_state (mv_coordinator Moving.moved))) = Some old ∧ rm_epoch (hm_map old) = 1)
    by (vm_compute; eexists; split; reflexivity).
  destruct Hold as (old & Hh & He). assert (Hin : old ∈ rk_history (cd_state (mv_coordinator Moving.moved))).
  { destruct (rk_history _); [discriminate Hh|]. injection Hh as ->. left. }
  exists old. split; [exact Hin|]. destruct (activation_fenced Moving.moved old Moving.moved_movement Hin) as (Ha & Hm & _).
  split; [exact Ha|]. rewrite Hm, He. reflexivity.
Defined.
Lemma published_prefix_held_witness : published (mv_coordinator Moving.reported) = Some 18 ∧
  rk_published (cd_state (mv_coordinator Moving.reported)) <= 18 <= cd_committed (mv_coordinator Moving.reported) ∧
  ∃ p, cd_progress (mv_coordinator Moving.reported) !! 1 = Some p ∧ 18 <= rg_through p.
Proof.
  assert (Hp : published (mv_coordinator Moving.reported) = Some 18) by (vm_compute; reflexivity). split; [exact Hp|].
  destruct (published_prefix_held Moving.reported 18 Moving.reported_movement Hp) as [Hb Hh]. split; [exact Hb|].
  destruct (Hh (Moving.lower 2 Moving.replica_b) Moving.replica_b) as (p & Hp1 & _ & _ & _ & Hq & _); [|reflexivity|].
  - assert (Hr : rm_ranges (cd_map (mv_coordinator Moving.reported)) = [Moving.lower 2 Moving.replica_b; Moving.upper])
      by (vm_compute; reflexivity). rewrite Hr. left.
  - exists p. split; [exact Hp1|exact Hq].
Defined.
Lemma record_applied_in_order_witness :
  rk_control_ordinal (cd_state (mv_coordinator Moving.moved)) = 6 ∧
  rk_control_sequence (cd_state (mv_coordinator Moving.destination_ready)) <= 20.
Proof.
  split; [vm_compute; reflexivity|].
  destruct (Moving.applies 6 Moving.activation 20 Moving.destination_ready) as [r [m' F']] eqn:Ha.
  assert (Hr : r = Ok true) by (change r with (r, (m', F')).1; rewrite <-Ha; vm_compute; reflexivity).
  assert (Ho : rk_control_ordinal (cd_state (mv_coordinator m')) = 6)
    by (change m' with (r, (m', F')).2.1; rewrite <-Ha; vm_compute; reflexivity). subst r.
  destruct (record_applied_in_order Moving.destination_ready (Moving.record 6 Moving.activation) 20 106 1 Moving.memory true m' F'
    Moving.ready_movement Ha) as [Hsame|(_ & _ & _ & Hle & _)]; [|exact Hle].
  exfalso. assert (H5 : rk_control_ordinal (cd_state (mv_coordinator Moving.destination_ready)) = 5) by (vm_compute; reflexivity).
  rewrite Hsame, H5 in Ho. discriminate Ho.
Defined.
Lemma read_plan_exact_witness : ∃ plan, once (serves (boundary_key 120)) (rp_fragments plan).
Proof.
  pose (run := read_plan Moving.cursor 1100 (ledger_verifier (mv_genesis (with_coordinator Moving.pinned Moving.reported)))
    (Moving.pinned, Moving.memory)).
  assert (Hok : is_ok run.1) by (vm_compute; exact I). destruct run as [[plan|e] [c F']] eqn:Hr; [|destruct Hok].
  exists plan.
  destruct (read_plan_exact (with_coordinator Moving.pinned Moving.reported) Moving.cursor 1100 Moving.memory plan c F'
    Moving.pinned_movement Hr) as (pin & Hpin & Hone & _).
  apply Hone.
  assert (Hspan : pi_span <$> pr_pins (cd_pins (mv_coordinator (with_coordinator Moving.pinned Moving.reported))) !! rc_pin Moving.cursor
    = Some (pq_span Moving.scan)) by (vm_compute; reflexivity). rewrite Hpin in Hspan. injection Hspan as ->.
  split; [vm_compute; reflexivity|]. intros a Ha. injection Ha as <-. split; [vm_compute; exact I|discriminate].
Defined.
Lemma movement_record_roundtrip_witness : ∃ bytes, record_encode (Moving.record 3 (RangeOperation.Barrier 50)) = Ok bytes ∧
  record_decode bytes = Ok (Moving.record 3 (RangeOperation.Barrier 50)).
Proof.
  destruct (record_encode (Moving.record 3 (RangeOperation.Barrier 50))) as [bytes|e] eqn:He; [|vm_compute in He; discriminate He].
  exists bytes. split; [reflexivity|].
  apply (movement_record_roundtrip (Moving.record 3 (RangeOperation.Barrier 50)) bytes); [|exact He| |].
  - split; vm_compute; repeat split; reflexivity.
  - intros body Hb. injection Hb as <-. reflexivity.
  - reflexivity.
Defined.
Lemma same_prefix_activation_refused_witness : ∃ old, last (rk_history (cd_state (mv_coordinator Moving.moved))) = Some old ∧
  ∀ limits V, certificate_verify (hm_activation old) limits V ≠ Ok ().
Proof.
  assert (Hst : ∃ t b, rk_pending (cd_state (mv_coordinator Moving.destination_ready)) = Some t ∧ ts_barrier t = Some b ∧ cm_sequence b = 20)
    by (vm_compute; do 2 eexists; split; [reflexivity|]; split; reflexivity).
  destruct Hst as (t & b & Ht & Hb & Hseq).
  destruct (Moving.applies 6 Moving.activation 20 Moving.destination_ready) as [r [m' F']] eqn:Ha.
  assert (Hr : r = Ok true) by (change r with (r, (m', F')).1; rewrite <-Ha; vm_compute; reflexivity).
  assert (Hm : m' = Moving.moved) by (change m' with (r, (m', F')).2.1; rewrite <-Ha; vm_compute; reflexivity). subst r m'.
  unfold Moving.applies in Ha. rewrite <-Hseq in Ha.
  destruct (same_prefix_activation_refused Moving.destination_ready (Moving.record 6 Moving.activation) 106 1 Moving.memory Moving.moved F' t b
    50 7 7 [Moving.upper_progress 20 1] Moving.ready_movement eq_refl Ht Hb Ha) as (old & Hold & _ & Hv).
  - intros Heq. assert (H5 : rk_control_ordinal (cd_state (mv_coordinator Moving.destination_ready)) = 5) by (vm_compute; reflexivity).
    rewrite <-Heq in H5. vm_compute in H5. discriminate H5.
  - exists old. split; [exact Hold|exact Hv].
Defined.
