(* ===== verification/Pages.v ===== *)
(** * Rows, pages and leaf cuts (focal-memory: range_key.rs, range_layout.rs and
    the pages of range.rs)

    A range store keeps its rows in pages of ascending keys. This file has the
    rows and the changes to them, what a page is charged, the merge of a page
    with its changes, and the two rules that cut a merged run into pages: the
    greedy one that every quote counts with ([LeafPartition]) and the one that
    chooses where the cuts fall ([Cutter]).

    Bytes are [N] with the source's checked sums; positions and counts of what
    is in memory are [nat]. A [Vec] reserved to its length has the room it asked
    for, so the cut's scratch always holds its cuts. The loops of the source that walk an index are
    recursive on the distance left. *)
From stdpp Require Import prelude strings list sorting.
From Stdlib Require Import NArith.
From S2P Require Import Prelude Fallible Budget.

#[local] Open Scope N_scope.

(** ** Keys *)
(** [Ord::cmp]. *)
Definition key_cmp {K} `{TableKey K} (x y : K) : comparison :=
  if decide (x = y) then Eq else if decide (key_lt x y) then Lt else Gt.
(** [RangeKey]: an integer prefix of the order that a store caches. *)
Class RangeKey (K : Type) `{TableKey K} := {
  order_prefix : K → N;
  cmp_past_prefix : K → K → comparison;
}.
(** Its contract: the prefix agrees with the order, and where two prefixes are
    equal what is left is the order. *)
Class RangeKeyLaws (K : Type) `{RangeKey K} : Prop := {
  prefix_agrees (x y : K) : order_prefix x < order_prefix y → key_lt x y;
  past_prefix_agrees (x y : K) : order_prefix x = order_prefix y → cmp_past_prefix x y = key_cmp x y;
}.
(** The defaults of the trait: no prefix, keys compared whole. *)
Definition whole_key (K : Type) `{TableKey K} : RangeKey K :=
  {| order_prefix := λ _, 0; cmp_past_prefix := key_cmp |}.
Lemma whole_key_laws K `{TableKey K} : @RangeKeyLaws K _ _ _ (whole_key K).
Proof. split; [simpl; lia|done]. Qed.

(** ** Rows, changes, configuration *)
Record Entry (K V : Type) := { en_key : K; en_value : V; en_heap_bytes : N }.
Arguments en_key {_ _} _.
Arguments en_value {_ _} _.
Arguments en_heap_bytes {_ _} _.
Module RowChange.
Inductive t (K V : Type) := Put (entry : Entry K V) | Delete (key : K).
Arguments Put {_ _} _.
Arguments Delete {_ _} _.
End RowChange.
Notation RowChange := RowChange.t.
Definition change_key {K V} (c : RowChange K V) : K :=
  match c with RowChange.Put entry => en_key entry | RowChange.Delete key => key end.
Record RangeConfig := {
  page_entries : nat; page_bytes : N; max_entry_bytes : N; max_batch_entries : nat;
  max_snapshot_leases : nat; max_snapshot_ttl : N; max_query_items : N; max_query_bytes : N;
  max_traversal_depth : N; max_traversal_nodes : N; max_traversal_edges : N; max_continuation_bytes : N
}.
Definition range_config_default : RangeConfig := {|
  page_entries := 128; page_bytes := u64_max; max_entry_bytes := u64_max; max_batch_entries := N.to_nat 4096;
  max_snapshot_leases := 256; max_snapshot_ttl := 30000; max_query_items := 1024; max_query_bytes := 1024 * 1024;
  max_traversal_depth := 64; max_traversal_nodes := 16384; max_traversal_edges := 65536;
  max_continuation_bytes := 4 * 1024 * 1024
|}.
Definition range_config_validate (c : RangeConfig) : Try MemoryError RangeConfig :=
  refuse_if (page_entries c = 0%nat ∨ page_bytes c = 0 ∨ max_entry_bytes c = 0 ∨ max_batch_entries c = 0%nat
             ∨ max_snapshot_leases c = 0%nat ∨ max_snapshot_ttl c = 0 ∨ max_query_items c = 0 ∨ max_query_bytes c = 0
             ∨ max_traversal_nodes c = 0 ∨ max_traversal_edges c = 0 ∨ max_continuation_bytes c = 0)
    (MemoryError.InvalidConfiguration "range limits must be nonzero");;
  mret c.

(** ** Charges *)
Definition charge_mul (left right : N) : Try MemoryError N :=
  or_fail (checked_mul left right) (MemoryError.CounterExhausted "byte charge").
Definition size_of_usize : N := 8.
Definition ALLOCATOR_OVERHEAD : N := 4 * size_of_usize.
(** The sizes of the compiler's layout: [Cell b] is a merge descriptor with its
    label, [u64] in a partitioned store and [()] otherwise. *)
Class PageSizes := {
  size_of_Entry : N; size_of_Page : N; size_of_Root : N; size_of_Node : N; size_of_Handle : N;
  size_of_Change : N; size_of_Cell : bool → N; size_of_Reservation : N
}.
(** A sum of counts of things in memory. *)
Definition count_add (left right : nat) : Try MemoryError nat :=
  if N.of_nat (left + right) <=? u64_max then Ok (left + right)%nat
  else Err (MemoryError.CounterExhausted "byte charge").
Definition invalid {A} (message : string) : Try MemoryError A := Err (MemoryError.InvalidConfiguration message).

Section Charges.
Context `{PageSizes}.
Definition page_charge (entries : nat) (heap_bytes : N) : Try MemoryError N :=
  overhead ← charge_mul 2 ALLOCATOR_OVERHEAD;
  words ← charge_mul 2 size_of_usize;
  page ← charge_add size_of_Page words;
  fixed ← charge_add overhead page;
  inline ← charge_mul (N.of_nat entries) size_of_Entry;
  rows ← charge_add inline heap_bytes;
  charge_add fixed rows.
Definition root_charge : Try MemoryError N :=
  words ← charge_mul 2 size_of_usize;
  root ← charge_add size_of_Root words;
  charge_add (4 * ALLOCATOR_OVERHEAD) root.
(** [merge_partition_charge], of either label. *)
Definition merge_partition_charge (partitioned : bool) (capacity : nat) : Try MemoryError N :=
  if decide (capacity = 0%nat) then mret 0 else
  overhead ← charge_mul 3 ALLOCATOR_OVERHEAD;
  words ← charge_mul 2 size_of_usize;
  cell ← charge_add (size_of_Cell partitioned) words;
  cells ← charge_mul (N.of_nat capacity) cell;
  charge_add overhead cells.
(** [layout::validate] and [layout::check_entry]. *)
Definition layout_validate (config : RangeConfig) : Try MemoryError () :=
  one ← page_charge 1 0;
  refuse_if (page_bytes config < one ∨ max_entry_bytes config < size_of_Entry)
    (MemoryError.InvalidConfiguration "range byte limits cannot hold one empty entry").
Definition check_entry (heap : N) (config : RangeConfig) : Try MemoryError N :=
  bytes ← charge_add size_of_Entry heap;
  refuse_if (max_entry_bytes config < bytes) (MemoryError.ItemTooLarge bytes (max_entry_bytes config));;
  mret bytes.
End Charges.

(** ** Pages *)
(** [Option::is_some_and]. *)
Definition is_some_and {A} (f : A → bool) (x : option A) : bool :=
  match x with Some x => f x | None => false end.
(** [slice::binary_search_by] on a slice in the order the comparison reads, with
    at most one equal element. *)
Definition binary_search_by {A} (cmp : A → comparison) (l : list A) : nat + nat :=
  let i := partition_point (λ x, bool_decide (cmp x = Lt)) l in
  match l !! i with
  | Some x => if decide (cmp x = Eq) then inl i else inr i
  | None => inr i
  end.
Record Page (K V : Type) := { pg_entries : list (Entry K V); pg_first : N }.
Arguments pg_entries {_ _} _.
Arguments pg_first {_ _} _.
Section Pages.
Context {K V : Type} `{RangeKey K}.
Implicit Types (e : Entry K V) (p : Page K V) (c : RowChange K V) (k : K).
Definition page_new (entries : list (Entry K V)) : Page K V :=
  {| pg_entries := entries;
     pg_first := match head entries with Some e => order_prefix (en_key e) | None => 0 end |}.
(** [u128::cmp], then past the prefix. *)
Definition probe_cmp k e : comparison :=
  match order_prefix (en_key e) ?= order_prefix k with
  | Eq => cmp_past_prefix (en_key e) k
  | c => c
  end.
Definition page_find p k : option (Entry K V) :=
  match binary_search_by (probe_cmp k) (pg_entries p) with
  | inl i => pg_entries p !! i
  | inr _ => None
  end.
End Pages.

(** ** Merging a page with its changes *)
Module Origin.
Inductive t := Old | Replacement | Inserted.
#[export] Instance origin_eq_dec : EqDecision t.
Proof. solve_decision. Defined.
End Origin.
Notation Origin := Origin.t.
Export (hints) Origin.
Module MergeEntry.
Inductive t (K V : Type) := Retained (entry : Entry K V) | Incoming (heap_bytes : N) (inserted : bool).
Arguments Retained {_ _} _.
Arguments Incoming {_ _} _ _.
End MergeEntry.
Notation MergeEntry := MergeEntry.t.
Section Merge.
Context {K V : Type} `{TableKey K}.
Definition merge_heap (m : MergeEntry K V) : N :=
  match m with MergeEntry.Retained entry => en_heap_bytes entry | MergeEntry.Incoming heap _ => heap end.
Definition merge_origin (m : MergeEntry K V) : Origin :=
  match m with
  | MergeEntry.Retained _ => Origin.Old
  | MergeEntry.Incoming _ true => Origin.Inserted
  | MergeEntry.Incoming _ false => Origin.Replacement
  end.
Definition retained (e : Entry K V) : K * MergeEntry K V := (en_key e, MergeEntry.Retained e).
(** [visit_merged]: the visits, in order; the entries a change replaces or
    deletes are the ones not visited. *)
Fixpoint visit_merged (old : list (Entry K V)) (selected : list (RowChange K V)) : list (K * MergeEntry K V) :=
  match selected with
  | [] => retained <$> old
  | change :: selected =>
      let n := partition_point (λ e, bool_decide (key_lt (en_key e) (change_key change))) old in
      let '(held, rest) :=
        match drop n old with
        | e :: rest => if decide (en_key e = change_key change) then (true, rest) else (false, e :: rest)
        | [] => (false, [])
        end in
      (retained <$> take n old)
      ++ match change with
         | RowChange.Put entry => [(en_key entry, MergeEntry.Incoming (en_heap_bytes entry) (negb held))]
         | RowChange.Delete _ => []
         end
      ++ visit_merged rest selected
  end.
End Merge.

(** ** The greedy rule *)
Record LeafSpan := { ls_start : nat; ls_len : nat; ls_heap : N }.
Record LeafPartition := { lp_base_bytes : N; lp_span : LeafSpan; lp_bytes : N }.
Section Greedy.
Context `{PageSizes} (config : RangeConfig).
Context {St : Type} (emit : LeafSpan → Fallible St MemoryError ()).
Definition Partitioning : Type → Type := Fallible (LeafPartition * St) MemoryError.
Definition on_partition (f : LeafPartition → LeafPartition) : Partitioning () := modify (λ '(p, s), (f p, s)).
Definition emit_span (span : LeafSpan) : Partitioning () := λ '(p, s),
  let '(r, s) := emit span s in (r, (p, s)).
Definition partition_new : Try MemoryError LeafPartition :=
  base_bytes ← page_charge 0 0;
  mret {| lp_base_bytes := base_bytes; lp_span := {| ls_start := 0; ls_len := 0; ls_heap := 0 |}; lp_bytes := base_bytes |}.
Definition partition_finish : Partitioning () :=
  '(p, _) ← gets id;
  if decide (ls_len (lp_span p) = 0%nat) then mret () else
  emit_span (lp_span p);;
  start ← lift (count_add (ls_start (lp_span p)) (ls_len (lp_span p)));
  on_partition (λ p, {| lp_base_bytes := lp_base_bytes p; lp_span := {| ls_start := start; ls_len := 0; ls_heap := 0 |};
                        lp_bytes := lp_base_bytes p |}).
Definition partition_push (heap : N) (boundary : bool) : Partitioning () :=
  bytes ← lift (charge_add size_of_Entry heap);
  lift (refuse_if (max_entry_bytes config < bytes) (MemoryError.ItemTooLarge bytes (max_entry_bytes config)));;
  '(p, _) ← gets id;
  (if decide (ls_len (lp_span p) ≠ 0%nat
              ∧ (boundary = true ∨ ls_len (lp_span p) = page_entries config ∨ page_bytes config - lp_bytes p < bytes))
   then partition_finish else mret ());;
  '(p, _) ← gets id;
  len ← lift (count_add (ls_len (lp_span p)) 1);
  heap ← lift (charge_add (ls_heap (lp_span p)) heap);
  total ← lift (charge_add (lp_bytes p) bytes);
  on_partition (λ p, {| lp_base_bytes := lp_base_bytes p;
                        lp_span := {| ls_start := ls_start (lp_span p); ls_len := len; ls_heap := heap |};
                        lp_bytes := total |});;
  if decide (page_bytes config < total) then partition_finish else mret ().
End Greedy.

(** ** The cut rule *)
(** What the rule reads of one entry of a merged page group. *)
Class Cell (T : Type) := { cell_heap : T → N; cell_origin : T → Origin; parts_from : T → T → bool }.
#[export] Instance merge_cell {K V} : Cell (MergeEntry K V * N) := {|
  cell_heap := λ c, merge_heap c.1; cell_origin := λ c, merge_origin c.1;
  parts_from := λ c next, negb (bool_decide (c.2 = next.2))
|}.
(** The pushes of a quote: every entry in order, with a boundary where the label
    changes; then the rest. *)
Fixpoint push_cells `{PageSizes} (config : RangeConfig) {T} `{Cell T} {St} (emit : LeafSpan → Fallible St MemoryError ())
    (previous : option T) (cells : list T) : Partitioning () :=
  match cells with
  | [] => mret ()
  | cell :: cells =>
      partition_push config emit (cell_heap cell) (is_some_and (λ p, parts_from p cell) previous);;
      push_cells config emit (Some cell) cells
  end.
Definition quote_cells `{PageSizes} (config : RangeConfig) {T} `{Cell T} {St} (emit : LeafSpan → Fallible St MemoryError ())
    (cells : list T) : Fallible St MemoryError () :=
  λ s, match partition_new with
       | Ok partition => let '(r, (_, s)) := (push_cells config emit None cells;; partition_finish emit) (partition, s) in (r, s)
       | Err e => (Err e, s)
       end.
Module Pack.
Inductive t := Left | Right | Even.
End Pack.
Notation Pack := Pack.t.
(** [pack]: where the cuts fall, from where the inserted rows lie among the old
    ones. *)
Definition positions {T} `{Cell T} (o : Origin) (run : list T) : list nat :=
  fst <$> filter (λ '(_, c), cell_origin c = o) (imap pair run).
Definition pack {T} `{Cell T} (run : list T) : Pack :=
  let old := positions Origin.Old run in
  let inserted := positions Origin.Inserted run in
  match head old, last old, head inserted, last inserted with
  | None, _, _, _ => Pack.Left
  | Some first_old, Some last_old, Some first_insert, last_insert =>
      if decide (last_old < first_insert)%nat then Pack.Left
      else match last_insert with
           | Some last_insert => if decide (last_insert < first_old)%nat then Pack.Right else Pack.Even
           | None => Pack.Even
           end
  | Some first_old, _, _, Some last_insert =>
      if decide (last_insert < first_old)%nat then Pack.Right else Pack.Even
  | _, _, _, _ => Pack.Even
  end.

Section Cutter.
Context `{PageSizes} (config : RangeConfig) {T : Type} `{Cell T}.
Implicit Types (cells : list T).
(** [Cutter::bytes], [Cutter::oversized]. *)
Definition cell_bytes (heap : N) : Try MemoryError N :=
  bytes ← charge_add size_of_Entry heap;
  refuse_if (max_entry_bytes config < bytes) (MemoryError.ItemTooLarge bytes (max_entry_bytes config));;
  mret bytes.
Definition oversized (base_bytes bytes : N) : bool := page_bytes config - base_bytes <? bytes.
(** [Cutter::reach]: [n] cells are left before [end]. *)
Definition leaf_full (count : nat) (bytes size : N) : bool :=
  negb (bool_decide (count = 0%nat)) && (bool_decide (page_entries config <= count)%nat || (page_bytes config - bytes <? size)).
Fixpoint reach_from cells (n count : nat) (bytes : N) (at_ : nat) : Try MemoryError nat :=
  match n with
  | O => mret at_
  | S n =>
      cell ← or_fail (cells !! at_) MemoryError.MissingKey;
      size ← cell_bytes (cell_heap cell);
      if leaf_full count bytes size then mret at_ else
      count ← count_add count 1;
      bytes ← charge_add bytes size;
      next ← count_add at_ 1;
      reach_from cells n count bytes next
  end.
Definition reach (base_bytes : N) cells (start stop : nat) : Try MemoryError nat :=
  reach_from cells (stop - start) 0 base_bytes start.
Fixpoint reach_back_from cells (n count : nat) (bytes : N) (at_ : nat) : Try MemoryError nat :=
  match n with
  | O => mret at_
  | S n =>
      index ← or_fail (match at_ with O => None | S i => Some i end) MemoryError.MissingKey;
      cell ← or_fail (cells !! index) MemoryError.MissingKey;
      size ← cell_bytes (cell_heap cell);
      if leaf_full count bytes size then mret at_ else
      count ← count_add count 1;
      bytes ← charge_add bytes size;
      reach_back_from cells n count bytes index
  end.
Definition reach_back (base_bytes : N) cells (start stop : nat) : Try MemoryError nat :=
  reach_back_from cells (stop - start) 0 base_bytes stop.
(** The least number of leaves: how many the greedy rule takes of [at_..stop]. *)
Fixpoint greedy_leaves (base_bytes : N) cells (fuel at_ stop leaves : nat) : Try MemoryError nat :=
  match fuel with
  | O => mret leaves
  | S fuel =>
      if decide (at_ < stop)%nat then
        at_ ← reach base_bytes cells at_ stop;
        leaves ← count_add leaves 1;
        greedy_leaves base_bytes cells fuel at_ stop leaves
      else mret leaves
  end.
(** The right-hand cuts, nearest the end first. *)
Fixpoint back_cuts (base_bytes : N) cells (n start back : nat) : Try MemoryError (list nat) :=
  match n with
  | O => mret []
  | S n =>
      back ← reach_back base_bytes cells start back;
      rest ← back_cuts base_bytes cells n start back;
      mret (back :: rest)
  end.
Definition cell_span cells (from to : nat) : Try MemoryError LeafSpan :=
  heap ← try_fold (λ sum cell, charge_add sum (cell_heap cell)) 0 (take (to - from) (drop from cells));
  mret {| ls_start := from; ls_len := (to - from)%nat; ls_heap := heap |}.
(** The even target's cursor, moved to the cut whose bytes before it are nearest
    the goal. *)
Fixpoint advance_cursor cells (n : nat) (goal : N) (cursor : nat) (before : N) : Try MemoryError (nat * N) :=
  match n with
  | O => mret (cursor, before)
  | S n =>
      match cells !! cursor with
      | None => mret (cursor, before)
      | Some cell =>
          size ← cell_bytes (cell_heap cell);
          after ← charge_add before size;
          if decide (goal < after) then
            if decide (size < N.min u64_max (2 * (goal - before))) then
              next ← count_add cursor 1; mret (next, after)
            else mret (cursor, before)
          else
            next ← count_add cursor 1;
            advance_cursor cells n goal next after
      end
  end.
Definition u128_max : N := 2 ^ 128 - 1.
(** The bytes before the [part]th of [leaves] equal parts. *)
Definition even_goal (total : N) (part leaves : nat) : Try MemoryError N :=
  let product := total * N.of_nat part in
  let goal := product / N.of_nat leaves in
  if decide (product <= u128_max ∧ leaves ≠ 0%nat ∧ goal <= u64_max) then Ok goal
  else Err (MemoryError.CounterExhausted "leaf cut target").

Section Emitting.
Context {St : Type} (emit : LeafSpan → Fallible St MemoryError ()).
(** [usize::clamp]. *)
Definition clamp (x least most : nat) : nat := if decide (x < least)%nat then least else if decide (most < x)%nat then most else x.
(** The loop over the right-hand cuts, in order. *)
Fixpoint emit_cuts (base_bytes : N) cells (stop : nat) (how : Pack) (total : N) (leaves : nat)
    (cuts : list nat) (index previous cursor : nat) (before : N) : Fallible St MemoryError () :=
  match cuts with
  | [] => span ← lift (cell_span cells previous stop); emit span
  | least :: cuts =>
      most ← lift (reach base_bytes cells previous stop);
      '(target, cursor, before) ← lift match how with
        | Pack.Left => mret (most, cursor, before)
        | Pack.Right => mret (least, cursor, before)
        | Pack.Even =>
            part ← count_add index 1;
            goal ← even_goal total part leaves;
            '(cursor, before) ← advance_cursor cells (stop - cursor) goal cursor before;
            mret (cursor, cursor, before)
        end;
      lift (refuse_if (least <= previous ∨ most < least)%nat
        (MemoryError.InvalidConfiguration "leaf cut bounds crossed"));;
      let cut := clamp target least most in
      span ← lift (cell_span cells previous cut);
      emit span;;
      emit_cuts base_bytes cells stop how total leaves cuts (S index) cut cursor before
  end.
Definition cut_run (base_bytes : N) cells (start stop : nat) : Fallible St MemoryError () :=
  let run := take (stop - start) (drop start cells) in
  leaves ← lift (greedy_leaves base_bytes cells (stop - start) start stop 0);
  if decide (leaves <= 1)%nat then
    if decide (start < stop)%nat then span ← lift (cell_span cells start stop); emit span else mret ()
  else
    cuts ← lift (back_cuts base_bytes cells (leaves - 1) start stop);
    total ← lift (try_fold (λ sum cell, size ← cell_bytes (cell_heap cell); charge_add sum size) 0 run);
    emit_cuts base_bytes cells stop (pack run) total leaves (rev cuts) 0 start start 0.
(** The end of the run that begins before [stop]: [n] cells are left. *)
Fixpoint run_end (base_bytes : N) cells (n : nat) (previous : T) (stop : nat) : Try MemoryError nat :=
  match n with
  | O => mret stop
  | S n =>
      match cells !! stop with
      | None => mret stop
      | Some cell =>
          if parts_from previous cell then mret stop else
          bytes ← cell_bytes (cell_heap cell);
          if oversized base_bytes bytes then mret stop else
          next ← count_add stop 1;
          run_end base_bytes cells n cell next
      end
  end.
Fixpoint cut_from (base_bytes : N) cells (n at_ : nat) : Fallible St MemoryError () :=
  match n with
  | O => mret ()
  | S n =>
      match cells !! at_ with
      | None => mret ()
      | Some first =>
          next ← lift (count_add at_ 1);
          bytes ← lift (cell_bytes (cell_heap first));
          if oversized base_bytes bytes then
            emit {| ls_start := at_; ls_len := 1; ls_heap := cell_heap first |};;
            cut_from base_bytes cells n next
          else
            stop ← lift (run_end base_bytes cells (length cells - next) first next);
            cut_run base_bytes cells at_ stop;;
            cut_from base_bytes cells n stop
      end
  end.
Definition cut cells : Fallible St MemoryError () :=
  base_bytes ← lift (page_charge 0 0);
  cut_from base_bytes cells (length cells) 0.
End Emitting.
End Cutter.

(** ** Pages left as they are *)
(** [layout::reusable_page]: how many of the changes come before a page that
    none of them touches. *)
Section Reusable.
Context {K V : Type} `{RangeKey K, PageSizes}.
Definition reusable_page (p : Page K V) (changes : list (RowChange K V)) (config : RangeConfig)
    (partition : option (K → N)) : Try MemoryError (option nat) :=
  let ordinary :=
    match partition with
    | None => mret None
    | Some classify =>
        first ← or_fail (head (pg_entries p)) MemoryError.MissingKey;
        final ← or_fail (last (pg_entries p)) MemoryError.MissingKey;
        let split := partition_point (λ c, bool_decide (key_lt (change_key c) (en_key first))) changes in
        let label := classify (en_key first) in
        if is_some_and (λ c, bool_decide (key_le (change_key c) (en_key final))) (changes !! split) then mret None
        else if is_some_and (λ c, classify (change_key c) =? label) (match split with O => None | S i => changes !! i end)
                || is_some_and (λ c, classify (change_key c) =? label) (changes !! split)
        then mret None
        else mret (Some split)
    end in
  match pg_entries p with
  | [entry] =>
      one ← page_charge 1 (en_heap_bytes entry);
      if decide (page_bytes config < one) then
        mret (match binary_search_by (λ c, key_cmp (change_key c) (en_key entry)) changes with
              | inl _ => None | inr i => Some i end)
      else ordinary
  | _ => ordinary
  end.
End Reusable.
