(* ===== verification/PagesLaws.v ===== *)
(** * Cuts of merged pages

    What the cut rule of [Pages] promises: the leaves that reach as far as they
    can from either end, the pieces a cut emits, and their agreement with the
    greedy rule that quotes count with. *)
From stdpp Require Import prelude strings list sorting.
From Stdlib Require Import NArith.
From S2P Require Import Prelude Fallible Budget Pages.

(** [for x in l { f(x)?; }] over a shared store. *)
Fixpoint each {St E A} (f : A → Fallible St E ()) (l : list A) : Fallible St E () :=
  match l with [] => mret () | x :: l => f x;; each f l end.
Lemma each_app {St E A} (f : A → Fallible St E ()) (l k : list A) s :
  each f (l ++ k) s = (each f l;; each f k) s.
Proof.
  revert s. induction l as [|x l IH]; intros s; simpl; [done|]. unfold mbind, fallible_bind.
  destruct (f x s) as [[[]|e] s1]; [|done]. rewrite IH. done.
Qed.

(** ** Longest leaves *)
(** The greedy rules from the left and from the right, over any notion of which
    ranges [i..j] fit a leaf. *)
Section Reaching.
#[local] Set Default Proof Using "All".
Context (F : nat → nat → Prop) (start stop : nat).
Context (Fmono : ∀ i j i' j', F i j → i <= i' → j' <= j → F i' j').
(** [R x] is the end of the longest leaf from [x], [B x] the start of the longest
    one that ends at [x]. *)
Record longest (R : nat → nat) : Prop := {
  lo_range x : start <= x <= stop → x <= R x <= stop;
  lo_moves x : start <= x < stop → x < R x;
  lo_fits x : start <= x <= stop → F x (R x);
  lo_most x y : start <= x → R x < y <= stop → ¬ F x y;
}.
Record longest_back (B : nat → nat) : Prop := {
  lb_range x : start <= x <= stop → start <= B x <= x;
  lb_fits x : start <= x <= stop → F (B x) x;
  lb_most x y : x <= stop → start <= y < B x → ¬ F y x;
}.
Context (R B : nat → nat) (HR : longest R) (HB : longest_back B) (Hle : start <= stop).
Notation g j := (Nat.iter j R start).
Notation b k := (Nat.iter k B stop).

Lemma reach_mono x y : start <= x <= y → y <= stop → R x <= R y.
Proof.
  intros Hx Hy. destruct (decide (R x <= R y)) as [|Hn]; [done|]. exfalso.
  pose proof (lo_range _ HR x ltac:(lia)). eapply (lo_most _ HR y (R x)); [lia|lia|].
  eapply Fmono; [eapply (lo_fits _ HR x); lia|lia|lia].
Qed.
Lemma forward_range j : start <= g j <= stop.
Proof. induction j as [|j IH]; [simpl; lia|]. simpl. pose proof (lo_range _ HR _ IH). lia. Qed.
Lemma back_range k : start <= b k <= stop.
Proof. induction k as [|k IH]; [simpl; lia|]. simpl. pose proof (lb_range _ HB _ IH). lia. Qed.
(** A range that fits is within reach from its start and from its end. *)
Lemma reach_covers x y : start <= x <= y → y <= stop → F x y → y <= R x.
Proof.
  intros Hx Hy HF. destruct (decide (y <= R x)) as [|Hn]; [done|]. by destruct (lo_most _ HR x y ltac:(lia) ltac:(lia)).
Qed.
Lemma back_covers x y : start <= y <= x → x <= stop → F y x → B x <= y.
Proof.
  intros Hx Hy HF. destruct (decide (B x <= y)) as [|Hn]; [done|]. by destruct (lb_most _ HB x y ltac:(lia) ltac:(lia)).
Qed.
(** After [k] cuts from the right, the greedy cuts from the left are not behind. *)
Lemma back_within L k : g L = stop → k <= L → b k <= g (L - k).
Proof.
  intros HL. induction k as [|k IH]; intros Hk.
  { simpl. replace (L - 0) with L by lia. lia. }
  specialize (IH ltac:(lia)). pose proof (back_range k) as Hb. pose proof (forward_range (L - S k)) as Hg. simpl.
  destruct (decide (b k <= g (L - S k))) as [Hlt|Hlt].
  { pose proof (lb_range _ HB (b k) Hb). lia. }
  apply back_covers; [lia|lia|]. eapply Fmono; [apply (lo_fits _ HR (g (L - S k)) Hg)|lia|].
  change (R (g (L - S k))) with (g (S (L - S k))). by replace (S (L - S k)) with (L - k) by lia.
Qed.
(** From anywhere at or past the [k]th cut from the right, [k] leaves reach the end. *)
Lemma forward_from k x : b k <= x <= stop → Nat.iter k R x = stop.
Proof.
  revert x. induction k as [|k IH]; intros x Hx; [simpl in *; lia|]. rewrite Nat.iter_succ_r. apply IH.
  pose proof (back_range (S k)) as Hb. pose proof (back_range k) as Hb'. pose proof (lo_range _ HR x ltac:(lia)).
  split; [|lia]. destruct (decide (b k <= x)); [lia|]. apply reach_covers; [lia|lia|].
  eapply (λ i j i' j' f, Fmono i j i' j' f); [apply (lb_fits _ HB (b k) Hb')|apply Hx|lia].
Qed.
(** The [j]th cut from the right lies past every cut the left rule can have made. *)
Lemma back_past L j : g L = stop → (∀ i, i < L → g i < stop) → S j <= L → g j < b (L - S j).
Proof.
  intros HL Hlt Hj. destruct (decide (g j < b (L - S j))) as [|Hn]; [done|]. exfalso.
  pose proof (forward_range j) as Hg. pose proof (forward_from (L - S j) (g j) ltac:(lia)) as He.
  rewrite <-Nat.iter_add in He. replace (L - S j + j) with (L - 1) in He by lia.
  specialize (Hlt (L - 1) ltac:(lia)). lia.
Qed.
(** What the loop over the cuts keeps: the [j]th cut may be anywhere between the
    least and the most, and then the next bounds do not cross. *)
Lemma next_bounds L j p : g L = stop → (∀ i, i < L → g i < stop) → S j < L → b (L - j) <= p <= g j →
  (j = 0 → p = start) → p < b (L - S j) ∧ b (L - S j) <= R p ∧ R p <= g (S j).
Proof.
  intros HL Hlt Hj Hp H0. pose proof (back_past L j HL Hlt ltac:(lia)). pose proof (forward_range j) as Hg.
  pose proof (back_range (L - S j)) as Hb. pose proof (back_range (L - j)) as Hb'. split_and!; [lia| |].
  - destruct (decide (j = 0)) as [->|Hne].
    + rewrite (H0 eq_refl). replace (L - 1) with (L - 1) by lia. pose proof (back_within L (L - 1) HL ltac:(lia)) as Hw.
      replace (L - (L - 1)) with 1 in Hw by lia. simpl in Hw. done.
    + apply reach_covers; [lia|lia|]. eapply Fmono; [apply (lb_fits _ HB (b (L - S j)) Hb)| |lia].
      change (B (b (L - S j))) with (b (S (L - S j))). replace (S (L - S j)) with (L - j) by lia. lia.
  - simpl. apply reach_mono; lia.
Qed.
(** The last leaf fits and is not empty. *)
Lemma last_fits L p : g L = stop → (∀ i, i < L → g i < stop) → 1 < L → b 1 <= p <= g (L - 1) →
  p < stop ∧ F p stop.
Proof.
  intros HL Hlt H1 Hp. specialize (Hlt (L - 1) ltac:(lia)). split; [lia|].
  eapply Fmono; [apply (lb_fits _ HB stop); lia|simpl in Hp; lia|done].
Qed.
End Reaching.

(** ** Segments *)
Definition slice {A} (i j : nat) (l : list A) : list A := take (j - i) (drop i l).
Section Slices.
Context {A : Type}.
Implicit Types (l : list A) (x : A).
Lemma slice_nil i l : slice i i l = [].
Proof. unfold slice. by rewrite Nat.sub_diag, take_0. Qed.
Lemma slice_length i j l : i <= j <= length l → length (slice i j l) = j - i.
Proof. intros. unfold slice. rewrite length_take, length_drop. lia. Qed.
Lemma slice_snoc i j l x : i <= j → l !! j = Some x → slice i (S j) l = slice i j l ++ [x].
Proof.
  intros Hij Hx. unfold slice. rewrite Nat.sub_succ_l by done. apply take_S_r. rewrite lookup_drop.
  by replace (i + (j - i)) with j by lia.
Qed.
Lemma slice_cons i j l x : i < j → l !! i = Some x → slice i j l = x :: slice (S i) j l.
Proof.
  intros Hij Hx. unfold slice. rewrite (drop_S _ _ _ Hx). replace (j - i) with (S (j - S i)) by lia. done.
Qed.
Lemma slice_app i j k l : i <= j <= k → slice i k l = slice i j l ++ slice j k l.
Proof.
  intros. unfold slice. replace (drop j l) with (drop (j - i) (drop i l)) by (rewrite drop_drop; f_equal; lia).
  rewrite <-(take_drop (j - i) (take (k - i) (drop i l))), take_take, skipn_firstn_comm. f_equal; f_equal; lia.
Qed.
Lemma slice_all l : slice 0 (length l) l = l.
Proof. unfold slice. rewrite drop_0, Nat.sub_0_r. by apply take_ge. Qed.
Lemma slice_elem i j l x : x ∈ slice i j l → ∃ k, i <= k < j ∧ l !! k = Some x.
Proof.
  unfold slice. intros [n [Hn Hlt]%lookup_take_Some]%list_elem_of_lookup. rewrite lookup_drop in Hn.
  exists (i + n). split; [lia|done].
Qed.
Lemma slice_lookup i j l k : i + k < j → slice i j l !! k = l !! (i + k).
Proof. intros. unfold slice. rewrite lookup_take_lt by lia. by rewrite lookup_drop. Qed.
End Slices.

#[local] Open Scope N_scope.
Section Cutting.
Context `{PageSizes} (config : RangeConfig) {T : Type} `{Cell T}.
Implicit Types (c : T) (l cells : list T).
Definition cell_size c : N := size_of_Entry + cell_heap c.
Fixpoint weight l : N := match l with [] => 0 | c :: l => cell_size c + weight l end.
Fixpoint heaps l : N := match l with [] => 0 | c :: l => cell_heap c + heaps l end.
Lemma weight_app l k : weight (l ++ k) = weight l + weight k.
Proof. induction l as [|c l IH]; simpl; [done|]. rewrite IH. lia. Qed.
Lemma heaps_app l k : heaps (l ++ k) = heaps l + heaps k.
Proof. induction l as [|c l IH]; simpl; [done|]. rewrite IH. lia. Qed.
Lemma weight_heaps l : weight l = N.of_nat (length l) * size_of_Entry + heaps l.
Proof. induction l as [|c l IH]; simpl; [lia|]. rewrite IH. unfold cell_size. lia. Qed.
(** A leaf holds these entries. *)
Definition leaf_fits (base : N) l : Prop := (length l <= page_entries config)%nat ∧ base + weight l <= page_bytes config.
Lemma fits_infix base k l k' : leaf_fits base (k ++ l ++ k') → leaf_fits base l.
Proof. unfold leaf_fits. rewrite !weight_app, !length_app. lia. Qed.
(** An entry the limits admit, and one that can share a leaf. *)
Definition cell_admitted c : Prop := cell_size c <= max_entry_bytes config ∧ cell_size c <= u64_max.
Definition cell_small (base : N) c : Prop := base + cell_size c <= page_bytes config.

(** The limits a cut runs under, and a group of entries in memory. *)
Record cut_limits (base : N) : Prop := {
  ct_base : page_charge 0 0 = Ok base;
  ct_room : base <= page_bytes config;
  ct_width : page_bytes config <= u64_max;
  ct_entries : page_entries config ≠ 0%nat;
}.
Record cut_input cells : Prop := {
  ci_admitted c : c ∈ cells → cell_admitted c;
  ci_length : N.of_nat (length cells) <= u64_max;
  ci_weight : weight cells <= u64_max;
}.
Lemma cell_bytes_ok c : cell_admitted c → cell_bytes config (cell_heap c) = Ok (cell_size c).
Proof.
  intros [Hm Hu]. unfold cell_bytes, charge_add, cell_size in *. rewrite (proj2 (checked_add_Some _ _ _)) by done.
  simpl. unfold refuse_if. rewrite decide_False by lia. done.
Qed.
Lemma count_add_ok a b : N.of_nat (a + b) <= u64_max → count_add a b = Ok (a + b)%nat.
Proof. intros. unfold count_add. by rewrite (proj2 (N.leb_le _ _)). Qed.
Lemma charge_add_fits a b : a + b <= u64_max → charge_add a b = Ok (a + b).
Proof. intros. unfold charge_add. by rewrite (proj2 (checked_add_Some _ _ (a + b))). Qed.
Lemma oversized_iff base c : base <= page_bytes config → oversized config base (cell_size c) = false ↔ cell_small base c.
Proof. intros. unfold oversized, cell_small. rewrite N.ltb_ge. lia. Qed.

(** One run: entries that are small, from [start] to [stop]. *)
Section Run.
#[local] Set Default Proof Using "All".
Context (base : N) (cells : list T) (start stop : nat).
Context (Hlim : cut_limits base) (Hin : cut_input cells) (Hstop : (stop <= length cells)%nat).
Context (Hsmall : ∀ i c, (start <= i < stop)%nat → cells !! i = Some c → cell_small base c).
Notation fits i j := (leaf_fits base (slice i j cells)).

Lemma run_cell i : (start <= i < stop)%nat → ∃ c, cells !! i = Some c ∧ cell_admitted c ∧ cell_small base c.
Proof.
  intros Hi. destruct (lookup_lt_is_Some_2 cells i ltac:(lia)) as [c Hc]. exists c. split_and!; [done| |by eapply Hsmall].
  apply Hin. by eapply list_elem_of_lookup_2.
Qed.
Lemma run_mono i j i' j' : fits i j → (i <= i')%nat → (j' <= j)%nat → fits i' j'.
Proof.
  intros Hf Hi Hj. destruct (decide (i' <= j')%nat) as [Hij|Hij].
  - rewrite (slice_app i i' j), (slice_app i' j' j) in Hf by lia. by eapply fits_infix.
  - replace (slice i' j' cells) with (@nil T) by (unfold slice; by replace (j' - i')%nat with 0%nat by lia).
    destruct Hlim. split; simpl; lia.
Qed.
Lemma full_iff i j c : (i <= j)%nat → cells !! j = Some c → fits i j → cell_small base c →
  leaf_full config (j - i) (base + weight (slice i j cells)) (cell_size c) = false ↔ fits i (S j).
Proof.
  intros Hij Hc [Hn Hw] Hs. unfold leaf_full, leaf_fits. rewrite (slice_snoc _ _ _ _ Hij Hc), weight_app, length_app.
  assert (j < length cells)%nat by (by eapply lookup_lt_Some). rewrite slice_length in Hn |- * by lia. simpl.
  rewrite andb_false_iff, negb_false_iff, orb_false_iff, bool_decide_eq_true, bool_decide_eq_false, N.ltb_ge.
  destruct Hlim. unfold cell_small in Hs. split.
  - intros [E|[? ?]]; [|lia]. assert (j = i)%nat as -> by lia. rewrite slice_nil. simpl. lia.
  - intros [? ?]. right. lia.
Qed.
(** [reach] finds the longest leaf from [x]. *)
Lemma reach_from_longest n x at_ : (start <= x <= at_)%nat → (at_ + n <= stop)%nat → fits x at_ →
  ∃ r, reach_from config cells n (at_ - x) (base + weight (slice x at_ cells)) at_ = Ok r ∧
  (at_ <= r <= at_ + n)%nat ∧ (n ≠ 0 → at_ = x → x < r)%nat ∧ fits x r ∧ (r < at_ + n → ¬ fits x (S r))%nat.
Proof.
  revert at_. induction n as [|n IH]; intros at_ Hx Hn Hf; simpl.
  { exists at_. split_and!; [done|lia|lia|lia|done|lia]. }
  destruct (run_cell at_ ltac:(lia)) as (c & Hc & Ha & Hs). rewrite Hc. simpl. rewrite (cell_bytes_ok _ Ha). simpl.
  pose proof (full_iff x at_ c ltac:(lia) Hc Hf Hs) as Hfull. destruct (leaf_full _ _ _ _) eqn:E.
  - exists at_. split_and!; [done|lia|lia| |done|].
    + intros _ ->. exfalso. rewrite Nat.sub_diag in E. done.
    + intros _ Hf'. apply Hfull in Hf'. done.
  - destruct Hin. pose proof (proj1 Hfull eq_refl) as Hf'. rewrite count_add_ok by lia. simpl.
    assert (Hw : base + weight (slice x (S at_) cells) <= u64_max).
    { destruct Hf' as [_ Hw]. destruct Hlim. lia. }
    rewrite (slice_snoc x at_ cells c), weight_app in Hw by (done || lia). simpl in Hw.
    rewrite charge_add_fits by lia. simpl. rewrite count_add_ok by lia. simpl.
    destruct (IH (S at_)) as (r & Hr & Hrange & _ & Hfr & Hmost); [lia|lia|done|]. exists r.
    rewrite (slice_snoc x at_ cells c), weight_app in Hr by (done || lia). simpl in Hr.
    replace (at_ - x + 1)%nat with (S at_ - x)%nat by lia. replace (at_ + 1)%nat with (S at_) by lia.
    rewrite <-N.add_assoc. rewrite N.add_0_r in Hr. rewrite Hr. split_and!; [done|lia|lia|lia|done|]. intros. apply Hmost. lia.
Qed.
Lemma reach_back_from_longest n x at_ : (at_ <= x <= stop)%nat → (start <= at_ - n)%nat → (n <= at_)%nat → fits at_ x →
  ∃ r, reach_back_from config cells n (x - at_) (base + weight (slice at_ x cells)) at_ = Ok r ∧
  (at_ - n <= r <= at_)%nat ∧ fits r x ∧ (at_ - n < r → ¬ fits (r - 1) x)%nat.
Proof.
  revert at_. induction n as [|n IH]; intros at_ Hx Hn Hna Hf; simpl.
  { exists at_. split_and!; [done|lia|lia|done|lia]. }
  destruct at_ as [|i]; [lia|]. simpl. destruct (run_cell i ltac:(lia)) as (c & Hc & Ha & Hs). rewrite Hc. simpl.
  rewrite (cell_bytes_ok _ Ha). simpl. pose proof (slice_cons i x cells c ltac:(lia) Hc) as Hcons.
  assert (Hfull : leaf_full config (x - S i) (base + weight (slice (S i) x cells)) (cell_size c) = false ↔ fits i x).
  { unfold leaf_full, leaf_fits. destruct Hf as [Hl Hw]. rewrite Hcons. simpl. rewrite slice_length in Hl |- * by lia.
    rewrite andb_false_iff, negb_false_iff, orb_false_iff, bool_decide_eq_true, bool_decide_eq_false, N.ltb_ge.
    destruct Hlim. unfold cell_small in Hs. split; [|lia]. intros [E|[? ?]]; [|lia].
    assert (x = S i)%nat as -> by lia. rewrite slice_nil. simpl. lia. }
  destruct (leaf_full _ _ _ _) eqn:E.
  - exists (S i). split_and!; [done|lia|lia|done|]. intros _ Hf'. replace (S i - 1)%nat with i in Hf' by lia.
    apply Hfull in Hf'. done.
  - destruct Hin. pose proof (proj1 Hfull eq_refl) as Hf'. rewrite count_add_ok by lia. simpl.
    assert (Hw : base + weight (slice i x cells) <= u64_max).
    { destruct Hf' as [_ Hw]. destruct Hlim. lia. }
    rewrite Hcons in Hw. simpl in Hw. rewrite charge_add_fits by lia. simpl.
    destruct (IH i) as (r & Hr & Hrange & Hfr & Hmost); [lia|lia|lia|done|]. exists r. rewrite Hcons in Hr. simpl in Hr.
    replace (x - S i + 1)%nat with (x - i)%nat by lia.
    replace (base + weight (slice (S i) x cells) + cell_size c) with (base + (cell_size c + weight (slice (S i) x cells))) by lia.
    rewrite Hr. split_and!; [done|lia|lia|done|]. intros. apply Hmost. lia.
Qed.
Lemma fits_empty i : fits i i.
Proof. rewrite slice_nil. destruct Hlim. split; simpl; lia. Qed.
Definition reach_of (x : nat) : nat := match reach config base cells x stop with Ok r => r | Err _ => x end.
Definition back_of (x : nat) : nat := match reach_back config base cells start x with Ok r => r | Err _ => x end.
Lemma reach_ok x : (start <= x <= stop)%nat → reach config base cells x stop = Ok (reach_of x) ∧
  (x <= reach_of x <= stop ∧ (x < stop → x < reach_of x) ∧ fits x (reach_of x) ∧
   (reach_of x < stop → ¬ fits x (S (reach_of x))))%nat.
Proof.
  intros Hx. destruct (reach_from_longest (stop - x) x x ltac:(lia) ltac:(lia) (fits_empty x)) as (r & Hr & H1 & H2 & H3 & H4).
  unfold reach_of, reach. rewrite slice_nil, Nat.sub_diag in Hr. simpl in Hr. rewrite N.add_0_r in Hr. rewrite Hr.
  split_and!; [done|lia|lia| |done|].
  - intros. apply H2; [lia|done].
  - intros. apply H4. lia.
Qed.
Lemma reach_back_ok x : (start <= x <= stop)%nat → reach_back config base cells start x = Ok (back_of x) ∧
  (start <= back_of x <= x ∧ fits (back_of x) x ∧ (start < back_of x → ¬ fits (back_of x - 1) x))%nat.
Proof.
  intros Hx. destruct (reach_back_from_longest (x - start) x x ltac:(lia) ltac:(lia) ltac:(lia) (fits_empty x)) as (r & Hr & H1 & H2 & H3).
  unfold back_of, reach_back. rewrite slice_nil, Nat.sub_diag in Hr. simpl in Hr. rewrite N.add_0_r in Hr. rewrite Hr.
  split_and!; [done|lia|lia|done|]. intros. apply H3. lia.
Qed.
Lemma run_longest : longest (λ i j, fits i j) start stop reach_of.
Proof.
  split.
  - intros x Hx. apply (reach_ok x Hx).
  - intros x Hx. apply (reach_ok x ltac:(lia)). lia.
  - intros x Hx. apply (reach_ok x Hx).
  - intros x y Hx Hy Hf. destruct (decide (x <= stop)%nat) as [Hxs|Hxs].
    + destruct (reach_ok x ltac:(lia)) as (_ & _ & _ & _ & Hm). apply Hm; [lia|]. eapply run_mono; [done|lia|lia].
    + assert (Hr : reach_of x = x) by (unfold reach_of, reach; by replace (stop - x)%nat with 0%nat by lia). lia.
Qed.
Lemma run_longest_back : longest_back (λ i j, fits i j) start stop back_of.
Proof.
  split.
  - intros x Hx. apply (reach_back_ok x Hx).
  - intros x Hx. apply (reach_back_ok x Hx).
  - intros x y Hx Hy Hf. destruct (decide (start <= x)%nat) as [Hxs|Hxs].
    + destruct (reach_back_ok x ltac:(lia)) as (_ & _ & _ & Hm). apply Hm; [lia|]. eapply run_mono; [done|lia|lia].
    + assert (Hr : back_of x = x) by (unfold back_of, reach_back; by replace (x - start)%nat with 0%nat by lia). lia.
Qed.

Lemma greedy_leaves_ok fuel at_ leaves : (start <= at_ <= stop)%nat → (stop - at_ <= fuel)%nat →
  N.of_nat (leaves + (stop - at_)) <= u64_max →
  ∃ n, greedy_leaves config base cells fuel at_ stop leaves = Ok (leaves + n)%nat ∧ Nat.iter n reach_of at_ = stop ∧
  (∀ i, i < n → Nat.iter i reach_of at_ < stop)%nat ∧ (n <= stop - at_)%nat.
Proof.
  revert at_ leaves. induction fuel as [|fuel IH]; intros at_ leaves Hat Hfuel Hu; simpl.
  { exists 0%nat. split_and!; [f_equal; lia|simpl; lia|lia|lia]. }
  case_decide as Hlt; [|exists 0%nat; split_and!; [unfold mret, try_ret; f_equal; lia|simpl; lia|lia|lia]].
  destruct (reach_ok at_ ltac:(lia)) as (Hr & Hrange & Hmove & _). specialize (Hmove Hlt). rewrite Hr. simpl.
  rewrite count_add_ok by lia. simpl. destruct (IH (reach_of at_) (leaves + 1)%nat) as (n & Hn & Hend & Hbef & Hle); [lia|lia|lia|].
  exists (S n). rewrite Hn. split_and!; [f_equal; lia|by rewrite Nat.iter_succ_r| |lia].
  intros [|i] Hi; [done|]. rewrite Nat.iter_succ_r. apply Hbef. lia.
Qed.
(** The right-hand cuts, in the order the loop takes them. *)
Fixpoint cuts_down (x : nat) (n : nat) : list nat :=
  match n with O => [] | S n => Nat.iter (S n) back_of x :: cuts_down x n end.
Lemma cuts_down_snoc x n : cuts_down x (S n) = cuts_down (back_of x) n ++ [back_of x].
Proof.
  induction n as [|n IH]; [done|]. change (cuts_down x (S (S n))) with (Nat.iter (S (S n)) back_of x :: cuts_down x (S n)).
  rewrite IH. by rewrite Nat.iter_succ_r.
Qed.
Lemma back_cuts_ok n x : (start <= x <= stop)%nat → ∃ cuts, back_cuts config base cells n start x = Ok cuts ∧
  rev cuts = cuts_down x n.
Proof.
  revert x. induction n as [|n IH]; intros x Hx; simpl; [by eexists|].
  destruct (reach_back_ok x Hx) as (Hr & Hrange & _). rewrite Hr. simpl.
  destruct (IH (back_of x) ltac:(lia)) as (cuts & Hc & Hrev). rewrite Hc. simpl. eexists. split; [done|].
  simpl. by rewrite Hrev, <-cuts_down_snoc.
Qed.
Lemma cell_span_ok i j : (i <= j <= length cells)%nat →
  cell_span cells i j = Ok {| ls_start := i; ls_len := (j - i)%nat; ls_heap := heaps (slice i j cells) |}.
Proof.
  intros Hij. unfold cell_span. fold (slice i j cells).
  assert (Hw : weight (slice i j cells) <= u64_max).
  { destruct Hin as [_ _ Hw]. rewrite <-(slice_all cells), (slice_app 0 i), (slice_app i j), !weight_app in Hw by lia. lia. }
  assert (Hfold : ∀ l sum, sum + weight l <= u64_max →
    try_fold (λ sum cell, charge_add sum (cell_heap cell)) sum l = Ok (sum + heaps l)).
  { induction l as [|c l IH]; intros sum Hl; simpl in *; [unfold mret, try_ret; f_equal; lia|].
    unfold cell_size in Hl. rewrite charge_add_fits by lia. simpl. rewrite IH by lia. f_equal. lia. }
  rewrite Hfold by (simpl; lia). done.
Qed.
Lemma total_ok l sum : (∀ c, c ∈ l → cell_admitted c) → sum + weight l <= u64_max →
  try_fold (λ sum cell, size ← cell_bytes config (cell_heap cell); charge_add sum size) sum l = Ok (sum + weight l).
Proof.
  revert sum. induction l as [|c l IH]; intros sum Ha Hl; simpl in *; [unfold mret, try_ret; f_equal; lia|].
  rewrite cell_bytes_ok by (apply Ha; by left). simpl. rewrite charge_add_fits by lia. simpl.
  rewrite IH; [f_equal; lia| |lia]. intros. apply Ha. by right.
Qed.
(** The even cursor stays in the run and knows the bytes before it. *)
Lemma advance_cursor_ok n goal cursor : (start <= cursor)%nat → (cursor + n <= stop)%nat →
  ∃ cursor', advance_cursor config cells n goal cursor (weight (slice start cursor cells))
    = Ok (cursor', weight (slice start cursor' cells)) ∧ (cursor <= cursor' <= cursor + n)%nat.
Proof.
  revert cursor. induction n as [|n IH]; intros cursor Hc Hn; simpl; [exists cursor; split; [done|lia]|].
  destruct (run_cell cursor ltac:(lia)) as (c & Hl & Ha & _). rewrite Hl, (cell_bytes_ok _ Ha). simpl.
  pose proof (slice_snoc start cursor cells c ltac:(lia) Hl) as Hs.
  assert (Hw : weight (slice start cursor cells) + cell_size c = weight (slice start (S cursor) cells))
    by (rewrite Hs, weight_app; simpl; lia).
  assert (Hu : weight (slice start (S cursor) cells) <= u64_max).
  { destruct Hin as [_ _ Hu]. rewrite <-(slice_all cells), (slice_app 0 start), (slice_app start (S cursor)), !weight_app in Hu by lia. lia. }
  rewrite charge_add_fits, Hw by lia. simpl. destruct Hin as [_ Hlen _].
  case_decide; [case_decide|]; [rewrite count_add_ok by lia; simpl|by exists cursor; split; [|lia]|rewrite count_add_ok by lia; simpl].
  - exists (cursor + 1)%nat. replace (cursor + 1)%nat with (S cursor) by lia. split; [done|lia].
  - replace (cursor + 1)%nat with (S cursor) by lia. destruct (IH (S cursor)) as (cursor' & He & Hr); [lia|lia|].
    exists cursor'. split; [done|lia].
Qed.
Lemma even_goal_ok total part leaves : total <= u64_max → (part <= leaves)%nat → leaves ≠ 0%nat → N.of_nat leaves <= u64_max →
  ∃ goal, even_goal total part leaves = Ok goal.
Proof.
  intros Ht Hp Hl Hu. unfold even_goal. rewrite decide_True; [by eexists|]. split_and!; [|done|].
  - transitivity (u64_max * u64_max); [|by vm_compute]. apply N.mul_le_mono; lia.
  - transitivity total; [|done]. transitivity (total * N.of_nat leaves / N.of_nat leaves).
    + apply N.Div0.div_le_mono. apply N.mul_le_mono_l. lia.
    + rewrite N.div_mul by lia. lia.
Qed.

Lemma clamp_between x least most : (least <= most → least <= clamp x least most <= most)%nat.
Proof. intros. unfold clamp. repeat case_decide; lia. Qed.
Lemma target_ok how total leaves index most least cursor : total <= u64_max → (S index <= leaves)%nat →
  N.of_nat leaves <= u64_max → (start <= cursor <= stop)%nat →
  ∃ target cursor', match how with
    | Pack.Left => mret (most, cursor, weight (slice start cursor cells))
    | Pack.Right => mret (least, cursor, weight (slice start cursor cells))
    | Pack.Even =>
        part ← count_add index 1;
        goal ← even_goal total part leaves;
        '(cursor, before) ← advance_cursor config cells (stop - cursor) goal cursor (weight (slice start cursor cells));
        mret (cursor, cursor, before)
    end = Ok (target, cursor', weight (slice start cursor' cells)) ∧ (start <= cursor' <= stop)%nat.
Proof.
  intros Ht Hi Hl Hc. destruct how; [by eexists _, _|by eexists _, _|]. rewrite count_add_ok by lia. simpl.
  destruct (even_goal_ok total (index + 1) leaves) as [goal Hg]; [done|lia|lia|done|]. rewrite Hg. simpl.
  destruct (advance_cursor_ok (stop - cursor) goal cursor) as (c' & He & Hr); [lia|lia|]. rewrite He. simpl.
  exists c', c'. split; [done|lia].
Qed.
(** The spans of consecutive pieces from [pos]. *)
Fixpoint spans_at (pos : nat) (pieces : list (list T)) : list LeafSpan :=
  match pieces with
  | [] => []
  | p :: pieces => {| ls_start := pos; ls_len := length p; ls_heap := heaps p |} :: spans_at (pos + length p) pieces
  end.
Lemma emit_cuts_pieces L how total n j p cursor : (1 < L)%nat → (S j + n = L)%nat → N.of_nat L <= u64_max → total <= u64_max →
  (start <= stop)%nat → Nat.iter L reach_of start = stop → (∀ i, i < L → Nat.iter i reach_of start < stop)%nat →
  (Nat.iter (L - j) back_of stop <= p <= Nat.iter j reach_of start)%nat → (j = 0%nat → p = start) →
  (start <= cursor <= stop)%nat →
  ∃ pieces, concat pieces = slice p stop cells ∧ Forall (λ l, l ≠ [] ∧ leaf_fits base l) pieces ∧ length pieces = S n ∧
  ∀ St (emit : LeafSpan → Fallible St MemoryError ()) s,
    emit_cuts config emit base cells stop how total L (cuts_down stop n) j p cursor (weight (slice start cursor cells)) s
    = each emit (spans_at p pieces) s.
Proof.
  intros HL1 HjL HLu Ht Hss HgL Hbefore. revert j p cursor HjL. induction n as [|n IH]; intros j p cursor HjL Hp Hp0 Hcur.
  - destruct (last_fits _ _ _ run_mono _ _ run_longest run_longest_back Hss L p) as [Hlt Hf]; [done|done|done| |].
    { assert (j = L - 1)%nat as -> by lia. by replace (L - (L - 1))%nat with 1%nat in Hp by lia. }
    exists [slice p stop cells]. split_and!; [simpl; by rewrite app_nil_r| |done|].
    + constructor; [|done]. split; [|done]. intros E. apply (f_equal length) in E. rewrite slice_length in E by lia. simpl in E. lia.
    + intros St emit s. simpl. unfold mbind, fallible_bind, lift. rewrite cell_span_ok by lia.
      rewrite slice_length by lia. by destruct (emit _ s) as [[[]|] ?].
  - destruct (next_bounds _ _ _ run_mono _ _ run_longest run_longest_back Hss L j p) as (Hlt & Hmost & Hg); [done|done|lia|done|done|].
    replace (L - S j)%nat with (S n) in * by lia. set (least := Nat.iter (S n) back_of stop) in *.
    pose proof (forward_range _ _ _ run_mono _ _ run_longest run_longest_back Hss j) as Hgj.
    assert (Hps : (start <= p <= stop)%nat).
    { destruct (decide (j = 0%nat)) as [->|]; [rewrite (Hp0 eq_refl); lia|].
      pose proof (back_range _ _ _ run_mono _ _ run_longest run_longest_back Hss (L - j)). lia. }
    destruct (reach_ok p Hps) as (Hr & Hrr & _ & Hfit & _).
    destruct (target_ok how total L j (reach_of p) least cursor) as (target & cursor' & Htg & Hc'); [done|lia|done|done|].
    pose proof (clamp_between target least (reach_of p) Hmost) as Hcl. set (k := clamp target least (reach_of p)) in *.
    destruct (IH (S j) k cursor') as (pieces & Hcat & Hall & Hlen & Hemit); [lia| |lia|done|].
    { replace (L - S j)%nat with (S n) by lia. fold least. lia. }
    exists (slice p k cells :: pieces). split_and!; [simpl; rewrite Hcat; symmetry; apply slice_app; lia| |simpl; lia|].
    + constructor; [|done]. split.
      * intros E. apply (f_equal length) in E. rewrite slice_length in E by lia. simpl in E. lia.
      * eapply run_mono; [apply Hfit|done|lia].
    + intros St emit s. change (cuts_down stop (S n)) with (least :: cuts_down stop n).
      cbn [emit_cuts]. unfold mbind at 1, fallible_bind at 1, lift at 1. rewrite Hr.
      unfold mbind at 1, fallible_bind at 1, lift at 1. rewrite Htg.
      unfold mbind at 1, fallible_bind at 1, lift at 1. unfold refuse_if. rewrite decide_False by lia. fold k.
      unfold mbind at 1, fallible_bind at 1, lift at 1. rewrite cell_span_ok by lia. cbn [spans_at each].
      rewrite slice_length by lia. replace (p + (k - p))%nat with k by lia.
      unfold mbind, fallible_bind. destruct (emit _ s) as [[[]|] s1]; [|done]. apply Hemit.
Qed.
(** A run is cut into as few leaves as the greedy rule takes. *)
Lemma cut_run_pieces : (start <= stop)%nat → ∃ pieces n, concat pieces = slice start stop cells ∧
  Forall (λ l, l ≠ [] ∧ leaf_fits base l) pieces ∧ length pieces = n ∧
  Nat.iter n reach_of start = stop ∧ (∀ i, i < n → Nat.iter i reach_of start < stop)%nat ∧
  ∀ St (emit : LeafSpan → Fallible St MemoryError ()) s,
    cut_run config emit base cells start stop s = each emit (spans_at start pieces) s.
Proof.
  intros Hss. destruct Hin as [Hadm Hlen Hwt].
  destruct (greedy_leaves_ok (stop - start) start 0 ltac:(lia) ltac:(lia) ltac:(lia)) as (n & Hn & Hend & Hbef & Hnle). simpl in Hn.
  destruct (decide (n <= 1)%nat) as [H1|H1].
  - destruct (decide (start < stop)%nat) as [Hlt|Hlt].
    + destruct n as [|[|n]]; [simpl in Hend; lia| |lia]. simpl in Hend.
      exists [slice start stop cells], 1%nat. destruct (reach_ok start ltac:(lia)) as (_ & _ & _ & Hf & _). rewrite Hend in Hf.
      split_and!; [simpl; by rewrite app_nil_r| |done|done|done|].
      * constructor; [|done]. split; [|done]. intros E. apply (f_equal length) in E. rewrite slice_length in E by lia. simpl in E. lia.
      * intros St emit s. unfold cut_run, mbind at 1, fallible_bind at 1, lift at 1. rewrite Hn, decide_True, decide_True by lia.
        unfold mbind, fallible_bind, lift. rewrite cell_span_ok by lia. simpl. rewrite slice_length by lia.
        unfold mbind, fallible_bind. by destruct (emit _ s) as [[[]|] ?].
    + assert (start = stop) as E by lia. destruct n as [|n]; [|specialize (Hbef 0%nat ltac:(lia)); simpl in Hbef; lia].
      exists [], 0%nat. split_and!; [rewrite E; by rewrite slice_nil|done|done|done|done|].
      intros St emit s. unfold cut_run, mbind at 1, fallible_bind at 1, lift at 1. rewrite Hn, decide_True, decide_False by lia. done.
  - set (total := weight (slice start stop cells)).
    assert (Htot : total <= u64_max).
    { rewrite <-(slice_all cells), (slice_app 0 start), (slice_app start stop), !weight_app in Hwt by lia. unfold total. lia. }
    destruct (emit_cuts_pieces n (pack (slice start stop cells)) total (n - 1) 0 start start) as (pieces & Hcat & Hall & Hl & Hemit);
      [lia|lia|lia|done|done|done|done| |done|lia|].
    { rewrite Nat.sub_0_r. simpl. split; [|done].
      pose proof (back_within _ _ _ run_mono _ _ run_longest run_longest_back Hss n n Hend ltac:(lia)) as Hw.
      rewrite Nat.sub_diag in Hw. done. }
    exists pieces, n. split_and!; [done|done|lia|done|done|]. intros St emit s. rewrite <-Hemit, slice_nil. simpl weight.
    unfold cut_run, mbind at 1, fallible_bind at 1, lift at 1. rewrite Hn, decide_False by lia.
    destruct (back_cuts_ok (n - 1) stop ltac:(lia)) as (cuts & Hcuts & Hrev).
    unfold mbind at 1, fallible_bind at 1, lift at 1. rewrite Hcuts. unfold mbind at 1, fallible_bind at 1, lift at 1.
    fold (slice start stop cells). rewrite total_ok; [|intros c (i & _ & Hi)%slice_elem; apply Hadm; by eapply list_elem_of_lookup_2|done].
    rewrite N.add_0_l. fold total. rewrite Hrev. done.
Qed.
End Run.
End Cutting.

(** * Quotes count what cuts make

    A plan counts the pages of a merged group with the greedy rule and charges
    them; the build cuts the group with the other rule. Both cut it into the
    same number of pieces, so the page count and the page bytes that a plan
    quotes are the ones that its build makes. *)

(** ** Emissions of a partition *)
Section Emits.
Context {St : Type} (emit : LeafSpan → Fallible St MemoryError ()).
(** [m] emits these spans, and ends in [q] when none of them is refused. *)
Definition emits (m : Partitioning (St := St) ()) (p : LeafPartition) (spans : list LeafSpan) (q : LeafPartition) : Prop :=
  ∀ s, match each emit spans s with
       | (Ok _, s') => m (p, s) = (Ok (), (q, s'))
       | (Err e, s') => ∃ q', m (p, s) = (Err e, (q', s'))
       end.
Lemma emits_none p : emits (mret ()) p [] p.
Proof. intros s. done. Qed.
Lemma emits_bind (m k : Partitioning (St := St) ()) p q r l1 l2 : emits m p l1 q → emits k q l2 r → emits (m;; k) p (l1 ++ l2) r.
Proof.
  intros Hm Hk s. rewrite each_app. specialize (Hm s). unfold mbind, fallible_bind.
  destruct (each emit l1 s) as [[[]|e] s1]; [|by destruct Hm as [q' ->]; exists q'].
  rewrite Hm. specialize (Hk s1). destruct (each emit l2 s1) as [[[]|e] s2]; done.
Qed.
Lemma emits_eq (m m' : Partitioning (St := St) ()) p l q : (∀ s, m (p, s) = m' (p, s)) → emits m' p l q → emits m p l q.
Proof. intros E Hm s. rewrite E. apply Hm. Qed.
(** Binding is associative. *)
Lemma emits_assoc (m k j : Partitioning (St := St) ()) p l q : emits (m;; (k;; j)) p l q → emits ((m;; k);; j) p l q.
Proof.
  apply emits_eq. intros s. unfold mbind, fallible_bind. destruct (m (p, s)) as [[[]|e] s1]; [|done]. by destruct (k s1) as [[[]|e] ?].
Qed.
End Emits.

Section Quotes.
Context `{PageSizes} (config : RangeConfig) {T : Type} `{Cell T}.
Implicit Types (c : T) (l cells : list T).
#[local] Notation cell_admitted := (cell_admitted config).
#[local] Notation cell_small := (cell_small config).
#[local] Notation leaf_fits := (leaf_fits config).

Section Group.
#[local] Set Default Proof Using "All".
Context (base : N) (cells : list T) (Hlim : cut_limits config base) (Hin : cut_input config cells).
Context (Hover : ∀ c, c ∈ cells → base + cell_size c <= u64_max).
(** The partition that has gathered [a..i]. *)
Definition gathered (a i : nat) : LeafPartition := {|
  lp_base_bytes := base;
  lp_span := {| ls_start := a; ls_len := (i - a)%nat; ls_heap := heaps (slice a i cells) |};
  lp_bytes := base + weight (slice a i cells)
|}.
Lemma gathered_empty i : gathered i i = {| lp_base_bytes := base;
  lp_span := {| ls_start := i; ls_len := 0; ls_heap := 0 |}; lp_bytes := base |}.
Proof. unfold gathered. rewrite slice_nil, Nat.sub_diag. simpl. by rewrite N.add_0_r. Qed.
Notation span a i := {| ls_start := a; ls_len := (i - a)%nat; ls_heap := heaps (slice a i cells) |}.

Lemma finish_emits {St} (emit : LeafSpan → Fallible St MemoryError ()) a i : (a < i <= length cells)%nat →
  emits emit (partition_finish emit) (gathered a i) [span a i] (gathered i i).
Proof.
  intros Ha s. unfold partition_finish, gets, mbind, fallible_bind. simpl. rewrite decide_False by lia.
  unfold emit_span, mbind, fallible_bind. destruct (emit (span a i) s) as [[[]|e] s1]; [|by eexists].
  unfold lift. simpl. destruct Hin as [_ Hlen _]. rewrite count_add_ok by lia. simpl. unfold on_partition, modify.
  rewrite gathered_empty. repeat f_equal. lia.
Qed.
Lemma finish_nothing {St} (emit : LeafSpan → Fallible St MemoryError ()) i :
  emits emit (partition_finish emit) (gathered i i) [] (gathered i i).
Proof. intros s. rewrite gathered_empty. done. Qed.

(** What a push does once it has flushed. *)
Definition push_tail {St} (emit : LeafSpan → Fallible St MemoryError ()) c : Partitioning (St := St) () :=
  '(p, _) ← gets id;
  len ← lift (count_add (ls_len (lp_span p)) 1);
  heap ← lift (charge_add (ls_heap (lp_span p)) (cell_heap c));
  total ← lift (charge_add (lp_bytes p) (cell_size c));
  on_partition (λ p, {| lp_base_bytes := lp_base_bytes p;
                        lp_span := {| ls_start := ls_start (lp_span p); ls_len := len; ls_heap := heap |};
                        lp_bytes := total |});;
  if decide (page_bytes config < total) then partition_finish emit else mret ().
Lemma push_eq {St} (emit : LeafSpan → Fallible St MemoryError ()) c boundary p s : cell_admitted c →
  partition_push config emit (cell_heap c) boundary (p, s) =
  ((if decide (ls_len (lp_span p) ≠ 0%nat
               ∧ (boundary = true ∨ ls_len (lp_span p) = page_entries config ∨ page_bytes config - lp_bytes p < cell_size c))
    then partition_finish emit else mret ());; push_tail emit c) (p, s).
Proof.
  intros Ha. pose proof (cell_bytes_ok config c Ha) as Hb. unfold cell_bytes in Hb. apply try_bind_ok in Hb as (b & Hb & Hr).
  apply refuse_then_ok in Hr as [Hr E]. injection E as ->. unfold partition_push, push_tail.
  unfold mbind at 1, fallible_bind at 1, lift at 1. rewrite Hb.
  unfold mbind at 1, fallible_bind at 1, lift at 1. unfold refuse_if at 1. by rewrite decide_False by done.
Qed.
(** Whether a push flushes what is gathered, and what it does then. *)
Definition flushes (a i : nat) c (boundary : bool) : Prop :=
  (a < i)%nat ∧ (boundary = true ∨ (i - a)%nat = page_entries config ∨ page_bytes config - (base + weight (slice a i cells)) < cell_size c).
Lemma admitted_at i c : cells !! i = Some c → cell_admitted c ∧ (i < length cells)%nat.
Proof. intros Hc. split; [apply Hin; by eapply list_elem_of_lookup_2|by eapply lookup_lt_Some]. Qed.
Lemma push_flush {St} (emit : LeafSpan → Fallible St MemoryError ()) a i c boundary (rest : list LeafSpan) q :
  cells !! i = Some c → flushes a i c boundary →
  emits emit (partition_push config emit (cell_heap c) false) (gathered i i) rest q →
  emits emit (partition_push config emit (cell_heap c) boundary) (gathered a i) (span a i :: rest) q.
Proof.
  intros Hc [Hlt Hfl] Hm. destruct (admitted_at i c Hc) as [Ha Hi].
  eapply emits_eq; [intros s; rewrite push_eq by done; rewrite decide_True by (split; [simpl; lia|done]); done|].
  change (span a i :: rest) with ([span a i] ++ rest). eapply emits_bind; [apply finish_emits; lia|].
  eapply emits_eq; [|exact Hm]. intros s. rewrite push_eq by done. rewrite decide_False by (simpl; lia). done.
Qed.
(** A push that gathers one more. *)
Lemma tail_gathers {St} (emit : LeafSpan → Fallible St MemoryError ()) a i c s : cells !! i = Some c → (a <= i)%nat →
  base + weight (slice a (S i) cells) <= u64_max →
  push_tail emit c (gathered a i, s) =
  (if decide (page_bytes config < base + weight (slice a (S i) cells)) then partition_finish emit else mret ())
    (gathered a (S i), s).
Proof.
  intros Hc Hai Hw. destruct (admitted_at i c Hc) as [_ Hi]. pose proof (slice_snoc a i cells c Hai Hc) as Hs.
  rewrite Hs, weight_app in Hw. simpl in Hw. pose proof (weight_heaps (slice a i cells)) as Hwh. destruct Hin as [_ Hlen _].
  unfold push_tail. unfold mbind at 1, fallible_bind at 1, gets at 1, id. cbn [lp_span gathered ls_len lp_bytes ls_heap].
  unfold mbind at 1, fallible_bind at 1, lift at 1. rewrite count_add_ok by lia.
  unfold mbind at 1, fallible_bind at 1, lift at 1. rewrite charge_add_fits by (unfold cell_size in Hw; lia).
  unfold mbind at 1, fallible_bind at 1, lift at 1. rewrite charge_add_fits by lia.
  unfold mbind at 1, fallible_bind at 1, on_partition, modify. unfold gathered. rewrite Hs, weight_app, heaps_app. simpl.
  rewrite !N.add_0_r, !N.add_assoc. replace (S i - a)%nat with (i - a + 1)%nat by lia. done.
Qed.
Lemma push_gather {St} (emit : LeafSpan → Fallible St MemoryError ()) a i c boundary :
  cells !! i = Some c → (a <= i)%nat → ¬ flushes a i c boundary → leaf_fits base (slice a (S i) cells) →
  emits emit (partition_push config emit (cell_heap c) boundary) (gathered a i) [] (gathered a (S i)).
Proof.
  intros Hc Hai Hnf [_ Hfit] s. destruct (admitted_at i c Hc) as [Ha Hi]. rewrite push_eq by done.
  rewrite decide_False by (simpl; intros [? ?]; apply Hnf; split; [lia|done]). simpl.
  unfold mbind, fallible_bind. simpl. destruct Hlim. rewrite tail_gathers by (done || lia). by rewrite decide_False by lia.
Qed.
(** An oversized entry is a leaf of its own. *)
Lemma push_oversized {St} (emit : LeafSpan → Fallible St MemoryError ()) i c :
  cells !! i = Some c → ¬ cell_small base c →
  emits emit (partition_push config emit (cell_heap c) false) (gathered i i) [span i (S i)] (gathered (S i) (S i)).
Proof.
  intros Hc Hbig. destruct (admitted_at i c Hc) as [Ha Hi]. pose proof (slice_snoc i i cells c ltac:(lia) Hc) as Hs.
  assert (Hw : weight (slice i (S i) cells) = cell_size c) by (rewrite Hs, slice_nil; simpl; lia).
  intros s. assert (partition_push config emit (cell_heap c) false (gathered i i, s) = partition_finish emit (gathered i (S i), s)) as ->.
  { rewrite push_eq by done. rewrite decide_False by (simpl; lia). unfold mbind, fallible_bind. simpl.
    unfold PagesLaws.cell_small in Hbig.
    rewrite tail_gathers by (done || (rewrite Hw; apply Hover; by eapply list_elem_of_lookup_2)). by rewrite decide_True by lia. }
  apply (finish_emits emit i (S i)). lia.
Qed.

(** What is gathered goes before everything that follows a flush. *)
Lemma flush_first {St} (emit : LeafSpan → Fallible St MemoryError ()) a i c boundary (k : Partitioning (St := St) ())
    (rest : list LeafSpan) q :
  cells !! i = Some c → flushes a i c boundary →
  emits emit (partition_push config emit (cell_heap c) boundary;; k) (gathered i i) rest q →
  emits emit (partition_push config emit (cell_heap c) boundary;; k) (gathered a i) (span a i :: rest) q.
Proof.
  intros Hc Hfl Hm. destruct (admitted_at i c Hc) as [Ha Hi]. pose proof Hfl as [Hlt Hwhy].
  apply (emits_eq emit _ (partition_finish emit;; (push_tail emit c;; k))).
  { intros s. unfold mbind, fallible_bind. rewrite push_eq by done. rewrite decide_True by (split; [simpl; lia|done]).
    unfold mbind, fallible_bind. by destruct (partition_finish emit _) as [[[]|] ?]. }
  change (span a i :: rest) with ([span a i] ++ rest). eapply emits_bind; [apply finish_emits; lia|].
  eapply emits_eq; [|exact Hm]. intros s. unfold mbind, fallible_bind. rewrite push_eq by done.
  rewrite decide_False by (simpl; lia). done.
Qed.
Lemma push_cells_app {St} (emit : LeafSpan → Fallible St MemoryError ()) previous l k s :
  push_cells config emit previous (l ++ k) s =
  (push_cells config emit previous l;; push_cells config emit (match last l with Some c => Some c | None => previous end) k) s.
Proof.
  revert previous s. induction l as [|c l IH]; intros previous s; [done|]. simpl. unfold mbind, fallible_bind.
  destruct (partition_push _ _ _ _ s) as [[[]|] s1]; [|done]. rewrite IH. unfold mbind, fallible_bind.
  rewrite last_cons. by destruct (last l).
Qed.
(** Consecutive entries in the same partition. *)
Definition unparted l : Prop := ∀ i x y, l !! i = Some x → l !! S i = Some y → parts_from x y = false.
Section Pushes.
Context (start stop : nat) (Hstop : (start < stop <= length cells)%nat).
Context (Hsmall : ∀ i c, (start <= i < stop)%nat → cells !! i = Some c → cell_small base c).
Context (Hone : ∀ i x y, (start <= i)%nat → (S i < stop)%nat → cells !! i = Some x → cells !! S i = Some y → parts_from x y = false).
Notation R := (reach_of config base cells stop).
Context (n : nat) (Hn : Nat.iter n R start = stop) (Hbefore : ∀ j, (j < n)%nat → (Nat.iter j R start < stop)%nat).
(** The pushes of a run gather its greedy leaves, and the last is still open. *)
Lemma run_pushes m k i : (i + m = stop)%nat → (start <= Nat.iter k R start <= i)%nat → (i <= R (Nat.iter k R start))%nat →
  (Nat.iter k R start < i ∨ i = start ∧ k = 0)%nat →
  ∃ pieces a, concat pieces = slice (Nat.iter k R start) a cells ∧ (Nat.iter k R start <= a < stop)%nat ∧
  (k + length pieces + 1 = n)%nat ∧ ∀ St (emit : LeafSpan → Fallible St MemoryError ()) previous,
    (Nat.iter k R start < i → previous = cells !! (i - 1))%nat →
    emits emit (push_cells config emit previous (slice i stop cells)) (gathered (Nat.iter k R start) i)
      (spans_at (Nat.iter k R start) pieces) (gathered a stop).
Proof.
  revert k i. induction m as [|m IH]; intros k i Hm Ha HR Hor; set (a := Nat.iter k R start) in *.
  - assert (i = stop) as -> by lia. exists [], a. assert (a < stop)%nat by lia.
    assert (HRa : R a = stop).
    { destruct (reach_ok config base cells start stop Hlim Hin ltac:(lia) Hsmall a ltac:(lia)) as (_ & ? & _). lia. }
    split_and!; [by rewrite slice_nil|done|done| |].
    + assert (Hk : (k < n)%nat).
      { destruct (decide (k < n)%nat) as [|Hge]; [done|]. exfalso.
        assert (Hstay : ∀ x, Nat.iter (x + n) R start = stop).
        { intros x. rewrite Nat.iter_add, Hn. induction x as [|x IHx]; [done|]. simpl. rewrite IHx.
          unfold reach_of, reach. by rewrite Nat.sub_diag. }
        specialize (Hstay (k - n)%nat). replace (k - n + n)%nat with k in Hstay by lia. unfold a in *. lia. }
      destruct (decide (S k < n)%nat) as [Hlt|]; [|simpl; lia]. specialize (Hbefore (S k) Hlt). simpl in Hbefore. fold a in Hbefore. lia.
    + intros St emit previous _. rewrite slice_nil. apply emits_none.
  - assert (Hi : (start <= i < stop)%nat) by lia. destruct (run_cell config base cells start stop Hlim Hin ltac:(lia) Hsmall i Hi) as (c & Hc & Hadm & Hs).
    destruct (reach_ok config base cells start stop Hlim Hin ltac:(lia) Hsmall a ltac:(lia)) as (_ & HRr & HRm & HRf & HRmost).
    pose proof (run_mono config base cells start stop Hlim Hin ltac:(lia) Hsmall) as Hmono.
    assert (Hfi : leaf_fits base (slice a i cells)) by (eapply Hmono; [exact HRf|lia|lia]).
    assert (Hb : ∀ previous, (a < i → previous = cells !! (i - 1))%nat → (a < i)%nat → is_some_and (λ p, parts_from p c) previous = false).
    { intros previous Hprev Hlt. rewrite (Hprev Hlt). destruct (cells !! (i - 1)%nat) as [x|] eqn:Hx; [|done]. simpl.
      eapply (Hone (i - 1)); [|lia|done|by replace (S (i - 1)) with i by lia].
      destruct Hor as [|[-> ->]]; [|unfold a in Hlt; simpl in Hlt; lia]. lia. }
    rewrite (slice_cons i stop cells c) by (done || lia).
    destruct (decide (i < R a)%nat) as [Hlt|Hge].
    + assert (Hf : leaf_fits base (slice a (S i) cells)) by (eapply Hmono; [exact HRf|lia|lia]).
      destruct (IH k (S i)) as (pieces & a' & Hcat & Ha' & Hlen & Hem); [lia|fold a; lia|fold a; lia|left; fold a; lia|].
      exists pieces, a'. fold a in Hcat, Ha', Hem. split; [done|]. split; [done|]. split; [done|]. intros St emit previous Hprev. cbn [push_cells].
      change (spans_at a pieces) with ([] ++ spans_at a pieces). eapply emits_bind; [|apply Hem; intros _; by replace (S i - 1)%nat with i by lia]. apply push_gather; [done|lia| |done].
      intros [Hai Hwhy]. rewrite (Hb _ Hprev Hai) in Hwhy. destruct Hf as [Hl Hw].
      rewrite (slice_snoc a i cells c) in Hl, Hw by (done || lia). rewrite length_app, slice_length in Hl by lia.
      rewrite weight_app in Hw. simpl in Hl, Hw. lia.
    + assert (HRai : R a = i) by lia. assert (Hai : (a < i)%nat) by (rewrite <-HRai; apply HRm; lia).
      assert (Hsk : Nat.iter (S k) R start = i) by (simpl; fold a; done).
      destruct (IH (S k) (S i)) as (pieces & a' & Hcat & Ha' & Hlen & Hem);
        [lia|rewrite Hsk; lia| |left; rewrite Hsk; lia|].
      { rewrite Hsk. destruct (reach_ok config base cells start stop Hlim Hin ltac:(lia) Hsmall i ltac:(lia)) as (_ & _ & Hmv & _).
        specialize (Hmv ltac:(lia)). lia. }
      rewrite Hsk in Hcat, Ha', Hem. exists (slice a i cells :: pieces), a'. split_and!; [|lia|lia|simpl; lia|].
      { simpl. rewrite Hcat. symmetry. apply slice_app. lia. }
      intros St emit previous Hprev. cbn [push_cells spans_at]. rewrite slice_length by lia. replace (a + (i - a))%nat with i by lia.
      apply flush_first; [done| |].
      * split; [done|]. right. destruct (decide ((i - a)%nat = page_entries config)) as [|Hpe]; [by left|right].
        destruct (decide (page_bytes config - (base + weight (slice a i cells)) < cell_size c)) as [|Hpb]; [done|exfalso].
        apply (HRmost ltac:(lia)). rewrite HRai. destruct Hfi as [Hl Hw]. rewrite slice_length in Hl by lia.
        unfold PagesLaws.leaf_fits. rewrite (slice_snoc a i cells c), weight_app, length_app by (done || lia).
        rewrite slice_length by lia. simpl. lia.
      * change (spans_at i pieces) with ([] ++ spans_at i pieces). eapply emits_bind; [|apply Hem; intros _; by replace (S i - 1)%nat with i by lia]. apply push_gather; [done|lia|unfold flushes; lia|].
        rewrite (slice_snoc i i cells c), slice_nil by (done || lia). unfold PagesLaws.leaf_fits, PagesLaws.cell_small in *. destruct Hlim. simpl. lia.
Qed.
End Pushes.

(** A page that a cut makes: entries of one partition that fit, or one entry
    too large to share a page. *)
Definition leaf_sound l : Prop :=
  l ≠ [] ∧ (leaf_fits base l ∧ unparted l ∨ ∃ c, l = [c] ∧ ¬ cell_small base c).
Lemma run_end_ok n at_ previous stop : cells !! at_ = Some previous → stop = S at_ → (stop + n = length cells)%nat →
  ∃ e, run_end config base cells n previous stop = Ok e ∧ (at_ < e <= length cells)%nat ∧
  (∀ i c, (at_ < i < e)%nat → cells !! i = Some c → cell_small base c) ∧
  (∀ i x y, (at_ <= i)%nat → (S i < e)%nat → cells !! i = Some x → cells !! S i = Some y → parts_from x y = false) ∧
  (∀ x y, cells !! (e - 1)%nat = Some x → cells !! e = Some y → parts_from x y = true ∨ ¬ cell_small base y).
Proof.
  revert at_ previous stop. induction n as [|n IH]; intros at_ previous stop Hat -> Hlen; simpl.
  { exists (S at_). split_and!; [done|lia|lia|lia|lia|]. intros x y _ Hy%lookup_lt_Some. lia. }
  destruct (lookup_lt_is_Some_2 cells (S at_) ltac:(lia)) as [c Hc]. rewrite Hc. destruct (admitted_at _ _ Hc) as [Ha _].
  destruct (parts_from previous c) eqn:Hpart.
  { exists (S at_). split_and!; [done|lia|lia|lia|lia|]. intros x y Hx Hy. replace (S at_ - 1)%nat with at_ in Hx by lia.
    rewrite Hat in Hx. rewrite Hc in Hy. simplify_eq. by left. }
  rewrite cell_bytes_ok by done. simpl. destruct Hlim as [_ Hroom _ _].
  pose proof (oversized_iff config base c Hroom) as Hov. destruct (oversized config base (cell_size c)).
  { exists (S at_). split_and!; [done|lia|lia|lia|lia|]. intros x y Hx Hy. rewrite Hc in Hy. simplify_eq. right. intros Hs%Hov. done. }
  destruct Hin as [_ Hll _]. rewrite count_add_ok by lia. simpl.
  destruct (IH (S at_) c (S at_ + 1)%nat) as (e & He & Hr & Hsm & Hun & Hend); [done|lia|lia|].
  exists e. split_and!; [done|lia|lia| | |done].
  - intros i d Hi Hd. destruct (decide (i = S at_)) as [->|]; [rewrite Hc in Hd; simplify_eq; by apply Hov|]. eapply Hsm; [|done]. lia.
  - intros i x y Hi He' Hx Hy. destruct (decide (i = at_)) as [->|]; [by simplify_eq|]. eapply Hun; [|done|done|done]. lia.
Qed.
(** The cut and the quote of the entries from [at_] on. *)
Definition agree (at_ : nat) : Prop := ∃ pieces quoted : list (list T),
  concat pieces = drop at_ cells ∧ concat quoted = drop at_ cells ∧ Forall leaf_sound pieces ∧ length quoted = length pieces ∧
  (∀ St (emit : LeafSpan → Fallible St MemoryError ()) n s, (length cells - at_ <= n)%nat →
    cut_from config emit base cells n at_ s = each emit (spans_at at_ pieces) s) ∧
  ∀ St (emit : LeafSpan → Fallible St MemoryError ()) previous,
    emits emit (push_cells config emit previous (drop at_ cells);; partition_finish emit) (gathered at_ at_)
      (spans_at at_ quoted) (gathered (length cells) (length cells)).
Lemma drop_slice i e : (i <= e <= length cells)%nat → drop i cells = slice i e cells ++ drop e cells.
Proof.
  intros Hie. unfold slice. replace (drop e cells) with (drop (e - i) (drop i cells)) by (rewrite drop_drop; f_equal; lia).
  by rewrite take_drop.
Qed.
Lemma spans_at_app (pos : nat) (ps qs : list (list T)) :
  spans_at pos (ps ++ qs) = spans_at pos ps ++ spans_at (pos + length (concat ps)) qs.
Proof.
  revert pos. induction ps as [|p ps IH]; intros pos; simpl; [f_equal; lia|]. rewrite IH, length_app. do 3 f_equal. lia.
Qed.
(** An open leaf is closed by what follows a run. *)
Lemma close_run {St} (emit : LeafSpan → Fallible St MemoryError ()) a e previous (rest : list LeafSpan) q :
  (a < e <= length cells)%nat → (e = length cells → rest = [] ∧ q = gathered e e) →
  (∀ y, cells !! e = Some y → is_some_and (λ x, parts_from x y) previous = true ∨ ¬ cell_small base y) →
  emits emit (push_cells config emit previous (drop e cells);; partition_finish emit) (gathered e e) rest q →
  emits emit (push_cells config emit previous (drop e cells);; partition_finish emit) (gathered a e) (span a e :: rest) q.
Proof.
  intros Ha Hnil Hnext Hem. destruct (decide (e = length cells)) as [E|Hne].
  - destruct (Hnil E) as [-> ->]. rewrite drop_ge by lia. simpl.
    apply (emits_eq emit _ (partition_finish emit)); [done|]. apply finish_emits. lia.
  - destruct (lookup_lt_is_Some_2 cells e ltac:(lia)) as [c Hc]. rewrite (drop_S _ _ _ Hc) in Hem |- *. cbn [push_cells] in Hem |- *.
    apply emits_assoc. apply flush_first; [done| |].
    + split; [lia|]. destruct (Hnext c Hc) as [->|Hbig]; [by left|]. right. right. unfold PagesLaws.cell_small in Hbig. destruct Hlim. lia.
    + eapply emits_eq; [|exact Hem]. intros s. unfold mbind, fallible_bind.
      destruct (partition_push _ _ _ _ _) as [[[]|] s1]; [|done]. by destruct (push_cells _ _ _ _ s1) as [[[]|] ?].
Qed.
Lemma agree_oversized at_ c : cells !! at_ = Some c → ¬ cell_small base c → agree (S at_) → agree at_.
Proof.
  intros Hc Hbig (pieces & quoted & H1 & H2 & H3 & H4 & H5 & H6). destruct (admitted_at _ _ Hc) as [Ha Hlt].
  exists ([c] :: pieces), ([c] :: quoted). split_and!; [simpl; by rewrite H1, (drop_S _ _ _ Hc)|simpl; by rewrite H2, (drop_S _ _ _ Hc)| |simpl; lia| |].
  - constructor; [|done]. split; [done|]. right. by exists c.
  - intros St emit n s Hn. destruct n as [|n]; [lia|]. cbn [cut_from]. rewrite Hc. unfold mbind at 1, fallible_bind at 1, lift at 1.
    destruct Hin as [_ Hll _]. rewrite count_add_ok by lia. unfold mbind at 1, fallible_bind at 1, lift at 1. rewrite cell_bytes_ok by done.
    destruct Hlim as [_ Hroom _ _]. pose proof (oversized_iff config base c Hroom) as Hov.
    destruct (oversized config base (cell_size c)); [|destruct Hbig; by apply Hov]. cbn [spans_at each heaps length]. rewrite N.add_0_r.
    unfold mbind, fallible_bind. destruct (emit _ s) as [[[]|] s1]; [|done]. replace (at_ + 1)%nat with (S at_) by lia. apply H5. lia.
  - intros St emit previous. rewrite (drop_S _ _ _ Hc). cbn [push_cells spans_at heaps length]. rewrite N.add_0_r. apply emits_assoc.
    change (?x :: ?l) with ([x] ++ l). replace (at_ + 1)%nat with (S at_) by lia. eapply emits_bind; [|apply H6].
    pose proof (push_oversized emit at_ c Hc Hbig) as Hp. replace (S at_ - at_)%nat with 1%nat in Hp by lia.
    rewrite (slice_snoc at_ at_ cells c), slice_nil in Hp by (done || lia). simpl in Hp. rewrite N.add_0_r in Hp.
    eapply emits_eq; [|exact Hp]. intros s. rewrite !push_eq by done. simpl. rewrite !decide_False by lia. done.
Qed.
Lemma agree_run at_ c e : cells !! at_ = Some c → cell_small base c →
  run_end config base cells (length cells - S at_) c (S at_) = Ok e → (at_ < e <= length cells)%nat → agree e → agree at_.
Proof.
  intros Hc Hs He Hr (pieces & quoted & H1 & H2 & H3 & H4 & H5 & H6). destruct (admitted_at _ _ Hc) as [Ha Hlt].
  destruct (run_end_ok (length cells - S at_) at_ c (S at_) Hc eq_refl ltac:(lia)) as (e' & He' & _ & Hsm & Hun & Hend).
  rewrite He in He'. injection He' as <-.
  assert (Hsmall : ∀ i d, (at_ <= i < e)%nat → cells !! i = Some d → cell_small base d).
  { intros i d Hi Hd. destruct (decide (i = at_)) as [->|]; [by simplify_eq|]. eapply Hsm; [|done]. lia. }
  destruct (cut_run_pieces config base cells at_ e Hlim Hin ltac:(lia) Hsmall ltac:(lia)) as (ps & n & Hcat & Hall & Hlen & Hn & Hbef & Hcut).
  destruct (run_pushes at_ e ltac:(lia) Hsmall Hun n Hn Hbef (e - at_) 0 at_) as (qs & a & Hqcat & Hqa & Hqlen & Hem);
    [lia|simpl; lia| |by right|].
  { simpl. destruct (reach_ok config base cells at_ e Hlim Hin ltac:(lia) Hsmall at_ ltac:(lia)) as (_ & ? & _). lia. }
  simpl in Hqcat, Hqa, Hqlen, Hem.
  exists (ps ++ pieces), (qs ++ [slice a e cells] ++ quoted). split_and!.
  - rewrite concat_app, Hcat, H1. symmetry. apply drop_slice. lia.
  - rewrite concat_app. simpl. rewrite Hqcat, H2, app_assoc, <-(slice_app at_ a e) by lia. symmetry. apply drop_slice. lia.
  - apply Forall_app. split; [|done]. rewrite Forall_forall in Hall |- *. intros p Hp. destruct (Hall p Hp) as [Hne Hf]. split; [done|].
    left. split; [done|]. intros i x y Hx Hy. apply list_elem_of_split in Hp as (p1 & p2 & ->). rewrite concat_app in Hcat. simpl in Hcat.
    assert (Hpos : ∀ k z, p !! k = Some z → cells !! (at_ + (length (concat p1) + k))%nat = Some z ∧ (at_ + (length (concat p1) + k) < e)%nat).
    { intros k z Hk. assert (Hz : slice at_ e cells !! (length (concat p1) + k)%nat = Some z).
      { rewrite <-Hcat, lookup_app_r by lia. replace (length (concat p1) + k - length (concat p1))%nat with k by lia. by apply lookup_app_l_Some. }
      pose proof (lookup_lt_Some _ _ _ Hz) as Hlz. rewrite slice_length in Hlz by lia. rewrite slice_lookup in Hz by lia. split; [done|lia]. }
    destruct (Hpos _ _ Hx) as [Hx' _], (Hpos _ _ Hy) as [Hy' Hye].
    eapply (Hun (at_ + (length (concat p1) + i))%nat); [lia|lia|done|]. by rewrite <-plus_n_Sm, <-plus_n_Sm in Hy'.
  - rewrite !length_app. simpl. lia.
  - intros St emit m s Hm. destruct m as [|m]; [lia|]. cbn [cut_from]. rewrite Hc. unfold mbind at 1, fallible_bind at 1, lift at 1.
    destruct Hin as [_ Hll _]. rewrite count_add_ok by lia. unfold mbind at 1, fallible_bind at 1, lift at 1. rewrite cell_bytes_ok by done.
    destruct Hlim as [_ Hroom _ _]. rewrite (proj2 (oversized_iff config base c Hroom) Hs).
    replace (at_ + 1)%nat with (S at_) by lia. unfold mbind at 1, fallible_bind at 1, lift at 1. rewrite He.
    unfold mbind at 1, fallible_bind at 1. rewrite Hcut, spans_at_app, each_app. unfold mbind, fallible_bind.
    destruct (each emit (spans_at at_ ps) s) as [[[]|] s1]; [|done]. rewrite Hcat, slice_length by lia.
    replace (at_ + (e - at_))%nat with e by lia. apply H5. lia.
  - intros St emit previous.
    rewrite (drop_slice at_ e), spans_at_app by lia. rewrite Hqcat, slice_length by lia. replace (at_ + (a - at_))%nat with a by lia.
    cbn [spans_at app]. rewrite slice_length by lia. replace (a + (e - a))%nat with e by lia.
    eapply (emits_eq emit _ ((push_cells config emit previous (slice at_ e cells);; push_cells config emit
      (match last (slice at_ e cells) with Some c => Some c | None => previous end) (drop e cells));; partition_finish emit));
      [intros s; unfold mbind at 1, fallible_bind at 1; by rewrite push_cells_app|].
    apply emits_assoc. eapply emits_bind; [apply Hem; lia|].
    assert (Hlast : last (slice at_ e cells) = cells !! (e - 1)%nat).
    { rewrite last_lookup, slice_length by lia. rewrite slice_lookup by lia. f_equal. lia. }
    apply close_run; [lia| | |apply H6].
    + intros ->. rewrite drop_ge in H2 by lia. destruct quoted as [|q quoted]; [done|].
      assert (Hp : pieces = []).
      { destruct pieces as [|p pieces]; [done|]. rewrite drop_ge in H1 by lia. apply Forall_cons in H3 as [[Hne _] _]. simpl in H1.
        by apply app_nil in H1 as [-> _]. }
      by rewrite Hp in H4.
    + intros y Hy. rewrite Hlast. destruct (lookup_lt_is_Some_2 cells (e - 1)%nat ltac:(lia)) as [x Hx]. rewrite Hx. simpl. by eapply Hend.
Qed.
Lemma agreement at_ : (at_ <= length cells)%nat → agree at_.
Proof.
  remember (length cells - at_)%nat as m eqn:Hm. revert at_ Hm. induction m as [m IH] using lt_wf_ind. intros at_ -> Hle.
  destruct (decide (at_ = length cells)) as [->|Hne].
  { exists [], []. rewrite drop_ge by lia. split_and!; [done|done|done|done| |].
    - intros St emit n s _. destruct n as [|n]; [done|]. cbn [cut_from]. by rewrite lookup_ge_None_2 by lia.
    - intros St emit previous. apply (emits_eq emit _ (partition_finish emit)); [done|]. apply finish_nothing. }
  destruct (lookup_lt_is_Some_2 cells at_ ltac:(lia)) as [c Hc]. destruct (decide (base + cell_size c <= page_bytes config)) as [Hs|Hbig].
  - destruct (run_end_ok (length cells - S at_) at_ c (S at_) Hc eq_refl ltac:(lia)) as (e & He & Hr & _).
    eapply agree_run; [done|done|done|done|]. eapply IH; [|done|]; lia.
  - eapply agree_oversized; [done|done|]. eapply IH; [|done|]; lia.
Qed.
End Group.
End Quotes.

(** The pieces of a cut are sound pages, as many as the quote of the same group
    counts. *)
Lemma cut_as_quoted `{PageSizes} (config : RangeConfig) {T} `{Cell T} base (cells : list T) :
  cut_limits config base → cut_input config cells → (∀ c, c ∈ cells → base + cell_size c <= u64_max) →
  ∃ pieces quoted, concat pieces = cells ∧ concat quoted = cells ∧ Forall (leaf_sound config base) pieces ∧
  length quoted = length pieces ∧
  (∀ St (emit : LeafSpan → Fallible St MemoryError ()) s, cut config emit cells s = each emit (spans_at 0 pieces) s) ∧
  ∀ St (emit : LeafSpan → Fallible St MemoryError ()) s, quote_cells config emit cells s = each emit (spans_at 0 quoted) s.
Proof.
  intros Hlim Hin Hover. destruct (agreement config base cells Hlim Hin Hover 0 ltac:(lia)) as (pieces & quoted & H1 & H2 & H3 & H4 & H5 & H6).
  rewrite drop_0 in *. exists pieces, quoted. split_and!; [done..| |].
  - intros St emit s. unfold cut, mbind, fallible_bind, lift. rewrite (ct_base _ _ Hlim). apply H5. lia.
  - intros St emit s. unfold quote_cells, partition_new. rewrite (ct_base _ _ Hlim). cbn [mbind try_bind mret try_ret].
    rewrite <-(gathered_empty config base cells Hlim Hin Hover 0). specialize (H6 St emit None s).
    destruct (each emit (spans_at 0 quoted) s) as [[[]|e] s1]; [by rewrite H6|by destruct H6 as [q ->]].
Qed.
