(* ===== verification/PageDirectory.v ===== *)
(** * The page directory (focal-memory: range_directory.rs)

    A rank-indexed tree over the pages of a range store: every node has sixteen
    to thirty-two handles, except the root, all leaves are at one level, and a
    node counts the pages below it and caches the order prefix of its first key.
    An edit copies the path it changes; the tree that was is not touched.

    A node is a value here, so sharing shows only in what an edit is charged:
    whether another handle holds a node, and whether a leaf's charge absorbs one
    more handle, are answers of [Funding], as is the budget's answer to every
    reservation. Letting nodes go is not modelled. Counts are [nat]; the charges
    are bytes. A leaf's vector has the capacity of its pages. *)
From stdpp Require Import prelude strings list.
From Stdlib Require Import NArith.
From S2P Require Import Prelude Fallible Budget Pages.

#[local] Open Scope N_scope.
(** What surrounds a directory: the budget it reserves from and who else holds
    its nodes. *)
Class Funding := {
  fund : Type;
  fund_reserve : BudgetKind → BudgetLane → N → fund → Try MemoryError () * fund;
  fund_shared : fund → bool * fund;
  fund_absorbs : fund → bool * fund;
}.
Definition MIN : nat := 16.
Definition MAX : nat := 32.
(** The bits of a [usize] over those of the least fanout, and two. *)
Definition MAX_LEVELS : nat := 18.

Inductive Node (K V : Type) :=
  | Leaves (links : list (Page K V)) (first : N) (pages level : nat)
  | Branches (links : list (Node K V)) (first : N) (pages level : nat).
Arguments Leaves {_ _} _ _ _ _.
Arguments Branches {_ _} _ _ _ _.
Record PageDirectory (K V : Type) := { pd_root : option (Node K V) }.
Arguments pd_root {_ _} _.
Definition node_first {K V} (n : Node K V) : N := match n with Leaves _ f _ _ | Branches _ f _ _ => f end.
Definition node_pages {K V} (n : Node K V) : nat := match n with Leaves _ _ c _ | Branches _ _ c _ => c end.
Definition node_level {K V} (n : Node K V) : nat := match n with Leaves _ _ _ l | Branches _ _ _ l => l end.
Definition node_width {K V} (n : Node K V) : nat :=
  match n with Leaves pages _ _ _ => length pages | Branches children _ _ _ => length children end.

(** ** Charges and builds *)
Record DirectoryBuild `{Funding} := { bd_lane : BudgetLane; bd_remaining : N; bd_fund : fund }.
Section Builds.
Context `{Funding, PageSizes}.
Definition Building : Type → Type := Fallible DirectoryBuild MemoryError.
Definition node_charge (width : nat) : Try MemoryError N :=
  words ← charge_mul 2 size_of_usize;
  node ← charge_add size_of_Node words;
  handles ← charge_mul (N.of_nat width) size_of_Handle;
  held ← charge_add node handles;
  overhead ← charge_mul 2 ALLOCATOR_OVERHEAD;
  charge_add held overhead.
Definition with_remaining (remaining : N) (b : DirectoryBuild) : DirectoryBuild :=
  {| bd_lane := bd_lane b; bd_remaining := remaining; bd_fund := bd_fund b |}.
Definition on_fund {A} (f : fund → A * fund) : DirectoryBuild → A * DirectoryBuild := λ b,
  let '(x, s) := f (bd_fund b) in (x, {| bd_lane := bd_lane b; bd_remaining := bd_remaining b; bd_fund := s |}).
Definition ask (f : fund → bool * fund) : Building bool := λ b, let '(x, b) := on_fund f b in (Ok x, b).
Definition allocate (bytes : N) : Building () :=
  held ← gets bd_remaining;
  remaining ← lift (or_fail (checked_sub held bytes) (MemoryError.Capacity bytes held));
  lane ← gets bd_lane;
  on_fund (fund_reserve BudgetKind.Roots lane bytes);;
  modify (with_remaining remaining).
Definition allocate_node (width : nat) : Building () := bytes ← lift (node_charge width); allocate bytes.
(** The most levels a directory of so many pages has. *)
Definition div_ceil (a b : nat) : nat := ((a + b - 1) / b)%nat.
Fixpoint levels_from (fuel pages levels : nat) : Try MemoryError nat :=
  match fuel with
  | O => mret levels
  | S fuel =>
      if decide (1 < pages)%nat then levels ← count_add levels 1; levels_from fuel (div_ceil pages MIN) levels
      else mret levels
  end.
Definition directory_levels (max_leaf_count : nat) : Try MemoryError nat :=
  levels ← levels_from 64 (Nat.max max_leaf_count 1) 2;
  refuse_if (MAX_LEVELS < levels)%nat (MemoryError.InvalidConfiguration "directory height exceeds supported bound");;
  mret levels.
Definition edit_bound (edits max_leaf_count : nat) : Try MemoryError N :=
  if decide (edits = 0%nat) then mret 0 else
  levels ← directory_levels max_leaf_count;
  six ← charge_mul 6 (N.of_nat levels);
  nodes ← charge_add six 2;
  full ← node_charge MAX;
  path ← charge_mul nodes full;
  charge_mul (N.of_nat edits) path.
End Builds.

(** ** Reads *)
Section Reads.
Context {K V : Type} `{RangeKey K}.
Implicit Types (n : Node K V) (p : Page K V) (d : PageDirectory K V) (k : K).
Definition directory_new : PageDirectory K V := {| pd_root := None |}.
Definition directory_len d : nat := match pd_root d with Some n => node_pages n | None => 0%nat end.
Definition directory_is_empty d : bool := bool_decide (pd_root d = None).
(** [child_at]: the child that holds a rank, and the rank within it. *)
Fixpoint child_at (children : list (Node K V)) (index rank : nat) (insertion : bool) : Try MemoryError (nat * nat) :=
  match children with
  | [] => Err MemoryError.MissingKey
  | child :: children =>
      if decide (rank < node_pages child ∨ insertion = true ∧ rank = node_pages child)%nat then mret (index, rank)
      else child_at children (S index) (rank - node_pages child)%nat insertion
  end.
(** [PageDirectory::get]: one level of fuel a level. *)
Fixpoint node_get (fuel : nat) n (index : nat) : option (Page K V) :=
  match n with
  | Leaves pages _ _ _ => pages !! index
  | Branches children _ _ _ =>
      match fuel, child_at children 0 index false with
      | S fuel, Ok (child, offset) => n ← children !! child; node_get fuel n offset
      | _, _ => None
      end
  end.
Definition directory_get d (index : nat) : option (Page K V) :=
  n ← pd_root d;
  if decide (node_pages n <= index)%nat then None else node_get MAX_LEVELS n index.
Definition directory_last d : option (Page K V) :=
  match directory_len d with O => None | S i => directory_get d i end.
Fixpoint first_page n : option (Page K V) :=
  match n with
  | Leaves pages _ _ _ => head pages
  | Branches children _ _ _ => match children with c :: _ => first_page c | [] => None end
  end.
Fixpoint last_page n : option (Page K V) :=
  match n with
  | Leaves pages _ _ _ => last pages
  | Branches children _ _ _ =>
      (fix go l := match l with [] => None | c :: l => match l with [] => last_page c | _ :: _ => go l end end) children
  end.
Definition first_key n : option K := p ← first_page n; e ← head (pg_entries p); Some (en_key e).
Definition last_key n : option K := p ← last_page n; e ← last (pg_entries p); Some (en_key e).
(** Whether a span that begins with this prefix and key begins at or before the
    sought key. *)
Definition at_or_before (first : N) (start : option K) (k : K) : bool :=
  (first <? order_prefix k)
  || ((first =? order_prefix k) && is_some_and (λ s, negb (bool_decide (cmp_past_prefix s k = Gt))) start).
Definition page_before k p : bool := at_or_before (pg_first p) (e ← head (pg_entries p); Some (en_key e)) k.
Definition child_before k n : bool := at_or_before (node_first n) (first_key n) k.
Fixpoint node_page_of (fuel : nat) n k : option (Page K V) :=
  match n with
  | Leaves pages _ _ _ => pages !! (partition_point (page_before k) pages - 1)%nat
  | Branches children _ _ _ =>
      match fuel with
      | S fuel => n ← children !! (partition_point (child_before k) children - 1)%nat; node_page_of fuel n k
      | O => None
      end
  end.
Definition page_of d k : option (Page K V) := n ← pd_root d; node_page_of MAX_LEVELS n k.
Record Located := { lc_rank : nat; lc_page : Page K V; lc_next : option (Page K V) }.
Fixpoint node_locate (fuel : nat) n k (rank : nat) (after : option (Node K V)) : option Located :=
  match n with
  | Leaves pages _ _ _ =>
      let local := (partition_point (page_before k) pages - 1)%nat in
      p ← pages !! local;
      Some {| lc_rank := rank + local; lc_page := p;
              lc_next := match pages !! S local with Some next => Some next | None => n ← after; first_page n end |}
  | Branches children _ _ _ =>
      let local := (partition_point (child_before k) children - 1)%nat in
      match fuel with
      | S fuel =>
          n ← children !! local;
          node_locate fuel n k (rank + sum_list (node_pages <$> take local children))
            (match children !! S local with Some sibling => Some sibling | None => after end)
      | O => None
      end
  end.
Definition locate d k : option Located := n ← pd_root d; node_locate MAX_LEVELS n k 0 None.
Definition page_index d k : nat := match locate d k with Some l => lc_rank l | None => 0%nat end.
End Reads.
Arguments Located : clear implicits.

(** A sequence with at most two replacements. *)
Record Splice (T : Type) := { sc_old : list T; sc_at : nat; sc_removed : nat; sc_inserted : list T }.
Arguments sc_old {_} _.
Arguments sc_at {_} _.
Arguments sc_removed {_} _.
Arguments sc_inserted {_} _.

(** ** Nodes *)
Section Edits.
Context {K V : Type} `{RangeKey K, Funding, PageSizes}.
Implicit Types (n : Node K V) (p : Page K V) (d : PageDirectory K V) (k : K).
Definition page_first_key p : option K := e ← head (pg_entries p); Some (en_key e).
Definition page_last_key p : option K := e ← last (pg_entries p); Some (en_key e).
(** The keys of a page rise strictly. *)
Fixpoint check_ascending (previous : option K) (entries : list (Entry K V)) : Try MemoryError () :=
  match entries with
  | [] => mret ()
  | e :: entries =>
      refuse_if (is_some_and (λ k, bool_decide (key_le (en_key e) k)) previous = true) MemoryError.InvalidNeighbors;;
      check_ascending (Some (en_key e)) entries
  end.
Definition check_between (left : option (Page K V)) p (right : option (Page K V)) : Try MemoryError () :=
  first ← or_fail (page_first_key p) (MemoryError.InvalidConfiguration "empty directory page");
  final ← or_fail (page_last_key p) (MemoryError.InvalidConfiguration "empty directory page");
  check_ascending None (pg_entries p);;
  refuse_if (is_some_and (λ k, bool_decide (key_le first k)) (left ≫= page_last_key) = true
             ∨ is_some_and (λ k, bool_decide (key_le k final)) (right ≫= page_first_key) = true)
    MemoryError.InvalidNeighbors.
(** The loop of [leaf]: [n] pages are left. *)
Fixpoint gather_pages (item : nat → option (Page K V)) (seam : nat → bool) (n index : nat) (pages : list (Page K V)) :
    Try MemoryError (list (Page K V)) :=
  match n with
  | O => mret pages
  | S n =>
      p ← or_fail (item index) (MemoryError.InvalidConfiguration "missing directory page");
      first ← or_fail (page_first_key p) (MemoryError.InvalidConfiguration "empty directory page");
      refuse_if (seam index && is_some_and (λ k, bool_decide (key_le first k)) (last pages ≫= page_last_key) = true)
        MemoryError.InvalidNeighbors;;
      gather_pages item seam n (S index) (pages ++ [p])
  end.
Definition leaf (count : nat) (item : nat → option (Page K V)) (seam : nat → bool) : Building (Node K V) :=
  lift (refuse_if (count = 0 ∨ MAX < count)%nat (MemoryError.InvalidConfiguration "invalid directory leaf width"));;
  allocate_node count;;
  pages ← lift (gather_pages item seam count 0 []);
  mret (Leaves pages (match head pages with Some p => pg_first p | None => 0 end) count 0).
(** The loop of [branch]: the children so far, their pages and their level. *)
Fixpoint gather_children (item : nat → option (Node K V)) (seam : nat → bool) (n index : nat)
    (children : list (Node K V)) (pages : nat) (level : option nat) : Try MemoryError (list (Node K V) * nat * option nat) :=
  match n with
  | O => mret (children, pages, level)
  | S n =>
      child ← or_fail (item index) (MemoryError.InvalidConfiguration "missing directory child");
      child_level ← count_add (node_level child) 1;
      refuse_if (node_pages child = 0%nat ∨ (MAX_LEVELS <= child_level)%nat
                 ∨ is_some_and (λ l, negb (bool_decide (child_level = l))) level = true)
        (MemoryError.InvalidConfiguration "invalid directory child height or count");;
      (if seam index then
         first ← or_fail (first_key child) (MemoryError.InvalidConfiguration "empty directory child");
         refuse_if (is_some_and (λ k, bool_decide (key_le first k)) (last children ≫= last_key) = true)
           MemoryError.InvalidNeighbors
       else mret ());;
      pages ← count_add pages (node_pages child);
      gather_children item seam n (S index) (children ++ [child]) pages (Some child_level)
  end.
Definition branch (count : nat) (item : nat → option (Node K V)) (seam : nat → bool) : Building (Node K V) :=
  lift (refuse_if (count = 0 ∨ MAX < count)%nat (MemoryError.InvalidConfiguration "invalid directory branch width"));;
  allocate_node count;;
  '(children, pages, level) ← lift (gather_children item seam count 0 [] 0 None);
  level ← lift (or_fail level (MemoryError.InvalidConfiguration "empty directory branch"));
  mret (Branches children (match head children with Some c => node_first c | None => 0 end) pages level).

Definition splice_new {T} (old : list T) (at_ removed : nat) (first second : option T) : Try MemoryError (Splice T) :=
  stop ← count_add at_ removed;
  refuse_if ((length old < stop)%nat ∨ first = None ∧ second ≠ None) (MemoryError.InvalidConfiguration "invalid directory splice");;
  mret {| sc_old := old; sc_at := at_; sc_removed := removed; sc_inserted := option_list first ++ option_list second |}.
Definition splice_len {T} (s : Splice T) : Try MemoryError nat :=
  count_add (length (sc_old s) - sc_removed s) (length (sc_inserted s)).
Definition splice_seam {T} (s : Splice T) (index : nat) : bool :=
  bool_decide (sc_at s <= index <= sc_at s + length (sc_inserted s))%nat.
Definition splice_get {T} (s : Splice T) (index : nat) : option T :=
  if decide (index < sc_at s)%nat then sc_old s !! index else
  let relative := (index - sc_at s)%nat in
  if decide (relative < length (sc_inserted s))%nat then sc_inserted s !! relative
  else sc_old s !! (index - length (sc_inserted s) + sc_removed s)%nat.
(** A node and, if it split, its right half. *)
Definition Split : Type := Node K V * option (Node K V).
Definition split_with {T} (make : nat → (nat → option T) → (nat → bool) → Building (Node K V)) (items : Splice T) : Building Split :=
  count ← lift (splice_len items);
  if decide (count <= MAX)%nat then
    n ← make count (splice_get items) (splice_seam items); mret (n, None)
  else
    lift (refuse_if (count ≠ MAX + 1)%nat (MemoryError.InvalidConfiguration "directory split width exceeded"));;
    lhs ← make MIN (splice_get items) (splice_seam items);
    rhs ← make (count - MIN)%nat (λ i, splice_get items (i + MIN)) (λ i, splice_seam items (i + MIN));
    mret (lhs, Some rhs).
Definition split_leaves : Splice (Page K V) → Building Split := split_with leaf.
Definition split_branches : Splice (Node K V) → Building Split := split_with branch.

(** ** Paths *)
(** [Descent::to_leaf]: the branches passed with the child taken, the leaf's
    pages and the rank within the leaf. *)
Fixpoint to_leaf (fuel : nat) n (rank : nat) (insertion : bool) :
    Try MemoryError (list (list (Node K V) * nat) * list (Page K V) * nat) :=
  match n with
  | Leaves pages _ _ _ => mret ([], pages, rank)
  | Branches children _ _ _ =>
      '(index, within) ← child_at children 0 rank insertion;
      child ← or_fail (children !! index) MemoryError.MissingKey;
      match fuel with
      | O => invalid "directory deeper than its levels"
      | S fuel =>
          '(steps, pages, rank) ← to_leaf fuel child within insertion;
          mret ((children, index) :: steps, pages, rank)
      end
  end.
(** A path rebuilt from the leaf up. *)
Fixpoint insert_upward (steps : list (list (Node K V) * nat)) (split : Split) : Building Split :=
  match steps with
  | [] => mret split
  | (children, index) :: steps =>
      items ← lift (splice_new children index 1 (Some split.1) split.2);
      split ← split_branches items;
      insert_upward steps split
  end.
Definition insert_node n (rank : nat) p : Building Split :=
  '(steps, pages, rank) ← lift (to_leaf MAX_LEVELS n rank true);
  items ← lift (splice_new pages rank 0 (Some p) None);
  split ← split_leaves items;
  insert_upward (rev steps) split.
Definition joined {T} (lhs rhs : list T) (index : nat) : option T :=
  if decide (index < length lhs)%nat then lhs !! index else rhs !! (index - length lhs)%nat.
Definition split_joined {T} (make : nat → (nat → option T) → (nat → bool) → Building (Node K V)) (lhs rhs : list T)
    (first_count second_count : nat) : Building Split :=
  first ← make first_count (joined lhs rhs) (λ _, true);
  if decide (second_count = 0%nat) then mret (first, None) else
  second ← make second_count (λ i, joined lhs rhs (i + first_count)) (λ _, true);
  mret (first, Some second).
Definition redistribute (lhs rhs : Node K V) (first_count : nat) : Building Split :=
  lift (refuse_if (node_level lhs ≠ node_level rhs) (MemoryError.InvalidConfiguration "directory sibling heights differ"));;
  total ← lift (count_add (node_width lhs) (node_width rhs));
  lift (refuse_if (total < first_count)%nat (MemoryError.InvalidConfiguration "invalid rebalance split"));;
  let second_count := (total - first_count)%nat in
  lift (refuse_if (¬ (MIN <= first_count <= MAX)%nat ∨ second_count ≠ 0%nat ∧ ¬ (MIN <= second_count <= MAX)%nat)
    (MemoryError.InvalidConfiguration "invalid directory rebalance occupancy"));;
  match lhs, rhs with
  | Leaves lhs _ _ _, Leaves rhs _ _ _ => split_joined leaf lhs rhs first_count second_count
  | Branches lhs _ _ _, Branches rhs _ _ _ => split_joined branch lhs rhs first_count second_count
  | _, _ => lift (invalid "directory sibling kinds differ")
  end.
(** Where the replaced span starts, its length, and what takes its place. *)
Definition Repaired : Type := nat * nat * option (Node K V) * option (Node K V).
Definition repair (children : list (Node K V)) (index : nat) (child : Node K V) : Building Repaired :=
  let lhs := match index with O => None | S i => children !! i end in
  let rhs := children !! S index in
  let with_left lhs width := '(first, second) ← redistribute lhs child width; mret ((index - 1)%nat, 2%nat, Some first, second) in
  let with_right rhs width := '(first, second) ← redistribute child rhs width; mret (index, 2%nat, Some first, second) in
  match filter (λ n, MIN < node_width n)%nat (option_list lhs), filter (λ n, MIN < node_width n)%nat (option_list rhs) with
  | lhs :: _, _ => with_left lhs (node_width lhs - 1)%nat
  | [], rhs :: _ => width ← lift (count_add (node_width child) 1); with_right rhs width
  | [], [] =>
      match lhs with
      | Some lhs => width ← lift (count_add (node_width lhs) (node_width child)); with_left lhs width
      | None =>
          rhs ← lift (or_fail rhs (MemoryError.InvalidConfiguration "missing directory rebalance sibling"));
          width ← lift (count_add (node_width child) (node_width rhs));
          with_right rhs width
      end
  end.
Definition node_or_none {T} (make : nat → (nat → option T) → (nat → bool) → Building (Node K V)) (items : Splice T) :
    Building (option (Node K V)) :=
  count ← lift (splice_len items);
  if decide (count = 0%nat) then mret None else
  n ← make count (splice_get items) (splice_seam items); mret (Some n).
Fixpoint remove_upward (steps : list (list (Node K V) * nat)) (node : option (Node K V)) : Building (option (Node K V)) :=
  match steps with
  | [] => mret node
  | (children, index) :: steps =>
      '(at_, removed, first, second) ←
        match node with
        | Some child =>
            if decide (node_width child < MIN ∧ 1 < length children)%nat then repair children index child
            else mret (index, 1%nat, Some child, None)
        | None => mret (index, 1%nat, None, None)
        end;
      items ← lift (splice_new children at_ removed first second);
      node ← node_or_none branch items;
      remove_upward steps node
  end.
Definition remove_node n (rank : nat) : Building (option (Node K V)) :=
  '(steps, pages, rank) ← lift (to_leaf MAX_LEVELS n rank false);
  items ← lift (splice_new pages rank 1 None None);
  node ← node_or_none leaf items;
  remove_upward (rev steps) node.

(** ** Edits *)
Definition check_page d (index : nat) p : Try MemoryError () :=
  check_between (match index with O => None | S i => directory_get d i end) p (directory_get d index).
Definition directory_insert d (index : nat) p : Building (PageDirectory K V) :=
  lift (refuse_if (directory_len d < index)%nat MemoryError.MissingKey);;
  lift (check_page d index p);;
  match pd_root d with
  | None => n ← leaf 1 (λ _, Some p) (λ _, true); mret {| pd_root := Some n |}
  | Some root =>
      '(lhs, rhs) ← insert_node root index p;
      match rhs with
      | None => mret {| pd_root := Some lhs |}
      | Some rhs => n ← branch 2 (λ i, [lhs; rhs] !! i) (λ _, true); mret {| pd_root := Some n |}
      end
  end.
(** A one-child root carries no information. *)
Fixpoint collapse n : Node K V :=
  match n with
  | Branches children _ _ _ => match children with [only] => collapse only | _ => n end
  | Leaves _ _ _ _ => n
  end.
Definition directory_remove d (index : nat) : Building (PageDirectory K V) :=
  root ← lift (or_fail (pd_root d) MemoryError.MissingKey);
  lift (refuse_if (node_pages root <= index)%nat MemoryError.MissingKey);;
  node ← remove_node root index;
  mret {| pd_root := collapse <$> node |}.
(** Where an edit goes. *)
Record Route := { rt_children : list nat; rt_rank : nat; rt_width : nat; rt_leftmost_from : nat }.
Definition route_of (steps : list (list (Node K V) * nat)) (rank width : nat) : Route :=
  let children := steps.*2 in
  {| rt_children := children; rt_rank := rank; rt_width := width;
     rt_leftmost_from := (length children - partition_point (λ c, bool_decide (c = 0%nat)) (rev children))%nat |}.
Definition route d (index : nat) (insertion : bool) p : Try MemoryError Route :=
  root ← or_fail (pd_root d) MemoryError.MissingKey;
  '(steps, pages, rank) ← to_leaf MAX_LEVELS root index insertion;
  let lhs := match rank with
              | S local => pages !! local
              | O => match index with O => None | S i => directory_get d i end
              end in
  '(after, next) ← (if insertion then mret (rank, index)
                    else after ← count_add rank 1; next ← count_add index 1; mret (after, next) : Try MemoryError (nat * nat));
  let rhs := match pages !! after with Some p => Some p | None => directory_get d next end in
  check_between lhs p rhs;;
  mret (route_of steps rank (length pages)).
Definition make_room (width : nat) : Building () :=
  allocate size_of_Handle;;
  absorbs ← ask fund_absorbs;
  if decide (absorbs = true) then mret () else allocate_node width.
(** [PageDirectory::own]: a shared node on the path is copied. *)
Fixpoint own (path : list nat) (grow : bool) n : Building () :=
  shared ← ask fund_shared;
  (if decide (shared = true) then allocate_node (node_width n) else mret ());;
  match n with
  | Leaves pages _ _ _ => if grow then make_room (length pages) else mret ()
  | Branches children _ _ _ =>
      match path with
      | [] => lift (invalid "directory deeper than an edit's route")
      | i :: path => child ← lift (or_fail (children !! i) MemoryError.MissingKey); own path grow child
      end
  end.
(** [PageDirectory::apply]: the nodes on the path count one more page, take the
    first prefix, and the leaf takes the edit. *)
Fixpoint apply_edit (path : list nat) (level : nat) (r : Route) (added : bool) (first : N)
    (edit : list (Page K V) → nat → Try MemoryError (list (Page K V))) n : Try MemoryError (Node K V) :=
  pages ← (if added then count_add (node_pages n) 1 else mret (node_pages n));
  let first' := if decide (rt_rank r = 0 ∧ rt_leftmost_from r <= level)%nat then first else node_first n in
  match n with
  | Leaves links _ _ l => links ← edit links (rt_rank r); mret (Leaves links first' pages l)
  | Branches children _ _ l =>
      match path with
      | [] => invalid "directory deeper than an edit's route"
      | i :: path =>
          child ← or_fail (children !! i) MemoryError.MissingKey;
          child ← apply_edit path (S level) r added first edit child;
          mret (Branches (<[i := child]> children) first' pages l)
      end
  end.
Definition edit_path d (r : Route) (grow added : bool) (first : N)
    (edit : list (Page K V) → nat → Try MemoryError (list (Page K V))) : Building (PageDirectory K V) :=
  root ← lift (or_fail (pd_root d) MemoryError.MissingKey);
  own (rt_children r) grow root;;
  root ← lift (apply_edit (rt_children r) 0 r added first edit root);
  mret {| pd_root := Some root |}.
Definition replace_owned d (index : nat) p : Building (PageDirectory K V) :=
  lift (refuse_if (directory_len d <= index)%nat MemoryError.MissingKey);;
  r ← lift (route d index false p);
  edit_path d r false false (pg_first p) (λ pages rank,
    or_fail (pages !! rank) MemoryError.MissingKey;; mret (<[rank := p]> pages)).
Definition insert_owned d (index : nat) p : Building (PageDirectory K V) :=
  lift (refuse_if (directory_len d < index)%nat MemoryError.MissingKey);;
  r ← (if pd_root d then r ← lift (route d index true p); mret (Some r) else mret None);
  match r with
  | Some r =>
      if decide (rt_width r < MAX)%nat then
        lift (count_add (directory_len d) 1);;
        edit_path d r true true (pg_first p) (λ pages rank,
          refuse_if (length pages < rank)%nat (MemoryError.InvalidConfiguration "directory leaf has no room for an insert");;
          mret (take rank pages ++ p :: drop rank pages))
      else directory_insert d index p
  | None => directory_insert d index p
  end.
Definition remove_owned : PageDirectory K V → nat → Building (PageDirectory K V) := directory_remove.
End Edits.

(** ** Iteration *)
Section Iteration.
Context {K V : Type}.
Record Iter := { it_stack : list (list (Node K V) * nat); it_pages : list (Page K V); it_offset : nat }.
(** [Iter::descend]: to the leaf that holds the rank, a frame a branch. *)
Fixpoint iter_descend (fuel : nat) (n : Node K V) (rank : nat) (it : Iter) : Iter :=
  match n with
  | Leaves pages _ _ _ => {| it_stack := it_stack it; it_pages := pages; it_offset := rank |}
  | Branches children _ _ _ =>
      match fuel, child_at children 0 rank false with
      | S fuel, Ok (index, offset) =>
          match children !! index with
          | Some child =>
              iter_descend fuel child offset
                {| it_stack := (children, S index) :: it_stack it; it_pages := it_pages it; it_offset := it_offset it |}
          | None => it
          end
      | _, _ => it
      end
  end.
Definition iter_new (root : option (Node K V)) (index : nat) : Iter :=
  let empty := {| it_stack := []; it_pages := []; it_offset := 0 |} in
  match root with
  | Some root => if decide (index < node_pages root)%nat then iter_descend MAX_LEVELS root index empty else empty
  | None => empty
  end.
(** The next leaf: frames whose children are used up are dropped. A leaf has a
    page, so one climb is enough. *)
Fixpoint iter_climb (stack : list (list (Node K V) * nat)) : option Iter :=
  match stack with
  | [] => None
  | (children, next) :: stack =>
      match children !! next with
      | Some child => Some (iter_descend (MAX_LEVELS - length stack - 1) child 0
          {| it_stack := (children, S next) :: stack; it_pages := []; it_offset := 0 |})
      | None => iter_climb stack
      end
  end.
Definition iter_next (it : Iter) : option (Page K V * Iter) :=
  let take_from it := p ← it_pages it !! it_offset it;
    Some (p, {| it_stack := it_stack it; it_pages := it_pages it; it_offset := S (it_offset it) |}) in
  match take_from it with
  | Some r => Some r
  | None => it ← iter_climb (it_stack it); take_from it
  end.
Fixpoint iter_collect (fuel : nat) (it : Iter) : list (Page K V) :=
  match fuel with
  | O => []
  | S fuel => match iter_next it with Some (p, it) => p :: iter_collect fuel it | None => [] end
  end.
Definition directory_from (d : PageDirectory K V) (index : nat) : list (Page K V) :=
  iter_collect (directory_len d) (iter_new (pd_root d) index).
End Iteration.
