(* ===== verification/PageTree.v ===== *)
(** * The directory as a list of pages

    [flat] is the list of pages of a tree in order. [shaped] is the shape of a
    directory: occupancy, levels, the counts and the prefixes that nodes cache.
    Every read of a shaped directory is a read of its list. *)
From stdpp Require Import prelude strings list sorting.
From Stdlib Require Import NArith.
From S2P Require Import Prelude Fallible Budget Pages PageDirectory.

(** ** Sorted lists *)
Section Sorted.
Context {A : Type} (R : A → A → Prop).
Lemma ssorted_app (l k : list A) :
  StronglySorted R (l ++ k) ↔ StronglySorted R l ∧ StronglySorted R k ∧ ∀ x y, x ∈ l → y ∈ k → R x y.
Proof.
  induction l as [|a l IH]; simpl.
  { split; [intros Hk; split_and!; [constructor|done|set_solver]|by intros (_ & Hk & _)]. }
  split.
  - intros [(Hl & Hk & Hx)%IH Ha]%StronglySorted_inv. rewrite Forall_app in Ha. destruct Ha as [Hal Hak].
    split_and!; [by constructor|done|]. rewrite Forall_forall in Hak. intros x y [->|Hxl]%elem_of_cons Hy; [by apply Hak|by apply Hx].
  - intros ([Hl Ha]%StronglySorted_inv & Hk & Hx). constructor.
    + apply IH. split_and!; [done|done|]. intros x y Hxl Hy. apply Hx; [by right|done].
    + apply Forall_app. split; [done|]. apply Forall_forall. intros y Hy. apply Hx; [left|done].
Qed.
End Sorted.

Section PartitionPoint.
Context {A : Type} (f : A → bool).
Implicit Types (l k : list A).
Lemma partition_point_le l : partition_point f l <= length l.
Proof. induction l as [|a l IH]; simpl; [lia|]. destruct (f a); lia. Qed.
Lemma partition_point_true l i x : i < partition_point f l → l !! i = Some x → f x = true.
Proof.
  revert i. induction l as [|a l IH]; intros i; simpl; [lia|]. destruct (f a) eqn:E; [|lia].
  destruct i as [|i]; simpl; [by intros _ [= <-]|]. intros. eapply IH; [|done]. lia.
Qed.
Lemma partition_point_false l x : l !! partition_point f l = Some x → f x = false.
Proof. induction l as [|a l IH]; simpl; [done|]. destruct (f a) eqn:E; [done|]. simpl. by intros [= <-]. Qed.
Lemma partition_point_app l k : (∀ x, x ∈ l → f x = true) → partition_point f (l ++ k) = length l + partition_point f k.
Proof.
  induction l as [|a l IH]; intros Hl; [done|]. simpl. rewrite (Hl a) by left. rewrite IH; [done|]. intros. apply Hl. by right.
Qed.
Lemma partition_point_stop l k : (∀ x, head k = Some x → f x = false) → partition_point f (l ++ k) = partition_point f l.
Proof.
  intros Hk. induction l as [|a l IH]; simpl; [|by rewrite IH]. destruct k as [|b k]; [done|]. simpl. by rewrite (Hk b).
Qed.
Lemma partition_point_unique l n : n <= length l → (∀ i x, i < n → l !! i = Some x → f x = true) →
  (∀ x, l !! n = Some x → f x = false) → partition_point f l = n.
Proof.
  revert n. induction l as [|a l IH]; intros n Hn Ht Hf; simpl in *; [lia|]. destruct n as [|n].
  - by rewrite (Hf a eq_refl).
  - rewrite (Ht 0 a) by (done || lia). f_equal. apply IH; [lia| |done]. intros i x Hi Hx. apply (Ht (S i)); [lia|done].
Qed.
Lemma partition_point_ext g l : (∀ x, x ∈ l → f x = g x) → partition_point f l = partition_point g l.
Proof. induction l as [|a l IH]; intros E; [done|]. simpl. rewrite (E a) by left. rewrite IH; [done|]. intros. apply E. by right. Qed.
Lemma partition_point_none l : (∀ x, x ∈ l → f x = false) → partition_point f l = 0.
Proof. destruct l as [|a l]; intros Hl; [done|]. simpl. by rewrite (Hl a) by left. Qed.
End PartitionPoint.

(** ** Lists of pages *)
Section PageLists.
Context {K V : Type} `{RangeKey K}.
Implicit Types (p : Page K V) (ps qs : list (Page K V)) (k : K).
Definition rows ps : list (Entry K V) := ps ≫= pg_entries.
Definition page_keys p : list K := en_key <$> pg_entries p.
Definition keys ps : list K := ps ≫= page_keys.
Definition page_sound p : Prop := ∃ k, page_first_key p = Some k ∧ pg_first p = order_prefix k.
(** Pages in key order, none empty, each with its cached prefix. *)
Definition ordered ps : Prop := Forall page_sound ps ∧ StronglySorted key_lt (keys ps).
Lemma keys_app ps qs : keys (ps ++ qs) = keys ps ++ keys qs.
Proof. apply bind_app. Qed.
Lemma rows_app ps qs : rows (ps ++ qs) = rows ps ++ rows qs.
Proof. apply bind_app. Qed.
Lemma keys_rows ps : keys ps = en_key <$> rows ps.
Proof. induction ps as [|p ps IH]; [done|]. change (keys (p :: ps)) with (page_keys p ++ keys ps). change (rows (p :: ps)) with (pg_entries p ++ rows ps). by rewrite IH, fmap_app. Qed.
Lemma ordered_app ps qs : ordered (ps ++ qs) ↔ ordered ps ∧ ordered qs ∧ ∀ x y, x ∈ keys ps → y ∈ keys qs → key_lt x y.
Proof. unfold ordered. rewrite Forall_app, keys_app, ssorted_app. naive_solver. Qed.
Lemma page_first_key_elem p k : page_first_key p = Some k → k ∈ page_keys p.
Proof.
  unfold page_first_key, page_keys. destruct (pg_entries p) as [|e l]; [done|]. simpl. intros [= <-]. left.
Qed.
Lemma page_last_key_elem p k : page_last_key p = Some k → k ∈ page_keys p.
Proof.
  unfold page_last_key, page_keys. destruct (last (pg_entries p)) as [e|] eqn:E; [|done]. simpl. intros [= <-].
  apply last_Some in E as [l ->]. rewrite fmap_app. set_solver.
Qed.
Lemma page_sound_last p : page_sound p → ∃ k, page_last_key p = Some k.
Proof.
  intros (k & Hk & _). unfold page_first_key, page_last_key in *. destruct (pg_entries p) as [|e l] eqn:E; [done|].
  rewrite last_cons. destruct (last l); by eexists.
Qed.
Lemma elem_of_keys ps k : k ∈ keys ps ↔ ∃ p, p ∈ ps ∧ k ∈ page_keys p.
Proof. unfold keys. rewrite list_elem_of_bind. naive_solver. Qed.
(** The first key of a page is the least of its keys, the last the greatest. *)
Lemma page_first_least p k k' : StronglySorted key_lt (page_keys p) → page_first_key p = Some k → k' ∈ page_keys p → key_le k k'.
Proof.
  unfold page_first_key, page_keys. destruct (pg_entries p) as [|e l]; [done|]. simpl. intros [_ Hs]%StronglySorted_inv [= <-].
  intros [->|Hin]%elem_of_cons; [done|]. rewrite Forall_forall in Hs. by apply Hs.
Qed.
(** Pages before the one that holds a key, and pages after it. *)
Definition starts_by k p : bool := is_some_and (λ s, bool_decide (key_le s k)) (page_first_key p).
Lemma starts_by_spec k p s : page_first_key p = Some s → starts_by k p = true ↔ key_le s k.
Proof. intros E. unfold starts_by. rewrite E. simpl. by rewrite bool_decide_eq_true. Qed.
End PageLists.

(** ** Trees *)
Section Trees.
Context {K V : Type} `{RangeKey K}.
Implicit Types (n c : Node K V) (cs : list (Node K V)) (p : Page K V) (ps : list (Page K V)).
Fixpoint flat n : list (Page K V) :=
  match n with Leaves pages _ _ _ => pages | Branches children _ _ _ => flat_map flat children end.
Definition leaf_node ps : Node K V := Leaves ps (match head ps with Some p => pg_first p | None => 0%N end) (length ps) 0.
Definition branch_node (l : nat) cs : Node K V :=
  Branches cs (match head cs with Some c => node_first c | None => 0%N end) (sum_list (node_pages <$> cs)) (S l).
(** A node of level [l]; below the root every node is at least half full. *)
Fixpoint shaped (l : nat) n : Prop :=
  match l with
  | O => ∃ ps, n = leaf_node ps ∧ 1 <= length ps <= MAX ∧ Forall page_sound ps
  | S l => ∃ cs, n = branch_node l cs ∧ 1 <= length cs <= MAX ∧ Forall (λ c, shaped l c ∧ MIN <= node_width c) cs
  end.
Lemma flat_map_app cs ds : flat_map flat (cs ++ ds) = flat_map flat cs ++ flat_map flat ds.
Proof. apply List.flat_map_app. Qed.
Lemma shaped_level l n : shaped l n → node_level n = l.
Proof. destruct l; [by intros (ps & -> & _)|by intros (cs & -> & _)]. Qed.
Lemma shaped_width l n : shaped l n → 1 <= node_width n <= MAX.
Proof. destruct l; [by intros (ps & -> & ? & _)|by intros (cs & -> & ? & _)]. Qed.
Lemma shaped_pages l n : shaped l n → node_pages n = length (flat n).
Proof.
  revert n. induction l as [|l IH]; intros n; [by intros (ps & -> & _)|]. intros (cs & -> & _ & Hcs). simpl.
  induction Hcs as [|c cs [Hc _] _ IHcs]; [done|]. change (node_pages c + sum_list (node_pages <$> cs) = length (flat c ++ flat_map flat cs)).
  by rewrite length_app, (IH c Hc), <-IHcs.
Qed.
Lemma shaped_children l cs : Forall (λ c, shaped l c ∧ MIN <= node_width c) cs →
  sum_list (node_pages <$> cs) = length (flat_map flat cs).
Proof.
  induction 1 as [|c cs [Hc _] _ IH]; [done|]. change (node_pages c + sum_list (node_pages <$> cs) = length (flat c ++ flat_map flat cs)).
  by rewrite length_app, (shaped_pages l c Hc), <-IH.
Qed.
Lemma shaped_nonempty l n : shaped l n → flat n ≠ [].
Proof.
  revert n. induction l as [|l IH]; intros n.
  - intros (ps & -> & Hlen & _). simpl. by destruct ps; [simpl in Hlen; lia|].
  - intros (cs & -> & Hlen & Hcs). destruct cs as [|c cs]; [simpl in Hlen; lia|]. simpl.
    apply Forall_cons in Hcs as [[Hc _] _]. intros [E _]%app_nil. by apply (IH c).
Qed.
Lemma shaped_sound l n : shaped l n → Forall page_sound (flat n).
Proof.
  revert n. induction l as [|l IH]; intros n; [by intros (ps & -> & _ & Hp)|]. intros (cs & -> & _ & Hcs). simpl.
  induction Hcs as [|c cs [Hc _] _ IHcs]; simpl; [done|]. apply Forall_app. split; [by apply IH|done].
Qed.
Lemma shaped_first_page l n : shaped l n → first_page n = head (flat n).
Proof.
  revert n. induction l as [|l IH]; intros n; [by intros (ps & -> & _)|]. intros (cs & -> & Hlen & Hcs).
  destruct cs as [|c cs]; [simpl in Hlen; lia|]. apply Forall_cons in Hcs as [[Hc _] _]. simpl. rewrite (IH c Hc).
  pose proof (shaped_nonempty l c Hc). by destruct (flat c).
Qed.
Lemma shaped_last_page l n : shaped l n → last_page n = last (flat n).
Proof.
  revert n. induction l as [|l IH]; intros n; [by intros (ps & -> & _)|]. intros (cs & -> & Hlen & Hcs). simpl.
  clear Hlen. induction Hcs as [|c cs [Hc _] Hcs IHcs]; [done|]. simpl. destruct cs as [|d cs].
  - simpl. rewrite app_nil_r. by apply IH.
  - rewrite IHcs, last_app. apply Forall_cons in Hcs as [[Hd _] _]. simpl. pose proof (shaped_nonempty l d Hd) as Hne.
    rewrite last_app. destruct (last (flat_map flat cs)) eqn:E1; [done|]. destruct (last (flat d)) eqn:E2; [done|].
    by apply last_None in E2.
Qed.
Lemma shaped_first l n p : shaped l n → head (flat n) = Some p → node_first n = pg_first p.
Proof.
  revert n. induction l as [|l IH]; intros n; [by intros (ps & -> & _); simpl; intros ->|]. intros (cs & -> & Hlen & Hcs).
  destruct cs as [|c cs]; [simpl in Hlen; lia|]. apply Forall_cons in Hcs as [[Hc _] _]. simpl.
  pose proof (shaped_nonempty l c Hc) as Hne. intros Hp. apply (IH c Hc). by destruct (flat c).
Qed.
Lemma shaped_first_key l n : shaped l n → first_key n = head (flat n) ≫= page_first_key.
Proof. intros Hs. unfold first_key, page_first_key. by rewrite (shaped_first_page l n Hs). Qed.
Lemma shaped_last_key l n : shaped l n → last_key n = last (flat n) ≫= page_last_key.
Proof. intros Hs. unfold last_key, page_last_key. by rewrite (shaped_last_page l n Hs). Qed.
(** A subtree of level [l] below the root has at least [MIN ^ (l + 1)] pages. *)
Lemma shaped_many l n : shaped l n → MIN <= node_width n → MIN ^ S l <= length (flat n).
Proof.
  assert (Hc : ∀ l' cs, (∀ c, shaped l' c → MIN <= node_width c → MIN ^ S l' <= length (flat c)) →
    Forall (λ c, shaped l' c ∧ MIN <= node_width c) cs → length cs * MIN ^ S l' <= length (flat_map flat cs)).
  { intros l' cs IH Hcs. induction Hcs as [|c cs [Hc Hw] _ IHcs]; cbn [length flat_map Nat.mul]; [lia|].
    rewrite length_app. specialize (IH c Hc Hw). lia. }
  revert n. induction l as [|l IH]; intros n.
  - intros (ps & -> & _) Hw. rewrite Nat.pow_1_r. done.
  - intros (cs & -> & _ & Hcs) Hw. simpl in Hw. specialize (Hc l cs IH Hcs). cbn [flat branch_node].
    change (MIN ^ S (S l)) with (MIN * MIN ^ S l). nia.
Qed.
Lemma children_many l cs : Forall (λ c, shaped l c ∧ MIN <= node_width c) cs → length cs * MIN ^ S l <= length (flat_map flat cs).
Proof.
  induction 1 as [|c cs [Hc Hw] _ IH]; cbn [length flat_map Nat.mul]; [lia|]. rewrite length_app. pose proof (shaped_many l c Hc Hw). lia.
Qed.
Lemma root_height l n : shaped l n → (l = 0 ∨ 2 <= node_width n) → (N.of_nat (length (flat n)) <= u64_max)%N → l <= 15.
Proof.
  intros Hs Hw Hu. destruct l as [|l]; [lia|]. destruct Hw as [|Hw]; [done|]. destruct Hs as (cs & -> & _ & Hcs). simpl in Hw.
  assert (Hlen : 2 * MIN ^ S l <= length (flat_map flat cs)).
  { transitivity (length cs * MIN ^ S l); [nia|]. by apply children_many. }
  simpl in Hu. destruct (decide (S l <= 15)) as [|Hge]; [done|]. exfalso.
  assert (Hpow : (2 * 16 ^ N.of_nat (S l) <= u64_max)%N).
  { etransitivity; [|exact Hu]. change 2%N with (N.of_nat 2). change 16%N with (N.of_nat MIN). rewrite <-Nat2N.inj_pow, <-Nat2N.inj_mul. lia. }
  assert (Hbig : (16 ^ 16 <= 16 ^ N.of_nat (S l))%N) by (apply N.pow_le_mono_r; lia).
  unfold u64_max in Hpow. change (2 ^ 64 - 1)%N with 18446744073709551615%N in Hpow.
  change (16 ^ 16)%N with 18446744073709551616%N in Hbig. lia.
Qed.
End Trees.

(** ** Reads by rank *)
Section Ranks.
Context {K V : Type} `{RangeKey K}.
Implicit Types (n c : Node K V) (cs : list (Node K V)).
Notation below l := (λ c, shaped l c ∧ MIN <= node_width c).
(** A rank within reach of [insertion]. *)
Definition reaches (ins : bool) (rank len : nat) : Prop := rank < len ∨ ins = true ∧ rank = len.
Lemma child_at_split l cs idx rank ins : Forall (below l) cs → cs ≠ [] → reaches ins rank (length (flat_map flat cs)) →
  ∃ pre c post r, cs = pre ++ c :: post ∧ child_at cs idx rank ins = Ok (idx + length pre, r) ∧
  rank = length (flat_map flat pre) + r ∧ reaches ins r (length (flat c)).
Proof.
  intros Hcs. revert idx rank. induction Hcs as [|c cs [Hc Hw] Hcs IH]; intros idx rank Hne Hr; [done|]. simpl.
  rewrite (shaped_pages l c Hc). case_decide as Hd.
  - exists [], c, cs, rank. split_and!; [done|simpl; f_equal; f_equal; lia|done|]. destruct Hd as [?|[? ?]]; [by left|by right].
  - simpl in Hr. rewrite length_app in Hr. destruct (decide (cs = [])) as [->|Hne'].
    { exfalso. simpl in Hr. apply Hd. destruct Hr as [?|[? ?]]; [left; lia|right; split; [done|lia]]. }
    destruct (IH (S idx) (rank - length (flat c)) Hne') as (pre & c' & post & r & -> & Hat & Hrank & Hr').
    { destruct Hr as [?|[? ?]]; [left; lia|right; split; [done|lia]]. }
    exists (c :: pre), c', post, r. split_and!; [done|rewrite Hat; simpl; f_equal; f_equal; lia| |done].
    simpl. rewrite length_app. assert (length (flat c) <= rank) by lia. lia.
Qed.
Lemma branch_lookup pre c post : (pre ++ c :: post) !! length pre = Some c.
Proof. by apply list_lookup_middle. Qed.
Lemma node_get_flat fuel l n index : shaped l n → l <= fuel → index < length (flat n) → node_get fuel n index = flat n !! index.
Proof.
  revert l n index. induction fuel as [|fuel IH]; intros [|l] n index Hs Hf Hi; [|lia| |].
  1-2: by destruct Hs as (ps & -> & _).
  destruct Hs as (cs & -> & Hlen & Hcs). simpl in Hi |- *.
  destruct (child_at_split l cs 0 index false Hcs) as (pre & c & post & r & -> & Hat & -> & Hr); [by destruct cs; simpl in Hlen; [lia|]|by left|].
  rewrite Hat. simpl. rewrite branch_lookup. simpl. apply Forall_app in Hcs as [_ [[Hc _] _]%Forall_cons].
  destruct Hr as [Hr|[? _]]; [|done]. rewrite (IH l c r Hc) by lia. rewrite flat_map_app. simpl.
  by rewrite lookup_app_r, lookup_app_l by lia; f_equal; lia.
Qed.
(** A directory: its pages in order under a shaped root. *)
Definition pages_of (d : PageDirectory K V) : list (Page K V) := match pd_root d with Some n => flat n | None => [] end.
Definition directory_sound (d : PageDirectory K V) : Prop :=
  ordered (pages_of d) ∧ (N.of_nat (length (pages_of d)) <= u64_max)%N ∧
  match pd_root d with None => True | Some n => ∃ l, shaped l n ∧ (l = 0 ∨ 2 <= node_width n) end.
Lemma sound_root d n : directory_sound d → pd_root d = Some n → ∃ l, shaped l n ∧ (l = 0 ∨ 2 <= node_width n) ∧ l <= 15.
Proof.
  intros (_ & Hu & Hr) E. unfold pages_of in Hu. rewrite E in Hu, Hr. destruct Hr as (l & Hs & Hw). exists l.
  split_and!; [done|done|]. by eapply root_height.
Qed.
Lemma sound_len d : directory_sound d → directory_len d = length (pages_of d).
Proof.
  intros (_ & _ & Hr). unfold directory_len, pages_of. destruct (pd_root d) as [n|]; [|done]. destruct Hr as (l & Hs & _).
  by apply shaped_pages with l.
Qed.
Lemma sound_empty d : directory_sound d → directory_is_empty d = bool_decide (pages_of d = []).
Proof.
  intros (_ & _ & Hr). unfold directory_is_empty, pages_of. destruct (pd_root d) as [n|]; [|done]. destruct Hr as (l & Hs & _).
  rewrite !bool_decide_false; [done| |done]. by apply shaped_nonempty with l.
Qed.
Lemma sound_get d index : directory_sound d → directory_get d index = pages_of d !! index.
Proof.
  intros Hd. pose proof Hd as (_ & _ & _). unfold directory_get. destruct (pd_root d) as [n|] eqn:E; cbn [mbind option_bind].
  - destruct (sound_root d n Hd E) as (l & Hs & _ & Hl). unfold pages_of. rewrite E. rewrite (shaped_pages l n Hs). case_decide.
    + symmetry. by apply lookup_ge_None_2.
    + apply node_get_flat with l; [done|unfold MAX_LEVELS; lia|lia].
  - unfold pages_of. by rewrite E.
Qed.
Lemma sound_last d : directory_sound d → directory_last d = last (pages_of d).
Proof.
  intros Hd. unfold directory_last. rewrite sound_len, last_lookup by done. destruct (length (pages_of d)) eqn:E; simpl.
  - by destruct (pages_of d).
  - by rewrite sound_get by done.
Qed.
End Ranks.

(** ** Reads by key *)
Section Keys.
#[local] Set Default Proof Using "All".
Context {K V : Type} `{RangeKeyLaws K}.
Implicit Types (n c : Node K V) (cs : list (Node K V)) (p : Page K V) (ps : list (Page K V)) (k : K).
Notation below l := (λ c, shaped l c ∧ MIN <= node_width c).
Lemma at_or_before_spec s k : at_or_before (order_prefix s) (Some s) k = bool_decide (key_le s k).
Proof.
  unfold at_or_before. simpl. destruct (N.lt_trichotomy (order_prefix s) (order_prefix k)) as [Hlt|[Heq|Hgt]].
  - rewrite (proj2 (N.ltb_lt _ _) Hlt). simpl. symmetry. apply bool_decide_eq_true. by apply prefix_agrees.
  - rewrite Heq, N.ltb_irrefl, N.eqb_refl, past_prefix_agrees by done. simpl. unfold key_cmp.
    case_decide as E; [subst; by rewrite (bool_decide_true (key_le k k))|]. case_decide as Hl.
    + simpl. symmetry. apply bool_decide_eq_true. apply Hl.
    + simpl. symmetry. apply bool_decide_eq_false. intros Hle. by apply Hl.
  - rewrite (proj2 (N.ltb_ge _ _)) by lia. rewrite (proj2 (N.eqb_neq _ _)) by lia. simpl. symmetry. apply bool_decide_eq_false.
    intros Hle. apply prefix_agrees in Hgt as [Hks Hne]. apply Hne. by apply (anti_symm key_le).
Qed.
Lemma page_before_spec k p : page_sound p → page_before k p = starts_by k p.
Proof.
  intros (s & Hs & Hf). unfold page_before, starts_by. fold (page_first_key p). rewrite Hs, Hf. simpl. apply at_or_before_spec.
Qed.
Lemma child_before_spec k l c p : shaped l c → head (flat c) = Some p → child_before k c = starts_by k p.
Proof.
  intros Hc Hp. unfold child_before. rewrite (shaped_first_key l c Hc), (shaped_first l c p Hc Hp), Hp. simpl.
  assert (page_sound p) as (s & Hs & Hf).
  { pose proof (shaped_sound l c Hc) as Hall. rewrite Forall_forall in Hall. apply Hall. by apply head_Some_elem_of. }
  unfold starts_by. rewrite Hs, Hf. simpl. apply at_or_before_spec.
Qed.
(** The rank of the page whose span holds a key: the last page that starts by it,
    or the first page. *)
Definition rank_of k ps : nat := partition_point (starts_by k) ps - 1.
Lemma rank_of_lt k ps : ps ≠ [] → rank_of k ps < length ps.
Proof. intros Hne. unfold rank_of. pose proof (partition_point_le (starts_by k) ps). destruct ps; [done|simpl in *; lia]. Qed.
(** Pages before one that starts by a key start by it. *)
Lemma ordered_starts k ps p qs : ordered (ps ++ p :: qs) → starts_by k p = true → ∀ q, q ∈ ps → starts_by k q = true.
Proof.
  intros Ho Hp q Hq. apply ordered_app in Ho as ([Hsp _] & [Hsq _] & Hx). rewrite Forall_forall in Hsp.
  destruct (Hsp q Hq) as (s & Hs & _). apply Forall_cons in Hsq as [(t & Ht & _) _].
  apply (starts_by_spec k p t Ht) in Hp. apply (starts_by_spec k q s Hs). etrans; [|exact Hp].
  apply Hx; apply elem_of_keys; [exists q|exists p]; (split; [done || left|by apply page_first_key_elem]).
Qed.
Lemma flat_head l cs c post p : Forall (below l) cs → cs = c :: post → head (flat c) = Some p → head (flat_map flat cs) = Some p.
Proof. intros _ -> Hp. simpl. by destruct (flat c). Qed.
(** One level of a descent by key. *)
Lemma descend_rank l k cs : Forall (below l) cs → cs ≠ [] → ordered (flat_map flat cs) →
  ∃ pre c post, cs = pre ++ c :: post ∧ partition_point (child_before k) cs - 1 = length pre ∧
  rank_of k (flat_map flat cs) = length (flat_map flat pre) + rank_of k (flat c).
Proof.
  intros Hcs Hne Ho. set (j := partition_point (child_before k) cs). pose proof (partition_point_le (child_before k) cs) as Hj. fold j in Hj.
  destruct (lookup_lt_is_Some_2 cs (j - 1)) as [c Hc]; [destruct cs; [done|simpl in *; lia]|].
  apply list_elem_of_split_length in Hc as (pre & post & Hcs' & Hlen). exists pre, c, post. split_and!; [done|lia|].
  rewrite Hcs' in Hcs, Ho |- *. rewrite flat_map_app in Ho |- *. simpl in Ho |- *.
  apply Forall_app in Hcs as [Hpre [[Hsc _] Hpost]%Forall_cons]. pose proof (shaped_nonempty l c Hsc) as Hnc.
  destruct (flat c) as [|p ps] eqn:Hflat; [done|]. clear Hnc.
  assert (Hcb : child_before k c = starts_by k p) by (eapply child_before_spec; [done|by rewrite Hflat]).
  assert (Hnext : 0 < j → ∀ q, head (flat_map flat post) = Some q → starts_by k q = false).
  { intros Hpos q Hq. destruct post as [|d post]; [done|]. apply Forall_cons in Hpost as [[Hd _] _].
    pose proof (shaped_nonempty l d Hd) as Hnd. assert (Hq' : head (flat d) = Some q) by (simpl in Hq; by destruct (flat d)).
    rewrite <-(child_before_spec k l d q Hd Hq'). apply (partition_point_false (child_before k) cs). fold j. rewrite Hcs'.
    replace j with (S (length pre)) by lia. rewrite lookup_app_r by lia. by replace (S (length pre) - length pre) with 1 by lia. }
  unfold rank_of. destruct (decide (j = 0)) as [Hz|Hnz].
  - assert (pre = []) as -> by (destruct pre; [done|simpl in Hlen; lia]). simpl.
    assert (Hf : starts_by k p = false).
    { rewrite <-Hcb. apply (partition_point_false (child_before k) cs). fold j. by rewrite Hz, Hcs'. }
    by rewrite Hf.
  - assert (Ht : starts_by k p = true).
    { rewrite <-Hcb. apply (partition_point_true (child_before k) cs (j - 1)); [fold j; lia|]. rewrite Hcs', Hlen. apply branch_lookup. }
    rewrite partition_point_app by (intros q Hq; by eapply ordered_starts).
    change ((p :: ps) ++ flat_map flat post) with (p :: (ps ++ flat_map flat post)). cbn [partition_point]. rewrite Ht.
    rewrite partition_point_stop by (apply Hnext; lia). lia.
Qed.
Lemma node_page_of_flat fuel l n k : shaped l n → l <= fuel → ordered (flat n) → node_page_of fuel n k = flat n !! rank_of k (flat n).
Proof.
  revert l n. induction fuel as [|fuel IH]; intros [|l] n Hs Hf Ho; [|lia| |].
  1-2: destruct Hs as (ps & -> & _ & Hp); cbn [node_page_of leaf_node flat]; unfold rank_of; do 2 f_equal;
       apply partition_point_ext; intros q Hq; apply page_before_spec; rewrite Forall_forall in Hp; by apply Hp.
  destruct Hs as (cs & -> & Hlen & Hcs). cbn [node_page_of branch_node flat] in Ho |- *.
  destruct (descend_rank l k cs Hcs) as (pre & c & post & -> & Hloc & Hrank); [by destruct cs; simpl in Hlen; [lia|]|done|].
  rewrite Hloc, branch_lookup, Hrank. simpl. apply Forall_app in Hcs as [_ [[Hc _] _]%Forall_cons].
  rewrite flat_map_app in Ho |- *. simpl in Ho |- *. apply ordered_app in Ho as (_ & (Hoc & _ & _)%ordered_app & _).
  rewrite (IH l c Hc) by (done || lia). pose proof (rank_of_lt k (flat c) (shaped_nonempty l c Hc)).
  by rewrite lookup_app_r, lookup_app_l by lia; f_equal; lia.
Qed.
Definition located_at k ps (rank : nat) (after : option (Page K V)) : option (Located K V) :=
  p ← ps !! rank_of k ps;
  Some {| lc_rank := rank + rank_of k ps; lc_page := p;
          lc_next := match ps !! S (rank_of k ps) with Some q => Some q | None => after end |}.
Lemma node_locate_flat fuel l n k rank after : shaped l n → l <= fuel → ordered (flat n) →
  node_locate fuel n k rank after = located_at k (flat n) rank (after ≫= first_page).
Proof.
  revert l n rank after. induction fuel as [|fuel IH]; intros [|l] n rank after Hs Hf Ho; [|lia| |].
  1-2: destruct Hs as (ps & -> & _ & Hp); cbn [node_locate leaf_node flat]; unfold located_at, rank_of;
       rewrite (partition_point_ext (page_before k) (starts_by k) ps)
         by (intros q Hq; apply page_before_spec; rewrite Forall_forall in Hp; by apply Hp); done.
  destruct Hs as (cs & -> & Hlen & Hcs). cbn [node_locate branch_node flat] in Ho |- *.
  destruct (descend_rank l k cs Hcs) as (pre & c & post & -> & Hloc & Hrank); [by destruct cs; simpl in Hlen; [lia|]|done|].
  pose proof (shaped_children l _ (proj1 (proj1 (Forall_app _ _ _) Hcs))) as Hsum.
  rewrite Hloc, branch_lookup. simpl. apply Forall_app in Hcs as [_ [[Hc _] Hpost]%Forall_cons].
  unfold located_at. rewrite Hrank. rewrite take_app_length, Hsum.
  rewrite flat_map_app in Ho |- *. simpl in Ho |- *. apply ordered_app in Ho as (_ & (Hoc & _ & _)%ordered_app & _).
  rewrite (IH l c) by (done || lia). unfold located_at. pose proof (rank_of_lt k (flat c) (shaped_nonempty l c Hc)) as Hlt.
  set (r := rank_of k (flat c)) in *. rewrite (lookup_app_r (flat_map flat pre) _ (length (flat_map flat pre) + r)) by lia.
  replace (length (flat_map flat pre) + r - length (flat_map flat pre)) with r by lia. rewrite (lookup_app_l (flat c) _ r) by lia.
  destruct (flat c !! r) as [p|]; [|done]. simpl. do 2 f_equal; [lia|].
  rewrite (lookup_app_r (flat_map flat pre)) by lia. replace (S (length (flat_map flat pre) + r) - length (flat_map flat pre)) with (S r) by lia.
  destruct (decide (S r < length (flat c))) as [Hin|Hout].
  - rewrite (lookup_app_l (flat c)) by lia. destruct (lookup_lt_is_Some_2 (flat c) (S r) Hin) as [q ->]. done.
  - rewrite (lookup_app_r (flat c)) by lia. replace (S r - length (flat c)) with 0 by lia.
    rewrite lookup_ge_None_2 by lia. replace (S (length pre)) with (length pre + 1) by lia. rewrite lookup_app_r by lia.
    replace (length pre + 1 - length pre) with 1 by lia. destruct post as [|d post]; [done|].
    simpl. apply Forall_cons in Hpost as [[Hd _] _]. rewrite (shaped_first_page l d Hd). pose proof (shaped_nonempty l d Hd).
    by destruct (flat d).
Qed.
Lemma sound_page_of d k : directory_sound d → page_of d k = pages_of d !! rank_of k (pages_of d).
Proof.
  intros Hd. pose proof Hd as [Ho _]. unfold page_of, pages_of in *. destruct (pd_root d) as [n|] eqn:E; [|done]. cbn [mbind option_bind].
  destruct (sound_root d n Hd E) as (l & Hs & _ & Hl). apply node_page_of_flat with l; [done|unfold MAX_LEVELS; lia|done].
Qed.
Lemma sound_locate d k : directory_sound d → locate d k = located_at k (pages_of d) 0 None.
Proof.
  intros Hd. pose proof Hd as [Ho _]. unfold locate, pages_of in *. destruct (pd_root d) as [n|] eqn:E; [|done]. cbn [mbind option_bind].
  destruct (sound_root d n Hd E) as (l & Hs & _ & Hl). rewrite (node_locate_flat _ l n) by (done || unfold MAX_LEVELS; lia). done.
Qed.
End Keys.

(** ** Iteration *)
Section Iterating.
Context {K V : Type} `{RangeKey K}.
Implicit Types (n c : Node K V) (it : Iter (K := K) (V := V)) (stack : list (list (Node K V) * nat)).
Notation below l := (λ c, shaped l c ∧ MIN <= node_width c).
(** What the frames still hold, and what an iterator still yields. *)
Fixpoint frames_rest stack : list (Page K V) :=
  match stack with [] => [] | (children, next) :: stack => flat_map flat (drop next children) ++ frames_rest stack end.
Definition iter_rest it : list (Page K V) := drop (it_offset it) (it_pages it) ++ frames_rest (it_stack it).
(** The frame above [length stack] others holds nodes that many levels down. *)
Fixpoint frames_ok (L : nat) stack : Prop :=
  match stack with
  | [] => True
  | (children, _) :: stack => length stack < L ∧ Forall (below (L - S (length stack))) children ∧ frames_ok L stack
  end.
Lemma iter_descend_rest L fuel l n rank it : shaped l n → l <= fuel → rank < length (flat n) →
  frames_ok L (it_stack it) → L = length (it_stack it) + l →
  let it' := iter_descend fuel n rank it in
  iter_rest it' = drop rank (flat n) ++ frames_rest (it_stack it) ∧ frames_ok L (it_stack it') ∧
  is_Some (it_pages it' !! it_offset it').
Proof.
  revert l n rank it. induction fuel as [|fuel IH]; intros [|l] n rank it Hs Hf Hr Hok HL; [|lia| |].
  1-2: destruct Hs as (ps & -> & _); split_and!; [done|done|by apply lookup_lt_is_Some_2].
  destruct Hs as (cs & -> & Hlen & Hcs). simpl in Hr |- *.
  destruct (child_at_split l cs 0 rank false Hcs) as (pre & c & post & r & -> & Hat & -> & Hr'); [by destruct cs; simpl in Hlen; [lia|]|by left|].
  rewrite Hat. simpl. rewrite branch_lookup. destruct Hr' as [Hr'|[? _]]; [|done].
  pose proof Hcs as [_ [[Hc _] _]%Forall_cons]%Forall_app.
  destruct (IH l c r {| it_stack := (pre ++ c :: post, S (length pre)) :: it_stack it; it_pages := it_pages it; it_offset := it_offset it |})
    as (Hrest & Hok' & Hsome); [done|lia|done| |simpl; lia|].
  { simpl. split_and!; [lia| |done]. by replace (L - S (length (it_stack it))) with l by lia. }
  rewrite Hrest. split_and!; [|done|done]. cbn [it_stack frames_rest]. rewrite flat_map_app, app_assoc. f_equal. simpl.
  rewrite (drop_app_ge (flat_map flat pre)) by lia. rewrite (drop_app_le (flat c)) by lia.
  replace (length (flat_map flat pre) + r - length (flat_map flat pre)) with r by lia. f_equal.
  rewrite (drop_app_ge pre) by lia. by replace (S (length pre) - length pre) with 1 by lia.
Qed.
Lemma iter_climb_rest L stack : frames_ok L stack → L <= MAX_LEVELS →
  match iter_climb stack with
  | Some it => iter_rest it = frames_rest stack ∧ frames_ok L (it_stack it) ∧ is_Some (it_pages it !! it_offset it)
  | None => frames_rest stack = []
  end.
Proof.
  induction stack as [|[children next] stack IH]; intros Hok HL; [done|]. destruct Hok as (Hlt & Hcs & Hok). cbn [iter_climb].
  destruct (children !! next) as [c|] eqn:Hc.
  - rewrite Forall_forall in Hcs. destruct (Hcs c) as [Hs _]; [by eapply list_elem_of_lookup_2|].
    destruct (iter_descend_rest L (MAX_LEVELS - length stack - 1) (L - S (length stack)) c 0
      {| it_stack := (children, S next) :: stack; it_pages := []; it_offset := 0 |}) as (Hrest & Hok' & Hsome);
      [done|lia| | |simpl; lia|].
    { pose proof (shaped_nonempty _ _ Hs). destruct (flat c); [done|simpl; lia]. }
    { simpl. split_and!; [done|by apply Forall_forall|done]. }
    rewrite Hrest. split_and!; [|done|done]. cbn [it_stack frames_rest]. rewrite (drop_S _ _ _ Hc). simpl. by rewrite app_assoc.
  - specialize (IH Hok HL). cbn [frames_rest]. rewrite (drop_ge children next) by (by apply lookup_ge_None_1).
    by destruct (iter_climb stack).
Qed.
Lemma iter_next_rest L it : frames_ok L (it_stack it) → L <= MAX_LEVELS →
  match iter_next it with
  | Some (p, it') => iter_rest it = p :: iter_rest it' ∧ frames_ok L (it_stack it')
  | None => iter_rest it = []
  end.
Proof.
  intros Hok HL. unfold iter_next. destruct (it_pages it !! it_offset it) as [p|] eqn:Hp; simpl.
  - split; [|done]. unfold iter_rest. simpl. by rewrite (drop_S _ _ _ Hp).
  - pose proof (iter_climb_rest L (it_stack it) Hok HL) as Hc. unfold iter_rest at 1 3.
    rewrite (drop_ge (it_pages it)) by (by apply lookup_ge_None_1). destruct (iter_climb (it_stack it)) as [it'|]; [|done]. simpl.
    destruct Hc as (Hrest & Hok' & [p Hp']). rewrite Hp'. simpl. split; [|done]. rewrite <-Hrest. unfold iter_rest. simpl.
    by rewrite (drop_S _ _ _ Hp').
Qed.
Lemma iter_collect_rest L fuel it : frames_ok L (it_stack it) → L <= MAX_LEVELS → length (iter_rest it) <= fuel →
  iter_collect fuel it = iter_rest it.
Proof.
  revert it. induction fuel as [|fuel IH]; intros it Hok HL Hlen; simpl; [by destruct (iter_rest it); [|simpl in Hlen; lia]|].
  pose proof (iter_next_rest L it Hok HL) as Hn. destruct (iter_next it) as [[p it']|]; [|done]. destruct Hn as [E Hok'].
  rewrite E. f_equal. apply IH; [done|done|]. rewrite E in Hlen. simpl in Hlen. lia.
Qed.
(** Iteration from a rank lists the pages from that rank. *)
Lemma sound_from (d : PageDirectory K V) index : directory_sound d → directory_from d index = drop index (pages_of d).
Proof.
  intros Hd. unfold directory_from. rewrite sound_len by done. unfold iter_new. destruct (pd_root d) as [n|] eqn:E.
  - destruct (sound_root d n Hd E) as (l & Hs & _ & Hl). unfold pages_of. rewrite E, (shaped_pages l n Hs). case_decide as Hlt.
    + destruct (iter_descend_rest l MAX_LEVELS l n index {| it_stack := []; it_pages := []; it_offset := 0 |}) as (Hrest & Hok & _);
        [done|unfold MAX_LEVELS; lia|done|done|done|]. rewrite app_nil_r in Hrest.
      rewrite <-Hrest. apply iter_collect_rest with l; [done|unfold MAX_LEVELS; lia|]. rewrite Hrest, length_drop. lia.
    + rewrite drop_ge by lia. by destruct (length (flat n)).
  - unfold pages_of. rewrite E. by rewrite drop_nil.
Qed.
End Iterating.
