(* ===== verification/PageEdits.v ===== *)
(** * Edits of the directory

    [builds c m P]: the build [m] yields a result that satisfies [P] and spends
    at most [c] of its byte bound, and it fails only where the budget refuses a
    reservation or the bound was less than [c]. Every edit of a sound directory
    builds a sound directory whose list of pages is edited alike. *)
From stdpp Require Import prelude strings list sorting.
From Stdlib Require Import NArith.
From S2P Require Import Prelude Fallible Budget Pages PagesLaws PageDirectory PageTree.

Section Calculus.
Context `{Funding, PageSizes}.
#[local] Open Scope N_scope.
Definition budget_refuses (e : MemoryError) : Prop := ∃ kind lane bytes s s', fund_reserve kind lane bytes s = (Err e, s').
Definition builds {A} (cost : N) (m : Building A) (P : A → Prop) : Prop := ∀ b,
  match m b with
  | (Ok x, b') => P x ∧ bd_remaining b <= bd_remaining b' + cost
  | (Err e, _) => budget_refuses e ∨ bd_remaining b < cost
  end.
Lemma builds_ret {A} c (x : A) (P : A → Prop) : P x → builds c (mret x) P.
Proof. intros HP b. simpl. split; [done|lia]. Qed.
Lemma builds_lift {A} (x : Try MemoryError A) a (P : A → Prop) : x = Ok a → P a → builds 0 (lift x) P.
Proof. intros -> HP b. simpl. split; [done|lia]. Qed.
Lemma builds_bind {A B} c c' (m : Building A) (k : A → Building B) (P : A → Prop) (Q : B → Prop) :
  builds c m P → (∀ x, P x → builds c' (k x) Q) → builds (c + c') (m ≫= k) Q.
Proof.
  intros Hm Hk b. specialize (Hm b). unfold mbind, fallible_bind. destruct (m b) as [[x|e] b1]; [|destruct Hm; [by left|right; lia]].
  destruct Hm as [HP Hr]. specialize (Hk x HP b1). destruct (k x b1) as [[y|e] b2]; [destruct Hk; split; [done|lia]|].
  destruct Hk; [by left|right; lia].
Qed.
Lemma builds_weaken {A} c c' (m : Building A) (P Q : A → Prop) :
  builds c m P → c <= c' → (∀ x, P x → Q x) → builds c' m Q.
Proof. intros Hm Hc HPQ b. specialize (Hm b). destruct (m b) as [[x|e] b1]; [split; [naive_solver|lia]|]. destruct Hm; [by left|right; lia]. Qed.
Lemma builds_eq {A} c (m m' : Building A) (P : A → Prop) : (∀ b, m b = m' b) → builds c m' P → builds c m P.
Proof. intros E Hm b. rewrite E. apply Hm. Qed.
(** A step that cannot fail, then the rest. *)
Lemma builds_lift_bind {A B} c (x : Try MemoryError A) a (k : A → Building B) Q : x = Ok a → builds c (k a) Q → builds c (lift x ≫= k) Q.
Proof. intros -> Hk. done. Qed.
Lemma builds_guard {B} c (P : Prop) `{Decision P} e (k : () → Building B) Q : ¬ P → builds c (k ()) Q → builds c (lift (refuse_if P e) ≫= k) Q.
Proof. intros HP Hk. eapply builds_lift_bind; [|exact Hk]. by apply refuse_if_ok. Qed.
Lemma builds_allocate bytes : builds bytes (allocate bytes) (λ _, True).
Proof.
  intros b. unfold allocate, gets, mbind, fallible_bind, lift. destruct (checked_sub (bd_remaining b) bytes) as [r|] eqn:E; simpl.
  - apply checked_sub_Some in E as [Hle ->]. unfold on_fund. destruct (fund_reserve _ _ _ (bd_fund b)) as [[[]|e] s] eqn:Er; simpl.
    + split; [done|lia].
    + left. by repeat eexists.
  - right. unfold checked_sub in E. destruct (N.leb_spec bytes (bd_remaining b)); [done|lia].
Qed.
Lemma builds_ask f : builds 0 (ask f) (λ _, True).
Proof. intros b. unfold ask, on_fund. destruct (f (bd_fund b)). simpl. split; [done|lia]. Qed.
Lemma node_charge_eq w : node_charge w =
  let bytes := size_of_Node + 16 + N.of_nat w * size_of_Handle + 64 in
  if bytes <=? u64_max then Ok bytes else Err (MemoryError.CounterExhausted "byte charge").
Proof.
  unfold node_charge, charge_mul, charge_add, checked_mul, checked_add. cbn zeta. change (2 * size_of_usize) with 16.
  change (2 * ALLOCATOR_OVERHEAD) with 64. change (16 <=? u64_max) with true. change (64 <=? u64_max) with true.
  cbn [or_fail mbind try_bind].
  repeat match goal with |- context [?x <=? u64_max] => destruct (N.leb_spec x u64_max); cbn [or_fail mbind try_bind]; try done; try lia end.
Qed.
Context (full : N) (Hfull : node_charge MAX = Ok full).
Lemma node_charge_ok w : (w <= MAX)%nat → ∃ c, node_charge w = Ok c ∧ c <= full.
Proof using Hfull.
  intros Hw. revert Hfull. rewrite !node_charge_eq. cbn zeta. destruct (N.leb_spec (size_of_Node + 16 + N.of_nat MAX * size_of_Handle + 64) u64_max); [|done].
  intros [= <-]. assert (N.of_nat w * size_of_Handle <= N.of_nat MAX * size_of_Handle) by (apply N.mul_le_mono_r; lia).
  rewrite (proj2 (N.leb_le _ _)) by lia. eexists. split; [done|lia].
Qed.
Lemma builds_node w : (w <= MAX)%nat → builds full (allocate_node w) (λ _, True).
Proof using Hfull.
  intros Hw. destruct (node_charge_ok w Hw) as (c & Hc & Hle). unfold allocate_node. eapply builds_lift_bind; [done|].
  eapply builds_weaken; [apply builds_allocate|done|done].
Qed.
Lemma handle_le_full : size_of_Handle <= full.
Proof using Hfull.
  revert Hfull. rewrite node_charge_eq. cbn zeta. destruct (_ <=? _); [|done]. intros [= <-]. unfold MAX. lia.
Qed.
End Calculus.

(** ** Splices *)
Definition splice_list {T} (s : Splice T) : list T := take (sc_at s) (sc_old s) ++ sc_inserted s ++ drop (sc_at s + sc_removed s) (sc_old s).
Lemma splice_get_list {T} (s : Splice T) i : sc_at s + sc_removed s <= length (sc_old s) → splice_get s i = splice_list s !! i.
Proof.
  intros Hle. unfold splice_get, splice_list. case_decide as Hb.
  - rewrite lookup_app_l by (rewrite length_take; lia). by rewrite lookup_take_lt.
  - rewrite lookup_app_r, length_take by (rewrite length_take; lia). rewrite Nat.min_l by lia. case_decide as Hc.
    + by rewrite lookup_app_l.
    + rewrite lookup_app_r, lookup_drop by lia. f_equal. lia.
Qed.
Lemma splice_len_ok {T} (s : Splice T) : sc_at s + sc_removed s <= length (sc_old s) → (N.of_nat (length (splice_list s)) <= u64_max)%N →
  splice_len s = Ok (length (splice_list s)).
Proof.
  intros Hle Hu. unfold splice_len. revert Hu. unfold splice_list. rewrite !length_app, length_take, length_drop, Nat.min_l by lia.
  intros Hu. rewrite count_add_ok by lia. f_equal. lia.
Qed.
Lemma splice_new_ok {T} (old : list T) at_ removed first second : at_ + removed <= length old → (N.of_nat (length old) <= u64_max)%N →
  (second ≠ None → first ≠ None) →
  splice_new old at_ removed first second = Ok {| sc_old := old; sc_at := at_; sc_removed := removed; sc_inserted := option_list first ++ option_list second |}.
Proof.
  intros Hle Hu Hs. unfold splice_new. rewrite count_add_ok by lia. simpl. unfold refuse_if. rewrite decide_False; [done|].
  intros [?|[? ?]]; [lia|naive_solver].
Qed.
Lemma small_count n : n <= 64 → (N.of_nat n <= u64_max)%N.
Proof. intros. transitivity 64%N; [lia|by vm_compute]. Qed.
Lemma joined_app {U} (l k : list U) i : joined l k i = (l ++ k) !! i.
Proof. unfold joined. case_decide; [by rewrite lookup_app_l|by rewrite lookup_app_r by lia]. Qed.

(** ** Making nodes *)
Section Making.
Context {K V : Type} `{RangeKey K, Funding, PageSizes}.
Context (full : N) (Hfull : node_charge MAX = Ok full).
#[local] Set Default Proof Using "All".
Implicit Types (n c : Node K V) (cs : list (Node K V)) (p : Page K V) (ps : list (Page K V)).
Notation below l := (λ c, shaped l c ∧ MIN <= node_width c).
(** Adjacent pages of an ordered list do not overlap. *)
Lemma ordered_seam ps p qs s t : ordered (ps ++ p :: qs) → page_first_key p = Some s → last ps ≫= page_last_key = Some t → ¬ key_le s t.
Proof.
  intros (_ & _ & Hx)%ordered_app Hs Ht Hle. destruct (last ps) as [q|] eqn:Hq; [|done]. simpl in Ht.
  assert (Hlt : key_lt t s).
  { apply Hx; apply elem_of_keys; [exists q|exists p]; split; [|by apply page_last_key_elem|left|by apply page_first_key_elem].
    apply last_Some in Hq as [l ->]. set_solver. }
  eapply key_lt_irrefl. by eapply key_lt_le_trans.
Qed.
Lemma gather_pages_ok item seam (rest acc : list (Page K V)) : ordered (acc ++ rest) →
  (∀ i, length acc <= i < length (acc ++ rest) → item i = (acc ++ rest) !! i) →
  gather_pages item seam (length rest) (length acc) acc = Ok (acc ++ rest).
Proof.
  revert acc. induction rest as [|p rest IH]; intros acc Ho Hitem; simpl; [by rewrite app_nil_r|].
  rewrite Hitem by (rewrite length_app; simpl; lia). rewrite list_lookup_middle by done. simpl.
  pose proof Ho as [[_ [(s & Hs & _) _]%Forall_cons]%Forall_app _]. rewrite Hs. simpl.
  unfold refuse_if. rewrite decide_False.
  - simpl. specialize (IH (acc ++ [p])). rewrite length_app in IH. simpl in IH. rewrite Nat.add_1_r, <-app_assoc in IH. apply IH; [done|].
    intros i Hi. apply Hitem. split; [lia|apply Hi].
  - rewrite andb_true_iff. intros [_ Ht]. unfold is_some_and in Ht. destruct (last acc ≫= page_last_key) as [t|] eqn:E; [|done].
    apply bool_decide_eq_true in Ht. by eapply ordered_seam.
Qed.
(** A way to make nodes: from a good list it makes its node, at the cost of one. *)
Definition maker {T} (make : nat → (nat → option T) → (nat → bool) → Building (Node K V)) (good : list T → Prop)
    (mk : list T → Node K V) : Prop := ∀ count item seam l,
  length l = count → 1 <= count <= MAX → (∀ i, i < count → item i = l !! i) → good l →
  builds full (make count item seam) (λ n, n = mk l).
Lemma leaf_maker : maker leaf ordered leaf_node.
Proof.
  intros count item seam l Hlen Hc Hitem Hgood. unfold leaf. eapply builds_lift_bind.
  { unfold refuse_if. by rewrite decide_False by lia. }
  replace full with (full + 0)%N by lia. eapply builds_bind; [apply builds_node; [done|lia]|]. intros _ _.
  pose proof (gather_pages_ok item seam l []) as Hg. simpl in Hg. eapply builds_lift_bind.
  - rewrite <-Hlen. apply Hg; [done|]. intros i Hi. apply Hitem. lia.
  - apply builds_ret. unfold leaf_node. by rewrite Hlen.
Qed.
Definition good_children (l : nat) cs : Prop :=
  Forall (below l) cs ∧ ordered (flat_map flat cs) ∧ (N.of_nat (length (flat_map flat cs)) <= u64_max)%N ∧ S l < MAX_LEVELS.
Lemma child_seam l cs c ds s t : Forall (below l) (cs ++ c :: ds) → ordered (flat_map flat (cs ++ c :: ds)) →
  first_key c = Some s → last cs ≫= last_key = Some t → ¬ key_le s t.
Proof.
  intros Hall Ho Hs Ht. destruct (last cs) as [d|] eqn:Hd; [|done]. simpl in Ht. apply last_Some in Hd as [cs' ->].
  rewrite <-app_assoc in Hall, Ho. rewrite flat_map_app in Ho. simpl in Hall, Ho. apply Forall_app in Hall as [_ Hall].
  apply Forall_cons in Hall as [[Hsd _] [[Hsc _] _]%Forall_cons].
  rewrite (shaped_first_key l c Hsc) in Hs. rewrite (shaped_last_key l d Hsd) in Ht.
  destruct (flat c) as [|p ps] eqn:Hc; [done|]. simpl in Hs.
  apply (ordered_seam (flat_map flat cs' ++ flat d) p (ps ++ flat_map flat ds) s t).
  - rewrite <-app_assoc. done.
  - done.
  - rewrite last_app. destruct (last (flat d)) eqn:E; done.
Qed.
Lemma gather_children_ok l item seam (rest acc : list (Node K V)) : good_children l (acc ++ rest) →
  (∀ i, length acc <= i < length (acc ++ rest) → item i = (acc ++ rest) !! i) →
  gather_children item seam (length rest) (length acc) acc (length (flat_map flat acc)) (if acc then None else Some (S l))
  = Ok (acc ++ rest, length (flat_map flat (acc ++ rest)), if acc ++ rest then None else Some (S l)).
Proof.
  revert acc. induction rest as [|c rest IH]; intros acc Hgood Hitem; cbn [gather_children length]; [by rewrite app_nil_r|].
  pose proof Hgood as (Hall & Ho & Hu & HL). pose proof Hall as [_ [[Hc _] _]%Forall_cons]%Forall_app.
  apply try_bind_ok. exists c. split; [rewrite Hitem by (rewrite length_app; simpl; lia); by rewrite list_lookup_middle|].
  apply try_bind_ok. exists (S l). split.
  { rewrite (shaped_level l c Hc), count_add_ok by (unfold MAX_LEVELS in HL; transitivity 18%N; [lia|by vm_compute]). by rewrite Nat.add_1_r. }
  apply try_bind_ok. exists (). split.
  { apply refuse_if_ok. pose proof (shaped_nonempty l c Hc). rewrite (shaped_pages l c Hc). intros [Hz|[Hz|Hz]]; [by destruct (flat c)|lia|].
    destruct acc; simpl in Hz; [done|]. by rewrite bool_decide_true in Hz. }
  apply try_bind_ok. exists (). split.
  { destruct (seam (length acc)); [|done]. pose proof (shaped_sound l c Hc) as Hp. pose proof (shaped_nonempty l c Hc) as Hne.
    destruct (first_key c) as [s|] eqn:Hs; simpl.
    - apply refuse_if_ok. unfold is_some_and. destruct (last acc ≫= last_key) as [t|] eqn:Ht; [|done].
      rewrite bool_decide_eq_true. by eapply child_seam.
    - rewrite (shaped_first_key l c Hc) in Hs. destruct (flat c) as [|p ps]; [done|]. simpl in Hs.
      apply Forall_cons in Hp as [(s & Hs' & _) _]. by rewrite Hs in Hs'. }
  assert (Hlen : length (flat_map flat acc) + length (flat c) = length (flat_map flat (acc ++ [c])))
    by (rewrite flat_map_app; simpl; rewrite app_nil_r, length_app; done).
  apply try_bind_ok. exists (length (flat_map flat (acc ++ [c]))). split.
  { rewrite (shaped_pages l c Hc), <-Hlen. apply count_add_ok. rewrite flat_map_app in Hu. simpl in Hu. rewrite !length_app in Hu. lia. }
  specialize (IH (acc ++ [c])). rewrite length_app in IH. simpl in IH. rewrite Nat.add_1_r, <-app_assoc in IH.
  assert ((if acc ++ [c] then None else Some (S l)) = Some (S l)) as Hif by (by destruct acc). rewrite Hif in IH.
  apply IH; [done|]. intros i Hi. apply Hitem. split; [lia|apply Hi].
Qed.
Lemma branch_maker l : maker branch (good_children l) (branch_node l).
Proof.
  intros count item seam cs Hlen Hc Hitem Hgood. unfold branch. eapply builds_lift_bind.
  { unfold refuse_if. by rewrite decide_False by lia. }
  replace full with (full + 0)%N by lia. eapply builds_bind; [apply builds_node; [done|lia]|]. intros _ _.
  pose proof (gather_children_ok l item seam cs [] Hgood) as Hg. simpl in Hg. eapply builds_lift_bind.
  - rewrite <-Hlen. apply Hg. intros i Hi. apply Hitem. lia.
  - eapply builds_lift_bind; [destruct cs; [simpl in Hlen; lia|done]|]. apply builds_ret. unfold branch_node.
    by rewrite (shaped_children l) by apply Hgood.
Qed.

(** ** Splits *)
Section Splits.
Context {T : Type} (make : nat → (nat → option T) → (nat → bool) → Building (Node K V)) (good : list T → Prop) (mk : list T → Node K V).
Context (Hmake : maker make good mk) (Hgood : ∀ l k, good (l ++ k) → good l ∧ good k).
Lemma split_with_ok items : sc_at items + sc_removed items <= length (sc_old items) → 1 <= length (splice_list items) <= MAX + 1 →
  good (splice_list items) →
  builds (2 * full) (split_with make items) (λ '(a, b), let L := splice_list items in
    match b with
    | None => a = mk L ∧ length L <= MAX
    | Some b => a = mk (take MIN L) ∧ b = mk (drop MIN L) ∧ length L = MAX + 1
    end).
Proof.
  intros Hle Hlen Hg. set (L := splice_list items) in *. unfold split_with. eapply builds_lift_bind.
  { apply splice_len_ok; [done|]. fold L. apply small_count. unfold MAX in Hlen. lia. }
  fold L. case_decide as Hd.
  - replace (2 * full)%N with (full + full)%N by lia. eapply builds_bind.
    { apply (Hmake _ _ _ L); [done|lia| |done]. intros i _. by apply splice_get_list. }
    intros n ->. apply builds_ret. done.
  - assert (E : length L = MAX + 1) by lia. apply builds_guard; [lia|].
    rewrite <-(take_drop MIN L) in Hg. apply Hgood in Hg as [Hg1 Hg2].
    replace (2 * full)%N with (full + (full + 0))%N by lia. eapply builds_bind.
    { apply (Hmake _ _ _ (take MIN L)); [|unfold MIN, MAX; lia| |done].
      - rewrite length_take. unfold MIN, MAX in *. lia.
      - intros i Hi. rewrite lookup_take_lt by done. by apply splice_get_list. }
    intros a ->. eapply builds_bind.
    { apply (Hmake _ _ _ (drop MIN L)); [by rewrite length_drop|unfold MIN, MAX in *; lia| |done].
      intros i Hi. rewrite lookup_drop, Nat.add_comm. by apply splice_get_list. }
    intros b ->. by apply builds_ret.
Qed.
Lemma split_joined_ok (l k : list T) first second : first + second = length (l ++ k) → 1 <= first <= MAX → second <= MAX → good (l ++ k) →
  builds (2 * full) (split_joined make l k first second) (λ '(a, b), a = mk (take first (l ++ k)) ∧
    b = if decide (second = 0) then None else Some (mk (drop first (l ++ k)))).
Proof.
  intros Hsum Hf Hs Hg. unfold split_joined. set (L := l ++ k) in *. rewrite <-(take_drop first L) in Hg. apply Hgood in Hg as [Hg1 Hg2].
  replace (2 * full)%N with (full + full)%N by lia. eapply builds_bind.
  { apply (Hmake _ _ _ (take first L)); [rewrite length_take; lia|lia| |done]. intros i Hi. rewrite joined_app, lookup_take_lt by done. done. }
  intros a ->. case_decide as Hd.
  - apply builds_ret. done.
  - replace full with (full + 0)%N by lia. eapply builds_bind.
    { apply (Hmake _ _ _ (drop first L)); [rewrite length_drop; lia|lia| |done]. intros i Hi. rewrite joined_app, lookup_drop. f_equal. lia. }
    intros b ->. by apply builds_ret.
Qed.
End Splits.
Lemma ordered_parts ps qs : ordered (ps ++ qs) → ordered ps ∧ ordered qs.
Proof using Type. by intros (? & ? & _)%ordered_app. Qed.
Lemma good_parts l cs ds : good_children l (cs ++ ds) → good_children l cs ∧ good_children l ds.
Proof using Type.
  intros (Hall & Ho & Hu & HL). rewrite flat_map_app in Ho, Hu. rewrite length_app in Hu. apply Forall_app in Hall as [? ?].
  apply ordered_parts in Ho as [? ?]. split; split_and!; try done; lia.
Qed.
Lemma leaf_shaped ps : ordered ps → 1 <= length ps <= MAX → shaped 0 (leaf_node ps).
Proof using Type. intros [Hp _] Hlen. by exists ps. Qed.
Lemma branch_shaped l cs : good_children l cs → 1 <= length cs <= MAX → shaped (S l) (branch_node l cs).
Proof using Type. intros (Hall & _) Hlen. by exists cs. Qed.

(** ** Insertion *)
Definition flats (b : option (Node K V)) : list (Page K V) := match b with Some n => flat n | None => [] end.
(** What an insertion makes of a node of level [l] and width [w]. *)
Definition inserted (l w : nat) (new : list (Page K V)) (s : Split (K := K) (V := V)) : Prop :=
  let '(a, b) := s in flat a ++ flats b = new ∧ shaped l a ∧
  match b with None => w <= node_width a | Some b => shaped l b ∧ MIN <= node_width a ∧ MIN <= node_width b end.
Lemma insert_upward_app (steps steps' : list (list (Node K V) * nat)) split b :
  insert_upward (steps ++ steps') split b = (insert_upward steps split ≫= insert_upward steps') b.
Proof using Type.
  revert split b. induction steps as [|[cs i] steps IH]; intros split b; [done|]. cbn [insert_upward app]. unfold mbind, fallible_bind, lift.
  destruct (splice_new cs i 1 (Some split.1) split.2) as [items|]; [|done]. destruct (split_branches items b) as [[s|] b1]; [|done]. apply IH.
Qed.
Lemma bind_upward (m : Building Split) (steps steps' : list (list (Node K V) * nat)) b :
  (m ≫= insert_upward (steps ++ steps')) b = ((m ≫= insert_upward steps) ≫= insert_upward steps') b.
Proof. unfold mbind, fallible_bind. destruct (m b) as [[s|] b1]; [|done]. apply insert_upward_app. Qed.
Lemma split_inserted {T} (mk : list T → Node K V) (expand : T → list (Page K V)) l w (L : list T) (s : Split (K := K) (V := V)) :
  (∀ k, flat (mk k) = flat_map expand k) → (∀ k, node_width (mk k) = length k) →
  (∀ k m, L = k ++ m → 1 <= length k <= MAX → shaped l (mk k)) → (∀ k m, L = k ++ m → 1 <= length m <= MAX → shaped l (mk m)) →
  1 <= length L → w <= length L →
  (let '(a, b) := s in match b with
    | None => a = mk L ∧ length L <= MAX
    | Some b => a = mk (take MIN L) ∧ b = mk (drop MIN L) ∧ length L = MAX + 1
    end) → inserted l w (flat_map expand L) s.
Proof.
  intros Hflat Hw Hk Hm Hone Hwl. destruct s as [a [b|]]; simpl.
  - intros (-> & -> & Hlen). rewrite !Hflat, !Hw, <-List.flat_map_app, take_drop. split; [done|].
    rewrite length_take, length_drop. unfold MIN, MAX in *. split_and!; [|apply (Hm (take 16 L)); [by rewrite take_drop|rewrite length_drop; lia]|lia|lia].
    apply (Hk _ (drop 16 L)); [by rewrite take_drop|rewrite length_take; lia].
  - intros [-> Hlen]. rewrite Hflat, Hw, app_nil_r. split_and!; [done|apply (Hk L []); [by rewrite app_nil_r|lia]|done].
Qed.
Lemma flat_map_single {A} (l : list A) : flat_map (λ x, [x]) l = l.
Proof using Type. induction l as [|x l IH]; simpl; congruence. Qed.
(** A page inserted into a leaf. *)
Lemma leaf_insert_ok ps rank p : 1 <= length ps <= MAX → rank <= length ps → ordered (take rank ps ++ p :: drop rank ps) →
  builds (2 * full) (items ← lift (splice_new ps rank 0 (Some p) None); split_leaves items)
    (inserted 0 (length ps) (take rank ps ++ p :: drop rank ps)).
Proof.
  intros Hlen Hr Ho. eapply builds_lift_bind; [apply splice_new_ok; [lia|apply small_count; unfold MAX in Hlen; lia|done]|].
  set (items := {| sc_old := ps; sc_at := rank; sc_removed := 0; sc_inserted := option_list (Some p) ++ option_list None |}).
  set (L := take rank ps ++ p :: drop rank ps) in *.
  assert (HL : splice_list items = L) by (unfold splice_list, items; simpl; by rewrite Nat.add_0_r).
  assert (HlenL : length L = S (length ps)) by (unfold L; rewrite length_app; cbn [length]; rewrite length_take, length_drop; lia).
  eapply builds_weaken; [apply (split_with_ok leaf ordered leaf_node leaf_maker); [apply ordered_parts|simpl; lia| |]|done|].
  - rewrite HL. lia.
  - by rewrite HL.
  - rewrite HL. intros s Hs. rewrite <-(flat_map_single L). apply (split_inserted leaf_node (λ x, [x])); [intros; by rewrite flat_map_single|done| | |lia|lia|done];
      intros k m E Hk; rewrite E in Ho; apply ordered_parts in Ho as [? ?]; by apply leaf_shaped.
Qed.
(** A child replaced by what an insertion made of it. *)
Lemma branch_insert_ok l pre c post new split : Forall (below l) (pre ++ c :: post) → length (pre ++ c :: post) <= MAX →
  inserted l (node_width c) new split → S l < MAX_LEVELS →
  let flat' := flat_map flat pre ++ new ++ flat_map flat post in
  ordered flat' → (N.of_nat (length flat') <= u64_max)%N →
  builds (2 * full) (insert_upward [(pre ++ c :: post, length pre)] split) (inserted (S l) (length (pre ++ c :: post)) flat').
Proof.
  intros Hall Hlen Hins HL flat' Ho Hu. destruct split as [a b]. destruct Hins as (Hfl & Hsa & Hab). cbn [insert_upward].
  apply Forall_app in Hall as [Hpre [[Hc Hcw] Hpost]%Forall_cons].
  eapply builds_lift_bind; [apply splice_new_ok; [rewrite length_app; simpl; lia|apply small_count; unfold MAX in Hlen; lia|done]|].
  set (items := {| sc_old := pre ++ c :: post; sc_at := length pre; sc_removed := 1; sc_inserted := option_list (Some (a, b).1) ++ option_list (a, b).2 |}).
  set (L := pre ++ (a :: option_list b) ++ post).
  assert (HL' : splice_list items = L).
  { unfold splice_list, items, L. simpl. rewrite take_app_length. rewrite drop_app_ge by lia. by replace (length pre + 1 - length pre) with 1 by lia. }
  assert (Hflat : flat_map flat L = flat').
  { unfold L, flat'. rewrite !flat_map_app, <-Hfl. simpl. destruct b; simpl; by rewrite ?app_nil_r, <-?app_assoc. }
  assert (Hgood : good_children l L).
  { split_and!; [|by rewrite Hflat|by rewrite Hflat|done]. repeat apply Forall_app_2; [done| |done].
    destruct b as [b|]; simpl in Hab; [destruct Hab as (? & ? & ?); by repeat constructor|]. constructor; [|done]. split; [done|lia]. }
  assert (HlenL : length L = length pre + S (length (option_list b)) + length post) by (unfold L; rewrite !length_app; simpl; lia).
  rewrite length_app in Hlen |- *. cbn [length] in Hlen |- *. assert (Hb1 : length (option_list b) <= 1) by (destruct b; simpl; lia).
  replace (2 * full)%N with (2 * full + 0)%N by lia. eapply builds_bind.
  { apply (split_with_ok branch (good_children l) (branch_node l) (branch_maker l)); [apply good_parts| |rewrite HL'; lia|by rewrite HL'].
    simpl. rewrite length_app. simpl. lia. }
  rewrite HL'. intros s Hsp. apply builds_ret. rewrite <-Hflat.
  apply (split_inserted (branch_node l) flat); [done|done| | |lia|lia|done];
    intros k m E Hk; rewrite E in Hgood; apply good_parts in Hgood as [? ?]; by apply branch_shaped.
Qed.
Definition insert_at (rank : nat) p ps : list (Page K V) := take rank ps ++ p :: drop rank ps.
Lemma length_insert_at rank p ps : rank <= length ps → length (insert_at rank p ps) = S (length ps).
Proof using Type. intros. unfold insert_at. rewrite length_app. cbn [length]. rewrite length_take, length_drop. lia. Qed.
Lemma insert_at_middle ps qs rs r p : r <= length qs → insert_at (length ps + r) p (ps ++ qs ++ rs) = ps ++ insert_at r p qs ++ rs.
Proof using Type.
  intros Hr. unfold insert_at. rewrite take_app_ge, drop_app_ge by lia. replace (length ps + r - length ps) with r by lia.
  rewrite take_app_le, drop_app_le by done. by rewrite <-!app_assoc.
Qed.
Lemma insert_ok fuel l n rank p : shaped l n → l <= fuel → l < MAX_LEVELS → rank <= length (flat n) →
  ordered (insert_at rank p (flat n)) → (N.of_nat (S (length (flat n))) <= u64_max)%N →
  ∃ steps pages r, to_leaf fuel n rank true = Ok (steps, pages, r) ∧
  builds (2 * N.of_nat (S l) * full)
    (split ← (items ← lift (splice_new pages r 0 (Some p) None); split_leaves items); insert_upward (rev steps) split)
    (inserted l (node_width n) (insert_at rank p (flat n))).
Proof.
  revert l n rank. induction fuel as [|fuel IH]; intros [|l] n rank Hs Hf HL Hr Ho Hu; [|lia| |].
  1-2: destruct Hs as (ps & -> & Hlen & Hp); exists [], ps, rank; split; [done|]; cbn [leaf_node flat node_width] in *;
    replace (2 * N.of_nat 1 * full)%N with (2 * full + 0)%N by lia; eapply builds_bind; [by apply leaf_insert_ok|]; intros s Hs; by apply builds_ret.
  destruct Hs as (cs & -> & Hlen & Hcs). cbn [branch_node flat node_width] in *.
  destruct (child_at_split l cs 0 rank true Hcs) as (pre & c & post & r & -> & Hat & -> & Hr').
  { by destruct cs; simpl in Hlen; [lia|]. }
  { destruct (decide (rank < length (flat_map flat cs))); [by left|right; split; [done|lia]]. }
  pose proof Hcs as [_ [[Hc Hcw] _]%Forall_cons]%Forall_app. assert (Hrc : r <= length (flat c)) by (destruct Hr' as [?|[_ ->]]; lia).
  rewrite flat_map_app in Ho, Hu, Hr |- *. cbn [flat_map] in Ho, Hu, Hr |- *. rewrite insert_at_middle in Ho |- * by done.
  apply ordered_app in Ho as Ho'. destruct Ho' as (_ & (Hoc & _ & _)%ordered_app & _). rewrite !length_app in Hu.
  destruct (IH l c r Hc ltac:(lia) ltac:(lia) Hrc Hoc ltac:(lia)) as (steps & pages & r' & Hto & Hb).
  exists ((pre ++ c :: post, length pre) :: steps), pages, r'. split.
  { cbn [to_leaf branch_node]. rewrite Hat. simpl. rewrite branch_lookup. simpl. by rewrite Hto. }
  cbn [rev]. eapply builds_eq; [intros b; etrans; [apply bind_upward|done]|].
  replace (2 * N.of_nat (S (S l)) * full)%N with (2 * N.of_nat (S l) * full + 2 * full)%N by lia.
  eapply builds_bind; [exact Hb|]. intros s Hs. apply branch_insert_ok; [done|lia|done|done|done|].
  rewrite !length_app, length_insert_at by done. lia.
Qed.

(** ** Removal *)
Definition remove_at (rank : nat) ps : list (Page K V) := take rank ps ++ drop (S rank) ps.
Lemma remove_at_middle ps qs rs r : r < length qs → remove_at (length ps + r) (ps ++ qs ++ rs) = ps ++ remove_at r qs ++ rs.
Proof using Type.
  intros Hr. unfold remove_at. rewrite take_app_ge, drop_app_ge by lia. replace (length ps + r - length ps) with r by lia.
  replace (S (length ps + r) - length ps) with (S r) by lia. rewrite take_app_le, drop_app_le by lia. by rewrite <-!app_assoc.
Qed.
Lemma length_remove_at rank ps : rank < length ps → S (length (remove_at rank ps)) = length ps.
Proof using Type. intros. unfold remove_at. rewrite length_app, length_take, length_drop. lia. Qed.
Lemma ordered_remove_at rank ps : ordered ps → ordered (remove_at rank ps).
Proof using Type.
  intros Ho. unfold remove_at. destruct (ps !! rank) as [p|] eqn:E.
  - rewrite <-(take_drop_middle ps rank p E) in Ho at 1. change (p :: drop (S rank) ps) with ([p] ++ drop (S rank) ps) in Ho.
    apply ordered_app in Ho as (Hl & (_ & Hr & _)%ordered_app & Hx). apply ordered_app. split_and!; [done|done|].
    intros x y Hxl Hy. apply Hx; [done|]. rewrite keys_app. apply elem_of_app. by right.
  - apply lookup_ge_None in E. rewrite take_ge, drop_ge, app_nil_r by lia. done.
Qed.
(** What a removal makes of a node of level [l] and width [w]. *)
Definition removed (l w : nat) (new : list (Page K V)) (o : option (Node K V)) : Prop :=
  match o with None => new = [] ∧ w <= 1 | Some n => flat n = new ∧ shaped l n ∧ w <= S (node_width n) end.
Definition both (l : nat) (s : Split (K := K) (V := V)) : Prop := Forall (below l) (s.1 :: option_list s.2).
Lemma joined_both {T} make good (mk : list T → Node K V) (expand : T → list (Page K V)) l lhs rhs first :
  maker make good mk → (∀ k m, good (k ++ m) → good k ∧ good m) → (∀ k, flat (mk k) = flat_map expand k) →
  (∀ k, node_width (mk k) = length k) → (∀ k, good k → 1 <= length k <= MAX → shaped l (mk k)) → good (lhs ++ rhs) →
  MIN <= first <= MAX → let second := length lhs + length rhs - first in first <= length lhs + length rhs → (second = 0 ∨ MIN <= second <= MAX) →
  builds (2 * full) (split_joined make lhs rhs first second)
    (λ s, flat s.1 ++ flats s.2 = flat_map expand (lhs ++ rhs) ∧ both l s ∧ (second = 0 ↔ s.2 = None)).
Proof.
  intros Hmake Hgood Hflat Hw Hsh Hg Hfirst second Hle Hsecond.
  assert (Hlen : length (lhs ++ rhs) = length lhs + length rhs) by apply length_app.
  eapply builds_weaken; [eapply split_joined_ok; [done|done| | | |done]|done|].
  1-3: unfold second, MIN, MAX in *; lia.
  set (L := lhs ++ rhs) in *. rewrite <-(take_drop first L) in Hg. apply Hgood in Hg as [Hg1 Hg2].
  assert (below l (mk (take first L))).
  { rewrite Hw, length_take. split; [apply Hsh; [done|rewrite length_take; unfold MIN, MAX in *; lia]|lia]. }
  intros [a b] [-> ->]. unfold both. simpl. case_decide as Hd; simpl.
  - rewrite Hflat, app_nil_r, take_ge by (unfold second in Hd; lia). split_and!; [done|repeat constructor|done]. 
    1-2: rewrite take_ge in * by (unfold second in Hd; lia); naive_solver.
  - rewrite !Hflat, <-List.flat_map_app, take_drop. split_and!; [done| |done]. constructor; [done|]. constructor; [|done].
    rewrite Hw, length_drop. split; [apply Hsh; [done|rewrite length_drop]|]; unfold second, MIN, MAX in *; lia.
Qed.
Lemma redistribute_ok l lhs rhs first : shaped l lhs → shaped l rhs → ordered (flat lhs ++ flat rhs) →
  (N.of_nat (length (flat lhs ++ flat rhs)) <= u64_max)%N → l < MAX_LEVELS → MIN <= first <= MAX →
  let second := node_width lhs + node_width rhs - first in first <= node_width lhs + node_width rhs → (second = 0 ∨ MIN <= second <= MAX) →
  builds (2 * full) (redistribute lhs rhs first)
    (λ s, flat s.1 ++ flats s.2 = flat lhs ++ flat rhs ∧ both l s ∧ (second = 0 ↔ s.2 = None)).
Proof.
  intros Hsl Hsr Ho Hu HL Hf second Hle Hsec. unfold redistribute.
  pose proof (shaped_width l lhs Hsl) as Hwl. pose proof (shaped_width l rhs Hsr) as Hwr.
  apply builds_guard; [rewrite (shaped_level l lhs Hsl), (shaped_level l rhs Hsr); naive_solver|].
  eapply builds_lift_bind; [apply count_add_ok, small_count; unfold MAX in *; lia|].
  apply builds_guard; [lia|]. fold second. apply builds_guard; [lia|]. destruct l as [|l].
  - destruct Hsl as (ps & -> & Hlp & _), Hsr as (qs & -> & Hlq & _). cbn [leaf_node flat node_width] in *.
    change (flat (leaf_node ps)) with ps. change (flat (leaf_node qs)) with qs.
    eapply builds_weaken; [apply (joined_both leaf ordered leaf_node (λ x, [x]) 0 ps qs first); try done|done|by rewrite flat_map_single].
    + apply leaf_maker.
    + apply ordered_parts.
    + intros. by rewrite flat_map_single.
    + intros. by apply leaf_shaped.
  - destruct Hsl as (cs & -> & Hlp & Hcs), Hsr as (ds & -> & Hlq & Hds). cbn [branch_node flat node_width] in *.
    rewrite <-flat_map_app in Ho, Hu |- *. apply (joined_both branch (good_children l) (branch_node l) flat (S l)); try done.
    + apply branch_maker.
    + apply good_parts.
    + intros. by apply branch_shaped.
    + split_and!; [by apply Forall_app|done|done|lia].
Qed.
(** The children of a node after one of them changed, and a neighbour with it. *)
Definition repaired (l : nat) cs (new : list (Page K V)) (r : Repaired (K := K) (V := V)) : Prop :=
  let '(at_, gone, first, second) := r in ∃ pre old post,
  cs = pre ++ old ++ post ∧ at_ = length pre ∧ gone = length old ∧
  let made := option_list first ++ option_list second in
  flat_map flat (pre ++ made ++ post) = new ∧ Forall (below l) (pre ++ made ++ post) ∧ first ≠ None ∧
  length made <= length old <= S (length made).
Lemma repaired_pair l pre d e post new lhs rhs first : Forall (below l) (pre ++ d :: e :: post) → l < MAX_LEVELS →
  flat_map flat pre ++ (flat lhs ++ flat rhs) ++ flat_map flat post = new → ordered new → (N.of_nat (length new) <= u64_max)%N →
  shaped l lhs → shaped l rhs → MIN <= first <= MAX → first <= node_width lhs + node_width rhs →
  (node_width lhs + node_width rhs - first = 0 ∨ MIN <= node_width lhs + node_width rhs - first <= MAX) →
  builds (2 * full) ('(first, second) ← redistribute lhs rhs first; mret (length pre, 2, Some first, second))
    (repaired l (pre ++ d :: e :: post) new).
Proof.
  intros Hall HL Hnew Ho Hu Hsl Hsr Hf Hle Hsec. replace (2 * full)%N with (2 * full + 0)%N by lia.
  pose proof Ho as Ho'. rewrite <-Hnew in Ho', Hu. apply ordered_app in Ho' as (_ & (Hom & _ & _)%ordered_app & _).
  eapply builds_bind; [apply (redistribute_ok l); try done|].
  { rewrite !length_app in Hu. rewrite length_app. lia. }
  intros [a b] (Hfl & Hb & Hz). apply builds_ret. apply Forall_app in Hall as [Hpre [_ [_ Hpost]%Forall_cons]%Forall_cons].
  exists pre, [d; e], post. simpl in *. split_and!; [done|done|done| | |done|destruct b; simpl; lia|destruct b; simpl; lia].
  - rewrite <-Hnew, <-Hfl, flat_map_app. simpl. destruct b; simpl; by rewrite ?app_nil_r, <-?app_assoc.
  - apply Forall_app_2; [done|]. by apply (Forall_app_2 _ (a :: option_list b)).
Qed.
Lemma repaired_left l pre d c post child new : Forall (below l) (pre ++ d :: c :: post) → l < MAX_LEVELS →
  flat_map flat (pre ++ [d]) ++ flat child ++ flat_map flat post = new → ordered new → (N.of_nat (length new) <= u64_max)%N →
  shaped l child → node_width child = 15 → ∀ width, width = (if decide (MIN < node_width d) then node_width d - 1 else node_width d + node_width child) →
  builds (2 * full) ('(first, second) ← redistribute d child width; mret (length (pre ++ [d]) - 1, 2, Some first, second))
    (repaired l (pre ++ d :: c :: post) new).
Proof.
  intros Hall HL Hnew Ho Hu Hsc Hw width ->. pose proof Hall as [_ [[Hd Hdw] _]%Forall_cons]%Forall_app.
  pose proof (shaped_width l d Hd). rewrite flat_map_app in Hnew. simpl in Hnew. rewrite app_nil_r, <-app_assoc in Hnew.
  replace (length (pre ++ [d]) - 1) with (length pre) by (rewrite length_app; simpl; lia).
  apply repaired_pair; try done; [by rewrite <-app_assoc| | |]; case_decide; unfold MIN, MAX in *; lia.
Qed.
Lemma repaired_right l pre c d post child new : Forall (below l) (pre ++ c :: d :: post) → l < MAX_LEVELS →
  flat_map flat pre ++ flat child ++ flat_map flat (d :: post) = new → ordered new → (N.of_nat (length new) <= u64_max)%N →
  shaped l child → node_width child = 15 → ∀ width, width = (if decide (MIN < node_width d) then node_width child + 1 else node_width child + node_width d) →
  builds (2 * full) ('(first, second) ← redistribute child d width; mret (length pre, 2, Some first, second))
    (repaired l (pre ++ c :: d :: post) new).
Proof.
  intros Hall HL Hnew Ho Hu Hsc Hw width ->. pose proof Hall as [_ [_ [[Hd Hdw] _]%Forall_cons]%Forall_cons]%Forall_app.
  pose proof (shaped_width l d Hd). simpl in Hnew.
  apply repaired_pair; try done; [by rewrite <-app_assoc| | |]; case_decide; unfold MIN, MAX in *; lia.
Qed.
Lemma repair_ok l pre c post child new : Forall (below l) (pre ++ c :: post) → 2 <= length (pre ++ c :: post) → l < MAX_LEVELS →
  flat_map flat pre ++ flat child ++ flat_map flat post = new → ordered new → (N.of_nat (length new) <= u64_max)%N →
  shaped l child → node_width child = 15 →
  builds (2 * full) (repair (pre ++ c :: post) (length pre) child) (repaired l (pre ++ c :: post) new).
Proof.
  intros Hall Hlen HL Hnew Ho Hu Hsc Hw. unfold repair.
  assert (Hrhs : (pre ++ c :: post) !! S (length pre) = head post).
  { rewrite lookup_app_r by lia. replace (S (length pre) - length pre) with 1 by lia. by destruct post. }
  assert (Hlhs : match length pre with 0 => None | S i => (pre ++ c :: post) !! i end = last pre).
  { rewrite last_lookup. destruct (length pre) as [|i] eqn:E; simpl; [by destruct pre|]. by rewrite lookup_app_l by lia. }
  rewrite Hrhs, Hlhs. assert (Hsmall : ∀ d, d ∈ pre ++ c :: post → node_width d <= 32).
  { intros d Hd. rewrite Forall_forall in Hall. destruct (Hall d Hd) as [Hs _]. apply (shaped_width l d Hs). }
  assert (Hright : ∀ d post', post = d :: post' → ∀ width, width = (if decide (MIN < node_width d) then node_width child + 1 else node_width child + node_width d) →
    builds (2 * full) ('(first, second) ← redistribute child d width; mret (length pre, 2, Some first, second)) (repaired l (pre ++ c :: post) new))
    by (intros d post' ->; by apply repaired_right).
  destruct (last pre) as [d|] eqn:Hlast; simpl.
  - apply last_Some in Hlast as [pre' ->]. rewrite filter_cons, filter_nil.
    assert (Hleft : ∀ width, width = (if decide (MIN < node_width d) then node_width d - 1 else node_width d + node_width child) →
      builds (2 * full) ('(first, second) ← redistribute d child width; mret (length (pre' ++ [d]) - 1, 2, Some first, second))
        (repaired l ((pre' ++ [d]) ++ c :: post) new)).
    { intros width Hwd. rewrite <-app_assoc. simpl. apply repaired_left; try done. by rewrite <-app_assoc in Hall. }
    destruct (decide (MIN < node_width d)) as [Hrich|Hpoor]; [by apply Hleft|].
    destruct post as [|e post]; simpl; [|rewrite filter_cons, filter_nil; destruct (decide (MIN < node_width e)) as [He|He]].
    + eapply builds_lift_bind; [apply count_add_ok, small_count; rewrite Hw; specialize (Hsmall d ltac:(set_solver)); lia|]. by apply Hleft.
    + eapply builds_lift_bind; [apply count_add_ok, small_count; lia|]. apply (Hright e post); [done|]. by rewrite decide_True.
    + eapply builds_lift_bind; [apply count_add_ok, small_count; rewrite Hw; specialize (Hsmall d ltac:(set_solver)); lia|]. by apply Hleft.
  - apply last_None in Hlast as ->. destruct post as [|e post]; simpl in Hlen |- *; [lia|]. rewrite filter_cons, filter_nil.
    destruct (decide (MIN < node_width e)) as [He|He].
    + eapply builds_lift_bind; [apply count_add_ok, small_count; lia|]. apply (Hright e post); [done|]. by rewrite decide_True.
    + eapply builds_lift_bind; [done|]. eapply builds_lift_bind; [apply count_add_ok, small_count; rewrite Hw; specialize (Hsmall e ltac:(set_solver)); lia|].
      apply (Hright e post); [done|]. by rewrite decide_False.
Qed.
Lemma remove_upward_app (steps steps' : list (list (Node K V) * nat)) node b :
  remove_upward (steps ++ steps') node b = (remove_upward steps node ≫= remove_upward steps') b.
Proof using Type.
  revert node b. induction steps as [|[cs i] steps IH]; intros node b; [done|]. cbn [remove_upward app]. unfold mbind, fallible_bind, lift.
  match goal with |- context [match ?m b with _ => _ end] => destruct (m b) as [[[[[at_ gone] first] second]|] b1]; [|done] end.
  destruct (splice_new cs at_ gone first second) as [items|]; [|done]. destruct (node_or_none branch items b1) as [[s|] b2]; [|done]. apply IH.
Qed.
Lemma bind_removals (m : Building (option (Node K V))) (steps steps' : list (list (Node K V) * nat)) b :
  (m ≫= remove_upward (steps ++ steps')) b = ((m ≫= remove_upward steps) ≫= remove_upward steps') b.
Proof. unfold mbind, fallible_bind. destruct (m b) as [[s|] b1]; [|done]. apply remove_upward_app. Qed.
(** A page removed from a leaf. *)
Lemma leaf_remove_ok ps rank : 1 <= length ps <= MAX → rank < length ps → ordered ps →
  builds full (items ← lift (splice_new ps rank 1 None None); node_or_none leaf items) (removed 0 (length ps) (remove_at rank ps)).
Proof.
  intros Hlen Hr Ho. assert (Hu : (N.of_nat (length ps) <= u64_max)%N) by (apply small_count; unfold MAX in Hlen; lia).
  eapply builds_lift_bind; [apply splice_new_ok; [lia|done|done]|].
  set (items := {| sc_old := ps; sc_at := rank; sc_removed := 1; sc_inserted := option_list None ++ option_list None |}).
  assert (HL : splice_list items = remove_at rank ps) by (unfold splice_list, items, remove_at; simpl; by rewrite Nat.add_1_r).
  pose proof (length_remove_at rank ps Hr) as Hl. unfold node_or_none.
  eapply builds_lift_bind; [apply splice_len_ok; [simpl; lia|rewrite HL; lia]|]. rewrite HL. case_decide as Hz.
  - apply builds_ret. split; [by apply nil_length_inv|lia].
  - replace full with (full + 0)%N by lia. eapply builds_bind.
    { apply (leaf_maker _ _ _ (remove_at rank ps)); [done|lia| |by apply ordered_remove_at]. intros i _. rewrite splice_get_list, HL by (simpl; lia). done. }
    intros n ->. apply builds_ret. split_and!; [done|apply leaf_shaped; [by apply ordered_remove_at|lia]|simpl; lia].
Qed.
(** The children of a branch rebuilt. *)
Lemma branch_rebuild_ok l cs new r : repaired l cs new r → 2 <= length cs <= MAX → S l < MAX_LEVELS → ordered new →
  (N.of_nat (length new) <= u64_max)%N →
  let '(at_, gone, first, second) := r in
  builds full (items ← lift (splice_new cs at_ gone first second); node_or_none branch items) (removed (S l) (length cs) new).
Proof.
  destruct r as [[[at_ gone] first] second]. intros (pre & old & post & -> & -> & -> & Hflat & Hall & Hfirst & Hmade) Hlen HL Ho Hu.
  set (made := option_list first ++ option_list second) in *. rewrite !length_app in Hlen.
  eapply builds_lift_bind; [apply splice_new_ok; [rewrite !length_app; lia|rewrite !length_app; apply small_count; unfold MAX in Hlen; lia|done]|].
  set (items := {| sc_old := pre ++ old ++ post; sc_at := length pre; sc_removed := length old; sc_inserted := option_list first ++ option_list second |}).
  assert (HL' : splice_list items = pre ++ made ++ post).
  { unfold splice_list, items. simpl. rewrite take_app_length, drop_app_ge by lia. replace (length pre + length old - length pre) with (length old) by lia.
    by rewrite drop_app_length. }
  assert (Hl : length (pre ++ made ++ post) = length pre + length made + length post) by (rewrite !length_app; lia).
  assert (Hle : sc_at items + sc_removed items <= length (sc_old items)) by (simpl; rewrite !length_app; lia).
  assert (Hgood : good_children l (pre ++ made ++ post)) by (split_and!; [done|by rewrite Hflat|by rewrite Hflat|done]).
  unfold node_or_none. eapply builds_lift_bind; [apply splice_len_ok; [done|rewrite HL'; apply small_count; unfold MAX in Hlen; lia]|].
  rewrite HL'. rewrite decide_False by lia. replace full with (full + 0)%N by lia. eapply builds_bind.
  { apply (branch_maker l _ _ _ (pre ++ made ++ post)); [done|lia| |done]. intros i _. by rewrite splice_get_list, HL'. }
  intros n ->. apply builds_ret. split_and!; [done|apply branch_shaped; [done|lia]|]. simpl. rewrite !length_app in *. lia.
Qed.
Lemma branch_remove_ok l pre c post new o : Forall (below l) (pre ++ c :: post) → 2 <= length (pre ++ c :: post) <= MAX →
  removed l (node_width c) new o → S l < MAX_LEVELS →
  let flat' := flat_map flat pre ++ new ++ flat_map flat post in
  ordered flat' → (N.of_nat (length flat') <= u64_max)%N →
  builds (3 * full) (remove_upward [(pre ++ c :: post, length pre)] o) (removed (S l) (length (pre ++ c :: post)) flat').
Proof.
  intros Hall Hlen Hrem HL flat' Ho Hu. pose proof Hall as [Hpre [[Hc Hcw] Hpost]%Forall_cons]%Forall_app.
  destruct o as [child|]; [|destruct Hrem; unfold MIN in *; lia]. destruct Hrem as (Hfl & Hsc & Hw). cbn [remove_upward].
  replace (3 * full)%N with (2 * full + (full + 0))%N by lia.
  eapply (builds_bind _ _ _ _ (repaired l (pre ++ c :: post) flat')).
  - case_decide as Hd.
    + apply repair_ok; try done; [lia|lia|unfold flat'; by rewrite Hfl|unfold MIN in *; lia].
    + apply builds_ret. exists pre, [c], post. assert (MIN <= node_width child) by (unfold MIN in *; lia).
      simpl. split_and!; [done|done|done| | |done|lia|lia].
      * unfold flat'. rewrite flat_map_app. simpl. by rewrite Hfl.
      * apply Forall_app_2; [done|]. by constructor.
  - intros r Hr. pose proof (branch_rebuild_ok l _ _ r Hr Hlen HL Ho Hu) as Hb. destruct r as [[[at_ gone] first] second].
    eapply builds_eq; [|eapply builds_bind; [exact Hb|intros x Hx; apply builds_ret; exact Hx]].
    intros b. unfold mbind, fallible_bind, lift. destruct (splice_new _ _ _ _ _); [|done]. by destruct (node_or_none branch _ b) as [[?|] ?].
Qed.
Lemma remove_ok fuel l n rank : shaped l n → l <= fuel → l < MAX_LEVELS → (l = 0 ∨ 2 <= node_width n) → rank < length (flat n) →
  ordered (flat n) → (N.of_nat (length (flat n)) <= u64_max)%N →
  ∃ steps pages r, to_leaf fuel n rank false = Ok (steps, pages, r) ∧
  builds (3 * N.of_nat (S l) * full)
    (node ← (items ← lift (splice_new pages r 1 None None); node_or_none leaf items); remove_upward (rev steps) node)
    (removed l (node_width n) (remove_at rank (flat n))).
Proof.
  revert l n rank. induction fuel as [|fuel IH]; intros [|l] n rank Hs Hf HL Hwide Hr Ho Hu; [|lia| |].
  1-2: destruct Hs as (ps & -> & Hlen & Hp); exists [], ps, rank; split; [done|]; cbn [leaf_node flat node_width] in *;
    replace (3 * N.of_nat 1 * full)%N with (full + 2 * full)%N by lia; eapply builds_bind; [by apply leaf_remove_ok|]; intros s Hs; by apply builds_ret.
  destruct Hs as (cs & -> & Hlen & Hcs). cbn [branch_node flat node_width] in *. destruct Hwide as [|Hwide]; [done|].
  destruct (child_at_split l cs 0 rank false Hcs) as (pre & c & post & r & -> & Hat & -> & Hr').
  { by destruct cs; simpl in Hlen; [lia|]. }
  { by left. }
  pose proof Hcs as [_ [[Hc Hcw] _]%Forall_cons]%Forall_app. destruct Hr' as [Hr'|[? _]]; [|done].
  rewrite flat_map_app in Ho, Hu, Hr |- *. cbn [flat_map] in Ho, Hu, Hr |- *.
  pose proof (ordered_remove_at (length (flat_map flat pre) + r) _ Ho) as Ho'. rewrite remove_at_middle in Ho' |- * by done.
  apply ordered_app in Ho as (_ & (Hoc & _ & _)%ordered_app & _). rewrite !length_app in Hu.
  destruct (IH l c r Hc ltac:(lia) ltac:(lia) ltac:(right; unfold MIN in Hcw; lia) Hr' Hoc ltac:(lia)) as (steps & pages & r' & Hto & Hb).
  exists ((pre ++ c :: post, length pre) :: steps), pages, r'. split.
  { cbn [to_leaf branch_node]. rewrite Hat. simpl. rewrite branch_lookup. simpl. by rewrite Hto. }
  cbn [rev]. replace (3 * N.of_nat (S (S l)) * full)%N with (3 * N.of_nat (S l) * full + 3 * full)%N by lia.
  eapply builds_eq; [|eapply builds_bind; [exact Hb|]].
  { intros b. apply bind_removals. }
  intros o Hrem. apply branch_remove_ok; [done|lia|done|done|done|].
  pose proof (length_remove_at r (flat c) Hr'). rewrite !length_app. lia.
Qed.
End Making.
