(* ===== verification/PageEditing.v ===== *)
(** * Edits of a directory and of its list

    A directory that is sound stays sound under every edit, and its list of pages
    takes the same edit; an edit is refused where the page is out of order or the
    rank out of range, and otherwise fails only where the budget refuses. The byte
    bound of [edit_bound] is enough for as many edits as it was asked for. *)
From stdpp Require Import prelude strings list sorting.
From Stdlib Require Import NArith.
From S2P Require Import Prelude Fallible Budget Pages PagesLaws PageDirectory PageTree PageEdits.

(** ** Ends of parts of a list *)
Lemma last_take {A} (l : list A) i : i <= length l → last (take i l) = match i with 0 => None | S i => l !! i end.
Proof.
  intros Hi. rewrite last_lookup, length_take, Nat.min_l by done. destruct i as [|i]; [done|]. simpl. by rewrite lookup_take_lt by lia.
Qed.
Lemma head_drop {A} (l : list A) i : head (drop i l) = l !! i.
Proof. rewrite head_lookup, lookup_drop. f_equal. lia. Qed.

(** ** Keys *)
Section Keys.
Context {K : Type} `{TableKey K}.
Implicit Types (k : K).
Lemma key_not_le k k' : ¬ key_le k k' ↔ key_lt k' k.
Proof.
  split.
  - intros Hn. destruct (total key_le k k') as [|Hle]; [done|]. split; [done|]. by intros ->.
  - intros Hlt Hle. eapply key_lt_irrefl. by eapply key_lt_le_trans.
Qed.
Lemma key_le_lt_trans (x y z : K) : key_le x y → key_lt y z → key_lt x z.
Proof. intros Hle Hlt. destruct (decide (x = y)) as [->|]; [done|]. by eapply key_lt_trans. Qed.
End Keys.

(** ** Neighbours *)
Section Neighbours.
Context {K V : Type} `{RangeKeyLaws K}.
#[local] Set Default Proof Using "All".
Implicit Types (p : Page K V) (ps qs : list (Page K V)) (k : K) (d : PageDirectory K V).
Lemma check_ascending_iff prev (es : list (Entry K V)) :
  check_ascending prev es = Ok () ↔ StronglySorted key_lt (option_list prev ++ (en_key <$> es)).
Proof.
  revert prev. induction es as [|e es IH]; intros prev; simpl.
  { split; [|done]. intros _. destruct prev; simpl; repeat constructor. }
  assert (Hstep : ∀ k, StronglySorted key_lt (k :: en_key e :: (en_key <$> es)) ↔ key_lt k (en_key e) ∧ StronglySorted key_lt (en_key e :: (en_key <$> es))).
  { intros k. split; [intros [? Hk]%StronglySorted_inv; by apply Forall_cons in Hk as [? _]|]. intros [Hlt Hs]. constructor; [done|].
    constructor; [done|]. apply StronglySorted_inv in Hs as [_ Hs]. eapply Forall_impl; [exact Hs|]. intros x. by apply key_lt_trans. }
  rewrite try_bind_ok. specialize (IH (Some (en_key e))). simpl in IH. destruct prev as [k|]; simpl.
  - rewrite Hstep, <-IH. split.
    + intros ([] & Hr & Hs). apply refuse_if_ok in Hr. rewrite bool_decide_eq_true, key_not_le in Hr. done.
    + intros [Hlt Hs]. exists (). split; [|done]. apply refuse_if_ok. by rewrite bool_decide_eq_true, key_not_le.
  - rewrite <-IH. split; [by intros ([] & _ & ?)|]. intros Hs. exists (). split; [|done]. by apply refuse_if_ok.
Qed.
(** The greatest key of a list of pages is its last page's last, the least its
    first page's first. *)
Lemma ordered_last ps k x : ordered ps → last ps ≫= page_last_key = Some k → x ∈ keys ps → key_le x k.
Proof.
  intros [Hp Hs] Hk Hx. destruct (last ps) as [q|] eqn:Hq; [|done]. simpl in Hk. apply last_Some in Hq as [ps' ->].
  rewrite keys_app in Hs, Hx. change (keys [q]) with (page_keys q ++ []) in Hs, Hx. rewrite app_nil_r in Hs, Hx.
  apply ssorted_app in Hs as (_ & Hsq & Hlt). apply elem_of_app in Hx as [Hx|Hx]; [apply Hlt; [done|by apply page_last_key_elem]|].
  unfold page_last_key, page_keys in *. destruct (last (pg_entries q)) as [e|] eqn:E; [|done]. simpl in Hk. injection Hk as <-.
  apply last_Some in E as [l E]. rewrite E, fmap_app in Hsq, Hx. apply ssorted_app in Hsq as (_ & _ & Hl).
  apply elem_of_app in Hx as [Hx|Hx]; [apply Hl; [done|set_solver]|]. apply list_elem_of_singleton in Hx as ->. done.
Qed.
Lemma ordered_head ps k x : ordered ps → head ps ≫= page_first_key = Some k → x ∈ keys ps → key_le k x.
Proof.
  intros [Hp Hs] Hk Hx. destruct ps as [|q ps]; [done|]. simpl in Hk. change (keys (q :: ps)) with (page_keys q ++ keys ps) in Hs, Hx.
  apply ssorted_app in Hs as (Hsq & _ & Hlt). apply elem_of_app in Hx as [Hx|Hx]; [by eapply page_first_least|].
  apply Hlt; [by apply page_first_key_elem|done].
Qed.
(** A page caches the prefix of its first key. *)
Definition page_made p : Prop := ∀ k, page_first_key p = Some k → pg_first p = order_prefix k.
Definition after_left (left : option (Page K V)) (k : K) : Prop := ∀ l, left ≫= page_last_key = Some l → key_lt l k.
Definition before_right (k : K) (right : option (Page K V)) : Prop := ∀ r, right ≫= page_first_key = Some r → key_lt k r.
Lemma check_between_iff left p right : check_between left p right = Ok () ↔
  ∃ f t, page_first_key p = Some f ∧ page_last_key p = Some t ∧ StronglySorted key_lt (page_keys p) ∧ after_left left f ∧ before_right t right.
Proof.
  unfold check_between, after_left, before_right. split.
  - intros (f & Hf%or_fail_ok & (t & Ht%or_fail_ok & ([] & Hs%check_ascending_iff & Hn%refuse_if_ok)%try_bind_ok)%try_bind_ok)%try_bind_ok.
    exists f, t. split_and!; [done|done|done| |].
    + intros l E. rewrite E in Hn. apply key_not_le. intros Hle. apply Hn. left. by apply bool_decide_eq_true.
    + intros r E. rewrite E in Hn. apply key_not_le. intros Hle. apply Hn. right. by apply bool_decide_eq_true.
  - intros (f & t & Hf & Ht & Hs & Hl & Hr). rewrite Hf, Ht. simpl. apply try_bind_ok. exists (). split; [by apply check_ascending_iff|].
    apply refuse_if_ok. unfold is_some_and. intros [Hx|Hx].
    + destruct (left ≫= page_last_key) as [l|]; [|done]. apply bool_decide_eq_true in Hx. apply (key_not_le f l); [by apply Hl|done].
    + destruct (right ≫= page_first_key) as [r|]; [|done]. apply bool_decide_eq_true in Hx. apply (key_not_le r t); [by apply Hr|done].
Qed.
Lemma check_between_ordered ps p qs : ordered ps → ordered qs → page_made p →
  (∀ x y, x ∈ keys ps → y ∈ keys qs → key_lt x y) → check_between (last ps) p (head qs) = Ok () ↔ ordered (ps ++ p :: qs).
Proof.
  intros Hps Hqs Hm Hx. rewrite check_between_iff. change (p :: qs) with ([p] ++ qs). rewrite !ordered_app.
  assert (Hk : keys [p] = page_keys p) by (change (keys [p]) with (page_keys p ++ []); by rewrite app_nil_r). split.
  - intros (f & t & Hf & Ht & Hs & Hl & Hr). assert (Hp : ordered [p]).
    { split; [|by rewrite Hk]. constructor; [|done]. exists f. split; [done|by apply Hm]. }
    assert (Hlp : ∀ x y, x ∈ keys ps → y ∈ page_keys p → key_lt x y).
    { intros x y Hx1 Hy. destruct (last ps ≫= page_last_key) as [l|] eqn:E.
      - eapply key_le_lt_trans; [by apply (ordered_last ps l)|]. eapply key_lt_le_trans; [by apply Hl|by eapply page_first_least].
      - destruct (last ps) as [q|] eqn:Hq; [|by apply last_None in Hq as ->; apply elem_of_nil in Hx1].
        apply last_Some in Hq as [ps' ->]. destruct Hps as [Hall _]. apply Forall_app in Hall as [_ [Hq _]%Forall_cons].
        apply page_sound_last in Hq as [k Hk']. simpl in E. by rewrite Hk' in E. }
    split_and!; [done|done|done| |].
    + rewrite Hk. intros x y Hx1 Hy. destruct (head qs ≫= page_first_key) as [r|] eqn:E.
      * eapply key_le_lt_trans; [apply (ordered_last [p] t x); [done|done|by rewrite Hk]|]. eapply key_lt_le_trans; [by apply Hr|by apply (ordered_head qs r)].
      * destruct qs as [|q qs]; [by apply elem_of_nil in Hy|]. destruct Hqs as [[(r & Hr' & _) _]%Forall_cons _]. simpl in E. by rewrite E in Hr'.
    + intros x y Hx1. rewrite keys_app, Hk, elem_of_app. intros [Hy|Hy]; [by apply Hlp|by apply Hx].
  - intros (_ & ([Hp1 Hp2] & _ & Hpq) & Hlp). rewrite Hk in *. rewrite keys_app, Hk in Hlp. apply Forall_cons in Hp1 as [Hs _].
    pose proof Hs as (f & Hf & _). destruct (page_sound_last p Hs) as [t Ht]. exists f, t. split_and!; [done|done|done| |].
    + intros l Hl. apply Hlp; [|apply elem_of_app; left; by apply page_first_key_elem]. destruct (last ps) as [q|] eqn:Hq; [|done].
      apply last_Some in Hq as [ps' ->]. apply elem_of_keys. exists q. split; [set_solver|by apply page_last_key_elem].
    + intros r Hr. apply Hpq; [by apply page_last_key_elem|]. destruct qs as [|q qs]; [done|]. apply elem_of_keys. exists q.
      split; [left|by apply page_first_key_elem].
Qed.
End Neighbours.

(** ** Inserting and removing *)
Section Editing.
Context {K V : Type} `{Laws : RangeKeyLaws K, Funding, PageSizes}.
Context (full : N) (Hfull : node_charge MAX = Ok full).
#[local] Set Default Proof Using "Type Laws".
Implicit Types (n c : Node K V) (p : Page K V) (ps qs : list (Page K V)) (d : PageDirectory K V).
Definition height d : N := match pd_root d with Some n => N.of_nat (S (node_level n)) | None => 0%N end.
Definition edit_cost d : N := ((6 * height d + 2) * full)%N.
(** The directory is sound and lists these pages. *)
Definition lists ps d : Prop := directory_sound d ∧ pages_of d = ps.
Lemma height_level d n l : pd_root d = Some n → shaped l n → height d = N.of_nat (S l).
Proof. intros E Hs. unfold height. by rewrite E, (shaped_level l n Hs). Qed.
Lemma root_lists l n ps : shaped l n → (l = 0 ∨ 2 <= node_width n) → flat n = ps → ordered ps → (N.of_nat (length ps) <= u64_max)%N →
  lists ps {| pd_root := Some n |}.
Proof. intros Hs Hw Hf Ho Hu. split; [|done]. unfold directory_sound, pages_of. simpl. rewrite Hf. split_and!; [done|done|by exists l]. Qed.
Lemma splits_ordered ps i : ordered ps → ordered (take i ps) ∧ ordered (drop i ps) ∧ ∀ x y, x ∈ keys (take i ps) → y ∈ keys (drop i ps) → key_lt x y.
Proof. intros Ho. apply ordered_app. by rewrite take_drop. Qed.
Lemma check_page_iff d index p : directory_sound d → index <= length (pages_of d) → page_made p →
  check_page d index p = Ok () ↔ ordered (insert_at index p (pages_of d)).
Proof.
  intros Hd Hi Hm. pose proof Hd as (Ho & _ & _). destruct (splits_ordered _ index Ho) as (Hl & Hr & Hx).
  unfold insert_at. rewrite <-(check_between_ordered _ p _ Hl Hr Hm Hx). unfold check_page.
  rewrite last_take, head_drop, sound_get by done. destruct index; [done|]. by rewrite sound_get.
Qed.
Lemma leaf_one p (Hp : ordered [p]) : builds full (leaf 1 (λ _, Some p) (λ _, true)) (λ n, n = leaf_node [p]).
Proof using Laws Hfull. apply (leaf_maker full Hfull 1 _ _ [p]); [done|unfold MAX; lia| |done]. intros i Hi. by replace i with 0 by lia. Qed.
Lemma directory_insert_ok d index p : directory_sound d → index <= length (pages_of d) → page_made p →
  (N.of_nat (S (length (pages_of d))) <= u64_max)%N → ordered (insert_at index p (pages_of d)) →
  builds (edit_cost d) (directory_insert d index p) (lists (insert_at index p (pages_of d))).
Proof using Laws Hfull.
  intros Hd Hi Hm Hu Hord. unfold directory_insert. apply builds_guard; [rewrite sound_len by done; lia|].
  eapply builds_lift_bind; [by apply check_page_iff|]. pose proof (length_insert_at index p (pages_of d) Hi) as Hlen.
  destruct (pd_root d) as [root|] eqn:E.
  - destruct (sound_root d root Hd E) as (l & Hs & Hw & Hl). unfold edit_cost. rewrite (height_level d root l E Hs).
    unfold pages_of in *. rewrite E in *. destruct (insert_ok full Hfull MAX_LEVELS l root index p) as (steps & pages & r & Hto & Hb);
      [done|unfold MAX_LEVELS; lia|unfold MAX_LEVELS; lia|done|done|done|].
    replace ((6 * N.of_nat (S l) + 2) * full)%N with (2 * N.of_nat (S l) * full + (full + (4 * N.of_nat (S l) + 1) * full))%N by lia.
    eapply builds_bind.
    { unfold insert_node. eapply builds_lift_bind; [exact Hto|]. eapply builds_eq; [|exact Hb].
      intros b. unfold mbind, fallible_bind, lift. by destruct (splice_new _ _ _ _ _). }
    intros [a b] (Hfl & Hsa & Hab). destruct b as [b|]; simpl in Hfl.
    + destruct Hab as (Hsb & Hwa & Hwb). eapply builds_bind.
      { apply (branch_maker full Hfull l 2 _ _ [a; b]); [done|unfold MAX; lia|done|].
        split_and!; [by repeat constructor| | |unfold MAX_LEVELS; lia]; simpl; rewrite app_nil_r, Hfl; [done|lia]. }
      intros n ->. apply builds_ret. apply (root_lists (S l)); [|by right; simpl| |done|lia].
      * exists [a; b]. split_and!; [done|simpl; unfold MAX; lia|simpl; unfold MAX; lia|by repeat constructor].
      * simpl. by rewrite app_nil_r.
    + rewrite app_nil_r in Hfl. apply builds_ret. apply (root_lists l); [done| |done|done|lia]. destruct Hw; [by left|right; lia].
  - unfold edit_cost, height. rewrite E. replace ((6 * 0 + 2) * full)%N with (full + full)%N by lia.
    unfold pages_of in *. rewrite E in *. simpl in Hi. assert (index = 0) as -> by lia.
    eapply builds_bind; [by apply leaf_one|]. intros n ->. apply builds_ret. apply (root_lists 0); [|by left|done|done|done].
    by apply leaf_shaped; [|simpl; unfold MAX; lia].
Qed.
Lemma collapse_ok l n : shaped l n → ∃ l', shaped l' (collapse n) ∧ (l' = 0 ∨ 2 <= node_width (collapse n)) ∧ flat (collapse n) = flat n.
Proof.
  revert n. induction l as [|l IH]; intros n Hs.
  - exists 0. pose proof Hs as (ps & -> & _). split_and!; [done|by left|done].
  - pose proof Hs as (cs & -> & Hlen & Hcs). destruct cs as [|c [|c' cs]]; [simpl in Hlen; lia| |].
    + apply Forall_cons in Hcs as [[Hc _] _]. destruct (IH c Hc) as (l' & Hs' & Hw & Hf). exists l'. simpl. split_and!; [done|done|].
      by rewrite Hf, app_nil_r.
    + exists (S l). split_and!; [done|right; simpl; lia|done].
Qed.
Lemma directory_remove_ok d index : directory_sound d → index < length (pages_of d) →
  builds (edit_cost d) (directory_remove d index) (lists (remove_at index (pages_of d))).
Proof using Laws Hfull.
  intros Hd Hi. pose proof Hd as (Ho & Hu & _). unfold directory_remove. unfold pages_of in *. destruct (pd_root d) as [root|] eqn:E; [|simpl in Hi; lia].
  eapply builds_lift_bind; [done|]. destruct (sound_root d root Hd E) as (l & Hs & Hw & Hl).
  apply builds_guard; [rewrite (shaped_pages l root Hs); lia|]. unfold edit_cost. rewrite (height_level d root l E Hs).
  destruct (remove_ok full Hfull MAX_LEVELS l root index) as (steps & pages & r & Hto & Hb);
    [done|unfold MAX_LEVELS; lia|unfold MAX_LEVELS; lia|done|done|done|done|].
  replace ((6 * N.of_nat (S l) + 2) * full)%N with (3 * N.of_nat (S l) * full + (3 * N.of_nat (S l) + 2) * full)%N by lia.
  eapply builds_bind.
  { unfold remove_node. eapply builds_lift_bind; [exact Hto|]. eapply builds_eq; [|exact Hb].
    intros b. unfold mbind, fallible_bind, lift. by destruct (splice_new _ _ _ _ _). }
  pose proof (length_remove_at index (flat root) Hi). intros [n|] Hrem; apply builds_ret.
  - destruct Hrem as (Hfl & Hsn & _). destruct (collapse_ok l n Hsn) as (l' & Hs' & Hw' & Hf').
    apply (root_lists l'); [done|done|by rewrite Hf'|by apply ordered_remove_at|lia].
  - destruct Hrem as [-> _]. split; [|done]. split_and!; [|done|done]. split; constructor.
Qed.
End Editing.

(** * Edits of owned paths

    Replacing a page, and inserting one into a leaf that has room, rewrite the
    path to the leaf in place: counts, first prefixes and the leaf itself. *)
(** ** The leftmost part of a route *)
Section Leftmost.
Lemma partition_point_reaches {A} (f : A → bool) (l : list A) m : m <= length l →
  m <= partition_point f l ↔ Forall (λ x, f x = true) (take m l).
Proof.
  revert m. induction l as [|a l IH]; intros [|m] Hm; simpl in *; [split; [constructor|lia]|lia|split; [constructor|lia]|].
  rewrite Forall_cons. destruct (f a) eqn:E; [|split; [lia|naive_solver]]. rewrite <-Nat.succ_le_mono, IH by lia. naive_solver.
Qed.
Lemma leftmost_from_iff {K V} (steps : list (list (Node K V) * nat)) rank width k : k <= length steps →
  rt_leftmost_from (route_of steps rank width) <= k ↔ Forall (λ c, c = 0) (drop k steps.*2).
Proof.
  intros Hk. unfold route_of. cbn [rt_leftmost_from]. set (cs := steps.*2).
  assert (Hlen : length cs = length steps) by apply length_fmap. pose proof (partition_point_le (λ c, bool_decide (c = 0)) (rev cs)) as Hle.
  rewrite length_rev in Hle. trans (length cs - k <= partition_point (λ c, bool_decide (c = 0)) (rev cs)); [lia|].
  rewrite partition_point_reaches by (rewrite length_rev; lia). rewrite List.firstn_rev. replace (length cs - (length cs - k)) with k by lia.
  rewrite !Forall_forall. setoid_rewrite list_elem_of_In. setoid_rewrite <-in_rev.
  by setoid_rewrite bool_decide_eq_true.
Qed.
End Leftmost.

(** ** Paths *)
Section Paths.
Context {K V : Type} `{RangeKeyLaws K, Funding, PageSizes}.
Context (full : N) (Hfull : node_charge MAX = Ok full).
#[local] Set Default Proof Using "Type".
Implicit Types (n c : Node K V) (cs : list (Node K V)) (p : Page K V) (ps qs : list (Page K V)) (d : PageDirectory K V).
Notation below l := (λ c, shaped l c ∧ MIN <= node_width c).
(** A descent to a rank: the pages before the leaf, the leaf and those after. *)
Lemma to_leaf_flat fuel l n rank ins : shaped l n → l <= fuel → reaches ins rank (length (flat n)) →
  ∃ steps ps r before after, to_leaf fuel n rank ins = Ok (steps, ps, r) ∧ length steps = l ∧ flat n = before ++ ps ++ after ∧
  rank = length before + r ∧ reaches ins r (length ps) ∧ 1 <= length ps <= MAX ∧ Forall page_sound ps.
Proof.
  revert l n rank. induction fuel as [|fuel IH]; intros [|l] n rank Hs Hf Hr; [|lia| |].
  1-2: destruct Hs as (ps & -> & Hlen & Hp); exists [], ps, rank, [], []; rewrite app_nil_r; split_and!; done || lia.
  destruct Hs as (cs & -> & Hlen & Hcs). simpl in Hr.
  destruct (child_at_split l cs 0 rank ins Hcs) as (pre & c & post & r & -> & Hat & -> & Hr'); [by destruct cs; simpl in Hlen; [lia|]|done|].
  apply Forall_app in Hcs as [_ [[Hc _] _]%Forall_cons].
  destruct (IH l c r Hc ltac:(lia) Hr') as (steps & ps & r' & before & after & Hto & Hl & Hfl & -> & Hr2 & Hps & Hsnd).
  exists ((pre ++ c :: post, length pre) :: steps), ps, r', (flat_map flat pre ++ before), (after ++ flat_map flat post). split_and!; try done.
  - cbn [to_leaf branch_node]. rewrite Hat. simpl. rewrite branch_lookup. simpl. by rewrite Hto.
  - simpl. lia.
  - cbn [flat branch_node]. rewrite flat_map_app. simpl. by rewrite Hfl, <-!app_assoc.
  - rewrite length_app. lia.
  - lia.
  - lia.
Qed.
Lemma own_ok fuel l n rank ins steps ps r grow : shaped l n → to_leaf fuel n rank ins = Ok (steps, ps, r) →
  builds ((N.of_nat (S l) + 2) * full) (own steps.*2 grow n) (λ _, True).
Proof using Hfull.
  assert (Hnode : ∀ w shared, w <= MAX → builds full (if decide (shared = true) then allocate_node w else mret ()) (λ _, True)).
  { intros w shared Hw. case_decide; [by apply builds_node|by apply builds_ret]. }
  revert l n rank steps. induction fuel as [|fuel IH]; intros l n rank steps Hs Hto.
  all: pose proof (shaped_width l n Hs) as Hw; destruct l as [|l].
  1,3: destruct Hs as (qs & -> & Hlen & _); simpl in Hto; injection Hto as <- <- <-; cbn [own leaf_node];
    replace ((N.of_nat 1 + 2) * full)%N with (0 + (full + (full + full)))%N by lia;
    eapply builds_bind; [apply builds_ask|]; intros shared _; eapply builds_bind; [apply Hnode; lia|]; intros [] _;
    (destruct grow; [|by apply builds_ret]); unfold make_room; eapply builds_bind;
    [eapply builds_weaken; [apply builds_allocate|by apply handle_le_full|done]|]; intros _ _;
    replace full with (0 + full)%N by lia; eapply builds_bind; [apply builds_ask|]; intros ab _;
    replace (0 + full)%N with full by lia; case_decide; [by apply builds_ret|apply builds_node; [done|lia]].
  all: destruct Hs as (cs & -> & Hlen & Hcs); cbn [to_leaf branch_node] in Hto;
    apply try_bind_ok in Hto as ([i within] & Hat & Hto); apply try_bind_ok in Hto as (c & Hc%or_fail_ok & Hto); try done.
  apply try_bind_ok in Hto as ([[steps' ps'] r'] & Hto & [= <- <- <-]). cbn [fmap list_fmap own branch_node snd].
  replace ((N.of_nat (S (S l)) + 2) * full)%N with (0 + (full + (N.of_nat (S l) + 2) * full))%N by lia.
  eapply builds_bind; [apply builds_ask|]. intros shared _. eapply builds_bind; [apply Hnode; apply Hw|]. intros [] _.
  eapply builds_lift_bind; [by rewrite Hc|]. rewrite Forall_forall in Hcs. eapply IH; [|exact Hto]. apply (Hcs c). by eapply list_elem_of_lookup_2.
Qed.
Definition first_of ps : N := match head ps with Some p => pg_first p | None => 0%N end.
(** What an edit makes of the leaf it reaches. *)
Definition leaf_edited (added : bool) (first : N) (r : nat) ps ps' : Prop :=
  length ps' = length ps + (if added then 1 else 0) ∧ length ps' <= MAX ∧ Forall page_sound ps' ∧
  first_of ps' = if decide (r = 0) then first else first_of ps.
Lemma sum_pages_insert (pre post : list (Node K V)) c c' : sum_list (node_pages <$> pre ++ c' :: post) + node_pages c = sum_list (node_pages <$> pre ++ c :: post) + node_pages c'.
Proof. induction pre as [|x pre IH]; cbn [app fmap list_fmap]; simpl in *; lia. Qed.
Lemma apply_edit_ok fuel l n rank ins steps ps r level R (added : bool) first edit ps' :
  shaped l n → to_leaf fuel n rank ins = Ok (steps, ps, r) → l <= fuel → reaches ins rank (length (flat n)) →
  (N.of_nat (length (flat n) + (if added then 1 else 0)) <= u64_max)%N → rt_rank R = r →
  (∀ k, k <= length steps → rt_leftmost_from R <= level + k ↔ Forall (λ i, i = 0) (drop k steps.*2)) →
  edit ps r = Ok ps' → leaf_edited added first r ps ps' →
  ∃ n' before after, apply_edit steps.*2 level R added first edit n = Ok n' ∧ shaped l n' ∧ node_width n <= node_width n' ∧
  flat n = before ++ ps ++ after ∧ flat n' = before ++ ps' ++ after ∧ rank = length before + r ∧
  node_first n' = (if decide (r = 0 ∧ rt_leftmost_from R <= level) then first else node_first n).
Proof.
  revert l n rank steps level. induction fuel as [|fuel IH]; intros [|l] n rank steps level Hs Hto Hf Hr Hu HR Hleft Hedit Hps; [|lia| |].
  1-2: destruct Hs as (qs & -> & Hlen & Hp); simpl in Hto; injection Hto as <- <- <-;
    destruct Hps as (Hlen' & Hmax & Hsnd & Hfirst); specialize (Hleft 0 ltac:(simpl; lia)); simpl in Hleft; rewrite Nat.add_0_r in Hleft;
    assert (Hl : rt_leftmost_from R <= level) by (by apply Hleft);
    exists (leaf_node ps'), [], []; simpl in Hu |- *; rewrite HR, Hedit, !app_nil_r;
    assert (Hc : (if added then count_add (length qs) 1 else mret (length qs)) = Ok (length ps')) by
      (destruct added; [rewrite count_add_ok by lia|]; simpl; f_equal; lia);
    rewrite Hc; simpl; split_and!; [|exists ps'; split_and!; [done|lia|done|done]|lia|done|done|done|];
    unfold leaf_node, first_of in *; rewrite Hfirst; repeat case_decide; done || (exfalso; naive_solver).
  destruct Hs as (cs & -> & Hlen & Hcs). cbn [flat branch_node] in Hr, Hu.
  destruct (child_at_split l cs 0 rank ins Hcs) as (pre & c & post & rc & -> & Hat & -> & Hrc); [by destruct cs; simpl in Hlen; [lia|]|done|].
  cbn [to_leaf branch_node] in Hto. rewrite Hat in Hto. simpl in Hto. rewrite branch_lookup in Hto. simpl in Hto.
  apply try_bind_ok in Hto as ([[steps' qs] r'] & Hto & [= <- -> ->]).
  pose proof Hcs as [Hpre [[Hc Hcw] Hpost]%Forall_cons]%Forall_app. rewrite flat_map_app in Hu. simpl in Hu. rewrite !length_app in Hu.
  destruct (IH l c rc steps' (S level) Hc Hto) as (c' & before & after & Happ & Hc' & Hw & Hfl & Hfl' & -> & Hfirst); [lia|done|lia|done| |done|done|].
  { intros k Hk. specialize (Hleft (S k)). cbn [length fmap list_fmap drop] in Hleft. rewrite <-Nat.add_succ_comm in Hleft. apply Hleft. lia. }
  exists (branch_node l (pre ++ c' :: post)), (flat_map flat pre ++ before), (after ++ flat_map flat post).
  assert (Hshape : Forall (below l) (pre ++ c' :: post)) by (apply Forall_app; split; [done|]; constructor; [split; [done|lia]|done]).
  assert (Hlevel : rt_leftmost_from R <= level ↔ length pre = 0 ∧ rt_leftmost_from R <= S level).
  { pose proof (Hleft 0 ltac:(lia)) as H0'. pose proof (Hleft 1 ltac:(simpl; lia)) as H1'. cbn [fmap list_fmap drop snd] in H0', H1'.
    rewrite Nat.add_0_r in H0'. rewrite Nat.add_1_r in H1'. rewrite H0', H1', Forall_cons. by rewrite drop_0. }
  assert (Hwidth : length (pre ++ c' :: post) = length (pre ++ c :: post)) by (rewrite !length_app; done).
  split_and!.
  - cbn [fmap list_fmap snd apply_edit branch_node node_pages node_first].
    assert (Hcount : (if added then count_add (sum_list (node_pages <$> pre ++ c :: post)) 1 else mret (sum_list (node_pages <$> pre ++ c :: post)))
      = Ok (sum_list (node_pages <$> pre ++ c' :: post))).
    { pose proof (sum_pages_insert pre post c c') as Hsum. rewrite (shaped_pages l c Hc), (shaped_pages l c' Hc'), Hfl, Hfl', !length_app in Hsum.
      destruct Hps as (Hlen' & _). pose proof (shaped_children l _ Hcs) as Htot. rewrite flat_map_app in Htot. simpl in Htot. rewrite !length_app in Htot.
      destruct added; [rewrite count_add_ok by lia|]; simpl; f_equal; lia. }
    rewrite Hcount. cbn [mbind try_bind]. rewrite branch_lookup. cbn [or_fail mbind try_bind]. rewrite Happ. cbn [mbind try_bind].
    rewrite insert_app_r_alt, Nat.sub_diag by done. unfold branch_node. f_equal. f_equal.
    destruct pre as [|x pre]; simpl; [|by rewrite decide_False by naive_solver]. rewrite Hfirst, HR. repeat case_decide; done || (exfalso; naive_solver).
  - exists (pre ++ c' :: post). split_and!; [done|lia|lia|done].
  - simpl. lia.
  - cbn [flat branch_node]. rewrite flat_map_app. simpl. by rewrite Hfl, <-!app_assoc.
  - cbn [flat branch_node]. rewrite flat_map_app. simpl. by rewrite Hfl', <-!app_assoc.
  - rewrite length_app. lia.
  - destruct pre as [|x pre]; simpl; [|by rewrite decide_False by naive_solver]. rewrite Hfirst. repeat case_decide; done || (exfalso; naive_solver).
Qed.
End Paths.

(** ** Owned edits *)
Section Owned.
Context {K V : Type} `{Laws : RangeKeyLaws K, Funding, PageSizes}.
Context (full : N) (Hfull : node_charge MAX = Ok full).
#[local] Set Default Proof Using "Type Laws".
Implicit Types (n c : Node K V) (p : Page K V) (ps qs : list (Page K V)) (d : PageDirectory K V).
Definition left_of (index : nat) ps : option (Page K V) := match index with 0 => None | S i => ps !! i end.
Lemma left_in_leaf before ps after r : r <= length ps →
  match r with S local => ps !! local | 0 => left_of (length before) (before ++ ps ++ after) end = left_of (length before + r) (before ++ ps ++ after).
Proof.
  intros Hr. destruct r as [|r]; [by rewrite Nat.add_0_r|]. rewrite Nat.add_succ_r. simpl.
  rewrite lookup_app_r by lia. replace (length before + r - length before) with r by lia. by rewrite lookup_app_l by lia.
Qed.
Lemma right_in_leaf before ps after r : r <= length ps →
  match ps !! r with Some p => Some p | None => (before ++ ps ++ after) !! (length before + r) end = (before ++ ps ++ after) !! (length before + r).
Proof.
  intros Hr. destruct (ps !! r) as [p|] eqn:E; [|done]. symmetry. rewrite lookup_app_r by lia.
  replace (length before + r - length before) with r by lia. rewrite lookup_app_l; [done|]. by eapply lookup_lt_Some.
Qed.
Lemma route_eq d n l index ins p steps ps r before after : directory_sound d → pd_root d = Some n → shaped l n →
  to_leaf MAX_LEVELS n index ins = Ok (steps, ps, r) → flat n = before ++ ps ++ after → index = length before + r →
  reaches ins r (length ps) → 1 <= length ps <= MAX →
  route d index ins p = (check_between (left_of index (pages_of d)) p (pages_of d !! (if ins then index else S index));;
                         mret (route_of steps r (length ps))).
Proof.
  intros Hd E Hs Hto Hfl Hidx Hr Hlen. pose proof Hd as (_ & Hu & _). assert (Hp : pages_of d = before ++ ps ++ after) by (unfold pages_of; by rewrite E).
  assert (Hrle : r <= length ps) by (destruct Hr as [?|[_ ->]]; lia).
  unfold route. rewrite E. cbn [or_fail mbind try_bind]. rewrite Hto. cbn [mbind try_bind].
  assert (Hl : match r with 0 => match index with 0 => None | S i => directory_get d i end | S local => ps !! local end = left_of index (pages_of d)).
  { rewrite Hp, Hidx, <-left_in_leaf by done. destruct r; [|done]. rewrite Nat.add_0_r. unfold left_of. destruct (length before) eqn:El; [done|].
    rewrite sound_get, Hp by done. done. }
  rewrite Hl. destruct ins.
  - cbn [mret try_ret mbind try_bind]. rewrite sound_get, Hp, Hidx, right_in_leaf by done. done.
  - destruct Hr as [Hr|[? _]]; [|done]. rewrite Hp, !length_app in Hu. rewrite !count_add_ok by lia. cbn [mret try_ret mbind try_bind].
    rewrite sound_get, Hp, Hidx, <-Nat.add_assoc, !Nat.add_1_r, right_in_leaf by (done || lia). by rewrite Nat.add_succ_r.
Qed.
Lemma edit_path_ok d n l index ins steps ps r before after grow (added : bool) first edit ps' : directory_sound d → pd_root d = Some n → shaped l n →
  (l = 0 ∨ 2 <= node_width n) → l <= 15 → to_leaf MAX_LEVELS n index ins = Ok (steps, ps, r) → length steps = l → flat n = before ++ ps ++ after →
  index = length before + r → reaches ins r (length ps) → edit ps r = Ok ps' → leaf_edited added first r ps ps' →
  ordered (before ++ ps' ++ after) → (N.of_nat (length (before ++ ps' ++ after)) <= u64_max)%N →
  builds (edit_cost full d) (edit_path d (route_of steps r (length ps)) grow added first edit) (lists (before ++ ps' ++ after)).
Proof using Laws Hfull.
  intros Hd E Hs Hw Hl Hto Hsteps Hfl Hidx Hr Hedit Hleaf Ho Hu. unfold edit_path. rewrite E. eapply builds_lift_bind; [done|].
  unfold edit_cost. rewrite (height_level d n l E Hs).
  replace ((6 * N.of_nat (S l) + 2) * full)%N with ((N.of_nat (S l) + 2) * full + 5 * N.of_nat (S l) * full)%N by lia.
  eapply builds_bind; [by eapply own_ok|]. intros [] _.
  pose proof Hleaf as (Hlen' & _).
  destruct (apply_edit_ok MAX_LEVELS l n index ins steps ps r 0 (route_of steps r (length ps)) added first edit ps')
    as (n' & before' & after' & Happ & Hs' & Hw' & Hfl1 & Hfl2 & Hidx' & _); try done.
  { unfold MAX_LEVELS. lia. }
  { rewrite Hfl, Hidx, !length_app. destruct Hr as [?|[-> ->]]; [left; lia|]. destruct (decide (length after = 0)); [right; split; [done|lia]|left; lia]. }
  { rewrite Hfl, !length_app. rewrite !length_app in Hu. lia. }
  { intros k Hk. by apply (leftmost_from_iff steps r (length ps)). }
  assert (Hlens : length before' = length before) by lia. rewrite Hfl in Hfl1. apply app_inj_1 in Hfl1 as [<- Hrest]; [|done].
  apply app_inj_1 in Hrest as [_ <-]; [|done]. eapply builds_lift_bind; [exact Happ|]. apply builds_ret.
  apply (root_lists l); [done| |done|done|done]. destruct Hw; [by left|right; lia].
Qed.
Lemma insert_leaf_edited p ps r : r <= length ps → length ps < MAX → Forall page_sound ps → page_sound p →
  leaf_edited true (pg_first p) r ps (take r ps ++ p :: drop r ps).
Proof.
  intros Hr Hlen Hps Hp. pose proof (length_insert_at r p ps Hr) as Hl. unfold insert_at in Hl. split_and!; [lia|lia| |].
  - apply Forall_app_2; [by apply Forall_take|]. constructor; [done|by apply Forall_drop].
  - destruct r as [|r]; [done|]. rewrite decide_False by done. by destruct ps; [simpl in Hr; lia|].
Qed.
Lemma replace_leaf_edited p ps r : r < length ps → length ps <= MAX → Forall page_sound ps → page_sound p →
  leaf_edited false (pg_first p) r ps (<[r := p]> ps).
Proof.
  intros Hr Hlen Hps Hp. split_and!; [rewrite length_insert; lia|by rewrite length_insert|by apply Forall_insert|].
  destruct ps as [|q ps]; [simpl in Hr; lia|]. by destruct r.
Qed.
Lemma insert_middle before ps after r p : r < length ps → <[length before + r := p]> (before ++ ps ++ after) = before ++ <[r := p]> ps ++ after.
Proof. intros Hr. rewrite insert_app_r, insert_app_l by done. done. Qed.
Lemma insert_take_drop ps i p : i < length ps → <[i := p]> ps = take i ps ++ p :: drop (S i) ps.
Proof. intros Hi. by rewrite insert_take_drop. Qed.
Lemma replace_check d index p : directory_sound d → index < length (pages_of d) → page_made p →
  check_between (left_of index (pages_of d)) p (pages_of d !! S index) = Ok () ↔ ordered (<[index := p]> (pages_of d)).
Proof.
  intros (Ho & _ & _) Hi Hm. rewrite insert_take_drop by done. unfold left_of. rewrite <-last_take, <-head_drop by lia.
  apply check_between_ordered; [by apply splits_ordered|by apply splits_ordered|done|]. intros x y Hx Hy.
  destruct (splits_ordered _ index Ho) as (_ & _ & Hxy). apply Hxy; [done|]. destruct (lookup_lt_is_Some_2 _ _ Hi) as [q Hq].
  rewrite (drop_S _ _ _ Hq). change (q :: drop (S index) (pages_of d)) with ([q] ++ drop (S index) (pages_of d)). rewrite keys_app. apply elem_of_app. by right.
Qed.
Lemma ordered_page_sound ps p qs : ordered (ps ++ p :: qs) → page_sound p.
Proof. intros [[_ [? _]%Forall_cons]%Forall_app _]. done. Qed.
Lemma replace_owned_ok d index p : directory_sound d → index < length (pages_of d) → page_made p → ordered (<[index := p]> (pages_of d)) →
  builds (edit_cost full d) (replace_owned d index p) (lists (<[index := p]> (pages_of d))).
Proof using Laws Hfull.
  intros Hd Hi Hm Ho. pose proof Hd as (_ & Hu & _). unfold replace_owned. apply builds_guard; [rewrite sound_len by done; lia|].
  destruct (pd_root d) as [n|] eqn:E; [|unfold pages_of in Hi; rewrite E in Hi; simpl in Hi; lia].
  assert (Hp : pages_of d = flat n) by (unfold pages_of; by rewrite E). destruct (sound_root d n Hd E) as (l & Hs & Hw & Hl).
  destruct (to_leaf_flat MAX_LEVELS l n index false Hs) as (steps & ps & r & before & after & Hto & Hst & Hfl & Hidx & Hr & Hlen & Hsnd);
    [unfold MAX_LEVELS; lia|left; by rewrite <-Hp|].
  eapply builds_lift_bind.
  { rewrite (route_eq d n l index false p steps ps r before after) by done. apply try_bind_ok. exists (). split; [by apply replace_check|done]. }
  pose proof Hr as [Hr'|[? _]]; [|done]. assert (Hnew : <[index := p]> (pages_of d) = before ++ <[r := p]> ps ++ after) by (rewrite Hp, Hfl, Hidx; by apply insert_middle).
  rewrite Hnew in Ho |- *. assert (Hps : page_sound p).
  { rewrite insert_take_drop, <-app_assoc, app_assoc in Ho by done. by eapply ordered_page_sound. }
  eapply edit_path_ok; try done.
  - destruct (lookup_lt_is_Some_2 ps r Hr') as [q Hq]. by rewrite Hq.
  - by apply replace_leaf_edited; [|lia| |].
  - rewrite <-Hnew, length_insert. done.
Qed.
Lemma insert_owned_ok d index p : directory_sound d → index <= length (pages_of d) → page_made p →
  (N.of_nat (S (length (pages_of d))) <= u64_max)%N → ordered (insert_at index p (pages_of d)) →
  builds (edit_cost full d) (insert_owned d index p) (lists (insert_at index p (pages_of d))).
Proof using Laws Hfull.
  intros Hd Hi Hm Hu Ho. unfold insert_owned. apply builds_guard; [rewrite sound_len by done; lia|].
  destruct (pd_root d) as [n|] eqn:E; [|by apply directory_insert_ok].
  assert (Hp : pages_of d = flat n) by (unfold pages_of; by rewrite E). destruct (sound_root d n Hd E) as (l & Hs & Hw & Hl).
  destruct (to_leaf_flat MAX_LEVELS l n index true Hs) as (steps & ps & r & before & after & Hto & Hst & Hfl & Hidx & Hr & Hlen & Hsnd);
    [unfold MAX_LEVELS; lia|destruct (decide (index < length (flat n))); [by left|right; rewrite Hp in Hi; split; [done|lia]]|].
  assert (Hroute : route d index true p = Ok (route_of steps r (length ps))).
  { rewrite (route_eq d n l index true p steps ps r before after) by done. apply try_bind_ok. exists (). split; [|done].
    apply check_page_iff in Ho; [|done|done|done]. revert Ho. unfold check_page, left_of. rewrite sound_get by done. destruct index; [done|].
    by rewrite sound_get by done. }
  rewrite <-(N.add_0_l (edit_cost full d)). eapply (builds_bind _ _ _ _ (λ x, x = Some (route_of steps r (length ps)))).
  { eapply builds_lift_bind; [exact Hroute|by apply builds_ret]. }
  intros x ->. cbn [rt_width route_of].
  case_decide as Hroom; [|by apply directory_insert_ok].
  eapply builds_lift_bind; [apply count_add_ok; rewrite sound_len by done; lia|].
  assert (Hrle : r <= length ps) by (destruct Hr as [?|[_ ->]]; lia).
  assert (Hnew : insert_at index p (pages_of d) = before ++ (take r ps ++ p :: drop r ps) ++ after).
  { rewrite Hp, Hfl, Hidx. by apply insert_at_middle. }
  rewrite Hnew in Ho |- *. assert (Hps : page_sound p).
  { rewrite <-app_assoc, app_assoc in Ho. by eapply ordered_page_sound. }
  eapply edit_path_ok; try done.
  - apply try_bind_ok. exists (). split; [apply refuse_if_ok; lia|done].
  - by apply insert_leaf_edited.
  - rewrite <-Hnew, length_insert_at by done. done.
Qed.
End Owned.

(** * Runs of edits within their byte bound

    The abstract directory is a list of pages in key order; its edits are partial
    functions on lists. A run of edits on a sound directory follows the run on its
    list, and [edit_bound] bytes are enough for it. *)
(** ** Levels *)
Section Levels.
Context `{Funding, PageSizes}.
Lemma count_add_inv a b c : count_add a b = Ok c → c = a + b.
Proof. unfold count_add. destruct (_ <=? _)%N; [by intros [= <-]|done]. Qed.
Lemma charge_mul_inv a b c : charge_mul a b = Ok c → c = (a * b)%N.
Proof. unfold charge_mul, checked_mul. destruct (_ <=? _)%N; [by intros [= <-]|done]. Qed.
Lemma charge_add_inv a b c : charge_add a b = Ok c → c = (a + b)%N.
Proof. unfold charge_add, checked_add. destruct (_ <=? _)%N; [by intros [= <-]|done]. Qed.
Lemma levels_from_mono fuel pages levels r : levels_from fuel pages levels = Ok r → levels <= r.
Proof.
  revert pages levels. induction fuel as [|fuel IH]; intros pages levels; simpl; [by intros [= ->]|]. case_decide; [|by intros [= ->]].
  intros (x & Hx & Hr)%try_bind_ok. apply IH in Hr. apply count_add_inv in Hx. lia.
Qed.
Lemma div_ceil_pow l pages : 16 ^ S l < pages → 16 ^ l < div_ceil pages MIN.
Proof.
  intros Hp. unfold div_ceil, MIN. replace (pages + 16 - 1) with ((pages - 1) + 1 * 16) by lia. rewrite Nat.div_add by lia.
  assert (16 ^ l <= (pages - 1) / 16); [|lia]. apply Nat.div_le_lower_bound; [lia|]. cbn [Nat.pow] in Hp. lia.
Qed.
Lemma levels_from_pow fuel l pages levels r : l < fuel → 16 ^ l < pages → levels_from fuel pages levels = Ok r → levels + S l <= r.
Proof.
  revert l pages levels. induction fuel as [|fuel IH]; intros l pages levels Hl Hp; [lia|]. cbn [levels_from].
  assert (1 < pages) by (pose proof (Nat.pow_nonzero 16 l); lia). rewrite decide_True by done. intros (x & ->%count_add_inv & Hr)%try_bind_ok.
  destruct l as [|l]; [apply levels_from_mono in Hr; lia|]. eapply (IH l) in Hr; [lia|lia|]. by apply div_ceil_pow.
Qed.
(** One edit of a directory of at most [max] pages costs at most its share. *)
Lemma edit_bound_share edits max bound full : edit_bound edits max = Ok bound → node_charge MAX = Ok full → edits ≠ 0 →
  ∃ path, bound = (N.of_nat edits * path)%N ∧ (8 * full <= path)%N ∧ ∀ l, 16 ^ l < max → l < 64 → ((6 * N.of_nat (S l) + 2) * full <= path)%N.
Proof.
  intros Hb Hfull Hne. unfold edit_bound in Hb. rewrite decide_False in Hb by done.
  apply try_bind_ok in Hb as (levels & Hl & (six & ->%charge_mul_inv & (nodes & ->%charge_add_inv & Hb)%try_bind_ok)%try_bind_ok).
  rewrite Hfull in Hb. simpl in Hb. apply try_bind_ok in Hb as (path & ->%charge_mul_inv & ->%charge_mul_inv). eexists. split; [done|].
  unfold directory_levels in Hl. apply try_bind_ok in Hl as (lv & Hl & (u & _ & [= <-])%try_bind_ok).
  pose proof (levels_from_mono _ _ _ _ Hl) as Hmono. split; [apply N.mul_le_mono_r; lia|]. intros l Hp Hl64.
  eapply (levels_from_pow _ l) in Hl; [|done|lia]. apply N.mul_le_mono_r. lia.
Qed.
End Levels.

(** ** Edits of the list of pages *)
Section Runs.
Context {K V : Type} `{Laws : RangeKeyLaws K, Funding, PageSizes}.
#[local] Set Default Proof Using "Type Laws".
Implicit Types (p : Page K V) (ps : list (Page K V)) (d : PageDirectory K V).
Inductive PageEdit :=
  | InsertPage (index : nat) (p : Page K V)
  | ReplacePage (index : nat) (p : Page K V)
  | RemovePage (index : nat).
Implicit Types (e : PageEdit) (es : list PageEdit).
Definition edit_directory d e : Building (PageDirectory K V) :=
  match e with
  | InsertPage index p => insert_owned d index p
  | ReplacePage index p => replace_owned d index p
  | RemovePage index => remove_owned d index
  end.
Fixpoint edit_directories d es : Building (PageDirectory K V) :=
  match es with [] => mret d | e :: es => d ← edit_directory d e; edit_directories d es end.
(** The list after an edit, and whether the edit applies to the list. *)
Definition edited ps e : list (Page K V) :=
  match e with
  | InsertPage index p => insert_at index p ps
  | ReplacePage index p => <[index := p]> ps
  | RemovePage index => remove_at index ps
  end.
Definition applies ps e : Prop :=
  match e with
  | InsertPage index p => index <= length ps ∧ ordered (insert_at index p ps)
  | ReplacePage index p => index < length ps ∧ ordered (<[index := p]> ps)
  | RemovePage index => index < length ps
  end.
Fixpoint run_applies (max : nat) ps es : Prop :=
  match es with
  | [] => True
  | e :: es => applies ps e ∧ length ps <= max ∧ length (edited ps e) <= max ∧ run_applies max (edited ps e) es
  end.
Definition edit_made e : Prop := match e with InsertPage _ p | ReplacePage _ p => page_made p | RemovePage _ => True end.
Lemma edit_directory_ok full d e : node_charge MAX = Ok full → directory_sound d → edit_made e → applies (pages_of d) e →
  (N.of_nat (length (edited (pages_of d) e)) <= u64_max)%N →
  builds (edit_cost full d) (edit_directory d e) (lists (edited (pages_of d) e)).
Proof.
  intros Hfull Hd Hm Ha Hu. destruct e as [i p|i p|i]; simpl in *.
  - destruct Ha as [Hi Ho]. rewrite length_insert_at in Hu by done. by apply insert_owned_ok.
  - destruct Ha as [Hi Ho]. by apply replace_owned_ok.
  - by apply directory_remove_ok.
Qed.
Lemma edit_cost_share full d max path : directory_sound d → length (pages_of d) <= max → (8 * full <= path)%N →
  (∀ l, 16 ^ l < max → l < 64 → ((6 * N.of_nat (S l) + 2) * full <= path)%N) → (edit_cost full d <= path)%N.
Proof.
  intros Hd Hlen H8 Hshare. unfold edit_cost. destruct (pd_root d) as [n|] eqn:E; [|unfold height; rewrite E; lia].
  destruct (sound_root d n Hd E) as (l & Hs & Hw & Hl). rewrite (height_level d n l E Hs). unfold pages_of in Hlen. rewrite E in Hlen.
  destruct l as [|l]; [change (6 * N.of_nat 1 + 2)%N with 8%N; done|]. destruct Hw as [|Hw]; [done|]. apply Hshare; [|lia].
  destruct Hs as (cs & -> & _ & Hcs). simpl in Hw, Hlen. pose proof (children_many l cs Hcs). unfold MIN in *.
  pose proof (Nat.pow_nonzero 16 (S l)). nia.
Qed.
Lemma edit_directories_ok full max path d es : node_charge MAX = Ok full → (N.of_nat max <= u64_max)%N → (8 * full <= path)%N →
  (∀ l, 16 ^ l < max → l < 64 → ((6 * N.of_nat (S l) + 2) * full <= path)%N) →
  directory_sound d → Forall edit_made es → run_applies max (pages_of d) es →
  builds (N.of_nat (length es) * path) (edit_directories d es) (lists (foldl edited (pages_of d) es)).
Proof.
  intros Hfull Hmax H8 Hshare Hd Hm. revert d Hd. induction Hm as [|e es He Hm IH]; intros d Hd Hrun; cbn [edit_directories foldl length].
  - by apply builds_ret.
  - destruct Hrun as (Ha & Hle & Hle' & Hrun). replace (N.of_nat (S (length es)) * path)%N with (path + N.of_nat (length es) * path)%N by lia.
    eapply builds_bind; [eapply builds_weaken; [apply (edit_directory_ok full); try done; lia|by eapply edit_cost_share|done]|].
    intros d' [Hd' Hp]. rewrite <-Hp in Hrun |- *. by apply IH.
Qed.
(** ** Edits that are refused *)
Lemma not_ok_err (x : Try MemoryError ()) : x ≠ Ok () → ∃ err, x = Err err.
Proof. destruct x as [[]|e]; [done|by exists e]. Qed.
Lemma refuse_if_err (P : Prop) `{Decision P} (e : MemoryError) : P → refuse_if P e = Err e.
Proof. intros HP. unfold refuse_if. by rewrite decide_True. Qed.
Lemma lift_err_bind {A B} (x : Try MemoryError A) (e : MemoryError) (k : A → Building B) b : x = Err e → (lift x ≫= k) b = (Err e, b).
Proof. by intros ->. Qed.
(** The route of an edit checks the page against its neighbours. *)
Lemma route_refused d n index (ins : bool) p : directory_sound d → pd_root d = Some n → reaches ins index (length (pages_of d)) →
  check_between (left_of index (pages_of d)) p (pages_of d !! (if ins then index else S index)) ≠ Ok () → ∃ err, route d index ins p = Err err.
Proof.
  intros Hd E Hr Hn. destruct (sound_root d n Hd E) as (l & Hs & _ & Hl). assert (Hp : pages_of d = flat n) by (unfold pages_of; by rewrite E).
  destruct (to_leaf_flat MAX_LEVELS l n index ins Hs) as (steps & ps & r & before & after & Hto & _ & Hfl & Hidx & Hr' & Hlen & _);
    [unfold MAX_LEVELS; lia|by rewrite <-Hp|].
  rewrite (route_eq d n l index ins p steps ps r before after) by done. apply not_ok_err in Hn as [e ->]. by exists e.
Qed.
Lemma insert_refused d index p : directory_sound d → page_made p → ¬ applies (pages_of d) (InsertPage index p) →
  ∃ err, ∀ b, insert_owned d index p b = (Err err, b).
Proof.
  intros Hd Hm Hn. unfold insert_owned. destruct (decide (length (pages_of d) < index)) as [Hlt|Hge].
  { eexists. intros b. apply lift_err_bind. apply refuse_if_err. by rewrite sound_len. }
  assert (Hi : index <= length (pages_of d)) by lia. assert (Hck : check_page d index p ≠ Ok ()) by (rewrite check_page_iff by done; naive_solver).
  destruct (pd_root d) as [n|] eqn:E.
  - destruct (route_refused d n index true p Hd E) as [e He].
    { destruct (decide (index < length (pages_of d))); [by left|right; split; [done|lia]]. }
    { revert Hck. unfold check_page, left_of. rewrite sound_get by done. destruct index; [done|]. by rewrite sound_get by done. }
    exists e. intros b. unfold mbind, fallible_bind, lift, refuse_if. rewrite decide_False by (rewrite sound_len by done; lia).
    by rewrite He.
  - apply not_ok_err in Hck as [e He]. exists e. intros b. unfold directory_insert, mbind, fallible_bind, lift, refuse_if.
    rewrite !decide_False by (rewrite sound_len by done; lia). simpl. by rewrite He.
Qed.
Lemma replace_refused d index p : directory_sound d → page_made p → ¬ applies (pages_of d) (ReplacePage index p) →
  ∃ err, ∀ b, replace_owned d index p b = (Err err, b).
Proof.
  intros Hd Hm Hn. unfold replace_owned. destruct (decide (length (pages_of d) <= index)) as [Hle|Hlt].
  { eexists. intros b. apply lift_err_bind. apply refuse_if_err. by rewrite sound_len. }
  assert (Hi : index < length (pages_of d)) by lia.
  destruct (pd_root d) as [n|] eqn:E; [|unfold pages_of in Hi; rewrite E in Hi; simpl in Hi; lia].
  destruct (route_refused d n index false p Hd E) as [e He]; [by left|rewrite replace_check by done; naive_solver|].
  exists e. intros b. unfold mbind, fallible_bind, lift, refuse_if. rewrite decide_False by (rewrite sound_len by done; lia). by rewrite He.
Qed.
Lemma remove_refused d index : directory_sound d → ¬ applies (pages_of d) (RemovePage index) →
  ∃ err, ∀ b, remove_owned d index b = (Err err, b).
Proof.
  intros Hd Hn. simpl in Hn. unfold remove_owned, directory_remove. destruct (pd_root d) as [n|] eqn:E; [|by eexists].
  eexists. intros b. unfold mbind at 1, fallible_bind at 1. simpl. apply lift_err_bind, refuse_if_err.
  destruct (sound_root d n Hd E) as (l & Hs & _). rewrite (shaped_pages l n Hs). unfold pages_of in Hn. rewrite E in Hn. lia.
Qed.
Lemma edit_refused d e : directory_sound d → edit_made e → ¬ applies (pages_of d) e → ∃ err, ∀ b, edit_directory d e b = (Err err, b).
Proof. destruct e as [i p|i p|i]; intros; [by apply insert_refused|by apply replace_refused|by apply remove_refused]. Qed.
End Runs.
