(* ===== verification/PageStore.v ===== *)
(** * The range store (focal-memory: range.rs, range_groups.rs, range_preflight.rs)

    A store holds one published root: a page directory, the number of its rows
    and the prefix it stands at. A batch of changes is planned against a root,
    which quotes what it will be charged; the plan is built into a candidate
    root beside the published one; the candidate is published where the root it
    was built on is still the one published.

    Retained rows are copied by [Clone]; the hook for replaced rows does nothing.
    Roots are values with the address they were allocated at, which is what
    [Arc::ptr_eq] compares. Every reservation is asked of [Funding], whose state
    is anything, so credit that a dropped page or permit gives back is part of
    its answers. What leases do is in [Snapshots]; the in-place publication is not
    in this file. *)
From stdpp Require Import prelude gmap strings list sorting.
From Stdlib Require Import NArith.
From S2P Require Import Prelude Fallible Budget Pages PageDirectory.

#[local] Open Scope N_scope.
Record Root (K V : Type) := {
  ro_address : N; ro_owner : N; ro_range : N; ro_prefix : N; ro_pages : PageDirectory K V; ro_len : nat
}.
Arguments ro_address {_ _} _.
Arguments ro_owner {_ _} _.
Arguments ro_range {_ _} _.
Arguments ro_prefix {_ _} _.
Arguments ro_pages {_ _} _.
Arguments ro_len {_ _} _.
Record PreparedRange (K V : Type) := { pr_base : Root K V; pr_root : Root K V }.
Arguments pr_base {_ _} _.
Arguments pr_root {_ _} _.
(** A snapshot lease as its owner keeps it: what [Weak::ptr_eq] compares is the
    address it was allocated at. *)
Record LeaseState (K V : Type) := {
  le_address : N; le_root : Root K V; le_id : N; le_expires_at : N; le_config : RangeConfig
}.
Arguments le_address {_ _} _.
Arguments le_root {_ _} _.
Arguments le_id {_ _} _.
Arguments le_expires_at {_ _} _.
Arguments le_config {_ _} _.
Record RangeStore (K V : Type) := {
  rs_root : Root K V; rs_config : RangeConfig; rs_partition : option (K → N); rs_state : N; rs_states : N;
  rs_pins : gmap N (LeaseState K V); rs_next_lease : N; rs_clock : N
}.
Arguments rs_root {_ _} _.
Arguments rs_config {_ _} _.
Arguments rs_partition {_ _} _.
Arguments rs_state {_ _} _.
Arguments rs_states {_ _} _.
Arguments rs_pins {_ _} _.
Arguments rs_next_lease {_ _} _.
Arguments rs_clock {_ _} _.

(** ** Reads *)
Section Roots.
Context {K V : Type} `{RangeKey K}.
Implicit Types (r : Root K V) (k : K).
Definition root_get r k : option (Entry K V) := p ← page_of (ro_pages r) k; page_find p k.
Definition root_seek r (key : option K) (exclusive : bool) : nat * nat :=
  match key with
  | None => (0%nat, 0%nat)
  | Some k =>
      let index := page_index (ro_pages r) k in
      match directory_get (ro_pages r) index with
      | None => (0%nat, 0%nat)
      | Some p =>
          (index, partition_point (λ e, if exclusive then bool_decide (key_le (en_key e) k) else bool_decide (key_lt (en_key e) k))
                    (pg_entries p))
      end
  end.
Definition root_from r (page offset : nat) : list (Entry K V) :=
  concat (imap (λ i p, drop (if decide (i = 0%nat) then offset else 0%nat) (pg_entries p)) (directory_from (ro_pages r) page)).
Definition entries r : list (Entry K V) := root_from r 0 0.
Definition entries_from r k (exclusive : bool) : list (Entry K V) :=
  let '(page, offset) := root_seek r (Some k) exclusive in root_from r page offset.
End Roots.

(** ** Groups *)
(** The changes of one page: its rank in the base and the page, and how many of
    the remaining changes it takes. *)
Record LeafGroup (K V : Type) := { lg_rank : nat; lg_count : nat; lg_page : option (Page K V) }.
Arguments lg_rank {_ _} _.
Arguments lg_count {_ _} _.
Arguments lg_page {_ _} _.
Section Groups.
Context {K V : Type} `{RangeKey K}.
Definition group_next (pages : PageDirectory K V) (remaining : list (RowChange K V)) : Try MemoryError (option (LeafGroup K V)) :=
  match head remaining with
  | None => mret None
  | Some first =>
      if directory_is_empty pages then mret (Some {| lg_rank := 0; lg_count := length remaining; lg_page := None |}) else
      located ← or_fail (locate pages (change_key first)) MemoryError.MissingKey;
      let boundary := p ← lc_next located; page_first_key p in
      let count := partition_point (λ c, match boundary with None => true | Some b => bool_decide (key_lt (change_key c) b) end) remaining in
      refuse_if (count = 0%nat) (MemoryError.InvalidConfiguration "range directory did not select a nonempty change group");;
      mret (Some {| lg_rank := lc_rank located; lg_count := count; lg_page := Some (lc_page located) |})
  end.
End Groups.

(** ** Plans *)
Record Counts := { co_output_pages : nat; co_new_pages : nat; co_directory_edits : nat; co_new_pages_bytes : N; co_merge_pending_bytes : N }.
Record RangePreparationCharges := {
  ch_input_pending_bytes : N; ch_directory_bytes : N; ch_new_pages_bytes : N; ch_merge_pending_bytes : N;
  ch_additional_peak_bytes : N; ch_additional_retained_bytes : N
}.
Record RangePreparationPlan (K V : Type) := {
  pp_base : Root K V; pp_prefix : N; pp_changes : list (RowChange K V); pp_lane : BudgetLane;
  pp_new_len : nat; pp_output_pages : nat; pp_charges : RangePreparationCharges
}.
Arguments pp_base {_ _} _.
Arguments pp_prefix {_ _} _.
Arguments pp_changes {_ _} _.
Arguments pp_lane {_ _} _.
Arguments pp_new_len {_ _} _.
Arguments pp_output_pages {_ _} _.
Arguments pp_charges {_ _} _.

Section Planning.
Context {K V : Type} `{RangeKey K, PageSizes}.
Implicit Types (s : RangeStore K V) (c : RowChange K V) (cs : list (RowChange K V)) (e : Entry K V).
Definition label_of (partition : option (K → N)) (k : K) : N := match partition with Some classify => classify k | None => 0 end.
Definition merged_cells (partition : option (K → N)) (old : list (Entry K V)) cs : list (MergeEntry K V * N) :=
  (λ '(k, m), (m, label_of partition k)) <$> visit_merged old cs.
Definition count_leaf (span : LeafSpan) : Fallible Counts MemoryError () :=
  co ← gets id;
  output ← lift (count_add (co_output_pages co) 1);
  new ← lift (count_add (co_new_pages co) 1);
  charge ← lift (page_charge (ls_len span) (ls_heap span));
  bytes ← lift (charge_add (co_new_pages_bytes co) charge);
  modify (λ co, {| co_output_pages := output; co_new_pages := new; co_directory_edits := co_directory_edits co;
                   co_new_pages_bytes := bytes; co_merge_pending_bytes := co_merge_pending_bytes co |}).
(** [Counts::merge]: how many pages a merge makes. *)
Definition count_merge (config : RangeConfig) (partition : option (K → N)) (old : list (Entry K V)) cs : Fallible Counts MemoryError nat :=
  initial ← gets co_new_pages;
  quote_cells config count_leaf (merged_cells partition old cs);;
  capacity ← lift (count_add (length old) (length cs));
  charge ← lift (merge_partition_charge (bool_decide (is_Some partition)) capacity);
  modify (λ co, {| co_output_pages := co_output_pages co; co_new_pages := co_new_pages co; co_directory_edits := co_directory_edits co;
                   co_new_pages_bytes := co_new_pages_bytes co; co_merge_pending_bytes := N.max (co_merge_pending_bytes co) charge |});;
  new ← gets co_new_pages;
  lift (refuse_if (new < initial)%nat MemoryError.MissingKey);;
  mret (new - initial)%nat.
Definition count_edits (edits : nat) : Fallible Counts MemoryError () :=
  held ← gets co_directory_edits;
  total ← lift (count_add held edits);
  modify (λ co, {| co_output_pages := co_output_pages co; co_new_pages := co_new_pages co; co_directory_edits := total;
                   co_new_pages_bytes := co_new_pages_bytes co; co_merge_pending_bytes := co_merge_pending_bytes co |}).
(** The rows and the input bytes after the changes of one page. *)
Definition tally (page : option (Page K V)) (acc : nat * N) c : Try MemoryError (nat * N) :=
  let '(len, input) := acc in
  match c, p ← page; page_find p (change_key c) with
  | RowChange.Put _, Some _ => mret (len, input)
  | RowChange.Put _, None => len ← count_add len 1; mret (len, input)
  | RowChange.Delete _, Some existing =>
      input ← charge_add input (en_heap_bytes existing);
      match len with O => Err MemoryError.MissingKey | S len => mret (len, input) end
  | RowChange.Delete _, None => Err MemoryError.MissingKey
  end.
Definition plan_group s (pages : PageDirectory K V) (group : LeafGroup K V) cs : Fallible Counts MemoryError () :=
  let merge := count_merge (rs_config s) (rs_partition s) in
  match lg_page group with
  | None =>
      lift (refuse_if (directory_is_empty pages = false) MemoryError.MissingKey);;
      produced ← merge [] cs;
      count_edits produced
  | Some page =>
      reusable ← lift (reusable_page page cs (rs_config s) (rs_partition s));
      match reusable with
      | Some split =>
          lhs ← merge [] (take split cs);
          rhs ← merge [] (drop split cs);
          both ← lift (count_add lhs rhs);
          count_edits both
      | None =>
          produced ← merge (pg_entries page) cs;
          output ← gets co_output_pages;
          lift (refuse_if (output = 0%nat) MemoryError.MissingKey);;
          modify (λ co, {| co_output_pages := output - 1; co_new_pages := co_new_pages co; co_directory_edits := co_directory_edits co;
                           co_new_pages_bytes := co_new_pages_bytes co; co_merge_pending_bytes := co_merge_pending_bytes co |});;
          count_edits (Nat.max produced 1)
      end
  end.
(** The loop over groups: every group takes a change, so one turn a change is enough. *)
Fixpoint plan_groups (fuel : nat) s (pages : PageDirectory K V) cs (acc : nat * N) : Fallible Counts MemoryError (nat * N) :=
  group ← lift (group_next pages cs);
  match group, fuel with
  | None, _ => mret acc
  | Some _, O => mret acc
  | Some group, S fuel =>
      let selected := take (lg_count group) cs in
      acc ← lift (try_fold (tally (lg_page group)) acc selected);
      plan_group s pages group selected;;
      plan_groups fuel s pages (drop (lg_count group) cs) acc
  end.
Definition change_le c c' : Prop := key_le (change_key c) (change_key c').
#[global] Instance change_le_dec : RelDecision change_le.
Proof. intros c c'. unfold change_le. apply _. Defined.
Fixpoint has_duplicate cs : bool :=
  match cs with
  | c :: cs => is_some_and (λ c', bool_decide (change_key c = change_key c')) (head cs) || has_duplicate cs
  | [] => false
  end.
Definition input_of (config : RangeConfig) (input : N) c : Try MemoryError N :=
  match c with
  | RowChange.Put e => check_entry (en_heap_bytes e) config;; charge_add input (en_heap_bytes e)
  | RowChange.Delete _ => mret input
  end.
Definition plan_charges (base : Root K V) (input : N) (co : Counts) : Try MemoryError RangePreparationCharges :=
  root ← root_charge;
  leaves ← count_add (directory_len (ro_pages base)) (co_new_pages co);
  bound ← edit_bound (co_directory_edits co) leaves;
  directory ← charge_add root bound;
  retained ← charge_add directory (co_new_pages_bytes co);
  pending ← charge_add input (co_merge_pending_bytes co);
  peak ← charge_add retained pending;
  mret {| ch_input_pending_bytes := input; ch_directory_bytes := directory; ch_new_pages_bytes := co_new_pages_bytes co;
          ch_merge_pending_bytes := co_merge_pending_bytes co; ch_additional_peak_bytes := peak; ch_additional_retained_bytes := retained |}.
(** [plan_root]; [capacity] is the room of the caller's vector. *)
Definition plan_root s (base : Root K V) (prefix : N) cs (capacity : nat) (lane : BudgetLane) (max_bytes : N) (max_entries : nat) :
    Try MemoryError (RangePreparationPlan K V) :=
  expected ← or_fail (checked_add (ro_prefix base) 1) (MemoryError.CounterExhausted "published prefix");
  refuse_if (prefix ≠ expected) (MemoryError.PrefixMismatch expected prefix);;
  refuse_if (max_entries < length cs)%nat (MemoryError.Capacity (N.of_nat (length cs)) (N.of_nat max_entries));;
  let cs := merge_sort change_le cs in
  refuse_if (has_duplicate cs = true) MemoryError.DuplicateKey;;
  input ← (if decide (capacity = 0%nat) then mret 0
           else held ← charge_mul (N.of_nat capacity) size_of_Change; charge_add ALLOCATOR_OVERHEAD held);
  input ← try_fold (input_of (rs_config s)) input cs;
  let counts := {| co_output_pages := directory_len (ro_pages base); co_new_pages := 0; co_directory_edits := 0;
                   co_new_pages_bytes := 0; co_merge_pending_bytes := 0 |} in
  let '(planned, counts) := plan_groups (length cs) s (ro_pages base) cs (ro_len base, input) counts in
  '(new_len, input) ← planned;
  charges ← plan_charges base input counts;
  refuse_if (max_bytes < ch_additional_peak_bytes charges) (MemoryError.Capacity (ch_additional_peak_bytes charges) max_bytes);;
  mret {| pp_base := base; pp_prefix := prefix; pp_changes := cs; pp_lane := lane; pp_new_len := new_len;
          pp_output_pages := co_output_pages counts; pp_charges := charges |}.
Definition plan_batch s prefix cs capacity lane max_bytes := plan_root s (rs_root s) prefix cs capacity lane max_bytes (max_batch_entries (rs_config s)).
Definition plan_bounded s prefix cs capacity lane max_bytes max_entries := plan_root s (rs_root s) prefix cs capacity lane max_bytes max_entries.
Definition plan_after s (predecessor : PreparedRange K V) prefix cs capacity lane max_bytes : Try MemoryError (RangePreparationPlan K V) :=
  refuse_if (ro_owner (pr_root predecessor) ≠ ro_owner (rs_root s)) MemoryError.WrongRange;;
  plan_root s (pr_root predecessor) prefix cs capacity lane max_bytes (max_batch_entries (rs_config s)).
End Planning.

(** ** Building *)
(** What the pages of a merge are made from and go to: the rows still to come,
    the directory, the pages made so far, and the build that pays for them. *)
Record Merging (K V : Type) `{Funding} := {
  mg_incoming : list (Entry K V); mg_pages : PageDirectory K V; mg_produced : nat; mg_build : DirectoryBuild
}.
Arguments mg_incoming {_ _ _} _.
Arguments mg_pages {_ _ _} _.
Arguments mg_produced {_ _ _} _.
Arguments mg_build {_ _ _} _.
(** Where a build stands: the changes left, the directory so far, how much of
    the base is behind it and how many pages stand for that. *)
Record Progress (K V : Type) := { pg_left : list (RowChange K V); pg_directory : PageDirectory K V; pg_base_after : nat; pg_output_after : nat }.
Arguments pg_left {_ _} _.
Arguments pg_directory {_ _} _.
Arguments pg_base_after {_ _} _.
Arguments pg_output_after {_ _} _.

Section Building.
Context {K V : Type} `{RangeKey K, Funding, PageSizes}.
Implicit Types (s : RangeStore K V) (p : Page K V) (c : RowChange K V) (cs : list (RowChange K V)) (e : Entry K V).
Definition Merge : Type → Type := Fallible (Merging K V) MemoryError.
Definition in_build {A} (m : Building A) : Merge A := λ g,
  let '(x, b) := m (mg_build g) in
  (x, {| mg_incoming := mg_incoming g; mg_pages := mg_pages g; mg_produced := mg_produced g; mg_build := b |}).
Definition reserve_as (kind : BudgetKind) (bytes : N) : Building () := lane ← gets bd_lane; on_fund (fund_reserve kind lane bytes).
Definition puts cs : list (Entry K V) := omap (λ c, match c with RowChange.Put e => Some e | RowChange.Delete _ => None end) cs.
(** The rows of one page: a retained row is copied, an incoming one moves. *)
Fixpoint fill_rows (cells : list (MergeEntry K V * N)) (incoming : list (Entry K V)) : Try MemoryError (list (Entry K V) * list (Entry K V)) :=
  match cells with
  | [] => mret ([], incoming)
  | (MergeEntry.Retained e, _) :: cells => '(rows, incoming) ← fill_rows cells incoming; mret (e :: rows, incoming)
  | (MergeEntry.Incoming _ _, _) :: cells =>
      match incoming with
      | [] => Err MemoryError.MissingKey
      | e :: incoming => '(rows, incoming) ← fill_rows cells incoming; mret (e :: rows, incoming)
      end
  end.
(** Where a page of the merge goes. *)
Definition place_page (rank : nat) (replace : bool) p : Merge () :=
  produced ← gets mg_produced;
  at_ ← lift (count_add rank produced);
  pages ← gets mg_pages;
  pages ← in_build (if decide (replace = true ∧ produced = 0%nat) then replace_owned pages at_ p else insert_owned pages at_ p);
  next ← lift (count_add produced 1);
  modify (λ g, {| mg_incoming := mg_incoming g; mg_pages := pages; mg_produced := next; mg_build := mg_build g |}).
Definition emit_leaf (cells : list (MergeEntry K V * N)) (emit_page : Page K V → Merge ()) (span : LeafSpan) : Merge () :=
  stop ← lift (count_add (ls_start span) (ls_len span));
  lift (refuse_if (length cells < stop)%nat MemoryError.MissingKey);;
  bytes ← lift (page_charge (ls_len span) (ls_heap span));
  in_build (reserve_as BudgetKind.Pages bytes);;
  incoming ← gets mg_incoming;
  '(rows, incoming) ← lift (fill_rows (take (ls_len span) (drop (ls_start span) cells)) incoming);
  modify (λ g, {| mg_incoming := incoming; mg_pages := mg_pages g; mg_produced := mg_produced g; mg_build := mg_build g |});;
  emit_page (page_new rows).
(** [merge_partition_with], of either label. *)
Definition merge_page s (old : list (Entry K V)) cs (emit_page : Page K V → Merge ()) : Merge () :=
  max_entries ← lift (count_add (length old) (length cs));
  staging ← lift (merge_partition_charge (bool_decide (is_Some (rs_partition s))) max_entries);
  in_build (reserve_as BudgetKind.Pending staging);;
  let cells := merged_cells (rs_partition s) old cs in
  lift (refuse_if (max_entries < length cells)%nat (MemoryError.Capacity (N.of_nat max_entries + 1) (N.of_nat max_entries)));;
  cut (rs_config s) (emit_leaf cells emit_page) cells;;
  incoming ← gets mg_incoming;
  lift (refuse_if (incoming ≠ []) MemoryError.MissingKey).
(** One merge of a build: the directory with its pages, and how many they are. *)
Definition merge_at s (pages : PageDirectory K V) (old : list (Entry K V)) cs (rank : nat) (replace : bool) :
    Building (PageDirectory K V * nat) := λ b,
  let '(x, g) := merge_page s old cs (place_page rank replace)
    {| mg_incoming := puts cs; mg_pages := pages; mg_produced := 0; mg_build := b |} in
  match x with
  | Err e => (Err e, mg_build g)
  | Ok () =>
      (if decide (replace = true ∧ mg_produced g = 0%nat)
       then pages ← remove_owned (mg_pages g) rank; mret (pages, 0%nat)
       else mret (mg_pages g, mg_produced g)) (mg_build g)
  end.
Definition build_group s (base : PageDirectory K V) (pages : PageDirectory K V) (group : LeafGroup K V) cs (rank : nat) :
    Building (PageDirectory K V * nat) :=
  reusable ← lift match lg_page group with
                  | Some page => reusable_page page cs (rs_config s) (rs_partition s)
                  | None => mret None
                  end;
  match reusable with
  | Some split =>
      '(pages, before) ← merge_at s pages [] (take split cs) rank false;
      through ← lift (count_add before 1);
      lift (refuse_if (lg_count group < split)%nat MemoryError.MissingKey);;
      next ← lift (count_add rank through);
      '(pages, after) ← merge_at s pages [] (drop split cs) next false;
      produced ← lift (count_add through after);
      mret (pages, produced)
  | None =>
      match lg_page group with
      | Some page => merge_at s pages (pg_entries page) cs rank true
      | None => lift (refuse_if (directory_is_empty base = false) MemoryError.MissingKey);; merge_at s pages [] cs rank false
      end
  end.
Definition build_step s (base : PageDirectory K V) (w : Progress K V) (group : LeafGroup K V) : Building (Progress K V) :=
  untouched ← lift (or_fail (if decide (pg_base_after w <= lg_rank group)%nat then Some (lg_rank group - pg_base_after w)%nat else None)
                      MemoryError.MissingKey);
  rank ← lift (count_add (pg_output_after w) untouched);
  lift (refuse_if (length (pg_left w) < lg_count group)%nat MemoryError.MissingKey);;
  '(pages, produced) ← build_group s base (pg_directory w) group (take (lg_count group) (pg_left w)) rank;
  base_after ← lift (count_add (lg_rank group) 1);
  output_after ← lift (count_add rank produced);
  mret {| pg_left := drop (lg_count group) (pg_left w); pg_directory := pages; pg_base_after := base_after; pg_output_after := output_after |}.
Fixpoint build_groups (fuel : nat) s (base : PageDirectory K V) (w : Progress K V) : Building (Progress K V) :=
  group ← lift (group_next base (pg_left w));
  match group, fuel with
  | None, _ => mret w
  | Some _, O => mret w
  | Some group, S fuel => w ← build_step s base w group; build_groups fuel s base w
  end.
(** [prepare_planned_with]: [address] is where the new root is allocated. *)
Definition prepare_planned s (plan : RangePreparationPlan K V) (address : N) : Fallible fund MemoryError (PreparedRange K V) := λ f,
  match root_charge with
  | Err e => (Err e, f)
  | Ok root_bytes =>
      match fund_reserve BudgetKind.Roots (pp_lane plan) root_bytes f with
      | (Err e, f) => (Err e, f)
      | (Ok (), f) =>
          match checked_sub (ch_directory_bytes (pp_charges plan)) root_bytes with
          | None => (invalid "invalid directory quote", f)
          | Some node_bound =>
              let base := ro_pages (pp_base plan) in
              let start := {| pg_left := pp_changes plan; pg_directory := base; pg_base_after := 0; pg_output_after := 0 |} in
              let '(x, b) := build_groups (length (pp_changes plan)) s base start
                {| bd_lane := pp_lane plan; bd_remaining := node_bound; bd_fund := f |} in
              (w ← x;
               refuse_if (pg_left w ≠ []) MemoryError.MissingKey;;
               refuse_if (directory_len (pg_directory w) ≠ pp_output_pages plan) (MemoryError.InvalidConfiguration "range plan page count changed");;
               mret {| pr_base := pp_base plan;
                       pr_root := {| ro_address := address; ro_owner := ro_owner (pp_base plan); ro_range := ro_range (rs_root s);
                                     ro_prefix := pp_prefix plan; ro_pages := pg_directory w; ro_len := pp_new_len plan |} |}, bd_fund b)
          end
      end
  end.
(** [build_in_with] from the store's own budget, then [prepare_batch]. *)
Definition build s (plan : RangePreparationPlan K V) (address : N) : Fallible fund MemoryError (PreparedRange K V) :=
  fund_reserve BudgetKind.Pending (pp_lane plan) (ch_input_pending_bytes (pp_charges plan));;
  prepare_planned s plan address.
Definition prepare_batch s (prefix : N) cs (capacity : nat) (lane : BudgetLane) (address : N) : Fallible fund MemoryError (PreparedRange K V) :=
  plan ← lift (plan_batch s prefix cs capacity lane u64_max);
  build s plan address.
Definition prepare_after s (predecessor : PreparedRange K V) (prefix : N) cs (capacity : nat) (lane : BudgetLane) (address : N) :
    Fallible fund MemoryError (PreparedRange K V) :=
  plan ← lift (plan_after s predecessor prefix cs capacity lane u64_max);
  build s plan address.
End Building.

(** ** Publication *)
Section Publishing.
Context {K V : Type}.
Implicit Types (s : RangeStore K V) (q : PreparedRange K V) (r : Root K V).
Definition check_base q (base : Root K V) : Try MemoryError () :=
  refuse_if (ro_range (pr_root q) ≠ ro_range base ∨ ro_address (pr_base q) ≠ ro_address base) MemoryError.WrongRange;;
  refuse_if (ro_prefix (pr_base q) ≠ ro_prefix base) (MemoryError.StalePreparation (ro_prefix (pr_base q)) (ro_prefix base));;
  refuse_if (checked_add (ro_prefix base) 1 ≠ Some (ro_prefix (pr_root q))) (MemoryError.CounterExhausted "publication chain prefix").
Definition validate_successor q next : Try MemoryError () := check_base next (pr_root q).
Fixpoint check_chain (base : Root K V) (chain : list (PreparedRange K V)) : Try MemoryError () :=
  match chain with [] => mret () | next :: chain => check_base next base;; check_chain (pr_root next) chain end.
Definition validate_chain s (chain : list (PreparedRange K V)) : Try MemoryError () := check_chain (rs_root s) chain.
Definition root_published r s : RangeStore K V :=
  {| rs_root := r; rs_config := rs_config s; rs_partition := rs_partition s; rs_state := rs_states s; rs_states := (rs_states s + 1) mod 2 ^ 64;
     rs_pins := rs_pins s; rs_next_lease := rs_next_lease s; rs_clock := rs_clock s |}.
Definition publish_recoverable q : Fallible (RangeStore K V) (MemoryError * PreparedRange K V) () := λ s,
  if decide (ro_range (pr_root q) ≠ ro_range (rs_root s)) then (Err (MemoryError.WrongRange, q), s) else
  if decide (ro_prefix (pr_base q) ≠ ro_prefix (rs_root s)) then
    (Err (MemoryError.StalePreparation (ro_prefix (pr_base q)) (ro_prefix (rs_root s)), q), s) else
  if decide (ro_address (pr_base q) ≠ ro_address (rs_root s)) then (Err (MemoryError.WrongRange, q), s) else
  (Ok (), root_published (pr_root q) s).
Definition publish q : Fallible (RangeStore K V) MemoryError () := errors_as fst (publish_recoverable q).
End Publishing.

(** ** Stores *)
Section Stores.
Context {K V : Type} `{RangeKey K, Funding, PageSizes}.
(** [new_with_partition]: [owner] is the answer of [OwnerId::new]. *)
Definition store_new (id prefix : N) (config : RangeConfig) (partition : option (K → N)) (lane : BudgetLane)
    (owner : Try MemoryError N) (address : N) : Fallible fund MemoryError (RangeStore K V) :=
  config ← lift (range_config_validate config);
  lift (layout_validate config);;
  charge ← lift root_charge;
  fund_reserve BudgetKind.Roots lane charge;;
  owner ← lift owner;
  mret {| rs_root := {| ro_address := address; ro_owner := owner; ro_range := id; ro_prefix := prefix; ro_pages := directory_new; ro_len := 0 |};
          rs_config := config; rs_partition := partition; rs_state := 0; rs_states := 1;
          rs_pins := ∅; rs_next_lease := 1; rs_clock := 0 |}.
Definition apply_batch (prefix : N) (cs : list (RowChange K V)) (capacity : nat) (lane : BudgetLane) (address : N) :
    Fallible (RangeStore K V * fund) MemoryError () := λ '(s, f),
  match prepare_batch s prefix cs capacity lane address f with
  | (Err e, f) => (Err e, (s, f))
  | (Ok prepared, f) => let '(x, s) := publish prepared s in (x, (s, f))
  end.
(** ** Restoring *)
(** The rows of the next batch: [n] of its places are left. The rows that were
    taken, their heap, and the rows that are left. *)
Fixpoint stage_chunk (config : RangeConfig) (partition : option (K → N)) (last_row : option K) (n : nat)
    (chunk : list (Entry K V)) (heap : N) (source : list (Entry K V)) : Fallible fund MemoryError (list (Entry K V) * list (Entry K V)) :=
  match n, source with
  | O, _ => mret (chunk, source)
  | S _, [] => mret (chunk, [])
  | S n, next :: rest =>
      lift (check_entry (en_heap_bytes next) config);;
      next_heap ← lift (charge_add heap (en_heap_bytes next));
      count ← lift (count_add (length chunk) 1);
      next_charge ← lift (page_charge count next_heap);
      let boundary := match partition, last chunk with
                      | Some classify, Some previous => negb (bool_decide (classify (en_key previous) = classify (en_key next)))
                      | _, _ => false
                      end in
      if decide (chunk ≠ [] ∧ (boundary = true ∨ page_bytes config < next_charge)) then mret (chunk, source) else
      let previous := match last chunk with Some e => Some (en_key e) | None => last_row end in
      lift (refuse_if (is_some_and (λ k, bool_decide (key_le (en_key next) k)) previous = true)
        (MemoryError.InvalidConfiguration "checkpoint entries must be strictly ordered"));;
      fund_reserve BudgetKind.Pending BudgetLane.Completion (en_heap_bytes next);;
      if decide (page_bytes config < next_charge) then mret (chunk ++ [next], rest)
      else stage_chunk config partition last_row n (chunk ++ [next]) next_heap rest
  end.
Definition staging_charge (chunk_limit : nat) : Try MemoryError N :=
  slot ← charge_add size_of_Change size_of_Reservation;
  slots ← charge_mul (N.of_nat chunk_limit) slot;
  charge_add (2 * ALLOCATOR_OVERHEAD) slots.
Definition last_row (r : Root K V) : option K := p ← directory_last (ro_pages r); e ← last (pg_entries p); Some (en_key e).
Definition in_fund {A} (m : Fallible fund MemoryError A) : Fallible (RangeStore K V * fund) MemoryError A := λ '(s, f),
  let '(x, f) := m f in (x, (s, f)).
(** The loop over batches: every batch takes a row, so one turn a row is enough.
    [address] is where the root of each batch is allocated. *)
Fixpoint restore_batches (fuel : nat) (address : nat → N) (source : list (Entry K V)) : Fallible (RangeStore K V * fund) MemoryError () :=
  match fuel, source with
  | _, [] => mret ()
  | O, _ => mret ()
  | S fuel, _ =>
      '(s, _) ← gets id;
      let config := rs_config s in
      let chunk_limit := Nat.min (page_entries config) (max_batch_entries config) in
      staging ← lift (staging_charge chunk_limit);
      in_fund (fund_reserve BudgetKind.Pending BudgetLane.Completion staging);;
      '(chunk, source) ← in_fund (stage_chunk config (rs_partition s) (last_row (rs_root s)) chunk_limit [] 0 source);
      next ← lift (or_fail (checked_add (ro_prefix (rs_root s)) 1) (MemoryError.CounterExhausted "checkpoint construction prefix"));
      apply_batch next (RowChange.Put <$> chunk) chunk_limit BudgetLane.Completion (address fuel);;
      restore_batches fuel address source
  end.
Definition with_prefix (prefix : N) (s : RangeStore K V) : RangeStore K V :=
  {| rs_root := {| ro_address := ro_address (rs_root s); ro_owner := ro_owner (rs_root s); ro_range := ro_range (rs_root s);
                   ro_prefix := prefix; ro_pages := ro_pages (rs_root s); ro_len := ro_len (rs_root s) |};
     rs_config := rs_config s; rs_partition := rs_partition s; rs_state := rs_state s; rs_states := rs_states s;
     rs_pins := rs_pins s; rs_next_lease := rs_next_lease s; rs_clock := rs_clock s |}.
(** [from_entries_with_partition]: no one else holds the root of a store that is
    being made, so [Arc::get_mut] gives it. *)
Definition from_entries (id prefix : N) (config : RangeConfig) (partition : option (K → N)) (owner : Try MemoryError N) (address : nat → N)
    (source : list (Entry K V)) : Fallible fund MemoryError (RangeStore K V) := λ f,
  match store_new id 0 config partition BudgetLane.Ordinary owner (address (length source)) f with
  | (Err e, f) => (Err e, f)
  | (Ok s, f) =>
      match restore_batches (length source) address source (s, f) with
      | (Err e, (_, f)) => (Err e, f)
      | (Ok (), (s, f)) => (Ok (with_prefix prefix s), f)
      end
  end.
End Stores.
