(* ===== verification/PageRows.v ===== *)
(** * Rows of a root as a map

    A root's rows are a list in key order; [row_map] is the finite map they
    stand for. Point reads are lookups in the map, scans are the rows at or past a
    key, and the merge of a page with a batch is the map updated change by change. *)
From stdpp Require Import prelude strings list sorting gmap.
From Stdlib Require Import NArith.
From S2P Require Import Prelude Fallible Budget Pages PagesLaws PageDirectory PageTree PageEdits PageEditing PageStore.

Section Rows.
Context {K V : Type} `{Laws : RangeKeyLaws K}.
#[local] Set Default Proof Using "Type Laws".
Implicit Types (e : Entry K V) (es : list (Entry K V)) (p : Page K V) (ps : list (Page K V)) (k : K) (r : Root K V).
Definition row_map es : gmap K (Entry K V) := list_to_map ((λ e, (en_key e, e)) <$> es).
(** Rows in ascending order of their keys. *)
Definition rising es : Prop := StronglySorted key_lt (en_key <$> es).
Lemma rising_nodup es : rising es → NoDup (en_key <$> es).
Proof.
  unfold rising. induction (en_key <$> es) as [|k ks IH]; [constructor|]. intros [Hs Hk]%StronglySorted_inv. constructor; [|by apply IH].
  intros Hin. rewrite Forall_forall in Hk. eapply key_lt_irrefl. by apply Hk.
Qed.
Lemma row_map_Some es k e : rising es → row_map es !! k = Some e ↔ e ∈ es ∧ en_key e = k.
Proof.
  intros Hs. unfold row_map. rewrite <-elem_of_list_to_map.
  - rewrite list_elem_of_fmap. split; [intros (e' & [= -> ->] & ?); done|]. intros [? <-]. by exists e.
  - rewrite <-list_fmap_compose. by apply rising_nodup.
Qed.
Lemma rising_app es es' : rising (es ++ es') ↔ rising es ∧ rising es' ∧ ∀ x y, x ∈ es → y ∈ es' → key_lt (en_key x) (en_key y).
Proof.
  unfold rising. rewrite fmap_app, ssorted_app. split; intros (Ha & Hb & Hx); (split_and!; [done|done|]).
  - intros x y Hxe Hy. apply Hx; by apply list_elem_of_fmap_2.
  - intros x y (e & -> & He)%list_elem_of_fmap (e' & -> & He')%list_elem_of_fmap. by apply Hx.
Qed.
Lemma key_cmp_lt x y : key_cmp x y = Lt ↔ key_lt x y.
Proof. unfold key_cmp. repeat case_decide; subst; split; try done. by intros Hlt%key_lt_irrefl. Qed.
Lemma key_cmp_eq x y : key_cmp x y = Eq ↔ x = y.
Proof. unfold key_cmp. repeat case_decide; subst; done. Qed.
Lemma probe_cmp_eq k e : probe_cmp k e = key_cmp (en_key e) k.
Proof.
  unfold probe_cmp. destruct (N.compare_spec (order_prefix (en_key e)) (order_prefix k)) as [E|Hlt|Hgt].
  - by apply past_prefix_agrees.
  - symmetry. apply key_cmp_lt. by apply prefix_agrees.
  - apply prefix_agrees in Hgt. symmetry. unfold key_cmp. rewrite decide_False by (intros E; rewrite E in Hgt; by eapply key_lt_irrefl).
    rewrite decide_False; [done|]. intros Hlt. eapply key_lt_irrefl. by eapply key_lt_trans.
Qed.
(** Binary search of a rising page finds the row of a key. *)
Lemma page_find_Some p k e : rising (pg_entries p) → page_find p k = Some e ↔ e ∈ pg_entries p ∧ en_key e = k.
Proof.
  intros Hs. unfold page_find, binary_search_by. set (f := λ x, bool_decide (probe_cmp k x = Lt)).
  assert (Hf : ∀ x, f x = true ↔ key_lt (en_key x) k) by (intros x; unfold f; by rewrite bool_decide_eq_true, probe_cmp_eq, key_cmp_lt).
  split.
  - destruct (pg_entries p !! _) as [x|] eqn:E; [|done]. case_decide as Hc; [|done]. rewrite E. intros [= ->].
    rewrite probe_cmp_eq, key_cmp_eq in Hc. split; [by eapply list_elem_of_lookup_2|done].
  - intros [[j Hj]%list_elem_of_lookup Hk]. assert (partition_point f (pg_entries p) = j) as ->.
    { apply partition_point_unique; [by apply Nat.lt_le_incl; eapply lookup_lt_Some| |].
      - intros i x Hi Hx. apply Hf. rewrite <-Hk. apply list_elem_of_split_length in Hj as (l1 & l2 & E & Hl). rewrite E in Hs, Hx.
        rewrite lookup_app_l in Hx by lia. apply rising_app in Hs as (_ & _ & Hlt). apply Hlt; [by eapply list_elem_of_lookup_2|left].
      - intros x Hx. rewrite Hj in Hx. injection Hx as <-. apply not_true_iff_false. rewrite Hf, Hk. apply key_lt_irrefl. }
    rewrite Hj. rewrite decide_True by (by rewrite probe_cmp_eq, key_cmp_eq). by rewrite Hj.
Qed.
Lemma ordered_rising ps : ordered ps → rising (rows ps).
Proof. intros [_ Hs]. unfold rising. by rewrite <-keys_rows. Qed.
Lemma ordered_page ps p : ordered ps → p ∈ ps → rising (pg_entries p).
Proof.
  intros Ho (ps1 & ps2 & ->)%list_elem_of_split. apply ordered_rising in Ho. rewrite rows_app in Ho. apply rising_app in Ho as (_ & Ho & _).
  change (rows (p :: ps2)) with (pg_entries p ++ rows ps2) in Ho. by apply rising_app in Ho as (Ho & _).
Qed.
Lemma elem_of_rows ps e : e ∈ rows ps ↔ ∃ p, p ∈ ps ∧ e ∈ pg_entries p.
Proof. unfold rows. rewrite list_elem_of_bind. naive_solver. Qed.
(** The pages that start by a key are those up to the page of its span. *)
Lemma rank_of_page ps p qs k : ordered (ps ++ p :: qs) → starts_by k p = true → (∀ q, head qs = Some q → starts_by k q = false) →
  rank_of k (ps ++ p :: qs) = length ps.
Proof.
  intros Ho Hp Hq. unfold rank_of. rewrite partition_point_app by (intros q Hin; by eapply ordered_starts).
  cbn [partition_point]. rewrite Hp. rewrite (partition_point_none _ qs); [lia|]. intros q Hin. destruct qs as [|q' qs]; [by apply elem_of_nil in Hin|].
  apply elem_of_cons in Hin as [->|Hin]; [by apply Hq|]. destruct (starts_by k q) eqn:E; [|done]. exfalso.
  apply list_elem_of_split in Hin as (l1 & l2 & ->). change (ps ++ p :: q' :: l1 ++ q :: l2) with (ps ++ [p] ++ (q' :: l1) ++ q :: l2) in Ho.
  rewrite !app_assoc in Ho. pose proof (ordered_starts k _ q l2 Ho E q') as Hs. rewrite (Hq q' eq_refl) in Hs.
  discriminate Hs. apply elem_of_app. right. left.
Qed.
(** A row is in the page of its key's span. *)
Lemma row_rank ps p qs e : ordered (ps ++ p :: qs) → e ∈ pg_entries p → rank_of (en_key e) (ps ++ p :: qs) = length ps.
Proof.
  intros Ho He. assert (Hk : en_key e ∈ page_keys p) by (by apply list_elem_of_fmap_2).
  pose proof Ho as ([_ [(s & Hs & _) Hqs]%Forall_cons]%Forall_app & _). apply rank_of_page; [done| |].
  - apply (starts_by_spec _ p s Hs). eapply page_first_least; [|done|done]. apply (ordered_page (ps ++ p :: qs)); [done|set_solver].
  - intros q Hq. destruct qs as [|q' qs]; [done|]. injection Hq as ->. apply Forall_cons in Hqs as [(t & Ht & _) _].
    apply not_true_iff_false. rewrite (starts_by_spec _ q t Ht). change (ps ++ p :: q :: qs) with (ps ++ [p] ++ q :: qs) in Ho. rewrite app_assoc in Ho.
    apply ordered_app in Ho as (_ & _ & Hx). apply key_not_le. apply Hx; apply elem_of_keys; [exists p|exists q].
    + split; [set_solver|done].
    + split; [left|by apply page_first_key_elem].
Qed.
(** Rows before the page of a key's span are before the key; rows after it are past it. *)
Lemma span_before ps k e : ordered ps → e ∈ rows (take (rank_of k ps) ps) → key_lt (en_key e) k.
Proof.
  intros Ho He. destruct (rank_of k ps) as [|i] eqn:Hr; [by apply elem_of_nil in He|]. unfold rank_of in Hr.
  destruct (lookup_lt_is_Some_2 ps (S i)) as [p Hp]; [pose proof (partition_point_le (starts_by k) ps); lia|].
  pose proof (partition_point_true (starts_by k) ps (S i) p ltac:(lia) Hp) as Hs. rewrite <-(take_drop_middle ps (S i) p Hp) in Ho.
  pose proof Ho as ([_ [(s & Hfirst & _) _]%Forall_cons]%Forall_app & _). apply (starts_by_spec k p s Hfirst) in Hs.
  apply ordered_app in Ho as (_ & _ & Hx). eapply key_lt_le_trans; [|exact Hs]. apply Hx.
  - rewrite keys_rows. by apply list_elem_of_fmap_2.
  - apply elem_of_keys. exists p. split; [left|by apply page_first_key_elem].
Qed.
Lemma span_after ps k e : ordered ps → e ∈ rows (drop (S (rank_of k ps)) ps) → key_lt k (en_key e).
Proof.
  intros Ho He. destruct (drop (S (rank_of k ps)) ps) as [|q qs] eqn:Hd; [by apply elem_of_nil in He|].
  assert (Hq : ps !! S (rank_of k ps) = Some q) by (by rewrite <-head_drop, Hd). pose proof (take_drop_middle ps _ q Hq) as Hsplit.
  assert (Hs : starts_by k q = false).
  { destruct (decide (partition_point (starts_by k) ps = 0)) as [Hz|Hnz].
    - destruct (starts_by k q) eqn:E; [|done]. destruct ps as [|p ps]; [done|]. assert (Hp : starts_by k p = false).
      { apply (partition_point_false (starts_by k) (p :: ps)). by rewrite Hz. }
      rewrite <-Hp. unfold rank_of in Hsplit. rewrite Hz in Hsplit. simpl in Hsplit. rewrite <-Hsplit in Ho.
      symmetry. eapply (ordered_starts k [p] q); [exact Ho|done|left].
    - apply (partition_point_false (starts_by k) ps). rewrite <-Hq. unfold rank_of. f_equal. lia. }
  rewrite <-Hsplit in Ho. apply ordered_app in Ho as (_ & Ho & _). pose proof Ho as [[(s & Hfirst & _) _]%Forall_cons _].
  apply not_true_iff_false in Hs. rewrite (starts_by_spec k q s Hfirst), key_not_le in Hs. eapply key_lt_le_trans; [exact Hs|].
  eapply ordered_head; [exact Ho|done|]. rewrite keys_rows. apply list_elem_of_fmap_2.
  pose proof (drop_S _ _ _ Hq) as Hdrop. rewrite Hd in Hdrop. injection Hdrop as <-. done.
Qed.
(** ** Point reads *)
Lemma root_get_row r k : directory_sound (ro_pages r) → root_get r k = row_map (rows (pages_of (ro_pages r))) !! k.
Proof.
  intros Hd. pose proof Hd as (Ho & _ & _). set (ps := pages_of (ro_pages r)) in *. pose proof (ordered_rising ps Ho) as Hrise.
  apply option_eq. intros e. rewrite row_map_Some by done. unfold root_get. rewrite sound_page_of by done. fold ps. split.
  - destruct (ps !! rank_of k ps) as [p|] eqn:E; [|done]. simpl. apply list_elem_of_lookup_2 in E.
    rewrite page_find_Some by (by eapply ordered_page). intros [He Hk]. split; [|done]. apply elem_of_rows. by exists p.
  - intros [(p & Hp & He)%elem_of_rows Hk]. apply list_elem_of_split in Hp as (ps1 & ps2 & E).
    assert (Hrank : rank_of k ps = length ps1) by (rewrite E in Ho |- *; rewrite <-Hk; by apply row_rank).
    rewrite Hrank, E, list_lookup_middle by done. simpl. apply page_find_Some; [|done]. eapply ordered_page; [exact Ho|rewrite E; set_solver].
Qed.
(** ** Scans *)
Lemma root_from_rows r page offset : directory_sound (ro_pages r) →
  root_from r page offset = match drop page (pages_of (ro_pages r)) with [] => [] | p :: ps => drop offset (pg_entries p) ++ rows ps end.
Proof.
  intros Hd. unfold root_from. rewrite sound_from by done. destruct (drop page (pages_of (ro_pages r))) as [|p ps]; [done|].
  rewrite imap_cons. simpl. f_equal. unfold rows. rewrite (imap_ext _ (λ _ q, pg_entries q)) by done.
  induction ps as [|q ps IH]; [done|]. rewrite imap_cons. simpl. f_equal. exact IH.
Qed.
Lemma entries_rows r : directory_sound (ro_pages r) → entries r = rows (pages_of (ro_pages r)).
Proof. intros Hd. unfold entries. rewrite root_from_rows by done. rewrite drop_0. by destruct (pages_of (ro_pages r)). Qed.
Definition at_or_past (k : K) (exclusive : bool) e : Prop := if exclusive then key_lt k (en_key e) else key_le k (en_key e).
#[global] Instance at_or_past_dec k exclusive e : Decision (at_or_past k exclusive e).
Proof. unfold at_or_past. destruct exclusive; apply _. Defined.
Lemma filter_all es (P : Entry K V → Prop) `{∀ e, Decision (P e)} : (∀ e, e ∈ es → P e) → filter P es = es.
Proof.
  induction es as [|e es IH]; intros Hn; [done|]. rewrite filter_cons, decide_True by (apply Hn; left). f_equal. apply IH. intros. apply Hn. by right.
Qed.
Lemma filter_rising es k (exclusive : bool) : rising es →
  drop (partition_point (λ e, if exclusive then bool_decide (key_le (en_key e) k) else bool_decide (key_lt (en_key e) k)) es) es
  = filter (at_or_past k exclusive) es.
Proof.
  assert (Hneg : ∀ e, (if exclusive then bool_decide (key_le (en_key e) k) else bool_decide (key_lt (en_key e) k)) = false ↔ at_or_past k exclusive e).
  { intros e. unfold at_or_past. destruct exclusive; rewrite bool_decide_eq_false; [apply key_not_le|]. split; [apply key_nlt|].
    intros Hle Hlt. eapply key_lt_irrefl. by eapply key_lt_le_trans. }
  induction es as [|e es IH]; intros Hs; [done|]. simpl. rewrite filter_cons.
  destruct (if exclusive then _ else _) eqn:E.
  - rewrite decide_False by (rewrite <-Hneg; congruence). apply IH. by apply StronglySorted_inv in Hs as [? _].
  - pose proof (proj1 (Hneg e) E) as He. rewrite decide_True by done. simpl. f_equal. symmetry. apply filter_all. intros e' He'.
    apply (rising_app [e] es) in Hs as (_ & _ & Hs). specialize (Hs e e' ltac:(left) He').
    unfold at_or_past in *. destruct exclusive; [by eapply key_lt_trans|]. trans (en_key e); [done|apply Hs].
Qed.
Lemma entries_from_rows r k (exclusive : bool) : directory_sound (ro_pages r) →
  entries_from r k exclusive = filter (at_or_past k exclusive) (rows (pages_of (ro_pages r))).
Proof.
  intros Hd. pose proof Hd as (Ho & _ & _). unfold entries_from, root_seek, page_index. rewrite sound_locate by done. rewrite sound_get by done.
  set (ps := pages_of (ro_pages r)) in *. unfold located_at. destruct (decide (ps = [])) as [E|Hne].
  { rewrite E. simpl. rewrite root_from_rows by done. fold ps. by rewrite E. }
  destruct (lookup_lt_is_Some_2 ps (rank_of k ps) (rank_of_lt k ps Hne)) as [p Hp]. rewrite Hp. simpl. rewrite Hp. rewrite root_from_rows by done.
  fold ps. rewrite (drop_S _ _ _ Hp). rewrite <-(take_drop_middle ps _ p Hp) at 3. rewrite rows_app. change (rows (p :: ?x)) with (pg_entries p ++ rows x).
  pose proof (list_elem_of_lookup_2 _ _ _ Hp) as Hin. rewrite filter_rising by (by eapply ordered_page). rewrite !filter_app.
  rewrite (filter_none _ (rows (take _ ps))).
  - simpl. f_equal. symmetry. apply filter_all. intros e He. apply span_after in He; [|done]. unfold at_or_past. destruct exclusive; [done|apply He].
  - intros e He Hpast. apply span_before in He; [|done]. unfold at_or_past in Hpast. eapply key_lt_irrefl. eapply key_lt_le_trans; [exact He|].
    destruct exclusive; [apply Hpast|done].
Qed.
End Rows.

(** * Merges as map updates

    What the merge of rising rows with a rising batch holds: the batch's puts and
    the rows no change names. As a finite map it is the rows updated change by
    change. *)
Section Merges.
Context {K V : Type} `{Laws : RangeKeyLaws K}.
#[local] Set Default Proof Using "Type Laws".
Implicit Types (e : Entry K V) (old es : list (Entry K V)) (c : RowChange K V) (cs : list (RowChange K V)) (k : K).
Definition rising_changes cs : Prop := StronglySorted key_lt (change_key <$> cs).
(** The rows a merge leaves. *)
Fixpoint merge_rows old cs : list (Entry K V) :=
  match cs with
  | [] => old
  | c :: cs =>
      let n := partition_point (λ e, bool_decide (key_lt (en_key e) (change_key c))) old in
      let rest := match drop n old with e :: rest => if decide (en_key e = change_key c) then rest else e :: rest | [] => [] end in
      take n old ++ match c with RowChange.Put e => [e] | RowChange.Delete _ => [] end ++ merge_rows rest cs
  end.
Definition named (k : K) cs : Prop := k ∈ change_key <$> cs.
(** A rising list around a key. *)
Lemma rising_around old k : rising old →
  let n := partition_point (λ e, bool_decide (key_lt (en_key e) k)) old in
  let rest := match drop n old with e :: rest => if decide (en_key e = k) then rest else e :: rest | [] => [] end in
  (∀ e, e ∈ take n old → key_lt (en_key e) k) ∧ (∀ e, e ∈ rest → key_lt k (en_key e)) ∧ rising rest ∧
  ∀ e, e ∈ old ↔ e ∈ take n old ∨ (en_key e = k ∧ e ∈ old) ∨ e ∈ rest.
Proof.
  intros Hs n rest. set (f := λ e, bool_decide (key_lt (en_key e) k)) in *.
  assert (Hdrop : rising (drop n old)) by (rewrite <-(take_drop n old) in Hs; by apply rising_app in Hs as (_ & ? & _)).
  assert (Hhead : ∀ e, head (drop n old) = Some e → key_le k (en_key e)).
  { intros e He. rewrite head_drop in He. apply (partition_point_false f) in He. apply bool_decide_eq_false in He. by apply key_nlt. }
  assert (Hrest : ∀ e, e ∈ drop n old ↔ e ∈ rest ∨ (en_key e = k ∧ e ∈ drop n old)).
  { intros e. unfold rest. destruct (drop n old) as [|x l]; [set_solver|]. case_decide as Hx; [|set_solver]. rewrite elem_of_cons. split.
    - intros [->|?]; [right; split; [done|by left]|by left].
    - intros [?|[_ ?]]; [by right|done]. }
  split_and!.
  - intros e [i [Hi Hlt]%lookup_take_Some]%list_elem_of_lookup. pose proof (partition_point_true f old i e Hlt Hi) as Ht.
    by apply bool_decide_eq_true in Ht.
  - intros e He. unfold rest in He. destruct (drop n old) as [|x l]; [by apply elem_of_nil in He|]. specialize (Hhead x eq_refl).
    apply (rising_app [x] l) in Hdrop as (_ & _ & Hl). case_decide as Hx.
    + rewrite <-Hx. apply Hl; [left|done].
    + assert (key_lt k (en_key x)) by (split; [done|congruence]). apply elem_of_cons in He as [->|He]; [done|].
      eapply key_lt_trans; [done|]. apply Hl; [left|done].
  - unfold rest. destruct (drop n old) as [|x l]; [done|]. case_decide; [|done]. by apply (rising_app [x] l) in Hdrop as (_ & ? & _).
  - intros e. rewrite <-(take_drop n old) at 1. rewrite elem_of_app, Hrest. split; [|].
    + intros [?|[?|[? ?]]]; [by left|by right; right|right; left]. split; [done|]. rewrite <-(take_drop n old). apply elem_of_app. by right.
    + intros [?|[[Hk Hin]|?]]; [by left| |by right; left]. rewrite <-(take_drop n old) in Hin. apply elem_of_app in Hin as [?|?]; [by left|by right; right].
Qed.
Lemma merge_rows_elem old cs : rising old → rising_changes cs →
  rising (merge_rows old cs) ∧ ∀ e, e ∈ merge_rows old cs ↔ RowChange.Put e ∈ cs ∨ (e ∈ old ∧ ¬ named (en_key e) cs).
Proof.
  revert old. induction cs as [|c cs IH]; intros old Hs Hc.
  { split; [done|]. intros e. simpl. unfold named. set_solver. }
  cbn [merge_rows]. destruct (rising_around old (change_key c) Hs) as (Hbefore & Hafter & Hrest & Helem).
  set (n := partition_point _ old) in *. set (rest := match drop n old with [] => [] | _ => _ end) in *.
  apply StronglySorted_inv in Hc as [Hc Hfirst]. rewrite Forall_forall in Hfirst. destruct (IH rest Hrest Hc) as [Hr He]. clear IH.
  assert (Hpast : ∀ e, e ∈ merge_rows rest cs → key_lt (change_key c) (en_key e)).
  { intros e [Hp|[Hin _]]%He; [|by apply Hafter]. apply Hfirst. change (en_key e) with (change_key (RowChange.Put e)). by apply list_elem_of_fmap_2. }
  assert (Htake : rising (take n old)) by (rewrite <-(take_drop n old) in Hs; by apply rising_app in Hs as (? & _)).
  split.
  - apply rising_app. split_and!; [done| |].
    + destruct c as [x|k]; simpl; [|done]. apply (rising_app [x]). split_and!; [repeat constructor|done|]. intros a b ->%list_elem_of_singleton Hb. by apply Hpast.
    + intros a b Ha Hb. apply Hbefore in Ha. apply elem_of_app in Hb as [Hb|Hb]; [|eapply key_lt_trans; [done|by apply Hpast]].
      destruct c as [x|k]; [|by apply elem_of_nil in Hb]. by apply list_elem_of_singleton in Hb as ->.
  - intros e. rewrite !elem_of_app, He. assert (Hn : named (en_key e) (c :: cs) ↔ en_key e = change_key c ∨ named (en_key e) cs).
    { unfold named. simpl. rewrite elem_of_cons. done. }
    rewrite Hn. assert (Hput : e ∈ match c with RowChange.Put x => [x] | RowChange.Delete _ => [] end ↔ RowChange.Put e = c).
    { destruct c as [x|k]; [rewrite list_elem_of_singleton; naive_solver|]. split; [by intros ?%elem_of_nil|done]. }
    rewrite Hput, elem_of_cons. split.
    + intros [Ht|[?|[?|[Hin Hnn]]]]; [right|naive_solver|naive_solver|right].
      * split; [apply Helem; by left|]. apply Hbefore in Ht. intros [E|Hnm]; [rewrite E in Ht; by eapply key_lt_irrefl|].
        eapply key_lt_irrefl. eapply key_lt_trans; [exact Ht|]. by apply Hfirst.
      * split; [apply Helem; by right; right|]. apply Hafter in Hin. intros [E|?]; [rewrite E in Hin; by eapply key_lt_irrefl|done].
    + intros [[?|?]|[Hin Hnn]]; [naive_solver|naive_solver|]. apply Helem in Hin as [?|[[? _]|?]]; naive_solver.
Qed.
(** Rising lists with the same rows are the same. *)
Lemma rising_unique es es' : rising es → rising es' → (∀ e, e ∈ es ↔ e ∈ es') → es = es'.
Proof.
  revert es'. induction es as [|e es IH]; intros [|e' es'] Hs Hs' Hel; [done|exfalso; eapply not_elem_of_nil, Hel; left|exfalso; eapply not_elem_of_nil, Hel; left|].
  pose proof (proj1 (rising_app [e] es) Hs) as (_ & Hs1 & Hlt). pose proof (proj1 (rising_app [e'] es') Hs') as (_ & Hs1' & Hlt').
  assert (e = e') as <-.
  { assert (Hin : e ∈ e' :: es') by (apply Hel; left). assert (Hin' : e' ∈ e :: es) by (apply Hel; left).
    apply elem_of_cons in Hin as [|Hin]; [done|]. apply elem_of_cons in Hin' as [|Hin']; [done|]. exfalso.
    eapply key_lt_irrefl, key_lt_trans; [apply (Hlt e e'); [left|done]|apply (Hlt' e' e); [left|done]]. }
  f_equal. apply IH; [done|done|]. intros x. specialize (Hel x). rewrite !elem_of_cons in Hel. split; intros Hx.
  - destruct (proj1 Hel (or_intror Hx)) as [->|]; [|done]. exfalso. apply (key_lt_irrefl (en_key e)). apply (Hlt e e); [left|done].
  - destruct (proj2 Hel (or_intror Hx)) as [->|]; [|done]. exfalso. apply (key_lt_irrefl (en_key e)). apply (Hlt' e e); [left|done].
Qed.
(** ** Updates of a map *)
Definition change_map (m : gmap K (Entry K V)) c : gmap K (Entry K V) :=
  match c with RowChange.Put e => <[en_key e := e]> m | RowChange.Delete k => delete k m end.
Definition change_maps (m : gmap K (Entry K V)) cs : gmap K (Entry K V) := foldl change_map m cs.
Lemma rising_changes_nodup cs : rising_changes cs → NoDup (change_key <$> cs).
Proof.
  unfold rising_changes. induction (change_key <$> cs) as [|k ks IH]; [constructor|]. intros [Hs Hk]%StronglySorted_inv. constructor; [|by apply IH].
  intros Hin. rewrite Forall_forall in Hk. eapply key_lt_irrefl. by apply Hk.
Qed.
Lemma change_maps_lookup m cs k e : NoDup (change_key <$> cs) →
  change_maps m cs !! k = Some e ↔ (RowChange.Put e ∈ cs ∧ en_key e = k) ∨ (¬ named k cs ∧ m !! k = Some e).
Proof.
  revert m. induction cs as [|c cs IH]; intros m Hc; simpl.
  { unfold named. set_solver. }
  cbn [fmap list_fmap] in Hc. apply NoDup_cons in Hc as [Hn Hc]. rewrite (IH _ Hc). unfold named. cbn [fmap list_fmap].
  rewrite !elem_of_cons. destruct (decide (k = change_key c)) as [->|Hne].
  - split.
    + intros [[Hin Hk]|[_ Hm]].
      * exfalso. apply Hn. rewrite <-Hk. change (en_key e) with (change_key (RowChange.Put e)). by apply list_elem_of_fmap_2.
      * left. destruct c as [x|x]; simpl in Hm; [rewrite lookup_insert_eq in Hm; injection Hm as ->; split; [by left|done]|by rewrite lookup_delete_eq in Hm].
    + intros [[[<-|Hin] Hk]|[Hx _]]; [right; split; [done|apply lookup_insert_eq]| |exfalso; apply Hx; by left].
      exfalso. apply Hn. rewrite <-Hk. change (en_key e) with (change_key (RowChange.Put e)). by apply list_elem_of_fmap_2.
  - assert (Hm : change_map m c !! k = m !! k) by (destruct c; simpl in *; [by apply lookup_insert_ne|by apply lookup_delete_ne]).
    rewrite Hm. split.
    + intros [[? ?]|[Hnn ?]]; [left; split; [by right|done]|right; split; [|done]]. intros [?|?]; done.
    + intros [[[<-|?] Hk]|[Hnn ?]]; [exfalso; by apply Hne|by left|right; split; [|done]]. intros ?. apply Hnn. by right.
Qed.
(** The rows a merge leaves are the rows updated change by change. *)
Lemma merge_rows_map old cs : rising old → rising_changes cs → row_map (merge_rows old cs) = change_maps (row_map old) cs.
Proof.
  intros Hs Hc. destruct (merge_rows_elem old cs Hs Hc) as [Hr Hel]. apply map_eq. intros k. apply option_eq. intros e.
  rewrite row_map_Some, change_maps_lookup, row_map_Some by (done || by apply rising_changes_nodup). rewrite Hel. split.
  - intros [[?|[? ?]] <-]; [by left|by right].
  - intros [[? ?]|[? [? <-]]]; [split; [by left|done]|split; [by right|done]].
Qed.
(** The order of changes to different keys does not matter. *)
Lemma change_maps_perm m cs cs' : cs ≡ₚ cs' → NoDup (change_key <$> cs) → change_maps m cs = change_maps m cs'.
Proof.
  intros Hp Hn. assert (Hn' : NoDup (change_key <$> cs')) by (by rewrite <-Hp). apply map_eq. intros k. apply option_eq. intros e.
  rewrite !change_maps_lookup by done. unfold named. by rewrite Hp.
Qed.
(** ** Sizes *)
Lemma row_map_size es : rising es → size (row_map es) = length es.
Proof.
  intros Hs. unfold row_map. rewrite map_size_list_to_map; [by rewrite length_fmap|]. rewrite <-list_fmap_compose. by apply rising_nodup.
Qed.
(** ** Parts *)
Definition apart (old : list (Entry K V)) cs (old' : list (Entry K V)) (cs' : list (RowChange K V)) : Prop :=
  ∀ x y, x ∈ (en_key <$> old) ++ (change_key <$> cs) → y ∈ (en_key <$> old') ++ (change_key <$> cs') → key_lt x y.
Lemma rising_changes_app cs cs' : rising_changes (cs ++ cs') ↔
  rising_changes cs ∧ rising_changes cs' ∧ ∀ x y, x ∈ change_key <$> cs → y ∈ change_key <$> cs' → key_lt x y.
Proof. unfold rising_changes. by rewrite fmap_app, ssorted_app. Qed.
Lemma merge_rows_keys old cs k : rising old → rising_changes cs → k ∈ en_key <$> merge_rows old cs → k ∈ (en_key <$> old) ++ (change_key <$> cs).
Proof.
  intros Hs Hc (e & -> & He)%list_elem_of_fmap. apply merge_rows_elem in He; [|done|done]. apply elem_of_app. destruct He as [He|[He _]].
  - right. change (en_key e) with (change_key (RowChange.Put e)). by apply list_elem_of_fmap_2.
  - left. by apply list_elem_of_fmap_2.
Qed.
Lemma merge_rows_app old cs old' cs' : rising (old ++ old') → rising_changes (cs ++ cs') → apart old cs old' cs' →
  merge_rows (old ++ old') (cs ++ cs') = merge_rows old cs ++ merge_rows old' cs'.
Proof.
  intros Hs Hc Hap. pose proof (proj1 (rising_app _ _) Hs) as (Hs1 & Hs2 & _). pose proof (proj1 (rising_changes_app _ _) Hc) as (Hc1 & Hc2 & _).
  destruct (merge_rows_elem _ _ Hs Hc) as [Hr Hel]. destruct (merge_rows_elem _ _ Hs1 Hc1) as [Hr1 Hel1]. destruct (merge_rows_elem _ _ Hs2 Hc2) as [Hr2 Hel2].
  apply rising_unique; [done| |].
  - apply rising_app. split_and!; [done|done|]. intros x y Hx Hy. apply Hap; apply merge_rows_keys; try done; by apply list_elem_of_fmap_2.
  - intros e. rewrite Hel, !elem_of_app, Hel1, Hel2. unfold named. rewrite fmap_app, elem_of_app.
    assert (H1' : e ∈ old → en_key e ∉ change_key <$> cs').
    { intros He Hn. eapply key_lt_irrefl. apply Hap; [apply elem_of_app; left; by apply list_elem_of_fmap_2|apply elem_of_app; right; exact Hn]. }
    assert (H2' : e ∈ old' → en_key e ∉ change_key <$> cs).
    { intros He Hn. eapply key_lt_irrefl. apply Hap; [apply elem_of_app; right; exact Hn|apply elem_of_app; left; by apply list_elem_of_fmap_2]. }
    naive_solver.
Qed.
Lemma merge_rows_nil cs : rising_changes cs → merge_rows [] cs = puts cs.
Proof.
  induction cs as [|c cs IH]; intros Hc; [done|]. apply StronglySorted_inv in Hc as [Hc _]. cbn [merge_rows partition_point take drop app].
  rewrite IH by done. by destruct c.
Qed.
End Merges.
