(* ===== verification/PageBuilds.v ===== *)
(** * The pages a merge makes

    A merge cuts its cells into pieces and fills a page from each. The pages hold
    the merged rows in order, each within the limits; they are as many and as
    large as the plan counted, and they take their place in the directory. *)
From stdpp Require Import prelude strings list sorting gmap.
From Stdlib Require Import NArith.
From S2P Require Import Prelude Fallible Budget Pages PagesLaws PageDirectory PageTree PageEdits PageEditing PageStore PageRows.

#[local] Open Scope N_scope.
(** ** Cells and rows *)
Section Cells.
Context {K V : Type} `{Laws : RangeKeyLaws K, PageSizes} (partition : option (K → N)).
#[local] Set Default Proof Using "Type".
Implicit Types (e : Entry K V) (old es : list (Entry K V)) (c : RowChange K V) (cs : list (RowChange K V)) (cell : MergeEntry K V * N).
Definition row_cost e : N := size_of_Entry + en_heap_bytes e.
Fixpoint rows_weight es : N := match es with [] => 0 | e :: es => row_cost e + rows_weight es end.
Lemma rows_weight_app es es' : rows_weight (es ++ es') = rows_weight es + rows_weight es'.
Proof. induction es as [|e es IH]; simpl; [done|]. rewrite IH. lia. Qed.
(** A cell and the row that fills it. *)
Definition cell_row cell e : Prop := cell_heap cell = en_heap_bytes e ∧ cell.2 = label_of partition (en_key e).
Lemma cell_row_weight cells es : Forall2 cell_row cells es → weight cells = rows_weight es.
Proof. induction 1 as [|cell e cells es [Hh _] _ IH]; simpl; [done|]. unfold cell_size, row_cost. by rewrite Hh, IH. Qed.
Lemma merged_cells_rows old cs : Forall2 cell_row (merged_cells partition old cs) (merge_rows old cs).
Proof.
  unfold merged_cells. revert old. induction cs as [|c cs IH]; intros old; cbn [visit_merged merge_rows].
  - rewrite <-list_fmap_compose. induction old as [|e old IHo]; simpl; constructor; [done|]. apply IHo.
  - set (n := partition_point _ old). assert (Hret : ∀ es, Forall2 cell_row ((λ '(k, m), (m, label_of partition k)) <$> (retained <$> es)) es).
    { intros es. rewrite <-list_fmap_compose. induction es as [|e es IHe]; simpl; constructor; [done|]. apply IHe. }
    set (rest := match drop n old with [] => [] | _ => _ end).
    destruct (match drop n old with [] => (false, []) | _ => _ end) as [held rest'] eqn:E.
    assert (rest' = rest) as ->.
    { unfold rest. destruct (drop n old) as [|e l]; [by injection E as <-|]. revert E. case_decide; by intros [= <- <-]. }
    rewrite !fmap_app. apply Forall2_app; [apply Hret|]. apply Forall2_app; [|apply IH]. destruct c; simpl; repeat constructor.
Qed.
(** ** Filling *)
Lemma fill_app (cells cells' : list (MergeEntry K V * N)) incoming : fill_rows (cells ++ cells') incoming =
  ('(es, incoming) ← fill_rows cells incoming; '(es', incoming) ← fill_rows cells' incoming; mret (es ++ es', incoming)).
Proof.
  revert incoming. induction cells as [|[[e|h ins] l] cells IH]; intros incoming; simpl.
  - by destruct (fill_rows cells' incoming) as [[? ?]|].
  - rewrite IH. destruct (fill_rows cells incoming) as [[es inc]|]; [|done]. simpl. by destruct (fill_rows cells' inc) as [[? ?]|].
  - destruct incoming as [|e incoming]; [done|]. rewrite IH. destruct (fill_rows cells incoming) as [[es inc]|]; [|done]. simpl.
    by destruct (fill_rows cells' inc) as [[? ?]|].
Qed.
Lemma fill_retained es incoming : fill_rows ((λ '(k, m), (m, label_of partition k)) <$> (retained <$> es)) incoming = Ok (es, incoming).
Proof. induction es as [|e es IH]; [done|]. cbn [fmap list_fmap retained]. cbn [fill_rows]. by rewrite IH. Qed.
Lemma fill_merged old cs rest : fill_rows (merged_cells partition old cs) (puts cs ++ rest) = Ok (merge_rows old cs, rest).
Proof.
  unfold merged_cells. revert old. induction cs as [|c cs IH]; intros old; cbn [visit_merged merge_rows].
  - apply fill_retained.
  - set (n := partition_point _ old). set (after := match drop n old with [] => [] | _ => _ end).
    destruct (match drop n old with [] => (false, []) | _ => _ end) as [held after'] eqn:E.
    assert (after' = after) as ->.
    { unfold after. destruct (drop n old) as [|e l]; [by injection E as <-|]. revert E. case_decide; by intros [= <- <-]. }
    rewrite !fmap_app, !fill_app, fill_retained. cbn [mbind try_bind]. destruct c as [x|k]; cbn [fmap list_fmap puts omap list_omap app fill_rows].
    + cbn [mbind try_bind mret try_ret]. fold (puts cs). rewrite IH. done.
    + cbn [mbind try_bind mret try_ret]. fold (puts cs). rewrite IH. done.
Qed.
Lemma fill_length cells incoming es rest : fill_rows cells incoming = Ok (es, rest) → length es = length cells.
Proof.
  revert incoming es. induction cells as [|[[e|h ins] l] cells IH]; intros incoming es; simpl; [by intros [= <- _]| |].
  - intros ([es' inc] & Hf & [= <- <-])%try_bind_ok. simpl. f_equal. by eapply IH.
  - destruct incoming as [|e incoming]; [done|]. intros ([es' inc] & Hf & [= <- <-])%try_bind_ok. simpl. f_equal. by eapply IH.
Qed.
(** The rows of each piece, and what is left to come after it. *)
Inductive fills : list (list (MergeEntry K V * N)) → list (Entry K V) → list (list (Entry K V)) → list (Entry K V) → Prop :=
  | fills_none incoming : fills [] incoming [] incoming
  | fills_piece piece pieces incoming es between ess rest :
      fill_rows piece incoming = Ok (es, between) → Forall2 cell_row piece es → fills pieces between ess rest →
      fills (piece :: pieces) incoming (es :: ess) rest.
Lemma fill_pieces pieces incoming es rest : fill_rows (concat pieces) incoming = Ok (es, rest) → Forall2 cell_row (concat pieces) es →
  ∃ ess, fills pieces incoming ess rest ∧ concat ess = es.
Proof.
  revert incoming es. induction pieces as [|piece pieces IH]; intros incoming es; simpl.
  - intros [= <- <-] _. exists []. split; [constructor|done].
  - rewrite fill_app. intros ([es1 between] & Hf1 & ([es2 rest'] & Hf2 & [= <- <-])%try_bind_ok)%try_bind_ok Hrows.
    assert (Hlen : length es1 = length piece) by (by eapply fill_length).
    apply Forall2_app_inv in Hrows as [Hr1 Hr2]; [|done]. destruct (IH _ _ Hf2 Hr2) as (ess & Hf & <-). exists (es1 :: ess). split; [by econstructor|done].
Qed.
Lemma fills_length pieces incoming ess rest : fills pieces incoming ess rest → length ess = length pieces.
Proof. induction 1; simpl; congruence. Qed.
End Cells.

(** * Building the pages of a merge into the directory

    [merge_at] puts the pages of one merge into a sound directory: its list of
    pages gets them at their rank, in place of the page that was merged. *)
Section Charges.
Context `{PageSizes}.
Lemma page_charge_eq n h base : page_charge 0 0 = Ok base → base + N.of_nat n * size_of_Entry + h <= u64_max →
  page_charge n h = Ok (base + N.of_nat n * size_of_Entry + h).
Proof.
  unfold page_charge. intros (a & Ha & (b & Hb & (c & Hc & (d & Hd & Hbase)%try_bind_ok)%try_bind_ok)%try_bind_ok)%try_bind_ok Hu.
  apply try_bind_ok in Hbase as (z & ->%charge_mul_inv & (z' & ->%charge_add_inv & ->%charge_add_inv)%try_bind_ok).
  rewrite Ha. cbn [mbind try_bind]. rewrite Hb. cbn [mbind try_bind]. rewrite Hc. cbn [mbind try_bind]. rewrite Hd. cbn [mbind try_bind].
  apply try_bind_ok. exists (N.of_nat n * size_of_Entry). split.
  { unfold charge_mul, checked_mul. rewrite (proj2 (N.leb_le _ _)) by lia. done. }
  rewrite charge_add_fits by lia. cbn [mbind try_bind]. rewrite charge_add_fits by lia. f_equal. lia.
Qed.
Lemma page_charge_inv n h base charge : page_charge 0 0 = Ok base → page_charge n h = Ok charge → charge = base + N.of_nat n * size_of_Entry + h.
Proof.
  unfold page_charge. intros (a & Ha & (b & Hb & (c & Hc & (d & Hd & Hbase)%try_bind_ok)%try_bind_ok)%try_bind_ok)%try_bind_ok.
  apply try_bind_ok in Hbase as (z & ->%charge_mul_inv & (z' & ->%charge_add_inv & ->%charge_add_inv)%try_bind_ok).
  rewrite Ha. cbn [mbind try_bind]. rewrite Hb. cbn [mbind try_bind]. rewrite Hc. cbn [mbind try_bind]. rewrite Hd. cbn [mbind try_bind].
  intros (y & ->%charge_mul_inv & (y' & ->%charge_add_inv & ->%charge_add_inv)%try_bind_ok)%try_bind_ok. lia.
Qed.
End Charges.

Section Builds.
Context {K V : Type} `{Laws : RangeKeyLaws K, Funding, PageSizes}.
#[local] Set Default Proof Using "Type Laws".
Implicit Types (p : Page K V) (ps qs : list (Page K V)) (d : PageDirectory K V) (g : Merging K V) (e : Entry K V) (es : list (Entry K V)).
(** What one edit of a directory of at most [max] pages may spend. *)
Record edit_share (full : N) (max : nat) (path : N) : Prop := {
  es_full : node_charge MAX = Ok full;
  es_max : N.of_nat max <= u64_max;
  es_least : 8 * full <= path;
  es_levels l : (16 ^ l < max)%nat → (l < 64)%nat → (6 * N.of_nat (S l) + 2) * full <= path;
}.
Lemma reserve_builds kind bytes : builds 0 (reserve_as kind bytes) (λ _, True).
Proof.
  intros b. unfold reserve_as, gets, mbind, fallible_bind, on_fund. destruct (fund_reserve kind (bd_lane b) bytes (bd_fund b)) as [[[]|err] f] eqn:E; simpl.
  - split; [done|lia].
  - left. by repeat eexists.
Qed.
Lemma page_new_made es : page_made (page_new es).
Proof. intros k. unfold page_first_key, page_new. simpl. destruct es as [|e es]; [done|]. simpl. by intros [= <-]. Qed.
Lemma ordered_skip ps qs rs : ordered (ps ++ qs ++ rs) → ordered (ps ++ rs).
Proof.
  rewrite !ordered_app. intros (Hp & (_ & Hr & _) & Hx). split_and!; [done|done|]. intros x y Hxp Hy. apply Hx; [done|]. rewrite keys_app.
  apply elem_of_app. by right.
Qed.
(** A run in a merge's state. *)
Definition spends {A} (cost : N) g (outcome : Try MemoryError A * Merging K V) (post : Merging K V → Prop) : Prop :=
  match outcome with
  | (Ok _, g') => post g' ∧ bd_remaining (mg_build g) <= bd_remaining (mg_build g') + cost
  | (Err err, _) => budget_refuses err ∨ bd_remaining (mg_build g) < cost
  end.
Lemma spends_bind {A B} c c' g (m : Merge A) (k : A → Merge B) (P Q : Merging K V → Prop) :
  spends c g (m g) P → (∀ x g', P g' → spends c' g' (k x g') Q) → spends (c + c') g ((m ≫= k) g) Q.
Proof.
  unfold spends, mbind, fallible_bind. intros Hm Hk. destruct (m g) as [[x|err] g1]; [|destruct Hm; [by left|right; lia]].
  destruct Hm as [HP Hr]. specialize (Hk x g1 HP). destruct (k x g1) as [[y|err] g2]; [destruct Hk; split; [done|lia]|].
  destruct Hk; [by left|right; lia].
Qed.
Lemma spends_build {A B} c c' g (m : Building A) (k : A → Merge B) (P : A → Prop) (Q : Merging K V → Prop) : builds c m P →
  (∀ x b, P x → let g' := {| mg_incoming := mg_incoming g; mg_pages := mg_pages g; mg_produced := mg_produced g; mg_build := b |} in spends c' g' (k x g') Q) →
  spends (c + c') g ((in_build m ≫= k) g) Q.
Proof.
  intros Hm Hk. unfold spends, mbind, fallible_bind, in_build. specialize (Hm (mg_build g)). destruct (m (mg_build g)) as [[x|err] b]; [|destruct Hm; [by left|right; lia]].
  destruct Hm as [HP Hr]. specialize (Hk x b HP). cbv zeta in Hk. unfold spends in Hk. destruct (k x _) as [[y|err] g2]; simpl in Hk; [destruct Hk; split; [done|lia]|].
  destruct Hk; [by left|right; lia].
Qed.
Lemma spends_weaken {A} c g (x : Try MemoryError A * Merging K V) (P Q : Merging K V → Prop) : spends c g x P → (∀ g', P g' → Q g') → spends c g x Q.
Proof. unfold spends. destruct x as [[?|?] ?]; naive_solver. Qed.
Lemma spends_lift {A B} c g (x : Try MemoryError A) a (k : A → Merge B) Q : x = Ok a → spends c g (k a g) Q → spends c g ((lift x ≫= k) g) Q.
Proof. by intros ->. Qed.
Lemma spends_guard {B} c g (P : Prop) `{Decision P} err (k : () → Merge B) Q : ¬ P → spends c g (k () g) Q → spends c g ((lift (refuse_if P err) ≫= k) g) Q.
Proof. intros HP Hk. eapply spends_lift; [|exact Hk]. by apply refuse_if_ok. Qed.
Lemma spends_gets {A B} c g (f : Merging K V → A) (k : A → Merge B) Q : spends c g (k (f g) g) Q → spends c g ((gets f ≫= k) g) Q.
Proof. done. Qed.
Lemma spends_modify {B} c g f (k : () → Merge B) Q : mg_build (f g) = mg_build g → spends c (f g) (k () (f g)) Q → spends c g ((modify f ≫= k) g) Q.
Proof. unfold spends, mbind, fallible_bind, modify. intros E. by rewrite E. Qed.
Lemma share_builds full max path d (edit : PageEdit) : edit_share full max path → directory_sound d → edit_made edit → applies (pages_of d) edit →
  (length (pages_of d) <= max)%nat → (length (edited (pages_of d) edit) <= max)%nat →
  builds path (edit_directory d edit) (lists (edited (pages_of d) edit)).
Proof.
  intros [Hfull Hmax H8 Hl] Hd Hm Ha Hle Hle'. eapply builds_weaken; [apply (edit_directory_ok full); try done; lia|by eapply edit_cost_share|done].
Qed.
(** ** Placing pages *)
Section Placing.
Context (full : N) (max : nat) (path : N) (Hshare : edit_share full max path).
Context (before after : list (Page K V)) (replace : bool) (merged : Page K V).
(** The merged page stands until the first page takes its place. *)
Definition standing (placed : list (Page K V)) : list (Page K V) := if decide (replace = true ∧ length placed = 0%nat) then [merged] else [].
Definition placing placed d : Prop := lists (before ++ placed ++ standing placed ++ after) d.
Lemma place_page_ok g placed p : placing placed (mg_pages g) → mg_produced g = length placed →
  page_made p → ordered (before ++ placed ++ p :: after) → (length before + length placed + length after < max)%nat →
  spends path g (place_page (length before) replace p g) (λ g',
    placing (placed ++ [p]) (mg_pages g') ∧ mg_produced g' = length (placed ++ [p]) ∧ mg_incoming g' = mg_incoming g).
Proof using Laws Hshare.
  intros [Hd Hp] Hprod Hm Ho Hmax. pose proof (es_max _ _ _ Hshare) as Hu. unfold place_page. apply spends_gets. rewrite Hprod.
  eapply spends_lift; [apply count_add_ok; lia|]. apply spends_gets.
  assert (Hstand : standing (placed ++ [p]) = []) by (unfold standing; rewrite decide_False; [done|]; rewrite length_app; simpl; lia).
  set (rank := (length before + length placed)%nat) in *.
  set (edit := if decide (replace = true ∧ length placed = 0%nat) then ReplacePage rank p else InsertPage rank p).
  assert (Hedit : edited (pages_of (mg_pages g)) edit = before ++ placed ++ p :: after ∧ (applies (pages_of (mg_pages g)) edit ↔ ordered (before ++ placed ++ p :: after))
    ∧ (length (pages_of (mg_pages g)) <= max)%nat).
  { rewrite Hp. unfold edit, standing. destruct (decide (replace = true ∧ length placed = 0%nat)) as [[Hr Hn]|Hn].
    - apply nil_length_inv in Hn as ->. simpl. unfold rank. simpl. rewrite Nat.add_0_r. rewrite insert_app_r_alt, Nat.sub_diag by done. simpl.
      rewrite !length_app. simpl. split_and!; [done| |simpl in Hmax; lia]. split; [naive_solver|]. split; [lia|done].
    - simpl. unfold insert_at, rank. rewrite app_assoc.
      rewrite <-length_app, take_app_length, drop_app_length, <-app_assoc. rewrite !length_app. split_and!; [done| |lia]. split; [naive_solver|]. split; [lia|done]. }
  destruct Hedit as (Hed & Happ & Hle). rewrite <-(N.add_0_r path). eapply spends_build.
  - eapply builds_eq; [|apply (share_builds full max path (mg_pages g) edit); [done|done| |by apply Happ|done|]].
    + intros b. unfold edit, edit_directory. by case_decide.
    + unfold edit. by case_decide.
    + rewrite Hed, !length_app. simpl. lia.
  - intros d b [Hd' Hp']. simpl. eapply spends_lift; [apply count_add_ok; lia|]. split; [|simpl; lia]. simpl.
    split_and!; [|rewrite length_app; simpl; lia|done]. unfold placing. rewrite Hstand. split; [done|]. rewrite Hp', Hed. by rewrite <-!app_assoc.
Qed.
(** ** Emitting pages *)
Context (partition : option (K → N)) (base : N) (Hbase : page_charge 0 0 = Ok base) (cells : list (MergeEntry K V * N)).
Context (Hcells : N.of_nat (length cells) <= u64_max).
Lemma emit_leaf_ok g pos piece es between (emit_page : Page K V → Merge ()) cost Q : take (length piece) (drop pos cells) = piece →
  (pos + length piece <= length cells)%nat → base + weight piece <= u64_max → fill_rows piece (mg_incoming g) = Ok (es, between) →
  (∀ b, let g' := {| mg_incoming := between; mg_pages := mg_pages g; mg_produced := mg_produced g; mg_build := b |} in spends cost g' (emit_page (page_new es) g') Q) →
  spends cost g (emit_leaf cells emit_page {| ls_start := pos; ls_len := length piece; ls_heap := heaps piece |} g) Q.
Proof using Laws Hbase Hcells.
  intros Hpiece Hpos Hw Hfill Hemit. unfold emit_leaf. cbn [ls_start ls_len ls_heap]. eapply spends_lift; [apply count_add_ok; lia|].
  apply spends_guard; [lia|]. rewrite weight_heaps in Hw. eapply spends_lift; [apply page_charge_eq; [done|lia]|].
  rewrite <-(N.add_0_l cost). eapply spends_build; [apply reserve_builds|]. intros x b _. cbv zeta. apply spends_gets. cbn [mg_incoming]. rewrite Hpiece.
  eapply spends_lift; [exact Hfill|]. cbv beta iota. apply spends_modify; [done|]. apply Hemit.
Qed.
Lemma emit_pages_ok pieces incoming ess rest pos placed g : fills partition pieces incoming ess rest → mg_incoming g = incoming →
  drop pos cells = concat pieces → (pos <= length cells)%nat → Forall (λ piece, base + weight piece <= u64_max) pieces →
  placing placed (mg_pages g) → mg_produced g = length placed →
  ordered (before ++ placed ++ (page_new <$> ess) ++ after) → (length before + length placed + length ess + length after <= max)%nat →
  spends (N.of_nat (length pieces) * path) g (each (emit_leaf cells (place_page (length before) replace)) (spans_at pos pieces) g) (λ g',
    placing (placed ++ (page_new <$> ess)) (mg_pages g') ∧ mg_produced g' = (length placed + length pieces)%nat ∧ mg_incoming g' = rest).
Proof using Laws Hbase Hcells Hshare.
  intros Hf. revert pos placed g. induction Hf as [incoming|piece pieces incoming es between ess rest Hfill Hrows Hf IH];
    intros pos placed g Hin Hdrop Hpos Hw Hpl Hprod Ho Hmax; cbn [spans_at each].
  - split; [|lia]. cbn [fmap list_fmap]. rewrite app_nil_r. split_and!; [done|simpl; lia|done].
  - apply Forall_cons in Hw as [Hw1 Hw]. simpl in Hmax, Hdrop. cbn [fmap list_fmap] in Ho.
    assert (Hlen : length (drop pos cells) = (length piece + length (concat pieces))%nat) by (by rewrite Hdrop, length_app). rewrite length_drop in Hlen.
    replace (N.of_nat (length (piece :: pieces)) * path) with (path + N.of_nat (length pieces) * path) by (simpl; lia).
    eapply (spends_bind _ _ _ _ _ (λ g', placing (placed ++ [page_new es]) (mg_pages g') ∧ mg_produced g' = length (placed ++ [page_new es]) ∧ mg_incoming g' = between));
      [eapply (emit_leaf_ok g pos piece es between); [by rewrite Hdrop, take_app_length|lia|done|by rewrite Hin|]|].
    + intros b. cbv zeta. eapply spends_weaken; [apply (place_page_ok _ placed); [done|done|apply page_new_made| |lia]|naive_solver].
      replace (before ++ placed ++ page_new es :: after) with ((before ++ placed ++ [page_new es]) ++ after) by (by rewrite <-!app_assoc).
      apply (ordered_skip _ (page_new <$> ess)). by rewrite <-!app_assoc.
    + intros [] g' (Hpl' & Hprod' & Hin'). rewrite length_app in Hprod'. simpl in Hprod'.
      specialize (IH (pos + length piece)%nat (placed ++ [page_new es]) g'). rewrite length_app in IH. simpl in IH. rewrite <-!app_assoc in IH. simpl in IH.
      eapply spends_weaken; [apply IH; try done; try lia|].
      * by rewrite <-drop_drop, Hdrop, drop_app_length.
      * intros g2 (? & ? & ?). split_and!; [done|simpl; lia|done].
Qed.
End Placing.
(** ** One merge *)
Section Merging.
Context (s : RangeStore K V) (base : N) (Hlim : cut_limits (rs_config s) base).
Implicit Types (old : list (Entry K V)) (cs : list (RowChange K V)).
(** A row the limits admit, and a page within them. *)
Definition row_admitted e : Prop := row_cost e <= max_entry_bytes (rs_config s) ∧ base + row_cost e <= u64_max.
Definition row_label e : N := label_of (rs_partition s) (en_key e).
Definition page_fits p : Prop :=
  (length (pg_entries p) <= page_entries (rs_config s))%nat ∧ base + rows_weight (pg_entries p) <= page_bytes (rs_config s)
    ∧ (∀ e e', e ∈ pg_entries p → e' ∈ pg_entries p → row_label e = row_label e')
  ∨ ∃ e, pg_entries p = [e] ∧ page_bytes (rs_config s) < base + row_cost e.
Lemma length_merge_rows old cs : (length (merge_rows old cs) <= length old + length cs)%nat.
Proof using Type.
  revert old. induction cs as [|c cs IH]; intros old; cbn [merge_rows length]; [lia|]. set (n := partition_point _ old).
  set (rest := match drop n old with [] => [] | _ => _ end). specialize (IH rest). rewrite !length_app.
  assert (length rest <= length (drop n old))%nat.
  { unfold rest. destruct (drop n old) as [|e l]; [done|]. case_decide; simpl; lia. }
  assert (length (take n old) + length (drop n old) = length old)%nat by (by rewrite <-length_app, take_drop).
  assert (length (match c with RowChange.Put e => [e] | RowChange.Delete _ => [] end : list (Entry K V)) <= 1)%nat by (destruct c; simpl; lia). lia.
Qed.
(** A piece of one partition is rows of one label. *)
Lemma unparted_labels (piece : list (MergeEntry K V * N)) es : unparted piece → Forall2 (cell_row (rs_partition s)) piece es →
  ∀ e e', e ∈ es → e' ∈ es → row_label e = row_label e'.
Proof using Type.
  intros Hun Hrows. assert (Hall : ∀ i e, es !! i = Some e → ∀ e0, es !! 0%nat = Some e0 → row_label e = row_label e0).
  { induction i as [|i IH]; intros e He e0 He0; [congruence|]. destruct (lookup_lt_is_Some_2 es i) as [e1 He1]; [apply lookup_lt_Some in He; lia|].
    rewrite <-(IH e1 He1 e0 He0). destruct (Forall2_lookup_r _ _ _ _ _ Hrows He) as (y & Hy & _ & Hly).
    destruct (Forall2_lookup_r _ _ _ _ _ Hrows He1) as (x & Hx & _ & Hlx). specialize (Hun i x y Hx Hy). simpl in Hun.
    apply negb_false_iff, bool_decide_eq_true in Hun. unfold row_label. congruence. }
  intros e e' [i Hi]%list_elem_of_lookup [j Hj]%list_elem_of_lookup. destruct (lookup_lt_is_Some_2 es 0) as [e0 H0']; [apply lookup_lt_Some in Hi; lia|].
  by rewrite (Hall i e Hi e0 H0'), (Hall j e' Hj e0 H0').
Qed.
Lemma piece_fits piece es : leaf_sound (rs_config s) base piece → Forall2 (cell_row (rs_partition s)) piece es → page_fits (page_new es).
Proof using Type.
  intros [Hne Hsound] Hrows. pose proof (cell_row_weight _ _ _ Hrows) as Hw. pose proof (Forall2_length _ _ _ Hrows) as Hl. unfold page_fits. simpl.
  destruct Hsound as [[[Hlen Hb] Hun]|(c & -> & Hbig)].
  - left. rewrite <-Hw, <-Hl. split_and!; [done|done|]. by eapply unparted_labels.
  - right. destruct es as [|e [|e' es]]; simpl in Hl; try lia. exists e. split; [done|]. unfold cell_small in Hbig. simpl in Hw. unfold cell_size in *. lia.
Qed.
Lemma fills_fit pieces incoming ess rest : fills (rs_partition s) pieces incoming ess rest → Forall (leaf_sound (rs_config s) base) pieces →
  Forall page_fits (page_new <$> ess) ∧ Forall (λ es, es ≠ []) ess.
Proof using Type.
  induction 1 as [|piece pieces incoming es between ess rest _ Hrows _ IH]; intros Hs; [split; constructor|].
  apply Forall_cons in Hs as [Hp Hs]. destruct (IH Hs). split; constructor; try done; [by eapply piece_fits|].
  destruct Hp as [Hne _]. intros ->. by apply Forall2_nil_inv_r in Hrows.
Qed.
End Merging.
End Builds.

(** * Merges as the plan counted them

    Where a plan counted the merge of a page with its changes, the merge makes
    that many pages, within the limits, that hold the merged rows; the bytes the
    plan counted are those of these pages. *)
Section Groups.
Context {K V : Type} `{Laws : RangeKeyLaws K, Funding, PageSizes}.
#[local] Set Default Proof Using "Type Laws".
Context (s : RangeStore K V) (base : N) (Hlim : cut_limits (rs_config s) base).
Implicit Types (p : Page K V) (qs : list (Page K V)) (d : PageDirectory K V) (old : list (Entry K V)) (cs : list (RowChange K V)) (co : Counts).
(** Rows and changes that a merge can take. *)
Record merge_ready old cs : Prop := {
  mr_old : rising old;
  mr_changes : rising_changes cs;
  mr_rows e : e ∈ merge_rows old cs → row_admitted s base e;
  mr_weight : rows_weight (merge_rows old cs) <= u64_max;
  mr_length : N.of_nat (length old + length cs) <= u64_max;
}.
Lemma merge_pieces old cs : merge_ready old cs →
  ∃ pieces quoted ess, fills (rs_partition s) pieces (puts cs) ess [] ∧ concat ess = merge_rows old cs ∧
  Forall (leaf_sound (rs_config s) base) pieces ∧ concat pieces = merged_cells (rs_partition s) old cs ∧
  concat quoted = merged_cells (rs_partition s) old cs ∧ length quoted = length pieces ∧
  (∀ St (emit : LeafSpan → Fallible St MemoryError ()) st, cut (rs_config s) emit (merged_cells (rs_partition s) old cs) st = each emit (spans_at 0 pieces) st) ∧
  ∀ St (emit : LeafSpan → Fallible St MemoryError ()) st, quote_cells (rs_config s) emit (merged_cells (rs_partition s) old cs) st = each emit (spans_at 0 quoted) st.
Proof using Laws Hlim.
  intros [Hold Hcs Hrow Hw Hlen]. set (cells := merged_cells (rs_partition s) old cs). pose proof (merged_cells_rows (rs_partition s) old cs) as Hrows. fold cells in Hrows.
  pose proof (length_merge_rows old cs) as Hml. pose proof (Forall2_length _ _ _ Hrows) as Hfl.
  assert (Hcell : ∀ c, c ∈ cells → ∃ e, e ∈ merge_rows old cs ∧ cell_size c = row_cost e).
  { intros c [i Hi]%list_elem_of_lookup. destruct (Forall2_lookup_l _ _ _ _ _ Hrows Hi) as (e & He & Hh & _). exists e.
    split; [by eapply list_elem_of_lookup_2|]. unfold cell_size, row_cost. by rewrite Hh. }
  destruct (cut_as_quoted (rs_config s) base cells Hlim) as (pieces & quoted & Hp & Hq & Hs & Hl & Hcut & Hquote).
  - split; [|lia|by rewrite (cell_row_weight _ _ _ Hrows)]. intros c Hc. destruct (Hcell c Hc) as (e & He & E). apply Hrow in He as [? ?]. split; rewrite E; lia.
  - intros c Hc. destruct (Hcell c Hc) as (e & He & ->). by apply Hrow in He as [_ ?].
  - pose proof (fill_merged (rs_partition s) old cs []) as Hfill. rewrite app_nil_r in Hfill. fold cells in Hfill. rewrite <-Hp in Hfill, Hrows.
    destruct (fill_pieces _ _ _ _ _ Hfill Hrows) as (ess & Hf & Hc). by exists pieces, quoted, ess.
Qed.
(** ** Counting *)
(** The counts after [n] more pages of [bytes] in all. *)
Definition counted (n : nat) (bytes : N) co co' : Prop :=
  co_output_pages co' = (co_output_pages co + n)%nat ∧ co_new_pages co' = (co_new_pages co + n)%nat ∧
  co_directory_edits co' = co_directory_edits co ∧ co_new_pages_bytes co' = co_new_pages_bytes co + bytes.
Lemma count_each pieces pos co co' : each count_leaf (spans_at (T := MergeEntry K V * N) pos pieces) co = (Ok (), co') →
  counted (length pieces) (N.of_nat (length pieces) * base + weight (concat pieces)) co co' ∧ co_merge_pending_bytes co' = co_merge_pending_bytes co.
Proof using Hlim.
  revert pos co. induction pieces as [|piece pieces IH]; intros pos co; cbn [spans_at each].
  - intros [= <-]. unfold counted. simpl. split_and!; try done; lia.
  - intros ([] & co1 & Hleaf & Hrest)%fallible_bind_ok. apply IH in Hrest as [(Ho & Hn & He & Hb) Hm]. clear IH.
    unfold count_leaf in Hleaf. apply fallible_bind_ok in Hleaf as (x & y & [= <- <-] & Hleaf). cbn [id ls_len ls_heap] in Hleaf.
    apply fallible_bind_ok in Hleaf as (output & y & [Houtput ->]%lift_ok & Hleaf).
    apply fallible_bind_ok in Hleaf as (new & y & [Hnew ->]%lift_ok & Hleaf).
    apply fallible_bind_ok in Hleaf as (charge & y & [Hcharge ->]%lift_ok & Hleaf).
    apply fallible_bind_ok in Hleaf as (bytes & y & [Hbytes ->]%lift_ok & [= <-]).
    apply count_add_inv in Houtput as ->, Hnew as ->. apply charge_add_inv in Hbytes as ->.
    assert (charge = base + weight piece) as ->.
    { rewrite weight_heaps. pose proof (ct_base _ _ Hlim) as Hbase. by rewrite (page_charge_inv _ _ _ _ Hbase Hcharge), N.add_assoc. }
    cbn in Ho, Hn, He, Hb, Hm. unfold counted. cbn [concat length]. rewrite weight_app. split_and!; [lia|lia|done|lia|done].
Qed.
Lemma count_merge_inv old cs co n co' : count_merge (rs_config s) (rs_partition s) old cs co = (Ok n, co') →
  ∃ co1 staging, quote_cells (rs_config s) count_leaf (merged_cells (rs_partition s) old cs) co = (Ok (), co1) ∧
  merge_partition_charge (bool_decide (is_Some (rs_partition s))) (length old + length cs) = Ok staging ∧
  n = (co_new_pages co1 - co_new_pages co)%nat ∧ co' = {|
    co_output_pages := co_output_pages co1; co_new_pages := co_new_pages co1; co_directory_edits := co_directory_edits co1;
    co_new_pages_bytes := co_new_pages_bytes co1; co_merge_pending_bytes := N.max (co_merge_pending_bytes co1) staging |}.
Proof using Type.
  unfold count_merge. intros Hc. apply fallible_bind_ok in Hc as (x & y & [= <- <-] & Hc).
  apply fallible_bind_ok in Hc as ([] & co1 & Hq & Hc). apply fallible_bind_ok in Hc as (capacity & y & [Hcap ->]%lift_ok & Hc).
  apply fallible_bind_ok in Hc as (staging & y & [Hst ->]%lift_ok & Hc). apply fallible_bind_ok in Hc as ([] & y & [= <-] & Hc).
  apply fallible_bind_ok in Hc as (new & y & [= <- <-] & Hc). apply fallible_bind_ok in Hc as ([] & y & [_ ->]%lift_ok & [= <- <-]).
  apply count_add_inv in Hcap as ->. by exists co1, staging.
Qed.
(** ** One merge, planned and made *)
Section Made.
Context (full : N) (max : nat) (path : N) (Hshare : edit_share full max path).
Lemma merge_page_ok old cs pieces ess staging before after replace merged d b : merge_ready old cs →
  merge_partition_charge (bool_decide (is_Some (rs_partition s))) (length old + length cs) = Ok staging →
  fills (rs_partition s) pieces (puts cs) ess [] → concat ess = merge_rows old cs → Forall (leaf_sound (rs_config s) base) pieces →
  concat pieces = merged_cells (rs_partition s) old cs →
  (∀ St (emit : LeafSpan → Fallible St MemoryError ()) st, cut (rs_config s) emit (merged_cells (rs_partition s) old cs) st = each emit (spans_at 0 pieces) st) →
  placing before after replace merged [] d → ordered (before ++ (page_new <$> ess) ++ after) →
  (length before + length ess + length after <= max)%nat →
  let g := {| mg_incoming := puts cs; mg_pages := d; mg_produced := 0; mg_build := b |} in
  spends (N.of_nat (length ess) * path) g (merge_page s old cs (place_page (length before) replace) g) (λ g',
    placing before after replace merged (page_new <$> ess) (mg_pages g') ∧ mg_produced g' = length ess).
Proof using Laws Hlim Hshare.
  intros Hready Hst Hf Hrows Hsound Hp Hcut Hpl Ho Hmax g. pose proof Hready as [_ _ Hadm Hw Hlen].
  pose proof (fills_length _ _ _ _ _ Hf) as Hfl. set (cells := merged_cells (rs_partition s) old cs) in *.
  assert (Hcl : (length cells <= length old + length cs)%nat).
  { unfold cells. rewrite (Forall2_length _ _ _ (merged_cells_rows (rs_partition s) old cs)). apply length_merge_rows. }
  unfold merge_page. eapply spends_lift; [apply count_add_ok; lia|]. eapply spends_lift; [exact Hst|].
  rewrite <-(N.add_0_l (_ * path)). eapply spends_build; [apply reserve_builds|]. intros x b' _. cbv zeta. fold cells. apply spends_guard; [lia|].
  rewrite <-(N.add_0_r (_ * path)). eapply spends_bind.
  - rewrite Hcut, Hfl. apply (emit_pages_ok full max path Hshare before after replace merged (rs_partition s) base (ct_base _ _ Hlim) cells ltac:(lia) pieces (puts cs) ess [] 0 []); try done.
    + lia.
    + apply Forall_forall. intros piece Hin. rewrite Forall_forall in Hsound. destruct (Hsound piece Hin) as [_ [[[_ Hfit] _]|(c & -> & _)]].
      * pose proof (ct_width _ _ Hlim). lia.
      * assert (c ∈ cells) as [i Hi]%list_elem_of_lookup.
        { rewrite <-Hp. apply list_elem_of_In, in_concat. exists [c]. split; [by apply list_elem_of_In|by left]. }
        destruct (Forall2_lookup_l _ _ _ _ _ (merged_cells_rows (rs_partition s) old cs) Hi) as (e & He & Hh & _).
        destruct (Hadm e) as [_ Hu]; [by eapply list_elem_of_lookup_2|]. unfold row_cost in Hu. simpl. unfold cell_size. rewrite Hh. lia.
    + simpl. lia.
  - intros [] g' (Hpl' & Hprod & Hin). apply spends_gets. rewrite Hin. split; [|lia]. simpl in Hpl'. split; [done|]. simpl in Hprod. lia.
Qed.
Lemma merge_at_ok old cs pieces ess staging before after (replace : bool) merged d : merge_ready old cs →
  merge_partition_charge (bool_decide (is_Some (rs_partition s))) (length old + length cs) = Ok staging →
  fills (rs_partition s) pieces (puts cs) ess [] → concat ess = merge_rows old cs → Forall (leaf_sound (rs_config s) base) pieces →
  concat pieces = merged_cells (rs_partition s) old cs →
  (∀ St (emit : LeafSpan → Fallible St MemoryError ()) st, cut (rs_config s) emit (merged_cells (rs_partition s) old cs) st = each emit (spans_at 0 pieces) st) →
  lists (before ++ (if replace then [merged] else []) ++ after) d → ordered (before ++ (page_new <$> ess) ++ after) →
  (length before + length ess + length after <= max)%nat → (length (pages_of d) <= max)%nat →
  builds (N.of_nat (if replace then Nat.max (length ess) 1 else length ess) * path) (merge_at s d old cs (length before) replace)
    (λ r, lists (before ++ (page_new <$> ess) ++ after) r.1 ∧ r.2 = length ess).
Proof using Laws Hlim Hshare.
  intros Hready Hst Hf Hrows Hsound Hp Hcut Hd Ho Hmax Hlen b. unfold merge_at.
  assert (Hpl : placing before after replace merged [] d) by (unfold placing, standing; simpl; destruct replace; [by rewrite decide_True|by rewrite decide_False by naive_solver]).
  pose proof (merge_page_ok old cs pieces ess staging before after replace merged d b Hready Hst Hf Hrows Hsound Hp Hcut Hpl Ho Hmax) as Hrun.
  unfold spends in Hrun. cbv zeta in Hrun. destruct (merge_page s old cs _ _) as [[[]|err] g]; cbn [mg_build] in Hrun.
  2: { destruct Hrun as [?|Hrem]; [by left|right]. eapply N.lt_le_trans; [exact Hrem|]. apply N.mul_le_mono_r. destruct replace; lia. }
  destruct Hrun as [[[Hg Hpg] Hprod] Hrem]. unfold standing in Hpg. rewrite length_fmap in Hpg. rewrite <-Hprod in Hpg |- *.
  case_decide as Hd0.
  - destruct Hd0 as [-> Hz]. rewrite Hz in Hprod. symmetry in Hprod. apply nil_length_inv in Hprod as ->. simpl in Hpg, Hrem |- *.
    assert (Hrm : builds path (remove_owned (mg_pages g) (length before)) (lists (before ++ after))).
    { pose proof (share_builds full max path (mg_pages g) (RemovePage (length before)) Hshare Hg I) as Hb. simpl in Hb. rewrite Hpg in Hb.
      assert (Hra : remove_at (length before) (before ++ merged :: after) = before ++ after).
      { unfold remove_at. rewrite take_app_length. rewrite drop_app_ge by lia. by replace (S (length before) - length before)%nat with 1%nat by lia. }
      rewrite Hra in Hb. destruct Hd as [_ Hd]. rewrite Hd in Hlen. simpl in Hlen. apply Hb; [rewrite length_app; simpl; lia|done|].
      rewrite length_app in Hlen |- *. simpl in Hlen. lia. }
    rewrite N.mul_0_l, N.add_0_r in Hrem. specialize (Hrm (mg_build g)). unfold mbind, fallible_bind. rewrite Hz. simpl.
    destruct (remove_owned (mg_pages g) (length before) (mg_build g)) as [[d'|err] b']; [|destruct Hrm; [by left|right; lia]].
    destruct Hrm as [Hl Hr]. simpl. split; [done|]. lia.
  - split; [split; [|done]|].
    + split; [done|]. cbn [fst]. by rewrite Hpg, app_nil_l.
    + etransitivity; [exact Hrem|]. apply N.add_le_mono_l, N.mul_le_mono_r. rewrite Hprod. destruct replace; lia.
Qed.
End Made.
(** What a counted merge makes, wherever in a directory it goes. *)
Lemma merge_made old cs co n co' : merge_ready old cs → count_merge (rs_config s) (rs_partition s) old cs co = (Ok n, co') →
  ∃ qs, rows qs = merge_rows old cs ∧ n = length qs ∧ Forall (page_fits s base) qs ∧ Forall page_sound qs ∧
  counted n (N.of_nat n * base + rows_weight (merge_rows old cs)) co co' ∧
  ∀ full max path, edit_share full max path → ∀ before after (replace : bool) merged d,
    lists (before ++ (if replace then [merged] else []) ++ after) d → ordered (before ++ qs ++ after) →
    (length before + n + length after <= max)%nat → (length (pages_of d) <= max)%nat →
    builds (N.of_nat (if replace then Nat.max n 1 else n) * path) (merge_at s d old cs (length before) replace)
      (λ r, lists (before ++ qs ++ after) r.1 ∧ r.2 = n).
Proof using Laws Hlim.
  intros Hready (co1 & staging & Hq & Hst & -> & ->)%count_merge_inv.
  destruct (merge_pieces old cs Hready) as (pieces & quoted & ess & Hf & Hrows & Hsound & Hp & Hqc & Hlen & Hcut & Hquote).
  rewrite Hquote in Hq. apply count_each in Hq as [(Ho & Hn & He & Hb) _]. pose proof (fills_length _ _ _ _ _ Hf) as Hfl.
  destruct (fills_fit s base _ _ _ _ Hf Hsound) as [Hfit Hne]. assert (Hnew : (co_new_pages co1 - co_new_pages co)%nat = length ess) by lia.
  rewrite Hnew. exists (page_new <$> ess). split_and!.
  - rewrite <-Hrows. unfold rows. clear. induction ess as [|es ess IH]; [done|]. cbn [fmap list_fmap]. rewrite bind_cons, IH. done.
  - by rewrite length_fmap.
  - done.
  - apply Forall_fmap. eapply Forall_impl; [exact Hne|]. intros es Hes. simpl. destruct es as [|e es]; [done|]. by exists (en_key e).
  - split_and!; simpl; [lia|lia|done|]. rewrite Hb, Hqc, (cell_row_weight _ _ _ (merged_cells_rows (rs_partition s) old cs)). lia.
  - intros full max path Hshare before after replace merged d Hd Hord Hmax Hdl. by eapply merge_at_ok.
Qed.
End Groups.
