(* ===== verification/PagePlans.v ===== *)
(** * Batches, planned and built

    The plan and the build of a batch take the same groups of changes, one a page.
    A plan that was made can be built at the cost it counted. *)
From stdpp Require Import prelude strings list sorting gmap.
From Stdlib Require Import NArith.
From S2P Require Import Prelude Fallible Budget Pages PagesLaws PageDirectory PageTree PageEdits PageEditing PageStore PageRows PageBuilds.

(** ** Which changes *)
Section Selecting.
Context {K V : Type} `{Laws : RangeKeyLaws K}.
#[local] Set Default Proof Using "Type Laws".
Implicit Types (p : Page K V) (ps : list (Page K V)) (d : PageDirectory K V) (c x : RowChange K V) (cs : list (RowChange K V)) (k : K).
Lemma rising_changes_split cs n : rising_changes cs → rising_changes (take n cs) ∧ rising_changes (drop n cs) ∧
  ∀ x y, x ∈ take n cs → y ∈ drop n cs → key_lt (change_key x) (change_key y).
Proof.
  intros Hc. rewrite <-(take_drop n cs) in Hc. apply rising_changes_app in Hc as (? & ? & Hx). split_and!; [done|done|].
  intros x y Hxt Hy. apply Hx; by apply list_elem_of_fmap_2.
Qed.
(** Changes split where a monotone test of their keys turns. *)
Lemma partition_changes (f : RowChange K V → bool) cs : rising_changes cs →
  (∀ x y, f y = true → key_lt (change_key x) (change_key y) → f x = true) →
  (∀ x, x ∈ take (partition_point f cs) cs → f x = true) ∧ (∀ x, x ∈ drop (partition_point f cs) cs → f x = false).
Proof.
  intros Hc Hmono. split.
  - intros x (i & Hi & Hlt)%elem_of_take. by eapply partition_point_true.
  - intros x Hx. destruct (drop (partition_point f cs) cs) as [|y ys] eqn:E; [by apply elem_of_nil in Hx|].
    assert (Hy : f y = false) by (apply (partition_point_false f cs); by rewrite <-head_drop, E).
    apply elem_of_cons in Hx as [->|Hx]; [done|]. destruct (f x) eqn:Ef; [|done]. rewrite <-Hy. symmetry. apply (Hmono y x Ef).
    destruct (rising_changes_split cs (partition_point f cs) Hc) as (_ & Hd & _). rewrite E in Hd.
    apply (rising_changes_app [y] ys) in Hd as (_ & _ & Hlt). apply Hlt; [left|by apply list_elem_of_fmap_2].
Qed.
Definition page_starts (q : option (Page K V)) (k : K) : Prop := ∃ p f, q = Some p ∧ page_first_key p = Some f ∧ key_le f k.
(** The group of the first change. *)
Lemma group_next_ok d c cs : directory_sound d → rising_changes (c :: cs) → pages_of d ≠ [] →
  let ps := pages_of d in let r := rank_of (change_key c) ps in
  ∃ p n, ps !! r = Some p ∧ 1 <= n <= length (c :: cs) ∧
  group_next d (c :: cs) = Ok (Some {| lg_rank := r; lg_count := n; lg_page := Some p |}) ∧
  (∀ x, x ∈ take n (c :: cs) → ∀ e, e ∈ rows (drop (S r) ps) → key_lt (change_key x) (en_key e)) ∧
  (∀ x, x ∈ drop n (c :: cs) → page_starts (ps !! S r) (change_key x)).
Proof.
  intros Hd Hc Hne ps r. pose proof Hd as (Ho & _ & _). fold ps in Ho. set (all := c :: cs) in *.
  destruct (lookup_lt_is_Some_2 ps r (rank_of_lt _ ps Hne)) as [p Hp].
  set (L := {| lc_rank := r; lc_page := p; lc_next := ps !! S r |}).
  assert (Hloc : locate d (change_key c) = Some L).
  { rewrite sound_locate by done. unfold located_at. fold ps r. rewrite Hp. unfold L. simpl. by destruct (ps !! S r). }
  set (boundary := ps !! S r ≫= page_first_key). assert (Hbound : boundary = ps !! S r ≫= page_first_key) by done. clearbody boundary.
  assert (Hgroup : group_next d all =
    let n := partition_point (λ x, match boundary with None => true | Some b => bool_decide (key_lt (change_key x) b) end) all in
    refuse_if (n = 0) (MemoryError.InvalidConfiguration "range directory did not select a nonempty change group");;
    mret (Some {| lg_rank := r; lg_count := n; lg_page := Some p |})).
  { unfold group_next, all. cbn [head]. rewrite sound_empty, bool_decide_false, Hloc by done. by rewrite Hbound. }
  rewrite Hgroup. clear Hgroup Hloc. cbv zeta.
  set (f := λ x, match boundary with None => true | Some b => bool_decide (key_lt (change_key x) b) end).
  assert (Hf : ∀ x, f x = true ↔ ∀ b, boundary = Some b → key_lt (change_key x) b).
  { intros x. unfold f. destruct boundary; [rewrite bool_decide_eq_true; naive_solver|naive_solver]. }
  assert (Hnext : ∀ q, ps !! S r = Some q → ∃ b, boundary = Some b ∧ page_first_key q = Some b ∧ ∀ e, e ∈ rows (drop (S r) ps) → key_le b (en_key e)).
  { intros q Hq. pose proof (drop_S _ _ _ Hq) as Hdr. rewrite <-(take_drop (S r) ps) in Ho. apply ordered_app in Ho as (_ & Ho & _). rewrite Hdr in Ho |- *.
    pose proof Ho as [[(b & Hb & _) _]%Forall_cons _]. exists b. rewrite Hbound, Hq. split_and!; [done|done|]. intros e He.
    apply (ordered_head (q :: drop (S (S r)) ps) b); [done|done|]. rewrite keys_rows. by apply list_elem_of_fmap_2. }
  destruct (partition_changes f all Hc) as [Hsel Hleft].
  { intros x y Hy Hlt. apply Hf. intros b Hb. eapply key_lt_trans; [exact Hlt|]. by apply Hf. }
  assert (Hfirst : f c = true).
  { apply Hf. intros b Hb. rewrite Hbound in Hb. destruct (ps !! S r) as [q|] eqn:Hq; [|done]. simpl in Hb. destruct (Hnext q eq_refl) as (b' & _ & Hb' & _).
    rewrite Hb in Hb'. injection Hb' as <-. assert (Hin : b ∈ page_keys q) by (by apply page_first_key_elem).
    apply list_elem_of_fmap in Hin as (e & -> & He). apply (span_after ps); [done|]. apply elem_of_rows. exists q. split; [|done].
    fold r. rewrite (drop_S _ _ _ Hq). left. }
  assert (Hn : 1 <= partition_point f all <= length all).
  { pose proof (partition_point_le f all). unfold all in *. cbn [partition_point length] in *. rewrite Hfirst in *. lia. }
  exists p, (partition_point f all). split_and!; [done|lia|lia| | |].
  - fold f. rewrite refuse_pass by lia. done.
  - intros x Hx e He. destruct (ps !! S r) as [q|] eqn:Hq.
    + destruct (Hnext q eq_refl) as (b & Hb & _ & Hle). eapply key_lt_le_trans; [|by apply Hle]. by apply (proj1 (Hf x) (Hsel x Hx)).
    + rewrite drop_ge in He by (by apply lookup_ge_None_1). by apply elem_of_nil in He.
  - intros x Hx. apply Hleft in Hx. destruct (ps !! S r) as [q|] eqn:Hq.
    + destruct (Hnext q eq_refl) as (b & Hb & Hq' & _). exists q, b. split_and!; [done|done|]. apply key_nlt. intros Hlt.
      assert (Ht : f x = true) by (apply Hf; intros b' Hb'; congruence). congruence.
    + exfalso. assert (Ht : f x = true) by (apply Hf; rewrite Hbound; done). congruence.
Qed.
End Selecting.

(** ** Pages no change touches *)
Section Reusing.
Context {K V : Type} `{Laws : RangeKeyLaws K, PageSizes}.
#[local] Set Default Proof Using "Type Laws".
Implicit Types (p : Page K V) (e : Entry K V) (c x : RowChange K V) (cs : list (RowChange K V)).
(** The changes before a page, and those past it. *)
Definition around p cs (split : nat) : Prop :=
  split <= length cs ∧ (∀ x e, x ∈ take split cs → e ∈ pg_entries p → key_lt (change_key x) (en_key e)) ∧
  (∀ x e, x ∈ drop split cs → e ∈ pg_entries p → key_lt (en_key e) (change_key x)).
Lemma drop_past cs split k : rising_changes cs → (∀ x, cs !! split = Some x → key_lt k (change_key x)) → ∀ x, x ∈ drop split cs → key_lt k (change_key x).
Proof.
  intros Hc Hfirst x Hx. destruct (drop split cs) as [|y ys] eqn:E; [by apply elem_of_nil in Hx|].
  assert (Hy : key_lt k (change_key y)) by (apply Hfirst; by rewrite <-head_drop, E). apply elem_of_cons in Hx as [->|Hx]; [done|].
  eapply key_lt_trans; [exact Hy|]. destruct (rising_changes_split cs split Hc) as (_ & Hd & _). rewrite E in Hd.
  apply (rising_changes_app [y] ys) in Hd as (_ & _ & Hlt). apply Hlt; [left|by apply list_elem_of_fmap_2].
Qed.
Lemma reusable_single e cs i : rising_changes cs → binary_search_by (λ c, key_cmp (change_key c) (en_key e)) cs = inr i →
  ∀ p, pg_entries p = [e] → around p cs i.
Proof.
  intros Hc Hb p Hp. unfold around. rewrite Hp. set (f := λ c, bool_decide (key_cmp (change_key c) (en_key e) = Lt)) in *.
  unfold binary_search_by in Hb. fold f in Hb. assert (Hi : partition_point f cs = i ∧ ∀ x, cs !! i = Some x → key_lt (en_key e) (change_key x)).
  { destruct (cs !! partition_point f cs) as [x|] eqn:E.
    - revert Hb. case_decide as Hc'; [done|]. intros [= <-]. split; [done|]. intros y Hy. assert (x = y) as -> by congruence.
      apply (partition_point_false f) in E. apply bool_decide_eq_false in E. rewrite key_cmp_lt in E. rewrite key_cmp_eq in Hc'.
      split; [by apply key_nlt|congruence].
    - injection Hb as <-. split; [done|]. congruence. }
  destruct Hi as [<- Hpast]. split_and!; [apply partition_point_le| |].
  - intros x e' (j & Hj & Hlt)%elem_of_take ->%list_elem_of_singleton. apply (partition_point_true f cs j x Hlt) in Hj.
    by apply bool_decide_eq_true, key_cmp_lt in Hj.
  - intros x e' Hx ->%list_elem_of_singleton. by eapply drop_past.
Qed.
Lemma reusable_around p cs config partition split : rising (pg_entries p) → rising_changes cs →
  reusable_page p cs config partition = Ok (Some split) → around p cs split.
Proof.
  intros Hr Hc Hre. assert (Hord : ∀ first final, head (pg_entries p) = Some first → last (pg_entries p) = Some final →
    (∀ x, cs !! partition_point (λ c, bool_decide (key_lt (change_key c) (en_key first))) cs = Some x → ¬ key_le (change_key x) (en_key final)) →
    around p cs (partition_point (λ c, bool_decide (key_lt (change_key c) (en_key first))) cs)).
  { intros first final Hf Hl Hn. set (f := λ c, bool_decide (key_lt (change_key c) (en_key first))) in *. split_and!; [apply partition_point_le| |].
    - intros x e (j & Hj & Hlt)%elem_of_take He. apply (partition_point_true f cs j x Hlt) in Hj. apply bool_decide_eq_true in Hj.
      destruct (pg_entries p) as [|e0 es]; [done|]. injection Hf as ->. apply elem_of_cons in He as [->|He]; [done|]. eapply key_lt_trans; [exact Hj|].
      apply (rising_app [first] es) in Hr as (_ & _ & Hlt'). apply Hlt'; [left|done].
    - intros x e Hx He. assert (Hpast : key_lt (en_key final) (change_key x)).
      { eapply drop_past; [exact Hc| |exact Hx]. intros y Hy. apply key_not_le. by apply Hn. }
      apply last_Some in Hl as [es Hes]. rewrite Hes in Hr, He. apply elem_of_app in He as [He|He]; [|by apply list_elem_of_singleton in He as ->].
      eapply key_lt_trans; [|exact Hpast]. apply rising_app in Hr as (_ & _ & Hlt). apply Hlt; [done|left]. }
  assert (Hordinary : match partition with
    | None => mret None
    | Some classify =>
        first ← or_fail (head (pg_entries p)) MemoryError.MissingKey;
        final ← or_fail (last (pg_entries p)) MemoryError.MissingKey;
        let split := partition_point (λ c, bool_decide (key_lt (change_key c) (en_key first))) cs in
        let label := classify (en_key first) in
        if is_some_and (λ c, bool_decide (key_le (change_key c) (en_key final))) (cs !! split) then mret None
        else if is_some_and (λ c, (classify (change_key c) =? label)%N) (match split with O => None | S i => cs !! i end)
                || is_some_and (λ c, (classify (change_key c) =? label)%N) (cs !! split)
        then mret None
        else mret (Some split)
    end = Ok (Some split) → around p cs split).
  { destruct partition as [classify|]; [|done]. intros (first & Hf%or_fail_ok & (final & Hl%or_fail_ok & Hs)%try_bind_ok)%try_bind_ok. cbv zeta in Hs.
    destruct (is_some_and _ (cs !! _)) eqn:Hn; [done|]. destruct (_ || _); [done|]. injection Hs as <-. apply (Hord first final Hf Hl).
    intros x Hx. rewrite Hx in Hn. simpl in Hn. by apply bool_decide_eq_false in Hn. }
  unfold reusable_page in Hre. destruct (pg_entries p) as [|e [|e' es]] eqn:Hp; [by apply Hordinary| |by apply Hordinary].
  apply try_bind_ok in Hre as (one & _ & Hre). revert Hre. case_decide; [|apply Hordinary]. intros Hre.
  destruct (binary_search_by _ cs) as [|i] eqn:Hb; [done|]. injection Hre as <-. by eapply reusable_single.
Qed.
(** Around a page that no change touches, its rows stand between the changes'. *)
Lemma around_rows p cs split : rising (pg_entries p) → rising_changes cs → around p cs split →
  merge_rows (pg_entries p) cs = merge_rows [] (take split cs) ++ pg_entries p ++ merge_rows [] (drop split cs).
Proof.
  intros Hr Hc (_ & Hbefore & Hafter). destruct (rising_changes_split cs split Hc) as (Hc1 & Hc2 & Hx).
  assert (Happ : merge_rows (pg_entries p ++ []) ([] ++ drop split cs) = merge_rows (pg_entries p) [] ++ merge_rows [] (drop split cs)).
  { apply merge_rows_app; [by rewrite app_nil_r|done|]. intros x y. rewrite app_nil_r. simpl. intros (e & -> & He)%list_elem_of_fmap (c & -> & Hcc)%list_elem_of_fmap.
    by apply Hafter. }
  rewrite app_nil_r in Happ. simpl in Happ. rewrite <-Happ. rewrite <-(take_drop split cs) at 1.
  apply (merge_rows_app [] (take split cs) (pg_entries p) (drop split cs)); [done|by rewrite take_drop|].
  intros x y. simpl. intros (c & -> & Hcc)%list_elem_of_fmap [(e & -> & He)%list_elem_of_fmap|(c' & -> & Hc')%list_elem_of_fmap]%elem_of_app.
  - by apply Hbefore.
  - by apply Hx.
Qed.
End Reusing.

(** ** A group, planned and built *)
Section Grouping.
Context {K V : Type} `{Laws : RangeKeyLaws K, Funding, PageSizes}.
#[local] Set Default Proof Using "Type Laws".
Context (s : RangeStore K V) (base : N) (Hlim : cut_limits (rs_config s) base).
Implicit Types (p : Page K V) (qs before after : list (Page K V)) (d : PageDirectory K V) (cs : list (RowChange K V)) (co : Counts).
Definition rows_of (page : option (Page K V)) : list (Entry K V) := match page with Some p => pg_entries p | None => [] end.
Notation one page := (length (option_list page)).
Lemma count_edits_inv n co co' : count_edits n co = (Ok (), co') → co' = {|
  co_output_pages := co_output_pages co; co_new_pages := co_new_pages co; co_directory_edits := co_directory_edits co + n;
  co_new_pages_bytes := co_new_pages_bytes co; co_merge_pending_bytes := co_merge_pending_bytes co |}.
Proof using Type.
  unfold count_edits. intros Hc. apply fallible_bind_ok in Hc as (x & y & [= <- <-] & Hc).
  apply fallible_bind_ok in Hc as (total & y & [->%count_add_inv ->]%lift_ok & [= <-]). done.
Qed.
(** The pages a group leaves and the edits that put them there. *)
Definition group_made d0 (group : LeafGroup K V) cs co co' : Prop := ∃ qs edits,
  rows qs = merge_rows (rows_of (lg_page group)) cs ∧ Forall (page_fits s base) qs ∧ Forall page_sound qs ∧
  co_output_pages co' + one (lg_page group) = co_output_pages co + length qs ∧
  co_new_pages co <= co_new_pages co' ∧ length qs <= co_new_pages co' - co_new_pages co + one (lg_page group) ∧
  co_directory_edits co' = co_directory_edits co + edits ∧
  ∀ full max path, edit_share full max path → ∀ before after d,
    lists (before ++ option_list (lg_page group) ++ after) d → ordered (before ++ qs ++ after) →
    length (pages_of d) + (co_new_pages co' - co_new_pages co) <= max →
    builds (N.of_nat edits * path) (build_group s d0 d group cs (length before)) (λ r, lists (before ++ qs ++ after) r.1 ∧ r.2 = length qs).
Lemma fresh_made d0 group cs co co' : lg_page group = None → directory_is_empty d0 = true → merge_ready s base [] cs →
  plan_group s d0 group cs co = (Ok (), co') → group_made d0 group cs co co'.
Proof using Laws Hlim.
  intros Hg He Hready Hp. unfold plan_group in Hp. rewrite Hg, He in Hp. apply fallible_bind_ok in Hp as ([] & y & [_ ->]%lift_ok & Hp).
  apply fallible_bind_ok in Hp as (n & co1 & Hm & ->%count_edits_inv). destruct (merge_made s base Hlim _ _ _ _ _ Hready Hm) as (qs & Hr & -> & Hfit & Hs & (Ho & Hn & Hed & _) & Hbuild).
  exists qs, (length qs). rewrite Hg. simpl. rewrite Ho, Hn, Hed. split_and!; try done; try lia.
  intros full max path Hshare before after d Hd Hord Hmax. unfold build_group. rewrite Hg, He. eapply builds_lift_bind; [done|]. apply builds_guard; [done|].
  destruct Hd as [Hds Hdp]. assert (Hlen : length (pages_of d) = length before + length after) by (by rewrite Hdp, length_app).
  pose proof (Hbuild full max path Hshare before after false (page_new []) d) as Hb. simpl in Hb. apply Hb; [done|done|lia|lia].
Qed.
Lemma replaced_made d0 group p cs co co' : lg_page group = Some p → merge_ready s base (pg_entries p) cs →
  reusable_page p cs (rs_config s) (rs_partition s) = Ok None →
  plan_group s d0 group cs co = (Ok (), co') → group_made d0 group cs co co'.
Proof using Laws Hlim.
  intros Hg Hready Hre Hp. unfold plan_group in Hp. rewrite Hg in Hp. apply fallible_bind_ok in Hp as (x & y & [[= <-]%(eq_trans (eq_sym Hre)) ->]%lift_ok & Hp).
  apply fallible_bind_ok in Hp as (n & co1 & Hm & Hp). apply fallible_bind_ok in Hp as (output & y & [= <- <-] & Hp).
  apply fallible_bind_ok in Hp as ([] & y & [Hz%refuse_if_ok ->]%lift_ok & Hp). apply fallible_bind_ok in Hp as ([] & y & [= <-] & ->%count_edits_inv).
  destruct (merge_made s base Hlim _ _ _ _ _ Hready Hm) as (qs & Hr & -> & Hfit & Hs & (Ho & Hn & Hed & _) & Hbuild).
  exists qs, (Nat.max (length qs) 1). rewrite Hg. simpl. rewrite Hn, Hed. split_and!; try done; try lia.
  intros full max path Hshare before after d Hd Hord Hmax. unfold build_group. rewrite Hg. eapply builds_lift_bind; [exact Hre|].
  destruct Hd as [Hds Hdp]. assert (Hlen : length (pages_of d) = length before + S (length after)) by (by rewrite Hdp, length_app).
  apply (Hbuild full max path Hshare before after true p d); [done|done|lia|lia].
Qed.
Lemma ready_part old cs es old' cs' es' : merge_ready s base old cs → merge_rows old cs = es ++ merge_rows old' cs' ++ es' → rising old' → rising_changes cs' →
  length old' + length cs' <= length old + length cs → merge_ready s base old' cs'.
Proof using Type.
  intros [_ _ Hr Hw Hl] Heq Ho Hc Hlen. split; [done|done| | |lia].
  - intros e He. apply Hr. rewrite Heq. apply elem_of_app. right. apply elem_of_app. by left.
  - rewrite Heq, !rows_weight_app in Hw. lia.
Qed.
(** The parts of a batch around a page can be merged on their own. *)
Lemma around_ready p cs split : merge_ready s base (pg_entries p) cs → around p cs split →
  merge_ready s base [] (take split cs) ∧ merge_ready s base [] (drop split cs).
Proof using Laws.
  intros Hready Har. pose proof Hready as [Hrise Hc _ _ _]. pose proof (around_rows p cs split Hrise Hc Har) as Hrows.
  destruct (rising_changes_split cs split Hc) as (Hc1 & Hc2 & _).
  assert (Hlens : length (take split cs) + length (drop split cs) = length cs) by (by rewrite <-length_app, take_drop). split.
  - eapply (ready_part (pg_entries p) cs []); [done|exact Hrows|constructor|done|simpl; lia].
  - eapply (ready_part (pg_entries p) cs (merge_rows [] (take split cs) ++ pg_entries p) _ _ []); [done|by rewrite app_nil_r, <-app_assoc|constructor|done|simpl; lia].
Qed.
Lemma reused_made d0 group p cs split co co' : lg_page group = Some p → lg_count group = length cs → merge_ready s base (pg_entries p) cs →
  page_fits s base p → page_sound p → reusable_page p cs (rs_config s) (rs_partition s) = Ok (Some split) →
  plan_group s d0 group cs co = (Ok (), co') → group_made d0 group cs co co'.
Proof using Laws Hlim.
  intros Hg Hcount Hready Hpf Hps Hre Hp. pose proof Hready as [Hrise Hc _ _ Hu]. pose proof (reusable_around p cs _ _ split Hrise Hc Hre) as Har.
  pose proof (around_rows p cs split Hrise Hc Har) as Hrows.
  unfold plan_group in Hp. rewrite Hg in Hp. apply fallible_bind_ok in Hp as (x & y & [[= <-]%(eq_trans (eq_sym Hre)) ->]%lift_ok & Hp).
  apply fallible_bind_ok in Hp as (n1 & co1 & Hm1 & Hp). apply fallible_bind_ok in Hp as (n2 & co2 & Hm2 & Hp).
  apply fallible_bind_ok in Hp as (both & y & [->%count_add_inv ->]%lift_ok & ->%count_edits_inv).
  destruct (around_ready p cs split Hready Har) as [Hr1 Hr2].
  destruct (merge_made s base Hlim _ _ _ _ _ Hr1 Hm1) as (qs1 & Hq1 & -> & Hf1 & Hs1 & (Ho1 & Hn1 & He1 & _) & Hb1).
  destruct (merge_made s base Hlim _ _ _ _ _ Hr2 Hm2) as (qs2 & Hq2 & -> & Hf2 & Hs2 & (Ho2 & Hn2 & He2 & _) & Hb2).
  exists (qs1 ++ p :: qs2), (length qs1 + length qs2). rewrite Hg. change (length (option_list (Some p))) with 1. cbn [rows_of co_output_pages co_new_pages co_directory_edits].
  rewrite length_app. cbn [length]. rewrite Ho2, Hn2, He2, Ho1, Hn1, He1. split_and!; try lia.
  - rewrite rows_app. change (rows (p :: qs2)) with (pg_entries p ++ rows qs2). by rewrite Hq1, Hq2, Hrows.
  - apply Forall_app_2; [done|by constructor].
  - apply Forall_app_2; [done|by constructor].
  - intros full max path Hshare before after d [Hds Hdp] Hord Hmax. pose proof (es_max _ _ _ Hshare) as Hm. unfold build_group. rewrite Hg. eapply builds_lift_bind; [exact Hre|].
    assert (Hlen : length (pages_of d) = length before + S (length after)) by (by rewrite Hdp, length_app).
    replace (N.of_nat (length qs1 + length qs2) * path)%N with (N.of_nat (length qs1) * path + N.of_nat (length qs2) * path)%N by lia.
    assert (Hord1 : ordered (before ++ qs1 ++ p :: after)).
    { replace (before ++ qs1 ++ p :: after) with ((before ++ qs1 ++ [p]) ++ after) by (by rewrite <-!app_assoc). apply (ordered_skip _ qs2). by rewrite <-!app_assoc in *. }
    eapply builds_bind.
    { pose proof (Hb1 full max path Hshare before (p :: after) false p d) as Hb. apply Hb; [done|done|simpl; lia|lia]. }
    intros [d1 n] [[Hd1 Hp1] Hn]. cbn [fst snd] in Hd1, Hp1, Hn. subst n. eapply builds_lift_bind; [apply count_add_ok; lia|].
    apply builds_guard; [destruct Har; lia|]. eapply builds_lift_bind; [apply count_add_ok; lia|]. rewrite <-(N.add_0_r (_ * path)).
    eapply builds_bind.
    { pose proof (Hb2 full max path Hshare (before ++ qs1 ++ [p]) after false p d1) as Hb. rewrite !length_app in Hb. cbn [length] in Hb.
      apply Hb; [split; [done|]|by rewrite <-!app_assoc in *|lia|rewrite Hp1, !length_app; simpl; lia].
      rewrite Hp1. simpl. by rewrite <-!app_assoc. }
    intros [d2 n] [[Hd2 Hp2] Hn]. cbn [fst snd] in Hd2, Hp2, Hn. subst n. eapply builds_lift_bind; [apply count_add_ok; lia|]. apply builds_ret. simpl.
    split; [split; [done|]|lia]. rewrite Hp2. by rewrite <-!app_assoc.
Qed.
Lemma planned_made d0 group cs co co' : lg_count group = length cs → merge_ready s base (rows_of (lg_page group)) cs →
  (∀ p, lg_page group = Some p → page_fits s base p ∧ page_sound p) → (lg_page group = None → directory_is_empty d0 = true) →
  plan_group s d0 group cs co = (Ok (), co') → group_made d0 group cs co co'.
Proof using Laws Hlim.
  intros Hc Hready Hpage Hnone Hp. destruct (lg_page group) as [p|] eqn:Hg; [|by apply fresh_made; auto]. destruct (Hpage p eq_refl) as [Hf Hs].
  destruct (reusable_page p cs (rs_config s) (rs_partition s)) as [[split|]|err] eqn:Hre.
  - by eapply reused_made.
  - by eapply replaced_made.
  - unfold plan_group in Hp. rewrite Hg in Hp. apply fallible_bind_ok in Hp as (x & y & [Hx _]%lift_ok & _). congruence.
Qed.
End Grouping.

(** * Batches, planned and built

    A plan that was made can be built: the candidate holds the base's rows updated
    by the batch, in pages within the limits, as many as the plan said; the build
    fails only where the budget refuses. *)
(** ** Counting rows *)
Section Tallying.
Context {K V : Type} `{Laws : RangeKeyLaws K}.
#[local] Set Default Proof Using "Type Laws".
Implicit Types (p : Page K V) (e : Entry K V) (c : RowChange K V) (cs : list (RowChange K V)) (k : K) (m : gmap K (Entry K V)).
Lemma page_row (page : option (Page K V)) k : rising (rows_of page) → (p ← page; page_find p k) = row_map (rows_of page) !! k.
Proof.
  intros Hr. apply option_eq. intros e. rewrite row_map_Some by done. destruct page as [p|]; simpl in *.
  - by apply page_find_Some.
  - split; [done|]. by intros [?%elem_of_nil _].
Qed.
Lemma tally_step m page c acc acc' : m !! change_key c = (p ← page; page_find p (change_key c)) → tally page acc c = Ok acc' →
  acc'.1 + size m = acc.1 + size (change_map m c).
Proof using Type.
  intros Hk Htally. unfold tally in Htally. destruct acc as [len input].
  destruct c as [e|k]; rewrite <-Hk in Htally; simpl in Htally |- *; destruct (m !! _) as [x|] eqn:E.
  - injection Htally as <-. by rewrite map_size_insert_Some by eauto.
  - apply try_bind_ok in Htally as (len' & ->%count_add_inv & [= <-]). rewrite map_size_insert_None by done. simpl. lia.
  - apply try_bind_ok in Htally as (input' & _ & Hl). destruct len as [|len]; [done|]. injection Hl as <-. simpl.
    rewrite map_size_delete_Some by eauto. assert (size m ≠ 0) by (intros Hz%map_size_empty_iff; by rewrite Hz, lookup_empty in E). lia.
  - done.
Qed.
Lemma tally_map m0 page cs m acc acc' : rising (rows_of page) → m0 = row_map (rows_of page) → NoDup (change_key <$> cs) →
  (∀ k, named k cs → m !! k = m0 !! k) → try_fold (tally page) acc cs = Ok acc' → acc'.1 + size m = acc.1 + size (change_maps m cs).
Proof.
  intros Hr Hm0. revert m acc. induction cs as [|c cs IH]; intros m acc Hn Hm; cbn [try_fold]; [by intros [= <-]|].
  intros (acc1 & Htally & Hrest)%try_bind_ok. cbn [fmap list_fmap] in Hn. apply NoDup_cons in Hn as [Hc Hn].
  assert (Hk : m !! change_key c = (p ← page; page_find p (change_key c))).
  { rewrite page_row by done. rewrite <-Hm0. apply Hm. left. }
  specialize (IH (change_map m c) acc1 Hn). change (change_maps m (c :: cs)) with (change_maps (change_map m c) cs).
  pose proof (tally_step m page c acc acc1 Hk Htally) as Hrest'.
  enough (acc'.1 + size (change_map m c) = acc1.1 + size (change_maps (change_map m c) cs)) by lia.
  apply IH; [|done]. intros k Hin. rewrite <-Hm by (by right). destruct (decide (k = change_key c)) as [->|Hne]; [done|].
  destruct c; simpl in *; [by apply lookup_insert_ne|by apply lookup_delete_ne].
Qed.
(** The rows after the changes of one page. *)
Lemma tally_rows page cs acc acc' : rising (rows_of page) → rising_changes cs → try_fold (tally page) acc cs = Ok acc' →
  acc'.1 + length (rows_of page) = acc.1 + length (merge_rows (rows_of page) cs).
Proof.
  intros Hr Hc Ht. rewrite <-row_map_size by done. rewrite <-(row_map_size (merge_rows _ _)) by (by apply merge_rows_elem).
  rewrite merge_rows_map by done. eapply tally_map; [done|done|by apply rising_changes_nodup|done|done].
Qed.
End Tallying.

(** ** One step *)
Section Steps.
Context {K V : Type} `{Laws : RangeKeyLaws K, PageSizes}.
#[local] Set Default Proof Using "Type Laws".
Implicit Types (p : Page K V) (ps qs before after mid : list (Page K V)) (e : Entry K V) (es : list (Entry K V)) (c x : RowChange K V) (cs sel rest : list (RowChange K V)) (k : K).
Lemma merge_weight es cs : (rows_weight (merge_rows es cs) <= rows_weight es + rows_weight (puts cs))%N.
Proof using Type.
  revert es. induction cs as [|c cs IH]; intros es; cbn [merge_rows]; [unfold puts; simpl; lia|]. set (n := partition_point _ es).
  set (rest := match drop n es with [] => [] | _ => _ end). specialize (IH rest). rewrite !rows_weight_app.
  assert (rows_weight rest <= rows_weight (drop n es))%N.
  { unfold rest. destruct (drop n es) as [|e l]; [done|]. case_decide; simpl; lia. }
  assert (rows_weight (take n es) + rows_weight (drop n es) = rows_weight es)%N by (by rewrite <-rows_weight_app, take_drop).
  destruct c as [x|k].
  - change (puts (RowChange.Put x :: cs)) with (x :: puts cs). cbn [rows_weight]. lia.
  - change (puts (RowChange.Delete k :: cs)) with (puts cs). cbn [rows_weight]. lia.
Qed.
Lemma puts_app cs cs' : puts (cs ++ cs') = puts cs ++ puts cs'.
Proof using Type. unfold puts. apply omap_app. Qed.
Lemma elem_of_puts e cs : e ∈ puts cs ↔ RowChange.Put e ∈ cs.
Proof using Type.
  unfold puts. rewrite list_elem_of_omap. split; [|intros Hin; by exists (RowChange.Put e)]. intros ([x|x] & Hin & Hx); [by injection Hx as ->|done].
Qed.
Lemma rows_option (page : option (Page K V)) : rows (option_list page) = rows_of page.
Proof using Type. destruct page; [apply app_nil_r|done]. Qed.
Lemma elem_of_keys_rows ps k : k ∈ keys ps ↔ ∃ e, e ∈ rows ps ∧ en_key e = k.
Proof using Type. rewrite keys_rows, list_elem_of_fmap. naive_solver. Qed.
(** The pages of one group take their place between the pages before and after. *)
Lemma group_step before (page : option (Page K V)) after qs sel rest :
  ordered (before ++ option_list page ++ after) → Forall page_sound qs → rows qs = merge_rows (rows_of page) sel → rising_changes (sel ++ rest) →
  (∀ k x, k ∈ keys before → x ∈ sel ++ rest → key_lt k (change_key x)) →
  (∀ x e, x ∈ sel → e ∈ rows after → key_lt (change_key x) (en_key e)) →
  (∀ x e, x ∈ rest → e ∈ rows_of page → key_lt (en_key e) (change_key x)) →
  ordered (before ++ qs ++ after) ∧ (∀ k x, k ∈ keys (before ++ qs) → x ∈ rest → key_lt k (change_key x)) ∧
  merge_rows (rows (option_list page ++ after)) (sel ++ rest) = rows qs ++ merge_rows (rows after) rest.
Proof.
  intros Ho Hqs Hrows Hc Hbefore Hafter Hrest. pose proof (proj1 (rising_changes_app _ _) Hc) as (Hc1 & Hc2 & Hcc).
  apply ordered_app in Ho as (Hob & Hoa & Hx). pose proof (ordered_rising _ Hoa) as Hra. rewrite rows_app, rows_option in Hra |- *.
  pose proof (proj1 (rising_app _ _) Hra) as (Hrp & Hrafter & Hlt). destruct (merge_rows_elem (rows_of page) sel Hrp Hc1) as [Hrise Hel].
  apply ordered_app in Hoa as (_ & Hoafter & Hxa).
  assert (Hq : ∀ k, k ∈ keys qs → (∃ e, e ∈ rows_of page ∧ en_key e = k) ∨ ∃ x, x ∈ sel ∧ change_key x = k).
  { intros k (e & He & <-)%elem_of_keys_rows. rewrite Hrows in He. apply Hel in He as [He|[He _]]; [right; by exists (RowChange.Put e)|left; by exists e]. }
  assert (Hpk : ∀ e, e ∈ rows_of page → en_key e ∈ keys (option_list page)).
  { intros e He. apply elem_of_keys_rows. exists e. by rewrite rows_option. }
  split_and!.
  - apply ordered_app. split_and!; [done| |].
    + apply ordered_app. split_and!; [split; [done|rewrite keys_rows, Hrows; exact Hrise]|done|]. intros k y Hk Hy.
      apply Hq in Hk as [(e & He & <-)|(x & Hxs & <-)]; [apply Hxa; [by apply Hpk|done]|].
      apply elem_of_keys_rows in Hy as (e & He & <-). by apply Hafter.
    + intros k y Hk Hy. rewrite keys_app in Hy. apply elem_of_app in Hy as [Hy|Hy].
      * apply Hq in Hy as [(e & He & <-)|(x & Hxs & <-)]; [apply Hx; [done|]; rewrite keys_app; apply elem_of_app; left; by apply Hpk|].
        apply Hbefore; [done|]. apply elem_of_app. by left.
      * apply Hx; [done|]. rewrite keys_app. apply elem_of_app. by right.
  - intros k x Hk Hxr. rewrite keys_app in Hk. apply elem_of_app in Hk as [Hk|Hk]; [apply Hbefore; [done|]; apply elem_of_app; by right|].
    apply Hq in Hk as [(e & He & <-)|(y & Hys & <-)]; [by apply Hrest|]. apply Hcc; by apply list_elem_of_fmap_2.
  - rewrite Hrows. apply merge_rows_app; [done|done|]. intros x y [(e & -> & He)%list_elem_of_fmap|(c & -> & Hcs)%list_elem_of_fmap]%elem_of_app
      [(e' & -> & He')%list_elem_of_fmap|(c' & -> & Hcs')%list_elem_of_fmap]%elem_of_app.
    + by apply Hlt.
    + by apply Hrest.
    + by apply Hafter.
    + apply Hcc; by apply list_elem_of_fmap_2.
Qed.
(** Pages before every change are left as they are. *)
Lemma merge_rows_untouched mid ps cs : rising (rows (mid ++ ps)) → rising_changes cs →
  (∀ k x, k ∈ keys mid → x ∈ cs → key_lt k (change_key x)) → merge_rows (rows (mid ++ ps)) cs = rows mid ++ merge_rows (rows ps) cs.
Proof.
  intros Hr Hc Hlt. rewrite rows_app in Hr |- *. pose proof (proj1 (rising_app _ _) Hr) as (_ & _ & Hx).
  apply (merge_rows_app (rows mid) [] (rows ps) cs); [done|done|]. intros x y. simpl. rewrite app_nil_r.
  intros (e & -> & He)%list_elem_of_fmap [(e' & -> & He')%list_elem_of_fmap|(c & -> & Hcs)%list_elem_of_fmap]%elem_of_app; [by apply Hx|].
  apply Hlt; [|done]. apply elem_of_keys_rows. by exists e.
Qed.
End Steps.

(** * The loop over groups

    The plan and the build take the same groups. [midway] is where both stand
    between two of them: the base behind them is rebuilt, the changes left are
    past it. *)
Section Batches.
Context {K V : Type} `{Laws : RangeKeyLaws K, Funding, PageSizes}.
#[local] Set Default Proof Using "Type Laws".
Context (s : RangeStore K V) (base : N) (Hlim : cut_limits (rs_config s) base).
Context (d0 : PageDirectory K V) (Hd0 : directory_sound d0) (Hfit : Forall (page_fits s base) (pages_of d0)).
Notation ps := (pages_of d0).
Implicit Types (p : Page K V) (qs before after mid : list (Page K V)) (e : Entry K V) (c x : RowChange K V) (cs : list (RowChange K V)) (k : K) (w : Progress K V).
Record midway (a : nat) before cs : Prop := {
  mw_changes : rising_changes cs;
  mw_ordered : ordered (before ++ drop a ps);
  mw_before k x : k ∈ keys before → x ∈ cs → key_lt k (change_key x);
  mw_start : a = 0 ∧ before = [] ∨ ∀ x, x ∈ cs → page_starts (ps !! a) (change_key x);
  mw_rows e : e ∈ rows (drop a ps) → row_admitted s base e;
  mw_puts e : e ∈ puts cs → row_admitted s base e;
  mw_weight : (rows_weight (rows (drop a ps)) + rows_weight (puts cs) <= u64_max)%N;
  mw_length : (N.of_nat (length (rows (drop a ps)) + length cs) <= u64_max)%N;
}.
(** The next group, among the pages that are left. *)
Record next_group (a : nat) before c cs (group : LeafGroup K V) mid after : Prop := {
  ng_next : group_next d0 (c :: cs) = Ok (Some group);
  ng_count : 1 <= lg_count group <= length (c :: cs);
  ng_rank : lg_rank group = a + length mid;
  ng_pages : drop a ps = mid ++ option_list (lg_page group) ++ after;
  ng_after : after = drop (S (lg_rank group)) ps;
  ng_none : lg_page group = None → directory_is_empty d0 = true;
  ng_before k x : k ∈ keys (before ++ mid) → x ∈ c :: cs → key_lt k (change_key x);
  ng_selected x e : x ∈ take (lg_count group) (c :: cs) → e ∈ rows after → key_lt (change_key x) (en_key e);
  ng_rest x e : x ∈ drop (lg_count group) (c :: cs) → e ∈ rows_of (lg_page group) → key_lt (en_key e) (change_key x);
  ng_start x : x ∈ drop (lg_count group) (c :: cs) → page_starts (ps !! S (lg_rank group)) (change_key x);
  ng_bound : (N.of_nat (S (lg_rank group)) <= u64_max)%N;
}.
Lemma rank_at_least a before c cs : midway a before (c :: cs) → ps ≠ [] → a <= rank_of (change_key c) ps.
Proof using Laws Hd0.
  intros [_ _ _ Hstart _ _ _ _] Hne. destruct Hstart as [[-> _]|Hstart]; [lia|]. destruct (Hstart c ltac:(left)) as (q & f & Hq & Hf & Hle).
  pose proof Hd0 as (Ho & _ & _). pose proof (proj2 (starts_by_spec (change_key c) q f Hf) Hle) as Hs. rewrite <-(take_drop_middle ps a q Hq) in Ho.
  assert (S a <= partition_point (starts_by (change_key c)) ps).
  { apply partition_point_reaches; [by apply lookup_lt_Some in Hq|]. rewrite (take_S_r _ _ _ Hq). apply Forall_app. split; [|by repeat constructor].
    apply Forall_forall. intros x Hx. by eapply ordered_starts. }
  unfold rank_of. lia.
Qed.
Lemma first_change c cs x k : rising_changes (c :: cs) → x ∈ c :: cs → key_lt k (change_key c) → key_lt k (change_key x).
Proof using Laws.
  intros Hc [->|Hx]%elem_of_cons Hlt; [done|]. eapply key_lt_trans; [exact Hlt|]. apply (rising_changes_app [c] cs) in Hc as (_ & _ & Hcc).
  apply Hcc; [left|by apply list_elem_of_fmap_2].
Qed.
Lemma next_group_ok a before c cs : midway a before (c :: cs) → ∃ group mid after, next_group a before c cs group mid after.
Proof using Laws Hd0.
  intros Hmid. pose proof Hmid as [Hc Ho Hbefore Hstart _ _ _ _]. pose proof Hd0 as (Hops & Hups & _).
  pose proof (small_count 1 ltac:(lia)) as Hone. destruct (decide (ps = [])) as [Hempty|Hne].
  - assert (a = 0 ∧ before = []) as [-> ->].
    { destruct Hstart as [?|Hs]; [done|]. destruct (Hs c ltac:(left)) as (q & f & Hq & _). by rewrite Hempty in Hq. }
    assert (Hdir : directory_is_empty d0 = true) by (rewrite sound_empty, bool_decide_true by done; done).
    exists {| lg_rank := 0; lg_count := length (c :: cs); lg_page := None |}, [], []. split; simpl; try done; try lia.
    + unfold group_next. simpl. by rewrite Hdir.
    + by rewrite Hempty.
    + by intros x e _ ?%elem_of_nil.
    + by intros x e _ ?%elem_of_nil.
    + intros x. rewrite drop_ge by done. by intros ?%elem_of_nil.
  - destruct (group_next_ok d0 c cs Hd0 Hc Hne) as (p & n & Hp & Hn & Hg & Hsel & Hrest). set (r := rank_of (change_key c) ps) in *.
    pose proof (rank_at_least a before c cs Hmid Hne) as Har. fold r in Har.
    assert (Hmidpages : drop a ps = take (r - a) (drop a ps) ++ p :: drop (S r) ps).
    { rewrite <-(take_drop_middle (drop a ps) (r - a) p) at 1; [|by rewrite lookup_drop, <-Hp; f_equal; lia].
      do 2 f_equal. rewrite drop_drop. f_equal. lia. }
    exists {| lg_rank := r; lg_count := n; lg_page := Some p |}, (take (r - a) (drop a ps)), (drop (S r) ps).
    pose proof (lookup_lt_Some _ _ _ Hp) as Hrl. split; simpl; try done; try lia.
    + rewrite length_take, length_drop. lia.
    + intros k x. rewrite keys_app. intros [Hk|Hk]%elem_of_app Hx; [by apply Hbefore|]. apply (first_change c cs); [done|done|].
      apply elem_of_keys_rows in Hk as (e & He & <-). apply (span_before ps); [done|]. fold r.
      assert (Htake : take r ps = take a ps ++ take (r - a) (drop a ps)).
      { rewrite <-(take_drop a ps) at 1. rewrite take_app_ge by (rewrite length_take; lia). f_equal. f_equal. rewrite length_take. lia. }
      rewrite Htake, rows_app. apply elem_of_app. by right.
    + intros x e Hx He. by apply Hsel.
    + intros x e Hx He. destruct (Hrest x Hx) as (q & f & Hq & Hf & Hle). eapply key_lt_le_trans; [|exact Hle].
      rewrite <-(take_drop_middle ps r p Hp) in Hops. change (p :: drop (S r) ps) with ([p] ++ drop (S r) ps) in Hops.
      apply ordered_app in Hops as (_ & (_ & _ & Hxx)%ordered_app & _). apply Hxx.
      * apply elem_of_keys. exists p. split; [left|by apply list_elem_of_fmap_2].
      * apply elem_of_keys. exists q. split; [|by apply page_first_key_elem]. rewrite (drop_S _ _ _ Hq). left.
Qed.
Lemma group_ready a before c cs group mid after : midway a before (c :: cs) → next_group a before c cs group mid after →
  merge_ready s base (rows_of (lg_page group)) (take (lg_count group) (c :: cs)).
Proof using Laws.
  intros [Hc Ho _ _ Hrows Hputs Hw Hl] Hg. pose proof (ng_pages _ _ _ _ _ _ _ Hg) as Hpages. rewrite Hpages in Ho, Hrows, Hw, Hl.
  rewrite !rows_app, rows_option in Hw, Hl, Hrows. set (n := lg_count group) in *. set (all := c :: cs) in *.
  destruct (rising_changes_split all n Hc) as (Hc1 & _ & _). assert (Hr : rising (rows_of (lg_page group))).
  { apply ordered_rising in Ho. rewrite !rows_app, rows_option in Ho. apply rising_app in Ho as (_ & (_ & (Ho & _)%rising_app & _)%rising_app & _). done. }
  assert (Hputs2 : puts all = puts (take n all) ++ puts (drop n all)) by (by rewrite <-puts_app, take_drop).
  split; [done|done| | |].
  - intros e He. apply merge_rows_elem in He as [He|[He _]]; [apply Hputs|apply Hrows|done|done].
    + rewrite Hputs2. apply elem_of_app. left. by apply elem_of_puts.
    + apply elem_of_app. right. apply elem_of_app. by left.
  - pose proof (merge_weight (rows_of (lg_page group)) (take n all)) as Hm. rewrite Hputs2, !rows_weight_app in Hw. lia.
  - rewrite !length_app in Hl. rewrite length_take. lia.
Qed.
Lemma group_page_sound a before c cs group mid after p : next_group a before c cs group mid after → lg_page group = Some p →
  page_fits s base p ∧ page_sound p.
Proof using Laws Hd0 Hfit.
  intros Hg Hp. pose proof (ng_pages _ _ _ _ _ _ _ Hg) as Hpages. rewrite Hp in Hpages. assert (Hin : p ∈ ps).
  { assert (Hd : p ∈ drop a ps) by (rewrite Hpages; apply elem_of_app; right; left). rewrite <-(take_drop a ps). apply elem_of_app. by right. }
  pose proof Hd0 as ([Hs _] & _ & _). rewrite Forall_forall in Hfit, Hs. split; [by apply Hfit|by apply Hs].
Qed.
Lemma next_midway a before c cs group mid after qs : midway a before (c :: cs) → next_group a before c cs group mid after →
  rows qs = merge_rows (rows_of (lg_page group)) (take (lg_count group) (c :: cs)) → Forall page_sound qs →
  midway (S (lg_rank group)) ((before ++ mid) ++ qs) (drop (lg_count group) (c :: cs)) ∧
  merge_rows (rows (drop a ps)) (c :: cs) = rows mid ++ rows qs ++ merge_rows (rows after) (drop (lg_count group) (c :: cs)) ∧
  ordered ((before ++ mid) ++ qs ++ after).
Proof using Laws.
  intros Hmid Hg Hqs Hsound. pose proof Hmid as [Hc Ho _ _ Hrows Hputs Hw Hl]. pose proof (ng_pages _ _ _ _ _ _ _ Hg) as Hpages.
  set (n := lg_count group) in *. set (all := c :: cs) in *. destruct (rising_changes_split all n Hc) as (Hc1 & Hc2 & Hcc).
  rewrite Hpages, app_assoc in Ho. assert (Hall : rising_changes (take n all ++ drop n all)) by (by rewrite take_drop).
  destruct (group_step (before ++ mid) (lg_page group) after qs (take n all) (drop n all) Ho Hsound Hqs Hall) as (Hord & Hbefore & Hmerge).
  { rewrite take_drop. apply (ng_before _ _ _ _ _ _ _ Hg). }
  { apply (ng_selected _ _ _ _ _ _ _ Hg). }
  { apply (ng_rest _ _ _ _ _ _ _ Hg). }
  rewrite take_drop in Hmerge. assert (Hputs2 : puts all = puts (take n all) ++ puts (drop n all)) by (by rewrite <-puts_app, take_drop).
  rewrite Hpages in Hrows, Hw, Hl. rewrite !rows_app in Hrows, Hw, Hl. split_and!.
  - pose proof (ng_after _ _ _ _ _ _ _ Hg) as Hafter. split; rewrite <-?Hafter.
    + done.
    + by rewrite <-app_assoc.
    + done.
    + right. apply (ng_start _ _ _ _ _ _ _ Hg).
    + intros e He. apply Hrows. apply elem_of_app. right. apply elem_of_app. by right.
    + intros e He. apply Hputs. rewrite Hputs2. apply elem_of_app. by right.
    + rewrite Hputs2, !rows_weight_app in Hw. lia.
    + rewrite !length_app in Hl. rewrite length_drop. lia.
  - rewrite Hpages, merge_rows_untouched; [by rewrite Hmerge| |done|].
    + rewrite <-app_assoc in Ho. apply ordered_app in Ho as (_ & Ho & _). by apply ordered_rising.
    + intros k x Hk Hx. apply (ng_before _ _ _ _ _ _ _ Hg); [|done]. rewrite keys_app. apply elem_of_app. by right.
  - done.
Qed.
(** What the rest of a plan says, and what the rest of its build makes. *)
Definition batch_made (fuel a : nat) before cs (acc acc' : nat * N) (co co' : Counts) : Prop := ∃ made edits,
  rows made = merge_rows (rows (drop a ps)) cs ∧ Forall (page_fits s base) made ∧ ordered (before ++ made) ∧
  acc'.1 + length (rows (drop a ps)) = acc.1 + length (rows made) ∧
  co_output_pages co' + length (drop a ps) = co_output_pages co + length made ∧
  co_new_pages co <= co_new_pages co' ∧ co_directory_edits co' = co_directory_edits co + edits ∧
  ∀ full max path, edit_share full max path → length (before ++ drop a ps) + (co_new_pages co' - co_new_pages co) <= max → ∀ w,
    pg_left w = cs → lists (before ++ drop a ps) (pg_directory w) → pg_base_after w = a → pg_output_after w = length before →
    builds (N.of_nat edits * path) (build_groups fuel s d0 w) (λ w', pg_left w' = [] ∧ lists (before ++ made) (pg_directory w')).
Lemma batch_planned fuel a before cs acc acc' co co' : length cs <= fuel → midway a before cs → plan_groups fuel s d0 cs acc co = (Ok acc', co') →
  batch_made fuel a before cs acc acc' co co'.
Proof using Laws Hlim Hd0 Hfit.
  revert a before cs acc co. induction fuel as [|fuel IH]; intros a before cs acc co Hf Hmid Hplan.
  all: destruct cs as [|c cs].
  1,3: unfold plan_groups, build_groups in *; simpl in Hplan; injection Hplan as <- <-; exists (drop a ps), 0; split_and!; try done; try lia;
    [apply Forall_drop; exact Hfit|apply Hmid|]; intros full max path Hshare Hmax w Hleft Hd Hba Hoa; unfold batch_made, build_groups; rewrite Hleft; simpl;
    (eapply builds_lift_bind; [done|]; by apply builds_ret).
  { simpl in Hf. lia. }
  destruct (next_group_ok a before c cs Hmid) as (group & mid & after & Hg). pose proof (ng_next _ _ _ _ _ _ _ Hg) as Hnext.
  pose proof (group_ready a before c cs group mid after Hmid Hg) as Hready.
  cbn [plan_groups] in Hplan. apply fallible_bind_ok in Hplan as (g & y & [Hx ->]%lift_ok & Hplan). rewrite Hnext in Hx. injection Hx as <-.
  apply fallible_bind_ok in Hplan as (acc1 & y & [Htally ->]%lift_ok & Hplan). apply fallible_bind_ok in Hplan as ([] & co1 & Hgroup & Hplan).
  pose proof (ng_count _ _ _ _ _ _ _ Hg) as Hcount. pose proof (ng_pages _ _ _ _ _ _ _ Hg) as Hpages.
  destruct (planned_made s base Hlim d0 group (take (lg_count group) (c :: cs)) co co1) as (qs & edits & Hqs & Hqf & Hqsound & Hout & Hnew & Hlen & Hed & Hbuild); try done.
  { rewrite length_take. lia. }
  { intros p Hp. by eapply group_page_sound. }
  { apply (ng_none _ _ _ _ _ _ _ Hg). }
  destruct (next_midway a before c cs group mid after qs Hmid Hg Hqs Hqsound) as (Hmid' & Hmerge & Hord).
  set (rest := drop (lg_count group) (c :: cs)) in *. pose proof (ng_after _ _ _ _ _ _ _ Hg) as Hafter.
  destruct (IH (S (lg_rank group)) ((before ++ mid) ++ qs) rest acc1 co1) as (made & edits' & Hmade & Hmf & Hmo & Hmacc & Hmout & Hmnew & Hmed & Hmbuild); [|done|done|].
  { unfold rest. rewrite length_drop. lia. }
  rewrite <-Hafter in Hmade, Hmacc, Hmout, Hmbuild. exists (mid ++ qs ++ made), (edits + edits').
  assert (Hrise : rising (rows_of (lg_page group))) by (by apply (mr_old _ _ _ _ Hready)).
  apply tally_rows in Htally; [|done|by apply (mr_changes _ _ _ _ Hready)]. rewrite <-Hqs in Htally.
  pose proof (f_equal length Hpages) as Hlens. rewrite !length_app in Hlens. split_and!.
  - rewrite Hmerge, !rows_app, Hmade. done.
  - repeat apply Forall_app_2; [|done|done]. assert (Hd : Forall (page_fits s base) (drop a ps)) by (apply Forall_drop; exact Hfit).
    rewrite Hpages in Hd. by apply Forall_app in Hd as [? _].
  - by rewrite <-!app_assoc in Hmo.
  - rewrite Hpages, !rows_app, rows_option, !length_app. rewrite Hmade in Hmacc |- *. lia.
  - rewrite !length_app. lia.
  - lia.
  - lia.
  - intros full max path Hshare Hmax w Hleft Hd Hba Hoa. pose proof (es_max _ _ _ Hshare) as Hu. pose proof Hd0 as (_ & Hups & _).
    pose proof (ng_rank _ _ _ _ _ _ _ Hg) as Hrank. pose proof (ng_bound _ _ _ _ _ _ _ Hg) as Hbound. rewrite length_app in Hmax.
    cbn [build_groups]. rewrite Hleft. eapply builds_lift_bind; [exact Hnext|].
    replace (N.of_nat (edits + edits') * path)%N with ((N.of_nat edits * path + 0) + N.of_nat edits' * path)%N by lia.
    eapply (builds_bind _ _ _ _ (λ w1, pg_left w1 = rest ∧ lists (((before ++ mid) ++ qs) ++ after) (pg_directory w1) ∧
      pg_base_after w1 = S (lg_rank group) ∧ pg_output_after w1 = length ((before ++ mid) ++ qs))).
    + unfold build_step. eapply builds_lift_bind; [rewrite Hba, decide_True by lia; done|]. rewrite Hoa, Hleft. eapply builds_lift_bind; [apply count_add_ok; lia|].
      apply builds_guard; [lia|]. replace (length before + (lg_rank group - a)) with (length (before ++ mid)) by (rewrite length_app; lia).
      eapply builds_bind; [eapply (Hbuild full max path Hshare (before ++ mid) after); [by rewrite <-app_assoc, <-Hpages|done|]|].
      { destruct Hd as [_ ->]. rewrite length_app. lia. }
      intros [d1 n1] [Hd1 Hn1]. cbn [fst snd] in Hd1, Hn1. subst n1. eapply builds_lift_bind; [apply count_add_ok; lia|].
      eapply builds_lift_bind; [apply count_add_ok; rewrite length_app; lia|]. apply builds_ret. simpl. rewrite <-app_assoc in Hd1.
      split_and!; [done|by rewrite <-!app_assoc|lia|by rewrite !length_app].
    + intros w1 (Hl1 & Hd1 & Hb1 & Ho1). eapply builds_weaken; [apply (Hmbuild full max path Hshare); try done|done|].
      * rewrite !length_app. lia.
      * intros w' [? ?]. split; [done|]. by rewrite <-!app_assoc in *.
Qed.
End Batches.
