(* ===== verification/PageStoreLaws.v ===== *)
(** * The range store as an ordered map

    A root is sound where its directory is, its count is that of its rows, and its
    pages and rows are within the store's limits. A batch planned on a sound root
    builds a sound root of the updated rows, or the budget refuses; a store
    restored from rows holds exactly those rows. *)
From stdpp Require Import prelude strings list sorting gmap.
From Stdlib Require Import NArith.
From S2P Require Import Prelude Fallible Budget Pages PagesLaws PageDirectory PageTree PageEdits PageEditing PageStore PageRows PageBuilds PagePlans.

(** ** Sorted batches *)
Section Sorting.
Context {K V : Type} `{Laws : RangeKeyLaws K, PageSizes}.
#[local] Set Default Proof Using "Type Laws".
Implicit Types (c : RowChange K V) (cs : list (RowChange K V)) (e : Entry K V) (es : list (Entry K V)).
#[local] Instance change_le_total : Total (change_le (K := K) (V := V)).
Proof using Type. intros c c'. apply (total key_le). Qed.
#[local] Instance change_le_trans : Transitive (change_le (K := K) (V := V)).
Proof using Type. intros c1 c2 c3. unfold change_le. by etrans. Qed.
Lemma sorted_rising cs : StronglySorted change_le cs → has_duplicate cs = false → rising_changes cs.
Proof using Type.
  intros Hs. induction Hs as [|c cs Hs IH Hle]; intros Hd; [constructor|]. cbn [has_duplicate] in Hd. apply orb_false_iff in Hd as [Hhead Hd].
  specialize (IH Hd). constructor; [done|]. apply Forall_fmap. destruct cs as [|c2 cs]; [constructor|]. simpl in Hhead. apply bool_decide_eq_false in Hhead.
  apply Forall_cons in Hle as [Hle _]. assert (Hlt : key_lt (change_key c) (change_key c2)) by (split; [exact Hle|done]).
  constructor; [exact Hlt|]. apply StronglySorted_inv in Hs as [_ Hs]. eapply Forall_impl; [exact Hs|]. intros y Hy. simpl. eapply key_lt_le_trans; [exact Hlt|exact Hy].
Qed.
Lemma batch_sorted cs : has_duplicate (merge_sort change_le cs) = false → rising_changes (merge_sort change_le cs).
Proof using Type. apply sorted_rising. apply (StronglySorted_merge_sort change_le). Qed.
Lemma rows_weight_perm es es' : es ≡ₚ es' → rows_weight es = rows_weight es'.
Proof using Type. induction 1; simpl; lia. Qed.
Lemma puts_perm cs cs' : cs ≡ₚ cs' → puts cs ≡ₚ puts cs'.
Proof using Type. intros Hp. unfold puts. by rewrite Hp. Qed.
Lemma input_admits config input cs total : try_fold (input_of config) input cs = Ok total → ∀ e, e ∈ puts cs → (row_cost e <= max_entry_bytes config)%N.
Proof using Type.
  revert input. induction cs as [|c cs IH]; intros input Hf e He; [by apply elem_of_nil in He|]. cbn [try_fold] in Hf. apply try_bind_ok in Hf as (input' & Hin & Hf).
  destruct c as [x|k]; [|by eapply IH]. apply elem_of_cons in He as [->|He]; [|by eapply IH]. simpl in Hin. apply try_bind_ok in Hin as (bytes & Hc & _).
  unfold check_entry in Hc. apply try_bind_ok in Hc as (y & ->%charge_add_inv & (u & Hr%refuse_if_ok & _)%try_bind_ok). unfold row_cost. lia.
Qed.
End Sorting.

Section StoreLaws.
Context {K V : Type} `{Laws : RangeKeyLaws K, Funding, PageSizes}.
#[local] Set Default Proof Using "Type Laws".
Implicit Types (s : RangeStore K V) (r : Root K V) (cs : list (RowChange K V)) (e : Entry K V) (q : PreparedRange K V).
Definition root_rows r : list (Entry K V) := rows (pages_of (ro_pages r)).
Record root_sound s (base : N) r : Prop := {
  rs_directory : directory_sound (ro_pages r);
  rs_len : ro_len r = length (root_rows r);
  rs_fits : Forall (page_fits s base) (pages_of (ro_pages r));
  rs_admitted e : e ∈ root_rows r → row_admitted s base e;
}.
(** The rows of a root and of a batch, with a page's bookkeeping, are bytes of
    one address space. *)
Definition addressable (base : N) r cs : Prop :=
  (base + rows_weight (root_rows r) + rows_weight (puts cs) <= u64_max)%N ∧ (N.of_nat (length (root_rows r) + length cs) <= u64_max)%N.
Lemma share_any full max : node_charge MAX = Ok full → (N.of_nat max <= u64_max)%N → edit_share full max (400 * full).
Proof using Type. intros Hf Hm. split; [done|done|lia|]. intros l _ Hl. apply N.mul_le_mono_r. lia. Qed.
Lemma share_bound edits max bound full : edit_bound edits max = Ok bound → node_charge MAX = Ok full → (N.of_nat max <= u64_max)%N →
  ∃ path, edit_share full max path ∧ (N.of_nat edits * path <= bound)%N.
Proof using Type.
  intros Hb Hf Hm. destruct (decide (edits = 0)) as [->|Hne].
  - exists (400 * full)%N. split; [by apply share_any|lia].
  - destruct (edit_bound_share edits max bound full Hb Hf Hne) as (path & -> & H8 & Hl). exists path. split; [|done]. by split.
Qed.
Lemma plan_midway s base r cs input total : root_sound s base r → addressable base r cs →
  has_duplicate (merge_sort change_le cs) = false → try_fold (input_of (rs_config s)) input (merge_sort change_le cs) = Ok total →
  midway s base (ro_pages r) 0 [] (merge_sort change_le cs).
Proof.
  intros [Hd Hlen Hfit Hadm] [Hw Hl] Hdup Hin. set (sorted := merge_sort change_le cs) in *. assert (Hp : sorted ≡ₚ cs) by apply merge_sort_Permutation.
  assert (Hweight : rows_weight (puts sorted) = rows_weight (puts cs)) by (by apply rows_weight_perm, puts_perm).
  assert (Hcost : ∀ es e, e ∈ es → (row_cost e <= rows_weight es)%N).
  { induction es as [|x es IH]; intros e He; [by apply elem_of_nil in He|]. simpl. apply elem_of_cons in He as [->|He]; [lia|]. specialize (IH e He). lia. }
  unfold root_rows in *. split; rewrite ?drop_0.
  - by apply batch_sorted.
  - apply Hd.
  - by intros k x ?%elem_of_nil.
  - by left.
  - done.
  - intros e He. split; [by eapply input_admits|]. specialize (Hcost (puts sorted) e He). lia.
  - rewrite Hweight. lia.
  - rewrite (Permutation_length Hp). lia.
Qed.
Lemma no_duplicates_nodup cs : has_duplicate (merge_sort change_le cs) = false → NoDup (change_key <$> cs).
Proof.
  intros Hd. rewrite <-(merge_sort_Permutation change_le cs). by apply rising_changes_nodup, batch_sorted.
Qed.
(** A plan taken apart. *)
Record planned s base r (prefix : N) cs (plan : RangePreparationPlan K V) (sorted : list (RowChange K V)) (bound root : N) (edits leaves : nat) : Prop := {
  pl_base : pp_base plan = r;
  pl_prefix : pp_prefix plan = (ro_prefix r + 1)%N ∧ prefix = pp_prefix plan;
  pl_changes : pp_changes plan = sorted;
  pl_rising : rising_changes sorted;
  pl_puts e : e ∈ puts sorted → row_admitted s base e;
  pl_root : root_charge = Ok root;
  pl_directory : ch_directory_bytes (pp_charges plan) = (root + bound)%N;
  pl_bound : edit_bound edits leaves = Ok bound;
  pl_leaves : (N.of_nat leaves <= u64_max)%N;
  pl_made : ∃ input acc co co', co_output_pages co = directory_len (ro_pages r) ∧ co_new_pages co = 0 ∧ co_directory_edits co = 0 ∧
    batch_made s base (ro_pages r) (length sorted) 0 [] sorted (ro_len r, input) acc co co' ∧
    pp_new_len plan = acc.1 ∧ pp_output_pages plan = co_output_pages co' ∧ edits = co_directory_edits co' ∧
    leaves = directory_len (ro_pages r) + co_new_pages co';
}.
Lemma plan_planned s base r prefix cs capacity lane max_bytes max_entries plan : cut_limits (rs_config s) base → root_sound s base r → addressable base r cs →
  plan_root s r prefix cs capacity lane max_bytes max_entries = Ok plan →
  NoDup (change_key <$> cs) ∧ ∃ bound root edits leaves, planned s base r prefix cs plan (merge_sort change_le cs) bound root edits leaves.
Proof.
  intros Hlim Hr Ha Hp. unfold plan_root in Hp. apply try_bind_ok in Hp as (expected & He%or_fail_ok & Hp). apply checked_add_Some in He as [-> _].
  apply refuse_then_ok in Hp as [Hprefix Hp]. apply refuse_then_ok in Hp as [_ Hp]. cbv zeta in Hp. apply refuse_then_ok in Hp as [Hdup%not_true_is_false Hp].
  apply try_bind_ok in Hp as (input0 & _ & Hp). apply try_bind_ok in Hp as (input & Hin & Hp).
  set (co := {| co_output_pages := directory_len (ro_pages r); co_new_pages := 0; co_directory_edits := 0; co_new_pages_bytes := 0; co_merge_pending_bytes := 0 |}) in *.
  set (sorted := merge_sort change_le cs) in *. destruct (plan_groups (length sorted) s (ro_pages r) sorted (ro_len r, input) co) as [x co'] eqn:Hplan.
  apply try_bind_ok in Hp as ([new_len input'] & -> & Hp). apply try_bind_ok in Hp as (charges & Hch & Hp). apply refuse_then_ok in Hp as [_ [= <-]].
  pose proof (plan_midway s base r cs _ _ Hr Ha Hdup Hin) as Hmid. fold sorted in Hmid.
  pose proof (batch_planned s base Hlim (ro_pages r) (rs_directory _ _ _ Hr) (rs_fits _ _ _ Hr) _ _ _ _ _ _ _ _ (le_n _) Hmid Hplan) as Hmade.
  unfold plan_charges in Hch. apply try_bind_ok in Hch as (root & Hroot & Hch). apply try_bind_ok in Hch as (leaves & Hleaves & Hch).
  apply try_bind_ok in Hch as (bound & Hbound & Hch). apply try_bind_ok in Hch as (directory & ->%charge_add_inv & Hch).
  apply try_bind_ok in Hch as (retained & _ & Hch). apply try_bind_ok in Hch as (pending & _ & Hch). apply try_bind_ok in Hch as (peak & _ & [= <-]).
  split; [by apply no_duplicates_nodup|]. exists bound, root, (co_directory_edits co'), leaves. assert (prefix = ro_prefix r + 1)%N as -> by (by apply dec_stable).
  split; simpl; try done.
  - apply Hmid.
  - apply Hmid.
  - revert Hleaves. unfold count_add. destruct (N.leb_spec (N.of_nat (directory_len (ro_pages r) + co_new_pages co')) u64_max); [|done]. by intros [= <-].
  - apply count_add_inv in Hleaves as ->. exists input, (new_len, input'), co, co'. by split_and!.
Qed.
(** ** Building a plan *)
Lemma planned_builds s base r prefix cs plan bound root edits leaves full : node_charge MAX = Ok full → root_sound s base r →
  planned s base r prefix cs plan (merge_sort change_le cs) bound root edits leaves → ∃ made,
  rows made = merge_rows (root_rows r) (merge_sort change_le cs) ∧ Forall (page_fits s base) made ∧ ordered made ∧
  pp_new_len plan = length (rows made) ∧ pp_output_pages plan = length made ∧
  ∀ b, bd_remaining b = bound →
    let start := {| pg_left := pp_changes plan; pg_directory := ro_pages r; pg_base_after := 0; pg_output_after := 0 |} in
    match build_groups (length (pp_changes plan)) s (ro_pages r) start b with
    | (Ok w, _) => pg_left w = [] ∧ lists made (pg_directory w)
    | (Err e, _) => budget_refuses e
    end.
Proof.
  intros Hfull [Hd Hlen _ _] [Hb _ Hcs _ _ Hroot Hdir Hbound Hleaves (input & acc & co & co' & Hco & Hnew & Hed & Hmade & Hnl & Hop & -> & ->)].
  destruct Hmade as (made & edits & Hrows & Hfit & Hord & Hacc & Hout & Hnew' & Hed' & Hbuild). rewrite drop_0 in *. simpl in Hord, Hacc, Hbuild.
  rewrite Hnew, Nat.sub_0_r in Hbuild. rewrite Hed in Hed'. simpl in Hed'. unfold root_rows in *. rewrite sound_len in * by done.
  destruct (share_bound _ _ _ _ Hbound Hfull Hleaves) as (path & Hshare & Hle). exists made. split_and!; try done; [lia|lia|].
  intros b Hrem. cbv zeta. rewrite Hcs. set (start := {| pg_left := _ |}).
  pose proof (Hbuild full _ path Hshare ltac:(lia) start eq_refl (conj Hd eq_refl) eq_refl eq_refl b) as Hrun.
  destruct (build_groups _ s (ro_pages r) start b) as [[w|e] b']; [by destruct Hrun|]. destruct Hrun as [?|Hless]; [done|].
  rewrite Hrem, <-Hed' in Hless. lia.
Qed.
(** What a candidate is. *)
Record candidate s base r cs q : Prop := {
  ca_base : pr_base q = r;
  ca_sound : root_sound s base (pr_root q);
  ca_rows : row_map (root_rows (pr_root q)) = change_maps (row_map (root_rows r)) cs;
  ca_prefix : ro_prefix (pr_root q) = (ro_prefix r + 1)%N;
  ca_owner : ro_owner (pr_root q) = ro_owner r ∧ ro_range (pr_root q) = ro_range (rs_root s);
}.
Lemma prepare_planned_ok s base r prefix cs capacity lane max_bytes max_entries plan full address f :
  cut_limits (rs_config s) base → node_charge MAX = Ok full → root_sound s base r → addressable base r cs →
  plan_root s r prefix cs capacity lane max_bytes max_entries = Ok plan →
  match prepare_planned s plan address f with
  | (Ok q, _) => candidate s base r cs q ∧ ro_address (pr_root q) = address ∧ directory_len (ro_pages (pr_root q)) = pp_output_pages plan
  | (Err e, _) => budget_refuses e
  end.
Proof.
  intros Hlim Hfull Hr Ha Hp. destruct (plan_planned _ _ _ _ _ _ _ _ _ _ Hlim Hr Ha Hp) as (Hnodup & bound & root & edits & leaves & Hpl).
  destruct (planned_builds _ _ _ _ _ _ _ _ _ _ _ Hfull Hr Hpl) as (made & Hrows & Hfit & Hord & Hnl & Hop & Hbuild).
  pose proof Hpl as [Hb [Hprefix _] Hcs Hsorted Hputs Hroot Hdir _ _ _]. unfold prepare_planned. rewrite Hroot.
  destruct (fund_reserve BudgetKind.Roots (pp_lane plan) root f) as [[[]|err] f1] eqn:Hres; [|by repeat eexists].
  assert (Hsub : checked_sub (ch_directory_bytes (pp_charges plan)) root = Some bound).
  { apply checked_sub_Some. rewrite Hdir. split; lia. }
  rewrite Hsub, Hb. specialize (Hbuild {| bd_lane := pp_lane plan; bd_remaining := bound; bd_fund := f1 |} eq_refl). cbv zeta in Hbuild.
  destruct (build_groups _ s (ro_pages r) _ _) as [[w|err] b']; [|done]. destruct Hbuild as [Hleft [Hds Hdp]]. cbn [mbind try_bind].
  rewrite refuse_pass by (rewrite Hleft; naive_solver). rewrite refuse_pass by (rewrite sound_len, Hdp, Hop by done; naive_solver).
  pose proof Hr as [Hd Hlen Hf Hadm]. assert (Hrise : rising (root_rows r)) by (apply ordered_rising; apply Hd).
  cbn [mret try_ret pr_base pr_root]. split_and!; [split|done|cbn [ro_pages]; by rewrite sound_len, Hdp, Hop by done]; cbn [pr_base pr_root ro_prefix ro_owner ro_range].
  - done.
  - split; unfold root_rows; cbn [ro_pages ro_len]; rewrite ?Hdp; try done. intros e He. rewrite Hrows in He.
    apply merge_rows_elem in He as [He|[He _]]; [|by apply Hadm|done|done].
    apply Hputs. by apply elem_of_puts.
  - unfold root_rows at 1. cbn [ro_pages]. rewrite Hdp, Hrows, merge_rows_map by done. symmetry. apply change_maps_perm; [|done]. symmetry. apply merge_sort_Permutation.
  - done.
  - done.
Qed.
End StoreLaws.

(** * Batches applied and stores restored

    Applying a batch to a sound store updates its rows as a map, or leaves the
    store as it was. A store restored from rows holds exactly those rows. *)
Section Restoring.
Context {K V : Type} `{Laws : RangeKeyLaws K, Funding, PageSizes}.
#[local] Set Default Proof Using "Type Laws".
Implicit Types (s : RangeStore K V) (r : Root K V) (cs : list (RowChange K V)) (e : Entry K V) (es : list (Entry K V)) (q : PreparedRange K V) (k : K).
(** ** Applying *)
Record applied s base cs s' : Prop := {
  ap_config : rs_config s' = rs_config s ∧ rs_partition s' = rs_partition s;
  ap_sound : root_sound s base (rs_root s');
  ap_rows : row_map (root_rows (rs_root s')) = change_maps (row_map (root_rows (rs_root s))) cs;
  ap_prefix : ro_prefix (rs_root s') = (ro_prefix (rs_root s) + 1)%N;
  ap_keys : NoDup (change_key <$> cs);
}.
Lemma candidate_published s base cs q : candidate s base (rs_root s) cs q →
  publish q s = (Ok (), root_published (pr_root q) s).
Proof using Type.
  intros [Hb _ _ _ [_ Hrange]]. unfold publish, errors_as, publish_recoverable. rewrite Hb, Hrange.
  by rewrite !decide_False by (intros Hn; by apply Hn).
Qed.
Lemma apply_batch_ok s base prefix cs capacity lane address full f : cut_limits (rs_config s) base → node_charge MAX = Ok full →
  root_sound s base (rs_root s) → addressable base (rs_root s) cs →
  match apply_batch prefix cs capacity lane address (s, f) with
  | (Ok _, (s', _)) => applied s base cs s'
  | (Err e, (s', _)) => s' = s ∧ (budget_refuses e ∨ plan_batch s prefix cs capacity lane u64_max = Err e)
  end.
Proof.
  intros Hlim Hfull Hs Ha. unfold apply_batch, prepare_batch, mbind, fallible_bind, lift.
  destruct (plan_batch s prefix cs capacity lane u64_max) as [plan|err] eqn:Hp; [|by split; [|right]].
  unfold build, mbind, fallible_bind. destruct (fund_reserve _ _ _ f) as [[[]|err] f1] eqn:Hres; [|split; [done|left; by repeat eexists]].
  pose proof (prepare_planned_ok s base (rs_root s) prefix cs capacity lane u64_max (max_batch_entries (rs_config s)) plan full address f1 Hlim Hfull Hs Ha Hp) as Hprep.
  destruct (plan_planned _ _ _ _ _ _ _ _ _ _ Hlim Hs Ha Hp) as [Hnodup _].
  destruct (prepare_planned s plan address f1) as [[q|err] f2]; [|by split; [|left]]. destruct Hprep as [Hc _].
  rewrite (candidate_published s base cs q Hc). destruct Hc as [_ Hsound Hrows Hprefix _]. by split.
Qed.
(** Soundness depends on the store only through its limits. *)
Lemma root_sound_config s s' base r : rs_config s' = rs_config s → rs_partition s' = rs_partition s → root_sound s base r → root_sound s' base r.
Proof using Type.
  intros Hc Hp [Hd Hl Hf Ha]. split; [done|done| |].
  - eapply Forall_impl; [exact Hf|]. intros p. unfold page_fits, row_label. by rewrite Hc, Hp.
  - intros e He. specialize (Ha e He). unfold row_admitted in *. by rewrite Hc.
Qed.
(** ** Staging *)
Definition past (previous : option K) es : Prop := StronglySorted key_lt (option_list previous ++ (en_key <$> es)).
Lemma past_cons previous e es : (∀ k, previous = Some k → key_lt k (en_key e)) → past (Some (en_key e)) es → past previous (e :: es).
Proof using Type.
  unfold past. simpl. intros Hk Hs. destruct previous as [k|]; simpl; [|done]. constructor; [done|]. constructor; [by apply Hk|].
  apply StronglySorted_inv in Hs as [_ Hs]. eapply Forall_impl; [exact Hs|]. intros x. apply key_lt_trans. by apply Hk.
Qed.
Lemma stage_chunk_ok config partition last_row n chunk heap source f taken rest f' :
  stage_chunk config partition last_row n chunk heap source f = (Ok (taken, rest), f') →
  ∃ new, taken = chunk ++ new ∧ source = new ++ rest ∧ past (match last chunk with Some e => Some (en_key e) | None => last_row end) new ∧
  (chunk = [] → n ≠ 0 → source ≠ [] → new ≠ []).
Proof.
  revert chunk heap source f. induction n as [|n IH]; intros chunk heap source f; simpl.
  { intros [= <- <- <-]. exists []. rewrite app_nil_r. split_and!; [done|done| |done]. unfold past. simpl. destruct (match last chunk with Some _ => _ | None => _ end); repeat constructor. }
  destruct source as [|e source].
  { intros [= <- <- <-]. exists []. rewrite app_nil_r. split_and!; [done|done| |done]. unfold past. destruct (match last chunk with Some _ => _ | None => _ end); repeat constructor. }
  intros Hst. apply fallible_bind_ok in Hst as (x1 & f1 & [_ ->]%lift_ok & Hst). apply fallible_bind_ok in Hst as (nh & f2 & [_ ->]%lift_ok & Hst).
  apply fallible_bind_ok in Hst as (count & f3 & [_ ->]%lift_ok & Hst). apply fallible_bind_ok in Hst as (charge & f4 & [_ ->]%lift_ok & Hst).
  revert Hst. case_decide as Hbreak.
  { intros [= <- <- <-]. exists []. rewrite app_nil_r. split_and!; [done|done| |naive_solver]. unfold past. destruct (match last chunk with Some _ => _ | None => _ end); repeat constructor. }
  intros Hst. apply fallible_bind_ok in Hst as ([] & f5 & [Hord%refuse_if_ok ->]%lift_ok & Hst). apply fallible_bind_ok in Hst as ([] & f6 & _ & Hst).
  assert (Hprev : ∀ k, (match last chunk with Some e0 => Some (en_key e0) | None => last_row end) = Some k → key_lt k (en_key e)).
  { intros k Hk. rewrite Hk in Hord. simpl in Hord. rewrite bool_decide_eq_true in Hord. by apply key_not_le. }
  revert Hst. case_decide as Hbig.
  - intros [= <- <- <-]. exists [e]. split_and!; [done|done| |done]. apply past_cons; [done|]. unfold past. simpl. repeat constructor.
  - intros (new & -> & -> & Hpast & _)%IH. exists (e :: new). rewrite <-app_assoc. split_and!; [done|done| |done]. apply past_cons; [done|].
    by rewrite last_snoc in Hpast.
Qed.
(** ** Restoring *)
Lemma last_row_ok r : directory_sound (ro_pages r) → last_row r = en_key <$> last (root_rows r).
Proof using Type.
  intros Hd. unfold last_row, root_rows. rewrite sound_last by done. destruct Hd as ([Hs _] & _ & _).
  destruct (pages_of (ro_pages r)) as [|p ps _] using rev_ind; [done|]. rewrite last_snoc, rows_app. change (rows [p]) with (pg_entries p ++ []). rewrite app_nil_r.
  cbn [mbind option_bind]. apply Forall_app in Hs as [_ [Hp _]%Forall_cons]. apply page_sound_last in Hp as [k Hk]. unfold page_last_key in Hk.
  rewrite last_app. destruct (last (pg_entries p)); done.
Qed.
Lemma rising_past es es' : rising es → past (en_key <$> last es) es' → rising (es ++ es').
Proof.
  intros Hr Hp. unfold past in Hp. apply ssorted_app in Hp as (_ & Hs & Hlt). apply rising_app. split_and!; [done|exact Hs|]. intros x y Hx Hy.
  destruct es as [|e es _] using rev_ind; [by apply elem_of_nil in Hx|]. rewrite last_snoc in Hlt. simpl in Hlt.
  assert (Hey : key_lt (en_key e) (en_key y)) by (apply Hlt; [left|by apply list_elem_of_fmap_2]).
  apply elem_of_app in Hx as [Hx|Hx]; [|by apply list_elem_of_singleton in Hx as ->]. eapply key_lt_trans; [|exact Hey]. apply rising_app in Hr as (_ & _ & Hr). apply Hr; [done|left].
Qed.
(** Rows put past all others follow them. *)
Lemma append_rows es es' new : rising (es ++ es') → rising new → row_map new = change_maps (row_map es) (RowChange.Put <$> es') → new = es ++ es'.
Proof.
  intros Hr Hn Hm. pose proof (proj1 (rising_app _ _) Hr) as (Hr1 & Hr2 & Hlt). apply rising_unique; [done|done|]. intros e.
  assert (Hkeys : change_key <$> (RowChange.Put <$> es') = en_key <$> es') by (by rewrite <-list_fmap_compose).
  assert (Hin : e ∈ new ↔ row_map new !! en_key e = Some e) by (rewrite row_map_Some by done; naive_solver).
  rewrite Hin, Hm, change_maps_lookup by (rewrite Hkeys; by apply rising_nodup). unfold named. rewrite Hkeys, row_map_Some, elem_of_app by done. split.
  - intros [[(x & [= ->] & Hx)%list_elem_of_fmap _]|[_ [? _]]]; [by right|by left].
  - intros [He|He]; [right|left; split; [by apply list_elem_of_fmap_2|done]]. split; [|done]. intros (y & E & Hy)%list_elem_of_fmap.
    apply (key_lt_irrefl (en_key e)). rewrite E at 2. by apply Hlt.
Qed.
Lemma puts_fmap es : puts (RowChange.Put <$> es) = es.
Proof using Type. induction es as [|e es IH]; [done|]. cbn [fmap list_fmap]. change (puts (RowChange.Put e :: ?l)) with (e :: puts l). by f_equal. Qed.
(** One batch of a restore: rows past all others, put at the end. *)
Record restoring base s (source : list (Entry K V)) : Prop := {
  re_limits : cut_limits (rs_config s) base;
  re_batch : max_batch_entries (rs_config s) ≠ 0;
  re_sound : root_sound s base (rs_root s);
  re_weight : (base + rows_weight (root_rows (rs_root s)) + rows_weight source <= u64_max)%N;
  re_length : (N.of_nat (length (root_rows (rs_root s)) + length source) <= u64_max)%N;
}.
Lemma restoring_batch base s new rest : restoring base s (new ++ rest) → addressable base (rs_root s) (RowChange.Put <$> new).
Proof using Type.
  intros [_ _ _ Hw Hl]. rewrite rows_weight_app in Hw. rewrite length_app in Hl. unfold addressable. rewrite puts_fmap, length_fmap. split; lia.
Qed.
Lemma restore_step base full s new rest next capacity address f s1 f1 : node_charge MAX = Ok full → restoring base s (new ++ rest) →
  past (last_row (rs_root s)) new → apply_batch next (RowChange.Put <$> new) capacity BudgetLane.Completion address (s, f) = (Ok (), (s1, f1)) →
  rs_config s1 = rs_config s ∧ rs_partition s1 = rs_partition s ∧ root_rows (rs_root s1) = root_rows (rs_root s) ++ new ∧ restoring base s1 rest.
Proof.
  intros Hfull Hre Hpast Happly. pose proof (restoring_batch base s new rest Hre) as Ha. pose proof Hre as [Hlim Hbatch Hs Hw Hl].
  pose proof (rs_directory _ _ _ Hs) as Hd. rewrite last_row_ok in Hpast by done. assert (Hrise : rising (root_rows (rs_root s))) by (apply ordered_rising; apply Hd).
  pose proof (apply_batch_ok s base next (RowChange.Put <$> new) capacity BudgetLane.Completion address full f Hlim Hfull Hs Ha) as Hap.
  rewrite Happly in Hap. destruct Hap as [[Hc Hpt] Hsound Hrows _ _].
  assert (Hrow1 : root_rows (rs_root s1) = root_rows (rs_root s) ++ new).
  { apply append_rows; [by apply rising_past|apply ordered_rising; apply Hsound|done]. }
  rewrite rows_weight_app in Hw. rewrite length_app in Hl. split_and!; [done|done|done|]. split; rewrite ?Hc; try done.
  - by eapply root_sound_config.
  - rewrite Hrow1, rows_weight_app. lia.
  - rewrite Hrow1, length_app. lia.
Qed.
Lemma restore_batches_ok base full fuel address source s f s' f' : node_charge MAX = Ok full → restoring base s source → length source <= fuel →
  restore_batches fuel address source (s, f) = (Ok (), (s', f')) →
  rs_config s' = rs_config s ∧ rs_partition s' = rs_partition s ∧ root_sound s' base (rs_root s') ∧ root_rows (rs_root s') = root_rows (rs_root s) ++ source.
Proof.
  intros Hfull. revert source s f. induction fuel as [|fuel IH]; intros [|x source] s f Hre Hf; try (simpl in Hf; lia).
  1-2: intros [= <- <-]; rewrite app_nil_r; split_and!; try done; apply Hre.
  intros Hrun. cbn [restore_batches] in Hrun. apply fallible_bind_ok in Hrun as (sf & y & [= <- <-] & Hrun). cbn [id] in Hrun. set (all := x :: source) in *.
  apply fallible_bind_ok in Hrun as (staging & y & [_ ->]%lift_ok & Hrun). apply fallible_bind_ok in Hrun as ([] & y & Hres & Hrun).
  unfold in_fund in Hres. destruct (fund_reserve _ _ staging f) as [? f1]. injection Hres as -> <-.
  apply fallible_bind_ok in Hrun as ([chunk rest] & y & Hst & Hrun). unfold in_fund in Hst.
  destruct (stage_chunk _ _ _ _ [] 0 all f1) as [z f2] eqn:Hstage. injection Hst as -> <-.
  apply stage_chunk_ok in Hstage as (new & -> & Hall & Hpast & Hprog). rewrite app_nil_l in Hrun. cbn [last] in Hpast.
  apply fallible_bind_ok in Hrun as (next & y & [_ ->]%lift_ok & Hrun). apply fallible_bind_ok in Hrun as ([] & [s1 f3] & Happly & Hrun).
  assert (Hnew : new ≠ []) by (apply Hprog; [done|pose proof (ct_entries _ _ (re_limits _ _ _ Hre)); pose proof (re_batch _ _ _ Hre); lia|done]).
  rewrite Hall in Hre, Hf |- *. destruct (restore_step base full s new rest _ _ _ _ _ _ Hfull Hre Hpast Happly) as (Hc & Hpt & Hrow1 & Hre1).
  assert (Hlen : length new ≠ 0) by (by destruct new). rewrite length_app in Hf.
  destruct (IH rest s1 f3) as (Hc' & Hpt' & Hs' & Hr'); [done|lia|done|].
  split_and!; [congruence|congruence|done|by rewrite Hr', Hrow1, app_assoc].
Qed.
(** ** New stores *)
Lemma store_new_ok id prefix config partition lane owner address f s f' : (page_bytes config <= u64_max)%N →
  store_new id prefix config partition lane owner address f = (Ok s, f') →
  rs_config s = config ∧ rs_partition s = partition ∧ max_batch_entries config ≠ 0 ∧ ro_prefix (rs_root s) = prefix ∧ ro_range (rs_root s) = id ∧ root_rows (rs_root s) = [] ∧
  ∃ base, cut_limits config base ∧ root_sound s base (rs_root s).
Proof using Type.
  intros Hwidth Hnew. unfold store_new in Hnew. apply fallible_bind_ok in Hnew as (c & y & [Hval ->]%lift_ok & Hnew).
  unfold range_config_validate in Hval. apply refuse_then_ok in Hval as [Hval [= <-]].
  apply fallible_bind_ok in Hnew as ([] & y & [Hlay ->]%lift_ok & Hnew). apply fallible_bind_ok in Hnew as (charge & y & [_ ->]%lift_ok & Hnew).
  apply fallible_bind_ok in Hnew as ([] & y & _ & Hnew). apply fallible_bind_ok in Hnew as (o & y' & [_ ->]%lift_ok & [= <- <-]).
  unfold layout_validate in Hlay. apply try_bind_ok in Hlay as (one & Hone & Hroom%refuse_if_ok).
  assert (∃ base, page_charge 0 0 = Ok base ∧ (base <= one)%N) as (base & Hbase & Hle).
  { unfold page_charge in Hone |- *. apply try_bind_ok in Hone as (a & -> & (b & Hb & (d & Hd & (g & Hg & (i & ->%charge_mul_inv & (j & ->%charge_add_inv & Hone)%try_bind_ok)%try_bind_ok)%try_bind_ok)%try_bind_ok)%try_bind_ok).
    unfold charge_add in Hone. apply or_fail_ok, checked_add_Some in Hone as [-> Hu]. exists g. cbn [mbind try_bind]. rewrite Hb. cbn [mbind try_bind]. rewrite Hd. cbn [mbind try_bind].
    rewrite Hg. cbn [mbind try_bind]. split; [|lia]. assert (Hz : charge_mul (N.of_nat 0) size_of_Entry = Ok 0%N) by done. rewrite Hz. cbn [mbind try_bind].
    rewrite !charge_add_fits by lia. cbn [mbind try_bind]. rewrite charge_add_fits by lia. f_equal. lia. }
  split_and!; try done; [naive_solver|]. exists base. split.
  - split; [done|lia|done|naive_solver].
  - split; unfold root_rows; simpl; [|done|constructor|by intros e ?%elem_of_nil]. split_and!; [split; constructor|done|done].
Qed.
End Restoring.
