(* ===== verification/PageRefusals.v ===== *)
(** * Plans that are refused

    A plan on a sound root fails for a reason of the batch: its prefix is not the
    next one, it has too many changes, two for one key, a row past the limits, or
    a delete of a row that is not there. Otherwise only a counter of bytes or
    pages overflowed. A plan that is made is of a batch with none of these. *)
From stdpp Require Import prelude strings list sorting gmap.
From Stdlib Require Import NArith.
From S2P Require Import Prelude Fallible Budget Pages PagesLaws PageDirectory PageTree PageEdits PageEditing PageStore PageRows PageBuilds PagePlans PageStoreLaws.

(** ** What a computation can fail with *)
Section Failing.
Context {E A B : Type} (Q : E → Prop).
Definition fails_as (x : Try E A) : Prop := ∀ e, x = Err e → Q e.
Definition run_fails_as {St} (m : Fallible St E A) (s : St) : Prop := ∀ e s', m s = (Err e, s') → Q e.
End Failing.
Section FailingLaws.
Context {E A B : Type} (Q : E → Prop).
Lemma fails_bind (x : Try E A) (k : A → Try E B) : fails_as Q x → (∀ y, x = Ok y → fails_as Q (k y)) → fails_as Q (x ≫= k).
Proof. intros Hx Hk e. destruct x as [y|e']; simpl; [by apply Hk|]. intros [= ->]. by apply Hx. Qed.
Lemma fails_ok (y : A) : fails_as Q (Ok y).
Proof. by intros e. Qed.
Lemma fails_ret (y : A) : fails_as Q (mret y : Try E A).
Proof. by intros e. Qed.
Lemma fails_guard (P : Prop) `{Decision P} (e : E) (m : Try E A) : (P → Q e) → (¬ P → fails_as Q m) → fails_as Q (refuse_if P e;; m).
Proof. intros HP Hm e'. unfold refuse_if. case_decide; simpl; [|by apply Hm]. intros [= <-]. by apply HP. Qed.
Lemma fails_fold {C} (f : A → C → Try E A) acc l : (∀ acc c, c ∈ l → fails_as Q (f acc c)) → fails_as Q (try_fold f acc l).
Proof.
  revert acc. induction l as [|c l IH]; intros acc Hf; [apply fails_ok|]. simpl. intros e. specialize (Hf acc c ltac:(left)) as Hc. destruct (f acc c) as [acc'|e'] eqn:E1; simpl.
  - apply IH. intros ???. apply Hf. by right.
  - intros [= ->]. by apply Hc.
Qed.
Context {St : Type}.
Lemma run_bind (m : Fallible St E A) (k : A → Fallible St E B) (s : St) : run_fails_as Q m s → (∀ y s1, m s = (Ok y, s1) → run_fails_as Q (k y) s1) → run_fails_as Q (m ≫= k) s.
Proof. intros Hm Hk e s'. unfold mbind, fallible_bind. destruct (m s) as [[y|e'] s1] eqn:E1; [by apply Hk|]. intros [= -> ->]. by eapply Hm. Qed.
Lemma run_lift (x : Try E A) (s : St) : fails_as Q x → run_fails_as Q (lift x) s.
Proof. intros Hx e s' [= He _]. by apply Hx. Qed.
Lemma run_lift_bind (x : Try E A) (k : A → Fallible St E B) (s : St) : fails_as Q x → (∀ y, x = Ok y → run_fails_as Q (k y) s) → run_fails_as Q (lift x ≫= k) s.
Proof. intros Hx Hk. apply run_bind; [by apply run_lift|]. by intros y s1 [-> ->]%lift_ok; apply Hk. Qed.
Lemma run_gets (f : St → A) (k : A → Fallible St E B) (s : St) : run_fails_as Q (k (f s)) s → run_fails_as Q (gets f ≫= k) s.
Proof. by intros Hk. Qed.
Lemma run_ok (x : A) (s : St) : run_fails_as Q (mret x : Fallible St E A) s.
Proof. by intros e s'. Qed.
Lemma run_modify (f : St → St) (s : St) : run_fails_as Q (modify f : Fallible St E ()) s.
Proof. by intros e s'. Qed.
Lemma run_guard (P : Prop) `{Decision P} (e : E) (k : Fallible St E A) (s : St) : (P → Q e) → (¬ P → run_fails_as Q k s) → run_fails_as Q (lift (refuse_if P e);; k) s.
Proof. intros HP Hk e' s'. unfold mbind, fallible_bind, lift, refuse_if. case_decide; [|by apply Hk]. intros [= <- <-]. by apply HP. Qed.
End FailingLaws.
Lemma fails_weaken {E A} (Q Q' : E → Prop) (x : Try E A) : fails_as Q x → (∀ e, Q e → Q' e) → fails_as Q' x.
Proof. intros Hx HQ e He. by apply HQ, Hx. Qed.
Lemma run_weaken {St E A} (Q Q' : E → Prop) (m : Fallible St E A) s : run_fails_as Q m s → (∀ e, Q e → Q' e) → run_fails_as Q' m s.
Proof. intros Hm HQ e s' He. eapply HQ, Hm, He. Qed.

(** ** Counters *)
Definition counter_full (e : MemoryError) : Prop := ∃ what, e = MemoryError.CounterExhausted what.
Create HintDb counters.
Lemma charge_add_fails a b : fails_as counter_full (charge_add a b).
Proof. unfold charge_add. intros e. destruct (checked_add a b); [done|]. intros [= <-]. by eexists. Qed.
Lemma charge_mul_fails a b : fails_as counter_full (charge_mul a b).
Proof. unfold charge_mul. intros e. destruct (checked_mul a b); [done|]. intros [= <-]. by eexists. Qed.
Lemma count_add_fails a b : fails_as counter_full (count_add a b).
Proof. unfold count_add. intros e. destruct (_ <=? _)%N; [done|]. intros [= <-]. by eexists. Qed.
#[export] Hint Resolve charge_add_fails charge_mul_fails count_add_fails fails_ok fails_ret : counters.
Ltac counted := repeat (apply fails_bind; [auto with counters|intros ? _]); auto with counters.
Section Charging.
Context `{PageSizes}.
Lemma page_charge_fails n heap : fails_as counter_full (page_charge n heap).
Proof. unfold page_charge. counted. Qed.
Lemma root_charge_fails : fails_as counter_full root_charge.
Proof. unfold root_charge. counted. Qed.
Lemma merge_partition_charge_fails b n : fails_as counter_full (merge_partition_charge b n).
Proof. unfold merge_partition_charge. case_decide; [auto with counters|]. counted. Qed.
Lemma node_charge_fails n : fails_as counter_full (node_charge n).
Proof. unfold node_charge. counted. Qed.
(** The height of a directory is within its levels for as many pages as there
    are addresses. *)
Lemma levels_from_fails fuel pages levels : fails_as counter_full (levels_from fuel pages levels).
Proof. revert pages levels. induction fuel as [|fuel IH]; intros pages levels; cbn [levels_from]; [auto with counters|]. case_decide; [|auto with counters]. counted. Qed.
Lemma levels_from_le fuel k pages levels r : (N.of_nat pages <= 16 ^ N.of_nat k)%N → levels_from fuel pages levels = Ok r → r <= levels + k.
Proof.
  revert k pages levels. induction fuel as [|fuel IH]; intros k pages levels Hp; cbn [levels_from]; [intros [= <-]; lia|].
  case_decide as Hd; [|intros [= <-]; lia]. intros (l1 & ->%count_add_inv & Hr)%try_bind_ok. destruct k as [|k]; [simpl in Hp; lia|].
  apply (IH k) in Hr; [lia|]. unfold div_ceil, MIN. rewrite Nat2N.inj_div. rewrite Nat2N.inj_succ, N.pow_succ_r' in Hp.
  apply N.lt_succ_r. apply N.Div0.div_lt_upper_bound. lia.
Qed.
Lemma directory_levels_fails n : (N.of_nat n <= u64_max)%N → fails_as counter_full (directory_levels n).
Proof.
  intros Hn. unfold directory_levels. apply fails_bind; [apply levels_from_fails|]. intros levels Hl. apply fails_guard; [|auto with counters].
  intros Hbig. exfalso. apply (levels_from_le _ 16) in Hl; [unfold MAX_LEVELS in Hbig; lia|]. change (16 ^ N.of_nat 16)%N with (u64_max + 1)%N. lia.
Qed.
Lemma edit_bound_fails edits n : (N.of_nat n <= u64_max)%N → fails_as counter_full (edit_bound edits n).
Proof.
  intros Hn. unfold edit_bound. case_decide; [auto with counters|]. apply fails_bind; [by apply directory_levels_fails|]. intros levels _.
  do 2 (apply fails_bind; [auto with counters|intros ? _]). apply fails_bind; [apply node_charge_fails|intros ? _]. counted.
Qed.
End Charging.
#[export] Hint Resolve page_charge_fails root_charge_fails merge_partition_charge_fails : counters.

(** ** Counting a merge *)
Section Counting.
Context {K V : Type} `{Laws : RangeKeyLaws K, PageSizes}.
#[local] Set Default Proof Using "Type Laws".
Context (s : RangeStore K V) (base : N) (Hlim : cut_limits (rs_config s) base).
Implicit Types (p : Page K V) (old : list (Entry K V)) (cs : list (RowChange K V)) (co : Counts).
Lemma count_leaf_fails span co : run_fails_as counter_full (count_leaf span) co.
Proof using Type.
  unfold count_leaf. apply run_gets. do 4 (apply run_lift_bind; [auto with counters|intros ? _]). apply run_modify.
Qed.
Lemma count_spans_fails spans co : run_fails_as counter_full (each count_leaf spans) co.
Proof using Type. revert co. induction spans as [|span spans IH]; intros co; [apply run_ok|]. apply run_bind; [apply count_leaf_fails|]. intros [] co1 _. apply IH. Qed.
Lemma count_edits_fails n co : run_fails_as counter_full (count_edits n) co.
Proof using Type. unfold count_edits. apply run_gets. apply run_lift_bind; [auto with counters|intros ? _]. apply run_modify. Qed.
Lemma count_merge_fails old cs co : merge_ready s base old cs → run_fails_as counter_full (count_merge (rs_config s) (rs_partition s) old cs) co.
Proof using Laws Hlim.
  intros Hready. destruct (merge_pieces s base Hlim old cs Hready) as (pieces & quoted & ess & _ & _ & _ & _ & _ & _ & _ & Hquote).
  unfold count_merge. apply run_gets. apply run_bind; [intros e co1; rewrite Hquote; apply count_spans_fails|]. intros [] co1 Hq. rewrite Hquote in Hq.
  apply (count_each s base Hlim) in Hq as [(_ & Hnew & _) _].
  do 2 (apply run_lift_bind; [auto with counters|intros ? _]). apply run_bind; [apply run_modify|]. intros [] co2 [= <-]. apply run_gets. cbn [co_new_pages].
  apply run_guard; [lia|]. intros _. apply run_ok.
Qed.
Lemma count_merge_output old cs co n co' : merge_ready s base old cs → count_merge (rs_config s) (rs_partition s) old cs co = (Ok n, co') →
  co_output_pages co <= co_output_pages co'.
Proof using Laws Hlim.
  intros Hready (co1 & staging & Hq & _ & _ & ->)%count_merge_inv.
  destruct (merge_pieces s base Hlim old cs Hready) as (pieces & quoted & ess & _ & _ & _ & _ & _ & _ & _ & Hquote).
  rewrite Hquote in Hq. apply (count_each s base Hlim) in Hq as [(Ho & _) _]. simpl. lia.
Qed.
Lemma reusable_page_fails p cs config partition : pg_entries p ≠ [] → fails_as counter_full (reusable_page p cs config partition).
Proof using Type.
  intros Hne. assert (Hord : fails_as counter_full (match partition with
    | None => mret None
    | Some classify =>
        first ← or_fail (head (pg_entries p)) MemoryError.MissingKey;
        final ← or_fail (last (pg_entries p)) MemoryError.MissingKey;
        let split := partition_point (λ c, bool_decide (key_lt (change_key c) (en_key first))) cs in
        let label := classify (en_key first) in
        if is_some_and (λ c, bool_decide (key_le (change_key c) (en_key final))) (cs !! split) then mret None
        else if is_some_and (λ c, (classify (change_key c) =? label)%N) (match split with O => None | S i => cs !! i end)
                || is_some_and (λ c, (classify (change_key c) =? label)%N) (cs !! split)
        then mret None
        else mret (Some split)
    end : Try MemoryError (option nat))).
  { destruct partition as [classify|]; [|apply fails_ok]. destruct (head (pg_entries p)) as [first|] eqn:Hf; [|by apply head_None in Hf].
    destruct (last (pg_entries p)) as [final|] eqn:Hl; [|by apply last_None in Hl]. simpl. destruct (is_some_and _ _); [apply fails_ok|].
    destruct (_ || _); apply fails_ok. }
  unfold reusable_page. destruct (pg_entries p) as [|e [|e' es]]; [done| |done]. apply fails_bind; [auto with counters|]. intros one _.
  case_decide; [apply fails_ok|done].
Qed.
(** The counts of a group, where the directory it is of has a page to replace. *)
Lemma plan_group_fails d0 (group : LeafGroup K V) cs co : merge_ready s base (rows_of (lg_page group)) cs →
  (∀ p, lg_page group = Some p → pg_entries p ≠ []) → (lg_page group = None → directory_is_empty d0 = true) →
  (lg_page group ≠ None → co_output_pages co ≠ 0) → run_fails_as counter_full (plan_group s d0 group cs) co.
Proof using Laws Hlim.
  intros Hready Hpage Hnone Hout. unfold plan_group. destruct (lg_page group) as [p|] eqn:Hg; cbn [rows_of] in Hready.
  - apply run_lift_bind; [by apply reusable_page_fails, Hpage|]. intros [split|] Hre.
    + pose proof Hready as [Hrise Hc _ _ _]. pose proof (reusable_around p cs _ _ split Hrise Hc Hre) as Har.
      destruct (around_ready s base p cs split Hready Har) as [Hr1 Hr2].
      apply run_bind; [by apply count_merge_fails|]. intros lhs co1 _. apply run_bind; [by apply count_merge_fails|]. intros rhs co2 _.
      apply run_lift_bind; [auto with counters|]. intros both _. apply count_edits_fails.
    + apply run_bind; [by apply count_merge_fails|]. intros n co1 Hm. apply run_gets.
      apply count_merge_output in Hm; [|done]. specialize (Hout ltac:(done)).
      apply run_guard; [lia|]. intros _. apply run_bind; [apply run_modify|]. intros [] co2 _. apply count_edits_fails.
  - rewrite Hnone by done. apply run_guard; [done|]. intros _. apply run_bind; [by apply count_merge_fails|]. intros n co1 _. apply count_edits_fails.
Qed.
End Counting.

(** ** Deletes of rows that are not there *)
Section Deletes.
Context {K V : Type} `{Laws : RangeKeyLaws K}.
#[local] Set Default Proof Using "Type Laws".
Implicit Types (es : list (Entry K V)) (c : RowChange K V) (cs : list (RowChange K V)) (m : gmap K (Entry K V)).
Definition absent_delete es cs (e : MemoryError) : Prop := e = MemoryError.MissingKey ∧ ∃ k, RowChange.Delete k ∈ cs ∧ row_map es !! k = None.
Definition deletes_present es cs : Prop := ∀ k, RowChange.Delete k ∈ cs → is_Some (row_map es !! k).
Lemma tally_fails page cs m acc : rising (rows_of page) → NoDup (change_key <$> cs) → (∀ k, named k cs → m !! k = row_map (rows_of page) !! k) →
  size m <= acc.1 → fails_as (λ e, counter_full e ∨ absent_delete (rows_of page) cs e) (try_fold (tally page) acc cs).
Proof.
  intros Hr. revert m acc. induction cs as [|c cs IH]; intros m acc Hn Hm Hsize; cbn [try_fold]; [apply fails_ret|].
  cbn [fmap list_fmap] in Hn. apply NoDup_cons in Hn as [Hc Hn]. pose proof (Hm (change_key c) ltac:(left)) as Hk. rewrite <-page_row in Hk by done.
  apply fails_bind.
  - destruct acc as [len input]. unfold tally. destruct c as [x|k]; cbn [change_key] in Hk |- *; destruct (p ← page; page_find p _) as [y|] eqn:E.
    + apply fails_ret.
    + apply fails_bind; [|intros; apply fails_ret]. eapply fails_weaken; [apply count_add_fails|by left].
    + apply fails_bind; [eapply fails_weaken; [apply charge_add_fails|by left]|]. intros input' _. destruct len; [|apply fails_ret].
      assert (size m ≠ 0) by (intros Hz%map_size_empty_iff; by rewrite Hz, lookup_empty in Hk). simpl in Hsize. lia.
    + intros e [= <-]. right. split; [done|]. exists k. split; [left|]. by rewrite <-page_row.
  - intros acc1 Htally. pose proof (tally_step m page c acc acc1 Hk Htally) as Hstep. eapply fails_weaken.
    + apply (IH (change_map m c)); [done| |lia]. intros k Hin. rewrite <-Hm by (by right). destruct (decide (k = change_key c)) as [->|Hne]; [done|].
      destruct c; simpl in *; [by apply lookup_insert_ne|by apply lookup_delete_ne].
    + intros e [?|[-> (k & Hin & Hk')]]; [by left|right]. split; [done|]. exists k. split; [by right|done].
Qed.
Lemma tally_present page cs acc acc' : rising (rows_of page) → try_fold (tally page) acc cs = Ok acc' → deletes_present (rows_of page) cs.
Proof.
  intros Hr. revert acc. induction cs as [|c cs IH]; intros acc; cbn [try_fold]; [by intros _ k ?%elem_of_nil|].
  intros (acc1 & Htally & Hrest)%try_bind_ok k [<-|Hk]%elem_of_cons; [|by eapply IH]. unfold tally in Htally. destruct acc as [len input]. cbn [change_key] in Htally.
  rewrite page_row in Htally by done. destruct (row_map (rows_of page) !! k); [by eexists|done].
Qed.
End Deletes.

(** ** The loop over groups *)
Section Refusing.
Context {K V : Type} `{Laws : RangeKeyLaws K, F : Funding, PageSizes}.
#[local] Set Default Proof Using "Type Laws".
Context (s : RangeStore K V) (base : N) (Hlim : cut_limits (rs_config s) base).
Context (d0 : PageDirectory K V) (Hd0 : directory_sound d0) (Hfit : Forall (page_fits s base) (pages_of d0)).
Notation ps := (pages_of d0).
Implicit Types (before after mid : list (Page K V)) (e : Entry K V) (c x : RowChange K V) (cs : list (RowChange K V)) (k : K).
(** A change of a group finds its row in the page of the group, if anywhere. *)
Lemma group_row a before c cs group mid after x : midway s base d0 a before (c :: cs) → next_group d0 a before c cs group mid after →
  x ∈ take (lg_count group) (c :: cs) → row_map (rows_of (lg_page group)) !! change_key x = row_map (rows ps) !! change_key x.
Proof using Laws Hd0.
  intros Hmid Hg Hx. pose proof Hmid as [_ Ho _ Hstart _ _ _ _]. pose proof (ng_pages _ _ _ _ _ _ _ _ Hg) as Hpages. pose proof Hd0 as (Hops & _ & _).
  assert (Hxin : x ∈ c :: cs) by (rewrite <-(take_drop (lg_count group) (c :: cs)); apply elem_of_app; by left).
  assert (Htake : ∀ e, e ∈ rows (take a ps) → key_lt (en_key e) (change_key x)).
  { intros e He. destruct Hstart as [[-> _]|Hstart]; [by apply elem_of_nil in He|]. destruct (Hstart x Hxin) as (q & f & Hq & Hf & Hle).
    eapply key_lt_le_trans; [|exact Hle]. rewrite <-(take_drop a ps) in Hops. apply ordered_app in Hops as (_ & _ & Hlt). apply Hlt.
    - apply elem_of_keys_rows. by exists e.
    - apply elem_of_keys. exists q. split; [|by apply page_first_key_elem]. rewrite (drop_S _ _ _ Hq). left. }
  assert (Hrows : rows ps = rows (take a ps) ++ rows mid ++ rows_of (lg_page group) ++ rows after).
  { rewrite <-(take_drop a ps) at 1. by rewrite Hpages, !rows_app, rows_option. }
  assert (Hrise : rising (rows ps)) by (by apply ordered_rising). assert (Hrise' : rising (rows_of (lg_page group))).
  { rewrite Hrows in Hrise. by apply rising_app in Hrise as (_ & (_ & (? & _)%rising_app & _)%rising_app & _). }
  apply option_eq. intros e. rewrite !row_map_Some by done. rewrite Hrows, !elem_of_app. split; [naive_solver|]. intros [He Hk]. split; [|done].
  destruct He as [He|[He|[He|He]]]; [| |done|]; exfalso; apply (key_lt_irrefl (change_key x)).
  - rewrite <-Hk at 1. by apply Htake.
  - rewrite <-Hk at 1. apply (ng_before _ _ _ _ _ _ _ _ Hg); [|done]. apply elem_of_keys_rows. exists e. split; [|done]. rewrite rows_app. apply elem_of_app. by right.
  - rewrite <-Hk at 2. by apply (ng_selected _ _ _ _ _ _ _ _ Hg).
Qed.
Lemma group_deletes a before c cs group mid after : midway s base d0 a before (c :: cs) → next_group d0 a before c cs group mid after →
  ∀ k, RowChange.Delete k ∈ take (lg_count group) (c :: cs) → row_map (rows_of (lg_page group)) !! k = row_map (rows ps) !! k.
Proof using Laws Hd0. intros Hmid Hg k Hk. by eapply (group_row _ _ _ _ _ _ _ (RowChange.Delete k)). Qed.
(** The first group of a plan, and where the plan stands after it. *)
Lemma group_fails a before c cs group mid after acc co : midway s base d0 a before (c :: cs) → next_group d0 a before c cs group mid after →
  length (rows (drop a ps)) <= acc.1 → length (drop a ps) <= co_output_pages co → let sel := take (lg_count group) (c :: cs) in
  fails_as (λ err, counter_full err ∨ absent_delete (rows ps) sel err) (try_fold (tally (lg_page group)) acc sel) ∧
  run_fails_as counter_full (plan_group s d0 group sel) co.
Proof using Laws Hlim Hd0 Hfit.
  intros Hmid Hg Hacc Hout sel. pose proof (group_ready s base d0 a before c cs group mid after Hmid Hg) as Hready. fold sel in Hready.
  pose proof (ng_pages _ _ _ _ _ _ _ _ Hg) as Hpages. pose proof (f_equal length Hpages) as Hlens. rewrite !length_app in Hlens.
  rewrite Hpages, !rows_app, rows_option, !length_app in Hacc. pose proof (mr_old _ _ _ _ Hready) as Hrise. pose proof (mr_changes _ _ _ _ Hready) as Hsel. split.
  - eapply fails_weaken; [apply (tally_fails _ _ (row_map (rows_of (lg_page group)))); [done|by apply rising_changes_nodup|done|rewrite row_map_size by done; lia]|].
    intros err [?|[-> (k & Hin & Hk)]]; [by left|right]. split; [done|]. exists k. split; [done|]. by rewrite <-(group_deletes a before c cs group mid after).
  - apply (plan_group_fails s base Hlim); [done| |apply (ng_none _ _ _ _ _ _ _ _ Hg)|].
    + intros p Hp. destruct (group_page_sound s base d0 Hd0 Hfit a before c cs group mid after p Hg Hp) as [_ (k & Hk & _)]. unfold page_first_key in Hk. by destruct (pg_entries p).
    + intros Hsome. destruct (lg_page group); [|done]. simpl in Hlens. lia.
Qed.
Lemma group_passed a before c cs group mid after acc acc1 co co1 : midway s base d0 a before (c :: cs) → next_group d0 a before c cs group mid after →
  length (rows (drop a ps)) <= acc.1 → length (drop a ps) <= co_output_pages co → let sel := take (lg_count group) (c :: cs) in
  try_fold (tally (lg_page group)) acc sel = Ok acc1 → plan_group s d0 group sel co = (Ok (), co1) → deletes_present (rows ps) sel ∧
  ∃ a' before', midway s base d0 a' before' (drop (lg_count group) (c :: cs)) ∧ length (rows (drop a' ps)) <= acc1.1 ∧ length (drop a' ps) <= co_output_pages co1.
Proof using Laws Hlim Hd0 Hfit F.
  intros Hmid Hg Hacc Hout sel Ht Hp. pose proof (group_ready s base d0 a before c cs group mid after Hmid Hg) as Hready. fold sel in Hready.
  pose proof (ng_pages _ _ _ _ _ _ _ _ Hg) as Hpages. pose proof (f_equal length Hpages) as Hlens. rewrite !length_app in Hlens.
  rewrite Hpages, !rows_app, rows_option, !length_app in Hacc. pose proof (mr_old _ _ _ _ Hready) as Hrise. pose proof (mr_changes _ _ _ _ Hready) as Hsel. split.
  { intros k Hk. rewrite <-(group_deletes a before c cs group mid after) by done. by eapply tally_present. }
  pose proof (ng_count _ _ _ _ _ _ _ _ Hg) as Hcount.
  destruct (planned_made s base Hlim d0 group sel co co1) as (qs & edits & Hqs & _ & Hqsound & Ho & _); try done.
  { unfold sel. rewrite length_take. lia. }
  { intros p Hp'. by eapply group_page_sound. }
  { apply (ng_none _ _ _ _ _ _ _ _ Hg). }
  destruct (next_midway s base d0 a before c cs group mid after qs Hmid Hg Hqs Hqsound) as (Hmid' & _ & _).
  pose proof (ng_after _ _ _ _ _ _ _ _ Hg) as Hafter. apply tally_rows in Ht; [|done|done].
  eexists _, _. split; [exact Hmid'|]. rewrite <-Hafter. lia.
Qed.
Lemma plan_groups_decided fuel a before cs acc co : length cs <= fuel → midway s base d0 a before cs →
  length (rows (drop a ps)) <= acc.1 → length (drop a ps) <= co_output_pages co →
  run_fails_as (λ err, counter_full err ∨ absent_delete (rows ps) cs err) (plan_groups fuel s d0 cs acc) co ∧
  ∀ acc' co', plan_groups fuel s d0 cs acc co = (Ok acc', co') → deletes_present (rows ps) cs.
Proof using Laws Hlim Hd0 Hfit F.
  revert a before cs acc co. induction fuel as [|fuel IH]; intros a before cs acc co Hf Hmid Hacc Hout; destruct cs as [|c cs].
  1,3: split; [by intros e s'|by intros ? ? _ k ?%elem_of_nil].
  { simpl in Hf. lia. }
  destruct (next_group_ok s base d0 Hd0 a before c cs Hmid) as (group & mid & after & Hg). pose proof (ng_next _ _ _ _ _ _ _ _ Hg) as Hnext.
  destruct (group_fails a before c cs group mid after acc co Hmid Hg Hacc Hout) as [Htally Hgroup].
  pose proof (λ acc1 co1, group_passed a before c cs group mid after acc acc1 co co1 Hmid Hg Hacc Hout) as Hpassed. pose proof (ng_count _ _ _ _ _ _ _ _ Hg) as Hcount.
  pose proof (take_drop (lg_count group) (c :: cs)) as Hsplit. cbv zeta in Hpassed.
  assert (Hrest : length (drop (lg_count group) (c :: cs)) <= fuel) by (rewrite length_drop; lia).
  set (sel := take (lg_count group) (c :: cs)) in *. set (rest := drop (lg_count group) (c :: cs)) in *. cbn [plan_groups]. split.
  - apply run_lift_bind; [rewrite Hnext; apply fails_ok|]. intros g Hx. rewrite Hnext in Hx. injection Hx as <-. fold sel rest.
    assert (Hpart : ∀ l, (∀ k, RowChange.Delete k ∈ l → RowChange.Delete k ∈ c :: cs) → ∀ err, counter_full err ∨ absent_delete (rows ps) l err →
      counter_full err ∨ absent_delete (rows ps) (c :: cs) err) by (intros l Hl err [?|[-> (k & Hin & Hk)]]; [by left|right; split; [done|exists k; auto]]).
    apply run_lift_bind; [eapply fails_weaken; [exact Htally|apply Hpart; intros k Hk; rewrite <-Hsplit; apply elem_of_app; by left]|]. intros acc1 Ht.
    apply run_bind; [eapply run_weaken; [exact Hgroup|by left]|]. intros [] co1 Hp. destruct (Hpassed acc1 co1 Ht Hp) as (_ & a' & before' & Hmid' & Ha' & Ho').
    destruct (IH a' before' rest acc1 co1 Hrest Hmid' Ha' Ho') as [Hfail _]. eapply run_weaken; [exact Hfail|]. apply Hpart. intros k Hk. rewrite <-Hsplit. apply elem_of_app. by right.
  - intros acc' co' Hplan k Hk. apply fallible_bind_ok in Hplan as (g & y & [Hx ->]%lift_ok & Hplan). rewrite Hnext in Hx. injection Hx as <-. fold sel rest in Hplan.
    apply fallible_bind_ok in Hplan as (acc1 & y & [Ht ->]%lift_ok & Hplan). apply fallible_bind_ok in Hplan as ([] & co1 & Hp & Hplan).
    destruct (Hpassed acc1 co1 Ht Hp) as (Hdel & a' & before' & Hmid' & Ha' & Ho').
    rewrite <-Hsplit in Hk. apply elem_of_app in Hk as [Hk|Hk]; [by apply Hdel|]. destruct (IH a' before' rest acc1 co1 Hrest Hmid' Ha' Ho') as [_ Hpres]. by eapply Hpres.
Qed.
End Refusing.

(** ** Plans, decided *)
Section Decided.
Context {K V : Type} `{Laws : RangeKeyLaws K, F : Funding, PageSizes}.
#[local] Set Default Proof Using "Type Laws".
Implicit Types (s : RangeStore K V) (r : Root K V) (c : RowChange K V) (cs : list (RowChange K V)).
(** A batch that a store takes on a root. *)
Record batch_legal s r (prefix : N) cs (max_entries : nat) : Prop := {
  bl_prefix : prefix = (ro_prefix r + 1)%N;
  bl_room : length cs <= max_entries;
  bl_keys : NoDup (change_key <$> cs);
  bl_rows e : e ∈ puts cs → (row_cost e <= max_entry_bytes (rs_config s))%N;
  bl_deletes : deletes_present (root_rows r) cs;
}.
(** Why a batch is refused, and as what. *)
Inductive batch_refused s r (prefix : N) cs (max_entries : nat) : MemoryError → Prop :=
  | refused_prefix : prefix ≠ (ro_prefix r + 1)%N → batch_refused s r prefix cs max_entries (MemoryError.PrefixMismatch (ro_prefix r + 1) prefix)
  | refused_room : max_entries < length cs → batch_refused s r prefix cs max_entries (MemoryError.Capacity (N.of_nat (length cs)) (N.of_nat max_entries))
  | refused_keys : ¬ NoDup (change_key <$> cs) → batch_refused s r prefix cs max_entries MemoryError.DuplicateKey
  | refused_row e : e ∈ puts cs → (max_entry_bytes (rs_config s) < row_cost e)%N →
      batch_refused s r prefix cs max_entries (MemoryError.ItemTooLarge (row_cost e) (max_entry_bytes (rs_config s)))
  | refused_delete k : RowChange.Delete k ∈ cs → row_map (root_rows r) !! k = None → batch_refused s r prefix cs max_entries MemoryError.MissingKey.
Lemma refused_illegal s r prefix cs max_entries err : batch_refused s r prefix cs max_entries err → ¬ batch_legal s r prefix cs max_entries.
Proof using Type.
  intros Href [Hp Hl Hn Hr Hd]. destruct Href as [Hne|Hlt|Hdup|e He Hbig|k Hk Hnone]; [done|lia|done| |].
  - specialize (Hr e He). lia.
  - destruct (Hd k Hk) as [x Hx]. congruence.
Qed.
Lemma duplicate_keys cs : has_duplicate cs = true → ¬ NoDup (change_key <$> cs).
Proof using Type.
  induction cs as [|c cs IH]; [done|]. cbn [has_duplicate fmap list_fmap]. rewrite orb_true_iff, NoDup_cons. intros [Hd|Hd] [Hc Hn]; [|by apply IH].
  destruct cs as [|c' cs]; [done|]. simpl in Hd. apply bool_decide_eq_true in Hd. apply Hc. rewrite Hd. left.
Qed.
Lemma input_fails config input c : fails_as (λ err, counter_full err ∨ ∃ e, c = RowChange.Put e ∧ (max_entry_bytes config < row_cost e)%N ∧
  err = MemoryError.ItemTooLarge (row_cost e) (max_entry_bytes config)) (input_of config input c).
Proof using Type.
  destruct c as [e|k]; cbn [input_of]; [|apply fails_ret]. apply fails_bind; [|intros ? _; eapply fails_weaken; [apply charge_add_fails|by left]].
  unfold check_entry. apply fails_bind; [eapply fails_weaken; [apply charge_add_fails|by left]|]. intros bytes ->%charge_add_inv.
  apply fails_guard; [|intros _; apply fails_ret]. intros Hbig. right. by exists e.
Qed.
Lemma plan_charges_fails r input co : fails_as counter_full (plan_charges r input co).
Proof using Type.
  unfold plan_charges. apply fails_bind; [auto with counters|]. intros root _. apply fails_bind; [auto with counters|]. intros leaves Hl.
  apply fails_bind; [|intros ? _; counted]. apply edit_bound_fails. revert Hl. unfold count_add.
  destruct (N.leb_spec (N.of_nat (directory_len (ro_pages r) + co_new_pages co)) u64_max); [|done]. by intros [= <-].
Qed.
Lemma plan_charges_peak r input co ch : plan_charges r input co = Ok ch → (ch_additional_peak_bytes ch <= u64_max)%N.
Proof using Type.
  unfold plan_charges. intros Hc. ok_inv. simpl. match goal with Hp : charge_add _ _ = Ok ?x |- (?x <= _)%N => revert Hp end.
  unfold charge_add. by intros [-> ?]%or_fail_ok%checked_add_Some.
Qed.
(** What a plan of the batch fails with. *)
Definition plan_fails s r (prefix : N) cs (max_bytes : N) (max_entries : nat) (err : MemoryError) : Prop :=
  counter_full err ∨ batch_refused s r prefix cs max_entries err ∨ ∃ peak, (max_bytes < peak <= u64_max)%N ∧ err = MemoryError.Capacity peak max_bytes.
Lemma sorted_elem c cs : c ∈ merge_sort change_le cs ↔ c ∈ cs.
Proof using Type. by rewrite merge_sort_Permutation. Qed.
Lemma plan_root_fails s base r prefix cs capacity lane max_bytes max_entries : cut_limits (rs_config s) base → root_sound s base r → addressable base r cs →
  fails_as (plan_fails s r prefix cs max_bytes max_entries) (plan_root s r prefix cs capacity lane max_bytes max_entries).
Proof using Laws F.
  intros Hlim Hr Ha. assert (Hcounter : ∀ A (x : Try MemoryError A), fails_as counter_full x → fails_as (plan_fails s r prefix cs max_bytes max_entries) x).
  { intros A x Hx. eapply fails_weaken; [exact Hx|by left]. }
  unfold plan_root. apply fails_bind. { apply Hcounter. intros e. destruct (checked_add (ro_prefix r) 1); [done|]. intros [= <-]. by eexists. }
  intros expected [-> _]%or_fail_ok%checked_add_Some. apply fails_guard; [right; left; by constructor|]. intros _.
  apply fails_guard; [right; left; by constructor|]. intros _. cbv zeta. apply fails_guard.
  { intros Hd%duplicate_keys. right. left. constructor. intros Hn. apply Hd. by rewrite merge_sort_Permutation. }
  intros Hdup%not_true_is_false. set (sorted := merge_sort change_le cs) in *. apply fails_bind. { apply Hcounter. case_decide; [apply fails_ret|counted]. }
  intros input0 _. apply fails_bind.
  { apply fails_fold. intros acc c Hc. eapply fails_weaken; [apply input_fails|]. intros err [?|(e & -> & Hbig & ->)]; [by left|]. right. left. constructor; [|done].
    apply elem_of_puts. by apply sorted_elem. }
  intros input Hin. set (co := {| co_output_pages := _ |}). destruct (plan_groups (length sorted) s (ro_pages r) sorted (ro_len r, input) co) as [x co'] eqn:Hplan.
  pose proof (plan_midway s base r cs _ _ Hr Ha Hdup Hin) as Hmid. fold sorted in Hmid. pose proof Hr as [Hd Hlen Hfit _].
  destruct (plan_groups_decided s base Hlim (ro_pages r) Hd Hfit _ 0 [] sorted (ro_len r, input) co (le_n _) Hmid) as [Hfail _].
  { rewrite drop_0. cbn [fst]. by rewrite Hlen. }
  { rewrite drop_0. unfold co. cbn [co_output_pages]. by rewrite sound_len. }
  apply fails_bind.
  { intros err ->. destruct (Hfail err co' Hplan) as [?|[-> (k & Hk & Hnone)]]; [by left|]. right. left. apply (refused_delete _ _ _ _ _ k); [by apply sorted_elem|done]. }
  intros [new_len input'] _. apply fails_bind; [apply Hcounter, plan_charges_fails|]. intros charges Hch. apply fails_guard; [|intros _; apply fails_ret].
  intros Hbig. right. right. eexists. split; [|done]. split; [done|]. by eapply plan_charges_peak.
Qed.
Lemma plan_root_legal s base r prefix cs capacity lane max_bytes max_entries plan : cut_limits (rs_config s) base → root_sound s base r → addressable base r cs →
  plan_root s r prefix cs capacity lane max_bytes max_entries = Ok plan →
  batch_legal s r prefix cs max_entries ∧ (ch_additional_peak_bytes (pp_charges plan) <= N.min max_bytes u64_max)%N.
Proof using Laws F.
  intros Hlim Hr Ha Hp. unfold plan_root in Hp. apply try_bind_ok in Hp as (expected & He%or_fail_ok & Hp). apply checked_add_Some in He as [-> _].
  apply refuse_then_ok in Hp as [Hprefix Hp]. apply refuse_then_ok in Hp as [Hroom Hp]. cbv zeta in Hp. apply refuse_then_ok in Hp as [Hdup%not_true_is_false Hp].
  apply try_bind_ok in Hp as (input0 & _ & Hp). apply try_bind_ok in Hp as (input & Hin & Hp). set (sorted := merge_sort change_le cs) in *.
  set (co := {| co_output_pages := _ |}) in Hp. destruct (plan_groups (length sorted) s (ro_pages r) sorted (ro_len r, input) co) as [x co'] eqn:Hplan.
  apply try_bind_ok in Hp as ([new_len input'] & -> & Hp). apply try_bind_ok in Hp as (charges & Hch & Hp). apply refuse_then_ok in Hp as [Hmax [= <-]].
  pose proof (plan_midway s base r cs _ _ Hr Ha Hdup Hin) as Hmid. fold sorted in Hmid. pose proof Hr as [Hd Hlen Hfit _].
  destruct (plan_groups_decided s base Hlim (ro_pages r) Hd Hfit _ 0 [] sorted (ro_len r, input) co (le_n _) Hmid) as [_ Hdel].
  { rewrite drop_0. cbn [fst]. by rewrite Hlen. }
  { rewrite drop_0. unfold co. cbn [co_output_pages]. by rewrite sound_len. }
  cbn [pp_charges]. pose proof (plan_charges_peak _ _ _ _ Hch). split; [|lia]. split; [by apply dec_stable|lia|by apply no_duplicates_nodup| |].
  - intros e He%elem_of_puts. eapply input_admits; [exact Hin|]. apply elem_of_puts. by apply sorted_elem.
  - intros k Hk. apply (Hdel _ _ Hplan). by apply sorted_elem.
Qed.
Lemma plan_batch_fails s base prefix cs capacity lane err : cut_limits (rs_config s) base → root_sound s base (rs_root s) → addressable base (rs_root s) cs →
  plan_batch s prefix cs capacity lane u64_max = Err err → counter_full err ∨ batch_refused s (rs_root s) prefix cs (max_batch_entries (rs_config s)) err.
Proof using Laws F.
  intros Hlim Hr Ha Hp. destruct (plan_root_fails s base _ _ _ _ _ _ _ Hlim Hr Ha err Hp) as [?|[?|(peak & Hbig & _)]]; [by left|by right|lia].
Qed.
End Decided.

(** ** Restores, decided *)
Section Restores.
Context {K V : Type} `{Laws : RangeKeyLaws K, F : Funding, PageSizes}.
#[local] Set Default Proof Using "Type Laws".
Implicit Types (s : RangeStore K V) (es source : list (Entry K V)).
Definition out_of_room (err : MemoryError) : Prop := budget_refuses err ∨ counter_full err.
Lemma reserve_fails kind lane bytes f : run_fails_as out_of_room (fund_reserve kind lane bytes) f.
Proof using Type. intros e f' He. left. by repeat eexists. Qed.
Lemma counter_room {A} (x : Try MemoryError A) : fails_as counter_full x → fails_as out_of_room x.
Proof using Type. intros Hx. eapply fails_weaken; [exact Hx|by right]. Qed.
Lemma stage_chunk_length config partition last_row n chunk heap source f taken rest f' :
  stage_chunk config partition last_row n chunk heap source f = (Ok (taken, rest), f') → length taken <= length chunk + n.
Proof using Type.
  revert chunk heap source f. induction n as [|n IH]; intros chunk heap source f; simpl; [intros [= <- <- <-]; lia|].
  destruct source as [|e source]; [intros [= <- <- <-]; lia|]. intros Hst. do 4 apply fallible_bind_ok in Hst as (? & ? & [_ ->]%lift_ok & Hst).
  revert Hst. case_decide; [intros [= <- <- <-]; lia|]. intros Hst. apply fallible_bind_ok in Hst as (? & ? & [_ ->]%lift_ok & Hst).
  apply fallible_bind_ok in Hst as (? & ? & _ & Hst). revert Hst. case_decide; [intros [= <- <- <-]; rewrite length_app; simpl; lia|].
  intros Ht%IH. rewrite length_app in Ht. simpl in Ht. lia.
Qed.
Lemma past_inv previous e es : past previous (e :: es) → (∀ k, previous = Some k → key_lt k (en_key e)) ∧ past (Some (en_key e)) es.
Proof using Type.
  unfold past. destruct previous as [k|]; simpl; [|done]. intros [Hs Hk]%StronglySorted_inv. apply Forall_cons in Hk as [Hk _]. split; [by intros ? [= <-]|done].
Qed.
Lemma stage_chunk_fails config partition last_row n chunk heap source f : past (match last chunk with Some e => Some (en_key e) | None => last_row end) source →
  (∀ e, e ∈ source → (row_cost e <= max_entry_bytes config)%N) → run_fails_as out_of_room (stage_chunk config partition last_row n chunk heap source) f.
Proof.
  revert chunk heap source f. induction n as [|n IH]; intros chunk heap source f Hpast Hrows; simpl; [apply run_ok|].
  destruct source as [|e source]; [apply run_ok|]. apply past_inv in Hpast as [Hlt Hpast]. apply run_lift_bind.
  { unfold check_entry. apply fails_bind; [apply counter_room; auto with counters|]. intros bytes ->%charge_add_inv.
    apply fails_guard; [|intros _; apply fails_ret]. intros Hbig. specialize (Hrows e ltac:(left)). unfold row_cost in Hrows. lia. }
  intros _ _. do 3 (apply run_lift_bind; [apply counter_room; auto with counters|intros ? _]). case_decide; [apply run_ok|]. apply run_guard.
  { intros Hord. exfalso. destruct (match last chunk with Some e0 => Some (en_key e0) | None => last_row end) as [k|]; [|done].
    simpl in Hord. apply bool_decide_eq_true in Hord. by apply (key_not_le (en_key e) k); [apply Hlt|]. }
  intros _. apply run_bind; [apply reserve_fails|]. intros [] f1 _. case_decide; [apply run_ok|]. apply IH; [by rewrite last_snoc|]. intros x Hx. apply Hrows. by right.
Qed.
Lemma in_fund_fails {A} (m : Fallible fund MemoryError A) s f : run_fails_as out_of_room m f → run_fails_as out_of_room (in_fund (K := K) (V := V) m) (s, f).
Proof using Type. intros Hm e s'. unfold in_fund. destruct (m f) as [x f'] eqn:E. intros [= -> _]. by eapply Hm. Qed.
Lemma staging_charge_fails n : fails_as counter_full (staging_charge n).
Proof using Type. unfold staging_charge. counted. Qed.
(** A batch of a restore is one the store takes. *)
Lemma restore_batch_fails base full s new rest next capacity address f : node_charge MAX = Ok full → restoring base s (new ++ rest) → past (last_row (rs_root s)) new →
  (∀ e, e ∈ new → (row_cost e <= max_entry_bytes (rs_config s))%N) → length new <= max_batch_entries (rs_config s) → next = (ro_prefix (rs_root s) + 1)%N →
  run_fails_as out_of_room (apply_batch next (RowChange.Put <$> new) capacity BudgetLane.Completion address) (s, f).
Proof.
  intros Hfull Hre Hpast Hrows Hlen Hnext err [s' f'] Happly. pose proof (restoring_batch base s new rest Hre) as Ha. pose proof Hre as [Hlim _ Hs _ _].
  pose proof (apply_batch_ok s base next (RowChange.Put <$> new) capacity BudgetLane.Completion address full f Hlim Hfull Hs Ha) as Hap. rewrite Happly in Hap.
  destruct Hap as [_ [?|Hp]]; [by left|]. destruct (plan_batch_fails s base _ _ _ _ _ Hlim Hs Ha Hp) as [?|Href]; [by right|]. exfalso.
  eapply refused_illegal; [exact Href|]. split; [done|by rewrite length_fmap| |by intros e; rewrite puts_fmap; auto|].
  - assert (Hk : change_key <$> (RowChange.Put <$> new) = en_key <$> new) by (by rewrite <-list_fmap_compose). rewrite Hk. apply rising_nodup. unfold past in Hpast.
    by apply ssorted_app in Hpast as (_ & ? & _).
  - intros k (e & He & _)%list_elem_of_fmap. done.
Qed.
Lemma restore_batches_fails base full fuel address source s f : node_charge MAX = Ok full → restoring base s source → length source <= fuel →
  past (last_row (rs_root s)) source → (∀ e, e ∈ source → (row_cost e <= max_entry_bytes (rs_config s))%N) →
  run_fails_as out_of_room (restore_batches fuel address source) (s, f).
Proof.
  intros Hfull. revert source s f. induction fuel as [|fuel IH]; intros [|x source] s f Hre Hf Hpast Hrows; try (simpl in Hf; lia); [apply run_ok..|].
  cbn [restore_batches]. apply run_gets. cbn [id]. set (all := x :: source) in *. apply run_lift_bind; [apply counter_room, staging_charge_fails|]. intros staging _.
  apply run_bind; [apply in_fund_fails, reserve_fails|]. intros [] [s0 f1] Hres. unfold in_fund in Hres. destruct (fund_reserve _ _ staging f). injection Hres as _ <- <-.
  apply run_bind; [apply in_fund_fails; by apply stage_chunk_fails|]. intros [chunk rest] [s0 f2] Hst. unfold in_fund in Hst.
  destruct (stage_chunk _ _ _ _ [] 0 all _) as [z f3] eqn:Hstage. injection Hst as -> <- <-. pose proof (stage_chunk_length _ _ _ _ _ _ _ _ _ _ _ Hstage) as Hlen.
  apply stage_chunk_ok in Hstage as (new & -> & Hall & Hnew & Hprog). cbn [last] in Hnew. rewrite app_nil_l in Hlen |- *. simpl in Hlen.
  apply run_lift_bind. { apply counter_room. intros e. destruct (checked_add _ 1); [done|]. intros [= <-]. by eexists. }
  intros next [-> _]%or_fail_ok%checked_add_Some. rewrite Hall in Hre, Hrows, Hf, Hpast.
  assert (Hnewne : new ≠ []) by (apply Hprog; [done|pose proof (ct_entries _ _ (re_limits _ _ _ Hre)); pose proof (re_batch _ _ _ Hre); lia|done]).
  apply run_bind.
  { eapply (restore_batch_fails base full s new rest); [done|done|done| |lia|done]. intros e He. apply Hrows. apply elem_of_app. by left. }
  intros [] [s1 f4] Happly. destruct (restore_step base full s new rest _ _ _ _ _ _ Hfull Hre Hnew Happly) as (Hc & _ & Hrow1 & Hre1).
  assert (length new ≠ 0) by (by destruct new). rewrite length_app in Hf. apply IH; [done|lia| |].
  - rewrite last_row_ok, Hrow1, last_app by apply Hre1. unfold past in Hpast |- *. destruct (last new) as [e|] eqn:El; [|by apply last_None in El].
    simpl. apply last_Some in El as [new' ->]. rewrite !fmap_app, <-!app_assoc in Hpast. simpl in Hpast. rewrite app_assoc in Hpast. by apply ssorted_app in Hpast as (_ & ? & _).
  - intros e He. rewrite Hc. apply Hrows. apply elem_of_app. by right.
Qed.
End Restores.

(** ** Stores made from rows *)
Section Made.
Context {K V : Type} `{Laws : RangeKeyLaws K, F : Funding, PageSizes}.
#[local] Set Default Proof Using "Type Laws".
Implicit Types (s : RangeStore K V) (es source : list (Entry K V)).
Lemma store_new_fails id prefix config (partition : option (K → N)) lane owner address f :
  run_fails_as (λ err, range_config_validate config = Err err ∨ layout_validate config = Err err ∨ owner = Err err ∨ out_of_room err)
    (store_new (V := V) id prefix config partition lane owner address) f.
Proof using Type.
  unfold store_new. apply run_lift_bind; [intros e He; by left|]. intros c Hc. assert (c = config) as ->.
  { unfold range_config_validate in Hc. by apply refuse_then_ok in Hc as [_ [= <-]]. }
  apply run_lift_bind; [intros e He; right; by left|]. intros _ _. apply run_lift_bind; [eapply fails_weaken; [apply counter_room, root_charge_fails|naive_solver]|].
  intros charge _. apply run_bind; [eapply run_weaken; [apply reserve_fails|naive_solver]|]. intros [] f1 _. apply run_lift_bind; [intros e He; right; right; by left|].
  intros o _. apply run_ok.
Qed.
Lemma store_new_restoring id prefix config partition lane owner address f s f' base source : page_charge 0 0 = Ok base → (page_bytes config <= u64_max)%N →
  (base + rows_weight source <= u64_max)%N → (N.of_nat (length source) <= u64_max)%N →
  store_new (V := V) id prefix config partition lane owner address f = (Ok s, f') →
  restoring base s source ∧ rs_config s = config ∧ ro_range (rs_root s) = id ∧ root_rows (rs_root s) = [].
Proof.
  intros Hbase Hwidth Hw Hl Hnew. destruct (store_new_ok id prefix config partition lane owner address f s f' Hwidth Hnew) as (Hc & Hp & Hbatch & _ & Hid & Hrows & base' & Hlim & Hs).
  assert (base' = base) as -> by (pose proof (ct_base _ _ Hlim); congruence). split_and!; try done. split; rewrite ?Hc, ?Hrows; try done. simpl. lia.
Qed.
(** Renumbering a root keeps its rows. *)
Lemma with_prefix_sound s base prefix : root_sound s base (rs_root s) → root_sound (with_prefix prefix s) base (rs_root (with_prefix prefix s)).
Proof using Type. intros Hs. eapply root_sound_config; [done|done|]. destruct Hs as [Hd Hl Hf Ha]. by split. Qed.
(** ** Restores decided *)
Lemma from_entries_ok id prefix config (partition : option (K → N)) owner address (source : list (Entry K V)) base full f :
  page_charge 0 0 = Ok base → node_charge MAX = Ok full → (page_bytes config <= u64_max)%N →
  (base + rows_weight source <= u64_max)%N → (N.of_nat (length source) <= u64_max)%N →
  match from_entries id prefix config partition owner address source f with
  | (Ok s, _) => rs_config s = config ∧ rs_partition s = partition ∧ root_rows (rs_root s) = source ∧ rising source ∧ root_sound s base (rs_root s) ∧
      ro_prefix (rs_root s) = prefix
  | (Err err, _) => range_config_validate config = Err err ∨ layout_validate config = Err err ∨ owner = Err err ∨ ¬ rising source ∨
      (∃ e, e ∈ source ∧ (max_entry_bytes config < row_cost e)%N) ∨ out_of_room err
  end.
Proof.
  intros Hbase Hfull Hwidth Hw Hl. unfold from_entries. destruct (store_new _ _ _ _ _ _ _ f) as [[s|err] f1] eqn:Hnew.
  2: { apply store_new_fails in Hnew. naive_solver. }
  destruct (store_new_restoring _ _ _ _ _ _ _ _ _ _ base source Hbase Hwidth Hw Hl Hnew) as (Hre & Hc & _ & Hrows).
  destruct (restore_batches (length source) address source (s, f1)) as [[[]|err] [s' f']] eqn:Hrun.
  - destruct (restore_batches_ok base full _ address source s f1 s' f' Hfull Hre (le_n _) Hrun) as (Hc' & Hp' & Hs' & Hr'). rewrite Hrows, app_nil_l in Hr'.
    apply (with_prefix_sound s' base prefix) in Hs' as Hs2. destruct (store_new_ok _ _ _ _ _ _ _ _ _ _ Hwidth Hnew) as (_ & Hpart & _).
    split_and!; [cbn; congruence|cbn; congruence|exact Hr'| |done|done]. rewrite <-Hr'. apply ordered_rising. apply Hs'.
  - destruct (decide (rising source)) as [Hrise|]; [|tauto]. destruct (decide (Exists (λ e, max_entry_bytes config < row_cost e)%N source)) as [Hbig|Hsmall].
    { apply Exists_exists in Hbig. tauto. }
    assert (Hsmall' : ∀ e, e ∈ source → (row_cost e <= max_entry_bytes config)%N).
    { intros e He. apply N.nlt_ge. intros Hlt. apply Hsmall, Exists_exists. by exists e. }
    do 5 right. eapply (restore_batches_fails base full _ address source s f1 Hfull Hre (le_n _)); [| |exact Hrun]; [|by rewrite Hc].
    rewrite last_row_ok, Hrows by apply Hre. exact Hrise.
Qed.
End Made.
