(* ===== verification/PageProperties.v ===== *)
(** * What the range store promises

    A store of pages is an ordered map: reads are the map's, a batch updates it
    and fails only for a reason of the batch or for room, the cut into pages is as
    it was quoted, the directory's edits are exact and within their bound, one
    candidate of a root is published, and a store restores from its rows. *)
From stdpp Require Import prelude strings list sorting gmap.
From Stdlib Require Import NArith.
From S2P Require Import Prelude Fallible Objects Budget Pages PagesLaws PageDirectory PageTree PageEdits PageEditing PageStore PageRows PageBuilds PagePlans PageStoreLaws PageRefusals.

(** ** A small store

    Rows keyed by identifiers under keys compared whole, pages of four rows and
    160 bytes of them, charged to one pool of a memory budget, every permit of
    which is kept. *)
(** The budget of a store: [reserve] through a handle, whose permits are kept.
    Every node is shared and no leaf's charge absorbs a handle. *)
Definition budget_funding (budget : MemoryBudget) : PageDirectory.Funding :=
  {| fund := Levels * list Allocation;
     fund_reserve := λ kind lane bytes '(F, held),
       let '(x, F) := reserve budget kind lane bytes F in
       match x with Ok permit => (Ok (), (F, permit :: held)) | Err e => (Err e, (F, held)) end;
     fund_shared := λ f, (true, f);
     fund_absorbs := λ f, (false, f) |}.
Module Paging.
#[export] Instance keyed : RangeKey N := whole_key N.
#[export] Instance keyed_laws : RangeKeyLaws N := whole_key_laws N.
#[export] Instance sizes : PageSizes :=
  {| size_of_Entry := 24; size_of_Page := 48; size_of_Root := 64; size_of_Node := 56; size_of_Handle := 8;
     size_of_Change := 32; size_of_Cell := λ b, if b then 32 else 24; size_of_Reservation := 40 |}%N.
#[export] Instance layout : Layout := {| size_of_Level := 40; Budget.size_of_Root := 16; size_of_CursorRow := 16;
  size_of_Subscription := 16; size_of_Delivery := 16; size_of_Allocation := 16 |}%N.
Definition pool : Levels := Eval vm_compute in (budget_new 1000000 1000 levels_new).2.
#[export] Instance funding : PageDirectory.Funding := budget_funding 0.
Definition start : fund := (pool, []).
Definition config : RangeConfig :=
  {| page_entries := 4; page_bytes := 300; max_entry_bytes := 1000; max_batch_entries := 16; max_snapshot_leases := 4; max_snapshot_ttl := 30;
     max_query_items := 10; max_query_bytes := 1000; max_traversal_depth := 8; max_traversal_nodes := 8; max_traversal_edges := 8;
     max_continuation_bytes := 10000 |}.
Definition row (k v : N) : Entry N N := {| en_key := k; en_value := v; en_heap_bytes := 8 |}.
Definition base : N := 128.
Definition full : N := 392.
Definition new_store : RangeStore N N := Eval vm_compute in
  match (store_new 7 0 config None BudgetLane.Ordinary (Ok 1%N) 100 start).1 with Ok s => s | Err _ =>
    {| rs_root := {| ro_address := 0; ro_owner := 0; ro_range := 0; ro_prefix := 0; ro_pages := directory_new; ro_len := 0 |};
       rs_config := config; rs_partition := None; rs_state := 0; rs_states := 0; rs_pins := ∅; rs_next_lease := 1; rs_clock := 0 |} end.
Definition filling : list (RowChange N N) := (λ k, RowChange.Put (row (10 * k) k)) <$> [5; 1; 9; 3; 7; 2; 8; 4; 6; 10]%N.
Definition filled : RangeStore N N := Eval vm_compute in (apply_batch 1 filling 10 BudgetLane.Ordinary 101 (new_store, start)).2.1.
Definition changes : list (RowChange N N) := [RowChange.Put (row 35 1); RowChange.Delete 30%N; RowChange.Put (row 100 2)].
Lemma limits : cut_limits config base.
Proof. split; [reflexivity|by vm_compute|by vm_compute|done]. Qed.
Lemma full_node : node_charge MAX = Ok full.
Proof. reflexivity. Qed.
Lemma store_starts_sound : root_sound new_store base (rs_root new_store).
Proof.
  split; [|done|constructor|by intros e ?%elem_of_nil]. split_and!; [split; constructor|done|done].
Qed.
Lemma filled_sound : root_sound filled base (rs_root filled).
Proof.
  pose proof (apply_batch_ok new_store base 1 filling 10 BudgetLane.Ordinary 101 full start limits full_node store_starts_sound ltac:(by vm_compute)) as Happly.
  assert (Hrun : apply_batch 1 filling 10 BudgetLane.Ordinary 101 (new_store, start) =
    (Ok (), (filled, (apply_batch 1 filling 10 BudgetLane.Ordinary 101 (new_store, start)).2.2))) by (vm_compute; reflexivity).
  rewrite Hrun in Happly. destruct Happly as [[Hc Hp] Hs _ _ _]. by eapply root_sound_config.
Qed.
End Paging.

(** ** Rows *)
Section Promises.
Context {K V : Type} `{Laws : RangeKeyLaws K, F : PageDirectory.Funding, Z : PageSizes}.
#[local] Set Default Proof Using "Type Laws".
Implicit Types (s : RangeStore K V) (r : Root K V) (cs : list (RowChange K V)) (q : PreparedRange K V) (k : K) (d : PageDirectory K V).
(** C28: A batch updates the rows as a map, or leaves the store as it was: where it
    is applied, the store is sound at the batch's prefix and every key reads as the
    old rows with the changes made to them; otherwise the store is unchanged, and
    either the budget or a counter had no room or the batch is one the store
    refuses (its prefix, its size, a key named twice, a row past the limits, a
    delete of a row that is not there), with the error that says so. *)
Theorem batch_applied s base prefix cs capacity lane address full f :
  cut_limits (rs_config s) base → node_charge MAX = Ok full → root_sound s base (rs_root s) → addressable base (rs_root s) cs →
  match apply_batch prefix cs capacity lane address (s, f) with
  | (Ok _, (s', _)) => batch_legal s (rs_root s) prefix cs (max_batch_entries (rs_config s)) ∧ root_sound s' base (rs_root s') ∧
      ro_prefix (rs_root s') = prefix ∧ ∀ k, root_get (rs_root s') k = change_maps (row_map (entries (rs_root s))) cs !! k
  | (Err err, (s', _)) => s' = s ∧ (out_of_room err ∨ batch_refused s (rs_root s) prefix cs (max_batch_entries (rs_config s)) err)
  end.
Proof.
  intros Hlim Hfull Hs Ha. pose proof (apply_batch_ok s base prefix cs capacity lane address full f Hlim Hfull Hs Ha) as Hap.
  destruct (apply_batch prefix cs capacity lane address (s, f)) as [[[]|err] [s' f']] eqn:Hrun.
  - unfold apply_batch, prepare_batch, mbind, fallible_bind, lift in Hrun. destruct (plan_batch s prefix cs capacity lane u64_max) as [plan|] eqn:Hp; [|done].
    destruct (plan_root_legal s base _ _ _ _ _ _ _ _ Hlim Hs Ha Hp) as [Hlegal _]. destruct Hap as [[Hc Hpt] Hs' Hrows Hprefix _].
    split_and!; [done|by eapply root_sound_config|rewrite Hprefix; symmetry; apply Hlegal|]. intros k. rewrite root_get_row, entries_rows by apply Hs || apply Hs'.
    unfold root_rows in Hrows. by rewrite Hrows.
  - destruct Hap as [-> [?|Hp]]; [split; [done|left; by left]|]. split; [done|]. destruct (plan_batch_fails s base _ _ _ _ _ Hlim Hs Ha Hp); [left; by right|by right].
Qed.
(** C29: A sound root reads as an ordered map: its rows rise in key order, a key
    reads as the row of that key, and a scan from a key lists the rows at or past
    it. *)
Theorem reads_one_map r : directory_sound (ro_pages r) →
  rising (entries r) ∧ (∀ k, root_get r k = row_map (entries r) !! k) ∧
  ∀ k exclusive, entries_from r k exclusive = filter (at_or_past k exclusive) (entries r).
Proof.
  intros Hd. rewrite entries_rows by done. split_and!; [apply ordered_rising; apply Hd| |].
  - intros k. by apply root_get_row.
  - intros k exclusive. by apply entries_from_rows.
Qed.
(** C30: A cut makes as many pages as were quoted: both rules cut a run of cells
    into the same number of parts, each page of the cut has rows of one partition
    within the limits or is one row too large to share a page, and the cut's pages
    are the cells in order. *)
Theorem cut_pages_as_quoted (config : RangeConfig) base (cells : list (MergeEntry K V * N)) :
  cut_limits config base → cut_input config cells → (∀ c, c ∈ cells → (base + cell_size c <= u64_max)%N) →
  ∃ pieces quoted, concat pieces = cells ∧ concat quoted = cells ∧ Forall (leaf_sound config base) pieces ∧ length quoted = length pieces ∧
  (∀ St (emit : LeafSpan → Fallible St MemoryError ()) st, cut config emit cells st = each emit (spans_at 0 pieces) st) ∧
  ∀ St (emit : LeafSpan → Fallible St MemoryError ()) st, quote_cells config emit cells st = each emit (spans_at 0 quoted) st.
Proof using Type. apply cut_as_quoted. Qed.
(** ** The directory *)
(** C31: A run of page edits within its bound does exactly what the edits say: with
    the bytes [edit_bound] gives for as many edits on a directory of at most so
    many pages, the directory stays sound and its list of pages takes every edit;
    only the budget can refuse. *)
Theorem directory_edits_exact edits max bound full d es b :
  node_charge MAX = Ok full → edit_bound edits max = Ok bound → (N.of_nat max <= u64_max)%N → length es = edits →
  directory_sound d → Forall edit_made es → run_applies max (pages_of d) es → bd_remaining b = bound →
  match edit_directories d es b with
  | (Ok d', _) => directory_sound d' ∧ pages_of d' = foldl edited (pages_of d) es
  | (Err err, _) => budget_refuses err
  end.
Proof.
  intros Hfull Hbound Hmax <- Hd Hm Hrun Hb. destruct (share_bound _ _ _ _ Hbound Hfull Hmax) as (path & [_ _ H8 Hshare] & Hle).
  pose proof (edit_directories_ok full max path d es Hfull Hmax H8 Hshare Hd Hm Hrun b) as Hrun'.
  destruct (edit_directories d es b) as [[d'|err] b']; [by destruct Hrun' as [[? ?] _]|]. destruct Hrun' as [?|Hless]; [done|]. lia.
Qed.
(** An edit that does not apply is refused and charges nothing: a page out of
    order with its neighbours, or a rank out of range. *)
Theorem directory_edit_refused d (edit : PageEdit) : directory_sound d → edit_made edit → ¬ applies (pages_of d) edit →
  ∃ err, ∀ b, edit_directory d edit b = (Err err, b).
Proof. apply edit_refused. Qed.
(** ** Publication *)
Lemma plan_root_of s r prefix cs capacity lane max_bytes max_entries plan : plan_root s r prefix cs capacity lane max_bytes max_entries = Ok plan →
  pp_base plan = r ∧ pp_prefix plan = (ro_prefix r + 1)%N ∧ (ro_prefix r + 1 <= u64_max)%N.
Proof using Type.
  unfold plan_root. intros (expected & [-> Hu]%or_fail_ok%checked_add_Some & Hp)%try_bind_ok. apply refuse_then_ok in Hp as [Hprefix Hp].
  apply refuse_then_ok in Hp as [_ Hp]. cbv zeta in Hp. apply refuse_then_ok in Hp as [_ Hp]. apply try_bind_ok in Hp as (? & _ & Hp).
  apply try_bind_ok in Hp as (? & _ & Hp). destruct (plan_groups _ _ _ _ _ _) as [planned co]. apply try_bind_ok in Hp as ([? ?] & _ & Hp).
  apply try_bind_ok in Hp as (? & _ & Hp). apply refuse_then_ok in Hp as [_ [= <-]]. split_and!; [done| |done]. by apply dec_stable.
Qed.
Lemma build_of s plan address f q f' : build s plan address f = (Ok q, f') →
  pr_base q = pp_base plan ∧ ro_address (pr_root q) = address ∧ ro_owner (pr_root q) = ro_owner (pp_base plan) ∧
  ro_range (pr_root q) = ro_range (rs_root s) ∧ ro_prefix (pr_root q) = pp_prefix plan.
Proof using Type.
  unfold build. intros ([] & f1 & _ & Hp)%fallible_bind_ok. unfold prepare_planned in Hp. destruct root_charge as [bytes|]; [|done].
  destruct (fund_reserve _ _ _ f1) as [[[]|] f2]; [|done]. destruct (checked_sub _ _); [|done]. destruct (build_groups _ _ _ _ _) as [x b]. injection Hp as Hp _.
  apply try_bind_ok in Hp as (w & -> & Hp). apply refuse_then_ok in Hp as [_ Hp]. by apply refuse_then_ok in Hp as [_ [= <-]].
Qed.
Lemma prepare_batch_of s prefix cs capacity lane address f q f' : prepare_batch s prefix cs capacity lane address f = (Ok q, f') →
  pr_base q = rs_root s ∧ ro_owner (pr_root q) = ro_owner (rs_root s) ∧ ro_range (pr_root q) = ro_range (rs_root s) ∧
  ro_prefix (pr_root q) = (ro_prefix (rs_root s) + 1)%N ∧ (ro_prefix (rs_root s) + 1 <= u64_max)%N.
Proof using Type.
  unfold prepare_batch. intros (plan & y & [Hp ->]%lift_ok & Hb)%fallible_bind_ok. apply plan_root_of in Hp as (Hpb & Hpp & Hu).
  apply build_of in Hb as (-> & _ & -> & -> & ->). by rewrite Hpb, Hpp.
Qed.
Lemma prepare_after_of s q prefix cs capacity lane address f q' f' : prepare_after s q prefix cs capacity lane address f = (Ok q', f') →
  pr_base q' = pr_root q ∧ ro_owner (pr_root q') = ro_owner (pr_root q) ∧ ro_owner (pr_root q) = ro_owner (rs_root s) ∧
  ro_range (pr_root q') = ro_range (rs_root s) ∧ ro_prefix (pr_root q') = (ro_prefix (pr_root q) + 1)%N ∧ (ro_prefix (pr_root q) + 1 <= u64_max)%N.
Proof using Type.
  unfold prepare_after, plan_after. intros (plan & y & [Hp ->]%lift_ok & Hb)%fallible_bind_ok. apply refuse_then_ok in Hp as [Howner Hp].
  apply plan_root_of in Hp as (Hpb & Hpp & Hu). apply build_of in Hb as (-> & _ & -> & -> & ->). rewrite Hpb, Hpp. split_and!; try done. by apply dec_stable.
Qed.
(** One candidate of a root is published: a batch prepared on the published
    root publishes, and any other candidate prepared on that root, of whatever
    changes and wherever allocated, is then refused as stale and leaves the store
    as it is. *)
Theorem publication_fenced s prefix cs capacity lane address f q f' prefix2 cs2 capacity2 lane2 address2 f2 q2 f2' :
  prepare_batch s prefix cs capacity lane address f = (Ok q, f') → prepare_batch s prefix2 cs2 capacity2 lane2 address2 f2 = (Ok q2, f2') →
  ∃ s', publish q s = (Ok (), s') ∧ rs_root s' = pr_root q ∧ rs_config s' = rs_config s ∧
  publish q2 s' = (Err (MemoryError.StalePreparation (ro_prefix (rs_root s)) (ro_prefix (rs_root s) + 1)), s').
Proof using Type.
  intros (Hb & _ & Hr & Hp & _)%prepare_batch_of (Hb2 & _ & Hr2 & Hp2 & _)%prepare_batch_of. exists (root_published (pr_root q) s).
  unfold publish, errors_as, publish_recoverable. rewrite Hb, Hr, !decide_False by (intros Hn; by apply Hn). split_and!; [done..|].
  cbn [root_published rs_root rs_config rs_partition rs_state rs_states]. rewrite Hb2, Hr, Hr2, Hp, decide_False by (intros Hn; by apply Hn). rewrite decide_True by lia. done.
Qed.
(** The chains of candidates that were prepared one after another. *)
Inductive prepared_chain s : list (PreparedRange K V) → Prop :=
  | chain_one q prefix cs capacity lane address f f' : prepare_batch s prefix cs capacity lane address f = (Ok q, f') → prepared_chain s [q]
  | chain_next chain q q' prefix cs capacity lane address f f' : prepared_chain s (chain ++ [q]) →
      prepare_after s q prefix cs capacity lane address f = (Ok q', f') → prepared_chain s ((chain ++ [q]) ++ [q']).
Lemma check_chain_app r chain q : check_chain r (chain ++ [q]) = Ok () ↔
  check_chain r chain = Ok () ∧ check_base q (match last chain with Some p => pr_root p | None => r end) = Ok ().
Proof using Type.
  revert r. induction chain as [|p chain IH]; intros r; cbn [app check_chain].
  - rewrite try_bind_ok. split; [by intros ([] & ? & _)|intros [_ ?]; by exists ()].
  - assert (Hl : match last (p :: chain) with Some p => pr_root p | None => r end = match last chain with Some p => pr_root p | None => pr_root p end)
      by (destruct chain as [|p' chain]; [done|rewrite last_cons_cons; by destruct (last (p' :: chain)) eqn:E; [|apply last_None in E]]).
    rewrite Hl, !try_bind_ok. setoid_rewrite IH. split; [intros ([] & ? & ? & ?)|intros [([] & ? & ?) ?]]; eauto.
Qed.
Lemma chain_root s chain q : prepared_chain s (chain ++ [q]) → ro_range (pr_root q) = ro_range (rs_root s).
Proof using Type.
  inversion 1 as [q0 prefix cs capacity lane address f f' Hp E|chain0 q0 q' prefix cs capacity lane address f f' Hc Hp E].
  - apply (f_equal last) in E. rewrite last_snoc in E. injection E as ->. by apply prepare_batch_of in Hp as (_ & _ & ? & _).
  - apply (f_equal last) in E. rewrite !last_snoc in E. injection E as ->. by apply prepare_after_of in Hp as (_ & _ & _ & ? & _).
Qed.
Lemma check_base_ok q r : ro_range (pr_root q) = ro_range r → pr_base q = r → ro_prefix (pr_root q) = (ro_prefix r + 1)%N → (ro_prefix r + 1 <= u64_max)%N → check_base q r = Ok ().
Proof using Type.
  intros Hr Hb Hp Hu. unfold check_base. rewrite Hb, Hr, Hp. rewrite refuse_pass by (intros [Hn|Hn]; by apply Hn). rewrite refuse_pass by (intros Hn; by apply Hn).
  apply refuse_if_ok. intros Hn. apply Hn. by apply checked_add_Some.
Qed.
Lemma check_chain_publish s chain : check_chain (rs_root s) chain = Ok () →
  ∃ s', each publish chain s = (Ok (), s') ∧ rs_root s' = (match last chain with Some q => pr_root q | None => rs_root s end) ∧
  rs_config s' = rs_config s ∧ ro_prefix (rs_root s') = (ro_prefix (rs_root s) + N.of_nat (length chain))%N.
Proof using Type.
  revert s. induction chain as [|q chain IH]; intros s; cbn [check_chain each].
  - intros _. exists s. split_and!; try done. simpl. lia.
  - intros ([] & Hb & Hc)%try_bind_ok. unfold check_base in Hb. apply refuse_then_ok in Hb as [Hra Hb]. apply refuse_then_ok in Hb as [Hpre Hb].
    apply refuse_if_ok in Hb. apply dec_stable, checked_add_Some in Hb as [Hnext _]. apply dec_stable in Hpre.
    destruct (IH (root_published (pr_root q) s) Hc) as (s' & Hrun & Hroot & Hcfg & Hprefix). exists s'. split_and!.
    + unfold mbind, fallible_bind, publish at 1, errors_as, publish_recoverable. rewrite !decide_False by naive_solver. exact Hrun.
    + rewrite Hroot. destruct chain as [|p chain]; [done|]. rewrite last_cons_cons. by destruct (last (p :: chain)) eqn:E; [|apply last_None in E].
    + done.
    + rewrite Hprefix. cbn [root_published rs_root length]. lia.
Qed.
(** A chain of candidates prepared one after another publishes: it passes the
    check of chains, and publishing it in order succeeds at every step and ends at
    the last candidate's root, one prefix a candidate past the store's. *)
Theorem chain_publishes s chain : prepared_chain s chain → validate_chain s chain = Ok () ∧
  ∃ s', each publish chain s = (Ok (), s') ∧ Some (rs_root s') = pr_root <$> last chain ∧
  ro_prefix (rs_root s') = (ro_prefix (rs_root s) + N.of_nat (length chain))%N.
Proof using Type.
  intros Hc. assert (Hv : check_chain (rs_root s) chain = Ok ()).
  { induction Hc as [q prefix cs capacity lane address f f' Hp|chain q q' prefix cs capacity lane address f f' Hc IH Hp].
    - apply (check_chain_app _ []). split; [done|]. apply prepare_batch_of in Hp as (? & _ & ? & ? & ?). by apply check_base_ok.
    - apply check_chain_app. split; [done|]. rewrite last_snoc. apply chain_root in Hc. apply prepare_after_of in Hp as (? & _ & _ & ? & ? & ?). apply check_base_ok; congruence. }
  split; [done|]. destruct (check_chain_publish s chain Hv) as (s' & Hrun & Hroot & _ & Hprefix). exists s'. split_and!; [done| |done].
  rewrite Hroot. destruct Hc; [done|]. by rewrite last_snoc.
Qed.
(** ** Restoring *)
(** C32: A store restored from rows holds exactly those rows, in order, at the
    prefix it was given; a restore fails only where the configuration or the owner
    is refused, where the rows do not rise or one is past the limits, or where the
    budget or a counter has no room. *)
Theorem store_restored id prefix config (partition : option (K → N)) owner address (source : list (Entry K V)) base full f :
  page_charge 0 0 = Ok base → node_charge MAX = Ok full → (page_bytes config <= u64_max)%N →
  (base + rows_weight source <= u64_max)%N → (N.of_nat (length source) <= u64_max)%N →
  match from_entries id prefix config partition owner address source f with
  | (Ok s, _) => entries (rs_root s) = source ∧ rising source ∧ (∀ k, root_get (rs_root s) k = row_map source !! k) ∧
      root_sound s base (rs_root s) ∧ ro_prefix (rs_root s) = prefix
  | (Err err, _) => range_config_validate config = Err err ∨ layout_validate config = Err err ∨ owner = Err err ∨ ¬ rising source ∨
      (∃ e, e ∈ source ∧ (max_entry_bytes config < row_cost e)%N) ∨ out_of_room err
  end.
Proof.
  intros Hbase Hfull Hwidth Hw Hl. pose proof (from_entries_ok id prefix config partition owner address source base full f Hbase Hfull Hwidth Hw Hl) as Hr.
  destruct (from_entries id prefix config partition owner address source f) as [[s|err] f']; [|exact Hr]. destruct Hr as (_ & _ & Hrows & Hrise & Hs & Hp).
  pose proof (rs_directory _ _ _ Hs) as Hd. rewrite entries_rows by done. unfold root_rows in Hrows. split_and!; try done. intros k. by rewrite root_get_row, Hrows by done.
Qed.
End Promises.

(** ** At the small store *)
Module Examples.
Import Paging.
#[local] Open Scope N_scope.
Lemma changes_fit : addressable base (rs_root filled) changes.
Proof. vm_compute. split; done. Qed.
Lemma absent_fits : addressable base (rs_root filled) [RowChange.Delete 31].
Proof. vm_compute. split; done. Qed.
Lemma batch_applied_witness :
  (apply_batch 2 changes 3 BudgetLane.Ordinary 102 (filled, start)).1 = Ok () ∧
  root_get (rs_root (apply_batch 2 changes 3 BudgetLane.Ordinary 102 (filled, start)).2.1) 35 = Some (row 35 1) ∧
  (apply_batch 2 [RowChange.Delete 31] 1 BudgetLane.Ordinary 102 (filled, start)).2.1 = filled.
Proof.
  pose proof (batch_applied filled base 2 changes 3 BudgetLane.Ordinary 102 full start limits full_node filled_sound changes_fit) as Hok.
  pose proof (batch_applied filled base 2 [RowChange.Delete 31] 1 BudgetLane.Ordinary 102 full start limits full_node filled_sound absent_fits) as Herr.
  split; [vm_compute; reflexivity|]. split.
  - assert (Hr : (apply_batch 2 changes 3 BudgetLane.Ordinary 102 (filled, start)).1 = Ok ()) by (vm_compute; reflexivity).
    destruct (apply_batch 2 changes 3 BudgetLane.Ordinary 102 (filled, start)) as [[u|e] [s' f']]; [|discriminate Hr].
    destruct Hok as (_ & _ & _ & Hget). cbn [fst snd]. rewrite (Hget 35). vm_compute. reflexivity.
  - assert (Hr : (apply_batch 2 [RowChange.Delete 31] 1 BudgetLane.Ordinary 102 (filled, start)).1 = Err MemoryError.MissingKey) by (vm_compute; reflexivity).
    destruct (apply_batch 2 [RowChange.Delete 31] 1 BudgetLane.Ordinary 102 (filled, start)) as [[u|e] [s' f']]; [discriminate Hr|]. apply Herr.
Defined.
Lemma reads_one_map_witness : rising (entries (rs_root filled)) ∧ root_get (rs_root filled) 70 = Some (row 70 7) ∧
  entries_from (rs_root filled) 85 false = [row 90 9; row 100 10].
Proof.
  destruct (reads_one_map (rs_root filled) (rs_directory _ _ _ filled_sound)) as (Hr & Hg & Hf). split; [exact Hr|]. rewrite (Hg 70), (Hf 85 false).
  split; vm_compute; reflexivity.
Defined.
Definition cells : list (MergeEntry N N * N) := Eval vm_compute in merged_cells (Some (λ k, k / 50)) ((λ k, row k 1) <$> [10; 20; 40; 60]) [RowChange.Put (row 30 2); RowChange.Put (row 70 3)].
Lemma cut_pages_as_quoted_witness : ∃ pieces quoted, concat pieces = cells ∧ Forall (leaf_sound config base) pieces ∧ length quoted = length pieces ∧
  concat quoted = cells.
Proof.
  destruct (cut_pages_as_quoted config base cells) as (pieces & quoted & Hp & Hq & Hs & Hl & _).
  - exact limits.
  - split; [|vm_compute; done|vm_compute; done]. apply Forall_forall. unfold cells. repeat (constructor; [vm_compute; done|]). constructor.
  - apply Forall_forall. unfold cells. repeat (constructor; [vm_compute; done|]). constructor.
  - exists pieces, quoted. split; [exact Hp|]. split; [exact Hs|]. split; [exact Hl|exact Hq].
Defined.
Definition made : DirectoryBuild := {| bd_lane := BudgetLane.Ordinary; bd_remaining := 2 * (6 * 3 + 2) * full; bd_fund := start |}.
Definition edits : list (PageEdit (K := N) (V := N)) := [InsertPage 3 (page_new [row 110 1; row 120 2]); RemovePage 0].
Lemma directory_edits_exact_witness : edit_bound 2 8 = Ok (2 * (6 * 3 + 2) * full) ∧
  match edit_directories (ro_pages (rs_root filled)) edits made with
  | (Ok d, _) => pages_of d = foldl edited (pages_of (ro_pages (rs_root filled))) edits
  | (Err _, _) => False
  end.
Proof.
  split; [vm_compute; reflexivity|].
  assert (Hedits := directory_edits_exact 2 8 (2 * (6 * 3 + 2) * full) full (ro_pages (rs_root filled)) edits made full_node eq_refl).
  specialize (Hedits ltac:(vm_compute; discriminate) eq_refl (rs_directory _ _ _ filled_sound)).
  assert (Hr : is_Some (match (edit_directories (ro_pages (rs_root filled)) edits made).1 with Ok d => Some d | Err _ => None end)) by (vm_compute; eexists; reflexivity).
  destruct (edit_directories (ro_pages (rs_root filled)) edits made) as [[d|e] b]; [|destruct Hr as [? [=]]].
  apply Hedits.
  - constructor; [apply page_new_made|]. constructor; [exact I|constructor].
  - cbn [run_applies edits applies]. split_and!; try (vm_compute; lia). unfold ordered. split.
    + vm_compute insert_at. repeat constructor; eexists; split; reflexivity.
    + apply (bool_decide_unpack _). vm_compute. exact I.
  - reflexivity.
Defined.
Lemma directory_edit_refused_witness : ∃ err, edit_directory (ro_pages (rs_root filled)) (InsertPage 0 (page_new [row 55 1])) made = (Err err, made).
Proof.
  destruct (directory_edit_refused (ro_pages (rs_root filled)) (InsertPage 0 (page_new [row 55 1])) (rs_directory _ _ _ filled_sound) (page_new_made _)) as [err Hr].
  - intros [_ [_ Hs]]. apply (bool_decide_pack _) in Hs. vm_compute in Hs. exact Hs.
  - exists err. apply Hr.
Defined.
Definition first_of (x : Try MemoryError (PreparedRange N N) * fund) : PreparedRange N N :=
  match x.1 with Ok q => q | Err _ => {| pr_base := rs_root filled; pr_root := rs_root filled |} end.
Definition candidate_a : PreparedRange N N := Eval vm_compute in first_of (prepare_batch filled 2 changes 3 BudgetLane.Ordinary 102 start).
Definition candidate_b : PreparedRange N N := Eval vm_compute in first_of (prepare_batch filled 2 [RowChange.Delete 10] 1 BudgetLane.Ordinary 103 start).
Definition candidate_c : PreparedRange N N := Eval vm_compute in
  first_of (prepare_after filled candidate_a 3 [RowChange.Delete 35] 1 BudgetLane.Ordinary 104 start).
Lemma prepared_a : prepare_batch filled 2 changes 3 BudgetLane.Ordinary 102 start =
  (Ok candidate_a, (prepare_batch filled 2 changes 3 BudgetLane.Ordinary 102 start).2).
Proof. vm_compute. reflexivity. Qed.
Lemma prepared_b : prepare_batch filled 2 [RowChange.Delete 10] 1 BudgetLane.Ordinary 103 start =
  (Ok candidate_b, (prepare_batch filled 2 [RowChange.Delete 10] 1 BudgetLane.Ordinary 103 start).2).
Proof. vm_compute. reflexivity. Qed.
Lemma prepared_c : prepare_after filled candidate_a 3 [RowChange.Delete 35] 1 BudgetLane.Ordinary 104 start =
  (Ok candidate_c, (prepare_after filled candidate_a 3 [RowChange.Delete 35] 1 BudgetLane.Ordinary 104 start).2).
Proof. vm_compute. reflexivity. Qed.
Lemma publication_fenced_witness : ∃ s', publish candidate_a filled = (Ok (), s') ∧ rs_root s' = pr_root candidate_a ∧
  publish candidate_b s' = (Err (MemoryError.StalePreparation 1 2), s').
Proof.
  destruct (publication_fenced filled 2 changes 3 BudgetLane.Ordinary 102 start candidate_a _ 2 [RowChange.Delete 10] 1 BudgetLane.Ordinary 103 start candidate_b _
    prepared_a prepared_b) as (s' & Hp & Hr & _ & Hs). exists s'. split; [exact Hp|]. split; [exact Hr|exact Hs].
Defined.
Lemma chain_publishes_witness : validate_chain filled [candidate_a; candidate_c] = Ok () ∧
  ∃ s', each publish [candidate_a; candidate_c] filled = (Ok (), s') ∧ ro_prefix (rs_root s') = 3.
Proof.
  destruct (chain_publishes filled [candidate_a; candidate_c]) as (Hv & s' & Hp & _ & Hx).
  - eapply (chain_next _ []); [eapply chain_one; exact prepared_a|exact prepared_c].
  - split; [exact Hv|]. exists s'. split; [exact Hp|]. rewrite Hx. vm_compute. reflexivity.
Defined.
Lemma store_restored_witness :
  match from_entries 9 5 config None (Ok 2) (λ i, 200 + N.of_nat i) (entries (rs_root filled)) start with
  | (Ok s, _) => entries (rs_root s) = entries (rs_root filled) ∧ ro_prefix (rs_root s) = 5
  | (Err _, _) => False
  end.
Proof.
  pose proof (store_restored 9 5 config None (Ok 2) (λ i, 200 + N.of_nat i) (entries (rs_root filled)) base full start eq_refl full_node) as Hr.
  assert (Ho : is_Some (match (from_entries 9 5 config None (Ok 2) (λ i, 200 + N.of_nat i) (entries (rs_root filled)) start).1 with Ok d => Some d | Err _ => None end))
    by (vm_compute; eexists; reflexivity).
  destruct (from_entries 9 5 config None (Ok 2) (λ i, 200 + N.of_nat i) (entries (rs_root filled)) start) as [[s|e] f]; [|destruct Ho as [? [=]]].
  destruct Hr as (He & _ & _ & _ & Hp); [vm_compute; discriminate..|]. split; [exact He|exact Hp].
Defined.
End Examples.
