(* ===== verification/Snapshots.v ===== *)
(** * Snapshot leases, bounded reads and traversals (focal-memory: snapshot.rs,
    traversal.rs and the leases of range.rs)

    A store pins its published root for a bounded time and hands out a lease,
    which has only a weak reference to the pinned state: it reads while the
    store's registry (or a read that is still running) keeps the state, and while
    the clock, which every reader advances, is before the lease's expiry. Through
    a lease rows are read by key, in pages of a scan, and in pages of a
    breadth-first traversal.

    [held] lists the states that running reads keep. Permits are asked of
    [Funding] and reserving a [Vec] never fails, as in [PageStore]. What a
    traversal's adapter answers is a function of the row and the last neighbour. *)
From stdpp Require Import prelude gmap strings list.
From Stdlib Require Import NArith.
From S2P Require Import Prelude Fallible Objects Budget Pages PageDirectory PageStore.

#[local] Open Scope N_scope.
(** Sizes of the compiler's layout. *)
Class SnapshotSizes := {
  size_of_LeaseState : N; size_of_LeaseRow : N; size_of_Permit : N; size_of_FrozenRange : N; size_of_ReadPage : N;
  size_of_ScanContinuation : N; size_of_TraversalPage : N; size_of_TraversalContinuation : N; size_of_PendingNode : N; size_of_Key : N
}.
Record SnapshotLease := { sl_state : N; sl_range : N; sl_id : N; sl_prefix : N; sl_expires_at : N }.
Record FrozenRange (K V : Type) := { fz_root : Root K V }.
Arguments fz_root {_ _} _.

(** ** The registry *)
Section Registry.
Context {K V : Type} `{RangeKey K, Funding, PageSizes, SnapshotSizes}.
Implicit Types (s : RangeStore K V) (st : LeaseState K V) (lease : SnapshotLease).
Definition with_leases (pins : gmap N (LeaseState K V)) (next clock : N) s : RangeStore K V :=
  {| rs_root := rs_root s; rs_config := rs_config s; rs_partition := rs_partition s; rs_state := rs_state s; rs_states := rs_states s;
     rs_pins := pins; rs_next_lease := next; rs_clock := clock |}.
Definition in_store {A} (m : Fallible (RangeStore K V) MemoryError A) : Fallible (RangeStore K V * fund) MemoryError A := λ '(s, f),
  let '(x, s) := m s in (x, (s, f)).
Definition store_advance_clock (now : N) : Fallible (RangeStore K V) MemoryError N := λ s,
  let previous := rs_clock s in
  let s := with_leases (rs_pins s) (rs_next_lease s) (N.max previous now) s in
  if decide (now < previous) then (Err (MemoryError.ClockRegression previous now), s) else
  let kept := filter (λ '(_, pin), now < le_expires_at pin) (rs_pins s) in
  (Ok (N.of_nat (size (rs_pins s) - size kept)), with_leases kept (rs_next_lease s) (rs_clock s) s).
Definition lease_charge : Try MemoryError N :=
  state ← charge_add size_of_LeaseState size_of_Permit;
  slot ← charge_add size_of_LeaseRow size_of_usize;
  slots ← charge_mul 16 slot;
  inner ← charge_add state slots;
  charge_add (3 * ALLOCATOR_OVERHEAD) inner.
(** [SnapshotLease::from_state]. *)
Definition lease_of st : SnapshotLease :=
  {| sl_state := le_address st; sl_range := ro_range (le_root st); sl_id := le_id st; sl_prefix := ro_prefix (le_root st);
     sl_expires_at := le_expires_at st |}.
(** [address] is where the state is allocated. *)
Definition pin (now ttl address : N) : Fallible (RangeStore K V * fund) MemoryError SnapshotLease :=
  in_store (store_advance_clock now);;
  '(s, _) ← gets id;
  lift (refuse_if (ttl = 0 ∨ max_snapshot_ttl (rs_config s) < ttl) (MemoryError.InvalidConfiguration "snapshot TTL exceeds allowed lifetime"));;
  lift (refuse_if (max_snapshot_leases (rs_config s) <= size (rs_pins s))%nat (MemoryError.Capacity 1 0));;
  expires_at ← lift (or_fail (checked_add now ttl) (MemoryError.CounterExhausted "snapshot expiry"));
  next ← lift (or_fail (checked_add (rs_next_lease s) 1) (MemoryError.CounterExhausted "snapshot lease ID"));
  charge ← lift lease_charge;
  in_fund (fund_reserve BudgetKind.ReadPins BudgetLane.Ordinary charge);;
  let state := {| le_address := address; le_root := rs_root s; le_id := rs_next_lease s; le_expires_at := expires_at; le_config := rs_config s |} in
  in_store (modify (with_leases (<[rs_next_lease s := state]> (rs_pins s)) next (rs_clock s)));;
  mret (lease_of state).
Definition lease_matches lease st : bool := sl_state lease =? le_address st.
Definition release lease : Fallible (RangeStore K V) MemoryError () :=
  s ← gets id;
  lift (refuse_if (sl_range lease ≠ ro_range (rs_root s)) MemoryError.WrongLease);;
  held ← lift (or_fail (rs_pins s !! sl_id lease) MemoryError.LeaseExpired);
  lift (refuse_if (lease_matches lease held = false) MemoryError.WrongLease);;
  modify (with_leases (delete (sl_id lease) (rs_pins s)) (rs_next_lease s) (rs_clock s)).
Definition freeze_in s (lane : BudgetLane) : Fallible fund MemoryError (FrozenRange K V) :=
  image ← lift (charge_add size_of_FrozenRange size_of_Permit);
  charge ← lift (charge_add ALLOCATOR_OVERHEAD image);
  fund_reserve BudgetKind.ReadPins lane charge;;
  mret {| fz_root := rs_root s |}.
Definition freeze s : Fallible fund MemoryError (FrozenRange K V) := freeze_in s BudgetLane.Ordinary.
Definition frozen_entries (image : FrozenRange K V) : list (Entry K V) := entries (fz_root image).

(** ** Reading through a lease *)
(** [Weak::upgrade]: the states that have a strong reference. *)
Definition alive (held : list (LeaseState K V)) s : list (LeaseState K V) := (Prelude.entries (rs_pins s)).*2 ++ held.
Definition upgrade (held : list (LeaseState K V)) s lease : option (LeaseState K V) :=
  snd <$> list_find (λ st, sl_state lease = le_address st) (alive held s).
Definition checked_state (held : list (LeaseState K V)) lease (now : N) : Fallible (RangeStore K V) MemoryError (LeaseState K V) := λ s,
  match upgrade held s lease with
  | None => (Err MemoryError.LeaseExpired, s)
  | Some st =>
      let s := with_leases (rs_pins s) (rs_next_lease s) (N.max (rs_clock s) now) s in
      (if decide (le_expires_at st <= rs_clock s) then Err MemoryError.LeaseExpired else Ok st, s)
  end.
(** [SnapshotLease::hold] and [LeaseHold::get]. *)
Definition hold (held : list (LeaseState K V)) lease (now : N) := checked_state held lease now.
Definition hold_get st (k : K) : option (Entry K V) := root_get (le_root st) k.
Definition project_from {R} (held : list (LeaseState K V)) lease (start : option K) (exclusive : bool) (stop : K) (now : N)
    (project : Entry K V → R) : Fallible (RangeStore K V) MemoryError (option R) :=
  st ← checked_state held lease now;
  let '(page, offset) := root_seek (le_root st) start exclusive in
  mret (project <$> (e ← head (root_from (le_root st) page offset); if decide (key_lt (en_key e) stop) then Some e else None)).
Definition project_next {R} (held : list (LeaseState K V)) lease (start : K) (exclusive : bool) (stop : K) (now : N)
    (project : Entry K V → R) : Fallible (RangeStore K V) MemoryError (option R) :=
  project_from held lease (Some start) exclusive stop now project.
End Registry.

(** ** Pages of a read *)
Record ReadBudget := { bu_max_items : N; bu_max_bytes : N; bu_max_edge_visits : N }.
Definition read_budget_default : ReadBudget := {| bu_max_items := 256; bu_max_bytes := 256 * 1024; bu_max_edge_visits := 1024 |}.
Definition read_budget_bounded (budget : ReadBudget) (config : RangeConfig) : Try MemoryError ReadBudget :=
  refuse_if (bu_max_items budget = 0 ∨ bu_max_bytes budget = 0 ∨ bu_max_edge_visits budget = 0)
    (MemoryError.InvalidConfiguration "read budgets must be nonzero");;
  mret {| bu_max_items := N.min (bu_max_items budget) (max_query_items config); bu_max_bytes := N.min (bu_max_bytes budget) (max_query_bytes config);
          bu_max_edge_visits := N.min (bu_max_edge_visits budget) (max_traversal_edges config) |}.
Record ScanQuery (K : Type) := { sq_start : option K; sq_end : option K; sq_heap_bytes : N }.
Arguments sq_start {_} _.
Arguments sq_end {_} _.
Arguments sq_heap_bytes {_} _.
#[export] Instance scan_query_eq_dec K `{EqDecision K} : EqDecision (ScanQuery K).
Proof. solve_decision. Defined.
Definition scan_query_all {K} : ScanQuery K := {| sq_start := None; sq_end := None; sq_heap_bytes := 0 |}.
Record ScanContinuation (K : Type) := { sc_range : N; sc_lease : N; sc_prefix : N; sc_query : ScanQuery K; sc_after : K }.
Arguments sc_range {_} _.
Arguments sc_lease {_} _.
Arguments sc_prefix {_} _.
Arguments sc_query {_} _.
Arguments sc_after {_} _.
Record ReadPage (K V : Type) := { pa_prefix : N; pa_items : list (Entry K V); pa_continuation : option (ScanContinuation K) }.
Arguments pa_prefix {_ _} _.
Arguments pa_items {_ _} _.
Arguments pa_continuation {_ _} _.

Section Scans.
Context {K V : Type} `{RangeKey K, Funding, PageSizes, SnapshotSizes}.
Implicit Types (s : RangeStore K V) (st : LeaseState K V) (lease : SnapshotLease) (e : Entry K V).
Definition read_bytes e : Try MemoryError N := charge_add size_of_Entry (en_heap_bytes e).
Definition response_allocation (entry_bytes : N) : Fallible fund MemoryError () :=
  page ← lift (charge_add size_of_ReadPage entry_bytes);
  charge ← lift (charge_add ALLOCATOR_OVERHEAD page);
  fund_reserve BudgetKind.Query BudgetLane.Ordinary charge.
Definition lease_get (held : list (LeaseState K V)) lease (k : K) (now : N) : Fallible (RangeStore K V * fund) MemoryError (ReadPage K V) :=
  st ← in_store (checked_state held lease now);
  let found := root_get (le_root st) k in
  bytes ← lift (match found with Some e => read_bytes e | None => mret 0 end);
  lift (refuse_if (max_query_bytes (le_config st) < bytes) (MemoryError.ItemTooLarge bytes (max_query_bytes (le_config st))));;
  in_fund (response_allocation bytes);;
  mret {| pa_prefix := ro_prefix (le_root st); pa_items := match found with Some e => [e] | None => [] end; pa_continuation := None |}.
(** Where the loop of a scan stands. *)
Record ScanState := { sn_count : N; sn_bytes : N; sn_last : option (Entry K V); sn_more : bool }.
Fixpoint scan_rows (budget : ReadBudget) (stop : option K) (l : list (Entry K V)) (acc : ScanState) : Try MemoryError ScanState :=
  match l with
  | [] => mret acc
  | e :: l =>
      if is_some_and (λ stop, bool_decide (key_le stop (en_key e))) stop then mret acc else
      size ← read_bytes e;
      next_bytes ← charge_add (sn_bytes acc) size;
      if decide (sn_count acc = bu_max_items budget ∨ bu_max_bytes budget < next_bytes) then
        refuse_if (sn_count acc = 0) (MemoryError.ItemTooLarge next_bytes (bu_max_bytes budget));;
        mret {| sn_count := sn_count acc; sn_bytes := sn_bytes acc; sn_last := sn_last acc; sn_more := true |}
      else
        count ← charge_add (sn_count acc) 1;
        scan_rows budget stop l {| sn_count := count; sn_bytes := next_bytes; sn_last := Some e; sn_more := sn_more acc |}
  end.
Definition check_cursor lease (query : ScanQuery K) (cursor : ScanContinuation K) : Try MemoryError () :=
  refuse_if (sc_range cursor ≠ sl_range lease ∨ sc_lease cursor ≠ sl_id lease ∨ sc_prefix cursor ≠ sl_prefix lease) MemoryError.WrongLease;;
  refuse_if (sc_query cursor ≠ query) MemoryError.QueryMismatch.
(** The continuation after the last row of a page. *)
Definition continue_after lease (query : ScanQuery K) (config : RangeConfig) (last : option (Entry K V)) : Fallible fund MemoryError (ScanContinuation K) :=
  last ← lift (or_fail last MemoryError.MissingKey);
  heaps ← lift (charge_add (sq_heap_bytes query) (en_heap_bytes last));
  inner ← lift (charge_add size_of_ScanContinuation heaps);
  charge ← lift (charge_add ALLOCATOR_OVERHEAD inner);
  lift (refuse_if (max_continuation_bytes config < charge) (MemoryError.Capacity charge (max_continuation_bytes config)));;
  fund_reserve BudgetKind.Query BudgetLane.Ordinary charge;;
  mret {| sc_range := sl_range lease; sc_lease := sl_id lease; sc_prefix := sl_prefix lease; sc_query := query; sc_after := en_key last |}.
Definition scan (held : list (LeaseState K V)) lease (query : ScanQuery K) (budget : ReadBudget) (continuation : option (ScanContinuation K)) (now : N) :
    Fallible (RangeStore K V * fund) MemoryError (ReadPage K V) :=
  st ← in_store (checked_state held lease now);
  budget ← lift (read_budget_bounded budget (le_config st));
  lift (refuse_if (match sq_start query, sq_end query with Some start, Some stop => bool_decide (key_lt stop start) | _, _ => false end = true)
    (MemoryError.InvalidConfiguration "scan start is after its end"));;
  lift (match continuation with Some cursor => check_cursor lease query cursor | None => mret () end);;
  let '(page, offset) := match continuation with
                         | Some cursor => root_seek (le_root st) (Some (sc_after cursor)) true
                         | None => root_seek (le_root st) (sq_start query) false
                         end in
  let rows := root_from (le_root st) page offset in
  acc ← lift (scan_rows budget (sq_end query) rows {| sn_count := 0; sn_bytes := 0; sn_last := None; sn_more := false |});
  in_fund (response_allocation (sn_bytes acc));;
  next ← (if sn_more acc then cursor ← in_fund (continue_after lease query (le_config st) (sn_last acc)); mret (Some cursor) else mret None);
  mret {| pa_prefix := ro_prefix (le_root st); pa_items := take (N.to_nat (sn_count acc)) rows; pa_continuation := next |}.
End Scans.

(** ** Traversals *)
Record TraversalQuery (K : Type) := { tq_root : K; tq_fingerprint : list N }.
Arguments tq_root {_} _.
Arguments tq_fingerprint {_} _.
#[export] Instance traversal_query_eq_dec K `{EqDecision K} : EqDecision (TraversalQuery K).
Proof. solve_decision. Defined.
Record TraversalLimits := { tl_max_depth : N; tl_max_nodes : N; tl_max_edges : N; tl_max_state_bytes : N }.
#[export] Instance traversal_limits_eq_dec : EqDecision TraversalLimits.
Proof. solve_decision. Defined.
Definition traversal_limits_default : TraversalLimits :=
  {| tl_max_depth := 32; tl_max_nodes := 4096; tl_max_edges := 16384; tl_max_state_bytes := 1024 * 1024 |}.
Definition traversal_limits_bounded (limits : TraversalLimits) (config : RangeConfig) : Try MemoryError TraversalLimits :=
  refuse_if (tl_max_nodes limits = 0 ∨ tl_max_edges limits = 0 ∨ tl_max_state_bytes limits = 0)
    (MemoryError.InvalidConfiguration "traversal cumulative limits must be nonzero");;
  mret {| tl_max_depth := N.min (tl_max_depth limits) (max_traversal_depth config); tl_max_nodes := N.min (tl_max_nodes limits) (max_traversal_nodes config);
          tl_max_edges := N.min (tl_max_edges limits) (max_traversal_edges config);
          tl_max_state_bytes := N.min (tl_max_state_bytes limits) (max_continuation_bytes config) |}.
Module TraversalStop.
Inductive t := Complete | PageLimit | DepthLimit | EdgeLimit | NodeLimit | StateLimit.
#[export] Instance traversal_stop_eq_dec : EqDecision t.
Proof. solve_decision. Defined.
End TraversalStop.
Notation TraversalStop := TraversalStop.t.
Export (hints) TraversalStop.
Record PendingNode (K : Type) := { pn_key : K; pn_depth : N; pn_after : option K; pn_emitted : bool }.
Arguments pn_key {_} _.
Arguments pn_depth {_} _.
Arguments pn_after {_} _.
Arguments pn_emitted {_} _.
Record TraversalContinuation (K : Type) `{Countable K} := {
  tc_range : N; tc_lease : N; tc_prefix : N; tc_query : TraversalQuery K; tc_limits : TraversalLimits; tc_queue : list (PendingNode K);
  tc_visited : gset K; tc_current : option (PendingNode K); tc_edge_visits : N; tc_depth_pruned : bool; tc_estimated_bytes : N
}.
Arguments tc_range {_ _ _} _.
Arguments tc_lease {_ _ _} _.
Arguments tc_prefix {_ _ _} _.
Arguments tc_query {_ _ _} _.
Arguments tc_limits {_ _ _} _.
Arguments tc_queue {_ _ _} _.
Arguments tc_visited {_ _ _} _.
Arguments tc_current {_ _ _} _.
Arguments tc_edge_visits {_ _ _} _.
Arguments tc_depth_pruned {_ _ _} _.
Arguments tc_estimated_bytes {_ _ _} _.
Record TraversalPage (K V : Type) `{Countable K} := {
  tp_prefix : N; tp_items : list (Entry K V); tp_continuation : option (TraversalContinuation K); tp_stop : TraversalStop;
  tp_edge_visits : N; tp_total_edge_visits : N
}.
Arguments tp_prefix {_ _ _ _} _.
Arguments tp_items {_ _ _ _} _.
Arguments tp_continuation {_ _ _ _} _.
Arguments tp_stop {_ _ _ _} _.
Arguments tp_edge_visits {_ _ _ _} _.
Arguments tp_total_edge_visits {_ _ _ _} _.

Section Traversals.
Context {K V : Type} `{RangeKey K, Funding, PageSizes, SnapshotSizes}.
Implicit Types (s : RangeStore K V) (st : LeaseState K V) (lease : SnapshotLease) (cursor : TraversalContinuation K) (node : PendingNode K).
Definition discovered_charge (key_heap_bytes : N) : Try MemoryError N :=
  keys ← charge_mul 3 key_heap_bytes;
  slot ← charge_add size_of_Key size_of_usize;
  node ← charge_mul 16 slot;
  inner ← charge_add ALLOCATOR_OVERHEAD node;
  charge_add keys inner.
Definition on_cursor (queue : list (PendingNode K)) (visited : gset K) (current : option (PendingNode K)) (edge_visits : N) (pruned : bool)
    (estimated : N) cursor : TraversalContinuation K :=
  {| tc_range := tc_range cursor; tc_lease := tc_lease cursor; tc_prefix := tc_prefix cursor; tc_query := tc_query cursor; tc_limits := tc_limits cursor;
     tc_queue := queue; tc_visited := visited; tc_current := current; tc_edge_visits := edge_visits; tc_depth_pruned := pruned;
     tc_estimated_bytes := estimated |}.
Definition with_current (current : option (PendingNode K)) cursor : TraversalContinuation K :=
  on_cursor (tc_queue cursor) (tc_visited cursor) current (tc_edge_visits cursor) (tc_depth_pruned cursor) (tc_estimated_bytes cursor) cursor.
Definition pruned cursor : TraversalContinuation K :=
  on_cursor (tc_queue cursor) (tc_visited cursor) None (tc_edge_visits cursor) true (tc_estimated_bytes cursor) cursor.
Definition visited_edge (edge_visits : N) cursor : TraversalContinuation K :=
  on_cursor (tc_queue cursor) (tc_visited cursor) (tc_current cursor) edge_visits (tc_depth_pruned cursor) (tc_estimated_bytes cursor) cursor.
Definition after_node (k : K) node : PendingNode K := {| pn_key := pn_key node; pn_depth := pn_depth node; pn_after := Some k; pn_emitted := pn_emitted node |}.
Definition emitted_node node : PendingNode K := {| pn_key := pn_key node; pn_depth := pn_depth node; pn_after := pn_after node; pn_emitted := true |}.

Definition start_traversal lease st (query : TraversalQuery K) (limits : TraversalLimits) : Fallible fund MemoryError (TraversalContinuation K) :=
  root ← lift (or_fail (root_get (le_root st) (tq_root query)) MemoryError.MissingKey);
  fixed ← lift (charge_add size_of_TraversalContinuation ALLOCATOR_OVERHEAD);
  nodes ← lift (charge_mul (tl_max_nodes limits) size_of_PendingNode);
  discovered ← lift (discovered_charge (en_heap_bytes root));
  inner ← lift (charge_add nodes discovered);
  keyed ← lift (charge_add (en_heap_bytes root) inner);
  estimated ← lift (charge_add fixed keyed);
  lift (refuse_if (tl_max_state_bytes limits < estimated) (MemoryError.Capacity estimated (tl_max_state_bytes limits)));;
  fund_reserve BudgetKind.Query BudgetLane.Ordinary (tl_max_state_bytes limits);;
  mret {| tc_range := sl_range lease; tc_lease := sl_id lease; tc_prefix := sl_prefix lease; tc_query := query; tc_limits := limits;
          tc_queue := [{| pn_key := en_key root; pn_depth := 0; pn_after := None; pn_emitted := false |}]; tc_visited := {[en_key root]};
          tc_current := None; tc_edge_visits := 0; tc_depth_pruned := false; tc_estimated_bytes := estimated |}.
(** Where the loop of a page stands, and what a turn of it does. *)
Record TraversalState := { tv_cursor : TraversalContinuation K; tv_items : list (Entry K V); tv_bytes : N; tv_probes : N }.
Inductive Turn := Again (t : TraversalState) | Stop (stop : TraversalStop) (t : TraversalState).
(** [next_neighbor], then what is made of its answer. *)
Definition visit_neighbor st (limits : TraversalLimits) (next_neighbor : K → V → option K → Try MemoryError (option K))
    (node : PendingNode K) (value : V) (t : TraversalState) : Try MemoryError Turn :=
  let cursor := tv_cursor t in
  next ← next_neighbor (pn_key node) value (pn_after node);
  probes ← charge_add (tv_probes t) 1;
  edge_visits ← charge_add (tc_edge_visits cursor) 1;
  let cursor := visited_edge edge_visits cursor in
  let again cursor := mret (Again {| tv_cursor := cursor; tv_items := tv_items t; tv_bytes := tv_bytes t; tv_probes := probes |}) in
  let stop why := mret (Stop why {| tv_cursor := cursor; tv_items := tv_items t; tv_bytes := tv_bytes t; tv_probes := probes |}) in
  match next with
  | None => again (with_current None cursor)
  | Some neighbor =>
      refuse_if (is_some_and (λ after, bool_decide (key_le neighbor after)) (pn_after node) = true) MemoryError.InvalidNeighbors;;
      if decide (pn_depth node = tl_max_depth limits) then again (pruned cursor) else
      entry ← or_fail (root_get (le_root st) neighbor) MemoryError.MissingKey;
      if decide (neighbor ∈ tc_visited cursor) then again (with_current (Some (after_node neighbor node)) cursor) else
      if decide (N.of_nat (size (tc_visited cursor)) = tl_max_nodes limits) then stop TraversalStop.NodeLimit else
      charge ← discovered_charge (en_heap_bytes entry);
      new_bytes ← charge_add (tc_estimated_bytes cursor) charge;
      if decide (tl_max_state_bytes limits < new_bytes) then stop TraversalStop.StateLimit else
      depth ← or_fail (if pn_depth node <? 2 ^ 32 - 1 then Some (pn_depth node + 1) else None) (MemoryError.CounterExhausted "traversal depth");
      again (on_cursor (tc_queue cursor ++ [{| pn_key := neighbor; pn_depth := depth; pn_after := None; pn_emitted := false |}])
        ({[neighbor]} ∪ tc_visited cursor) (Some (after_node neighbor node)) (tc_edge_visits cursor) (tc_depth_pruned cursor) new_bytes cursor)
  end.
(** The node whose neighbours are being listed, the next of the queue where there
    is none. *)
Definition next_node cursor : TraversalContinuation K :=
  match tc_current cursor, tc_queue cursor with
  | Some _, _ | None, [] => cursor
  | None, node :: queue => on_cursor queue (tc_visited cursor) (Some node) (tc_edge_visits cursor) (tc_depth_pruned cursor) (tc_estimated_bytes cursor) cursor
  end.
(** The row of a node, put on the page once; [None] where the page is full. *)
Definition emit_row (budget : ReadBudget) node (entry : Entry K V) (t : TraversalState) : Try MemoryError (option (PendingNode K * TraversalState)) :=
  if pn_emitted node then mret (Some (node, t)) else
  size ← read_bytes entry;
  next_bytes ← charge_add (tv_bytes t) size;
  if decide (N.of_nat (length (tv_items t)) = bu_max_items budget ∨ bu_max_bytes budget < next_bytes) then
    refuse_if (tv_items t = []) (MemoryError.ItemTooLarge next_bytes (bu_max_bytes budget));;
    mret None
  else
    mret (Some (emitted_node node, {| tv_cursor := with_current (Some (emitted_node node)) (tv_cursor t); tv_items := tv_items t ++ [entry];
                                      tv_bytes := next_bytes; tv_probes := tv_probes t |})).
Definition turn st (limits : TraversalLimits) (budget : ReadBudget) (next_neighbor : K → V → option K → Try MemoryError (option K))
    (t : TraversalState) : Try MemoryError Turn :=
  let cursor := next_node (tv_cursor t) in
  let t := {| tv_cursor := cursor; tv_items := tv_items t; tv_bytes := tv_bytes t; tv_probes := tv_probes t |} in
  match tc_current cursor with
  | None => mret (Stop (if tc_depth_pruned cursor then TraversalStop.DepthLimit else TraversalStop.Complete) t)
  | Some node =>
      entry ← or_fail (root_get (le_root st) (pn_key node)) MemoryError.MissingKey;
      emitted ← emit_row budget node entry t;
      match emitted with
      | None => mret (Stop TraversalStop.PageLimit t)
      | Some (node, t) =>
          if decide (tv_probes t = bu_max_edge_visits budget) then mret (Stop TraversalStop.PageLimit t) else
          if decide (tc_edge_visits (tv_cursor t) = tl_max_edges limits) then mret (Stop TraversalStop.EdgeLimit t) else
          visit_neighbor st limits next_neighbor node (en_value entry) t
      end
  end.
(** The loop: a turn that goes on has made a probe, so one turn more than the
    page may make is enough. *)
Fixpoint turns (fuel : nat) st (limits : TraversalLimits) (budget : ReadBudget) (next_neighbor : K → V → option K → Try MemoryError (option K))
    (t : TraversalState) : Try MemoryError (option (TraversalStop * TraversalState)) :=
  match fuel with
  | O => mret None
  | S fuel =>
      next ← turn st limits budget next_neighbor t;
      match next with
      | Stop stop t => mret (Some (stop, t))
      | Again t => turns fuel st limits budget next_neighbor t
      end
  end.
Definition check_traversal lease (query : TraversalQuery K) (limits : TraversalLimits) cursor : Try MemoryError () :=
  refuse_if (tc_range cursor ≠ sl_range lease ∨ tc_lease cursor ≠ sl_id lease ∨ tc_prefix cursor ≠ sl_prefix lease) MemoryError.WrongLease;;
  refuse_if (tc_query cursor ≠ query ∨ tc_limits cursor ≠ limits) MemoryError.QueryMismatch.
Definition entry_vector_charge (count : N) : Try MemoryError N :=
  rows ← charge_mul count size_of_Entry; charge_add ALLOCATOR_OVERHEAD rows.
Definition traverse (held : list (LeaseState K V)) lease (query : TraversalQuery K) (limits : TraversalLimits) (budget : ReadBudget)
    (continuation : option (TraversalContinuation K)) (now : N) (next_neighbor : K → V → option K → Try MemoryError (option K)) :
    Fallible (RangeStore K V * fund) MemoryError (option (TraversalPage K V)) :=
  st ← in_store (checked_state held lease now);
  limits ← lift (traversal_limits_bounded limits (le_config st));
  budget ← lift (read_budget_bounded budget (le_config st));
  cursor ← (match continuation with
            | Some cursor => lift (check_traversal lease query limits cursor);; mret cursor
            | None => in_fund (start_traversal lease st query limits)
            end);
  let capacity := N.min (bu_max_items budget) (N.of_nat (ro_len (le_root st))) in
  vector ← lift (entry_vector_charge capacity);
  inner ← lift (charge_add (bu_max_bytes budget) vector);
  response ← lift (charge_add size_of_TraversalPage inner);
  in_fund (fund_reserve BudgetKind.Query BudgetLane.Ordinary response);;
  let start := {| tv_cursor := cursor; tv_items := []; tv_bytes := 0; tv_probes := 0 |} in
  ended ← lift (turns (S (N.to_nat (bu_max_edge_visits budget))) st limits budget next_neighbor start);
  mret ((λ '(stop, t),
    {| tp_prefix := sl_prefix lease; tp_items := tv_items t;
       tp_continuation := if decide (stop = TraversalStop.PageLimit) then Some (tv_cursor t) else None; tp_stop := stop;
       tp_edge_visits := tv_probes t; tp_total_edge_visits := tc_edge_visits (tv_cursor t) |}) <$> ended).
End Traversals.
