(* ===== verification/SnapshotLaws.v ===== *)
(** * Laws of snapshot leases

    What the steps of a store do to the states its leases refer to, what the pages
    of a scan have, and what the pages of a traversal have. *)
From stdpp Require Import prelude gmap strings list sorting relations.
From Stdlib Require Import NArith.
From S2P Require Import Prelude Fallible Objects Budget Pages PageDirectory PageTree PageEdits PageEditing PageStore PageRows PageBuilds Snapshots.

(** ** Worlds

    A store, the budget's state and the states that running reads keep. *)
Record World (K V : Type) `{Funding} := { wo_store : RangeStore K V; wo_fund : fund; wo_held : list (LeaseState K V) }.
Arguments wo_store {_ _ _} _.
Arguments wo_fund {_ _ _} _.
Arguments wo_held {_ _ _} _.

Section Worlds.
Context {K V : Type} `{RangeKey K, F : Funding, PageSizes, SnapshotSizes}.
Implicit Types (s : RangeStore K V) (st : LeaseState K V) (lease : SnapshotLease) (w : World K V) (held : list (LeaseState K V)).
Definition world s (f : fund) held : World K V := {| wo_store := s; wo_fund := f; wo_held := held |}.
Definition living w : list (LeaseState K V) := alive (wo_held w) (wo_store w).
(** What may happen while a lease at address [a] is out: batches are published,
    leases pinned, released and held by reads, the clock advances, and others use
    the budget. The handle keeps its address taken. The lease itself is released
    only where [released]. *)
Inductive step (released : bool) (a : N) : World K V → World K V → Prop :=
  | step_publish s f held q : step released a (world s f held) (world (publish q s).2 f held)
  | step_batch s f held prefix cs capacity lane address s' f' x :
      apply_batch prefix cs capacity lane address (s, f) = (x, (s', f')) → step released a (world s f held) (world s' f' held)
  | step_clock s f held now : step released a (world s f held) (world (store_advance_clock now s).2 f held)
  | step_pin s f held now ttl address s' f' x : address ≠ a → address ∉ le_address <$> alive held s →
      pin now ttl address (s, f) = (x, (s', f')) → step released a (world s f held) (world s' f' held)
  | step_release s f held lease : (sl_state lease = a → released = true) → step released a (world s f held) (world (release lease s).2 f held)
  | step_read s f held lease now : step released a (world s f held) (world (checked_state held lease now s).2 f held)
  | step_hold s f held lease now st s' : hold held lease now s = (Ok st, s') → step released a (world s f held) (world s' f (st :: held))
  | step_drop s f held i : step released a (world s f held) (world s f (delete i held))
  | step_fund s f held f' : step released a (world s f held) (world s f' held).

(** ** The states of a store *)
Lemma elem_of_alive held s st : st ∈ alive held s ↔ (∃ i, rs_pins s !! i = Some st) ∨ st ∈ held.
Proof.
  unfold alive. by rewrite elem_of_app, elem_of_entries_snd.
Qed.
Lemma publish_leases q s : rs_pins (publish q s).2 = rs_pins s ∧ rs_next_lease (publish q s).2 = rs_next_lease s ∧ rs_clock (publish q s).2 = rs_clock s.
Proof. unfold publish, errors_as, publish_recoverable. by repeat case_decide. Qed.
Lemma apply_batch_leases prefix cs capacity lane address s f x s' f' : apply_batch prefix cs capacity lane address (s, f) = (x, (s', f')) →
  rs_pins s' = rs_pins s ∧ rs_next_lease s' = rs_next_lease s ∧ rs_clock s' = rs_clock s.
Proof.
  unfold apply_batch. destruct (prepare_batch s prefix cs capacity lane address f) as [[q|e] f1]; [|by intros [= _ <- _]].
  pose proof (publish_leases q s) as Hq. destruct (publish q s) as [y s2]. intros [= _ <- _]. exact Hq.
Qed.
(** The clock's step: it never goes back, and drops what has expired. *)
Lemma clock_step now s : let s' := (store_advance_clock now s).2 in
  rs_clock s' = N.max (rs_clock s) now ∧ rs_next_lease s' = rs_next_lease s ∧ rs_root s' = rs_root s ∧ rs_config s' = rs_config s ∧
  (∀ i st, rs_pins s' !! i = Some st → rs_pins s !! i = Some st) ∧
  ∀ i st, rs_pins s !! i = Some st → (rs_clock s' < le_expires_at st)%N → rs_pins s' !! i = Some st.
Proof.
  unfold store_advance_clock. case_decide as Hback; simpl; split_and!; try done.
  - intros i st [Hi _]%map_lookup_filter_Some. exact Hi.
  - intros i st Hi Hlt. apply map_lookup_filter_Some. split; [done|]. lia.
Qed.
Lemma pin_ok now ttl address s f lease s' f' : pin now ttl address (s, f) = (Ok lease, (s', f')) →
  ∃ st, le_address st = address ∧ le_root st = rs_root s ∧ le_id st = rs_next_lease s ∧ le_expires_at st = (now + ttl)%N ∧ le_config st = rs_config s ∧
  lease = lease_of st ∧ rs_clock s' = now ∧ (0 < ttl)%N ∧ rs_next_lease s' = (rs_next_lease s + 1)%N ∧
  rs_pins s' = <[rs_next_lease s := st]> (rs_pins (store_advance_clock now s).2).
Proof.
  unfold pin. pose proof (clock_step now s) as (Hclock & Hnext & Hroot & Hcfg & _).
  assert (Hnow : ∀ x, (store_advance_clock now s).1 = Ok x → (rs_clock s <= now)%N).
  { intros x. unfold store_advance_clock. case_decide; [done|]. intros _. lia. }
  intros (n & [s2 f2] & Hu & Hp)%fallible_bind_ok. unfold in_store in Hu. destruct (store_advance_clock now s) as [x s1].
  injection Hu as -> <- <-. simpl in *. specialize (Hnow n eq_refl). apply fallible_bind_ok in Hp as ([s2 f2] & y & [= <- <- <-] & Hp).
  apply fallible_bind_ok in Hp as ([] & y & [Httl%refuse_if_ok ->]%lift_ok & Hp). apply fallible_bind_ok in Hp as ([] & y & [_ ->]%lift_ok & Hp).
  apply fallible_bind_ok in Hp as (expires & y & [[-> Hu]%or_fail_ok%checked_add_Some ->]%lift_ok & Hp).
  apply fallible_bind_ok in Hp as (next & y & [[-> Hu']%or_fail_ok%checked_add_Some ->]%lift_ok & Hp).
  apply fallible_bind_ok in Hp as (charge & y & [_ ->]%lift_ok & Hp). apply fallible_bind_ok in Hp as ([] & [s3 f3] & Hf & Hp).
  unfold in_fund in Hf. destruct (fund_reserve _ _ _ f) as [x f4]. injection Hf as -> <- <-.
  apply fallible_bind_ok in Hp as ([] & [s4 f5] & [= <- <-] & [= <- <- _]). eexists. by split_and!; simpl; try done; rewrite ?Hnext, ?Hclock; try done; lia.
Qed.
Lemma pin_failed now ttl address s f e s' f' : pin now ttl address (s, f) = (Err e, (s', f')) → s' = (store_advance_clock now s).2.
Proof.
  unfold pin, mbind, fallible_bind, in_store at 1. destruct (store_advance_clock now s) as [[n|e'] s1]; [|by intros [= _ <- _]]. simpl.
  repeat (unfold lift; match goal with |- context [match ?x with Ok _ => _ | Err _ => _ end] => destruct x; [|by intros [= _ <- _]] end; simpl).
  unfold in_fund. destruct (fund_reserve _ _ _ f) as [[[]|] f1]; by intros [= _ <- _].
Qed.
(** A pin leaves the rows as they are. *)
Lemma lease_pin_keeps now ttl address s f x s' f' : pin now ttl address (s, f) = (x, (s', f')) → rs_root s' = rs_root s ∧ rs_config s' = rs_config s ∧ rs_partition s' = rs_partition s.
Proof.
  assert (Hclock : ∀ y s1, store_advance_clock now s = (y, s1) → rs_root s1 = rs_root s ∧ rs_config s1 = rs_config s ∧ rs_partition s1 = rs_partition s).
  { intros y s1. unfold store_advance_clock. case_decide; by intros [= _ <-]. }
  unfold pin, mbind, fallible_bind, in_store at 1. destruct (store_advance_clock now s) as [[n|e'] s1] eqn:Hs; specialize (Hclock _ _ eq_refl); [|by intros [= _ <- _]]. simpl.
  repeat (unfold lift; match goal with |- context [match ?x with Ok _ => _ | Err _ => _ end] => destruct x; [|by intros [= _ <- _]] end; simpl).
  unfold in_fund. destruct (fund_reserve _ _ _ f) as [[[]|] f1]; by intros [= _ <- _].
Qed.
Lemma release_step lease s : let s' := (release lease s).2 in
  rs_clock s' = rs_clock s ∧ rs_next_lease s' = rs_next_lease s ∧
  (rs_pins s' = rs_pins s ∨ ∃ st, rs_pins s !! sl_id lease = Some st ∧ le_address st = sl_state lease ∧ rs_pins s' = delete (sl_id lease) (rs_pins s)).
Proof.
  unfold release, mbind, fallible_bind, gets, lift, modify. simpl.
  destruct (refuse_if (sl_range lease ≠ _) _); simpl; [|by split_and!; [done|done|left]].
  destruct (rs_pins s !! sl_id lease) as [st|] eqn:E; simpl; [|by split_and!; [done|done|left]].
  destruct (refuse_if (lease_matches lease st = false) _) eqn:Hm; simpl; [|by split_and!; [done|done|left]].
  split_and!; [done|done|]. right. exists st. split_and!; [done| |done]. apply refuse_if_ok, not_false_is_true, N.eqb_eq in Hm. done.
Qed.
Lemma checked_step held lease now s : let s' := (checked_state held lease now s).2 in
  rs_pins s' = rs_pins s ∧ rs_next_lease s' = rs_next_lease s ∧ (rs_clock s <= rs_clock s')%N ∧ rs_root s' = rs_root s.
Proof. unfold checked_state. destruct (upgrade held s lease); simpl; split_and!; try done; lia. Qed.
(** ** A lease along the steps *)
Lemma upgrade_Some held s lease st : upgrade held s lease = Some st → st ∈ alive held s ∧ le_address st = sl_state lease.
Proof.
  unfold upgrade. intros ([i st'] & (Hi & Ha & _)%list_find_Some & ->)%fmap_Some. split; [by eapply list_elem_of_lookup_2|done].
Qed.
Lemma upgrade_None held s lease : upgrade held s lease = None ↔ ∀ st, st ∈ alive held s → le_address st ≠ sl_state lease.
Proof.
  unfold upgrade. rewrite fmap_None, list_find_None, Forall_forall. split; intros Hn st Hst He; by apply (Hn st Hst).
Qed.
Lemma checked_ok held lease now s st s' : checked_state held lease now s = (Ok st, s') →
  upgrade held s lease = Some st ∧ (now < le_expires_at st)%N ∧ s' = (checked_state held lease now s).2.
Proof.
  intros Hc. rewrite Hc. unfold checked_state in Hc. destruct (upgrade held s lease) as [st'|]; [|done]. case_decide as Hx; [done|].
  injection Hc as <- <-. simpl in Hx. split_and!; [done|lia|done].
Qed.
(** Nothing but a pin makes a state, and no pin takes the lease's address. *)
Lemma step_living released a w w' st : step released a w w' → st ∈ living w' → le_address st = a → st ∈ living w.
Proof.
  intros Hstep. unfold living. destruct Hstep as [s f held q|s f held prefix cs capacity lane address s' f' x Hb|s f held now|s f held now ttl address s' f' x Hne _ Hp
    |s f held lease _|s f held lease now|s f held lease now st' s' Hh|s f held i|]; cbn [wo_store wo_held world]; rewrite !elem_of_alive.
  - by rewrite (proj1 (publish_leases q s)).
  - by rewrite (proj1 (apply_batch_leases _ _ _ _ _ _ _ _ _ _ Hb)).
  - pose proof (clock_step now s) as (_ & _ & _ & _ & Hsub & _). intros [[i Hi]|?] _; [|by right]. left. exists i. by apply Hsub.
  - pose proof (clock_step now s) as (_ & _ & _ & _ & Hsub & _). destruct x as [lease|e].
    + apply pin_ok in Hp as (st0 & Ha & _ & _ & _ & _ & _ & _ & _ & _ & ->). intros [[i Hi]|?] He; [|by right]. left.
      destruct (decide (i = rs_next_lease s)) as [->|]; [rewrite lookup_insert_eq in Hi; congruence|]. rewrite lookup_insert_ne in Hi by done. exists i. by apply Hsub.
    + apply pin_failed in Hp as ->. intros [[i Hi]|?] _; [|by right]. left. exists i. by apply Hsub.
  - pose proof (release_step lease s) as (_ & _ & [->|(st0 & _ & _ & ->)]); [done|]. intros [[i [_ Hi]%lookup_delete_Some]|?] _; [|by right]. left. by exists i.
  - by rewrite (proj1 (checked_step held lease now s)).
  - apply checked_ok in Hh as ([Hal _]%upgrade_Some & _ & ->). rewrite (proj1 (checked_step held lease now s)), elem_of_cons.
    intros [?|[->|?]] _; [by left|by apply elem_of_alive|by right].
  - intros [?|Hi] _; [by left|]. right. by eapply list_elem_of_delete_inv.
  - done.
Qed.
Lemma step_clocks released a w w' : step released a w w' → (rs_clock (wo_store w) <= rs_clock (wo_store w'))%N.
Proof.
  intros Hstep. destruct Hstep as [s f held q|s f held prefix cs capacity lane address s' f' x Hb|s f held now|s f held now ttl address s' f' x _ _ Hp
    |s f held lease _|s f held lease now|s f held lease now st' s' Hh|s f held i|]; cbn [wo_store wo_held world].
  - by rewrite (proj2 (proj2 (publish_leases q s))).
  - by rewrite (proj2 (proj2 (apply_batch_leases _ _ _ _ _ _ _ _ _ _ Hb))).
  - rewrite (proj1 (clock_step now s)). lia.
  - pose proof (proj1 (clock_step now s)) as Hc. destruct x as [lease|e]; [|apply pin_failed in Hp as ->; lia].
    apply pin_ok in Hp as Hp'. destruct Hp' as (st0 & _ & _ & _ & _ & _ & _ & -> & _).
    assert (¬ (now < rs_clock s)%N); [|lia]. intros Hlt. unfold pin, in_store, store_advance_clock, mbind, fallible_bind in Hp. by rewrite decide_True in Hp.
  - by rewrite (proj1 (release_step lease s)).
  - apply checked_step.
  - apply checked_ok in Hh as (_ & _ & ->). apply checked_step.
  - done.
  - done.
Qed.
(** A lease that is not released stays in the registry until it expires. *)
Definition registered st w : Prop := (le_id st < rs_next_lease (wo_store w))%N ∧
  ((rs_clock (wo_store w) < le_expires_at st)%N → rs_pins (wo_store w) !! le_id st = Some st).
Lemma step_registered w w' st : step false (le_address st) w w' → registered st w → registered st w'.
Proof.
  intros Hstep [Hid Hin]. pose proof (step_clocks _ _ _ _ Hstep) as Hmono. unfold registered.
  destruct Hstep as [s f held q|s f held prefix cs capacity lane address s' f' x Hb|s f held now|s f held now ttl address s' f' x _ _ Hp
    |s f held lease Hr|s f held lease now|s f held lease now st' s' Hh|s f held i|]; cbn [wo_store wo_held world] in *.
  - destruct (publish_leases q s) as (-> & -> & ->). done.
  - destruct (apply_batch_leases _ _ _ _ _ _ _ _ _ _ Hb) as (-> & -> & ->). done.
  - pose proof (clock_step now s) as (_ & -> & _ & _ & _ & Hkeep). split; [done|]. intros Hlt. apply Hkeep; [|done]. apply Hin. lia.
  - pose proof (clock_step now s) as (Hc & Hn & _ & _ & _ & Hkeep). destruct x as [lease|e].
    + apply pin_ok in Hp as (st0 & _ & _ & _ & _ & _ & _ & Hc' & _ & -> & ->). split; [lia|]. intros Hlt. rewrite lookup_insert_ne by lia.
      apply Hkeep; [apply Hin; lia|]. lia.
    + apply pin_failed in Hp as ->. rewrite Hn. split; [done|]. intros Hlt. apply Hkeep; [|done]. apply Hin. lia.
  - pose proof (release_step lease s) as (Hc & -> & [->|(st0 & Hst & Ha & ->)]); split; try done; intros Hlt; [apply Hin; lia|].
    rewrite lookup_delete_ne; [apply Hin; lia|]. intros He. rewrite He, Hin in Hst by lia. injection Hst as <-. by specialize (Hr (eq_sym Ha)).
  - pose proof (checked_step held lease now s) as (-> & -> & Hc & _). split; [done|]. intros. apply Hin. lia.
  - apply checked_ok in Hh as (_ & _ & ->). pose proof (checked_step held lease now s) as (-> & -> & Hc & _). split; [done|]. intros. apply Hin. lia.
  - done.
  - done.
Qed.
Lemma steps_living released a w w' st : rtc (step released a) w w' → st ∈ living w' → le_address st = a → st ∈ living w.
Proof. intros Hsteps. induction Hsteps as [|w w1 w' Hstep _ IH]; [done|]. intros Hst Ha. eapply step_living; eauto. Qed.
Lemma steps_clocks released a w w' : rtc (step released a) w w' → (rs_clock (wo_store w) <= rs_clock (wo_store w'))%N.
Proof. intros Hsteps. induction Hsteps as [|w w1 w' Hstep%step_clocks _ IH]; lia. Qed.
Lemma steps_registered w w' st : rtc (step false (le_address st)) w w' → registered st w → registered st w'.
Proof. intros Hsteps. induction Hsteps; [done|]. eauto using step_registered. Qed.
(** Just after a pin. *)
Lemma pin_fresh now ttl address s f held lease s' f' : address ∉ le_address <$> alive held s → pin now ttl address (s, f) = (Ok lease, (s', f')) →
  ∃ st, le_address st = address ∧ le_root st = rs_root s ∧ le_expires_at st = (now + ttl)%N ∧ le_config st = rs_config s ∧ lease = lease_of st ∧
  registered st (world s' f' held) ∧ ∀ st', st' ∈ living (world s' f' held) → le_address st' = address → st' = st.
Proof.
  intros Hfresh (st & Ha & Hr & Hid & Hx & Hcfg & -> & Hc & Ht & Hn & Hpins)%pin_ok. exists st. split_and!; try done.
  - split; cbn [wo_store world]; [lia|]. intros _. by rewrite Hpins, Hid, lookup_insert_eq.
  - intros st'. unfold living. cbn [wo_store wo_held world]. rewrite elem_of_alive. intros Hst' Ha'. 
    assert (Hold : st' ∉ alive held s) by (intros Hold; apply Hfresh; rewrite <-Ha'; by apply list_elem_of_fmap_2).
    rewrite elem_of_alive in Hold. destruct Hst' as [[i Hi]|?]; [|by destruct Hold; right]. rewrite Hpins in Hi.
    apply lookup_insert_Some in Hi as [[_ <-]|[_ Hi]]; [done|]. destruct Hold. left. exists i. by apply clock_step in Hi.
Qed.
End Worlds.

(** ** Scans *)
Section ScanLaws.
Context {K V : Type} `{Laws : RangeKeyLaws K, F : Funding, PageSizes, SnapshotSizes}.
#[local] Set Default Proof Using "Type Laws".
Implicit Types (s : RangeStore K V) (r : Root K V) (st : LeaseState K V) (lease : SnapshotLease) (e : Entry K V) (l : list (Entry K V)) (query : ScanQuery K).
Definition before (stop : option K) e : Prop := match stop with Some stop => key_lt (en_key e) stop | None => True end.
#[global] Instance before_dec stop e : Decision (before stop e).
Proof. destruct stop; apply _. Defined.
(** Where a page starts: at the query's start, or past the last row read. *)
Definition position query (cont : option (ScanContinuation K)) : option (K * bool) :=
  match cont with Some c => Some (sc_after c, true) | None => (λ k, (k, false)) <$> sq_start query end.
Definition at_position (from : option (K * bool)) e : Prop := match from with Some (k, exclusive) => at_or_past k exclusive e | None => True end.
#[global] Instance at_position_dec from e : Decision (at_position from e).
Proof. destruct from as [[]|]; apply _. Defined.
(** What is left of a scan. *)
Definition rest_rows query (cont : option (ScanContinuation K)) r : list (Entry K V) :=
  filter (before (sq_end query)) (filter (at_position (position query cont)) (PageStore.entries r)).
Lemma seek_rows query cont r : directory_sound (ro_pages r) →
  (let '(page, offset) := match cont with Some cursor => root_seek r (Some (sc_after cursor)) true | None => root_seek r (sq_start query) false end in
   root_from r page offset) = filter (at_position (position query cont)) (PageStore.entries r).
Proof.
  intros Hd. assert (Hfrom : ∀ k exclusive, (let '(page, offset) := root_seek r (Some k) exclusive in root_from r page offset) = filter (at_or_past k exclusive) (PageStore.entries r)).
  { intros k exclusive. rewrite entries_rows by done. by apply entries_from_rows. }
  unfold position. destruct cont as [c|]; [exact (Hfrom (sc_after c) true)|]. destruct (sq_start query) as [k|]; [exact (Hfrom k false)|]. symmetry. by apply filter_all.
Qed.
Lemma read_bytes_ok e size : read_bytes e = Ok size → size = row_cost e.
Proof. unfold read_bytes, charge_add. by intros [-> _]%or_fail_ok%checked_add_Some. Qed.
(** The loop of a scan takes the rows before the end, while they fit. *)
Record scanned (budget : ReadBudget) (stop : option K) l (acc acc' : ScanState (K := K) (V := V)) (n : nat) : Prop := {
  sd_count : sn_count acc' = (sn_count acc + N.of_nat n)%N;
  sd_taken : (n <= length l)%nat ∧ Forall (before stop) (take n l);
  sd_last : sn_last acc' = match n with O => sn_last acc | S _ => last (take n l) end;
  sd_weight : sn_bytes acc' = (sn_bytes acc + rows_weight (take n l))%N;
  sd_bounds : (sn_count acc' <= bu_max_items budget ∧ sn_bytes acc' <= bu_max_bytes budget)%N;
  sd_end : if sn_more acc' then (0 < sn_count acc')%N ∧ ∃ e, l !! n = Some e ∧ before stop e else ∀ e, l !! n = Some e → ¬ before stop e;
}.
Lemma scan_rows_ok budget stop l acc acc' : sn_more acc = false → (sn_count acc <= bu_max_items budget)%N → (sn_bytes acc <= bu_max_bytes budget)%N →
  scan_rows budget stop l acc = Ok acc' → ∃ n, scanned budget stop l acc acc' n.
Proof.
  revert acc. induction l as [|e l IH]; intros acc Hm Hc Hb; cbn [scan_rows].
  { intros [= <-]. exists 0%nat. split; simpl; rewrite ?Hm; try done; lia || naive_solver. }
  destruct (is_some_and _ stop) eqn:Hstop.
  { intros [= <-]. exists 0%nat. split; simpl; rewrite ?Hm; try (done || lia); [by split; [lia|]|]. intros e' [= <-] Hbefore.
    destruct stop as [stop|]; [|done]. apply bool_decide_eq_true in Hstop. eapply key_lt_irrefl. by eapply key_lt_le_trans. }
  assert (Hbefore : before stop e). { destruct stop as [stop|]; [|done]. apply bool_decide_eq_false in Hstop. by apply key_not_le. }
  intros (size & ->%read_bytes_ok & Hs)%try_bind_ok. apply try_bind_ok in Hs as (bytes & [-> Hu]%or_fail_ok%checked_add_Some & Hs). case_decide as Hfull.
  - apply refuse_then_ok in Hs as [Hn [= <-]]. exists 0%nat. split; simpl; try (done || lia); [by split; [lia|]|]. split; [lia|]. by exists e.
  - apply try_bind_ok in Hs as (count & [-> _]%or_fail_ok%checked_add_Some & Hs). apply Decidable.not_or in Hfull as [Hci Hbi].
    apply IH in Hs as (n & Hs); [|done|simpl; lia|simpl; lia]. destruct Hs as [Hn [Hlen Htaken] Hlast Hweight Hbounds Hend]. exists (S n). simpl in *. split; simpl.
    + lia.
    + split; [lia|]. by constructor.
    + rewrite Hlast. destruct n as [|n]; [done|]. destruct l as [|x l]; [simpl in Hlen; lia|]. simpl take. by rewrite last_cons_cons.
    + lia.
    + done.
    + done.
Qed.
(** A page and what is left after it are what was left before it. *)
Lemma rest_split query r cont n l : directory_sound (ro_pages r) → l = filter (at_position (position query cont)) (PageStore.entries r) → (n <= length l)%nat →
  Forall (before (sq_end query)) (take n l) → rest_rows query cont r = take n l ++ filter (before (sq_end query)) (drop n l).
Proof.
  intros Hd -> Hn Ht. unfold rest_rows. rewrite <-(take_drop n (filter (at_position _) _)) at 1. rewrite filter_app. f_equal. apply filter_all. by apply Forall_forall.
Qed.
Lemma rising_filter (P : Entry K V → Prop) `{∀ e, Decision (P e)} l : rising l → rising (filter P l).
Proof.
  induction l as [|e l IH]; [done|]. intros Hr. pose proof (proj1 (rising_app [e] l) Hr) as (_ & Hl & Hlt). rewrite filter_cons. case_decide; [|by apply IH].
  apply (rising_app [e]). split_and!; [constructor; constructor|by apply IH|]. intros x y Hx [_ Hy]%list_elem_of_filter. by apply Hlt.
Qed.
Lemma ended_rows stop l : rising l → (∀ e, head l = Some e → ¬ before stop e) → filter (before stop) l = [].
Proof.
  intros Hr Hh. apply filter_none. intros e He Hb. destruct l as [|x l]; [by apply elem_of_nil in He|]. apply (Hh x eq_refl).
  apply elem_of_cons in He as [->|He]; [done|]. destruct stop as [stop|]; [|done]. eapply key_lt_trans; [|exact Hb].
  apply (rising_app [x] l) in Hr as (_ & _ & Hlt). apply Hlt; [left|done].
Qed.
Lemma resumed_rows query r cont c n l e : directory_sound (ro_pages r) → l = filter (at_position (position query cont)) (PageStore.entries r) →
  last (take n l) = Some e → sc_after c = en_key e → filter (before (sq_end query)) (drop n l) = rest_rows query (Some c) r.
Proof.
  intros Hd Hl Hlast Hc. assert (Hr : rising (PageStore.entries r)) by (rewrite entries_rows by done; apply ordered_rising, Hd).
  assert (Hrl : rising l) by (rewrite Hl; by apply rising_filter). unfold rest_rows. f_equal. rewrite <-(take_drop n l) in Hrl. apply rising_app in Hrl as (Ht & Hdr & Hlt).
  apply last_Some in Hlast as [pre Hpre]. apply rising_unique; [done|by apply rising_filter|]. intros x. rewrite list_elem_of_filter. simpl. unfold at_or_past. rewrite Hc. split.
  - intros Hx. split; [apply Hlt; [rewrite Hpre; set_solver|done]|]. assert (x ∈ l) as Hxl by (rewrite <-(take_drop n l); set_solver). rewrite Hl in Hxl. by apply list_elem_of_filter in Hxl as [_ ?].
  - intros [Hex Hx]. assert (Hxl : x ∈ l).
    { rewrite Hl. apply list_elem_of_filter. split; [|done]. assert (He : e ∈ l) by (rewrite <-(take_drop n l), Hpre; set_solver). rewrite Hl in He. apply list_elem_of_filter in He as [He _].
      destruct (position query cont) as [[k [] ]|]; [..|done]; unfold at_position, at_or_past in *; [by eapply key_lt_trans|]. trans (en_key e); [done|apply Hex]. }
    rewrite <-(take_drop n l) in Hxl. apply elem_of_app in Hxl as [Hxt|]; [|done]. exfalso. rewrite Hpre in Hxt, Ht. apply rising_app in Ht as (_ & _ & Hpe).
    apply elem_of_app in Hxt as [Hxt| ->%list_elem_of_singleton]; [|by eapply key_lt_irrefl]. eapply key_lt_irrefl, key_lt_trans; [exact Hex|]. apply Hpe; [done|set_solver].
Qed.
(** ** A page *)
Record paged (query : ScanQuery K) (budget : ReadBudget) (cont : option (ScanContinuation K)) st (page : ReadPage K V) : Prop := {
  pd_prefix : pa_prefix page = ro_prefix (le_root st);
  pd_rows : rest_rows query cont (le_root st) =
    pa_items page ++ (match pa_continuation page with Some c => rest_rows query (Some c) (le_root st) | None => [] end);
  pd_bounds : (N.of_nat (length (pa_items page)) <= bu_max_items budget ∧ rows_weight (pa_items page) <= bu_max_bytes budget)%N;
  pd_progress : is_Some (pa_continuation page) → pa_items page ≠ [];
}.
Lemma scan_ok held lease query budget cont now s f page s' f' : scan held lease query budget cont now (s, f) = (Ok page, (s', f')) →
  ∃ st, checked_state held lease now s = (Ok st, s') ∧ (directory_sound (ro_pages (le_root st)) → paged query budget cont st page).
Proof.
  unfold scan. intros (st & [s1 f1] & Hst & Hp)%fallible_bind_ok. unfold in_store in Hst. destruct (checked_state held lease now s) as [x s2]. injection Hst as -> <- <-.
  apply fallible_bind_ok in Hp as (bounded & y & [Hb ->]%lift_ok & Hp). apply fallible_bind_ok in Hp as ([] & y & [_ ->]%lift_ok & Hp).
  apply fallible_bind_ok in Hp as ([] & y & [_ ->]%lift_ok & Hp). exists st. destruct (match cont with Some _ => _ | None => _ end) as [page' offset] eqn:Hseek.
  apply fallible_bind_ok in Hp as (acc & y & [Hacc ->]%lift_ok & Hp). apply fallible_bind_ok in Hp as ([] & [s3 f3] & Hf & Hp). unfold in_fund in Hf.
  destruct (response_allocation _ f) as [x f4]. injection Hf as -> <- <-. apply fallible_bind_ok in Hp as (next & [s4 f5] & Hnext & [= <- <- <-]).
  split; [f_equal; destruct (sn_more acc); [|by injection Hnext as _ <-]; apply fallible_bind_ok in Hnext as (c & [s5 f6] & Hc & [= _ <- _]);
    unfold in_fund in Hc; destruct (continue_after _ _ _ _ f4) as [x f7]; by injection Hc as _ <- _|].
  intros Hd. pose proof (seek_rows query cont (le_root st) Hd) as Hl. rewrite Hseek in Hl. set (l := root_from (le_root st) page' offset) in *.
  unfold read_budget_bounded in Hb. apply refuse_then_ok in Hb as [_ [= <-]]. apply scan_rows_ok in Hacc as [n [Hn [Hlen Htaken] Hlast Hweight Hbounds Hend]]; [|done|simpl; lia..].
  cbn [sn_count sn_bytes sn_last bu_max_items bu_max_bytes] in *. assert (Hcount : N.to_nat (sn_count acc) = n) by lia. rewrite Hcount. assert (Hrl : rising l) by (rewrite Hl; apply rising_filter; rewrite entries_rows by done; apply ordered_rising, Hd).
  destruct (sn_more acc) eqn:Hmore.
  - destruct Hend as [Hpos _]. apply fallible_bind_ok in Hnext as (c & [s5 f6] & Hc & [= <- _ _]). unfold in_fund in Hc. destruct (continue_after _ _ _ _ f4) as [x f7] eqn:Hcont.
    injection Hc as -> <- <-. unfold continue_after in Hcont. apply fallible_bind_ok in Hcont as (e & y & [He%or_fail_ok ->]%lift_ok & Hcont).
    repeat (apply fallible_bind_ok in Hcont as (? & ? & [_ ->]%lift_ok & Hcont)). apply fallible_bind_ok in Hcont as ([] & y & _ & [= <- _]).
    destruct n as [|n]; [lia|]. rewrite He in Hlast. split; cbn [pa_prefix pa_items pa_continuation]; [done| | |].
    + rewrite (rest_split query _ cont (S n) l) by done. f_equal. by eapply resumed_rows.
    + rewrite length_take. split; lia.
    + intros _. destruct l; [simpl in Hlen; lia|done].
  - injection Hnext as <- _ _. split; cbn [pa_prefix pa_items pa_continuation]; [done| | |by intros []].
    + rewrite (rest_split query _ cont n l) by done. f_equal. apply ended_rows; [|intros e He; apply Hend; by rewrite head_lookup, lookup_drop, Nat.add_0_r in He].
      rewrite <-(take_drop n l) in Hrl. by apply rising_app in Hrl as (_ & ? & _).
    + rewrite length_take. split; lia.
Qed.
End ScanLaws.

(** ** Traversals *)
Section TraversalLaws.
Context {K V : Type} `{Laws : RangeKeyLaws K, F : Funding, PageSizes, SnapshotSizes}.
#[local] Set Default Proof Using "Type Laws".
Context (next : K → V → option K → Try MemoryError (option K)) (r : Root K V) (first : K).
Implicit Types (e : Entry K V) (k y : K) (ys : list K) (c : TraversalContinuation K) (node : PendingNode K) (emitted : list (Entry K V)).
(** The neighbours of a row that the adapter lists one after another. *)
Inductive walked k (v : V) : list K → Prop :=
  | walked_nil : walked k v []
  | walked_snoc ys y : walked k v ys → next k v (last ys) = Ok (Some y) → walked k v (ys ++ [y]).
Definition edge k y : Prop := ∃ e ys, root_get r k = Some e ∧ walked k (en_value e) ys ∧ y ∈ ys.
Lemma walked_next k v ys y zs : walked k v (ys ++ y :: zs) → next k v (last ys) = Ok (Some y).
Proof using Type.
  induction zs as [|z zs IH] using rev_ind; intros Hw.
  - inversion Hw as [Hnil|ys' y' Hys Hn Heq]; [by destruct ys|]. apply app_inj_tail in Heq as [-> ->]. done.
  - apply IH. rewrite app_comm_cons, app_assoc in Hw. inversion Hw as [Hnil|ys' y' Hys Hn Heq]; [by destruct (ys ++ y :: zs)|]. by apply app_inj_tail in Heq as [-> ->].
Qed.
Lemma walked_all k v ys ys' : walked k v ys → next k v (last ys) = Ok None → walked k v ys' → ys' `prefix_of` ys.
Proof using Type.
  intros Hw Hend. induction 1 as [|ys' y _ [zs ->] Hn]; [apply prefix_nil|]. destruct zs as [|z zs]; [rewrite app_nil_r in Hend; congruence|].
  apply walked_next in Hw. rewrite Hn in Hw. injection Hw as <-. exists zs. by rewrite <-app_assoc.
Qed.
(** Where a traversal stands: the rows read and the nodes still to read are the
    keys found, each once and reached from the first; a row read has had all its
    neighbours found, but for the one at hand, which has had some. *)
Definition waiting (queue : list (PendingNode K)) (current : option (PendingNode K)) : list K :=
  match current with Some node => if pn_emitted node then [] else [pn_key node] | None => [] end ++ (pn_key <$> queue).
Definition listed (visited : gset K) (after : option K) e : Prop :=
  ∃ ys, walked (en_key e) (en_value e) ys ∧ after = last ys ∧ ∀ y, y ∈ ys → y ∈ visited.
Record traversing queue (visited : gset K) current (depth_pruned : bool) emitted : Prop := {
  tr_once : NoDup ((en_key <$> emitted) ++ waiting queue current);
  tr_visited k : k ∈ visited ↔ k ∈ (en_key <$> emitted) ++ waiting queue current;
  tr_first : first ∈ visited;
  tr_reached k : k ∈ visited → rtc edge first k;
  tr_rows e : e ∈ emitted → root_get r (en_key e) = Some e;
  tr_queue : Forall (λ node, pn_after node = None ∧ pn_emitted node = false) queue;
  tr_current node : current = Some node → if pn_emitted node then ∃ e, e ∈ emitted ∧ en_key e = pn_key node ∧ listed visited (pn_after node) e
                                          else pn_after node = None;
  tr_done e : depth_pruned = false → e ∈ emitted →
    (∃ node, current = Some node ∧ pn_emitted node = true ∧ pn_key node = en_key e) ∨
    ∃ after, listed visited after e ∧ next (en_key e) (en_value e) after = Ok None;
}.
Notation standing c emitted := (traversing (tc_queue c) (tc_visited c) (tc_current c) (tc_depth_pruned c) emitted).
Lemma next_node_ok c emitted : standing c emitted → standing (next_node c) emitted.
Proof using Type.
  unfold next_node. destruct (tc_current c) as [node|] eqn:Ec; [by rewrite Ec|]. destruct (tc_queue c) as [|node queue] eqn:Eq; [by rewrite Ec, Eq|].
  intros [Honce Hvisited Hfirst Hreached Hrows Hqueue _ Hdone]. simpl. apply Forall_cons in Hqueue as [[Hafter Hem] Hqueue].
  assert (Hw : waiting queue (Some node) = waiting (node :: queue) None) by (unfold waiting; by rewrite Hem).
  split; rewrite ?Hw; try done.
  - intros node' [= <-]. by rewrite Hem.
  - intros e Hp He. destruct (Hdone e Hp He) as [(? & [=] & _)|?]. by right.
Qed.
Lemma next_node_None c : tc_current (next_node c) = None → tc_queue (next_node c) = [].
Proof using Type. unfold next_node. destruct (tc_current c) eqn:E; [congruence|]. by destruct (tc_queue c) eqn:E'. Qed.
Lemma listed_weaken visited visited' after e : (∀ k, k ∈ visited → k ∈ visited') → listed visited after e → listed visited' after e.
Proof using Type. intros Hsub (ys & ? & ? & Hys). exists ys. split_and!; eauto. Qed.
Lemma emit_row_ok budget node entry (t : TraversalState (K := K) (V := V)) x emitted : emit_row budget node entry t = Ok (Some x) → tc_current (tv_cursor t) = Some node →
  directory_sound (ro_pages r) → root_get r (pn_key node) = Some entry → standing (tv_cursor t) (emitted ++ tv_items t) →
  pn_emitted x.1 = true ∧ pn_key x.1 = pn_key node ∧ pn_depth x.1 = pn_depth node ∧ tc_current (tv_cursor x.2) = Some x.1 ∧ tv_probes x.2 = tv_probes t ∧
  tc_edge_visits (tv_cursor x.2) = tc_edge_visits (tv_cursor t) ∧ tc_limits (tv_cursor x.2) = tc_limits (tv_cursor t) ∧ entry ∈ emitted ++ tv_items x.2 ∧ standing (tv_cursor x.2) (emitted ++ tv_items x.2) ∧
  ((N.of_nat (length (tv_items t)) <= bu_max_items budget)%N → (N.of_nat (length (tv_items x.2)) <= bu_max_items budget)%N).
Proof.
  unfold emit_row. intros He Hc Hd Hrow Hs. destruct (pn_emitted node) eqn:Hem.
  - injection He as <-. split_and!; try done. pose proof (tr_current _ _ _ _ _ Hs node Hc) as Hn. rewrite Hem in Hn. destruct Hn as (e & Hin & Hk & _).
    pose proof (tr_rows _ _ _ _ _ Hs e Hin) as Hr. rewrite Hk, Hrow in Hr. by injection Hr as <-.
  - apply try_bind_ok in He as (size & _ & He). apply try_bind_ok in He as (bytes & _ & He). case_decide as Hfull; [by apply refuse_then_ok in He as [_ He]|].
    injection He as <-. simpl. destruct Hs as [Honce Hvisited Hfirst Hreached Hrows Hqueue Hcur Hdone].
    assert (Hk : en_key entry = pn_key node).
    { rewrite root_get_row in Hrow by done. apply row_map_Some in Hrow as [_ ?]; [done|]. apply ordered_rising, Hd. }
    assert (Hw : (en_key <$> (emitted ++ tv_items t ++ [entry])) ++ waiting (tc_queue (tv_cursor t)) (Some (emitted_node node)) =
      (en_key <$> (emitted ++ tv_items t)) ++ waiting (tc_queue (tv_cursor t)) (tc_current (tv_cursor t))).
    { rewrite Hc. unfold waiting. simpl. rewrite Hem, !fmap_app. simpl. by rewrite Hk, <-!app_assoc. }
    split_and!; try done; [set_solver| |rewrite length_app; simpl; lia]. split; rewrite ?Hw; try done.
    + intros e. rewrite app_assoc. intros [?| ->%list_elem_of_singleton]%elem_of_app; [by apply Hrows|]. by rewrite Hk.
    + intros node' [= <-]. simpl. exists entry. split_and!; [set_solver|done|]. exists []. split_and!; [constructor| |set_solver].
      specialize (Hcur node Hc). by rewrite Hem in Hcur.
    + intros e Hp. rewrite app_assoc. intros [He| ->%list_elem_of_singleton]%elem_of_app; [|left; exists (emitted_node node); done].
      destruct (Hdone e Hp He) as [(node' & Hc' & Hem' & _)|?]; [congruence|by right].
Qed.
(** One more neighbour of the node at hand. *)
Lemma listed_after visited k e after : listed visited after e → next (en_key e) (en_value e) after = Ok (Some k) → k ∈ visited → listed visited (Some k) e.
Proof using Type.
  intros (ys & Hw & -> & Hys) Hn Hk. exists (ys ++ [k]). split_and!; [by constructor|by rewrite last_snoc|].
  intros y [?| ->%list_elem_of_singleton]%elem_of_app; [by apply Hys|done].
Qed.
Definition turned (x : Turn (K := K) (V := V)) : TraversalState := match x with Again t | Stop _ t => t end.
Lemma node_listed queue visited node depth_pruned emitted entry : traversing queue visited (Some node) depth_pruned emitted → pn_emitted node = true →
  en_key entry = pn_key node → entry ∈ emitted → listed visited (pn_after node) entry.
Proof using Type.
  intros Hs Hem Hk He. pose proof (tr_current _ _ _ _ _ Hs node eq_refl) as Hc. rewrite Hem in Hc. destruct Hc as (e & Hin & Hke & Hl).
  pose proof (tr_rows _ _ _ _ _ Hs e Hin) as Hr. rewrite Hke, <-Hk, (tr_rows _ _ _ _ _ Hs entry He) in Hr. by injection Hr as <-.
Qed.
(** The node at hand has had all its neighbours listed, or is left at the depth limit. *)
Lemma node_finished queue visited node depth_pruned emitted entry (cut : bool) : traversing queue visited (Some node) depth_pruned emitted → pn_emitted node = true →
  en_key entry = pn_key node → entry ∈ emitted → (cut = true ∨ next (en_key entry) (en_value entry) (pn_after node) = Ok None) →
  traversing queue visited None (cut || depth_pruned) emitted.
Proof using Type.
  intros Hs Hem Hk He Hcut. pose proof (node_listed _ _ _ _ _ _ Hs Hem Hk He) as Hl. destruct Hs as [Honce Hvisited Hfirst Hreached Hrows Hqueue Hcur Hdone].
  unfold waiting in *. rewrite Hem in *. split; unfold waiting; try done. intros e [-> Hp]%orb_false_iff Hin. destruct Hcut as [|Hend]; [done|].
  destruct (Hdone e Hp Hin) as [(node' & [= <-] & _ & Hke)|?]; [|by right]. right. exists (pn_after node).
  pose proof (Hrows e Hin) as Hr. rewrite <-Hke, <-Hk, (Hrows entry He) in Hr. by injection Hr as <-.
Qed.
(** A neighbour found before, or a new one. *)
Lemma node_again queue visited node depth_pruned emitted entry k : traversing queue visited (Some node) depth_pruned emitted → pn_emitted node = true →
  en_key entry = pn_key node → entry ∈ emitted → next (en_key entry) (en_value entry) (pn_after node) = Ok (Some k) → k ∈ visited →
  traversing queue visited (Some (after_node k node)) depth_pruned emitted.
Proof using Type.
  intros Hs Hem Hk He Hn Hv. pose proof (node_listed _ _ _ _ _ _ Hs Hem Hk He) as Hl. destruct Hs as [Honce Hvisited Hfirst Hreached Hrows Hqueue Hcur Hdone].
  split; try done.
  - intros node' [= <-]. simpl. rewrite Hem. exists entry. split_and!; [done|done|]. by eapply listed_after.
  - intros e Hp Hin. destruct (Hdone e Hp Hin) as [(node' & [= <-] & _ & Hke)|?]; [|by right]. left. by exists (after_node k node).
Qed.
Lemma node_found queue visited node depth_pruned emitted entry k (depth : N) : traversing queue visited (Some node) depth_pruned emitted → pn_emitted node = true →
  en_key entry = pn_key node → entry ∈ emitted → next (en_key entry) (en_value entry) (pn_after node) = Ok (Some k) → k ∉ visited →
  traversing (queue ++ [{| pn_key := k; pn_depth := depth; pn_after := None; pn_emitted := false |}]) ({[k]} ∪ visited) (Some node) depth_pruned emitted.
Proof.
  intros Hs Hem Hk He Hn Hv. pose proof (node_listed _ _ _ _ _ _ Hs Hem Hk He) as (ys & Hw & Hafter & _). destruct Hs as [Honce Hvisited Hfirst Hreached Hrows Hqueue Hcur Hdone].
  assert (Hwait : (en_key <$> emitted) ++ waiting (queue ++ [{| pn_key := k; pn_depth := depth; pn_after := None; pn_emitted := false |}]) (Some node) =
    ((en_key <$> emitted) ++ waiting queue (Some node)) ++ [k]) by (unfold waiting; by rewrite fmap_app, !app_assoc).
  split; rewrite ?Hwait.
  - apply NoDup_app. split_and!; [done| |apply NoDup_singleton]. intros x Hx ->%list_elem_of_singleton. by apply Hv, Hvisited.
  - intros x. rewrite elem_of_app, <-Hvisited. set_solver.
  - set_solver.
  - intros x [->%elem_of_singleton|?]%elem_of_union; [|by apply Hreached]. eapply rtc_r; [apply (Hreached (en_key entry)), Hvisited, elem_of_app; left; by apply list_elem_of_fmap_2|].
    exists entry, (ys ++ [k]). split_and!; [by apply Hrows| |set_solver]. constructor; [done|]. by rewrite <-Hafter.
  - done.
  - apply Forall_app. split; [done|]. by repeat constructor.
  - intros node' [= <-]. rewrite Hem. specialize (Hcur node eq_refl). rewrite Hem in Hcur. destruct Hcur as (e & ? & ? & Hl). exists e. split_and!; [done|done|].
    eapply listed_weaken; [|exact Hl]. set_solver.
  - intros e Hp Hin. destruct (Hdone e Hp Hin) as [?|(after & Hl & ?)]; [by left|]. right. exists after. split; [|done]. eapply listed_weaken; [|exact Hl]. set_solver.
Qed.
Lemma visit_ok st limits node entry (t : TraversalState (K := K) (V := V)) x emitted : le_root st = r →
  visit_neighbor st limits next node (en_value entry) t = Ok x → tc_current (tv_cursor t) = Some node → pn_emitted node = true →
  en_key entry = pn_key node → entry ∈ emitted → standing (tv_cursor t) emitted →
  standing (tv_cursor (turned x)) emitted ∧ tv_items (turned x) = tv_items t ∧ tv_probes (turned x) = (tv_probes t + 1)%N ∧
  tc_edge_visits (tv_cursor (turned x)) = (tc_edge_visits (tv_cursor t) + 1)%N ∧ tc_limits (tv_cursor (turned x)) = tc_limits (tv_cursor t) ∧
  (∀ why t', x = Stop why t' → why = TraversalStop.NodeLimit ∨ why = TraversalStop.StateLimit).
Proof.
  intros Hr Hv Hc Hem Hk He Hs. rewrite Hc in Hs. unfold visit_neighbor in Hv. rewrite <-Hk in Hv. apply try_bind_ok in Hv as (answer & Hn & Hv).
  apply try_bind_ok in Hv as (probes & [-> _]%or_fail_ok%checked_add_Some & Hv). apply try_bind_ok in Hv as (edges & [-> _]%or_fail_ok%checked_add_Some & Hv).
  destruct answer as [k|].
  2: { injection Hv as <-. simpl. split_and!; try done. by eapply (node_finished _ _ _ _ _ entry false); eauto. }
  apply refuse_then_ok in Hv as [_ Hv]. case_decide as Hdepth.
  { injection Hv as <-. simpl. split_and!; try done. by eapply (node_finished _ _ _ _ _ entry true); eauto. }
  apply try_bind_ok in Hv as (found & _ & Hv). case_decide as Hin.
  { injection Hv as <-. simpl. split_and!; try done. by eapply node_again. }
  case_decide as Hnodes. { injection Hv as <-. simpl. rewrite Hc. split_and!; try done. intros why t' [= <- <-]. by left. }
  apply try_bind_ok in Hv as (charge & _ & Hv). apply try_bind_ok in Hv as (bytes & _ & Hv).
  case_decide as Hbytes. { injection Hv as <-. simpl. rewrite Hc. split_and!; try done. intros why t' [= <- <-]. by right. }
  apply try_bind_ok in Hv as (depth & _ & Hv). injection Hv as <-. simpl. split_and!; try done.
  eapply node_again; try done; [by eapply node_found|set_solver].
Qed.
(** ** The loop of a page *)
Record page_state (budget : ReadBudget) (limits : TraversalLimits) emitted (t : TraversalState (K := K) (V := V)) : Prop := {
  ps_standing : standing (tv_cursor t) (emitted ++ tv_items t);
  ps_items : (N.of_nat (length (tv_items t)) <= bu_max_items budget)%N;
  ps_probes : (tv_probes t <= bu_max_edge_visits budget)%N;
  ps_edges : (tc_edge_visits (tv_cursor t) <= tl_max_edges limits)%N;
  ps_limits : tc_limits (tv_cursor t) = limits;
}.
(** Why a page ended. *)
Definition page_end (budget : ReadBudget) (why : TraversalStop) (t : TraversalState (K := K) (V := V)) : Prop :=
  (why = TraversalStop.Complete → tc_current (tv_cursor t) = None ∧ tc_queue (tv_cursor t) = [] ∧ tc_depth_pruned (tv_cursor t) = false) ∧
  (why = TraversalStop.PageLimit → tv_items t ≠ [] ∨ tv_probes t = bu_max_edge_visits budget).
Lemma turn_ok st limits budget (t : TraversalState (K := K) (V := V)) x emitted : le_root st = r → directory_sound (ro_pages r) →
  turn st limits budget next t = Ok x → page_state budget limits emitted t →
  page_state budget limits emitted (turned x) ∧ match x with Again t' => tv_probes t' = (tv_probes t + 1)%N | Stop why t' => page_end budget why t' end.
Proof.
  intros Hr Hd Ht [Hs Hi Hp He Hl]. apply next_node_ok in Hs.
  assert (Hedges : tc_edge_visits (next_node (tv_cursor t)) = tc_edge_visits (tv_cursor t)) by (unfold next_node; by repeat case_match).
  assert (Hlimits : tc_limits (next_node (tv_cursor t)) = limits) by (rewrite <-Hl; unfold next_node; by repeat case_match).
  assert (Hsame : page_state budget limits emitted {| tv_cursor := next_node (tv_cursor t); tv_items := tv_items t; tv_bytes := tv_bytes t; tv_probes := tv_probes t |})
    by (split; cbn [tv_cursor tv_items tv_probes]; [done|done|done|by rewrite Hedges|done]).
  unfold turn in Ht. rewrite Hr in Ht. destruct (tc_current (next_node (tv_cursor t))) as [node|] eqn:Hc.
  2: { injection Ht as <-. split; [exact Hsame|]. split; cbn [tv_cursor]; [|by case_match]. intros Hwhy. split_and!; [done|by apply next_node_None|]. by case_match. }
  apply try_bind_ok in Ht as (entry & Hrow%or_fail_ok & Ht). apply try_bind_ok in Ht as ([[node' t']|] & Hem & Ht).
  2: { injection Ht as <-. split; [exact Hsame|]. split; [done|]. intros _. left. simpl.
       unfold emit_row in Hem. destruct (pn_emitted node); [done|]. apply try_bind_ok in Hem as (? & _ & Hem). apply try_bind_ok in Hem as (? & _ & Hem).
       case_decide; [|done]. by apply refuse_then_ok in Hem as [? _]. }
  eapply (emit_row_ok _ _ _ _ _ emitted) in Hem as (Hemitted & Hkey & _ & Hc' & Hprobes & Hed & Hli & Hin & Hs' & Hlen); [|exact Hc|exact Hd|exact Hrow|exact (ps_standing _ _ _ _ Hsame)]. cbn [fst snd] in *.
  assert (Hk : en_key entry = pn_key node').
  { rewrite Hkey. rewrite root_get_row in Hrow by done. apply row_map_Some in Hrow as [_ ?]; [done|]. apply ordered_rising, Hd. }
  specialize (Hlen Hi). simpl in Hprobes, Hed, Hli. rewrite Hlimits in Hli. case_decide as Hmax.
  { injection Ht as <-. simpl. split; [split; [done|done|lia|lia|done]|]. split; [intros Hwhy; discriminate Hwhy|]. intros _. by right. }
  case_decide as Hmaxe. { injection Ht as <-. simpl. split; [split; try done; lia|]. by split. }
  eapply (visit_ok _ _ _ _ _ _ (emitted ++ tv_items t')) in Ht as (Hs2 & Hi2 & Hp2 & He2 & Hl2 & Hstop); [|done..].
  split; [split; [by rewrite Hi2|by rewrite Hi2|lia|lia|by rewrite Hl2]|]. destruct x as [t2|why t2]; [simpl in Hp2; lia|]. by destruct (Hstop why t2 eq_refl) as [-> | ->].
Qed.
Lemma turns_ok fuel st limits budget (t : TraversalState (K := K) (V := V)) x emitted : le_root st = r → directory_sound (ro_pages r) →
  turns fuel st limits budget next t = Ok x → (N.to_nat (bu_max_edge_visits budget - tv_probes t) < fuel)%nat → page_state budget limits emitted t →
  ∃ why t', x = Some (why, t') ∧ page_state budget limits emitted t' ∧ page_end budget why t'.
Proof.
  intros Hr Hd. revert t. induction fuel as [|fuel IH]; intros t Ht Hf Hs; [lia|]. cbn [turns] in Ht. apply try_bind_ok in Ht as (turn & Ht & Hx).
  apply turn_ok with (emitted := emitted) in Ht as [Hs' Hend]; [|done..]. destruct turn as [t'|why t']; [|injection Hx as <-; by exists why, t'].
  eapply IH; [exact Hx| |exact Hs']. destruct Hs as [_ _ Hp _ _]. destruct Hs' as [_ _ Hp' _ _]. simpl in Hp'. lia.
Qed.
(** A traversal that ended complete has read exactly what is reached. *)
Lemma complete_exact c emitted : directory_sound (ro_pages r) → standing c emitted → tc_current c = None → tc_queue c = [] → tc_depth_pruned c = false →
  NoDup (en_key <$> emitted) ∧ (∀ k, k ∈ en_key <$> emitted ↔ rtc edge first k) ∧ ∀ e, e ∈ emitted → root_get r (en_key e) = Some e.
Proof.
  intros Hd [Honce Hvisited Hfirst Hreached Hrows _ _ Hdone] Hc Hq Hp.
  assert (Hw : (en_key <$> emitted) ++ waiting (tc_queue c) (tc_current c) = en_key <$> emitted) by (rewrite Hc, Hq; apply app_nil_r).
  rewrite Hw in Honce. assert (Hv : ∀ k, k ∈ tc_visited c ↔ k ∈ en_key <$> emitted) by (intros k; by rewrite Hvisited, Hw).
  rewrite Hc in Hdone. split_and!; [done| |done]. intros k. rewrite <-Hv. split; [apply Hreached|].
  revert k. apply rtc_ind_r; [done|]. intros y z _ (e & ys & Hrow & Hwalk & Hz) Hy. apply Hv, list_elem_of_fmap in Hy as (e' & -> & He').
  pose proof (Hrows e' He') as Hr. rewrite Hrow in Hr. injection Hr as <-. destruct (Hdone e Hp He') as [(? & [=] & _)|(after & (zs & Hzs & -> & Hin) & Hend)].
  apply Hin. eapply elem_of_prefix; [exact Hz|]. eapply walked_all; [exact Hzs|exact Hend|exact Hwalk].
Qed.
(** ** A page of a traversal *)
(** What a continuation has: the rows read up to it. *)
Definition resumes c emitted : Prop := standing c emitted ∧ (tc_edge_visits c <= tl_max_edges (tc_limits c))%N.
Definition resumed (cont : option (TraversalContinuation K)) emitted : Prop := match cont with Some c => resumes c emitted | None => emitted = [] end.
Record traversed (limits : TraversalLimits) (budget : ReadBudget) emitted (page : TraversalPage K V) : Prop := {
  tp_bounded : (N.of_nat (length (tp_items page)) <= bu_max_items budget ∧ tp_edge_visits page <= bu_max_edge_visits budget ∧
    tp_total_edge_visits page <= tl_max_edges limits)%N;
  tp_resumes c : tp_continuation page = Some c → resumes c (emitted ++ tp_items page) ∧ (tp_items page ≠ [] ∨ (0 < tp_edge_visits page)%N);
  tp_continued : tp_stop page = TraversalStop.PageLimit ↔ is_Some (tp_continuation page);
  tp_complete : tp_stop page = TraversalStop.Complete → NoDup (en_key <$> emitted ++ tp_items page) ∧
    (∀ k, k ∈ en_key <$> emitted ++ tp_items page ↔ rtc edge first k) ∧ ∀ e, e ∈ emitted ++ tp_items page → root_get r (en_key e) = Some e;
}.
Lemma start_ok lease st query limits f c f' : le_root st = r → directory_sound (ro_pages r) → first = tq_root query →
  start_traversal lease st query limits f = (Ok c, f') → tc_limits c = limits ∧ resumes c [].
Proof.
  intros Hr Hd Hq. unfold start_traversal. intros (root & y & [Hroot%or_fail_ok ->]%lift_ok & Hc)%fallible_bind_ok. rewrite Hr, <-Hq in Hroot.
  repeat (apply fallible_bind_ok in Hc as (? & ? & [_ ->]%lift_ok & Hc)). apply fallible_bind_ok in Hc as ([] & y & _ & [= <- _]). split; [done|].
  assert (en_key root = first) as ->. { rewrite root_get_row in Hroot by done. apply row_map_Some in Hroot as [_ ?]; [done|]. apply ordered_rising, Hd. }
  split; [|simpl; lia]. split; simpl; try done.
  - apply NoDup_singleton.
  - intros k. unfold waiting. simpl. by rewrite elem_of_singleton, list_elem_of_singleton.
  - by apply elem_of_singleton.
  - by intros k ->%elem_of_singleton.
  - by intros e ?%elem_of_nil.
  - by repeat constructor.
  - by intros e _ ?%elem_of_nil.
Qed.
Lemma traverse_ok held lease query limits budget cont now s f x s' f' : traverse held lease query limits budget cont now next (s, f) = (Ok x, (s', f')) →
  ∃ st, checked_state held lease now s = (Ok st, s') ∧ (le_root st = r → directory_sound (ro_pages r) → first = tq_root query →
  (0 < max_traversal_edges (le_config st))%N → ∀ emitted, resumed cont emitted → ∃ page, x = Some page ∧ traversed limits budget emitted page).
Proof.
  unfold traverse. intros (st & [s1 f1] & Hst & Hp)%fallible_bind_ok. unfold in_store in Hst. destruct (checked_state held lease now s) as [y s2]. injection Hst as -> <- <-.
  apply fallible_bind_ok in Hp as (bounds & y & [Hl ->]%lift_ok & Hp). apply fallible_bind_ok in Hp as (bounded & y & [Hb ->]%lift_ok & Hp).
  apply fallible_bind_ok in Hp as (cursor & [s3 f3] & Hcur & Hp). repeat (apply fallible_bind_ok in Hp as (? & ? & [_ ->]%lift_ok & Hp)).
  apply fallible_bind_ok in Hp as ([] & [s4 f4] & Hf & Hp). unfold in_fund in Hf. destruct (fund_reserve _ _ _ f3) as [z f5]. injection Hf as -> <- <-.
  apply fallible_bind_ok in Hp as (ended & y & [Hturns ->]%lift_ok & [= <- <- <-]). exists st. split.
  { f_equal. destruct cont as [c|]; [by apply fallible_bind_ok in Hcur as ([] & y & [_ ->]%lift_ok & [= _ <- _])|].
    unfold in_fund in Hcur. destruct (start_traversal _ _ _ _ _) as [z f6]. by injection Hcur as _ <- _. }
  intros Hr Hd Hq Hconfig emitted Hres. assert (Hc : tc_limits cursor = bounds ∧ resumes cursor emitted).
  { destruct cont as [c|].
    - apply fallible_bind_ok in Hcur as ([] & y & [Hc ->]%lift_ok & [= <- _ _]). unfold check_traversal in Hc. apply refuse_then_ok in Hc as [_ Hc].
      apply refuse_if_ok, Decidable.not_or in Hc as [_ Hc]. split; [by apply dec_stable|done].
    - unfold in_fund in Hcur. destruct (start_traversal _ _ _ _ _) as [z f6] eqn:Hs. injection Hcur as -> <- <-. simpl in Hres. subst emitted. by eapply start_ok. }
  destruct Hc as [Hlim [Hstand Hedges]]. apply refuse_then_ok in Hl as [_ [= Hl]]. apply refuse_then_ok in Hb as [Hnz [= Hb]].
  apply (turns_ok _ _ _ _ _ _ emitted) in Hturns as (why & t & -> & [Hs Hi Hpr He Hli] & Hcomplete & Hprogress); [|done|done|simpl; lia|].
  2: { split; simpl; [by rewrite app_nil_r|lia|lia|by rewrite <-Hlim|done]. }
  eexists. split; [reflexivity|]. rewrite <-Hb in Hi, Hpr. rewrite <-Hl in He. simpl in *. split; simpl.
  - split_and!; lia.
  - intros c. case_decide as Hwhy; [|done]. intros [= <-]. split; [split; [done|]; by rewrite Hli, <-Hl|]. destruct (Hprogress Hwhy) as [|Hpm]; [by left|].
    right. rewrite Hpm, <-Hb. simpl. lia.
  - case_decide; naive_solver.
  - intros Hwhy. destruct (Hcomplete Hwhy) as (? & ? & ?). by eapply complete_exact.
Qed.
End TraversalLaws.
