(* ===== verification/SnapshotProperties.v ===== *)
(** * What snapshot leases promise

    A lease reads the rows that were published when it was pinned, whatever the
    store does meanwhile, until it expires or is released, and never after. A scan
    through a lease returns the query's rows page by page, and a traversal visits
    what is reachable, each row once. *)
From stdpp Require Import prelude gmap strings list sorting relations.
From Stdlib Require Import NArith.
From S2P Require Import Prelude Fallible Objects Budget Pages PageDirectory PageTree PageEdits PageEditing PageStore PageRows PageBuilds PagePlans PageStoreLaws PageProperties Snapshots SnapshotLaws.

(** ** Reads through one lease *)
Section Leases.
Context {K V : Type} `{Laws : RangeKeyLaws K, F : PageDirectory.Funding, Z : PageSizes, SnapshotSizes}.
#[local] Set Default Proof Using "Type Laws".
Implicit Types (s : RangeStore K V) (w : World K V) (st : LeaseState K V) (lease : SnapshotLease).
(** The state at an address is the one that was pinned there. *)
Definition fixed_at st w : Prop := ∀ st', st' ∈ living w → le_address st' = le_address st → st' = st.
Lemma fixed_steps released st w w' : rtc (step released (le_address st)) w w' → fixed_at st w → fixed_at st w'.
Proof using Type. intros Hsteps Hf st' Hl Ha. apply Hf; [|done]. by eapply steps_living. Qed.
Lemma fixed_read st w time st' s' : fixed_at st w → checked_state (wo_held w) (lease_of st) time (wo_store w) = (Ok st', s') → st' = st ∧ (time < le_expires_at st)%N.
Proof using Type. intros Hf ([Hal Ha]%upgrade_Some & Ht & _)%checked_ok. by rewrite (Hf st' Hal Ha) in *. Qed.
(** Why a lease is refused, and that it stays so. *)
Lemma refused_read released st w time e s' : fixed_at st w → checked_state (wo_held w) (lease_of st) time (wo_store w) = (Err e, s') →
  e = MemoryError.LeaseExpired ∧ (registered st w → (le_expires_at st <= N.max (rs_clock (wo_store w)) time)%N) ∧
  ∀ w' time', rtc (step released (le_address st)) (world s' (wo_fund w) (wo_held w)) w' →
    (checked_state (wo_held w') (lease_of st) time' (wo_store w')).1 = Err MemoryError.LeaseExpired.
Proof using Type.
  intros Hf Hc. unfold checked_state in Hc. destruct (upgrade (wo_held w) (wo_store w) (lease_of st)) as [st'|] eqn:Hup.
  - apply upgrade_Some in Hup as [Hal Ha]. rewrite (Hf st' Hal Ha) in Hc. case_decide as Hx; [|done]. injection Hc as <- <-. simpl in Hx. split_and!; [done|done|].
    intros w' time' Hsteps. assert (Hf' : fixed_at st w') by (eapply fixed_steps; [exact Hsteps|exact Hf]). apply steps_clocks in Hsteps. simpl in Hsteps. unfold checked_state.
    destruct (upgrade _ _ _) as [st''|] eqn:Hup'; [|done]. apply upgrade_Some in Hup' as [Hal' Ha']. rewrite (Hf' st'' Hal' Ha'). simpl. rewrite decide_True by lia. done.
  - injection Hc as <- <-. split_and!; [done| |].
    + intros [_ Hreg]. destruct (decide (rs_clock (wo_store w) < le_expires_at st)%N) as [Hlt|]; [|lia]. rewrite upgrade_None in Hup. destruct (Hup st); [|done].
      apply elem_of_alive. left. eauto.
    + intros w' time' Hsteps. unfold checked_state. assert (upgrade (wo_held w') (wo_store w') (lease_of st) = None) as ->; [|done]. apply upgrade_None. intros st' Hl Ha.
      rewrite upgrade_None in Hup. eapply (Hup st'), Ha. exact (steps_living released (le_address st) _ _ _ Hsteps Hl Ha).
Qed.
(** C33: A lease reads the rows of its pin: at any later point, through batches,
    other leases, clocks and reads, a read through it sees the root that was
    published when it was pinned, before its expiry; a refused read is refused
    for expiry (where the lease was not released, because the clock or the
    reader's time reached it), and every later read is refused too. *)
Theorem lease_reads_pinned_rows released w now ttl address lease s1 f1 w' time :
  address ∉ le_address <$> living w → pin now ttl address (wo_store w, wo_fund w) = (Ok lease, (s1, f1)) →
  rtc (step released address) (world s1 f1 (wo_held w)) w' →
  match checked_state (wo_held w') lease time (wo_store w') with
  | (Ok st, _) => le_root st = rs_root (wo_store w) ∧ (time < now + ttl)%N
  | (Err e, s2) => e = MemoryError.LeaseExpired ∧ (released = false → (now + ttl <= N.max (rs_clock (wo_store w')) time)%N) ∧
      ∀ w2 time2, rtc (step released address) (world s2 (wo_fund w') (wo_held w')) w2 →
        (checked_state (wo_held w2) lease time2 (wo_store w2)).1 = Err MemoryError.LeaseExpired
  end.
Proof using Type.
  intros Hfresh Hp Hsteps. apply (pin_fresh _ _ _ _ _ (wo_held w)) in Hp as (st & Ha & Hr & Hx & _ & -> & Hreg & Hf); [|done]. rewrite <-Ha in *.
  assert (Hf' : fixed_at st w') by (by eapply fixed_steps). destruct (checked_state (wo_held w') (lease_of st) time (wo_store w')) as [[st'|e] s2] eqn:Hc.
  - apply fixed_read in Hc as [-> ?]; [|done]. by rewrite <-Hx.
  - apply (refused_read released) in Hc as (? & Hexp & ?); [|done]. split_and!; [done| |done]. intros ->. rewrite <-Hx. apply Hexp. by eapply steps_registered.
Qed.
End Leases.

(** ** Runs of pages *)
(** Pages read one after another, each with the continuation of the one before;
    anything may happen between them. *)
Inductive page_run {W P C : Type} (continuation : P → option C) (read : W → option C → P → W → Prop) (between : W → W → Prop) : W → list P → W → Prop :=
  | run_first w w1 page w2 : between w w1 → read w1 None page w2 → page_run continuation read between w [page] w2
  | run_next w pages page1 w1 c w2 page w3 : page_run continuation read between w (pages ++ [page1]) w1 → continuation page1 = Some c →
      between w1 w2 → read w2 (Some c) page w3 → page_run continuation read between w ((pages ++ [page1]) ++ [page]) w3.
Section Runs.
Context {K V : Type} `{Laws : RangeKeyLaws K, F : PageDirectory.Funding, Z : PageSizes, SnapshotSizes}.
#[local] Set Default Proof Using "Type Laws".
Implicit Types (s : RangeStore K V) (w : World K V) (st : LeaseState K V) (lease : SnapshotLease).
Definition reads_scan lease (query : ScanQuery K) w cont (page : ReadPage K V) w' : Prop :=
  ∃ budget now s f, scan (wo_held w) lease query budget cont now (wo_store w, wo_fund w) = (Ok page, (s, f)) ∧ w' = world s f (wo_held w).
(** The rows a query asks for, in key order. *)
Definition query_rows (query : ScanQuery K) (r : Root K V) : list (Entry K V) := rest_rows query None r.
Lemma read_steps released a w lease now s f : s = (checked_state (wo_held w) lease now (wo_store w)).2 → rtc (step released a) w (world s f (wo_held w)).
Proof using Type.
  intros ->. destruct w as [s0 f0 held]. eapply rtc_l; [apply (step_read released a s0 f0 held lease now)|]. apply rtc_once. constructor.
Qed.
Lemma scan_run_exact released st query w pages w' : directory_sound (ro_pages (le_root st)) → fixed_at st w →
  page_run pa_continuation (reads_scan (lease_of st) query) (rtc (step released (le_address st))) w pages w' →
  fixed_at st w' ∧ Forall (λ page, pa_prefix page = ro_prefix (le_root st)) pages ∧
  ∃ page rest, last pages = Some page ∧ query_rows query (le_root st) = concat (pa_items <$> pages) ++ rest ∧
    rest = match pa_continuation page with Some c => rest_rows query (Some c) (le_root st) | None => [] end ∧
    (length pages <= length (concat (pa_items <$> pages)) + 1)%nat ∧ (is_Some (pa_continuation page) → length pages <= length (concat (pa_items <$> pages)))%nat.
Proof.
  intros Hd Hf Hrun. induction Hrun as [w w1 page w2 Hsteps (budget & now & s & f & Hscan & ->)|w pages page1 w1 c w2 page w3 Hrun IH Hc Hsteps (budget & now & s & f & Hscan & ->)].
  - assert (Hf1 : fixed_at st w1) by (by eapply fixed_steps). apply scan_ok in Hscan as (st' & Hch & Hpage).
    assert (Hf2 : fixed_at st (world s f (wo_held w1))) by (eapply (fixed_steps released), Hf1; eapply read_steps; by rewrite Hch).
    apply fixed_read in Hch as [-> _]; [|done]. specialize (Hpage Hd) as [Hprefix Hrows _ Hprog]. split; [done|]. split; [by constructor|].
    exists page, (match pa_continuation page with Some c => rest_rows query (Some c) (le_root st) | None => [] end). cbn [fmap list_fmap concat]. rewrite app_nil_r.
    split_and!; [done|done|done|simpl; lia|]. intros Hm. specialize (Hprog Hm). destruct (pa_items page); [done|]. simpl. lia.
  - destruct (IH Hf) as (Hf1 & Hprefixes & page' & rest & Hlast & Hq & Hrest & Hlen & Hlen'). rewrite last_snoc in Hlast. injection Hlast as <-. rewrite Hc in Hrest, Hlen'.
    assert (Hf2 : fixed_at st w2) by (by eapply fixed_steps). apply scan_ok in Hscan as (st' & Hch & Hpage).
    assert (Hf3 : fixed_at st (world s f (wo_held w2))) by (eapply (fixed_steps released), Hf2; eapply read_steps; by rewrite Hch).
    apply fixed_read in Hch as [-> _]; [|done]. specialize (Hpage Hd) as [Hprefix Hrows _ Hprog]. split; [done|]. split; [apply Forall_app; split; [done|by constructor]|].
    exists page, (match pa_continuation page with Some c => rest_rows query (Some c) (le_root st) | None => [] end).
    rewrite (fmap_app _ (pages ++ [page1])), concat_app. cbn [fmap list_fmap concat]. rewrite app_nil_r, last_snoc, !length_app in *. specialize (Hlen' (mk_is_Some _ _ eq_refl)).
    split_and!; [done|by rewrite Hq, Hrest, Hrows, app_assoc|done|simpl in *; lia|]. intros Hm. specialize (Hprog Hm). destruct (pa_items page); [done|]. simpl in *. lia.
Qed.
(** C34: A scan through a lease returns exactly the query's rows: its pages, read
    one after another while anything else happens to the store, are at the pinned
    prefix and hold the rows of the pinned root within the query, in key order and
    without a gap; a scan without a continuation is finished, and one that goes on
    has read at least a row a page. *)
Theorem scan_pages_exact released w now ttl address lease s1 f1 query pages w' :
  address ∉ le_address <$> living w → directory_sound (ro_pages (rs_root (wo_store w))) →
  pin now ttl address (wo_store w, wo_fund w) = (Ok lease, (s1, f1)) →
  page_run pa_continuation (reads_scan lease query) (rtc (step released address)) (world s1 f1 (wo_held w)) pages w' →
  Forall (λ page, pa_prefix page = ro_prefix (rs_root (wo_store w))) pages ∧
  ∃ page rest, last pages = Some page ∧ query_rows query (rs_root (wo_store w)) = concat (pa_items <$> pages) ++ rest ∧
    (pa_continuation page = None → rest = []) ∧ (is_Some (pa_continuation page) → length pages <= length (concat (pa_items <$> pages)))%nat.
Proof.
  intros Hfresh Hd Hp Hrun. apply (pin_fresh _ _ _ _ _ (wo_held w)) in Hp as (st & Ha & Hr & _ & _ & -> & _ & Hf); [|done]. rewrite <-Ha, <-Hr in *.
  apply scan_run_exact in Hrun as (_ & Hpre & page & rest & Hl & Hq & Hrest & _ & Hlen); [|done|done]. split; [done|]. exists page, rest. split_and!; try done.
  intros Hn. by rewrite Hrest, Hn.
Qed.
(** ** Traversals *)
Context (next : K → V → option K → Try MemoryError (option K)).
Definition reads_traversal lease (query : TraversalQuery K) (limits : TraversalLimits) w cont (page : option (TraversalPage K V)) w' : Prop :=
  ∃ budget now s f, traverse (wo_held w) lease query limits budget cont now next (wo_store w, wo_fund w) = (Ok page, (s, f)) ∧ w' = world s f (wo_held w).
Definition traversal_continuation (page : option (TraversalPage K V)) : option (TraversalContinuation K) := page ≫= tp_continuation.
(** A page that goes on has read a row or probed an edge. *)
Definition page_progress (page : TraversalPage K V) : Prop := is_Some (tp_continuation page) → tp_items page ≠ [] ∨ (0 < tp_edge_visits page)%N.
Lemma traversal_run_exact released st query limits w pages w' : directory_sound (ro_pages (le_root st)) → (0 < max_traversal_edges (le_config st))%N → fixed_at st w →
  page_run traversal_continuation (reads_traversal (lease_of st) query limits) (rtc (step released (le_address st))) w pages w' →
  fixed_at st w' ∧ ∃ read page budget, pages = Some <$> read ++ [page] ∧ Forall page_progress (read ++ [page]) ∧
    traversed next (le_root st) (tq_root query) limits budget (concat (tp_items <$> read)) page.
Proof.
  intros Hd Hedges Hf Hrun. induction Hrun as [w w1 page w2 Hsteps (budget & now & s & f & Htr & ->)|w pages page1 w1 c w2 page w3 Hrun IH Hc Hsteps (budget & now & s & f & Htr & ->)].
  - assert (Hf1 : fixed_at st w1) by (by eapply fixed_steps). apply (traverse_ok next (le_root st) (tq_root query)) in Htr as (st' & Hch & Hpage).
    assert (Hf2 : fixed_at st (world s f (wo_held w1))) by (eapply (fixed_steps released), Hf1; eapply read_steps; by rewrite Hch). split; [done|].
    apply fixed_read in Hch as [-> _]; [|done]. destruct (Hpage eq_refl Hd eq_refl Hedges [] eq_refl) as (p & -> & Hp). exists [], p, budget. split_and!; [done| |done].
    constructor; [|constructor]. intros [c Hc]. by apply (tp_resumes _ _ _ _ _ _ _ Hp c).
  - destruct (IH Hf) as (Hf1 & read & p1 & budget1 & Hpages & Hprog & Hp1). rewrite fmap_app in Hpages. apply app_inj_tail in Hpages as [-> ->].
    assert (Hf2 : fixed_at st w2) by (by eapply fixed_steps). apply (traverse_ok next (le_root st) (tq_root query)) in Htr as (st' & Hch & Hpage).
    assert (Hf3 : fixed_at st (world s f (wo_held w2))) by (eapply (fixed_steps released), Hf2; eapply read_steps; by rewrite Hch). split; [done|].
    apply fixed_read in Hch as [-> _]; [|done]. destruct (tp_resumes _ _ _ _ _ _ _ Hp1 c Hc) as [Hres _].
    destruct (Hpage eq_refl Hd eq_refl Hedges _ Hres) as (p & -> & Hp). exists (read ++ [p1]), p, budget.
    split_and!; [by rewrite !fmap_app| |rewrite fmap_app, concat_app; simpl; by rewrite app_nil_r].
    apply Forall_app. split; [done|]. constructor; [|constructor]. intros [c' Hc']. by apply (tp_resumes _ _ _ _ _ _ _ Hp c').
Qed.
(** C35: A traversal through a lease visits what is reachable: however its pages are
    cut and whatever happens between them, none runs past its bound, each that goes
    on has read a row or probed an edge, the edges probed stay within the limit,
    and a traversal that ends complete has read the row of every key reachable from
    the query's root in the pinned rows, each exactly once. *)
Theorem traversal_reads_reachable released w now ttl address lease s1 f1 query limits pages w' :
  address ∉ le_address <$> living w → directory_sound (ro_pages (rs_root (wo_store w))) → (0 < max_traversal_edges (rs_config (wo_store w)))%N →
  pin now ttl address (wo_store w, wo_fund w) = (Ok lease, (s1, f1)) →
  page_run traversal_continuation (reads_traversal lease query limits) (rtc (step released address)) (world s1 f1 (wo_held w)) pages w' →
  ∃ read page, pages = Some <$> read ++ [page] ∧ Forall page_progress (read ++ [page]) ∧ (tp_total_edge_visits page <= tl_max_edges limits)%N ∧
    (tp_stop page = TraversalStop.Complete →
      let rows := concat (tp_items <$> read ++ [page]) in
      NoDup (en_key <$> rows) ∧ (∀ k, k ∈ en_key <$> rows ↔ rtc (edge next (rs_root (wo_store w))) (tq_root query) k) ∧
      ∀ e, e ∈ rows → root_get (rs_root (wo_store w)) (en_key e) = Some e).
Proof.
  intros Hfresh Hd Hedges Hp Hrun. apply (pin_fresh _ _ _ _ _ (wo_held w)) in Hp as (st & Ha & Hr & _ & Hcfg & -> & _ & Hf); [|done]. rewrite <-Ha, <-Hr, <-Hcfg in *.
  apply traversal_run_exact in Hrun as (_ & read & page & budget & -> & Hprog & Hp); [|done..]. exists read, page. split_and!; [done|done|apply Hp|].
  intros Hdone. rewrite fmap_app, concat_app. cbn [fmap list_fmap concat]. rewrite app_nil_r. by apply (tp_complete _ _ _ _ _ _ _ Hp).
Qed.
End Runs.

(** ** At the small store *)
Module Leased.
Import Paging.
#[local] Open Scope N_scope.
#[export] Instance snapshot_sizes : SnapshotSizes :=
  {| size_of_LeaseState := 80; size_of_LeaseRow := 16; size_of_Permit := 16; size_of_FrozenRange := 24; size_of_ReadPage := 64; size_of_ScanContinuation := 72;
     size_of_TraversalPage := 96; size_of_TraversalContinuation := 200; size_of_PendingNode := 40; size_of_Key := 16 |}.
Definition before_pin : World N N := world filled start [].
Definition ok_of {A} (default : A) {S} (x : Try MemoryError A * S) : A := match x.1 with Ok y => y | Err _ => default end.
Definition no_lease : SnapshotLease := {| sl_state := 0; sl_range := 0; sl_id := 0; sl_prefix := 0; sl_expires_at := 0 |}.
Definition lease : SnapshotLease := Eval vm_compute in ok_of no_lease (pin 5 20 500 (filled, start)).
Definition pinned : RangeStore N N * fund := Eval vm_compute in (pin 5 20 500 (filled, start)).2.
Definition batched : RangeStore N N * fund := Eval vm_compute in (apply_batch 2 changes 3 BudgetLane.Ordinary 102 pinned).2.
Lemma pin_run : pin 5 20 500 (wo_store before_pin, wo_fund before_pin) = (Ok lease, (pinned.1, pinned.2)).
Proof. vm_compute. reflexivity. Qed.
Lemma batch_run : apply_batch 2 changes 3 BudgetLane.Ordinary 102 (pinned.1, pinned.2) = (Ok (), (batched.1, batched.2)).
Proof. vm_compute. reflexivity. Qed.
Lemma batch_steps released : rtc (step released 500) (world pinned.1 pinned.2 []) (world batched.1 batched.2 []).
Proof. apply rtc_once. eapply step_batch. exact batch_run. Qed.
Lemma fresh : 500 ∉ le_address <$> living before_pin.
Proof. vm_compute. by intros ?%elem_of_nil. Qed.
Definition late : RangeStore N N := Eval vm_compute in (store_advance_clock 25 batched.1).2.
Lemma lease_reads_pinned_rows_witness :
  (checked_state [] lease 24 batched.1).1 = Ok {| le_address := 500; le_root := rs_root filled; le_id := 1; le_expires_at := 25; le_config := config |} ∧
  root_get (rs_root filled) 30 = Some (row 30 3) ∧ (checked_state [] lease 10 late).1 = Err MemoryError.LeaseExpired.
Proof.
  split; [|split; [vm_compute; reflexivity|]].
  - vm_compute. reflexivity.
  - pose proof (lease_reads_pinned_rows false before_pin 5 20 500 lease pinned.1 pinned.2 (world late batched.2 []) 10 fresh pin_run) as Hr.
    assert (Hsteps : rtc (step false 500) (world pinned.1 pinned.2 (wo_held before_pin)) (world late batched.2 [])).
    { eapply rtc_r; [exact (batch_steps false)|]. apply (step_clock false 500 batched.1 batched.2 [] 25). }
    specialize (Hr Hsteps). assert (Ho : match (checked_state [] lease 10 late).1 with Err _ => True | Ok _ => False end) by (vm_compute; exact I).
    cbn [wo_store wo_held wo_fund world] in Hr. destruct (checked_state [] lease 10 late) as [[st|e] s2]; [destruct Ho|]. destruct Hr as (-> & _). reflexivity.
Defined.
Definition query : ScanQuery N := {| sq_start := Some 20; sq_end := Some 80; sq_heap_bytes := 0 |}.
Definition two : ReadBudget := {| bu_max_items := 4; bu_max_bytes := 1000; bu_max_edge_visits := 2 |}.
Definition no_page : ReadPage N N := {| pa_prefix := 0; pa_items := []; pa_continuation := None |}.
Definition page_a : ReadPage N N := Eval vm_compute in ok_of no_page (scan [] lease query two None 6 pinned).
Definition after_a : RangeStore N N * fund := Eval vm_compute in (scan [] lease query two None 6 pinned).2.
Definition batched_a : RangeStore N N * fund := Eval vm_compute in (apply_batch 2 changes 3 BudgetLane.Ordinary 102 after_a).2.
Definition page_b : ReadPage N N := Eval vm_compute in ok_of no_page (scan [] lease query two (pa_continuation page_a) 7 batched_a).
Definition after_b : RangeStore N N * fund := Eval vm_compute in (scan [] lease query two (pa_continuation page_a) 7 batched_a).2.
Lemma scan_pages_exact_witness : query_rows query (rs_root filled) = pa_items page_a ++ pa_items page_b ∧ length (pa_items page_a) = 4%nat ∧
  en_key <$> query_rows query (rs_root filled) = [20; 30; 40; 50; 60; 70].
Proof.
  destruct (scan_pages_exact false before_pin 5 20 500 lease pinned.1 pinned.2 query [page_a; page_b] (world after_b.1 after_b.2 [])) as (_ & page & rest & Hl & Hq & Hend & _).
  - exact fresh.
  - exact (rs_directory _ _ _ filled_sound).
  - exact pin_run.
  - eapply (run_next _ _ _ _ [] page_a (world after_a.1 after_a.2 []) (default {| sc_range := 0; sc_lease := 0; sc_prefix := 0; sc_query := query; sc_after := 0 |} (pa_continuation page_a)) (world batched_a.1 batched_a.2 [])).
    + eapply run_first; [apply rtc_refl|]. exists two, 6, after_a.1, after_a.2. split; [vm_compute; reflexivity|reflexivity].
    + vm_compute. reflexivity.
    + apply rtc_once. eapply (step_batch false 500 after_a.1 after_a.2 [] 2 changes 3 BudgetLane.Ordinary 102). vm_compute. reflexivity.
    + exists two, 7, after_b.1, after_b.2. split; [vm_compute; reflexivity|reflexivity].
  - injection Hl as <-. specialize (Hend ltac:(vm_compute; reflexivity)). rewrite Hend in Hq. change (rs_root (wo_store before_pin)) with (rs_root filled) in Hq. split; [rewrite Hq; vm_compute; reflexivity|].
    split; [vm_compute; reflexivity|]. rewrite Hq. vm_compute. reflexivity.
Defined.
(** Every row leads to the row of twice its key. *)
Definition doubles (k v : N) (after : option N) : Try MemoryError (option N) :=
  mret (match after with None => if 2 * k <=? 100 then Some (2 * k) else None | Some _ => None end).
Definition graph : TraversalQuery N := {| tq_root := 20; tq_fingerprint := [] |}.
Definition bounds : TraversalLimits := {| tl_max_depth := 8; tl_max_nodes := 8; tl_max_edges := 8; tl_max_state_bytes := 10000 |}.
Definition tree_a : option (TraversalPage N N) := Eval vm_compute in ok_of None (traverse [] lease graph bounds two None 6 doubles pinned).
Definition tree_after_a : RangeStore N N * fund := Eval vm_compute in (traverse [] lease graph bounds two None 6 doubles pinned).2.
Definition wide : ReadBudget := {| bu_max_items := 4; bu_max_bytes := 1000; bu_max_edge_visits := 8 |}.
Definition tree_b : option (TraversalPage N N) := Eval vm_compute in ok_of None (traverse [] lease graph bounds wide (traversal_continuation tree_a) 7 doubles tree_after_a).
Definition tree_after_b : RangeStore N N * fund := Eval vm_compute in (traverse [] lease graph bounds wide (traversal_continuation tree_a) 7 doubles tree_after_a).2.
Lemma traversal_reads_reachable_witness : rtc (edge doubles (rs_root filled)) 20 80 ∧ ¬ rtc (edge doubles (rs_root filled)) 20 30.
Proof.
  destruct (traversal_reads_reachable doubles false before_pin 5 20 500 lease pinned.1 pinned.2 graph bounds [tree_a; tree_b] (world tree_after_b.1 tree_after_b.2 []))
    as (read & page & Hpages & _ & _ & Hdone).
  - exact fresh.
  - exact (rs_directory _ _ _ filled_sound).
  - vm_compute. reflexivity.
  - exact pin_run.
  - eapply (run_next _ _ _ _ [] tree_a (world tree_after_a.1 tree_after_a.2 [])); [|vm_compute; reflexivity|apply rtc_refl|].
    + eapply run_first; [apply rtc_refl|]. exists two, 6, tree_after_a.1, tree_after_a.2. split; [vm_compute; reflexivity|reflexivity].
    + exists wide, 7, tree_after_b.1, tree_after_b.2. split; [vm_compute; reflexivity|reflexivity].
  - change (rs_root (wo_store before_pin)) with (rs_root filled) in Hdone. change (tq_root graph) with 20 in Hdone.
    assert (Hrows : concat (tp_items <$> read ++ [page]) = concat ((λ p, match p with Some p => tp_items p | None => [] end) <$> [tree_a; tree_b]))
      by (rewrite Hpages, <-list_fmap_compose; reflexivity).
    assert (Hstop : tp_stop page = TraversalStop.Complete).
    { assert (Hlast : last [tree_a; tree_b] = Some (Some page)) by (rewrite Hpages, fmap_app; apply last_snoc). vm_compute in Hlast. injection Hlast as <-. reflexivity. }
    destruct (Hdone Hstop) as (_ & Hreach & _). rewrite Hrows in Hreach. split; [apply Hreach|rewrite <-Hreach]; vm_compute.
    + right. right. left.
    + intros Hin. repeat (apply elem_of_cons in Hin as [[=]|Hin]). by apply elem_of_nil in Hin.
Defined.
End Leased.
