(* ===== verification/Replica.v ===== *)
(** * Range replicas (focal-ranges: replica.rs)

    A replica holds one range's rows in a range store and applies the session's
    committed batches to it in order. A movement seeds a destination block by
    block in a stager, which installs as a staging replica; the source is armed,
    sealed at the barrier and never written again; the destination is activated by
    a certificate of the coordinator. Replicas and stagers are written out as
    checkpoints and restored from them.

    A serialized value's bytes, its length and the digests are parameters
    ([RangeWire], [ReplicaWire]). The room of a row's vector is an argument of the
    operation that charges for it, by the row's key. The store's owner and the
    addresses of its roots are as in [PageStore]. *)
From stdpp Require Import prelude gmap strings list.
From Stdlib Require Import NArith.
From S2P Require Import Prelude Fallible Objects Budget RangeMap RangeTypes RangePins RangeTransfer Pages PageDirectory PageStore Snapshots.

#[local] Open Scope N_scope.
#[export] Instance storage_range_key : RangeKey StorageKey := whole_key StorageKey.
Notation Rows := (RangeStore StorageKey (list N)).
Notation Row := (Entry StorageKey (list N)).
Module ReplicaRole.
Inductive t :=
  | Active (epoch : RouteEpoch)
  | Staging (operation : TransferId) (source_epoch target_epoch : RouteEpoch)
  | Sealed (operation : TransferId) (epoch next_epoch : RouteEpoch) (cut : SessionSeq)
  | Retired.
#[export] Instance replica_role_eq_dec : EqDecision t.
Proof. solve_decision. Defined.
End ReplicaRole.
Notation ReplicaRole := ReplicaRole.t.
Export (hints) ReplicaRole.
Record Armed := { am_operation : TransferId; am_next_epoch : RouteEpoch; am_intent : ContentHash }.
#[export] Instance armed_eq_dec : EqDecision Armed.
Proof. solve_decision. Defined.
Record StageCheckpoint := { sg_schema : N; sg_manifest : SeedManifest; sg_blocks : gmap N RangeBlock }.
Record ReplicaCheckpoint := {
  rq_schema : N; rq_ledger : LedgerId; rq_descriptor : Descriptor; rq_role : ReplicaRole; rq_seed : SessionSeq; rq_snapshot : ContentHash;
  rq_prefix : SessionSeq; rq_rows : list DataRow; rq_receipts : gmap SessionSeq ContentHash; rq_armed : option Armed
}.
(** Serialization of what replicas write, and the checksum of a checkpoint. *)
Class ReplicaWire := {
  block_size : RangeBlock → Try RangeError N;
  manifest_size : SeedManifest → Try RangeError N;
  batch_size : RangeBatch → Try RangeError N;
  stage_bytes : StageCheckpoint → Try RangeError (list N);
  stage_take : list N → Try RangeError (StageCheckpoint * list N);
  replica_bytes : ReplicaCheckpoint → Try RangeError (list N);
  replica_take : list N → Try RangeError (ReplicaCheckpoint * list N);
  checkpoint_digest : list N → ContentHash
}.
(** Sizes of the compiler's layout. *)
Class ReplicaLayout := {
  size_of_RangeStager : N; size_of_BlockDescriptor : N; size_of_HeldBlock : N; size_of_DataRow : N; size_of_RangeReplica : N; size_of_Receipt : N
}.
(** [encode] and [decode] of lib.rs, at a value's serialization. *)
Definition range_encode (bytes : Try RangeError (list N)) (limit : N) : Try RangeError (list N) :=
  bytes ← bytes;
  refuse_if (limit < N.of_nat (length bytes)) RangeError.Capacity;;
  mret bytes.
Definition range_decode {A} (take_from : list N → Try RangeError (A * list N)) (bytes : list N) (limit : N) : Try RangeError A :=
  refuse_if (limit < N.of_nat (length bytes)) RangeError.Capacity;;
  '(value, rest) ← take_from bytes;
  refuse_if (rest ≠ []) RangeError.Codec;;
  mret value.
Record RangeSnapshot := { sh_bytes : list N; sh_hash : ContentHash }.
Definition snapshot_encode `{ReplicaWire} (bytes : Try RangeError (list N)) (limits : RangeLimits) : Try RangeError RangeSnapshot :=
  bytes ← range_encode bytes (max_checkpoint_bytes limits);
  mret {| sh_bytes := bytes; sh_hash := checkpoint_digest bytes |}.

(** ** Seeds *)
Definition store_config (limits : RangeLimits) : RangeConfig := {|
  page_entries := page_entries range_config_default; page_bytes := page_bytes range_config_default;
  max_entry_bytes := max_entry_bytes range_config_default; max_batch_entries := N.to_nat (max_batch_writes limits);
  max_snapshot_leases := N.to_nat (max_pins limits); max_snapshot_ttl := max_pin_ttl limits;
  max_query_items := max_query_items range_config_default; max_query_bytes := max_query_bytes range_config_default;
  max_traversal_depth := max_traversal_depth range_config_default; max_traversal_nodes := max_traversal_nodes range_config_default;
  max_traversal_edges := max_traversal_edges range_config_default; max_continuation_bytes := max_continuation_bytes range_config_default
|}.
(** Keys that do not rise strictly: some neighbours [zip]ped with [skip(1)]. *)
Fixpoint unordered (keys : list StorageKey) : bool :=
  match keys with
  | k :: keys => is_some_and (λ k', bool_decide (key_le k' k)) (head keys) || unordered keys
  | [] => false
  end.
(** [Entry::new] of a row, whose vector has room for [room]. *)
Definition row_entry (room : StorageKey → N) (row : DataRow) : Row :=
  {| en_key := dw_key row; en_value := dw_value row; en_heap_bytes := saturating (room (dw_key row) + 32) |}.
Definition entry_row (e : Row) : DataRow := {| dw_key := en_key e; dw_value := en_value e |}.

Section Seeds.
Context `{RangeWire, ReplicaWire, ReplicaLayout}.
Definition block_hash (b : RangeBlock) : Try RangeError ContentHash := digest "focal.range-block.v1" (Hashed.Block b).
Definition manifest_hash (m : SeedManifest) : Try RangeError ContentHash := digest "focal.range-seed.v1" (Hashed.Seed m).
(** The loop of [SeedManifest::validate]. *)
Fixpoint check_blocks (limits : RangeLimits) (span : Span) (index : N) (previous : option StorageKey) (total : N) (l : list BlockDescriptor) :
    Try RangeError N :=
  match l with
  | [] => mret total
  | block :: l =>
      refuse_if (bd_index block ≠ index ∨ bd_rows block = 0 ∨ max_block_rows limits < bd_rows block ∨ max_block_bytes limits < bd_bytes block
                 ∨ key_lt (bd_last block) (bd_first block) ∨ span_contains span (bd_first block) = false
                 ∨ span_contains span (bd_last block) = false
                 ∨ is_some_and (λ last, bool_decide (key_le (bd_first block) last)) previous = true ∨ nonzero (bd_hash block) = false)
        (RangeError.Invalid "block manifest");;
      total ← range_add total (bd_rows block);
      check_blocks limits span (index + 1) (Some (bd_last block)) total l
  end.
Definition manifest_validate (m : SeedManifest) (limits : RangeLimits) : Try RangeError () :=
  validate_descriptor (sm_destination m) limits;;
  refuse_if (checked_add (sm_source_epoch m) 1 ≠ Some (sm_target_epoch m) ∨ max_blocks limits < N.of_nat (length (sm_blocks m)))
    RangeError.StaleEpoch;;
  total ← check_blocks limits (rd_span (sm_destination m)) 0 None 0 (sm_blocks m);
  refuse_if (max_replica_rows limits < total) RangeError.Capacity.
End Seeds.

(** ** Stagers *)
Record RangeStager := { st_manifest : SeedManifest; st_blocks : gmap N RangeBlock; st_limits : RangeLimits }.
Section Stagers.
Context `{RangeWire, ReplicaWire, ReplicaLayout, Funding, PageSizes}.
Definition reserve_for (kind : BudgetKind) (bytes : N) : Fallible fund RangeError () :=
  errors_as RangeError.Memory (fund_reserve kind BudgetLane.Completion bytes).
Definition stager_new (manifest : SeedManifest) (limits : RangeLimits) : Fallible fund RangeError RangeStager :=
  lift (range_limits_validate limits);;
  lift (manifest_validate manifest limits);;
  blocks ← lift (range_mul (N.of_nat (length (sm_blocks manifest))) (range_row size_of_BlockDescriptor));
  charge ← lift (range_add (range_row size_of_RangeStager) blocks);
  reserve_for BudgetKind.Recovery charge;;
  mret {| st_manifest := manifest; st_blocks := ∅; st_limits := limits |}.
Definition on_fund_only {A} (m : Fallible fund RangeError A) : Fallible (RangeStager * fund) RangeError A := λ '(s, f),
  let '(x, f) := m f in (x, (s, f)).
(** [capacity] is the room of the block's vector of rows. *)
Definition held_charge (room : StorageKey → N) (capacity : N) (block : RangeBlock) : Try RangeError N :=
  rows ← range_mul capacity size_of_DataRow;
  values ← try_fold (λ sum row, value ← range_add (room (dw_key row)) 32; range_add sum value) 0 (bk_rows block);
  inner ← range_add rows values;
  range_add (range_row size_of_HeldBlock) inner.
Definition check_block (s : RangeStager) (block : RangeBlock) : Try RangeError () :=
  expected ← or_fail (sm_blocks (st_manifest s) !! N.to_nat (bk_index block)) RangeError.Missing;
  bytes ← block_size block;
  refuse_if (bytes ≠ bd_bytes expected ∨ max_block_bytes (st_limits s) < bytes ∨ N.of_nat (length (bk_rows block)) ≠ bd_rows expected) RangeError.Checksum;;
  hash ← block_hash block;
  refuse_if (hash ≠ bd_hash expected) RangeError.Checksum;;
  let keys := dw_key <$> bk_rows block in
  refuse_if (head keys ≠ Some (bd_first expected) ∨ last keys ≠ Some (bd_last expected) ∨ unordered keys = true) RangeError.Overlap.
Definition accept (room : StorageKey → N) (capacity : N) (block : RangeBlock) : Fallible (RangeStager * fund) RangeError () :=
  '(s, _) ← gets id;
  lift (check_block s block);;
  match st_blocks s !! bk_index block with
  | Some old => lift (refuse_if (old ≠ block) RangeError.Conflict)
  | None =>
      charge ← lift (held_charge room capacity block);
      on_fund_only (reserve_for BudgetKind.Recovery charge);;
      modify (λ '(s, f), ({| st_manifest := st_manifest s; st_blocks := <[bk_index block := block]> (st_blocks s); st_limits := st_limits s |}, f))
  end.
Definition stager_checkpoint (s : RangeStager) : Fallible fund RangeError RangeSnapshot :=
  manifest ← lift (manifest_size (st_manifest s));
  start ← lift (range_add 8192 manifest);
  estimate ← lift (try_fold (λ sum entry, size ← block_size entry.2; range_add sum size) start (Prelude.entries (st_blocks s)));
  charge ← lift (range_mul estimate 8);
  reserve_for BudgetKind.Recovery charge;;
  lift (snapshot_encode (stage_bytes {| sg_schema := 1; sg_manifest := st_manifest s; sg_blocks := st_blocks s |}) (st_limits s)).
(** The check and the decode that both restores begin with. *)
Definition read_checkpoint {A} (take_from : list N → Try RangeError (A * list N)) (bytes : list N) (expected : ContentHash) (limits : RangeLimits) :
    Fallible fund RangeError A :=
  lift (refuse_if (checkpoint_digest bytes ≠ expected) RangeError.Checksum);;
  size ← lift (range_add (N.of_nat (length bytes)) 8192);
  charge ← lift (range_mul size 32);
  reserve_for BudgetKind.Recovery charge;;
  lift (range_decode take_from bytes (max_checkpoint_bytes limits)).
(** The blocks of a checkpoint are accepted one by one; [rooms] has the room of
    each block's rows and values. *)
Fixpoint accept_all (rooms : N → (StorageKey → N) * N) (l : list (N * RangeBlock)) : Fallible (RangeStager * fund) RangeError () :=
  match l with
  | [] => mret ()
  | (index, block) :: l =>
      lift (refuse_if (index ≠ bk_index block) RangeError.Conflict);;
      accept (rooms index).1 (rooms index).2 block;;
      accept_all rooms l
  end.
Definition stager_restore (bytes : list N) (expected : ContentHash) (limits : RangeLimits) (rooms : N → (StorageKey → N) * N) :
    Fallible fund RangeError RangeStager := λ f,
  match (checkpoint ← read_checkpoint stage_take bytes expected limits;
         lift (refuse_if (sg_schema checkpoint ≠ 1 ∨ max_blocks limits < N.of_nat (size (sg_blocks checkpoint))) RangeError.Capacity);;
         stage ← stager_new (sg_manifest checkpoint) limits;
         mret (checkpoint, stage)) f with
  | (Err e, f) => (Err e, f)
  | (Ok (checkpoint, stage), f) =>
      match accept_all rooms (Prelude.entries (sg_blocks checkpoint)) (stage, f) with
      | (Err e, (_, f)) => (Err e, f)
      | (Ok (), (stage, f)) => (Ok stage, f)
      end
  end.
End Stagers.

(** ** Replicas *)
Record RangeReplica := {
  rr_ledger : LedgerId; rr_descriptor : Descriptor; rr_role : ReplicaRole; rr_seed : SessionSeq; rr_snapshot : ContentHash; rr_store : Rows;
  rr_receipts : gmap SessionSeq ContentHash; rr_armed : option Armed; rr_limits : RangeLimits
}.
Record PreparedReplicaBatch := {
  pb_base_role : ReplicaRole; pb_sequence : SessionSeq; pb_hash : ContentHash; pb_decision : ContentHash;
  pb_prepared : option (PreparedRange StorageKey (list N)); pb_receipts : gmap SessionSeq ContentHash; pb_batch : RangeBatch
}.
Definition with_role (role : ReplicaRole) (armed : option Armed) (r : RangeReplica) : RangeReplica :=
  {| rr_ledger := rr_ledger r; rr_descriptor := rr_descriptor r; rr_role := role; rr_seed := rr_seed r; rr_snapshot := rr_snapshot r; rr_store := rr_store r;
     rr_receipts := rr_receipts r; rr_armed := armed; rr_limits := rr_limits r |}.
Definition with_store (store : Rows) (receipts : gmap SessionSeq ContentHash) (r : RangeReplica) : RangeReplica :=
  {| rr_ledger := rr_ledger r; rr_descriptor := rr_descriptor r; rr_role := rr_role r; rr_seed := rr_seed r; rr_snapshot := rr_snapshot r; rr_store := store;
     rr_receipts := receipts; rr_armed := rr_armed r; rr_limits := rr_limits r |}.
Definition replica_prefix (r : RangeReplica) : SessionSeq := ro_prefix (rs_root (rr_store r)).
Definition replica_rows (r : RangeReplica) : list Row := entries (rs_root (rr_store r)).
Definition replica_get (r : RangeReplica) (k : StorageKey) : option (list N) := en_value <$> root_get (rs_root (rr_store r)) k.
(** [while receipts.len() > max { receipts.pop_first(); }]: a turn an entry is
    enough. *)
Fixpoint trim_receipts (fuel : nat) (max : N) (receipts : gmap SessionSeq ContentHash) : gmap SessionSeq ContentHash :=
  match fuel with
  | O => receipts
  | S fuel =>
      if decide (max < N.of_nat (size receipts)) then
        match head (Prelude.entries receipts) with Some (first, _) => trim_receipts fuel max (delete first receipts) | None => receipts end
      else receipts
  end.

Section Replicas.
Context `{RangeWire, ReplicaWire, ReplicaLayout, Funding, PageSizes, SnapshotSizes}.
Implicit Types (r : RangeReplica) (batch : RangeBatch) (verifier : RangeVerifier).
Definition batch_hash batch : Try RangeError ContentHash := digest "focal.range-batch.v1" (Hashed.Batch batch).
Definition intent_hash (intent : RangeIntent) : Try RangeError ContentHash := digest "focal.range-intent.v1" (Hashed.Intent intent).
Definition state_hash r : Try RangeError ContentHash :=
  digest "focal.range-state.v1" (Hashed.State (rr_ledger r) (rd_span (rr_descriptor r)) ((λ e, (en_key e, en_value e)) <$> replica_rows r)).
Definition from_store (ledger : LedgerId) (descriptor : Descriptor) (role : ReplicaRole) (seed : SessionSeq) (snapshot : ContentHash) (store : Rows)
    (receipts : gmap SessionSeq ContentHash) (armed : option Armed) (limits : RangeLimits) : Fallible fund RangeError RangeReplica :=
  lift (range_limits_validate limits);;
  held ← lift (range_mul (max_receipts limits) (range_row size_of_Receipt));
  charge ← lift (range_add (range_row size_of_RangeReplica) held);
  reserve_for BudgetKind.Control charge;;
  mret {| rr_ledger := ledger; rr_descriptor := descriptor; rr_role := role; rr_seed := seed; rr_snapshot := snapshot; rr_store := store;
          rr_receipts := receipts; rr_armed := armed; rr_limits := limits |}.
Definition replica_empty (ledger : LedgerId) (descriptor : Descriptor) (epoch : RouteEpoch) (incarnation : N) (limits : RangeLimits)
    (owner : Try MemoryError N) (address : N) : Fallible fund RangeError RangeReplica :=
  lift (validate_descriptor descriptor limits);;
  store ← errors_as RangeError.Memory (store_new incarnation 0 (store_config limits) None BudgetLane.Ordinary owner address);
  from_store ledger descriptor (ReplicaRole.Active epoch) 0 0 store ∅ None limits.
(** [RangeStager::install]. *)
Definition staged_rows (s : RangeStager) : list DataRow := flat_map (λ entry, bk_rows entry.2) (Prelude.entries (st_blocks s)).
Definition install (s : RangeStager) (room : StorageKey → N) (incarnation : N) (owner : Try MemoryError N) (address : nat → N) :
    Fallible fund RangeError RangeReplica :=
  lift (refuse_if (size (st_blocks s) ≠ length (sm_blocks (st_manifest s))) RangeError.NotReady);;
  let manifest := st_manifest s in
  store ← errors_as RangeError.Memory (from_entries incarnation (sm_prefix manifest) (store_config (st_limits s)) None owner address
    (row_entry room <$> staged_rows s));
  hash ← lift (manifest_hash manifest);
  from_store (sm_ledger manifest) (sm_destination manifest)
    (ReplicaRole.Staging (sm_operation manifest) (sm_source_epoch manifest) (sm_target_epoch manifest)) (sm_prefix manifest) hash store ∅ None (st_limits s).

(** ** Batches *)
Definition batch_epoch r : Try RangeError RouteEpoch :=
  match rr_role r with
  | ReplicaRole.Active epoch | ReplicaRole.Sealed _ epoch _ _ => mret epoch
  | ReplicaRole.Staging _ source_epoch _ => mret source_epoch
  | ReplicaRole.Retired => Err RangeError.Sealed
  end.
Definition is_sealed (role : ReplicaRole) : bool := match role with ReplicaRole.Sealed _ _ _ _ => true | _ => false end.
(** What a batch must be before it is looked at. *)
Definition check_batch r batch : Try RangeError () :=
  refuse_if (rb_ledger batch ≠ rr_ledger r) RangeError.WrongLedger;;
  refuse_if (rb_range batch ≠ rd_id (rr_descriptor r) ∨ rb_range_generation batch ≠ rd_generation (rr_descriptor r)) RangeError.Generation;;
  epoch ← batch_epoch r;
  refuse_if (rb_epoch batch ≠ epoch) RangeError.StaleEpoch;;
  refuse_if (max_batch_writes (rr_limits r) < N.of_nat (length (rb_writes batch))
             ∨ Exists (λ write, span_contains (rd_span (rr_descriptor r)) (write_key write) = false) (rb_writes batch)) RangeError.Capacity;;
  refuse_if (unordered (write_key <$> rb_writes batch) = true) RangeError.Overlap;;
  refuse_if (is_sealed (rr_role r) = true ∧ rb_writes batch ≠ []) RangeError.Sealed.
(** Whether a batch was applied before: its receipt decides. *)
Definition is_duplicate r batch (hash : ContentHash) : Try RangeError bool :=
  if decide (rb_sequence batch <= replica_prefix r) then
    match rr_receipts r !! rb_sequence batch with
    | Some old => if decide (old = hash) then mret true else Err RangeError.Conflict
    | None => Err RangeError.RetryTooOld
    end
  else
    refuse_if (checked_add (replica_prefix r) 1 ≠ Some (rb_sequence batch)) RangeError.Gap;;
    mret false.
Definition write_change (room : StorageKey → N) (write : RangeWrite) : RowChange StorageKey (list N) :=
  match write with RangeWrite.Put row => RowChange.Put (row_entry room row) | RangeWrite.Delete key => RowChange.Delete key end.
(** The candidate of a new batch and the receipts with it; a batch applied before
    changes nothing. *)
Definition prepare_rows r batch (hash : ContentHash) (duplicate : bool) (room : StorageKey → N) (address : N) :
    Fallible fund RangeError (option (PreparedRange StorageKey (list N)) * gmap SessionSeq ContentHash) :=
  if duplicate then mret (None, rr_receipts r) else
  prepared ← errors_as RangeError.Memory (prepare_batch (rr_store r) (rb_sequence batch) (write_change room <$> rb_writes batch)
    (length (rb_writes batch)) BudgetLane.Completion address);
  lift (refuse_if (max_replica_rows (rr_limits r) < N.of_nat (ro_len (pr_root prepared))) RangeError.Capacity);;
  let receipts := <[rb_sequence batch := hash]> (rr_receipts r) in
  mret (Some prepared, trim_receipts (size receipts) (max_receipts (rr_limits r)) receipts).
Definition prepare_replica_batch r batch (room : StorageKey → N) (address : N) : Fallible fund RangeError PreparedReplicaBatch :=
  lift (check_batch r batch);;
  hash ← lift (batch_hash batch);
  duplicate ← lift (is_duplicate r batch hash);
  encoded ← lift (batch_size batch);
  padded ← lift (range_add encoded 8192);
  copies ← lift (range_mul padded 16);
  receipts ← lift (range_mul (max_receipts (rr_limits r)) (range_row size_of_Receipt));
  bytes ← lift (range_add copies receipts);
  reserve_for BudgetKind.Pending bytes;;
  '(prepared, receipts) ← prepare_rows r batch hash duplicate room address;
  mret {| pb_base_role := rr_role r; pb_sequence := rb_sequence batch; pb_hash := hash; pb_decision := rb_decision batch; pb_prepared := prepared;
          pb_receipts := receipts; pb_batch := batch |}.
Definition publish_replica_batch (q : PreparedReplicaBatch) (proof : CommitProof) verifier : Fallible RangeReplica RangeError () := λ r,
  match (refuse_if (rr_role r ≠ pb_base_role q) RangeError.StalePreparation;;
         verify_commit proof (rr_ledger r) 0 (pb_sequence q) (pb_decision q) verifier;;
         vf_batch verifier (pb_batch q) proof) with
  | Err e => (Err e, r)
  | Ok _ =>
      match pb_prepared q with
      | Some root =>
          match publish root (rr_store r) with
          | (Err e, store) => (Err (RangeError.Memory e), with_store store (rr_receipts r) r)
          | (Ok _, store) => (Ok (), with_store store (pb_receipts q) r)
          end
      | None => (refuse_if (rr_receipts r !! pb_sequence q ≠ Some (pb_hash q)) RangeError.StalePreparation, r)
      end
  end.

(** ** Movements *)
Definition arm (certificate : IntentCertificate) verifier : Fallible RangeReplica RangeError () :=
  r ← gets id;
  epoch ← lift (match rr_role r with ReplicaRole.Active epoch => mret epoch | _ => Err RangeError.Phase end);
  let intent := ic_intent certificate in
  let commit := ic_commit certificate in
  lift (refuse_if (it_ledger intent ≠ rr_ledger r ∨ it_old_epoch intent ≠ epoch ∨ rd_id (rr_descriptor r) ∉ it_sources intent) RangeError.WrongOwner);;
  hash ← lift (range_command_hash (rr_ledger r) (cm_ordinal commit) (cm_sequence commit) (RangeOperation.Begin intent));
  lift (verify_commit commit (rr_ledger r) (cm_ordinal commit) (cm_sequence commit) hash verifier);;
  next_epoch ← lift (or_fail (checked_add epoch 1) RangeError.Overflow);
  intent_digest ← lift (intent_hash intent);
  let armed := {| am_operation := it_operation intent; am_next_epoch := next_epoch; am_intent := intent_digest |} in
  lift (refuse_if (is_some_and (λ old, bool_decide (old ≠ armed)) (rr_armed r) = true) RangeError.Conflict);;
  modify (with_role (rr_role r) (Some armed)).
Definition seal (certificate : BarrierCertificate) verifier : Fallible RangeReplica RangeError () :=
  r ← gets id;
  armed ← lift (or_fail (rr_armed r) RangeError.Phase);
  let intent := bc_intent certificate in
  let commit := bc_commit certificate in
  lift (refuse_if (am_operation armed ≠ it_operation intent) RangeError.Conflict);;
  intent_digest ← lift (intent_hash intent);
  lift (refuse_if (am_intent armed ≠ intent_digest) RangeError.Conflict);;
  let role := ReplicaRole.Sealed (am_operation armed) (it_old_epoch intent) (am_next_epoch armed) (cm_sequence commit) in
  if decide (rr_role r = role) then mret () else
  lift (refuse_if (match rr_role r with ReplicaRole.Active _ => false | _ => true end = true ∨ replica_prefix r ≠ cm_sequence commit) RangeError.NotReady);;
  hash ← lift (range_command_hash (rr_ledger r) (cm_ordinal commit) (cm_sequence commit) (RangeOperation.Barrier (am_operation armed)));
  lift (verify_commit commit (rr_ledger r) (cm_ordinal commit) (cm_sequence commit) hash verifier);;
  modify (with_role role (rr_armed r)).
Definition source_seal_request r (checkpoint : ContentHash) : Try RangeError SourceSealProof :=
  match rr_role r with
  | ReplicaRole.Sealed operation epoch _ cut =>
      replica ← replica_owner (rd_meta (rr_descriptor r));
      mret {| ss_ledger := rr_ledger r; ss_operation := operation; ss_old_epoch := epoch; ss_range := rd_id (rr_descriptor r);
              ss_range_generation := rd_generation (rr_descriptor r); ss_replica := replica; ss_cut := cut; ss_checkpoint := checkpoint; ss_attestation := 0 |}
  | _ => Err RangeError.Phase
  end.
Definition ready_request r (checkpoint : ContentHash) : Try RangeError DestinationReady :=
  match rr_role r with
  | ReplicaRole.Staging operation _ target_epoch =>
      replica ← replica_owner (rd_meta (rr_descriptor r));
      state ← state_hash r;
      mret {| dr_ledger := rr_ledger r; dr_operation := operation; dr_new_epoch := target_epoch; dr_range := rd_id (rr_descriptor r);
              dr_range_generation := rd_generation (rr_descriptor r); dr_replica := replica; dr_seed := rr_seed r; dr_through := replica_prefix r;
              dr_snapshot := rr_snapshot r; dr_state := state; dr_checkpoint := checkpoint; dr_attestation := 0 |}
  | _ => Err RangeError.Phase
  end.
Definition activate (certificate : ActivationCertificate) verifier : Fallible RangeReplica RangeError () :=
  r ← gets id;
  lift (certificate_verify certificate (rr_limits r) verifier);;
  target ← lift (or_fail (rm_get (ac_map certificate) (rd_id (rr_descriptor r))) RangeError.WrongOwner);
  lift (refuse_if (target ≠ rr_descriptor r ∨ it_ledger (ac_intent certificate) ≠ rr_ledger r) RangeError.Generation);;
  let epoch := rm_epoch (ac_map certificate) in
  if decide (rr_role r = ReplicaRole.Active epoch) then mret () else
  lift (refuse_if (rr_role r ≠ ReplicaRole.Staging (it_operation (ac_intent certificate)) (it_old_epoch (ac_intent certificate)) epoch) RangeError.Phase);;
  ready ← lift (or_fail (ac_destinations certificate !! rd_id (rr_descriptor r)) RangeError.NotReady);
  state ← lift (state_hash r);
  lift (refuse_if (dr_state ready ≠ state ∨ dr_snapshot ready ≠ rr_snapshot r ∨ replica_prefix r < dr_through ready
                   ∨ dr_through ready < cm_sequence (ac_barrier certificate)) RangeError.Checksum);;
  modify (with_role (ReplicaRole.Active epoch) None).
Definition check_serving r (replica : ReplicaId) (epoch : RouteEpoch) (prefix : SessionSeq) (new_token : bool) : Try RangeError () :=
  refuse_if (pm_owner (rd_meta (rr_descriptor r)) ≠ Holder.Replica replica) RangeError.Generation;;
  match rr_role r with
  | ReplicaRole.Active current => refuse_if (¬ (epoch = current ∧ prefix <= replica_prefix r)) RangeError.WrongOwner
  | ReplicaRole.Sealed _ old _ cut => refuse_if (¬ (new_token = false ∧ epoch = old ∧ prefix <= cut)) RangeError.WrongOwner
  | _ => Err RangeError.WrongOwner
  end.
Definition pin_current (now ttl address : N) : Fallible (RangeReplica * fund) RangeError SnapshotLease := λ '(r, f),
  let '(x, (store, f)) := pin now ttl address (rr_store r, f) in (map_err RangeError.Memory x, (with_store store (rr_receipts r) r, f)).
Definition replica_advance_clock (now : N) : Fallible RangeReplica RangeError N := λ r,
  let '(x, store) := store_advance_clock now (rr_store r) in (map_err RangeError.Memory x, with_store store (rr_receipts r) r).

(** ** Checkpoints *)
Definition checkpoint_of r : ReplicaCheckpoint :=
  {| rq_schema := 1; rq_ledger := rr_ledger r; rq_descriptor := rr_descriptor r; rq_role := rr_role r; rq_seed := rr_seed r; rq_snapshot := rr_snapshot r;
     rq_prefix := replica_prefix r; rq_rows := entry_row <$> replica_rows r; rq_receipts := rr_receipts r; rq_armed := rr_armed r |}.
Definition replica_checkpoint r (room : StorageKey → N) : Fallible fund RangeError RangeSnapshot :=
  estimate ← lift (try_fold (λ sum e, row ← range_add size_of_DataRow (room (en_key e)); range_add sum row) 8192 (replica_rows r));
  rows ← lift (range_mul estimate 8);
  receipts ← lift (range_mul (N.of_nat (size (rr_receipts r))) (range_row size_of_Receipt));
  charge ← lift (range_add rows receipts);
  reserve_for BudgetKind.Recovery charge;;
  lift (snapshot_encode (replica_bytes (checkpoint_of r)) (rr_limits r)).
Definition check_checkpoint (c : ReplicaCheckpoint) (limits : RangeLimits) : Try RangeError () :=
  validate_descriptor (rq_descriptor c) limits;;
  refuse_if (rq_schema c ≠ 1 ∨ max_replica_rows limits < N.of_nat (length (rq_rows c)) ∨ max_receipts limits < N.of_nat (size (rq_receipts c))
             ∨ rq_prefix c < rq_seed c ∨ Exists (λ row, span_contains (rd_span (rq_descriptor c)) (dw_key row) = false) (rq_rows c)
             ∨ unordered (dw_key <$> rq_rows c) = true) (RangeError.Invalid "replica checkpoint");;
  refuse_if (Exists (λ entry, rq_prefix c < entry.1) (Prelude.entries (rq_receipts c))) RangeError.StaleEpoch;;
  match rq_role c with
  | ReplicaRole.Sealed operation _ next_epoch cut =>
      refuse_if (rq_prefix c < cut ∨
        match rq_armed c with Some armed => negb ((am_operation armed =? operation) && (am_next_epoch armed =? next_epoch)) | None => true end = true)
        RangeError.Conflict
  | _ => mret ()
  end.
Definition replica_restore (bytes : list N) (expected : ContentHash) (incarnation : N) (limits : RangeLimits) (room : StorageKey → N)
    (owner : Try MemoryError N) (address : nat → N) : Fallible fund RangeError RangeReplica :=
  c ← read_checkpoint replica_take bytes expected limits;
  lift (check_checkpoint c limits);;
  store ← errors_as RangeError.Memory (from_entries incarnation (rq_prefix c) (store_config limits) None owner address (row_entry room <$> rq_rows c));
  from_store (rq_ledger c) (rq_descriptor c) (rq_role c) (rq_seed c) (rq_snapshot c) store (rq_receipts c) (rq_armed c) limits.
End Replicas.
