(* ===== verification/ReplicaLaws.v ===== *)
(** * Laws of range replicas

    What every state of a replica has, that its operations keep it, and what a
    batch, a checkpoint and a staged seed come to. *)
From stdpp Require Import prelude gmap strings list sorting relations.
From Stdlib Require Import NArith.
From S2P Require Import Prelude Fallible Objects Budget RangeMap RangeTypes RangePins RangeTransfer Pages PagesLaws PageDirectory PageTree PageEdits PageEditing PageStore PageRows PageBuilds PagePlans PageStoreLaws PageRefusals Snapshots SnapshotLaws Replica.
#[local] Open Scope N_scope.
#[export] Instance storage_key_laws : RangeKeyLaws StorageKey := whole_key_laws StorageKey.

(** ** Keys that rise *)
Lemma unordered_false keys : unordered keys = false ↔ StronglySorted key_lt keys.
Proof.
  induction keys as [|k keys IH]; [by split; [constructor|]|]. cbn [unordered]. rewrite orb_false_iff, IH. split.
  - intros [Hh Hs]. constructor; [done|]. destruct keys as [|k' keys]; [constructor|]. simpl in Hh. apply bool_decide_eq_false, key_not_le in Hh.
    apply StronglySorted_inv in Hs as [_ Hs]. constructor; [done|]. eapply Forall_impl; [exact Hs|]. intros x. by apply key_lt_trans.
  - intros [Hs Hk]%StronglySorted_inv. split; [|done]. destruct keys as [|k' keys]; [done|]. simpl. apply bool_decide_eq_false, key_not_le.
    by apply Forall_cons in Hk as [? _].
Qed.
(** ** Receipts *)
Lemma head_entries (m : gmap SessionSeq ContentHash) k v : head (Prelude.entries m) = Some (k, v) → m !! k = Some v ∧ ∀ k', is_Some (m !! k') → k <= k'.
Proof.
  intros Hh. assert (Hin : (k, v) ∈ Prelude.entries m) by (destruct (Prelude.entries m); [done|injection Hh as ->; left]). split; [by apply elem_of_entries|].
  intros k' [v' Hk']. apply elem_of_entries in Hk'. pose proof (entries_sorted m) as Hs. destruct (Prelude.entries m) as [|p l]; [done|]. injection Hh as ->.
  apply elem_of_cons in Hk' as [[= -> ->]|Hk']; [done|]. apply StronglySorted_inv in Hs as [_ Hs]. rewrite Forall_forall in Hs. specialize (Hs _ Hk').
  by apply key_le_N.
Qed.
(** Trimming drops the oldest receipts, as many as there are too many. *)
Lemma trim_receipts_ok fuel max (m : gmap SessionSeq ContentHash) newest : (size m <= fuel)%nat → 0 < max → (∀ k, is_Some (m !! k) → k <= newest) →
  N.of_nat (size (trim_receipts fuel max m)) <= max ∧ trim_receipts fuel max m ⊆ m ∧
  (is_Some (m !! newest) → trim_receipts fuel max m !! newest = m !! newest).
Proof.
  intros Hf Hmax. revert m Hf. induction fuel as [|fuel IH]; intros m Hf Hnew; cbn [trim_receipts]; [split_and!; [lia|done|done]|].
  case_decide as Hbig; [|split_and!; [lia|done|done]]. destruct (head (Prelude.entries m)) as [[first v]|] eqn:Hh.
  2: { destruct (Prelude.entries m) eqn:E; [|done]. assert (Hl : length (Prelude.entries m) = 0%nat) by (by rewrite E). rewrite length_entries in Hl. lia. }
  apply head_entries in Hh as [Hfirst Hleast]. assert (Hsize : size (delete first m) = (size m - 1)%nat) by (rewrite map_size_delete, Hfirst; simpl; lia).
  destruct (IH (delete first m)) as (Hs & Hsub & Hkeep); [lia|intros k [_ ?]%lookup_delete_is_Some; by apply Hnew|].
  split_and!; [done|etrans; [done|apply delete_subseteq]|]. intros Hn. assert (Hne : first ≠ newest).
  { intros ->. assert (m = {[newest := v]}) as Hm; [|rewrite Hm, map_size_singleton in Hbig; lia]. apply map_eq. intros k. destruct (decide (k = newest)) as [->|Hk].
    - by rewrite lookup_singleton_eq.
    - rewrite lookup_singleton_ne by done. apply eq_None_not_Some. intros Hk'. apply Hk. pose proof (Hleast k Hk'). pose proof (Hnew k Hk'). lia. }
  rewrite Hkeep; rewrite lookup_delete_ne by done; done.
Qed.

(** ** Operations that write at their end
    An operation whose only write is its last step leaves its state as it was
    where it fails. *)
Section Atomic.
Context {S E : Type}.
Definition reads {A} (m : Fallible S E A) : Prop := ∀ s, (m s).2 = s.
Definition atomic {A} (m : Fallible S E A) : Prop := ∀ s e s', m s = (Err e, s') → s' = s.
Lemma reads_lift {A} (x : Try E A) : reads (lift x).
Proof. by intros s. Qed.
Lemma reads_gets {A} (f : S → A) : reads (gets f).
Proof. by intros s. Qed.
Lemma atomic_reads {A} (m : Fallible S E A) : reads m → atomic m.
Proof. intros Hm s e s' He. specialize (Hm s). by rewrite He in Hm. Qed.
Lemma atomic_bind {A B} (m : Fallible S E A) (k : A → Fallible S E B) : reads m → (∀ x, atomic (k x)) → atomic (m ≫= k).
Proof.
  intros Hm Hk s e s'. unfold mbind, fallible_bind. specialize (Hm s). destruct (m s) as [[x|e'] s1]; simpl in Hm; subst s1; [apply Hk|by intros [= _ <-]].
Qed.
Lemma atomic_modify (f : S → S) : atomic (modify (E := E) f).
Proof. by intros s e s'. Qed.
Lemma atomic_ret {A} (x : A) : atomic (mret (M := Fallible S E) x).
Proof. by intros s e s'. Qed.
Lemma reads_bind_ok {A B} (m : Fallible S E A) (k : A → Fallible S E B) s y s' : reads m → (m ≫= k) s = (Ok y, s') → ∃ x, m s = (Ok x, s) ∧ k x s = (Ok y, s').
Proof. intros Hm (x & s1 & Hx & Hk)%fallible_bind_ok. specialize (Hm s). rewrite Hx in Hm. simpl in Hm. subst s1. by exists x. Qed.
End Atomic.
(** Pass the steps before the write. *)
Ltac write_last := repeat (apply atomic_bind; [auto with atomic|intros ?]); try apply atomic_modify; try apply atomic_ret.
Create HintDb atomic.
#[export] Hint Resolve reads_lift reads_gets atomic_reads atomic_bind atomic_modify atomic_ret : atomic.

(** The serialization's contract: what was written reads back, with nothing left. *)
Class ReplicaWireLaws `{ReplicaWire} : Prop := {
  replica_roundtrip c bytes : replica_bytes c = Ok bytes → replica_take bytes = Ok (c, []);
  stage_roundtrip c bytes : stage_bytes c = Ok bytes → stage_take bytes = Ok (c, []);
}.

(** ** Sound replicas *)
Section Sound.
Context `{RangeWire, ReplicaWire, ReplicaLayout, F : Funding, Z : PageSizes, SnapshotSizes}.
Context (base full : N) (Hbase : page_charge 0 0 = Ok base) (Hfull : node_charge MAX = Ok full).
#[local] Set Default Proof Using "Type Hbase Hfull".
Implicit Types (r : RangeReplica) (batch : RangeBatch) (verifier : RangeVerifier) (room : StorageKey → N).
Lemma page_charge_le n h charge : page_charge n h = Ok charge → charge <= u64_max.
Proof using Type.
  unfold page_charge. intros Hb. do 6 (apply try_bind_ok in Hb as (? & _ & Hb)). by apply or_fail_ok, checked_add_Some in Hb as [-> ?].
Qed.
Lemma replica_cut limits : cut_limits (store_config limits) base.
Proof. split; [done| |done|done]. by eapply page_charge_le. Qed.
(** What a role says of the rest of the replica: a sealed one was armed for the
    movement and holds its cut. *)
Definition role_sound r : Prop :=
  match rr_role r with
  | ReplicaRole.Sealed operation _ next_epoch cut =>
      cut <= replica_prefix r ∧ ∃ armed, rr_armed r = Some armed ∧ am_operation armed = operation ∧ am_next_epoch armed = next_epoch
  | _ => True
  end.
Record replica_sound r : Prop := {
  rv_limits : range_limits_validate (rr_limits r) = Ok ();
  rv_descriptor : validate_descriptor (rr_descriptor r) (rr_limits r) = Ok ();
  rv_config : rs_config (rr_store r) = store_config (rr_limits r) ∧ rs_partition (rr_store r) = None;
  rv_root : root_sound (rr_store r) base (rs_root (rr_store r));
  rv_rows : N.of_nat (length (replica_rows r)) <= max_replica_rows (rr_limits r);
  rv_span e : e ∈ replica_rows r → span_contains (rd_span (rr_descriptor r)) (en_key e) = true;
  rv_receipts : N.of_nat (size (rr_receipts r)) <= max_receipts (rr_limits r);
  rv_known seq : is_Some (rr_receipts r !! seq) → seq <= replica_prefix r;
  rv_seed : rr_seed r <= replica_prefix r;
  rv_role : role_sound r;
}.
(** The rows as a map of values, and a batch's writes on it. *)
Definition values r : gmap StorageKey (list N) := en_value <$> row_map (replica_rows r).
Definition apply_write (m : gmap StorageKey (list N)) (w : RangeWrite) : gmap StorageKey (list N) :=
  match w with RangeWrite.Put row => <[dw_key row := dw_value row]> m | RangeWrite.Delete key => delete key m end.
Definition apply_writes (m : gmap StorageKey (list N)) (ws : list RangeWrite) : gmap StorageKey (list N) := foldl apply_write m ws.
Lemma values_changed room (m : gmap StorageKey Row) ws : en_value <$> change_maps m (write_change room <$> ws) = apply_writes (en_value <$> m) ws.
Proof using Type.
  revert m. induction ws as [|w ws IH]; intros m; [done|]. unfold change_maps, apply_writes in *. simpl. rewrite IH. f_equal. destruct w; simpl; [by rewrite fmap_insert|by rewrite fmap_delete].
Qed.
Lemma sound_rows r : replica_sound r → replica_rows r = root_rows (rs_root (rr_store r)) ∧ rising (replica_rows r).
Proof using Type. intros Hs. unfold replica_rows. pose proof (rs_directory _ _ _ (rv_root _ Hs)) as Hd. rewrite entries_rows by done. split; [done|]. apply ordered_rising, Hd. Qed.
Lemma replica_reads r k : replica_sound r → replica_get r k = values r !! k.
Proof using Type.
  intros Hs. unfold replica_get, values. rewrite lookup_fmap, root_get_row by apply (rs_directory _ _ _ (rv_root _ Hs)). by rewrite (proj1 (sound_rows r Hs)).
Qed.
Lemma limits_receipts limits : range_limits_validate limits = Ok () → 0 < max_receipts limits.
Proof using Type. unfold range_limits_validate. intros Hl%refuse_if_ok. apply N.neq_0_lt_0. intros E. apply Hl. left. apply list_elem_of_lookup. exists 9%nat. simpl. by rewrite E. Qed.
(** ** Batches *)
(** What a prepared batch was prepared from: a batch applied before, or a
    candidate of the replica's root with the receipt added. *)
Record prepared_on r batch room (q : PreparedReplicaBatch) : Prop := {
  po_batch : pb_batch q = batch ∧ pb_base_role q = rr_role r ∧ pb_sequence q = rb_sequence batch ∧ pb_decision q = rb_decision batch;
  po_checked : check_batch r batch = Ok ();
  po_hash : batch_hash batch = Ok (pb_hash q);
  po_rows : match pb_prepared q with
            | None => rr_receipts r !! rb_sequence batch = Some (pb_hash q) ∧ rb_sequence batch <= replica_prefix r
            | Some c => candidate (rr_store r) base (rs_root (rr_store r)) (write_change room <$> rb_writes batch) c ∧
                rb_sequence batch = replica_prefix r + 1 ∧ N.of_nat (ro_len (pr_root c)) <= max_replica_rows (rr_limits r) ∧
                pb_receipts q = trim_receipts (size (<[rb_sequence batch := pb_hash q]> (rr_receipts r))) (max_receipts (rr_limits r))
                  (<[rb_sequence batch := pb_hash q]> (rr_receipts r))
            end;
}.
Lemma is_duplicate_ok r batch hash duplicate : is_duplicate r batch hash = Ok duplicate →
  if duplicate then rr_receipts r !! rb_sequence batch = Some hash ∧ rb_sequence batch <= replica_prefix r else rb_sequence batch = replica_prefix r + 1.
Proof using Type.
  unfold is_duplicate. case_decide as Hle.
  - destruct (rr_receipts r !! rb_sequence batch) as [old|]; [|done]. case_decide as E; [|done]. intros [= <-]. by rewrite E.
  - intros [Hn [= <-]]%refuse_then_ok. apply dec_stable, checked_add_Some in Hn as [? _]. done.
Qed.
Lemma prepare_replica_ok r batch room address f q f' : replica_sound r →
  addressable base (rs_root (rr_store r)) (write_change room <$> rb_writes batch) → prepare_replica_batch r batch room address f = (Ok q, f') →
  prepared_on r batch room q.
Proof.
  intros Hs Ha. unfold prepare_replica_batch. intros ([] & y & [Hc ->]%lift_ok & Hp)%fallible_bind_ok. apply fallible_bind_ok in Hp as (hash & y & [Hh ->]%lift_ok & Hp).
  apply fallible_bind_ok in Hp as (duplicate & y & [Hd%is_duplicate_ok ->]%lift_ok & Hp). do 5 (apply fallible_bind_ok in Hp as (? & ? & [_ ->]%lift_ok & Hp)).
  apply fallible_bind_ok in Hp as ([] & f1 & _ & Hp). apply fallible_bind_ok in Hp as ([c receipts] & f2 & Hrows & [= <- <-]). split; simpl; [done|done|done|].
  unfold prepare_rows in Hrows. destruct duplicate; [by injection Hrows as <- <- <-|]. apply fallible_bind_ok in Hrows as (prepared & f3 & Hprep%errors_as_ok & Hrows).
  apply fallible_bind_ok in Hrows as ([] & f4 & [Hlen%refuse_if_ok ->]%lift_ok & [= <- <- _]). split_and!; [|done|lia|done].
  unfold prepare_batch in Hprep. apply fallible_bind_ok in Hprep as (plan & f5 & [Hplan ->]%lift_ok & Hb). unfold build in Hb. apply fallible_bind_ok in Hb as ([] & f6 & _ & Hb).
  pose proof (prepare_planned_ok (rr_store r) base _ _ _ _ _ _ _ plan full address f6 ltac:(rewrite (proj1 (rv_config _ Hs)); apply replica_cut) Hfull (rv_root _ Hs) Ha Hplan) as Hcand.
  rewrite Hb in Hcand. apply Hcand.
Qed.
(** ** Publication *)
Lemma published_sound r batch room q c : replica_sound r → prepared_on r batch room q → pb_prepared q = Some c →
  let r' := with_store (root_published (pr_root c) (rr_store r)) (pb_receipts q) r in
  replica_sound r' ∧ replica_prefix r' = rb_sequence batch ∧ values r' = apply_writes (values r) (rb_writes batch) ∧
  rr_receipts r' !! rb_sequence batch = Some (pb_hash q) ∧ rr_receipts r' ⊆ <[rb_sequence batch := pb_hash q]> (rr_receipts r).
Proof.
  intros Hs [_ Hc _ Hrows] Hq. rewrite Hq in Hrows. destruct Hrows as ([_ Hsound Hmap Hprefix _] & Hseq & Hlen & Hrec). intros r'.
  assert (Hroot : root_sound (rr_store r') base (rs_root (rr_store r'))) by (by eapply root_sound_config; [..|exact Hsound]).
  assert (Hnew : replica_rows r' = root_rows (pr_root c)) by (unfold replica_rows; by rewrite entries_rows by apply (rs_directory _ _ _ Hroot)).
  pose proof (sound_rows r Hs) as [Hold Hrise]. rewrite <-Hold in Hmap. assert (Hp : replica_prefix r' = replica_prefix r + 1) by exact Hprefix.
  unfold check_batch in Hc. apply refuse_then_ok in Hc as [_ Hc]. apply refuse_then_ok in Hc as [_ Hc]. apply try_bind_ok in Hc as (epoch & _ & Hc).
  apply refuse_then_ok in Hc as [_ Hc]. apply refuse_then_ok in Hc as [[_ Hspan]%Decidable.not_or Hc]. apply refuse_then_ok in Hc as [Hord%not_true_is_false Hc].
  apply unordered_false in Hord. assert (Hkeys : change_key <$> (write_change room <$> rb_writes batch) = write_key <$> rb_writes batch).
  { rewrite <-list_fmap_compose. apply list_fmap_ext. intros i [row|k] _; done. }
  assert (Hnd : NoDup (change_key <$> (write_change room <$> rb_writes batch))) by (apply rising_changes_nodup; unfold rising_changes; by rewrite Hkeys).
  pose proof (limits_receipts _ (rv_limits _ Hs)) as Hmax.
  destruct (trim_receipts_ok (size (<[rb_sequence batch := pb_hash q]> (rr_receipts r))) (max_receipts (rr_limits r)) (<[rb_sequence batch := pb_hash q]> (rr_receipts r)) (rb_sequence batch))
    as (Hts & Htsub & Htkeep); [lia|done| |].
  { intros k [<-|[_ Hk]]%lookup_insert_is_Some; [lia|]. pose proof (rv_known _ Hs k Hk). lia. }
  rewrite <-Hrec in Hts, Htsub, Htkeep. split_and!.
  - split; try apply Hs; try done.
    + rewrite Hnew, <-(rs_len _ _ _ Hsound). exact Hlen.
    + intros e He. rewrite Hnew in He. assert (Hl : row_map (root_rows (pr_root c)) !! en_key e = Some e).
      { apply row_map_Some; [apply ordered_rising, (rs_directory _ _ _ Hsound)|done]. }
      rewrite Hmap in Hl. apply change_maps_lookup in Hl as [[Hput _]|[_ Hl]]; [|apply (rv_span _ Hs); by apply row_map_Some in Hl as [? _]|done].
      apply list_elem_of_fmap in Hput as (w & Hw & Hin).  apply not_false_is_true. intros Hout. apply Hspan, Exists_exists.
      exists w. split; [done|]. destruct w as [row|k]; [|done]. injection Hw as ->. done.
    + intros seq Hk. rewrite Hp, <-Hseq. assert (Hk' : is_Some ((<[rb_sequence batch := pb_hash q]> (rr_receipts r)) !! seq)) by (destruct Hk as [v Hk]; exists v; by eapply lookup_weaken).
      apply lookup_insert_is_Some in Hk' as [<-|[_ Hk']]; [lia|]. pose proof (rv_known _ Hs seq Hk'). lia.
    + rewrite Hp. pose proof (rv_seed _ Hs). simpl. lia.
    + pose proof (rv_role _ Hs) as Hr. unfold role_sound in *. simpl. destruct (rr_role r); try done. rewrite Hp. destruct Hr as [? ?]. split; [lia|done].
  - by rewrite Hp, Hseq.
  - unfold values. rewrite Hnew, Hmap. apply values_changed.
  - simpl. rewrite Htkeep; rewrite lookup_insert_eq; done.
  - exact Htsub.
Qed.
(** ** Prepared batches that are out *)
(** Two states of a replica with the same rows and receipts. *)
Record same_rows r0 r : Prop := {
  sr_root : rs_root (rr_store r) = rs_root (rr_store r0);
  sr_config : rs_config (rr_store r) = rs_config (rr_store r0) ∧ rs_partition (rr_store r) = rs_partition (rr_store r0);
  sr_receipts : rr_receipts r = rr_receipts r0;
  sr_self : rr_ledger r = rr_ledger r0 ∧ rr_descriptor r = rr_descriptor r0 ∧ rr_seed r = rr_seed r0 ∧ rr_limits r = rr_limits r0;
}.
#[local] Instance same_rows_refl : Reflexive same_rows.
Proof using Type. by intros r. Qed.
#[local] Instance same_rows_trans : Transitive same_rows.
Proof using Type. intros r1 r2 r3 [? [? ?] ? (? & ? & ? & ?)] [? [? ?] ? (? & ? & ? & ?)]. split; [congruence|split; congruence|congruence|split_and!; congruence]. Qed.
Lemma same_sound r0 r : same_rows r0 r → replica_sound r0 → role_sound r → replica_sound r.
Proof using Type.
  intros [Hroot [Hc Hp] Hrec (Hl & Hd & Hseed & Hli)] [] Hr. split; unfold replica_rows, replica_prefix in *; rewrite ?Hroot, ?Hc, ?Hp, ?Hrec, ?Hd, ?Hli, ?Hseed; try done.
  by eapply root_sound_config.
Qed.
Lemma same_prepared r0 r batch room q : same_rows r0 r → rr_role r = rr_role r0 → prepared_on r0 batch room q → prepared_on r batch room q.
Proof using Type.
  intros [Hroot [Hc Hp] Hrec (Hl & Hd & Hseed & Hli)] Hrole [Hb Hch Hh Hrows]. split; [by rewrite Hrole| |done|].
  - unfold check_batch, batch_epoch in *. by rewrite Hl, Hd, Hrole, Hli.
  - destruct (pb_prepared q) as [c|]; unfold replica_prefix in *; rewrite ?Hroot, ?Hrec, ?Hli; [|done]. destruct Hrows as ([? Hs ? ? ?] & ? & ? & ?). split_and!; try done.
    split; [done| |done|done|by rewrite Hroot]. by eapply root_sound_config.
Qed.
(** A prepared batch that is out: of the replica's rows, or of an older root. *)
Definition outstanding r (q : PreparedReplicaBatch) : Prop :=
  match pb_prepared q with
  | None => True
  | Some c => (∃ r0 room, prepared_on r0 (pb_batch q) room q ∧ same_rows r0 r) ∨ ro_prefix (pr_base c) < replica_prefix r
  end.
Lemma same_outstanding r0 r q : same_rows r0 r → outstanding r0 q → outstanding r q.
Proof using Type.
  intros Hs. unfold outstanding. destruct (pb_prepared q) as [c|]; [|done]. intros [(r1 & room & Hq & Hs1)|Hlt]; [left; exists r1, room; split; [done|by etrans]|].
  right. unfold replica_prefix. by rewrite (sr_root _ _ Hs).
Qed.
Definition committed verifier (ledger : LedgerId) batch : Prop :=
  ∃ proof, verify_commit proof ledger 0 (rb_sequence batch) (rb_decision batch) verifier = Ok () ∧ vf_batch verifier batch proof = Ok ().
Lemma with_store_same r : with_store (rr_store r) (rr_receipts r) r = r.
Proof using Type. by destruct r. Qed.
(** What publishing does: nothing, or the batch's writes where it was committed. *)
Lemma publish_replica_ok r q proof verifier x r' : replica_sound r → outstanding r q → publish_replica_batch q proof verifier r = (x, r') →
  (r' = r ∧ (x = Ok () → pb_prepared q = None ∧ rr_receipts r !! pb_sequence q = Some (pb_hash q))) ∨
  ∃ c room, x = Ok () ∧ pb_prepared q = Some c ∧ prepared_on r (pb_batch q) room q ∧ committed verifier (rr_ledger r) (pb_batch q) ∧
    r' = with_store (root_published (pr_root c) (rr_store r)) (pb_receipts q) r.
Proof using Type.
  intros Hs Ho. unfold publish_replica_batch. destruct (refuse_if _ _;; _) as [u|e] eqn:Hchecks; [|intros [= <- <-]; left; by split].
  apply refuse_then_ok in Hchecks as [Hrole Hchecks]. apply dec_stable in Hrole. apply try_bind_ok in Hchecks as ([] & Hv & Hb). destruct u.
  destruct (pb_prepared q) as [c|] eqn:Hq.
  2: { intros [= <- <-]. left. split; [done|]. intros Hr%refuse_if_ok. split; [done|]. by apply dec_stable. }
  unfold outstanding in Ho. rewrite Hq in Ho. destruct Ho as [(r0 & room & Hp & Hsame)|Hlt].
  - assert (Hrole0 : rr_role r = rr_role r0) by (destruct Hp as [(_ & ? & _) _ _ _]; congruence). pose proof (same_prepared _ _ _ _ _ Hsame Hrole0 Hp) as Hon.
    pose proof Hon as [(_ & _ & Hseq & Hdec) _ _ Hrows]. rewrite Hq in Hrows. destruct Hrows as (Hcand & _). rewrite (candidate_published _ _ _ _ Hcand). intros [= <- <-].
    right. exists c, room. split_and!; try done. exists proof. by rewrite Hseq, Hdec in Hv.
  - assert (Hne : ro_prefix (pr_base c) ≠ ro_prefix (rs_root (rr_store r))) by (unfold replica_prefix in Hlt; lia).
    unfold publish, errors_as, publish_recoverable. case_decide; [intros [= <- <-]; left; split; [apply with_store_same|done]|].
    rewrite decide_True by done. intros [= <- <-]. left. split; [apply with_store_same|done].
Qed.
(** What a published batch that was prepared on the replica comes to. *)
Lemma publish_once r batch room q proof verifier r' : replica_sound r → prepared_on r batch room q → publish_replica_batch q proof verifier r = (Ok (), r') →
  (rb_sequence batch <= replica_prefix r ∧ r' = r ∨
   rb_sequence batch = replica_prefix r + 1 ∧ replica_prefix r' = rb_sequence batch ∧ values r' = apply_writes (values r) (rb_writes batch)) ∧
  rr_receipts r' !! rb_sequence batch = Some (pb_hash q) ∧ rb_sequence batch <= replica_prefix r' ∧ rr_role r' = rr_role r ∧ rr_ledger r' = rr_ledger r.
Proof.
  intros Hs Hp Hpub. pose proof (po_batch _ _ _ _ Hp) as (Hq & _ & Hseq & _). apply publish_replica_ok in Hpub as [[-> Hx]|(c & room' & _ & Hc & Hon & _ & ->)]; [| |done|].
  - destruct (Hx eq_refl) as [Hnone Hk]. pose proof (po_rows _ _ _ _ Hp) as Hrows. rewrite Hnone in Hrows. destruct Hrows as [_ Hle]. rewrite Hseq in Hk. split_and!; try done. by left.
  - rewrite Hq in Hon. destruct (published_sound _ _ _ _ _ Hs Hon Hc) as (_ & Hprefix & Hv & Hk & _). pose proof (po_rows _ _ _ _ Hon) as Hrows. rewrite Hc in Hrows.
    destruct Hrows as (_ & Hnext & _). split_and!; [by right|done|by rewrite Hprefix|done|done].
  - unfold outstanding. destruct (pb_prepared q); [|done]. left. exists r, room. by rewrite Hq.
Qed.
Lemma prepare_replica_shape r batch room address f q f' : prepare_replica_batch r batch room address f = (Ok q, f') →
  (pb_batch q = batch ∧ pb_base_role q = rr_role r ∧ pb_sequence q = rb_sequence batch ∧ pb_decision q = rb_decision batch) ∧ batch_hash batch = Ok (pb_hash q) ∧
  (rb_sequence batch <= replica_prefix r → pb_prepared q = None).
Proof using Type.
  unfold prepare_replica_batch. intros ([] & y & [Hc ->]%lift_ok & Hp)%fallible_bind_ok. apply fallible_bind_ok in Hp as (hash & y & [Hh ->]%lift_ok & Hp).
  apply fallible_bind_ok in Hp as (duplicate & y & [Hd%is_duplicate_ok ->]%lift_ok & Hp). do 5 (apply fallible_bind_ok in Hp as (? & ? & [_ ->]%lift_ok & Hp)).
  apply fallible_bind_ok in Hp as ([] & f1 & _ & Hp). apply fallible_bind_ok in Hp as ([c receipts] & f2 & Hrows & [= <- <-]). split_and!; try done. simpl. intros Hle.
  destruct duplicate; [by injection Hrows as <- _ _|]. lia.
Qed.
Lemma sealed_batch r batch : check_batch r batch = Ok () → is_sealed (rr_role r) = true → rb_writes batch = [].
Proof using Type.
  unfold check_batch. intros [_ Hc]%refuse_then_ok Hr. apply refuse_then_ok in Hc as [_ Hc]. apply try_bind_ok in Hc as (? & _ & Hc).
  do 3 (apply refuse_then_ok in Hc as [_ Hc]). apply refuse_if_ok in Hc. destruct (rb_writes batch); [done|]. destruct Hc. by split.
Qed.
(** ** Movements *)
Lemma with_role_same role armed r : same_rows r (with_role role armed r).
Proof using Type. by split. Qed.
Lemma arm_step certificate verifier r x r' : arm certificate verifier r = (x, r') →
  r' = r ∨ ∃ epoch armed, x = Ok () ∧ rr_role r = ReplicaRole.Active epoch ∧ r' = with_role (rr_role r) (Some armed) r.
Proof using Type.
  destruct x as [[]|e]; [|intros He; left; revert He; unfold arm; write_last].
  unfold arm. intros (? & [= <-] & (epoch & [Hrole _]%lift_ok & Ha)%reads_bind_ok)%reads_bind_ok; [|auto with atomic..]. right.
  do 5 (apply reads_bind_ok in Ha as (? & _ & Ha); [|auto with atomic]). apply reads_bind_ok in Ha as ([] & _ & [= <-]); [|auto with atomic].
  exists epoch. eexists. split_and!; [done| |done]. destruct (rr_role r) as [epoch0| | |]; try discriminate Hrole. by injection Hrole as ->.
Qed.
Lemma seal_step certificate verifier r x r' : seal certificate verifier r = (x, r') →
  r' = r ∨ ∃ epoch old armed, x = Ok () ∧ rr_role r = ReplicaRole.Active old ∧ rr_armed r = Some armed ∧
    r' = with_role (ReplicaRole.Sealed (am_operation armed) epoch (am_next_epoch armed) (replica_prefix r)) (Some armed) r.
Proof using Type.
  destruct x as [[]|e].
  2: { intros He. left. revert He. unfold seal. write_last. case_decide; write_last. }
  unfold seal. intros (? & [= <-] & (armed & [Ha%or_fail_ok _]%lift_ok & Hs)%reads_bind_ok)%reads_bind_ok; [|auto with atomic..].
  do 3 (apply reads_bind_ok in Hs as (? & _ & Hs); [|auto with atomic]). case_decide as Hrole; [injection Hs as <-; by left|]. right.
  apply reads_bind_ok in Hs as ([] & [Hready%refuse_if_ok _]%lift_ok & Hs); [|auto with atomic]. do 2 (apply reads_bind_ok in Hs as (? & _ & Hs); [|auto with atomic]).
  injection Hs as <-. apply Decidable.not_or in Hready as [Hactive Hcut]. apply dec_stable in Hcut. rewrite Ha, <-Hcut. destruct (rr_role r) as [old| | |]; try done.
  by eexists _, old, armed.
Qed.
Lemma activate_step certificate verifier r x r' : activate certificate verifier r = (x, r') →
  r' = r ∨ ∃ operation source_epoch target_epoch, x = Ok () ∧ rr_role r = ReplicaRole.Staging operation source_epoch target_epoch ∧
    r' = with_role (ReplicaRole.Active target_epoch) None r.
Proof using Type.
  destruct x as [[]|e].
  2: { intros He. left. revert He. unfold activate. write_last. case_decide; write_last. }
  unfold activate. intros (? & [= <-] & Hs)%reads_bind_ok; [|auto with atomic]. do 3 (apply reads_bind_ok in Hs as (? & _ & Hs); [|auto with atomic]).
  case_decide as Hrole; [injection Hs as <-; by left|]. right. apply reads_bind_ok in Hs as ([] & [Hst%refuse_if_ok _]%lift_ok & Hs); [|auto with atomic].
  do 3 (apply reads_bind_ok in Hs as (? & _ & Hs); [|auto with atomic]). injection Hs as <-. apply dec_stable in Hst. by eexists _, _, _.
Qed.
Lemma leases_same r store : rs_root store = rs_root (rr_store r) → rs_config store = rs_config (rr_store r) → rs_partition store = rs_partition (rr_store r) →
  same_rows r (with_store store (rr_receipts r) r).
Proof using Type. intros. by split. Qed.
Lemma clock_same now r : same_rows r (replica_advance_clock now r).2 ∧ rr_role (replica_advance_clock now r).2 = rr_role r ∧ rr_armed (replica_advance_clock now r).2 = rr_armed r.
Proof using Type.
  unfold replica_advance_clock, store_advance_clock. case_decide; simpl; split_and!; try done; by apply leases_same.
Qed.
Lemma pin_same now ttl address r f : let r' := (pin_current now ttl address (r, f)).2.1 in same_rows r r' ∧ rr_role r' = rr_role r ∧ rr_armed r' = rr_armed r.
Proof using Type.
  unfold pin_current. destruct (pin now ttl address (rr_store r, f)) as [[lease|e] [s' f']] eqn:Hp; simpl.
  - apply lease_pin_keeps in Hp as (? & ? & ?). split_and!; [|done|done]. by apply leases_same.
  - apply lease_pin_keeps in Hp as (? & ? & ?). split_and!; [|done|done]. by apply leases_same.
Qed.
(** ** Runs of a replica *)
(** A replica, the batches prepared on it and not dropped, and the batches it has
    applied. *)
Record ReplicaRun := { rx_replica : RangeReplica; rx_prepared : list PreparedReplicaBatch; rx_log : list RangeBatch }.
Definition running r qs log : ReplicaRun := {| rx_replica := r; rx_prepared := qs; rx_log := log |}.
Definition logged (x : Try RangeError ()) (q : PreparedReplicaBatch) (log : list RangeBatch) : list RangeBatch :=
  match x, pb_prepared q with Ok _, Some _ => log ++ [pb_batch q] | _, _ => log end.
Inductive replica_step verifier : ReplicaRun → ReplicaRun → Prop :=
  | run_prepare r qs log batch room address f q f' : addressable base (rs_root (rr_store r)) (write_change room <$> rb_writes batch) →
      prepare_replica_batch r batch room address f = (Ok q, f') → replica_step verifier (running r qs log) (running r (q :: qs) log)
  | run_publish r qs log q proof x r' : q ∈ qs → publish_replica_batch q proof verifier r = (x, r') →
      replica_step verifier (running r qs log) (running r' qs (logged x q log))
  | run_arm r qs log certificate x r' : arm certificate verifier r = (x, r') → replica_step verifier (running r qs log) (running r' qs log)
  | run_seal r qs log certificate x r' : seal certificate verifier r = (x, r') → replica_step verifier (running r qs log) (running r' qs log)
  | run_activate r qs log certificate x r' : activate certificate verifier r = (x, r') → replica_step verifier (running r qs log) (running r' qs log)
  | run_clock r qs log now : replica_step verifier (running r qs log) (running (replica_advance_clock now r).2 qs log)
  | run_pin r qs log now ttl address f : replica_step verifier (running r qs log) (running (pin_current now ttl address (r, f)).2.1 qs log).
(** What a run from [r0] keeps. *)
Record run_sound verifier r0 (w : ReplicaRun) : Prop := {
  ru_sound : replica_sound (rx_replica w);
  ru_out : Forall (outstanding (rx_replica w)) (rx_prepared w);
  ru_self : rr_ledger (rx_replica w) = rr_ledger r0 ∧ rr_descriptor (rx_replica w) = rr_descriptor r0 ∧ rr_limits (rx_replica w) = rr_limits r0;
  ru_values : values (rx_replica w) = foldl (λ m batch, apply_writes m (rb_writes batch)) (values r0) (rx_log w);
  ru_prefix : replica_prefix (rx_replica w) = replica_prefix r0 + N.of_nat (length (rx_log w));
  ru_log i batch : rx_log w !! i = Some batch → rb_sequence batch = replica_prefix r0 + N.of_nat i + 1 ∧ committed verifier (rr_ledger r0) batch;
}.
Lemma same_run verifier r0 r r' qs log : same_rows r r' → role_sound r' → run_sound verifier r0 (running r qs log) → run_sound verifier r0 (running r' qs log).
Proof using Type.
  intros Hsame Hrole [Hs Ho (? & ? & ?) Hv Hp Hl]. pose proof Hsame as [Hroot _ _ (? & ? & ? & ?)]. cbn [running rx_replica rx_prepared rx_log] in *.
  split; cbn [running rx_replica rx_prepared rx_log]; try done.
  - by eapply same_sound.
  - eapply Forall_impl; [exact Ho|]. intros q. by apply same_outstanding.
  - split_and!; congruence.
  - unfold values, replica_rows in *. by rewrite Hroot.
  - unfold replica_prefix in *. by rewrite Hroot.
Qed.
Lemma publish_run verifier r0 r qs log q proof x r' : run_sound verifier r0 (running r qs log) → q ∈ qs → publish_replica_batch q proof verifier r = (x, r') →
  run_sound verifier r0 (running r' qs (logged x q log)).
Proof.
  intros Hrun Hq Hpub. pose proof Hrun as [Hs Ho Hself Hv Hp Hl]. cbn [running rx_replica rx_prepared rx_log] in *. rewrite Forall_forall in Ho.
  apply publish_replica_ok in Hpub as [[-> Hx]|(c & room & -> & Hc & Hon & Hcommit & ->)]; [| |done|by apply Ho].
  { unfold logged. destruct x as [[]|]; [|done]. by rewrite (proj1 (Hx eq_refl)). }
  pose proof (published_sound _ _ _ _ _ Hs Hon Hc) as (Hs' & Hp' & Hv' & _). unfold logged. rewrite Hc. pose proof (po_rows _ _ _ _ Hon) as Hrows. rewrite Hc in Hrows.
  destruct Hrows as ([Hb _ _ Hcp _] & Hseq & _). split; cbn [running rx_replica rx_prepared rx_log]; try done.
  - apply Forall_forall. intros q' Hq'. specialize (Ho q' Hq'). unfold outstanding in *. destruct (pb_prepared q') as [c'|] eqn:Hc'; [|done]. right. rewrite Hp'.
    destruct Ho as [(r1 & room' & [_ _ _ Hrows'] & Hsame)|?]; [|lia]. rewrite Hc' in Hrows'. destruct Hrows' as ([-> _ _ _ _] & _).
    rewrite Hseq. unfold replica_prefix. rewrite (sr_root _ _ Hsame). lia.
  - by rewrite foldl_app, <-Hv.
  - rewrite Hp', Hseq, Hp, length_app. simpl. lia.
  - intros i batch [Hi|[Hi Hb']]%lookup_app_Some; [by apply Hl|]. apply list_lookup_singleton_Some in Hb' as [Hi' <-]. rewrite Hseq, Hp. split; [lia|].
    by destruct Hself as (<- & _).
Qed.
Lemma step_sound verifier r0 w w' : replica_step verifier w w' → run_sound verifier r0 w → run_sound verifier r0 w'.
Proof.
  intros Hstep. destruct Hstep as [r qs log batch room address f q f' Ha Hp|r qs log q proof x r' Hq Hp|r qs log certificate x r' Ha|r qs log certificate x r' Hse
    |r qs log certificate x r' Hac|r qs log now|r qs log now ttl address f]; intros Hrun; pose proof (rv_role _ (ru_sound _ _ _ Hrun)) as Hrole;
    cbn [running rx_replica rx_prepared rx_log] in Hrole.
  - pose proof Hrun as [Hs Ho ? ? ? ?]. split; try done. constructor; [|done]. unfold outstanding. destruct (pb_prepared q) eqn:E; [|done]. left. exists r, room.
    apply prepare_replica_ok in Hp; [|done|done]. split; [|done]. by rewrite (proj1 (po_batch _ _ _ _ Hp)).
  - by eapply publish_run.
  - apply arm_step in Ha as [->|(epoch & armed & _ & Hr & ->)]; [done|]. eapply same_run; [apply with_role_same| |done]. unfold role_sound. simpl. by rewrite Hr.
  - apply seal_step in Hse as [->|(epoch & old & armed & _ & Hr & Harm & ->)]; [done|]. eapply same_run; [apply with_role_same| |done]. unfold role_sound. simpl.
    split; [done|]. by exists armed.
  - apply activate_step in Hac as [->|(op & se & te & _ & Hr & ->)]; [done|]. by eapply same_run; [apply with_role_same| |].
  - destruct (clock_same now r) as (Hsame & Hr & Harm). eapply same_run; [done| |done]. unfold role_sound, replica_prefix in *. by rewrite Hr, Harm, (sr_root _ _ Hsame).
  - destruct (pin_same now ttl address r f) as (Hsame & Hr & Harm). eapply same_run; [done| |done]. unfold role_sound, replica_prefix in *. by rewrite Hr, Harm, (sr_root _ _ Hsame).
Qed.
Lemma run_start verifier r : replica_sound r → run_sound verifier r (running r [] []).
Proof using Type. intros Hs. split; cbn [running rx_replica rx_prepared rx_log]; try done; [simpl; lia]. Qed.
Lemma steps_sound verifier r0 w w' : rtc (replica_step verifier) w w' → run_sound verifier r0 w → run_sound verifier r0 w'.
Proof. intros Hsteps. induction Hsteps; [done|]. eauto using step_sound. Qed.
(** ** Receipts over a run *)
(** A receipt at or before the prefix is kept or trimmed, never replaced. *)
Definition kept_receipts r r' : Prop :=
  replica_prefix r <= replica_prefix r' ∧ ∀ s hash, s <= replica_prefix r → rr_receipts r' !! s = Some hash → rr_receipts r !! s = Some hash.
Lemma same_kept r r' : same_rows r r' → kept_receipts r r'.
Proof using Type. intros [Hroot _ Hrec _]. unfold kept_receipts, replica_prefix. by rewrite Hroot, Hrec. Qed.
Lemma step_kept verifier r0 w w' : replica_step verifier w w' → run_sound verifier r0 w → kept_receipts (rx_replica w) (rx_replica w').
Proof.
  intros Hstep Hrun. destruct Hstep as [r qs log batch room address f q f' Ha Hp|r qs log q proof x r' Hq Hp|r qs log certificate x r' Ha|r qs log certificate x r' Hse
    |r qs log certificate x r' Hac|r qs log now|r qs log now ttl address f]; cbn [running rx_replica].
  - by apply same_kept.
  - pose proof Hrun as [Hs Ho _ _ _ _]. cbn [running rx_replica rx_prepared] in *. rewrite Forall_forall in Ho.
    apply publish_replica_ok in Hp as [[-> _]|(c & room & -> & Hc & Hon & _ & ->)]; [by apply same_kept| |done|by apply Ho].
    destruct (published_sound _ _ _ _ _ Hs Hon Hc) as (_ & Hp' & _ & _ & Hsub). pose proof (po_rows _ _ _ _ Hon) as Hrows. rewrite Hc in Hrows.
    destruct Hrows as (_ & Hnext & _). split; [lia|]. intros s hash Hle Hl. eapply lookup_weaken in Hl; [|exact Hsub]. rewrite lookup_insert_ne in Hl by lia. done.
  - apply arm_step in Ha as [->|(epoch & armed & _ & _ & ->)]; by apply same_kept.
  - apply seal_step in Hse as [->|(epoch & old & armed & _ & _ & _ & ->)]; by apply same_kept.
  - apply activate_step in Hac as [->|(op & se & te & _ & _ & ->)]; by apply same_kept.
  - apply same_kept, clock_same.
  - apply same_kept, pin_same.
Qed.
Lemma steps_kept verifier r0 w w' : rtc (replica_step verifier) w w' → run_sound verifier r0 w → kept_receipts (rx_replica w) (rx_replica w').
Proof.
  intros Hsteps. induction Hsteps as [w|w w1 w' Hstep Hsteps IH]; intros Hrun; [by apply same_kept|].
  destruct (step_kept _ _ _ _ Hstep Hrun) as [Hle Hk]. destruct IH as [Hle' Hk']; [by eapply step_sound|].
  split; [lia|]. intros s hash Hs Hl. apply Hk; [done|]. apply Hk'; [lia|done].
Qed.
(** At a sequence at or before the prefix, a batch that passes the other checks
    is decided by its receipt alone. *)
Lemma prepare_old r batch hash room address f : check_batch r batch = Ok () → batch_hash batch = Ok hash → rb_sequence batch <= replica_prefix r →
  (rr_receipts r !! rb_sequence batch = None → (prepare_replica_batch r batch room address f).1 = Err RangeError.RetryTooOld) ∧
  (∀ old, rr_receipts r !! rb_sequence batch = Some old → old ≠ hash → (prepare_replica_batch r batch room address f).1 = Err RangeError.Conflict).
Proof using Type.
  intros Hc Hh Hle. unfold prepare_replica_batch, mbind, fallible_bind, lift. rewrite Hc, Hh. unfold is_duplicate. rewrite decide_True by done.
  split; [by intros ->|]. intros old -> Hne. by rewrite decide_False.
Qed.
Lemma prepare_held r batch room address f q f' : prepare_replica_batch r batch room address f = (Ok q, f') → rb_sequence batch <= replica_prefix r →
  rr_receipts r !! rb_sequence batch = Some (pb_hash q).
Proof using Type.
  unfold prepare_replica_batch. intros ([] & y & [Hc ->]%lift_ok & Hp)%fallible_bind_ok Hle. apply fallible_bind_ok in Hp as (hash & y & [Hh ->]%lift_ok & Hp).
  apply fallible_bind_ok in Hp as (duplicate & y & [Hd%is_duplicate_ok ->]%lift_ok & Hp). do 5 (apply fallible_bind_ok in Hp as (? & ? & [_ ->]%lift_ok & Hp)).
  apply fallible_bind_ok in Hp as ([] & f1 & _ & Hp). apply fallible_bind_ok in Hp as ([c receipts] & f2 & Hrows & [= <- <-]). simpl.
  destruct duplicate; [apply Hd|lia].
Qed.
(** A candidate without rows changes nothing. *)
Lemma publish_nothing q proof verifier r : pb_prepared q = None → (publish_replica_batch q proof verifier r).2 = r.
Proof using Type. intros Hq. unfold publish_replica_batch. destruct (refuse_if _ _;; _); [|done]. by rewrite Hq. Qed.
(** What published once is accepted again while its receipt is there. *)
Lemma publish_again r r1 batch q1 q2 proof verifier r1' room address f f2 : publish_replica_batch q1 proof verifier r1 = (Ok (), r1') →
  pb_batch q1 = batch ∧ pb_sequence q1 = rb_sequence batch ∧ pb_decision q1 = rb_decision batch → rr_ledger r = rr_ledger r1 → rb_sequence batch <= replica_prefix r →
  prepare_replica_batch r batch room address f = (Ok q2, f2) → publish_replica_batch q2 proof verifier r = (Ok (), r).
Proof using Type.
  intros Hpub (Hq0 & Hs0 & Hd0) Hl Hle Hp2. pose proof (prepare_held _ _ _ _ _ _ _ Hp2 Hle) as Hk. apply prepare_replica_shape in Hp2 as ((Hq & Hr & Hseq & Hdec) & _ & Hnone).
  unfold publish_replica_batch in *. rewrite (Hnone Hle), Hq, Hr, Hseq, Hdec, Hl, Hk. rewrite Hq0, Hs0, Hd0 in Hpub. rewrite refuse_pass by (intros Hn; by apply Hn).
  destruct (refuse_if _ _;; _) as [u|] eqn:Hc in Hpub; [|done]. apply refuse_then_ok in Hc as [_ Hc]. rewrite Hc. unfold refuse_if. by rewrite decide_False by (intros Hn; by apply Hn).
Qed.
(** ** Sealed replicas *)
Lemma sealed_step verifier r0 w w' : run_sound verifier r0 w → is_sealed (rr_role (rx_replica w)) = true → replica_step verifier w w' →
  rr_role (rx_replica w') = rr_role (rx_replica w) ∧ ∃ new, rx_log w' = rx_log w ++ new ∧ Forall (λ batch, rb_writes batch = []) new.
Proof.
  intros Hrun Hsealed Hstep. destruct Hstep as [r qs log batch room address f q f' Ha Hp|r qs log q proof x r' Hq Hp|r qs log certificate x r' Ha|r qs log certificate x r' Hse
    |r qs log certificate x r' Hac|r qs log now|r qs log now ttl address f]; cbn [running rx_replica rx_prepared rx_log] in *.
  - split; [done|]. exists []. by rewrite app_nil_r.
  - pose proof Hrun as [Hs Ho _ _ _ _]. cbn [running rx_replica rx_prepared] in *. rewrite Forall_forall in Ho.
    apply publish_replica_ok in Hp as [[-> Hx]|(c & room & -> & Hc & Hon & _ & ->)]; [| |done|by apply Ho]; (split; [done|]).
    + exists []. rewrite app_nil_r. split; [|constructor]. unfold logged. destruct x as [[]|]; [|done]. by rewrite (proj1 (Hx eq_refl)).
    + exists [pb_batch q]. unfold logged. rewrite Hc. split; [done|]. constructor; [|constructor]. by eapply sealed_batch; [apply Hon|].
  - split; [|exists []; by rewrite app_nil_r]. by apply arm_step in Ha as [->|(epoch & armed & _ & _ & ->)].
  - split; [|exists []; by rewrite app_nil_r]. apply seal_step in Hse as [->|(epoch & old & armed & _ & Hr & _)]; [done|]. by rewrite Hr in Hsealed.
  - split; [|exists []; by rewrite app_nil_r]. apply activate_step in Hac as [->|(op & se & te & _ & Hr & _)]; [done|]. by rewrite Hr in Hsealed.
  - split; [|exists []; by rewrite app_nil_r]. apply (clock_same now r).
  - split; [|exists []; by rewrite app_nil_r]. apply (pin_same now ttl address r f).
Qed.
Lemma sealed_steps verifier r0 w w' : run_sound verifier r0 w → is_sealed (rr_role (rx_replica w)) = true → rtc (replica_step verifier) w w' →
  rr_role (rx_replica w') = rr_role (rx_replica w) ∧ values (rx_replica w') = values (rx_replica w).
Proof.
  intros Hrun Hsealed Hsteps. pose proof (ru_values _ _ _ Hrun) as Hv. pose proof (ru_values _ _ _ (steps_sound _ _ _ _ Hsteps Hrun)) as Hv'. rewrite Hv, Hv'. clear Hv Hv'.
  induction Hsteps as [|w w1 w' Hstep Hsteps IH]; [done|]. destruct (sealed_step _ _ _ _ Hrun Hsealed Hstep) as (Hrole & new & Hlog & Hempty).
  destruct IH as [IHr IHv]; [by eapply step_sound|by rewrite Hrole|]. split; [congruence|]. rewrite IHv, Hlog, foldl_app. clear Hlog. generalize (foldl (λ m batch, apply_writes m (rb_writes batch)) (values r0) (rx_log w)).
  induction Hempty as [|b new Hb _ IHn]; intros m; [done|]. simpl. rewrite Hb. apply IHn.
Qed.
(** ** Checkpoints *)
(** A restore's own reasons to fail: an owner that is not given, or no room. *)
Definition no_room (owner : Try MemoryError N) (e : RangeError) : Prop :=
  e = RangeError.Overflow ∨ ∃ err, e = RangeError.Memory err ∧ (out_of_room err ∨ owner = Err err).
Lemma range_add_fails owner a b : fails_as (no_room owner) (range_add a b).
Proof using Type. intros e. unfold range_add. destruct (checked_add a b); [done|]. intros [= <-]. by left. Qed.
Lemma range_mul_fails owner a b : fails_as (no_room owner) (range_mul a b).
Proof using Type. intros e. unfold range_mul. destruct (checked_mul a b); [done|]. intros [= <-]. by left. Qed.
Lemma reserve_for_fails owner kind bytes f : run_fails_as (no_room owner) (reserve_for kind bytes) f.
Proof using Type.
  intros e f'. unfold reserve_for, errors_as. pose proof (reserve_fails kind BudgetLane.Completion bytes f) as Hr. destruct (fund_reserve _ _ _ f) as [[|err] f1] eqn:E; [done|].
  intros [= <- _]. right. exists err. split; [done|]. left. by eapply Hr.
Qed.
Lemma store_config_ok limits : range_limits_validate limits = Ok () → range_config_validate (store_config limits) = Ok (store_config limits).
Proof using Type.
  unfold range_limits_validate, range_config_validate. intros [Hl Httl]%refuse_if_ok%Decidable.not_or. rewrite refuse_pass; [done|].
  assert (Hne : ∀ i x, [max_ranges limits; max_readers limits; max_history limits; max_pins limits; max_blocks limits; max_block_rows limits; max_block_bytes limits;
    max_replica_rows limits; max_batch_writes limits; max_receipts limits; max_checkpoint_bytes limits] !! i = Some x → x ≠ 0).
  { intros i x Hx ->. by apply Hl, (list_elem_of_lookup_2 _ i). }
  pose proof (Hne 8%nat _ eq_refl). pose proof (Hne 3%nat _ eq_refl). simpl. intuition (try lia; try discriminate).
Qed.
Lemma layout_config_ok limits : fails_as out_of_room (layout_validate (store_config limits)).
Proof.
  unfold layout_validate. apply fails_bind; [apply counter_room, page_charge_fails|]. intros one Hone e.
  pose proof (page_charge_le _ _ _ Hone) as Hu. rewrite (page_charge_inv 1 0 base one Hbase Hone) in Hu |- *. unfold refuse_if. rewrite decide_False; [done|].
  change (page_bytes (store_config limits)) with u64_max. change (max_entry_bytes (store_config limits)) with u64_max. lia.
Qed.
(** Rows written out and read back. *)
Lemma entry_row_entry room e : entry_row (row_entry room (entry_row e)) = entry_row e.
Proof using Type. by destruct e. Qed.
Lemma rising_rows room (rows : list DataRow) : StronglySorted key_lt (dw_key <$> rows) → rising (row_entry room <$> rows).
Proof using Type. unfold rising. by rewrite <-list_fmap_compose. Qed.
(** A store made from rows that rise, with room for them. *)
Lemma from_rows_ok incarnation prefix limits owner address room (rows : list DataRow) f : range_limits_validate limits = Ok () →
  StronglySorted key_lt (dw_key <$> rows) → base + rows_weight (row_entry room <$> rows) <= u64_max → N.of_nat (length rows) <= u64_max →
  match errors_as RangeError.Memory (from_entries incarnation prefix (store_config limits) None owner address (row_entry room <$> rows)) f with
  | (Ok s, _) => rs_config s = store_config limits ∧ rs_partition s = None ∧ root_rows (rs_root s) = row_entry room <$> rows ∧
      root_sound s base (rs_root s) ∧ ro_prefix (rs_root s) = prefix
  | (Err e, _) => no_room owner e
  end.
Proof.
  intros Hl Hs Hw Hn. unfold errors_as.
  pose proof (from_entries_ok incarnation prefix (store_config limits) None owner address (row_entry room <$> rows) base full f Hbase Hfull (N.le_refl _) Hw ltac:(by rewrite length_fmap)) as Hm.
  destruct (from_entries _ _ _ _ _ _ _ f) as [[s|err] f']; simpl; [naive_solver|]. right. exists err. split; [done|].
  destruct Hm as [Hc|[Hla|[Ho|[Hr|[(e & He & Hbig)|?]]]]]; [by rewrite store_config_ok in Hc| |by right|by destruct Hr; apply rising_rows| |by left].
  - left. by eapply layout_config_ok.
  - exfalso. assert (row_cost e <= rows_weight (row_entry room <$> rows)); [|simpl in Hbig; lia]. clear -He. induction (row_entry room <$> rows) as [|x l IH]; [by apply elem_of_nil in He|].
    simpl. apply elem_of_cons in He as [->|He]; [lia|]. specialize (IH He). lia.
Qed.
Lemma from_store_ok ledger descriptor role seed snapshot store receipts armed limits owner f : range_limits_validate limits = Ok () →
  match from_store ledger descriptor role seed snapshot store receipts armed limits f with
  | (Ok r, _) => r = {| rr_ledger := ledger; rr_descriptor := descriptor; rr_role := role; rr_seed := seed; rr_snapshot := snapshot; rr_store := store;
                        rr_receipts := receipts; rr_armed := armed; rr_limits := limits |}
  | (Err e, _) => no_room owner e
  end.
Proof using Type.
  intros Hl. destruct (from_store ledger descriptor role seed snapshot store receipts armed limits f) as [[r|e] f'] eqn:Hr.
  - unfold from_store in Hr. apply fallible_bind_ok in Hr as (? & ? & [_ ->]%lift_ok & Hr). apply fallible_bind_ok in Hr as (? & ? & [_ ->]%lift_ok & Hr).
    apply fallible_bind_ok in Hr as (? & ? & [_ ->]%lift_ok & Hr). by apply fallible_bind_ok in Hr as ([] & ? & _ & [= <- _]).
  - assert (Hf : run_fails_as (no_room owner) (from_store ledger descriptor role seed snapshot store receipts armed limits) f); [|by eapply Hf].
    unfold from_store. rewrite Hl. apply run_lift_bind; [by intros ?|]. intros _ _. apply run_lift_bind; [apply range_mul_fails|]. intros held _.
    apply run_lift_bind; [apply range_add_fails|]. intros charge _. apply run_bind; [apply reserve_for_fails|]. intros [] f1 _. apply run_ok.
Qed.
(** A checkpoint that passes its check is of a sound replica, and the other way. *)
Lemma check_checkpoint_ok c limits : check_checkpoint c limits = Ok () ↔
  validate_descriptor (rq_descriptor c) limits = Ok () ∧ rq_schema c = 1 ∧ N.of_nat (length (rq_rows c)) <= max_replica_rows limits ∧
  N.of_nat (size (rq_receipts c)) <= max_receipts limits ∧ rq_seed c <= rq_prefix c ∧
  (∀ row, row ∈ rq_rows c → span_contains (rd_span (rq_descriptor c)) (dw_key row) = true) ∧ StronglySorted key_lt (dw_key <$> rq_rows c) ∧
  (∀ seq, is_Some (rq_receipts c !! seq) → seq <= rq_prefix c) ∧
  match rq_role c with
  | ReplicaRole.Sealed operation _ next_epoch cut => cut <= rq_prefix c ∧ ∃ armed, rq_armed c = Some armed ∧ am_operation armed = operation ∧ am_next_epoch armed = next_epoch
  | _ => True
  end.
Proof using Type.
  unfold check_checkpoint. rewrite try_bind_ok. rewrite <-unordered_false.
  assert (Hspan : ¬ Exists (λ row, span_contains (rd_span (rq_descriptor c)) (dw_key row) = false) (rq_rows c) ↔
    ∀ row, row ∈ rq_rows c → span_contains (rd_span (rq_descriptor c)) (dw_key row) = true).
  { rewrite <-Forall_Exists_neg, Forall_forall. split; intros Hr row Hin; specialize (Hr row Hin); [by apply not_false_is_true|by rewrite Hr]. }
  assert (Hknown : ¬ Exists (λ entry : SessionSeq * ContentHash, rq_prefix c < entry.1) (Prelude.entries (rq_receipts c)) ↔ ∀ seq, is_Some (rq_receipts c !! seq) → seq <= rq_prefix c).
  { rewrite <-Forall_Exists_neg, Forall_forall. split.
    - intros Hr seq [v Hv]. specialize (Hr (seq, v) ltac:(by apply elem_of_entries)). simpl in Hr. lia.
    - intros Hr [seq v] Hin%elem_of_entries Hlt. simpl in Hlt. specialize (Hr seq (mk_is_Some _ _ Hin)). lia. }
  assert (Hrole : match rq_role c with
    | ReplicaRole.Sealed operation _ next_epoch cut => refuse_if (rq_prefix c < cut ∨ match rq_armed c with
        | Some armed => negb ((am_operation armed =? operation) && (am_next_epoch armed =? next_epoch)) | None => true end = true) RangeError.Conflict
    | _ => mret () end = Ok () ↔ match rq_role c with
    | ReplicaRole.Sealed operation _ next_epoch cut => cut <= rq_prefix c ∧ ∃ armed, rq_armed c = Some armed ∧ am_operation armed = operation ∧ am_next_epoch armed = next_epoch
    | _ => True end).
  { destruct (rq_role c) as [| |operation epoch next_epoch cut|]; [by split|by split| |by split]. rewrite refuse_if_ok. destruct (rq_armed c) as [armed|].
    - destruct (N.eqb_spec (am_operation armed) operation), (N.eqb_spec (am_next_epoch armed) next_epoch); simpl; split; try naive_solver lia.
    - split; [intros Hn; exfalso; apply Hn; by right|]. intros (_ & ? & [=] & _). }
  rewrite <-Hknown, <-Hspan. split.
  - intros ([] & Hd & Hc). apply refuse_then_ok in Hc as [Hall Hc]. apply refuse_then_ok in Hc as [Hk Hc]. apply Hrole in Hc.
    apply Decidable.not_or in Hall as [Hschema Hall]. apply Decidable.not_or in Hall as [Hlen Hall]. apply Decidable.not_or in Hall as [Hrec Hall].
    apply Decidable.not_or in Hall as [Hseed Hall]. apply Decidable.not_or in Hall as [Hin Hord%not_true_is_false]. apply dec_stable in Hschema. split_and!; try done; lia.
  - intros (Hd & Hschema & Hlen & Hrec & Hseed & Hin & Hord & Hk & Hr). exists (). split; [done|]. rewrite refuse_pass; [rewrite refuse_pass by done; by apply Hrole|].
    rewrite Hord. intros [?|[?|[?|[?|[?|?]]]]]; try done; lia.
Qed.
Lemma sound_checks r : replica_sound r → check_checkpoint (checkpoint_of r) (rr_limits r) = Ok ().
Proof using Type.
  intros Hs. destruct (sound_rows r Hs) as [_ Hrise]. apply check_checkpoint_ok. simpl. rewrite length_fmap, <-list_fmap_compose.
  split_and!; [apply Hs|done|apply Hs|apply Hs|exact (rv_seed _ Hs)| |exact Hrise|exact (rv_known _ Hs)|exact (rv_role _ Hs)].
  intros row (e & -> & He)%list_elem_of_fmap. by apply (rv_span _ Hs).
Qed.
Lemma checked_makes c limits store room : check_checkpoint c limits = Ok () → range_limits_validate limits = Ok () →
  rs_config store = store_config limits → rs_partition store = None → root_rows (rs_root store) = row_entry room <$> rq_rows c →
  root_sound store base (rs_root store) → ro_prefix (rs_root store) = rq_prefix c →
  let r := {| rr_ledger := rq_ledger c; rr_descriptor := rq_descriptor c; rr_role := rq_role c; rr_seed := rq_seed c; rr_snapshot := rq_snapshot c; rr_store := store;
              rr_receipts := rq_receipts c; rr_armed := rq_armed c; rr_limits := limits |} in
  replica_sound r ∧ checkpoint_of r = c.
Proof using Type.
  intros (Hd & Hschema & Hlen & Hrec & Hseed & Hin & Hord & Hk & Hr)%check_checkpoint_ok Hl Hc Hp Hrows Hs Hprefix r.
  assert (Hrr : replica_rows r = row_entry room <$> rq_rows c) by (unfold replica_rows; rewrite entries_rows by apply (rs_directory _ _ _ Hs); exact Hrows). split.
  - split; unfold replica_prefix, role_sound; simpl; rewrite ?Hprefix, ?Hrr, ?length_fmap; try done.
    + intros e (row & -> & ?)%list_elem_of_fmap. by apply Hin.
    + unfold replica_prefix. simpl. by rewrite Hprefix.
  - assert (Hback : entry_row <$> replica_rows r = rq_rows c).
    { rewrite Hrr, <-list_fmap_compose. etrans; [|apply list_fmap_id]. apply list_fmap_ext. by intros i [] _. }
    unfold checkpoint_of, replica_prefix. rewrite Hback. simpl. rewrite Hprefix. destruct c. simpl in *. by rewrite Hschema.
Qed.
(** Replicas with one checkpoint hash and read the same. *)
Lemma checkpoint_pairs r r' : checkpoint_of r' = checkpoint_of r → (λ e, (en_key e, en_value e)) <$> replica_rows r' = (λ e, (en_key e, en_value e)) <$> replica_rows r.
Proof using Type.
  intros Hc. assert (Hrow : ∀ l : list Row, (λ e, (en_key e, en_value e)) <$> l = (λ row, (dw_key row, dw_value row)) <$> (entry_row <$> l)) by (intros l; by rewrite <-list_fmap_compose).
  rewrite !Hrow. f_equal. by apply (f_equal rq_rows) in Hc.
Qed.
Lemma checkpoint_values r r' : checkpoint_of r' = checkpoint_of r → values r' = values r.
Proof using Type.
  intros Hc%checkpoint_pairs. unfold values, row_map. rewrite <-!list_to_map_fmap, <-!list_fmap_compose. by f_equal.
Qed.
Lemma checkpoint_state r r' : checkpoint_of r' = checkpoint_of r → state_hash r' = state_hash r.
Proof using Type.
  intros Hc. unfold state_hash. pose proof (f_equal rq_ledger Hc) as Hl. pose proof (f_equal rq_descriptor Hc) as Hd. simpl in Hl, Hd. rewrite Hl, Hd. do 2 f_equal.
  by apply checkpoint_pairs.
Qed.
Lemma snapshot_ok r room f snap f' : replica_checkpoint r room f = (Ok snap, f') →
  replica_bytes (checkpoint_of r) = Ok (sh_bytes snap) ∧ N.of_nat (length (sh_bytes snap)) <= max_checkpoint_bytes (rr_limits r) ∧ sh_hash snap = checkpoint_digest (sh_bytes snap).
Proof using Type.
  unfold replica_checkpoint. intros Hc. do 4 (apply fallible_bind_ok in Hc as (? & ? & [_ ->]%lift_ok & Hc)). apply fallible_bind_ok in Hc as ([] & ? & _ & [Hc _]%lift_ok).
  unfold snapshot_encode, range_encode in Hc. apply try_bind_ok in Hc as (bytes & Hb & [= <-]). apply try_bind_ok in Hb as (bytes' & Hb & Hlen).
  apply refuse_then_ok in Hlen as [Hlen [= ->]]. simpl. split_and!; [done|lia|done].
Qed.
(** Reading back bytes that were written. *)
Lemma read_checkpoint_ok {A} (take_from : list N → Try RangeError (A * list N)) bytes limits (c : A) owner f : take_from bytes = Ok (c, []) →
  N.of_nat (length bytes) <= max_checkpoint_bytes limits →
  match read_checkpoint take_from bytes (checkpoint_digest bytes) limits f with (Ok c', _) => c' = c | (Err e, _) => no_room owner e end.
Proof using Type.
  intros Ht Hlen. destruct (read_checkpoint take_from bytes (checkpoint_digest bytes) limits f) as [[c'|e] f'] eqn:Hr.
  - unfold read_checkpoint in Hr. do 3 (apply fallible_bind_ok in Hr as (? & ? & [_ ->]%lift_ok & Hr)). apply fallible_bind_ok in Hr as ([] & ? & _ & [Hr _]%lift_ok).
    unfold range_decode in Hr. apply refuse_then_ok in Hr as [_ Hr]. rewrite Ht in Hr. by injection Hr as ->.
  - assert (Hf : run_fails_as (no_room owner) (read_checkpoint take_from bytes (checkpoint_digest bytes) limits) f); [|by eapply Hf].
    unfold read_checkpoint. apply run_lift_bind; [intros e0; unfold refuse_if; case_decide; done|]. intros _ _.
    apply run_lift_bind; [apply range_add_fails|]. intros size _. apply run_lift_bind; [apply range_mul_fails|]. intros charge _. apply run_bind; [apply reserve_for_fails|].
    intros [] f1 _. unfold range_decode. rewrite refuse_pass by lia. rewrite Ht. apply run_ok.
Qed.
Lemma replica_restore_ok bytes c incarnation limits room owner address f : replica_take bytes = Ok (c, []) → N.of_nat (length bytes) <= max_checkpoint_bytes limits →
  check_checkpoint c limits = Ok () → range_limits_validate limits = Ok () →
  base + rows_weight (row_entry room <$> rq_rows c) <= u64_max → N.of_nat (length (rq_rows c)) <= u64_max →
  match replica_restore bytes (checkpoint_digest bytes) incarnation limits room owner address f with
  | (Ok r, _) => replica_sound r ∧ checkpoint_of r = c ∧ rr_limits r = limits
  | (Err e, _) => no_room owner e
  end.
Proof.
  intros Ht Hlen Hc Hl Hw Hn. unfold replica_restore, mbind, fallible_bind, lift. pose proof (read_checkpoint_ok replica_take bytes limits c owner f Ht Hlen) as Hr.
  destruct (read_checkpoint _ _ _ _ f) as [[c'|e] f1]; [|done]. subst c'. rewrite Hc. pose proof (proj1 (check_checkpoint_ok _ _) Hc) as (_ & _ & _ & _ & _ & _ & Hord & _).
  pose proof (from_rows_ok incarnation (rq_prefix c) limits owner address room (rq_rows c) f1 Hl Hord Hw Hn) as Hs.
  destruct (errors_as RangeError.Memory _ f1) as [[s|e] f2]; [|done]. destruct Hs as (Hcfg & Hp & Hrows & Hsound & Hprefix).
  pose proof (from_store_ok (rq_ledger c) (rq_descriptor c) (rq_role c) (rq_seed c) (rq_snapshot c) s (rq_receipts c) (rq_armed c) limits owner f2 Hl) as Hm.
  destruct (from_store _ _ _ _ _ _ _ _ _ f2) as [[r|e] f3]; [|done]. rewrite Hm. destruct (checked_makes c limits s room) as [? ?]; done.
Qed.
Lemma empty_sound ledger descriptor epoch incarnation limits owner address f r f' :
  replica_empty ledger descriptor epoch incarnation limits owner address f = (Ok r, f') →
  replica_sound r ∧ replica_rows r = [] ∧ replica_prefix r = 0 ∧ rr_role r = ReplicaRole.Active epoch.
Proof.
  unfold replica_empty. intros ([] & y & [Hd ->]%lift_ok & Hr)%fallible_bind_ok. apply fallible_bind_ok in Hr as (store & f1 & Hnew%errors_as_ok & Hr).
  assert (Hl : range_limits_validate limits = Ok ()) by (unfold from_store in Hr; by apply fallible_bind_ok in Hr as ([] & ? & [? _]%lift_ok & _)).
  pose proof (from_store_ok ledger descriptor (ReplicaRole.Active epoch) 0 0 store ∅ None limits owner f1 Hl) as Hm. rewrite Hr in Hm.
  destruct (store_new_ok _ _ (store_config limits) _ _ _ _ _ _ _ (N.le_refl _) Hnew) as (Hc & Hp & _ & Hprefix & _ & Hrows & base' & Hlim & Hs).
  assert (base' = base) as -> by (pose proof (ct_base _ _ Hlim); congruence).
  assert (Hrr : replica_rows r = []) by (unfold replica_rows; subst r; simpl; rewrite entries_rows by apply (rs_directory _ _ _ Hs); exact Hrows).
  assert (Hpp : replica_prefix r = 0) by (by subst r). split_and!; [|done|done|by subst r]. split; rewrite ?Hrr, ?Hpp; subst r; simpl; try done; try lia.
  - by intros e ?%elem_of_nil.
  - rewrite map_size_empty. lia.
  - intros seq Hk. by apply lookup_empty_is_Some in Hk.
Qed.
End Sound.

(** ** Staged seeds *)
Section Staging.
Context `{RangeWire, ReplicaWire, ReplicaLayout, F : Funding, Z : PageSizes, SnapshotSizes}.
Implicit Types (s : RangeStager) (b : RangeBlock) (d : BlockDescriptor) (span : Span).
(** A block that answers to its descriptor. *)
Record block_matches d b : Prop := {
  bm_hash : block_hash b = Ok (bd_hash d);
  bm_rows : N.of_nat (length (bk_rows b)) = bd_rows d;
  bm_first : head (dw_key <$> bk_rows b) = Some (bd_first d);
  bm_last : last (dw_key <$> bk_rows b) = Some (bd_last d);
  bm_sorted : StronglySorted key_lt (dw_key <$> bk_rows b);
}.
Lemma check_block_ok s b : check_block s b = Ok () → ∃ d, sm_blocks (st_manifest s) !! N.to_nat (bk_index b) = Some d ∧ block_matches d b.
Proof using Type.
  unfold check_block. intros (d & Hd%or_fail_ok & Hc)%try_bind_ok. exists d. split; [done|]. apply try_bind_ok in Hc as (bytes & _ & Hc).
  apply refuse_then_ok in Hc as [Hsize Hc]. apply try_bind_ok in Hc as (hash & Hh & Hc). apply refuse_then_ok in Hc as [Heq%dec_stable Hc]. apply refuse_if_ok in Hc.
  apply Decidable.not_or in Hsize as [_ Hsize]. apply Decidable.not_or in Hsize as [_ Hrows%dec_stable]. apply Decidable.not_or in Hc as [Hf%dec_stable Hc].
  apply Decidable.not_or in Hc as [Hla%dec_stable Ho%not_true_is_false]. split; [by rewrite <-Heq|done|done|done|]. by apply unordered_false.
Qed.
Record stager_sound s : Prop := {
  sw_limits : range_limits_validate (st_limits s) = Ok ();
  sw_manifest : manifest_validate (st_manifest s) (st_limits s) = Ok ();
  sw_blocks i b : st_blocks s !! i = Some b → bk_index b = i ∧ check_block s b = Ok ();
}.
Lemma stager_new_sound manifest limits f s f' : stager_new manifest limits f = (Ok s, f') → stager_sound s ∧ st_manifest s = manifest ∧ st_limits s = limits ∧ st_blocks s = ∅.
Proof using Type.
  unfold stager_new. intros ([] & y & [Hl ->]%lift_ok & Hs)%fallible_bind_ok. apply fallible_bind_ok in Hs as ([] & y & [Hm ->]%lift_ok & Hs).
  do 2 (apply fallible_bind_ok in Hs as (? & ? & [_ ->]%lift_ok & Hs)). apply fallible_bind_ok in Hs as ([] & y & _ & [= <- _]). split_and!; try done.
Qed.
(** Accepting a block adds it, once, where it answers to its descriptor. *)
Lemma accept_step room capacity b s f x s' f' : accept room capacity b (s, f) = (x, (s', f')) →
  s' = s ∨ x = Ok () ∧ check_block s b = Ok () ∧ st_blocks s !! bk_index b = None ∧
    s' = {| st_manifest := st_manifest s; st_blocks := <[bk_index b := b]> (st_blocks s); st_limits := st_limits s |}.
Proof using Type.
  unfold accept, mbind, fallible_bind, gets, lift. simpl. destruct (check_block s b) as [[]|e]; [|intros [= _ <- _]; by left].
  destruct (st_blocks s !! bk_index b) as [old|]; [intros [= _ <- _]; by left|]. destruct (held_charge room capacity b) as [charge|]; [|intros [= _ <- _]; by left].
  unfold on_fund_only. destruct (reserve_for _ _ f) as [[[]|e] f1]; [|intros [= _ <- _]; by left]. unfold modify. intros [= <- <- _]. right. by split_and!.
Qed.
Lemma accept_sound room capacity b s f x s' f' : accept room capacity b (s, f) = (x, (s', f')) → stager_sound s →
  stager_sound s' ∧ st_manifest s' = st_manifest s ∧ st_limits s' = st_limits s.
Proof using Type.
  intros [->|(-> & Hc & Hn & ->)]%accept_step; [done|]. intros [Hl Hm Hb]. split_and!; [|done|done]. split; [done|done|]. simpl.
  intros i b' [[<- <-]|[_ Hi]]%lookup_insert_Some; [done|by apply Hb].
Qed.
(** Blocks that arrive. *)
Definition accepts s s' : Prop := ∃ room capacity b f x f', accept room capacity b (s, f) = (x, (s', f')).
Lemma accepts_sound s s' : rtc accepts s s' → stager_sound s → stager_sound s' ∧ st_manifest s' = st_manifest s ∧ st_limits s' = st_limits s.
Proof using Type.
  induction 1 as [s|s s1 s' (room & capacity & b & f & x & f' & Ha) _ IH]; [done|]. intros Hs. destruct (accept_sound _ _ _ _ _ _ _ _ Ha Hs) as (Hs1 & Hm & Hl).
  destruct (IH Hs1) as (? & ? & ?). split_and!; congruence.
Qed.
(** The rows of blocks that answer to a valid manifest rise, within its span. *)
Lemma span_between span lo hi k : span_contains span lo = true → span_contains span hi = true → key_le lo k → key_le k hi → span_contains span k = true.
Proof using Type.
  unfold span_contains. rewrite !andb_true_iff. intros [Hlo _] [_ Hhi] Hl Hh. split.
  - destruct (sp_start span); [|done]. apply bool_decide_eq_true in Hlo. apply bool_decide_eq_true. by etrans.
  - destruct (sp_end span); [|done]. apply bool_decide_eq_true in Hhi. apply bool_decide_eq_true. by eapply key_le_lt_trans.
Qed.
Lemma sorted_ends (keys : list StorageKey) first final k : StronglySorted key_lt keys → head keys = Some first → last keys = Some final → k ∈ keys → key_le first k ∧ key_le k final.
Proof using Type.
  intros Hs Hf Hl Hk. split.
  - destruct keys as [|x keys]; [done|]. injection Hf as ->. apply StronglySorted_inv in Hs as [_ Hs]. rewrite Forall_forall in Hs.
    apply elem_of_cons in Hk as [->|Hk]; [done|]. by apply Hs.
  - apply last_Some in Hl as [pre ->]. apply elem_of_app in Hk as [Hk| ->%list_elem_of_singleton]; [|done]. apply ssorted_app in Hs as (_ & _ & Hs). apply Hs; [done|set_solver].
Qed.
Lemma seed_rows limits span index previous total ds total' bs : check_blocks limits span index previous total ds = Ok total' → Forall2 block_matches ds bs →
  let keys := dw_key <$> flat_map bk_rows bs in
  StronglySorted key_lt (option_list previous ++ keys) ∧ (∀ k, k ∈ keys → span_contains span k = true) ∧ total' = total + N.of_nat (length keys).
Proof using Type.
  revert index previous total bs. induction ds as [|d ds IH]; intros index previous total bs; cbn [check_blocks].
  { intros [= <-] ->%Forall2_nil_inv_l. simpl. rewrite app_nil_r. split_and!; [destruct previous; repeat constructor|by intros k ?%elem_of_nil|lia]. }
  intros [Hchecks Hc]%refuse_then_ok. apply try_bind_ok in Hc as (total1 & [-> _]%or_fail_ok%checked_add_Some & Hc).
  intros (b & bs' & [Hh Hrows Hf Hl Hs] & Hbs & ->)%Forall2_cons_inv_l. destruct (IH _ _ _ _ Hc Hbs) as (Hsorted & Hin & ->). simpl. rewrite fmap_app.
  do 4 (apply Decidable.not_or in Hchecks as [_ Hchecks]). apply Decidable.not_or in Hchecks as [Hle Hchecks]. apply Decidable.not_or in Hchecks as [Hcf%not_false_is_true Hchecks].
  apply Decidable.not_or in Hchecks as [Hcl%not_false_is_true Hchecks]. apply Decidable.not_or in Hchecks as [Hprev%not_true_is_false _].
  assert (Hends : ∀ k, k ∈ dw_key <$> bk_rows b → key_le (bd_first d) k ∧ key_le k (bd_last d)) by (intros k Hk; eapply sorted_ends; [exact Hs|exact Hf|exact Hl|exact Hk]).
  simpl in Hsorted. apply StronglySorted_inv in Hsorted as [Hsorted Hafter]. rewrite Forall_forall in Hafter. split_and!.
  - apply ssorted_app. split_and!; [destruct previous; repeat constructor| |].
    + apply ssorted_app. split_and!; [done|done|]. intros x y Hx Hy. eapply key_le_lt_trans; [exact (proj2 (Hends x Hx))|by apply Hafter].
    + intros x y Hx Hy. destruct previous as [p|]; [|by apply elem_of_nil in Hx]. apply list_elem_of_singleton in Hx as ->. simpl in Hprev. apply bool_decide_eq_false, key_not_le in Hprev.
      apply elem_of_app in Hy as [Hy|Hy]; [eapply key_lt_le_trans; [exact Hprev|exact (proj1 (Hends y Hy))]|]. eapply key_lt_trans; [exact Hprev|].
      eapply key_le_lt_trans; [|by apply Hafter]. by apply key_nlt.
  - intros k [Hk|Hk]%elem_of_app; [|by apply Hin]. destruct (Hends k Hk). by eapply (span_between span (bd_first d) (bd_last d)).
  - rewrite length_app, !length_fmap. lia.
Qed.
(** The blocks by index. *)
Definition listing (m : gmap N RangeBlock) (a n : nat) : list (N * RangeBlock) := omap (λ i, (λ b, (N.of_nat i, b)) <$> m !! N.of_nat i) (seq a n).
Lemma elem_of_listing m a n k b : (k, b) ∈ listing m a n ↔ m !! k = Some b ∧ N.of_nat a <= k < N.of_nat (a + n).
Proof using Type.
  unfold listing. rewrite list_elem_of_omap. split.
  - intros (i & Hi%elem_of_seq & (b' & Hb & [= -> ->])%fmap_Some). split; [done|lia].
  - intros [Hb Hk]. exists (N.to_nat k). rewrite elem_of_seq, N2Nat.id, Hb. split; [lia|done].
Qed.
Lemma listing_sorted m a n : StronglySorted pair_lt (listing m a n).
Proof using Type.
  revert a. induction n as [|n IH]; intros a; [constructor|]. change (listing m a (S n)) with (match (λ b, (N.of_nat a, b)) <$> m !! N.of_nat a with
    | Some x => x :: listing m (S a) n | None => listing m (S a) n end). destruct (m !! N.of_nat a) as [b|]; [|apply IH]. simpl. constructor; [apply IH|].
  apply Forall_forall. intros [k b'] [_ Hk]%elem_of_listing. split; simpl; [apply key_le_N; lia|lia].
Qed.
Lemma entries_listing (m : gmap N RangeBlock) n : (∀ k, is_Some (m !! k) → k < N.of_nat n) → Prelude.entries m = listing m 0 n.
Proof using Type.
  intros Hlt. symmetry. apply entries_unique; [apply listing_sorted|]. intros k b. rewrite elem_of_listing. split; [by intros [? _]|]. intros Hb. split; [done|].
  specialize (Hlt k (mk_is_Some _ _ Hb)). lia.
Qed.
Lemma length_omap {A B} (f : A → option B) l : (length (omap f l) <= length l)%nat.
Proof using Type. induction l as [|x l IH]; csimpl; [done|]. destruct (f x); simpl; lia. Qed.
Lemma omap_full {A B} (f : A → option B) l : length (omap f l) = length l → ∀ x, x ∈ l → is_Some (f x).
Proof using Type.
  induction l as [|x l IH]; intros Hlen y Hy; [by apply elem_of_nil in Hy|]. csimpl in Hlen. destruct (f x) as [b|] eqn:E; [|pose proof (length_omap f l); lia].
  apply elem_of_cons in Hy as [->|Hy]; [by exists b|]. apply IH; [simpl in Hlen; lia|done].
Qed.
Lemma listing_matches m ds a : (∀ i d, ds !! i = Some d → ∃ b, m !! N.of_nat (a + i) = Some b ∧ block_matches d b) → Forall2 block_matches ds (listing m a (length ds)).*2.
Proof using Type.
  revert a. induction ds as [|d ds IH]; intros a Hm; [constructor|]. destruct (Hm 0%nat d eq_refl) as (b & Hb & Hd). rewrite Nat.add_0_r in Hb.
  unfold listing. simpl. rewrite Hb. simpl. constructor; [done|]. apply IH. intros i d' Hi. destruct (Hm (S i) d' Hi) as (b' & Hb' & ?). exists b'. by rewrite Nat.add_succ_r in Hb'.
Qed.
(** A stager with as many blocks as its manifest has every block of it. *)
Lemma stager_full s : stager_sound s → size (st_blocks s) = length (sm_blocks (st_manifest s)) → Forall2 block_matches (sm_blocks (st_manifest s)) (Prelude.entries (st_blocks s)).*2.
Proof using Type.
  intros [_ _ Hb] Hsize. set (n := length (sm_blocks (st_manifest s))) in *. assert (Hlt : ∀ k, is_Some (st_blocks s !! k) → k < N.of_nat n).
  { intros k [b Hk]. destruct (Hb k b Hk) as [<- Hc]. apply check_block_ok in Hc as (d & Hd%lookup_lt_Some & _). lia. }
  rewrite (entries_listing _ n Hlt). apply listing_matches. intros i d Hi. assert (Hlen : length (listing (st_blocks s) 0 n) = n) by (by rewrite <-entries_listing, length_entries).
  destruct (omap_full _ (seq 0 n) ltac:(by rewrite length_seq) i) as [[k b] (b' & Hb' & _)%fmap_Some]; [apply elem_of_seq; apply lookup_lt_Some in Hi; lia|].
  exists b'. simpl. split; [done|]. destruct (Hb _ _ Hb') as [Hk Hc]. apply check_block_ok in Hc as (d' & Hd' & Hm). rewrite Hk, Nat2N.id, Hi in Hd'. by injection Hd' as <-.
Qed.
Lemma staged_rows_blocks s : staged_rows s = flat_map bk_rows (Prelude.entries (st_blocks s)).*2.
Proof using Type. unfold staged_rows. induction (Prelude.entries (st_blocks s)) as [|[i b] l IH]; [done|]. simpl. by rewrite IH. Qed.
Lemma staged_sorted s : stager_sound s → size (st_blocks s) = length (sm_blocks (st_manifest s)) → let rows := staged_rows s in
  StronglySorted key_lt (dw_key <$> rows) ∧ (∀ row, row ∈ rows → span_contains (rd_span (sm_destination (st_manifest s))) (dw_key row) = true) ∧
  N.of_nat (length rows) <= max_replica_rows (st_limits s) ∧ validate_descriptor (sm_destination (st_manifest s)) (st_limits s) = Ok ().
Proof using Type.
  intros Hs Hsize. pose proof (stager_full s Hs Hsize) as Hm. rewrite staged_rows_blocks. destruct Hs as [_ Hv _]. unfold manifest_validate in Hv.
  apply try_bind_ok in Hv as ([] & Hd & Hv). apply refuse_then_ok in Hv as [_ Hv]. apply try_bind_ok in Hv as (total & Hc & Hcap%refuse_if_ok).
  destruct (seed_rows _ _ _ _ _ _ _ _ Hc Hm) as (Hsorted & Hspan & ->). simpl in Hsorted. rewrite length_fmap in Hcap. split_and!; [done| |lia|done].
  intros row Hr. apply Hspan. by apply list_elem_of_fmap_2.
Qed.
End Staging.

(** ** Stagers restored *)
Section Restaging.
Context `{RangeWire, ReplicaWire, ReplicaLayout, F : Funding, Z : PageSizes, SnapshotSizes}.
Implicit Types (s : RangeStager) (b : RangeBlock).
Lemma held_charge_fails owner room capacity b : fails_as (no_room owner) (held_charge room capacity b).
Proof using Type.
  unfold held_charge. apply fails_bind; [apply range_mul_fails|]. intros rows _. apply fails_bind.
  { apply fails_fold. intros sum row _. apply fails_bind; [apply range_add_fails|]. intros value _. apply range_add_fails. }
  intros values _. apply fails_bind; [apply range_add_fails|]. intros inner _. apply range_add_fails.
Qed.
Lemma accept_fresh owner room capacity b s f : check_block s b = Ok () → st_blocks s !! bk_index b = None →
  match accept room capacity b (s, f) with
  | (Ok _, (s', _)) => s' = {| st_manifest := st_manifest s; st_blocks := <[bk_index b := b]> (st_blocks s); st_limits := st_limits s |}
  | (Err e, _) => no_room owner e
  end.
Proof using Type.
  intros Hc Hn. unfold accept, mbind, fallible_bind, gets, lift. simpl. rewrite Hc, Hn. pose proof (held_charge_fails owner room capacity b) as Hh.
  destruct (held_charge room capacity b) as [charge|e]; [|by apply Hh]. unfold on_fund_only. pose proof (reserve_for_fails owner BudgetKind.Recovery charge f) as Hr.
  destruct (reserve_for BudgetKind.Recovery charge f) as [[[]|e] f1] eqn:E; [done|by eapply Hr].
Qed.
Lemma accept_all_ok owner rooms l s f : NoDup l.*1 → (∀ i b, (i, b) ∈ l → bk_index b = i ∧ check_block s b = Ok () ∧ st_blocks s !! i = None) →
  match accept_all rooms l (s, f) with
  | (Ok _, (s', _)) => s' = {| st_manifest := st_manifest s; st_blocks := list_to_map l ∪ st_blocks s; st_limits := st_limits s |}
  | (Err e, _) => no_room owner e
  end.
Proof using Type.
  revert s f. induction l as [|[i b] l IH]; intros s f Hnd Hl; cbn [accept_all].
  { destruct s. simpl. by rewrite (left_id_L ∅ (∪)). }
  apply NoDup_cons in Hnd as [Hi Hnd]. destruct (Hl i b ltac:(left)) as (Hb & Hc & Hn). unfold mbind, fallible_bind, lift. unfold refuse_if. rewrite decide_False by naive_solver.
  rewrite <-Hb in Hn. pose proof (accept_fresh owner (rooms i).1 (rooms i).2 b s f Hc Hn) as Ha. destruct (accept (rooms i).1 (rooms i).2 b (s, f)) as [[u|e] [s1 f1]]; [|done]. subst s1.
  assert (Hnext : ∀ j b', (j, b') ∈ l → bk_index b' = j ∧ check_block {| st_manifest := st_manifest s; st_blocks := <[bk_index b := b]> (st_blocks s); st_limits := st_limits s |} b' = Ok () ∧
    <[bk_index b := b]> (st_blocks s) !! j = None).
  { intros j b' Hj. destruct (Hl j b' ltac:(by right)) as (? & ? & ?). split_and!; [done|done|]. rewrite lookup_insert_ne; [done|]. intros E. apply Hi. rewrite <-Hb, E.
    by apply (list_elem_of_fmap_2' fst l (j, b')). }
  pose proof (IH {| st_manifest := st_manifest s; st_blocks := <[bk_index b := b]> (st_blocks s); st_limits := st_limits s |} f1 Hnd Hnext) as Hall.
  destruct (accept_all rooms l _) as [[u'|e] [s2 f2]]; [|done]. rewrite Hall. f_equal. simpl. rewrite Hb, <-insert_union_l. symmetry. apply insert_union_r.
  by apply not_elem_of_list_to_map_1.
Qed.
Lemma stage_snapshot_ok s f snap f' : stager_checkpoint s f = (Ok snap, f') →
  stage_bytes {| sg_schema := 1; sg_manifest := st_manifest s; sg_blocks := st_blocks s |} = Ok (sh_bytes snap) ∧
  N.of_nat (length (sh_bytes snap)) <= max_checkpoint_bytes (st_limits s) ∧ sh_hash snap = checkpoint_digest (sh_bytes snap).
Proof using Type.
  unfold stager_checkpoint. intros Hc. do 4 (apply fallible_bind_ok in Hc as (? & ? & [_ ->]%lift_ok & Hc)). apply fallible_bind_ok in Hc as ([] & ? & _ & [Hc _]%lift_ok).
  unfold snapshot_encode, range_encode in Hc. apply try_bind_ok in Hc as (bytes & Hb & [= <-]). apply try_bind_ok in Hb as (bytes' & Hb & Hlen).
  apply refuse_then_ok in Hlen as [Hlen [= ->]]. simpl. split_and!; [done|lia|done].
Qed.
Lemma stager_new_ok owner manifest limits f : range_limits_validate limits = Ok () → manifest_validate manifest limits = Ok () →
  match stager_new manifest limits f with
  | (Ok s, _) => s = {| st_manifest := manifest; st_blocks := ∅; st_limits := limits |}
  | (Err e, _) => no_room owner e
  end.
Proof using All.
  intros Hl Hm. destruct (stager_new manifest limits f) as [[s|e] f'] eqn:Hs.
  - apply stager_new_sound in Hs as (_ & ? & ? & ?). destruct s. simpl in *. by subst.
  - assert (Hf : run_fails_as (no_room owner) (stager_new manifest limits) f); [|by eapply Hf]. unfold stager_new. rewrite Hl, Hm.
    apply run_lift_bind; [by intros ?|]. intros _ _. apply run_lift_bind; [by intros ?|]. intros _ _. apply run_lift_bind; [apply range_mul_fails|]. intros blocks _.
    apply run_lift_bind; [apply range_add_fails|]. intros charge _. apply run_bind; [apply reserve_for_fails|]. intros [] f1 _. apply run_ok.
Qed.
(** What a stager wrote restores to the same stager. *)
Lemma stager_restore_ok `{!ReplicaWireLaws} owner s f snap f' rooms f2 : stager_sound s → stager_checkpoint s f = (Ok snap, f') →
  match stager_restore (sh_bytes snap) (sh_hash snap) (st_limits s) rooms f2 with (Ok s', _) => s' = s | (Err e, _) => no_room owner e end.
Proof using All.
  intros Hs Hsnap. apply stage_snapshot_ok in Hsnap as (Hb & Hlen & ->). apply stage_roundtrip in Hb. pose proof Hs as [Hl Hm Hblocks].
  assert (Hcount : N.of_nat (size (st_blocks s)) <= max_blocks (st_limits s)).
  { assert (Hmax : N.of_nat (length (sm_blocks (st_manifest s))) <= max_blocks (st_limits s)).
    { unfold manifest_validate in Hm. apply try_bind_ok in Hm as ([] & _ & Hm). apply refuse_then_ok in Hm as [[_ ?]%Decidable.not_or _]. lia. }
    assert (Hlt : ∀ k, is_Some (st_blocks s !! k) → k < N.of_nat (length (sm_blocks (st_manifest s)))).
    { intros k [b Hk]. destruct (Hblocks k b Hk) as [<- Hc]. apply check_block_ok in Hc as (d & Hd%lookup_lt_Some & _). lia. }
    rewrite <-length_entries, (entries_listing _ _ Hlt). unfold listing.
    pose proof (length_omap (λ i, (λ b, (N.of_nat i, b)) <$> st_blocks s !! N.of_nat i) (seq 0 (length (sm_blocks (st_manifest s))))) as Ho. rewrite length_seq in Ho. lia. }
  set (c := {| sg_schema := 1; sg_manifest := st_manifest s; sg_blocks := st_blocks s |}) in *.
  unfold stager_restore, mbind, fallible_bind, lift. pose proof (read_checkpoint_ok stage_take (sh_bytes snap) (st_limits s) c owner f2 Hb Hlen) as Hr.
  destruct (read_checkpoint _ _ _ _ f2) as [[c'|e] f3]; [|done]. subst c'. unfold refuse_if. rewrite decide_False by (simpl; lia).
  pose proof (stager_new_ok owner (sg_manifest c) (st_limits s) f3 Hl Hm) as Hn. destruct (stager_new _ _ f3) as [[s0|e] f4]; [|done]. subst s0. simpl.
  pose proof (accept_all_ok owner rooms (Prelude.entries (st_blocks s)) {| st_manifest := st_manifest s; st_blocks := ∅; st_limits := st_limits s |} f4 (entries_fst_nodup _)) as Ha.
  destruct (accept_all rooms _ _) as [[[]|e] [s1 f5]]; [rewrite Ha|apply Ha]; try (intros i b Hi%elem_of_entries; destruct (Hblocks i b Hi); by split_and!).
  destruct s. simpl. f_equal. rewrite (right_id_L ∅ (∪)). apply map_eq. intros k. apply option_eq. intros b. rewrite <-elem_of_list_to_map by apply entries_fst_nodup. apply elem_of_entries.
Qed.
End Restaging.

(** ** Installed seeds *)
Section Installing.
Context `{RangeWire, ReplicaWire, ReplicaLayout, F : Funding, Z : PageSizes, SnapshotSizes}.
Context (base full : N) (Hbase : page_charge 0 0 = Ok base) (Hfull : node_charge MAX = Ok full).
#[local] Set Default Proof Using "Type Hbase Hfull".
(** What an installed replica is. *)
Record installed (s : RangeStager) (r : RangeReplica) : Prop := {
  in_sound : replica_sound base r;
  in_rows : entry_row <$> replica_rows r = staged_rows s;
  in_seed : replica_prefix r = sm_prefix (st_manifest s) ∧ rr_seed r = sm_prefix (st_manifest s) ∧ manifest_hash (st_manifest s) = Ok (rr_snapshot r);
  in_role : rr_role r = ReplicaRole.Staging (sm_operation (st_manifest s)) (sm_source_epoch (st_manifest s)) (sm_target_epoch (st_manifest s));
  in_self : rr_ledger r = sm_ledger (st_manifest s) ∧ rr_descriptor r = sm_destination (st_manifest s) ∧ rr_receipts r = ∅;
}.
Lemma install_ok s room incarnation owner address f : stager_sound s → size (st_blocks s) = length (sm_blocks (st_manifest s)) →
  base + rows_weight (row_entry room <$> staged_rows s) <= u64_max → N.of_nat (length (staged_rows s)) <= u64_max →
  match install s room incarnation owner address f with
  | (Ok r, _) => installed s r
  | (Err e, _) => no_room owner e ∨ manifest_hash (st_manifest s) = Err e
  end.
Proof.
  intros Hs Hsize Hw Hn. destruct (staged_sorted s Hs Hsize) as (Hord & Hspan & Hlen & Hd). pose proof (sw_limits _ Hs) as Hl.
  unfold install, mbind, fallible_bind, lift. unfold refuse_if. rewrite decide_False by (intros Hne; by apply Hne).
  pose proof (from_rows_ok base full Hbase Hfull incarnation (sm_prefix (st_manifest s)) (st_limits s) owner address room (staged_rows s) f Hl Hord Hw Hn) as Hm.
  destruct (errors_as RangeError.Memory _ f) as [[store|e] f1]; [|by left]. destruct Hm as (Hcfg & Hp & Hrows & Hsound & Hprefix).
  destruct (manifest_hash (st_manifest s)) as [hash|e] eqn:Hh; [|by right].
  pose proof (from_store_ok (sm_ledger (st_manifest s)) (sm_destination (st_manifest s))
    (ReplicaRole.Staging (sm_operation (st_manifest s)) (sm_source_epoch (st_manifest s)) (sm_target_epoch (st_manifest s))) (sm_prefix (st_manifest s)) hash store ∅ None
    (st_limits s) owner f1 Hl) as Hr. destruct (from_store _ _ _ _ _ _ _ _ _ f1) as [[r|e] f2]; [|by left].
  set (c := {| rq_schema := 1; rq_ledger := sm_ledger (st_manifest s); rq_descriptor := sm_destination (st_manifest s);
    rq_role := ReplicaRole.Staging (sm_operation (st_manifest s)) (sm_source_epoch (st_manifest s)) (sm_target_epoch (st_manifest s));
    rq_seed := sm_prefix (st_manifest s); rq_snapshot := hash; rq_prefix := sm_prefix (st_manifest s); rq_rows := staged_rows s; rq_receipts := ∅; rq_armed := None |}).
  assert (Hc : check_checkpoint c (st_limits s) = Ok ()).
  { apply check_checkpoint_ok. simpl. rewrite map_size_empty. split_and!; try done; [lia|]. by intros seq Hk%lookup_empty_is_Some. }
  destruct (checked_makes base c (st_limits s) store room Hc Hl Hcfg Hp Hrows Hsound Hprefix) as [Hrs Hrc]. cbn [c rq_ledger rq_descriptor rq_role rq_seed rq_snapshot rq_receipts rq_armed] in Hrs, Hrc.
  rewrite <-Hr in Hrs, Hrc. split; [done|by apply (f_equal rq_rows) in Hrc| | |]; subst r; done.
Qed.
End Installing.
