(* ===== verification/ReplicaProperties.v ===== *)
(** * What range replicas promise

    A replica applies the committed batches of its range in order, each once, and
    reads as the log replayed; once sealed it is never written again; what it
    checkpoints restores; and a seed that was staged block by block installs as
    exactly the rows its manifest lists. *)
From stdpp Require Import prelude gmap strings list sorting relations.
From Stdlib Require Import NArith.
From S2P Require Import Prelude Fallible Objects Budget RangeMap RangeTypes RangePins RangeTransfer Pages PagesLaws PageDirectory PageTree PageStore PageRows PageBuilds PagePlans PageStoreLaws PageRefusals PageProperties Snapshots SnapshotLaws SnapshotProperties Replica ReplicaLaws.
#[local] Open Scope N_scope.

Section Replicas.
Context `{RangeWire, ReplicaWire, ReplicaLayout, F : PageDirectory.Funding, Z : PageSizes, SnapshotSizes}.
Context (base full : N) (Hbase : page_charge 0 0 = Ok base) (Hfull : node_charge MAX = Ok full).
#[local] Set Default Proof Using "Type Hbase Hfull".
Implicit Types (r : RangeReplica) (batch : RangeBatch) (verifier : RangeVerifier) (room : StorageKey → N).
(** C36: A replica replays its log: through any preparations, publications (of stale
    candidates too), movements, clocks and pins, it stays sound, its prefix counts
    the batches it applied, those are the consecutive batches past the prefix it
    began with, each with a verified commit, and its rows are those it began with
    updated batch by batch. *)
Theorem replica_replays_log verifier r0 w : replica_sound base r0 → rtc (replica_step base verifier) (running r0 [] []) w →
  replica_sound base (rx_replica w) ∧ replica_prefix (rx_replica w) = replica_prefix r0 + N.of_nat (length (rx_log w)) ∧
  (∀ i batch, rx_log w !! i = Some batch → rb_sequence batch = replica_prefix r0 + N.of_nat i + 1 ∧ committed verifier (rr_ledger r0) batch) ∧
  ∀ k, replica_get (rx_replica w) k = foldl (λ m batch, apply_writes m (rb_writes batch)) (values r0) (rx_log w) !! k.
Proof.
  intros Hs Hsteps. pose proof (steps_sound base full Hbase Hfull verifier r0 _ _ Hsteps (run_start base verifier r0 Hs)) as [Hs' _ _ Hv Hp Hl].
  split_and!; [done|done|done|]. intros k. by rewrite (replica_reads base _ _ Hs'), Hv.
Qed.
(** C37: A batch is applied once. At any state of a replica's run, a batch that
    is prepared and published (its rows and the replica's counted in 64 bits) is either one applied before, which changes nothing,
    or the next one, whose writes it makes; its receipt is then held. At every
    later state of the run, whatever was prepared, published, moved or pinned since,
    no batch at that place of the sequence has been applied after it; a batch at
    that place that prepares has the receipt's hash and no rows, so publishing it
    changes nothing, and for the same batch succeeds with the same proof; and one
    that passes the checks of ledger, range, epoch, span, order and seal is refused
    as too old once the receipt is trimmed, and as a conflict while it is held if
    its hash is another. *)
Theorem batch_applied_once verifier r0 r qs log batch room address f q f' proof r' : replica_sound base r0 →
  rtc (replica_step base verifier) (running r0 [] []) (running r qs log) →
  addressable base (rs_root (rr_store r)) (write_change room <$> rb_writes batch) → prepare_replica_batch r batch room address f = (Ok q, f') →
  publish_replica_batch q proof verifier r = (Ok (), r') →
  (rb_sequence batch <= replica_prefix r ∧ r' = r ∨
   rb_sequence batch = replica_prefix r + 1 ∧ replica_prefix r' = rb_sequence batch ∧ values r' = apply_writes (values r) (rb_writes batch)) ∧
  rr_receipts r' !! rb_sequence batch = Some (pb_hash q) ∧
  ∀ w, rtc (replica_step base verifier) (running r' (q :: qs) (logged (Ok ()) q log)) w →
    (∀ i b, rx_log w !! i = Some b → rb_sequence b = rb_sequence batch → (i < length (logged (Ok ()) q log))%nat) ∧
    ∀ batch2 room2 address2 f2, rb_sequence batch2 = rb_sequence batch → let '(x, _) := prepare_replica_batch (rx_replica w) batch2 room2 address2 f2 in
      (∀ q2, x = Ok q2 → batch_hash batch2 = Ok (pb_hash q) ∧ pb_prepared q2 = None ∧ (∀ proof2, (publish_replica_batch q2 proof2 verifier (rx_replica w)).2 = rx_replica w) ∧
         (batch2 = batch → publish_replica_batch q2 proof verifier (rx_replica w) = (Ok (), rx_replica w))) ∧
      (∀ hash, check_batch (rx_replica w) batch2 = Ok () → batch_hash batch2 = Ok hash →
         (rr_receipts (rx_replica w) !! rb_sequence batch = None → x = Err RangeError.RetryTooOld) ∧
         (is_Some (rr_receipts (rx_replica w) !! rb_sequence batch) → hash ≠ pb_hash q → x = Err RangeError.Conflict)).
Proof.
  intros Hs Hbefore Ha Hprep Hpub. pose proof (steps_sound base full Hbase Hfull verifier r0 _ _ Hbefore (run_start base verifier r0 Hs)) as Hrun.
  pose proof (ru_sound _ _ _ _ Hrun) as Hsr. pose proof (prepare_replica_ok base full Hbase Hfull _ _ _ _ _ _ _ Hsr Ha Hprep) as Hp.
  destruct (publish_once base full Hbase Hfull r batch room q proof verifier r' Hsr Hp Hpub) as (Heffect & Hknown & Hle & Hrole & Hl). split_and!; [done|done|].
  assert (Hrun' : run_sound base verifier r0 (running r' (q :: qs) (logged (Ok ()) q log))).
  { eapply (steps_sound base full Hbase Hfull); [|exact Hrun]. eapply rtc_l; [by eapply run_prepare|]. eapply rtc_once, run_publish; [left|exact Hpub]. }
  intros w Hafter. pose proof (steps_sound base full Hbase Hfull verifier r0 _ _ Hafter Hrun') as Hw.
  destruct (steps_kept base full Hbase Hfull _ _ _ _ Hafter Hrun') as [Hle' Hkept]. cbn [running rx_replica] in Hle', Hkept. split.
  { intros i b [Hi _]%(ru_log _ _ _ _ Hw) Hb. pose proof (ru_prefix _ _ _ _ Hrun') as Hpre. cbn [running rx_replica rx_log] in Hpre. lia. }
  intros batch2 room2 address2 f2 Hseq. destruct (prepare_replica_batch (rx_replica w) batch2 room2 address2 f2) as [x f3] eqn:Hprep2. split.
  - intros q2 ->. pose proof (prepare_held _ _ _ _ _ _ _ Hprep2 ltac:(lia)) as Hk. rewrite Hseq in Hk. apply Hkept in Hk; [|done]. rewrite Hknown in Hk. injection Hk as Hk.
    pose proof (prepare_replica_shape _ _ _ _ _ _ _ Hprep2) as (_ & Hh & Hnone). assert (Hq2 : pb_prepared q2 = None) by (apply Hnone; lia).
    split_and!; [by rewrite Hk|done|intros proof2; by apply publish_nothing|]. intros ->. pose proof (po_batch _ _ _ _ _ Hp) as (? & _ & ? & ?).
    eapply publish_again; [exact Hpub|done| |lia|exact Hprep2]. rewrite (proj1 (ru_self _ _ _ _ Hw)). symmetry. apply (proj1 (ru_self _ _ _ _ Hrun)).
  - intros hash Hc Hh. destruct (prepare_old _ _ _ room2 address2 f2 Hc Hh ltac:(lia)) as [Hold Hconflict]. rewrite Hprep2, Hseq in Hold, Hconflict. split; [done|].
    intros [old Hold'] Hne. apply (Hconflict old Hold'). apply Hkept in Hold'; [|done]. congruence.
Qed.
(** C38: A sealed replica is fenced: once a run has sealed it, whatever is prepared,
    published (candidates from before the seal too), certified or pinned after that,
    it stays sealed for the same movement at the same cut, every row reads as at the
    seal, a batch that writes is refused, and it serves only reads of the old epoch
    at or before the cut, under no new token. *)
Theorem sealed_replica_fenced verifier r0 w w' operation epoch next_epoch cut : replica_sound base r0 → rtc (replica_step base verifier) (running r0 [] []) w →
  rr_role (rx_replica w) = ReplicaRole.Sealed operation epoch next_epoch cut → rtc (replica_step base verifier) w w' →
  rr_role (rx_replica w') = ReplicaRole.Sealed operation epoch next_epoch cut ∧ cut <= replica_prefix (rx_replica w') ∧
  (∀ k, replica_get (rx_replica w') k = replica_get (rx_replica w) k) ∧
  (∀ batch room address f, rb_writes batch ≠ [] → ∃ e, prepare_replica_batch (rx_replica w') batch room address f = (Err e, f)) ∧
  ∀ replica at_epoch prefix new_token, check_serving (rx_replica w') replica at_epoch prefix new_token = Ok () →
    new_token = false ∧ at_epoch = epoch ∧ prefix <= cut.
Proof.
  intros Hs Hbefore Hrole Hafter. pose proof (steps_sound base full Hbase Hfull verifier r0 _ _ Hbefore (run_start base verifier r0 Hs)) as Hrun.
  pose proof (steps_sound base full Hbase Hfull verifier r0 _ _ Hafter Hrun) as Hrun'. pose proof (ru_sound _ _ _ _ Hrun) as Hsw. pose proof (ru_sound _ _ _ _ Hrun') as Hsw'.
  destruct (sealed_steps base full Hbase Hfull verifier r0 w w' Hrun ltac:(by rewrite Hrole) Hafter) as [Hrole' Hv]. rewrite Hrole in Hrole'.
  pose proof (rv_role _ _ Hsw') as Hcut. unfold role_sound in Hcut. rewrite Hrole' in Hcut. split_and!; [done|apply Hcut| | |].
  - intros k. by rewrite (replica_reads base _ _ Hsw'), (replica_reads base _ _ Hsw), Hv.
  - intros batch room address f Hw. unfold prepare_replica_batch, mbind, fallible_bind, lift.
    destruct (check_batch (rx_replica w') batch) as [[]|e] eqn:Hc; [|by exists e]. apply sealed_batch in Hc; [done|by rewrite Hrole'].
  - intros replica at_epoch prefix token. unfold check_serving. rewrite Hrole'. intros [_ Hs'%refuse_if_ok]%refuse_then_ok. by apply dec_stable in Hs'.
Qed.
(** C39: A replica restores from its checkpoint: the bytes a replica wrote, read
    under its limits, restore to a sound replica with the same ledger, range, role,
    movement, seed, prefix, rows and receipts, whose state hashes the same, or fail
    for lack of room only; bytes that hash to something else are refused. *)
Theorem replica_checkpoint_restores `{!ReplicaWireLaws} r room f snap f' incarnation room2 owner address f2 : replica_sound base r →
  replica_checkpoint r room f = (Ok snap, f') → base + rows_weight (row_entry room2 <$> (entry_row <$> replica_rows r)) <= u64_max →
  N.of_nat (length (replica_rows r)) <= u64_max →
  match replica_restore (sh_bytes snap) (sh_hash snap) incarnation (rr_limits r) room2 owner address f2 with
  | (Ok r', _) => replica_sound base r' ∧ checkpoint_of r' = checkpoint_of r ∧ state_hash r' = state_hash r ∧ ∀ k, replica_get r' k = replica_get r k
  | (Err e, _) => no_room owner e
  end ∧
  ∀ bytes expected, checkpoint_digest bytes ≠ expected → replica_restore bytes expected incarnation (rr_limits r) room2 owner address f2 = (Err RangeError.Checksum, f2).
Proof.
  intros Hs (Hb & Hlen & Hh)%snapshot_ok Hw Hn. rewrite Hh. split.
  - pose proof (replica_restore_ok base full Hbase Hfull (sh_bytes snap) (checkpoint_of r) incarnation (rr_limits r) room2 owner address f2 (replica_roundtrip _ _ Hb) Hlen
      (sound_checks base r Hs) (rv_limits _ _ Hs) Hw ltac:(by simpl; rewrite length_fmap)) as Hr.
    destruct (replica_restore _ _ _ _ _ _ _ _) as [[r'|e] f3]; [|done]. destruct Hr as (Hs' & Hc & _). split_and!; [done|done|by apply checkpoint_state|].
    intros k. rewrite (replica_reads base _ _ Hs'), (replica_reads base _ _ Hs). rewrite (checkpoint_values r r' Hc). done.
  - intros bytes expected Hne. unfold replica_restore, read_checkpoint, mbind, fallible_bind, lift, refuse_if. by rewrite decide_True.
Qed.
(** C40: A staged seed installs as its manifest: however blocks arrive (again, out of
    order, with failures), a stager holds blocks that answer to their descriptors
    only, is not ready while one is missing, and once all are there installs a sound
    staging replica of the movement at the manifest's prefix, whose rows are the
    blocks' in the manifest's order, or fails for lack of room or a digest that
    cannot be made; and a stager restores from its checkpoint as it was. *)
Theorem staged_seed_installs `{!ReplicaWireLaws} manifest limits f s0 f' s room incarnation owner address f2 : stager_new manifest limits f = (Ok s0, f') →
  rtc accepts s0 s → base + rows_weight (row_entry room <$> staged_rows s) <= u64_max → N.of_nat (length (staged_rows s)) <= u64_max →
  (∀ i b, st_blocks s !! i = Some b → ∃ d, sm_blocks manifest !! N.to_nat i = Some d ∧ block_matches d b) ∧
  (size (st_blocks s) ≠ length (sm_blocks manifest) → install s room incarnation owner address f2 = (Err RangeError.NotReady, f2)) ∧
  (size (st_blocks s) = length (sm_blocks manifest) → match install s room incarnation owner address f2 with
    | (Ok r, _) => installed base s r ∧ ∃ blocks, Forall2 block_matches (sm_blocks manifest) blocks ∧ entry_row <$> replica_rows r = concat (bk_rows <$> blocks)
    | (Err e, _) => no_room owner e ∨ manifest_hash manifest = Err e end) ∧
  ∀ f3 snap f4 rooms f5, stager_checkpoint s f3 = (Ok snap, f4) →
    match stager_restore (sh_bytes snap) (sh_hash snap) limits rooms f5 with (Ok s', _) => s' = s | (Err e, _) => no_room owner e end.
Proof using All.
  intros (Hs0 & Hm0 & Hl0 & _)%stager_new_sound Hacc Hw Hn. destruct (accepts_sound _ _ Hacc Hs0) as (Hs & Hm & Hl). rewrite Hm0 in Hm. rewrite Hl0 in Hl. split_and!.
  - intros i b Hi. destruct (sw_blocks _ Hs i b Hi) as [<- Hc]. apply check_block_ok in Hc as (d & Hd & Hb). rewrite Hm in Hd. by exists d.
  - intros Hne. unfold install, mbind, fallible_bind, lift, refuse_if. by rewrite decide_True by (by rewrite Hm).
  - intros Hsize. rewrite <-Hm in Hsize. pose proof (install_ok base full Hbase Hfull s room incarnation owner address f2 Hs Hsize Hw Hn) as Hi.
    destruct (install s room incarnation owner address f2) as [[r|e] f3]; [|by rewrite <-Hm]. split; [done|]. rewrite <-Hm. eexists. split; [by apply stager_full|].
    rewrite (in_rows _ _ _ Hi), staged_rows_blocks. apply flat_map_concat_map.
  - intros f3 snap f4 rooms f5 Hsnap. rewrite <-Hl. by eapply stager_restore_ok.
Qed.
End Replicas.

(** ** A replica that replays, is sealed and is written out, and a seed *)
Module Replicating.
#[export] Instance pages : PageSizes := Paging.sizes.
#[export] Instance snapshots : SnapshotSizes := Leased.snapshot_sizes.
#[export] Instance levels : Layout := Paging.layout.
#[export] Instance funding : PageDirectory.Funding := budget_funding 0.
#[export] Instance replica_layout : ReplicaLayout :=
  {| size_of_RangeStager := 200; size_of_BlockDescriptor := 100; size_of_HeldBlock := 40; size_of_DataRow := 60; size_of_RangeReplica := 300; size_of_Receipt := 40 |}.
(** A digest that tells batches by their sequence and transaction apart. *)
#[export] Instance wire : RangeWire :=
  {| digest := λ _ v, Ok (match v with Hashed.Batch b => 1000 * rb_sequence b + rb_transaction b | _ => 7 end); operation_size := λ _, Ok 100; checkpoint_size := λ _, Ok 1000 |}.
Definition memory : Levels := Eval vm_compute in (budget_new 100000000 0 levels_new).2.
Definition start : fund := (memory, []).
Definition base : N := 128.
Definition full : N := 392.
Definition ledger : LedgerId := {| tenant := 3; session := 4 |}.
Definition owner : ReplicaId := {| rp_node := 1; rp_generation := 1 |}.
Definition key (n : N) : StorageKey := storage_key_bucket n 1 0.
Definition range (generation : N) : Descriptor :=
  {| rd_id := 1; rd_generation := generation; rd_span := {| sp_start := None; sp_end := Some (key 100) |}; rd_meta := placement_replica owner |}.
Definition data (k : N) (v : list N) : DataRow := {| dw_key := key k; dw_value := v |}.
Definition batch (sequence transaction : N) (writes : list RangeWrite) : RangeBatch :=
  {| rb_ledger := ledger; rb_epoch := 1; rb_range := 1; rb_range_generation := 1; rb_sequence := sequence; rb_transaction := transaction;
     rb_predecessor_reads := 3; rb_decision := 4; rb_writes := writes |}.
Definition limits := range_limits_default.
Definition room (k : StorageKey) : N := 8.
Definition proof_of (sequence : SessionSeq) : CommitProof :=
  {| cm_ledger := ledger; cm_ordinal := 0; cm_sequence := sequence; cm_index := sequence; cm_term := 1; cm_command := 4; cm_attestation := 5 |}.
Definition verifier : RangeVerifier :=
  {| vf_commit := λ _, Ok (); vf_batch := λ _ _, Ok (); vf_source_seal := λ _, Ok (); vf_destination_ready := λ _, Ok (); vf_recovery := λ _, Ok ();
     vf_progress := λ _, Ok (); vf_read := λ _, Ok () |}.
Definition block_a : RangeBlock := {| bk_index := 0; bk_rows := [data 10 [1]; data 20 [2]] |}.
Definition block_b : RangeBlock := {| bk_index := 1; bk_rows := [data 30 [3]] |}.
Definition listed (index rows first last : N) : BlockDescriptor :=
  {| bd_index := index; bd_rows := rows; bd_bytes := 50; bd_first := key first; bd_last := key last; bd_hash := 7 |}.
Definition manifest : SeedManifest :=
  {| sm_ledger := ledger; sm_operation := 50; sm_source_epoch := 1; sm_target_epoch := 2; sm_destination := range 2; sm_prefix := 12;
     sm_blocks := [listed 0 2 10 20; listed 1 1 30 30] |}.
Definition first_batch := batch 1 8 [RangeWrite.Put (data 10 [1; 1]); RangeWrite.Put (data 20 [2])].
Definition second_batch := batch 2 9 [RangeWrite.Delete (key 10); RangeWrite.Put (data 30 [3])].
(** What the replica and the stager below write, and the bytes of it. *)
Definition written : ReplicaCheckpoint :=
  {| rq_schema := 1; rq_ledger := ledger; rq_descriptor := range 1; rq_role := ReplicaRole.Active 1; rq_seed := 0; rq_snapshot := 0; rq_prefix := 2;
     rq_rows := [data 20 [2]; data 30 [3]]; rq_receipts := {[ 1 := 1008; 2 := 2009 ]}; rq_armed := None |}.
Definition staged : StageCheckpoint := {| sg_schema := 1; sg_manifest := manifest; sg_blocks := {[ 0 := block_a; 1 := block_b ]} |}.
#[local] Instance checkpoint_eq_dec : EqDecision ReplicaCheckpoint.
Proof. solve_decision. Defined.
#[local] Instance listed_eq_dec : EqDecision BlockDescriptor.
Proof. solve_decision. Defined.
#[local] Instance manifest_eq_dec : EqDecision SeedManifest.
Proof. solve_decision. Defined.
#[local] Instance staged_eq_dec : EqDecision StageCheckpoint.
Proof. solve_decision. Defined.
#[export] Instance replica_wire : ReplicaWire := {|
  block_size := λ _, Ok 50; manifest_size := λ _, Ok 200; batch_size := λ _, Ok 100;
  stage_bytes := λ c, if decide (c = staged) then Ok [5; 6] else Err RangeError.Codec;
  stage_take := λ b, match b with [5; 6] => Ok (staged, []) | _ => Err RangeError.Codec end;
  replica_bytes := λ c, if decide (c = written) then Ok [1; 2; 3] else Err RangeError.Codec;
  replica_take := λ b, match b with [1; 2; 3] => Ok (written, []) | _ => Err RangeError.Codec end;
  checkpoint_digest := foldl N.add 40
|}.
#[export] Instance replica_wire_laws : ReplicaWireLaws.
Proof. split; intros c bytes; simpl; case_decide; [intros [= <-]; by subst|done|intros [= <-]; by subst|done]. Qed.
Lemma replica_base_page : page_charge 0 0 = Ok base.
Proof. reflexivity. Qed.
Lemma replica_full_node : node_charge MAX = Ok full.
Proof. reflexivity. Qed.
Definition ok_of {A E} (default : A) {S} (x : Try E A * S) : A := match x.1 with Ok y => y | Err _ => default end.
Definition no_replica : RangeReplica :=
  {| rr_ledger := ledger; rr_descriptor := range 1; rr_role := ReplicaRole.Retired; rr_seed := 0; rr_snapshot := 0;
     rr_store := {| rs_root := {| ro_address := 0; ro_owner := 0; ro_range := 0; ro_prefix := 0; ro_pages := directory_new; ro_len := 0 |};
       rs_config := store_config limits; rs_partition := None; rs_state := 0; rs_states := 0; rs_pins := ∅; rs_next_lease := 1; rs_clock := 0 |};
     rr_receipts := ∅; rr_armed := None; rr_limits := limits |}.
Definition empty : RangeReplica := Eval vm_compute in ok_of no_replica (replica_empty ledger (range 1) 1 7 limits (Ok 1) 100 start).
Definition no_batch : PreparedReplicaBatch :=
  {| pb_base_role := ReplicaRole.Retired; pb_sequence := 0; pb_hash := 0; pb_decision := 0; pb_prepared := None; pb_receipts := ∅; pb_batch := batch 0 0 [] |}.
Definition first_prepared : PreparedReplicaBatch := Eval vm_compute in ok_of no_batch (prepare_replica_batch empty first_batch room 101 start).
Definition first_fund : fund := Eval vm_compute in (prepare_replica_batch empty first_batch room 101 start).2.
Definition applied : RangeReplica := Eval vm_compute in (publish_replica_batch first_prepared (proof_of 1) verifier empty).2.
Definition second_prepared : PreparedReplicaBatch := Eval vm_compute in ok_of no_batch (prepare_replica_batch applied second_batch room 102 start).
Definition second_fund : fund := Eval vm_compute in (prepare_replica_batch applied second_batch room 102 start).2.
Definition replayed : RangeReplica := Eval vm_compute in (publish_replica_batch second_prepared (proof_of 2) verifier applied).2.
Lemma empty_is_sound : replica_sound base empty.
Proof.
  assert (Hrun : replica_empty ledger (range 1) 1 7 limits (Ok 1) 100 start = (Ok empty, (replica_empty ledger (range 1) 1 7 limits (Ok 1) 100 start).2)) by (vm_compute; reflexivity).
  by apply (empty_sound base full replica_base_page replica_full_node) in Hrun as [? _].
Qed.
Lemma first_run : prepare_replica_batch empty first_batch room 101 start = (Ok first_prepared, first_fund).
Proof. vm_compute. reflexivity. Qed.
Lemma first_published : publish_replica_batch first_prepared (proof_of 1) verifier empty = (Ok (), applied).
Proof. vm_compute. reflexivity. Qed.
Lemma first_addressable : addressable base (rs_root (rr_store empty)) (write_change room <$> rb_writes first_batch).
Proof. vm_compute. by split. Qed.
(** The two batches prepared and published, one after the other. *)
Lemma replay_steps : rtc (replica_step base verifier) (running empty [] []) (running replayed [second_prepared; first_prepared] [first_batch; second_batch]).
Proof.
  eapply rtc_l; [by eapply run_prepare; [apply first_addressable|apply first_run]|].
  eapply rtc_l; [eapply (run_publish _ _ empty [first_prepared] [] first_prepared (proof_of 1) (Ok ()) applied); [left|apply first_published]|].
  eapply rtc_l; [eapply (run_prepare _ _ applied _ _ second_batch room 102 start second_prepared second_fund); [vm_compute; by split|vm_compute; reflexivity]|].
  apply rtc_once, (run_publish _ _ applied [second_prepared; first_prepared] [first_batch] second_prepared (proof_of 2) (Ok ()) replayed); [left|vm_compute; reflexivity].
Qed.
Lemma replica_replays_log_witness : replica_sound base replayed ∧ replica_prefix replayed = 2 ∧ replica_get replayed (key 10) = None ∧ replica_get replayed (key 20) = Some [2].
Proof.
  destruct (replica_replays_log base full replica_base_page replica_full_node verifier empty _ empty_is_sound replay_steps) as (Hs & Hp & _ & Hg). cbn [running rx_replica rx_log] in *.
  split_and!; [done|rewrite Hp; reflexivity|rewrite Hg; reflexivity|rewrite Hg; reflexivity].
Defined.
Definition conflicting : RangeBatch := batch 1 5 [].
Lemma batch_applied_once_witness : values applied !! key 10 = Some [1; 1] ∧ rr_receipts applied !! 1 = Some (pb_hash first_prepared) ∧
  (prepare_replica_batch applied conflicting room 103 start).1 = Err RangeError.Conflict.
Proof.
  destruct (batch_applied_once base full replica_base_page replica_full_node verifier empty empty [] [] first_batch room 101 start first_prepared first_fund (proof_of 1) applied
    empty_is_sound (rtc_refl _ _) first_addressable first_run first_published) as (Heffect & Hkept & Hlater). split; [|split; [exact Hkept|]].
  - destruct Heffect as [[Hle _]|(_ & _ & ->)]; [vm_compute in Hle; by destruct Hle|]. reflexivity.
  - destruct (Hlater _ (rtc_refl _ _)) as [_ Hagain]. specialize (Hagain conflicting room 103 start ltac:(vm_compute; reflexivity)).
    cbn [running rx_replica] in Hagain. destruct (prepare_replica_batch applied conflicting room 103 start) as [x f3]. destruct Hagain as [_ Hrefused].
    apply (Hrefused 1005); [vm_compute; reflexivity|vm_compute; reflexivity|vm_compute; by eexists|vm_compute; discriminate].
Defined.
(** The replica armed and sealed at its first batch, with the second prepared. *)
Definition intent : RangeIntent :=
  {| it_ledger := ledger; it_operation := 50; it_old_epoch := 1; it_sources := {[1]}; it_replacements := [range 2]; it_seed := 0 |}.
Definition control (ordinal : N) : CommitProof :=
  {| cm_ledger := ledger; cm_ordinal := ordinal; cm_sequence := 1; cm_index := ordinal; cm_term := 1; cm_command := 7; cm_attestation := 5 |}.
Definition armed : RangeReplica := Eval vm_compute in (arm {| ic_intent := intent; ic_commit := control 1 |} verifier applied).2.
Definition sealed : RangeReplica := Eval vm_compute in (seal {| bc_intent := intent; bc_commit := control 2 |} verifier armed).2.
Definition late : list PreparedReplicaBatch := [second_prepared; first_prepared].
Lemma seal_steps : rtc (replica_step base verifier) (running empty [] []) (running sealed late [first_batch]).
Proof.
  eapply rtc_l; [by eapply run_prepare; [apply first_addressable|apply first_run]|].
  eapply rtc_l; [eapply (run_publish _ _ empty [first_prepared] [] first_prepared (proof_of 1) (Ok ()) applied); [left|apply first_published]|].
  eapply rtc_l; [eapply (run_prepare _ _ applied _ _ second_batch room 102 start second_prepared second_fund); [vm_compute; by split|vm_compute; reflexivity]|].
  eapply rtc_l; [eapply (run_arm _ _ applied _ _ {| ic_intent := intent; ic_commit := control 1 |} (Ok ()) armed); vm_compute; reflexivity|].
  eapply rtc_once, (run_seal _ _ armed _ _ {| bc_intent := intent; bc_commit := control 2 |} (Ok ()) sealed). vm_compute. reflexivity.
Qed.
Lemma late_steps : rtc (replica_step base verifier) (running sealed late [first_batch]) (running sealed late [first_batch]).
Proof. eapply rtc_once, (run_publish _ _ sealed late [first_batch] second_prepared (proof_of 2) (Err RangeError.StalePreparation)); [left|vm_compute; reflexivity]. Qed.
Lemma sealed_replica_fenced_witness : rr_role sealed = ReplicaRole.Sealed 50 1 2 1 ∧ replica_get sealed (key 10) = Some [1; 1] ∧
  (∃ e, prepare_replica_batch sealed second_batch room 104 start = (Err e, start)) ∧ (check_serving sealed owner 1 1 true = Ok () → False).
Proof.
  destruct (sealed_replica_fenced base full replica_base_page replica_full_node verifier empty _ _ 50 1 2 1 empty_is_sound seal_steps ltac:(vm_compute; reflexivity) late_steps)
    as (Hrole & _ & _ & Hrefused & Hserve). cbn [running rx_replica] in *. split_and!; [exact Hrole|vm_compute; reflexivity|by apply Hrefused|].
  intros Hok. by destruct (Hserve _ _ _ _ Hok).
Defined.
Definition no_snapshot : RangeSnapshot := {| sh_bytes := []; sh_hash := 0 |}.
Definition snapshot : RangeSnapshot := Eval vm_compute in ok_of no_snapshot (replica_checkpoint replayed room start).
Definition restored : RangeReplica := Eval vm_compute in ok_of no_replica (replica_restore (sh_bytes snapshot) (sh_hash snapshot) 9 limits room (Ok 2) (λ n, 200 + N.of_nat n) start).
Lemma replayed_is_sound : replica_sound base replayed.
Proof. exact (ru_sound _ _ _ _ (steps_sound base full replica_base_page replica_full_node verifier empty _ _ replay_steps (run_start base verifier empty empty_is_sound))). Qed.
Lemma replica_checkpoint_restores_witness : sh_bytes snapshot = [1; 2; 3] ∧ checkpoint_of restored = checkpoint_of replayed ∧
  replica_restore [1; 2; 4] (sh_hash snapshot) 9 limits room (Ok 2) (λ n, 200 + N.of_nat n) start = (Err RangeError.Checksum, start).
Proof.
  assert (Hsnap : replica_checkpoint replayed room start = (Ok snapshot, (replica_checkpoint replayed room start).2)) by (vm_compute; reflexivity).
  destruct (replica_checkpoint_restores base full replica_base_page replica_full_node replayed room start snapshot _ 9 room (Ok 2) (λ n, 200 + N.of_nat n) start replayed_is_sound Hsnap
    ltac:(by vm_compute) ltac:(by vm_compute)) as [Hr Hrefused].
  assert (Hrun : replica_restore (sh_bytes snapshot) (sh_hash snapshot) 9 (rr_limits replayed) room (Ok 2) (λ n, 200 + N.of_nat n) start =
    (Ok restored, (replica_restore (sh_bytes snapshot) (sh_hash snapshot) 9 (rr_limits replayed) room (Ok 2) (λ n, 200 + N.of_nat n) start).2)) by (vm_compute; reflexivity).
  rewrite Hrun in Hr. split_and!; [reflexivity|apply Hr|]. apply Hrefused. by vm_compute.
Defined.
Definition no_stager : RangeStager := {| st_manifest := manifest; st_blocks := ∅; st_limits := limits |}.
Definition stager : RangeStager := Eval vm_compute in ok_of no_stager (stager_new manifest limits start).
Definition half : RangeStager := Eval vm_compute in (accept room 2 block_b (stager, start)).2.1.
Definition whole : RangeStager := Eval vm_compute in (accept room 2 block_a (half, start)).2.1.
Definition seeded : RangeReplica := Eval vm_compute in ok_of no_replica (install whole room 9 (Ok 2) (λ n, 200 + N.of_nat n) start).
Lemma stager_run : stager_new manifest limits start = (Ok stager, (stager_new manifest limits start).2).
Proof. vm_compute. reflexivity. Qed.
Lemma half_accepted : accepts stager half.
Proof. exists room, 2, block_b, start. eexists _, _. vm_compute. reflexivity. Qed.
Lemma whole_accepted : accepts half whole.
Proof. exists room, 2, block_a, start. eexists _, _. vm_compute. reflexivity. Qed.
Lemma staged_seed_installs_witness : install half room 9 (Ok 2) (λ n, 200 + N.of_nat n) start = (Err RangeError.NotReady, start) ∧
  installed base whole seeded ∧ entry_row <$> replica_rows seeded = [data 10 [1]; data 20 [2]; data 30 [3]].
Proof.
  destruct (staged_seed_installs base full replica_base_page replica_full_node manifest limits start stager _ half room 9 (Ok 2) (λ n, 200 + N.of_nat n) start stager_run
    (rtc_once _ _ half_accepted) ltac:(by vm_compute) ltac:(by vm_compute)) as (_ & Hmissing & _).
  destruct (staged_seed_installs base full replica_base_page replica_full_node manifest limits start stager _ whole room 9 (Ok 2) (λ n, 200 + N.of_nat n) start stager_run
    (rtc_l _ _ _ _ half_accepted (rtc_once _ _ whole_accepted)) ltac:(by vm_compute) ltac:(by vm_compute)) as (_ & _ & Hr & _).
  split; [apply Hmissing; by vm_compute|]. specialize (Hr ltac:(vm_compute; reflexivity)).
  assert (Hrun : install whole room 9 (Ok 2) (λ n, 200 + N.of_nat n) start = (Ok seeded, (install whole room 9 (Ok 2) (λ n, 200 + N.of_nat n) start).2)) by (vm_compute; reflexivity).
  rewrite Hrun in Hr. destruct Hr as [Hi _]. split; [done|]. rewrite (in_rows _ _ _ Hi). vm_compute. reflexivity.
Defined.
End Replicating.
